(* ===== verification/_CoqProject ===== *)
-Q . S2P
Prelude.v
Accelerator.v
Budget.v
NodeView.v
InFlight.v
Limiter.v
QuotaConfig.v
QuotaCharge.v
QuotaInventory.v
GoFloat.v
FloatBounds.v
FloatError.v
GoCmp.v
Heap.v
Domain.v
BorrowPools.v
BorrowConstraints.v
BorrowGovernor.v
BorrowUnit.v
BorrowRelease.v
BorrowRuns.v
WakeSelect.v
Enforcer.v
Signals.v
WaterFill.v
ScaleDown.v
PairFit.v
ScaleUp.v
Attribution.v
Greedy.v
Headroom.v
Rescale.v
RescaleFill.v
RescaleNodes.v
RescaleSafety.v
RescalePass.v
OptimizePass.v
ShareTarget.v
ShareInteger.v
ShareContinuous.v
Ledger.v
LedgerSafety.v
LedgerTrace.v
LedgerHistory.v
ShareHistory.v
Sticky.v
Snapshots.v
Stores.v
WarmPolicy.v
