(* ===== verification/Prelude.v ===== *)
(** * llm-scaling-manager: a verification library

    ** The program

    The repository is a Kubernetes controller that decides how many replicas each
    variant of a served model should have.  A cycle of the steady-state engine
    ([internal/engines/steadystate]) measures demand, asks the limiters what GPUs
    are available, lets an optimizer choose targets within those budgets and on
    the nodes' free GPUs ([internal/engines/allocation]), enforces the
    scale-to-zero policy and publishes the decisions ([internal/decision]), from
    which the external scaler answers KEDA.  Two other loops share that state:
    the scale-from-zero engine, which wakes parked models, and the warm pool
    ([internal/warmpool]), which lends Pods that hold sleeping copies of models.

    ** What is modelled, and where

    - [Prelude]: 64-bit arithmetic that wraps, sums over lists and maps, stable
      sorting, [sort.Slice] as a class ([GoSort]), string searching, [Atoi] and
      [Itoa].
    - [Accelerator] ([internal/accelerator]): names of accelerators, families and
      products, the budget key a name resolves to ([FindBudgetKey]), the bound an
      allowlist puts on a name.
    - [Budget] ([budget_merge.go], [gpu_budget.go]): the intersection of the
      providers' constraints ([mergeConstraints]), per-namespace budgets, the
      debit of a spend with the clamp of products to their family, the total, and
      the check of a demand ([FitsGPUBudget]).
    - [NodeView] ([node_view.go], [borrow_node_fit.go]): free GPUs per node, node
      eligibility, best-fit placement of a replica's pods in one topology domain
      ([place], [PlaceReplicas]), reservations, clones, and placement against
      growth that Kueue reclaims.
    - [InFlight] ([inflight.go], [inflight_persist.go], [node_gpus.go]): replicas
      admitted whose pods hold no node yet, the clock of their holds, what the
      holds take from a view, and what survives a restart.
    - [Limiter] ([type_inventory.go], [default_limiter.go]): the inventory
      interface as a class with its law, the physical inventory as an instance,
      and the constraints a limiter exposes.
    - [QuotaConfig] ([config/quota_limiter.go]): quota entries, their lookup and the
      entry bounded by an external snapshot.  [QuotaCharge] ([quota_charge.go]): what
      others hold, taken off Kueue's figures.  [QuotaInventory]
      ([quota_inventory.go]): the quota inventory, a second instance of the interface.
    - [BorrowPools] ([borrow_constraints.go], [LenderState] of [internal/kueue]): the
      cohorts' free GPUs, what a model may draw, the merge of two reads.
      [BorrowConstraints] ([borrow_constraints.go], [borrow_gated.go]): the GPUs held
      past a namespace's figure, the constraints without borrowing.  [BorrowGovernor] ([borrow_governor.go]): cooldowns and
      backoff after a preemption, the debounce of waiting lenders, a cycle's
      observation, and the ledger that survives a restart.  [BorrowUnit]: the replicas
      that go together when some of a variant are released.  [BorrowRelease]: the
      releases of a cycle.  [BorrowRuns]: the governor as a step relation.
    - [WakeSelect] ([scalefromzero/selection.go], [model_group.go]): the variants a
      wake from zero starts, the groups of parked variants and the roles models run.
    - [GoFloat]: [float64] as the Standard Library's [SpecFloat], each operation
      rounded on its own, the conversion to [int] as a class ([IntConv], with the
      amd64 and arm64 behaviours as instances), and the error of an operation.
      [FloatBounds] has the facts on signs, exact counts and finiteness,
      [FloatError] the relative error of operations and sums and the integers
      [float64] holds exactly; [GoCmp] has Go's [cmp.Compare] and [cmp.Or].
    - [Heap] (Go's [container/heap]): [Init], [Push], [Pop] over any less-than
      that is a total preorder ([PreorderLess]); a pop gives the least entry.
    - [Domain] ([internal/domain]): variants, analyzer signals and decisions.
    - [Signals] ([optimizer_interfaces.go], [query_api.go], [variant_records.go],
      [analyzer_helpers.go]): the signal an optimizer reads, replica counts from
      demand and spare, and the state of each role.
    - [ScaleDown] ([cost_aware_optimizer.go]): the order replicas are shed in, how
      many, and the decisions built from the targets.
    - [PairFit] ([fitPairToBudget]): the roles of a model cut together to what the
      pools and the nodes hold.
    - [ScaleUp] ([allocateForModelPairedOn], the role picks, [CostAwareOptimizer]):
      the loop that grows the roles of one model.  The two picks meet the loop
      through a class ([PickLaws]) that says what it relies on.
    - [Attribution] ([gpu_limit_attribution.go]): which provider a denied variant is
      charged to.
    - [Greedy] ([greedy_score_optimizer.go]): the fair-share pass over all models,
      its spend log and the replay of the log.
    - [WaterFill] ([rescale.go]): the split of a group's GPUs among its models and
      of a model's GPUs among its roles, by weight, in [float64], rounded by largest
      remainder.
    - [Rescale] ([rescale.go], [Optimize] with rescale on): the groups of models that
      compete for one budget, whole replicas reclaimed and filled, their fit to the
      nodes, the debits.  [RescaleFill] and [RescaleNodes] have the facts on filling,
      reclaiming and placing, [RescaleSafety] the theorem on one model, [RescalePass]
      the account of all groups, [OptimizePass] the theorem on a whole pass.
    - [Headroom] ([decision/headroom.go], [decision/contention.go]): what a pass
      leaves the warm pool, and how a pool reads it.
    - [Ledger] ([utilization_share_ledger.go]): the transfers of GPUs between
      models, from the release of the donor to the fill of the receiver, donor
      sets, wake holds, the histories of moves and of needs.  [LedgerSafety]
      reasons on one observation, [LedgerTrace] on runs of the ledger's operations
      against a cluster, [LedgerHistory] on the move history along such runs.
    - [ShareTarget] ([utilization_share_target.go]): claims, scores, ceilings and
      the targets of the roles of a group, in fractions and in whole replicas.
      [ShareInteger] and [ShareContinuous] prove the two kinds of target.
    - [ShareHistory] ([utilization_share_ledger_history.go],
      [utilization_share_timing.go]): the needs stored across a restart, the
      timings of a group.
    - [Sticky] ([scalingpolicy/sticky.go], [sticky_scale_down.go]): a published
      scale-down that the engine holds, over the cycles of one target.
    - [Snapshots] ([awake.go], [bridges.go], [gpuusage.go], [pressure.go],
      [serving.go], [share_promised.go], [warm_pool_unheld.go],
      [warmpoolsupply.go] of [internal/decision]): what one loop publishes for
      another, with its age as a class ([AgedStore]) and the versioned figure of
      the pools.
    - [Enforcer] ([enforcer.go], [config/scale_to_zero.go]): scale to zero and the
      minimum replica.
    - [Stores] ([decision/store.go], [share_claims.go], [activation.go]): the
      decision store with its subscribers as a step relation, the claims of a
      wake on a transfer, and the hold of a woken model.
    - [WarmPolicy] ([warmpool/policy/policy.go], [pool/pool.go],
      [pool/shape.go]): the plan of one pass of the warm pool ([Decide]).

    A definition has the name of the Go function it models; a method keeps its
    name without the receiver, and a loop body that Go writes inline has a name
    of its own.  A method that mutates its receiver returns the new value.  A nil
    map or pointer is [None]; an error is [None] or a value of an inductive type.

    ** What the theorems show

    - Budgets: no sequence of spends overspends a budget, merged from any
      providers, at any key, families included; the merge is the intersection;
      a demand that is admitted fits every key it is charged under; a namespace
      has at most what the cluster has; the answers do not depend on the order a
      map is ranged over.
    - Nodes: no node is ever promised more than it has free, whatever the calls;
      a placement is all or nothing and on eligible nodes of one domain; the
      fast path equals the loop; [Reserve] ends and takes the right amount; the
      memo is transparent.
    - In flight: a hold never overcommits a node, ends on its clock, is undone
      exactly by a commit, is released exactly, and survives a restart.
    - Limiters: over the physical inventory a limiter reports exactly what the nodes
      have and what is charged to each type; the totals are those of its pools, for
      every inventory that keeps the interface's law, and the pools of a
      namespace-scoped provider are the sums of its namespaces' finite caps.
    - Quotas: an entry bounded by Kueue's figures has the tighter of both, opens nothing
      a static entry denies and exempts the same namespaces; its constraints are exactly its caps with the GPUs
      in use charged once; a managed GPU cancels the charge of a queue once.
    - Borrowing: a pool merged from several reads is at least as cautious as each, and
      a lender seen waiting closes its cohort unless some read of the pool is stale; a
      release never leaves one role of a pair without its partner; the releases of a
      cycle keep minima, lower a variant once, are pinned, and give back no more than a
      namespace holds past its figure but for what they report; a preempted model stays
      off its cohorts for its cooldown along any run, and a model is off a cohort only
      within the longest backoff of an event of its own; a restart shortens no cooldown.
    - Optimizers: a whole pass, rescale and fair share, publishes decisions that
      order within the cluster's budgets, as far as the allowances list their keys, and
      every namespace's, and keep variants within their bounds; the fair share places every pod it orders; the loop of one
      model spends exactly what it accounts for and ends; roles that grow together fit
      together; a scale-down keeps minima and a role's last replica and releases within
      its budget up to rounding; decisions are well formed; a denied variant is charged
      to the tightest providers.
    - Rescale: the split of the GPUs is exact to the GPU although computed in
      [float64], and within floors and caps; the split among roles is within the
      model's GPUs; one model's decisions order within the GPUs it takes, place
      what they order and respect minima, maxima and holds.
    - Headroom: the warm pool's headroom and what the pass ordered are together
      within the budgets, as far as the allowances list the cluster's keys; the log of a pass replays to what it left; a stale
      snapshot is unknown.
    - Transfers: no GPU a donor sheds is counted for two transfers and no replica
      that lands for two fills, along any run; every transfer ends; an observation
      accounts for each transfer once; a donor set releases together, as far as
      its donors are seen; the reversal hold holds.
    - Share targets: whole-replica targets are those a queue by score would give,
      replica by replica; they keep the budget, the floors and the ceilings, and
      leave nothing a role could take; fractional targets are found and stay
      between floors and ceilings; a peak of need survives a restart.
    - Published values: a scale-down that was published is not cancelled while
      demand allows it; a pool figure that carries a version has not changed since.
    - Enforcement: a model keeps its last replica when scale-to-zero is off, on
      the cheapest variant, and is zeroed only when known to be idle.
    - Waking: the variants woken fit the budgets and the nodes together and are the
      cheapest that do, up to the rounding of a sum; a refusal means that no set the
      policy allows fits; every parked variant is in one group.
    - Stores: no wake-up is lost in any interleaving; a wake claims a transfer
      for each replica or none, and no transfer is claimed twice; a woken model
      is held for exactly its retention.
    - Warm pool: borrows, admissions and evictions are safe and accounted for, a
      bridge goes back when its time is up and not while it is needed, and every
      shortage is reported as the right fault.
    - Eight theorems exhibit behaviour at odds with the code's own comments
      ([WarmPolicy.intent_return_loses_labels],
      [BorrowRelease.release_crosses_types],
      [InFlight.restart_drops_shrunk_hold],
      [Greedy.product_allowance_escapes_family_bound],
      [OptimizePass.rescale_passes_product_bound],
      [Headroom.contention_keeps_last_model_only],
      [LedgerSafety.unseen_contributor_does_not_wait],
      [ShareHistory.full_window_loses_peak]).

    ** Bounds, fuel and assumptions

    An [int] is a [Z] with the wrap-around written out; theorems that need a sum
    not to wrap say so with a bound by [int_max].  The recursions with fuel are
    the loop of [Reserve] (one more turn than it has nodes, since each turn but
    the last empties one; proved enough in [reserve_loop_spec]), the copies of an
    admission (its budget, which each turn spends; [admit_copies_fuel]) and the
    digits of [Itoa] (twenty, for 64 bits).  The two loops of the optimizers have
    fuel that their callers give, and say whether they ended within it: one more
    iteration of a model's loop than it has replicas left to order is enough when
    each variant has a maximum or a finite key ([scale_up_ends]); the safety
    theorems hold for every fuel, ended or not, as long as targets stay within
    [int].  The whole-replica targets have as
    fuel the roles and the GPUs left (each turn drops a role or gives a GPU), the
    fractional ones the number of roles (each pass pins one), the heap its length;
    the rescale split has the number of models (each turn caps one;
    [water_fill_ends]), a fill the GPUs wanted ([fill_replicas_spec]) and its
    placement the replicas added ([place_grown_spec]).
    That the loop over the models ends is not proved, nor that of the
    cost-aware optimizer for a variant without a maximum.  The theorems on the
    optimizers take capacities between 2^-500 and 2^500, demands up to 2^500,
    and budgets up to 2^32 or unlimited; those on share targets take counts up to
    2^52, needs and weights between 2^-500 and 2^20, and at most 400 roles; the theorem on the
    rescale split takes at most 1024 models, counts up to 2^32 and weights between
    2^-400 and 2^400.  Times are [Z] nanoseconds
    from the zero time, and the transfer ledger and the borrow governor count GPUs and
    replicas in [Z].  The random
    suffix of a transfer's ID is an argument.
    Upper and lower case are those of ASCII, which the names of accelerators are
    written in.  Order left open by Go is an argument or a class: the order a map
    is ranged over, the algorithm behind [sort.Slice] ([GoSort]).  Code outside
    the repository is a parameter: the toleration of a taint ([TaintMatcher]),
    the answer of cluster discovery and of a metrics query; so are the parameter
    count read off a model name and the length of an encoded ledger entry.

    ** What is not modelled

    The utilization-share planner and, of cohort borrowing, the reading of the pools, the
    placer and the releases to waiting lenders (the quota inventory and the fair-share
    pass are modelled without borrowing, the borrow governor with the releases to
    lenders off, as they are by default); the analyzers and learned
    signals, the tick of the scale-from-zero engine, the registry and the configuration
    parsers;
    and the code that only talks to Kubernetes, Kueue, Prometheus or an engine over
    HTTP, logs or counts metrics.  The next parts, in order: the composite signal the
    engine hands the optimizers, the placer of borrowed growth, the planner of the
    utilization share, the warm pool's activation sequence. *)
From Stdlib Require Import ZArith Lia String Ascii.
From stdpp Require Import base gmap strings list sorting fin_maps.

#[export] Set Default Goal Selector "!".

(** ** Machine integers

    Go's [int] is a 64-bit two's-complement integer on every platform the
    controller is built for.  A value is a [Z] in [int_min .. int_max]; the
    arithmetic operators wrap around, and are written [⊞], [⊟], [⊠] so that a
    wrapped operation is never confused with one on [Z]. *)
Definition int_min : Z := -9223372036854775808.
Definition int_max : Z := 9223372036854775807.

(** [math.MaxInt]. *)
Definition MaxInt : Z := int_max.

Definition wrap (z : Z) : Z :=
  (z + 9223372036854775808) mod 18446744073709551616 - 9223372036854775808.

Definition in_int (z : Z) : Prop := (int_min ≤ z ≤ int_max)%Z.

Declare Scope go_int_scope.
Delimit Scope go_int_scope with gi.
Notation "a ⊞ b" := (wrap (a + b)%Z) (at level 50, left associativity) : go_int_scope.
Notation "a ⊟ b" := (wrap (a - b)%Z) (at level 50, left associativity) : go_int_scope.
Notation "a ⊠ b" := (wrap (a * b)%Z) (at level 40, left associativity) : go_int_scope.
Create HintDb go_int.
#[export] Hint Unfold in_int int_min int_max MaxInt : go_int.
Open Scope go_int_scope.

Lemma wrap_id z : in_int z → wrap z = z.
Proof.
  unfold in_int, wrap, int_min, int_max. intros H.
  rewrite Z.mod_small; lia.
Qed.

Lemma wrap_in_int z : in_int (wrap z).
Proof.
  unfold in_int, wrap, int_min, int_max.
  pose proof (Z.mod_pos_bound (z + 9223372036854775808) 18446744073709551616). lia.
Qed.

Lemma wrap_add_l a b : wrap (wrap a + b) = wrap (a + b).
Proof.
  unfold wrap. f_equal.
  replace ((a + 9223372036854775808) mod 18446744073709551616 -
    9223372036854775808 + b + 9223372036854775808)%Z
    with ((a + 9223372036854775808) mod 18446744073709551616 + b)%Z by lia.
  rewrite Zplus_mod_idemp_l. f_equal. lia.
Qed.

Lemma wrap_add_r a b : wrap (a + wrap b) = wrap (a + b).
Proof. rewrite Z.add_comm, wrap_add_l. f_equal. lia. Qed.

#[export] Hint Resolve wrap_in_int : go_int.

(** [int_lia] discharges the range conditions of [wrap_id] and finishes with
    [lia]; it is the arithmetic tactic of the whole development. *)
Ltac int_lia :=
  repeat (rewrite wrap_id by (unfold MaxInt, in_int, int_min, int_max in *; lia));
  unfold MaxInt, in_int, int_min, int_max in *; lia.

(** ** Strings

    Go strings are byte strings, and [<] on them compares bytes.  The case
    operations ([strings.ToLower], [strings.ToUpper], [strings.EqualFold]) are
    the ASCII ones: accelerator names are Kubernetes label values, which are
    ASCII. *)
Definition lower_ascii (c : ascii) : ascii :=
  let n := nat_of_ascii c in
  if (65 <=? n)%nat && (n <=? 90)%nat then ascii_of_nat (n + 32) else c.

Definition upper_ascii (c : ascii) : ascii :=
  let n := nat_of_ascii c in
  if (97 <=? n)%nat && (n <=? 122)%nat then ascii_of_nat (n - 32) else c.

#[global] Arguments lower_ascii : simpl never.
#[global] Arguments upper_ascii : simpl never.

Fixpoint string_map (f : ascii → ascii) (s : string) : string :=
  match s with
  | EmptyString => EmptyString
  | String c s => String (f c) (string_map f s)
  end.

(** [strings.ToLower] and [strings.ToUpper]. *)
Definition ToLower : string → string := string_map lower_ascii.
Definition ToUpper : string → string := string_map upper_ascii.

(** [strings.EqualFold]. *)
Definition EqualFold (a b : string) : bool := String.eqb (ToLower a) (ToLower b).

(** [strings.Contains s (string c)]. *)
Fixpoint contains_char (c : ascii) (s : string) : bool :=
  match s with
  | EmptyString => false
  | String d s => Ascii.eqb c d || contains_char c s
  end.

(** [strings.Split s (string c)]: the pieces between the separators, at least
    one. *)
Fixpoint split_char (c : ascii) (s : string) : list string :=
  match s with
  | EmptyString => [EmptyString]
  | String d s' =>
      let rest := split_char c s' in
      if Ascii.eqb c d then EmptyString :: rest
      else match rest with
           | [] => [String d EmptyString]
           | p :: ps => String d p :: ps
           end
  end.

(** [a < b] and [a <= b] on strings. *)
Definition str_lt (a b : string) : bool := String.ltb a b.
Definition str_le (a b : string) : bool := String.leb a b.

(** stdpp keeps [append] folded under [simpl]; this is its equation. *)
Lemma string_append_cons c s t : String c s +:+ t = String c (s +:+ t).
Proof. reflexivity. Qed.

Lemma EqualFold_refl a : EqualFold a a = true.
Proof. apply String.eqb_refl. Qed.

Lemma EqualFold_spec a b : EqualFold a b = true ↔ ToLower a = ToLower b.
Proof. apply String.eqb_eq. Qed.

Lemma EqualFold_sym a b : EqualFold a b = EqualFold b a.
Proof. apply String.eqb_sym. Qed.

Lemma EqualFold_trans a b c :
  EqualFold a b = true → EqualFold b c = true → EqualFold a c = true.
Proof. rewrite !EqualFold_spec. congruence. Qed.

Lemma EqualFold_congr_l a b c : EqualFold a b = true → EqualFold a c = EqualFold b c.
Proof. unfold EqualFold. intros ->%String.eqb_eq. done. Qed.

Lemma EqualFold_congr_r a b c : EqualFold a b = true → EqualFold c a = EqualFold c b.
Proof. rewrite !(EqualFold_sym c). apply EqualFold_congr_l. Qed.

#[export] Hint Resolve EqualFold_refl : core.

(** ** Sorting

    [slices.Sort] and [slices.Sorted] on strings, and [slices.Min]: the sort is
    determined by the multiset of its input, since the order on strings is
    total. *)
Definition sort_strings (l : list string) : list string := merge_sort String.le l.

Definition min_string (l : list string) : option string := head (sort_strings l).

Lemma sort_strings_perm l : sort_strings l ≡ₚ l.
Proof. apply merge_sort_Permutation. Qed.

Lemma sort_strings_sorted l : StronglySorted String.le (sort_strings l).
Proof. apply StronglySorted_merge_sort; apply _. Qed.

(** A sort does not depend on the order its input was collected in. *)
Lemma sort_strings_proper l k : l ≡ₚ k → sort_strings l = sort_strings k.
Proof.
  intros H. eapply (Sorted_unique String.le); [| |].
  - apply Sorted_merge_sort. apply _.
  - apply Sorted_merge_sort. apply _.
  - unfold sort_strings. rewrite !merge_sort_Permutation. done.
Qed.

Lemma min_string_proper l k : l ≡ₚ k → min_string l = min_string k.
Proof. intros H. unfold min_string. by rewrite (sort_strings_proper l k). Qed.

Lemma min_string_in l x : min_string l = Some x → x ∈ l.
Proof.
  unfold min_string. intros H. rewrite <- (sort_strings_perm l).
  destruct (sort_strings l); simplify_eq/=. constructor.
Qed.

Lemma min_string_nil l : min_string l = None ↔ l = [].
Proof.
  unfold min_string. split; [|by intros ->].
  intros H. apply Permutation_nil_r. rewrite <- (sort_strings_perm l).
  by destruct (sort_strings l).
Qed.

Lemma min_string_le l x y : min_string l = Some x → y ∈ l → String.le x y.
Proof.
  unfold min_string. intros H Hy. rewrite <- (sort_strings_perm l) in Hy.
  pose proof (sort_strings_sorted l) as Hs.
  destruct (sort_strings l) as [|z zs]; simplify_eq/=.
  apply StronglySorted_inv in Hs as [_ Hall].
  apply elem_of_cons in Hy as [->|Hy]; [done|].
  by eapply Forall_forall in Hall.
Qed.

(** ** Lists *)
Lemma list_filter_nil {A} (P : A → Prop) `{∀ x, Decision (P x)} l :
  (∀ x, x ∈ l → ¬ P x) → filter P l = [].
Proof.
  induction l as [|x l IH]; intros HP; [done|].
  rewrite filter_cons_False by (apply HP; constructor).
  apply IH. intros y Hy. apply HP. by constructor.
Qed.

(** A left fold whose steps commute does not depend on the order of the list:
    the shape of every loop over a Go map whose result is deterministic. *)
Lemma foldl_perm {A B} (f : B → A → B) :
  (∀ x a b, f (f x a) b = f (f x b) a) →
  ∀ l k, l ≡ₚ k → ∀ x, foldl f x l = foldl f x k.
Proof.
  intros Hf l k H.
  induction H as [|a l k H IH|a b l|l k m H1 IH1 H2 IH2]; intros x; simpl; auto.
  - by rewrite Hf.
  - by rewrite IH1.
Qed.

(** Steps that leave the accumulator alone can be filtered out. *)
Lemma foldl_filter {A B} (f : B → A → B) (P : A → Prop) `{∀ a, Decision (P a)} l x :
  (∀ a y, ¬ P a → f y a = y) → foldl f x l = foldl f x (filter P l).
Proof.
  intros Hf. revert x. induction l as [|a l IH]; intros x; simpl; [done|].
  rewrite filter_cons. case_decide; simpl; [apply IH|]. rewrite Hf by done. apply IH.
Qed.

(** Sums over a list, in [Z]. *)
Definition sumZ {A} (g : A → Z) (l : list A) : Z := foldr (λ a s, (g a + s)%Z) 0%Z l.

#[global] Arguments sumZ : simpl never.

Lemma sumZ_app {A} (g : A → Z) l k : sumZ g (l ++ k) = (sumZ g l + sumZ g k)%Z.
Proof. induction l as [|a l IH]; simpl; [done|]. unfold sumZ in *. simpl. lia. Qed.

Lemma sumZ_cons {A} (g : A → Z) a l : sumZ g (a :: l) = (g a + sumZ g l)%Z.
Proof. done. Qed.

#[export] Instance sumZ_proper {A} (g : A → Z) : Proper ((≡ₚ) ==> (=)) (sumZ g).
Proof. intros l k H. unfold sumZ. induction H; simpl; lia. Qed.

Lemma sumZ_nonneg {A} (g : A → Z) l : (∀ a, a ∈ l → (0 ≤ g a)%Z) → (0 ≤ sumZ g l)%Z.
Proof.
  induction l as [|a l IH]; intros H; [done|]. rewrite sumZ_cons.
  specialize (IH (λ b Hb, H b (list_elem_of_further _ _ _ Hb))).
  specialize (H a (list_elem_of_here _ _)). lia.
Qed.

Lemma sumZ_le {A} (g h : A → Z) l :
  (∀ a, a ∈ l → (g a ≤ h a)%Z) → (sumZ g l ≤ sumZ h l)%Z.
Proof.
  induction l as [|a l IH]; intros H; [done|]. rewrite !sumZ_cons.
  specialize (IH (λ b Hb, H b (list_elem_of_further _ _ _ Hb))).
  specialize (H a (list_elem_of_here _ _)). lia.
Qed.

(** A wrapping accumulation is the wrapped sum. *)
Lemma foldl_wrap_sum {A} (g : A → Z) l x :
  in_int x → foldl (λ s a, s ⊞ g a) x l = wrap (x + sumZ g l).
Proof.
  revert x. induction l as [|a l IH]; intros x Hx; simpl.
  - rewrite wrap_id; unfold sumZ; simpl; [lia|]. by rewrite Z.add_0_r.
  - rewrite IH by apply wrap_in_int. rewrite wrap_add_l. f_equal. unfold sumZ. simpl. lia.
Qed.

(** Keys of a map, in the order [map_to_list] gives. *)
Lemma elem_of_keys {V} (m : gmap string V) k : k ∈ (map_to_list m).*1 ↔ is_Some (m !! k).
Proof.
  rewrite list_elem_of_fmap. split.
  - intros ([? v] & -> & Hv%elem_of_map_to_list). by exists v.
  - intros [v Hv]. exists (k, v). split; [done|]. by apply elem_of_map_to_list.
Qed.

(** ** Stable sorting

    [slices.SortStableFunc] and [sort.SliceStable]: the result of a stable sort
    is unique, so insertion from the right computes it. [before x y] says that
    [x] may stay in front of [y], i.e. that the comparison does not put [y]
    strictly first. *)
Section stable_sort.
Context {A : Type} (before : A → A → bool).

Fixpoint insert_stable (x : A) (l : list A) : list A :=
  match l with
  | [] => [x]
  | y :: l' => if before x y then x :: l else y :: insert_stable x l'
  end.

Definition sort_stable (l : list A) : list A := foldr insert_stable [] l.

Lemma insert_stable_perm x l : insert_stable x l ≡ₚ x :: l.
Proof.
  induction l as [|y l IH]; simpl; [done|]. case_match; [done|].
  rewrite IH. apply Permutation_swap.
Qed.

Lemma sort_stable_perm l : sort_stable l ≡ₚ l.
Proof.
  induction l as [|x l IH]; simpl; [done|]. by rewrite insert_stable_perm, IH.
Qed.

(** The comparison only has to be an order on the elements of the list. *)
Lemma insert_stable_sorted (P : A → Prop) x l :
  (∀ a b, P a → P b → before a b = false → before b a = true) →
  (∀ a b c, P a → P b → P c → before a b = true → before b c = true → before a c = true) →
  P x → Forall P l → StronglySorted before l → StronglySorted before (insert_stable x l).
Proof.
  intros Htot Htr Hx Hl Hs. induction Hs as [|y l Hs IH Hall]; simpl.
  { repeat constructor. }
  apply Forall_cons in Hl as [Hy Hl]. destruct (before x y) eqn:E.
  - constructor; [by constructor|]. constructor; [by rewrite E|].
    rewrite Forall_forall in Hall, Hl |- *. intros z Hz. apply Is_true_true.
    apply Htr with y; try done; [by apply Hl|]. apply Is_true_true. by apply Hall.
  - constructor; [by apply IH|]. rewrite insert_stable_perm. constructor; [|done].
    apply Is_true_true. by apply Htot.
Qed.

Lemma sort_stable_sorted l :
  (∀ a b, a ∈ l → b ∈ l → before a b = false → before b a = true) →
  (∀ a b c, a ∈ l → b ∈ l → c ∈ l → before a b = true → before b c = true → before a c = true) →
  StronglySorted before (sort_stable l).
Proof.
  intros H1 H2. set (P := λ a, a ∈ l) in *.
  assert (Hl : Forall P l) by (by apply Forall_forall).
  change (∀ a b, P a → P b → before a b = false → before b a = true) in H1.
  change (∀ a b c, P a → P b → P c → before a b = true → before b c = true → before a c = true) in H2.
  clearbody P. induction l as [|x l IH]; simpl; [constructor|].
  apply Forall_cons in Hl as [Hx Hl]. apply (insert_stable_sorted P); eauto.
  by rewrite (sort_stable_perm l).
Qed.

Lemma sort_stable_id l : StronglySorted (λ x y, before x y = true) l → sort_stable l = l.
Proof.
  induction 1 as [|x l _ IH Hall]; [done|]. cbn [sort_stable foldr]. unfold sort_stable in IH. rewrite IH.
  destruct l as [|y l]; [done|]. cbn [insert_stable]. by rewrite (Forall_inv Hall).
Qed.
End stable_sort.

(** ** Numbers as strings *)
Definition digit_of (c : ascii) : option Z :=
  let n := Z.of_nat (nat_of_ascii c) in
  if (48 <=? n)%Z && (n <=? 57)%Z then Some (n - 48)%Z else None.

Fixpoint parse_digits (acc : Z) (s : string) : option Z :=
  match s with
  | EmptyString => Some acc
  | String c s => d ← digit_of c; parse_digits (10 * acc + d)%Z s
  end.

Definition parse_unsigned (s : string) : option Z :=
  match s with EmptyString => None | _ => parse_digits 0 s end.

(** [strconv.ParseInt s 10 64] and [strconv.Atoi s]: [None] is the error. *)
Definition ParseInt (s : string) : option Z :=
  let v := match s with
           | String "-" s' => Z.opp <$> parse_unsigned s'
           | String "+" s' => parse_unsigned s'
           | _ => parse_unsigned s
           end in
  z ← v; if (int_min <=? z)%Z && (z <=? int_max)%Z then Some z else None.

Definition Atoi : string → option Z := ParseInt.

Definition digit_char (d : Z) : ascii := ascii_of_nat (Z.to_nat (48 + d)).

Fixpoint itoa_digits (fuel : nat) (n : Z) (acc : string) : string :=
  match fuel with
  | O => acc
  | S fuel =>
      let acc := String (digit_char (n mod 10)) acc in
      if (n <? 10)%Z then acc else itoa_digits fuel (n / 10) acc
  end.

(** [strconv.Itoa]; an [int] has at most 19 digits. *)
Definition Itoa (n : Z) : string :=
  if (n <? 0)%Z then String "-" (itoa_digits 20 (- n) EmptyString)
  else itoa_digits 20 n EmptyString.

(** [strings.Cut s (string c)]: what is before and after the first [c]. *)
Fixpoint cut_char (c : ascii) (s : string) : option (string * string) :=
  match s with
  | EmptyString => None
  | String d s' =>
      if Ascii.eqb c d then Some (EmptyString, s')
      else '(b, a) ← cut_char c s'; Some (String d b, a)
  end.

(** [strings.CutPrefix]. *)
Fixpoint CutPrefix (s prefix : string) : option string :=
  match prefix, s with
  | EmptyString, _ => Some s
  | String p prefix', String c s' => if Ascii.eqb p c then CutPrefix s' prefix' else None
  | String _ _, EmptyString => None
  end.

Lemma CutPrefix_app p s : CutPrefix (p +:+ s) p = Some s.
Proof.
  induction p as [|c p IH]; [by destruct s|].
  rewrite string_append_cons. cbn [CutPrefix]. by rewrite Ascii.eqb_refl.
Qed.

Lemma CutPrefix_Some s p r : CutPrefix s p = Some r → s = p +:+ r.
Proof.
  revert s. induction p as [|c p IH]; intros s; [by destruct s; intros [= <-]|].
  destruct s as [|d s]; simpl; [done|]. destruct (Ascii.eqb_spec c d) as [->|]; [|done].
  intros ->%IH. done.
Qed.

Lemma cut_char_app c b a :
  contains_char c b = false → cut_char c (b +:+ String c a) = Some (b, a).
Proof.
  induction b as [|d b IH].
  - intros _. change (EmptyString +:+ String c a) with (String c a).
    cbn [cut_char]. by rewrite Ascii.eqb_refl.
  - cbn [contains_char]. intros [Hd Hb]%orb_false_iff.
    rewrite string_append_cons. cbn [cut_char]. rewrite Hd, IH by done. done.
Qed.

Lemma cut_char_Some c s b a :
  cut_char c s = Some (b, a) → s = b +:+ String c a ∧ contains_char c b = false.
Proof.
  revert b. induction s as [|d s IH]; intros b; cbn [cut_char]; [done|].
  destruct (Ascii.eqb_spec c d) as [->|Hne]; [by intros [= <- <-]|].
  destruct (cut_char c s) as [[b' a']|]; simpl; [|done]. intros [= <- <-].
  destruct (IH b' eq_refl) as [-> Hb]. split; [done|]. cbn [contains_char].
  rewrite Hb, orb_false_r. by apply Ascii.eqb_neq.
Qed.

Lemma digit_of_char d : (0 ≤ d < 10)%Z → digit_of (digit_char d) = Some d.
Proof.
  intros Hd. unfold digit_of, digit_char.
  rewrite nat_ascii_embedding by lia.
  rewrite Z2Nat.id by lia.
  destruct (Z.leb_spec 48 (48 + d)), (Z.leb_spec (48 + d) 57); simpl; try lia. f_equal. lia.
Qed.

Lemma itoa_digits_parse fuel n acc x :
  (0 ≤ n < 10 ^ Z.of_nat fuel)%Z → (0 < fuel)%nat →
  ∃ k : nat, parse_digits x (itoa_digits fuel n acc) = parse_digits (10 ^ Z.of_nat k * x + n)%Z acc.
Proof.
  revert n acc x. induction fuel as [|fuel IH]; intros n acc x Hn Hf; [lia|].
  cbn [itoa_digits]. destruct (Z.ltb_spec n 10) as [H|H].
  - exists 1%nat. cbn [parse_digits]. rewrite Z.mod_small, digit_of_char by lia. done.
  - assert (Hlt : (0 ≤ n / 10 < 10 ^ Z.of_nat fuel)%Z).
    { rewrite Nat2Z.inj_succ, Z.pow_succ_r in Hn by lia.
      split; [apply Z.div_pos; lia|]. apply Z.div_lt_upper_bound; lia. }
    assert (Hf0 : (0 < fuel)%nat).
    { destruct fuel; [|lia]. simpl in Hlt.
      assert (1 ≤ n / 10)%Z by (apply Z.div_le_lower_bound; lia). lia. }
    destruct (IH (n / 10)%Z (String (digit_char (n mod 10)) acc) x Hlt Hf0) as (k & Hk).
    exists (S k). rewrite Hk. cbn [parse_digits].
    rewrite digit_of_char by (apply Z.mod_pos_bound; lia). simpl. f_equal.
    rewrite Nat2Z.inj_succ, Z.pow_succ_r by lia.
    pose proof (Z.div_mod n 10). lia.
Qed.

Lemma itoa_digits_nonempty fuel n acc :
  (0 < fuel)%nat → ∃ c s, itoa_digits fuel n acc = String c s ∧
    (0 ≤ n → ∃ d, (0 ≤ d < 10)%Z ∧ c = digit_char d)%Z.
Proof.
  revert n acc. induction fuel as [|fuel IH]; intros n acc Hf; [lia|].
  cbn [itoa_digits]. destruct (Z.ltb_spec n 10) as [H|H].
  { do 2 eexists. split; [done|]. intros _. exists (n mod 10)%Z. split; [|done].
    apply Z.mod_pos_bound. lia. }
  destruct fuel as [|fuel].
  { do 2 eexists. split; [done|]. intros _. exists (n mod 10)%Z. split; [|done].
    apply Z.mod_pos_bound. lia. }
  destruct (IH (n / 10)%Z (String (digit_char (n mod 10)) acc)) as (c & s & Hc & Hd); [lia|].
  exists c, s. split; [done|]. intros _. apply Hd. apply Z.div_pos; lia.
Qed.

(** Printing and parsing a non-negative [int] is a round trip. *)
Lemma Atoi_Itoa n : (0 ≤ n)%Z → in_int n → Atoi (Itoa n) = Some n.
Proof.
  intros Hn Hi. unfold Itoa. rewrite (proj2 (Z.ltb_ge n 0)) by lia.
  destruct (itoa_digits_parse 20 n EmptyString 0) as (k & Hk);
    [unfold in_int, int_max in Hi; simpl; lia|lia|].
  destruct (itoa_digits_nonempty 20 n EmptyString) as (c & s & Hc & Hd); [lia|].
  destruct (Hd Hn) as (d & Hd' & ->). unfold Atoi, ParseInt.
  assert (Hu : parse_unsigned (itoa_digits 20 n EmptyString) = Some n).
  { unfold parse_unsigned. rewrite Hc, <- Hc, Hk. simpl. f_equal. lia. }
  rewrite Hc in Hu |- *.
  assert (Hm : digit_char d ≠ "-"%char ∧ digit_char d ≠ "+"%char).
  { assert (d ∈ [0;1;2;3;4;5;6;7;8;9]%Z) as Hin.
    { rewrite !elem_of_cons. lia. }
    rewrite !elem_of_cons, elem_of_nil in Hin.
    destruct Hin as [->|[->|[->|[->|[->|[->|[->|[->|[->|[->|[]]]]]]]]]]]; vm_compute; done. }
  destruct Hm as [Hm1 Hm2].
  assert (match String (digit_char d) s with
          | String "-" s' => Z.opp <$> parse_unsigned s'
          | String "+" s' => parse_unsigned s'
          | _ => parse_unsigned (String (digit_char d) s)
          end = Some n) as ->.
  { revert Hm1 Hm2 Hu. generalize (digit_char d). intros [[] [] [] [] [] [] [] []] H1 H2 Hu;
      done. }
  simpl. unfold in_int in Hi.
  by rewrite (proj2 (Z.leb_le int_min n)), (proj2 (Z.leb_le n int_max)) by lia.
Qed.

(** ** Sums over maps and ranges *)
Lemma sumZ_ext {A} (g h : A → Z) l : (∀ a, a ∈ l → g a = h a) → sumZ g l = sumZ h l.
Proof.
  induction l as [|a l IH]; intros H; [done|]. rewrite !sumZ_cons.
  rewrite (H a) by constructor. rewrite IH; [done|]. intros b Hb. apply H. by constructor.
Qed.

Lemma sumZ_plus {A} (g h : A → Z) l : sumZ (λ a, g a + h a)%Z l = (sumZ g l + sumZ h l)%Z.
Proof. induction l as [|a l IH]; [done|]. rewrite !sumZ_cons. lia. Qed.

Lemma sumZ_minus {A} (g h : A → Z) l : sumZ (λ a, g a - h a)%Z l = (sumZ g l - sumZ h l)%Z.
Proof. induction l as [|a l IH]; [done|]. rewrite !sumZ_cons. lia. Qed.

Lemma sumZ_zero {A} (l : list A) : sumZ (λ _, 0%Z) l = 0%Z.
Proof. induction l as [|a l IH]; [done|]. rewrite sumZ_cons. lia. Qed.

Lemma sumZ_fmap {A B} (f : A → B) (g : B → Z) l : sumZ g (f <$> l) = sumZ (λ a, g (f a)) l.
Proof. induction l as [|a l IH]; [done|]. cbn [fmap list_fmap]. by rewrite !sumZ_cons, <- IH. Qed.

Lemma sumZ_list_filter {A} (P : A → Prop) `{∀ x, Decision (P x)} (g : A → Z) l :
  sumZ g (filter P l) = sumZ (λ a, if decide (P a) then g a else 0%Z) l.
Proof.
  induction l as [|a l IH]; [done|]. rewrite filter_cons, sumZ_cons.
  case_decide; rewrite ?sumZ_cons, IH; lia.
Qed.

(** A single non-zero term. *)
Lemma sumZ_single (l : list nat) i x :
  NoDup l → sumZ (λ j, if decide (j = i) then x else 0%Z) l = if decide (i ∈ l) then x else 0%Z.
Proof.
  induction 1 as [|j l Hj Hn IH]; [done|]. rewrite sumZ_cons, IH.
  repeat case_decide; subst; rewrite ?elem_of_cons in *; try naive_solver lia.
Qed.

(** Inserting into a map replaces one term of a sum over it. *)
Lemma sumZ_insert {K A} `{Countable K} (g : K * A → Z) (m : gmap K A) k a :
  sumZ g (map_to_list (<[k := a]> m)) =
  (sumZ g (map_to_list m) - match m !! k with Some x => g (k, x) | None => 0 end + g (k, a))%Z.
Proof.
  assert (Hi : map_to_list (<[k := a]> m) ≡ₚ (k, a) :: map_to_list (delete k m)).
  { rewrite <- insert_delete_eq. apply map_to_list_insert, lookup_delete_eq. }
  rewrite Hi, sumZ_cons. destruct (m !! k) as [x|] eqn:Hk.
  - rewrite <- (map_to_list_delete m k x Hk), sumZ_cons. lia.
  - rewrite (delete_id m k Hk). lia.
Qed.

Lemma sumZ_sublist {A} (g : A → Z) k l :
  (∀ b, b ∈ l → (0 ≤ g b)%Z) → k `sublist_of` l → (sumZ g k ≤ sumZ g l)%Z.
Proof.
  intros Hg Hs. induction Hs as [|x k l _ IH|x k l _ IH]; rewrite ?sumZ_cons; [done|..];
    assert (H1 := Hg x (list_elem_of_here _ _));
    assert (H2 := IH (λ b Hb, Hg b (list_elem_of_further _ _ _ Hb))); lia.
Qed.

(** Changing one element of a duplicate-free list. *)
Lemma sumZ_change {A} (g h : A → Z) l a :
  NoDup l → a ∈ l → (∀ b, b ∈ l → b ≠ a → g b = h b) →
  (sumZ g l - g a = sumZ h l - h a)%Z.
Proof.
  intros Hnd (l1 & l2 & ->)%list_elem_of_split Hgh.
  apply NoDup_app in Hnd as (_ & Hd & Hnd). apply NoDup_cons in Hnd as [Hn _].
  rewrite !sumZ_app, !sumZ_cons.
  assert (sumZ g l1 = sumZ h l1).
  { apply sumZ_ext. intros b Hb. apply Hgh; [set_solver|]. intros ->. apply (Hd a Hb). set_solver. }
  assert (sumZ g l2 = sumZ h l2).
  { apply sumZ_ext. intros b Hb. apply Hgh; [set_solver|]. by intros ->. }
  lia.
Qed.

Lemma sumZ_elem_le {A} (g : A → Z) l a :
  (∀ b, b ∈ l → (0 ≤ g b)%Z) → a ∈ l → (g a ≤ sumZ g l)%Z.
Proof.
  intros Hg (l1 & l2 & ->)%list_elem_of_split. rewrite sumZ_app, sumZ_cons.
  assert (0 ≤ sumZ g l1)%Z by (apply sumZ_nonneg; intros; apply Hg; set_solver).
  assert (0 ≤ sumZ g l2)%Z by (apply sumZ_nonneg; intros; apply Hg; set_solver).
  lia.
Qed.

(** Splitting a string at a separator its first part does not contain. *)
Definition sep_tail (c : ascii) (s : string) : Prop := s = EmptyString ∨ ∃ s', s = String c s'.

Lemma app_sep_inj c a b s t :
  contains_char c a = false → contains_char c b = false → sep_tail c s → sep_tail c t →
  a +:+ s = b +:+ t → a = b ∧ s = t.
Proof.
  intros Ha Hb Hs Ht. revert b Hb Ha. induction a as [|x a IH]; intros [|y b] Hb Ha Heq.
  - done.
  - rewrite string_append_cons in Heq. change (EmptyString +:+ s) with s in Heq.
    cbn [contains_char] in Hb. apply orb_false_iff in Hb as [Hb _].
    destruct Hs as [->|[s' ->]]; [done|]. injection Heq as <- _. by rewrite Ascii.eqb_refl in Hb.
  - rewrite string_append_cons in Heq. change (EmptyString +:+ t) with t in Heq.
    cbn [contains_char] in Ha. apply orb_false_iff in Ha as [Ha _].
    destruct Ht as [->|[t' ->]]; [done|]. injection Heq as -> _. by rewrite Ascii.eqb_refl in Ha.
  - rewrite !string_append_cons in Heq. injection Heq as -> Heq.
    cbn [contains_char] in Ha, Hb. apply orb_false_iff in Ha as [_ Ha], Hb as [_ Hb].
    destruct (IH b Hb Ha Heq) as [-> ->]. done.
Qed.

Lemma string_app_assoc (a b c : string) : (a +:+ b) +:+ c = a +:+ (b +:+ c).
Proof. induction a as [|x a IH]; [done|]. by rewrite !string_append_cons, IH. Qed.

Lemma contains_char_app c a b :
  contains_char c (a +:+ b) = contains_char c a || contains_char c b.
Proof.
  induction a as [|x a IH]; [done|]. rewrite string_append_cons. cbn [contains_char].
  by rewrite IH, orb_assoc.
Qed.

(** ** Lists with distinct keys *)
(** A map filled by a loop, each key once. *)
Lemma insert_all_lookup {A V} (key : A → string) (f : A → V) l (out : gmap string V) :
  NoDup (key <$> l) →
  (∀ r, r ∈ l → foldl (λ out r, <[key r := f r]> out) out l !! key r = Some (f r)) ∧
  (∀ k, k ∉ key <$> l → foldl (λ out r, <[key r := f r]> out) out l !! k = out !! k).
Proof.
  induction l as [|a l IH] using rev_ind; intros Hn; [split; [|done]; intros r Hr; by apply elem_of_nil in Hr|].
  rewrite fmap_app in Hn. apply NoDup_app in Hn as (Hn & Hd & _). destruct (IH Hn) as [H1 H2].
  rewrite foldl_app. cbn [foldl]. split.
  - intros r [Hr| ->%list_elem_of_singleton]%elem_of_app; [|apply lookup_insert_eq].
    rewrite lookup_insert_ne; [by apply H1|]. intros E. apply (Hd (key r)); [apply list_elem_of_fmap; eauto|].
    apply list_elem_of_singleton. by rewrite E.
  - intros k Hk. rewrite fmap_app in Hk. rewrite lookup_insert_ne; [apply H2|]; set_solver.
Qed.

Lemma insert_all_list {A V} (key : A → string) (f : A → V) l (out : gmap string V) :
  NoDup (key <$> l) → (∀ a, a ∈ l → out !! key a = None) →
  map_to_list (foldl (λ out r, <[key r := f r]> out) out l) ≡ₚ ((λ a, (key a, f a)) <$> l) ++ map_to_list out.
Proof.
  revert out. induction l as [|a l IH]; intros out Hn Ho; [done|]. cbn [fmap list_fmap] in Hn. apply NoDup_cons in Hn as [Ha Hn].
  cbn [foldl]. rewrite IH; [|done|].
  - rewrite map_to_list_insert by (apply Ho; by left). cbn [fmap list_fmap app]. by rewrite <- Permutation_middle.
  - intros b Hb. rewrite lookup_insert_ne; [apply Ho; by right|]. intros E. apply Ha. rewrite E. by apply list_elem_of_fmap_2.
Qed.

(** A sum over keys that only some of them add to. *)
Lemma sumZ_support {A} `{EqDecision A} (g : A → Z) (l ks : list A) :
  NoDup l → NoDup ks → (∀ k, k ∈ ks → k ∈ l) → (∀ k, k ∈ l → k ∉ ks → g k = 0%Z) → sumZ g l = sumZ g ks.
Proof.
  intros Hl Hk Hin Hz. assert (Hp : l ≡ₚ ks ++ filter (λ k, k ∉ ks) l).
  { apply NoDup_Permutation; [done| |].
    - apply NoDup_app. split_and!; [done| |by apply NoDup_filter]. intros k Hks Hf. by apply list_elem_of_filter in Hf as [? _].
    - intros k. rewrite elem_of_app, list_elem_of_filter. destruct (decide (k ∈ ks)); naive_solver. }
  rewrite Hp, sumZ_app. rewrite (sumZ_ext g (λ _, 0%Z) (filter _ l)), sumZ_zero; [lia|].
  intros k [? ?]%list_elem_of_filter. auto.
Qed.

Lemma fmap_inj_NoDup {A B} (f : A → B) (l : list A) a b : NoDup (f <$> l) → a ∈ l → b ∈ l → f a = f b → a = b.
Proof.
  intros Hn [i Hi]%list_elem_of_lookup [j Hj]%list_elem_of_lookup Hk. assert (i = j); [|subst; congruence].
  apply (NoDup_lookup _ i j (f a) Hn); rewrite list_lookup_fmap; [by rewrite Hi|by rewrite Hj, Hk].
Qed.

Lemma NoDup_filter_keys {A B} (f : A → B) (P : A → Prop) `{!∀ a, Decision (P a)} l : NoDup (f <$> l) → NoDup (f <$> filter P l).
Proof.
  induction l as [|r l IH]; intros Hn; [done|]. cbn [fmap list_fmap] in Hn. apply NoDup_cons in Hn as [Hr Hn].
  rewrite filter_cons. case_decide; [|by apply IH]. cbn [fmap list_fmap]. apply NoDup_cons. split; [|by apply IH].
  intros (x & E & [_ Hx]%list_elem_of_filter)%list_elem_of_fmap. apply Hr. rewrite E. apply list_elem_of_fmap. eauto.
Qed.

Lemma omap_ext_in {A B} (f g : A → option B) (l : list A) : (∀ x, x ∈ l → f x = g x) → omap f l = omap g l.
Proof. intros Hl. apply list_omap_ext, Forall_Forall2_diag. by apply Forall_forall. Qed.

Lemma sumZ_join {A B} (f : A → list B) (g : B → Z) (l : list A) :
  sumZ g (mjoin (f <$> l)) = sumZ (λ a, sumZ g (f a)) l.
Proof. induction l as [|a l IH]; [done|]. rewrite sumZ_cons, <- IH, <- sumZ_app. done. Qed.

(** A list with distinct integer keys has one order by key. *)
Lemma sorted_by_key_unique {A} (f : A → Z) (l k : list A) :
  NoDup (f <$> l) → StronglySorted (λ a b, (f a ≤ f b)%Z) l → StronglySorted (λ a b, (f a ≤ f b)%Z) k → k ≡ₚ l → k = l.
Proof.
  assert (Hs : ∀ m : list A, StronglySorted (λ a b, (f a ≤ f b)%Z) m → Sorted Z.le (f <$> m)).
  { intros m Hm. apply StronglySorted_Sorted. induction Hm as [|a m _ IH Hall]; [constructor|]. cbn [fmap list_fmap].
    constructor; [done|]. by apply Forall_fmap. }
  intros Hn Hl Hk Hp. assert (E : f <$> k = f <$> l) by (apply (Sorted_unique Z.le); [by apply Hs|by apply Hs|by rewrite Hp]).
  apply list_eq. intros i. apply (f_equal (lookup i)) in E. rewrite !list_lookup_fmap in E.
  destruct (k !! i) as [a|] eqn:Ea, (l !! i) as [b|] eqn:Eb; try done. simpl in E. injection E as E. f_equal.
  apply (fmap_inj_NoDup f l); [done| |by eapply list_elem_of_lookup_2|done]. rewrite <- Hp. by eapply list_elem_of_lookup_2.
Qed.

(** ** Unstable sorting

    [sort.Slice] promises a permutation, sorted when its comparison is a strict
    weak order on the elements, and nothing about elements the comparison does
    not separate.  A definition that calls it is generic in the
    sort: every theorem holds for any algorithm with these laws. *)
Class GoSort := {
  sort_slice : ∀ {A : Type}, (A → A → bool) → list A → list A;
  sort_slice_perm : ∀ {A} (less : A → A → bool) l, sort_slice less l ≡ₚ l;
  sort_slice_sorted : ∀ {A} (less : A → A → bool) l,
    (∀ a b, a ∈ l → b ∈ l → less a b = true → less b a = false) →
    (∀ a b c, a ∈ l → b ∈ l → c ∈ l → less b a = false → less c b = false → less c a = false) →
    StronglySorted (λ a b, less b a = false) (sort_slice less l) }.

Lemma StronglySorted_weaken {A} (R S : relation A) l :
  (∀ a b, R a b → S a b) → StronglySorted R l → StronglySorted S l.
Proof.
  intros Hi Hs. induction Hs as [|x l _ IH Hall]; constructor; [done|].
  eapply Forall_impl; [exact Hall|]. auto.
Qed.

(** Insertion sort is one. *)
#[export] Program Instance insertion_GoSort : GoSort :=
  {| sort_slice A less l := sort_stable (λ a b, negb (less b a)) l |}.
Next Obligation. intros A less l. apply sort_stable_perm. Qed.
Next Obligation.
  intros A less l Hasym Htr.
  apply (StronglySorted_weaken (λ a b, negb (less b a))).
  - intros a b Hy%Is_true_true. by apply negb_true_iff.
  - apply sort_stable_sorted.
    + intros a b Ha Hb Hy%negb_false_iff. apply negb_true_iff. by apply Hasym.
    + intros a b c Ha Hb Hc H1%negb_true_iff H2%negb_true_iff. apply negb_true_iff.
      by apply (Htr a b c).
Qed.

(** [<] on strings is a strict order, and not being smaller is transitive. *)
Lemma str_lt_asym a b : str_lt a b = true → str_lt b a = false.
Proof.
  unfold str_lt, String.ltb. rewrite (String.compare_antisym b a).
  destruct (String.compare a b); done.
Qed.

Lemma str_lt_false a b : str_lt b a = false ↔ String.le a b.
Proof.
  unfold str_lt, String.ltb, String.le, String.leb. rewrite (String.compare_antisym b a).
  destruct (String.compare a b); simpl; split; done.
Qed.

Lemma str_lt_false_trans a b c :
  str_lt b a = false → str_lt c b = false → str_lt c a = false.
Proof. rewrite !str_lt_false. intros. by trans b. Qed.
