(* ===== verification/Accelerator.v ===== *)
(** * Accelerator names: families, products and allowlists

    The model of [internal/accelerator] ([accelerator.go], [family.go],
    [identity.go], [allowlist.go]) and of the accelerator placeholders of
    [internal/constants].  A Go map is a [gmap string V]; a [range] over it is
    an iteration over its entries, whose order Go leaves open.  Each loop is
    therefore a function of a list of entries (suffix [_entries] or [_keys]),
    applied to [map_to_list], with a [Proper] instance stating that every
    enumeration order gives the same answer. *)
From Stdlib Require Import ZArith Lia String Ascii.
From stdpp Require Import base gmap strings list sorting fin_maps.
From S2P Require Import Prelude.

Definition DefaultAcceleratorName : string := "unknown".
Definition UnresolvedAcceleratorType : string := "unresolved".

Definition IsAcceleratorResolved (name : string) : bool :=
  negb (String.eqb name "") && negb (String.eqb name DefaultAcceleratorName)
  && negb (String.eqb name UnresolvedAcceleratorType).

(** ** Short names *)
Definition NormalizeAcceleratorName (fullName : string) : string :=
  if negb (contains_char "-" fullName) then fullName else
  match split_char "-" fullName with
  | p0 :: p1 :: ps =>
      let vendor := ToUpper p0 in
      if String.eqb vendor "NVIDIA" then
        match ps with
        | p2 :: _ => if EqualFold p1 "tesla" then p2 else p1
        | [] => p1
        end
      else if String.eqb vendor "AMD" then p1
      else if String.eqb vendor "INTEL" then
        match ps with
        | p2 :: _ => p1 +:+ "-" +:+ p2
        | [] => p1
        end
      else p1
  | _ => fullName
  end.

Definition IsFamily (name : string) : bool :=
  String.eqb (NormalizeAcceleratorName name) name.

Definition Family (name : string) : string := NormalizeAcceleratorName name.

Definition IsProductOf (product family : string) : bool :=
  IsFamily family && negb (IsFamily product) && EqualFold (Family product) family.

Definition Covers (key name : string) : bool :=
  EqualFold key name || IsProductOf name key.

Definition SameName (a b : string) : bool :=
  if String.eqb a b || EqualFold a b then true
  else
    let na := NormalizeAcceleratorName a in
    if negb (String.eqb na a) && EqualFold na b then true
    else
      let nb := NormalizeAcceleratorName b in
      negb (String.eqb nb b) && EqualFold nb a.

(** ** Looking a name up in a map *)
Definition FindKey_keys (order : list string) (known : string → bool) (name : string)
  : option string :=
  if known name then Some name else
  let normalized := NormalizeAcceleratorName name in
  if negb (String.eqb normalized name) && known normalized then Some normalized else
  min_string (filter (λ key, Is_true (SameName key name)) order).

Definition FindKey {V} (known : gmap string V) (name : string) : option string :=
  FindKey_keys (map_to_list known).*1 (λ k, bool_decide (is_Some (known !! k))) name.

Definition oneSpelling (names : list string) : bool :=
  match names with
  | [] => true
  | n0 :: ns => forallb (λ n, EqualFold n n0) ns
  end.

(** The four cases of [FindBudgetKey]'s [switch] over the keys. *)
Inductive key_class := CaseEqual | Product | FamilyOf | Sibling | Other.

Definition classify (name key : string) : key_class :=
  if EqualFold key name then CaseEqual
  else if IsProductOf key name then Product
  else if IsProductOf name key then FamilyOf
  else if negb (IsFamily name) && negb (IsFamily key)
          && EqualFold (Family key) (Family name) then Sibling
  else Other.

#[export] Instance key_class_eq_dec : EqDecision key_class.
Proof. solve_decision. Defined.

Definition keys_of_class (c : key_class) (name : string) (order : list string) : list string :=
  filter (λ key, classify name key = c) order.

Definition FindBudgetKey_keys (order : list string) (known : string → bool) (name : string)
  : option string :=
  if known name then Some name else
  let caseEqual := keys_of_class CaseEqual name order in
  let products := keys_of_class Product name order in
  let families := keys_of_class FamilyOf name order in
  let sibling := negb (bool_decide (keys_of_class Sibling name order = [])) in
  if negb (bool_decide (caseEqual = [])) then min_string caseEqual
  else if negb (bool_decide (products = [])) && oneSpelling products then min_string products
  else if negb (bool_decide (products = [])) then None
  else if negb (bool_decide (families = [])) && negb sibling then min_string families
  else None.

Definition FindBudgetKey {V} (known : gmap string V) (name : string) : option string :=
  FindBudgetKey_keys (map_to_list known).*1 (λ k, bool_decide (is_Some (known !! k))) name.

(** ** Bounds of an allowlist *)
Record Bound := MkBound { Free : Z; Unlimited : bool }.

Definition tighter (a : Z) (aUnlimited : bool) (b : Z) (bUnlimited : bool) : Z * bool :=
  if aUnlimited then (b, bUnlimited)
  else if bUnlimited then (a, false)
  else (Z.min a b, false).

Definition tightest (bounds : list Bound) : Z * bool :=
  foldl (λ '(free, unlimited) b,
           if Unlimited b then (free, unlimited)
           else tighter free unlimited (Free b) false)
        (0%Z, true) bounds.

Section allowlist.
Context {V : Type} (bound : V → Bound).
Implicit Types (entries : list (string * V)) (name : string).

Definition own_bounds entries name : list Bound :=
  (λ e, bound e.2) <$> filter (λ e, EqualFold e.1 name = true) entries.
Definition product_bounds entries name : list Bound :=
  (λ e, bound e.2) <$>
    filter (λ e, EqualFold e.1 name = false ∧ IsProductOf e.1 name = true) entries.
Definition family_bounds entries name : list Bound :=
  (λ e, bound e.2) <$>
    filter (λ e, EqualFold e.1 name = false ∧ IsProductOf e.1 name = false
                 ∧ IsProductOf name e.1 = true) entries.

(** [free += b.Free] over the products. *)
Definition sum_free (bs : list Bound) : Z := foldl (λ free b, free ⊞ Free b) 0%Z bs.

(** The free GPUs, whether that is unlimited, and whether [name] is listed. *)
Definition AllowlistBound_entries entries name : Z * bool * bool :=
  let own := own_bounds entries name in
  let products := product_bounds entries name in
  let family := family_bounds entries name in
  match own, products, family with
  | _ :: _, _, [] => (tightest own, true)
  | _ :: _, _, _ :: _ =>
      let '(free, unlimited) := tightest own in
      let '(ff, fu) := tightest family in
      (tighter free unlimited ff fu, true)
  | [], _ :: _, _ =>
      if existsb Unlimited products then (0%Z, true, true)
      else (sum_free products, false, true)
  | [], [], _ :: _ => (tightest family, true)
  | [], [], [] => (0%Z, false, false)
  end.

Definition AllowlistBound (allowlist : gmap string V) name : Z * bool * bool :=
  AllowlistBound_entries (map_to_list allowlist) name.

Definition ClusterAllowlistBound (allowlist : gmap string V) name : Z * bool * bool :=
  let '(free, unlimited, listed) := AllowlistBound allowlist name in
  if negb listed && String.eqb name DefaultAcceleratorName then (0%Z, false, false)
  else if negb listed then (0%Z, false, true)
  else (free, unlimited, true).

Definition ClosesFamily (allowlists : list (gmap string V)) name : bool :=
  if negb (IsFamily name) || negb (IsAcceleratorResolved name) then false
  else existsb (λ a : gmap string V,
                  negb (existsb (λ e, EqualFold e.1 name) (map_to_list a))) allowlists.

Definition ListsProduct (allowlists : list (gmap string V)) name : bool :=
  existsb (λ a : gmap string V, existsb (λ e, IsProductOf e.1 name) (map_to_list a))
          allowlists.

(** The closure [tightestOf] of [ClusterAllowlistsBound]; [cluster_step] is
    its loop body. *)
Definition cluster_step name (acc : Z * bool * bool) (a : gmap string V)
  : Z * bool * bool :=
  let '(free, unlimited, bounds) := acc in
  let '(f, u, b) := ClusterAllowlistBound a name in
  if negb b then (free, unlimited, bounds) else (tighter free unlimited f u, true).

Definition tightestOf (allowlists : list (gmap string V)) name : Z * bool * bool :=
  let '(free, unlimited, bounds) :=
    foldl (cluster_step name) (0%Z, true, false) allowlists in
  (free, unlimited && bounds, bounds).

(** The products of [name] the allowlists list, one spelling of each, in the
    order the keys are met. *)
Definition add_product name (products : list string) (key : string) : list string :=
  if IsProductOf key name && negb (existsb (λ p, EqualFold p key) products)
  then products ++ [key] else products.

Definition products_keys name (keys : list string) : list string :=
  foldl (add_product name) [] keys.

(** [sum += f] until a product is unlimited. *)
Fixpoint sum_products (allowlists : list (gmap string V)) (products : list string)
    (sum : Z) : Z * bool :=
  match products with
  | [] => (sum, false)
  | p :: ps =>
      let '(f, u, _) := tightestOf allowlists p in
      if u then (sum, true) else sum_products allowlists ps (sum ⊞ f)
  end.

Definition ClusterAllowlistsBound_keys (keys : list string)
    (allowlists : list (gmap string V)) name : Z * bool * bool :=
  let '(free, unlimited, bounds) := tightestOf allowlists name in
  if negb bounds || negb (ClosesFamily allowlists name) then (free, unlimited, bounds)
  else
    let '(sum, sumUnlimited) := sum_products allowlists (products_keys name keys) 0%Z in
    (tighter free unlimited sum sumUnlimited, true).

Definition ClusterAllowlistsBound (allowlists : list (gmap string V)) name
  : Z * bool * bool :=
  ClusterAllowlistsBound_keys
    (mjoin ((λ a : gmap string V, (map_to_list a).*1) <$> allowlists)) allowlists name.
End allowlist.

(** A product no real accelerator reports, standing for every unlisted one. *)
Definition UnlistedProduct (family : string) : option string :=
  list_find (λ n, IsProductOf n family = true)
    ((λ vendor, vendor +:+ "-" +:+ family +:+ "-unlisted-product")
       <$> ["NVIDIA"; "Intel"; "AMD"; "vendor"]) ≫= λ p, Some p.2.

(** ** Case folding respects the family/product tree *)
Lemma lower_upper_ascii c : upper_ascii (lower_ascii c) = upper_ascii c.
Proof. by destruct c as [[] [] [] [] [] [] [] []]. Qed.

Lemma lower_lower_ascii c : lower_ascii (lower_ascii c) = lower_ascii c.
Proof. by destruct c as [[] [] [] [] [] [] [] []]. Qed.

Lemma lower_ascii_hyphen c : Ascii.eqb "-" (lower_ascii c) = Ascii.eqb "-" c.
Proof. by destruct c as [[] [] [] [] [] [] [] []]. Qed.

Lemma ToUpper_ToLower s : ToUpper (ToLower s) = ToUpper s.
Proof.
  unfold ToUpper, ToLower. induction s as [|c s IH]; [done|]. simpl.
  by rewrite lower_upper_ascii, IH.
Qed.

Lemma ToLower_idemp s : ToLower (ToLower s) = ToLower s.
Proof.
  unfold ToLower. induction s as [|c s IH]; [done|]. simpl.
  by rewrite lower_lower_ascii, IH.
Qed.

Lemma ToLower_app s t : ToLower (s +:+ t) = ToLower s +:+ ToLower t.
Proof.
  unfold ToLower. induction s as [|c s IH]; [done|].
  rewrite string_append_cons. cbn [string_map]. by rewrite IH, string_append_cons.
Qed.

Lemma ToLower_length s : String.length (ToLower s) = String.length s.
Proof. unfold ToLower. induction s as [|c s IH]; [done|]. simpl. by f_equal. Qed.

Lemma contains_hyphen_lower s : contains_char "-" (ToLower s) = contains_char "-" s.
Proof.
  unfold ToLower. induction s as [|c s IH]; [done|].
  cbn [string_map contains_char]. by rewrite lower_ascii_hyphen, IH.
Qed.

Lemma split_hyphen_lower s : split_char "-" (ToLower s) = ToLower <$> split_char "-" s.
Proof.
  unfold ToLower. induction s as [|c s IH]; [done|].
  cbn [string_map split_char]. rewrite lower_ascii_hyphen, IH.
  destruct (Ascii.eqb "-" c); [done|]. by destruct (split_char "-" s).
Qed.

Lemma EqualFold_lower_l a b : EqualFold (ToLower a) b = EqualFold a b.
Proof. unfold EqualFold. by rewrite ToLower_idemp. Qed.

Lemma normalize_lower s :
  NormalizeAcceleratorName (ToLower s) = ToLower (NormalizeAcceleratorName s).
Proof.
  unfold NormalizeAcceleratorName. rewrite contains_hyphen_lower, split_hyphen_lower.
  destruct (contains_char "-" s); [|done]. simpl.
  destruct (split_char "-" s) as [|p0 [|p1 ps]]; [done..|]. simpl.
  rewrite ToUpper_ToLower.
  repeat case_match; simplify_eq/=; rewrite ?EqualFold_lower_l in *; try congruence.
  by rewrite !ToLower_app.
Qed.

(** *** A product's short name is strictly shorter *)
Fixpoint pieces_length (l : list string) : nat :=
  match l with
  | [] => 0
  | p :: ps => String.length p + 1 + pieces_length ps
  end.

Lemma split_char_length c s : pieces_length (split_char c s) = S (String.length s).
Proof.
  induction s as [|d s IH]; [done|]. simpl.
  destruct (Ascii.eqb c d); simpl; [lia|].
  destruct (split_char c s); simpl in *; lia.
Qed.

Lemma string_app_length a b :
  String.length (a +:+ b) = String.length a + String.length b.
Proof.
  induction a as [|c a IH]; [done|].
  rewrite string_append_cons. cbn [String.length]. by rewrite IH.
Qed.

Lemma split_char_no_sep c s : contains_char c s = true → ∃ p q ps, split_char c s = p :: q :: ps.
Proof.
  induction s as [|d s IH]; [done|]. simpl.
  assert (Hne : split_char c s ≠ []).
  { pose proof (split_char_length c s). destruct (split_char c s); simpl in *; [lia|done]. }
  destruct (Ascii.eqb c d); simpl.
  - intros _. destruct (split_char c s); [done|]. eauto.
  - intros (p & q & ps & ->)%IH. eauto.
Qed.

Lemma normalize_shorter s :
  contains_char "-" s = true →
  (String.length (NormalizeAcceleratorName s) < String.length s).
Proof.
  intros H. unfold NormalizeAcceleratorName. rewrite H. simpl.
  destruct (split_char_no_sep _ _ H) as (p & q & ps & Hs).
  pose proof (split_char_length "-" s) as Hl. rewrite Hs in *. simpl in Hl.
  repeat case_match; simplify_eq/=; rewrite ?string_app_length; simpl; lia.
Qed.

Lemma IsFamily_hyphen s : IsFamily s = negb (contains_char "-" s).
Proof.
  unfold IsFamily. destruct (contains_char "-" s) eqn:H; simpl.
  - apply normalize_shorter in H. apply String.eqb_neq. intros Heq.
    rewrite Heq in H. lia.
  - unfold NormalizeAcceleratorName. rewrite H. apply String.eqb_refl.
Qed.

Lemma IsFamily_fold a b : EqualFold a b = true → IsFamily a = IsFamily b.
Proof.
  rewrite EqualFold_spec, !IsFamily_hyphen. intros H.
  by rewrite <- (contains_hyphen_lower a), <- (contains_hyphen_lower b), H.
Qed.

Lemma Family_fold a b : EqualFold a b = true → EqualFold (Family a) (Family b) = true.
Proof.
  rewrite !EqualFold_spec. unfold Family. intros H.
  by rewrite <- !normalize_lower, H.
Qed.

Lemma IsProductOf_fold_l a b f : EqualFold a b = true → IsProductOf a f = IsProductOf b f.
Proof.
  intros H. unfold IsProductOf.
  by rewrite (IsFamily_fold a b H), (EqualFold_congr_l _ _ f (Family_fold _ _ H)).
Qed.

Lemma IsProductOf_fold_r p a b : EqualFold a b = true → IsProductOf p a = IsProductOf p b.
Proof.
  intros H. unfold IsProductOf.
  by rewrite (IsFamily_fold a b H), (EqualFold_congr_r a b _ H).
Qed.

Lemma Covers_fold_l a b n : EqualFold a b = true → Covers a n = Covers b n.
Proof.
  intros H. unfold Covers.
  by rewrite (EqualFold_congr_l a b n H), (IsProductOf_fold_r n a b H).
Qed.

Lemma Covers_fold_r k a b : EqualFold a b = true → Covers k a = Covers k b.
Proof.
  intros H. unfold Covers.
  by rewrite (EqualFold_congr_r a b k H), (IsProductOf_fold_l a b k H).
Qed.

Lemma IsProductOf_spec p f :
  IsProductOf p f = true ↔
  IsFamily f = true ∧ IsFamily p = false ∧ EqualFold (Family p) f = true.
Proof. unfold IsProductOf. rewrite !andb_true_iff, negb_true_iff. tauto. Qed.

Lemma IsProductOf_not_fold p f : IsProductOf p f = true → EqualFold p f = false.
Proof.
  intros (Hf & Hp & _)%IsProductOf_spec. apply not_true_iff_false.
  intros H%IsFamily_fold. congruence.
Qed.

Lemma Covers_refl k : Covers k k = true.
Proof. unfold Covers. by rewrite EqualFold_refl. Qed.

(** Covering is transitive: the tree has two levels. *)
Lemma Covers_trans a b c : Covers a b = true → Covers b c = true → Covers a c = true.
Proof.
  intros Hab Hbc. unfold Covers in Hbc.
  apply orb_true_iff in Hbc as [Hbc|Hbc].
  - by rewrite <- (Covers_fold_r a b c Hbc).
  - unfold Covers in Hab. apply orb_true_iff in Hab as [Hab|Hab].
    + rewrite (Covers_fold_l a b c Hab). unfold Covers. by rewrite Hbc, orb_true_r.
    + apply IsProductOf_spec in Hab as (_ & Hb & _).
      apply IsProductOf_spec in Hbc as (Hb' & _). congruence.
Qed.

Lemma resolved_lower_product p f : IsProductOf p f = true → String.eqb p DefaultAcceleratorName = false.
Proof.
  intros (_ & Hp & _)%IsProductOf_spec. apply String.eqb_neq. intros ->. done.
Qed.

(** ** Bounds as a meet-semilattice

    A bound is read as (free, unlimited): [b_le] says the first is at least as
    tight as the second, and [b_eq] identifies two unlimited bounds whatever
    their free figure. *)
Definition b_le (a b : Z * bool) : Prop :=
  b.2 = true ∨ (a.2 = false ∧ b.2 = false ∧ (a.1 ≤ b.1)%Z).
Definition b_eq (a b : Z * bool) : Prop := a.2 = b.2 ∧ (a.2 = false → a.1 = b.1).
Definition b_min (a b : Z * bool) : Z * bool := tighter a.1 a.2 b.1 b.2.
Definition bound_pair (b : Bound) : Z * bool := (Free b, Unlimited b).

#[export] Instance b_eq_equiv : Equivalence b_eq.
Proof. unfold b_eq. split; hnf; intros; naive_solver congruence. Qed.

#[export] Instance b_le_preorder : PreOrder b_le.
Proof.
  unfold b_le. split; hnf.
  - intros [x []]; simpl; [by left|right; naive_solver lia].
  - intros [x []] [y []] [z []]; simpl; naive_solver lia.
Qed.

#[export] Instance b_le_proper : Proper (b_eq ==> b_eq ==> iff) b_le.
Proof.
  unfold b_eq, b_le. intros [a []] [a' []] [? H] [b []] [b' []] [? H']; simplify_eq/=;
    naive_solver lia.
Qed.

#[export] Instance b_min_proper : Proper (b_eq ==> b_eq ==> b_eq) b_min.
Proof.
  unfold b_eq, b_min, tighter.
  intros [a []] [a' []] [? H] [b []] [b' []] [? H']; simplify_eq/=; naive_solver lia.
Qed.

Lemma b_le_antisymm a b : b_le a b → b_le b a → b_eq a b.
Proof. unfold b_le, b_eq. destruct a as [a []], b as [b []]; simpl; naive_solver lia. Qed.

Lemma b_min_le_l a b : b_le (b_min a b) a.
Proof.
  unfold b_le, b_min, tighter. destruct a as [a []], b as [b []]; simpl; naive_solver lia.
Qed.

Lemma b_min_le_r a b : b_le (b_min a b) b.
Proof.
  unfold b_le, b_min, tighter. destruct a as [a []], b as [b []]; simpl; naive_solver lia.
Qed.

Lemma b_min_glb a b c : b_le c a → b_le c b → b_le c (b_min a b).
Proof.
  unfold b_le, b_min, tighter.
  destruct a as [a []], b as [b []], c as [c []]; simpl; naive_solver lia.
Qed.

#[export] Hint Resolve b_min_le_l b_min_le_r b_min_glb : go_int.

(** [tightest] is the meet of the bounds it is given. *)
Lemma tightest_foldl acc bs :
  b_eq (foldl (λ '(free, unlimited) b,
           if Unlimited b then (free, unlimited)
           else tighter free unlimited (Free b) false) acc bs)
       (foldr (λ b r, b_min (bound_pair b) r) acc bs).
Proof.
  revert acc. induction bs as [|b bs IH]; intros acc; simpl; [done|].
  rewrite IH. clear IH. destruct acc as [f u].
  assert (Hstep : b_eq (if Unlimited b then (f, u) else tighter f u (Free b) false)
                       (b_min (bound_pair b) (f, u))).
  { unfold b_eq, b_min, bound_pair, tighter. destruct b as [fb []], u; simpl; naive_solver lia. }
  induction bs as [|b' bs IHbs]; simpl; [done|].
  rewrite IHbs. clear. unfold b_eq, b_min, tighter, bound_pair.
  destruct b as [fb []], b' as [fb' []]; simpl;
    destruct (foldr _ _ bs) as [r []]; simpl; naive_solver lia.
Qed.

Lemma tightest_le bs b : b ∈ bs → b_le (tightest bs) (bound_pair b).
Proof.
  intros H. unfold tightest. rewrite tightest_foldl.
  induction H; simpl; [apply b_min_le_l|].
  etrans; [apply b_min_le_r|done].
Qed.

Lemma tightest_glb bs c :
  (∀ b, b ∈ bs → b_le c (bound_pair b)) → b_le c (tightest bs).
Proof.
  intros H. unfold tightest. rewrite tightest_foldl.
  induction bs as [|b bs IH]; simpl; [by left|].
  apply b_min_glb; [apply H; constructor|].
  apply IH. intros b' Hb'. apply H. by constructor.
Qed.

#[export] Instance tightest_proper : Proper ((≡ₚ) ==> b_eq) tightest.
Proof.
  intros l k Hlk. apply b_le_antisymm; apply tightest_glb; intros b Hb; apply tightest_le.
  - by rewrite Hlk.
  - by rewrite <- Hlk.
Qed.

#[export] Instance sum_free_proper : Proper ((≡ₚ) ==> (=)) sum_free.
Proof.
  intros l k H. unfold sum_free. apply foldl_perm; [|done].
  intros x a b. rewrite !wrap_add_l. f_equal. lia.
Qed.

#[export] Instance existsb_proper {A} (f : A → bool) : Proper ((≡ₚ) ==> (=)) (existsb f).
Proof.
  intros l k H. apply eq_true_iff_eq. rewrite !existsb_exists.
  split; intros (x & Hx & Hf); exists x; (split; [|done]);
    rewrite <- list_elem_of_In in *; [by rewrite <- H | by rewrite H].
Qed.

(** Same answer: the same listing, and bounds equal up to the free figure of an
    unlimited one. *)
Definition ans_eq (a b : Z * bool * bool) : Prop := b_eq a.1 b.1 ∧ a.2 = b.2.

#[export] Instance ans_eq_equiv : Equivalence ans_eq.
Proof.
  unfold ans_eq. split; hnf.
  - intros; split; reflexivity.
  - intros x y [H1 H2]; split; [by symmetry|done].
  - intros x y z [H1 H2] [H3 H4]; split; [by etrans|congruence].
Qed.

Section allowlist_facts.
Context {V : Type} (bound : V → Bound).
Implicit Types (entries : list (string * V)) (name : string) (a : gmap string V).

(** The enumeration order of the allowlist's map does not change what it
    allows. *)
#[export] Instance AllowlistBound_entries_proper :
  Proper ((≡ₚ) ==> (=) ==> ans_eq) (AllowlistBound_entries bound).
Proof.
  intros l k H name ? <-. unfold AllowlistBound_entries.
  assert (Ho : own_bounds bound l name ≡ₚ own_bounds bound k name)
    by (unfold own_bounds; by rewrite H).
  assert (Hp : product_bounds bound l name ≡ₚ product_bounds bound k name)
    by (unfold product_bounds; by rewrite H).
  assert (Hf : family_bounds bound l name ≡ₚ family_bounds bound k name)
    by (unfold family_bounds; by rewrite H).
  revert Ho Hp Hf.
  generalize (own_bounds bound l name) (own_bounds bound k name)
    (product_bounds bound l name) (product_bounds bound k name)
    (family_bounds bound l name) (family_bounds bound k name).
  intros ol ok pl pk fl fk Ho Hp Hf.
  destruct ol as [|o ol]; destruct ok as [|o' ok];
    try (discriminate (Permutation_length Ho)).
  - destruct pl as [|p pl]; destruct pk as [|p' pk];
      try (discriminate (Permutation_length Hp)).
    + destruct fl as [|f fl]; destruct fk as [|f' fk];
        try (discriminate (Permutation_length Hf)); [done|].
      split; [|done]. by apply tightest_proper.
    + rewrite (existsb_proper Unlimited _ _ Hp), (sum_free_proper _ _ Hp). done.
  - assert (Ht := tightest_proper _ _ Ho).
    destruct fl as [|f fl]; destruct fk as [|f' fk];
      try (discriminate (Permutation_length Hf)); [by split|].
    assert (Hg := tightest_proper _ _ Hf).
    pose proof (b_min_proper _ _ Ht _ _ Hg) as Hm. unfold b_min in Hm.
    destruct (tightest (o :: ol)), (tightest (o' :: ok)),
      (tightest (f :: fl)), (tightest (f' :: fk)). by split.
Qed.

Lemma elem_of_entries_bounds (P : string * V → Prop) {Pdec : ∀ e, Decision (P e)} a key v :
  a !! key = Some v → P (key, v) →
  bound v ∈ (λ e, bound e.2) <$> filter P (map_to_list a).
Proof.
  intros H HP. apply list_elem_of_fmap. exists (key, v). split; [done|].
  apply list_elem_of_filter. split; [done|]. by apply elem_of_map_to_list.
Qed.

(** Every key that covers a name bounds it: its own spelling in any case, and
    the family a product belongs to. *)
Lemma AllowlistBound_covers a key v name :
  a !! key = Some v → Covers key name = true →
  b_le (AllowlistBound bound a name).1 (bound_pair (bound v)) ∧
  (AllowlistBound bound a name).2 = true.
Proof.
  intros Hk Hc. unfold AllowlistBound, AllowlistBound_entries.
  destruct (EqualFold key name) eqn:He.
  - assert (Hin : bound v ∈ own_bounds bound (map_to_list a) name)
      by (by apply elem_of_entries_bounds with key).
    pose proof (tightest_le _ _ Hin) as Hle.
    destruct (own_bounds _ _ _) as [|o os]; [by apply not_elem_of_nil in Hin|].
    destruct (family_bounds _ _ _) as [|f fs]; [done|].
    pose proof (b_min_le_l (tightest (o :: os)) (tightest (f :: fs))) as Hm.
    unfold b_min in Hm.
    destruct (tightest (o :: os)), (tightest (f :: fs)).
    split; [by etrans|done].
  - unfold Covers in Hc. rewrite He in Hc. simpl in Hc.
    assert (Hin : bound v ∈ family_bounds bound (map_to_list a) name).
    { apply elem_of_entries_bounds with key; [done|]. repeat split; [done| |done]. simpl.
      apply IsProductOf_spec in Hc as (Hf & Hn & _). unfold IsProductOf.
      by rewrite Hn. }
    assert (Hnil : product_bounds bound (map_to_list a) name = []).
    { unfold product_bounds.
      enough (filter (λ e : string * V, EqualFold e.1 name = false ∧
                IsProductOf e.1 name = true) (map_to_list a) = []) as -> by done.
      apply list_filter_nil. intros [k w] _ [_ Hp]. simpl in Hp.
      apply IsProductOf_spec in Hc as (_ & Hn & _).
      apply IsProductOf_spec in Hp as (Hn' & _). congruence. }
    rewrite Hnil. pose proof (tightest_le _ _ Hin) as Hle.
    destruct (family_bounds _ _ _) as [|f fs]; [by apply not_elem_of_nil in Hin|].
    destruct (own_bounds _ _ _) as [|o os]; [done|].
    pose proof (b_min_le_r (tightest (o :: os)) (tightest (f :: fs))) as Hm.
    unfold b_min in Hm.
    destruct (tightest (o :: os)), (tightest (f :: fs)).
    split; [by etrans|done].
Qed.

(** What an allowlist says of a name does not depend on its case. *)
Lemma AllowlistBound_fold a n m :
  EqualFold n m = true → AllowlistBound bound a n = AllowlistBound bound a m.
Proof.
  intros H. unfold AllowlistBound, AllowlistBound_entries.
  assert (own_bounds bound (map_to_list a) n = own_bounds bound (map_to_list a) m) as ->.
  { unfold own_bounds. f_equal. apply list_filter_iff. intros e.
    by rewrite (EqualFold_congr_r n m _ H). }
  assert (product_bounds bound (map_to_list a) n = product_bounds bound (map_to_list a) m)
    as ->.
  { unfold product_bounds. f_equal. apply list_filter_iff. intros e.
    by rewrite (EqualFold_congr_r n m _ H), (IsProductOf_fold_r _ n m H). }
  assert (family_bounds bound (map_to_list a) n = family_bounds bound (map_to_list a) m)
    as ->; [|done].
  unfold family_bounds. f_equal. apply list_filter_iff. intros e.
  by rewrite (EqualFold_congr_r n m _ H), (IsProductOf_fold_r _ n m H),
    (IsProductOf_fold_l n m _ H).
Qed.

Lemma tightestOf_fold als n m :
  EqualFold n m = true → String.eqb n DefaultAcceleratorName = false →
  String.eqb m DefaultAcceleratorName = false →
  tightestOf bound als n = tightestOf bound als m.
Proof.
  intros H Hn Hm. unfold tightestOf.
  assert (Hc : ∀ a, ClusterAllowlistBound bound a n = ClusterAllowlistBound bound a m).
  { intros a. unfold ClusterAllowlistBound.
    by rewrite (AllowlistBound_fold a n m H), Hn, Hm. }
  generalize (0%Z, true, false). induction als as [|a als IH]; intros acc; simpl; [done|].
  destruct acc as [[f u] b]. simpl. rewrite Hc. apply IH.
Qed.

Lemma cluster_step_mono name acc a :
  b_le (cluster_step bound name acc a).1 acc.1 ∧ (acc.2 = true → (cluster_step bound name acc a).2 = true).
Proof.
  destruct acc as [[f u] b]. unfold cluster_step.
  destruct (ClusterAllowlistBound bound a name) as [[f' u'] []]; simpl.
  - split; [|done]. apply (b_min_le_l (f, u) (f', u')).
  - split; [reflexivity|done].
Qed.

Lemma cluster_steps_mono name als acc :
  b_le (foldl (cluster_step bound name) acc als).1 acc.1 ∧
  (acc.2 = true → (foldl (cluster_step bound name) acc als).2 = true).
Proof.
  revert acc. induction als as [|a als IH]; intros acc; simpl; [by split; [reflexivity|]|].
  destruct (IH (cluster_step bound name acc a)) as [H1 H2].
  destruct (cluster_step_mono name acc a) as [H3 H4].
  split; [by etrans|auto].
Qed.

Lemma tightestOf_le als a name :
  a ∈ als → (ClusterAllowlistBound bound a name).2 = true →
  b_le (tightestOf bound als name).1 (ClusterAllowlistBound bound a name).1 ∧
  (tightestOf bound als name).2 = true.
Proof.
  intros (l & k & ->)%list_elem_of_split Hb. unfold tightestOf. rewrite foldl_app. simpl.
  generalize (foldl (cluster_step bound name) (0%Z, true, false) l). intros [[f0 u0] b0].
  destruct (ClusterAllowlistBound bound a name) as [[f u] b] eqn:E.
  simpl in Hb. subst b.
  assert (cluster_step bound name (f0, u0, b0) a = (tighter f0 u0 f u, true)) as ->
    by (unfold cluster_step; by rewrite E).
  destruct (cluster_steps_mono name k (tighter f0 u0 f u, true)) as [H1 H2].
  specialize (H2 eq_refl).
  destruct (foldl (cluster_step bound name) (tighter f0 u0 f u, true) k) as [[f1 u1] b1].
  simpl in *. subst b1. rewrite andb_true_r. split; [|done].
  etrans; [exact H1|]. apply (b_min_le_r (f0, u0) (f, u)).
Qed.

(** The joint bound of several allowlists is at most what each of them
    allows. *)
Lemma ClusterAllowlistsBound_le als a name :
  a ∈ als → (ClusterAllowlistBound bound a name).2 = true →
  b_le (ClusterAllowlistsBound bound als name).1 (ClusterAllowlistBound bound a name).1 ∧
  (ClusterAllowlistsBound bound als name).2 = true.
Proof.
  intros Ha Hb. destruct (tightestOf_le als a name Ha Hb) as [Hle Ht].
  unfold ClusterAllowlistsBound, ClusterAllowlistsBound_keys.
  destruct (tightestOf bound als name) as [[f u] b]. simpl in *. subst b.
  destruct (ClosesFamily als name); simpl; [|done].
  destruct (sum_products _ _ _ _) as [s su]. split; [|done].
  etrans; [|exact Hle]. apply (b_min_le_l (f, u) (s, su)).
Qed.
End allowlist_facts.

(** ** The products of a family, whatever the map order *)
Lemma products_keys_spec name keys acc :
  NoDup (ToLower <$> acc) →
  Forall (λ p, IsProductOf p name = true) acc →
  let ps := foldl (add_product name) acc keys in
  NoDup (ToLower <$> ps) ∧ Forall (λ p, IsProductOf p name = true) ps ∧
  ∀ x, x ∈ ToLower <$> ps ↔
       x ∈ ToLower <$> acc ∨ ∃ k, k ∈ keys ∧ IsProductOf k name = true ∧ x = ToLower k.
Proof.
  revert acc. induction keys as [|k keys IH]; intros acc Hnd Hall; simpl.
  { split; [done|]. split; [done|]. intros x. split; [by left|].
    intros [|(k & []%not_elem_of_nil & _)]; done. }
  assert (Hadd : NoDup (ToLower <$> add_product name acc k) ∧
    Forall (λ p, IsProductOf p name = true) (add_product name acc k) ∧
    ∀ x, x ∈ ToLower <$> add_product name acc k ↔
         x ∈ ToLower <$> acc ∨ (IsProductOf k name = true ∧ x = ToLower k)).
  { unfold add_product. destruct (IsProductOf k name) eqn:Hk; simpl; [|naive_solver].
    destruct (existsb (λ p, EqualFold p k) acc) eqn:Hex; simpl.
    - split; [done|]. split; [done|]. intros x. split; [by left|].
      intros [?|[_ ->]]; [done|].
      apply existsb_exists in Hex as (p & Hp & He).
      apply EqualFold_spec in He. rewrite <- He.
      apply list_elem_of_fmap_2. by apply list_elem_of_In.
    - rewrite fmap_app. split_and!.
      + apply NoDup_app. split; [done|]. split; [|apply NoDup_singleton].
        intros x Hx ->%list_elem_of_singleton.
        apply list_elem_of_fmap in Hx as (p & Hp & Hin).
        apply not_true_iff_false in Hex. apply Hex, existsb_exists.
        exists p. split; [by apply list_elem_of_In|]. by apply EqualFold_spec.
      + apply Forall_app. split; [done|]. by repeat constructor.
      + intros x. rewrite elem_of_app. cbn [fmap list_fmap]. rewrite list_elem_of_singleton. naive_solver. }
  destruct Hadd as (Hnd' & Hall' & Hin').
  destruct (IH _ Hnd' Hall') as (H1 & H2 & H3). split; [done|]. split; [done|].
  intros x. rewrite H3, Hin'. setoid_rewrite elem_of_cons. naive_solver.
Qed.

Lemma products_keys_perm name k1 k2 :
  k1 ≡ₚ k2 → ToLower <$> products_keys name k1 ≡ₚ ToLower <$> products_keys name k2.
Proof.
  intros H. unfold products_keys.
  destruct (products_keys_spec name k1 []) as (Hn1 & _ & Hi1); [constructor..|].
  destruct (products_keys_spec name k2 []) as (Hn2 & _ & Hi2); [constructor..|].
  apply NoDup_Permutation; [done..|]. intros x. rewrite Hi1, Hi2.
  by setoid_rewrite H.
Qed.

Section order.
Context {V : Type} (bound : V → Bound) (als : list (gmap string V)).

(** A product's bound depends on its spelling only up to case. *)
Lemma tightestOf_lower p name :
  IsProductOf p name = true →
  tightestOf bound als (ToLower p) = tightestOf bound als p.
Proof.
  intros Hp. assert (He : EqualFold (ToLower p) p = true)
    by (by rewrite EqualFold_lower_l).
  apply tightestOf_fold; [done| |by eapply resolved_lower_product].
  apply (resolved_lower_product _ name). by rewrite (IsProductOf_fold_l _ p name He).
Qed.

Lemma sum_products_lower name ps sum :
  Forall (λ p, IsProductOf p name = true) ps →
  sum_products bound als (ToLower <$> ps) sum = sum_products bound als ps sum.
Proof.
  intros H. revert sum. induction H as [|p ps Hp _ IH]; intros sum; simpl; [done|].
  rewrite (tightestOf_lower p name Hp).
  destruct (tightestOf bound als p) as [[f u] b]. destruct u; [done|]. apply IH.
Qed.

(** The loop ends unlimited exactly when some product is, and the sum commutes. *)
Lemma sum_products_spec ps sum :
  (sum_products bound als ps sum).2 = existsb (λ p, (tightestOf bound als p).1.2) ps ∧
  ((sum_products bound als ps sum).2 = false →
   (sum_products bound als ps sum).1 =
     foldl (λ s p, s ⊞ (tightestOf bound als p).1.1) sum ps).
Proof.
  revert sum. induction ps as [|p ps IH]; intros sum; simpl; [done|].
  destruct (tightestOf bound als p) as [[f u] b]. simpl. destruct u; [done|]. apply IH.
Qed.

Lemma sum_products_perm ps qs sum :
  ps ≡ₚ qs → b_eq (sum_products bound als ps sum) (sum_products bound als qs sum).
Proof.
  intros H. destruct (sum_products_spec ps sum) as [H1 H2].
  destruct (sum_products_spec qs sum) as [H3 H4].
  assert (He : (sum_products bound als ps sum).2 = (sum_products bound als qs sum).2).
  { rewrite H1, H3. by apply existsb_proper. }
  split; [done|]. intros Hf. rewrite H2 by done. rewrite H4 by congruence.
  apply foldl_perm; [|done]. intros x a b. rewrite !wrap_add_l. f_equal. lia.
Qed.
End order.

(** The answer of [ClusterAllowlistsBound] is the same whatever order the
    allowlists' maps are enumerated in. *)
Lemma ClusterAllowlistsBound_keys_perm {V} (bound : V → Bound) als name k1 k2 :
  k1 ≡ₚ k2 →
  ans_eq (ClusterAllowlistsBound_keys bound k1 als name)
         (ClusterAllowlistsBound_keys bound k2 als name).
Proof.
  intros H. unfold ClusterAllowlistsBound_keys.
  destruct (tightestOf bound als name) as [[f u] b].
  case_match; [done|].
  assert (Hs : b_eq (sum_products bound als (products_keys name k1) 0)
                    (sum_products bound als (products_keys name k2) 0)).
  { rewrite <- (sum_products_lower bound als name (products_keys name k1)),
      <- (sum_products_lower bound als name (products_keys name k2))
      by (eapply (products_keys_spec name _ []); constructor).
    by apply sum_products_perm, products_keys_perm. }
  pose proof (b_min_proper (f, u) (f, u) (reflexivity _) _ _ Hs) as Hm.
  unfold b_min in Hm. simpl in Hm.
  destruct (sum_products bound als (products_keys name k1) 0),
    (sum_products bound als (products_keys name k2) 0). by split.
Qed.

(** ** Finding a budget key *)
Lemma keys_of_class_perm c name l k :
  l ≡ₚ k → keys_of_class c name l ≡ₚ keys_of_class c name k.
Proof. intros H. unfold keys_of_class. by rewrite H. Qed.

Lemma nil_perm_decide {A} `{EqDecision A} (l k : list A) :
  l ≡ₚ k → bool_decide (l = []) = bool_decide (k = []).
Proof.
  intros H. apply bool_decide_ext. split; intros ->.
  - by apply Permutation_nil_l in H.
  - by apply Permutation_nil_r in H.
Qed.

Lemma oneSpelling_spec l : oneSpelling l = true ↔ ∀ a b, a ∈ l → b ∈ l → EqualFold a b = true.
Proof.
  destruct l as [|n ns]; simpl; [set_solver|]. rewrite forallb_forall. split.
  - intros H a b. assert (Ha : ∀ x, x ∈ n :: ns → EqualFold x n = true).
    { intros x [->|Hx]%elem_of_cons; [done|]. by apply H, list_elem_of_In. }
    intros Hx Hy. apply EqualFold_trans with n; [auto|]. rewrite EqualFold_sym. auto.
  - intros H x Hx. apply H; [|constructor]. constructor. by apply list_elem_of_In.
Qed.

Lemma oneSpelling_perm l k : l ≡ₚ k → oneSpelling l = oneSpelling k.
Proof.
  intros H. apply eq_true_iff_eq. rewrite !oneSpelling_spec. by setoid_rewrite H.
Qed.

Lemma FindBudgetKey_keys_perm known name l k :
  l ≡ₚ k → FindBudgetKey_keys l known name = FindBudgetKey_keys k known name.
Proof.
  intros H. unfold FindBudgetKey_keys.
  assert (Hp : ∀ c, keys_of_class c name l ≡ₚ keys_of_class c name k)
    by (intros; by apply keys_of_class_perm).
  by rewrite !(nil_perm_decide _ _ (Hp _)), !(min_string_proper _ _ (Hp _)),
    (oneSpelling_perm _ _ (Hp _)).
Qed.

Lemma FindBudgetKey_exact {V} (m : gmap string V) name :
  is_Some (m !! name) → FindBudgetKey m name = Some name.
Proof.
  intros H. unfold FindBudgetKey, FindBudgetKey_keys. by rewrite bool_decide_true.
Qed.

Lemma classify_cases name key :
  match classify name key with
  | CaseEqual => EqualFold key name = true
  | Product => IsProductOf key name = true
  | FamilyOf => IsProductOf name key = true
  | Sibling => IsFamily name = false ∧ IsFamily key = false ∧
               EqualFold (Family key) (Family name) = true
  | Other => Covers key name = false ∧ Covers name key = false
  end.
Proof.
  unfold classify.
  destruct (EqualFold key name) eqn:E1; [done|].
  destruct (IsProductOf key name) eqn:E2; [done|].
  destruct (IsProductOf name key) eqn:E3; [done|].
  destruct (negb (IsFamily name) && negb (IsFamily key) && EqualFold (Family key) (Family name))
    eqn:E4.
  - rewrite !andb_true_iff, !negb_true_iff in E4. naive_solver.
  - unfold Covers. rewrite (EqualFold_sym name key), E1, E2, E3. done.
Qed.

(** The key a spend is charged to is a key of the map that covers the declared
    name, or the only product (up to case) of the declared family. *)
Lemma FindBudgetKey_sound {V} (m : gmap string V) name key :
  FindBudgetKey m name = Some key →
  is_Some (m !! key) ∧
  (Covers key name = true ∨
   (IsProductOf key name = true ∧
    ∀ k, is_Some (m !! k) → IsProductOf k name = true → EqualFold k key = true)).
Proof.
  unfold FindBudgetKey, FindBudgetKey_keys. case_bool_decide as Hk.
  { intros [= <-]. split; [done|]. left. apply Covers_refl. }
  set (ks := (map_to_list m).*1).
  assert (Hin : ∀ c k, k ∈ keys_of_class c name ks → is_Some (m !! k) ∧ classify name k = c).
  { intros c k [Hc Hk']%list_elem_of_filter. by rewrite <- elem_of_keys. }
  repeat case_match; intros Hmin; try done; apply min_string_in in Hmin as Hmin';
    destruct (Hin _ _ Hmin') as [Hs Hc]; pose proof (classify_cases name key) as Hcl;
    rewrite Hc in Hcl; split; try done.
  - left. unfold Covers. by rewrite Hcl.
  - right. split; [done|]. intros k Hs' Hp.
    match goal with H : negb _ && oneSpelling _ = true |- _ =>
      apply andb_true_iff in H as [_ H1]; rewrite oneSpelling_spec in H1;
      apply H1; [|done] end.
    apply list_elem_of_filter. split; [|by apply elem_of_keys].
    unfold classify. by rewrite (IsProductOf_not_fold _ _ Hp), Hp.
  - left. unfold Covers. by rewrite Hcl, orb_true_r.
Qed.

(** A closed allowlist: a product that is not a key does not fall back to its
    family when a sibling product is listed. *)
Lemma FindBudgetKey_sibling_denied {V} (m : gmap string V) name k :
  IsFamily name = false →
  (∀ k', is_Some (m !! k') → EqualFold k' name = false) →
  is_Some (m !! k) → IsFamily k = false → EqualFold (Family k) (Family name) = true →
  FindBudgetKey m name = None.
Proof.
  intros Hn Hno Hk Hkf Hs. unfold FindBudgetKey, FindBudgetKey_keys.
  rewrite bool_decide_false.
  2: { intros Hsome%Hno. by rewrite EqualFold_refl in Hsome. }
  assert (Hnp : ∀ k', IsProductOf k' name = false) by (intros; unfold IsProductOf; by rewrite Hn).
  assert (Hnil : ∀ c, c = CaseEqual ∨ c = Product →
            keys_of_class c name (map_to_list m).*1 = []).
  { intros c Hc. apply list_filter_nil. intros x Hx%elem_of_keys Hcl. unfold classify in Hcl.
    rewrite (Hno _ Hx), Hnp in Hcl. repeat case_match; naive_solver. }
  rewrite !Hnil by tauto.
  simpl.
  rewrite (bool_decide_false (keys_of_class Sibling _ _ = [])); [by rewrite andb_false_r|].
  intros Hs'. eapply (filter_nil_not_elem_of _ _ k Hs'); [|by apply elem_of_keys].
  unfold classify. rewrite (Hno _ Hk), Hnp, Hn, Hkf, Hs. simpl.
  unfold IsProductOf. by rewrite Hkf.
Qed.

(** ** Allowlists that do not overflow

    [small_allowlists M als]: every figure is between 0 and [M], and the number
    of listed keys times [M] is a machine integer.  Under it no sum of
    [AllowlistBound] or [ClusterAllowlistsBound] wraps, and no bound is
    negative. *)
Definition all_keys {V} (als : list (gmap string V)) : list string :=
  mjoin ((λ a : gmap string V, (map_to_list a).*1) <$> als).

Section small.
Context {V : Type} (bound : V → Bound) (M : Z).
Hypothesis M_nonneg : (0 ≤ M)%Z.

Definition small_allowlist (a : gmap string V) : Prop :=
  ∀ k v, a !! k = Some v → (0 ≤ Free (bound v) ≤ M)%Z.

Definition small_allowlists (als : list (gmap string V)) : Prop :=
  (∀ a, a ∈ als → small_allowlist a) ∧
  (Z.of_nat (length (all_keys als)) * M ≤ int_max)%Z.

Definition small_bounds (bs : list Bound) : Prop :=
  ∀ b, b ∈ bs → (0 ≤ Free b ≤ M)%Z.

Lemma tightest_small bs : small_bounds bs → (0 ≤ (tightest bs).1 ≤ M)%Z.
Proof.
  unfold tightest. intros H.
  assert (Hg : ∀ acc : Z * bool, (0 ≤ acc.1 ≤ M)%Z →
    (0 ≤ (foldl (λ '(free, unlimited) b, if Unlimited b then (free, unlimited)
           else tighter free unlimited (Free b) false) acc bs).1 ≤ M)%Z).
  { induction bs as [|b bs IH]; intros [f u] Hf; simpl in *; [done|].
    apply IH; [intros b' Hb'; apply H; by constructor|].
    specialize (H b (list_elem_of_here _ _)). unfold tighter.
    destruct (Unlimited b), u; simpl; lia. }
  apply Hg. simpl. lia.
Qed.

Lemma entries_small a (P : string * V → Prop) {Pdec : ∀ e, Decision (P e)} :
  small_allowlist a → small_bounds ((λ e, bound e.2) <$> filter P (map_to_list a)).
Proof.
  intros Ha b ([k v] & -> & [_ Hk%elem_of_map_to_list]%list_elem_of_filter)%list_elem_of_fmap.
  by eapply Ha.
Qed.

Lemma sum_free_small bs :
  small_bounds bs → (Z.of_nat (length bs) * M ≤ int_max)%Z →
  (0 ≤ sum_free bs ≤ Z.of_nat (length bs) * M)%Z.
Proof.
  intros Hb Hl. unfold sum_free. rewrite foldl_wrap_sum by (unfold in_int, int_min, int_max; lia).
  assert (Hs : (0 ≤ sumZ Free bs ≤ Z.of_nat (length bs) * M)%Z).
  { clear Hl. induction bs as [|b bs IH]; simpl; [unfold sumZ; simpl; lia|].
    rewrite sumZ_cons. specialize (IH (λ b' Hb', Hb b' (list_elem_of_further _ _ _ Hb'))).
    specialize (Hb b (list_elem_of_here _ _)). lia. }
  rewrite wrap_id; unfold in_int, int_min in *; lia.
Qed.

Lemma tighter_small a au b bu :
  (0 ≤ a)%Z → (0 ≤ b)%Z → (0 ≤ (tighter a au b bu).1)%Z.
Proof. unfold tighter. destruct au, bu; simpl; lia. Qed.

Lemma AllowlistBound_small a name :
  small_allowlist a → (Z.of_nat (size a) * M ≤ int_max)%Z →
  (0 ≤ (AllowlistBound bound a name).1.1)%Z ∧
  (IsFamily name = false → (AllowlistBound bound a name).1.1 ≤ M)%Z.
Proof.
  intros Ha Hs. unfold AllowlistBound, AllowlistBound_entries.
  assert (Ho : small_bounds (own_bounds bound (map_to_list a) name)) by (by apply entries_small).
  assert (Hp : small_bounds (product_bounds bound (map_to_list a) name))
    by (by apply entries_small).
  assert (Hf : small_bounds (family_bounds bound (map_to_list a) name))
    by (by apply entries_small).
  assert (Hn : length (product_bounds bound (map_to_list a) name) ≤ size a).
  { unfold product_bounds. rewrite length_fmap, <- length_map_to_list. apply length_filter. }
  assert (Hfam : IsFamily name = false → product_bounds bound (map_to_list a) name = []).
  { intros Hnf. unfold product_bounds. rewrite list_filter_nil; [done|].
    intros e _ [_ (? & _)%IsProductOf_spec]. congruence. }
  pose proof (tightest_small _ Ho) as Hto. pose proof (tightest_small _ Hf) as Htf.
  destruct (own_bounds _ _ _) as [|o os] eqn:Eo.
  - destruct (product_bounds _ _ _) as [|p ps] eqn:Ep.
    + destruct (family_bounds _ _ _); simpl in *; [lia|lia].
    + split; [|intros Hnf; by discriminate Hfam].
      case_match; simpl; [lia|]. apply (sum_free_small (p :: ps) Hp). nia.
  - destruct (family_bounds _ _ _) as [|f fs]; [simpl in *; lia|].
    destruct (tightest (o :: os)) as [x xu], (tightest (f :: fs)) as [y yu]. simpl in *.
    unfold tighter. destruct xu, yu; simpl; lia.
Qed.

Lemma tightestOf_small als name :
  (∀ a, a ∈ als → small_allowlist a ∧ (Z.of_nat (size a) * M ≤ int_max)%Z) →
  (0 ≤ (tightestOf bound als name).1.1)%Z ∧
  (IsFamily name = false → (tightestOf bound als name).1.1 ≤ M)%Z.
Proof.
  intros H. unfold tightestOf.
  assert (Hg : ∀ acc : Z * bool * bool,
    (0 ≤ acc.1.1)%Z → (IsFamily name = false → (acc.1.1 ≤ M)%Z) →
    (0 ≤ (foldl (cluster_step bound name) acc als).1.1)%Z ∧
    (IsFamily name = false → ((foldl (cluster_step bound name) acc als).1.1 ≤ M)%Z)).
  { induction als as [|a als IH]; intros [[f u] b] Hf Hm; cbn [foldl]; [done|].
    destruct (H a (list_elem_of_here _ _)) as [Ha Hs].
    destruct (AllowlistBound_small a name Ha Hs) as [H0 H1].
    apply IH; [intros a' Ha'; apply H; by constructor| |];
      unfold cluster_step, ClusterAllowlistBound;
      destruct (AllowlistBound bound a name) as [[f' u'] []]; simpl in *;
      try destruct (String.eqb name DefaultAcceleratorName); simpl;
      unfold tighter; destruct u; try destruct u'; simpl; naive_solver lia. }
  destruct (Hg (0%Z, true, false)) as [H1 H2]; [done|done|].
  destruct (foldl _ _ _) as [[f u] b]. done.
Qed.

Lemma length_all_keys_size (als : list (gmap string V)) a : a ∈ als → size a ≤ length (all_keys als).
Proof.
  intros (l & k & ->)%list_elem_of_split. unfold all_keys.
  rewrite fmap_app, join_app, length_app. cbn [fmap list_fmap mjoin list_join].
  rewrite length_app, length_fmap, <- length_map_to_list. lia.
Qed.

Lemma products_keys_length name keys : length (products_keys name keys) ≤ length keys.
Proof.
  unfold products_keys.
  assert (H : ∀ acc, length (foldl (add_product name) acc keys) ≤ length acc + length keys).
  { induction keys as [|k keys IH]; intros acc; simpl; [lia|].
    etrans; [apply IH|]. unfold add_product.
    case_match; rewrite ?length_app; simpl; lia. }
  apply (H []).
Qed.

(** No joint bound is negative: the sums did not wrap. *)
Lemma ClusterAllowlistsBound_nonneg als name :
  small_allowlists als → (0 ≤ (ClusterAllowlistsBound bound als name).1.1)%Z.
Proof.
  intros [Ha Hn].
  assert (Hs : ∀ a, a ∈ als → small_allowlist a ∧ (Z.of_nat (size a) * M ≤ int_max)%Z).
  { intros a Hin. split; [by apply Ha|]. pose proof (length_all_keys_size als a Hin). nia. }
  unfold ClusterAllowlistsBound, ClusterAllowlistsBound_keys. fold (all_keys als).
  destruct (tightestOf_small als name Hs) as [H0 _].
  destruct (tightestOf bound als name) as [[f u] b]. simpl in H0.
  case_match; [done|].
  set (ps := products_keys name (all_keys als)).
  assert (Hps : Forall (λ p, IsProductOf p name = true) ps)
    by (eapply (products_keys_spec name _ []); constructor).
  assert (Hlen : (Z.of_nat (length ps) * M ≤ int_max)%Z).
  { pose proof (products_keys_length name (all_keys als)). fold ps in H1. nia. }
  assert (Hsum : ∀ sum, (0 ≤ sum)%Z → (sum + Z.of_nat (length ps) * M ≤ int_max)%Z →
                   (0 ≤ (sum_products bound als ps sum).1)%Z).
  { clear Hlen. induction Hps as [|p ps' Hp Hps IH]; intros sum Hsum Hb; simpl; [done|].
    destruct (tightestOf_small als p Hs) as [H2 H3].
    apply IsProductOf_spec in Hp as (_ & Hpf & _). specialize (H3 Hpf).
    destruct (tightestOf bound als p) as [[fp []] bp]; simpl in *; [done|].
    assert (Hw : wrap (sum + fp) = (sum + fp)%Z)
      by (apply wrap_id; unfold in_int, int_min, int_max in *; nia).
    rewrite Hw. apply IH; nia. }
  specialize (Hsum 0%Z).
  destruct (sum_products bound als ps 0) as [s su]. simpl in *.
  apply tighter_small; [done|]. apply Hsum; lia.
Qed.
End small.

(** ** Unlisted names *)
Section unlisted.
Context {V : Type} (bound : V → Bound).

(** An allowlist does not list a name exactly when no key is its spelling, its
    family or one of its products. *)
Lemma AllowlistBound_unlisted (a : gmap string V) name :
  (AllowlistBound bound a name).2 = false ↔
  ∀ k, is_Some (a !! k) →
    EqualFold k name = false ∧ IsProductOf k name = false ∧ IsProductOf name k = false.
Proof.
  unfold AllowlistBound, AllowlistBound_entries. split.
  - intros H k [v Hk].
    destruct (own_bounds _ _ _) as [|o os] eqn:Eo.
    2: { destruct (family_bounds _ _ _); [done|].
         destruct (tightest _), (tightest _). done. }
    destruct (product_bounds _ _ _) as [|p ps] eqn:Ep.
    2: { by destruct (existsb _ _). }
    destruct (family_bounds _ _ _) as [|f fs] eqn:Ef; [|done].
    assert (Hnil : ∀ (P : string * V → Prop) {Pdec : ∀ e, Decision (P e)},
      (λ e, bound e.2) <$> filter P (map_to_list a) = [] → ¬ P (k, v)).
    { intros P Pdec Hn HP. apply fmap_nil_inv in Hn.
      eapply (filter_nil_not_elem_of P _ _ Hn HP). by apply elem_of_map_to_list. }
    apply Hnil in Eo, Ep, Ef. simpl in *.
    destruct (EqualFold k name), (IsProductOf k name), (IsProductOf name k); naive_solver.
  - intros H.
    assert (Hnil : ∀ (P : string * V → Prop) {Pdec : ∀ e, Decision (P e)},
      (∀ k v, is_Some (a !! k) → ¬ P (k, v)) →
      (λ e, bound e.2) <$> filter P (map_to_list a) = []).
    { intros P Pdec Hn. rewrite list_filter_nil; [done|].
      intros [k v] Hk%elem_of_map_to_list. apply Hn. eauto. }
    assert (own_bounds bound (map_to_list a) name = []) as ->.
    { apply Hnil. intros k v Hk Hp. apply H in Hk as (Hk & _). simpl in Hp. congruence. }
    assert (product_bounds bound (map_to_list a) name = []) as ->.
    { apply Hnil. intros k v Hk [_ Hp]. apply H in Hk as (_ & Hk & _). simpl in Hp.
      congruence. }
    assert (family_bounds bound (map_to_list a) name = []) as ->; [|done].
    apply Hnil. intros k v Hk (_ & _ & Hp). apply H in Hk as (_ & _ & Hk). simpl in Hp.
    congruence.
Qed.

Lemma AllowlistBound_in_int (a : gmap string V) name :
  (∀ v, in_int (Free (bound v))) → in_int (AllowlistBound bound a name).1.1.
Proof.
  intros Hb. unfold AllowlistBound, AllowlistBound_entries.
  assert (H0 : in_int 0) by (unfold in_int, int_min, int_max; lia).
  assert (Ht : ∀ P {Pdec : ∀ e : string * V, Decision (P e)},
    in_int (tightest ((λ e, bound e.2) <$> filter P (map_to_list a))).1).
  { intros P Pdec. unfold tightest.
    generalize (filter P (map_to_list a)). intros l.
    assert (Hg : ∀ acc : Z * bool, in_int acc.1 →
      in_int (foldl (λ '(free, unlimited) b, if Unlimited b then (free, unlimited)
        else tighter free unlimited (Free b) false) acc ((λ e, bound e.2) <$> l)).1).
    { induction l as [|e l IH]; intros [f u] Hf; simpl; [done|]. apply IH.
      specialize (Hb e.2). unfold tighter, in_int in *.
      destruct (Unlimited _), u; simpl in *; lia. }
    by apply Hg. }
  assert (Hs : ∀ bs, in_int (sum_free bs)).
  { intros bs. unfold sum_free. rewrite foldl_wrap_sum by done. apply wrap_in_int. }
  pose proof (Ht (λ e, EqualFold e.1 name = true) _) as H1.
  pose proof (Ht (λ e, EqualFold e.1 name = false ∧ IsProductOf e.1 name = false
                 ∧ IsProductOf name e.1 = true) _) as H2.
  fold (own_bounds bound (map_to_list a) name) in H1.
  fold (family_bounds bound (map_to_list a) name) in H2.
  destruct (own_bounds _ _ _) as [|o os].
  - destruct (product_bounds _ _ _) as [|p ps]; [by destruct (family_bounds _ _ _)|].
    case_match; simpl; auto.
  - destruct (family_bounds _ _ _) as [|f fs]; [done|].
    destruct (tightest (o :: os)) as [x xu], (tightest (f :: fs)) as [y yu].
    unfold tighter, in_int in *. destruct xu, yu; simpl in *; lia.
Qed.
End unlisted.

Lemma FindBudgetKey_case {V} (m : gmap string V) name k key :
  is_Some (m !! k) → EqualFold k name = true → FindBudgetKey m name = Some key →
  EqualFold key name = true.
Proof.
  intros Hk He. unfold FindBudgetKey, FindBudgetKey_keys. case_bool_decide.
  { by intros [= <-]. }
  rewrite (bool_decide_false (keys_of_class CaseEqual _ _ = [])).
  - simpl. intros Hm%min_string_in. apply list_elem_of_filter in Hm as [Hc _].
    pose proof (classify_cases name key) as Hcl. by rewrite Hc in Hcl.
  - intros Hnil. eapply (filter_nil_not_elem_of _ _ k Hnil); [|by apply elem_of_keys].
    unfold classify. by rewrite He.
Qed.

Section in_int_bounds.
Context {V : Type} (bound : V → Bound).
Hypothesis Hb : ∀ v, in_int (Free (bound v)).

Lemma tighter_in_int a au b bu : in_int a → in_int b → in_int (tighter a au b bu).1.
Proof. unfold tighter, in_int. destruct au, bu; simpl; lia. Qed.

Lemma ClusterAllowlistBound_in_int (a : gmap string V) name :
  in_int (ClusterAllowlistBound bound a name).1.1.
Proof.
  pose proof (AllowlistBound_in_int bound a name Hb) as H. unfold ClusterAllowlistBound.
  destruct (AllowlistBound bound a name) as [[f u] l]. simpl in H.
  repeat case_match; simpl; try done; unfold in_int, int_min, int_max; lia.
Qed.

Lemma tightestOf_in_int als name : in_int (tightestOf bound als name).1.1.
Proof.
  unfold tightestOf.
  assert (Hg : ∀ acc : Z * bool * bool, in_int acc.1.1 →
            in_int (foldl (cluster_step bound name) acc als).1.1).
  { induction als as [|a als IH]; intros [[f u] b] Hf; cbn [foldl]; [done|].
    apply IH. unfold cluster_step.
    pose proof (ClusterAllowlistBound_in_int a name) as Ha.
    destruct (ClusterAllowlistBound bound a name) as [[f' u'] []]; [|done].
    by apply tighter_in_int. }
  specialize (Hg (0%Z, true, false)). destruct (foldl _ _ _) as [[f u] b].
  apply Hg. simpl. unfold in_int, int_min, int_max; lia.
Qed.

Lemma ClusterAllowlistsBound_in_int als name :
  in_int (ClusterAllowlistsBound bound als name).1.1.
Proof.
  unfold ClusterAllowlistsBound, ClusterAllowlistsBound_keys.
  pose proof (tightestOf_in_int als name) as Ht.
  destruct (tightestOf bound als name) as [[f u] b]. case_match; [done|].
  assert (Hs : ∀ ps sum, in_int sum → in_int (sum_products bound als ps sum).1).
  { induction ps as [|p ps IH]; intros sum Hsum; simpl; [done|].
    destruct (tightestOf bound als p) as [[f' []] b']; [done|]. apply IH, wrap_in_int. }
  match goal with |- context [sum_products bound als ?ps 0] => specialize (Hs ps 0%Z) end.
  destruct (sum_products _ _ _ _) as [s su]. apply tighter_in_int; [done|].
  apply Hs. unfold in_int, int_min, int_max; lia.
Qed.
End in_int_bounds.

(** [FindKey] does not depend on the order of the map either. *)
Lemma FindKey_keys_perm known name l k :
  l ≡ₚ k → FindKey_keys l known name = FindKey_keys k known name.
Proof.
  intros H. unfold FindKey_keys. repeat case_match; try done.
  apply min_string_proper. by rewrite H.
Qed.

Lemma FindKey_sound {V} (m : gmap string V) name k :
  FindKey m name = Some k → is_Some (m !! k) ∧ SameName k name = true.
Proof.
  unfold FindKey, FindKey_keys. case_bool_decide as Hd.
  { intros [= <-]. split; [done|]. unfold SameName. by rewrite String.eqb_refl. }
  destruct (negb (String.eqb (NormalizeAcceleratorName name) name)) eqn:Hn; simpl.
  - case_bool_decide as Hd2.
    + intros [= <-]. split; [done|]. unfold SameName. rewrite Hn, EqualFold_refl. simpl.
      repeat case_match; done.
    + intros [Hs%Is_true_true Hk%elem_of_keys]%min_string_in%list_elem_of_filter. done.
  - intros [Hs%Is_true_true Hk%elem_of_keys]%min_string_in%list_elem_of_filter. done.
Qed.

(** ** Properties *)

(** The budget key a name is charged to is a key of the budget that covers
    the name (the name itself, another case of it, or its family), or the one
    product the budget lists of the family asked for; it is the same whatever
    order the Go map is ranged over in; and a product is denied rather than
    charged to its family once the budget lists another product of that family
    and no spelling of this one. *)
Theorem FindBudgetKey_correct (budget : gmap string Z) (name : string) :
  (∀ key, FindBudgetKey budget name = Some key →
     is_Some (budget !! key) ∧
     (Covers key name = true ∨
      (IsProductOf key name = true ∧
       ∀ k, is_Some (budget !! k) → IsProductOf k name = true → EqualFold k key = true))) ∧
  (∀ order, order ≡ₚ (map_to_list budget).*1 →
     FindBudgetKey_keys order (λ k, bool_decide (is_Some (budget !! k))) name =
     FindBudgetKey budget name) ∧
  (∀ k, IsFamily name = false → (∀ k', is_Some (budget !! k') → EqualFold k' name = false) →
     is_Some (budget !! k) → IsFamily k = false → EqualFold (Family k) (Family name) = true →
     FindBudgetKey budget name = None).
Proof.
  split_and!.
  - intros key. apply FindBudgetKey_sound.
  - intros order H. by apply FindBudgetKey_keys_perm.
  - intros k. apply FindBudgetKey_sibling_denied.
Qed.

(** An allowlist of [NVIDIA-H100-PCIe] alone, as witnesses use it. *)
Definition h100_pcie_only : gmap string Z := <["NVIDIA-H100-PCIe" := 4%Z]> ∅.

Lemma FindBudgetKey_correct_witness :
  FindBudgetKey h100_pcie_only "NVIDIA-H100-SXM5" = None ∧
  (∀ key, FindBudgetKey h100_pcie_only "H100" = Some key → is_Some (h100_pcie_only !! key)).
Proof.
  split.
  - apply (proj2 (proj2 (FindBudgetKey_correct h100_pcie_only "NVIDIA-H100-SXM5"))
             "NVIDIA-H100-PCIe"); try reflexivity; [|by eexists].
    intros k' [v Hv]. unfold h100_pcie_only in Hv.
    rewrite lookup_insert_Some in Hv.
    destruct Hv as [[<- _]|[_ Hv]]; [reflexivity|by rewrite lookup_empty in Hv].
  - intros key Hk. by apply (proj1 (FindBudgetKey_correct h100_pcie_only "H100") key).
Defined.

(** Several providers bound a name jointly by no more than any one of them
    that has a say, the joint answer is binding as soon as one of them binds, and
    it is the same whatever order the providers' maps are ranged over in. *)
Theorem ClusterAllowlistsBound_intersection {V} (bound : V → Bound)
    (als : list (gmap string V)) (a : gmap string V) (name : string) (order : list string) :
  a ∈ als → (ClusterAllowlistBound bound a name).2 = true → order ≡ₚ all_keys als →
  b_le (ClusterAllowlistsBound bound als name).1 (ClusterAllowlistBound bound a name).1 ∧
  (ClusterAllowlistsBound bound als name).2 = true ∧
  ans_eq (ClusterAllowlistsBound_keys bound order als name)
         (ClusterAllowlistsBound bound als name).
Proof.
  intros Ha Hb Ho. destruct (ClusterAllowlistsBound_le bound als a name Ha Hb) as [H1 H2].
  split_and!; [done|done|]. by apply ClusterAllowlistsBound_keys_perm.
Qed.

Lemma ClusterAllowlistsBound_intersection_witness :
  let bound v := MkBound v false in
  let other : gmap string Z := <["H100" := 6%Z]> ∅ in
  ClusterAllowlistsBound bound [h100_pcie_only; other] "H100" = (4%Z, false, true) ∧
  b_le (ClusterAllowlistsBound bound [h100_pcie_only; other] "H100").1
       (ClusterAllowlistBound bound h100_pcie_only "H100").1.
Proof.
  split; [vm_compute; reflexivity|].
  apply (ClusterAllowlistsBound_intersection (λ v, MkBound v false)
           [h100_pcie_only; <["H100" := 6%Z]> ∅] h100_pcie_only "H100"
           (all_keys [h100_pcie_only; <["H100" := 6%Z]> ∅])).
  - constructor.
  - vm_compute. reflexivity.
  - reflexivity.
Defined.
