(* ===== verification/Budget.v ===== *)
(** * The GPU budget model

    The model of [internal/engines/allocation/budget_merge.go] and
    [gpu_budget.go], with [ResourcePool] and [ResourceConstraints] of
    [limiter_interfaces.go] and the budget helpers of
    [cost_aware_optimizer.go].  A nil Go map is [None]; a nil budget is
    unbounded, an empty one denies everything. *)
From Stdlib Require Import ZArith Lia String Ascii.
From stdpp Require Import base gmap strings list sorting fin_maps.
From S2P Require Import Prelude Accelerator.

(** ** Pools and constraints *)
Record ResourcePool := MkPool { Limit : Z; Used : Z }.

Definition Available (p : ResourcePool) : Z :=
  let avail := Limit p ⊟ Used p in
  if (avail <? 0)%Z then 0%Z else avail.

(** The fields the budget merge and the limiter read and write; the cohort
    borrowing figures are not modelled. *)
Record ResourceConstraints := MkConstraints {
  ProviderName : string;
  Pools : gmap string ResourcePool;
  NamespacePools : option (gmap string (gmap string ResourcePool));
  NamespaceScoped : bool;
  TotalLimit : Z;
  TotalUsed : Z;
  TotalAvail : Z;
  KueueNeverRead : bool;
  KueueBacked : bool;
  KueueCountsBorrowing : bool;
  KueueBounded : bool;
  PoolsVersion : Z;
}.

Definition isClusterBound (c : option ResourceConstraints) : bool :=
  match c with
  | None => false
  | Some c => negb (NamespaceScoped c) && bool_decide (NamespacePools c = None)
  end.

(** [clusterBounds]: the constraints that bound the cluster, dereferenced. *)
Fixpoint clusterBounds (constraints : list (option ResourceConstraints))
  : list ResourceConstraints :=
  match constraints with
  | [] => []
  | Some c :: cs =>
      if isClusterBound (Some c) then c :: clusterBounds cs else clusterBounds cs
  | None :: cs => clusterBounds cs
  end.

Definition poolBound (p : ResourcePool) : Bound := MkBound (Available p) (Limit p <? 0)%Z.

Definition allowlistBound (pools : gmap string ResourcePool) (name : string)
  : Z * bool * bool := AllowlistBound poolBound pools name.

Definition maxint_if_unlimited (r : Z * bool * bool) : Z * bool :=
  let '(avail, unlimited, bounds) := r in
  if bounds && unlimited then (MaxInt, true) else (avail, bounds).

Definition clusterBound (pools : gmap string ResourcePool) (name : string) : Z * bool :=
  maxint_if_unlimited (ClusterAllowlistBound poolBound pools name).

Definition clusterBoundAll (allowlists : list (gmap string ResourcePool)) (name : string)
  : Z * bool :=
  maxint_if_unlimited (ClusterAllowlistsBound poolBound allowlists name).

Definition hasKey (allowlists : list (gmap string ResourcePool)) (name : string) : bool :=
  existsb (λ pools : gmap string ResourcePool,
             existsb (λ e, EqualFold e.1 name) (map_to_list pools)) allowlists.

Definition materialized (allowlists : list (gmap string ResourcePool)) (name : string) : bool :=
  if hasKey allowlists name then true
  else forallb (λ pools, (allowlistBound pools name).2) allowlists.

Definition resolvedNames (declared : list string) : list string :=
  filter (λ n, IsAcceleratorResolved n = true) declared.

Definition namespaceKeys (constraints : list (option ResourceConstraints)) : list string :=
  mjoin ((λ c, match c with
               | None => []
               | Some c =>
                   mjoin ((λ e, (map_to_list e.2).*1)
                            <$> map_to_list (default ∅ (NamespacePools c)))
               end) <$> constraints).

Definition clusterProducts (constraints : list (option ResourceConstraints)) : list string :=
  mjoin ((λ c, filter (λ key, IsFamily key = false) (map_to_list (Pools c)).*1)
           <$> clusterBounds constraints).

Definition add_spelling (out : list string) (n : string) : list string :=
  if existsb (λ o, EqualFold o n) out then out else out ++ [n].

Definition distinctSpellings (names : list string) : list string :=
  foldl add_spelling [] (sort_strings names).

Definition isUnboundedBudget (v : Z) : bool := (v <? 0)%Z || (v =? MaxInt)%Z.

(** *** Clamping products to their family *)
Definition clamp_step (p : string) (pv : Z) (e : string * Z) : Z :=
  let '(f, fv) := e in
  if isUnboundedBudget fv || negb (IsProductOf p f) then pv
  else if isUnboundedBudget pv || (fv <? pv)%Z then fv else pv.

#[global] Arguments clamp_step : simpl never.

Definition clamp_key (budgets : gmap string Z) (p : string) : gmap string Z :=
  match budgets !! p with
  | None => budgets
  | Some pv =>
      if IsFamily p then budgets
      else <[p := foldl (clamp_step p) pv (map_to_list budgets)]> budgets
  end.

Definition clampProducts_keys (order : list string) (budgets : gmap string Z)
  : gmap string Z := foldl clamp_key budgets order.

Definition clampProducts (budgets : gmap string Z) : gmap string Z :=
  clampProducts_keys (map_to_list budgets).*1 budgets.

(** *** Merging the cluster bounds *)

(** What the loop of [mergeConstraints] stores for one name, if anything. *)
Definition merge_value (keyed : list (gmap string ResourcePool)) (name : string) : option Z :=
  if negb (materialized keyed name) then None
  else match clusterBoundAll keyed name with
       | (budget, true) => Some budget
       | (_, false) => None
       end.

Definition merge_step (keyed : list (gmap string ResourcePool)) (merged : gmap string Z)
    (name : string) : gmap string Z :=
  match merge_value keyed name with
  | Some budget => <[name := budget]> merged
  | None => merged
  end.

Definition mergeConstraints (constraints : list (option ResourceConstraints))
    (declared : list string) : option (gmap string Z) :=
  let cluster := clusterBounds constraints in
  match cluster with
  | [] => None
  | _ :: _ =>
      let keyed := Pools <$> cluster in
      let names := resolvedNames declared
                     ++ mjoin ((λ c, (map_to_list (Pools c)).*1) <$> cluster) in
      Some (clampProducts (foldl (merge_step keyed) ∅ (distinctSpellings names)))
  end.

Definition mergeWithAllowanceKeys (constraints : list (option ResourceConstraints))
    (declared : list string) : option (gmap string Z) :=
  mergeConstraints constraints (declared ++ namespaceKeys constraints).

(** ** Spending a budget *)
Definition debit_value (key : string) (n : Z) (other : string) (v : Z) : Z :=
  if negb (isUnboundedBudget v) && Covers other key then Z.max 0 (v ⊟ n) else v.

Definition debitBudget (budgets : gmap string Z) (key : string) (n : Z) : gmap string Z :=
  if (n <=? 0)%Z then budgets
  else clampProducts (map_imap (λ other v, Some (debit_value key n other v)) budgets).

Definition saturatingAdd (a b : Z) : Z :=
  if (a =? MaxInt)%Z || (b =? MaxInt)%Z || ((MaxInt ⊟ b) <? a)%Z then MaxInt else a ⊞ b.

Record family := MkFamily {
  fam_family : Z; fam_hasFamily : bool; fam_products : gmap string Z
}.

Definition total_step (families : gmap string family) (e : string * Z) : gmap string family :=
  let '(key, v0) := e in
  let v := if isUnboundedBudget v0 then MaxInt else v0 in
  let name := ToLower (Family key) in
  let f := default (MkFamily 0 false ∅) (families !! name) in
  if IsFamily key then
    <[name := MkFamily (Z.max (fam_family f) v) true (fam_products f)]> families
  else
    let p := ToLower key in
    <[name := MkFamily (fam_family f) (fam_hasFamily f)
                (<[p := Z.max (default 0%Z (fam_products f !! p)) v]> (fam_products f))]>
      families.

Definition fam_held (f : family) : Z :=
  if fam_hasFamily f then fam_family f
  else foldl saturatingAdd 0%Z (map_to_list (fam_products f)).*2.

(** The sum over the families, stopping at the saturation point. *)
Fixpoint total_families (fs : list family) (total : Z) : Z :=
  match fs with
  | [] => total
  | f :: fs =>
      let total := saturatingAdd total (fam_held f) in
      if (total =? MaxInt)%Z then total else total_families fs total
  end.

Definition budgetTotal (budgets : option (gmap string Z)) : Z :=
  match budgets with
  | None => MaxInt
  | Some b =>
      total_families (map_to_list (foldl total_step ∅ (map_to_list b))).*2 0%Z
  end.

Definition budgetKey (budgets : gmap string Z) (declared : string) : string :=
  default declared (FindBudgetKey budgets declared).

Definition budgetOf (budgets : option (gmap string Z)) (name : string) : Z :=
  match budgets with
  | None => MaxInt
  | Some b =>
      match FindBudgetKey b name with
      | Some key => default 0%Z (b !! key)
      | None => 0%Z
      end
  end.

Definition clusterBudgetFor (available : option (gmap string Z)) (name : string) : Z * bool :=
  match available with
  | None => (0%Z, false)
  | Some b =>
      match FindBudgetKey b name with
      | Some key => (default 0%Z (b !! key), true)
      | None => (0%Z, negb (String.eqb name DefaultAcceleratorName))
      end
  end.

(** ** Namespace allowances *)
Definition nsPoolBudget (pool : ResourcePool) : Z :=
  if (Limit pool <? 0)%Z then (-1)%Z else Available pool.

Definition tighterBudget (a b : Z) : Z :=
  if (a <? 0)%Z then b
  else if (b <? 0)%Z then a
  else if (b <? a)%Z then b else a.

Definition add_holder (holders : gmap string (list (gmap string ResourcePool)))
    (e : string * gmap string ResourcePool) : gmap string (list (gmap string ResourcePool)) :=
  <[e.1 := default [] (holders !! e.1) ++ [e.2]]> holders.

Definition namespaceHolders (constraints : list (option ResourceConstraints))
  : gmap string (list (gmap string ResourcePool)) :=
  foldl (λ holders c,
           match c with
           | None => holders
           | Some c => foldl add_holder holders (map_to_list (default ∅ (NamespacePools c)))
           end) ∅ constraints.

Definition closedFamilyBudget (allowlists : list (gmap string ResourcePool)) (name : string) : Z :=
  let '(avail, unlimited, _) := ClusterAllowlistsBound poolBound allowlists name in
  if unlimited then (-1)%Z else avail.

(** What one holder of the namespace allows: 0 when it does not list [name]. *)
Definition holderBudget (name : string) (perType : gmap string ResourcePool) : Z :=
  let '(avail, unlimited, listed) := allowlistBound perType name in
  if listed then (if unlimited then (-1)%Z else avail) else 0%Z.

(** The loop over the holders: the first sets the budget, the rest tighten it. *)
Definition holdersBudget (name : string) (pools : list (gmap string ResourcePool)) : option Z :=
  match pools with
  | [] => None
  | p :: ps => Some (foldl (λ b q, tighterBudget b (holderBudget name q)) (holderBudget name p) ps)
  end.

Definition ns_step (pools cluster : list (gmap string ResourcePool))
    (inner : gmap string Z) (name : string) : gmap string Z :=
  if negb (materialized pools name) then inner
  else if ClosesFamily pools name then
    <[name := closedFamilyBudget (pools ++ cluster) name]> inner
  else
    let inner := match holdersBudget name pools with
                 | Some b => <[name := b]> inner
                 | None => inner
                 end in
    if ClosesFamily cluster name && ListsProduct pools name then
      <[name := closedFamilyBudget (pools ++ cluster) name]> inner
    else inner.

Definition mergeNamespace (cluster : list (gmap string ResourcePool)) (declared : list string)
    (pools : list (gmap string ResourcePool)) : gmap string Z :=
  let names := resolvedNames declared
                 ++ mjoin ((λ perType : gmap string ResourcePool, (map_to_list perType).*1)
                             <$> pools) in
  clampProducts (foldl (ns_step pools cluster) ∅ (distinctSpellings names)).

Definition mergeNamespaceConstraints (constraints : list (option ResourceConstraints))
    (declared : list string) : option (gmap string (gmap string Z)) :=
  let holders := namespaceHolders constraints in
  if bool_decide (holders = ∅) then None
  else Some (mergeNamespace (Pools <$> clusterBounds constraints) declared <$> holders).

(** ** The placement check *)
Definition bound_by_cluster (perType : option (gmap string Z)) (accType : string) (budget : Z) : Z :=
  let '(cv, bounded) := clusterBudgetFor perType accType in
  if bounded && negb (cv =? MaxInt)%Z then tighterBudget budget cv else budget.

Definition gpuBudgets (constraints : list (option ResourceConstraints)) (namespace : string)
    (declared : list string) : option (gmap string Z) * bool :=
  match constraints with
  | [] => (None, false)
  | _ :: _ =>
      match mergeNamespaceConstraints constraints declared ≫= (.!! namespace) with
      | None => (mergeConstraints constraints declared, false)
      | Some nsBudgets =>
          let perType := mergeWithAllowanceKeys constraints declared in
          (Some (map_imap (λ accType budget, Some (bound_by_cluster perType accType budget))
                   nsBudgets), true)
      end
  end.

Definition GPUBudgets (constraints : list (option ResourceConstraints)) (namespace : string)
  : option (gmap string Z) * bool := gpuBudgets constraints namespace [].

Definition anyPoolFits (budgets : gmap string Z) (need : Z) : bool :=
  existsb (λ e : string * Z, (e.2 <? 0)%Z || (need <=? e.2)%Z) (map_to_list budgets).

(** One iteration of the loop over the demand; [None] is [return false]. *)
Definition fit_step (budgets : gmap string Z) (nsScoped : bool)
    (spent : gmap string Z) (e : string * Z) : option (gmap string Z) :=
  let '(rawType, need) := e in
  if (need <=? 0)%Z then Some spent
  else
    let spend key := Some (<[key := default 0%Z (spent !! key) ⊞ need]> spent) in
    match FindBudgetKey budgets rawType with
    | Some key => spend key
    | None =>
        if String.eqb rawType DefaultAcceleratorName then
          if negb nsScoped then (if anyPoolFits budgets need then Some spent else None)
          else match map_to_list budgets with
               | [(key, _)] => spend key
               | _ => None
               end
        else None
    end.

Fixpoint fit_demand (budgets : gmap string Z) (nsScoped : bool) (spent : gmap string Z)
    (demand : list (string * Z)) : option (gmap string Z) :=
  match demand with
  | [] => Some spent
  | e :: es => fit_step budgets nsScoped spent e ≫= λ spent, fit_demand budgets nsScoped spent es
  end.

(** [sum += need] over the spends a key covers. *)
Definition covered_sum (key : string) (spent : list (string * Z)) : Z :=
  foldl (λ sum (e : string * Z), if Covers key e.1 then sum ⊞ e.2 else sum) 0%Z spent.

Definition fits_budgets (budgets spent : gmap string Z) : bool :=
  forallb (λ e : string * Z,
             isUnboundedBudget e.2 || (covered_sum e.1 (map_to_list spent) <=? e.2)%Z)
    (map_to_list budgets).

Definition FitsGPUBudget (constraints : list (option ResourceConstraints)) (namespace : string)
    (demand : gmap string Z) : bool :=
  match constraints with
  | [] => true
  | _ :: _ =>
      match gpuBudgets constraints namespace (map_to_list demand).*1 with
      | (None, _) => true
      | (Some budgets, nsScoped) =>
          match fit_demand budgets nsScoped ∅ (map_to_list demand) with
          | None => false
          | Some spent => fits_budgets budgets spent
          end
      end
  end.

(** ** Clamping: order independence and the family invariant *)
Lemma isUnbounded_false v : isUnboundedBudget v = false ↔ (0 ≤ v ∧ v ≠ MaxInt)%Z.
Proof. unfold isUnboundedBudget. lia. Qed.

Lemma isUnbounded_true v : isUnboundedBudget v = true ↔ (v < 0 ∨ v = MaxInt)%Z.
Proof. unfold isUnboundedBudget. lia. Qed.

(** [budget_le a b]: [a] allows no more than [b]. *)
Definition budget_le (a b : Z) : Prop :=
  isUnboundedBudget b = true ∨
  (isUnboundedBudget a = false ∧ isUnboundedBudget b = false ∧ (a ≤ b)%Z).

#[export] Instance budget_le_preorder : PreOrder budget_le.
Proof.
  unfold budget_le. split; hnf.
  - intros x. destruct (isUnboundedBudget x); [by left|right]. repeat split; try done; lia.
  - intros x y z [?|(?&?&?)] [?|(?&?&?)]; try (left; congruence); try congruence.
    right. repeat split; try done; lia.
Qed.

Lemma clamp_step_comm p x a b :
  clamp_step p (clamp_step p x a) b = clamp_step p (clamp_step p x b) a.
Proof.
  destruct a as [f fv], b as [g gv]. unfold clamp_step, isUnboundedBudget.
  destruct (IsProductOf p f), (IsProductOf p g); simpl; repeat case_match; lia.
Qed.

(** The value a product key is clamped to, given the other budgets. *)
Definition clamp_val (b : gmap string Z) (p : string) (pv : Z) : Z :=
  foldl (clamp_step p) pv (map_to_list b).

Definition same_families (b b' : gmap string Z) : Prop :=
  ∀ f, IsFamily f = true → b !! f = b' !! f.

Lemma clamp_val_families b b' p pv : same_families b b' → clamp_val b p pv = clamp_val b' p pv.
Proof.
  intros H. unfold clamp_val.
  assert (Hskip : ∀ (e : string * Z) y, ¬ (IsFamily e.1 = true) → clamp_step p y e = y).
  { intros [f fv] y Hf. unfold clamp_step, IsProductOf. simpl in Hf.
    apply not_true_is_false in Hf. by rewrite Hf, orb_true_r. }
  rewrite (foldl_filter _ (λ e : string * Z, IsFamily e.1 = true) (map_to_list b)),
    (foldl_filter _ (λ e : string * Z, IsFamily e.1 = true) (map_to_list b')) by done.
  apply foldl_perm; [apply clamp_step_comm|].
  apply NoDup_Permutation; [apply NoDup_filter, NoDup_map_to_list..|].
  intros [f fv]. rewrite !list_elem_of_filter, !elem_of_map_to_list. simpl.
  split; intros [Hf Hl]; (split; [done|]); [by rewrite <- H|by rewrite H].
Qed.

Lemma clamp_val_fmap b b' p (o : option Z) :
  same_families b b' → clamp_val b p <$> o = clamp_val b' p <$> o.
Proof. intros H. destruct o; simpl; [|done]. f_equal. by apply clamp_val_families. Qed.

Lemma clamp_key_lookup b p k :
  clamp_key b p !! k =
  if decide (k = p ∧ IsFamily k = false) then clamp_val b k <$> b !! k else b !! k.
Proof.
  unfold clamp_key. destruct (b !! p) as [pv|] eqn:Hp.
  - destruct (IsFamily p) eqn:Hf.
    + case_decide as Hd; [|done]. destruct Hd as [-> Hd]. congruence.
    + case_decide as Hd.
      * destruct Hd as [-> _]. rewrite lookup_insert_eq, Hp. done.
      * rewrite lookup_insert_ne; [done|]. intros ->. tauto.
  - case_decide as Hd; [|done]. destruct Hd as [-> _]. by rewrite Hp.
Qed.

Lemma clamp_key_families b p : same_families (clamp_key b p) b.
Proof.
  intros f Hf. rewrite clamp_key_lookup. case_decide as Hd; [|done].
  destruct Hd. congruence.
Qed.

Lemma clampProducts_keys_lookup order b k :
  NoDup order →
  clampProducts_keys order b !! k =
  if decide (k ∈ order ∧ IsFamily k = false) then clamp_val b k <$> b !! k else b !! k.
Proof.
  unfold clampProducts_keys. intros Hnd. revert b.
  induction Hnd as [|p order Hp Hnd IH]; intros b; cbn [foldl].
  { case_decide as Hd; [|done]. destruct Hd as [[]%not_elem_of_nil _]. }
  rewrite IH, (clamp_val_fmap _ b) by apply clamp_key_families.
  rewrite clamp_key_lookup.
  repeat case_decide; rewrite ?elem_of_cons in *; try done; try naive_solver.
Qed.

Lemma clampProducts_lookup b k :
  clampProducts b !! k =
  if IsFamily k then b !! k else clamp_val b k <$> b !! k.
Proof.
  unfold clampProducts. rewrite clampProducts_keys_lookup by apply NoDup_fst_map_to_list.
  destruct (IsFamily k) eqn:Hf; [by rewrite decide_False by naive_solver|].
  destruct (b !! k) eqn:Hk; [|by case_decide].
  rewrite decide_True; [done|]. split; [|done]. by apply elem_of_keys.
Qed.

Lemma clamp_val_spec b p pv :
  budget_le (clamp_val b p pv) pv ∧
  (∀ f fv, b !! f = Some fv → IsProductOf p f = true → isUnboundedBudget fv = false →
     budget_le (clamp_val b p pv) fv) ∧
  (clamp_val b p pv = pv ∨ isUnboundedBudget (clamp_val b p pv) = false).
Proof.
  unfold clamp_val.
  assert (H : ∀ l pv,
    budget_le (foldl (clamp_step p) pv l) pv ∧
    (∀ f fv, (f, fv) ∈ l → IsProductOf p f = true → isUnboundedBudget fv = false →
      budget_le (foldl (clamp_step p) pv l) fv) ∧
    (foldl (clamp_step p) pv l = pv ∨ isUnboundedBudget (foldl (clamp_step p) pv l) = false)).
  { clear. induction l as [|[f fv] l IH]; intros pv; simpl.
    - split; [reflexivity|]. split; [|by left]. intros f fv []%not_elem_of_nil.
    - assert (Hs : budget_le (clamp_step p pv (f, fv)) pv ∧
        (IsProductOf p f = true → isUnboundedBudget fv = false →
          budget_le (clamp_step p pv (f, fv)) fv) ∧
        (clamp_step p pv (f, fv) = pv ∨ isUnboundedBudget (clamp_step p pv (f, fv)) = false)).
      { unfold clamp_step, budget_le.
        destruct (isUnboundedBudget fv) eqn:?, (IsProductOf p f), (isUnboundedBudget pv) eqn:?;
          simpl; try case_match; naive_solver lia. }
      destruct Hs as (H1 & H2 & H3). destruct (IH (clamp_step p pv (f, fv))) as (H4 & H5 & H6).
      split_and!.
      + by etrans.
      + intros g gv [[= -> ->]|Hg]%elem_of_cons Hp Hu; [etrans; [exact H4|auto]|by eapply H5].
      + destruct H6 as [->|]; [|by right]. done. }
  destruct (H (map_to_list b) pv) as (H1 & H2 & H3). split_and!; [done| |done].
  intros f fv Hf. apply H2. by apply elem_of_map_to_list.
Qed.

(** A clamped value is the product's own, or that of a family of it. *)
Lemma clamp_val_cover b p pv :
  clamp_val b p pv = pv ∨ ∃ f, b !! f = Some (clamp_val b p pv) ∧ IsProductOf p f = true.
Proof.
  unfold clamp_val.
  assert (H : ∀ l pv, foldl (clamp_step p) pv l = pv ∨
                      ∃ f, (f, foldl (clamp_step p) pv l) ∈ l ∧ IsProductOf p f = true).
  { clear. induction l as [|[f fv] l IH]; intros pv; simpl; [by left|].
    destruct (IH (clamp_step p pv (f, fv))) as [->|(g & Hg & Hp)].
    - unfold clamp_step. destruct (isUnboundedBudget fv), (IsProductOf p f) eqn:Hp; simpl; try (by left).
      case_match; [right; exists f; split; [constructor|done]|by left].
    - right. exists g. split; [by constructor|done]. }
  destruct (H (map_to_list b) pv) as [|(f & Hf & Hp)]; [by left|].
  right. exists f. split; [by apply elem_of_map_to_list|done].
Qed.

Lemma clamp_val_in b p pv :
  clamp_val b p pv = pv ∨ ∃ f, b !! f = Some (clamp_val b p pv).
Proof. destruct (clamp_val_cover b p pv) as [|(f & Hf & _)]; eauto. Qed.

(** A product never has more free than its family. *)
Definition clamped (b : gmap string Z) : Prop :=
  ∀ p f pv fv, b !! p = Some pv → b !! f = Some fv → IsProductOf p f = true →
    isUnboundedBudget fv = false → budget_le pv fv.

Lemma clampProducts_clamped b : clamped (clampProducts b).
Proof.
  intros p f pv fv Hp Hf Hpf Hu. rewrite clampProducts_lookup in Hp, Hf.
  apply IsProductOf_spec in Hpf as Hs. destruct Hs as (Hff & Hpp & _).
  rewrite Hff in Hf. rewrite Hpp in Hp.
  apply fmap_Some in Hp as (pv0 & _ & ->). by eapply clamp_val_spec.
Qed.

Lemma clampProducts_le b k v v' :
  b !! k = Some v → clampProducts b !! k = Some v' → budget_le v' v.
Proof.
  intros Hk. rewrite clampProducts_lookup, Hk. destruct (IsFamily k); simpl; intros [= <-].
  - reflexivity.
  - apply clamp_val_spec.
Qed.

Lemma clampProducts_is_Some b k : is_Some (clampProducts b !! k) ↔ is_Some (b !! k).
Proof. rewrite clampProducts_lookup. destruct (IsFamily k); [done|]. apply fmap_is_Some. Qed.

(** ** Debits *)
Lemma debitBudget_lookup b key n k :
  (0 < n)%Z →
  debitBudget b key n !! k =
  clampProducts (map_imap (λ other v, Some (debit_value key n other v)) b) !! k.
Proof. intros Hn. unfold debitBudget. by rewrite (proj2 (Z.leb_gt n 0)) by lia. Qed.

Lemma debit_value_spec key n k v :
  in_int v → (0 < n)%Z → in_int n →
  debit_value key n k v =
  if negb (isUnboundedBudget v) && Covers k key then Z.max 0 (v - n) else v.
Proof.
  intros Hv Hn Hn'. unfold debit_value.
  destruct (isUnboundedBudget v) eqn:Hu; [done|].
  apply isUnbounded_false in Hu. simpl. case_match; [|done]. int_lia.
Qed.

Lemma debit_value_in_int key n k v :
  in_int v → (0 < n)%Z → in_int n → in_int (debit_value key n k v).
Proof.
  intros Hv Hn Hn'. rewrite debit_value_spec by done.
  destruct (negb _ && _); [|done]. unfold in_int, int_min, int_max in *. lia.
Qed.

Lemma debitBudget_is_Some b key n k : is_Some (debitBudget b key n !! k) ↔ is_Some (b !! k).
Proof.
  unfold debitBudget. case_match; [done|]. rewrite clampProducts_is_Some, map_lookup_imap.
  destruct (b !! k); simpl; [|done]. split; eauto.
Qed.

Lemma debitBudget_clamped b key n : clamped b → clamped (debitBudget b key n).
Proof. unfold debitBudget. case_match; [done|]. intros _. apply clampProducts_clamped. Qed.

Definition in_ints (b : gmap string Z) : Prop := ∀ k v, b !! k = Some v → in_int v.

(** What a debit leaves under a key: a key that covers the spend loses it, and no
    key gains. *)
Lemma debitBudget_le b key n k v v' :
  in_ints b → (0 ≤ n)%Z → in_int n → b !! k = Some v → debitBudget b key n !! k = Some v' →
  budget_le v' v ∧
  (isUnboundedBudget v = false → Covers k key = true →
   isUnboundedBudget v' = false ∧ (v' ≤ Z.max 0 (v - n))%Z).
Proof.
  intros Hi Hn Hn' Hk Hk'. destruct (decide (n = 0%Z)) as [->|Hn0].
  { unfold debitBudget in Hk'. simpl in Hk'. simplify_eq. split; [reflexivity|].
    intros Hu _. split; [done|]. lia. }
  rewrite debitBudget_lookup in Hk' by lia.
  pose proof (Hi _ _ Hk) as Hv.
  assert (Hd : map_imap (λ other v, Some (debit_value key n other v)) b !! k =
          Some (debit_value key n k v)) by (by rewrite map_lookup_imap, Hk).
  pose proof (clampProducts_le _ _ _ _ Hd Hk') as Hle.
  rewrite debit_value_spec in Hle by (done || lia).
  destruct (isUnboundedBudget v) eqn:Hu; simpl in Hle; [by split|].
  apply isUnbounded_false in Hu as Hu'.
  destruct (Covers k key); [|by split].
  assert (Hu2 : isUnboundedBudget (Z.max 0 (v - n)) = false).
  { apply isUnbounded_false. unfold in_int, int_max, MaxInt in *. unfold int_max in *. lia. }
  destruct Hle as [?|(H1 & _ & H2)]; [congruence|].
  split.
  - right. repeat split; [done|done|lia].
  - intros _ _. split; [done|lia].
Qed.

Lemma debitBudget_in_ints b key n :
  in_ints b → (0 ≤ n)%Z → in_int n → in_ints (debitBudget b key n).
Proof.
  intros Hi Hn Hn' k v' Hk'.
  assert (Hs : is_Some (b !! k)) by (eapply debitBudget_is_Some; eauto).
  destruct Hs as [v Hk]. pose proof (Hi _ _ Hk) as Hv.
  destruct (decide (n = 0%Z)) as [->|Hn0].
  { unfold debitBudget in Hk'. simpl in Hk'. by simplify_eq. }
  rewrite debitBudget_lookup, clampProducts_lookup, map_lookup_imap, Hk in Hk' by lia.
  simpl in Hk'.
  assert (Hd : in_int (debit_value key n k v)) by (apply debit_value_in_int; done || lia).
  destruct (IsFamily k); simplify_eq/=; [done|].
  destruct (clamp_val_in (map_imap (λ other v, Some (debit_value key n other v)) b) k
    (debit_value key n k v)) as [->|(f & Hf)]; [done|].
  rewrite map_lookup_imap in Hf. destruct (b !! f) as [v0|] eqn:Hb; simpl in Hf; [|done].
  injection Hf as <-. apply debit_value_in_int; [by eapply Hi|lia|done].
Qed.

(** ** A family bounds the sum of what is spent under it *)
Definition one_spelling_map (b : gmap string Z) : Prop :=
  ∀ k k', is_Some (b !! k) → is_Some (b !! k') → EqualFold k k' = true → k = k'.

(** A run of the optimizer: each spend is drawn from a key of the budget and is
    within what that key holds when it is made. *)
Inductive spends : gmap string Z → list (string * Z) → gmap string Z → Prop :=
| spends_nil b : spends b [] b
| spends_cons b key v n l b' :
    b !! key = Some v → (0 ≤ n)%Z → in_int n →
    (isUnboundedBudget v = true ∨ (n ≤ v)%Z) →
    spends (debitBudget b key n) l b' →
    spends b ((key, n) :: l) b'.

Definition covered_spend (f : string) (l : list (string * Z)) : Z :=
  sumZ (λ e, if Covers f e.1 then e.2 else 0%Z) l.

(** One spend is within every finite key that covers it. *)
Lemma spend_within b key v n f F :
  clamped b → one_spelling_map b → b !! key = Some v → b !! f = Some F →
  (isUnboundedBudget v = true ∨ (n ≤ v)%Z) → isUnboundedBudget F = false →
  Covers f key = true → (n ≤ F)%Z.
Proof.
  intros Hc Ho Hk Hf Hn HF Hcov. unfold Covers in Hcov.
  apply orb_true_iff in Hcov as [He|Hp].
  - assert (f = key) as -> by (apply Ho; eauto). simplify_eq.
    destruct Hn; [congruence|done].
  - destruct (Hc _ _ _ _ Hk Hf Hp HF) as [?|(H1 & _ & H2)]; [congruence|].
    destruct Hn; [congruence|lia].
Qed.

Lemma one_spelling_debit b key n :
  one_spelling_map b → one_spelling_map (debitBudget b key n).
Proof. intros H k k'. rewrite !debitBudget_is_Some. apply H. Qed.

Lemma spends_covered b l b' f F :
  spends b l b' → clamped b → one_spelling_map b → in_ints b →
  b !! f = Some F → isUnboundedBudget F = false →
  ∃ v', b' !! f = Some v' ∧ isUnboundedBudget v' = false ∧
        (v' + covered_spend f l ≤ F)%Z.
Proof.
  intros H. revert F. induction H as [b|b key v n l b' Hk Hn Hni Hle H IH];
    intros F Hc Ho Hi Hf HF.
  { exists F. unfold covered_spend, sumZ. simpl. split; [done|]. split; [done|]. lia. }
  destruct (proj2 (debitBudget_is_Some b key n f)) as [F1 HF1]; [eauto|].
  destruct (debitBudget_le _ _ _ _ _ _ Hi Hn Hni Hf HF1) as [Hm Hcv].
  assert (Hu1 : isUnboundedBudget F1 = false)
    by (destruct Hm as [?|(?&_)]; [congruence|done]).
  destruct (IH F1) as (v' & Hv' & Hu' & Hs); eauto using debitBudget_clamped,
    one_spelling_debit, debitBudget_in_ints.
  exists v'. split; [done|]. split; [done|].
  unfold covered_spend in *. rewrite sumZ_cons. simpl.
  destruct (Covers f key) eqn:Hcov.
  - destruct (Hcv HF eq_refl) as [_ Hd].
    pose proof (spend_within _ _ _ _ _ _ Hc Ho Hk Hf Hle HF Hcov). lia.
  - destruct Hm as [?|(_ & _ & ?)]; [congruence|]. lia.
Qed.

(** ** Spends decided together

    The optimizers decide several spends against one budget and debit them one
    after the other.  [fits_together b l]: every finite key of [b] holds what [l] draws
    under it. *)
Definition fits_together (b : gmap string Z) (l : list (string * Z)) : Prop :=
  ∀ f v, b !! f = Some v → v ≠ MaxInt → (covered_spend f l ≤ v)%Z.

Definition nonneg_spends (l : list (string * Z)) : Prop := Forall (λ e, (0 ≤ e.2)%Z ∧ in_int e.2) l.

(** A budget as the optimizers hold one: clamped, one spelling per accelerator,
    no negative figure. *)
Record budget_ok (b : gmap string Z) : Prop := {
  ok_clamped : clamped b;
  ok_spelling : one_spelling_map b;
  ok_ints : in_ints b;
  ok_nonneg : ∀ k v, b !! k = Some v → (0 ≤ v)%Z }.

Lemma covered_spend_cons f key n l :
  covered_spend f ((key, n) :: l) = ((if Covers f key then n else 0) + covered_spend f l)%Z.
Proof. done. Qed.

Lemma covered_spend_nonneg f l : nonneg_spends l → (0 ≤ covered_spend f l)%Z.
Proof.
  intros Hl. apply sumZ_nonneg. intros e He. unfold nonneg_spends in Hl.
  rewrite Forall_forall in Hl. destruct (Hl e He). case_match; lia.
Qed.

Lemma covered_spend_cover f g l :
  nonneg_spends l → Covers g f = true → (covered_spend f l ≤ covered_spend g l)%Z.
Proof.
  intros Hl Hgf. apply sumZ_le. intros e He. unfold nonneg_spends in Hl.
  rewrite Forall_forall in Hl. destruct (Hl e He) as [H0 _].
  destruct (Covers f e.1) eqn:Hf; [|case_match; lia]. by rewrite (Covers_trans g f e.1).
Qed.

(** What a debit leaves under a key is what it leaves, before clamping, under the
    key itself or a family of it. *)
Lemma debit_lookup_cover b key n f v' :
  (0 < n)%Z → debitBudget b key n !! f = Some v' →
  ∃ h v, b !! h = Some v ∧ Covers h f = true ∧ v' = debit_value key n h v.
Proof.
  intros Hn Hf. rewrite debitBudget_lookup, clampProducts_lookup in Hf by done.
  set (d := map_imap (λ other v, Some (debit_value key n other v)) b) in *.
  assert (Hd : ∀ h w, d !! h = Some w → ∃ v, b !! h = Some v ∧ w = debit_value key n h v).
  { intros h w. unfold d. rewrite map_lookup_imap. destruct (b !! h) as [v|]; simpl; [|done].
    intros [= <-]. eauto. }
  destruct (IsFamily f).
  - destruct (Hd f v' Hf) as (v & ? & ?). exists f, v. by rewrite Covers_refl.
  - apply fmap_Some in Hf as (w & Hw & ->). destruct (clamp_val_cover d f w) as [->|(g & Hg & Hp)].
    + destruct (Hd f w Hw) as (v & ? & ?). exists f, v. by rewrite Covers_refl.
    + destruct (Hd g _ Hg) as (v & ? & ?). exists g, v. split_and!; [done| |done].
      unfold Covers. by rewrite Hp, orb_true_r.
Qed.

Lemma debit_ok b key n : budget_ok b → (0 ≤ n)%Z → in_int n → budget_ok (debitBudget b key n).
Proof.
  intros [H1 H2 H3 H4] Hn Hn'. split.
  - by apply debitBudget_clamped.
  - by apply one_spelling_debit.
  - by apply debitBudget_in_ints.
  - intros k v Hk. destruct (decide (n = 0%Z)) as [->|Hn0].
    { unfold debitBudget in Hk. simpl in Hk. by eapply H4. }
    destruct (debit_lookup_cover b key n k v) as (h & w & Hh & _ & ->); [lia|done|].
    unfold debit_value. case_match; [lia|by eapply H4].
Qed.

(** Debiting the first of a fitting list leaves the rest fitting. *)
Lemma debit_fits b key n l :
  budget_ok b → nonneg_spends ((key, n) :: l) → fits_together b ((key, n) :: l) → fits_together (debitBudget b key n) l.
Proof.
  intros Hok Hl Hfit f v' Hf Hne. apply Forall_cons in Hl as Hl2. destruct Hl2 as [[Hn Hni] Hl']. simpl in Hn, Hni.
  destruct (decide (n = 0%Z)) as [->|Hn0].
  { unfold debitBudget in Hf. simpl in Hf. specialize (Hfit f v' Hf Hne).
    rewrite covered_spend_cons in Hfit. destruct (Covers f key); lia. }
  destruct (debit_lookup_cover b key n f v') as (h & v & Hh & Hc & Hv'); [lia|done|].
  pose proof (ok_ints _ Hok _ _ Hh) as Hvi. pose proof (ok_nonneg _ Hok _ _ Hh).
  rewrite debit_value_spec in Hv' by (done || lia).
  pose proof (covered_spend_cover f h l Hl' Hc).
  assert (Hvm : v ≠ MaxInt).
  { intros ->. apply Hne. rewrite Hv'. done. }
  specialize (Hfit h v Hh Hvm). rewrite covered_spend_cons in Hfit.
  assert (isUnboundedBudget v = false) as Hu by (apply isUnbounded_false; lia). rewrite Hu in Hv'.
  simpl in Hv'. destruct (Covers h key); lia.
Qed.

(** A fitting list can be spent. *)
Lemma fits_spend b key n l v :
  fits_together b ((key, n) :: l) → nonneg_spends l → b !! key = Some v →
  isUnboundedBudget v = true ∨ (n ≤ v)%Z.
Proof.
  intros Hfit Hl Hk. destruct (decide (v = MaxInt)) as [->|Hne]; [by left|right].
  specialize (Hfit key v Hk Hne). rewrite covered_spend_cons, Covers_refl in Hfit.
  pose proof (covered_spend_nonneg key l Hl). lia.
Qed.

(** One spend within its own key fits the whole budget. *)
Lemma fits_single b key n v :
  budget_ok b → b !! key = Some v → (0 ≤ n ≤ v)%Z → fits_together b [(key, n)].
Proof.
  intros [Hc Ho Hi Hp] Hk Hn f F Hf HF. rewrite covered_spend_cons.
  unfold covered_spend, sumZ. simpl. pose proof (Hp f F Hf).
  destruct (Covers f key) eqn:Hcov; [|lia].
  pose proof (spend_within b key v n f F Hc Ho Hk Hf (or_intror (proj2 Hn))) as Hw.
  rewrite Z.add_0_r. apply Hw; [|done]. apply isUnbounded_false. lia.
Qed.

Lemma fits_mono b l l' :
  (∀ f, covered_spend f l' ≤ covered_spend f l)%Z → fits_together b l → fits_together b l'.
Proof. intros Hle Hf f v Hk Hne. specialize (Hf f v Hk Hne). specialize (Hle f). lia. Qed.

(** A debit keeps the keys, so it keeps what each name is spent from. *)
Lemma budgetKey_same (b b' : gmap string Z) name :
  (∀ k, is_Some (b' !! k) ↔ is_Some (b !! k)) → budgetKey b' name = budgetKey b name.
Proof.
  intros H. unfold budgetKey, FindBudgetKey. f_equal.
  rewrite (FindBudgetKey_keys_perm _ _ (map_to_list b').*1 (map_to_list b).*1).
  - unfold FindBudgetKey_keys.
    rewrite (bool_decide_ext (is_Some (b' !! name)) (is_Some (b !! name))) by apply H. done.
  - apply NoDup_Permutation; [apply NoDup_fst_map_to_list..|].
    intros k. by rewrite !elem_of_keys.
Qed.

Lemma budgetOf_key b name v :
  budgetOf (Some b) name = v → (0 < v)%Z → b !! budgetKey b name = Some v.
Proof.
  unfold budgetOf, budgetKey. destruct (FindBudgetKey b name) as [key|] eqn:Hf; [|lia].
  destruct (FindBudgetKey_sound b name key Hf) as [[w Hw] _]. simpl. rewrite Hw. simpl. by intros ->.
Qed.

(** ** The merged budget *)
Lemma add_spelling_spec names acc :
  (∀ a b, a ∈ acc → b ∈ acc → EqualFold a b = true → a = b) → NoDup acc →
  let out := foldl add_spelling acc names in
  (∀ a b, a ∈ out → b ∈ out → EqualFold a b = true → a = b) ∧ NoDup out ∧
  (∀ a, a ∈ out → a ∈ acc ∨ a ∈ names) ∧
  (∀ a, a ∈ acc ∨ a ∈ names → ∃ o, o ∈ out ∧ EqualFold o a = true).
Proof.
  revert acc. induction names as [|n names IH]; intros acc Hu Hnd; cbn [foldl].
  { split_and!; auto. intros a [Ha|[]%not_elem_of_nil]. eauto. }
  assert (Hstep : (∀ a b, a ∈ add_spelling acc n → b ∈ add_spelling acc n →
                     EqualFold a b = true → a = b) ∧ NoDup (add_spelling acc n) ∧
    (∀ a, a ∈ add_spelling acc n → a ∈ acc ∨ a = n) ∧
    (∀ a, a ∈ acc → a ∈ add_spelling acc n) ∧
    (∃ o, o ∈ add_spelling acc n ∧ EqualFold o n = true)).
  { unfold add_spelling. destruct (existsb (λ o, EqualFold o n) acc) eqn:He.
    - apply existsb_exists in He as (o & Ho%list_elem_of_In & He). split_and!; eauto.
    - assert (Hno : ∀ a, a ∈ acc → EqualFold a n = false).
      { intros a Ha. apply not_true_iff_false. intros Hf. apply not_true_iff_false in He.
        apply He, existsb_exists. exists a. split; [by apply list_elem_of_In|done]. }
      assert (Hni : n ∉ acc) by (intros Hin%Hno; by rewrite EqualFold_refl in Hin).
      split_and!.
      + intros a b. rewrite !elem_of_app, !list_elem_of_singleton.
        intros [Ha| ->] [Hb| ->] Hf; auto.
        * by rewrite Hno in Hf.
        * rewrite EqualFold_sym in Hf. by rewrite Hno in Hf.
      + apply NoDup_app. split; [done|]. split; [|apply NoDup_singleton].
        by intros x Hx ->%list_elem_of_singleton.
      + intros a. rewrite elem_of_app, list_elem_of_singleton. tauto.
      + intros a. rewrite elem_of_app. tauto.
      + exists n. split; [|done]. rewrite elem_of_app, list_elem_of_singleton. tauto. }
  destruct Hstep as (H1 & H2 & H3 & H4 & (o & Ho & Hon)).
  destruct (IH _ H1 H2) as (G1 & G2 & G3 & G4). split_and!; auto.
  - intros a Ha. rewrite elem_of_cons. destruct (G3 a Ha) as [Hx|?]; [|tauto].
    destruct (H3 a Hx); tauto.
  - intros a. rewrite elem_of_cons. intros [Ha|[->|Ha]]; auto.
    destruct (G4 o (or_introl Ho)) as (o' & Ho' & He). exists o'. split; [done|].
    by apply EqualFold_trans with o.
Qed.

Lemma distinctSpellings_spec names :
  (∀ a b, a ∈ distinctSpellings names → b ∈ distinctSpellings names →
     EqualFold a b = true → a = b) ∧
  NoDup (distinctSpellings names) ∧
  (∀ a, a ∈ distinctSpellings names → a ∈ names) ∧
  (∀ a, a ∈ names → ∃ o, o ∈ distinctSpellings names ∧ EqualFold o a = true).
Proof.
  destruct (add_spelling_spec (sort_strings names) []) as (H1 & H2 & H3 & H4).
  { intros a b []%not_elem_of_nil. }
  { constructor. }
  split_and!; [done|done| |].
  - intros a [[]%not_elem_of_nil|Ha]%H3. by rewrite sort_strings_perm in Ha.
  - intros a Ha. apply H4. right. by rewrite sort_strings_perm.
Qed.

Lemma merge_fold_lookup keyed names acc k :
  foldl (merge_step keyed) acc names !! k =
  if decide (k ∈ names ∧ is_Some (merge_value keyed k)) then merge_value keyed k else acc !! k.
Proof.
  revert acc. induction names as [|n names IH]; intros acc; cbn [foldl].
  { case_decide as Hd; [|done]. destruct Hd as [[]%not_elem_of_nil _]. }
  rewrite IH. unfold merge_step at 1.
  destruct (merge_value keyed n) as [v|] eqn:Hv.
  - destruct (decide (k = n)) as [->|Hne].
    + rewrite lookup_insert_eq, Hv.
      repeat case_decide; rewrite ?elem_of_cons in *; try done; naive_solver.
    + rewrite lookup_insert_ne by done.
      repeat case_decide; rewrite ?elem_of_cons in *; naive_solver.
  - assert (Hn : is_Some (merge_value keyed k) → k ≠ n) by (intros [? ?] ->; congruence).
    repeat case_decide; rewrite ?elem_of_cons in *; try done; naive_solver.
Qed.

Section merged.
Context (constraints : list (option ResourceConstraints)) (declared : list string).
Let cluster := clusterBounds constraints.
Let keyed := Pools <$> cluster.
Let names := resolvedNames declared
               ++ mjoin ((λ c, (map_to_list (Pools c)).*1) <$> cluster).
Let raw := foldl (merge_step keyed) ∅ (distinctSpellings names).

Lemma mergeConstraints_eq :
  cluster ≠ [] → mergeConstraints constraints declared = Some (clampProducts raw).
Proof.
  unfold mergeConstraints, raw, names, keyed, cluster.
  by destruct (clusterBounds constraints).
Qed.

Lemma raw_lookup k v :
  raw !! k = Some v ↔ k ∈ distinctSpellings names ∧ merge_value keyed k = Some v.
Proof.
  unfold raw. rewrite merge_fold_lookup. case_decide as Hd.
  - naive_solver.
  - rewrite lookup_empty. split; [done|]. intros [H1 H2]. exfalso. apply Hd. eauto.
Qed.

Lemma merged_one_spelling : one_spelling_map (clampProducts raw).
Proof.
  intros k k'. rewrite !clampProducts_is_Some.
  intros [v [Hk _]%raw_lookup] [v' [Hk' _]%raw_lookup].
  by apply (distinctSpellings_spec names).
Qed.

Lemma clusterBoundAll_pair als name :
  clusterBoundAll als name =
  (if (ClusterAllowlistsBound poolBound als name).2
      && (ClusterAllowlistsBound poolBound als name).1.2
   then MaxInt else (ClusterAllowlistsBound poolBound als name).1.1,
   (ClusterAllowlistsBound poolBound als name).2).
Proof.
  unfold clusterBoundAll, maxint_if_unlimited.
  destruct (ClusterAllowlistsBound poolBound als name) as [[f []] []]; done.
Qed.

(** A merged figure is at most what any one cluster bound leaves free. *)
Lemma merge_value_le c k v :
  c ∈ cluster → merge_value keyed k = Some v →
  (ClusterAllowlistBound poolBound (Pools c) k).2 = true →
  (ClusterAllowlistBound poolBound (Pools c) k).1.2 = false →
  (v ≤ (ClusterAllowlistBound poolBound (Pools c) k).1.1)%Z ∧ clusterBoundAll keyed k = (v, true).
Proof.
  intros Hc Hv Hb Hu. unfold merge_value in Hv.
  destruct (materialized keyed k); simpl in Hv; [|done].
  assert (Hin : Pools c ∈ keyed) by (by apply list_elem_of_fmap_2).
  destruct (ClusterAllowlistsBound_le poolBound keyed (Pools c) k Hin Hb) as [Hle Ht].
  rewrite clusterBoundAll_pair, Ht in Hv |- *. simpl in *.
  destruct Hle as [?|(Hf & _ & Hle)]; [congruence|]. rewrite Hf in Hv |- *.
  simplify_eq. done.
Qed.
End merged.

(** ** The merged budget is a closed allowlist *)
Definition small_pools (M : Z) (constraints : list (option ResourceConstraints)) : Prop :=
  small_allowlists poolBound M (Pools <$> clusterBounds constraints).

Lemma Available_nonneg p : (0 ≤ Available p)%Z.
Proof. unfold Available. case_match; lia. Qed.

Lemma Available_in_int p : in_int (Available p).
Proof.
  unfold Available. pose proof (wrap_in_int (Limit p - Used p)).
  case_match; [unfold in_int, int_min, int_max; lia|done].
Qed.

Section closed.
Context (constraints : list (option ResourceConstraints)) (declared : list string) (M : Z).
Hypothesis M_nonneg : (0 ≤ M)%Z.
Hypothesis Hsmall : small_pools M constraints.
Let cluster := clusterBounds constraints.
Let keyed := Pools <$> cluster.

Lemma merge_value_nonneg k v : merge_value keyed k = Some v → (0 ≤ v)%Z.
Proof.
  unfold merge_value. destruct (materialized keyed k); simpl; [|done].
  rewrite clusterBoundAll_pair.
  pose proof (ClusterAllowlistsBound_nonneg poolBound M M_nonneg keyed k Hsmall).
  destruct (ClusterAllowlistsBound poolBound keyed k) as [[f u] b]. simpl in *.
  destruct b; [|done]. destruct u; simpl; intros [= <-]; [|done].
  unfold MaxInt, int_max. lia.
Qed.

Lemma merged_budget_le c b k v w :
  c ∈ cluster → mergeConstraints constraints declared = Some b → b !! k = Some v →
  ClusterAllowlistBound poolBound (Pools c) k = (w, false, true) →
  budget_le v w.
Proof.
  intros Hc Hm Hk Hw.
  assert (Hne : cluster ≠ []) by (intros He; rewrite He in Hc; by apply not_elem_of_nil in Hc).
  rewrite (mergeConstraints_eq constraints declared Hne) in Hm. injection Hm as <-.
  assert (Hs : is_Some (clampProducts (foldl (merge_step keyed) ∅ (distinctSpellings
    (resolvedNames declared ++ mjoin ((λ c, (map_to_list (Pools c)).*1) <$> cluster)))) !! k))
    by eauto.
  rewrite clampProducts_is_Some in Hs. destruct Hs as [v0 Hv0].
  pose proof (clampProducts_le _ _ _ _ Hv0 Hk) as Hle.
  apply raw_lookup in Hv0 as [_ Hv0].
  destruct (merge_value_le constraints c k v0 Hc Hv0) as [Hvw _]; [by rewrite Hw..|].
  rewrite Hw in Hvw. simpl in Hvw.
  etrans; [exact Hle|].
  destruct (isUnboundedBudget w) eqn:Hu; [by left|]. right.
  apply isUnbounded_false in Hu as Hu'. pose proof (merge_value_nonneg k v0 Hv0).
  assert (Hwi : in_int w).
  { pose proof (AllowlistBound_in_int poolBound (Pools c) k Available_in_int) as Hi.
    unfold ClusterAllowlistBound in Hw.
    destruct (AllowlistBound poolBound (Pools c) k) as [[f u] l]. simpl in Hi.
    repeat case_match; simplify_eq; unfold in_int, int_min, int_max in *; lia. }
  split_and!; [|done|done]. apply isUnbounded_false.
  unfold in_int, MaxInt in *. lia.
Qed.

Lemma merged_unlisted_zero c b k v :
  c ∈ cluster → mergeConstraints constraints declared = Some b → b !! k = Some v →
  (allowlistBound (Pools c) k).2 = false → k ≠ DefaultAcceleratorName → v = 0%Z.
Proof.
  intros Hc Hm Hk Hl Hne.
  assert (Hw : ClusterAllowlistBound poolBound (Pools c) k = (0%Z, false, true)).
  { unfold ClusterAllowlistBound. unfold allowlistBound in Hl.
    destruct (AllowlistBound poolBound (Pools c) k) as [[f u] l]. simpl in Hl. subst l. simpl.
    by apply String.eqb_neq in Hne as ->. }
  destruct (merged_budget_le c b k v 0%Z Hc Hm Hk Hw) as [?|(H1 & _ & H2)]; [done|].
  apply isUnbounded_false in H1. lia.
Qed.

(** A name is in the merged budget once some provider lists a spelling of it. *)
Lemma merged_has_listed c b k :
  c ∈ cluster → mergeConstraints constraints declared = Some b → is_Some (Pools c !! k) →
  IsFamily k = false → ∃ o, is_Some (b !! o) ∧ EqualFold o k = true.
Proof.
  intros Hc Hm Hk Hf.
  assert (Hne : cluster ≠ []) by (intros He; rewrite He in Hc; by apply not_elem_of_nil in Hc).
  rewrite (mergeConstraints_eq constraints declared Hne) in Hm. injection Hm as <-.
  set (names := resolvedNames declared
                  ++ mjoin ((λ c, (map_to_list (Pools c)).*1) <$> clusterBounds constraints)).
  destruct (proj2 (proj2 (proj2 (distinctSpellings_spec names))) k) as (o & Ho & Hok).
  { unfold names. apply elem_of_app. right. apply list_elem_of_join.
    exists (map_to_list (Pools c)).*1. split; [by apply elem_of_keys|].
    apply list_elem_of_fmap. by exists c. }
  exists o. split; [|done]. rewrite clampProducts_is_Some.
  assert (Hof : IsFamily o = false) by (by rewrite (IsFamily_fold o k Hok)).
  assert (Hin : Pools c ∈ keyed) by (by apply list_elem_of_fmap_2).
  assert (Hb : (ClusterAllowlistBound poolBound (Pools c) o).2 = true).
  { unfold ClusterAllowlistBound.
    destruct (AllowlistBound poolBound (Pools c) o) as [[? ?] []]; simpl; [done|].
    destruct (String.eqb_spec o DefaultAcceleratorName) as [->|]; [done|done]. }
  destruct (ClusterAllowlistsBound_le poolBound keyed (Pools c) o Hin Hb) as [_ Ht].
  assert (Hv : is_Some (merge_value keyed o)).
  { unfold merge_value, materialized.
    assert (hasKey keyed o = true) as ->.
    { apply existsb_exists. exists (Pools c). split; [by apply list_elem_of_In|].
      apply existsb_exists. destruct Hk as [p Hp]. exists (k, p).
      split; [apply list_elem_of_In; by apply elem_of_map_to_list|].
      simpl. by rewrite EqualFold_sym. }
    simpl. rewrite clusterBoundAll_pair, Ht. eauto. }
  destruct Hv as [v Hv]. exists v. apply raw_lookup. done.
Qed.
End closed.

(** ** What a placement check admits *)

(** The key a demanded type is charged to, if it is charged at all. *)
Definition charged (budgets : gmap string Z) (nsScoped : bool) (rawType : string)
  : option string :=
  match FindBudgetKey budgets rawType with
  | Some key => Some key
  | None =>
      if String.eqb rawType DefaultAcceleratorName && nsScoped then
        match map_to_list budgets with [(key, _)] => Some key | _ => None end
      else None
  end.

(** The GPUs of the demand charged under a key that [key] covers. *)
Definition charge_of (budgets : gmap string Z) (nsScoped : bool) (key : string)
    (e : string * Z) : Z :=
  if (e.2 <=? 0)%Z then 0%Z
  else match charged budgets nsScoped e.1 with
       | Some k => if Covers key k then e.2 else 0%Z
       | None => 0%Z
       end.

Definition cover_weight (key : string) (e : string * Z) : Z :=
  if Covers key e.1 then e.2 else 0%Z.

Lemma covered_sum_eq key l : covered_sum key l = wrap (sumZ (cover_weight key) l).
Proof.
  unfold covered_sum.
  assert (H : ∀ x, in_int x →
    foldl (λ sum (e : string * Z), if Covers key e.1 then sum ⊞ e.2 else sum) x l =
    wrap (x + sumZ (cover_weight key) l)).
  { induction l as [|e l IH]; intros x Hx; cbn [foldl].
    - unfold sumZ. simpl. by rewrite Z.add_0_r, wrap_id.
    - rewrite sumZ_cons. unfold cover_weight at 1. destruct (Covers key e.1).
      + rewrite IH by apply wrap_in_int. rewrite wrap_add_l. f_equal. lia.
      + rewrite IH by done. f_equal. }
  rewrite H by (unfold in_int, int_min, int_max; lia). done.
Qed.

Lemma cover_weight_pair key k x :
  cover_weight key (k, x) = if Covers key k then x else 0%Z.
Proof. done. Qed.

(** Adding to one entry of a map adds to the covered sum, modulo wrapping. *)
Lemma covered_insert key (m : gmap string Z) k n :
  wrap (sumZ (cover_weight key) (map_to_list (<[k := default 0%Z (m !! k) ⊞ n]> m))) =
  wrap (sumZ (cover_weight key) (map_to_list m) + cover_weight key (k, n)).
Proof.
  assert (Hi : map_to_list (<[k := default 0%Z (m !! k) ⊞ n]> m) ≡ₚ
               (k, default 0%Z (m !! k) ⊞ n) :: map_to_list (delete k m)).
  { rewrite <- insert_delete_eq. apply map_to_list_insert, lookup_delete_eq. }
  rewrite Hi, sumZ_cons, !cover_weight_pair.
  destruct (m !! k) as [v|] eqn:Hk; simpl.
  - rewrite <- (map_to_list_delete m k v Hk), sumZ_cons, cover_weight_pair.
    destruct (Covers key k); [rewrite wrap_add_l|]; f_equal; lia.
  - rewrite (delete_id m k Hk).
    destruct (Covers key k); [rewrite wrap_add_l|]; f_equal; lia.
Qed.

Lemma fit_step_charge b ns spent e spent' key :
  fit_step b ns spent e = Some spent' →
  wrap (sumZ (cover_weight key) (map_to_list spent')) =
  wrap (sumZ (cover_weight key) (map_to_list spent) + charge_of b ns key e).
Proof.
  destruct e as [t n]. unfold fit_step, charge_of, charged. simpl.
  destruct (n <=? 0)%Z; [intros [= <-]; f_equal; lia|].
  destruct (FindBudgetKey b t) as [k|]; [intros [= <-]; apply covered_insert|].
  destruct (String.eqb t DefaultAcceleratorName); simpl; [|done].
  destruct ns; simpl.
  - destruct (map_to_list b) as [|[k v] [|]]; [done| |done].
    intros [= <-]. apply covered_insert.
  - destruct (anyPoolFits b n); intros [= <-]. f_equal. lia.
Qed.

Lemma fit_demand_charge b ns spent l spent' key :
  fit_demand b ns spent l = Some spent' →
  wrap (sumZ (cover_weight key) (map_to_list spent')) =
  wrap (sumZ (cover_weight key) (map_to_list spent) + sumZ (charge_of b ns key) l).
Proof.
  revert spent. induction l as [|e l IH]; intros spent; cbn [fit_demand].
  - intros [= <-]. unfold sumZ at 3. simpl. by rewrite Z.add_0_r.
  - destruct (fit_step b ns spent e) as [s1|] eqn:Hs; simpl; [|done]. intros H.
    rewrite (IH _ H), sumZ_cons.
    rewrite <- (wrap_add_l (sumZ (cover_weight key) (map_to_list s1))).
    rewrite (fit_step_charge _ _ _ _ _ key Hs), wrap_add_l. f_equal. lia.
Qed.

Lemma charge_of_nonneg b ns key e : (0 ≤ charge_of b ns key e)%Z.
Proof. unfold charge_of. repeat case_match; lia. Qed.

(** An admitted demand is within every finite budget key, summed over the types
    charged under it. *)
Lemma FitsGPUBudget_within constraints namespace demand b ns key v :
  gpuBudgets constraints namespace (map_to_list demand).*1 = (Some b, ns) →
  FitsGPUBudget constraints namespace demand = true →
  b !! key = Some v → isUnboundedBudget v = false →
  (sumZ (λ e : string * Z, Z.max 0 e.2) (map_to_list demand) ≤ int_max)%Z →
  (sumZ (charge_of b ns key) (map_to_list demand) ≤ v)%Z.
Proof.
  intros Hb Hfit Hk Hu Hsum. unfold FitsGPUBudget in Hfit.
  destruct constraints as [|c cs]; [done|]. rewrite Hb in Hfit.
  destruct (fit_demand b ns ∅ (map_to_list demand)) as [spent|] eqn:Hs; [|done].
  unfold fits_budgets in Hfit. rewrite forallb_forall in Hfit.
  specialize (Hfit (key, v)). simpl in Hfit. rewrite Hu in Hfit. simpl in Hfit.
  assert (Hin : In (key, v) (map_to_list b))
    by (apply list_elem_of_In; by apply elem_of_map_to_list).
  specialize (Hfit Hin). apply Z.leb_le in Hfit. rewrite covered_sum_eq in Hfit.
  rewrite (fit_demand_charge _ _ _ _ _ key Hs), map_to_list_empty in Hfit.
  unfold sumZ at 1 in Hfit. simpl in Hfit.
  rewrite wrap_id in Hfit; [done|].
  assert (0 ≤ sumZ (charge_of b ns key) (map_to_list demand))%Z
    by (apply sumZ_nonneg; intros; apply charge_of_nonneg).
  assert (sumZ (charge_of b ns key) (map_to_list demand)
          ≤ sumZ (λ e : string * Z, Z.max 0 e.2) (map_to_list demand))%Z.
  { apply sumZ_le. intros e _. unfold charge_of. repeat case_match; lia. }
  unfold in_int, int_min in *. lia.
Qed.

Lemma gpuBudgets_ns_bounded constraints namespace declared b k v w :
  gpuBudgets constraints namespace declared = (Some b, true) → b !! k = Some v →
  clusterBudgetFor (mergeWithAllowanceKeys constraints declared) k = (w, true) →
  isUnboundedBudget w = false → (0 ≤ v ≤ w)%Z.
Proof.
  unfold gpuBudgets. destruct constraints as [|c cs]; [done|].
  destruct (mergeNamespaceConstraints _ _ ≫= _) as [nb|]; [|done].
  intros [= <-]. rewrite map_lookup_imap. destruct (nb !! k) as [x|]; simpl; [|done].
  intros [= <-] Hw Hu. unfold bound_by_cluster. rewrite Hw. simpl.
  apply isUnbounded_false in Hu as [Hw0 Hw1].
  rewrite (proj2 (Z.eqb_neq w MaxInt)) by done. simpl.
  unfold tighterBudget. repeat case_match; lia.
Qed.

(** ** A name one provider does not list has no budget *)
Section unlisted_name.
Context (constraints : list (option ResourceConstraints)) (declared : list string) (M : Z).
Hypothesis M_nonneg : (0 ≤ M)%Z.
Hypothesis Hsmall : small_pools M constraints.
Context (c : ResourceConstraints) (b : gmap string Z) (name : string).
Hypothesis Hc : c ∈ clusterBounds constraints.
Hypothesis Hm : mergeConstraints constraints declared = Some b.
Hypothesis Hres : EqualFold (Family name) DefaultAcceleratorName = false.
Hypothesis Hun : (allowlistBound (Pools c) name).2 = false.

Let unlisted k : is_Some (Pools c !! k) →
  EqualFold k name = false ∧ IsProductOf k name = false ∧ IsProductOf name k = false :=
  proj1 (AllowlistBound_unlisted poolBound (Pools c) name) Hun k.

Lemma unlisted_case key v :
  EqualFold key name = true → b !! key = Some v → v = 0%Z.
Proof.
  intros He Hk. eapply (merged_unlisted_zero constraints declared M); eauto.
  - unfold allowlistBound. by rewrite (AllowlistBound_fold poolBound _ key name He).
  - intros ->. apply Family_fold in He. rewrite EqualFold_sym in He.
    change (Family DefaultAcceleratorName) with DefaultAcceleratorName in He. congruence.
Qed.

Lemma unlisted_product key v :
  IsProductOf key name = true → b !! key = Some v → v = 0%Z.
Proof.
  intros Hp Hk. eapply (merged_unlisted_zero constraints declared M); eauto.
  - apply AllowlistBound_unlisted. intros k Hs. destruct (unlisted k Hs) as (H1 & H2 & H3).
    apply IsProductOf_spec in Hp as Hp'. destruct Hp' as (Hf & Hkf & Hfam). split_and!.
    + apply not_true_iff_false. intros He. rewrite (IsProductOf_fold_l _ _ _ He) in H2.
      congruence.
    + unfold IsProductOf. by rewrite Hkf.
    + apply not_true_iff_false. intros (_ & _ & Hk')%IsProductOf_spec.
      apply not_true_iff_false in H1. apply H1. rewrite EqualFold_sym in Hk'.
      by apply EqualFold_trans with (Family key).
  - intros ->. apply resolved_lower_product in Hp. done.
Qed.

Lemma unlisted_family key v :
  IsProductOf name key = true → FindBudgetKey b name = Some key → b !! key = Some v → v = 0%Z.
Proof.
  intros Hp Hfk Hk. apply IsProductOf_spec in Hp as Hp'. destruct Hp' as (Hkf & Hnf & Hfam).
  eapply (merged_unlisted_zero constraints declared M); eauto.
  - apply AllowlistBound_unlisted. intros k Hs. destruct (unlisted k Hs) as (H1 & H2 & H3).
    split_and!.
    + apply not_true_iff_false. intros He. rewrite (IsProductOf_fold_r _ _ _ He) in H3.
      congruence.
    + apply not_true_iff_false. intros (_ & Hkn & Hkk)%IsProductOf_spec.
      destruct (merged_has_listed constraints declared c b k Hc Hm Hs Hkn) as (o & Ho & Hok).
      assert (Hno : ∀ k', is_Some (b !! k') → EqualFold k' name = false).
      { intros k' Hs'. apply not_true_iff_false. intros He.
        pose proof (FindBudgetKey_case b name k' key Hs' He Hfk) as Hx.
        rewrite EqualFold_sym in Hx. apply IsProductOf_not_fold in Hp. congruence. }
      enough (FindBudgetKey b name = None) by congruence.
      apply (FindBudgetKey_sibling_denied b name o); try done.
      * by rewrite (IsFamily_fold o k Hok).
      * apply EqualFold_trans with (Family k); [by apply Family_fold|].
        apply EqualFold_trans with key; [done|]. by rewrite EqualFold_sym.
    + unfold IsProductOf. by rewrite Hkf, andb_false_r.
  - intros ->. congruence.
Qed.

Lemma unlisted_budget_zero : budgetOf (Some b) name = 0%Z.
Proof.
  simpl. destruct (FindBudgetKey b name) as [key|] eqn:Hfk; [|done].
  destruct (FindBudgetKey_sound b name key Hfk) as [[v Hk] Hcase]. rewrite Hk. simpl.
  destruct Hcase as [Hcov|[Hp _]]; [|by eapply unlisted_product].
  unfold Covers in Hcov. apply orb_true_iff in Hcov as [He|Hp].
  - by eapply unlisted_case.
  - by eapply unlisted_family.
Qed.
End unlisted_name.

(** ** The merged budget as the start of a run of spends *)
Lemma merge_value_in_int keyed k v : merge_value keyed k = Some v → in_int v.
Proof.
  unfold merge_value. destruct (materialized keyed k); simpl; [|done].
  rewrite clusterBoundAll_pair.
  pose proof (ClusterAllowlistsBound_in_int poolBound Available_in_int keyed k) as Hi.
  destruct (ClusterAllowlistsBound poolBound keyed k) as [[f u] bd]. simpl in *.
  destruct bd; [|done]. destruct u; simpl; intros [= <-]; [|done].
  unfold in_int, MaxInt, int_min, int_max. lia.
Qed.

Lemma merged_spendable constraints declared b :
  mergeConstraints constraints declared = Some b →
  clamped b ∧ one_spelling_map b ∧ in_ints b.
Proof.
  intros Hm.
  assert (Hne : clusterBounds constraints ≠ []).
  { intros He. unfold mergeConstraints in Hm. by rewrite He in Hm. }
  rewrite (mergeConstraints_eq constraints declared Hne) in Hm. injection Hm as <-.
  split_and!.
  - apply clampProducts_clamped.
  - apply merged_one_spelling.
  - intros k v. rewrite clampProducts_lookup.
    set (raw := foldl _ _ _).
    assert (Hraw : ∀ k v, raw !! k = Some v → in_int v)
      by (intros k0 v0 [_ H0]%raw_lookup; by eapply merge_value_in_int).
    destruct (IsFamily k); [by apply Hraw|].
    destruct (raw !! k) as [v0|] eqn:Hk; simpl; [|done]. intros [= <-].
    destruct (clamp_val_in raw k v0) as [->|[f Hf]]; by eapply Hraw.
Qed.

(** ** The cluster total *)
Lemma saturatingAdd_spec a b :
  (0 ≤ a)%Z → (0 ≤ b)%Z → in_int a → in_int b →
  saturatingAdd a b = Z.min MaxInt (a + b).
Proof.
  unfold saturatingAdd. intros Ha Hb Hai Hbi.
  assert (E : MaxInt ⊟ b = (MaxInt - b)%Z) by int_lia. rewrite E.
  destruct (Z.eqb_spec a MaxInt), (Z.eqb_spec b MaxInt), (Z.ltb_spec (MaxInt - b) a);
    simpl; try (unfold in_int, MaxInt in *; lia). int_lia.
Qed.

(** A budget figure as the total counts it. *)
Definition total_figure (v : Z) : Z := if isUnboundedBudget v then MaxInt else v.

Lemma total_figure_range v : in_int v → (0 ≤ total_figure v)%Z ∧ in_int (total_figure v).
Proof.
  unfold total_figure. intros Hv. destruct (isUnboundedBudget v) eqn:Hu.
  - unfold in_int, MaxInt, int_min, int_max. lia.
  - apply isUnbounded_false in Hu. tauto.
Qed.

(** What the families built so far say of an entry that was counted. *)
Definition counted (fams : gmap string family) (e : string * Z) : Prop :=
  ∃ f, fams !! ToLower (Family e.1) = Some f ∧
    if IsFamily e.1 then fam_hasFamily f = true ∧ (total_figure e.2 ≤ fam_family f)%Z
    else ∃ w, fam_products f !! ToLower e.1 = Some w ∧ (total_figure e.2 ≤ w)%Z.

Definition good_family (f : family) : Prop :=
  (0 ≤ fam_family f)%Z ∧ in_int (fam_family f) ∧
  ∀ p w, fam_products f !! p = Some w → (0 ≤ w)%Z ∧ in_int w.

Lemma total_step_good fams e :
  in_int e.2 → (∀ n f, fams !! n = Some f → good_family f) →
  ∀ n f, total_step fams e !! n = Some f → good_family f.
Proof.
  intros Hv Hg n f. destruct e as [key v]. unfold total_step. fold (total_figure v).
  destruct (total_figure_range v Hv) as [H0 Hi]. simpl in Hv.
  set (f0 := default (MkFamily 0 false ∅) (fams !! ToLower (Family key))).
  assert (Hf0 : good_family f0).
  { unfold f0. destruct (fams !! ToLower (Family key)) as [f1|] eqn:E; [by eapply Hg|].
    split_and!; simpl; [done|unfold in_int, int_min, int_max; lia|].
    intros p w. by rewrite lookup_empty. }
  destruct Hf0 as (G1 & G2 & G3).
  destruct (IsFamily key); rewrite lookup_insert_Some; intros [[<- <-]|[_ Hn]];
    try (by eapply Hg); split_and!; simpl; try done.
  - lia.
  - unfold in_int in *. lia.
  - intros p w. rewrite lookup_insert_Some. intros [[<- <-]|[_ Hp]]; [|by eapply G3].
    destruct (fam_products f0 !! ToLower key) as [w0|] eqn:E; simpl.
    + destruct (G3 _ _ E). unfold in_int in *. lia.
    + unfold in_int in *. lia.
Qed.

Lemma total_step_counted fams e e' :
  counted fams e' ∨ e' = e → counted (total_step fams e) e'.
Proof.
  destruct e as [key v], e' as [key' v']. unfold total_step. fold (total_figure v).
  unfold counted. simpl. set (n := ToLower (Family key)). set (n' := ToLower (Family key')).
  intros [(f & Hf & Hc)|[= -> ->]].
  - destruct (decide (n = n')) as [Hn|Hn].
    + rewrite Hn, Hf. simpl. destruct (IsFamily key) eqn:Hfam.
      * eexists. rewrite lookup_insert_eq. split; [done|]. simpl.
        destruct (IsFamily key'); [|done]. split; [done|]. lia.
      * eexists. rewrite lookup_insert_eq. split; [done|]. simpl.
        destruct (IsFamily key'); [done|]. destruct Hc as (w & Hw & Hle).
        destruct (decide (ToLower key = ToLower key')) as [He|He].
        -- rewrite He, lookup_insert_eq, Hw. eexists. split; [done|]. simpl. lia.
        -- rewrite lookup_insert_ne by done. eauto.
    + exists f. destruct (IsFamily key); rewrite lookup_insert_ne by done; done.
  - destruct (IsFamily key) eqn:Hfam; rewrite lookup_insert_eq; eexists;
      (split; [done|]); simpl.
    + split; [done|]. lia.
    + rewrite lookup_insert_eq. eexists. split; [done|]. lia.
Qed.

Lemma total_fold_spec l fams :
  (∀ e, e ∈ l → in_int e.2) → (∀ n f, fams !! n = Some f → good_family f) →
  (∀ n f, foldl total_step fams l !! n = Some f → good_family f) ∧
  (∀ e, e ∈ l ∨ counted fams e → counted (foldl total_step fams l) e).
Proof.
  revert fams. induction l as [|e l IH]; intros fams Hi Hg; cbn [foldl].
  { split; [done|]. intros e [[]%not_elem_of_nil|?]. done. }
  destruct (IH (total_step fams e)) as [H1 H2].
  { intros e' He'. apply Hi. by constructor. }
  { apply total_step_good; [|done]. apply Hi. constructor. }
  split; [done|]. intros e' [[->|He]%elem_of_cons|He]; apply H2;
    auto using total_step_counted.
Qed.

Lemma saturating_fold l x :
  (0 ≤ x)%Z → in_int x → (∀ w, w ∈ l → (0 ≤ w)%Z ∧ in_int w) →
  (x ≤ foldl saturatingAdd x l)%Z ∧ in_int (foldl saturatingAdd x l) ∧
  (∀ w, w ∈ l → (w ≤ foldl saturatingAdd x l)%Z).
Proof.
  revert x. induction l as [|w l IH]; intros x Hx Hxi Hl; cbn [foldl].
  { split_and!; [lia|done|]. intros w []%not_elem_of_nil. }
  destruct (Hl w (list_elem_of_here _ _)) as [Hw Hwi].
  pose proof (saturatingAdd_spec x w Hx Hw Hxi Hwi) as Hs.
  destruct (IH (saturatingAdd x w)) as (H1 & H2 & H3).
  - rewrite Hs. unfold MaxInt, int_max. lia.
  - rewrite Hs. unfold in_int, MaxInt, int_min, int_max in *. lia.
  - intros w' Hw'. apply Hl. by constructor.
  - unfold in_int, MaxInt in *. split_and!; [lia|lia|lia|].
    intros w' [->|Hw']%elem_of_cons; [lia|auto].
Qed.

Lemma fam_held_spec f :
  good_family f → (0 ≤ fam_held f)%Z ∧ in_int (fam_held f) ∧
  (fam_hasFamily f = true → fam_held f = fam_family f) ∧
  (fam_hasFamily f = false → ∀ p w, fam_products f !! p = Some w → (w ≤ fam_held f)%Z).
Proof.
  intros (H0 & Hi & Hp). unfold fam_held. destruct (fam_hasFamily f); [done|].
  destruct (saturating_fold (map_to_list (fam_products f)).*2 0%Z) as (H1 & H2 & H3).
  - done.
  - unfold in_int, int_min, int_max. lia.
  - intros w ([p w'] & -> & Hw%elem_of_map_to_list)%list_elem_of_fmap. by eapply Hp.
  - split_and!; [done|done|done|]. intros _ p w Hw. apply H3, list_elem_of_fmap.
    exists (p, w). split; [done|]. by apply elem_of_map_to_list.
Qed.

Lemma total_families_spec fs t :
  (0 ≤ t)%Z → in_int t → (∀ f, f ∈ fs → good_family f) →
  (t ≤ total_families fs t)%Z ∧ (∀ f, f ∈ fs → (fam_held f ≤ total_families fs t)%Z).
Proof.
  revert t. induction fs as [|f fs IH]; intros t Ht Hti Hg; cbn [total_families].
  { split; [lia|]. intros f []%not_elem_of_nil. }
  destruct (fam_held_spec f (Hg f (list_elem_of_here _ _))) as (Hh & Hhi & _).
  pose proof (saturatingAdd_spec t (fam_held f) Ht Hh Hti Hhi) as Hs.
  destruct (Z.eqb_spec (saturatingAdd t (fam_held f)) MaxInt) as [E|E].
  - rewrite E. split; [unfold in_int, MaxInt in *; lia|].
    intros f' Hf'. destruct (fam_held_spec f' (Hg f' Hf')) as (_ & Hi' & _).
    unfold in_int, MaxInt in *. lia.
  - destruct (IH (saturatingAdd t (fam_held f))) as [H1 H2].
    + lia.
    + rewrite Hs. unfold in_int, MaxInt, int_min, int_max in *. lia.
    + intros f' Hf'. apply Hg. by constructor.
    + split; [lia|]. intros f' [->|Hf']%elem_of_cons; [lia|auto].
Qed.

Lemma total_hasFamily l fams n f :
  foldl total_step fams l !! n = Some f → fam_hasFamily f = true →
  (∃ f0, fams !! n = Some f0 ∧ fam_hasFamily f0 = true) ∨
  ∃ e, e ∈ l ∧ IsFamily e.1 = true ∧ ToLower (Family e.1) = n.
Proof.
  revert fams. induction l as [|[key v] l IH]; intros fams; cbn [foldl]; [by eauto|].
  intros Hf Hh. destruct (IH _ Hf Hh) as [(f0 & Hf0 & Hh0)|(e & He & Hr)].
  2: { right. exists e. split; [by constructor|done]. }
  unfold total_step in Hf0. destruct (IsFamily key) eqn:Hfam;
    rewrite lookup_insert_Some in Hf0; destruct Hf0 as [[<- <-]|[_ Hf0]]; eauto.
  - right. exists (key, v). split; [constructor|done].
  - simpl in Hh0. destruct (fams !! ToLower (Family key)) as [f1|] eqn:E; [|done]. eauto.
Qed.

(** Every figure of a clamped budget is within the total. *)
Lemma budgetTotal_bound b k v :
  clamped b → in_ints b → b !! k = Some v → (total_figure v ≤ budgetTotal (Some b))%Z.
Proof.
  intros Hc Hi Hk. unfold budgetTotal.
  destruct (total_fold_spec (map_to_list b) ∅) as [Hg Hct].
  { intros [k' v'] Hk'%elem_of_map_to_list. by eapply Hi. }
  { intros n f. by rewrite lookup_empty. }
  pose proof (total_hasFamily (map_to_list b) ∅) as Hhf.
  set (fams := foldl total_step ∅ (map_to_list b)) in *.
  destruct (total_families_spec (map_to_list fams).*2 0%Z) as [_ Ht].
  { done. }
  { unfold in_int, int_min, int_max. lia. }
  { intros f ([n f'] & -> & Hn%elem_of_map_to_list)%list_elem_of_fmap. by eapply Hg. }
  destruct (Hct (k, v)) as (f & Hf & Hcase); [left; by apply elem_of_map_to_list|].
  simpl in Hf, Hcase.
  assert (Hheld : (fam_held f ≤ total_families (map_to_list fams).*2 0)%Z).
  { apply Ht, list_elem_of_fmap. exists (ToLower (Family k), f). split; [done|].
    by apply elem_of_map_to_list. }
  destruct (fam_held_spec f (Hg _ _ Hf)) as (_ & _ & Hh1 & Hh2).
  destruct (IsFamily k) eqn:Hfam.
  { destruct Hcase as [Hh Hle]. rewrite Hh1 in Hheld by done. lia. }
  destruct (fam_hasFamily f) eqn:Hh.
  - destruct (Hhf _ _ Hf Hh) as [(f0 & Hf0 & _)|([g gv] & Hge & Hgf & Hgn)];
      [by rewrite lookup_empty in Hf0|].
    destruct (Hct (g, gv) (or_introl Hge)) as (f' & Hf' & Hcase').
    simpl in Hgf, Hgn, Hf', Hcase'. rewrite Hgf in Hcase'. rewrite Hgn in Hf'.
    simplify_eq. destruct Hcase' as [_ Hle]. rewrite Hh1 in Hheld by done.
    apply elem_of_map_to_list in Hge.
    assert (Hp : IsProductOf k g = true).
    { apply IsProductOf_spec. split_and!; [done|done|]. apply EqualFold_spec.
      rewrite <- Hgn. unfold Family. f_equal. unfold IsFamily in Hgf.
      by apply String.eqb_eq in Hgf. }
    pose proof (Hi _ _ Hge) as Hgi. pose proof (Hi _ _ Hk) as Hki.
    pose proof (Hc _ _ _ _ Hk Hge Hp) as Hb. unfold total_figure in *.
    destruct (isUnboundedBudget gv) eqn:Hgu.
    + destruct (isUnboundedBudget v); unfold in_int, MaxInt in *; lia.
    + destruct (Hb eq_refl) as [?|(-> & _ & ?)]; [congruence|]. lia.
  - destruct Hcase as (w & Hw & Hle). specialize (Hh2 eq_refl _ _ Hw). lia.
Qed.

(** ** Properties *)

(** Two providers of the same cluster: the nodes list both H100 products, and a
    quota bounds the family at 5 GPUs. *)
Definition cluster_of (pools : gmap string ResourcePool) : ResourceConstraints :=
  MkConstraints "" pools None false 0 0 0 false false false false 0.

Definition node_pools : gmap string ResourcePool :=
  <["NVIDIA-H100-PCIe" := MkPool 4 0]> (<["NVIDIA-H100-SXM5" := MkPool 8 2]> ∅).

Definition two_providers : list (option ResourceConstraints) :=
  [Some (cluster_of node_pools); Some (cluster_of (<["H100" := MkPool 5 0]> ∅))].

Definition two_providers_budget : gmap string Z :=
  <["H100" := 5%Z]> (<["NVIDIA-H100-PCIe" := 4%Z]> (<["NVIDIA-H100-SXM5" := 5%Z]> ∅)).

Lemma two_providers_merge : mergeConstraints two_providers [] = Some two_providers_budget.
Proof. vm_compute. reflexivity. Qed.

Lemma two_providers_small : small_pools 8 two_providers.
Proof.
  unfold small_pools, small_allowlists, two_providers. simpl. split; [|vm_compute; done].
  intros a Ha k v Hk.
  assert (Hin : (k, v) ∈ mjoin (map_to_list <$> [node_pools; <["H100" := MkPool 5 0]> ∅])).
  { apply list_elem_of_join. exists (map_to_list a). split; [by apply elem_of_map_to_list|].
    apply list_elem_of_fmap. by exists a. }
  revert Hin. unfold node_pools.
  match goal with |- (k, v) ∈ ?l → _ => let l' := eval vm_compute in l in change l with l' end.
  rewrite !elem_of_cons, elem_of_nil. intros [E|[E|[E|[]]]]; simplify_eq; vm_compute; done.
Qed.

(** Clamping gives every product at most its finite family's figure, in every
    order the map may be ranged over with the same result, without raising any
    figure, dropping any key or touching a family. *)
Theorem clampProducts_correct (b : gmap string Z) (order : list string) :
  order ≡ₚ (map_to_list b).*1 →
  clampProducts_keys order b = clampProducts b ∧
  clamped (clampProducts b) ∧
  (∀ k, is_Some (clampProducts b !! k) ↔ is_Some (b !! k)) ∧
  (∀ k v v', b !! k = Some v → clampProducts b !! k = Some v' →
     budget_le v' v ∧ (IsFamily k = true → v' = v)).
Proof.
  intros Ho. split_and!.
  - apply map_eq. intros k. unfold clampProducts.
    assert (Hn : NoDup order) by (rewrite Ho; apply NoDup_fst_map_to_list).
    rewrite !clampProducts_keys_lookup by (done || apply NoDup_fst_map_to_list).
    by repeat case_decide; rewrite ?Ho in *.
  - apply clampProducts_clamped.
  - apply clampProducts_is_Some.
  - intros k v v' Hk Hk'. split; [by eapply clampProducts_le|].
    intros Hf. rewrite clampProducts_lookup, Hf in Hk'. congruence.
Qed.

Lemma clampProducts_correct_witness :
  let b : gmap string Z := <["H100" := 2%Z]> (<["NVIDIA-H100-PCIe" := 8%Z]> ∅) in
  clampProducts b !! "NVIDIA-H100-PCIe" = Some 2%Z ∧ clamped (clampProducts b).
Proof.
  split; [vm_compute; reflexivity|].
  by apply (clampProducts_correct (<["H100" := 2%Z]> (<["NVIDIA-H100-PCIe" := 8%Z]> ∅))
    (map_to_list (<["H100" := 2%Z]> (<["NVIDIA-H100-PCIe" := 8%Z]> (∅ : gmap string Z)))).*1).
Defined.

(** C4: whatever sequence of spends is drawn from a merged budget, each within
    what its key holds when it is made, every key's remaining figure plus all
    that was spent on the names it covers (itself and, for a family, all its
    products together) is at most what the key held at the start. *)
Theorem merged_budget_never_overspent constraints declared b l b' f F :
  mergeConstraints constraints declared = Some b → spends b l b' →
  b !! f = Some F → isUnboundedBudget F = false →
  ∃ v', b' !! f = Some v' ∧ (0 ≤ v')%Z ∧ (v' + covered_spend f l ≤ F)%Z.
Proof.
  intros Hm Hs Hf HF. destruct (merged_spendable _ _ _ Hm) as (Hc & Ho & Hi).
  destruct (spends_covered b l b' f F) as (v' & Hv' & Hu & Hle); try done.
  exists v'. apply isUnbounded_false in Hu. split_and!; [done|lia|done].
Qed.

Definition two_spends : list (string * Z) := [("NVIDIA-H100-PCIe", 2%Z); ("NVIDIA-H100-SXM5", 3%Z)].

Lemma merged_budget_never_overspent_witness :
  ∃ b', spends two_providers_budget two_spends b' ∧
  ∃ v', b' !! "H100" = Some v' ∧ (0 ≤ v')%Z ∧ (v' + covered_spend "H100" two_spends ≤ 5)%Z.
Proof.
  set (b1 := debitBudget two_providers_budget "NVIDIA-H100-PCIe" 2).
  exists (debitBudget b1 "NVIDIA-H100-SXM5" 3).
  assert (Hs : spends two_providers_budget two_spends (debitBudget b1 "NVIDIA-H100-SXM5" 3)).
  { econstructor 2 with (v := 4%Z); [reflexivity|lia|unfold in_int, int_min, int_max; lia|right; lia|].
    econstructor 2 with (v := 3%Z); [vm_compute; reflexivity|lia|
      unfold in_int, int_min, int_max; lia|right; lia|]. constructor. }
  split; [exact Hs|].
  exact (merged_budget_never_overspent two_providers [] two_providers_budget two_spends _ "H100" 5%Z
           two_providers_merge Hs eq_refl eq_refl).
Defined.

(** C25: the merged budget is the intersection of the cluster providers.  A key
    holds no more than any one provider allows under it, and a name of a known family
    that some provider does not list at all (no spelling of it, no family of it, no
    product of it) has a budget of 0, whatever the other providers list. *)
Theorem mergeConstraints_intersection constraints declared M c b :
  (0 ≤ M)%Z → small_pools M constraints → c ∈ clusterBounds constraints →
  mergeConstraints constraints declared = Some b →
  (∀ k v w, b !! k = Some v →
     ClusterAllowlistBound poolBound (Pools c) k = (w, false, true) → budget_le v w) ∧
  (∀ name, EqualFold (Family name) DefaultAcceleratorName = false →
     (allowlistBound (Pools c) name).2 = false → budgetOf (Some b) name = 0%Z).
Proof.
  intros HM Hs Hc Hm. split.
  - intros k v w Hk Hw. by eapply merged_budget_le.
  - intros name Hr Hu. by eapply unlisted_budget_zero.
Qed.

Lemma mergeConstraints_intersection_witness :
  budgetOf (Some two_providers_budget) "A100" = 0%Z ∧
  budget_le 5 5.
Proof.
  destruct (mergeConstraints_intersection two_providers [] 8 (cluster_of node_pools)
    two_providers_budget) as [H1 H2].
  - lia.
  - apply two_providers_small.
  - vm_compute. constructor.
  - apply two_providers_merge.
  - split; [apply H2; vm_compute; reflexivity|].
    destruct (mergeConstraints_intersection two_providers [] 8
      (cluster_of (<["H100" := MkPool 5 0]> ∅)) two_providers_budget) as [H3 _].
    + lia.
    + apply two_providers_small.
    + vm_compute. constructor. constructor.
    + apply two_providers_merge.
    + apply (H3 "NVIDIA-H100-SXM5" 5%Z 5%Z); vm_compute; reflexivity.
Defined.

(** A demand that [FitsGPUBudget] admits is, under every finite key of the
    budgets it was checked against, within that key summed over all the demanded
    types charged under the key, as long as the demand's own total does not
    overflow. *)
Theorem FitsGPUBudget_sound constraints namespace demand b ns key v :
  gpuBudgets constraints namespace (map_to_list demand).*1 = (Some b, ns) →
  FitsGPUBudget constraints namespace demand = true →
  b !! key = Some v → isUnboundedBudget v = false →
  (sumZ (λ e : string * Z, Z.max 0 e.2) (map_to_list demand) ≤ int_max)%Z →
  (sumZ (charge_of b ns key) (map_to_list demand) ≤ v)%Z.
Proof. apply FitsGPUBudget_within. Qed.

Definition small_demand : gmap string Z :=
  <["NVIDIA-H100-PCIe" := 2%Z]> (<["NVIDIA-H100-SXM5" := 3%Z]> ∅).

Lemma FitsGPUBudget_sound_witness :
  FitsGPUBudget two_providers "prod" small_demand = true ∧
  (sumZ (charge_of two_providers_budget false "H100") (map_to_list small_demand) ≤ 5)%Z.
Proof.
  split; [vm_compute; reflexivity|].
  apply (FitsGPUBudget_sound two_providers "prod" small_demand two_providers_budget false "H100" 5).
  - vm_compute. reflexivity.
  - vm_compute. reflexivity.
  - vm_compute. reflexivity.
  - vm_compute. reflexivity.
  - vm_compute. discriminate.
Defined.

(** A namespace's allowance never admits more than the cluster: each figure
    of the budgets a namespaced check uses is a finite, non-negative number no
    larger than what the cluster has for that type. *)
Theorem gpuBudgets_namespace_within_cluster constraints namespace declared b k v w :
  gpuBudgets constraints namespace declared = (Some b, true) → b !! k = Some v →
  clusterBudgetFor (mergeWithAllowanceKeys constraints declared) k = (w, true) →
  isUnboundedBudget w = false → (0 ≤ v ≤ w)%Z.
Proof. apply gpuBudgets_ns_bounded. Qed.

Definition ns_provider : ResourceConstraints :=
  MkConstraints "quota" ∅ (Some (<["prod" := <["H100" := MkPool (-1) 0]> ∅]> ∅))
    true 0 0 0 false false false false 0.

Lemma gpuBudgets_namespace_within_cluster_witness :
  ∃ b v, gpuBudgets (Some ns_provider :: two_providers) "prod" [] = (Some b, true) ∧
    b !! "H100" = Some v ∧ (0 ≤ v ≤ 5)%Z.
Proof.
  destruct (gpuBudgets (Some ns_provider :: two_providers) "prod" []) as [[b|] ns] eqn:E;
    [|vm_compute in E; discriminate].
  assert (Hns : ns = true) by (vm_compute in E; congruence). subst ns.
  assert (Hb : b !! "H100" = Some 5%Z)
    by (vm_compute in E; injection E as <-; vm_compute; reflexivity).
  exists b, 5%Z. split; [reflexivity|]. split; [exact Hb|].
  apply (gpuBudgets_namespace_within_cluster (Some ns_provider :: two_providers) "prod" []
           b "H100" 5%Z 5%Z E Hb); vm_compute; reflexivity.
Defined.

(** The total of a merged budget is an upper bound on every figure in it, an
    unbounded one counted as [math.MaxInt]; so a total of 0 means that nothing in
    the cluster can be spent. *)
Theorem budgetTotal_zero_means_nothing constraints declared b :
  mergeConstraints constraints declared = Some b →
  (∀ k v, b !! k = Some v → (total_figure v ≤ budgetTotal (Some b))%Z) ∧
  (budgetTotal (Some b) = 0%Z → ∀ name, budgetOf (Some b) name = 0%Z).
Proof.
  intros Hm. destruct (merged_spendable _ _ _ Hm) as (Hc & _ & Hi). split.
  - intros k v Hk. by eapply budgetTotal_bound.
  - intros H0 name. cbn [budgetOf]. destruct (FindBudgetKey b name) as [key|]; [|done].
    destruct (b !! key) as [v|] eqn:Hk; [|done]. cbn [default].
    pose proof (budgetTotal_bound b key v Hc Hi Hk) as Ht.
    rewrite H0 in Ht. unfold total_figure in Ht.
    destruct (isUnboundedBudget v) eqn:Hu; [unfold MaxInt, int_max in Ht; lia|].
    apply isUnbounded_false in Hu. simpl. lia.
Qed.

Lemma budgetTotal_zero_means_nothing_witness :
  budgetTotal (Some two_providers_budget) = 5%Z ∧
  (total_figure 4 ≤ budgetTotal (Some two_providers_budget))%Z.
Proof.
  split; [vm_compute; reflexivity|].
  apply (budgetTotal_zero_means_nothing two_providers [] two_providers_budget
           two_providers_merge) with (k := "NVIDIA-H100-PCIe").
  vm_compute. reflexivity.
Defined.
