(* ===== verification/NodeView.v ===== *)
(** * The per-node GPU view

    The model of [internal/engines/allocation/node_view.go] and
    [borrow_node_fit.go] with the [Reclaim] arithmetic of [borrow_nominal.go]:
    the picture of free GPUs per node that placements debit, best-fit.

    A node is an index into [slots].  The methods that accept a nil receiver
    take an [option NodeView].  A method that mutates its receiver returns the
    new view.  The eligibility cache of the Go view ([elig]) memoizes pure
    functions of [slots]; those functions are used directly, and
    [eligible_cached] models the memo itself.  The layout log only decides
    whether a line is logged, and is left out. *)
From Stdlib Require Import ZArith Lia String Ascii.
From stdpp Require Import base gmap strings list sorting fin_maps.
From S2P Require Import Prelude Accelerator Budget.

(** ** Kubernetes and Kueue data the view reads *)
Record Taint := MkTaint { taint_Key : string; taint_Value : string; taint_Effect : string }.

Record Toleration := MkToleration {
  tol_Key : string; tol_Operator : string; tol_Value : string; tol_Effect : string }.

(** [corev1.Toleration.ToleratesTaint], with the numeric operators off, is code
    of k8s.io/api: every definition that depends on it takes it as an argument. *)
Class TaintMatcher := ToleratesTaint : Toleration → Taint → bool.

Record NodeSelectorRequirement := MkRequirement {
  req_Key : string; req_Operator : string; req_Values : list string }.

Record NodeSelectorTerm := MkTerm {
  MatchExpressions : list NodeSelectorRequirement;
  MatchFields : list NodeSelectorRequirement }.

Record PodPlacement := MkPodPlacement {
  NodeSelector : gmap string string;
  RequiredNodeAffinity : option (list NodeSelectorTerm) }.

Record FlavorPlacement := MkFlavor {
  AcceleratorType : string;
  NodeLabels : gmap string string;
  flavor_Tolerations : list Toleration;
  TopologyName : string }.

Record NodeGPU := MkNodeGPU {
  node_Accelerator : string; node_Capacity : Z; node_Used : Z;
  node_Labels : gmap string string; node_Unschedulable : bool;
  node_Taints : list Taint; node_LWSGroup : bool; node_LWSGroups : list string }.

(** ** The view *)
Record nodeSlot := MkSlot {
  slot_name : string; slot_accelerator : string; capacity : Z; used : Z;
  unschedulable : bool; taints : list Taint; labels : gmap string string; group : bool }.

Record NodeView := MkView {
  slots : list nodeSlot;
  debit : gmap nat Z;
  owner : string;
  owned : option (gmap string (gmap nat Z));
  takenAt : Z;
  domains : gmap string string }.

Definition set_debit (v : NodeView) d := MkView (slots v) d (owner v) (owned v) (takenAt v) (domains v).
Definition set_owned (v : NodeView) o := MkView (slots v) (debit v) (owner v) o (takenAt v) (domains v).
Definition set_domains (v : NodeView) d := MkView (slots v) (debit v) (owner v) (owned v) (takenAt v) d.

Definition slot_of_node (e : string * NodeGPU) : nodeSlot :=
  let '(name, n) := e in
  MkSlot name (node_Accelerator n) (node_Capacity n) (node_Used n) (node_Unschedulable n)
    (node_Taints n) (node_Labels n) (node_LWSGroup n).

(** The nodes in name order. *)
Definition newNodeViewAt (snap : option (gmap string NodeGPU)) (at_ : Z) : option NodeView :=
  snap ← snap;
  Some (MkView
    (omap (λ name, (λ n, slot_of_node (name, n)) <$> snap !! name)
       (sort_strings (map_to_list snap).*1))
    ∅ "" (Some ∅) at_ ∅).

Definition PhysicalLimiterName : string := "gpu-limiter".

Definition PhysicalBounds (constraints : list (option ResourceConstraints)) : bool :=
  existsb (λ c, match c with
                | Some c => String.eqb (ProviderName c) PhysicalLimiterName
                | None => false
                end) constraints.

(** *** Debits and owners *)
Definition debit_at (v : NodeView) (i : nat) : Z := default 0%Z (debit v !! i).

Definition free (v : NodeView) (i : nat) : Z :=
  match slots v !! i with
  | Some n => Z.max 0 ((capacity n ⊟ used n) ⊟ debit_at v i)
  | None => 0%Z
  end.

Definition label_of (v : NodeView) (i : nat) (key : string) : string :=
  match slots v !! i with Some n => default "" (labels n !! key) | None => "" end.

Definition record (v : NodeView) (i : nat) (g : Z) : NodeView :=
  match owned v with
  | None => v
  | Some m =>
      let perNode := default ∅ (m !! owner v) in
      set_owned v (Some (<[owner v := <[i := default 0%Z (perNode !! i) ⊞ g]> perNode]> m))
  end.

Definition charge (v : NodeView) (i : nat) (g : Z) : NodeView :=
  record (set_debit v (<[i := debit_at v i ⊞ g]> (debit v))) i g.

Definition setOwner (v : NodeView) (o : string) : NodeView :=
  MkView (slots v) (debit v) o (owned v) (takenAt v) (domains v).

Definition domainID (key d : string) : string := key +:+ String Ascii.zero d.

Definition takeDomain (v : NodeView) (id : string) : NodeView :=
  set_domains v (<[id := owner v]> (domains v)).

(** A clone keeps no owners. *)
Definition Clone (v : NodeView) : NodeView :=
  MkView (slots v) (debit v) "" None (takenAt v) (domains v).

(** The two loops of [adopt]. *)
Definition adopt_debit (v : NodeView) (e : nat * Z) : NodeView :=
  let d := e.2 ⊟ debit_at v e.1 in
  if (d =? 0)%Z then v else record v e.1 d.

Definition adopt_domain (v : NodeView) (id : string) : NodeView :=
  if bool_decide (is_Some (domains v !! id)) then v else takeDomain v id.

Definition adopt (v c : NodeView) : NodeView :=
  let v := match owned v with
           | Some _ => foldl adopt_debit v (map_to_list (debit c))
           | None => v
           end in
  foldl adopt_domain (set_debit v (debit c)) (map_to_list (domains c)).*1.

Definition debits_add (v : NodeView) (out : gmap string Z) (e : nat * Z) : gmap string Z :=
  match slots v !! e.1 with
  | Some n => <[slot_name n := default 0%Z (out !! slot_name n) ⊞ e.2]> out
  | None => out
  end.

Definition DebitsExcept (v : option NodeView) (exclude : string → bool) : option (gmap string Z) :=
  v ← v;
  Some (foldl (λ out (o : string * gmap nat Z),
                 if exclude o.1 then out else foldl (debits_add v) out (map_to_list o.2))
          ∅ (map_to_list (default ∅ (owned v)))).

(** [c.debit[i] -= g], dropped at 0. *)
Definition take_back (d : gmap nat Z) (e : nat * Z) : gmap nat Z :=
  let left := default 0%Z (d !! e.1) ⊟ e.2 in
  if (left <=? 0)%Z then delete e.1 d else <[e.1 := left]> d.

Definition without (v : option NodeView) (exclude : string → bool) : option NodeView :=
  v ← v;
  let c := Clone v in
  let d := foldl (λ d (o : string * gmap nat Z),
                    if exclude o.1 then foldl take_back d (map_to_list o.2) else d)
             (debit c) (map_to_list (default ∅ (owned v))) in
  Some (set_domains (set_debit c d)
          (filter (λ e : string * string, exclude e.2 = false) (domains c))).

(** *** Eligible nodes *)
Definition on_slot (v : NodeView) (f : nodeSlot → bool) (i : nat) : bool :=
  match slots v !! i with Some n => f n | None => false end.

Section eligibility.
Context `{TaintMatcher}.

Definition eligibleNode (n : nodeSlot) (acc : string) (tolerations : list Toleration)
    (anyTaint : bool) : bool :=
  if unschedulable n then false
  else if IsAcceleratorResolved acc && negb (SameName (slot_accelerator n) acc) then false
  else if anyTaint then true
  else forallb (λ t, existsb (λ tol, ToleratesTaint tol t) tolerations) (taints n).

Definition NodeAdmits (n : NodeGPU) (acc : string) (tolerations : list Toleration) : bool :=
  eligibleNode (MkSlot "" (node_Accelerator n) 0 0 (node_Unschedulable n) (node_Taints n) ∅ false)
    acc tolerations false.

Definition eligible (v : NodeView) (acc : string) (tolerations : list Toleration)
    (anyTaint : bool) : list nat :=
  filter (λ i, on_slot v (λ n, eligibleNode n acc tolerations anyTaint) i = true)
    (seq 0 (length (slots v))).

Definition toleration_key (t : Toleration) : string :=
  String Ascii.zero (tol_Key t +:+ String Ascii.one (tol_Operator t +:+ String Ascii.one
    (tol_Value t +:+ String Ascii.one (tol_Effect t)))).

Definition eligibleKey (acc : string) (tolerations : list Toleration) (anyTaint : bool) : string :=
  if anyTaint then acc +:+ String Ascii.zero "*"
  else foldl (λ b t, b +:+ toleration_key t) acc tolerations.

(** [eligible] through the shared memo. *)
Definition eligible_cached (cache : gmap string (list nat)) (v : NodeView) (acc : string)
    (tolerations : list Toleration) (anyTaint : bool) : list nat * gmap string (list nat) :=
  let key := eligibleKey acc tolerations anyTaint in
  match cache !! key with
  | Some nodes => (nodes, cache)
  | None =>
      let nodes := eligible v acc tolerations anyTaint in
      (nodes, <[key := nodes]> cache)
  end.

Definition largest (v : NodeView) (acc : string) : Z :=
  foldl (λ most i, match slots v !! i with
                   | Some n => Z.max most (capacity n)
                   | None => most
                   end) 0%Z (eligible v acc [] true).

(** *** Pod templates *)
Definition requirementHolds (r : NodeSelectorRequirement) (ls : gmap string string) : bool :=
  let val := ls !! req_Key r in
  let is_in := match val with
               | Some x => bool_decide (x ∈ req_Values r)
               | None => bool_decide ("" ∈ req_Values r)
               end in
  let has := bool_decide (is_Some val) in
  let op := req_Operator r in
  if String.eqb op "In" then has && is_in
  else if String.eqb op "NotIn" then negb has || negb is_in
  else if String.eqb op "Exists" then has
  else if String.eqb op "DoesNotExist" then negb has
  else if String.eqb op "Gt" || String.eqb op "Lt" then
    match req_Values r, val with
    | [w], Some x =>
        match ParseInt w, ParseInt x with
        | Some want, Some got =>
            if String.eqb op "Gt" then (want <? got)%Z else (got <? want)%Z
        | _, _ => false
        end
    | _, _ => false
    end
  else false.

Definition termAdmits (reqs : list NodeSelectorRequirement) (ls : gmap string string) : bool :=
  forallb (λ r, requirementHolds r ls) reqs.

Definition labels_match (want ls : gmap string string) : bool :=
  forallb (λ e : string * string, bool_decide (ls !! e.1 = Some e.2)) (map_to_list want).

Definition templateAdmits (p : PodPlacement) (ls : gmap string string) : bool :=
  if negb (labels_match (NodeSelector p) ls) then false
  else match RequiredNodeAffinity p with
       | None | Some [] => true
       | Some terms =>
           existsb (λ term, match MatchExpressions term, MatchFields term with
                            | [], [] => false
                            | es, _ => termAdmits es ls
                            end) terms
       end.

Definition admitsPlacement (n : nodeSlot) (templates : list PodPlacement)
    (flavorLabels : gmap string string) : bool :=
  forallb (λ p, templateAdmits p (labels n)) templates && labels_match flavorLabels (labels n).

(** *** Replicas *)
Record ReplicaShape := MkShape {
  Variant : string; shape_Accelerator : string; PodGPUs : list Z; GPUs : Z;
  Tolerations : list Toleration; DomainKey : string;
  Placements : list PodPlacement; Flavor : option FlavorPlacement }.

Record replicaFit := MkFit {
  acc : string; pods : list Z; tolerations : list Toleration; domain : string;
  templates : list PodPlacement; flavor : option FlavorPlacement }.

Record podFit := MkPodFit { pod_gpus : Z; pod_nodes : list nat }.

Definition podTemplates (r : replicaFit) (i : nat) : list PodPlacement :=
  match templates r with
  | [] => []
  | [t] => [t]
  | [leader; workers] =>
      if (1 <? length (pods r))%nat then (if (i =? 0)%nat then [leader] else [workers]) else []
  | _ => []
  end.

Definition eligibleFor (v : NodeView) (r : replicaFit) (ts : list PodPlacement) : list nat :=
  match ts, flavor r with
  | [], None => eligible v (acc r) (tolerations r) false
  | _, _ =>
      let tols := tolerations r ++ match flavor r with
                                   | Some f => flavor_Tolerations f
                                   | None => []
                                   end in
      let ls := match flavor r with Some f => NodeLabels f | None => ∅ end in
      filter (λ i, on_slot v (λ n, admitsPlacement n ts ls) i = true)
        (eligible v (acc r) tols false)
  end.

Definition eligibleFit (v : NodeView) (r : replicaFit) : list nat :=
  match templates r with
  | _ :: _ :: _ => eligibleFor v r []
  | ts => eligibleFor v r ts
  end.

(** Largest pod first, the leader first on a tie. *)
Definition pod_before (a b : podFit) : bool := (pod_gpus b <=? pod_gpus a)%Z.

Definition podFits (v : NodeView) (r : replicaFit) : list podFit :=
  sort_stable pod_before
    (omap (λ e : nat * Z, let '(i, g) := e in
             if (0 <? g)%Z then Some (MkPodFit g (eligibleFor v r (podTemplates r i))) else None)
       (imap pair (pods r))).

Definition replicaPods (v : option NodeView) (a : string) (podGPUs : list Z)
    (gpusPerReplica : Z) : list Z :=
  let sum := foldl (λ s g, s ⊞ g) 0%Z podGPUs in
  if negb (bool_decide (podGPUs = [])) && (sum =? gpusPerReplica)%Z then podGPUs
  else match v with
       | Some v => if (largest v a <? gpusPerReplica)%Z then [] else [gpusPerReplica]
       | None => [gpusPerReplica]
       end.

Definition fitOf (v : NodeView) (s : ReplicaShape) : replicaFit :=
  MkFit (shape_Accelerator s)
    (replicaPods (Some v) (shape_Accelerator s) (PodGPUs s) (GPUs s))
    (Tolerations s) (DomainKey s) (Placements s) (Flavor s).

(** *** Placement *)
Definition domainsOf (v : NodeView) (nodes : list nat) (key : string) : list string :=
  sort_strings (foldl (λ out i,
      let d := label_of v i key in
      if negb (String.eqb d "") && negb (bool_decide (d ∈ out)) then out ++ [d] else out)
    [] nodes).

Definition groupedDomains (v : NodeView) (key : string) : gmap string bool :=
  foldl (λ g n, let d := default "" (labels n !! key) in
                if group n && negb (String.eqb d "") then <[d := true]> g else g)
    ∅ (slots v).

Definition domainTaken (v : NodeView) (key d : string) : bool :=
  if bool_decide (is_Some (domains v !! domainID key d)) then true
  else default false (groupedDomains v key !! d).

Definition slotOf (v : NodeView) (name : string) : option nat :=
  foldl (λ found e, if String.eqb (slot_name e.2) name then Some e.1 else found)
    None (imap pair (slots v)).

(** The smallest hole that holds [need], among the nodes of the domain; the
    search stops at an exact fit. *)
Fixpoint best_node (v : NodeView) (taken : gmap nat Z) (need : Z) (key dom : string)
    (nodes : list nat) (best : option (nat * Z)) : option (nat * Z) :=
  match nodes with
  | [] => best
  | i :: nodes =>
      if negb (String.eqb dom "") && negb (String.eqb (label_of v i key) dom)
      then best_node v taken need key dom nodes best
      else
        let f := free v i ⊟ default 0%Z (taken !! i) in
        if (f <? need)%Z || match best with Some (_, bf) => (bf <=? f)%Z | None => false end
        then best_node v taken need key dom nodes best
        else if (f =? need)%Z then Some (i, f)
        else best_node v taken need key dom nodes (Some (i, f))
  end.

Fixpoint bestFit (v : NodeView) (ps : list podFit) (key dom : string) (taken : gmap nat Z)
  : option (gmap nat Z) :=
  match ps with
  | [] => Some taken
  | p :: ps =>
      '(best, _) ← best_node v taken (pod_gpus p) key dom (pod_nodes p) None;
      bestFit v ps key dom (<[best := default 0%Z (taken !! best) ⊞ pod_gpus p]> taken)
  end.

(** [for _, i := range slices.Sorted(maps.Keys(taken))] *)
Definition charge_all (v : NodeView) (taken : gmap nat Z) : NodeView :=
  foldl (λ v i, charge v i (default 0%Z (taken !! i))) v (merge_sort le (map_to_list taken).*1).

(** The loop over the domains; [None] when no domain holds the replica. *)
Fixpoint place_domains (v : NodeView) (ps : list podFit) (key : string) (exclusive : bool)
    (ds : list string) : option NodeView :=
  match ds with
  | [] => None
  | d :: ds =>
      if exclusive && domainTaken v key d then place_domains v ps key exclusive ds
      else match bestFit v ps key d ∅ with
           | None => place_domains v ps key exclusive ds
           | Some taken =>
               let v := charge_all v taken in
               Some (if exclusive then takeDomain v (domainID key d) else v)
           end
  end.

Definition place_opt (v : NodeView) (r : replicaFit) : option NodeView :=
  let ps := podFits v r in
  match ps with
  | [] => Some v
  | _ =>
      let exclusive := negb (String.eqb (domain r) "") && (1 <? length ps)%nat in
      let ds := if exclusive then domainsOf v (mjoin (pod_nodes <$> ps)) (domain r) else [""] in
      place_domains v ps (domain r) exclusive ds
  end.

(** [place]: whether the replica fits, and the view after it. *)
Definition place (v : NodeView) (r : replicaFit) : bool * NodeView :=
  match place_opt v r with Some v' => (true, v') | None => (false, v) end.

Fixpoint place_shapes (trial : NodeView) (reps : list ReplicaShape) : option NodeView :=
  match reps with
  | [] => Some trial
  | r :: reps =>
      match place trial (fitOf trial r) with
      | (true, trial) => place_shapes trial reps
      | (false, _) => None
      end
  end.

Definition PlaceReplicas (v : option NodeView) (reps : list ReplicaShape) (commit : bool)
  : bool * option NodeView :=
  match v with
  | None => (true, None)
  | Some v0 =>
      match place_shapes (Clone v0) reps with
      | None => (false, v)
      | Some trial => (true, Some (if commit then adopt v0 trial else v0))
      end
  end.

Fixpoint fits_loop (trial : NodeView) (r : replicaFit) (n : nat) (i : Z) : Z :=
  match n with
  | O => i
  | S n => match place trial r with
           | (true, trial) => fits_loop trial r n (i ⊞ 1)
           | (false, _) => i
           end
  end.

(** Whole pods per node, summed, up to [n]. *)
Fixpoint fits_sum (v : NodeView) (need n : Z) (nodes : list nat) (count : Z) : Z :=
  match nodes with
  | [] => count
  | i :: nodes =>
      let count := count ⊞ Z.quot (free v i) need in
      if (n <=? count)%Z then n else fits_sum v need n nodes count
  end.

Definition fits (v : option NodeView) (r : replicaFit) (n : Z) : Z :=
  match v with
  | None => n
  | Some v =>
      if (n <=? 0)%Z then n
      else match pods r with
           | [need] =>
               if (need <=? 0)%Z then n
               else fits_sum v need n (eligibleFor v r (podTemplates r 0)) 0%Z
           | _ => fits_loop (Clone v) r (Z.to_nat n) 0%Z
           end
  end.

(** *** Reservations *)

(** The eligible node with the most free, the first on a tie. *)
Definition most_free (v : NodeView) (nodes : list nat) : option (nat * Z) :=
  foldl (λ most i,
           let f := free v i in
           if (match most with Some (_, mf) => mf | None => 0%Z end <? f)%Z then Some (i, f)
           else most) None nodes.

Fixpoint reserve_loop (fuel : nat) (v : NodeView) (nodes : list nat) (gpus : Z) : NodeView :=
  match fuel with
  | O => v
  | S fuel =>
      if (gpus <=? 0)%Z then v
      else match most_free v nodes with
           | None => v
           | Some (most, mostFree) =>
               let take := Z.min mostFree gpus in
               reserve_loop fuel (charge v most take) nodes (gpus ⊟ take)
           end
  end.

(** Each turn empties a node or ends the loop: one turn per eligible node and
    one more are enough. *)
Definition Reserve (v : option NodeView) (o a : string) (gpus : Z) : option NodeView :=
  match v with
  | None => None
  | Some v =>
      if (gpus <=? 0)%Z then Some v
      else
        let nodes := eligible v a [] true in
        let v' := reserve_loop (S (length nodes)) (setOwner v o) nodes gpus in
        Some (setOwner v' (owner v))
  end.

Definition PromisedOwner : string := "promised".

Definition ReservePromised (v : option NodeView) (promised : gmap string (gmap string Z))
  : option NodeView :=
  foldl (λ v scope,
      let accs := default ∅ (promised !! scope) in
      foldl (λ v a, Reserve v PromisedOwner a (default 0%Z (accs !! a))) v
        (sort_strings (map_to_list accs).*1))
    v (sort_strings (map_to_list promised).*1).

Definition Holes (v : option NodeView) : option (gmap string (list Z)) :=
  v ← v;
  Some (foldl (λ out e, let '(i, n) := e in
      if unschedulable n then out
      else
        let h := default [] (out !! slot_accelerator n) in
        let f := free v i in
        <[slot_accelerator n := if (0 <? f)%Z then h ++ [f] else h]> out)
    ∅ (imap pair (slots v))).

(** *** Growth Kueue reclaims *)
Record Reclaim := MkReclaim { After : Z; Kept : Z; rec_GPUs : Z; needsHole : bool }.

Definition RequireHoles (reclaimable : gmap string Reclaim) : gmap string Reclaim :=
  (λ r, MkReclaim (After r) (Kept r) (rec_GPUs r) true) <$> reclaimable.

Definition rec_pool (r : Reclaim) : Z := Z.max 0 (After r ⊟ Z.max 0 (Kept r)).

Definition rec_sub (r o : Reclaim) : Reclaim :=
  let after := Z.max 0 (After r ⊟ After o) in
  MkReclaim after (Z.min after (Z.max 0 (Kept r ⊟ Kept o)))
    (Z.max 0 (rec_GPUs r ⊟ rec_GPUs o)) (needsHole r).

Definition rec_add (r o : Reclaim) : Reclaim :=
  MkReclaim (After r ⊞ After o) (Kept r ⊞ Kept o) (rec_GPUs r ⊞ rec_GPUs o) false.

Definition rec_atMost (r o : Reclaim) : Reclaim :=
  MkReclaim (Z.min (After r) (After o)) (Z.min (Kept r) (Kept o))
    (Z.min (rec_GPUs r) (rec_GPUs o)) false.

Definition rec_exempt (r : Reclaim) (g : Z) : bool :=
  negb (needsHole r) && (After r <=? 0)%Z && (g <=? rec_GPUs r)%Z.

Definition rec_take (r : Reclaim) (g : Z) : Reclaim :=
  let after := Z.min g (Z.max 0 (After r)) in
  MkReclaim after (Z.min after (Z.max 0 (Kept r))) (Z.min (g ⊟ after) (Z.max 0 (rec_GPUs r))) false.

Definition zero_reclaim : Reclaim := MkReclaim 0 0 0 false.

(** The loop of [PlaceReplicasReclaiming]: the trial view, what is left and what
    was taken of each type. *)
Fixpoint place_reclaiming (trial : NodeView) (left took : gmap string Reclaim)
    (reps : list ReplicaShape) : option (NodeView * gmap string Reclaim) :=
  match reps with
  | [] => Some (trial, took)
  | r :: reps =>
      let '(onNode, trial) := place trial (fitOf trial r) in
      match FindKey left (shape_Accelerator r) with
      | None => if onNode then place_reclaiming trial left took reps else None
      | Some k =>
          let lk := default zero_reclaim (left !! k) in
          let g := Z.max (GPUs r) 1 in
          if negb onNode && negb (rec_exempt lk g) then None
          else
            let t := rec_take lk g in
            place_reclaiming trial (<[k := rec_sub lk t]> left)
              (<[k := rec_add (default zero_reclaim (took !! k)) t]> took) reps
      end
  end.

Definition PlaceReplicasReclaiming (v : option NodeView) (reps : list ReplicaShape)
    (commit : bool) (reclaimable : gmap string Reclaim)
  : bool * gmap string Reclaim * option NodeView :=
  match v with
  | None => (true, ∅, None)
  | Some v0 =>
      match place_reclaiming (Clone v0) reclaimable ∅ reps with
      | None => (false, ∅, v)
      | Some (trial, took) => (true, took, Some (if commit then adopt v0 trial else v0))
      end
  end.
End eligibility.

(** *** Rolling a tentative placement back *)
Record viewDebits := MkDebits {
  saved_debit : gmap nat Z; saved_owned : option (gmap string (gmap nat Z)) }.

Definition saveDebits (v : NodeView) : viewDebits := MkDebits (debit v) (owned v).

Definition restoreDebits (v : NodeView) (s : viewDebits) : NodeView :=
  set_owned (set_debit v (saved_debit s)) (saved_owned s).

(** ** The invariant: no node is overcommitted and owners account for debits *)
Definition slot_cap (n : nodeSlot) : Z := Z.max 0 (capacity n - used n).

Definition slot_ok (n : nodeSlot) : Prop :=
  (0 ≤ capacity n ≤ int_max ∧ 0 ≤ used n ≤ int_max)%Z.

Definition owned_at (o : string * gmap nat Z) (i : nat) : Z := default 0%Z (o.2 !! i).

Definition owned_sum (m : gmap string (gmap nat Z)) (i : nat) : Z :=
  sumZ (λ o, owned_at o i) (map_to_list m).

Record wf (v : NodeView) : Prop := {
  wf_slots : ∀ i n, slots v !! i = Some n → slot_ok n;
  wf_debit : ∀ i d, debit v !! i = Some d →
               ∃ n, slots v !! i = Some n ∧ (0 < d ≤ slot_cap n)%Z;
  wf_pos : ∀ m o pn i g, owned v = Some m → m !! o = Some pn → pn !! i = Some g → (0 ≤ g)%Z;
  wf_owned : ∀ m i, owned v = Some m → owned_sum m i = debit_at v i }.

Lemma wf_debit_at v i :
  wf v → (0 ≤ debit_at v i ≤ match slots v !! i with Some n => slot_cap n | None => 0 end)%Z.
Proof.
  intros Hw. unfold debit_at. destruct (debit v !! i) as [d|] eqn:E; simpl.
  - destruct (wf_debit _ Hw _ _ E) as (n & -> & H). lia.
  - destruct (slots v !! i) as [n|]; unfold slot_cap; lia.
Qed.

Lemma slot_cap_int n : slot_ok n → (0 ≤ slot_cap n ≤ int_max)%Z.
Proof. unfold slot_ok, slot_cap. lia. Qed.

(** What is free is what the node has and nobody holds. *)
Lemma free_wf v i n :
  wf v → slots v !! i = Some n → free v i = (slot_cap n - debit_at v i)%Z.
Proof.
  intros Hw Hn. pose proof (wf_debit_at v i Hw) as Hd. pose proof (wf_slots _ Hw _ _ Hn) as Hs.
  unfold free. rewrite Hn in *. unfold slot_cap, slot_ok in *.
  rewrite (wrap_id (capacity n - used n)) by int_lia. int_lia.
Qed.

Lemma free_nonneg v i : (0 ≤ free v i)%Z.
Proof. unfold free. destruct (slots v !! i); lia. Qed.

Lemma free_le_int v i : wf v → (free v i ≤ int_max)%Z.
Proof.
  intros Hw. destruct (slots v !! i) as [n|] eqn:Hn.
  - rewrite (free_wf v i n) by done. pose proof (wf_debit_at v i Hw).
    pose proof (slot_cap_int n (wf_slots _ Hw _ _ Hn)). lia.
  - unfold free. rewrite Hn. unfold int_max. lia.
Qed.

Lemma owned_at_nonneg v m o i :
  wf v → owned v = Some m → o ∈ map_to_list m → (0 ≤ owned_at o i)%Z.
Proof.
  intros Hw Hm Ho. destruct o as [o pn]. apply elem_of_map_to_list in Ho.
  unfold owned_at. simpl. destruct (pn !! i) eqn:E; simpl; [|done]. by eapply wf_pos.
Qed.

Lemma owned_le_debit v m o i :
  wf v → owned v = Some m → (0 ≤ default 0 (default ∅ (m !! o) !! i) ≤ debit_at v i)%Z.
Proof.
  intros Hw Hm. rewrite <- (wf_owned _ Hw m i Hm). unfold owned_sum.
  assert (Hnn : ∀ b, b ∈ map_to_list m → (0 ≤ owned_at b i)%Z)
    by (intros; by eapply owned_at_nonneg).
  destruct (m !! o) as [pn|] eqn:Ho; simpl.
  - assert (Hin : (o, pn) ∈ map_to_list m) by (by apply elem_of_map_to_list).
    pose proof (sumZ_elem_le _ _ _ Hnn Hin) as Hle.
    pose proof (Hnn _ Hin). unfold owned_at in *. simpl in *. lia.
  - rewrite lookup_empty. simpl. split; [done|]. by apply sumZ_nonneg.
Qed.

Lemma owned_sum_insert m o pn i :
  owned_sum (<[o := pn]> m) i =
  (owned_sum m i - default 0 (default ∅ (m !! o) !! i) + default 0 (pn !! i))%Z.
Proof.
  unfold owned_sum. rewrite sumZ_insert. unfold owned_at. simpl.
  destruct (m !! o); simpl; [done|]. rewrite lookup_empty. done.
Qed.

(** [record] moves only the owner's account, by exactly [g]. *)
Lemma record_owned v m i g :
  owned v = Some m →
  in_int (default 0%Z (default ∅ (m !! owner v) !! i) + g)%Z →
  ∃ m', record v i g = set_owned v (Some m') ∧
    (∀ j, owned_sum m' j = (owned_sum m j + if decide (j = i) then g else 0)%Z) ∧
    (∀ o, o ≠ owner v → m' !! o = m !! o) ∧
    (∀ o j, default 0%Z (default ∅ (m' !! o) !! j) =
       (default 0 (default ∅ (m !! o) !! j)
        + if decide (o = owner v ∧ j = i) then g else 0)%Z).
Proof.
  intros Hm Hi. unfold record. rewrite Hm. eexists. split; [done|]. split_and!.
  - intros j. rewrite owned_sum_insert. case_decide as Hj.
    + subst j. rewrite lookup_insert_eq. simpl. rewrite wrap_id by done. lia.
    + rewrite lookup_insert_ne by done. lia.
  - intros o Ho. by rewrite lookup_insert_ne.
  - intros o j. destruct (decide (o = owner v)) as [->|Ho].
    + rewrite lookup_insert_eq. simpl. destruct (decide (j = i)) as [->|Hj].
      * rewrite lookup_insert_eq, decide_True by done. simpl. by rewrite wrap_id.
      * rewrite lookup_insert_ne, decide_False by naive_solver. lia.
    + rewrite lookup_insert_ne, decide_False by naive_solver. lia.
Qed.

Lemma record_pos v m' i g o pn j x :
  (∀ o j, (0 ≤ default 0 (default ∅ (m' !! o) !! j))%Z) →
  owned (record v i g) = Some m' → m' !! o = Some pn → pn !! j = Some x → (0 ≤ x)%Z.
Proof. intros Hall _ Ho Hj. specialize (Hall o j). rewrite Ho in Hall. simpl in Hall. by rewrite Hj in Hall. Qed.

(** One charge within what is free keeps the invariant and adds exactly [g]. *)
Lemma charge_wf v i n g :
  wf v → slots v !! i = Some n → (0 < g ≤ free v i)%Z →
  wf (charge v i g) ∧
  (∀ j, debit_at (charge v i g) j = (debit_at v j + if decide (j = i) then g else 0)%Z).
Proof.
  intros Hw Hn Hg. rewrite (free_wf v i n) in Hg by done.
  pose proof (wf_debit_at v i Hw) as Hd. rewrite Hn in Hd.
  pose proof (slot_cap_int n (wf_slots _ Hw _ _ Hn)) as Hc.
  assert (Hwr : debit_at v i ⊞ g = (debit_at v i + g)%Z) by int_lia.
  set (v1 := set_debit v (<[i := debit_at v i ⊞ g]> (debit v))).
  assert (Hd1 : ∀ j, debit_at v1 j = (debit_at v j + if decide (j = i) then g else 0)%Z).
  { intros j. unfold v1, debit_at at 1. simpl. case_decide as Hj.
    - subst j. rewrite lookup_insert_eq. simpl. by rewrite Hwr.
    - rewrite lookup_insert_ne by done. fold (debit_at v j). lia. }
  assert (Hdeb : ∀ j d, debit v1 !! j = Some d → ∃ n, slots v1 !! j = Some n ∧ (0 < d ≤ slot_cap n)%Z).
  { intros j d. unfold v1. simpl. rewrite lookup_insert_Some. intros [[<- <-]|[_ Hj]].
    - exists n. split; [done|]. rewrite Hwr. lia.
    - by apply (wf_debit _ Hw). }
  unfold charge. fold v1. destruct (owned v) as [m|] eqn:Hm.
  - pose proof (owned_le_debit v m (owner v) i Hw Hm) as Ho.
    destruct (record_owned v1 m i g) as (m' & Hr & Hs & _ & Ha); [done|simpl; int_lia|].
    rewrite Hr. split; [|intros j; apply (Hd1 j)]. split.
    + intros j n' Hj. by apply (wf_slots _ Hw j).
    + exact Hdeb.
    + intros ? o pn j x [= <-] Ho' Hj.
      specialize (Ha o j). rewrite Ho' in Ha. simpl in Ha. rewrite Hj in Ha. simpl in Ha.
      rewrite Ha. pose proof (owned_le_debit v m o j Hw Hm). case_decide; lia.
    + intros ? j [= <-]. rewrite Hs. rewrite (wf_owned _ Hw m j Hm). change (debit_at (set_owned v1 (Some m')) j) with (debit_at v1 j).
      by rewrite Hd1.
  - assert (record v1 i g = v1) as -> by (unfold record, v1; simpl; by rewrite Hm).
    split; [|done]. split.
    + intros j n' Hj. by apply (wf_slots _ Hw j).
    + exact Hdeb.
    + unfold v1. simpl. intros m. congruence.
    + unfold v1. simpl. intros m. congruence.
Qed.

(** What a charge leaves alone. *)
Definition frame (v v' : NodeView) : Prop :=
  slots v' = slots v ∧ owner v' = owner v ∧ domains v' = domains v ∧ takenAt v' = takenAt v.

#[export] Instance frame_preorder : PreOrder frame.
Proof. unfold frame. split; [done|]. intros x y z; naive_solver congruence. Qed.

Lemma record_frame v i g : frame v (record v i g).
Proof. unfold record. by destruct (owned v). Qed.

Lemma charge_frame v i g : frame v (charge v i g).
Proof. unfold charge. etrans; [|apply record_frame]. done. Qed.

(** ** Best fit *)
Definition taken_at (taken : gmap nat Z) (i : nat) : Z := default 0%Z (taken !! i).

Definition avail (v : NodeView) (taken : gmap nat Z) (i : nat) : Z :=
  free v i ⊟ taken_at taken i.

Definition in_domain (v : NodeView) (key dom : string) (i : nat) : Prop :=
  dom = "" ∨ label_of v i key = dom.

Lemma other_domain v key dom i :
  if negb (String.eqb dom "") && negb (String.eqb (label_of v i key) dom)
  then ¬ in_domain v key dom i else in_domain v key dom i.
Proof.
  unfold in_domain. destruct (String.eqb_spec dom ""), (String.eqb_spec (label_of v i key) dom); cbn; tauto.
Qed.

Lemma best_node_spec v taken need key dom nodes best :
  (∀ i f, best = Some (i, f) → f = avail v taken i ∧ (need ≤ f)%Z) →
  match best_node v taken need key dom nodes best with
  | None => best = None ∧
      ∀ j, j ∈ nodes → in_domain v key dom j → (avail v taken j < need)%Z
  | Some (i, f) =>
      ((i ∈ nodes ∧ in_domain v key dom i) ∨ best = Some (i, f)) ∧
      f = avail v taken i ∧ (need ≤ f)%Z ∧
      (∀ j, j ∈ nodes → in_domain v key dom j → (need ≤ avail v taken j → f ≤ avail v taken j)%Z) ∧
      (∀ b bf, best = Some (b, bf) → (f ≤ bf)%Z)
  end.
Proof.
  revert best. induction nodes as [|i nodes IH]; intros best Hb; cbn [best_node].
  { destruct best as [[i f]|].
    - destruct (Hb i f eq_refl) as [-> Hle]. split_and!; auto.
      + intros j []%not_elem_of_nil.
      + intros b bf [= <- <-]. lia.
    - split; [done|]. intros j []%not_elem_of_nil. }
  pose proof (other_domain v key dom i) as Hid.
  destruct (negb (String.eqb dom "") && negb (String.eqb (label_of v i key) dom)).
  { specialize (IH best Hb).
    destruct (best_node v taken need key dom nodes best) as [[k f]|].
    - destruct IH as (H1 & H2 & H3 & H4 & H5). split_and!; auto.
      + destruct H1 as [[? ?]|?]; [left; split; [by constructor|done]|by right].
      + intros j [->|Hj]%elem_of_cons; [done|auto].
    - destruct IH as [H1 H2]. split; [done|]. intros j [->|Hj]%elem_of_cons; [done|auto]. }
  fold (taken_at taken i). fold (avail v taken i). set (f := avail v taken i) in *.
  destruct ((f <? need)%Z || match best with Some (_, bf) => (bf <=? f)%Z | None => false end) eqn:Hs.
  { specialize (IH best Hb).
    destruct (best_node v taken need key dom nodes best) as [[k g]|].
    - destruct IH as (H1 & H2 & H3 & H4 & H5). split_and!; auto.
      + destruct H1 as [[? ?]|?]; [left; split; [by constructor|done]|by right].
      + intros j [->|Hj]%elem_of_cons; [|by auto]. intros _ Hn. fold f.
        apply orb_true_iff in Hs as [Hs|Hs]; [lia|].
        destruct best as [[b bf]|]; [|done]. specialize (H5 b bf eq_refl). lia.
    - destruct IH as [H1 H2]. split; [done|]. subst best.
      intros j [->|Hj]%elem_of_cons; [|auto]. intros _. fold f. lia. }
  apply orb_false_iff in Hs as [Hs1 Hs2].
  destruct (Z.eqb_spec f need) as [He|He].
  { split_and!; [left; split; [constructor|done]|done|lia|intros j _ _; lia|intros b bf ->; lia]. }
  specialize (IH (Some (i, f))).
  destruct (best_node v taken need key dom nodes (Some (i, f))) as [[k g]|].
  - destruct IH as (H1 & H2 & H3 & H4 & H5).
    { intros ? ? [= <- <-]. split; [done|lia]. }
    specialize (H5 i f eq_refl). split_and!; auto.
    + left. destruct H1 as [[? ?]|[= -> ->]]; [split; [by constructor|done]|].
      split; [constructor|done].
    + intros j [->|Hj]%elem_of_cons; [|by auto]. fold f. lia.
    + intros b bf ->. lia.
  - destruct IH as [H1 H2]; [|done]. intros ? ? [= <- <-]. split; [done|lia].
Qed.

(** The GPUs an assignment of pods to nodes puts on node [i]. *)
Definition pod_load (ps : list podFit) (assign : list nat) (i : nat) : Z :=
  sumZ (λ e : podFit * nat, if decide (e.2 = i) then pod_gpus e.1 else 0%Z) (zip ps assign).

Definition assignable (v : NodeView) (key dom : string) (p : podFit) (i : nat) : Prop :=
  i ∈ pod_nodes p ∧ in_domain v key dom i.

Lemma avail_eq v taken i :
  wf v → (0 ≤ taken_at taken i ≤ free v i)%Z →
  avail v taken i = (free v i - taken_at taken i)%Z.
Proof. intros Hw H. pose proof (free_le_int v i Hw). unfold avail. int_lia. Qed.

Lemma bestFit_spec v ps key dom taken taken' :
  wf v → Forall (λ p, 0 < pod_gpus p)%Z ps →
  (∀ i g, taken !! i = Some g → (0 < g ≤ free v i)%Z) →
  bestFit v ps key dom taken = Some taken' →
  ∃ assign, Forall2 (assignable v key dom) ps assign ∧
    (∀ i, taken_at taken' i = (taken_at taken i + pod_load ps assign i)%Z) ∧
    (∀ i g, taken' !! i = Some g → (0 < g ≤ free v i)%Z).
Proof.
  intros Hw Hp. revert taken. induction Hp as [|p ps Hp _ IH]; intros taken Ht; cbn [bestFit].
  { intros [= <-]. exists []. split_and!; [constructor| |done].
    intros i. unfold pod_load. simpl. unfold sumZ. simpl. lia. }
  assert (Ht0 : ∀ i, (0 ≤ taken_at taken i ≤ free v i)%Z).
  { intros i. unfold taken_at. destruct (taken !! i) eqn:E; simpl.
    - specialize (Ht _ _ E). lia.
    - split; [done|apply free_nonneg]. }
  pose proof (best_node_spec v taken (pod_gpus p) key dom (pod_nodes p) None) as Hb.
  destruct (best_node v taken (pod_gpus p) key dom (pod_nodes p) None) as [[i f]|]; [|done].
  destruct Hb as ([Hin|?] & -> & Hle & _ & _); [done| |done]. simpl.
  rewrite avail_eq in Hle by auto. fold (taken_at taken i).
  pose proof (free_le_int v i Hw) as Hfi. pose proof (Ht0 i) as Hti.
  assert (Hwr : taken_at taken i ⊞ pod_gpus p = (taken_at taken i + pod_gpus p)%Z) by int_lia.
  rewrite Hwr. intros Hbf.
  assert (Ht' : ∀ j g, <[i := (taken_at taken i + pod_gpus p)%Z]> taken !! j = Some g →
                 (0 < g ≤ free v j)%Z).
  { intros j g [[<- <-]|[_ Hj]]%lookup_insert_Some; [lia|by apply Ht]. }
  destruct (IH _ Ht' Hbf) as (assign & Ha & Hl & Hpos).
  exists (i :: assign). split_and!; [by constructor| |done].
  intros j. rewrite Hl. unfold pod_load. cbn [zip zip_with]. rewrite sumZ_cons. simpl.
  unfold taken_at at 1. destruct (decide (i = j)) as [->|Hne].
  - rewrite lookup_insert_eq. simpl. lia.
  - rewrite lookup_insert_ne by done. fold (taken_at taken j). lia.
Qed.

(** Charging everything taken, in any order of distinct nodes. *)
Lemma charges_wf v taken l :
  wf v → NoDup l → (∀ i, i ∈ l → is_Some (slots v !! i) ∧ (0 < taken_at taken i ≤ free v i)%Z) →
  let v' := foldl (λ v i, charge v i (taken_at taken i)) v l in
  wf v' ∧ frame v v' ∧
  (∀ j, debit_at v' j = (debit_at v j + if decide (j ∈ l) then taken_at taken j else 0)%Z).
Proof.
  intros Hw Hn. revert v Hw. induction Hn as [|i l Hi Hn IH]; intros v Hw Ht; cbn [foldl].
  { split_and!; [done|reflexivity|]. intros j. rewrite decide_False by apply not_elem_of_nil. lia. }
  destruct (Ht i (list_elem_of_here _ _)) as [[n Hs] Hti].
  destruct (charge_wf v i n (taken_at taken i) Hw Hs Hti) as [Hw1 Hd1].
  destruct (charge_frame v i (taken_at taken i)) as (Hf1 & Hf2).
  destruct (IH (charge v i (taken_at taken i)) Hw1) as (Hw2 & Hf & Hd2).
  { intros j Hj. destruct (Ht j (list_elem_of_further _ _ _ Hj)) as [[m Hm] Htj].
    rewrite Hf1. split; [eauto|]. rewrite (free_wf v j m) in Htj by done.
    rewrite (free_wf _ j m) by (done || by rewrite Hf1). rewrite Hd1.
    rewrite decide_False by (intros ->; done). lia. }
  split_and!; [done|etrans; [apply charge_frame|done]|].
  intros j. rewrite Hd2, Hd1. repeat case_decide; subst; rewrite ?elem_of_cons in *; naive_solver lia.
Qed.

Lemma charge_all_wf v taken :
  wf v → (∀ i g, taken !! i = Some g → (0 < g ≤ free v i)%Z) →
  wf (charge_all v taken) ∧ frame v (charge_all v taken) ∧
  (∀ j, debit_at (charge_all v taken) j = (debit_at v j + taken_at taken j)%Z).
Proof.
  intros Hw Ht. unfold charge_all.
  assert (Hin : ∀ i, i ∈ merge_sort le (map_to_list taken).*1 ↔ is_Some (taken !! i)).
  { intros i. rewrite merge_sort_Permutation, list_elem_of_fmap. split.
    - intros ([? g] & -> & Hg%elem_of_map_to_list). eauto.
    - intros [g Hg]. exists (i, g). split; [done|]. by apply elem_of_map_to_list. }
  destruct (charges_wf v taken (merge_sort le (map_to_list taken).*1)) as (H1 & H2 & H3).
  - done.
  - rewrite merge_sort_Permutation. apply NoDup_fst_map_to_list.
  - intros i [g Hg]%Hin. unfold taken_at. rewrite Hg. simpl. specialize (Ht _ _ Hg).
    split; [|lia]. unfold free in Ht. destruct (slots v !! i); [eauto|lia].
  - split_and!; [done|done|]. intros j. rewrite H3. case_decide as Hj; [done|].
    rewrite Hin, <- eq_None_not_Some in Hj. unfold taken_at. by rewrite Hj.
Qed.

(** ** Placing one replica *)
Section placing.
Context `{TaintMatcher}.

Lemma podFits_perm v r :
  podFits v r ≡ₚ omap (λ e : nat * Z, let '(i, g) := e in
    if (0 <? g)%Z then Some (MkPodFit g (eligibleFor v r (podTemplates r i))) else None)
    (imap pair (pods r)).
Proof. apply sort_stable_perm. Qed.

(** Every pod fitted takes GPUs and carries the nodes it may land on. *)
Lemma podFits_elem v r p :
  p ∈ podFits v r →
  ∃ i g, pods r !! i = Some g ∧ (0 < g)%Z ∧
    p = MkPodFit g (eligibleFor v r (podTemplates r i)).
Proof.
  rewrite podFits_perm. intros ([i g] & Hi & Hp)%list_elem_of_omap.
  apply elem_of_lookup_imap in Hi as (j & x & [= <- <-] & Hx).
  destruct (Z.ltb_spec 0 g); [|done]. injection Hp as <-. eauto.
Qed.

Lemma podFits_pos v r : Forall (λ p, 0 < pod_gpus p)%Z (podFits v r).
Proof. apply Forall_forall. intros p (i & g & _ & Hg & ->)%podFits_elem. done. Qed.

Definition pods_total (r : replicaFit) : Z := sumZ (λ g, Z.max 0 g) (pods r).

Lemma podFits_total v r : sumZ pod_gpus (podFits v r) = pods_total r.
Proof.
  rewrite podFits_perm. unfold pods_total.
  assert (Hg : ∀ l k, sumZ pod_gpus (omap (λ e : nat * Z, let '(i, g) := e in
    if (0 <? g)%Z then Some (MkPodFit g (eligibleFor v r (podTemplates r i))) else None)
    (imap (λ i g, (k + i, g)) l)) = sumZ (λ g, Z.max 0 g) l).
  { induction l as [|g l IH]; intros k; [done|]. cbn [imap omap list_omap].
    rewrite sumZ_cons, <- (IH (S k)).
    rewrite (imap_ext _ (λ i g0, (S k + i, g0)) l) by (intros; simpl; f_equal; lia).
    destruct (Z.ltb_spec 0 g); [rewrite sumZ_cons; simpl|]; lia. }
  rewrite <- (Hg (pods r) 0). done.
Qed.

Lemma eligible_valid v a tols any i :
  i ∈ eligible v a tols any → is_Some (slots v !! i).
Proof.
  intros [Ho _]%list_elem_of_filter. unfold on_slot in Ho.
  destruct (slots v !! i); [eauto|done].
Qed.

Lemma eligibleFor_sub v r ts i :
  i ∈ eligibleFor v r ts →
  i ∈ eligible v (acc r)
        (tolerations r ++ match flavor r with Some f => flavor_Tolerations f | None => [] end) false.
Proof.
  unfold eligibleFor. destruct ts as [|t ts], (flavor r) as [f|] eqn:E; simpl;
    try (intros [_ ?]%list_elem_of_filter; done).
  by rewrite app_nil_r.
Qed.

Lemma place_domains_spec v ps key ex ds v' :
  place_domains v ps key ex ds = Some v' →
  ∃ d taken, d ∈ ds ∧ (ex = true → domainTaken v key d = false) ∧
    bestFit v ps key d ∅ = Some taken ∧
    v' = if ex then takeDomain (charge_all v taken) (domainID key d) else charge_all v taken.
Proof.
  induction ds as [|d ds IH]; cbn [place_domains]; [done|].
  destruct (ex && domainTaken v key d) eqn:E.
  { intros (d' & taken & Hd & Hr)%IH. exists d', taken. split; [by constructor|done]. }
  destruct (bestFit v ps key d ∅) as [taken|] eqn:Hb.
  - intros [= <-]. exists d, taken. split_and!; [constructor| |done|done].
    intros ->. by simpl in E.
  - intros (d' & taken & Hd & Hr)%IH. exists d', taken. split; [by constructor|done].
Qed.

Lemma domainsOf_nonempty v nodes key d : d ∈ domainsOf v nodes key → d ≠ "".
Proof.
  unfold domainsOf. rewrite sort_strings_perm.
  assert (Hg : ∀ out, (∀ x, x ∈ out → x ≠ "") → ∀ x,
    x ∈ foldl (λ out i, let d := label_of v i key in
      if negb (String.eqb d "") && negb (bool_decide (d ∈ out)) then out ++ [d] else out) out nodes →
    x ≠ "").
  { induction nodes as [|i nodes IH]; intros out Ho; cbn [foldl]; [done|]. apply IH.
    intros x. destruct (String.eqb_spec (label_of v i key) ""); simpl; [apply Ho|].
    case_bool_decide; simpl; [apply Ho|]. rewrite elem_of_app, list_elem_of_singleton.
    intros [Hx| ->]; auto. }
  apply Hg. intros x []%not_elem_of_nil.
Qed.

Definition exclusive_fit (v : NodeView) (r : replicaFit) : bool :=
  negb (String.eqb (domain r) "") && (1 <? length (podFits v r))%nat.

Lemma takeDomain_wf v id : wf v → wf (takeDomain v id).
Proof. intros Hw. split; apply Hw. Qed.

(** What a successful placement did. *)
Record placed (v : NodeView) (r : replicaFit) (v' : NodeView) (dom : string) (assign : list nat)
  : Prop := {
  placed_wf : wf v';
  placed_slots : slots v' = slots v;
  placed_owner : owner v' = owner v;
  placed_assign : Forall2 (assignable v (domain r) dom) (podFits v r) assign;
  placed_debit : ∀ i, debit_at v' i = (debit_at v i + pod_load (podFits v r) assign i)%Z;
  placed_domain :
    if exclusive_fit v r
    then dom ≠ "" ∧ domainTaken v (domain r) dom = false ∧
         domains v' = <[domainID (domain r) dom := owner v]> (domains v)
    else dom = "" ∧ domains v' = domains v }.

Lemma place_opt_spec v r v' :
  wf v → place_opt v r = Some v' → ∃ dom assign, placed v r v' dom assign.
Proof.
  intros Hw. unfold place_opt.
  destruct (podFits v r) as [|p ps] eqn:Hps.
  { intros [= <-]. exists "", []. split; try done.
    - rewrite Hps. constructor.
    - intros i. rewrite Hps. unfold pod_load. simpl. unfold sumZ. simpl. lia.
    - unfold exclusive_fit. rewrite Hps. simpl. by rewrite andb_false_r. }
  intros (d & taken & Hd & Hdt & Hb & ->)%place_domains_spec.
  pose proof (podFits_pos v r) as Hpos. rewrite Hps in Hpos.
  destruct (bestFit_spec v (p :: ps) (domain r) d ∅ taken Hw Hpos) as (assign & Ha & Hl & Ht).
  { intros i g. by rewrite lookup_empty. }
  { done. }
  destruct (charge_all_wf v taken Hw Ht) as (Hw' & (Hf1 & Hf2 & Hf3 & _) & Hd').
  assert (Hex : exclusive_fit v r = negb (String.eqb (domain r) "") && (1 <? length (p :: ps))%nat)
    by (unfold exclusive_fit; by rewrite Hps).
  rewrite <- Hex in *. exists d, assign. split.
  - destruct (exclusive_fit v r); [by apply takeDomain_wf|done].
  - by destruct (exclusive_fit v r).
  - by destruct (exclusive_fit v r).
  - by rewrite Hps.
  - intros i. rewrite Hps.
    assert (Hi : debit_at (charge_all v taken) i = (debit_at v i + pod_load (p :: ps) assign i)%Z).
    { rewrite Hd', Hl. unfold taken_at at 1. rewrite lookup_empty. simpl. lia. }
    by destruct (exclusive_fit v r).
  - destruct (exclusive_fit v r) eqn:E.
    + split_and!; [by eapply domainsOf_nonempty|by apply Hdt|]. simpl. by rewrite Hf2, Hf3.
    + apply list_elem_of_singleton in Hd as ->. done.
Qed.

(** The debits added by an assignment, over all the nodes, are the pods' GPUs. *)
Lemma pod_load_total ps assign n :
  length assign = length ps → Forall (λ i, i < n) assign →
  sumZ (pod_load ps assign) (seq 0 n) = sumZ pod_gpus ps.
Proof.
  revert ps. induction assign as [|i assign IH]; intros [|p ps] Hlen Hv; simplify_eq/=.
  { unfold pod_load. simpl. rewrite (sumZ_ext _ (λ _, 0%Z)) by done. apply sumZ_zero. }
  inversion Hv as [|? ? Hi Hv']; subst. rewrite sumZ_cons, <- (IH ps) by done.
  rewrite (sumZ_ext _ (λ j, (if decide (j = i) then pod_gpus p else 0) + pod_load ps assign j)%Z).
  2: { intros j _. unfold pod_load. cbn [zip zip_with]. rewrite sumZ_cons. simpl.
       repeat case_decide; subst; done. }
  rewrite sumZ_plus, sumZ_single by apply NoDup_seq.
  rewrite decide_True by (apply elem_of_seq; lia). done.
Qed.

Definition total_debit (v : NodeView) : Z := sumZ (debit_at v) (seq 0 (length (slots v))).

Lemma placed_total v r v' dom assign :
  placed v r v' dom assign → total_debit v' = (total_debit v + pods_total r)%Z.
Proof.
  intros [Hw Hs _ Ha Hd _]. unfold total_debit. rewrite Hs.
  rewrite (sumZ_ext _ (λ i, debit_at v i + pod_load (podFits v r) assign i)%Z) by (intros; apply Hd).
  rewrite sumZ_plus, pod_load_total, podFits_total; [done| |].
  - symmetry. by eapply Forall2_length.
  - apply Forall_forall. intros i Hi. apply list_elem_of_lookup in Hi as [k Hk].
    destruct (Forall2_lookup_r _ _ _ _ _ Ha Hk) as (p & Hp & Hin & _).
    apply list_elem_of_lookup_2, podFits_elem in Hp as (j & g & _ & _ & ->). simpl in Hin.
    apply eligibleFor_sub, eligible_valid in Hin as [n Hn]. by eapply lookup_lt_Some.
Qed.

Lemma pod_load_nonneg v r assign i : (0 ≤ pod_load (podFits v r) assign i)%Z.
Proof.
  apply sumZ_nonneg. intros [p j] Hp. apply elem_of_zip_l in Hp. simpl.
  apply podFits_elem in Hp as (k & g & _ & Hg & ->). simpl. case_decide; lia.
Qed.
End placing.

(** ** Committing a tentative placement *)
Definition grows (v c : NodeView) : Prop :=
  slots c = slots v ∧ ∀ i, (debit_at v i ≤ debit_at c i)%Z.

#[export] Instance grows_preorder : PreOrder grows.
Proof.
  unfold grows. split; hnf; [by intros; split|].
  intros x y z [H1 H2] [H3 H4]. split; [congruence|]. intros i. specialize (H2 i). specialize (H4 i). lia.
Qed.

Lemma Clone_wf v : wf v → wf (Clone v).
Proof. intros Hw. split; try apply Hw; done. Qed.

Lemma Clone_grows v : grows v (Clone v).
Proof. split; [done|]. intros i. change (debit_at (Clone v) i) with (debit_at v i). lia. Qed.

(** The accounts after the difference to the clone is charged. *)
Lemma adopt_debits_spec v m l :
  owned v = Some m → NoDup l.*1 →
  (∀ i g, (i, g) ∈ l → (0 ≤ debit_at v i ≤ g)%Z ∧ (g ≤ int_max)%Z ∧ owned_sum m i = debit_at v i) →
  (∀ o i, (0 ≤ default 0 (default ∅ (m !! o) !! i) ≤ owned_sum m i)%Z) →
  ∃ m', foldl adopt_debit v l = set_owned v (Some m') ∧
    (∀ j, owned_sum m' j =
       match list_to_map (M := gmap nat Z) l !! j with Some g => g | None => owned_sum m j end) ∧
    (∀ o j, (0 ≤ default 0 (default ∅ (m' !! o) !! j))%Z) ∧
    (∀ o, o ≠ owner v → m' !! o = m !! o).
Proof.
  revert v m. induction l as [|[i g] l IH]; intros v m Hm Hnd Hl Hpos; cbn [foldl].
  { exists m. split_and!; [by destruct v; simpl in *; subst|done|intros; apply Hpos|done]. }
  cbn [fmap list_fmap] in Hnd. apply NoDup_cons in Hnd as [Hi Hnd].
  destruct (Hl i g (list_elem_of_here _ _)) as (Hd & Hg & Hsum).
  assert (Hne : ∀ j g', (j, g') ∈ l → j ≠ i).
  { intros j g' Hj ->. apply Hi. apply list_elem_of_fmap. by exists (i, g'). }
  unfold adopt_debit at 2. cbn [fst snd].
  assert (Hw : g ⊟ debit_at v i = (g - debit_at v i)%Z) by int_lia. rewrite Hw.
  destruct (Z.eqb_spec (g - debit_at v i) 0) as [He|He].
  - destruct (IH v m Hm Hnd) as (m' & H1 & H2 & H3 & H4).
    { intros j g' Hj. apply Hl. by constructor. }
    { done. }
    exists m'. split_and!; [done| |done|done]. intros j. rewrite H2. simpl.
    destruct (decide (j = i)) as [->|Hj]; [|by rewrite lookup_insert_ne].
    rewrite lookup_insert_eq. rewrite not_elem_of_list_to_map_1 by done. lia.
  - destruct (record_owned v m i (g - debit_at v i)) as (m1 & Hr & Hs1 & Ho1 & Ha1); [done| |].
    { specialize (Hpos (owner v) i). int_lia. }
    rewrite Hr.
    destruct (IH (set_owned v (Some m1)) m1) as (m' & H1 & H2 & H3 & H4).
    + done.
    + done.
    + intros j g' Hj. change (debit_at (set_owned v (Some m1)) j) with (debit_at v j).
      destruct (Hl j g' (list_elem_of_further _ _ _ Hj)) as (? & ? & ?).
      rewrite Hs1, decide_False by (by eapply Hne). split_and!; lia.
    + intros o j. rewrite Ha1, Hs1. specialize (Hpos o j).
      repeat case_decide; naive_solver lia.
    + exists m'. split_and!; [by rewrite H1| |done|].
      * intros j. rewrite H2. simpl. destruct (decide (j = i)) as [->|Hj].
        -- rewrite lookup_insert_eq, not_elem_of_list_to_map_1 by done.
           rewrite Hs1, decide_True by done. lia.
        -- rewrite lookup_insert_ne by done. case_match; [done|].
           rewrite Hs1, decide_False by done. lia.
      * intros o Hoo. rewrite H4 by done. by apply Ho1.
Qed.

Lemma adopt_domains_frame l v :
  let v' := foldl adopt_domain v l in
  slots v' = slots v ∧ debit v' = debit v ∧ owned v' = owned v ∧ owner v' = owner v.
Proof.
  revert v. induction l as [|id l IH]; intros v; cbn [foldl]; [done|].
  destruct (IH (adopt_domain v id)) as (-> & -> & -> & ->).
  unfold adopt_domain. by case_bool_decide.
Qed.

(** Adopting a clone that only grew keeps the invariant, takes over its debits
    and charges the difference to the adopting owner alone. *)
(** The owners after [adopt] account for the clone's debits. *)
Lemma adopt_owned v c :
  wf v → wf c → grows v c →
  let v0 := match owned v with
            | Some _ => foldl adopt_debit v (map_to_list (debit c))
            | None => v
            end in
  slots v0 = slots v ∧ owner v0 = owner v ∧
  match owned v with
  | None => owned v0 = None
  | Some m => ∃ m', owned v0 = Some m' ∧ (∀ j, owned_sum m' j = debit_at c j) ∧
      (∀ o j, (0 ≤ default 0 (default ∅ (m' !! o) !! j))%Z) ∧
      (∀ o, o ≠ owner v → m' !! o = m !! o)
  end.
Proof.
  intros Hw Hc [Hs Hd]. cbv zeta. destruct (owned v) as [m|] eqn:Hm; [|done].
  destruct (adopt_debits_spec v m (map_to_list (debit c))) as (m' & H1 & H2 & H3 & H4).
  - done.
  - apply NoDup_fst_map_to_list.
  - intros i g Hg%elem_of_map_to_list. destruct (wf_debit _ Hc _ _ Hg) as (n & Hn & Hgn).
    pose proof (slot_cap_int n (wf_slots _ Hc _ _ Hn)). specialize (Hd i).
    unfold debit_at at 2 in Hd. rewrite Hg in Hd. simpl in Hd.
    pose proof (wf_debit_at v i Hw). split_and!; try lia. by apply wf_owned.
  - intros o i. rewrite (wf_owned _ Hw m i Hm). by apply owned_le_debit.
  - rewrite H1. split_and!; [done|done|]. exists m'. split_and!; [done| |done|done].
    intros j. rewrite H2, list_to_map_to_list. unfold debit_at.
    destruct (debit c !! j) eqn:Hj; [done|]. rewrite (wf_owned _ Hw m j Hm).
    pose proof (wf_debit_at v j Hw). specialize (Hd j).
    unfold debit_at at 2 in Hd. rewrite Hj in Hd. simpl in *. lia.
Qed.

Lemma adopt_wf v c :
  wf v → wf c → grows v c →
  wf (adopt v c) ∧ grows v (adopt v c) ∧ owner (adopt v c) = owner v ∧
  (∀ i, debit_at (adopt v c) i = debit_at c i) ∧
  (∀ m o, owned v = Some m → o ≠ owner v →
     ∃ m', owned (adopt v c) = Some m' ∧ m' !! o = m !! o).
Proof.
  intros Hw Hc Hgr. pose proof (adopt_owned v c Hw Hc Hgr) as H0. destruct Hgr as [Hs Hd]. unfold adopt.
  set (v0 := match owned v with Some _ => _ | None => v end) in *.
  destruct (adopt_domains_frame (map_to_list (domains c)).*1 (set_debit v0 (debit c)))
    as (E1 & E2 & E3 & E4).
  set (v2 := foldl adopt_domain _ _) in *. simpl in E1, E2, E3, E4.
  assert (Hd2 : ∀ i, debit_at v2 i = debit_at c i) by (intros i; unfold debit_at; by rewrite E2).
  destruct H0 as (F1 & F2 & F3). split_and!.
  - split.
    + intros i n. rewrite E1, F1. apply (wf_slots _ Hw).
    + intros i d. rewrite E1, E2, F1, <- Hs. apply (wf_debit _ Hc).
    + intros m' o pn i g Hm' Ho Hi. rewrite E3 in Hm'.
      destruct (owned v) as [m|]; [|congruence].
      destruct F3 as (m0 & Hm0 & _ & Hp & _). simplify_eq. specialize (Hp o i).
      rewrite Ho in Hp. simpl in Hp. rewrite Hi in Hp. done.
    + intros m' i Hm'. rewrite E3 in Hm'. destruct (owned v) as [m|]; [|congruence].
      destruct F3 as (m0 & Hm0 & Hsum & _). simplify_eq. rewrite Hsum. done.
  - split; [congruence|]. intros i. rewrite Hd2. apply Hd.
  - congruence.
  - exact Hd2.
  - intros m o Hm Ho. rewrite Hm in F3. destruct F3 as (m' & Hm' & _ & _ & Hoo).
    exists m'. split; [congruence|auto].
Qed.

Section replicas.
Context `{TaintMatcher}.

Lemma placed_grows v r v' dom assign : placed v r v' dom assign → grows v v'.
Proof.
  intros [_ Hs _ _ Hd _]. split; [done|]. intros i. rewrite Hd.
  pose proof (pod_load_nonneg v r assign i). lia.
Qed.

Lemma largest_slots v w a : slots v = slots w → largest v a = largest w a.
Proof. intros E. unfold largest, eligible, on_slot. by rewrite E. Qed.

Lemma fitOf_slots v w s : slots v = slots w → fitOf v s = fitOf w s.
Proof.
  intros E. unfold fitOf. f_equal. unfold replicaPods.
  by rewrite (largest_slots v w _ E).
Qed.

Definition shapes_total (v : NodeView) (reps : list ReplicaShape) : Z :=
  sumZ (λ s, pods_total (fitOf v s)) reps.

Lemma place_shapes_spec v reps trial :
  wf v → place_shapes v reps = Some trial →
  wf trial ∧ grows v trial ∧ total_debit trial = (total_debit v + shapes_total v reps)%Z.
Proof.
  revert v. induction reps as [|s reps IH]; intros v Hw; cbn [place_shapes].
  { intros [= <-]. split_and!; [done|reflexivity|]. unfold shapes_total, sumZ. simpl. lia. }
  unfold place. destruct (place_opt v (fitOf v s)) as [v1|] eqn:Hp; [|done]. intros Hr.
  destruct (place_opt_spec v _ v1 Hw Hp) as (dom & assign & Hpl).
  destruct (IH v1 (placed_wf _ _ _ _ _ Hpl) Hr) as (Hw' & Hg & Ht).
  split_and!; [done|etrans; [by eapply placed_grows|done]|].
  rewrite Ht, (placed_total _ _ _ _ _ Hpl). unfold shapes_total. rewrite sumZ_cons.
  rewrite (sumZ_ext (λ s, pods_total (fitOf v1 s)) (λ s, pods_total (fitOf v s))); [lia|].
  intros s' _. by rewrite (fitOf_slots v1 v) by apply Hpl.
Qed.

Lemma total_debit_eq v w :
  slots v = slots w → (∀ i, debit_at v i = debit_at w i) → total_debit v = total_debit w.
Proof. intros Hs Hd. unfold total_debit. rewrite Hs. apply sumZ_ext. auto. Qed.
End replicas.

(** ** Counting how many one-pod replicas fit *)
Section fitting.
Context `{TaintMatcher} (r : replicaFit) (need : Z).
Hypothesis Hpods : pods r = [need].
Hypothesis Hneed : (0 < need)%Z.

Definition pod_home (v : NodeView) : list nat := eligibleFor v r (podTemplates r 0).

Lemma podFits_single v : podFits v r = [MkPodFit need (pod_home v)].
Proof.
  unfold podFits. rewrite Hpods. cbn [imap omap list_omap].
  rewrite (proj2 (Z.ltb_lt 0 need)) by done. done.
Qed.

Lemma pod_home_NoDup v : NoDup (pod_home v).
Proof.
  unfold pod_home, eligibleFor, eligible.
  repeat case_match; repeat apply NoDup_filter; apply NoDup_seq.
Qed.

Lemma pod_home_slots v w : slots v = slots w → pod_home v = pod_home w.
Proof. intros E. unfold pod_home, eligibleFor, eligible, on_slot. by rewrite E. Qed.

Lemma pod_home_valid v i : i ∈ pod_home v → is_Some (slots v !! i).
Proof. intros Hi%eligibleFor_sub. by eapply eligible_valid. Qed.

(** How many pods of [need] GPUs the nodes hold, node by node. *)
Definition holes (v : NodeView) : Z := sumZ (λ i, free v i / need)%Z (pod_home v).

Lemma holes_nonneg v : (0 ≤ holes v)%Z.
Proof. apply sumZ_nonneg. intros i _. apply Z.div_pos; [apply free_nonneg|done]. Qed.

(** Placing one such replica uses up exactly one of them; it fails only when
    there is none. *)
Lemma place_single v :
  wf v →
  match place_opt v r with
  | Some v' => wf v' ∧ slots v' = slots v ∧ (holes v' = holes v - 1)%Z
  | None => holes v = 0%Z
  end.
Proof.
  intros Hw. destruct (place_opt v r) as [v'|] eqn:Hp.
  - destruct (place_opt_spec v r v' Hw Hp) as (dom & assign & [Hw' Hs _ Ha Hd _]).
    rewrite podFits_single in Ha, Hd.
    inversion Ha as [|? i ? ? [Hi _] Hnil]; subst. inversion Hnil; subst. simpl in Hi.
    split_and!; [done|done|]. unfold holes. rewrite (pod_home_slots v' v Hs).
    assert (Hf : ∀ j, j ∈ pod_home v → free v' j = (free v j - if decide (j = i) then need else 0)%Z).
    { intros j Hj. destruct (pod_home_valid v j Hj) as [n Hn].
      rewrite (free_wf v j n), (free_wf v' j n) by (done || by rewrite Hs). rewrite Hd.
      unfold pod_load. cbn [zip zip_with]. rewrite sumZ_cons. unfold sumZ. simpl.
      repeat case_decide; subst; done || lia. }
    rewrite (sumZ_ext _ (λ j, free v j / need - if decide (j = i) then 1 else 0)%Z).
    + rewrite sumZ_minus, sumZ_single by apply pod_home_NoDup. by rewrite decide_True.
    + intros j Hj. rewrite Hf by done. case_decide; [|by rewrite !Z.sub_0_r]. subst j.
      replace (free v i - need)%Z with (free v i + (-1) * need)%Z by lia.
      rewrite Z.div_add by lia. lia.
  - unfold place_opt in Hp. rewrite podFits_single in Hp. simpl in Hp.
    rewrite andb_false_r in Hp. simpl in Hp.
    pose proof (best_node_spec v ∅ need (domain r) "" (pod_home v) None) as Hb.
    destruct (best_node v ∅ need (domain r) "" (pod_home v) None) as [[b f]|]; [done|].
    destruct Hb as [_ Hb]; [done|]. unfold holes.
    rewrite (sumZ_ext _ (λ _, 0%Z)); [apply sumZ_zero|]. intros i Hi.
    specialize (Hb i Hi (or_introl eq_refl)). pose proof (free_nonneg v i).
    rewrite avail_eq in Hb; [|done|unfold taken_at; rewrite lookup_empty; simpl; lia].
    unfold taken_at in Hb. rewrite lookup_empty in Hb. simpl in Hb.
    apply Z.div_small. lia.
Qed.

Lemma fits_loop_count v n i :
  wf v → (0 ≤ i)%Z → (i + Z.of_nat n ≤ int_max)%Z →
  fits_loop v r n i = (i + Z.min (Z.of_nat n) (holes v))%Z.
Proof.
  revert v i. induction n as [|n IH]; intros v i Hw Hi Hn; cbn [fits_loop].
  { pose proof (holes_nonneg v). lia. }
  pose proof (place_single v Hw) as Hp. unfold place.
  destruct (place_opt v r) as [v'|].
  - destruct Hp as (Hw' & _ & Hh). assert (Hwr : i ⊞ 1 = (i + 1)%Z) by int_lia.
    rewrite Hwr, IH by (done || lia). lia.
  - lia.
Qed.

Lemma fits_sum_count v n nodes count :
  (∀ i, (free v i ≤ int_max)%Z) → (0 ≤ count)%Z → (count < n)%Z →
  (n + sumZ (free v) nodes ≤ int_max)%Z →
  fits_sum v need n nodes count = Z.min n (count + sumZ (λ i, free v i / need) nodes)%Z.
Proof.
  revert count. induction nodes as [|i nodes IH]; intros count Hf Hc Hn Ho; cbn [fits_sum].
  { unfold sumZ. simpl. lia. }
  rewrite sumZ_cons in Ho |- *.
  pose proof (free_nonneg v i) as Hfi.
  assert (0 ≤ sumZ (free v) nodes)%Z by (apply sumZ_nonneg; intros; apply free_nonneg).
  assert (0 ≤ sumZ (λ i, free v i / need) nodes)%Z
    by (apply sumZ_nonneg; intros; apply Z.div_pos; [apply free_nonneg|done]).
  rewrite Z.quot_div_nonneg by lia.
  assert (Hq : (0 ≤ free v i / need ≤ free v i)%Z).
  { split; [apply Z.div_pos; lia|]. apply Z.div_le_upper_bound; nia. }
  assert (Hwr : count ⊞ (free v i / need) = (count + free v i / need)%Z) by int_lia.
  rewrite Hwr. destruct (Z.leb_spec n (count + free v i / need)); [lia|].
  rewrite IH by (done || lia). lia.
Qed.

Lemma fits_single_count v n :
  wf v → (0 < n)%Z → (n + sumZ (free v) (pod_home v) ≤ int_max)%Z →
  fits (Some v) r n = Z.min n (holes v).
Proof.
  intros Hw Hn Ho. unfold fits. rewrite (proj2 (Z.leb_gt n 0)) by done. rewrite Hpods.
  rewrite (proj2 (Z.leb_gt need 0)) by done. fold (pod_home v).
  rewrite fits_sum_count; [unfold holes; lia| |lia|done|done].
  intros i. by apply free_le_int.
Qed.
End fitting.

(** ** Reserving GPUs whose node is not known *)
Lemma charge_others v i g m :
  owned v = Some m →
  ∃ m', owned (charge v i g) = Some m' ∧ ∀ o, o ≠ owner v → m' !! o = m !! o.
Proof.
  intros Hm. unfold charge, record. simpl. rewrite Hm. simpl. eexists. split; [done|].
  intros o Ho. by rewrite lookup_insert_ne.
Qed.

Lemma most_free_spec v nodes :
  match most_free v nodes with
  | None => ∀ j, j ∈ nodes → free v j = 0%Z
  | Some (i, f) => i ∈ nodes ∧ f = free v i ∧ (0 < f)%Z ∧ ∀ j, j ∈ nodes → (free v j ≤ f)%Z
  end.
Proof.
  unfold most_free.
  assert (Hg : ∀ l best, (∀ i f, best = Some (i, f) → f = free v i ∧ (0 < f)%Z) →
    match foldl (λ most i, let f := free v i in
      if (match most with Some (_, mf) => mf | None => 0%Z end <? f)%Z then Some (i, f) else most)
      best l with
    | None => best = None ∧ ∀ j, j ∈ l → free v j = 0%Z
    | Some (i, f) => (i ∈ l ∨ best = Some (i, f)) ∧ f = free v i ∧ (0 < f)%Z ∧
        (∀ j, j ∈ l → (free v j ≤ f)%Z) ∧ (∀ b bf, best = Some (b, bf) → (bf ≤ f)%Z)
    end).
  { induction l as [|i l IH]; intros best Hb; cbn [foldl].
    { destruct best as [[i f]|]; [|by split; [|intros j []%not_elem_of_nil]].
      destruct (Hb i f eq_refl). split_and!; auto; [by intros j []%not_elem_of_nil|].
      intros b bf [= <- <-]. lia. }
    cbv zeta. set (cur := match best with Some (_, mf) => mf | None => 0%Z end).
    pose proof (free_nonneg v i) as Hfi.
    assert (Hcur : (0 ≤ cur)%Z)
      by (unfold cur; destruct best as [[? ?]|]; [destruct (Hb _ _ eq_refl); lia|done]).
    destruct (Z.ltb_spec cur (free v i)) as [Hlt|Hge].
    - specialize (IH (Some (i, free v i))).
      destruct (foldl _ (Some (i, free v i)) l) as [[k f]|].
      + destruct IH as (H1 & H2 & H3 & H4 & H5); [intros ? ? [= <- <-]; split; [done|lia]|].
        specialize (H5 _ _ eq_refl). split_and!; try done.
        * left. destruct H1 as [?|Heq]; [by constructor|]. injection Heq as -> _. constructor.
        * intros j [->|Hj]%elem_of_cons; auto.
        * intros b bf ->. unfold cur in Hlt. lia.
      + destruct IH as [? _]; [intros ? ? [= <- <-]; split; [done|lia]|done].
    - specialize (IH best Hb). destruct (foldl _ best l) as [[k f]|].
      + destruct IH as (H1 & H2 & H3 & H4 & H5). split_and!; try done.
        * destruct H1; [left; by constructor|by right].
        * intros j [->|Hj]%elem_of_cons; [|auto]. unfold cur in Hge.
          destruct best as [[b bf]|]; [specialize (H5 _ _ eq_refl); lia|lia].
      + destruct IH as [-> H2]. split; [done|]. unfold cur in Hge.
        intros j [->|Hj]%elem_of_cons; [lia|auto]. }
  specialize (Hg nodes None). destruct (foldl _ None nodes) as [[i f]|].
  - destruct Hg as ([?|?] & ? & ? & ? & _); done.
  - apply Hg. done.
Qed.

Definition open_nodes (v : NodeView) (nodes : list nat) : Z :=
  sumZ (λ i, if (0 <? free v i)%Z then 1%Z else 0%Z) nodes.

(** One turn of [Reserve] on a node it may take from. *)
Lemma reserve_turn v nodes i take :
  wf v → NoDup nodes → (∀ j, j ∈ nodes → is_Some (slots v !! j)) → i ∈ nodes →
  (0 < take ≤ free v i)%Z →
  let v' := charge v i take in
  wf v' ∧ frame v v' ∧
  sumZ (free v') nodes = (sumZ (free v) nodes - take)%Z ∧
  sumZ (debit_at v') nodes = (sumZ (debit_at v) nodes + take)%Z ∧
  (∀ j, j ∉ nodes → debit_at v' j = debit_at v j) ∧
  (take = free v i → open_nodes v' nodes = (open_nodes v nodes - 1)%Z).
Proof.
  intros Hw Hnd Hv Hi Ht. cbv zeta. destruct (Hv i Hi) as [n Hn].
  destruct (charge_wf v i n take Hw Hn) as [Hw1 Hd1]; [lia|].
  pose proof (charge_frame v i take) as (Hs1 & _ & _).
  assert (Hfree : ∀ j, j ∈ nodes →
    free (charge v i take) j = (free v j - if decide (j = i) then take else 0)%Z).
  { intros j Hj. destruct (Hv j Hj) as [k Hk].
    rewrite (free_wf v j k), (free_wf _ j k) by (done || by rewrite Hs1). rewrite Hd1. lia. }
  split_and!; [done|apply charge_frame| | | |].
  - rewrite (sumZ_ext _ (λ j, free v j - if decide (j = i) then take else 0)%Z) by done.
    rewrite sumZ_minus, sumZ_single by done. by rewrite decide_True.
  - rewrite (sumZ_ext _ (λ j, debit_at v j + if decide (j = i) then take else 0)%Z) by (intros; apply Hd1).
    rewrite sumZ_plus, sumZ_single by done. by rewrite decide_True.
  - intros j Hj. rewrite Hd1, decide_False by (intros ->; done). lia.
  - intros He. unfold open_nodes. rewrite (sumZ_ext _ (λ j, (if (0 <? free v j)%Z then 1 else 0)
      - if decide (j = i) then 1 else 0)%Z).
    + rewrite sumZ_minus, sumZ_single by done. by rewrite decide_True.
    + intros j Hj. rewrite Hfree by done. case_decide; [subst j|].
      * rewrite (proj2 (Z.ltb_lt 0 (free v i))) by lia.
        rewrite (proj2 (Z.ltb_ge 0 _)) by lia. done.
      * rewrite !Z.sub_0_r. done.
Qed.

Lemma reserve_loop_spec fuel v nodes gpus :
  wf v → NoDup nodes → (∀ i, i ∈ nodes → is_Some (slots v !! i)) →
  (0 ≤ gpus ≤ int_max)%Z → (open_nodes v nodes < Z.of_nat fuel)%Z →
  let v' := reserve_loop fuel v nodes gpus in
  wf v' ∧ frame v v' ∧
  sumZ (debit_at v') nodes = (sumZ (debit_at v) nodes + Z.min gpus (sumZ (free v) nodes))%Z ∧
  (∀ i, i ∉ nodes → debit_at v' i = debit_at v i) ∧
  (∀ m, owned v = Some m → ∃ m', owned v' = Some m' ∧ ∀ o, o ≠ owner v → m' !! o = m !! o).
Proof.
  revert v gpus. induction fuel as [|fuel IH]; intros v gpus Hw Hnd Hv Hg Hf.
  { assert (0 ≤ open_nodes v nodes)%Z by (apply sumZ_nonneg; intros; case_match; lia). lia. }
  assert (Hsum0 : (0 ≤ sumZ (free v) nodes)%Z) by (apply sumZ_nonneg; intros; apply free_nonneg).
  cbn [reserve_loop]. destruct (Z.leb_spec gpus 0) as [Hg0|Hg0].
  { split_and!; [done|reflexivity|lia|done|eauto]. }
  pose proof (most_free_spec v nodes) as Hm. destruct (most_free v nodes) as [[i f]|].
  2: { rewrite (sumZ_ext (free v) (λ _, 0%Z)), sumZ_zero by done.
       split_and!; [done|reflexivity|lia|done|eauto]. }
  destruct Hm as (Hi & -> & Hpos & _). set (take := Z.min (free v i) gpus).
  destruct (reserve_turn v nodes i take Hw Hnd Hv Hi) as (Hw1 & Hf1 & Hsf & Hsd & Hout & Hopen); [lia|].
  assert (Hle : (free v i ≤ sumZ (free v) nodes)%Z)
    by (apply sumZ_elem_le; [intros; apply free_nonneg|done]).
  pose proof (free_le_int v i Hw).
  assert (Hwr : gpus ⊟ take = (gpus - take)%Z) by (unfold take in *; int_lia). rewrite Hwr.
  assert (Hoth : ∀ m, owned v = Some m → ∃ m', owned (charge v i take) = Some m' ∧
            ∀ o, o ≠ owner v → m' !! o = m !! o) by (intros m Hm; by apply charge_others).
  destruct (decide (gpus = take)) as [He|He].
  { rewrite <- He, Z.sub_diag.
    assert (reserve_loop fuel (charge v i gpus) nodes 0 = charge v i gpus) as -> by (by destruct fuel).
    rewrite He. split_and!; [done|apply charge_frame|lia|done|done]. }
  specialize (Hopen ltac:(lia)). pose proof Hf1 as (Hs1 & Ho1 & _).
  destruct (IH (charge v i take) (gpus - take)%Z) as (G1 & G2 & G3 & G4 & G5);
    [done|done|by rewrite Hs1|lia|lia|].
  split_and!; [done|etrans; [apply charge_frame|done]| | |].
  - rewrite G3, Hsd, Hsf. lia.
  - intros j Hj. rewrite G4 by done. auto.
  - intros m Hm. destruct (Hoth m Hm) as (m1 & Hm1 & Ho).
    destruct (G5 m1 Hm1) as (m2 & Hm2 & Ho2). exists m2. split; [done|].
    intros o Hne. rewrite Ho2 by congruence. auto.
Qed.

(** ** Taking an owner's debits back *)
Definition map_at (d : gmap nat Z) (i : nat) : Z := default 0%Z (d !! i).

Lemma take_back_at d i g j :
  (0 ≤ g ≤ map_at d i)%Z → (map_at d i ≤ int_max)%Z →
  map_at (take_back d (i, g)) j = (map_at d j - if decide (j = i) then g else 0)%Z.
Proof.
  intros Hg Hi. unfold take_back. cbn [fst snd]. fold (map_at d i).
  assert (Hw : map_at d i ⊟ g = (map_at d i - g)%Z) by int_lia. rewrite Hw.
  destruct (Z.leb_spec (map_at d i - g) 0); unfold map_at at 1; case_decide; subst.
  - rewrite lookup_delete_eq. simpl. lia.
  - rewrite lookup_delete_ne by done. fold (map_at d j). lia.
  - rewrite lookup_insert_eq. simpl. done.
  - rewrite lookup_insert_ne by done. fold (map_at d j). lia.
Qed.

Lemma take_backs_at l d :
  NoDup l.*1 → (∀ i g, (i, g) ∈ l → (0 ≤ g ≤ map_at d i)%Z) → (∀ i, (map_at d i ≤ int_max)%Z) →
  ∀ j, map_at (foldl take_back d l) j =
       (map_at d j - default 0 (list_to_map (M := gmap nat Z) l !! j))%Z.
Proof.
  revert d. induction l as [|[i g] l IH]; intros d Hnd Hl Hd j; cbn [foldl].
  { simpl. rewrite lookup_empty. simpl. lia. }
  cbn [fmap list_fmap] in Hnd. apply NoDup_cons in Hnd as [Hi Hnd].
  pose proof (Hl i g (list_elem_of_here _ _)) as Hg. pose proof (take_back_at d i g) as Ht.
  rewrite IH; [|done| |].
  - rewrite Ht by auto.
    assert (list_to_map ((i, g) :: l) = <[i := g]> (list_to_map l : gmap nat Z)) as -> by done.
    case_decide.
    + subst j. rewrite lookup_insert_eq, not_elem_of_list_to_map_1 by done. simpl. lia.
    + rewrite lookup_insert_ne by done. lia.
  - intros k x Hk. rewrite Ht by auto. specialize (Hl k x (list_elem_of_further _ _ _ Hk)).
    rewrite decide_False; [lia|]. intros ->. apply Hi, list_elem_of_fmap. by exists (i, x).
  - intros k. rewrite Ht by auto. specialize (Hd k). case_decide; lia.
Qed.

(** What the owners a predicate keeps were charged on node [i]. *)
Definition kept_sum (keep : string → bool) (l : list (string * gmap nat Z)) (i : nat) : Z :=
  sumZ (λ o, if keep o.1 then owned_at o i else 0%Z) l.

Lemma take_owners_at ex l d :
  (∀ o i g, o ∈ l → o.2 !! i = Some g → (0 ≤ g)%Z) →
  (∀ i, (kept_sum ex l i ≤ map_at d i ≤ int_max)%Z) →
  ∀ j, map_at (foldl (λ d (o : string * gmap nat Z),
           if ex o.1 then foldl take_back d (map_to_list o.2) else d) d l) j =
       (map_at d j - kept_sum ex l j)%Z.
Proof.
  revert d. induction l as [|o l IH]; intros d Hp Hd j; cbn [foldl].
  { unfold kept_sum, sumZ. simpl. lia. }
  assert (Hrest : ∀ i, (0 ≤ kept_sum ex l i)%Z).
  { intros i. apply sumZ_nonneg. intros o' Ho'. case_match; [|done].
    unfold owned_at. destruct (o'.2 !! i) eqn:E; simpl; [|done].
    eapply Hp; [|done]. by constructor. }
  assert (Hhead : ∀ i, (0 ≤ owned_at o i)%Z).
  { intros i. unfold owned_at. destruct (o.2 !! i) eqn:E; simpl; [|done].
    eapply Hp; [|done]. constructor. }
  assert (Hk : ∀ i, kept_sum ex (o :: l) i = ((if ex o.1 then owned_at o i else 0) + kept_sum ex l i)%Z)
    by (intros; unfold kept_sum; by rewrite sumZ_cons).
  rewrite Hk. destruct (ex o.1) eqn:E.
  - assert (Ht : ∀ i, map_at (foldl take_back d (map_to_list o.2)) i = (map_at d i - owned_at o i)%Z).
    { intros i. rewrite take_backs_at.
      - by rewrite list_to_map_to_list.
      - apply NoDup_fst_map_to_list.
      - intros k g Hg%elem_of_map_to_list. specialize (Hd k). rewrite Hk in Hd.
        specialize (Hhead k). specialize (Hrest k). unfold owned_at in *. rewrite Hg in *. simpl in *. lia.
      - intros k. apply Hd. }
    rewrite IH.
    + rewrite Ht. lia.
    + intros o' i g Ho'. apply Hp. by constructor.
    + intros i. rewrite Ht. specialize (Hd i). rewrite Hk in Hd. specialize (Hhead i). lia.
  - rewrite IH.
    + lia.
    + intros o' i g Ho'. apply Hp. by constructor.
    + intros i. specialize (Hd i). rewrite Hk in Hd. lia.
Qed.

Lemma kept_split ex l i :
  (kept_sum ex l i + kept_sum (λ o, negb (ex o)) l i = sumZ (λ o, owned_at o i) l)%Z.
Proof.
  unfold kept_sum. rewrite <- sumZ_plus. apply sumZ_ext. intros o _. destruct (ex o.1); simpl; lia.
Qed.

Lemma without_debit v m ex c :
  wf v → owned v = Some m → without (Some v) ex = Some c →
  slots c = slots v ∧
  ∀ i, debit_at c i = kept_sum (λ o, negb (ex o)) (map_to_list m) i.
Proof.
  intros Hw Hm [= <-]. rewrite Hm. simpl. split; [done|]. intros i.
  unfold debit_at. simpl.
  assert (Hnn : ∀ o i g, o ∈ map_to_list m → o.2 !! i = Some g → (0 ≤ g)%Z).
  { intros [o pn] j g Ho%elem_of_map_to_list. by apply (wf_pos _ Hw m o pn). }
  pose proof (take_owners_at ex (map_to_list m) (debit v) Hnn) as Ht.
  unfold map_at in Ht. rewrite Ht.
  - pose proof (wf_owned _ Hw m i Hm) as Hs. unfold owned_sum in Hs.
    pose proof (kept_split ex (map_to_list m) i). unfold debit_at in Hs. lia.
  - intros j. pose proof (wf_owned _ Hw m j Hm) as Hs. unfold owned_sum, debit_at in Hs.
    pose proof (kept_split ex (map_to_list m) j) as Hk.
    assert (0 ≤ kept_sum (λ o, negb (ex o)) (map_to_list m) j)%Z.
    { apply sumZ_nonneg. intros o Ho. case_match; [|done]. unfold owned_at.
      destruct (o.2 !! j) eqn:E; simpl; [|done]. by eapply Hnn. }
    pose proof (wf_debit_at v j Hw) as Hd. unfold debit_at in Hd.
    split; [lia|]. destruct (slots v !! j) as [n|] eqn:Hn; [|unfold int_max; lia].
    pose proof (slot_cap_int n (wf_slots _ Hw _ _ Hn)). lia.
Qed.

(** No two nodes of the snapshot share a name. *)
Definition names_unique (v : NodeView) : Prop :=
  ∀ i j n k, slots v !! i = Some n → slots v !! j = Some k → slot_name n = slot_name k → i = j.

Definition name_at (out : gmap string Z) (name : string) : Z := default 0%Z (out !! name).

Lemma debits_adds_at v l out i n :
  names_unique v → slots v !! i = Some n → NoDup l.*1 →
  (∀ j g, (j, g) ∈ l → (0 ≤ g)%Z) →
  (0 ≤ name_at out (slot_name n))%Z →
  (name_at out (slot_name n) + default 0 (list_to_map (M := gmap nat Z) l !! i) ≤ int_max)%Z →
  name_at (foldl (debits_add v) out l) (slot_name n) =
  (name_at out (slot_name n) + default 0 (list_to_map (M := gmap nat Z) l !! i))%Z.
Proof.
  intros Hu Hn. revert out. induction l as [|[j g] l IH]; intros out Hnd Hp H0 Hle; cbn [foldl].
  { simpl in *. rewrite lookup_empty. simpl. lia. }
  cbn [fmap list_fmap] in Hnd. apply NoDup_cons in Hnd as [Hj Hnd].
  assert (Hltm : list_to_map ((j, g) :: l) = <[j := g]> (list_to_map l : gmap nat Z)) by done.
  rewrite Hltm in Hle |- *.
  assert (Hadd : name_at (debits_add v out (j, g)) (slot_name n) =
    (name_at out (slot_name n) + if decide (j = i) then g else 0)%Z).
  { unfold debits_add. cbn [fst snd]. destruct (slots v !! j) as [k|] eqn:Hk.
    - unfold name_at at 1. destruct (decide (j = i)) as [->|Hne].
      + simplify_eq. rewrite lookup_insert_eq in Hle. rewrite lookup_insert_eq. simpl in *.
        fold (name_at out (slot_name n)) in *.
        pose proof (Hp i g (list_elem_of_here _ _)). int_lia.
      + rewrite lookup_insert_ne; [fold (name_at out (slot_name n)); lia|].
        intros He. by apply Hne, (Hu j i k n).
    - rewrite decide_False by congruence. lia. }
  pose proof (Hp j g (list_elem_of_here _ _)) as Hg.
  destruct (decide (j = i)) as [->|Hne].
  - rewrite lookup_insert_eq in Hle |- *. simpl in Hle |- *.
    rewrite IH; [|done| |lia|].
    + rewrite not_elem_of_list_to_map_1 by done. simpl. lia.
    + intros k x Hk. apply (Hp k x). by constructor.
    + rewrite not_elem_of_list_to_map_1 by done. simpl. lia.
  - rewrite lookup_insert_ne in Hle |- * by done. rewrite IH; [lia|done| |lia|lia].
    intros k x Hk. apply (Hp k x). by constructor.
Qed.

(** The debits a report lists for the kept owners are the debits a view without
    the others has. *)
Lemma DebitsExcept_at v m ex out i n :
  wf v → names_unique v → owned v = Some m → DebitsExcept (Some v) ex = Some out →
  slots v !! i = Some n →
  name_at out (slot_name n) = kept_sum (λ o, negb (ex o)) (map_to_list m) i.
Proof.
  intros Hw Hu Hm [= <-] Hn. rewrite Hm. simpl.
  assert (Hnn : ∀ o i g, o ∈ map_to_list m → o.2 !! i = Some g → (0 ≤ g)%Z).
  { intros [o pn] j g Ho%elem_of_map_to_list. by apply (wf_pos _ Hw m o pn). }
  pose proof (wf_debit_at v i Hw) as Hd. rewrite Hn in Hd.
  pose proof (slot_cap_int n (wf_slots _ Hw _ _ Hn)) as Hc.
  pose proof (wf_owned _ Hw m i Hm) as Hs. unfold owned_sum in Hs.
  assert (Hall : (sumZ (λ o, owned_at o i) (map_to_list m) ≤ int_max)%Z) by lia.
  clear Hs Hd Hc. revert Hnn Hall. generalize (map_to_list m). intros l Hnn Hall.
  assert (Hg : ∀ out, (0 ≤ name_at out (slot_name n))%Z →
    (name_at out (slot_name n) + sumZ (λ o, owned_at o i) l ≤ int_max)%Z →
    name_at (foldl (λ out (o : string * gmap nat Z),
      if ex o.1 then out else foldl (debits_add v) out (map_to_list o.2)) out l) (slot_name n) =
    (name_at out (slot_name n) + kept_sum (λ o, negb (ex o)) l i)%Z).
  { clear Hall. induction l as [|o l IH]; intros out H0 Hle; cbn [foldl].
    { unfold kept_sum, sumZ. simpl. lia. }
    rewrite sumZ_cons in Hle. unfold kept_sum. rewrite sumZ_cons. fold (kept_sum (λ o, negb (ex o)) l i).
    assert (Ho : (0 ≤ owned_at o i)%Z).
    { unfold owned_at. destruct (o.2 !! i) eqn:E; simpl; [|done]. eapply Hnn; [|done]. constructor. }
    assert (Hl0 : (0 ≤ sumZ (λ o, owned_at o i) l)%Z).
    { apply sumZ_nonneg. intros o' Ho'. unfold owned_at. destruct (o'.2 !! i) eqn:E; simpl; [|done].
      eapply Hnn; [|done]. by constructor. }
    assert (Hnn' : ∀ o i g, o ∈ l → o.2 !! i = Some g → (0 ≤ g)%Z).
    { intros o' j g Ho'. apply Hnn. by constructor. }
    destruct (ex o.1); simpl.
    - rewrite IH by (done || lia). lia.
    - pose proof (debits_adds_at v (map_to_list o.2) out i n Hu Hn) as Hadd.
      rewrite list_to_map_to_list in Hadd. fold (owned_at o i) in Hadd.
      rewrite IH; rewrite ?Hadd; try done; try lia;
        try apply NoDup_fst_map_to_list;
        try (intros j g Hg%elem_of_map_to_list; eapply Hnn; [constructor|done]). }
  rewrite Hg; unfold name_at; rewrite lookup_empty; simpl; lia.
Qed.

(** ** The eligibility memo *)
Definition no_ctl (s : string) : Prop :=
  contains_char Ascii.zero s = false ∧ contains_char Ascii.one s = false.

(** A toleration whose fields carry no control character, as the API server
    validates them. *)
Definition good_toleration (t : Toleration) : Prop :=
  no_ctl (tol_Key t) ∧ no_ctl (tol_Operator t) ∧ no_ctl (tol_Value t) ∧ no_ctl (tol_Effect t).

Definition tolerations_tail (ts : list Toleration) : string :=
  foldr (λ t s, toleration_key t +:+ s) EmptyString ts.

Lemma eligibleKey_tail a ts : eligibleKey a ts false = a +:+ tolerations_tail ts.
Proof.
  unfold eligibleKey. revert a. induction ts as [|t ts IH]; intros a; cbn [foldl].
  - unfold tolerations_tail. simpl. induction a as [|c a IHa]; [done|].
    rewrite string_append_cons. by rewrite <- IHa.
  - rewrite IH. unfold tolerations_tail at 2. cbn [foldr]. by rewrite string_app_assoc.
Qed.

Lemma tolerations_tail_sep ts : sep_tail Ascii.zero (tolerations_tail ts).
Proof. destruct ts as [|t ts]; [by left|right]. eexists. reflexivity. Qed.

Lemma tail_cons t ts :
  tolerations_tail (t :: ts) =
  String Ascii.zero (tol_Key t +:+ String Ascii.one (tol_Operator t +:+ String Ascii.one
    (tol_Value t +:+ String Ascii.one (tol_Effect t +:+ tolerations_tail ts)))).
Proof.
  unfold tolerations_tail at 1. cbn [foldr]. unfold toleration_key.
  by rewrite !string_append_cons, !string_app_assoc, !string_append_cons, !string_app_assoc,
    !string_append_cons, !string_app_assoc, !string_append_cons.
Qed.

Lemma tolerations_tail_inj ts us :
  Forall good_toleration ts → Forall good_toleration us →
  tolerations_tail ts = tolerations_tail us → ts = us.
Proof.
  intros Ht. revert us. induction Ht as [|t ts Ht _ IH]; intros us Hu Heq.
  { destruct us as [|u us]; [done|]. by rewrite tail_cons in Heq. }
  destruct Hu as [|u us Hu Hus]; [by rewrite tail_cons in Heq|].
  rewrite !tail_cons in Heq. injection Heq as Heq.
  destruct Ht as ([_ T1] & [_ T2] & [_ T3] & [T4 _]), Hu as ([_ U1] & [_ U2] & [_ U3] & [U4 _]).
  apply (app_sep_inj Ascii.one) in Heq as [E1 Heq]; [|done|done|right; eauto..].
  injection Heq as Heq.
  apply (app_sep_inj Ascii.one) in Heq as [E2 Heq]; [|done|done|right; eauto..].
  injection Heq as Heq.
  apply (app_sep_inj Ascii.one) in Heq as [E3 Heq]; [|done|done|right; eauto..].
  injection Heq as Heq.
  apply (app_sep_inj Ascii.zero) in Heq as [E4 Heq]; [|done|done|apply tolerations_tail_sep..].
  apply IH in Heq as ->; [|done]. destruct t, u; simpl in *. by subst.
Qed.

(** Two questions share a memo key only when they are the same question. *)
Lemma eligibleKey_inj a b ts us any any' :
  no_ctl a → no_ctl b → Forall good_toleration ts → Forall good_toleration us →
  eligibleKey a ts any = eligibleKey b us any' →
  a = b ∧ any = any' ∧ (any = false → ts = us).
Proof.
  intros [Ha _] [Hb _] Ht Hu.
  assert (Hstar : ∀ vs, Forall good_toleration vs → tolerations_tail vs ≠ String Ascii.zero "*").
  { intros [|t vs] _ He; [done|]. rewrite tail_cons in He. injection He as He.
    assert (Hc : contains_char Ascii.one "*" = true).
    { rewrite <- He, contains_char_app. cbn [contains_char].
      by rewrite Ascii.eqb_refl, orb_true_r. }
    done. }
  assert (Hs : sep_tail Ascii.zero (String Ascii.zero "*")) by (right; eauto).
  destruct any, any'; rewrite ?eligibleKey_tail; unfold eligibleKey; intros Heq;
    apply (app_sep_inj Ascii.zero) in Heq as [-> Heq]; auto using tolerations_tail_sep.
  - done.
  - symmetry in Heq. by apply Hstar in Heq.
  - by apply Hstar in Heq.
  - split_and!; auto using tolerations_tail_inj.
Qed.

Section memo.
Context `{TaintMatcher}.

(** Every memo entry answers the question its key asks. *)
Definition memo_ok (v : NodeView) (cache : gmap string (list nat)) : Prop :=
  ∀ a ts any nodes, no_ctl a → Forall good_toleration ts →
    cache !! eligibleKey a ts any = Some nodes → nodes = eligible v a ts any.

Lemma eligible_any v a ts us : eligible v a ts true = eligible v a us true.
Proof. done. Qed.

Lemma eligible_cached_ok v cache a ts any :
  memo_ok v cache → no_ctl a → Forall good_toleration ts →
  (eligible_cached cache v a ts any).1 = eligible v a ts any ∧
  memo_ok v (eligible_cached cache v a ts any).2.
Proof.
  intros Hc Ha Ht. unfold eligible_cached.
  destruct (cache !! eligibleKey a ts any) as [nodes|] eqn:E; cbn [fst snd].
  { split; [|done]. by apply Hc. }
  split; [done|]. intros b us any' nodes Hb Hu.
  destruct (decide (eligibleKey a ts any = eligibleKey b us any')) as [He|He].
  - rewrite He, lookup_insert_eq. intros [= <-].
    destruct (eligibleKey_inj a b ts us any any') as (-> & <- & Hts); try done.
    destruct any; [apply eligible_any|by rewrite Hts].
  - rewrite lookup_insert_ne by done. by apply Hc.
Qed.
End memo.

(** ** Growth taken of what Kueue reclaims *)
Definition rec_ok (r : Reclaim) : Prop :=
  (0 ≤ Kept r ≤ After r ∧ After r ≤ int_max ∧ 0 ≤ rec_GPUs r ≤ int_max)%Z.

(** [t] and [l] together are [o]. *)
Definition rec_split (t l o : Reclaim) : Prop :=
  rec_ok t ∧ rec_ok l ∧ (After t + After l = After o ∧ Kept t + Kept l = Kept o
  ∧ rec_GPUs t + rec_GPUs l = rec_GPUs o)%Z.

Lemma rec_take_split l g :
  rec_ok l → (0 < g ≤ int_max)%Z → rec_split (rec_take l g) (rec_sub l (rec_take l g)) l.
Proof.
  unfold rec_split, rec_ok, rec_take, rec_sub. simpl. intros (H1 & H2 & H3) Hg.
  rewrite (wrap_id (g - _)) by int_lia.
  repeat (rewrite wrap_id by int_lia). lia.
Qed.

Lemma rec_add_split t l o t1 l1 :
  rec_ok o → rec_split t l o → rec_split t1 l1 l → rec_split (rec_add t t1) l1 o.
Proof.
  unfold rec_split, rec_ok, rec_add. simpl.
  intros Ho (H1 & H2 & H3 & H4 & H5) (H6 & H7 & H8 & H9 & H10).
  repeat (rewrite wrap_id by int_lia). lia.
Qed.

Section reclaiming.
Context `{TaintMatcher}.

Definition reclaim_inv (orig left took : gmap string Reclaim) : Prop :=
  ∀ k o, orig !! k = Some o →
    ∃ l, left !! k = Some l ∧ rec_split (default zero_reclaim (took !! k)) l o.

Lemma place_grows v r : wf v → wf (place v r).2 ∧ grows v (place v r).2.
Proof.
  intros Hw. unfold place. destruct (place_opt v r) as [v'|] eqn:E; [|by split].
  destruct (place_opt_spec v r v' Hw E) as (d & a & Hp). split; [apply Hp|by eapply placed_grows].
Qed.

Lemma place_reclaiming_spec orig v left took reps trial took' :
  (∀ k o, orig !! k = Some o → rec_ok o) → (∀ k, is_Some (left !! k) ↔ is_Some (orig !! k)) →
  (∀ k, is_Some (took !! k) → is_Some (orig !! k)) →
  reclaim_inv orig left took → (∀ s, s ∈ reps → (GPUs s ≤ int_max)%Z) →
  wf v → place_reclaiming v left took reps = Some (trial, took') →
  wf trial ∧ grows v trial ∧ (∀ k, is_Some (took' !! k) → is_Some (orig !! k)) ∧
  ∃ left', reclaim_inv orig left' took'.
Proof.
  intros Hok. revert v left took.
  induction reps as [|s reps IH]; intros v left took Hdom Htd Hinv Hg Hw; cbn [place_reclaiming].
  { intros [= <- <-]. split_and!; [done|reflexivity|done|eauto]. }
  destruct (place_grows v (fitOf v s) Hw) as [Hw1 Hg1].
  destruct (place v (fitOf v s)) as [onNode v1]. simpl in Hw1, Hg1.
  assert (Hgs : ∀ s', s' ∈ reps → (GPUs s' ≤ int_max)%Z) by (intros; apply Hg; by constructor).
  destruct (FindKey left (shape_Accelerator s)) as [k|] eqn:Hk.
  - apply FindKey_sound in Hk as [Hk _].
    destruct (negb onNode && negb _); [done|].
    destruct (proj1 (Hdom k) Hk) as [o Ho].
    destruct (Hinv k o Ho) as (l & Hl & Hsp). rewrite Hl. cbn [default].
    set (g := Z.max (GPUs s) 1).
    assert (Hgr : (0 < g ≤ int_max)%Z).
    { pose proof (Hg s (list_elem_of_here _ _)). unfold g, int_max in *. lia. }
    assert (Hlok : rec_ok l) by apply Hsp.
    pose proof (rec_take_split l g Hlok Hgr) as Hts.
    intros Hr. apply IH in Hr as (H1 & H2 & H3 & H4); try done.
    + split_and!; [done|by etrans|done|done].
    + intros k'. destruct (decide (k' = k)) as [->|Hne].
      * rewrite lookup_insert_eq. split; eauto.
      * by rewrite lookup_insert_ne.
    + intros k'. destruct (decide (k' = k)) as [->|Hne].
      * intros _. eauto.
      * rewrite lookup_insert_ne by done. apply Htd.
    + intros k' o' Ho'. destruct (decide (k' = k)) as [->|Hne].
      * simplify_eq. rewrite !lookup_insert_eq. eexists. split; [done|]. cbn [default].
        eapply rec_add_split; eauto.
      * rewrite !lookup_insert_ne by done. by apply Hinv.
  - destruct onNode; [|done]. intros Hr. apply IH in Hr as (H1 & H2 & H3 & H4); try done.
    split_and!; [done|by etrans|done|done].
Qed.
End reclaiming.

(** ** Views built from a snapshot *)
Definition snap_ok (snap : gmap string NodeGPU) : Prop :=
  ∀ name n, snap !! name = Some n →
    (0 ≤ node_Capacity n ≤ int_max ∧ 0 ≤ node_Used n ≤ int_max)%Z.

Lemma newNodeViewAt_names snap t v :
  newNodeViewAt (Some snap) t = Some v →
  slot_name <$> slots v = sort_strings (map_to_list snap).*1.
Proof.
  intros [= <-]. simpl.
  assert (Hin : ∀ x, x ∈ sort_strings (map_to_list snap).*1 → is_Some (snap !! x))
    by (intros x; rewrite sort_strings_perm; apply elem_of_keys).
  induction (sort_strings (map_to_list snap).*1) as [|x l IH]; [done|]. simpl.
  destruct (Hin x (list_elem_of_here _ _)) as [n ->]. simpl. f_equal. apply IH.
  intros y Hy. apply Hin. by constructor.
Qed.

Lemma newNodeViewAt_wf snap t v :
  snap_ok snap → newNodeViewAt (Some snap) t = Some v → wf v ∧ names_unique v.
Proof.
  intros Hs Hv. pose proof (newNodeViewAt_names _ _ _ Hv) as Hn.
  assert (Hu : names_unique v).
  { intros i j n k Hi Hj He.
    assert (Hnd : NoDup (slot_name <$> slots v))
      by (rewrite Hn, sort_strings_perm; apply NoDup_fst_map_to_list).
    eapply NoDup_lookup; [exact Hnd| |].
    + rewrite list_lookup_fmap, Hi. done.
    + rewrite list_lookup_fmap, Hj. simpl. by rewrite He. }
  split; [|done]. injection Hv as <-. split; cbn [slots debit owned].
  - intros i n Hi. apply list_elem_of_lookup_2, list_elem_of_omap in Hi as (x & _ & Hx).
    apply fmap_Some in Hx as (g & Hg & ->). by apply (Hs x).
  - intros i d. by rewrite lookup_empty.
  - intros m o pn i g [= <-]. by rewrite lookup_empty.
  - intros m i [= <-]. unfold owned_sum, debit_at. simpl. by rewrite map_to_list_empty, lookup_empty.
Qed.

Lemma take_owners_pos (ex : string → bool) (l : list (string * gmap nat Z)) (d : gmap nat Z) :
  (∀ i x, d !! i = Some x → (0 < x)%Z) →
  ∀ i x, foldl (λ d (o : string * gmap nat Z),
    if ex o.1 then foldl take_back d (map_to_list o.2) else d) d l !! i = Some x → (0 < x)%Z.
Proof.
  assert (Hb : ∀ es (d : gmap nat Z), (∀ i x, d !! i = Some x → (0 < x)%Z) →
    ∀ i x, foldl take_back d es !! i = Some x → (0 < x)%Z).
  { induction es as [|[j g] es IH]; intros d0 Hd; cbn [foldl]; [done|]. apply IH.
    intros i x. unfold take_back. cbn [fst snd].
    destruct (Z.leb_spec (default 0%Z (d0 !! j) ⊟ g) 0).
    - intros [_ Hi]%lookup_delete_Some. by apply (Hd i).
    - intros [[<- <-]|[_ Hi]]%lookup_insert_Some; [done|by apply (Hd i)]. }
  revert d. induction l as [|o l IH]; intros d Hd; cbn [foldl]; [done|]. apply IH.
  destruct (ex o.1); [by apply Hb|done].
Qed.

Lemma without_wf v ex c :
  wf v → owned v ≠ None → without (Some v) ex = Some c → wf c ∧ slots c = slots v.
Proof.
  intros Hw Ho Hc. destruct (owned v) as [m|] eqn:Hm; [|done].
  destruct (without_debit v m ex c Hw Hm Hc) as [Hs Hd]. split; [|done]. split.
  - intros i n. rewrite Hs. apply (wf_slots _ Hw).
  - intros i d Hi.
    assert (Hpos : (0 < d)%Z).
    { injection Hc as <-. simpl in Hi. eapply take_owners_pos; [|exact Hi].
      intros j x Hx. destruct (wf_debit _ Hw _ _ Hx) as (? & _ & ?). lia. }
    assert (Hat : debit_at c i = d) by (unfold debit_at; by rewrite Hi).
    rewrite Hd in Hat.
    pose proof (wf_owned _ Hw m i Hm) as Hsum. unfold owned_sum in Hsum.
    pose proof (kept_split ex (map_to_list m) i) as Hk.
    assert (0 ≤ kept_sum ex (map_to_list m) i)%Z.
    { apply sumZ_nonneg. intros [o pn] Hin. case_match; [|done]. by eapply owned_at_nonneg. }
    pose proof (wf_debit_at v i Hw) as Hv. rewrite Hs.
    destruct (slots v !! i) as [n|]; [|lia]. exists n. split; [done|lia].
  - injection Hc as <-. simpl. done.
  - injection Hc as <-. simpl. done.
Qed.

(** ** Every view a cycle can reach *)
Section reachable.
Context `{TaintMatcher} (v0 : NodeView).

(** The views reached from [v0] by any sequence of the operations of a cycle. *)
Inductive reach : NodeView → Prop :=
| reach_start : reach v0
| reach_owner v o : reach v → reach (setOwner v o)
| reach_place v r : reach v → reach (place v r).2
| reach_replicas v reps commit ok v' :
    reach v → PlaceReplicas (Some v) reps commit = (ok, Some v') → reach v'
| reach_reclaiming v reps commit reclaimable ok took v' :
    reach v → (∀ k o, reclaimable !! k = Some o → rec_ok o) →
    (∀ s, s ∈ reps → (GPUs s ≤ int_max)%Z) →
    PlaceReplicasReclaiming (Some v) reps commit reclaimable = (ok, took, Some v') → reach v'
| reach_reserve v o a gpus v' :
    reach v → (gpus ≤ int_max)%Z → Reserve (Some v) o a gpus = Some v' → reach v'
| reach_without v ex v' :
    reach v → owned v ≠ None → without (Some v) ex = Some v' → reach v'
| reach_adopt v o rs :
    reach v → reach (adopt (setOwner v o) (foldl (λ c r, (place c r).2) (Clone v) rs))
| reach_rollback v u :
    reach v → reach u → reach (restoreDebits v (saveDebits u)).

Lemma setOwner_wf v o : wf v → wf (setOwner v o).
Proof. intros Hw. split; apply Hw. Qed.

Lemma reclaim_inv_start orig :
  (∀ k o, orig !! k = Some o → rec_ok o) → reclaim_inv orig orig ∅.
Proof.
  intros Hok k o Ho. exists o. split; [done|]. rewrite lookup_empty. simpl.
  specialize (Hok k o Ho). unfold rec_split, rec_ok, zero_reclaim in *. simpl.
  unfold int_max in *. lia.
Qed.

Lemma Reserve_wf v o a gpus v' :
  wf v → (gpus ≤ int_max)%Z → Reserve (Some v) o a gpus = Some v' →
  let nodes := eligible v a [] true in
  wf v' ∧ slots v' = slots v ∧ owner v' = owner v ∧
  sumZ (debit_at v') nodes =
    (sumZ (debit_at v) nodes + Z.min (Z.max 0 gpus) (sumZ (free v) nodes))%Z ∧
  (∀ i, i ∉ nodes → debit_at v' i = debit_at v i) ∧
  (∀ m, owned v = Some m → ∃ m', owned v' = Some m' ∧ ∀ o', o' ≠ o → m' !! o' = m !! o').
Proof.
  intros Hw Hg. cbn [Reserve]. set (nodes := eligible v a [] true).
  assert (Hs0 : (0 ≤ sumZ (free v) nodes)%Z) by (apply sumZ_nonneg; intros; apply free_nonneg).
  destruct (Z.leb_spec gpus 0) as [H0|H0].
  { intros [= <-]. split_and!; [done|done|done|lia|done|eauto]. }
  intros [= <-].
  destruct (reserve_loop_spec (S (length nodes)) (setOwner v o) nodes gpus)
    as (G1 & (G2 & G2' & G2'' & _) & G3 & G4 & G5).
  - by apply setOwner_wf.
  - apply NoDup_filter, NoDup_seq.
  - intros i Hi. by eapply eligible_valid.
  - lia.
  - unfold open_nodes.
    assert (Hl : ∀ l, (sumZ (λ i, if (0 <? free (setOwner v o) i)%Z then 1%Z else 0%Z) l ≤ Z.of_nat (length l))%Z).
    { induction l as [|i l IH]; [done|]. rewrite sumZ_cons. simpl. case_match; lia. }
    specialize (Hl nodes). lia.
  - split_and!; [by apply setOwner_wf|done|done| |done|].
    + rewrite Z.max_r by lia. exact G3.
    + intros m Hm. apply (G5 m Hm).
Qed.

(** A view whose debits are another's. *)
Lemma reclaiming_wf v reps commit reclaimable ok took v' :
  wf v → (∀ k o, reclaimable !! k = Some o → rec_ok o) →
  (∀ s, s ∈ reps → (GPUs s ≤ int_max)%Z) →
  PlaceReplicasReclaiming (Some v) reps commit reclaimable = (ok, took, Some v') →
  wf v' ∧ slots v' = slots v ∧
  (∀ k t, took !! k = Some t → ∃ o, reclaimable !! k = Some o ∧ rec_ok t ∧
     (After t ≤ After o ∧ Kept t ≤ Kept o ∧ rec_GPUs t ≤ rec_GPUs o)%Z).
Proof.
  intros Hw Hok Hg. cbn [PlaceReplicasReclaiming].
  destruct (place_reclaiming (Clone v) reclaimable ∅ reps) as [[trial tk]|] eqn:E.
  2: { intros [= <- <- <-]. split_and!; [done|done|]. intros k t. by rewrite lookup_empty. }
  destruct (place_reclaiming_spec reclaimable (Clone v) reclaimable ∅ reps trial tk)
    as (H1 & H2 & H3 & left' & H4); try done.
  { intros k. by rewrite lookup_empty; intros []. }
  { by apply reclaim_inv_start. }
  { by apply Clone_wf. }
  assert (Hgr : grows v trial) by (etrans; [apply Clone_grows|done]).
  destruct (adopt_wf v trial Hw H1 Hgr) as (A1 & [A2 _] & _).
  intros [= <- <- <-]. split_and!; [by destruct commit|by destruct commit|].
  intros k t Ht. destruct (H3 k) as [o Ho]; [eauto|]. exists o.
  destruct (H4 k o Ho) as (l & _ & Hsp). rewrite Ht in Hsp. simpl in Hsp.
  unfold rec_split, rec_ok in *. split; [done|]. lia.
Qed.

Lemma replicas_wf v reps commit ok v' :
  wf v → PlaceReplicas (Some v) reps commit = (ok, Some v') →
  wf v' ∧ grows v v' ∧ owner v' = owner v ∧
  (if ok && commit then
     total_debit v' = (total_debit v + shapes_total v reps)%Z ∧
     (∀ m o, owned v = Some m → o ≠ owner v → ∃ m', owned v' = Some m' ∧ m' !! o = m !! o)
   else v' = v).
Proof.
  intros Hw. cbn [PlaceReplicas].
  destruct (place_shapes (Clone v) reps) as [trial|] eqn:E.
  2: { intros [= <- <-]. split_and!; [done|reflexivity|done|done]. }
  destruct (place_shapes_spec _ _ _ (Clone_wf v Hw) E) as (Hw' & Hg & Ht).
  assert (Hgr : grows v trial) by (etrans; [apply Clone_grows|done]).
  destruct (adopt_wf v trial Hw Hw' Hgr) as (A1 & A2 & A3 & A4 & A5).
  destruct commit; intros [= <- <-]; simpl; [|split_and!; [done|reflexivity|done|done]].
  split_and!; [done|done|done| |by apply A5].
  rewrite (total_debit_eq _ trial); [exact Ht| |done].
  destruct A2 as [-> _]. symmetry. apply Hgr.
Qed.

(** Replicas tried one by one, each placed or left out. *)
Lemma places_grow rs c : wf c → wf (foldl (λ c r, (place c r).2) c rs) ∧ grows c (foldl (λ c r, (place c r).2) c rs).
Proof.
  revert c. induction rs as [|r rs IH]; intros c Hc; cbn [foldl]; [by split|].
  destruct (place_grows c r Hc) as [Hw Hg]. destruct (IH _ Hw) as [Hw' Hg']. split; [done|by etrans].
Qed.

Lemma reach_wf v : wf v0 → reach v → wf v ∧ slots v = slots v0.
Proof.
  intros H0 Hr. induction Hr as [|v o _ [Hw Hs]|v r _ [Hw Hs]|v reps commit ok v' _ [Hw Hs] Hp
    |v reps commit rc ok took v' _ [Hw Hs] Hok Hg Hp|v o a g v' _ [Hw Hs] Hg Hp
    |v ex v' _ [Hw Hs] Ho Hp|v o rs _ [Hw Hs]|v u _ [Hw Hs] _ [Hw' Hs']].
  - done.
  - split; [by apply setOwner_wf|done].
  - destruct (place_grows v r Hw) as [? [? _]]. split; [done|congruence].
  - destruct (replicas_wf _ _ _ _ _ Hw Hp) as (? & [? _] & _). split; [done|congruence].
  - destruct (reclaiming_wf _ _ _ _ _ _ _ Hw Hok Hg Hp) as (? & ? & _). split; [done|congruence].
  - destruct (Reserve_wf _ _ _ _ _ Hw Hg Hp) as (? & ? & _). split; [done|congruence].
  - destruct (without_wf _ _ _ Hw Ho Hp) as [? ?]. split; [done|congruence].
  - destruct (places_grow rs (Clone v) (Clone_wf v Hw)) as [Hw' Hg].
    destruct (adopt_wf (setOwner v o) _ (setOwner_wf v o Hw) Hw') as (? & [Hs' _] & _); [exact (transitivity (Clone_grows v) Hg)|].
    split; [done|]. rewrite Hs'. exact Hs.
  - split; [|done]. split; cbn [slots debit owned restoreDebits saveDebits set_owned set_debit
      saved_debit saved_owned].
    + apply Hw.
    + intros i d Hi. rewrite Hs, <- Hs'. by apply (wf_debit _ Hw').
    + apply (wf_pos _ Hw').
    + intros m i Hm. rewrite (wf_owned _ Hw' m i Hm). done.
Qed.
End reachable.

(** ** Properties *)

(** A cluster of three nodes, for the witnesses: two zones, one 8-GPU node with
    4 in use. A toleration of the witnesses tolerates the taint of its key. *)
Definition by_key : TaintMatcher := λ tol t, String.eqb (tol_Key tol) (taint_Key t).

Definition gpu_node (used : Z) (zone : string) : NodeGPU :=
  MkNodeGPU "NVIDIA-H100-PCIe" 8 used (<["zone" := zone]> ∅) false [] false [].

Definition three_nodes : gmap string NodeGPU :=
  <["n1" := gpu_node 4 "a"]> (<["n2" := gpu_node 0 "a"]> (<["n3" := gpu_node 0 "b"]> ∅)).

Definition three_view : NodeView := default (MkView [] ∅ "" None 0 ∅) (newNodeViewAt (Some three_nodes) 0).

Lemma three_nodes_ok : snap_ok three_nodes.
Proof.
  intros name n. unfold three_nodes.
  rewrite !lookup_insert_Some, lookup_empty. unfold int_max.
  intros [[_ <-]|[_ [[_ <-]|[_ [[_ <-]|[_ ?]]]]]]; simpl; (lia || done).
Qed.

Lemma three_view_wf : wf three_view ∧ names_unique three_view.
Proof. apply (newNodeViewAt_wf three_nodes 0); [apply three_nodes_ok|done]. Qed.

(** A two-pod gang of 8 and 4 GPUs pinned to one zone. *)
Definition gang : replicaFit := MkFit "H100" [4%Z; 8%Z] [] "zone" [] None.

(** C2: whatever sequence of placements, tentative passes on clones, adopted or
    not, reservations, take-backs, owner changes and rollbacks a cycle runs on a view built from a
    node snapshot, no node is ever debited more GPUs than it has unused, every
    debit is positive, and the owners' accounts of a node add up to its debit. *)
Theorem view_never_overcommits `{TaintMatcher} snap t v0 v :
  snap_ok snap → newNodeViewAt (Some snap) t = Some v0 → reach v0 v →
  slots v = slots v0 ∧
  (∀ i d, debit v !! i = Some d →
     ∃ n, slots v0 !! i = Some n ∧ (0 < d ≤ Z.max 0 (capacity n - used n))%Z) ∧
  (∀ i n, slots v0 !! i = Some n →
     free v i = (Z.max 0 (capacity n - used n) - debit_at v i)%Z) ∧
  (∀ m i, owned v = Some m → owned_sum m i = debit_at v i).
Proof.
  intros Hs Hv Hr. destruct (newNodeViewAt_wf _ _ _ Hs Hv) as [H0 _].
  destruct (reach_wf v0 v H0 Hr) as [Hw Heq]. split_and!; [done| | |apply (wf_owned _ Hw)].
  - intros i d Hd. rewrite <- Heq. by apply (wf_debit _ Hw).
  - intros i n Hn. apply free_wf; [done|by rewrite Heq].
Qed.

Lemma view_never_overcommits_witness :
  let v := (place (H := by_key) (setOwner three_view "model-a") gang).2 in
  (place (H := by_key) (setOwner three_view "model-a") gang).1 = true ∧
  ∀ i d, debit v !! i = Some d →
    ∃ n, slots three_view !! i = Some n ∧ (0 < d ≤ Z.max 0 (capacity n - used n))%Z.
Proof.
  split; [vm_compute; reflexivity|].
  refine (proj1 (proj2 (view_never_overcommits (H := by_key) three_nodes 0 three_view _
    three_nodes_ok _ _))).
  - reflexivity.
  - apply reach_place, reach_owner, reach_start.
Defined.

(** C12: [place] is all or nothing and correct.  When it fails the view is
    untouched.  When it succeeds, every pod of the replica that takes GPUs has one
    node it may land on, exactly the pods' GPUs are debited there, the nodes still
    are not overcommitted, and an exclusive-topology group landed in a single
    domain that held no other group and is taken afterwards. *)
Theorem place_correct `{TaintMatcher} v r :
  wf v →
  match place v r with
  | (false, v') => v' = v
  | (true, v') =>
      wf v' ∧ slots v' = slots v ∧ total_debit v' = (total_debit v + pods_total r)%Z ∧
      ∃ dom assign,
        Forall2 (λ p i, i ∈ pod_nodes p ∧ (dom = "" ∨ label_of v i (domain r) = dom))
          (podFits v r) assign ∧
        (∀ i, debit_at v' i = (debit_at v i + pod_load (podFits v r) assign i)%Z) ∧
        (exclusive_fit v r = true →
           dom ≠ "" ∧ domainTaken v (domain r) dom = false ∧
           domainTaken v' (domain r) dom = true)
  end.
Proof.
  intros Hw. unfold place. destruct (place_opt v r) as [v'|] eqn:E; [|done].
  destruct (place_opt_spec v r v' Hw E) as (dom & assign & Hp).
  split_and!; [apply Hp|apply Hp|by eapply placed_total|].
  exists dom, assign. split_and!; [apply Hp|apply Hp|].
  intros Hex. pose proof (placed_domain _ _ _ _ _ Hp) as Hd. rewrite Hex in Hd.
  destruct Hd as (H1 & H2 & H3). split_and!; [done|done|].
  unfold domainTaken. rewrite bool_decide_true; [done|]. rewrite H3, lookup_insert_eq. eauto.
Qed.

Lemma place_correct_witness :
  (place (H := by_key) three_view gang).1 = true ∧
  wf (place (H := by_key) three_view gang).2.
Proof.
  pose proof (place_correct (H := by_key) three_view gang (proj1 three_view_wf)) as Hp.
  assert (Ht : (place (H := by_key) three_view gang).1 = true) by (vm_compute; reflexivity).
  split; [exact Ht|]. destruct (place (H := by_key) three_view gang) as [[] v'].
  - apply Hp.
  - discriminate.
Defined.

(** A group of replicas is placed whole or not at all.  A refused group, or
    one tried without committing, leaves the view as it was; a committed one adds
    exactly the GPUs of all its pods, charges them to the view's current owner
    alone, lowers no node's debit and keeps the accounts in balance. *)
Theorem PlaceReplicas_correct `{TaintMatcher} v reps commit ok v' :
  wf v → PlaceReplicas (Some v) reps commit = (ok, Some v') →
  wf v' ∧ grows v v' ∧ owner v' = owner v ∧
  (if ok && commit then
     total_debit v' = (total_debit v + shapes_total v reps)%Z ∧
     (∀ m o, owned v = Some m → o ≠ owner v → ∃ m', owned v' = Some m' ∧ m' !! o = m !! o)
   else v' = v).
Proof. apply replicas_wf. Qed.

Definition one_gpu_pod (g : Z) : ReplicaShape := MkShape "ns/a" "H100" [g] g [] "" [] None.

Lemma PlaceReplicas_correct_witness :
  (PlaceReplicas (H := by_key) (Some three_view) [one_gpu_pod 8; one_gpu_pod 4] true).1 = true ∧
  ∃ v', (PlaceReplicas (H := by_key) (Some three_view) [one_gpu_pod 8; one_gpu_pod 4] true).2 = Some v'
        ∧ total_debit v' = 12%Z.
Proof.
  split; [vm_compute; reflexivity|].
  destruct (PlaceReplicas (H := by_key) (Some three_view) [one_gpu_pod 8; one_gpu_pod 4] true)
    as [ok [v'|]] eqn:E; [|vm_compute in E; discriminate].
  assert (Hok : ok = true) by (vm_compute in E; congruence). subst ok.
  exists v'. split; [reflexivity|].
  destruct (PlaceReplicas_correct (H := by_key) _ _ _ _ _ (proj1 three_view_wf) E)
    as (_ & _ & _ & Ht & _). rewrite Ht. vm_compute. reflexivity.
Defined.

(** The fast path of [fits] for one-pod replicas (whole pods per node,
    summed) counts exactly what placing them one by one on a copy would. *)
Theorem fits_fast_path `{TaintMatcher} v r need n :
  pods r = [need] → (0 < need)%Z → wf v → (0 < n)%Z →
  (n + sumZ (free v) (eligibleFor v r (podTemplates r 0)) ≤ int_max)%Z →
  fits (Some v) r n = fits_loop (Clone v) r (Z.to_nat n) 0.
Proof.
  intros Hp Hneed Hw Hn Ho. rewrite (fits_single_count r need) by done.
  assert (0 ≤ sumZ (free v) (eligibleFor v r (podTemplates r 0)))%Z
    by (apply sumZ_nonneg; intros; apply free_nonneg).
  rewrite (fits_loop_count r need) by (done || (by apply Clone_wf) || lia).
  rewrite Z2Nat.id by lia. done.
Qed.

Lemma fits_fast_path_witness :
  let r := MkFit "H100" [3%Z] [] "" [] None in
  fits (H := by_key) (Some three_view) r 9 = 5%Z ∧
  fits (H := by_key) (Some three_view) r 9 = fits_loop (H := by_key) (Clone three_view) r 9 0.
Proof.
  split; [vm_compute; reflexivity|].
  apply (fits_fast_path (H := by_key) three_view (MkFit "H100" [3%Z] [] "" [] None) 3 9).
  - reflexivity.
  - lia.
  - apply three_view_wf.
  - lia.
  - vm_compute. discriminate.
Defined.

(** [Reserve] ends, and takes from the nodes of its accelerator exactly the
    GPUs asked for, or everything they have free when that is less; it touches no
    other node, charges nobody but the given owner, and gives the view its owner
    back. *)
Theorem Reserve_correct `{TaintMatcher} v o a gpus v' :
  wf v → (gpus ≤ int_max)%Z → Reserve (Some v) o a gpus = Some v' →
  let nodes := eligible v a [] true in
  wf v' ∧ slots v' = slots v ∧ owner v' = owner v ∧
  sumZ (debit_at v') nodes =
    (sumZ (debit_at v) nodes + Z.min (Z.max 0 gpus) (sumZ (free v) nodes))%Z ∧
  (∀ i, i ∉ nodes → debit_at v' i = debit_at v i) ∧
  (∀ m, owned v = Some m → ∃ m', owned v' = Some m' ∧ ∀ o', o' ≠ o → m' !! o' = m !! o').
Proof. apply Reserve_wf. Qed.

Lemma Reserve_correct_witness :
  ∃ v', Reserve (H := by_key) (Some three_view) "promised" "H100" 11 = Some v' ∧
    sumZ (debit_at v') [0; 1; 2]%nat = 11%Z.
Proof.
  destruct (Reserve (H := by_key) (Some three_view) "promised" "H100" 11) as [v'|] eqn:E;
    [|discriminate]. exists v'. split; [reflexivity|].
  destruct (Reserve_correct (H := by_key) three_view "promised" "H100" 11 v'
    (proj1 three_view_wf)) as (_ & _ & _ & Hs & _).
  - vm_compute. discriminate.
  - exact E.
  - assert (Hn : eligible (H := by_key) three_view "H100" [] true = [0; 1; 2]%nat)
      by (vm_compute; reflexivity).
    rewrite Hn in Hs. rewrite Hs. vm_compute. reflexivity.
Defined.

(** The two ways of reading a view less some owners agree: the view [without]
    them is debited on each node exactly what [DebitsExcept] reports under the
    node's name, which is what the remaining owners were charged there. *)
Theorem without_matches_DebitsExcept v m ex c out i n :
  wf v → names_unique v → owned v = Some m →
  without (Some v) ex = Some c → DebitsExcept (Some v) ex = Some out →
  slots v !! i = Some n →
  debit_at c i = default 0%Z (out !! slot_name n) ∧
  debit_at c i = kept_sum (λ o, negb (ex o)) (map_to_list m) i ∧
  (debit_at c i ≤ debit_at v i)%Z ∧ wf c.
Proof.
  intros Hw Hu Hm Hc Ho Hn. destruct (without_debit v m ex c Hw Hm Hc) as [_ Hd].
  pose proof (DebitsExcept_at v m ex out i n Hw Hu Hm Ho Hn) as Hout. unfold name_at in Hout.
  destruct (without_wf v ex c Hw) as [Hwc _]; [congruence|done|].
  split_and!; [by rewrite Hout|done| |done].
  rewrite Hd, <- (wf_owned _ Hw m i Hm). unfold owned_sum.
  rewrite <- (kept_split ex (map_to_list m) i).
  assert (0 ≤ kept_sum ex (map_to_list m) i)%Z; [|lia].
  apply sumZ_nonneg. intros o Hin. case_match; [|done]. by apply (owned_at_nonneg v m).
Qed.

Lemma without_matches_DebitsExcept_witness :
  let v := (place (H := by_key) (setOwner three_view "model-a") (MkFit "H100" [8%Z] [] "" [] None)).2 in
  ∃ c, without (Some v) (String.eqb "model-a") = Some c ∧ debit_at c 1 = 0%Z ∧ wf c.
Proof.
  set (v := (place (H := by_key) (setOwner three_view "model-a") (MkFit "H100" [8%Z] [] "" [] None)).2).
  assert (Hw : wf v) by (apply place_grows, setOwner_wf, three_view_wf).
  assert (Hu : names_unique v).
  { assert (Hsl : slots v = slots three_view)
      by apply (place_grows (setOwner three_view "model-a") _ (setOwner_wf _ _ (proj1 three_view_wf))).
    intros i j n k. rewrite Hsl. apply three_view_wf. }
  destruct (owned v) as [m|] eqn:Hm; [|vm_compute in Hm; discriminate].
  destruct (without (Some v) (String.eqb "model-a")) as [c|] eqn:Hc; [|discriminate].
  destruct (DebitsExcept (Some v) (String.eqb "model-a")) as [out|] eqn:Ho; [|discriminate].
  destruct (slots v !! 1%nat) as [n|] eqn:Hn; [|vm_compute in Hn; discriminate].
  exists c. split; [exact Hc|].
  destruct (without_matches_DebitsExcept v m (String.eqb "model-a") c out 1%nat n
    Hw Hu Hm Hc Ho Hn) as (He & _ & _ & Hwc).
  split; [|exact Hwc]. injection Hc as <-. vm_compute. reflexivity.
Defined.

(** The eligibility memo shared by a view and its clones is transparent: as
    long as names and tolerations carry no control character, an answer read
    through the memo is the one computed from the nodes, and stays so. *)
Theorem eligible_cached_transparent `{TaintMatcher} v cache a ts any :
  memo_ok v cache → no_ctl a → Forall good_toleration ts →
  (eligible_cached cache v a ts any).1 = eligible v a ts any ∧
  memo_ok v (eligible_cached cache v a ts any).2.
Proof. apply eligible_cached_ok. Qed.

Lemma eligible_cached_transparent_witness :
  (eligible_cached (H := by_key) ∅ three_view "H100" [] false).1 = [0; 1; 2]%nat ∧
  memo_ok (H := by_key) three_view (eligible_cached (H := by_key) ∅ three_view "H100" [] false).2.
Proof.
  split; [vm_compute; reflexivity|].
  apply (eligible_cached_transparent (H := by_key) three_view ∅ "H100" [] false).
  - intros a ts any nodes _ _. by rewrite lookup_empty.
  - split; reflexivity.
  - constructor.
Defined.

(** What a wake takes of the growth Kueue reclaims never exceeds what was
    reclaimable, figure by figure, whether or not it is committed; a refused wake
    takes nothing and leaves the view alone. *)
Theorem PlaceReplicasReclaiming_bounded `{TaintMatcher} v reps commit reclaimable ok took v' :
  wf v → (∀ k o, reclaimable !! k = Some o → rec_ok o) →
  (∀ s, s ∈ reps → (GPUs s ≤ int_max)%Z) →
  PlaceReplicasReclaiming (Some v) reps commit reclaimable = (ok, took, Some v') →
  wf v' ∧ slots v' = slots v ∧
  (∀ k t, took !! k = Some t → ∃ o, reclaimable !! k = Some o ∧ rec_ok t ∧
     (After t ≤ After o ∧ Kept t ≤ Kept o ∧ rec_GPUs t ≤ rec_GPUs o)%Z) ∧
  (ok = false → took = ∅ ∧ v' = v).
Proof.
  intros Hw Hok Hg Hp. destruct (reclaiming_wf v reps commit reclaimable ok took v')
    as (H1 & H2 & H3); try done.
  split_and!; [done|done|done|]. intros ->. cbn [PlaceReplicasReclaiming] in Hp.
  destruct (place_reclaiming _ _ _ _) as [[? ?]|]; [done|]. by injection Hp as <- <-.
Qed.

Lemma PlaceReplicasReclaiming_bounded_witness :
  let rc : gmap string Reclaim := <["H100" := MkReclaim 0 0 16 false]> ∅ in
  let res := PlaceReplicasReclaiming (H := by_key) (Some three_view) [one_gpu_pod 16] true rc in
  res.1.1 = true ∧
  ∀ k t, res.1.2 !! k = Some t → ∃ o, rc !! k = Some o ∧ (rec_GPUs t ≤ rec_GPUs o)%Z.
Proof.
  split; [vm_compute; reflexivity|]. cbv zeta.
  set (rc := <["H100" := MkReclaim 0 0 16 false]> (∅ : gmap string Reclaim)).
  destruct (PlaceReplicasReclaiming (H := by_key) (Some three_view) [one_gpu_pod 16] true rc)
    as [[ok took] [v'|]] eqn:E; [|vm_compute in E; discriminate].
  destruct (PlaceReplicasReclaiming_bounded (H := by_key) three_view [one_gpu_pod 16] true rc ok took v')
    as (_ & _ & Hb & _).
  - apply three_view_wf.
  - unfold rc. intros k o. rewrite lookup_insert_Some, lookup_empty.
    intros [[_ <-]|[_ ?]]; [|discriminate]. unfold rec_ok, int_max. simpl. lia.
  - intros s Hs. apply list_elem_of_singleton in Hs as ->. vm_compute. discriminate.
  - exact E.
  - intros k t Hk. destruct (Hb k t Hk) as (o & Ho & _ & _ & _ & Hle). exists o. split; [exact Ho|exact Hle].
Defined.
