(* ===== verification/InFlight.v ===== *)
(** * The in-flight ledger

    The model of [internal/engines/allocation/inflight.go] and
    [inflight_persist.go]: the replicas admitted onto node holes whose pods hold
    no node yet, the clock of each hold, the holes it debits from a node view and
    what survives a restart.

    Times and durations are [Z] nanoseconds.  The closure that counts a
    variant's pods is an opaque handle; [settle] takes what each handle answers
    when it is asked.  The persisted ledger is modelled as the record it
    encodes, with the length of an encoded entry as a parameter. *)
From Stdlib Require Import ZArith Lia String Ascii.
From stdpp Require Import base gmap strings list sorting fin_maps.
From S2P Require Import Prelude Accelerator Budget NodeView.

Definition Second : Z := 1000000000.
Definition InFlightTTL : Z := 5 * 60 * Second.
Definition InFlightOwner : string := "in-flight".
Definition sightedFor : Z := 2 * InFlightTTL.

Record PartialReplica := MkPartial { partial_Node : string; PlacedGPUs : list Z }.

Record partialSeen := MkPartialSeen { seen_partial : PartialReplica; seen_at : list Z }.

Record Placed := MkPlaced { Whole : Z; Partial : list PartialReplica }.

Record placedAt := MkPlacedAt { placed_n : Z; placed_at : Z }.

(** The handle of a [placed] closure. *)
Definition counter : Type := nat.

Record inFlightEntry := MkEntry {
  shape : ReplicaShape; want : Z; base : Z; seen : list placedAt; expires : Z; ttl : Z;
  placed_fn : option counter; partial : list partialSeen }.

Record InFlightLedger := MkLedger {
  entries : gmap string inFlightEntry; sighted : gmap string Z; restored : gset string }.

Definition NewInFlightLedger : InFlightLedger := MkLedger ∅ ∅ ∅.

Record InFlightAdmission := MkAdmission {
  adm_Key : string; adm_Shape : ReplicaShape; adm_Want : Z; adm_PlacedNow : Z;
  adm_Placed : option counter; adm_TTL : Z; ExistingOnly : bool; Unplaced : bool }.

(** ** Partial replicas *)

(** The first old partial replica on the node, and the others. *)
Fixpoint find_partial (old : list partialSeen) (node : string)
  : option (partialSeen * list partialSeen) :=
  match old with
  | [] => None
  | o :: old =>
      if String.eqb (partial_Node (seen_partial o)) node then Some (o, old)
      else '(f, rest) ← find_partial old node; Some (f, o :: rest)
  end.

(** When a pod of [g] GPUs was first seen, and the times of the other pods. *)
Fixpoint take_time (pairs : list (Z * Z)) (g : Z) : option (Z * list (Z * Z)) :=
  match pairs with
  | [] => None
  | (g', t) :: pairs =>
      if (g' =? g)%Z then Some (t, pairs)
      else '(t', rest) ← take_time pairs g; Some (t', (g', t) :: rest)
  end.

Fixpoint stamp (gpus : list Z) (pairs : list (Z * Z)) (now : Z) : list Z :=
  match gpus with
  | [] => []
  | g :: gpus =>
      match take_time pairs g with
      | Some (t, rest) => t :: stamp gpus rest now
      | None => now :: stamp gpus pairs now
      end
  end.

Fixpoint mergePartial (old : list partialSeen) (cur : list PartialReplica) (now : Z)
  : list partialSeen :=
  match cur with
  | [] => []
  | c :: cur =>
      let '(pairs, old) :=
        match find_partial old (partial_Node c) with
        | Some (o, rest) => (zip (PlacedGPUs (seen_partial o)) (seen_at o), rest)
        | None => ([], old)
        end in
      MkPartialSeen c (stamp (PlacedGPUs c) pairs now) :: mergePartial old cur now
  end.

(** ** Admission *)
Definition set_entries (l : InFlightLedger) e := MkLedger e (sighted l) (restored l).

Definition with_flavor_of (s : ReplicaShape) (e : ReplicaShape) : ReplicaShape :=
  MkShape (Variant s) (shape_Accelerator s) (PodGPUs s) (GPUs s) (Tolerations s) (DomainKey s)
    (Placements e) (Flavor e).

(** The update of an entry that exists. *)
Definition readmit (e : inFlightEntry) (a : InFlightAdmission) (now : Z) : inFlightEntry :=
  let t0 := Z.max (adm_TTL a) InFlightTTL in
  let keep := match Flavor (adm_Shape a), Flavor (shape e) with
              | None, Some _ => (adm_Want a <=? want e)%Z
              | _, _ => false
              end in
  let sh := if keep then with_flavor_of (adm_Shape a) (shape e) else adm_Shape a in
  let t := if keep then Z.max t0 (ttl e) else t0 in
  let ex := if (want e <? adm_Want a)%Z then (now + t)%Z
            else if negb (t =? ttl e)%Z then (expires e + (t - ttl e))%Z
            else expires e in
  MkEntry sh (adm_Want a) (Z.max (base e) (adm_PlacedNow a)) (seen e) ex t (adm_Placed a) (partial e).

Definition admitLocked (l : InFlightLedger) (a : InFlightAdmission) (now : Z) (sight : bool)
  : InFlightLedger :=
  let key := adm_Key a in
  let was_sighted := bool_decide (is_Some (sighted l !! key)) in
  let l := if sight then MkLedger (entries l) (<[key := now]> (sighted l)) (restored l ∖ {[key]})
           else l in
  if (adm_Want a <=? adm_PlacedNow a)%Z then set_entries l (delete key (entries l))
  else
    let t := Z.max (adm_TTL a) InFlightTTL in
    match entries l !! key with
    | None =>
        if ExistingOnly a && (Unplaced a || was_sighted) then l
        else set_entries l (<[key := MkEntry (adm_Shape a) (adm_Want a) (adm_PlacedNow a) []
                                       (now + t) t (adm_Placed a) []]> (entries l))
    | Some e => set_entries l (<[key := readmit e a now]> (entries l))
    end.

Definition Admit (l : InFlightLedger) (key : string) (s : ReplicaShape) (w placedNow : Z)
    (fn : option counter) (now : Z) : InFlightLedger :=
  admitLocked l (MkAdmission key s w placedNow fn 0 false false) now true.

Notation InFlightMark := (gmap string (option inFlightEntry)).

Definition mark_step (l : InFlightLedger) (mark : InFlightMark) (a : InFlightAdmission)
  : InFlightMark :=
  match mark !! adm_Key a with
  | Some _ => mark
  | None => <[adm_Key a := entries l !! adm_Key a]> mark
  end.

Definition Provisional (l : InFlightLedger) (adms : list InFlightAdmission) (now : Z)
  : InFlightMark * InFlightLedger :=
  (foldl (mark_step l) ∅ adms, foldl (λ l a, admitLocked l a now false) l adms).

Definition unmark (e : gmap string inFlightEntry) (m : string * option inFlightEntry)
  : gmap string inFlightEntry :=
  match m.2 with None => delete m.1 e | Some prev => <[m.1 := prev]> e end.

Definition Commit (l : InFlightLedger) (mark : InFlightMark) (adms : list InFlightAdmission)
    (now : Z) : InFlightLedger :=
  let l := set_entries l (foldl unmark (entries l) (map_to_list mark)) in
  let l := MkLedger (entries l)
             (filter (λ e : string * Z, (now - e.2 <= sightedFor)%Z) (sighted l)) (restored l) in
  foldl (λ l a, admitLocked l a now true) l adms.

Definition Holds (l : InFlightLedger) (key : string) (now : Z) : bool :=
  match entries l !! key with Some e => (now <? expires e)%Z | None => false end.

Definition Forget (l : InFlightLedger) (key : string) : InFlightLedger :=
  set_entries l (delete key (entries l)).

(** ** Settling the counts *)

(** The entries to count, read under the lock. *)
Definition settle_counters (l : InFlightLedger) : list (string * counter) :=
  omap (λ k, e ← entries l !! k; f ← placed_fn e; Some (k, f))
    (sort_strings (map_to_list (entries l)).*1).

(** The counts, read without it. *)
Definition observe (read : counter → option Placed) (cs : list (string * counter))
  : gmap string Placed :=
  foldl (λ o c, match read c.2 with Some p => <[c.1 := p]> o | None => o end) ∅ cs.

Definition last_seen (e : inFlightEntry) : option placedAt := last (seen e).

Definition settle_entry (e : inFlightEntry) (p : option Placed) (now : Z) : option inFlightEntry :=
  if (Z.max (ttl e) InFlightTTL <? now - expires e)%Z then None
  else match p with
       | None => Some e
       | Some p =>
           let n := Whole p in
           if (want e <=? n)%Z then None
           else
             let grow := (base e <? n)%Z &&
                         match last_seen e with None => true | Some s => (placed_n s <? n)%Z end in
             Some (MkEntry (shape e) (want e) (base e)
                     (if grow then seen e ++ [MkPlacedAt n now] else seen e)
                     (expires e) (ttl e) (placed_fn e) (mergePartial (partial e) (Partial p) now))
       end.

Definition settle_step (observed : gmap string Placed) (now : Z)
    (es : gmap string inFlightEntry) (k : string) : gmap string inFlightEntry :=
  match es !! k with
  | None => es
  | Some e => match settle_entry e (observed !! k) now with
              | None => delete k es
              | Some e' => <[k := e']> es
              end
  end.

(** The second critical section, on the keys and counts the first one read. *)
Definition settle_apply (l : InFlightLedger) (keys : list string) (observed : gmap string Placed)
    (now : Z) : InFlightLedger :=
  set_entries l (foldl (settle_step observed now) (entries l) keys).

Definition settle (l : InFlightLedger) (read : counter → option Placed) (now : Z)
  : InFlightLedger :=
  settle_apply l (sort_strings (map_to_list (entries l)).*1)
    (observe read (settle_counters l)) now.

(** ** Holding the ledger's holes on a view *)
Definition inFlightReplicaOwner (key : string) (n : Z) : string :=
  InFlightOwner +:+ String Ascii.zero (key +:+ String Ascii.zero (Itoa n)).

Definition placed_by (e : inFlightEntry) (snapshot : Z) : Z :=
  foldl (λ p s, if (placed_at s <=? snapshot)%Z then Z.max p (placed_n s) else p) (base e) (seen e).

Fixpoint remove_first (g : Z) (l : list Z) : list Z :=
  match l with
  | [] => []
  | x :: l => if (x =? g)%Z then l else x :: remove_first g l
  end.

(** The GPUs of the pods that hold no node yet. *)
Definition rest_pods (pods placed : list Z) : list Z :=
  filter (λ g, (0 < g)%Z) (foldl (λ rest g, remove_first g rest) pods placed).

Definition largestFirst (l : list Z) : list Z := reverse (merge_sort Z.le l).

(** A placed pod the snapshot does not show yet is held on its node. *)
Definition hold_unseen (node : nat) (v : NodeView) (e : Z * Z) : NodeView :=
  let '(g, at_) := e in
  if (at_ <=? takenAt v)%Z then v
  else
    let f := free v node in
    if (0 <? f)%Z && (0 <? g)%Z then charge v node (Z.min g f) else v.

Section holding.
Context `{TaintMatcher}.

Definition hold_rest (v : NodeView) (r : replicaFit) (node : option nat) (rest : list Z) : NodeView :=
  match rest with
  | [] => v
  | _ =>
      let d := match node with
               | Some i => if String.eqb (domain r) "" then "" else label_of v i (domain r)
               | None => ""
               end in
      let key := if String.eqb d "" then "" else domain r in
      let nodes := eligibleFit v r in
      match bestFit v ((λ g, MkPodFit g nodes) <$> largestFirst rest) key d ∅ with
      | None => v
      | Some taken =>
          let v := charge_all v taken in
          if String.eqb d "" then v else takeDomain v (domainID key d)
      end
  end.

Definition holdPartial (v : NodeView) (r : replicaFit) (p : partialSeen) : NodeView :=
  match pods r with
  | [] => v
  | _ =>
      let placed := PlacedGPUs (seen_partial p) in
      let rest := rest_pods (pods r) placed in
      let node := slotOf v (partial_Node (seen_partial p)) in
      let v := match node with
               | Some i => foldl (hold_unseen i) v (zip placed (seen_at p))
               | None => v
               end in
      hold_rest v r node rest
  end.

(** One held replica, numbered from the variant's first. *)
Definition hold_replica (k : string) (e : inFlightEntry) (r : replicaFit) (placed : Z)
    (v : NodeView) (i : nat) : NodeView :=
  let v := setOwner v (inFlightReplicaOwner k (placed + 1 + Z.of_nat i)) in
  match partial e !! i with
  | Some p => holdPartial v r p
  | None => (place v r).2
  end.

Definition hold_entry (now : Z) (v : NodeView) (ke : string * inFlightEntry) : NodeView :=
  let '(k, e) := ke in
  if (expires e <=? now)%Z then v
  else
    let placed := placed_by e (takenAt v) in
    let r := fitOf v (shape e) in
    foldl (hold_replica k e r placed) v (seq 0 (Z.to_nat (want e - placed))).

Definition sorted_entries (l : InFlightLedger) : list (string * inFlightEntry) :=
  omap (λ k, (λ e, (k, e)) <$> entries l !! k) (sort_strings (map_to_list (entries l)).*1).

Definition hold_entries (l : InFlightLedger) (v : NodeView) (now : Z) : NodeView :=
  setOwner (foldl (hold_entry now) (setOwner v InFlightOwner) (sorted_entries l)) (owner v).

Definition holdOn (l : InFlightLedger) (v : option NodeView) (read : counter → option Placed)
    (now : Z) : InFlightLedger * option NodeView :=
  match v with
  | None => (l, None)
  | Some v =>
      let l := settle l read now in
      (l, Some (hold_entries l v now))
  end.
End holding.

(** ** Taking back the holes of replicas whose pods do not exist *)
Definition released (created : gmap string Z) (o : string) : bool :=
  match CutPrefix o (InFlightOwner +:+ String Ascii.zero EmptyString) with
  | None => false
  | Some rest =>
      match cut_char Ascii.zero rest with
      | None => false
      | Some (key, num) =>
          match created !! key, Atoi num with
          | Some have, Some n => (have <? n)%Z
          | _, _ => false
          end
      end
  end.

Definition ReleaseUncreated (v : option NodeView) (created : gmap string Z) : option NodeView :=
  v ← v;
  if bool_decide (created = ∅) then Some v
  else
    let m := default ∅ (owned v) in
    let d := foldl (λ d (o : string * gmap nat Z),
                      if released created o.1 then foldl take_back d (map_to_list o.2) else d)
               (debit v) (map_to_list m) in
    let m' := (λ _, filter (λ o : string * gmap nat Z, released created o.1 = false) m) <$> owned v in
    Some (set_domains (set_owned (set_debit v d) m')
            (filter (λ e : string * string, (bool_decide (is_Some (m !! e.2)) && released created e.2) = false)
               (domains v))).

(** ** The node view of a decision *)
Record NodeGPUStore := MkNodeStore { store_nodes : option (gmap string NodeGPU); store_at : Z }.

Definition NodeGPUsMaxAge : Z := 2 * 60 * Second.

Definition Publish (nodes : gmap string NodeGPU) (now : Z) : NodeGPUStore :=
  MkNodeStore (Some nodes) now.

(** [Latest] and [Read]: the snapshot when it is no older than [maxAge]. *)
Definition Latest (s : NodeGPUStore) (maxAge now : Z) : option (gmap string NodeGPU) :=
  nodes ← store_nodes s;
  if (maxAge <? now - store_at s)%Z then None else Some nodes.

(** The view, whether node fit was skipped for want of a snapshot, and the
    ledger after its counts were settled. *)
Definition NodeViewFor `{TaintMatcher} (constraints : list (option ResourceConstraints))
    (store : NodeGPUStore) (l : InFlightLedger) (read : counter → option Placed) (now : Z)
  : option NodeView * bool * InFlightLedger :=
  if negb (PhysicalBounds constraints) then (None, false, l)
  else match Latest store NodeGPUsMaxAge now with
       | None => (None, true, l)
       | Some snap =>
           let '(l, v) := holdOn l (newNodeViewAt (Some snap) (store_at store)) read now in
           (v, false, l)
       end.

(** ** Surviving a restart *)
Definition maxInFlightPersisted : nat := 512.
Definition maxInFlightBytes : Z := 131072.
Definition maxInFlightPods : nat := 256.
Definition maxLedgerReplicas : Z := 100000.
Definition InFlightFormat : Z := 1.

Record PersistedInFlightEntry := MkPersisted {
  pe_Accelerator : string; pe_PodGPUs : list Z; pe_GPUs : Z; pe_Tolerations : list Toleration;
  pe_DomainKey : string; pe_Placements : list PodPlacement; pe_Flavor : option FlavorPlacement;
  pe_Want : Z; pe_Placed : Z; pe_Expires : Z; pe_TTLSeconds : Z; pe_Partial : list PartialReplica }.

Record PersistedInFlight := MkPersistedLedger {
  Version : Z; Entries : gmap string PersistedInFlightEntry }.

Definition placed_count (e : inFlightEntry) : Z :=
  foldl (λ p s, Z.max p (placed_n s)) (base e) (seen e).

Definition persist_entry (e : inFlightEntry) : PersistedInFlightEntry :=
  let s := shape e in
  MkPersisted (shape_Accelerator s) (PodGPUs s) (GPUs s) (Tolerations s) (DomainKey s)
    (Placements s) (Flavor s) (want e) (placed_count e) (expires e)
    (Z.quot (ttl e + Second - 1) Second) (seen_partial <$> partial e).

(** Still holding a replica. *)
Definition live_entry (now : Z) (e : inFlightEntry) : bool :=
  (now <? expires e)%Z && (placed_count e <? want e)%Z.

(** The holds that end last first; on a tie, by key. *)
Definition by_expiry (a b : string * PersistedInFlightEntry) : bool :=
  (pe_Expires b.2 <? pe_Expires a.2)%Z
  || ((pe_Expires a.2 =? pe_Expires b.2)%Z && str_le a.1 b.1).

(** The loop that fills the entries up to the two limits. *)
Fixpoint take_entries (bytes : string → PersistedInFlightEntry → Z)
    (l : list (string * PersistedInFlightEntry)) (n : nat) (size : Z)
  : list (string * PersistedInFlightEntry) :=
  match l with
  | [] => []
  | (k, pe) :: l =>
      if (maxInFlightPersisted <=? n)%nat then []
      else
        let size := (size + bytes k pe)%Z in
        if (maxInFlightBytes <? size)%Z then []
        else (k, pe) :: take_entries bytes l (S n) size
  end.

Definition live_entries (l : InFlightLedger) (now : Z) : list (string * PersistedInFlightEntry) :=
  omap (λ ke : string * inFlightEntry, if live_entry now ke.2 then Some (ke.1, persist_entry ke.2) else None)
    (map_to_list (entries l)).

(** [bytes k pe] is the length of the key and of the encoded entry. *)
Definition MarshalInFlight (bytes : string → PersistedInFlightEntry → Z) (l : InFlightLedger)
    (now : Z) : PersistedInFlight :=
  MkPersistedLedger InFlightFormat
    (list_to_map (take_entries bytes (sort_stable by_expiry (live_entries l now)) 0 0)).

Definition persistedEntryOK (k : string) (pe : PersistedInFlightEntry) : bool :=
  if negb (contains_char "/" k) || (pe_Placed pe <? 0)%Z || (pe_Want pe <=? pe_Placed pe)%Z
     || (maxLedgerReplicas <? pe_Want pe)%Z || (pe_GPUs pe <? 0)%Z then false
  else if (pe_TTLSeconds pe <? Z.quot InFlightTTL Second)%Z
          || (maxInFlightPods <? length (pe_PodGPUs pe))%nat
          || (pe_Want pe - pe_Placed pe <? Z.of_nat (length (pe_Partial pe)))%Z then false
  else negb (existsb (λ r, (maxInFlightPods <? length (PlacedGPUs r))%nat) (pe_Partial pe)).

Definition restore_entry (k : string) (pe : PersistedInFlightEntry) (now limit : Z) : inFlightEntry :=
  let t := (Z.min (pe_TTLSeconds pe) limit * Second)%Z in
  MkEntry (MkShape k (pe_Accelerator pe) (pe_PodGPUs pe) (pe_GPUs pe) (pe_Tolerations pe)
             (pe_DomainKey pe) (pe_Placements pe) (pe_Flavor pe))
    (pe_Want pe) (pe_Placed pe) []
    (if (now + t <? pe_Expires pe)%Z then now + t else pe_Expires pe)%Z t None
    ((λ r, MkPartialSeen r (replicate (length (PlacedGPUs r)) 0%Z)) <$> pe_Partial pe).

Definition restore_step (now limit : Z) (acc : InFlightLedger * nat)
    (e : string * PersistedInFlightEntry) : InFlightLedger * nat :=
  let '(l, n) := acc in
  let '(k, pe) := e in
  match entries l !! k with
  | Some _ => (l, n)
  | None => (MkLedger (<[k := restore_entry k pe now limit]> (entries l)) (sighted l)
               ({[k]} ∪ restored l), S n)
  end.

(** The ledger, and how many entries were restored and dropped. *)
Definition RestoreInFlight (l : InFlightLedger) (p : PersistedInFlight) (now maxTTL : Z)
  : InFlightLedger * nat * nat :=
  let all := map_to_list (Entries p) in
  let bad := filter (λ e, persistedEntryOK e.1 e.2 = false) all in
  let ok := filter (λ e, persistedEntryOK e.1 e.2 = true ∧ (now < pe_Expires e.2)%Z) all in
  let keys := sort_stable by_expiry ok in
  let dropped := length bad + (length keys - maxInFlightPersisted) in
  let limit := Z.quot (Z.max maxTTL InFlightTTL) Second in
  let '(l, n) := foldl (restore_step now limit) (l, 0) (take maxInFlightPersisted keys) in
  (l, n, dropped).

Definition DropRestoredExcept (l : InFlightLedger) (named : gset string) : InFlightLedger :=
  MkLedger (filter (λ e : string * inFlightEntry, ¬ (e.1 ∈ restored l ∧ e.1 ∉ named)) (entries l))
    (sighted l) ∅.

(** ** A provisional admission leaves no trace once committed *)
Lemma unmark_lookup es l k :
  NoDup l.*1 →
  foldl unmark es l !! k =
  match list_to_map (M := gmap string (option inFlightEntry)) l !! k with
  | Some o => o
  | None => es !! k
  end.
Proof.
  intros Hnd. revert es. induction l as [|[j o] l IH]; intros es; cbn [foldl]; [done|].
  cbn [fmap list_fmap] in Hnd. apply NoDup_cons in Hnd as [Hj Hnd]. rewrite IH by done.
  assert (list_to_map ((j, o) :: l) = <[j := o]> (list_to_map l : gmap string (option inFlightEntry)))
    as -> by done.
  destruct (decide (k = j)) as [->|Hne].
  - rewrite lookup_insert_eq, not_elem_of_list_to_map_1 by done.
    unfold unmark. destruct o; simpl; [apply lookup_insert_eq|apply lookup_delete_eq].
  - rewrite lookup_insert_ne by done. case_match; [done|].
    unfold unmark. destruct o; simpl; [by rewrite lookup_insert_ne|by rewrite lookup_delete_ne].
Qed.

Lemma admitLocked_other l a now sight k :
  k ≠ adm_Key a → entries (admitLocked l a now sight) !! k = entries l !! k.
Proof.
  intros Hk. unfold admitLocked. destruct sight; simpl; repeat case_match; simpl;
    rewrite ?lookup_insert_ne, ?lookup_delete_ne by done; done.
Qed.

Lemma admitLocked_unsighted l a now :
  sighted (admitLocked l a now false) = sighted l ∧
  restored (admitLocked l a now false) = restored l.
Proof. unfold admitLocked. repeat case_match; done. Qed.

Lemma mark_spec l adms mark k :
  foldl (mark_step l) mark adms !! k =
  match mark !! k with
  | Some o => Some o
  | None => if decide (k ∈ adm_Key <$> adms) then Some (entries l !! k) else None
  end.
Proof.
  revert mark. induction adms as [|a adms IH]; intros mark; cbn [foldl].
  { case_match; [done|]. rewrite decide_False; [done|]. apply not_elem_of_nil. }
  rewrite IH. unfold mark_step. cbn [fmap list_fmap].
  destruct (decide (k = adm_Key a)) as [->|Hne].
  - destruct (mark !! adm_Key a) as [o|] eqn:E; [by rewrite E|].
    rewrite lookup_insert_eq, decide_True by constructor. done.
  - assert (Hd : ∀ A (x y : A), (if decide (k ∈ adm_Key a :: (adm_Key <$> adms)) then x else y) =
                   if decide (k ∈ adm_Key <$> adms) then x else y).
    { intros A x y. repeat case_decide; rewrite ?elem_of_cons in *; naive_solver. }
    rewrite Hd. destruct (mark !! adm_Key a); [done|]. by rewrite lookup_insert_ne.
Qed.

Lemma provisional_entries l adms now k :
  k ∉ adm_Key <$> adms →
  entries (foldl (λ l a, admitLocked l a now false) l adms) !! k = entries l !! k.
Proof.
  revert l. induction adms as [|a adms IH]; intros l Hk; cbn [foldl]; [done|].
  cbn [fmap list_fmap] in Hk. apply not_elem_of_cons in Hk as [Hne Hk].
  rewrite IH by done. by apply admitLocked_other.
Qed.

Lemma provisional_frame l adms now :
  sighted (foldl (λ l a, admitLocked l a now false) l adms) = sighted l ∧
  restored (foldl (λ l a, admitLocked l a now false) l adms) = restored l.
Proof.
  revert l. induction adms as [|a adms IH]; intros l; cbn [foldl]; [done|].
  destruct (IH (admitLocked l a now false)) as [-> ->]. apply admitLocked_unsighted.
Qed.

Lemma commit_undoes_provisional l adms final now now' :
  let '(mark, l') := Provisional l adms now in
  Commit l' mark final now' = Commit l ∅ final now'.
Proof.
  unfold Provisional, Commit. f_equal. cbn [entries sighted restored set_entries].
  destruct (provisional_frame l adms now) as [-> ->]. f_equal.
  rewrite map_to_list_empty. cbn [foldl]. apply map_eq. intros k.
  rewrite unmark_lookup by apply NoDup_fst_map_to_list.
  rewrite list_to_map_to_list, mark_spec, lookup_empty. case_decide as Hk; [done|].
  by apply provisional_entries.
Qed.

(** ** The clock of a hold *)

(** When the replicas an entry holds were admitted. *)
Definition hold_start (e : inFlightEntry) : Z := (expires e - ttl e)%Z.

Lemma readmit_start e a now :
  (adm_Want a ≤ want e)%Z →
  hold_start (readmit e a now) = hold_start e ∧ want (readmit e a now) = adm_Want a.
Proof.
  intros Hw. unfold hold_start, readmit. cbn [expires ttl want].
  rewrite (proj2 (Z.ltb_ge (want e) (adm_Want a))) by done. split; [|done].
  match goal with |- ((if negb (?t =? _)%Z then _ else _) - _ = _)%Z =>
    destruct (Z.eqb_spec t (ttl e)) as [->|]; simpl; lia end.
Qed.

Lemma readmit_ttl e a now T :
  (ttl e ≤ T)%Z → (adm_TTL a ≤ T)%Z → (InFlightTTL ≤ T)%Z → (ttl (readmit e a now) ≤ T)%Z.
Proof. intros. unfold readmit. cbn [ttl]. repeat case_match; lia. Qed.

Definition admit_all (l : InFlightLedger) (adms : list (InFlightAdmission * Z * bool))
  : InFlightLedger := foldl (λ l a, admitLocked l a.1.1 a.1.2 a.2) l adms.

(** An admission that asks for variant [k] the same [w] replicas again. *)
Definition asks_again (k : string) (w T : Z) (a : InFlightAdmission) : Prop :=
  adm_Key a = k → (adm_PlacedNow a < adm_Want a ∧ adm_Want a = w ∧ adm_TTL a ≤ T)%Z.

Lemma hold_not_extended l k e w T adms :
  entries l !! k = Some e → want e = w → (ttl e ≤ T)%Z → (InFlightTTL ≤ T)%Z →
  Forall (λ a, asks_again k w T a.1.1) adms →
  ∃ e', entries (admit_all l adms) !! k = Some e' ∧ want e' = w ∧
        hold_start e' = hold_start e ∧ (ttl e' ≤ T)%Z.
Proof.
  intros He Hw HT HT0 Hall. revert l e He Hw HT.
  induction Hall as [|[[a now] sight] adms Ha _ IH]; intros l e He Hw HT; [by eauto|].
  unfold admit_all. cbn [foldl fst snd]. fold (admit_all (admitLocked l a now sight) adms).
  simpl in Ha. destruct (decide (adm_Key a = k)) as [Hk|Hk].
  - destruct (Ha Hk) as (H1 & H2 & H3).
    assert (Hstep : entries (admitLocked l a now sight) !! k = Some (readmit e a now)).
    { unfold admitLocked. rewrite Hk. rewrite (proj2 (Z.leb_gt _ _)) by done.
      destruct sight; cbn [entries set_entries]; rewrite He; apply lookup_insert_eq. }
    destruct (readmit_start e a now) as [Hs Hw']; [lia|].
    destruct (IH _ _ Hstep) as (e' & G1 & G2 & G3 & G4); [lia|by apply readmit_ttl|].
    exists e'. split_and!; [done|done|congruence|done].
  - apply (IH (admitLocked l a now sight) e); [|done|done].
    by rewrite admitLocked_other.
Qed.

(** Once a variant is known, targets that do not grow it start no hold. *)
Lemma existing_only_starts_nothing l a now sight :
  ExistingOnly a = true → is_Some (sighted l !! adm_Key a) ∨ Unplaced a = true →
  entries l !! adm_Key a = None →
  entries (admitLocked l a now sight) !! adm_Key a = None.
Proof.
  intros He Hs Hn. unfold admitLocked. rewrite He.
  assert (Hb : Unplaced a || bool_decide (is_Some (sighted l !! adm_Key a)) = true).
  { destruct Hs as [Hs| ->]; [|done]. rewrite (bool_decide_true _ Hs). apply orb_true_r. }
  rewrite Hb. destruct sight; cbn [entries set_entries]; case_match;
    cbn [entries set_entries]; rewrite ?lookup_delete_eq, ?Hn; done.
Qed.

Lemma sighted_grows l a now sight k :
  is_Some (sighted l !! k) → is_Some (sighted (admitLocked l a now sight) !! k).
Proof.
  intros Hk. unfold admitLocked. destruct sight; simpl; repeat case_match; simpl; try done;
    (destruct (decide (k = adm_Key a)) as [->|]; [rewrite lookup_insert_eq; eauto|
      by rewrite lookup_insert_ne]).
Qed.

(** ** What holding the ledger's holes does to a view *)

(** Only the accounts of the owners in [O] may have changed, and only upwards. *)
Definition accounts (O : string → Prop) (v v' : NodeView) : Prop :=
  wf v' ∧ grows v v' ∧ takenAt v' = takenAt v ∧
  ∀ m, owned v = Some m → ∃ m', owned v' = Some m' ∧ ∀ o, ¬ O o → m' !! o = m !! o.

Lemma accounts_refl O v : wf v → accounts O v v.
Proof. intros Hw. split_and!; [done|reflexivity|done|eauto]. Qed.

Lemma accounts_trans (O O' : string → Prop) v1 v2 v3 :
  (∀ o, O o → O' o) → accounts O v1 v2 → accounts O' v2 v3 → accounts O' v1 v3.
Proof.
  intros HO (A1 & A2 & A3 & A4) (B1 & B2 & B3 & B4). split_and!; [done|by etrans|congruence|].
  intros m Hm. destruct (A4 m Hm) as (m1 & Hm1 & H1). destruct (B4 m1 Hm1) as (m2 & Hm2 & H2).
  exists m2. split; [done|]. intros o Ho. rewrite H2 by done. apply H1. auto.
Qed.

Lemma charge_accounts v i g :
  wf v → (0 < g ≤ free v i)%Z → accounts (.= owner v) v (charge v i g).
Proof.
  intros Hw Hg.
  assert (is_Some (slots v !! i)) as [n Hn].
  { unfold free in Hg. destruct (slots v !! i); [eauto|lia]. }
  destruct (charge_wf v i n g Hw Hn Hg) as [Hw' Hd].
  destruct (charge_frame v i g) as (F1 & F2 & F3 & F4). split_and!; [done| |done|].
  - split; [done|]. intros j. rewrite Hd. case_decide; lia.
  - intros m Hm. destruct (charge_others v i g m Hm) as (m' & Hm' & Ho). eauto.
Qed.

Lemma charges_others v taken l m :
  owned v = Some m →
  ∃ m', owned (foldl (λ v i, charge v i (taken_at taken i)) v l) = Some m' ∧
    ∀ o, o ≠ owner v → m' !! o = m !! o.
Proof.
  revert v m. induction l as [|i l IH]; intros v m Hm; cbn [foldl]; [by eauto|].
  destruct (charge_others v i (taken_at taken i) m Hm) as (m1 & Hm1 & H1).
  destruct (IH _ _ Hm1) as (m2 & Hm2 & H2). exists m2. split; [done|].
  destruct (charge_frame v i (taken_at taken i)) as (_ & Hown & _).
  intros o Ho. rewrite H2 by congruence. auto.
Qed.

Lemma charge_all_accounts v taken :
  wf v → (∀ i g, taken !! i = Some g → (0 < g ≤ free v i)%Z) →
  accounts (.= owner v) v (charge_all v taken).
Proof.
  intros Hw Ht. destruct (charge_all_wf v taken Hw Ht) as (H1 & (F1 & F2 & F3 & F4) & H3).
  split_and!; [done| |done|].
  - split; [done|]. intros j. rewrite H3. unfold taken_at. destruct (taken !! j) eqn:E; simpl; [|lia].
    specialize (Ht _ _ E). lia.
  - intros m Hm. unfold charge_all. apply (charges_others v taken _ m Hm).
Qed.

Lemma takeDomain_accounts O v v' id : accounts O v v' → accounts O v (takeDomain v' id).
Proof. intros (H1 & H2 & H3 & H4). split_and!; [by apply takeDomain_wf|done|done|done]. Qed.

Lemma setOwner_accounts O v o : wf v → accounts O v (setOwner v o).
Proof. intros Hw. split_and!; [by apply setOwner_wf|by split|done|eauto]. Qed.

Lemma accounts_slots O v v' : accounts O v v' → slots v' = slots v.
Proof. intros (_ & [H _] & _). done. Qed.

Section hold_facts.
Context `{TaintMatcher}.

Lemma bestFit_accounts v ps key dom taken :
  wf v → Forall (λ p, 0 < pod_gpus p)%Z ps → bestFit v ps key dom ∅ = Some taken →
  accounts (.= owner v) v (charge_all v taken).
Proof.
  intros Hw Hp Hb. destruct (bestFit_spec v ps key dom ∅ taken Hw Hp) as (_ & _ & _ & Ht); [|done|].
  - intros i g. by rewrite lookup_empty.
  - by apply charge_all_accounts.
Qed.

Lemma place_accounts v r : wf v → accounts (.= owner v) v (place v r).2.
Proof.
  intros Hw. unfold place, place_opt. pose proof (podFits_pos v r) as Hpos.
  destruct (podFits v r) as [|p ps]; [by apply accounts_refl|].
  match goal with |- context [place_domains v (p :: ps) ?k ?e ?d] =>
    destruct (place_domains v (p :: ps) k e d) as [v'|] eqn:E end; [|by apply accounts_refl].
  apply place_domains_spec in E as (d & taken & _ & _ & Hb & ->). simpl.
  pose proof (bestFit_accounts v _ _ _ _ Hw Hpos Hb).
  case_match; [by apply takeDomain_accounts|done].
Qed.

Lemma charge_owner v i g : owner (charge v i g) = owner v.
Proof. apply charge_frame. Qed.

Lemma hold_unseen_accounts v i l :
  wf v → accounts (.= owner v) v (foldl (hold_unseen i) v l) ∧
         owner (foldl (hold_unseen i) v l) = owner v.
Proof.
  revert v. induction l as [|[g t] l IH]; intros v Hw; cbn [foldl].
  { split; [by apply accounts_refl|done]. }
  assert (Hs : accounts (.= owner v) v (hold_unseen i v (g, t)) ∧
               owner (hold_unseen i v (g, t)) = owner v).
  { unfold hold_unseen. destruct (t <=? takenAt v)%Z; [split; [by apply accounts_refl|done]|].
    destruct (Z.ltb_spec 0 (free v i)), (Z.ltb_spec 0 g); simpl;
      try (split; [by apply accounts_refl|done]).
    split; [apply charge_accounts; [done|lia]|apply charge_owner]. }
  destruct Hs as [Hs Ho]. destruct (IH (hold_unseen i v (g, t))) as [H1 H2]; [apply Hs|].
  rewrite Ho in H1, H2. split; [|done].
  eapply accounts_trans; [|exact Hs|exact H1]. done.
Qed.

Lemma hold_rest_accounts v r node rest :
  wf v → Forall (λ g, 0 < g)%Z rest → accounts (.= owner v) v (hold_rest v r node rest).
Proof.
  intros Hw Hr. unfold hold_rest. destruct rest as [|x rest]; [by apply accounts_refl|].
  cbv zeta. match goal with |- context [bestFit v ?ps ?k ?d ∅] =>
    destruct (bestFit v ps k d ∅) as [taken|] eqn:E end; [|by apply accounts_refl].
  assert (Hp : Forall (λ p, 0 < pod_gpus p)%Z
    ((λ g, MkPodFit g (eligibleFit v r)) <$> largestFirst (x :: rest))).
  { apply Forall_fmap. unfold largestFirst. rewrite reverse_Permutation, merge_sort_Permutation.
    eapply Forall_impl; [exact Hr|]. done. }
  pose proof (bestFit_accounts v _ _ _ _ Hw Hp E) as Ha.
  case_match; [done|by apply takeDomain_accounts].
Qed.

Lemma holdPartial_accounts v r p : wf v → accounts (.= owner v) v (holdPartial v r p).
Proof.
  intros Hw. unfold holdPartial. destruct (pods r) as [|g gs] eqn:Hp; [by apply accounts_refl|].
  rewrite <- Hp. cbv zeta.
  assert (Hrest : Forall (λ g, 0 < g)%Z (rest_pods (pods r) (PlacedGPUs (seen_partial p)))).
  { apply Forall_forall. intros x [Hx _]%list_elem_of_filter. done. }
  destruct (slotOf v (partial_Node (seen_partial p))) as [i|].
  - destruct (hold_unseen_accounts v i (zip (PlacedGPUs (seen_partial p)) (seen_at p)) Hw) as [H1 H2].
    eapply accounts_trans; [|exact H1|].
    2: { rewrite <- H2. apply hold_rest_accounts; [apply H1|done]. }
    done.
  - by apply hold_rest_accounts.
Qed.

(** The owners of the replicas an entry holds, as of a snapshot. *)
Definition held_owner (k : string) (e : inFlightEntry) (snapshot : Z) (o : string) : Prop :=
  ∃ n, (placed_by e snapshot < n ≤ want e)%Z ∧ o = inFlightReplicaOwner k n.

Lemma hold_entry_accounts now v k e :
  wf v → accounts (λ o, (now < expires e)%Z ∧ held_owner k e (takenAt v) o) v (hold_entry now v (k, e)).
Proof.
  intros Hw. unfold hold_entry. destruct (Z.leb_spec (expires e) now) as [Hx|Hx];
    [by apply accounts_refl|].
  set (placed := placed_by e (takenAt v)). set (r := fitOf v (shape e)).
  set (N := Z.to_nat (want e - placed)).
  assert (Hg : ∀ l u, (∀ i, i ∈ l → i < N) → wf u →
    accounts (λ o, (now < expires e)%Z ∧ held_owner k e (takenAt v) o) u
      (foldl (hold_replica k e r placed) u l)).
  { induction l as [|i l IH]; intros u Hl Hu; cbn [foldl]; [by apply accounts_refl|].
    assert (Hi : i < N) by (apply Hl; constructor).
    set (o := inFlightReplicaOwner k (placed + 1 + Z.of_nat i)).
    assert (Ho : held_owner k e (takenAt v) o).
    { exists (placed + 1 + Z.of_nat i)%Z. split; [|done]. fold placed. unfold N in Hi. lia. }
    assert (Hstep : accounts (.= o) u (hold_replica k e r placed u i)).
    { unfold hold_replica. fold o. eapply (accounts_trans (.= o)).
      - done.
      - by apply (setOwner_accounts _ u o).
      - destruct (partial e !! i) as [p|].
        + apply (holdPartial_accounts (setOwner u o)). by apply setOwner_wf.
        + apply (place_accounts (setOwner u o)). by apply setOwner_wf. }
    eapply accounts_trans; [|exact Hstep|].
    - intros ? ->. done.
    - apply IH; [|apply Hstep]. intros j Hj. apply Hl. by constructor. }
  apply Hg; [|done]. intros i Hi%elem_of_seq. lia.
Qed.

(** Any owner that is not a live replica of the ledger. *)
Definition ledger_owner (l : InFlightLedger) (now snapshot : Z) (o : string) : Prop :=
  ∃ k e, entries l !! k = Some e ∧ (now < expires e)%Z ∧ held_owner k e snapshot o.

Lemma hold_entries_accounts l v now :
  wf v → accounts (ledger_owner l now (takenAt v)) v (hold_entries l v now) ∧
         owner (hold_entries l v now) = owner v.
Proof.
  intros Hw. split; [|done]. unfold hold_entries.
  assert (Hin : ∀ k e, (k, e) ∈ sorted_entries l → entries l !! k = Some e).
  { intros k e (x & _ & Hx)%list_elem_of_omap. apply fmap_Some in Hx as (e' & He & [= -> ->]). done. }
  assert (Hg : ∀ es u, (∀ k e, (k, e) ∈ es → entries l !! k = Some e) → wf u →
    takenAt u = takenAt v →
    accounts (ledger_owner l now (takenAt v)) u (foldl (hold_entry now) u es)).
  { induction es as [|[k e] es IH]; intros u Hes Hu Ht; cbn [foldl]; [by apply accounts_refl|].
    pose proof (hold_entry_accounts now u k e Hu) as Hs.
    eapply accounts_trans; [|exact Hs|].
    - intros o [Hx Ho]. rewrite Ht in Ho. exists k, e. split_and!; [|done|done].
      apply Hes. constructor.
    - apply IH; [|apply Hs|].
      + intros k' e' Hk'. apply Hes. by constructor.
      + destruct Hs as (_ & _ & -> & _). done. }
  eapply (accounts_trans (ledger_owner l now (takenAt v))); [done| |].
  - eapply (accounts_trans (ledger_owner l now (takenAt v))); [done| |].
    + by apply (setOwner_accounts _ v InFlightOwner).
    + apply (Hg (sorted_entries l) (setOwner v InFlightOwner)); [done|by apply setOwner_wf|done].
  - apply setOwner_accounts.
    apply (Hg (sorted_entries l) (setOwner v InFlightOwner)); [done|by apply setOwner_wf|done].
Qed.
End hold_facts.

(** ** Releasing uncreated replicas *)
Lemma released_owner created key n :
  contains_char Ascii.zero key = false → (0 ≤ n)%Z → in_int n →
  released created (inFlightReplicaOwner key n) =
  match created !! key with Some have => (have <? n)%Z | None => false end.
Proof.
  intros Hk Hn Hi. unfold released, inFlightReplicaOwner.
  assert (InFlightOwner +:+ String Ascii.zero (key +:+ String Ascii.zero (Itoa n)) =
    (InFlightOwner +:+ String Ascii.zero EmptyString) +:+ (key +:+ String Ascii.zero (Itoa n)))
    as -> by (by rewrite string_app_assoc, string_append_cons).
  rewrite CutPrefix_app, cut_char_app by done. rewrite Atoi_Itoa by done.
  by destruct (created !! key).
Qed.

Lemma released_true created o :
  released created o = true →
  ∃ key num have n, o = InFlightOwner +:+ String Ascii.zero (key +:+ String Ascii.zero num) ∧
    created !! key = Some have ∧ Atoi num = Some n ∧ (have < n)%Z.
Proof.
  unfold released. destruct (CutPrefix o _) as [rest|] eqn:E1; [|done].
  destruct (cut_char Ascii.zero rest) as [[key num]|] eqn:E2; [|done].
  destruct (created !! key) as [have|] eqn:E3; [|done].
  destruct (Atoi num) as [n|] eqn:E4; [|done]. intros Hlt%Z.ltb_lt.
  apply CutPrefix_Some in E1 as ->. apply cut_char_Some in E2 as [-> _].
  exists key, num, have, n. split_and!; [|done|done|done].
  by rewrite string_app_assoc, string_append_cons.
Qed.

Lemma map_filter_list {A} (P : string * A → Prop) `{∀ x, Decision (P x)} (m : gmap string A) :
  map_to_list (filter P m) ≡ₚ filter P (map_to_list m).
Proof.
  apply NoDup_Permutation; [apply NoDup_map_to_list|apply NoDup_filter, NoDup_map_to_list|].
  intros [k a]. rewrite elem_of_map_to_list, map_lookup_filter_Some, list_elem_of_filter,
    elem_of_map_to_list. tauto.
Qed.

Lemma ReleaseUncreated_spec v m created v' :
  wf v → owned v = Some m → created ≠ ∅ → ReleaseUncreated (Some v) created = Some v' →
  wf v' ∧ slots v' = slots v ∧ owner v' = owner v ∧
  (∃ m', owned v' = Some m' ∧
     ∀ o, m' !! o = if released created o then None else m !! o) ∧
  (∀ i, debit_at v' i = kept_sum (λ o, negb (released created o)) (map_to_list m) i).
Proof.
  intros Hw Hm Hc. unfold ReleaseUncreated. simpl. rewrite bool_decide_false by done.
  intros Hr. assert (Hv : v' = set_domains (set_owned (set_debit v
      (foldl (λ d (o : string * gmap nat Z),
         if released created o.1 then foldl take_back d (map_to_list o.2) else d)
       (debit v) (map_to_list m)))
      (Some (filter (λ o : string * gmap nat Z, released created o.1 = false) m)))
      (filter (λ e : string * string, (bool_decide (is_Some (m !! e.2)) && released created e.2) = false)
         (domains v))).
  { injection Hr as <-. by rewrite Hm. }
  clear Hr. set (ex := released created) in *.
  (* the debits are those of the view without the released owners *)
  destruct (without (Some v) ex) as [c|] eqn:Hwc; [|done].
  destruct (without_debit v m ex c Hw Hm Hwc) as [Hcs Hcd].
  destruct (without_wf v ex c Hw) as [Hcw _]; [congruence|done|].
  assert (Hdc : debit v' = debit c) by (subst v'; injection Hwc as <-; simpl; by rewrite Hm).
  assert (Hda : ∀ i, debit_at v' i = debit_at c i) by (intros i; unfold debit_at; by rewrite Hdc).
  split_and!.
  - split.
    + intros i n. subst v'. apply (wf_slots _ Hw).
    + intros i d. rewrite Hdc. intros Hi. destruct (wf_debit _ Hcw i d Hi) as (n & Hn & Hd).
      rewrite Hcs in Hn. exists n. split; [|done]. by subst v'.
    + intros m' o pn i g. subst v'. intros [= <-]. rewrite map_lookup_filter_Some.
      intros [Ho _]. by apply (wf_pos _ Hw m o).
    + intros m' i Hm'. rewrite Hda, Hcd. subst v'. injection Hm' as <-.
      unfold owned_sum. rewrite map_filter_list, sumZ_list_filter. unfold kept_sum.
      apply sumZ_ext. intros o _. unfold ex. case_decide as Hd; destruct (released created o.1); done.
  - by subst v'.
  - by subst v'.
  - subst v'. eexists. split; [done|]. intros o. unfold ex.
    destruct (released created o) eqn:E.
    + apply map_lookup_filter_None. right. intros x _. simpl. congruence.
    + destruct (m !! o) as [pn|] eqn:Ho.
      * apply map_lookup_filter_Some. done.
      * apply map_lookup_filter_None. by left.
  - intros i. by rewrite Hda, Hcd.
Qed.

(** ** The persisted ledger *)
Section persist.
Context (bytes : string → PersistedInFlightEntry → Z).
Hypothesis bytes_nonneg : ∀ k pe, (0 ≤ bytes k pe)%Z.

Lemma take_entries_all l n size :
  (n + length l ≤ maxInFlightPersisted)%nat →
  (size + sumZ (λ e, bytes e.1 e.2) l ≤ maxInFlightBytes)%Z →
  take_entries bytes l n size = l.
Proof.
  revert n size. induction l as [|[k pe] l IH]; intros n size Hn Hs; [done|].
  cbn [take_entries]. rewrite sumZ_cons in Hs. cbn [fst snd length] in *.
  assert (0 ≤ sumZ (λ e, bytes e.1 e.2) l)%Z by (apply sumZ_nonneg; intros; apply bytes_nonneg).
  rewrite (proj2 (Nat.leb_gt _ _)) by lia. rewrite (proj2 (Z.ltb_ge _ _)) by lia.
  f_equal. apply IH; lia.
Qed.

Lemma omap_live_keys now es :
  NoDup es.*1 →
  NoDup (omap (λ ke : string * inFlightEntry,
    if live_entry now ke.2 then Some (ke.1, persist_entry ke.2) else None) es).*1 ∧
  (∀ k pe, (k, pe) ∈ omap (λ ke : string * inFlightEntry,
    if live_entry now ke.2 then Some (ke.1, persist_entry ke.2) else None) es → k ∈ es.*1).
Proof.
  induction es as [|[k e] es IH]; cbn [fmap list_fmap]; intros Hnd.
  { split; [constructor|]. intros k pe []%not_elem_of_nil. }
  apply NoDup_cons in Hnd as [Hk Hnd]. destruct (IH Hnd) as [H1 H2].
  cbn [omap list_omap fst snd]. destruct (live_entry now e); cbn [fmap list_fmap fst].
  - split.
    + apply NoDup_cons. split; [|done].
      intros ([k' pe] & Heq & Hin)%list_elem_of_fmap. simpl in Heq. subst k'.
      apply Hk. by eapply H2.
    + intros k' pe [[= -> ->]|Hin]%elem_of_cons; [constructor|]. constructor. by eapply H2.
  - split; [done|]. intros k' pe Hin. constructor. by eapply H2.
Qed.

Lemma live_entries_spec l now :
  NoDup (live_entries l now).*1 ∧
  (∀ k pe, (k, pe) ∈ live_entries l now ↔
     ∃ e, entries l !! k = Some e ∧ live_entry now e = true ∧ pe = persist_entry e).
Proof.
  split; [apply omap_live_keys, NoDup_fst_map_to_list|].
  intros k pe. unfold live_entries. rewrite list_elem_of_omap. split.
  - intros ([k' e] & Hin%elem_of_map_to_list & He). simpl in He.
    destruct (live_entry now e) eqn:E; [|done]. injection He as <- <-. eauto.
  - intros (e & He & Hl & ->). exists (k, e). split; [by apply elem_of_map_to_list|].
    simpl. by rewrite Hl.
Qed.

(** Everything live is written when it fits the limits. *)
Lemma marshal_lookup l now k :
  (length (live_entries l now) ≤ maxInFlightPersisted)%nat →
  (sumZ (λ e, bytes e.1 e.2) (live_entries l now) ≤ maxInFlightBytes)%Z →
  ∀ pe, Entries (MarshalInFlight bytes l now) !! k = Some pe ↔
        ∃ e, entries l !! k = Some e ∧ live_entry now e = true ∧ pe = persist_entry e.
Proof.
  intros Hn Hs pe. unfold MarshalInFlight. cbn [Entries].
  pose proof (sort_stable_perm by_expiry (live_entries l now)) as Hp.
  rewrite take_entries_all.
  - destruct (live_entries_spec l now) as [Hnd Hin]. rewrite <- Hin.
    rewrite <- elem_of_list_to_map; [by rewrite Hp|]. by rewrite Hp.
  - by rewrite Hp.
  - by rewrite Hp.
Qed.
End persist.

Lemma restore_fold l n now limit es k :
  NoDup es.*1 →
  entries (foldl (restore_step now limit) (l, n) es).1 !! k =
  match entries l !! k with
  | Some e => Some e
  | None => (λ pe, restore_entry k pe now limit) <$> list_to_map (M := gmap string _) es !! k
  end.
Proof.
  intros Hnd. revert l n. induction es as [|[j pe] es IH]; intros l n; cbn [foldl].
  { simpl. rewrite lookup_empty. by case_match. }
  cbn [fmap list_fmap] in Hnd. apply NoDup_cons in Hnd as [Hj Hnd]. specialize (IH Hnd).
  assert (list_to_map ((j, pe) :: es) = <[j := pe]> (list_to_map es : gmap string PersistedInFlightEntry))
    as -> by done.
  unfold restore_step at 2. destruct (entries l !! j) as [e|] eqn:E.
  - rewrite IH. destruct (decide (k = j)) as [->|Hne]; [by rewrite E|].
    by rewrite lookup_insert_ne.
  - rewrite IH. cbn [entries]. destruct (decide (k = j)) as [->|Hne].
    + rewrite !lookup_insert_eq, E. done.
    + by rewrite !lookup_insert_ne.
Qed.

Lemma restore_lookup l p now maxTTL k :
  (size (Entries p) ≤ maxInFlightPersisted)%nat →
  entries (RestoreInFlight l p now maxTTL).1.1 !! k =
  match entries l !! k with
  | Some e => Some e
  | None =>
      pe ← Entries p !! k;
      if persistedEntryOK k pe && (now <? pe_Expires pe)%Z
      then Some (restore_entry k pe now (Z.quot (Z.max maxTTL InFlightTTL) Second)) else None
  end.
Proof.
  intros Hsz. unfold RestoreInFlight.
  set (ok := filter (λ e : string * PersistedInFlightEntry,
    persistedEntryOK e.1 e.2 = true ∧ (now < pe_Expires e.2)%Z) (map_to_list (Entries p))).
  pose proof (sort_stable_perm by_expiry ok) as Hp.
  assert (Hlen : (length ok ≤ maxInFlightPersisted)%nat).
  { etrans; [|exact Hsz]. rewrite <- length_map_to_list. apply length_filter. }
  rewrite take_ge by (by rewrite Hp).
  assert (Hnd : NoDup (sort_stable by_expiry ok).*1).
  { rewrite Hp. unfold ok. apply NoDup_fmap_fst.
    - intros k0 a b [_ Ha%elem_of_map_to_list]%list_elem_of_filter
        [_ Hb%elem_of_map_to_list]%list_elem_of_filter. congruence.
    - apply NoDup_filter, NoDup_map_to_list. }
  pose proof (restore_fold l 0 now (Z.quot (Z.max maxTTL InFlightTTL) Second) _ k Hnd) as Hf.
  destruct (foldl _ _ _) as [l' n']. cbn [fst] in Hf |- *. rewrite Hf.
  destruct (entries l !! k); [done|].
  assert (Hlk : ∀ pe, list_to_map (M := gmap string PersistedInFlightEntry) (sort_stable by_expiry ok) !! k = Some pe ↔
            Entries p !! k = Some pe ∧ persistedEntryOK k pe = true ∧ (now < pe_Expires pe)%Z).
  { intros pe. rewrite <- elem_of_list_to_map by done. rewrite Hp. unfold ok.
    rewrite list_elem_of_filter, elem_of_map_to_list. simpl. tauto. }
  destruct (Entries p !! k) as [pe|] eqn:E; simpl.
  - destruct (persistedEntryOK k pe) eqn:Eo; [destruct (Z.ltb_spec now (pe_Expires pe))|]; simpl.
    + by rewrite (proj2 (Hlk pe)).
    + destruct (list_to_map _ !! k) as [pe'|] eqn:E'; [|done].
      destruct (proj1 (Hlk pe') eq_refl) as (? & ? & ?). simplify_eq. lia.
    + destruct (list_to_map _ !! k) as [pe'|] eqn:E'; [|done].
      destruct (proj1 (Hlk pe') eq_refl) as (? & ? & ?). simplify_eq. congruence.
  - destruct (list_to_map _ !! k) as [pe'|] eqn:E'; [|done].
    destruct (proj1 (Hlk pe') eq_refl) as (? & ? & ?). congruence.
Qed.

(** Seconds rounded up and back. *)
Lemma ttl_seconds t :
  (0 ≤ t)%Z → let s := Z.quot (t + Second - 1) Second in
  (t ≤ s * Second < t + Second)%Z.
Proof.
  intros Ht. cbv zeta. rewrite Z.quot_div_nonneg by (unfold Second; lia).
  pose proof (Z.div_mod (t + Second - 1) Second). pose proof (Z.mod_pos_bound (t + Second - 1) Second).
  unfold Second in *. lia.
Qed.

(** ** Properties *)

(** A one-GPU replica and an admission of it, for the witnesses. *)
Definition small_shape : ReplicaShape := MkShape "ns/a" "H100" [1%Z] 1 [] "" [] None.

Definition small_adm (w placedNow : Z) (existing : bool) : InFlightAdmission :=
  MkAdmission "ns/a" small_shape w placedNow None 0 existing false.

Definition held_ledger : InFlightLedger := Admit NewInFlightLedger "ns/a" small_shape 2 0 None 0.

(** C38: a provisional admission is exactly undone by its commit: whatever the
    pass admitted provisionally, committing leaves the ledger that committing the
    final admissions alone would have left: the same entries on the same clocks,
    the same sightings and the same restored marks. *)
Theorem Commit_undoes_Provisional l adms final now now' :
  let '(mark, l') := Provisional l adms now in
  Commit l' mark final now' = Commit l ∅ final now'.
Proof. apply commit_undoes_provisional. Qed.

(** A replica that never places is not held for ever.  However many cycles
    admit variant [k] again for the same number of replicas, and whatever is
    admitted for other variants in between, the hold keeps the moment it started
    at, so that nothing is held from the longest TTL asked for after that moment
    on; and once the hold is gone, targets that do not grow a variant already
    sighted, or one that cannot place, start none again. *)
Theorem hold_ends_on_its_clock l k e w T adms t :
  entries l !! k = Some e → want e = w → (ttl e ≤ T)%Z → (InFlightTTL ≤ T)%Z →
  Forall (λ a, asks_again k w T a.1.1) adms → (hold_start e + T ≤ t)%Z →
  Holds (admit_all l adms) k t = false ∧
  (∀ l' a now sight, adm_Key a = k → ExistingOnly a = true →
     is_Some (sighted l' !! k) ∨ Unplaced a = true → entries l' !! k = None →
     Holds (admitLocked l' a now sight) k t = false).
Proof.
  intros He Hw HT HT0 Hall Ht. split.
  - destruct (hold_not_extended l k e w T adms) as (e' & H1 & _ & H2 & H3); try done.
    unfold Holds. rewrite H1. apply Z.ltb_ge. unfold hold_start in *. lia.
  - intros l' a now sight <- Hex Hs Hn. unfold Holds.
    by rewrite existing_only_starts_nothing.
Qed.

Lemma hold_ends_on_its_clock_witness :
  Holds held_ledger "ns/a" 1 = true ∧
  Holds (admit_all held_ledger [(small_adm 2 1 false, Second, true); (small_adm 2 1 true, (9 * Second)%Z, true)])
    "ns/a" InFlightTTL = false.
Proof.
  split; [vm_compute; reflexivity|].
  destruct (entries held_ledger !! "ns/a") as [e|] eqn:He; [|vm_compute in He; discriminate].
  assert (Hx : want e = 2%Z ∧ ttl e = InFlightTTL ∧ hold_start e = 0%Z)
    by (vm_compute in He; injection He as <-; vm_compute; repeat split; reflexivity).
  destruct Hx as (H1 & H2 & H3).
  refine (proj1 (hold_ends_on_its_clock held_ledger "ns/a" e 2 InFlightTTL
    [(small_adm 2 1 false, Second, true); (small_adm 2 1 true, (9 * Second)%Z, true)] InFlightTTL
    He H1 _ _ _ _)).
  - lia.
  - lia.
  - constructor; [intros _; simpl; unfold InFlightTTL, Second; lia|].
    constructor; [intros _; simpl; unfold InFlightTTL, Second; lia|constructor].
  - lia.
Defined.

(** C35: the holes the ledger holds on a view never overcommit a node and never
    give anything back; they are charged to the ledger's own owners only, one per
    replica an unexpired entry still waits for as of the view's snapshot, and the
    view's owner is as it was. *)
Theorem holdOn_safe `{TaintMatcher} l v read now l' v' :
  wf v → holdOn l (Some v) read now = (l', Some v') →
  wf v' ∧ grows v v' ∧ owner v' = owner v ∧
  (∀ m o, owned v = Some m →
     (∀ k e n, entries l' !! k = Some e → (now < expires e)%Z →
        (placed_by e (takenAt v) < n ≤ want e)%Z → o ≠ inFlightReplicaOwner k n) →
     ∃ m', owned v' = Some m' ∧ m' !! o = m !! o).
Proof.
  intros Hw [= <- <-].
  destruct (hold_entries_accounts (settle l read now) v now Hw) as [(H1 & H2 & _ & H4) H5].
  split_and!; [done|done|done|]. intros m o Hm Ho.
  destruct (H4 m Hm) as (m' & Hm' & Hoth). exists m'. split; [done|]. apply Hoth.
  intros (k & e & He & Hx & n & Hn & Heq). by apply (Ho k e n).
Qed.

Lemma holdOn_safe_witness :
  ∃ v', (holdOn (H := by_key) held_ledger (Some three_view) (λ _, None) 1).2 = Some v' ∧
    wf v' ∧ debit_at v' 0 = 2%Z.
Proof.
  destruct (holdOn (H := by_key) held_ledger (Some three_view) (λ _, None) 1) as [l' [v'|]] eqn:E;
    [|vm_compute in E; discriminate].
  exists v'. split; [reflexivity|]. split.
  - apply (holdOn_safe (H := by_key) held_ledger three_view (λ _, None) 1 l' v'
      (proj1 three_view_wf) E).
  - vm_compute in E. injection E as _ <-. vm_compute. reflexivity.
Defined.

(** [ReleaseUncreated] takes back exactly the holes of the replicas numbered
    above the created ones of the variants it is told about.  Every other account
    is untouched, what each node gets back is what the released replicas held
    there, and the view stays balanced and within capacity. *)
Theorem ReleaseUncreated_exact v m created v' :
  wf v → owned v = Some m → created ≠ ∅ → ReleaseUncreated (Some v) created = Some v' →
  wf v' ∧ slots v' = slots v ∧
  (∃ m', owned v' = Some m' ∧ ∀ o, m' !! o = if released created o then None else m !! o) ∧
  (∀ i, debit_at v' i = kept_sum (λ o, negb (released created o)) (map_to_list m) i) ∧
  (∀ key n, contains_char Ascii.zero key = false → (0 ≤ n)%Z → in_int n →
     released created (inFlightReplicaOwner key n) =
     match created !! key with Some have => (have <? n)%Z | None => false end).
Proof.
  intros Hw Hm Hc Hr. destruct (ReleaseUncreated_spec v m created v' Hw Hm Hc Hr)
    as (H1 & H2 & _ & H4 & H5).
  split_and!; try done. intros key n. apply released_owner.
Qed.

Lemma ReleaseUncreated_exact_witness :
  let created : gmap string Z := <["ns/a" := 1%Z]> ∅ in
  ∃ v v', (holdOn (H := by_key) held_ledger (Some three_view) (λ _, None) 1).2 = Some v ∧
    ReleaseUncreated (Some v) created = Some v' ∧ wf v' ∧ debit_at v 0 = 2%Z ∧ debit_at v' 0 = 1%Z.
Proof.
  cbv zeta. set (created := <["ns/a" := 1%Z]> (∅ : gmap string Z)).
  set (v := hold_entries (H := by_key) (settle held_ledger (λ _, None) 1) three_view 1).
  assert (Hw : wf v) by apply (hold_entries_accounts (H := by_key) _ _ _ (proj1 three_view_wf)).
  destruct (owned v) as [m|] eqn:Hm; [|vm_compute in Hm; discriminate].
  destruct (ReleaseUncreated (Some v) created) as [v'|] eqn:E; [|vm_compute in E; discriminate].
  exists v, v'. split; [reflexivity|]. split; [exact E|]. split.
  - apply (ReleaseUncreated_exact v m created v' Hw Hm); [|exact E].
    unfold created. apply insert_non_empty.
  - split; [vm_compute; reflexivity|]. vm_compute in E. injection E as <-. vm_compute. reflexivity.
Defined.

(** A restart keeps a hold.  When the live entries fit the limits of the
    persisted ledger, an entry this controller accepts back, restored before it
    expires, holds the same replicas of the same shape with the same partial
    groups, counts as placed what was known to be, and ends at the same moment;
    an entry already in the ledger is never overwritten. *)
Theorem restart_keeps_holds bytes l l0 now now' maxTTL k e :
  (∀ k pe, (0 ≤ bytes k pe)%Z) →
  (length (live_entries l now) ≤ maxInFlightPersisted)%nat →
  (sumZ (λ e, bytes e.1 e.2) (live_entries l now) ≤ maxInFlightBytes)%Z →
  entries l !! k = Some e → live_entry now e = true → Variant (shape e) = k →
  persistedEntryOK k (persist_entry e) = true →
  (now' < expires e)%Z → (hold_start e ≤ now')%Z →
  (0 ≤ ttl e ≤ Z.quot (Z.max maxTTL InFlightTTL) Second * Second)%Z →
  ∃ e', entries (RestoreInFlight l0 (MarshalInFlight bytes l now) now' maxTTL).1.1 !! k = Some e' ∧
    match entries l0 !! k with
    | Some e0 => e' = e0
    | None => shape e' = shape e ∧ want e' = want e ∧ base e' = placed_count e ∧
              expires e' = expires e ∧ (ttl e ≤ ttl e' < ttl e + Second)%Z ∧
              seen_partial <$> partial e' = seen_partial <$> partial e
    end.
Proof.
  intros Hb Hn Hs He Hl Hv Hok Hx Hst Ht.
  pose proof (marshal_lookup bytes Hb l now) as Hmar.
  assert (Hsz : (size (Entries (MarshalInFlight bytes l now)) ≤ maxInFlightPersisted)%nat).
  { etrans; [|exact Hn]. unfold MarshalInFlight. cbn [Entries].
    pose proof (sort_stable_perm by_expiry (live_entries l now)) as Hp.
    rewrite take_entries_all by (try done; by rewrite Hp).
    rewrite <- length_map_to_list, map_to_list_to_map; [by rewrite Hp|].
    rewrite Hp. apply live_entries_spec. }
  rewrite restore_lookup by done.
  assert (Hk : Entries (MarshalInFlight bytes l now) !! k = Some (persist_entry e))
    by (apply Hmar; eauto).
  rewrite Hk. cbn [mbind option_bind]. rewrite Hok.
  cbn [persist_entry pe_Expires]. rewrite (proj2 (Z.ltb_lt now' (expires e))) by done. cbn [andb].
  destruct (entries l0 !! k) as [e0|]; [by eauto|]. eexists. split; [done|].
  pose proof (ttl_seconds (ttl e) (proj1 Ht)) as Hc. cbv zeta in Hc.
  set (lim := Z.quot (Z.max maxTTL InFlightTTL) Second) in *.
  assert (Hmin : Z.min (Z.quot (ttl e + Second - 1) Second) lim = Z.quot (ttl e + Second - 1) Second)
    by (unfold Second in *; lia).
  unfold restore_entry, persist_entry. cbn [shape want base expires ttl partial pe_TTLSeconds pe_Expires
    pe_Want pe_Placed pe_Partial pe_Accelerator pe_PodGPUs pe_GPUs pe_Tolerations pe_DomainKey
    pe_Placements pe_Flavor]. rewrite Hmin.
  split_and!; try done; try lia.
  - destruct (shape e). simpl in *. by subst.
  - rewrite (proj2 (Z.ltb_ge _ _)); [done|]. unfold hold_start in Hst. lia.
  - rewrite <- list_fmap_compose. by apply list_fmap_id.
Qed.

Lemma restart_keeps_holds_witness :
  ∃ e', entries (RestoreInFlight NewInFlightLedger (MarshalInFlight (λ _ _, 100%Z) held_ledger Second)
                   (2 * Second) 0).1.1 !! "ns/a" = Some e' ∧ want e' = 2%Z ∧ expires e' = InFlightTTL.
Proof.
  destruct (entries held_ledger !! "ns/a") as [e|] eqn:He; [|vm_compute in He; discriminate].
  assert (Hx : want e = 2%Z ∧ ttl e = InFlightTTL ∧ expires e = InFlightTTL ∧
    live_entry Second e = true ∧ Variant (shape e) = "ns/a" ∧
    persistedEntryOK "ns/a" (persist_entry e) = true)
    by (vm_compute in He; injection He as <-; vm_compute; repeat split; reflexivity).
  destruct Hx as (H1 & H2 & H3 & H4 & H5 & H6).
  destruct (restart_keeps_holds (λ _ _, 100%Z) held_ledger NewInFlightLedger Second (2 * Second) 0 "ns/a" e)
    as (e' & He' & _ & Hw & _ & Hex & _).
  - intros; lia.
  - vm_compute. repeat constructor.
  - vm_compute. discriminate.
  - exact He.
  - exact H4.
  - exact H5.
  - exact H6.
  - rewrite H3. vm_compute. reflexivity.
  - unfold hold_start. rewrite H2, H3. vm_compute. discriminate.
  - rewrite H2. vm_compute. split; discriminate.
  - exists e'. rewrite Hw, Hex, H1, H3. split; [exact He'|]. split; reflexivity.
Defined.

(** Three groups of a variant, each with one of its pods on a node. *)
Definition three_partial : Placed :=
  MkPlaced 1 [MkPartial "n1" [1%Z]; MkPartial "n2" [1%Z]; MkPartial "n3" [1%Z]].

(** Five replicas wanted and counted, then the target lowered to three. *)
Definition shrunk_ledger : InFlightLedger :=
  let l := Admit NewInFlightLedger "ns/a" small_shape 5 0 (Some 0%nat) 0 in
  let l := settle l (λ _, Some three_partial) Second in
  Admit l "ns/a" small_shape 3 1 (Some 0%nat) (2 * Second).

(** A hold the ledger itself wrote can be dropped on restart: after a target
    is lowered below the groups counted as partial, the entry still holds its
    replicas and is persisted, with more partial groups than replicas held, and
    the restored ledger refuses it as a figure this controller does not write. *)
Theorem restart_drops_shrunk_hold :
  let p := MarshalInFlight (λ _ _, 100%Z) shrunk_ledger (3 * Second) in
  Holds shrunk_ledger "ns/a" (4 * Second) = true ∧
  is_Some (Entries p !! "ns/a") ∧
  (let '(l, n, dropped) := RestoreInFlight NewInFlightLedger p (4 * Second) 0 in
   Holds l "ns/a" (4 * Second) = false ∧ n = 0%nat ∧ dropped = 1%nat).
Proof. vm_compute. repeat split; eauto. Qed.
