(* ===== verification/Limiter.v ===== *)
(** * Inventories and limiters

    The model of [internal/engines/allocation/type_inventory.go] (the physical
    inventory, per accelerator type) and of [default_limiter.go] (the constraints
    a limiter exposes for an inventory).

    The limiter is written against the interface [Inventory], a class with the
    operations and the law the limiter relies on; the physical inventory is an
    instance.  What the cluster reports ([gpunodes.CapacityDiscovery]) is an
    argument of [Refresh].  Cohort borrowing is an optional interface of an
    inventory ([BorrowingInventory]); the inventories here do not have it. *)
From Stdlib Require Import ZArith Lia String Ascii.
From stdpp Require Import base gmap strings list fin_maps.
From S2P Require Import Prelude Accelerator Budget.

(** ** The interface *)
Notation usage := (gmap string Z).
Notation ns_usage := (gmap string (gmap string Z)).
Notation pools := (gmap string ResourcePool).

(** The optional interfaces are the fields that answer an [option]: [None] for an
    inventory that does not have the interface. *)
Class Inventory (I : Type) := {
  inv_Refresh : I → option I;
  inv_SetUsed : I → usage → I;
  inv_TotalLimit : I → Z;
  inv_TotalUsed : I → Z;
  inv_TotalAvailable : I → Z;
  inv_GetResourcePools : I → pools;
  inv_NamespaceScoped : I → option bool;
  inv_SetManaged : I → ns_usage → I;
  inv_KueueNeverRead : I → option bool;
  inv_Kueue : I → option (bool * bool * bool);
  inv_NamespacePools : I → ns_usage → option (I * option (gmap string pools)) }.

(** ** Per-type sums *)
Definition add_to {A} `{Countable A} (m : gmap A Z) (k : A) (n : Z) : gmap A Z :=
  <[k := default 0%Z (m !! k) ⊞ n]> m.

Definition aggregateNamespacePools (nsPools : gmap string pools) : pools :=
  foldl (λ agg (perType : pools),
           foldl (λ (agg : pools) (e : string * ResourcePool),
                    if (Limit e.2 <? 0)%Z then agg
                    else let a := default (MkPool 0 0) (agg !! e.1) in
                         <[e.1 := MkPool (Limit a ⊞ Limit e.2) (Used a ⊞ Used e.2)]> agg)
             agg (map_to_list perType))
    ∅ (map_to_list nsPools).*2.

Definition poolTotals (p : pools) : Z * Z * Z :=
  let limit := foldl (λ s (e : string * ResourcePool), s ⊞ Limit e.2) 0%Z (map_to_list p) in
  let used := foldl (λ s (e : string * ResourcePool), s ⊞ Used e.2) 0%Z (map_to_list p) in
  let avail := limit ⊟ used in
  (limit, used, if (avail <? 0)%Z then 0%Z else avail).

(** ** The default limiter *)
Section limiter.
Context {I : Type} `{Inventory I}.

Definition namespaceScopedOf (i : I) : bool := default false (inv_NamespaceScoped i).

(** The constraints of the inventory and the inventory as it is left; [None] when
    the refresh fails, with the inventory the caller then still has. *)
Definition ComputeConstraints (name : string) (i : I) (usageByType : usage)
    (usageByNamespace : option ns_usage) : option ResourceConstraints * I :=
  let i := match usageByNamespace with Some u => inv_SetManaged i u | None => i end in
  match inv_Refresh i with
  | None => (None, i)
  | Some i =>
      let i := inv_SetUsed i usageByType in
      let backed := match inv_Kueue i with Some (b, c, d) => (b, b && c, d) | None => (false, false, false) end in
      let rc := MkConstraints name (inv_GetResourcePools i) None (namespaceScopedOf i)
                  (inv_TotalLimit i) (inv_TotalUsed i) (inv_TotalAvailable i)
                  (default false (inv_KueueNeverRead i)) backed.1.1 backed.1.2 backed.2 0 in
      match inv_NamespacePools i (default ∅ usageByNamespace) with
      | None => (Some rc, i)
      | Some (i, None) => (Some rc, i)
      | Some (i, Some nsPools) =>
          if bool_decide (nsPools = ∅)
          then (Some (MkConstraints name (Pools rc) None true (TotalLimit rc) (TotalUsed rc)
                        (TotalAvail rc) (KueueNeverRead rc) backed.1.1 backed.1.2 backed.2 0), i)
          else
            let agg := aggregateNamespacePools nsPools in
            let '(limit, used, avail) := poolTotals agg in
            (Some (MkConstraints name agg (Some nsPools) true limit used avail
                     (KueueNeverRead rc) backed.1.1 backed.1.2 backed.2 0), i)
      end
  end.
End limiter.

(** ** The physical inventory *)
Record TypeInventory := MkTypeInventory {
  limitByType : usage; usedByType : usage; totalLimit : Z; totalUsed : Z }.

Definition NewTypeInventory : TypeInventory := MkTypeInventory ∅ ∅ 0 0.

(** What discovery reports: node, then the full model name and its count. *)
Notation node_inventory := (gmap string (gmap string Z)).

Definition inventory_rows (nodes : node_inventory) : list (string * Z) :=
  mjoin ((λ accs : gmap string Z, map_to_list accs) <$> (map_to_list nodes).*2).

Definition Refresh (i : TypeInventory) (discovered : option node_inventory) : option TypeInventory :=
  match discovered with
  | None => None
  | Some nodes =>
      Some (MkTypeInventory
        (foldl (λ m (e : string * Z), add_to m (NormalizeAcceleratorName e.1) e.2) ∅ (inventory_rows nodes))
        (usedByType i)
        (foldl (λ s (e : string * Z), s ⊞ e.2) 0%Z (inventory_rows nodes))
        (totalUsed i))
  end.

Definition soleAcceleratorType (i : TypeInventory) : option string :=
  match map_to_list (limitByType i) with
  | [(t, _)] => Some t
  | _ => None
  end.

(** The type a declared name is charged to. *)
Definition charged_to (i : TypeInventory) (declared : string) : option string :=
  match FindKey (limitByType i) declared with
  | Some key => Some key
  | None => soleAcceleratorType i
  end.

Definition use_step (i : TypeInventory) (acc : usage * Z) (e : string * Z) : usage * Z :=
  match charged_to i e.1 with
  | None => acc
  | Some key => (add_to acc.1 key e.2, acc.2 ⊞ e.2)
  end.

Definition SetUsed (i : TypeInventory) (used : usage) : TypeInventory :=
  let '(m, total) := foldl (use_step i) (∅, 0%Z) (map_to_list used) in
  MkTypeInventory (limitByType i) m (totalLimit i) total.

(** [RefreshAll]: the usage it discovers after the limits, if it is configured to. *)
Definition RefreshAll (i : TypeInventory) (discovered : option node_inventory)
    (usage_discovered : option (option usage)) : option unit * TypeInventory :=
  match usage_discovered with
  | None => (None, i)
  | Some u =>
      match Refresh i discovered with
      | None => (None, i)
      | Some i => match u with
                  | None => (None, i)
                  | Some u => (Some tt, SetUsed i u)
                  end
      end
  end.

Definition nonneg (a : Z) : Z := if (a <? 0)%Z then 0%Z else a.

Definition TotalAvailable (i : TypeInventory) : Z := nonneg (totalLimit i ⊟ totalUsed i).

Definition LimitByType (i : TypeInventory) (t : string) : Z := default 0%Z (limitByType i !! t).
Definition UsedByType (i : TypeInventory) (t : string) : Z := default 0%Z (usedByType i !! t).
Definition AvailableByType (i : TypeInventory) (t : string) : Z :=
  nonneg (LimitByType i t ⊟ UsedByType i t).

Definition GetResourcePools (i : TypeInventory) : pools :=
  map_imap (λ t limit, Some (MkPool limit (UsedByType i t))) (limitByType i).

(** The physical inventory as the limiter sees it, with what discovery will
    report; it has none of the optional interfaces. *)
#[export] Instance TypeInventory_Inventory (discovered : option node_inventory)
  : Inventory TypeInventory := {|
  inv_Refresh := λ i, Refresh i discovered;
  inv_SetUsed := SetUsed;
  inv_TotalLimit := totalLimit;
  inv_TotalUsed := totalUsed;
  inv_TotalAvailable := TotalAvailable;
  inv_GetResourcePools := GetResourcePools;
  inv_NamespaceScoped := λ _, None;
  inv_SetManaged := λ i _, i;
  inv_KueueNeverRead := λ _, None;
  inv_Kueue := λ _, None;
  inv_NamespacePools := λ _ _, None |}.

(** ** What the limiter relies on *)

(** The reported totals are those of the reported pools. *)
Class LawfulInventory (I : Type) `{Inventory I} := {
  inv_totals : ∀ (i i' : I) (u : usage), inv_Refresh i = Some i' →
    let j := inv_SetUsed i' u in
    (inv_TotalLimit j, inv_TotalUsed j, inv_TotalAvailable j) = poolTotals (inv_GetResourcePools j) }.

(** ** Sums over a map *)
Notation total m := (sumZ (λ e : string * Z, e.2) (map_to_list m)).

Lemma add_to_total (m : usage) k n : wrap (total (add_to m k n)) = wrap (total m + n).
Proof.
  unfold add_to. rewrite sumZ_insert. cbn [snd].
  rewrite (wrap_add_r (total m - _)). f_equal. destruct (m !! k); simpl; lia.
Qed.

Lemma add_to_lookup (m : usage) k n t :
  default 0%Z (add_to m k n !! t) = if decide (t = k) then default 0%Z (m !! t) ⊞ n else default 0%Z (m !! t).
Proof.
  unfold add_to. case_decide as E; [subst; by rewrite lookup_insert_eq|by rewrite lookup_insert_ne].
Qed.

(** Rows added one by one under the key each is charged to. *)
Definition charge_rows {A} (key : A → option string) (n : A → Z) (m : usage) (rows : list A) : usage :=
  foldl (λ m a, match key a with Some k => add_to m k (n a) | None => m end) m rows.

Lemma charge_rows_total {A} (key : A → option string) n rows (m : usage) :
  wrap (total (charge_rows key n m rows)) =
  wrap (total m + sumZ (λ a, if key a then n a else 0%Z) rows).
Proof.
  unfold charge_rows. revert m. induction rows as [|a rows IH]; intros m; cbn [foldl].
  { unfold sumZ at 3. simpl. by rewrite Z.add_0_r. }
  rewrite IH, sumZ_cons. destruct (key a) as [k|]; [|f_equal; lia].
  rewrite <- (wrap_add_l (total _)), add_to_total, wrap_add_l. f_equal. lia.
Qed.

Lemma charge_rows_lookup {A} (key : A → option string) n rows (m : usage) t :
  in_int (default 0%Z (m !! t)) →
  default 0%Z (charge_rows key n m rows !! t) =
  wrap (default 0%Z (m !! t) + sumZ (λ a, if decide (key a = Some t) then n a else 0%Z) rows).
Proof.
  unfold charge_rows. revert m. induction rows as [|a rows IH]; intros m Hm; cbn [foldl].
  { unfold sumZ. simpl. rewrite Z.add_0_r. by rewrite wrap_id. }
  rewrite sumZ_cons. destruct (key a) as [k|] eqn:Ek.
  - assert (Hl := add_to_lookup m k (n a) t). rewrite IH.
    + rewrite Hl. repeat case_decide; simplify_eq; [rewrite wrap_add_l; f_equal; lia|f_equal; lia].
    + rewrite Hl. case_decide; [apply wrap_in_int|done].
  - rewrite IH by done. rewrite decide_False by done. f_equal.
Qed.

Lemma charge_rows_dom {A} (key : A → option string) n rows (m : usage) t :
  t ∈ dom (charge_rows key n m rows) → t ∈ dom m ∨ ∃ a, a ∈ rows ∧ key a = Some t.
Proof.
  unfold charge_rows. revert m. induction rows as [|a rows IH]; intros m; cbn [foldl]; [by left|].
  intros [Hd|(b & Hb & Hk)]%IH; [|right; exists b; split; [by constructor|done]].
  destruct (key a) as [k|] eqn:Ek; [|by left].
  unfold add_to in Hd. rewrite dom_insert in Hd. apply elem_of_union in Hd as [->%elem_of_singleton|?];
    [right; exists a; split; [constructor|done]|by left].
Qed.

(** A sum over a larger set of keys. *)
Lemma total_over (u l : usage) :
  dom u ⊆ dom l → sumZ (λ e : string * Z, default 0%Z (u !! e.1)) (map_to_list l) = total u.
Proof.
  revert l. induction u as [|k x u Hk IH] using map_ind; intros l Hd.
  { rewrite map_to_list_empty. erewrite sumZ_ext; [apply sumZ_zero|].
    intros e _. by rewrite lookup_empty. }
  rewrite dom_insert in Hd. rewrite map_to_list_insert, sumZ_cons by done. cbn [snd].
  rewrite <- (IH l) by set_solver.
  assert (Hl : k ∈ dom l) by set_solver. apply elem_of_dom in Hl as [y Hy].
  rewrite <- (map_to_list_delete l k y Hy), !sumZ_cons. cbn [fst].
  rewrite lookup_insert_eq, Hk. simpl.
  rewrite (sumZ_ext _ (λ e : string * Z, default 0%Z (u !! e.1)) (map_to_list (delete k l))); [lia|].
  intros [t v] Ht%elem_of_map_to_list. cbn [fst]. rewrite lookup_insert_ne; [done|].
  intros ->. by rewrite lookup_delete_eq in Ht.
Qed.

(** ** The physical inventory keeps the law *)
Lemma use_fold i rows m s :
  in_int s →
  foldl (use_step i) (m, s) rows =
  (charge_rows (λ e : string * Z, charged_to i e.1) snd m rows,
   wrap (s + sumZ (λ e : string * Z, if charged_to i e.1 then e.2 else 0%Z) rows)).
Proof.
  unfold charge_rows. revert m s. induction rows as [|e rows IH]; intros m s Hs; cbn [foldl].
  { unfold sumZ. simpl. rewrite Z.add_0_r, wrap_id by done. done. }
  rewrite sumZ_cons. unfold use_step at 2. cbn [fst snd]. destruct (charged_to i e.1).
  - rewrite IH by apply wrap_in_int. rewrite wrap_add_l. f_equal. f_equal. lia.
  - rewrite IH by done. done.
Qed.

Lemma SetUsed_eq i u :
  SetUsed i u =
  MkTypeInventory (limitByType i)
    (charge_rows (λ e : string * Z, charged_to i e.1) snd ∅ (map_to_list u)) (totalLimit i)
    (wrap (sumZ (λ e : string * Z, if charged_to i e.1 then e.2 else 0%Z) (map_to_list u))).
Proof. unfold SetUsed. rewrite use_fold by (unfold in_int, int_min, int_max; lia). done. Qed.

Lemma soleAcceleratorType_spec i t :
  soleAcceleratorType i = Some t → t ∈ dom (limitByType i) ∧ size (limitByType i) = 1%nat.
Proof.
  unfold soleAcceleratorType. destruct (map_to_list (limitByType i)) as [|[k v] [|? ?]] eqn:E; try done.
  intros [= <-]. split.
  - apply elem_of_dom. exists v. apply elem_of_map_to_list. rewrite E. constructor.
  - by rewrite <- length_map_to_list, E.
Qed.

Lemma charged_to_dom i d t : charged_to i d = Some t → t ∈ dom (limitByType i).
Proof.
  unfold charged_to. destruct (FindKey (limitByType i) d) as [k|] eqn:E.
  - intros [= <-]. apply FindKey_sound in E as [? _]. by apply elem_of_dom.
  - intros [? _]%soleAcceleratorType_spec. done.
Qed.

Lemma SetUsed_dom i u : dom (usedByType (SetUsed i u)) ⊆ dom (limitByType i).
Proof.
  rewrite SetUsed_eq. cbn. intros t [Hd|(e & _ & Hk)]%charge_rows_dom.
  - by rewrite dom_empty in Hd.
  - by eapply charged_to_dom.
Qed.

Lemma GetResourcePools_list i :
  map_to_list (GetResourcePools i) ≡ₚ
  (λ e : string * Z, (e.1, MkPool e.2 (UsedByType i e.1))) <$> map_to_list (limitByType i).
Proof.
  apply NoDup_Permutation.
  - apply NoDup_map_to_list.
  - apply NoDup_fmap_2_strong; [|apply NoDup_map_to_list].
    intros [k v] [k' v'] _ _ [= -> -> _]. done.
  - intros [k p]. rewrite elem_of_map_to_list, list_elem_of_fmap. unfold GetResourcePools.
    rewrite map_lookup_imap. split.
    + destruct (limitByType i !! k) as [v|] eqn:E; [|done]. intros [= <-].
      exists (k, v). split; [done|]. by apply elem_of_map_to_list.
    + intros ([k' v] & [= -> ->] & Hv%elem_of_map_to_list). cbn in *. by rewrite Hv.
Qed.

Lemma Refresh_total i d i' : Refresh i d = Some i' → totalLimit i' = wrap (total (limitByType i')).
Proof.
  destruct d as [nodes|]; [|done]. intros [= <-]. cbn [totalLimit limitByType].
  pose proof (charge_rows_total (λ e : string * Z, Some (NormalizeAcceleratorName e.1)) snd
    (inventory_rows nodes) ∅) as Ht.
  unfold charge_rows in Ht. rewrite Ht, map_to_list_empty.
  rewrite foldl_wrap_sum by (unfold in_int, int_min, int_max; lia).
  f_equal.
Qed.

#[export] Instance TypeInventory_Lawful discovered :
  LawfulInventory TypeInventory (H := TypeInventory_Inventory discovered).
Proof.
  split. cbn. intros i i' u Hr. unfold poolTotals.
  rewrite !foldl_wrap_sum by (unfold in_int, int_min, int_max; lia).
  rewrite !GetResourcePools_list, !sumZ_fmap. cbn [snd Limit Used].
  assert (Hlim : limitByType (SetUsed i' u) = limitByType i' ∧ totalLimit (SetUsed i' u) = totalLimit i')
    by (by rewrite SetUsed_eq).
  destruct Hlim as [Hlim Htot]. unfold TotalAvailable, nonneg. rewrite Htot, Hlim.
  rewrite (Refresh_total _ _ _ Hr).
  assert (Hu : totalUsed (SetUsed i' u) =
    wrap (0 + sumZ (λ e : string * Z, UsedByType (SetUsed i' u) e.1) (map_to_list (limitByType i')))).
  { pose proof (total_over (usedByType (SetUsed i' u)) (limitByType i') (SetUsed_dom i' u)) as Ho.
    unfold UsedByType. rewrite Ho, Z.add_0_l. rewrite SetUsed_eq. cbn [totalUsed usedByType].
    rewrite charge_rows_total, map_to_list_empty. done. }
  by rewrite Hu, Z.add_0_l.
Qed.

Lemma ComputeConstraints_spec {I} `{LawfulInventory I} name (i : I) u nu rc i' :
  ComputeConstraints name i u nu = (Some rc, i') →
  (TotalLimit rc, TotalUsed rc, TotalAvail rc) = poolTotals (Pools rc) ∧
  (∀ ns, NamespacePools rc = Some ns →
     ns ≠ ∅ ∧ Pools rc = aggregateNamespacePools ns ∧ NamespaceScoped rc = true).
Proof.
  unfold ComputeConstraints. destruct (inv_Refresh _) as [j|] eqn:Er; [|done].
  pose proof (inv_totals _ _ u Er) as Hl. cbv zeta in Hl.
  destruct (inv_NamespacePools _ _) as [[k [ns|]]|].
  - case_bool_decide as Hn.
    + intros [= <- <-]. cbn. split; [done|done].
    + destruct (poolTotals (aggregateNamespacePools ns)) as [[a b] c] eqn:Ep.
      intros [= <- <-]. cbn. split; [done|]. intros ns' [= <-]. done.
  - intros [= <- <-]. cbn. split; [done|done].
  - intros [= <- <-]. cbn. split; [done|done].
Qed.

Lemma SameName_or_sole i d t :
  charged_to i d = Some t → SameName t d = true ∨ size (limitByType i) = 1%nat.
Proof.
  unfold charged_to. destruct (FindKey (limitByType i) d) as [k|] eqn:E.
  - intros [= <-]. apply FindKey_sound in E as [_ ?]. by left.
  - intros [_ ?]%soleAcceleratorType_spec. by right.
Qed.

Lemma sole_charged i d : size (limitByType i) = 1%nat → is_Some (charged_to i d).
Proof.
  intros Hs. unfold charged_to. destruct (FindKey (limitByType i) d); [done|].
  unfold soleAcceleratorType. rewrite <- length_map_to_list in Hs.
  destruct (map_to_list (limitByType i)) as [|[k v] [|? ?]]; try done.
Qed.

(** ** Sums of the namespaces' pools *)
Definition finite_rows (nsPools : gmap string pools) : list (string * ResourcePool) :=
  filter (λ e : string * ResourcePool, (0 ≤ Limit e.2)%Z) (mjoin ((λ ps : pools, map_to_list ps) <$> (map_to_list nsPools).*2)).

Definition type_sum (g : ResourcePool → Z) (t : string) (rows : list (string * ResourcePool)) : Z :=
  sumZ (λ e : string * ResourcePool, if decide (e.1 = t) then g e.2 else 0%Z) rows.

Definition pool_step (agg : pools) (e : string * ResourcePool) : pools :=
  let a := default (MkPool 0 0) (agg !! e.1) in <[e.1 := MkPool (Limit a ⊞ Limit e.2) (Used a ⊞ Used e.2)]> agg.

Lemma aggregate_rows nsPools : aggregateNamespacePools nsPools = foldl pool_step ∅ (finite_rows nsPools).
Proof.
  unfold aggregateNamespacePools, finite_rows. generalize (∅ : pools) as agg. induction (map_to_list nsPools).*2 as [|ps l IH]; intros agg; [done|].
  cbn [foldl fmap list_fmap mjoin list_join]. rewrite IH, filter_app, foldl_app. f_equal. clear. revert agg.
  induction (map_to_list ps) as [|e rows IH]; intros agg; [done|]. cbn [foldl]. rewrite IH. destruct (Z.ltb_spec (Limit e.2) 0).
  - by rewrite filter_cons_False by lia.
  - by rewrite filter_cons_True by lia.
Qed.

Lemma pool_fold rows agg t :
  let a := default (MkPool 0 0) (agg !! t) in
  in_int (Limit a) → in_int (Used a) →
  let r := foldl pool_step agg rows in
  (is_Some (r !! t) ↔ is_Some (agg !! t) ∨ t ∈ rows.*1) ∧
  default (MkPool 0 0) (r !! t) = MkPool (wrap (Limit a + type_sum Limit t rows)) (wrap (Used a + type_sum Used t rows)).
Proof.
  unfold type_sum. revert agg. induction rows as [|[k p] rows IH]; intros agg; cbn [foldl fmap list_fmap].
  { intros Hl Hu. split; [set_solver|]. change (sumZ _ []) with 0%Z. rewrite !Z.add_0_r, !wrap_id by done. by destruct (default _ _). }
  intros Hl Hu. cbn [fst]. rewrite elem_of_cons, !sumZ_cons. cbn [fst snd]. destruct (decide (k = t)) as [->|Hne].
  - assert (Hx : pool_step agg (t, p) !! t =
      Some (MkPool (Limit (default (MkPool 0 0) (agg !! t)) ⊞ Limit p) (Used (default (MkPool 0 0) (agg !! t)) ⊞ Used p))).
    { unfold pool_step. by rewrite lookup_insert_eq. }
    destruct (IH (pool_step agg (t, p))) as [I1 I2]; [rewrite Hx; apply wrap_in_int..|]. split.
    + rewrite I1, Hx. split; [by right; left|intros _; left; by eexists].
    + rewrite I2, Hx. cbn [default from_option id Limit Used]. rewrite !wrap_add_l. f_equal; f_equal; lia.
  - assert (Hx : pool_step agg (k, p) !! t = agg !! t) by (unfold pool_step; by rewrite lookup_insert_ne).
    destruct (IH (pool_step agg (k, p))) as [I1 I2]; [by rewrite Hx..|]. rewrite Hx in I1, I2. split; [|exact I2].
    rewrite I1. naive_solver.
Qed.

(** The pools of a namespace-scoped provider are the sums over its namespaces' finite
    caps, type by type, on 64 bits; a type no namespace caps has no pool. *)
Theorem aggregate_sums nsPools t :
  let rows := finite_rows nsPools in
  (is_Some (aggregateNamespacePools nsPools !! t) ↔ t ∈ rows.*1) ∧
  ∀ p, aggregateNamespacePools nsPools !! t = Some p → p = MkPool (wrap (type_sum Limit t rows)) (wrap (type_sum Used t rows)).
Proof.
  cbv zeta. rewrite aggregate_rows. destruct (pool_fold (finite_rows nsPools) ∅ t) as [H1 H2];
    [rewrite lookup_empty; unfold in_int, int_min, int_max; cbn; lia..|]. rewrite lookup_empty in H1, H2. cbn in H2. split.
  - rewrite H1. split; [by intros [[? [=]]|?]|by right].
  - intros p Hp. rewrite Hp in H2. exact H2.
Qed.

(** ** The limiter over the physical inventory *)

(** A type some node of the cluster has. *)
Definition found (nodes : node_inventory) (t : string) : Prop := t ∈ NormalizeAcceleratorName ∘ fst <$> inventory_rows nodes.

Lemma charge_rows_keys {A} (key : A → option string) n rows (m : usage) t :
  t ∈ dom (charge_rows key n m rows) ↔ t ∈ dom m ∨ ∃ a, a ∈ rows ∧ key a = Some t.
Proof.
  split; [apply charge_rows_dom|]. unfold charge_rows. revert m. induction rows as [|a rows IH]; intros m Ht; cbn [foldl].
  { destruct Ht as [?|(a & ?%not_elem_of_nil & _)]; done. }
  apply IH. destruct Ht as [Ht|(b & [->|Hb]%elem_of_cons & Hk)]; [|left|right; eauto].
  - left. destruct (key a); [|done]. unfold add_to. rewrite dom_insert. set_solver.
  - rewrite Hk. unfold add_to. rewrite dom_insert. set_solver.
Qed.

Lemma Refresh_found i nodes t : is_Some (limitByType (default i (Refresh i (Some nodes))) !! t) ↔ found nodes t.
Proof.
  cbn. rewrite <-elem_of_dom. pose proof (charge_rows_keys (λ e : string * Z, Some (NormalizeAcceleratorName e.1)) snd (inventory_rows nodes) ∅ t) as H.
  unfold charge_rows in H. rewrite H, dom_empty. unfold found. rewrite list_elem_of_fmap. split.
  - intros [?%elem_of_empty|(e & He & [= <-])]; [done|by exists e].
  - intros (e & -> & He). right. by exists e.
Qed.

Lemma uncharged_unnamed i d t : charged_to i d = None → is_Some (limitByType i !! t) → SameName t d = false.
Proof.
  unfold charged_to. destruct (FindKey (limitByType i) d) eqn:E; [done|]. intros _ [v Hv]. revert E. unfold FindKey, FindKey_keys.
  destruct (bool_decide _); [done|]. destruct (_ && _); [done|]. intros Hm. destruct (SameName t d) eqn:Es; [|done]. exfalso.
  assert (Hin : t ∈ filter (λ key, Is_true (SameName key d)) (map_to_list (limitByType i)).*1).
  { apply list_elem_of_filter. split; [by rewrite Es|]. apply list_elem_of_fmap. exists (t, v). split; [done|by apply elem_of_map_to_list]. }
  apply min_string_nil in Hm. rewrite Hm in Hin. by apply not_elem_of_nil in Hin.
Qed.

(** Every GPU in use is charged to the right pool, once.  After the limits are
    refreshed, a type's capacity is the sum over the nodes of the counts whose
    model name normalizes to it, and its usage the sum over the declared names
    charged to it; a name is charged only to a discovered type, and to one that
    is the same accelerator unless the cluster has just one type; on a cluster of
    one type no usage is left out.  Sums are on 64 bits. *)
Lemma physical_account i nodes u :
  let j := SetUsed (default i (Refresh i (Some nodes))) u in
  (∀ t, LimitByType j t =
     wrap (sumZ (λ e : string * Z, if decide (NormalizeAcceleratorName e.1 = t) then e.2 else 0%Z)
             (inventory_rows nodes))) ∧
  (∀ t, UsedByType j t =
     wrap (sumZ (λ e : string * Z, if decide (charged_to j e.1 = Some t) then e.2 else 0%Z)
             (map_to_list u))) ∧
  (∀ d t, charged_to j d = Some t →
     is_Some (limitByType j !! t) ∧ (SameName t d = true ∨ size (limitByType j) = 1%nat)) ∧
  (size (limitByType j) = 1%nat → ∀ d, is_Some (charged_to j d)) ∧
  (∀ t, GetResourcePools j !! t = (λ l, MkPool l (UsedByType j t)) <$> limitByType j !! t).
Proof.
  cbv zeta. set (i' := default i (Refresh i (Some nodes))).
  assert (Hc : ∀ d, charged_to (SetUsed i' u) d = charged_to i' d) by (intros d; by rewrite SetUsed_eq).
  assert (Hl : limitByType (SetUsed i' u) = limitByType i') by (by rewrite SetUsed_eq).
  assert (H0 : ∀ t : string, in_int (default 0%Z ((∅ : usage) !! t)))
    by (intros t; rewrite lookup_empty; unfold in_int, int_min, int_max; simpl; lia).
  split_and!.
  - intros t. unfold LimitByType. rewrite Hl.
    pose proof (charge_rows_lookup (λ e : string * Z, Some (NormalizeAcceleratorName e.1)) snd
      (inventory_rows nodes) ∅ t (H0 t)) as Ht. unfold charge_rows in Ht.
    etrans; [exact Ht|]. rewrite lookup_empty, Z.add_0_l. f_equal. apply sumZ_ext. intros e _.
    repeat case_decide; congruence.
  - intros t. unfold UsedByType. rewrite (SetUsed_eq i' u) at 1. cbn [usedByType].
    rewrite charge_rows_lookup by apply H0. rewrite lookup_empty, Z.add_0_l. f_equal.
    apply sumZ_ext. intros e _. by rewrite Hc.
  - intros d t Hd. rewrite Hc in Hd. rewrite Hl. split.
    + apply elem_of_dom. by eapply charged_to_dom.
    + by apply SameName_or_sole.
  - intros Hs d. rewrite Hc. apply sole_charged. by rewrite <- Hl.
  - intros t. unfold GetResourcePools. rewrite map_lookup_imap. by destruct (limitByType _ !! t).
Qed.

(** ** Properties *)

(** C29: the limiter over the physical inventory gives exactly the account of the cluster,
    whatever the inventory held before: a pool for each type some node has and no other;
    its limit the sum of the nodes' counts whose name normalizes to the type; its usage
    the sum of the GPUs declared under the names charged to it, each name to one type
    that is the same accelerator, or to the only type there is, and to none only when no
    type is the same; the totals the sums over all, and those of the pools; and no
    constraints at all when discovery fails.  Sums are on 64 bits. *)
Theorem physical_constraints name i nodes u nu :
  (ComputeConstraints (H := TypeInventory_Inventory None) name i u nu).1 = None ∧
  ∃ rc i' charge, ComputeConstraints (H := TypeInventory_Inventory (Some nodes)) name i u nu = (Some rc, i') ∧
    NamespacePools rc = None ∧ NamespaceScoped rc = false ∧
    (∀ t, is_Some (Pools rc !! t) ↔ found nodes t) ∧
    (∀ t p, Pools rc !! t = Some p →
       Limit p = wrap (sumZ (λ e : string * Z, if decide (NormalizeAcceleratorName e.1 = t) then e.2 else 0%Z) (inventory_rows nodes)) ∧
       Used p = wrap (sumZ (λ e : string * Z, if decide (charge e.1 = Some t) then e.2 else 0%Z) (map_to_list u))) ∧
    (∀ d t, charge d = Some t → found nodes t ∧ (SameName t d = true ∨ ∀ t', found nodes t' → t' = t)) ∧
    (∀ d t, charge d = None → found nodes t → SameName t d = false) ∧
    TotalLimit rc = wrap (sumZ snd (inventory_rows nodes)) ∧
    TotalUsed rc = wrap (sumZ (λ e : string * Z, if charge e.1 then e.2 else 0%Z) (map_to_list u)) ∧
    (TotalLimit rc, TotalUsed rc, TotalAvail rc) = poolTotals (Pools rc).
Proof.
  split; [done|]. set (i0 := match nu with Some n => inv_SetManaged (Inventory := TypeInventory_Inventory (Some nodes)) i n | None => i end).
  set (i1 := default i0 (Refresh i0 (Some nodes))). set (j := SetUsed i1 u).
  assert (Hlim : limitByType j = limitByType i1) by (unfold j; by rewrite SetUsed_eq).
  assert (Hch : ∀ d, charged_to j d = charged_to i1 d) by (intros d; unfold j; by rewrite SetUsed_eq).
  destruct (physical_account i0 nodes u) as (A1 & A2 & A3 & _ & A5). fold i1 j in A1, A2, A3, A5.
  assert (Hfound : ∀ t, is_Some (limitByType j !! t) ↔ found nodes t) by (intros t; rewrite Hlim; apply Refresh_found).
  assert (Hrun : ∃ rc, ComputeConstraints (H := TypeInventory_Inventory (Some nodes)) name i u nu = (Some rc, j) ∧ Pools rc = GetResourcePools j ∧
    NamespacePools rc = None ∧ NamespaceScoped rc = false ∧ TotalLimit rc = totalLimit j ∧ TotalUsed rc = totalUsed j) by (by eexists).
  destruct Hrun as (rc & Hrun & Hp & Hn & Hsc & Htl & Htu). exists rc, j, (charged_to j).
  destruct (ComputeConstraints_spec name i u nu rc j Hrun) as [Htot _]. split_and!; [done..| | | | | | |done].
  - intros t. rewrite Hp, A5, <-Hfound. apply fmap_is_Some.
  - intros t p. rewrite Hp, A5, <-A1, <-A2. unfold LimitByType. destruct (limitByType j !! t); [|done]. by intros [= <-].
  - intros d t Hd. destruct (A3 d t Hd) as [Ht [?|H1]]; (split; [by apply Hfound|]); [by left|right]. intros t' Ht'%Hfound.
    rewrite <-!elem_of_dom in Ht, Ht'. rewrite <-size_dom in H1. by apply (size_singleton_inv (dom (limitByType j))).
  - intros d t Hd Ht%Hfound. by eapply uncharged_unnamed.
  - rewrite Htl. unfold j. rewrite SetUsed_eq. cbn [totalLimit i1 Refresh default from_option id].
    by rewrite foldl_wrap_sum by (unfold in_int, int_min, int_max; lia).
  - rewrite Htu. unfold j. rewrite SetUsed_eq at 1. cbn [totalUsed]. f_equal. apply sumZ_ext. intros e _. by rewrite Hch.
Qed.
