(* ===== verification/QuotaConfig.v ===== *)
(** * Quota entries

    The model of the quota entries of [internal/config/quota_limiter.go]: the caps of
    an entry, how a namespace is looked up in them, and the entry bounded by the caps
    an external source (Kueue) grants ([BoundBy]).

    A nil map is an empty one: the code tells them apart nowhere.  Left out are the
    fields that only validation and the borrowing figures read.

    Theorem: neither source raises or opens what the other granted. *)
From Stdlib Require Import ZArith Lia String Ascii.
From stdpp Require Import base gmap strings list fin_maps.
From S2P Require Import Prelude Accelerator Budget Limiter.
Open Scope Z_scope.

(** ** Entries and grants *)
Definition QuotaLimiterReservedNamespaceKey : string := "default".
Definition QuotaUnlimited : Z := -1.
Definition QuotaScopeCluster : string := "cluster".
Definition QuotaScopeNamespace : string := "namespace".

Record KueueQuotaSource := MkKueueSource { Enabled : bool; CountBorrowable : option bool }.

Record QuotaLimiterConfig := MkQuotaConfig {
  qc_Name : string; Scope : string; ClusterQuotas : usage; NamespaceQuotas : ns_usage;
  Exclude : list string; qc_Kueue : option KueueQuotaSource }.

Definition KueueEnabled (q : QuotaLimiterConfig) : bool := match qc_Kueue q with Some k => Enabled k | None => false end.
Definition KueueCountsBorrowable (q : QuotaLimiterConfig) : bool :=
  KueueEnabled q && match qc_Kueue q with Some k => default true (CountBorrowable k) | None => true end.

Definition has_unlimited (m : usage) : bool := existsb (λ e : string * Z, e.2 =? QuotaUnlimited) (map_to_list m).

Definition HasUnlimitedCap (q : QuotaLimiterConfig) : bool :=
  if String.eqb (Scope q) QuotaScopeCluster then has_unlimited (ClusterQuotas q)
  else existsb (λ e : string * usage, has_unlimited e.2) (map_to_list (NamespaceQuotas q)).

(** What the source grants one subject; [Untyped] is [None] for no untyped grant. *)
Record ExternalCaps := MkCaps { ByType : usage; Untyped : option Z }.

Definition caps_IsZero (c : ExternalCaps) : bool := bool_decide (ByType c = ∅) && negb (bool_decide (is_Some (Untyped c))).

(** One queue's line for one flavor and resource, as granted to a namespace. *)
Record ExternalBorrow := MkRow {
  row_Queue : string; Flavor : string; Resource : string; row_Accelerator : string;
  Nominal : Z; Guaranteed : Z; WithinNominal : Z; Reserved : Z; Charge : Z }.

(** A snapshot; [Observed] says that the source has ever been read. *)
Record ExternalQuotas := MkExternal {
  ext_Namespace : gmap string ExternalCaps; ext_Cluster : ExternalCaps; Observed : bool;
  Borrow : gmap string (list ExternalBorrow);
  NamespaceGuaranteed : gmap string ExternalCaps; NamespaceWithinNominal : gmap string ExternalCaps }.

(** ** Looking a namespace up *)
Definition IsExcluded (q : QuotaLimiterConfig) (namespace : string) : bool :=
  String.eqb (Scope q) QuotaScopeNamespace && bool_decide (namespace ∈ Exclude q).

(** [None] is an excluded namespace; the quotas of any other are empty when nothing
    lists it. *)
Definition QuotaForNamespace (q : QuotaLimiterConfig) (namespace : string) : option usage :=
  if negb (String.eqb (Scope q) QuotaScopeNamespace) then Some ∅
  else if IsExcluded q namespace then None
  else match NamespaceQuotas q !! namespace with
       | Some quotas => Some quotas
       | None => Some (default ∅ (NamespaceQuotas q !! QuotaLimiterReservedNamespaceKey))
       end.

(** ** The entry bounded by a snapshot *)
Definition minQuota (a b : Z) : Z :=
  if a =? QuotaUnlimited then b else if b =? QuotaUnlimited then a else Z.min a b.

(** The grants that name an accelerator, summed; [None] when none does. *)
Definition granted_typed (caps : ExternalCaps) (accType : string) : option Z :=
  foldl (λ acc (e : string * Z), if SameName e.1 accType then Some (default 0 acc ⊞ e.2) else acc) None (map_to_list (ByType caps)).

Definition granted (caps : ExternalCaps) (accType : string) : Z :=
  match granted_typed caps accType with
  | Some n => n
  | None => default 0 (Untyped caps)
  end.

Definition minTypeQuotas (base : usage) (caps : ExternalCaps) : usage :=
  let matched grantType := existsb (λ e : string * Z, SameName grantType e.1) (map_to_list base) in
  map_imap (λ accType baseCap, Some (minQuota baseCap (granted caps accType))) base ∪
  ((λ _, 0) <$> filter (λ e : string * Z, matched e.1 = false) (ByType caps)).

(** What one namespace of the snapshot becomes; [None] leaves it as the static entry
    has it. *)
Definition bound_namespace (q : QuotaLimiterConfig) (ns : string) (caps : ExternalCaps) : option usage :=
  if String.eqb ns QuotaLimiterReservedNamespaceKey || IsExcluded q ns || caps_IsZero caps then None
  else match NamespaceQuotas q !! ns with
       | Some base => Some (minTypeQuotas base caps)
       | None =>
           match NamespaceQuotas q !! QuotaLimiterReservedNamespaceKey with
           | Some staticDefault => Some (minTypeQuotas staticDefault caps)
           | None =>
               if bool_decide (NamespaceQuotas q = ∅) && negb (bool_decide (ByType caps = ∅)) then Some (ByType caps) else None
           end
       end.

Definition BoundBy (q : QuotaLimiterConfig) (ext : ExternalQuotas) : QuotaLimiterConfig :=
  if String.eqb (Scope q) QuotaScopeCluster then
    let quotas :=
      if caps_IsZero (ext_Cluster ext) then ClusterQuotas q
      else if bool_decide (ClusterQuotas q = ∅) then ByType (ext_Cluster ext)
      else minTypeQuotas (ClusterQuotas q) (ext_Cluster ext) in
    MkQuotaConfig (qc_Name q) (Scope q) quotas (NamespaceQuotas q) (Exclude q) (qc_Kueue q)
  else if String.eqb (Scope q) QuotaScopeNamespace then
    MkQuotaConfig (qc_Name q) (Scope q) (ClusterQuotas q)
      (map_imap (bound_namespace q) (ext_Namespace ext) ∪ NamespaceQuotas q) (Exclude q) (qc_Kueue q)
  else q.

(** The subjects whose untyped grant names no type to apply it to. *)
Definition UnappliedUntyped (q : QuotaLimiterConfig) (ext : ExternalQuotas) : list string :=
  if String.eqb (Scope q) QuotaScopeCluster then
    if bool_decide (is_Some (Untyped (ext_Cluster ext))) && bool_decide (ClusterQuotas q = ∅) then ["cluster"] else []
  else if String.eqb (Scope q) QuotaScopeNamespace then
    sort_strings (omap (λ e : string * ExternalCaps,
      if negb (bool_decide (is_Some (Untyped e.2))) || String.eqb e.1 QuotaLimiterReservedNamespaceKey || IsExcluded q e.1
         || bool_decide (is_Some (NamespaceQuotas q !! e.1))
         || bool_decide (is_Some (NamespaceQuotas q !! QuotaLimiterReservedNamespaceKey)) then None
      else Some e.1) (map_to_list (ext_Namespace ext)))
  else [].

(** ** Caps *)

(** At most a cap, where an unlimited one bounds nothing. *)
Definition cap_le (v c : Z) : Prop := c = QuotaUnlimited ∨ (v ≠ QuotaUnlimited ∧ v ≤ c).

Lemma cap_le_refl v : cap_le v v.
Proof. unfold cap_le. destruct (Z.eq_dec v QuotaUnlimited); [by left|right; lia]. Qed.

(** Finite grants whose sums are in range. *)
Record caps_ok (caps : ExternalCaps) : Prop := {
  co_types : ∀ t v, ByType caps !! t = Some v → 0 ≤ v;
  co_untyped : ∀ v, Untyped caps = Some v → 0 ≤ v;
  co_sum : total (ByType caps) ≤ int_max }.

(** What a snapshot grants of an accelerator: all the lines that name it, else the
    untyped grant. *)
Definition named_total (t : string) (l : list (string * Z)) : Z := sumZ (λ e : string * Z, if SameName e.1 t then e.2 else 0) l.
Definition grant_of (caps : ExternalCaps) (t : string) : Z :=
  if existsb (λ e : string * Z, SameName e.1 t) (map_to_list (ByType caps)) then named_total t (map_to_list (ByType caps))
  else default 0 (Untyped caps).

(** Within the static caps, a type they do not list having none; and the tighter of
    the static cap and the grant, no less. *)
Definition within_static (base : usage) (t : string) (v : Z) : Prop :=
  match base !! t with Some c => cap_le v c | None => v = 0 end.
Definition tighter_of (base : usage) (caps : ExternalCaps) (t : string) (v : Z) : Prop :=
  cap_le v (grant_of caps t) ∧ ∀ c, base !! t = Some c → v = c ∨ v = grant_of caps t.

Lemma granted_fold t l acc :
  (∀ e, e ∈ l → 0 ≤ e.2) → 0 ≤ default 0 acc → default 0 acc + sumZ snd l ≤ int_max →
  foldl (λ acc (e : string * Z), if SameName e.1 t then Some (default 0 acc ⊞ e.2) else acc) acc l =
  if existsb (λ e, SameName e.1 t) l then Some (default 0 acc + named_total t l) else acc.
Proof.
  revert acc. induction l as [|e l IH]; intros acc Hl Ha Hs; cbn [foldl existsb]; [done|].
  rewrite sumZ_cons in Hs. pose proof (Hl e ltac:(left)) as He.
  assert (Hnn : 0 ≤ sumZ snd l) by (apply sumZ_nonneg; intros x Hx; apply Hl; by right).
  unfold named_total. rewrite sumZ_cons. fold (named_total t l). destruct (SameName e.1 t) eqn:Hn; cbn [orb].
  - rewrite wrap_id by int_lia. rewrite IH; [|intros; apply Hl; by right|cbn; lia|cbn; lia]. cbn [default from_option id].
    destruct (existsb _ l) eqn:Hex; [f_equal; lia|]. f_equal.
    assert (named_total t l = 0); [|lia]. unfold named_total. rewrite (sumZ_ext _ (λ _, 0)); [by rewrite sumZ_zero|].
    intros x Hx. destruct (SameName x.1 t) eqn:Hs'; [|done]. exfalso. apply not_true_iff_false in Hex. apply Hex, existsb_exists.
    exists x. split; [by apply list_elem_of_In|done].
  - rewrite IH; [|intros; apply Hl; by right|lia|lia]. by destruct (existsb _ l); rewrite ?Z.add_0_l.
Qed.

Section grants.
Context (caps : ExternalCaps).
Hypothesis Hok : caps_ok caps.

Lemma granted_eq t : granted caps t = grant_of caps t.
Proof using Hok.
  destruct Hok as [C1 C2 C3]. unfold granted, granted_typed, grant_of. rewrite granted_fold; [|..|done|done].
  - by destruct (existsb _ _).
  - intros [k v] Hin%elem_of_map_to_list. by eapply C1.
Qed.

Lemma grant_of_nonneg t : 0 ≤ grant_of caps t.
Proof using Hok.
  destruct Hok as [C1 C2 C3]. unfold grant_of. destruct (existsb _ _).
  - apply sumZ_nonneg. intros [k v] Hin%elem_of_map_to_list. cbn [fst snd]. destruct (SameName k t); [by eapply C1|done].
  - destruct (Untyped caps) eqn:E; [by apply C2|done].
Qed.

(** A grant is part of what is granted under its own name. *)
Lemma own_grant t v : ByType caps !! t = Some v → v ≤ grant_of caps t.
Proof using Hok.
  intros Hv. destruct Hok as [C1 C2 C3]. apply elem_of_map_to_list in Hv as Hin.
  assert (Hs : SameName t t = true) by (unfold SameName; by rewrite String.eqb_refl).
  unfold grant_of. rewrite (proj2 (existsb_exists _ _)); [|exists (t, v); split; [by apply list_elem_of_In|done]].
  apply list_elem_of_split in Hin as (l1 & l2 & He). unfold named_total. rewrite He, sumZ_app, sumZ_cons. cbn [fst snd]. rewrite Hs.
  assert (Hnn : ∀ l, (∀ e, e ∈ l → e ∈ map_to_list (ByType caps)) → 0 ≤ sumZ (λ e : string * Z, if SameName e.1 t then e.2 else 0) l).
  { intros l Hl. apply sumZ_nonneg. intros [k w] Hk%Hl%elem_of_map_to_list. cbn [fst snd]. destruct (SameName k t); [by eapply C1|done]. }
  pose proof (Hnn l1 ltac:(intros; rewrite He; set_solver)). pose proof (Hnn l2 ltac:(intros; rewrite He; set_solver)). lia.
Qed.

(** The tighter of a static map and the grants, type by type. *)
Lemma minTypeQuotas_tightest base t v : minTypeQuotas base caps !! t = Some v → within_static base t v ∧ tighter_of base caps t v.
Proof using Hok.
  unfold minTypeQuotas, within_static, tighter_of. intros [Hb|[_ Hz]]%lookup_union_Some_raw; pose proof (grant_of_nonneg t) as Hn.
  - rewrite map_lookup_imap in Hb. destruct (base !! t) as [c|] eqn:E; [|done]. cbn in Hb. injection Hb as <-.
    rewrite granted_eq. unfold minQuota, cap_le, QuotaUnlimited in *.
    destruct (Z.eqb_spec c (-1)); [split_and!; [by left|right; lia|intros ? [= <-]; by right]|].
    destruct (Z.eqb_spec (grant_of caps t) (-1)); [lia|]. split_and!; [right; lia..|]. intros ? [= <-]. lia.
  - apply lookup_fmap_Some in Hz as (x & <- & [Hx Hm]%map_lookup_filter_Some). cbn [fst] in Hm.
    assert (Hnone : base !! t = None).
    { destruct (base !! t) as [c|] eqn:E; [|done]. exfalso. apply not_true_iff_false in Hm. apply Hm, existsb_exists. exists (t, c).
      split; [by apply list_elem_of_In, elem_of_map_to_list|]. unfold SameName. by rewrite String.eqb_refl. }
    rewrite Hnone. unfold cap_le, QuotaUnlimited. split_and!; [done|right; lia|done].
Qed.

Lemma minTypeQuotas_lists base t : is_Some (base !! t) → is_Some (minTypeQuotas base caps !! t).
Proof. intros [c Hc]. unfold minTypeQuotas. apply lookup_union_is_Some. left. rewrite map_lookup_imap, Hc. by eexists. Qed.

Lemma own_tightest t v : ByType caps !! t = Some v → tighter_of ∅ caps t v.
Proof using Hok.
  intros Hv. split; [|intros c Hc; by rewrite lookup_empty in Hc]. pose proof (own_grant t v Hv). pose proof (co_types _ Hok t v Hv).
  unfold cap_le, QuotaUnlimited. right. lia.
Qed.
End grants.

(** ** The bounded entry *)
Section bounded.
Context (q : QuotaLimiterConfig) (ext : ExternalQuotas).
Hypothesis Hns : Scope q = QuotaScopeNamespace.

Lemma BoundBy_namespaces ns :
  NamespaceQuotas (BoundBy q ext) !! ns =
  match ext_Namespace ext !! ns ≫= bound_namespace q ns with Some m => Some m | None => NamespaceQuotas q !! ns end.
Proof using Hns.
  unfold BoundBy. rewrite Hns. cbn [String.eqb QuotaScopeNamespace QuotaScopeCluster]. cbn. rewrite lookup_union, map_lookup_imap.
  destruct (ext_Namespace ext !! ns ≫= bound_namespace q ns); cbn; destruct (NamespaceQuotas q !! ns); done.
Qed.

Lemma BoundBy_excluded ns : IsExcluded (BoundBy q ext) ns = IsExcluded q ns.
Proof using Hns. unfold BoundBy, IsExcluded. by rewrite Hns. Qed.

(** What a namespace that is not exempt gets: what the snapshot makes of it, else what
    the static entry gives it. *)
Lemma BoundBy_quota ns : IsExcluded q ns = false →
  QuotaForNamespace (BoundBy q ext) ns =
  match ext_Namespace ext !! ns ≫= bound_namespace q ns with Some m => Some m | None => QuotaForNamespace q ns end.
Proof using Hns.
  intros He. unfold QuotaForNamespace. rewrite BoundBy_excluded, He, !BoundBy_namespaces.
  assert (Hs : Scope (BoundBy q ext) = Scope q) by (unfold BoundBy; by rewrite Hns).
  rewrite Hs, Hns. cbn [String.eqb negb].
  assert (Hd : ext_Namespace ext !! QuotaLimiterReservedNamespaceKey ≫= bound_namespace q QuotaLimiterReservedNamespaceKey = None).
  { by destruct (ext_Namespace ext !! QuotaLimiterReservedNamespaceKey). }
  rewrite Hd. by destruct (ext_Namespace ext !! ns ≫= bound_namespace q ns).
Qed.

(** A namespace the snapshot changes has the tighter of both sources. *)
Lemma bound_namespace_tightest ns caps m base t :
  caps_ok caps → bound_namespace q ns caps = Some m → QuotaForNamespace q ns = Some base →
  (is_Some (base !! t) → is_Some (m !! t)) ∧
  ∀ v, m !! t = Some v → (NamespaceQuotas q ≠ ∅ → within_static base t v) ∧ tighter_of base caps t v.
Proof using Hns.
  intros Hok. unfold bound_namespace, QuotaForNamespace. rewrite Hns. cbn [String.eqb negb].
  destruct (String.eqb ns _ || IsExcluded q ns || caps_IsZero caps) eqn:Hx; [done|].
  apply orb_false_iff in Hx as [[_ ->]%orb_false_iff _].
  assert (Hmin : ∀ b, Some (minTypeQuotas b caps) = Some m → Some b = Some base → (is_Some (base !! t) → is_Some (m !! t)) ∧
    ∀ v, m !! t = Some v → (NamespaceQuotas q ≠ ∅ → within_static base t v) ∧ tighter_of base caps t v).
  { intros b [= <-] [= ->]. split; [apply minTypeQuotas_lists|]. intros v [? ?]%(minTypeQuotas_tightest caps Hok). by split. }
  destruct (NamespaceQuotas q !! ns) as [b|]; [apply Hmin|].
  destruct (NamespaceQuotas q !! QuotaLimiterReservedNamespaceKey) as [b|]; [apply Hmin|].
  case_bool_decide as Hem; [|done]. destruct (negb _); [|done]. intros [= <-] [= <-]. split; [by intros [? ?]|].
  intros v Hv. split; [done|by apply own_tightest].
Qed.

(** One the snapshot leaves alone has the static quotas, and is not governed. *)
Lemma unbound_namespace ns caps quotas t v :
  bound_namespace q ns caps = None → QuotaForNamespace q ns = Some quotas → quotas !! t = Some v →
  caps_IsZero caps = false → ns ≠ QuotaLimiterReservedNamespaceKey → False.
Proof using Hns.
  unfold bound_namespace, QuotaForNamespace. rewrite Hns. cbn [String.eqb negb]. intros Hb Hq Hv Hz Hne.
  rewrite (proj2 (String.eqb_neq _ _) Hne), Hz in Hb. destruct (IsExcluded q ns); [done|]. cbn [orb] in Hb.
  destruct (NamespaceQuotas q !! ns); [done|]. destruct (NamespaceQuotas q !! QuotaLimiterReservedNamespaceKey); [done|].
  injection Hq as <-. cbn in Hv. by rewrite lookup_empty in Hv.
Qed.
End bounded.

Lemma QuotaForNamespace_scope q ns : Scope q ≠ QuotaScopeNamespace → QuotaForNamespace q ns = Some ∅.
Proof. intros Hs. unfold QuotaForNamespace. by rewrite (proj2 (String.eqb_neq _ _) Hs). Qed.

Lemma BoundBy_scope q ext : Scope (BoundBy q ext) = Scope q.
Proof. unfold BoundBy. by destruct (String.eqb (Scope q) QuotaScopeCluster), (String.eqb (Scope q) QuotaScopeNamespace). Qed.

(** ** Properties *)

(** C27: an entry bounded by a snapshot has the tighter of both, at either scope.  A
    namespace is exempt from the bounded entry exactly when the static one exempts it.
    Under every other: a type the static entry lists stays listed; no type has more than
    the static entry gives it, and one it does not list has none, unless the static entry
    lists nothing at all, which leaves every type to the source; where the source
    governs, none has more than the source grants it, an unlimited cap being more than
    any grant, and a listed type has the static cap or the grant, not less. *)
Theorem bound_by_within_both q ext :
  (∀ ns caps, ext_Namespace ext !! ns = Some caps → caps_ok caps) → caps_ok (ext_Cluster ext) →
  (∀ ns, QuotaForNamespace (BoundBy q ext) ns = None ↔ QuotaForNamespace q ns = None) ∧
  (∀ ns quotas base t, QuotaForNamespace (BoundBy q ext) ns = Some quotas → QuotaForNamespace q ns = Some base →
     (is_Some (base !! t) → is_Some (quotas !! t)) ∧
     ∀ v, quotas !! t = Some v →
       (NamespaceQuotas q ≠ ∅ → within_static base t v) ∧
       (∀ caps, ext_Namespace ext !! ns = Some caps → caps_IsZero caps = false → ns ≠ QuotaLimiterReservedNamespaceKey →
          tighter_of base caps t v)) ∧
  (Scope q = QuotaScopeCluster → ∀ t,
     (is_Some (ClusterQuotas q !! t) → is_Some (ClusterQuotas (BoundBy q ext) !! t)) ∧
     ∀ v, ClusterQuotas (BoundBy q ext) !! t = Some v →
       (ClusterQuotas q ≠ ∅ → within_static (ClusterQuotas q) t v) ∧
       (caps_IsZero (ext_Cluster ext) = false → tighter_of (ClusterQuotas q) (ext_Cluster ext) t v)).
Proof.
  intros Hok Hc. assert (Hsame : ∀ (base : usage) t v, base !! t = Some v → within_static base t v).
  { intros base t v Hv. unfold within_static. rewrite Hv. apply cap_le_refl. }
  split_and!.
  - intros ns. destruct (decide (Scope q = QuotaScopeNamespace)) as [Hs|Hs];
      [|by rewrite !QuotaForNamespace_scope by (by rewrite ?BoundBy_scope)].
    destruct (IsExcluded q ns) eqn:He.
    + unfold QuotaForNamespace. by rewrite BoundBy_excluded, He, BoundBy_scope, Hs by done.
    + rewrite BoundBy_quota by done. unfold QuotaForNamespace. rewrite He, Hs. cbn.
      destruct (ext_Namespace ext !! ns ≫= bound_namespace q ns); [|done]. by destruct (NamespaceQuotas q !! ns); split.
  - intros ns quotas base t Hq Hb.
    destruct (decide (Scope q = QuotaScopeNamespace)) as [Hs|Hs].
    2:{ rewrite QuotaForNamespace_scope in Hq, Hb by (by rewrite ?BoundBy_scope). injection Hq as <-. injection Hb as <-.
        split; [done|]. intros v Hv. by rewrite lookup_empty in Hv. }
    assert (He : IsExcluded q ns = false).
    { destruct (IsExcluded q ns) eqn:He; [|done]. unfold QuotaForNamespace in Hb. by rewrite He, Hs in Hb. }
    rewrite BoundBy_quota in Hq by done. destruct (ext_Namespace ext !! ns) as [caps|] eqn:Hx; cbn in Hq.
    + destruct (bound_namespace q ns caps) as [m|] eqn:Hbn.
      * injection Hq as ->. destruct (bound_namespace_tightest q Hs ns caps quotas base t (Hok _ _ Hx) Hbn Hb) as [W1 W2].
        split; [done|]. intros v [? ?]%W2. split; [done|by intros ? [= <-]].
      * split; [by simplify_eq|]. intros v Hv. simplify_eq. split; [by intros _; apply Hsame|].
        intros ? [= <-] Hz Hne. exfalso. by apply (unbound_namespace q Hs ns caps quotas t v).
    + simplify_eq. split; [done|]. intros v Hv. split; [by intros _; apply Hsame|done].
  - intros Hs t. unfold BoundBy. rewrite Hs. cbn. destruct (caps_IsZero (ext_Cluster ext)).
    { split; [done|]. intros v Hv. split; [by intros _; apply Hsame|done]. }
    case_bool_decide as He.
    + rewrite He. split; [by intros [? ?]|]. intros v Hv. split; [done|]. intros _. by apply own_tightest.
    + split; [apply minTypeQuotas_lists|]. intros v [W1 W2]%(minTypeQuotas_tightest _ Hc). by split.
Qed.

(** A team held to eight H100s and four A100s, any other namespace to what Kueue grants
    it; Kueue grants the team six H100s under a product name, another namespace sixteen
    GPUs of no named type. *)
Definition demo_quota : QuotaLimiterConfig :=
  MkQuotaConfig "team-quota" QuotaScopeNamespace ∅
    {["team" := {["H100" := 8; "A100" := 4]}; "default" := {["H100" := -1]}]} ["kube-system"] (Some (MkKueueSource true None)).
Definition demo_external : ExternalQuotas :=
  MkExternal {["team" := MkCaps {["NVIDIA-H100-80GB-HBM3" := 6]} None; "other" := MkCaps ∅ (Some 16)]}
    (MkCaps ∅ None) true ∅ ∅ ∅.

Lemma empty_caps_ok n : 0 ≤ default 0 n → caps_ok (MkCaps ∅ n).
Proof.
  intros Hn. split; cbn [ByType Untyped].
  - intros t v Hv. by rewrite lookup_empty in Hv.
  - by intros v ->.
  - by rewrite map_to_list_empty.
Qed.

Lemma demo_caps_ok ns caps : ext_Namespace demo_external !! ns = Some caps → caps_ok caps.
Proof.
  unfold demo_external. cbn [ext_Namespace].
  intros [[_ <-]|[_ [_ <-]%lookup_singleton_Some]]%lookup_insert_Some; [|by apply empty_caps_ok].
  split; cbn [ByType Untyped]; [|done|].
  - by intros t v [_ <-]%lookup_singleton_Some.
  - by rewrite map_to_list_singleton.
Qed.

Lemma bound_by_within_both_witness :
  (map_to_list <$> QuotaForNamespace (BoundBy demo_quota demo_external) "team" = Some [("A100", 0); ("H100", 6)]) ∧
  (map_to_list <$> QuotaForNamespace (BoundBy demo_quota demo_external) "other" = Some [("H100", 16)]) ∧
  ∀ t v quotas, QuotaForNamespace (BoundBy demo_quota demo_external) "team" = Some quotas → quotas !! t = Some v →
    within_static {["H100" := 8; "A100" := 4]} t v ∧
    tighter_of {["H100" := 8; "A100" := 4]} (MkCaps {["NVIDIA-H100-80GB-HBM3" := 6]} None) t v.
Proof.
  split_and!; [vm_compute; reflexivity|vm_compute; reflexivity|]. intros t v quotas Hq Hv.
  destruct (bound_by_within_both demo_quota demo_external demo_caps_ok) as (_ & Hw & _); [by apply empty_caps_ok|].
  destruct (proj2 (Hw "team" quotas {["H100" := 8; "A100" := 4]} t Hq eq_refl) v Hv) as [Hs Ht]. split; [by apply Hs|by apply Ht].
Defined.
