(* ===== verification/QuotaCharge.v ===== *)
(** * The non-managed charge of Kueue's figures

    The model of [quota_charge.go] of [internal/engines/allocation]: what Kueue has
    reserved in the queues a namespace is granted, less what the namespace's own
    managed variants hold there, comes off the figures the namespace is granted.

    Go ranges over maps where the order does not matter to the result; the ranges here
    are in the order of [map_to_list].

    Theorem: no managed GPU cancels the charge of two lines of a queue, and no charge
    is more than what is reserved. *)
From Stdlib Require Import ZArith Lia String Ascii.
From stdpp Require Import base gmap strings list sorting fin_maps.
From S2P Require Import Prelude Accelerator Budget Limiter QuotaConfig.
Open Scope Z_scope.

(** ** Gated pods *)
Definition gated_step (acc : usage * Z) (e : string * Z) : usage * Z :=
  let '(unspent, untyped) := acc in
  if String.eqb e.1 "" then (unspent, untyped ⊞ e.2)
  else match FindBudgetKey unspent e.1 with
       | Some t => (<[t := Z.max 0 (default 0 (unspent !! t) ⊟ e.2)]> unspent, untyped)
       | None => (unspent, untyped)
       end.

Definition untyped_step (acc : usage * Z) (t : string) : usage * Z :=
  let '(unspent, untyped) := acc in
  let take := Z.min untyped (default 0 (unspent !! t)) in
  (<[t := default 0 (unspent !! t) ⊟ take]> unspent, untyped ⊟ take).

Definition keys_of {V} (m : gmap string V) : list string := sort_strings (map_to_list m).*1.

Definition admitted_namespace (gated perType : usage) : usage :=
  let '(unspent, untyped) := foldl gated_step (perType, 0) (map_to_list gated) in
  (foldl untyped_step (unspent, untyped) (keys_of unspent)).1.

Definition admittedUsage (managed : option ns_usage) (gated : ns_usage) : option ns_usage :=
  match managed with
  | None => None
  | Some m => if bool_decide (gated = ∅) then managed
              else Some (map_imap (λ ns perType, Some (admitted_namespace (default ∅ (gated !! ns)) perType)) m)
  end.

(** ** Queues *)
Record nsQueues := MkQueues { q_names : list string; q_rows : gmap string (list ExternalBorrow) }.

Definition queue_rows (qs : nsQueues) (q : string) : list ExternalBorrow := default [] (q_rows qs !! q).

Definition same_line (a b : ExternalBorrow) : bool := String.eqb (Flavor a) (Flavor b) && String.eqb (Resource a) (Resource b).

Definition queue_step (qs : nsQueues) (r : ExternalBorrow) : nsQueues :=
  let names := if bool_decide (row_Queue r ∈ q_names qs) then q_names qs else q_names qs ++ [row_Queue r] in
  if existsb (λ o, same_line o r) (queue_rows qs (row_Queue r)) then MkQueues names (q_rows qs)
  else MkQueues names (<[row_Queue r := queue_rows qs (row_Queue r) ++ [r]]> (q_rows qs)).

Definition queuesOfRows (rows : list ExternalBorrow) : nsQueues := foldl queue_step (MkQueues [] ∅) rows.

Definition untyped_row (r : ExternalBorrow) : bool := String.eqb (row_Accelerator r) "".
Definition names_type (r : ExternalBorrow) (accType : string) : bool :=
  negb (untyped_row r) && SameName (row_Accelerator r) accType.

Definition granting (qs : nsQueues) (accType : string) : list string :=
  filter (λ q, existsb (λ r, untyped_row r || SameName (row_Accelerator r) accType) (queue_rows qs q) = true) (q_names qs).

Definition untypedQueues (qs : nsQueues) : list string :=
  filter (λ q, existsb untyped_row (queue_rows qs q) = true) (q_names qs).

Definition several (l : list string) : bool := (1 <? length l)%nat.

(** ** What managed variants hold in a queue *)

(** Typed rows first, each group by flavor and resource. *)
Definition typed_before (a b : ExternalBorrow) : bool :=
  if negb (Bool.eqb (untyped_row a) (untyped_row b)) then negb (untyped_row a)
  else if negb (String.eqb (Flavor a) (Flavor b)) then String.ltb (Flavor a) (Flavor b)
  else match String.compare (Resource a) (Resource b) with Gt => false | _ => true end.

Definition typedFirst (rows : list ExternalBorrow) : list ExternalBorrow := sort_stable typed_before rows.

Definition line_holds (r : ExternalBorrow) (rows : list ExternalBorrow) (t : string) : bool :=
  if untyped_row r then negb (existsb (λ o, names_type o t) rows) else SameName (row_Accelerator r) t.

Definition take_step (r : ExternalBorrow) (rows : list ExternalBorrow) (limit : Z) (acc : usage * Z) (t : string) : usage * Z :=
  let '(unspent, taken) := acc in
  if limit <=? taken then acc
  else if line_holds r rows t then
    let n := Z.min (default 0 (unspent !! t)) (limit ⊟ taken) in
    (<[t := default 0 (unspent !! t) ⊟ n]> unspent, taken ⊞ n)
  else acc.

Definition takeManaged (unspent : usage) (r : ExternalBorrow) (rows : list ExternalBorrow) (limit : Z) : usage * Z :=
  foldl (take_step r rows limit) (unspent, 0) (keys_of unspent).

(** ** The charge of a namespace's rows *)
Definition line_key (r : ExternalBorrow) : string := Flavor r +:+ "/" +:+ Resource r.

(** The types held that several queues grant, and the GPUs counted in each queue. *)
Definition hold_step (qs : nsQueues) (held : usage) (acc : gmap string bool * ns_usage) (t : string) : gmap string bool * ns_usage :=
  let n := default 0 (held !! t) in
  if n <=? 0 then acc
  else
    let g := granting qs t in
    (<[t := several g]> acc.1,
     foldl (λ unspent q, <[q := <[t := default 0 (default ∅ (unspent !! q) !! t) ⊞ n]> (default ∅ (unspent !! q))]> unspent) acc.2 g).

Definition ambiguous_row (qs : nsQueues) (ambiguous : gmap string bool) (q : string) (unspent : usage) (r : ExternalBorrow) : bool :=
  if untyped_row r then
    several (untypedQueues qs) ||
    existsb (λ e : string * Z, (0 <? e.2) && default false (ambiguous !! e.1) && negb (existsb (λ o, names_type o e.1) (queue_rows qs q)))
      (map_to_list unspent)
  else several (granting qs (row_Accelerator r)).

Definition charge_row (qs : nsQueues) (ambiguous : gmap string bool) (q : string) (acc : usage * usage) (r : ExternalBorrow)
  : usage * usage :=
  let '(unspent, charge) := acc in
  let amb := ambiguous_row qs ambiguous q unspent r in
  let '(unspent, taken) := takeManaged unspent r (queue_rows qs q) (if amb then MaxInt else Reserved r) in
  let c := Reserved r ⊟ taken in
  (unspent, <[line_key r := if amb then c else Z.max 0 c]> charge).

Definition charge_queue (qs : nsQueues) (ambiguous : gmap string bool) (q : string) (unspent : usage) : usage :=
  (foldl (charge_row qs ambiguous q) (unspent, ∅) (typedFirst (queue_rows qs q))).2.

Definition with_charge (r : ExternalBorrow) (c : Z) : ExternalBorrow :=
  MkRow (row_Queue r) (Flavor r) (Resource r) (row_Accelerator r) (Nominal r) (Guaranteed r) (WithinNominal r) (Reserved r) c.

Definition namespaceCharge (rows : list ExternalBorrow) (held : usage) : list ExternalBorrow :=
  let qs := queuesOfRows rows in
  let '(ambiguous, unspent) := foldl (hold_step qs held) (∅, ∅) (keys_of held) in
  let charge := list_to_map ((λ q, (q, charge_queue qs ambiguous q (default ∅ (unspent !! q)))) <$> q_names qs) : ns_usage in
  (λ r, with_charge r (default 0 (default ∅ (charge !! row_Queue r) !! line_key r))) <$> rows.

(** ** The charged figures *)
Definition untypedSum (rows : list ExternalBorrow) (v : ExternalBorrow → Z) : Z :=
  let byRes := foldl (λ m r, if untyped_row r then add_to m (Resource r) (v r) else m) ∅ rows in
  match (map_to_list byRes).*2 with
  | [] => 0
  | n :: l => foldl Z.max n l
  end.

Definition lineSum (rows : list ExternalBorrow) (accType : string) (v : ExternalBorrow → Z) : Z :=
  let named := filter (λ r, names_type r accType = true) rows in
  match named with
  | [] => untypedSum rows v
  | _ => foldl (λ n r, n ⊞ v r) 0 named
  end.

(** The least over the queues of what a line leaves. *)
Definition least_of (l : list Z) : Z := foldl Z.min MaxInt l.

Definition charged_value (queues : list string) (n : Z) (charge unspent : string → Z) : Z :=
  match queues with
  | [] => n
  | [q] => Z.max 0 (n ⊟ charge q)
  | _ => Z.max 0 (least_of (unspent <$> queues))
  end.

Definition charge_caps (rows : list ExternalBorrow) (x : ExternalBorrow → Z) (c : ExternalCaps) : ExternalCaps :=
  let qs := queuesOfRows rows in
  let unspent r := x r ⊟ Charge r in
  MkCaps
    (map_imap (λ t n, Some (charged_value (granting qs t) n (λ q, lineSum (queue_rows qs q) t Charge)
                              (λ q, lineSum (queue_rows qs q) t unspent))) (ByType c))
    ((λ n, charged_value (untypedQueues qs) n (λ q, untypedSum (queue_rows qs q) Charge)
             (λ q, untypedSum (queue_rows qs q) unspent)) <$> Untyped c).

Definition chargeFigure (caps : gmap string ExternalCaps) (ns : string) (rows : list ExternalBorrow) (x : ExternalBorrow → Z)
  : gmap string ExternalCaps := alter (charge_caps rows x) ns caps.

Definition chargeNonManaged (ext : ExternalQuotas) (managed : option ns_usage) : ExternalQuotas :=
  match managed with
  | None => ext
  | Some m =>
      if bool_decide (Borrow ext = ∅) then ext
      else
        let borrow := map_imap (λ ns rows, Some (namespaceCharge rows (default ∅ (m !! ns)))) (Borrow ext) in
        let charged caps x := foldl (λ caps (e : string * list ExternalBorrow), chargeFigure caps e.1 e.2 x) caps (map_to_list borrow) in
        MkExternal (charged (ext_Namespace ext) Nominal) (ext_Cluster ext) (Observed ext) borrow
          (charged (NamespaceGuaranteed ext) Guaranteed) (charged (NamespaceWithinNominal ext) WithinNominal)
  end.

(** ** Taking managed GPUs *)
Definition nonneg_map (m : usage) : Prop := ∀ t v, m !! t = Some v → 0 ≤ v.

Lemma nonneg_at m t : nonneg_map m → 0 ≤ default 0 (m !! t).
Proof. intros Hm. destruct (m !! t) eqn:E; [by eapply Hm|done]. Qed.

Lemma nonneg_insert m t v : nonneg_map m → 0 ≤ v → nonneg_map (<[t := v]> m).
Proof. intros Hm Hv k w [[_ <-]|[_ Hk]]%lookup_insert_Some; [done|by eapply Hm]. Qed.

Lemma total_insert (m : usage) t v : total (<[t := v]> m) = total m - default 0 (m !! t) + v.
Proof. rewrite sumZ_insert. destruct (m !! t); cbn; lia. Qed.

Lemma total_nonneg m : nonneg_map m → 0 ≤ total m.
Proof. intros Hm. apply sumZ_nonneg. intros [t v] Hin%elem_of_map_to_list. by eapply Hm. Qed.

Lemma at_most_total m t : nonneg_map m → default 0 (m !! t) ≤ total m.
Proof.
  intros Hm. destruct (m !! t) as [v|] eqn:E; [|by apply total_nonneg].
  apply elem_of_map_to_list in E. cbn. apply (sumZ_elem_le (λ e : string * Z, e.2) (map_to_list m) (t, v)); [|done].
  intros [k w] Hin%elem_of_map_to_list. by eapply Hm.
Qed.

(** What a line takes: within its limit, each GPU once. *)
Lemma take_steps r rows limit ks u taken :
  nonneg_map u → total u ≤ int_max → 0 ≤ taken ≤ limit → limit ≤ int_max →
  let '(u', taken') := foldl (take_step r rows limit) (u, taken) ks in
  nonneg_map u' ∧ taken ≤ taken' ≤ limit ∧ total u' + taken' = total u + taken.
Proof.
  revert u taken. induction ks as [|t ks IH]; intros u taken Hu Ht Hk Hl; cbn [foldl]; [split_and!; [done|lia..]|].
  unfold take_step at 2. destruct (Z.leb_spec limit taken); [by apply IH|]. destruct (line_holds r rows t); [|by apply IH].
  pose proof (nonneg_at u t Hu). pose proof (at_most_total u t Hu). set (n := Z.min _ (limit ⊟ taken)).
  assert (Hn : n = Z.min (default 0 (u !! t)) (limit - taken)) by (unfold n; by rewrite wrap_id by int_lia).
  rewrite !wrap_id by int_lia. pose proof (total_insert u t (default 0 (u !! t) - n)) as Hi.
  specialize (IH (<[t := default 0 (u !! t) - n]> u) (taken + n) ltac:(apply nonneg_insert; [done|lia]) ltac:(lia) ltac:(lia) Hl).
  destruct (foldl _ _ ks) as [u' taken']. destruct IH as (I1 & I2 & I3). split_and!; [done|lia|lia|lia].
Qed.

(** ** The charges of one queue *)
Section queue.
Context (qs : nsQueues) (ambiguous : gmap string bool) (q : string).
#[local] Notation step := (charge_row qs ambiguous q).
#[local] Notation reserved_ok l := (∀ r, r ∈ l → 0 ≤ Reserved r ≤ int_max).

(** What the charges of some lines take off what is reserved. *)
Definition relieved (charge : usage) (l : list ExternalBorrow) : Z :=
  sumZ (λ r, Reserved r - default 0 (charge !! line_key r)) l.

Lemma charge_steps l u ch :
  reserved_ok l → NoDup (line_key <$> l) → nonneg_map u → total u ≤ int_max →
  let '(u', ch') := foldl step (u, ch) l in
  nonneg_map u' ∧ total u' + relieved ch' l ≤ total u ∧
  (∀ k, k ∉ line_key <$> l → ch' !! k = ch !! k) ∧
  (∀ r, r ∈ l → default 0 (ch' !! line_key r) ≤ Reserved r) ∧
  ((∀ u r, r ∈ l → ambiguous_row qs ambiguous q u r = false) → ∀ r, r ∈ l → 0 ≤ default 0 (ch' !! line_key r)).
Proof.
  revert u ch. induction l as [|r l IH]; intros u ch Hr Hn Hu Ht; cbn [foldl].
  { unfold relieved, sumZ. simpl. split_and!; [done|lia|done|by intros r ?%not_elem_of_nil|by intros _ r ?%not_elem_of_nil]. }
  cbn [fmap list_fmap] in Hn. apply NoDup_cons in Hn as [Hni Hn]. pose proof (Hr r ltac:(left)) as Hrr.
  unfold charge_row at 2. set (amb := ambiguous_row qs ambiguous q u r). unfold takeManaged.
  pose proof (take_steps r (queue_rows qs q) (if amb then MaxInt else Reserved r) (keys_of u) u 0 Hu Ht) as Hk.
  destruct (foldl (take_step _ _ _) _ _) as [u1 taken]. destruct Hk as (K1 & K2 & K3).
  { unfold MaxInt. destruct amb; unfold int_max in *; lia. }
  { unfold MaxInt. destruct amb; unfold int_max in *; lia. }
  pose proof (total_nonneg u1 K1). pose proof (total_nonneg u Hu).
  assert (Hc : Reserved r ⊟ taken = Reserved r - taken) by (apply wrap_id; int_lia). rewrite Hc.
  set (c := if amb then _ else _).
  assert (Hcr : Reserved r - taken ≤ c ≤ Reserved r ∧ (amb = false → 0 ≤ c)).
  { unfold c. destruct amb; lia. }
  specialize (IH u1 (<[line_key r := c]> ch) ltac:(intros; apply Hr; by right) Hn K1 ltac:(lia)).
  destruct (foldl step _ l) as [u' ch']. destruct IH as (I1 & I2 & I3 & I4 & I5).
  assert (Hkey : ch' !! line_key r = Some c) by (rewrite I3 by done; apply lookup_insert_eq).
  split_and!; [done| |..].
  - unfold relieved in *. rewrite sumZ_cons, Hkey. cbn [default from_option id]. lia.
  - intros k Hk. apply not_elem_of_cons in Hk as [Hk1 Hk2]. rewrite I3 by done. by apply lookup_insert_ne.
  - intros x [->|Hx]%elem_of_cons; [rewrite Hkey; cbn; lia|by apply I4].
  - intros Hamb x [->|Hx]%elem_of_cons; [rewrite Hkey; cbn; apply Hcr, Hamb; left|].
    apply I5; [|done]. intros u0 r0 Hin0. apply Hamb. by right.
Qed.

Lemma charge_queue_spec u :
  reserved_ok (queue_rows qs q) → NoDup (line_key <$> queue_rows qs q) → nonneg_map u → total u ≤ int_max →
  let ch := charge_queue qs ambiguous q u in
  relieved ch (queue_rows qs q) ≤ total u ∧
  (∀ r, r ∈ queue_rows qs q → default 0 (ch !! line_key r) ≤ Reserved r) ∧
  ((∀ u r, r ∈ queue_rows qs q → ambiguous_row qs ambiguous q u r = false) →
   ∀ r, r ∈ queue_rows qs q → 0 ≤ default 0 (ch !! line_key r)).
Proof.
  intros Hr Hn Hu Ht. cbv zeta. unfold charge_queue, typedFirst.
  pose proof (sort_stable_perm typed_before (queue_rows qs q)) as Hp. set (l := sort_stable _ _) in *.
  pose proof (charge_steps l u ∅) as Hs. destruct (foldl step (u, ∅) l) as [u' ch]. cbn [snd].
  destruct Hs as (S1 & S2 & _ & S4 & S5); [intros r; rewrite Hp; apply Hr|by rewrite Hp|done|done|].
  pose proof (total_nonneg u' S1). unfold relieved in *. rewrite Hp in S2. split_and!; [lia| |].
  - intros r Hin. apply S4. by rewrite Hp.
  - intros Ha r Hin. apply S5; [|by rewrite Hp]. intros u0 r0 Hin0. apply Ha. by rewrite <- Hp.
Qed.
End queue.

(** ** The rows of a namespace by queue *)
Notation line_of r := (Flavor r, Resource r).

Lemma queuesOfRows_snoc rows r : queuesOfRows (rows ++ [r]) = queue_step (queuesOfRows rows) r.
Proof. unfold queuesOfRows. by rewrite foldl_app. Qed.

Lemma queue_step_rows qs r q :
  queue_rows (queue_step qs r) q =
  if String.eqb (row_Queue r) q && negb (existsb (λ o, same_line o r) (queue_rows qs q)) then queue_rows qs q ++ [r] else queue_rows qs q.
Proof.
  unfold queue_step. destruct (String.eqb_spec (row_Queue r) q) as [->|Hne]; cbn [andb].
  - destruct (existsb _ (queue_rows qs q)); [done|]. unfold queue_rows at 1. cbn [q_rows]. by rewrite lookup_insert_eq.
  - destruct (existsb _ _); [done|]. unfold queue_rows at 1. cbn [q_rows]. by rewrite lookup_insert_ne.
Qed.

Lemma queue_step_names qs r : q_names (queue_step qs r) =
  if bool_decide (row_Queue r ∈ q_names qs) then q_names qs else q_names qs ++ [row_Queue r].
Proof. unfold queue_step. by destruct (existsb _ _). Qed.

Lemma queuesOfRows_names rows : NoDup (q_names (queuesOfRows rows)) ∧ (∀ r, r ∈ rows → row_Queue r ∈ q_names (queuesOfRows rows)).
Proof.
  induction rows as [|r rows [IH1 IH2]] using rev_ind; [split; [constructor|by intros r ?%not_elem_of_nil]|].
  rewrite queuesOfRows_snoc, queue_step_names. case_bool_decide as Hin.
  - split; [done|]. intros x [Hx| ->%list_elem_of_singleton]%elem_of_app; [by apply IH2|done].
  - split; [apply NoDup_app; split_and!; [done| |apply NoDup_singleton]; by intros x Hx ->%list_elem_of_singleton|].
    intros x [Hx| ->%list_elem_of_singleton]%elem_of_app; set_solver.
Qed.

Lemma queuesOfRows_rows rows q :
  NoDup ((λ r, line_of r) <$> queue_rows (queuesOfRows rows) q) ∧
  ∀ r, r ∈ queue_rows (queuesOfRows rows) q → r ∈ rows ∧ row_Queue r = q.
Proof.
  induction rows as [|r rows [IH1 IH2]] using rev_ind; [split; [constructor|by intros r ?%not_elem_of_nil]|].
  rewrite queuesOfRows_snoc, queue_step_rows.
  destruct (String.eqb_spec (row_Queue r) q) as [Hq|_]; cbn [andb]; [|split; [done|set_solver]].
  destruct (existsb _ _) eqn:Hex; cbn [negb]; [split; [done|set_solver]|]. split.
  - rewrite fmap_app. apply NoDup_app. split_and!; [done| |apply NoDup_singleton].
    intros x (o & -> & Ho)%list_elem_of_fmap Hx%list_elem_of_singleton. injection Hx as E1 E2.
    apply not_true_iff_false in Hex. apply Hex, existsb_exists. exists o. split; [by apply list_elem_of_In|].
    unfold same_line. by rewrite E1, E2, !String.eqb_refl.
  - intros x [Hx| ->%list_elem_of_singleton]%elem_of_app; [destruct (IH2 x Hx); set_solver|set_solver].
Qed.

(** Figures other than the line of a row do not group it. *)
Lemma queuesOfRows_fmap (f : ExternalBorrow → ExternalBorrow) rows q :
  (∀ r, row_Queue (f r) = row_Queue r ∧ line_of (f r) = line_of r) →
  queue_rows (queuesOfRows (f <$> rows)) q = f <$> queue_rows (queuesOfRows rows) q.
Proof.
  intros Hf. induction rows as [|r rows IH] using rev_ind; [done|].
  rewrite fmap_app. change (f <$> [r]) with [f r]. rewrite !queuesOfRows_snoc, !queue_step_rows, IH. destruct (Hf r) as [-> Hr].
  assert (He : ∀ l, existsb (λ o, same_line o (f r)) (f <$> l) = existsb (λ o, same_line o r) l).
  { induction l as [|o l IHl]; [done|]. rewrite fmap_cons. cbn [existsb]. rewrite IHl.
    destruct (Hf o) as [_ Ho]. unfold same_line at 1. injection Ho as -> ->. by injection Hr as -> ->. }
  rewrite He. destruct (String.eqb (row_Queue r) q && negb _); [by rewrite fmap_app|done].
Qed.

(** ** The GPUs counted in each queue *)
Notation in_queue unspent q := (default ∅ ((unspent : ns_usage) !! q)).

Lemma hold_in_queues t n g (unspent : ns_usage) q :
  NoDup g →
  in_queue (foldl (λ (unspent : ns_usage) q, <[q := <[t := default 0 (in_queue unspent q !! t) ⊞ n]> (in_queue unspent q)]> unspent) unspent g) q =
  if decide (q ∈ g) then <[t := default 0 (in_queue unspent q !! t) ⊞ n]> (in_queue unspent q) else in_queue unspent q.
Proof.
  revert unspent. induction g as [|x g IH]; intros unspent Hn; [done|]. cbn [foldl]. apply NoDup_cons in Hn as [Hni Hn].
  rewrite IH by done. destruct (decide (q = x)) as [->|Hne].
  - rewrite (decide_False (P := x ∈ g)), decide_True by (done || left). by rewrite lookup_insert_eq.
  - rewrite lookup_insert_ne by done. destruct (decide (q ∈ g)).
    + by rewrite decide_True by (by right).
    + rewrite decide_False; [done|]. by intros [?|?]%elem_of_cons.
Qed.

Lemma hold_steps qs held ks acc S :
  NoDup (q_names qs) → 0 ≤ S → S + sumZ (λ t, Z.max 0 (default 0 (held !! t))) ks ≤ int_max →
  (∀ q, nonneg_map (in_queue acc.2 q) ∧ total (in_queue acc.2 q) ≤ S) →
  (∀ t b, acc.1 !! t = Some b → b = several (granting qs t)) →
  let r := foldl (hold_step qs held) acc ks in
  (∀ q, nonneg_map (in_queue r.2 q) ∧ total (in_queue r.2 q) ≤ S + sumZ (λ t, Z.max 0 (default 0 (held !! t))) ks) ∧
  (∀ t b, r.1 !! t = Some b → b = several (granting qs t)).
Proof.
  intros Hn. revert acc S. induction ks as [|t ks IH]; intros acc S HS Hb Hq Ha; cbn [foldl].
  { change (sumZ (λ t, Z.max 0 (default 0 (held !! t))) []) with 0. rewrite Z.add_0_r. by split. }
  rewrite sumZ_cons in Hb |- *. set (n := default 0 (held !! t)) in *.
  assert (0 ≤ sumZ (λ t, Z.max 0 (default 0 (held !! t))) ks) by (apply sumZ_nonneg; intros; lia).
  rewrite (Z.add_assoc S). apply IH; [lia|lia|..]; unfold hold_step; fold n; destruct (Z.leb_spec n 0).
  - intros q. destruct (Hq q). split; [done|lia].
  - intros q. cbn [snd]. rewrite hold_in_queues by (by apply NoDup_filter). destruct (Hq q) as [Q1 Q2].
    destruct (decide _); [|split; [done|lia]]. pose proof (nonneg_at _ t Q1). pose proof (at_most_total _ t Q1).
    rewrite wrap_id by int_lia. split; [apply nonneg_insert; [done|lia]|]. rewrite total_insert. lia.
  - done.
  - intros t' b. cbn [fst]. intros [[<- <-]|[_ ?]]%lookup_insert_Some; [done|by apply Ha].
Qed.

(** ** The charge of a namespace *)
Lemma held_total (held : usage) :
  sumZ (λ t, Z.max 0 (default 0 (held !! t))) (keys_of held) = sumZ (λ e : string * Z, Z.max 0 e.2) (map_to_list held).
Proof.
  unfold keys_of. rewrite sort_strings_perm, sumZ_fmap. apply sumZ_ext. intros [t v] Hin%elem_of_map_to_list. cbn [fst snd]. by rewrite Hin.
Qed.

Lemma NoDup_lines rows : (∀ r r', r ∈ rows → r' ∈ rows → line_key r = line_key r' → line_of r = line_of r') →
  NoDup ((λ r, line_of r) <$> rows) → NoDup (line_key <$> rows).
Proof.
  induction rows as [|r rows IH]; intros Hk Hn; [constructor|]. cbn [fmap list_fmap] in Hn |- *.
  apply NoDup_cons in Hn as [Hni Hn]. apply NoDup_cons. split; [|apply IH; [|done]; intros; apply Hk; by try right].
  intros (o & He & Ho)%list_elem_of_fmap. apply Hni, list_elem_of_fmap. exists o. split; [|done]. apply Hk; [left|by right|done].
Qed.

Lemma one_queue_clear rows (ambiguous : gmap string bool) q u r :
  (length (q_names (queuesOfRows rows)) ≤ 1)%nat →
  (∀ t b, ambiguous !! t = Some b → b = several (granting (queuesOfRows rows) t)) →
  ambiguous_row (queuesOfRows rows) ambiguous q u r = false.
Proof.
  intros H1 Ha. assert (Hf : ∀ P `{∀ x, Decision (P x)}, several (filter P (q_names (queuesOfRows rows))) = false).
  { intros P HP. apply Nat.ltb_ge. etrans; [apply length_filter|done]. }
  unfold ambiguous_row. destruct (untyped_row r); [|apply Hf].
  unfold untypedQueues. rewrite Hf. cbn [orb]. apply not_true_iff_false. intros (e & _ & Hx)%existsb_exists.
  apply andb_true_iff in Hx as [[_ Hx]%andb_true_iff _]. destruct (ambiguous !! e.1) as [b|] eqn:E; [|done].
  change (b = true) in Hx. rewrite (Ha _ _ E) in Hx. unfold granting in Hx. by rewrite Hf in Hx.
Qed.

Section namespace.
Context (rows : list ExternalBorrow).
#[local] Notation qs := (queuesOfRows rows).
Hypothesis Hr : ∀ r, r ∈ rows → 0 ≤ Reserved r ≤ int_max.
Hypothesis Hk : ∀ r r', r ∈ rows → r' ∈ rows → line_key r = line_key r' → line_of r = line_of r'.

(** The charges of a queue, where the GPUs [unspent] are counted in the queues. *)
Lemma queue_charges (ambiguous : gmap string bool) (unspent : ns_usage) q :
  nonneg_map (in_queue unspent q) → total (in_queue unspent q) ≤ int_max →
  (∀ t b, ambiguous !! t = Some b → b = several (granting qs t)) →
  let ch := charge_queue qs ambiguous q (in_queue unspent q) in
  let charge := list_to_map ((λ q, (q, charge_queue qs ambiguous q (in_queue unspent q))) <$> q_names qs) : ns_usage in
  relieved ch (queue_rows qs q) ≤ total (in_queue unspent q) ∧
  ∀ r, r ∈ queue_rows qs q → charge !! row_Queue r = Some ch ∧ default 0 (ch !! line_key r) ≤ Reserved r ∧
    ((length (q_names qs) ≤ 1)%nat → 0 ≤ default 0 (ch !! line_key r)).
Proof using Hr Hk.
  intros Hu Ht Ha. cbv zeta. destruct (queuesOfRows_rows rows q) as [Hnd Hrows].
  destruct (queuesOfRows_names rows) as [Hnn Hin].
  destruct (charge_queue_spec qs ambiguous q (in_queue unspent q)) as (C1 & C2 & C3); try done.
  - intros r Hx. by apply Hr, Hrows.
  - apply NoDup_lines; [|done]. intros r r' Hx Hx'. by apply Hk; apply Hrows.
  - split; [done|]. intros r Hx. destruct (Hrows r Hx) as [Hx1 Hx2]. split_and!; [|by apply C2|].
    + apply elem_of_list_to_map; [by rewrite <- list_fmap_compose; cbn; rewrite list_fmap_id|].
      apply list_elem_of_fmap. exists q. rewrite <- Hx2. split; [done|by apply Hin].
    + intros Hone. apply C3; [|done]. intros u r0 _. by apply (one_queue_clear rows ambiguous).
Qed.
End namespace.

(** ** Properties *)

(** C30: the GPUs a namespace's managed variants hold cancel the charge of a queue once:
    over all the lines of a queue, what the charges take off what is reserved is at
    most what is held; no line is charged more than is reserved on it; and with one
    queue no charge is negative, so no figure rises. *)
Theorem charge_conserved rows held :
  (∀ r, r ∈ rows → 0 ≤ Reserved r ≤ int_max) →
  (∀ r r', r ∈ rows → r' ∈ rows → line_key r = line_key r' → line_of r = line_of r') →
  sumZ (λ e : string * Z, Z.max 0 e.2) (map_to_list held) ≤ int_max →
  let lines q := queue_rows (queuesOfRows (namespaceCharge rows held)) q in
  (∀ q, sumZ (λ r, Reserved r - Charge r) (lines q) ≤ sumZ (λ e : string * Z, Z.max 0 e.2) (map_to_list held)) ∧
  (∀ q r, r ∈ lines q → Charge r ≤ Reserved r ∧ ((length (q_names (queuesOfRows rows)) ≤ 1)%nat → 0 ≤ Charge r)).
Proof.
  intros Hr Hk Hh. cbv zeta. unfold namespaceCharge. set (qs := queuesOfRows rows).
  destruct (queuesOfRows_names rows) as [Hnn Hin]. fold qs in Hnn, Hin.
  pose proof (hold_steps qs held (keys_of held) (∅, ∅) 0 Hnn ltac:(done)) as Hs. rewrite held_total, Z.add_0_l in Hs.
  destruct (foldl (hold_step qs held) (∅, ∅) (keys_of held)) as [ambiguous unspent]. cbn [fst snd] in Hs.
  destruct Hs as [Hq Ha]; [done|..].
  { intros q. rewrite lookup_empty. cbn. split; [intros t v Hv; by rewrite lookup_empty in Hv|by rewrite map_to_list_empty]. }
  { intros t b Hb. by rewrite lookup_empty in Hb. }
  assert (Hch := λ q, queue_charges rows Hr Hk ambiguous unspent q (proj1 (Hq q)) (Z.le_trans _ _ _ (proj2 (Hq q)) Hh) Ha).
  cbv zeta in Hch. fold qs in Hch. set (charge := list_to_map _ : ns_usage) in *. set (f := λ r, with_charge r _).
  assert (Hl : ∀ q, queue_rows (queuesOfRows (f <$> rows)) q = f <$> queue_rows qs q) by (intros q; by apply queuesOfRows_fmap).
  split.
  - intros q. rewrite Hl, sumZ_fmap. destruct (Hch q) as [C1 C2]. etrans; [|apply Hq]. etrans; [|exact C1].
    apply Z.eq_le_incl, sumZ_ext. intros r Hx. destruct (C2 r Hx) as [He _]. unfold f. cbn [with_charge Reserved Charge]. by rewrite He.
  - intros q r. rewrite Hl. intros (r0 & -> & Hx)%list_elem_of_fmap. destruct (Hch q) as [_ C2]. destruct (C2 r0 Hx) as (He & C3 & C4).
    unfold f. cbn [with_charge Reserved Charge]. by rewrite He.
Qed.

(** A queue with a typed and an untyped line, where a training job holds GPUs beside
    the namespace's six H100s and three L4s. *)
Definition demo_rows : list ExternalBorrow :=
  [MkRow "q" "h100" "nvidia.com/gpu" "NVIDIA-H100-80GB-HBM3" 16 16 16 10 0; MkRow "q" "any" "nvidia.com/gpu" "" 8 8 8 4 0].
Definition held_gpus : usage := {["H100" := 6; "L4" := 3]}.

Lemma charge_conserved_witness :
  ((λ r, (Flavor r, Charge r)) <$> namespaceCharge demo_rows held_gpus = [("h100", 4); ("any", 1)]) ∧
  sumZ (λ r, Reserved r - Charge r) (queue_rows (queuesOfRows (namespaceCharge demo_rows held_gpus)) "q") ≤ 9.
Proof.
  split; [vm_compute; reflexivity|].
  destruct (charge_conserved demo_rows held_gpus) as [Hc _].
  - intros r Hr. repeat (apply elem_of_cons in Hr as [->|Hr]; [vm_compute; split; discriminate|]). by apply not_elem_of_nil in Hr.
  - intros r r' Hr Hr'. repeat (apply elem_of_cons in Hr as [->|Hr]; [repeat (apply elem_of_cons in Hr' as [->|Hr']; [done|])|]);
      by apply not_elem_of_nil in Hr || apply not_elem_of_nil in Hr'.
  - vm_compute. discriminate.
  - apply Hc.
Defined.
