(* ===== verification/QuotaInventory.v ===== *)
(** * The quota inventory

    The model of [quota_inventory.go] of [internal/engines/allocation] for an entry that
    counts no cohort borrowing: the static entry bounded by the snapshot the source
    gives, charged with what others hold ([QuotaCharge]), the usage reconciled onto the
    entry's keys, the totals and the pools, per type and per namespace.  It is a second
    instance of the interface of [Limiter].

    The answers of the source and of the gated pods are arguments.  Go holds a lock over
    every operation; here an operation is a function.  Left out are the figures of
    borrowing ([computeBorrowing], [withheldReasons], [uncountedNominal]) and the logs.

    Theorems: the totals are those of the finite pools; the constraints of a namespace
    carry exactly its caps, within the static entry and the source, and charge every GPU
    it uses to the cap that names it. *)
From Stdlib Require Import ZArith Lia String Ascii.
From stdpp Require Import base gmap strings list sorting fin_maps.
From S2P Require Import Prelude Accelerator Budget Limiter QuotaConfig QuotaCharge.
Open Scope Z_scope.

Module Quota.

Record QuotaInventory := MkInventory {
  static : QuotaLimiterConfig; cfg : QuotaLimiterConfig;
  usedByType : usage; usedByNS : ns_usage;
  managedNS : option (gset string); managedUsage : option ns_usage; neverRead : bool }.

Definition NewQuotaInventory (c : QuotaLimiterConfig) : QuotaInventory := MkInventory c c ∅ ∅ None None false.

(** What the limiter tells it before a refresh. *)
Definition SetManagedNamespaces (q : QuotaInventory) (namespaces : option (list string)) : QuotaInventory :=
  MkInventory (static q) (cfg q) (usedByType q) (usedByNS q) (list_to_set <$> namespaces) (managedUsage q) (neverRead q).
Definition SetManagedUsage (q : QuotaInventory) (usageByNamespace : option ns_usage) : QuotaInventory :=
  MkInventory (static q) (cfg q) (usedByType q) (usedByNS q) (managedNS q) usageByNamespace (neverRead q).

(** [source] is what the source answers, [None] for an entry without one; [gated] what
    the source of gated pods does. *)
Definition Refresh (source : option ExternalQuotas) (gated : option ns_usage) (q : QuotaInventory) : QuotaInventory :=
  match source with
  | None => q
  | Some ext =>
      let admitted := match gated with Some g => admittedUsage (managedUsage q) g | None => managedUsage q end in
      let ext := chargeNonManaged ext admitted in
      let effective := if Observed ext then BoundBy (static q) ext else static q in
      MkInventory (static q) effective (usedByType q) (usedByNS q) (managedNS q) (managedUsage q)
        (KueueEnabled (static q) && negb (Observed ext) && HasUnlimitedCap (static q))
  end.

(** ** Usage *)
Definition reconcileUsageKeys (known declared : usage) : usage :=
  charge_rows (λ e : string * Z, FindKey known e.1) (λ e, e.2) ∅ (map_to_list declared).

Definition SetUsed (q : QuotaInventory) (used : usage) : QuotaInventory :=
  if negb (String.eqb (Scope (static q)) QuotaScopeCluster) then q
  else MkInventory (static q) (cfg q) (reconcileUsageKeys (ClusterQuotas (cfg q)) used) (usedByNS q) (managedNS q)
         (managedUsage q) (neverRead q).

Definition reconcile_namespace (c : QuotaLimiterConfig) (ns : string) (perType : usage) : usage :=
  match QuotaForNamespace c ns with
  | None => perType
  | Some quotas => if bool_decide (quotas = ∅) then perType else reconcileUsageKeys quotas perType
  end.

Definition SetUsedByNamespace (q : QuotaInventory) (used : ns_usage) : QuotaInventory :=
  if negb (String.eqb (Scope (static q)) QuotaScopeNamespace) then q
  else MkInventory (static q) (cfg q) (usedByType q) (map_imap (λ ns perType, Some (reconcile_namespace (cfg q) ns perType)) used)
         (managedNS q) (managedUsage q) (neverRead q).

(** ** Totals and pools *)

(** The finite caps the totals count: each with its GPUs in use. *)
Definition finite_caps (quotas used : usage) : list (string * ResourcePool) :=
  omap (λ e : string * Z, if e.2 =? QuotaUnlimited then None else Some (e.1, MkPool e.2 (default 0 (used !! e.1)))) (map_to_list quotas).

(** The namespaces the totals count. *)
Definition counted_namespaces (q : QuotaInventory) : list (string * usage) :=
  filter (λ e : string * usage,
    String.eqb e.1 QuotaLimiterReservedNamespaceKey = false ∧ IsExcluded (cfg q) e.1 = false) (map_to_list (NamespaceQuotas (cfg q))).

Definition counted_caps (q : QuotaInventory) : list (string * ResourcePool) :=
  if String.eqb (Scope (cfg q)) QuotaScopeCluster then finite_caps (ClusterQuotas (cfg q)) (usedByType q)
  else if String.eqb (Scope (cfg q)) QuotaScopeNamespace then
    mjoin ((λ e : string * usage, finite_caps e.2 (default ∅ (usedByNS q !! e.1))) <$> counted_namespaces q)
  else [].

Definition TotalLimit (q : QuotaInventory) : Z := foldl (λ t (e : string * ResourcePool), t ⊞ Limit e.2) 0 (counted_caps q).
Definition TotalUsed (q : QuotaInventory) : Z := foldl (λ t (e : string * ResourcePool), t ⊞ Used e.2) 0 (counted_caps q).
Definition TotalAvailable (q : QuotaInventory) : Z := nonneg (TotalLimit q ⊟ TotalUsed q).

Definition quota_pools (quotas used : usage) : pools := map_imap (λ accType limit, Some (MkPool limit (default 0 (used !! accType)))) quotas.

Definition add_pool (ps : pools) (e : string * ResourcePool) : pools :=
  let p := default (MkPool 0 0) (ps !! e.1) in
  <[e.1 := MkPool (Limit p ⊞ Limit e.2) (Used p ⊞ Used e.2)]> ps.

Definition GetResourcePools (q : QuotaInventory) : pools :=
  if String.eqb (Scope (cfg q)) QuotaScopeCluster then quota_pools (ClusterQuotas (cfg q)) (usedByType q)
  else if String.eqb (Scope (cfg q)) QuotaScopeNamespace then foldl add_pool ∅ (counted_caps q)
  else ∅.

Definition namespace_step (q : QuotaInventory) (out : gmap string pools) (ns : string) : gmap string pools :=
  match QuotaForNamespace (cfg q) ns with
  | None => out
  | Some quotas => <[ns := quota_pools quotas (default ∅ (usedByNS q !! ns)) ∪ default ∅ (out !! ns)]> out
  end.

Definition NamespaceResourcePools (q : QuotaInventory) (activeNamespaces : list string) : option (gmap string pools) :=
  if negb (String.eqb (Scope (cfg q)) QuotaScopeNamespace) then None
  else Some (foldl (namespace_step q) ∅ activeNamespaces).

(** ** What it reports of its source *)
Definition NamespaceScoped (q : QuotaInventory) : bool := String.eqb (Scope (static q)) QuotaScopeNamespace.
Definition KueueBacked (sourced : bool) (q : QuotaInventory) : bool := sourced && NamespaceScoped q && KueueEnabled (static q).
Definition KueueBounded (sourced : bool) (q : QuotaInventory) : bool := sourced && KueueEnabled (static q).

(** The quota inventory as the limiter sees it, with what its sources will answer. *)
#[export] Instance QuotaInventory_Inventory (source : option ExternalQuotas) (gated : option ns_usage) : Inventory QuotaInventory := {|
  inv_Refresh := λ q, Some (Refresh source gated q);
  inv_SetUsed := SetUsed;
  inv_TotalLimit := TotalLimit;
  inv_TotalUsed := TotalUsed;
  inv_TotalAvailable := TotalAvailable;
  inv_GetResourcePools := GetResourcePools;
  inv_NamespaceScoped := λ q, Some (NamespaceScoped q);
  inv_SetManaged := λ q u, SetManagedUsage (SetManagedNamespaces q (Some (map_to_list u).*1)) (Some u);
  inv_KueueNeverRead := λ q, Some (neverRead q);
  inv_Kueue := λ q, Some (KueueBacked (bool_decide (is_Some source)) q, false, KueueBounded (bool_decide (is_Some source)) q);
  inv_NamespacePools := λ q u,
    let q := SetUsedByNamespace q u in Some (q, NamespaceResourcePools q (map_to_list u).*1) |}.

(** ** Totals *)
Lemma sum_pools (g : ResourcePool → Z) (ps : pools) l :
  (∀ a b c d, g (MkPool (a ⊞ c) (b ⊞ d)) = wrap (g (MkPool a b) + g (MkPool c d))) → g (MkPool 0 0) = 0 →
  wrap (sumZ (λ e : string * ResourcePool, g e.2) (map_to_list (foldl add_pool ps l))) =
  wrap (sumZ (λ e : string * ResourcePool, g e.2) (map_to_list ps) + sumZ (λ e : string * ResourcePool, g e.2) l).
Proof.
  intros Hg H0. revert ps. induction l as [|[k p] l IH]; intros ps; cbn [foldl].
  { change (sumZ (λ e : string * ResourcePool, g e.2) []) with 0. by rewrite Z.add_0_r. }
  rewrite IH, sumZ_cons. cbn [snd]. rewrite <- wrap_add_l. unfold add_pool. cbn [fst snd]. rewrite sumZ_insert. cbn [snd].
  rewrite Hg, wrap_add_r, wrap_add_l. f_equal. destruct p as [lim us]. cbn [Limit Used].
  destruct (ps !! k) as [[a b]|]; cbn [default from_option id Limit Used]; lia.
Qed.

Lemma finite_caps_pools quotas used :
  map_to_list (filter (λ e : string * ResourcePool, Limit e.2 ≠ QuotaUnlimited) (quota_pools quotas used)) ≡ₚ finite_caps quotas used.
Proof.
  apply NoDup_Permutation; [apply NoDup_map_to_list| |].
  - unfold finite_caps. apply (NoDup_fmap_1 fst).
    assert (He : (omap (λ e : string * Z, if e.2 =? QuotaUnlimited then None
      else Some (e.1, MkPool e.2 (default 0 (used !! e.1)))) (map_to_list quotas)).*1 =
      (filter (λ e : string * Z, (e.2 =? QuotaUnlimited) = false) (map_to_list quotas)).*1).
    { induction (map_to_list quotas) as [|e l IH]; [done|]. rewrite filter_cons. cbn [omap list_omap].
      destruct (e.2 =? QuotaUnlimited); [by rewrite decide_False|]. rewrite decide_True by done. cbn [fmap list_fmap fst]. f_equal. exact IH. }
    rewrite He. apply NoDup_filter_keys, NoDup_fst_map_to_list.
  - intros [k p]. rewrite elem_of_map_to_list, map_lookup_filter_Some. unfold quota_pools, finite_caps. rewrite map_lookup_imap.
    rewrite list_elem_of_omap. cbn [snd]. split.
    + intros [Hl Hne]. destruct (quotas !! k) as [v|] eqn:E; [|done]. cbn in Hl. injection Hl as <-. cbn in Hne.
      exists (k, v). split; [by apply elem_of_map_to_list|]. cbn [fst snd]. by rewrite (proj2 (Z.eqb_neq v QuotaUnlimited)).
    + intros ([k' v] & Hin%elem_of_map_to_list & He). cbn [fst snd] in He. destruct (Z.eqb_spec v QuotaUnlimited); [done|].
      injection He as <- <-. rewrite Hin. cbn. done.
Qed.

(** The totals of pools whose figures sum to those counted. *)
Lemma totals_of q (ps : pools) :
  (∀ g, (g = Limit ∨ g = Used) → wrap (sumZ (λ e : string * ResourcePool, g e.2) (map_to_list ps)) =
     wrap (sumZ (λ e : string * ResourcePool, g e.2) (counted_caps q))) →
  (TotalLimit q, TotalUsed q, TotalAvailable q) = poolTotals ps.
Proof.
  intros Hs. pose proof (Hs Limit ltac:(by left)) as H1. pose proof (Hs Used ltac:(by right)) as H2.
  unfold TotalAvailable, poolTotals, nonneg, TotalLimit, TotalUsed.
  rewrite !foldl_wrap_sum by (unfold in_int, int_min, int_max; lia). rewrite !Z.add_0_l, H1, H2. done.
Qed.

(** ** Pools of a namespace *)
Lemma namespace_steps q l ns :
  foldl (namespace_step q) ∅ l !! ns =
  if decide (ns ∈ l) then (λ quotas, quota_pools quotas (default ∅ (usedByNS q !! ns))) <$> QuotaForNamespace (cfg q) ns else None.
Proof.
  induction l as [|x l IH] using rev_ind; [done|]. rewrite foldl_app. cbn [foldl]. unfold namespace_step at 1.
  destruct (QuotaForNamespace (cfg q) x) as [quotas|] eqn:Hq.
  - destruct (decide (ns = x)) as [->|Hne].
    + rewrite lookup_insert_eq, decide_True by set_solver. rewrite Hq, IH. cbn. f_equal. destruct (decide _); rewrite ?Hq; cbn.
      * apply map_union_idemp.
      * apply map_union_empty.
    + rewrite lookup_insert_ne, IH by done. destruct (decide (ns ∈ l)); [by rewrite decide_True by set_solver|].
      rewrite decide_False; [done|set_solver].
  - rewrite IH. destruct (decide (ns ∈ l)); [by rewrite decide_True by set_solver|].
    destruct (decide (ns = x)) as [->|Hne]; [by rewrite decide_True, Hq by set_solver|]. rewrite decide_False; [done|set_solver].
Qed.

(** The GPUs of a usage that a key of the quotas is charged. *)
Definition charged_under (quotas used : usage) (t : string) : Z :=
  sumZ (λ e : string * Z, if decide (FindKey quotas e.1 = Some t) then e.2 else 0) (map_to_list used).

Lemma reconcile_lookup quotas used t : default 0 (reconcileUsageKeys quotas used !! t) = wrap (charged_under quotas used t).
Proof. unfold reconcileUsageKeys. rewrite charge_rows_lookup; rewrite lookup_empty; [done|]. unfold in_int, int_min, int_max. cbn. lia. Qed.

(** The pools of some quotas: their caps, with every GPU in use charged to one. *)
Definition pools_exact (quotas used : usage) (ps : pools) : Prop :=
  (∀ t, ps !! t = (λ cap, MkPool cap (wrap (charged_under quotas used t))) <$> quotas !! t) ∧
  wrap (sumZ (λ e : string * ResourcePool, Used e.2) (map_to_list ps)) =
  wrap (sumZ (λ e : string * Z, if FindKey quotas e.1 then e.2 else 0) (map_to_list used)).

Lemma quota_pools_exact quotas used : pools_exact quotas used (quota_pools quotas (reconcileUsageKeys quotas used)).
Proof.
  unfold quota_pools. split.
  - intros t. rewrite map_lookup_imap. destruct (quotas !! t); [|done]. cbn. by rewrite reconcile_lookup.
  - assert (Hp : map_to_list (map_imap (λ t limit, Some (MkPool limit (default 0 (reconcileUsageKeys quotas used !! t)))) quotas) ≡ₚ
      (λ e : string * Z, (e.1, MkPool e.2 (default 0 (reconcileUsageKeys quotas used !! e.1)))) <$> map_to_list quotas).
    { apply NoDup_Permutation; [apply NoDup_map_to_list| |].
      - apply NoDup_fmap_2_strong; [|apply NoDup_map_to_list]. by intros [k v] [k' v'] _ _ [= -> -> _].
      - intros [k p]. rewrite elem_of_map_to_list, list_elem_of_fmap, map_lookup_imap. split.
        + destruct (quotas !! k) as [v|] eqn:E; [|done]. intros [= <-]. exists (k, v). by rewrite elem_of_map_to_list.
        + intros ([k' v] & [= -> ->] & Hv%elem_of_map_to_list). cbn in *. by rewrite Hv. }
    rewrite Hp, sumZ_fmap. cbn [snd Used].
    pose proof (total_over (reconcileUsageKeys quotas used) quotas) as Ho. rewrite Ho.
    + unfold reconcileUsageKeys. rewrite charge_rows_total, map_to_list_empty. done.
    + intros t [Hd|(e & _ & He)]%charge_rows_dom; [by rewrite dom_empty in Hd|].
      apply FindKey_sound in He as [? _]. by apply elem_of_dom.
Qed.

Lemma empty_pools_exact used used' : pools_exact ∅ used (quota_pools ∅ used').
Proof.
  split; [done|]. rewrite (sumZ_ext _ (λ _, 0) (map_to_list used)), sumZ_zero; [done|].
  intros e _. destruct (FindKey ∅ e.1) as [k|] eqn:He; [|done]. apply FindKey_sound in He as [Hk _].
  rewrite lookup_empty in Hk. by destruct Hk.
Qed.

Lemma Refresh_keeps source gated q :
  static (Refresh source gated q) = static q ∧ (Scope (cfg q) = Scope (static q) → Scope (cfg (Refresh source gated q)) = Scope (static q)).
Proof.
  unfold Refresh. destruct source as [ext|]; [|done]. cbn [static cfg]. split; [done|]. intros _.
  destruct (Observed _); [by rewrite BoundBy_scope|done].
Qed.
End Quota.

Import Quota.

(** ** The limiter over a quota inventory *)
Section limiter.
Context (source : option ExternalQuotas) (gated : option ns_usage) (name : string) (q : QuotaInventory) (u : usage) (nu : ns_usage).
Hypothesis Hscope : Scope (cfg q) = Scope (static q).
#[local] Notation q1 := (Quota.Refresh source gated (inv_SetManaged (Inventory := QuotaInventory_Inventory source gated) q nu)).
#[local] Notation run := (ComputeConstraints (H := QuotaInventory_Inventory source gated) name q u (Some nu)).

Lemma refreshed_scope : Scope (static q1) = Scope (static q) ∧ Scope (cfg q1) = Scope (static q).
Proof using Hscope.
  destruct (Refresh_keeps source gated (inv_SetManaged (Inventory := QuotaInventory_Inventory source gated) q nu)) as [R1 R2].
  rewrite R1. split; [done|]. by rewrite R2.
Qed.

Lemma cluster_constraints : Scope (static q) = QuotaScopeCluster → ∃ rc, run.1 = Some rc ∧
  NamespacePools rc = None ∧ pools_exact (ClusterQuotas (cfg q1)) u (Pools rc) ∧
  (Budget.TotalLimit rc, Budget.TotalUsed rc, TotalAvail rc) =
    poolTotals (filter (λ e : string * ResourcePool, Limit e.2 ≠ QuotaUnlimited) (Pools rc)).
Proof using Hscope.
  intros Hs. destruct refreshed_scope as [S1 S2]. rewrite Hs in S1, S2. unfold ComputeConstraints.
  cbn [inv_Refresh inv_SetUsed inv_NamespacePools QuotaInventory_Inventory]. set (q2 := q1) in *.
  change (Quota.Refresh source gated _) with q2. clearbody q2.
  assert (Hq : Quota.SetUsed q2 u = MkInventory (static q2) (cfg q2) (reconcileUsageKeys (ClusterQuotas (cfg q2)) u) (usedByNS q2)
    (managedNS q2) (managedUsage q2) (neverRead q2)) by (unfold Quota.SetUsed; by rewrite S1).
  rewrite Hq. set (q3 := MkInventory _ _ _ _ _ _ _).
  assert (Hn : NamespaceResourcePools (SetUsedByNamespace q3 (default ∅ (Some nu))) (map_to_list (default ∅ (Some nu))).*1 = None).
  { assert (Hu : SetUsedByNamespace q3 (default ∅ (Some nu)) = q3) by (unfold SetUsedByNamespace; cbn [q3 static]; by rewrite S1).
    rewrite Hu. unfold NamespaceResourcePools. cbn [q3 cfg]. by rewrite S2. }
  rewrite Hn. eexists. split; [done|]. cbn [NamespacePools Pools Budget.TotalLimit Budget.TotalUsed TotalAvail].
  cbn [inv_GetResourcePools inv_TotalLimit inv_TotalUsed inv_TotalAvailable QuotaInventory_Inventory].
  assert (Hp : Quota.GetResourcePools q3 = quota_pools (ClusterQuotas (cfg q2)) (reconcileUsageKeys (ClusterQuotas (cfg q2)) u)).
  { unfold Quota.GetResourcePools. cbn [q3 cfg Quota.usedByType]. by rewrite S2. }
  rewrite Hp. split_and!; [done|apply quota_pools_exact|]. apply totals_of. intros g _. rewrite finite_caps_pools.
  unfold counted_caps. cbn [q3 cfg Quota.usedByType]. by rewrite S2.
Qed.

Lemma namespace_constraints : Scope (static q) = QuotaScopeNamespace → ∃ rc, run.1 = Some rc ∧
  Budget.NamespaceScoped rc = true ∧
  ∀ ns used, nu !! ns = Some used →
    match QuotaForNamespace (cfg q1) ns with
    | None => NamespacePools rc ≫= (.!! ns) = None
    | Some quotas => ∃ ps, NamespacePools rc ≫= (.!! ns) = Some ps ∧ pools_exact quotas used ps
    end.
Proof using Hscope.
  intros Hs. destruct refreshed_scope as [S1 S2]. rewrite Hs in S1, S2. unfold ComputeConstraints.
  cbn [inv_Refresh inv_SetUsed inv_NamespacePools QuotaInventory_Inventory]. set (q2 := q1) in *.
  change (Quota.Refresh source gated _) with q2. clearbody q2. change (default ∅ (Some nu)) with nu.
  assert (Hu : Quota.SetUsed q2 u = q2) by (unfold Quota.SetUsed; by rewrite S1). rewrite Hu.
  set (q3 := SetUsedByNamespace q2 nu).
  assert (H3 : cfg q3 = cfg q2 ∧ usedByNS q3 = map_imap (λ ns perType, Some (reconcile_namespace (cfg q2) ns perType)) nu).
  { unfold q3, SetUsedByNamespace. by rewrite S1. }
  destruct H3 as [Hc Hused]. set (out := foldl (namespace_step q3) ∅ (map_to_list nu).*1).
  assert (Hn : NamespaceResourcePools q3 (map_to_list nu).*1 = Some out).
  { unfold NamespaceResourcePools. by rewrite Hc, S2. }
  assert (Hout : ∀ ns used, nu !! ns = Some used → match QuotaForNamespace (cfg q2) ns with
    | None => out !! ns = None | Some quotas => ∃ ps, out !! ns = Some ps ∧ pools_exact quotas used ps end).
  { intros ns used Hin. unfold out. rewrite namespace_steps, decide_True by (apply elem_of_keys; eauto).
    rewrite Hc, Hused, map_lookup_imap, Hin. cbn [mbind option_bind default from_option id].
    unfold reconcile_namespace. destruct (QuotaForNamespace (cfg q2) ns) as [quotas|]; [|done]. cbn [fmap option_fmap option_map].
    eexists. split; [done|]. case_bool_decide as He; [|apply quota_pools_exact].
    subst quotas. by apply empty_pools_exact. }
  rewrite Hn. case_bool_decide as He.
  - eexists. split; [done|]. split; [done|]. intros ns used Hin. specialize (Hout ns used Hin). rewrite He in Hout.
    destruct (QuotaForNamespace (cfg q2) ns); [|done]. destruct Hout as (ps & Hps & _). by rewrite lookup_empty in Hps.
  - destruct (poolTotals _) as [[a b] c]. eexists. split; [done|]. split; [done|]. exact Hout.
Qed.
End limiter.

(** ** Properties *)

(** C28: the constraints a quota entry gives the optimizers are exactly its caps, each
    with every GPU in use charged to it once.  At cluster scope the pools are the
    entry's effective caps and the totals those of the finite ones.  At namespace scope
    an exempt namespace has no pools, and is thereby open; any other namespace in use
    has pools for exactly the types it is allowed, none when nothing lists it. *)
Theorem quota_constraints source gated name q u nu :
  Scope (cfg q) = Scope (static q) →
  let q1 := Quota.Refresh source gated (inv_SetManaged (Inventory := QuotaInventory_Inventory source gated) q nu) in
  let run := ComputeConstraints (H := QuotaInventory_Inventory source gated) name q u (Some nu) in
  ∃ rc, run.1 = Some rc ∧
  (Scope (static q) = QuotaScopeCluster →
     NamespacePools rc = None ∧ pools_exact (ClusterQuotas (cfg q1)) u (Pools rc) ∧
     (Budget.TotalLimit rc, Budget.TotalUsed rc, TotalAvail rc) =
       poolTotals (filter (λ e : string * ResourcePool, Limit e.2 ≠ QuotaUnlimited) (Pools rc))) ∧
  (Scope (static q) = QuotaScopeNamespace →
     Budget.NamespaceScoped rc = true ∧
     ∀ ns used, nu !! ns = Some used →
       match QuotaForNamespace (cfg q1) ns with
       | None => NamespacePools rc ≫= (.!! ns) = None
       | Some quotas => ∃ ps, NamespacePools rc ≫= (.!! ns) = Some ps ∧ pools_exact quotas used ps
       end).
Proof.
  intros Hsc. cbv zeta.
  destruct (decide (Scope (static q) = QuotaScopeNamespace)) as [Hn|Hn].
  { destruct (namespace_constraints source gated name q u nu Hsc Hn) as (rc & Hr & Hp). exists rc. split; [done|].
    split; [by rewrite Hn|by intros _]. }
  destruct (decide (Scope (static q) = QuotaScopeCluster)) as [Hc|Hc].
  { destruct (cluster_constraints source gated name q u nu Hsc Hc) as (rc & Hr & Hp). exists rc. split; [done|].
    split; [by intros _|by rewrite Hc]. }
  destruct (ComputeConstraints _ _ _ _) as [[rc|] q'] eqn:He; [by exists rc|].
  exfalso. revert He. unfold ComputeConstraints. cbn [inv_Refresh QuotaInventory_Inventory].
  repeat case_match; done.
Qed.

(** The team of [demo_quota] uses five H100s under their product's name, an exempt
    namespace two. *)
Definition demo_use : ns_usage := {["team" := {["NVIDIA-H100-80GB-HBM3" := 5]}; "kube-system" := {["A100" := 2]}]}.
Definition demo_run : option ResourceConstraints * QuotaInventory :=
  ComputeConstraints (H := QuotaInventory_Inventory (Some demo_external) None) "team-quota" (NewQuotaInventory demo_quota) ∅
    (Some demo_use).

Lemma quota_constraints_witness :
  ((λ rc, (λ e : string * pools, (e.1, map_to_list e.2)) <$> map_to_list (default ∅ (NamespacePools rc))) <$> demo_run.1 =
     Some [("team", [("A100", MkPool 0 0); ("H100", MkPool 6 5)])]) ∧
  ∃ rc ps, demo_run.1 = Some rc ∧ NamespacePools rc ≫= (.!! "team") = Some ps ∧
    pools_exact {["A100" := 0; "H100" := 6]} {["NVIDIA-H100-80GB-HBM3" := 5]} ps.
Proof.
  split; [vm_compute; reflexivity|].
  destruct (quota_constraints (Some demo_external) None "team-quota" (NewQuotaInventory demo_quota) ∅ demo_use eq_refl)
    as (rc & Hr & _ & Hn). destruct (Hn eq_refl) as [_ Hp]. specialize (Hp "team" {["NVIDIA-H100-80GB-HBM3" := 5]} eq_refl).
  set (q1 := Quota.Refresh _ _ _) in Hp.
  assert (Hq : QuotaForNamespace (cfg q1) "team" = Some {["A100" := 0; "H100" := 6]}) by (vm_compute; reflexivity).
  rewrite Hq in Hp. destruct Hp as (ps & Hps & He).
  exists rc, ps. split_and!; [exact Hr|exact Hps|exact He].
Defined.
