(* ===== verification/GoFloat.v ===== *)
(** * Go's [float64]

    [float64] values are the IEEE-754 binary64 numbers of [SpecFloat]
    ([spec_float] at precision 53, exponent limit 1024), with the operations
    the program uses: [+], [-], [*], [/], the comparisons, [math.Floor],
    [math.Ceil], [math.Round], [math.Max], the built-in [min] and [max], and the two
    conversions to and from [int].

    A conversion of a float that [int] cannot hold is implementation-dependent
    in Go; it is the field [out_of_range] of [IntConv], and every theorem holds
    for any instance.

    The second half bounds what one multiplication or division rounds up by,
    over the reals: the facts the replica counts of the optimizers rest on. *)
From Stdlib Require Import ZArith Lia SpecFloat Reals Lra.
From stdpp Require Import base list.
From S2P Require Import Prelude.

Notation float64 := spec_float.

(** ** Operations *)
Definition fadd : float64 → float64 → float64 := SFadd 53 1024.
Definition fsub : float64 → float64 → float64 := SFsub 53 1024.
Definition fmul : float64 → float64 → float64 := SFmul 53 1024.
Definition fdiv : float64 → float64 → float64 := SFdiv 53 1024.

Definition f0 : float64 := S754_zero false.

(** [float64(n)] *)
Definition of_int (n : Z) : float64 := binary_normalize 53 1024 n 0 false.

(** [math.MaxFloat64] *)
Definition MaxFloat64 : float64 := S754_finite false 9007199254740991 971.

Definition signed (s : bool) (m : positive) : Z := if s then Zneg m else Zpos m.

(** IEEE comparison, of the values: [None] when one is a NaN. *)
Definition fcompare (a b : float64) : option comparison :=
  match a, b with
  | S754_nan, _ | _, S754_nan => None
  | S754_infinity s, S754_infinity t =>
      Some (if Bool.eqb s t then Eq else if s then Lt else Gt)
  | S754_infinity s, _ => Some (if s then Lt else Gt)
  | _, S754_infinity t => Some (if t then Gt else Lt)
  | S754_zero _, S754_zero _ => Some Eq
  | S754_zero _, S754_finite t _ _ => Some (if t then Gt else Lt)
  | S754_finite s _ _, S754_zero _ => Some (if s then Lt else Gt)
  | S754_finite s m e, S754_finite t n f =>
      let lo := Z.min e f in
      Some (Z.compare (Z.shiftl (signed s m) (e - lo)) (Z.shiftl (signed t n) (f - lo)))
  end.

Definition flt (a b : float64) : bool :=
  match fcompare a b with Some Lt => true | _ => false end.
Definition fle (a b : float64) : bool :=
  match fcompare a b with Some (Lt | Eq) => true | _ => false end.
Definition feq (a b : float64) : bool :=
  match fcompare a b with Some Eq => true | _ => false end.

(** [math.IsInf(x, 1)] *)
Definition is_pos_inf (x : float64) : bool :=
  match x with S754_infinity false => true | _ => false end.

(** [math.Max]: an infinity wins over a NaN, and [+0] over [-0]. *)
Definition math_Max (a b : float64) : float64 :=
  if is_pos_inf a || is_pos_inf b then S754_infinity false
  else match a, b with
       | S754_nan, _ | _, S754_nan => S754_nan
       | S754_zero true, S754_zero _ => b
       | S754_zero false, S754_zero _ => a
       | _, _ => if flt b a then a else b
       end.

(** [math.Min]: a negative infinity wins over a NaN, and [-0] over [+0]. *)
Definition math_Min (a b : float64) : float64 :=
  match a, b with
  | S754_infinity true, _ | _, S754_infinity true => S754_infinity true
  | S754_nan, _ | _, S754_nan => S754_nan
  | S754_zero true, S754_zero _ => a
  | S754_zero false, S754_zero _ => b
  | _, _ => if flt a b then a else b
  end.

(** The built-in [min] and [max]: a NaN wins. *)
Definition fmin (a b : float64) : float64 :=
  match a, b with
  | S754_nan, _ | _, S754_nan => S754_nan
  | S754_zero true, S754_zero _ => a
  | S754_zero false, S754_zero _ => b
  | _, _ => if flt a b then a else b
  end.

Definition fmax (a b : float64) : float64 :=
  match a, b with
  | S754_nan, _ | _, S754_nan => S754_nan
  | S754_zero true, S754_zero _ => b
  | S754_zero false, S754_zero _ => a
  | _, _ => if flt b a then a else b
  end.

(** The integer at or below, and at or above, a finite float. *)
Definition floor_Z (s : bool) (m : positive) (e : Z) : Z := Z.shiftl (signed s m) e.
Definition ceil_Z (s : bool) (m : positive) (e : Z) : Z := - Z.shiftl (signed (negb s) m) e.

(** [math.Floor] and [math.Ceil].  A float with a non-negative exponent is an
    integer; below, the integer has at most 53 bits and [of_int] is exact. *)
Definition math_Floor (x : float64) : float64 :=
  match x with
  | S754_finite s m e => if (0 <=? e)%Z then x else of_int (floor_Z s m e)
  | _ => x
  end.

Definition math_Ceil (x : float64) : float64 :=
  match x with
  | S754_finite s m e =>
      if (0 <=? e)%Z then x
      else let z := ceil_Z s m e in if (z =? 0)%Z then S754_zero s else of_int z
  | _ => x
  end.

(** [math.Round]: half away from zero; the integer at or below twice the magnitude
    plus one, halved. *)
Definition math_Round (x : float64) : float64 :=
  match x with
  | S754_finite s m e =>
      if (0 <=? e)%Z then x
      else let z := Z.shiftr (Z.shiftl (Zpos m) (e + 1) + 1) 1 in
           if (z =? 0)%Z then S754_zero s else of_int (if s then - z else z)
  | _ => x
  end.

Definition is_nan (x : float64) : bool := match x with S754_nan => true | _ => false end.

(** [int(x)]: the integer part when [int] holds it. *)
Class IntConv := {
  out_of_range : float64 → Z;
  out_of_range_int : ∀ x, in_int (out_of_range x) }.

(** The integer part of a finite float, towards zero. *)
Definition trunc_Z (s : bool) (m : positive) (e : Z) : Z :=
  if s then - Z.shiftl (Zpos m) e else Z.shiftl (Zpos m) e.

Definition int_of {C : IntConv} (x : float64) : Z :=
  match x with
  | S754_zero _ => 0
  | S754_finite s m e =>
      let z := trunc_Z s m e in
      if (int_min <=? z)%Z && (z <=? int_max)%Z then z else out_of_range x
  | _ => out_of_range x
  end.

(** The conversion of amd64: every value out of range is the smallest [int]. *)
Lemma int_min_in_int : in_int int_min.
Proof. unfold in_int, int_min, int_max. lia. Qed.

#[export] Instance amd64 : IntConv :=
  {| out_of_range _ := int_min; out_of_range_int _ := int_min_in_int |}.

(** The conversion of arm64: out of range saturates, a NaN is 0. *)
Definition saturate (x : float64) : Z :=
  match x with
  | S754_infinity true | S754_finite true _ _ => int_min
  | S754_infinity false | S754_finite false _ _ => int_max
  | _ => 0%Z
  end.

Lemma saturate_in_int x : in_int (saturate x).
Proof.
  destruct x as [[]|[]| |[] ? ?]; unfold in_int, saturate, int_min, int_max; lia.
Qed.

Definition arm64 : IntConv := {| out_of_range := saturate; out_of_range_int := saturate_in_int |}.

Lemma int_of_in_int {C : IntConv} x : in_int (int_of x).
Proof.
  destruct x as [[]|[]| |s m e]; try apply out_of_range_int;
    [unfold in_int, int_min, int_max; simpl; lia..|].
  unfold int_of. cbv zeta. destruct (_ && _) eqn:H; [|apply out_of_range_int].
  unfold in_int. lia.
Qed.

(** ** Values *)
Definition bpow (e : Z) : R := powerRZ 2 e.

Definition F2R (x : float64) : R :=
  match x with
  | S754_finite s m e => IZR (signed s m) * bpow e
  | _ => 0
  end.

Definition is_finite (x : float64) : bool :=
  match x with S754_zero _ | S754_finite _ _ _ => true | _ => false end.

#[local] Open Scope R_scope.

Lemma bpow_pos e : 0 < bpow e.
Proof. apply powerRZ_lt. lra. Qed.

Lemma bpow_add a b : bpow (a + b) = bpow a * bpow b.
Proof. apply powerRZ_add. lra. Qed.

Lemma bpow_IZR e : (0 <= e)%Z → bpow e = IZR (2 ^ e).
Proof.
  intros He. rewrite <- (Z2Nat.id e) by done. generalize (Z.to_nat e). intros n.
  unfold bpow. rewrite <- pow_powerRZ. by rewrite pow_IZR.
Qed.

Lemma bpow_le a b : (a <= b)%Z → bpow a <= bpow b.
Proof.
  intros H. replace b with (a + (b - a))%Z by lia. rewrite bpow_add.
  rewrite (bpow_IZR (b - a)) by lia.
  assert (1 <= IZR (2 ^ (b - a))) by (apply IZR_le; pose proof (Z.pow_pos_nonneg 2 (b - a)); lia).
  pose proof (bpow_pos a). nra.
Qed.

Lemma F2R_shiftl s m e : (0 <= e)%Z → F2R (S754_finite s m e) = IZR (Z.shiftl (signed s m) e).
Proof.
  intros He. simpl. rewrite bpow_IZR, <- mult_IZR by done. by rewrite Z.shiftl_mul_pow2.
Qed.

(** The comparisons are those of the values. *)
Lemma shiftl_scaled s m e lo :
  (lo <= e)%Z → IZR (Z.shiftl (signed s m) (e - lo)) * bpow lo = F2R (S754_finite s m e).
Proof.
  intros H. rewrite Z.shiftl_mul_pow2, mult_IZR, <- bpow_IZR by lia. simpl.
  rewrite Rmult_assoc, <- bpow_add. by replace (e - lo + lo)%Z with e by lia.
Qed.

Lemma F2R_sign (s : bool) m e :
  if s then F2R (S754_finite s m e) < 0 else 0 < F2R (S754_finite s m e).
Proof.
  pose proof (bpow_pos e). destruct s; simpl.
  - assert (IZR (Zneg m) < 0) by (apply IZR_lt; lia). nra.
  - assert (0 < IZR (Zpos m)) by (apply IZR_lt; lia). nra.
Qed.

Lemma fcompare_spec a b :
  is_finite a = true → is_finite b = true →
  fcompare a b = Some Lt ∧ F2R a < F2R b ∨
  fcompare a b = Some Eq ∧ F2R a = F2R b ∨
  fcompare a b = Some Gt ∧ F2R b < F2R a.
Proof.
  destruct a as [s|s| |s m e], b as [t|t| |t n f]; try done; intros _ _.
  - right. left. done.
  - pose proof (F2R_sign t n f). destruct t; [right; right|left]; by split.
  - pose proof (F2R_sign s m e). destruct s; [left|right; right]; by split.
  - unfold fcompare. cbv zeta. set (lo := Z.min e f).
    rewrite <- (shiftl_scaled s m e lo), <- (shiftl_scaled t n f lo) by lia.
    pose proof (bpow_pos lo).
    destruct (Z.compare_spec (Z.shiftl (signed s m) (e - lo)) (Z.shiftl (signed t n) (f - lo)))
      as [->|Hl%IZR_lt|Hl%IZR_lt].
    + right. by left.
    + left. split; [done|]. nra.
    + right. right. split; [done|]. nra.
Qed.

(** The order of the numbers, infinities included. *)
Definition fclass (x : float64) : Z :=
  match x with S754_infinity true => -1 | S754_infinity false => 1 | _ => 0 end.

Definition number (x : float64) : Prop := x ≠ S754_nan.

Lemma flt_spec a b :
  number a → number b →
  flt a b = true ↔ (fclass a < fclass b)%Z ∨ fclass a = fclass b ∧ F2R a < F2R b.
Proof.
  intros Ha Hb. unfold flt.
  destruct (is_finite a) eqn:Fa, (is_finite b) eqn:Fb.
  - assert (Hc : fclass a = fclass b) by (by destruct a as [|[]| |], b as [|[]| |]). rewrite Hc.
    destruct (fcompare_spec a b Fa Fb) as [[-> ?]|[[-> ?]|[-> ?]]];
      split; try done; try (intros [?|[_ ?]]; [lia|lra]); by right.
  - destruct b as [?|[]| |]; try done; destruct a as [?|[]| |]; try done; simpl; split;
      intros; try lia; try (by left); done || (destruct H as [?|[? ?]]; lia).
  - destruct a as [?|[]| |]; try done; destruct b as [?|[]| |]; try done; simpl; split;
      intros; try lia; try (by left); done || (destruct H as [?|[? ?]]; lia).
  - destruct a as [?|[]| |], b as [?|[]| |]; try done; simpl; split; intros Hx; try done;
      try (by left); destruct Hx as [?|[? ?]]; lia || lra.
Qed.

Lemma feq_spec a b :
  number a → number b → feq a b = true ↔ fclass a = fclass b ∧ F2R a = F2R b.
Proof.
  intros Ha Hb. unfold feq.
  destruct (is_finite a) eqn:Fa, (is_finite b) eqn:Fb.
  - assert (Hc : fclass a = fclass b) by (by destruct a as [|[]| |], b as [|[]| |]). rewrite Hc.
    destruct (fcompare_spec a b Fa Fb) as [[-> ?]|[[-> ?]|[-> ?]]];
      split; try done; intros [_ ?]; lra.
  - destruct b as [?|[]| |]; try done; destruct a as [?|[]| |]; try done; simpl; split; intros [? ?] || intros; done || lia.
  - destruct a as [?|[]| |]; try done; destruct b as [?|[]| |]; try done; simpl; split; intros [? ?] || intros; done || lia.
  - destruct a as [?|[]| |], b as [?|[]| |]; try done; simpl; split; try done; intros [? _]; lia.
Qed.

(** [<] on numbers is a strict weak order. *)
Lemma flt_asym a b : number a → number b → flt a b = true → flt b a = false.
Proof.
  intros Ha Hb H. apply not_true_iff_false. intros H'. apply flt_spec in H, H'; try done.
  destruct H as [?|[? ?]], H' as [?|[? ?]]; lia || lra.
Qed.

Lemma flt_false_trans a b c :
  number a → number b → number c → flt b a = false → flt c b = false → flt c a = false.
Proof.
  intros Ha Hb Hc H1 H2. apply not_true_iff_false in H1, H2. apply not_true_iff_false.
  rewrite flt_spec in * by done. intros H.
  destruct (Z.lt_trichotomy (fclass b) (fclass a)) as [?|[Hab|?]]; [tauto| |].
  - destruct (Rlt_le_dec (F2R b) (F2R a)) as [?|?]; [tauto|].
    apply H2. destruct H as [?|[? ?]]; [left; lia|right]. split; [congruence|lra].
  - apply H2. destruct H as [?|[? ?]]; left; lia.
Qed.

Lemma feq_flt a b : number a → number b → feq a b = true ↔ flt a b = false ∧ flt b a = false.
Proof.
  intros Ha Hb. rewrite feq_spec, <- !not_true_iff_false, !flt_spec by done. split.
  - intros [? ?]. split; intros [?|[? ?]]; lia || lra.
  - intros [H1 H2]. destruct (Z.lt_trichotomy (fclass a) (fclass b)) as [?|[Heq|?]]; [tauto| |tauto].
    split; [done|]. destruct (Rtotal_order (F2R a) (F2R b)) as [?|[?|?]]; [|done|]; exfalso;
      [apply H1|apply H2]; by right.
Qed.

(** ** Rounding

    [binary_round_aux] drops the digits past the format, adds at most one unit
    in the last place, and drops again.  Its result is at most one unit above
    what it was given: [2^-52] of it, or [2^-1074] below the normal range. *)
Notation shr_exp := (shr_fexp 53 1024).

Lemma shr_1_m r : (0 <= shr_m r)%Z → shr_m (shr_1 r) = (shr_m r / 2)%Z.
Proof. destruct r as [[|[p|p|]|[p|p|]] ? ?]; simpl; try done; try lia; rewrite <- Z.div2_div; done. Qed.

Lemma iter_shr_m p r :
  (0 <= shr_m r)%Z → shr_m (SpecFloat.iter_pos shr_1 p r) = (shr_m r / 2 ^ Zpos p)%Z.
Proof.
  assert (Hpow : ∀ q, (0 < 2 ^ Zpos q)%Z) by (intros q; by apply Z.pow_pos_nonneg).
  revert r. induction p as [p IH|p IH|]; intros r Hr; cbn [SpecFloat.iter_pos].
  - assert (H1 := shr_1_m r Hr).
    assert (Hr1 : (0 <= shr_m (shr_1 r))%Z) by (rewrite H1; by apply Z.div_pos).
    assert (H2 := IH _ Hr1).
    rewrite IH, H2, H1 by (rewrite H2; apply Z.div_pos; [done|apply Hpow]).
    rewrite !Z.div_div by (specialize (Hpow p); lia).
    f_equal. rewrite (Pos2Z.inj_xI p).
    replace (2 * Zpos p + 1)%Z with (Zpos p + Zpos p + 1)%Z by lia.
    rewrite !Z.pow_add_r by lia. lia.
  - assert (H2 := IH _ Hr).
    rewrite IH, H2 by (rewrite H2; apply Z.div_pos; [done|apply Hpow]).
    rewrite Z.div_div by (specialize (Hpow p); lia).
    f_equal. rewrite (Pos2Z.inj_xO p). replace (2 * Zpos p)%Z with (Zpos p + Zpos p)%Z by lia.
    by rewrite Z.pow_add_r by lia.
  - by apply shr_1_m.
Qed.

Lemma Zdigits2_bounds m : (0 < m)%Z → (2 ^ (Zdigits2 m - 1) <= m < 2 ^ Zdigits2 m)%Z.
Proof.
  destruct m as [|p|]; try lia. intros _. simpl.
  assert (Hs : ∀ d, (0 < d → 2 ^ d = 2 * 2 ^ (d - 1))%Z).
  { intros d Hd. rewrite <- Z.pow_succ_r by lia. f_equal. lia. }
  induction p as [p IH|p IH|]; simpl; [..|done]; rewrite Pos2Z.inj_succ; unfold Z.succ;
    rewrite Z.add_simpl_r; pose proof (Hs (Zpos (digits2_pos p)) eq_refl);
    pose proof (Hs (Zpos (digits2_pos p) + 1)%Z ltac:(lia)) as H2;
    rewrite Z.add_simpl_r in H2; lia.
Qed.

(** One pass of [shr_fexp]: the exponent it ends at, and the mantissa as a floor. *)
Lemma shr_fexp_spec m e l :
  (0 <= m)%Z →
  let '(r, e') := shr_exp m e l in
  e' = Z.max e (fexp 53 1024 (Zdigits2 m + e)) ∧ shr_m r = (m / 2 ^ (e' - e))%Z ∧
  (e' = e → r = shr_record_of_loc m l).
Proof.
  intros Hm. unfold shr_fexp. set (n := (fexp 53 1024 (Zdigits2 m + e) - e)%Z).
  assert (Hr : shr_m (shr_record_of_loc m l) = m) by (by destruct l as [|[]]).
  unfold shr. destruct n as [|p|p] eqn:Hn; unfold n in Hn.
  1,3: split; [lia|]; rewrite Hr, Z.sub_diag, Z.pow_0_r, Z.div_1_r; done.
  rewrite iter_shr_m, Hr by (by rewrite Hr). split; [lia|]. split; [f_equal; f_equal; lia|lia].
Qed.

Lemma round_even_le m l :
  (m <= round_nearest_even m l <= m + 1)%Z ∧ (l = loc_Exact → round_nearest_even m l = m).
Proof. destruct l as [|[]]; simpl; try (destruct (Z.even m)); split; done || lia. Qed.

(** Dividing by a power of two and shifting the exponent loses value. *)
Lemma floor_scaled m n e : (0 <= n)%Z → IZR (m / 2 ^ n) * bpow (e + n) <= IZR m * bpow e.
Proof.
  intros Hn. rewrite bpow_add, (bpow_IZR n) by done.
  assert (H : (2 ^ n * (m / 2 ^ n) <= m)%Z) by (apply Z.mul_div_le; by apply Z.pow_pos_nonneg).
  apply IZR_le in H. rewrite mult_IZR in H. pose proof (bpow_pos e). nra.
Qed.

Definition eps : R := bpow (-52).
Definition eta : R := bpow (-1074).

(** What a rounding may add: a unit in the last place of what it keeps. *)
Lemma unit_small m e l :
  (0 <= m)%Z → (l = loc_Exact ∨ (2 ^ 52 <= m)%Z ∨ (e <= -1074)%Z) →
  let e' := Z.max e (fexp 53 1024 (Zdigits2 m + e)) in
  (e' = e ∧ l = loc_Exact) ∨ bpow e' <= IZR m * bpow e * eps + eta.
Proof.
  intros Hm Hl. cbv zeta. set (f := fexp 53 1024 (Zdigits2 m + e)).
  pose proof (bpow_pos e) as He. pose proof (bpow_pos (-52)) as Heps.
  pose proof (bpow_pos (-1074)) as Heta.
  assert (Hbig : ∀ k, (0 <= k)%Z → (2 ^ k <= m)%Z → bpow (e + (k - 52)) <= IZR m * bpow e * eps).
  { intros k Hk Hkm%IZR_le. unfold eps. unfold Z.sub.
    rewrite !bpow_add, (bpow_IZR k) by done. fold (bpow (-52)).
    assert (0 < bpow e * bpow (- (52))) by (apply Rmult_lt_0_compat; apply bpow_pos).
    change (bpow (-52)) with (bpow (- (52))). nra. }
  assert (0 <= IZR m) by (by apply IZR_le).
  assert (Hpos : 0 <= IZR m * bpow e * eps) by (unfold eps; apply Rmult_le_pos; [nra|lra]).
  destruct (Z.le_gt_cases f e) as [Hfe|Hfe].
  - rewrite Z.max_l by done. destruct Hl as [->|[Hm52|He74]]; [by left|right..].
    + specialize (Hbig 52%Z ltac:(lia) Hm52). rewrite Z.sub_diag, Z.add_0_r in Hbig.
      unfold eta. lra.
    + pose proof (bpow_le _ _ He74). unfold eta. lra.
  - right. rewrite Z.max_r by lia. unfold f, fexp, emin in *.
    destruct (Z.le_gt_cases (Zdigits2 m + e - 53) (-1074)) as [Hlow|Hlow].
    + rewrite Z.max_r by lia. unfold eta. change (3 - 1024 - 53)%Z with (-1074)%Z. lra.
    + rewrite Z.max_l in * by lia.
      destruct (Z.eq_dec m 0%Z) as [->|Hm0]; [simpl in Hfe; lia|].
      destruct (Zdigits2_bounds m) as [Hd _]; [lia|].
      assert (1 <= Zdigits2 m)%Z by (destruct m; simpl; lia).
      specialize (Hbig (Zdigits2 m - 1)%Z ltac:(lia) Hd).
      replace (Zdigits2 m + e - 53)%Z with (e + (Zdigits2 m - 1 - 52))%Z by lia.
      unfold eta. lra.
Qed.

(** An overflow of a rounding that kept all the digits the format has. *)
Lemma overflow_mantissa m e m2 :
  (0 < m)%Z → (e <= fexp 53 1024 (Zdigits2 m + e))%Z →
  let e1 := Z.max e (fexp 53 1024 (Zdigits2 m + e)) in
  let e2 := Z.max e1 (fexp 53 1024 (Zdigits2 m2 + e1)) in
  (m / 2 ^ (e1 - e) <= m2)%Z → (0 < m2)%Z → (972 <= e2)%Z → (2 ^ 52 <= m2 / 2 ^ (e2 - e1))%Z.
Proof.
  intros Hm Hc. cbv zeta. rewrite Z.max_r by done. set (e1 := fexp 53 1024 (Zdigits2 m + e)) in *.
  assert (Hdiv : ∀ x k, (0 < x → 0 <= k → k = Zdigits2 x - 53 → 2 ^ 52 <= x / 2 ^ k)%Z).
  { intros x k Hx Hk ->. destruct (Zdigits2_bounds x Hx) as [Hd _].
    apply Z.div_le_lower_bound; [by apply Z.pow_pos_nonneg|].
    rewrite <- Z.pow_add_r by lia. by replace (Zdigits2 x - 53 + 52)%Z with (Zdigits2 x - 1)%Z by lia. }
  intros Hm2 Hm20 He2. destruct (Z.le_gt_cases (fexp 53 1024 (Zdigits2 m2 + e1)) e1) as [Hle|Hgt].
  - rewrite Z.max_l in * by done. rewrite Z.sub_diag, Z.pow_0_r, Z.div_1_r.
    eapply Z.le_trans; [|exact Hm2]. apply Hdiv; [done|lia|]. unfold e1, fexp, emin in *. lia.
  - rewrite Z.max_r in * by lia. apply Hdiv; [done|lia|]. unfold fexp, emin in *. lia.
Qed.

Lemma round_aux_upper m e l z :
  (0 <= m)%Z → (l = loc_Exact ∨ (2 ^ 52 <= m)%Z ∨ (e <= -1074)%Z) →
  binary_round_aux 53 1024 false m e l = z →
  is_finite z = true ∧ 0 <= F2R z <= IZR m * bpow e * (1 + eps) + eta ∨
  z = S754_infinity false ∧ bpow 972 <= IZR m * bpow e * (1 + eps) + eta ∧
  ((e <= fexp 53 1024 (Zdigits2 m + e))%Z → bpow 1024 <= IZR m * bpow e * (1 + eps) + eta).
Proof.
  intros Hm Hl <-. unfold binary_round_aux.
  pose proof (shr_fexp_spec m e l Hm) as H1. destruct (shr_exp m e l) as [r1 e1].
  destruct H1 as (He1 & Hr1 & Hsame).
  assert (Hm1 : (0 <= shr_m r1)%Z) by (rewrite Hr1; apply Z.div_pos; [done|apply Z.pow_pos_nonneg; lia]).
  destruct (round_even_le (shr_m r1) (loc_of_shr_record r1)) as [Hrd Hex].
  set (m2 := round_nearest_even _ _) in *.
  assert (Hup : IZR m2 * bpow e1 <= IZR m * bpow e * (1 + eps) + eta).
  { pose proof (floor_scaled m (e1 - e) e ltac:(lia)) as Hf. rewrite <- Hr1 in Hf.
    replace (e + (e1 - e))%Z with e1 in Hf by lia.
    pose proof (bpow_pos e1). pose proof (bpow_pos (-1074)). pose proof (bpow_pos (-52)).
    assert (0 <= IZR m) by (by apply IZR_le). pose proof (bpow_pos e).
    assert (0 <= IZR m * bpow e) by nra.
    destruct (unit_small m e l Hm Hl) as [[He ->]|Hu].
    - rewrite Hex by (by rewrite Hsame by lia).
      assert (0 <= IZR m * bpow e * eps) by (unfold eps; nra). unfold eta. lra.
    - rewrite <- He1 in Hu. destruct Hrd as [_ Hrd%IZR_le]. rewrite plus_IZR in Hrd.
      pose proof (Rmult_le_compat_r (bpow e1) _ _ ltac:(lra) Hrd). lra. }
  clearbody m2. pose proof (shr_fexp_spec m2 e1 loc_Exact ltac:(lia)) as H2.
  destruct (shr_exp m2 e1 loc_Exact) as [r2 e2]. destruct H2 as (He2 & Hr2 & _).
  pose proof (floor_scaled m2 (e2 - e1) e1 ltac:(lia)) as Hf. rewrite <- Hr2 in Hf.
  replace (e1 + (e2 - e1))%Z with e2 in Hf by lia.
  assert (Hm2 : (0 <= shr_m r2)%Z) by (rewrite Hr2; apply Z.div_pos; [lia|apply Z.pow_pos_nonneg; lia]).
  pose proof (bpow_pos e2) as Hp2.
  destruct (shr_m r2) as [|p|p] eqn:Hp; [left|..|lia].
  { split; [done|]. simpl in *. lra. }
  assert (H1p : 1 <= IZR (Zpos p)) by (apply IZR_le; lia).
  destruct (Z.leb_spec e2 (1024 - 53)) as [Hle|Hgt]; [left|right]; (split; [done|]).
  - simpl in *. nra.
  - pose proof (bpow_le 972 e2 ltac:(lia)). split; [nra|]. intros Hc.
    assert (Hm0 : (0 < m)%Z).
    { destruct (Z.eq_dec m 0%Z) as [->|?]; [|lia]. cbn [Zdigits2] in Hc, He1. unfold fexp, emin in *.
      rewrite Z.div_0_l in Hr1 by (apply Z.pow_nonzero; lia). rewrite Hr1 in Hrd.
      assert (m2 = 0 ∨ m2 = 1)%Z as [->| ->] by lia;
        cbn [Zdigits2 digits2_pos] in He2; lia. }
    pose proof (overflow_mantissa m e m2 Hm0 Hc) as Ho. cbv zeta in Ho.
    rewrite <- He1, <- He2, <- Hr1, <- Hr2 in Ho.
    assert (Hm2p : (0 < m2)%Z).
    { destruct (Z.eq_dec m2 0%Z) as [Hz|?]; [|lia]. rewrite Hz, Z.div_0_l in Hr2; [lia|].
      apply Z.pow_nonzero; lia. }
    specialize (Ho ltac:(lia) Hm2p ltac:(lia)). apply IZR_le in Ho.
    rewrite <- (bpow_IZR 52) in Ho by lia. change 1024%Z with (52 + 972)%Z. rewrite bpow_add.
    pose proof (bpow_pos 972). pose proof (bpow_pos 52). nra.
Qed.

(** ** Multiplication and division of non-negative floats *)
Definition nonneg (x : float64) : Prop := is_finite x = true ∧ 0 <= F2R x.

(** [z] is finite and at most [v] rounded up, or it overflowed and [v] reaches
    [2^K]. *)
Definition rounds_below (K : Z) (z : float64) (v : R) : Prop :=
  nonneg z ∧ F2R z <= v * (1 + eps) + eta ∨
  z = S754_infinity false ∧ bpow K <= v * (1 + eps) + eta.

Lemma eps_eta_pos : 0 < eps ∧ 0 < eta.
Proof. split; apply bpow_pos. Qed.

Lemma nonneg_cases x : nonneg x → (∃ s, x = S754_zero s) ∨ ∃ m e, x = S754_finite false m e.
Proof.
  intros [Hf Hx]. destruct x as [s|s| |[] m e]; try done; eauto.
  pose proof (F2R_sign true m e). simpl in *. lra.
Qed.

Lemma rounds_below_zero K z v : (∃ s, z = S754_zero s) → 0 <= v → rounds_below K z v.
Proof.
  intros [s ->] Hv. destruct eps_eta_pos. left. unfold nonneg. simpl. repeat split; try lra. nra.
Qed.

Lemma fmul_upper a b : nonneg a → nonneg b → rounds_below 972 (fmul a b) (F2R a * F2R b).
Proof.
  intros Ha Hb. assert (Hab : 0 <= F2R a * F2R b) by (destruct Ha, Hb; nra).
  destruct (nonneg_cases a Ha) as [[s ->]|(m & e & ->)],
           (nonneg_cases b Hb) as [[t ->]|(n & f & ->)];
    try (apply rounds_below_zero; [simpl; by eauto|done]).
  pose proof (round_aux_upper (Zpos (m * n)) (e + f) loc_Exact _ ltac:(lia) (or_introl eq_refl) eq_refl)
    as H.
  rewrite Pos2Z.inj_mul, mult_IZR, bpow_add in H.
  replace (IZR (Zpos m) * IZR (Zpos n) * (bpow e * bpow f))
    with (F2R (S754_finite false m e) * F2R (S754_finite false n f)) in H by (simpl; ring).
  destruct H as [(H1 & H2 & H3)|(H1 & H2 & _)]; [left|right]; by repeat split.
Qed.

(** The quotient [SFdiv_core_binary] computes: a floor, with 53 digits or at the
    bottom exponent. *)
Lemma div_core m e n f :
  let '(q, g, l) := SFdiv_core_binary 53 1024 (Zpos m) e (Zpos n) f in
  (0 <= q)%Z ∧ ((2 ^ 52 <= q)%Z ∨ (g <= -1074)%Z) ∧ (g <= fexp 53 1024 (Zdigits2 q + g))%Z ∧
  IZR q * bpow g <= IZR (Zpos m) * bpow e / (IZR (Zpos n) * bpow f).
Proof.
  unfold SFdiv_core_binary. set (dm := Zdigits2 (Zpos m)). set (dn := Zdigits2 (Zpos n)).
  set (g := Z.min _ _). set (s := (e - f - g)%Z).
  assert (Hs : (0 <= s)%Z) by lia.
  replace (match s with Z0 => Zpos m | Zpos _ => Z.shiftl (Zpos m) s | Zneg _ => 0%Z end)
    with (Zpos m * 2 ^ s)%Z
    by (destruct s; [lia|by rewrite Z.shiftl_mul_pow2|lia]).
  pose proof (Z_div_mod (Zpos m * 2 ^ s) (Zpos n) eq_refl) as Hd.
  destruct (Z.div_eucl (Zpos m * 2 ^ s) (Zpos n)) as [q r] eqn:Hq.
  destruct Hd as [Hd Hr].
  destruct (Zdigits2_bounds (Zpos m) eq_refl) as [Hm _].
  destruct (Zdigits2_bounds (Zpos n) eq_refl) as [_ Hn]. fold dm in Hm. fold dn in Hn.
  assert (Hdm : (1 <= dm)%Z) by (unfold dm; simpl; lia).
  assert (Hdn : (1 <= dn)%Z) by (unfold dn; simpl; lia).
  assert (Hps : (0 < 2 ^ s)%Z) by (by apply Z.pow_pos_nonneg).
  split; [nia|].
  assert (Hqg : (2 ^ 52 <= q)%Z ∨ (g <= -1074)%Z).
  { destruct (Z.le_gt_cases (dm + e - (dn + f) - 53) (-1074)) as [Hlow|Hlow].
    { right. unfold g, fexp, emin. lia. }
    left. assert (Hss : (53 + dn - dm <= s)%Z) by (unfold s, g, fexp, emin; lia).
    assert (Hbig : (2 ^ (dn + 52) <= Zpos m * 2 ^ s)%Z).
    { apply Z.le_trans with (2 ^ (dm - 1) * 2 ^ s)%Z; [|nia].
      rewrite <- Z.pow_add_r by lia. apply Z.pow_le_mono_r; lia. }
    rewrite Z.pow_add_r in Hbig by lia. nia. }
  split; [done|]. split.
  - destruct Hqg as [Hq52|Hg]; unfold fexp, emin; [|lia].
    destruct (Zdigits2_bounds q) as [_ Hqd]; [lia|].
    assert (52 < Zdigits2 q)%Z by (apply (Z.pow_lt_mono_r_iff 2); [lia|destruct q; simpl; lia|lia]).
    lia.
  - assert (Hle : (Zpos n * q <= Zpos m * 2 ^ s)%Z) by lia.
    apply IZR_le in Hle. rewrite !mult_IZR, <- bpow_IZR in Hle by done.
    pose proof (bpow_pos f) as Hbf. pose proof (bpow_pos g) as Hbg.
    assert (Hnp : 0 < IZR (Zpos n)) by (apply IZR_lt; lia).
    replace e with (s + g + f)%Z by lia. rewrite !bpow_add.
    apply Rmult_le_reg_r with (IZR (Zpos n) * bpow f); [nra|].
    unfold Rdiv. rewrite (Rmult_assoc _ (/ _)), Rinv_l, Rmult_1_r by nra.
    assert (0 < bpow g * bpow f) by nra. nra.
Qed.

Lemma fdiv_upper a b : nonneg a → nonneg b → 0 < F2R b → rounds_below 1024 (fdiv a b) (F2R a / F2R b).
Proof.
  intros Ha Hb Hb0.
  assert (Hab : 0 <= F2R a / F2R b).
  { destruct Ha. apply Rmult_le_pos; [done|]. left. by apply Rinv_0_lt_compat. }
  destruct (nonneg_cases b Hb) as [[t ->]|(n & f & ->)]; [simpl in Hb0; lra|].
  destruct (nonneg_cases a Ha) as [[s ->]|(m & e & ->)];
    [apply rounds_below_zero; [simpl; by eauto|done]|].
  pose proof (div_core m e n f) as Hc. unfold fdiv, SFdiv.
  destruct (SFdiv_core_binary 53 1024 (Zpos m) e (Zpos n) f) as [[q g] l].
  destruct Hc as (Hq0 & Hq & Hg & Hv). destruct eps_eta_pos.
  change (IZR (Zpos m) * bpow e / (IZR (Zpos n) * bpow f))
    with (F2R (S754_finite false m e) / F2R (S754_finite false n f)) in Hv.
  apply (Rmult_le_compat_r (1 + eps)) in Hv; [|lra].
  destruct (round_aux_upper q g l _ Hq0 (or_intror Hq) eq_refl) as [(H1 & H2 & H3)|(H1 & _ & H2)];
    [left|right]; [split; [by split|]|split; [done|]]; eapply Rle_trans; eauto; lra.
Qed.

(** ** Conversions and subtraction *)
Lemma iter_xO m d : Zpos (Pos.iter xO m d) = (Zpos m * 2 ^ Zpos d)%Z.
Proof.
  induction d as [|d IH] using Pos.peano_ind; [simpl; lia|].
  rewrite Pos.iter_succ, Pos2Z.inj_xO, IH, Pos2Z.inj_succ, Z.pow_succ_r by lia. lia.
Qed.

Lemma shl_align_value m e f :
  let '(n, g) := shl_align m e f in
  IZR (Zpos n) * bpow g = IZR (Zpos m) * bpow e ∧ (g <= e)%Z ∧ (f <= e → g = f)%Z.
Proof.
  unfold shl_align. destruct (f - e)%Z as [|d|d] eqn:Hd; [repeat split; lia..|].
  rewrite iter_xO, mult_IZR, <- bpow_IZR by lia. replace e with (Zpos d + f)%Z by lia.
  rewrite bpow_add. split; [ring|]. split; lia.
Qed.

Lemma of_int_upper n : (0 <= n)%Z → rounds_below 972 (of_int n) (IZR n).
Proof.
  destruct n as [|p|p]; [intros _|intros _|lia].
  - apply rounds_below_zero; [by eexists|lra].
  - unfold of_int, binary_normalize, binary_round.
    pose proof (shl_align_value p 0 (fexp 53 1024 (Zpos (digits2_pos p) + 0))) as H.
    destruct (shl_align _ _ _) as [m e]. destruct H as (Hv & _).
    destruct (round_aux_upper (Zpos m) e loc_Exact _ ltac:(lia) (or_introl eq_refl) eq_refl)
      as [(H1 & H2 & H3)|(H1 & H2 & _)]; rewrite Hv, Rmult_1_r in *; [left|right]; by repeat split.
Qed.

Lemma shiftl_le m e : IZR (Z.shiftl (Zpos m) e) <= F2R (S754_finite false m e).
Proof.
  destruct (Z.le_gt_cases 0 e) as [He|He]; [rewrite F2R_shiftl by done; simpl; lra|].
  rewrite Z.shiftl_div_pow2 by lia. simpl.
  pose proof (floor_scaled (Zpos m) (- e) e ltac:(lia)) as Hf.
  replace (e + - e)%Z with 0%Z in Hf by lia. unfold bpow at 1 in Hf. simpl in Hf. lra.
Qed.

Lemma shiftl_range m e n :
  F2R (S754_finite false m e) < IZR n + 1 → (0 <= Z.shiftl (Zpos m) e <= n)%Z.
Proof.
  intros Hlt. split; [by apply Z.shiftl_nonneg|]. pose proof (shiftl_le m e).
  apply Z.lt_succ_r, lt_IZR. rewrite succ_IZR. lra.
Qed.

(** [int(x)] of a positive float in range is its floor. *)
Lemma int_of_shiftl {C : IntConv} m e n :
  (n <= int_max)%Z → F2R (S754_finite false m e) < IZR n + 1 →
  int_of (S754_finite false m e) = Z.shiftl (Zpos m) e.
Proof.
  intros Hn Hlt. pose proof (shiftl_range m e n Hlt) as Hz. unfold int_of, trunc_Z. cbv zeta.
  by rewrite (proj2 (Z.leb_le _ _)), (proj2 (Z.leb_le _ _)) by (unfold int_min; lia).
Qed.

(** [int(x)] is at most [n] for an [x] below [n + 1]. *)
Lemma int_of_le {C : IntConv} x n :
  nonneg x → (0 <= n <= int_max)%Z → F2R x < IZR n + 1 → (int_of x <= n)%Z.
Proof.
  intros Hx Hn Hlt. destruct (nonneg_cases x Hx) as [[s ->]|(m & e & ->)]; [simpl; lia|].
  rewrite (int_of_shiftl m e n) by (done || lia). by apply shiftl_range.
Qed.

Lemma eps_small : eps * 1099511627776 <= 1.
Proof.
  unfold eps. change 1099511627776 with (IZR (2 ^ 40)). rewrite <- bpow_IZR, <- bpow_add by lia.
  change 1 with (bpow 0). apply bpow_le. lia.
Qed.

Lemma eta_small : eta * 1099511627776 <= 1.
Proof.
  unfold eta. change 1099511627776 with (IZR (2 ^ 40)). rewrite <- bpow_IZR, <- bpow_add by lia.
  change 1 with (bpow 0). apply bpow_le. lia.
Qed.

(** [int(math.Floor(x))] for a small [x]. *)
Lemma int_floor_le {C : IntConv} x n :
  nonneg x → (0 <= n <= 2147483647)%Z → F2R x < IZR n + 1 → (int_of (math_Floor x) <= n)%Z.
Proof.
  intros Hx Hn Hlt. destruct (nonneg_cases x Hx) as [[s ->]|(m & e & ->)]; [simpl; lia|].
  unfold math_Floor. destruct (Z.leb_spec 0 e) as [He|He].
  { apply int_of_le; [done|unfold int_max; lia|done]. }
  unfold floor_Z. simpl signed. set (z := Z.shiftl (Zpos m) e).
  destruct (shiftl_range m e n Hlt) as [Hz0 Hz]. fold z in Hz0, Hz.
  pose proof eps_small. pose proof eta_small. destruct eps_eta_pos.
  assert (Hzn : IZR z <= 2147483647) by (apply IZR_le; lia).
  assert (0 <= IZR z) by (by apply IZR_le).
  assert (IZR z * eps <= 2147483647 * eps) by (apply Rmult_le_compat_r; lra).
  apply Z.le_trans with z; [|done].
  destruct (of_int_upper z Hz0) as [[Hnn Hle]|[_ Hbig]].
  - apply int_of_le; [done|unfold int_max; lia|lra].
  - exfalso. pose proof (bpow_le 40 972 ltac:(lia)) as H40. rewrite (bpow_IZR 40) in H40 by lia.
    change (IZR (2 ^ 40)) with 1099511627776 in H40. lra.
Qed.

(** ** The joint commit of a scale-up

    A role sized at [n] replicas covers [n * prc / demand] of its demand; the
    roles commit at the smallest such share, [delta].  Rounded down again, the
    share is never more than [n] replicas: the rounding of the four operations
    is below one replica while the sizes are within [2^-500] and [2^500]. *)
Lemma small_step x n c :
  x <= IZR n + c → 0 <= x → c <= 1 → (0 <= n <= 2147483647)%Z → x * (1 + eps) <= IZR n + c + / 256.
Proof.
  intros Hx Hx0 Hc Hn. pose proof eps_small. destruct eps_eta_pos.
  assert (IZR n <= 2147483647) by (apply IZR_le; lia).
  assert (x * eps <= 4294967296 * eps) by (apply Rmult_le_compat_r; lra). lra.
Qed.

Lemma rounds_below_finite K z v :
  rounds_below K z v → v * (1 + eps) + eta < bpow K → nonneg z ∧ F2R z <= v * (1 + eps) + eta.
Proof. intros [?|[_ ?]] ?; [done|lra]. Qed.

Lemma bpow_gap a b : (a + 10 <= b)%Z → bpow a * 1000 < bpow b.
Proof.
  intros H. pose proof (bpow_le _ _ H). rewrite bpow_add in *.
  rewrite (bpow_IZR 10) in * by lia. change (IZR (2 ^ 10)) with 1024 in *.
  pose proof (bpow_pos a). lra.
Qed.

Section commit.
Context (n : Z) (prc demand : float64).
Hypothesis Hn : (0 <= n <= 2147483647)%Z.
Hypothesis Hprc : nonneg prc.
Hypothesis Hlo : bpow (-500) <= F2R prc.
Hypothesis Hhi : F2R prc <= bpow 500.
Hypothesis Hdem : nonneg demand.
Hypothesis Hdem0 : 0 < F2R demand.
Hypothesis Hdemhi : F2R demand <= bpow 500.

#[local] Notation p := (F2R prc).
#[local] Notation D := (F2R demand).

Lemma eta_prc : eta <= eps * p ∧ eta * D <= eps * p.
Proof using Hlo Hdemhi Hdem0.
  assert (H1 : bpow (-552) <= eps * p).
  { unfold eps. change (-552)%Z with (-52 + -500)%Z. rewrite bpow_add.
    apply Rmult_le_compat_l; [|done]. pose proof (bpow_pos (-52)). lra. }
  split.
  - unfold eta. pose proof (bpow_le (-1074) (-552) ltac:(lia)). lra.
  - assert (eta * D <= bpow (-574)).
    { unfold eta. change (-574)%Z with (-1074 + 500)%Z. rewrite bpow_add.
      apply Rmult_le_compat_l; [|done]. pose proof (bpow_pos (-1074)). lra. }
    pose proof (bpow_le (-574) (-552) ltac:(lia)). lra.
Qed.

Lemma prc_bounded x : 0 <= x <= 4294967296 → p * x < bpow 972.
Proof using Hdem0 Hdemhi Hhi Hprc.
  intros Hx. assert (p * x <= bpow 500 * 4294967296) by (apply Rmult_le_compat; destruct Hprc; lra).
  assert (bpow 500 * 4294967296 = bpow 532).
  { change 532%Z with (500 + 32)%Z. rewrite bpow_add, (bpow_IZR 32) by lia. done. }
  pose proof (bpow_gap 532 972 ltac:(lia)). pose proof (bpow_pos 532). lra.
Qed.

Lemma sized_upper :
  nonneg (fmul (of_int n) prc) ∧ F2R (fmul (of_int n) prc) <= p * (IZR n + 4 / 256).
Proof using Hn Hprc Hlo Hhi Hdem0 Hdemhi.
  pose proof eps_small. pose proof eta_small. destruct eps_eta_pos. destruct eta_prc as [Hep _].
  assert (0 <= IZR n <= 2147483647) by (split; apply IZR_le; lia).
  pose proof (small_step (IZR n) n 0 ltac:(lra) ltac:(lra) ltac:(lra) Hn) as Hs.
  pose proof (bpow_gap 40 972 ltac:(lia)) as Hg. rewrite (bpow_IZR 40) in Hg by lia.
  change (IZR (2 ^ 40)) with 1099511627776 in Hg.
  destruct (rounds_below_finite _ _ _ (of_int_upper n ltac:(lia)) ltac:(lra)) as [HN HNle].
  assert (HNc : F2R (of_int n) <= IZR n + 2 / 256) by lra.
  pose proof (bpow_pos (-500)). assert (Hp : 0 < p) by lra.
  pose proof (small_step _ n (2 / 256) HNc (proj2 HN) ltac:(lra) Hn) as Hs2.
  assert (Hb : F2R (of_int n) * p * (1 + eps) + eta <= p * (IZR n + 4 / 256)).
  { assert (p * (F2R (of_int n) * (1 + eps)) <= p * (IZR n + 2 / 256 + / 256))
      by (apply Rmult_le_compat_l; lra).
    assert (eps * p <= p * / 256) by (rewrite (Rmult_comm eps); apply Rmult_le_compat_l; lra). lra. }
  pose proof (prc_bounded (IZR n + 4 / 256) ltac:(lra)) as Hfin.
  destruct (rounds_below_finite _ _ _ (fmul_upper (of_int n) prc HN Hprc) ltac:(lra)) as [Hnn Hle].
  split; [done|lra].
Qed.

Lemma share_upper delta :
  let util := fdiv (fmul (of_int n) prc) demand in
  F2R delta <= F2R MaxFloat64 → (is_finite util = true → F2R delta <= F2R util) →
  F2R delta * D <= p * (IZR n + 6 / 256).
Proof using Hn Hprc Hlo Hhi Hdem Hdem0 Hdemhi.
  cbv zeta. intros Hmax Hutil. pose proof eps_small. destruct eps_eta_pos.
  destruct eta_prc as [_ Hep]. destruct sized_upper as [Hnp Hnple].
  set (np := fmul (of_int n) prc) in *. pose proof (bpow_pos (-500)). assert (Hp : 0 < p) by lra.
  assert (Hd : F2R delta <= F2R np / D * (1 + eps) + eta).
  { destruct (fdiv_upper np demand Hnp Hdem Hdem0) as [[[Hf _] Hle]|[_ Hle]]; [specialize (Hutil Hf); lra|].
    apply Rle_trans with (bpow 1024); [|done]. eapply Rle_trans; [exact Hmax|].
    change (F2R MaxFloat64) with (IZR 9007199254740991 * bpow 971).
    change 1024%Z with (53 + 971)%Z. rewrite bpow_add, (bpow_IZR 53) by lia.
    apply Rmult_le_compat_r; [pose proof (bpow_pos 971); lra|]. apply IZR_le. lia. }
  apply (Rmult_le_compat_r D) in Hd; [|lra].
  replace ((F2R np / D * (1 + eps) + eta) * D) with (F2R np * (1 + eps) + eta * D) in Hd by (field; lra).
  assert (F2R np * (1 + eps) <= p * (IZR n + 4 / 256) * (1 + eps)) by (apply Rmult_le_compat_r; lra).
  assert (0 <= IZR n) by (apply IZR_le; lia).
  pose proof (small_step (IZR n + 4 / 256) n (4 / 256) ltac:(lra) ltac:(lra) ltac:(lra) Hn) as Hs.
  apply (Rmult_le_compat_l p) in Hs; [|lra].
  assert (eps * p <= p * / 256) by (rewrite (Rmult_comm eps); apply Rmult_le_compat_l; lra). lra.
Qed.

Lemma commit_le {C : IntConv} delta :
  let util := fdiv (fmul (of_int n) prc) demand in
  nonneg delta → F2R delta <= F2R MaxFloat64 → (is_finite util = true → F2R delta <= F2R util) →
  (int_of (math_Floor (fdiv (fmul delta demand) prc)) <= n)%Z.
Proof using Hn Hprc Hlo Hhi Hdem Hdem0 Hdemhi.
  cbv zeta. intros Hdl Hmax Hutil. pose proof (share_upper delta Hmax Hutil) as Hsh.
  pose proof eps_small. pose proof eta_small. destruct eps_eta_pos. destruct eta_prc as [Hep _].
  pose proof (bpow_pos (-500)). assert (Hp : 0 < p) by lra.
  assert (0 <= IZR n <= 2147483647) by (split; apply IZR_le; lia).
  pose proof (small_step (IZR n + 6 / 256) n (6 / 256) ltac:(lra) ltac:(lra) ltac:(lra) Hn) as Hs.
  assert (Hb : F2R delta * D * (1 + eps) + eta <= p * (IZR n + 8 / 256)).
  { apply (Rmult_le_compat_r (1 + eps)) in Hsh; [|lra].
    apply (Rmult_le_compat_l p) in Hs; [|lra].
    assert (eps * p <= p * / 256) by (rewrite (Rmult_comm eps); apply Rmult_le_compat_l; lra). lra. }
  pose proof (prc_bounded (IZR n + 8 / 256) ltac:(lra)) as Hfin.
  destruct (rounds_below_finite _ _ _ (fmul_upper delta demand Hdl Hdem) ltac:(lra)) as [Hdd Hddle].
  set (dd := fmul delta demand) in *.
  assert (Hq : F2R dd / p <= IZR n + 8 / 256).
  { apply Rmult_le_reg_r with p; [done|]. unfold Rdiv. rewrite Rmult_assoc, Rinv_l by lra. lra. }
  assert (Hq0 : 0 <= F2R dd / p).
  { apply Rmult_le_pos; [apply Hdd|]. left. by apply Rinv_0_lt_compat. }
  pose proof (small_step _ n (8 / 256) Hq Hq0 ltac:(lra) Hn) as Hx.
  pose proof (bpow_gap 40 1024 ltac:(lia)) as Hg. rewrite (bpow_IZR 40) in Hg by lia.
  change (IZR (2 ^ 40)) with 1099511627776 in Hg.
  destruct (rounds_below_finite _ _ _ (fdiv_upper dd prc Hdd Hprc Hp) ltac:(lra)) as [Hxn Hxle].
  apply int_floor_le; [done|done|lra].
Qed.
End commit.

(** ** A power of two bounds what is rounded below it

    So a demand that starts within [2^500] stays there as replicas are taken off
    it. *)
Definition exact_record (r : shr_record) : Prop := shr_r r = false ∧ shr_s r = false.

Lemma shr_1_exact r : exact_record r → Z.even (shr_m r) = true → exact_record (shr_1 r).
Proof. destruct r as [[|[]|[]] ? ?]; intros [Hr Hs] He; simpl in *; subst; done. Qed.

Lemma iter_shr_exact p r m :
  (0 <= m)%Z → exact_record r → shr_m r = (m * 2 ^ Zpos p)%Z → exact_record (SpecFloat.iter_pos shr_1 p r).
Proof.
  assert (Hpow : ∀ q, (0 < 2 ^ Zpos q)%Z) by (intros q; by apply Z.pow_pos_nonneg).
  revert r m. induction p as [p IH|p IH|]; intros r m Hm Hr Hv; cbn [SpecFloat.iter_pos].
  - pose proof (Hpow p). rewrite (Pos2Z.inj_xI p) in Hv.
    replace (2 * Zpos p + 1)%Z with (Zpos p + Zpos p + 1)%Z in Hv by lia.
    rewrite !Z.pow_add_r in Hv by lia. change (2 ^ 1)%Z with 2%Z in Hv.
    assert (Hm1 : shr_m (shr_1 r) = (m * 2 ^ Zpos p * 2 ^ Zpos p)%Z).
    { rewrite shr_1_m by nia. rewrite Hv, !Z.mul_assoc. by rewrite Z.div_mul. }
    assert (Hm2 : shr_m (SpecFloat.iter_pos shr_1 p (shr_1 r)) = (m * 2 ^ Zpos p)%Z).
    { rewrite iter_shr_m by nia. rewrite Hm1. rewrite Z.div_mul; lia. }
    apply (IH _ m); [done| |done]. apply (IH _ (m * 2 ^ Zpos p)%Z); [nia| |done].
    apply shr_1_exact; [done|]. rewrite Hv, !Z.mul_assoc, Z.even_mul. apply orb_true_r.
  - pose proof (Hpow p). rewrite (Pos2Z.inj_xO p) in Hv.
    replace (2 * Zpos p)%Z with (Zpos p + Zpos p)%Z in Hv by lia. rewrite Z.pow_add_r in Hv by lia.
    assert (Hm2 : shr_m (SpecFloat.iter_pos shr_1 p r) = (m * 2 ^ Zpos p)%Z).
    { rewrite iter_shr_m by nia. rewrite Hv, Z.mul_assoc. rewrite Z.div_mul; lia. }
    apply (IH _ m); [done| |done]. apply (IH _ (m * 2 ^ Zpos p)%Z); [nia|done|lia].
  - apply shr_1_exact; [done|]. rewrite Hv, Z.even_mul. apply orb_true_r.
Qed.

Lemma mantissa_le m e K :
  IZR m * bpow e <= bpow K → (e <= K)%Z → (m <= 2 ^ (K - e))%Z.
Proof.
  intros H He. apply le_IZR. rewrite <- bpow_IZR by lia.
  apply Rmult_le_reg_r with (bpow e); [apply bpow_pos|]. rewrite <- bpow_add.
  by replace (K - e + e)%Z with K by lia.
Qed.

Lemma bpow_succ K : bpow (K + 1) = bpow K * 2.
Proof. rewrite bpow_add. f_equal. unfold bpow. simpl. lra. Qed.

Lemma digits_le_pow m e K :
  (0 < m)%Z → IZR m * bpow e <= bpow K → (Zdigits2 m - 1 + e <= K)%Z.
Proof.
  intros Hm Hle. destruct (Zdigits2_bounds m Hm) as [Hd _].
  assert (Hd1 : (1 <= Zdigits2 m)%Z) by (destruct m; simpl; lia).
  destruct (Z.le_gt_cases (Zdigits2 m - 1 + e) K) as [?|Hgt]; [done|].
  pose proof (bpow_pos e). pose proof (bpow_pos K).
  assert (bpow (Zdigits2 m - 1 + e) <= IZR m * bpow e).
  { rewrite bpow_add, (bpow_IZR (Zdigits2 m - 1)) by lia.
    apply Rmult_le_compat_r; [lra|by apply IZR_le]. }
  pose proof (bpow_le (K + 1) (Zdigits2 m - 1 + e) ltac:(lia)). rewrite bpow_succ in *. lra.
Qed.

(** The first pass of a rounding stays below the power, on its grid. *)
Lemma first_round_pow m e K :
  (0 < m)%Z → (-1022 <= K)%Z → IZR m * bpow e <= bpow K →
  let '(r, e1) := shr_exp m e loc_Exact in
  (e1 <= K)%Z ∧ (0 <= round_nearest_even (shr_m r) (loc_of_shr_record r) <= 2 ^ (K - e1))%Z.
Proof.
  intros Hm HK Hle. pose proof (digits_le_pow m e K Hm Hle) as HeK.
  assert (Hd1 : (1 <= Zdigits2 m)%Z) by (destruct m; simpl; lia).
  pose proof (mantissa_le m e K Hle ltac:(lia)) as HmK.
  pose proof (shr_fexp_spec m e loc_Exact ltac:(lia)) as H1.
  assert (Hex : (m = 2 ^ (K - e))%Z → exact_record (shr_exp m e loc_Exact).1).
  { intros Heq. unfold shr_fexp, shr.
    destruct (fexp 53 1024 (Zdigits2 m + e) - e)%Z as [|p|p] eqn:Hp; [done| |done].
    cbn [fst]. apply (iter_shr_exact _ _ (2 ^ (K - e - Zpos p))%Z); [by apply Z.pow_nonneg|done|].
    cbn [shr_record_of_loc shr_m]. rewrite Heq, <- Z.pow_add_r; [f_equal; lia| |lia].
    unfold fexp, emin in Hp. lia. }
  destruct (shr_exp m e loc_Exact) as [r e1]. destruct H1 as (He1 & Hr1 & _). cbn [fst] in Hex.
  assert (HeK1 : (e1 <= K)%Z) by (unfold fexp, emin in He1; lia). split; [done|].
  assert (Hp1 : (0 < 2 ^ (e1 - e))%Z) by (apply Z.pow_pos_nonneg; lia).
  assert (Hsplit : (2 ^ (K - e) = 2 ^ (e1 - e) * 2 ^ (K - e1))%Z).
  { rewrite <- Z.pow_add_r by lia. f_equal. lia. }
  destruct (round_even_le (shr_m r) (loc_of_shr_record r)) as [Hrd Hrex].
  assert (Hm1 : (0 <= shr_m r)%Z) by (rewrite Hr1; apply Z.div_pos; lia).
  split; [lia|]. destruct (Z.eq_dec m (2 ^ (K - e))%Z) as [Heq|Hne].
  - destruct (Hex Heq) as [E1 E2]. rewrite Hrex by (destruct r; simpl in *; by subst).
    rewrite Hr1, Heq, Hsplit, Z.mul_comm, Z.div_mul; lia.
  - assert (shr_m r < 2 ^ (K - e1))%Z; [|lia]. rewrite Hr1.
    apply Z.div_lt_upper_bound; [done|]. rewrite <- Hsplit. lia.
Qed.

Lemma round_aux_pow m e K z :
  (0 < m)%Z → (-1022 <= K <= 971)%Z → IZR m * bpow e <= bpow K →
  binary_round_aux 53 1024 false m e loc_Exact = z → nonneg z ∧ F2R z <= bpow K.
Proof.
  intros Hm HK Hle <-. unfold binary_round_aux.
  pose proof (first_round_pow m e K Hm ltac:(lia) Hle) as H1.
  destruct (shr_exp m e loc_Exact) as [r1 e1]. destruct H1 as (HeK1 & Hm20 & Hm2).
  set (m2 := round_nearest_even _ _) in *. clearbody m2.
  pose proof (shr_fexp_spec m2 e1 loc_Exact ltac:(lia)) as H2.
  destruct (shr_exp m2 e1 loc_Exact) as [r2 e2]. destruct H2 as (He2 & Hr2 & _).
  pose proof (floor_scaled m2 (e2 - e1) e1 ltac:(lia)) as Hf. rewrite <- Hr2 in Hf.
  replace (e1 + (e2 - e1))%Z with e2 in Hf by lia.
  assert (Hv : IZR m2 * bpow e1 <= bpow K).
  { replace K with (K - e1 + e1)%Z by lia. rewrite bpow_add, (bpow_IZR (K - e1)) by lia.
    apply Rmult_le_compat_r; [pose proof (bpow_pos e1); lra|by apply IZR_le]. }
  assert (Hr20 : (0 <= shr_m r2)%Z) by (rewrite Hr2; apply Z.div_pos; [lia|apply Z.pow_pos_nonneg; lia]).
  pose proof (bpow_pos e2) as Hp2. pose proof (bpow_pos K).
  destruct (shr_m r2) as [|p|p] eqn:Hp; [..|lia].
  { unfold nonneg. simpl. repeat split; lra. }
  assert (H1p : 1 <= IZR (Zpos p)) by (apply IZR_le; lia).
  assert (He2K : (e2 <= K)%Z).
  { destruct (Z.le_gt_cases e2 K) as [?|Hgt]; [done|].
    pose proof (bpow_le (K + 1) e2 ltac:(lia)). rewrite bpow_succ in *. nra. }
  rewrite (proj2 (Z.leb_le e2 (1024 - 53))) by lia. unfold nonneg. simpl. repeat split; nra.
Qed.

Lemma binary_round_pow m e K :
  (-1022 <= K <= 971)%Z → IZR (Zpos m) * bpow e <= bpow K →
  nonneg (binary_round 53 1024 false m e) ∧ F2R (binary_round 53 1024 false m e) <= bpow K.
Proof.
  intros HK Hle. unfold binary_round.
  pose proof (shl_align_value m e (fexp 53 1024 (Zpos (digits2_pos m) + e))) as Ha.
  destruct (shl_align _ _ _) as [n g]. destruct Ha as [Hv _].
  eapply (round_aux_pow (Zpos n) g K); [lia|done|by rewrite Hv|done].
Qed.

(** A rounding keeps the sign it is given. *)
Definition of_sign (s : bool) (x : float64) : Prop :=
  match x with
  | S754_zero t | S754_infinity t | S754_finite t _ _ => t = s
  | S754_nan => False
  end.

Lemma round_aux_sign s m e l : (0 <= m)%Z → of_sign s (binary_round_aux 53 1024 s m e l).
Proof.
  intros Hm. unfold binary_round_aux.
  pose proof (shr_fexp_spec m e l Hm) as H1. destruct (shr_exp m e l) as [r1 e1].
  destruct H1 as (He1 & Hr1 & _). destruct (round_even_le (shr_m r1) (loc_of_shr_record r1)) as [Hrd _].
  set (m2 := round_nearest_even _ _) in *. clearbody m2.
  assert (0 <= m2)%Z.
  { assert (0 <= shr_m r1)%Z; [|lia]. rewrite Hr1. apply Z.div_pos; [done|]. apply Z.pow_pos_nonneg; lia. }
  pose proof (shr_fexp_spec m2 e1 loc_Exact ltac:(lia)) as H2.
  destruct (shr_exp m2 e1 loc_Exact) as [r2 e2]. destruct H2 as (He2 & Hr2 & _).
  assert (0 <= shr_m r2)%Z by (rewrite Hr2; apply Z.div_pos; [done|apply Z.pow_pos_nonneg; lia]).
  destruct (shr_m r2); [done| |lia]. by destruct (e2 <=? _)%Z.
Qed.

Lemma binary_round_sign s m e : of_sign s (binary_round 53 1024 s m e).
Proof. unfold binary_round. destruct (shl_align _ _ _). by apply round_aux_sign. Qed.

(** [math.Max(0, a - b)] for [a] within [2^K]. *)
Lemma max_sub_le a b K :
  (-1022 <= K <= 971)%Z → nonneg a → nonneg b → F2R a <= bpow K →
  nonneg (math_Max f0 (fsub a b)) ∧ F2R (math_Max f0 (fsub a b)) <= bpow K.
Proof.
  intros HK Ha Hb Hle. pose proof (bpow_pos K) as HpK.
  assert (Hz : nonneg f0 ∧ F2R f0 <= bpow K) by (unfold nonneg; simpl; repeat split; lra).
  assert (Hneg : ∀ x, of_sign true x ∨ (∃ s, x = S754_zero s) → math_Max f0 x = f0)
    by (intros x [Hx|[s ->]]; [destruct x; simpl in Hx; by subst|done]).
  assert (Hpos : ∀ x, nonneg x ∧ F2R x <= bpow K →
    nonneg (math_Max f0 x) ∧ F2R (math_Max f0 x) <= bpow K).
  { intros x Hx. destruct (nonneg_cases x (proj1 Hx)) as [[s ->]|(m & e & ->)]; done. }
  destruct (nonneg_cases a Ha) as [[s ->]|(m & e & ->)],
           (nonneg_cases b Hb) as [[t ->]|(n & f & ->)].
  - rewrite Hneg; [done|]. right. destruct s, t; simpl; eauto.
  - rewrite Hneg; [done|]. by left.
  - by apply Hpos.
  - unfold fsub, SFsub. pose proof (shl_align_value m e (Z.min e f)) as H1.
    pose proof (shl_align_value n f (Z.min e f)) as H2.
    destruct (shl_align m e _) as [m' e'], (shl_align n f _) as [n' f'].
    destruct H1 as (Hm & _ & He'), H2 as (Hn & _ & Hf').
    rewrite He' in Hm by lia. rewrite Hf' in Hn by lia.
    cbn [fst cond_Zopp]. set (lo := Z.min e f) in *.
    destruct (Zpos m' - Zpos n')%Z as [|d|d] eqn:Hd; cbn [binary_normalize].
    + by rewrite Hneg by eauto.
    + apply Hpos, binary_round_pow; [done|]. rewrite <- Hd, minus_IZR.
      pose proof (bpow_pos lo). assert (0 < IZR (Zpos n')) by (apply IZR_lt; lia).
      change (F2R (S754_finite false m e)) with (IZR (Zpos m) * bpow e) in Hle. nra.
    + rewrite Hneg; [done|]. left. apply binary_round_sign.
Qed.
