(* ===== verification/FloatBounds.v ===== *)
(** * FloatBounds: signs, exactness and finiteness of float64 operations

    What the targets of the utilization share need of [float64] beyond [GoFloat]:
    an integer below [2^53] converts exactly, the difference of two floats in order
    is positive, sums of non-negative floats stay so, and the results of an
    operation on floats up to a power of two are finite and up to the next one. *)
From Stdlib Require Import ZArith Lia SpecFloat Reals Lra.
From stdpp Require Import base list.
From S2P Require Import Prelude GoFloat.
Open Scope Z_scope.

(** ** Positive floats

    [wide] bounds the exponent from below, as that of every result of an operation
    is: a difference then never rounds to zero. *)
Definition wide (x : float64) : Prop := match x with S754_finite _ _ e => -1074 ≤ e | _ => True end.

Definition posf (x : float64) : Prop :=
  match x with S754_finite false _ e => -1074 ≤ e | S754_infinity false => True | _ => False end.

Definition nonnegf (x : float64) : Prop := posf x ∨ ∃ s, x = S754_zero s.

Lemma posf_lt x : posf x → flt f0 x = true.
Proof. by destruct x as [|[]| |[]]. Qed.

Lemma lt_posf x : wide x → flt f0 x = true → posf x.
Proof. by destruct x as [|[]| |[]]. Qed.

Lemma nonnegf_number x : nonnegf x → number x.
Proof. unfold number. intros [H|[s ->]]; [|done]. by destruct x as [|[]| |[]]. Qed.

Lemma nonnegf_not_neg x : nonnegf x → flt x f0 = false.
Proof. intros [H|[s ->]]; [|done]. by destruct x as [|[]| |[]]. Qed.

Lemma fexp_ge d : -1074 ≤ fexp 53 1024 d.
Proof. unfold fexp, emin. lia. Qed.

Lemma round_aux_wide s m e l : 0 ≤ m → wide (binary_round_aux 53 1024 s m e l).
Proof.
  intros Hm. unfold binary_round_aux. pose proof (shr_fexp_spec m e l Hm) as H1. destruct (shr_exp m e l) as [r1 e1].
  destruct H1 as (He1 & Hr1 & _). destruct (round_even_le (shr_m r1) (loc_of_shr_record r1)) as [Hrd _].
  set (m2 := round_nearest_even _ _) in *. clearbody m2.
  assert (0 ≤ m2) by (assert (0 ≤ shr_m r1); [rewrite Hr1; apply Z.div_pos; [done|apply Z.pow_pos_nonneg; lia]|lia]).
  pose proof (shr_fexp_spec m2 e1 loc_Exact ltac:(lia)) as H2.
  destruct (shr_exp m2 e1 loc_Exact) as [r2 e2]. destruct H2 as (He2 & _). pose proof (fexp_ge (Zdigits2 m2 + e1)).
  destruct (shr_m r2); try done. destruct (e2 <=? _); [|done]. simpl. lia.
Qed.

(** Dropping the digits past the format keeps a positive mantissa positive. *)
Lemma shift_pos m e : 0 < m → -1074 ≤ e → 0 < m / 2 ^ (Z.max e (fexp 53 1024 (Zdigits2 m + e)) - e).
Proof.
  intros Hm He. destruct (Zdigits2_bounds m Hm) as [Hd _].
  assert (1 ≤ Zdigits2 m) by (destruct m; simpl; lia).
  destruct (Z.le_gt_cases (fexp 53 1024 (Zdigits2 m + e)) e) as [Hle|Hgt].
  - rewrite Z.max_l, Z.sub_diag, Z.pow_0_r, Z.div_1_r by lia. done.
  - rewrite Z.max_r by lia. unfold fexp, emin in *. apply Z.div_str_pos. split; [apply Z.pow_pos_nonneg; lia|].
    etrans; [|exact Hd]. apply Z.pow_le_mono_r; lia.
Qed.

Lemma round_aux_posf m e l : 0 < m → -1074 ≤ e → posf (binary_round_aux 53 1024 false m e l).
Proof.
  intros Hm He. pose proof (round_aux_wide false m e l ltac:(lia)) as Hw. revert Hw. unfold binary_round_aux.
  pose proof (shr_fexp_spec m e l ltac:(lia)) as H1. destruct (shr_exp m e l) as [r1 e1].
  destruct H1 as (He1 & Hr1 & _). destruct (round_even_le (shr_m r1) (loc_of_shr_record r1)) as [Hrd _].
  set (m2 := round_nearest_even _ _) in *. clearbody m2.
  pose proof (shift_pos m e Hm He) as Hp1. rewrite <- He1, <- Hr1 in Hp1.
  pose proof (shr_fexp_spec m2 e1 loc_Exact ltac:(lia)) as H2.
  destruct (shr_exp m2 e1 loc_Exact) as [r2 e2]. destruct H2 as (He2 & Hr2 & _).
  pose proof (shift_pos m2 e1 ltac:(lia) ltac:(lia)) as Hp2. rewrite <- He2, <- Hr2 in Hp2.
  destruct (shr_m r2); try lia. by destruct (e2 <=? _).
Qed.

Lemma shl_align_exp m e f : (shl_align m e f).2 = Z.min e f.
Proof. unfold shl_align. destruct (f - e) eqn:E; simpl; lia. Qed.

Lemma binary_round_wide s m e : wide (binary_round 53 1024 s m e).
Proof. unfold binary_round. destruct (shl_align _ _ _). by apply round_aux_wide. Qed.

Lemma binary_round_posf m e : -1074 ≤ e → posf (binary_round 53 1024 false m e).
Proof.
  intros He. unfold binary_round. pose proof (shl_align_exp m e (fexp 53 1024 (Zpos (digits2_pos m) + e))) as Hg.
  pose proof (fexp_ge (Zpos (digits2_pos m) + e)). destruct (shl_align _ _ _) as [n g]. simpl in Hg.
  apply round_aux_posf; lia.
Qed.

Lemma normalize_wide m e s : wide (binary_normalize 53 1024 m e s).
Proof. destruct m; [done|..]; apply binary_round_wide. Qed.

Lemma of_int_wide n : wide (of_int n).
Proof. apply normalize_wide. Qed.

Lemma fadd_wide a b : wide a → wide b → wide (fadd a b).
Proof.
  destruct a as [s|s| |s m e], b as [t|t| |t n f]; intros Ha Hb; try done; try (by destruct s, t).
  apply normalize_wide.
Qed.

Lemma fsub_wide a b : wide a → wide b → wide (fsub a b).
Proof.
  destruct a as [s|s| |s m e], b as [t|t| |t n f]; intros Ha Hb; try done; try (by destruct s, t).
  apply normalize_wide.
Qed.

Lemma fmul_wide a b : wide (fmul a b).
Proof. destruct a as [s|s| |s m e], b as [t|t| |t n f]; simpl; try done. by apply round_aux_wide. Qed.

(** ** Differences and sums *)
Lemma fle_flt a b : number a → number b → fle a b = negb (flt b a).
Proof.
  intros Ha Hb. unfold fle, flt.
  destruct (is_finite a) eqn:Fa, (is_finite b) eqn:Fb.
  - destruct (fcompare_spec a b Fa Fb) as [[-> ?]|[[-> ?]|[-> ?]]], (fcompare_spec b a Fb Fa) as [[-> ?]|[[-> ?]|[-> ?]]];
      try done; lra.
  - by destruct a as [?|[]| |], b as [?|[]| |].
  - by destruct a as [?|[]| |], b as [?|[]| |].
  - by destruct a as [?|[]| |], b as [?|[]| |].
Qed.

Lemma signed_value s m e lo :
  lo ≤ e → (IZR (SpecFloat.cond_Zopp s (Zpos (shl_align m e lo).1)) * bpow lo = F2R (S754_finite s m e))%R.
Proof.
  intros Hlo. pose proof (shl_align_value m e lo) as H. destruct (shl_align m e lo) as [n g]. destruct H as (Hv & _ & Hg).
  rewrite (Hg Hlo) in Hv. simpl. destruct s; simpl; [|done]. change (Zneg n) with (- Zpos n). change (Zneg m) with (- Zpos m).
  rewrite !opp_IZR. lra.
Qed.

Lemma fsub_posf a b : wide a → wide b → flt b a = true → posf (fsub a b).
Proof.
  intros Wa Wb Hlt.
  assert (Na : number a) by (by destruct a; destruct b as [?|[]| |]).
  assert (Nb : number b) by (by destruct b). apply flt_spec in Hlt; [|done..].
  destruct a as [s|s| |s m e], b as [t|t| |t n f]; try done; cbn [fclass wide F2R] in *.
  - destruct Hlt as [?|[_ ?]]; [lia|lra].
  - destruct t; [done|]. destruct Hlt as [?|[? _]]; lia.
  - pose proof (F2R_sign t n f) as Hs. destruct t; [done|]. cbn [F2R] in Hs. destruct Hlt as [?|[_ ?]]; [lia|lra].
  - destruct s; [|done]. destruct Hlt as [?|[? _]]; lia.
  - destruct s, t; simpl in *; try done; destruct Hlt as [?|[? ?]]; lia || lra.
  - destruct s; [|done]. destruct Hlt as [?|[? _]]; lia.
  - pose proof (F2R_sign s m e) as Hs. destruct s; [|done]. cbn [F2R] in Hs. destruct Hlt as [?|[_ ?]]; [lia|lra].
  - destruct t; [done|]. destruct Hlt as [?|[? _]]; lia.
  - destruct Hlt as [?|[_ Hlt]]; [lia|]. unfold fsub, SFsub. cbv zeta. set (lo := Z.min e f).
    pose proof (signed_value s m e lo ltac:(lia)) as Hm. pose proof (signed_value t n f lo ltac:(lia)) as Hn.
    set (x := SpecFloat.cond_Zopp s _) in *. set (y := SpecFloat.cond_Zopp t _) in *.
    pose proof (bpow_pos lo). assert (Hxy : y < x) by (apply lt_IZR; cbn [F2R] in Hm, Hn; nra).
    destruct (x - y) as [|d|d] eqn:E; [lia| |lia]. apply binary_round_posf. lia.
Qed.

Lemma fadd_nonnegf a b :
  nonnegf a → nonnegf b → nonnegf (fadd a b) ∧ (posf a ∨ posf b → posf (fadd a b)).
Proof.
  assert (Hfin : ∀ m e n f, -1074 ≤ e → -1074 ≤ f → posf (fadd (S754_finite false m e) (S754_finite false n f))).
  { intros m e n f He Hf. unfold fadd, SFadd. cbv zeta. set (lo := Z.min e f). simpl SpecFloat.cond_Zopp.
    apply binary_round_posf. lia. }
  intros [Ha|[s ->]] [Hb|[t ->]].
  - assert (posf (fadd a b)); [|by split; [left|]].
    destruct a as [?|[]| |[]], b as [?|[]| |[]]; try done; try exact I. by apply Hfin.
  - assert (posf (fadd a (S754_zero t))); [|by split; [left|]]. by destruct a as [?|[]| |[]].
  - assert (posf (fadd (S754_zero s) b)); [|by split; [left|]]. by destruct b as [?|[]| |[]].
  - split; [right; destruct s, t; eexists; reflexivity|]. by intros [?|?].
Qed.

(** ** Exact integers *)
Lemma shr_exact_noop m e :
  fexp 53 1024 (Zpos (digits2_pos m) + e) ≤ e → shr_exp (Zpos m) e loc_Exact = (shr_record_of_loc (Zpos m) loc_Exact, e).
Proof.
  intros Hf. unfold shr_fexp, shr. destruct (fexp 53 1024 (Zdigits2 (Zpos m) + e) - e) as [|p|p] eqn:E; [done| |done].
  simpl Zdigits2 in E. lia.
Qed.

Lemma round_aux_exact m e :
  fexp 53 1024 (Zpos (digits2_pos m) + e) ≤ e → e ≤ 971 → binary_round_aux 53 1024 false (Zpos m) e loc_Exact = S754_finite false m e.
Proof.
  intros Hf He. pose proof (shr_exact_noop m e Hf) as Hs.
  unfold binary_round_aux. rewrite Hs. simpl round_nearest_even. rewrite Hs. simpl shr_m.
  by rewrite (proj2 (Z.leb_le e (1024 - 53))) by lia.
Qed.

Lemma digits_bound m k : Zpos m < 2 ^ k → 0 ≤ k → Zpos (digits2_pos m) ≤ k.
Proof.
  intros Hm Hk. destruct (Zdigits2_bounds (Zpos m) ltac:(lia)) as [Hd _]. simpl in Hd.
  destruct (Z.le_gt_cases (Zpos (digits2_pos m)) k) as [?|Hgt]; [done|].
  assert (2 ^ k ≤ 2 ^ (Zpos (digits2_pos m) - 1)) by (apply Z.pow_le_mono_r; lia). lia.
Qed.

Lemma of_int_exact n : 0 ≤ n < 2 ^ 53 → nonneg (of_int n) ∧ F2R (of_int n) = IZR n.
Proof.
  intros Hn. destruct n as [|p|p]; [by split; [split; [done|simpl; lra]|]| |lia].
  pose proof (digits_bound p 53 ltac:(lia) ltac:(lia)) as Hd.
  assert (Hd1 : 1 ≤ Zpos (digits2_pos p)) by lia.
  unfold of_int, binary_normalize, binary_round. rewrite Z.add_0_r.
  assert (Hfx : fexp 53 1024 (Zpos (digits2_pos p)) = Zpos (digits2_pos p) - 53) by (unfold fexp, emin; lia). rewrite Hfx.
  pose proof (shl_align_value p 0 (Zpos (digits2_pos p) - 53)) as H. destruct (shl_align _ _ _) as [m g] eqn:E.
  destruct H as (Hv & _ & Hg). rewrite (Hg ltac:(lia)) in *. clear g Hg.
  rewrite Rmult_1_r in Hv.
  assert (Hm : Zpos m < 2 ^ 53).
  { destruct (Zdigits2_bounds (Zpos p) ltac:(lia)) as [_ Hp]. simpl in Hp.
    apply lt_IZR. apply (Rmult_lt_reg_r (bpow (Zpos (digits2_pos p) - 53))); [apply bpow_pos|].
    rewrite Hv, <- (bpow_IZR 53), <- bpow_add by lia. replace (53 + (Zpos (digits2_pos p) - 53)) with (Zpos (digits2_pos p)) by lia.
    rewrite bpow_IZR by lia. by apply IZR_lt. }
  pose proof (digits_bound m 53 Hm ltac:(lia)).
  rewrite round_aux_exact; [|unfold fexp, emin; lia|lia].
  split; [split; [done|]|]; simpl; rewrite Hv; [apply IZR_le; lia|done].
Qed.

Lemma of_int_lt a b : 0 ≤ a < 2 ^ 53 → 0 ≤ b < 2 ^ 53 → flt (of_int a) (of_int b) = (a <? b).
Proof.
  intros [Fa Ha]%of_int_exact [Fb Hb]%of_int_exact. unfold flt.
  destruct (fcompare_spec _ _ (proj1 Fa) (proj1 Fb)) as [[-> H]|[[-> H]|[-> H]]]; rewrite Ha, Hb in H.
  - symmetry. apply Z.ltb_lt. by apply lt_IZR.
  - apply eq_IZR in H. symmetry. apply Z.ltb_ge. lia.
  - apply lt_IZR in H. symmetry. apply Z.ltb_ge. lia.
Qed.

(** ** Finite results *)
Definition small (k : Z) (x : float64) : Prop := is_finite x = true ∧ (Rabs (F2R x) <= bpow k)%R.

Lemma small_number k x : small k x → number x.
Proof. intros [H _] ->. done. Qed.

Lemma small_weaken k k' x : k ≤ k' → small k x → small k' x.
Proof. intros Hk [H1 H2]. split; [done|]. pose proof (bpow_le k k' Hk). lra. Qed.

Lemma small_zero k s : small k (S754_zero s).
Proof. split; [done|]. simpl. rewrite Rabs_R0. pose proof (bpow_pos k). lra. Qed.

Lemma round_aux_opp m e l : binary_round_aux 53 1024 true m e l = SFopp (binary_round_aux 53 1024 false m e l).
Proof.
  unfold binary_round_aux. destruct (shr_exp m e l) as [r1 e1]. destruct (shr_exp _ e1 loc_Exact) as [r2 e2].
  destruct (shr_m r2); try done. by destruct (e2 <=? _).
Qed.

Lemma F2R_opp x : F2R (SFopp x) = (- F2R x)%R.
Proof.
  destruct x as [s|s| |s m e]; simpl; try lra. destruct s; simpl.
  - change (Zneg m) with (- Zpos m). rewrite opp_IZR. lra.
  - change (Zneg m) with (- Zpos m). rewrite opp_IZR. lra.
Qed.

Lemma small_opp k x : small k x → small k (SFopp x).
Proof. intros [H1 H2]. split; [by destruct x|]. by rewrite F2R_opp, Rabs_Ropp. Qed.

Lemma small_round s m e k :
  -1022 ≤ k ≤ 971 → (IZR (Zpos m) * bpow e <= bpow k)%R → small k (binary_round 53 1024 s m e).
Proof.
  intros Hk Hle. destruct (binary_round_pow m e k Hk Hle) as [[Hf H0] H1].
  assert (small k (binary_round 53 1024 false m e)) by (split; [done|]; by rewrite Rabs_pos_eq).
  destruct s; [|done]. unfold binary_round in *. destruct (shl_align _ _ _). rewrite round_aux_opp. by apply small_opp.
Qed.

Lemma small_normalize x lo s k :
  -1022 ≤ k ≤ 971 → (Rabs (IZR x * bpow lo) <= bpow k)%R → small k (binary_normalize 53 1024 x lo s).
Proof.
  intros Hk Hle. pose proof (bpow_pos lo). destruct x as [|p|p]; [apply small_zero|..]; apply small_round; try done.
  - rewrite Rabs_pos_eq in Hle; [done|]. assert (0 <= IZR (Zpos p))%R by (apply IZR_le; lia). nra.
  - change (Zneg p) with (- Zpos p) in Hle. rewrite opp_IZR, <- Ropp_mult_distr_l, Rabs_Ropp, Rabs_pos_eq in Hle; [done|].
    assert (0 <= IZR (Zpos p))%R by (apply IZR_le; lia). nra.
Qed.

(** A sum or difference of floats up to [2^k] is up to [2^(k+1)]. *)
Lemma small_add k a b : -1022 ≤ k ≤ 970 → small k a → small k b → small (k + 1) (fadd a b).
Proof.
  intros Hk [Fa Ha] [Fb Hb]. pose proof (bpow_pos k). pose proof (bpow_succ k) as Hs.
  destruct a as [s|s| |s m e], b as [t|t| |t n f]; try done; cbn [fadd SFadd].
  - destruct s, t; apply small_zero.
  - apply (small_weaken k); [lia|done].
  - apply (small_weaken k); [lia|done].
  - unfold fadd, SFadd. cbv zeta. set (lo := Z.min e f).
    pose proof (signed_value s m e lo ltac:(lia)) as Hm. pose proof (signed_value t n f lo ltac:(lia)) as Hn.
    apply small_normalize; [lia|]. rewrite plus_IZR, Rmult_plus_distr_r, Hm, Hn, Hs.
    pose proof (Rabs_triang (F2R (S754_finite s m e)) (F2R (S754_finite t n f))). lra.
Qed.

Lemma small_sub k a b : -1022 ≤ k ≤ 970 → small k a → small k b → small (k + 1) (fsub a b).
Proof.
  intros Hk [Fa Ha] [Fb Hb]. pose proof (bpow_pos k). pose proof (bpow_succ k) as Hs.
  destruct a as [s|s| |s m e], b as [t|t| |t n f]; try done; cbn [fsub SFsub].
  - destruct s, t; apply small_zero.
  - apply (small_weaken k); [lia|]. by apply (small_opp k (S754_finite t n f)).
  - apply (small_weaken k); [lia|done].
  - unfold fsub, SFsub. cbv zeta. set (lo := Z.min e f).
    pose proof (signed_value s m e lo ltac:(lia)) as Hm. pose proof (signed_value t n f lo ltac:(lia)) as Hn.
    apply small_normalize; [lia|]. rewrite minus_IZR, Rmult_minus_distr_r, Hm, Hn, Hs.
    pose proof (Rabs_triang (F2R (S754_finite s m e)) (- F2R (S754_finite t n f))) as Ht. rewrite Rabs_Ropp in Ht. unfold Rminus. lra.
Qed.

Lemma small_of_int k n : 0 ≤ n ≤ 2 ^ k → 0 ≤ k ≤ 50 → small k (of_int n).
Proof.
  intros Hn Hk. assert (2 ^ k ≤ 2 ^ 50) by (apply Z.pow_le_mono_r; lia).
  destruct (of_int_exact n) as [[Hf H0] Hv]; [lia|]. split; [done|]. rewrite Hv, Rabs_pos_eq by (apply IZR_le; lia).
  rewrite bpow_IZR by lia. apply IZR_le. lia.
Qed.

(** ** Numbers *)
Lemma of_sign_number s x : of_sign s x → number x.
Proof. intros H ->. done. Qed.

Lemma fadd_number a b : is_finite a = true → number b → number (fadd a b).
Proof.
  destruct a as [s|s| |s m e], b as [t|t| |t n f]; intros Ha Hb; try done.
  - by destruct s, t.
  - unfold fadd, SFadd. cbv zeta. destruct (_ + _); try done; eapply of_sign_number, binary_round_sign.
Qed.

(** A product with a finite non-zero float. *)
Lemma fmul_number_r a b : number a → is_finite b = true → flt f0 b = true → number (fmul a b).
Proof.
  destruct a as [s|s| |s m e], b as [t|t| |t n f]; intros Ha Hb Hp; try done.
  eapply of_sign_number. by apply round_aux_sign.
Qed.

Lemma fmul_number_l a b : is_finite a = true → flt f0 a = true → number b → number (fmul a b).
Proof.
  destruct a as [s|s| |s m e], b as [t|t| |t n f]; intros Ha Hp Hb; try done.
  eapply of_sign_number. by apply round_aux_sign.
Qed.

Lemma fdiv_sign s m e t n f :
  of_sign (xorb s t) (fdiv (S754_finite s m e) (S754_finite t n f)) ∧ wide (fdiv (S754_finite s m e) (S754_finite t n f)).
Proof.
  unfold fdiv, SFdiv. pose proof (div_core m e n f) as H. destruct (SFdiv_core_binary _ _ _ _ _ _) as [[q g] l].
  destruct H as (Hq & _). split; [by apply round_aux_sign|by apply round_aux_wide].
Qed.

(** A quotient is a number unless both are zero or both infinite. *)
Lemma fdiv_number a b :
  number a → number b → (is_finite a = true ∨ is_finite b = true) → (flt f0 a = true ∨ flt a f0 = true ∨ flt f0 b = true) →
  number (fdiv a b).
Proof.
  destruct a as [s|s| |s m e], b as [t|t| |t n f]; intros Ha Hb Hf Hz; try done; try (by destruct Hf).
  - by destruct Hz as [?|[?|?]].
  - eapply of_sign_number, fdiv_sign.
Qed.

Lemma fdiv_nonnegf a b : is_finite a = true → is_finite b = true → flt f0 a = true → flt f0 b = true → nonnegf (fdiv a b).
Proof.
  destruct a as [s|s| |s m e], b as [t|t| |t n f]; intros Ha Hb Hpa Hpb; try done.
  destruct s, t; try done. destruct (fdiv_sign false m e false n f) as [Hs Hw]. change (xorb false false) with false in Hs.
  destruct (fdiv _ _) as [?|[]| |[] ? ?]; try done; [right; eauto|left; exact I|left; exact Hw].
Qed.

(** A product that reaches the smallest float is positive. *)
Lemma fmul_posf a b :
  is_finite a = true → is_finite b = true → flt f0 a = true → flt f0 b = true → (bpow (-1074) <= F2R a * F2R b)%R →
  posf (fmul a b).
Proof.
  destruct a as [s|s| |s m e], b as [t|t| |t n f]; intros Ha Hb Hpa Hpb Hle; try done. destruct s, t; try done.
  unfold fmul, SFmul. simpl xorb. set (g := e + f). assert (Hv : (bpow (-1074) <= IZR (Zpos (m * n)) * bpow g)%R).
  { rewrite Pos2Z.inj_mul, mult_IZR. unfold g. rewrite bpow_add. cbn [F2R signed] in Hle. lra. }
  destruct (Z.le_gt_cases (-1074) g) as [Hg|Hg]; [by apply round_aux_posf|].
  pose proof (round_aux_wide false (Zpos (m * n)) g loc_Exact ltac:(lia)) as Hw. revert Hw. unfold binary_round_aux.
  pose proof (shr_fexp_spec (Zpos (m * n)) g loc_Exact ltac:(lia)) as H1. destruct (shr_exp _ g loc_Exact) as [r1 e1].
  destruct H1 as (He1 & Hr1 & _). destruct (round_even_le (shr_m r1) (loc_of_shr_record r1)) as [Hrd _].
  set (m2 := round_nearest_even _ _) in *. clearbody m2.
  assert (Hp1 : 0 < shr_m r1).
  { rewrite Hr1. destruct (Zdigits2_bounds (Zpos (m * n)) ltac:(lia)) as [Hd _]. apply Z.div_str_pos.
    split; [apply Z.pow_pos_nonneg; lia|]. unfold fexp, emin in He1.
    destruct (Z.le_gt_cases (Zdigits2 (Zpos (m * n)) + g - 53) (-1074)) as [H|H].
    - replace (e1 - g) with (-1074 - g) by lia. apply le_IZR. rewrite <- bpow_IZR by lia.
      apply (Rmult_le_reg_r (bpow g)); [apply bpow_pos|]. rewrite <- bpow_add. by replace (-1074 - g + g) with (-1074) by lia.
    - etrans; [|exact Hd]. apply Z.pow_le_mono_r; lia. }
  pose proof (shr_fexp_spec m2 e1 loc_Exact ltac:(lia)) as H2.
  destruct (shr_exp m2 e1 loc_Exact) as [r2 e2]. destruct H2 as (He2 & Hr2 & _).
  pose proof (fexp_ge (Zdigits2 (Zpos (m * n)) + g)). pose proof (shift_pos m2 e1 ltac:(lia) ltac:(lia)) as Hp2. rewrite <- He2, <- Hr2 in Hp2.
  destruct (shr_m r2); try lia. by destruct (e2 <=? _).
Qed.
