(* ===== verification/FloatError.v ===== *)
(** * FloatError: the rounding error of float64 operations

    The standard model of rounding for the operations the water-filling of the
    rescale uses, on non-negative floats away from underflow and overflow: the
    result of a sum, a product or a quotient is within a relative [unit] of the
    exact one, and a sum over a list is within as many units as it has terms. *)
From Stdlib Require Import ZArith Lia SpecFloat Reals Lra.
From stdpp Require Import base list.
From S2P Require Import Prelude GoFloat FloatBounds.
Open Scope R_scope.

(** Three roundings down of [2^-52], and the smallest float, with room to spare. *)
Definition unit : R := 8 * eps.

(** Values away from underflow and overflow. *)
Definition normal (v : R) : Prop := bpow (-900) <= v <= bpow 900.

Definition near (z : float64) (v : R) : Prop := nonneg z ∧ Rabs (F2R z - v) <= unit * v.

Lemma Rabs_le_inv a b : Rabs a <= b → - b <= a <= b.
Proof. intros H. pose proof (Rle_abs a). pose proof (Rle_abs (- a)) as H2. rewrite Rabs_Ropp in H2. lra. Qed.

Lemma unit_small_pos : 0 < unit ∧ unit * 137438953472 <= 1.
Proof. unfold unit. pose proof eps_small. destruct eps_eta_pos. lra. Qed.

Lemma unit_exact : unit * 562949953421312 = 1.
Proof.
  unfold unit, eps. change 8 with (IZR (2 ^ 3)). change 562949953421312 with (IZR (2 ^ 49)).
  rewrite <- !bpow_IZR, <- !bpow_add by lia. done.
Qed.

(** In the normal range a few of the smallest float are less than an [eps]. *)
Lemma eta_normal v : bpow (-900) <= v → 1024 * eta <= v * eps.
Proof.
  intros Hv. unfold eta, eps. change 1024 with (IZR (2 ^ 10)). rewrite <- bpow_IZR, <- bpow_add by lia.
  pose proof (bpow_le (10 + -1074) (-900 + -52) ltac:(lia)) as H. rewrite bpow_add in H. pose proof (bpow_pos (-52)).
  rewrite bpow_add. rewrite (bpow_add (-900)) in H. nra.
Qed.

Lemma near_intro z v v' :
  nonneg z → normal v → 0 <= v' <= v → v <= v' * (1 + eps) + eta →
  v' * (1 - 2 * eps) - 2 * eta <= F2R z <= v' * (1 + eps) + eta → near z v.
Proof.
  intros Hz [Hlo _] Hv' Hgap [H1 H2]. split; [done|]. pose proof (eta_normal v Hlo) as He.
  pose proof eps_small. destruct eps_eta_pos. unfold unit.
  assert (0 <= v' * eps <= v * eps) by (split; [|apply Rmult_le_compat_r]; nra).
  assert (v * eps * eps <= v * eps).
  { assert (0 <= v * eps) by nra. rewrite <- (Rmult_1_r (v * eps)) at 2. apply Rmult_le_compat_l; lra. }
  apply Rabs_le. split; nra.
Qed.

(** ** One rounding *)
Lemma shift_below m e f l :
  (0 <= m)%Z → (l = loc_Exact ∨ (2 ^ 52 <= m)%Z ∨ (e <= -1074)%Z) → f = Z.max e (fexp 53 1024 (Zdigits2 m + e)) →
  IZR m * bpow e * (1 - eps) - eta <= IZR (m / 2 ^ (f - e)) * bpow f.
Proof.
  intros Hm Hl Hf. destruct eps_eta_pos. pose proof (bpow_pos e).
  assert (0 <= IZR m) by (by apply IZR_le). assert (0 <= IZR m * bpow e * eps) by (repeat apply Rmult_le_pos; lra).
  destruct (unit_small m e l Hm Hl) as [[He _]|Hu]; rewrite <- Hf in *.
  { rewrite He, Z.sub_diag, Z.pow_0_r, Z.div_1_r. lra. }
  assert (Hd : (m < 2 ^ (f - e) * (m / 2 ^ (f - e)) + 2 ^ (f - e))%Z).
  { pose proof (Z.mul_succ_div_gt m (2 ^ (f - e)) ltac:(apply Z.pow_pos_nonneg; lia)). lia. }
  apply IZR_lt in Hd. rewrite plus_IZR, mult_IZR, <- bpow_IZR in Hd by lia.
  replace f with (f - e + e)%Z in Hu at 1 by lia. replace (bpow f) with (bpow (f - e) * bpow e) by (rewrite <- bpow_add; f_equal; lia).
  rewrite bpow_add in Hu. nra.
Qed.

Lemma round_aux_two_sided m e l :
  (0 <= m)%Z → (l = loc_Exact ∨ (2 ^ 52 <= m)%Z ∨ (e <= -1074)%Z) → IZR m * bpow e <= bpow 901 →
  let z := binary_round_aux 53 1024 false m e l in
  nonneg z ∧ IZR m * bpow e * (1 - 2 * eps) - 2 * eta <= F2R z <= IZR m * bpow e * (1 + eps) + eta.
Proof.
  intros Hm Hl Hhi. cbv zeta. set (v := IZR m * bpow e) in *.
  pose proof eps_small. pose proof eta_small. destruct eps_eta_pos.
  assert (0 <= v) by (unfold v; apply Rmult_le_pos; [by apply IZR_le|pose proof (bpow_pos e); lra]).
  assert (0 <= v * eps * eps) by (apply Rmult_le_pos; [apply Rmult_le_pos|]; lra).
  destruct (round_aux_upper m e l _ Hm Hl eq_refl) as [(Hf & Hz & Hup)|(_ & Hbig & _)]; [fold v in Hup|fold v in Hbig].
  2: { exfalso. pose proof (bpow_gap 901 972 ltac:(lia)). assert (1 <= bpow 901) by (change 1 with (bpow 0); apply bpow_le; lia).
       assert (v * eps <= v * 1) by (apply Rmult_le_compat_l; lra). lra. }
  split; [by split|]. split; [|done]. revert Hf Hz Hup. unfold binary_round_aux.
  pose proof (shr_fexp_spec m e l Hm) as H1'. destruct (shr_exp m e l) as [r1 e1]. destruct H1' as (He1 & Hr1 & _).
  pose proof (shift_below m e e1 l Hm Hl He1) as Hlow1. rewrite <- Hr1 in Hlow1. fold v in Hlow1.
  destruct (round_even_le (shr_m r1) (loc_of_shr_record r1)) as [Hrd _]. set (m2 := round_nearest_even _ _) in *. clearbody m2.
  assert (0 <= shr_m r1)%Z by (rewrite Hr1; apply Z.div_pos; [done|apply Z.pow_pos_nonneg; lia]).
  pose proof (shr_fexp_spec m2 e1 loc_Exact ltac:(lia)) as H2'. destruct (shr_exp m2 e1 loc_Exact) as [r2 e2].
  destruct H2' as (He2 & Hr2 & _).
  pose proof (shift_below m2 e1 e2 loc_Exact ltac:(lia) (or_introl eq_refl) He2) as Hlow2. rewrite <- Hr2 in Hlow2.
  assert (Hm2 : IZR (shr_m r1) * bpow e1 <= IZR m2 * bpow e1)
    by (apply Rmult_le_compat_r; [pose proof (bpow_pos e1); lra|apply IZR_le; lia]).
  assert (Hl2 : v * (1 - 2 * eps) - 2 * eta <= IZR (shr_m r2) * bpow e2).
  { etransitivity; [|exact Hlow2]. assert ((v * (1 - eps) - eta) * (1 - eps) <= IZR m2 * bpow e1 * (1 - eps))
      by (apply Rmult_le_compat_r; lra). nra. }
  destruct (shr_m r2) as [|p|p] eqn:Hp; intros Hf Hz Hup.
  - simpl in *. lra.
  - destruct (e2 <=? 1024 - 53)%Z; [done|done].
  - done.
Qed.

(** ** Sums, products and quotients *)
Lemma normalize_near x lo s : normal (IZR x * bpow lo) → near (binary_normalize 53 1024 x lo s) (IZR x * bpow lo).
Proof.
  intros Hn. pose proof (bpow_pos lo) as Hlo. pose proof (bpow_pos (-900)) as H9.
  assert (Hx : 0 < IZR x) by (destruct Hn; apply (Rmult_lt_reg_r (bpow lo)); lra).
  destruct x as [|p|p]; [lra| |exfalso; apply lt_IZR in Hx; lia]. unfold binary_normalize, binary_round.
  pose proof (shl_align_value p lo (fexp 53 1024 (Zpos (digits2_pos p) + lo))) as Ha.
  destruct (shl_align _ _ _) as [q g]. destruct Ha as [Hv _].
  destruct (round_aux_two_sided (Zpos q) g loc_Exact ltac:(lia) (or_introl eq_refl)) as [Hz Hb].
  { rewrite Hv. destruct Hn as [_ Hn]. pose proof (bpow_le 900 901 ltac:(lia)). lra. }
  rewrite Hv in Hb. set (v := IZR _ * bpow lo) in *. clearbody v. destruct eps_eta_pos.
  eapply (near_intro _ v v); try done; destruct Hn; nra.
Qed.

Lemma near_self x : nonneg x → near x (F2R x).
Proof.
  intros Hx. split; [done|]. rewrite Rminus_diag, Rabs_R0. destruct Hx, unit_small_pos. apply Rmult_le_pos; lra.
Qed.

Lemma fadd_near a b : nonneg a → nonneg b → normal (F2R a + F2R b) → near (fadd a b) (F2R a + F2R b).
Proof.
  intros Ha Hb Hn. destruct (nonneg_cases a Ha) as [[s ->]|(m & e & ->)], (nonneg_cases b Hb) as [[t ->]|(n & f & ->)].
  - exfalso. destruct Hn as [Hn _]. pose proof (bpow_pos (-900)). simpl in Hn. lra.
  - change (F2R (S754_zero s)) with 0. rewrite Rplus_0_l. by apply near_self.
  - change (F2R (S754_zero t)) with 0. rewrite Rplus_0_r. by apply near_self.
  - unfold fadd, SFadd. cbv zeta. set (lo := Z.min e f).
    rewrite <- (signed_value false m e lo), <- (signed_value false n f lo), <- Rmult_plus_distr_r, <- plus_IZR in * by lia.
    by apply normalize_near.
Qed.

Lemma fsub_near a b : nonneg a → nonneg b → normal (F2R a - F2R b) → near (fsub a b) (F2R a - F2R b).
Proof.
  intros Ha Hb Hn. destruct (nonneg_cases a Ha) as [[s ->]|(m & e & ->)], (nonneg_cases b Hb) as [[t ->]|(n & f & ->)].
  - exfalso. destruct Hn as [Hn _]. pose proof (bpow_pos (-900)). simpl in Hn. lra.
  - exfalso. destruct Hn as [Hn _], Hb as [_ Hb]. pose proof (bpow_pos (-900)). simpl in *. lra.
  - change (F2R (S754_zero t)) with 0. rewrite Rminus_0_r. by apply near_self.
  - unfold fsub, SFsub. cbv zeta. set (lo := Z.min e f).
    rewrite <- (signed_value false m e lo), <- (signed_value false n f lo), <- Rmult_minus_distr_r, <- minus_IZR in * by lia.
    by apply normalize_near.
Qed.

Lemma fmul_near a b : nonneg a → nonneg b → normal (F2R a * F2R b) → near (fmul a b) (F2R a * F2R b).
Proof.
  intros Ha Hb Hn. pose proof (bpow_pos (-900)) as H9.
  destruct (nonneg_cases a Ha) as [[s ->]|(m & e & ->)], (nonneg_cases b Hb) as [[t ->]|(n & f & ->)];
    [exfalso; destruct Hn as [Hn _]; change (F2R (S754_zero s)) with 0 in Hn; lra
    |exfalso; destruct Hn as [Hn _]; change (F2R (S754_zero s)) with 0 in Hn; lra
    |exfalso; destruct Hn as [Hn _]; change (F2R (S754_zero t)) with 0 in Hn; lra|].
  assert (Hval : IZR (Zpos (m * n)) * bpow (e + f) = F2R (S754_finite false m e) * F2R (S754_finite false n f)).
  { rewrite Pos2Z.inj_mul, mult_IZR, bpow_add. simpl. ring. }
  destruct (round_aux_two_sided (Zpos (m * n)) (e + f) loc_Exact ltac:(lia) (or_introl eq_refl)) as [Hz Hb2].
  { rewrite Hval. destruct Hn as [_ Hn]. pose proof (bpow_le 900 901 ltac:(lia)). lra. }
  rewrite Hval in Hb2. set (v := F2R _ * F2R _) in *. clearbody v. destruct eps_eta_pos.
  eapply (near_intro _ v v); try done; destruct Hn; nra.
Qed.

(** The quotient [SFdiv_core_binary] computes is less than one unit below. *)
Lemma div_core_below m e n f :
  let '(q, g, _) := SFdiv_core_binary 53 1024 (Zpos m) e (Zpos n) f in
  IZR (Zpos m) * bpow e / (IZR (Zpos n) * bpow f) <= (IZR q + 1) * bpow g.
Proof.
  unfold SFdiv_core_binary. set (g := Z.min _ _). set (s := (e - f - g)%Z). assert (Hs : (0 <= s)%Z) by lia.
  replace (match s with Z0 => Zpos m | Zpos _ => Z.shiftl (Zpos m) s | Zneg _ => 0%Z end)
    with (Zpos m * 2 ^ s)%Z by (destruct s; [lia|by rewrite Z.shiftl_mul_pow2|lia]).
  pose proof (Z_div_mod (Zpos m * 2 ^ s) (Zpos n) eq_refl) as Hd.
  destruct (Z.div_eucl (Zpos m * 2 ^ s) (Zpos n)) as [q r]. destruct Hd as [Hd Hr].
  assert (Hle : (Zpos m * 2 ^ s <= Zpos n * (q + 1))%Z) by lia.
  apply IZR_le in Hle. rewrite !mult_IZR, <- bpow_IZR, plus_IZR in Hle by done.
  pose proof (bpow_pos f) as Hbf. pose proof (bpow_pos g) as Hbg.
  assert (Hnp : 0 < IZR (Zpos n)) by (apply IZR_lt; lia).
  replace e with (s + g + f)%Z by lia. rewrite !bpow_add.
  apply Rmult_le_reg_r with (IZR (Zpos n) * bpow f); [nra|].
  unfold Rdiv. rewrite (Rmult_assoc _ (/ _)), Rinv_l, Rmult_1_r by nra.
  assert (0 < bpow g * bpow f) by nra. nra.
Qed.

Lemma fdiv_near a b : nonneg a → nonneg b → 0 < F2R b → normal (F2R a / F2R b) → near (fdiv a b) (F2R a / F2R b).
Proof.
  intros Ha Hb Hb0 Hn. pose proof (bpow_pos (-900)) as H9.
  destruct (nonneg_cases b Hb) as [[t ->]|(n & f & ->)]; [change (F2R (S754_zero t)) with 0 in Hb0; lra|].
  destruct (nonneg_cases a Ha) as [[s ->]|(m & e & ->)].
  { exfalso. destruct Hn as [Hn _]. change (F2R (S754_zero s)) with 0 in Hn. unfold Rdiv in Hn. rewrite Rmult_0_l in Hn. lra. }
  pose proof (div_core m e n f) as Hc. pose proof (div_core_below m e n f) as Hc'. unfold fdiv, SFdiv.
  destruct (SFdiv_core_binary 53 1024 (Zpos m) e (Zpos n) f) as [[q g] l]. destruct Hc as (Hq0 & Hq & _ & Hv).
  change (IZR (Zpos m) * bpow e / (IZR (Zpos n) * bpow f)) with (F2R (S754_finite false m e) / F2R (S754_finite false n f)) in *.
  set (v := F2R _ / F2R _) in *. clearbody v.
  destruct (round_aux_two_sided q g l Hq0 (or_intror Hq)) as [Hz Hb2].
  { destruct Hn as [_ Hn]. pose proof (bpow_le 900 901 ltac:(lia)). lra. }
  pose proof (bpow_pos g). assert (0 <= IZR q) by (by apply IZR_le). destruct eps_eta_pos.
  eapply (near_intro _ v (IZR q * bpow g)); try done; [split; [nra|done]|].
  assert (bpow g <= IZR q * bpow g * eps + eta); [|lra]. assert (0 <= IZR q * bpow g * eps) by (apply Rmult_le_pos; nra).
  destruct Hq as [Hq%IZR_le|Hg%bpow_le].
  - rewrite <- (bpow_IZR 52) in Hq by lia. unfold eps. assert (Hone : bpow 52 * bpow (-52) = 1) by (rewrite <- bpow_add; done).
    pose proof (bpow_pos (-52)). assert (1 <= IZR q * bpow (-52)) by (rewrite <- Hone; apply Rmult_le_compat_r; lra). nra.
  - unfold eta. lra.
Qed.

(** ** Sums *)
Definition sumR (l : list float64) : R := foldr (λ x s, F2R x + s) 0 l.

Lemma sumR_app l l' : sumR (l ++ l') = sumR l + sumR l'.
Proof. induction l as [|x l IH]; simpl; [lra|]. rewrite IH. lra. Qed.

Lemma sumR_perm l l' : l ≡ₚ l' → sumR l = sumR l'.
Proof. induction 1; simpl; lra. Qed.

(** A term of a sum, away from underflow. *)
Definition term (x : float64) : Prop := nonneg x ∧ bpow (-899) <= F2R x.

Lemma sumR_nonneg l : Forall term l → 0 <= sumR l.
Proof. induction 1 as [|x l [[_ Hx] _] _ IH]; simpl; lra. Qed.

(** Adding [l] to an accumulator that is [S] up to [k] units, twice over. *)
Lemma fold_add_near l acc S k :
  nonneg acc → 0 <= S → Rabs (F2R acc - S) <= 2 * IZR k * unit * S → Forall term l → S + sumR l <= bpow 899 →
  (0 <= k)%Z → (k + Z.of_nat (length l) <= 1048576)%Z →
  let z := foldl fadd acc l in
  nonneg z ∧ Rabs (F2R z - (S + sumR l)) <= 2 * IZR (k + Z.of_nat (length l)) * unit * (S + sumR l).
Proof.
  revert acc S k. induction l as [|x l IH]; intros acc S k Ha HS Hk Hl Hb Hk0 Hn; cbv zeta.
  { simpl in *. rewrite Z.add_0_r, Rplus_0_r. by split. }
  inversion_clear Hl as [|? ? [Hx Hxlo] Hl']. pose proof (sumR_nonneg l Hl') as Hr.
  destruct unit_small_pos as [Hu0 Hu]. cbn [sumR foldr] in Hb. fold (sumR l) in Hb.
  assert (HkR : 0 <= IZR k <= 1048576) by (split; [by apply IZR_le|apply IZR_le; lia]).
  assert (Hku : 0 <= 2 * IZR k * unit <= 1) by nra.
  assert (HkS : 2 * IZR k * unit * S <= S) by nra. apply Rabs_le_inv in Hk.
  destruct Ha as [Ha Ha0]. destruct Hx as [Hxf Hx0].
  assert (Hnorm : normal (F2R acc + F2R x)).
  { pose proof (bpow_le (-900) (-899) ltac:(lia)). pose proof (bpow_succ 899) as H9. change (899 + 1)%Z with 900%Z in H9. split; lra. }
  destruct (fadd_near acc x (conj Ha Ha0) (conj Hxf Hx0) Hnorm) as [Hz Hze]. apply Rabs_le_inv in Hze.
  cbn [foldl sumR foldr]. fold (sumR l). replace (S + (F2R x + sumR l)) with (S + F2R x + sumR l) by lra.
  replace (k + Z.of_nat (length (x :: l)))%Z with (k + 1 + Z.of_nat (length l))%Z by (cbn [length]; lia).
  apply IH; [done|lra| |done|lra|lia|cbn [length] in Hn; lia].
  rewrite plus_IZR. assert (unit * F2R acc <= unit * (S + 2 * IZR k * unit * S)) by (apply Rmult_le_compat_l; lra).
  assert (unit * (2 * IZR k * unit * S) <= unit * S) by (apply Rmult_le_compat_l; lra).
  assert (0 <= 2 * IZR k * unit * F2R x) by (apply Rmult_le_pos; lra). assert (0 <= unit * F2R x) by (apply Rmult_le_pos; lra).
  apply Rabs_le. lra.
Qed.

Lemma sum_near l :
  Forall term l → sumR l <= bpow 899 → (Z.of_nat (length l) <= 1048576)%Z →
  let z := foldl fadd f0 l in
  nonneg z ∧ Rabs (F2R z - sumR l) <= 2 * IZR (Z.of_nat (length l)) * unit * sumR l.
Proof.
  intros Hl Hb Hn. pose proof (fold_add_near l f0 0 0) as H. rewrite Rplus_0_l, Z.add_0_l in H. apply H; [split; [done|simpl; lra]|lra| |done|done|done|done].
  simpl. rewrite Rminus_0_r, Rabs_R0. lra.
Qed.

(** ** Integers *)
Lemma shiftl_gt m e : F2R (S754_finite false m e) < IZR (Z.shiftl (Zpos m) e) + 1.
Proof.
  destruct (Z.le_gt_cases 0 e) as [He|He]; [rewrite F2R_shiftl by done; simpl signed; lra|].
  rewrite Z.shiftl_div_pow2 by lia. pose proof (Z.mul_succ_div_gt (Zpos m) (2 ^ - e) ltac:(apply Z.pow_pos_nonneg; lia)) as H.
  apply IZR_lt in H. rewrite mult_IZR, succ_IZR, <- bpow_IZR in H by lia. cbn [F2R signed].
  assert (Hone : bpow (- e) * bpow e = 1) by (rewrite <- bpow_add, Z.add_opp_diag_l; done). pose proof (bpow_pos e).
  apply (Rmult_lt_compat_r (bpow e)) in H; [|done]. replace (bpow (- e) * (IZR (Zpos m / 2 ^ (- e)) + 1) * bpow e)
    with ((bpow (- e) * bpow e) * (IZR (Zpos m / 2 ^ (- e)) + 1)) in H by ring. rewrite Hone in H. lra.
Qed.

Section ints.
Context {C : IntConv}.

Lemma int_of_floor x :
  nonneg x → F2R x < 2251799813685248 → (0 <= int_of x)%Z ∧ IZR (int_of x) <= F2R x < IZR (int_of x) + 1.
Proof.
  intros Hx Hlt. destruct (nonneg_cases x Hx) as [[s ->]|(m & e & ->)]; [simpl; split; [lia|lra]|].
  rewrite (int_of_shiftl m e 2251799813685247) by (unfold int_max; lia || lra).
  split; [by apply Z.shiftl_nonneg|]. split; [apply shiftl_le|apply shiftl_gt].
Qed.

Lemma int_of_of_int n : (0 <= n < 2251799813685248)%Z → int_of (of_int n) = n.
Proof.
  intros Hn. destruct (of_int_exact n) as [Hf Hv]; [lia|]. destruct (int_of_floor (of_int n) Hf) as [_ [H1 H2]].
  { rewrite Hv. apply IZR_lt. lia. }
  rewrite Hv in *. apply le_IZR in H1. rewrite <- plus_IZR in H2. apply lt_IZR in H2. lia.
Qed.

Lemma int_floor_spec x :
  nonneg x → F2R x < 2251799813685248 →
  let n := int_of (math_Floor x) in (0 <= n)%Z ∧ IZR n <= F2R x < IZR n + 1.
Proof.
  intros Hx Hlt. destruct (nonneg_cases x Hx) as [[s ->]|(m & e & ->)]; [simpl; split; [lia|lra]|].
  unfold math_Floor. destruct (Z.leb_spec 0 e) as [He|He]; [by apply int_of_floor|]. unfold floor_Z. simpl signed.
  pose proof (shiftl_range m e 2251799813685247 ltac:(lra)) as Hz. rewrite int_of_of_int by lia.
  split; [lia|]. split; [apply shiftl_le|apply shiftl_gt].
Qed.

Lemma F2R_double m e : F2R (S754_finite false m (e + 1)) = 2 * F2R (S754_finite false m e).
Proof. simpl. rewrite bpow_succ. ring. Qed.

Lemma int_round_spec x :
  nonneg x → F2R x < 1125899906842624 →
  let n := int_of (math_Round x) in (0 <= n)%Z ∧ IZR n - / 2 <= F2R x < IZR n + / 2.
Proof.
  intros Hx Hlt. cbv zeta. destruct (nonneg_cases x Hx) as [[s ->]|(m & e & ->)]; [simpl; split; [lia|lra]|].
  unfold math_Round. destruct (Z.leb_spec 0 e) as [He|He].
  { rewrite (int_of_shiftl m e 1125899906842623) by (unfold int_max; lia || lra).
    rewrite F2R_shiftl by done. simpl signed. split; [by apply Z.shiftl_nonneg|lra]. }
  pose proof (F2R_double m e) as Hd. pose proof (shiftl_le m (e + 1)) as H1. pose proof (shiftl_gt m (e + 1)) as H2.
  assert (H0 : (0 <= Z.shiftl (Zpos m) (e + 1))%Z) by (by apply Z.shiftl_nonneg).
  rewrite Z.shiftr_div_pow2 by lia. change (2 ^ 1)%Z with 2%Z. set (k := Z.shiftl (Zpos m) (e + 1)) in *. clearbody k.
  set (z := ((k + 1) / 2)%Z). assert (Hz : (2 * z <= k + 1 <= 2 * z + 1)%Z) 
    by (pose proof (Z.div_mod (k + 1) 2); pose proof (Z.mod_pos_bound (k + 1) 2); unfold z; lia).
  clearbody z.
  destruct Hz as [Hz1 Hz2]. pose proof (IZR_le _ _ Hz1) as Hr1. pose proof (IZR_le _ _ Hz2) as Hr2.
  rewrite plus_IZR, mult_IZR in Hr1. rewrite !plus_IZR, mult_IZR in Hr2.
  assert (Hzn : (0 <= z < 2251799813685248)%Z) by (split; [lia|apply lt_IZR; lra]).
  assert (Hint : int_of (if (z =? 0)%Z then S754_zero false else of_int z) = z).
  { destruct (Z.eqb_spec z 0) as [->|?]; [done|by apply int_of_of_int]. }
  rewrite Hint. split; [lia|lra].
Qed.
End ints.

(** ** Exact integers

    A rounding of an integer below [2^53], whatever mantissa and exponent it is
    given with, is that integer; so sums and differences of such are exact. *)
Lemma int_digits m e n :
  IZR (Zpos m) * bpow e = IZR n → (0 < n < 9007199254740992)%Z →
  let D := (Zpos (digits2_pos m) + e)%Z in (1 <= D <= 53)%Z ∧ IZR n < bpow D.
Proof.
  intros Hv Hn. cbv zeta. set (D := (Zpos (digits2_pos m) + e)%Z).
  destruct (Zdigits2_bounds (Zpos m) ltac:(lia)) as [H1 H2]. simpl Zdigits2 in *. apply IZR_le in H1. apply IZR_lt in H2.
  rewrite <- bpow_IZR in H1, H2 by lia. pose proof (bpow_pos e) as He.
  apply (Rmult_le_compat_r (bpow e)) in H1; [|lra]. apply (Rmult_lt_compat_r (bpow e)) in H2; [|lra].
  rewrite Hv, <- bpow_add in H1, H2. fold D in H2. replace (Zpos (digits2_pos m) - 1 + e)%Z with (D - 1)%Z in H1 by lia.
  assert (H53 : IZR n < bpow 53) by (rewrite bpow_IZR by lia; apply IZR_lt; lia). assert (1 <= IZR n) by (apply IZR_le; lia).
  split; [|done].
  split; [destruct (Z.le_gt_cases D 0) as [H0%bpow_le|?]; [change (bpow 0) with 1 in H0; lra|lia]|].
  destruct (Z.le_gt_cases 54 D) as [H0|?]; [|lia]. pose proof (bpow_le 53 (D - 1) ltac:(lia)). lra.
Qed.

(** Dropping the zeros of a scaled mantissa loses nothing. *)
Lemma shr_exact_scaled m e p f :
  (0 < p)%Z → Zpos m = (p * 2 ^ (f - e))%Z → (e < f)%Z → fexp 53 1024 (Zpos (digits2_pos m) + e) = f →
  ∃ r, shr_exp (Zpos m) e loc_Exact = (r, f) ∧ shr_m r = p ∧ exact_record r.
Proof.
  intros Hp Hm He Hf. pose proof (shr_fexp_spec (Zpos m) e loc_Exact ltac:(lia)) as Hs.
  assert (Hex : exact_record (shr_exp (Zpos m) e loc_Exact).1).
  { unfold shr_fexp, shr. simpl Zdigits2. rewrite Hf. destruct (f - e)%Z as [|q|q] eqn:Hq; [done| |done].
    cbn [fst]. apply (iter_shr_exact _ _ p); [lia|done|]. cbn [shr_record_of_loc shr_m]. done. }
  destruct (shr_exp (Zpos m) e loc_Exact) as [r e1]. destruct Hs as (He1 & Hr & _). simpl Zdigits2 in He1.
  rewrite Hf in He1. rewrite Z.max_r in He1 by lia. subst e1. exists r. split_and!; [done| |done].
  rewrite Hr, Hm. apply Z.div_mul. apply Z.pow_nonzero; lia.
Qed.

Lemma round_aux_int m e n :
  IZR (Zpos m) * bpow e = IZR n → (0 < n < 9007199254740992)%Z →
  let z := binary_round_aux 53 1024 false (Zpos m) e loc_Exact in nonneg z ∧ F2R z = IZR n.
Proof.
  intros Hv Hn. cbv zeta. destruct (int_digits m e n Hv Hn) as [HD HnD]. set (D := (Zpos (digits2_pos m) + e)%Z) in *.
  assert (Hf : fexp 53 1024 D = (D - 53)%Z) by (unfold fexp, emin; lia).
  assert (Hnn : ∀ p g, IZR (Zpos p) * bpow g = IZR n → nonneg (S754_finite false p g) ∧ F2R (S754_finite false p g) = IZR n).
  { intros p g Hp. split; [split; [done|]|]; simpl; rewrite Hp; [apply IZR_le; lia|done]. }
  destruct (Z.le_gt_cases (D - 53) e) as [He|He]; [rewrite round_aux_exact by (fold D; lia); by apply Hnn|].
  set (p := (n * 2 ^ (- (D - 53)))%Z).
  assert (Hp : (0 < p)%Z) by (unfold p; apply Z.mul_pos_pos; [lia|apply Z.pow_pos_nonneg; lia]).
  assert (Hpv : IZR p * bpow (D - 53) = IZR n).
  { unfold p. rewrite mult_IZR, <- bpow_IZR by lia. rewrite Rmult_assoc, <- bpow_add.
    replace (- (D - 53) + (D - 53))%Z with 0%Z by lia. change (bpow 0) with 1. lra. }
  assert (Hm : (Zpos m = p * 2 ^ (D - 53 - e))%Z).
  { apply eq_IZR. rewrite mult_IZR, <- bpow_IZR by lia. apply (Rmult_eq_reg_r (bpow e)); [|pose proof (bpow_pos e); lra].
    rewrite Hv, Rmult_assoc, <- bpow_add. by replace (D - 53 - e + e)%Z with (D - 53)%Z by lia. }
  destruct (shr_exact_scaled m e p (D - 53) Hp Hm He Hf) as (r & Hs & Hr & [E1 E2]). unfold binary_round_aux. rewrite Hs.
  destruct (round_even_le (shr_m r) (loc_of_shr_record r)) as [_ Hrd]. rewrite Hrd by (destruct r; simpl in *; by subst).
  rewrite Hr. clearbody p. destruct p as [|q|q]; [lia| |lia].
  assert (Hq : (Zpos q < 2 ^ 53)%Z).
  { apply lt_IZR. rewrite <- bpow_IZR by lia. apply (Rmult_lt_reg_r (bpow (D - 53))); [apply bpow_pos|].
    rewrite Hpv, <- bpow_add. by replace (53 + (D - 53))%Z with D by lia. }
  pose proof (digits_bound q 53 Hq ltac:(lia)) as Hd.
  rewrite shr_exact_noop by (unfold fexp, emin; lia). cbn [shr_record_of_loc shr_m].
  rewrite (proj2 (Z.leb_le (D - 53) (1024 - 53))) by lia. by apply Hnn.
Qed.

Lemma normalize_int x lo n s :
  IZR x * bpow lo = IZR n → (0 <= n < 9007199254740992)%Z →
  let z := binary_normalize 53 1024 x lo s in nonneg z ∧ F2R z = IZR n.
Proof.
  intros Hv Hn. cbv zeta. pose proof (bpow_pos lo) as Hlo. destruct x as [|p|p]; cbn [binary_normalize].
  - rewrite Rmult_0_l in Hv. split; [split; [done|simpl; lra]|done].
  - unfold binary_round. pose proof (shl_align_value p lo (fexp 53 1024 (Zpos (digits2_pos p) + lo))) as Ha.
    destruct (shl_align _ _ _) as [q g]. destruct Ha as [Hq _]. rewrite Hv in Hq.
    apply round_aux_int; [done|]. split; [|lia]. apply lt_IZR. rewrite <- Hv. assert (0 < IZR (Zpos p)) by (apply IZR_lt; lia). nra.
  - exfalso. assert (0 <= IZR n) by (apply IZR_le; lia). assert (IZR (Zneg p) <= -1) by (apply IZR_le; lia). nra.
Qed.

(** Floats that hold an integer. *)
Definition holds (x : float64) (n : Z) : Prop := nonneg x ∧ F2R x = IZR n.

Lemma holds_add a b i j : holds a i → holds b j → (i + j < 9007199254740992)%Z → holds (fadd a b) (i + j).
Proof.
  intros [Ha Ea] [Hb Eb] Hij. assert (0 <= i)%Z by (apply le_IZR; destruct Ha; lra). assert (0 <= j)%Z by (apply le_IZR; destruct Hb; lra).
  destruct (nonneg_cases a Ha) as [[s ->]|(m & e & ->)], (nonneg_cases b Hb) as [[t ->]|(n & f & ->)]; unfold holds; rewrite plus_IZR.
  - change (F2R (S754_zero s)) with 0 in Ea. change (F2R (S754_zero t)) with 0 in Eb. rewrite <- Ea, <- Eb.
    unfold nonneg. destruct s, t; simpl; repeat split; lra.
  - change (F2R (S754_zero s)) with 0 in Ea. rewrite <- Ea, Rplus_0_l. by split.
  - change (F2R (S754_zero t)) with 0 in Eb. rewrite <- Eb, Rplus_0_r. by split.
  - unfold fadd, SFadd. cbv zeta. set (lo := Z.min e f). rewrite <- plus_IZR. apply normalize_int; [|lia].
    rewrite !plus_IZR, Rmult_plus_distr_r, !signed_value by lia. by rewrite Ea, Eb.
Qed.

Lemma holds_sub a b i j : holds a i → holds b j → (j <= i < 9007199254740992)%Z → holds (fsub a b) (i - j).
Proof.
  intros [Ha Ea] [Hb Eb] Hij. assert (0 <= i)%Z by (apply le_IZR; destruct Ha; lra). assert (0 <= j)%Z by (apply le_IZR; destruct Hb; lra).
  destruct (nonneg_cases a Ha) as [[s ->]|(m & e & ->)], (nonneg_cases b Hb) as [[t ->]|(n & f & ->)]; unfold holds; rewrite minus_IZR.
  - change (F2R (S754_zero s)) with 0 in Ea. change (F2R (S754_zero t)) with 0 in Eb. rewrite <- Ea, <- Eb.
    unfold nonneg. destruct s, t; simpl; repeat split; lra.
  - exfalso. change (F2R (S754_zero s)) with 0 in Ea. destruct Hij as [Hij%IZR_le _]. pose proof (F2R_sign false n f). simpl in *. lra.
  - change (F2R (S754_zero t)) with 0 in Eb. rewrite <- Eb, Rminus_0_r. by split.
  - unfold fsub, SFsub. cbv zeta. set (lo := Z.min e f). rewrite <- minus_IZR. apply normalize_int; [|lia].
    rewrite !minus_IZR, Rmult_minus_distr_r, !signed_value by lia. by rewrite Ea, Eb.
Qed.

Lemma holds_of_int n : (0 <= n < 9007199254740992)%Z → holds (of_int n) n.
Proof. intros Hn. by apply of_int_exact. Qed.
