(* ===== verification/GoCmp.v ===== *)
(** * GoCmp: Go's package [cmp]

    [cmp.Compare] on [float64] and on strings, [cmp.Or], and what a comparison
    must satisfy to sort by; [slices.SortFunc] is then [sort.Slice] by "less". *)
From Stdlib Require Import ZArith Lia String SpecFloat Reals.
From stdpp Require Import base strings list sorting.
From S2P Require Import Prelude GoFloat.

(** [cmp.Compare] on floats: a NaN is less than any number, and equal to a NaN. *)
Definition cmp_float (x y : float64) : comparison :=
  if is_nan x then (if is_nan y then Eq else Lt)
  else if is_nan y then Gt
  else if flt x y then Lt else if flt y x then Gt else Eq.

(** [cmp.Or]: the first comparison that is not equal. *)
Definition cmp_Or (c d : comparison) : comparison := match c with Eq => d | _ => c end.

Definition less_by {A} (c : A → A → comparison) (a b : A) : bool := match c a b with Lt => true | _ => false end.

(** ** Comparisons that are total preorders *)
Record compares {A} (c : A → A → comparison) : Prop := {
  cmp_opp a b : c b a = CompOpp (c a b);
  cmp_trans a b d : c a b ≠ Gt → c b d ≠ Gt → c a d ≠ Gt }.

Lemma compares_lex {A} (c d : A → A → comparison) :
  compares c → compares d → compares (λ a b, cmp_Or (c a b) (d a b)).
Proof.
  intros [O1 T1] [O2 T2]. split.
  - intros a b. rewrite (O1 a b), (O2 a b). by destruct (c a b).
  - intros a b e H1 H2. assert (Hc : c a e ≠ Gt).
    { apply (T1 _ b); [by destruct (c a b)|by destruct (c b e)]. }
    assert (Heq : c a e = Eq → c a b = Eq ∧ c b e = Eq).
    { intros E. assert (c e a ≠ Gt) by (by rewrite (O1 a e), E).
      assert (c b a ≠ Gt) by (apply (T1 _ e); [by destruct (c b e)|done]).
      assert (c e b ≠ Gt) by (apply (T1 _ a); [done|by destruct (c a b)]).
      rewrite (O1 a b) in *. rewrite (O1 b e) in *. by destruct (c a b), (c b e). }
    destruct (c a e); simpl; [|done..]. destruct (Heq eq_refl) as [E1 E2]. rewrite E1, E2 in *. simpl in *. by apply (T2 _ b).
Qed.

Lemma compares_on {A B} (f : A → B) (c : B → B → comparison) : compares c → compares (λ a b, c (f a) (f b)).
Proof. intros [H1 H2]. split; [intros; apply H1|intros a b d; apply H2]. Qed.

Lemma compares_flip {A} (c : A → A → comparison) : compares c → compares (λ a b, c b a).
Proof. intros [H1 H2]. split; [intros; apply H1|]. intros a b d Hab Hbd. by apply (H2 _ b). Qed.

Lemma is_nan_number x : is_nan x = false → number x.
Proof. by destruct x. Qed.

Lemma compares_float : compares cmp_float.
Proof.
  split.
  - intros a b. unfold cmp_float. destruct (is_nan a) eqn:Na, (is_nan b) eqn:Nb; try done.
    apply is_nan_number in Na, Nb. destruct (flt a b) eqn:E1, (flt b a) eqn:E2; try done.
    by rewrite (flt_asym a b) in E2.
  - intros a b d. unfold cmp_float. destruct (is_nan a) eqn:Na, (is_nan b) eqn:Nb, (is_nan d) eqn:Nd; try done.
    apply is_nan_number in Na, Nb, Nd. intros H1 H2.
    assert (E1 : flt b a = false) by (destruct (flt a b) eqn:E; [by apply flt_asym|by destruct (flt b a)]).
    assert (E2 : flt d b = false) by (destruct (flt b d) eqn:E; [by apply flt_asym|by destruct (flt d b)]).
    rewrite (flt_false_trans a b d) by done. by destruct (flt a d).
Qed.

Lemma compares_string : compares String.compare.
Proof.
  split; [intros a b; apply String.compare_antisym|]. intros a b d.
  assert (Hle : ∀ x y, String.compare x y ≠ Gt ↔ str_lt y x = false).
  { intros x y. unfold str_lt, String.ltb. rewrite (String.compare_antisym y x). by destruct (String.compare x y). }
  rewrite !Hle. apply str_lt_false_trans.
Qed.

Lemma less_by_order {A} (c : A → A → comparison) :
  compares c →
  (∀ a b, less_by c a b = true → less_by c b a = false) ∧
  (∀ a b d, less_by c b a = false → less_by c d b = false → less_by c d a = false).
Proof.
  intros [Ho Ht]. unfold less_by. split.
  - intros a b. rewrite (Ho a b). by destruct (c a b).
  - intros a b d. rewrite (Ho a b), (Ho b d), (Ho a d). specialize (Ht a b d).
    destruct (c a b), (c b d), (c a d); try done; intros; exfalso; by apply Ht.
Qed.
