(* ===== verification/Heap.v ===== *)
(** * Heap: the priority queue of [container/heap]

    The standard library's binary heap, on the list its [Interface] keeps: [Push]
    appends and lets the new element rise, [Pop] swaps the root with the last
    element and lets it sink.  For an order [less] that compares like a total
    preorder, [Pop] returns an element no other is less than, and keeps the rest. *)
From Stdlib Require Import ZArith Lia.
From stdpp Require Import base list list_numbers.
From S2P Require Import Prelude.

Section heap.
Context {A : Type} (less : A → A → bool).

Definition swap (l : list A) (i j : nat) : list A :=
  match l !! i, l !! j with Some a, Some b => <[i := b]> (<[j := a]> l) | _, _ => l end.

(** [h.Less(i, j)]. *)
Definition less_at (l : list A) (i j : nat) : bool :=
  match l !! i, l !! j with Some a, Some b => less a b | _, _ => false end.

Definition parent (j : nat) : nat := (j - 1) / 2.

Fixpoint up (fuel : nat) (l : list A) (j : nat) : list A :=
  match fuel with
  | O => l
  | S fuel =>
      let i := parent j in
      if bool_decide (i = j) || negb (less_at l j i) then l else up fuel (swap l i j) i
  end.

(** The child of [i] that must not stay above it: the lesser of the two. *)
Definition lesser_child (l : list A) (i n : nat) : nat :=
  let j1 := (2 * i + 1)%nat in
  let j2 := (j1 + 1)%nat in
  if bool_decide (j2 < n)%nat && less_at l j2 j1 then j2 else j1.

Fixpoint down (fuel : nat) (l : list A) (i n : nat) : list A :=
  match fuel with
  | O => l
  | S fuel =>
      if bool_decide (n <= 2 * i + 1)%nat then l
      else
        let j := lesser_child l i n in
        if negb (less_at l j i) then l else down fuel (swap l i j) j n
  end.

Definition Push (l : list A) (x : A) : list A := up (length l) (l ++ [x]) (length l).

(** [Pop] of an empty heap is out of range. *)
Definition Pop (l : list A) : option (A * list A) :=
  match last (let n := (length l - 1)%nat in down (length l) (swap l 0 n) 0 n) with
  | None => None
  | Some x => Some (x, take (length l - 1) (let n := (length l - 1)%nat in down (length l) (swap l 0 n) 0 n))
  end.
End heap.

(** ** The shape of the tree *)
Lemma parent_lt j : (0 < j)%nat → (parent j < j)%nat.
Proof. intros. unfold parent. apply Nat.Div0.div_lt_upper_bound. lia. Qed.

Lemma parent_fix j : parent j = j → j = O.
Proof. intros H. destruct j; [done|]. pose proof (parent_lt (S j)). lia. Qed.

Lemma parent_child c i : (0 < c)%nat → parent c = i ↔ (c = 2 * i + 1 ∨ c = 2 * i + 2)%nat.
Proof.
  intros Hc. unfold parent. split.
  - intros <-. pose proof (Nat.div_mod_eq (c - 1) 2). pose proof (Nat.mod_upper_bound (c - 1) 2). lia.
  - intros [->| ->].
    + replace (2 * i + 1 - 1)%nat with (i * 2)%nat by lia. by apply Nat.div_mul.
    + replace (2 * i + 2 - 1)%nat with (1 + i * 2)%nat by lia. by rewrite Nat.div_add.
Qed.

Section swaps.
Context {A : Type}.
Implicit Types l : list A.

Lemma swap_length l i j : length (swap l i j) = length l.
Proof. unfold swap. destruct (l !! i), (l !! j); try done. by rewrite !length_insert. Qed.

Lemma swap_perm l i j : swap l i j ≡ₚ l.
Proof.
  unfold swap. destruct (l !! i) as [a|] eqn:Ei, (l !! j) as [b|] eqn:Ej; try done.
  destruct (decide (i = j)) as [<-|Hij].
  - rewrite Ei in Ej. injection Ej as <-. by rewrite list_insert_insert_eq, list_insert_id.
  - apply (Permutation_inj (<[i := b]> (<[j := a]> l)) l). split; [by rewrite !length_insert|].
    exists (λ k, if decide (k = i) then j else if decide (k = j) then i else k). split.
    + intros x y. repeat case_decide; congruence.
    + intros k. repeat case_decide; subst; [|rewrite list_lookup_insert_ne by done|].
      * rewrite list_lookup_insert_eq; [done|]. rewrite length_insert. by eapply lookup_lt_Some.
      * rewrite list_lookup_insert_eq; [done|]. by eapply lookup_lt_Some.
      * by rewrite !list_lookup_insert_ne by done.
Qed.

Lemma swap_lookup l i j k :
  (i < length l)%nat → (j < length l)%nat →
  swap l i j !! k = if decide (k = i) then l !! j else if decide (k = j) then l !! i else l !! k.
Proof.
  intros [a Ha]%lookup_lt_is_Some [b Hb]%lookup_lt_is_Some. unfold swap. rewrite Ha, Hb.
  repeat case_decide; subst.
  - rewrite list_lookup_insert_eq; [done|]. rewrite length_insert. by eapply lookup_lt_Some.
  - rewrite list_lookup_insert_ne by done. rewrite list_lookup_insert_eq; [done|]. by eapply lookup_lt_Some.
  - by rewrite !list_lookup_insert_ne by done.
Qed.
End swaps.

(** ** The order *)

(** [less] compares like a total preorder: it is asymmetric, and "not less" is
    transitive. *)
Class PreorderLess {A : Type} (less : A → A → bool) := {
  less_asym a b : less a b = true → less b a = false;
  less_ntrans a b c : less a b = false → less b c = false → less a c = false;
}.

Section order.
Context {A : Type} (less : A → A → bool) `{!PreorderLess less}.
Implicit Types l : list A.

(** The element at [i] is not greater than the one at [c]. *)
Definition above l (i c : nat) : Prop := ∀ a b, l !! i = Some a → l !! c = Some b → less b a = false.

Definition heap_at (n : nat) l : Prop := ∀ c, (0 < c < n)%nat → above l (parent c) c.
Definition is_heap l : Prop := heap_at (length l) l.

Lemma above_trans l i j k : (j < length l)%nat → above l i j → above l j k → above l i k.
Proof. intros [b Hb]%lookup_lt_is_Some H1 H2 a c Ha Hc. eapply less_ntrans; [by apply (H2 b c)|by apply (H1 a b)]. Qed.

Definition swapped (i j k : nat) : nat := if decide (k = i) then j else if decide (k = j) then i else k.

Lemma above_swap l i j x y :
  (i < length l)%nat → (j < length l)%nat → above l (swapped i j x) (swapped i j y) → above (swap l i j) x y.
Proof.
  intros Hi Hj H a b. rewrite !swap_lookup by done. intros Ha Hb. apply (H a b); unfold swapped; by repeat case_decide.
Qed.

Lemma less_at_above l i j : less_at less l i j = false → above l j i.
Proof. unfold less_at. intros H a b Ha Hb. by rewrite Ha, Hb in H. Qed.

Lemma less_at_below l i j : less_at less l i j = true → above l i j.
Proof. unfold less_at. intros H a b Ha Hb. rewrite Ha, Hb in H. by apply less_asym. Qed.

Ltac swaps := apply above_swap; [lia|lia|unfold swapped; repeat (case_decide; try lia)].

Lemma above_refl l i : above l i i.
Proof.
  intros a b Ha Hb. rewrite Ha in Hb. injection Hb as <-. destruct (less a a) eqn:E; [|done]. by rewrite (less_asym _ _ E) in E.
Qed.

(** *** Rising *)

(** All in order but [j] under its parent; [j]'s children stand under that parent. *)
Definition rising l (j : nat) : Prop :=
  (∀ c, (0 < c < length l)%nat → c ≠ j → above l (parent c) c) ∧
  (∀ c, (0 < c < length l)%nat → parent c = j → (0 < j)%nat → above l (parent j) c).

Lemma rising_step l j :
  (0 < j < length l)%nat → less_at less l j (parent j) = true → rising l j → rising (swap l (parent j) j) (parent j).
Proof.
  intros Hj Hl [H1 H2]. pose proof (parent_lt j ltac:(lia)) as Hp. pose proof (less_at_below _ _ _ Hl) as Hb.
  split; intros c; rewrite swap_length; intros Hc Hne.
  - pose proof (parent_lt c ltac:(lia)). destruct (decide (c = j)) as [->|Hcj]; [swaps; exact Hb|].
    destruct (decide (parent c = parent j)) as [E|E].
    { rewrite E. swaps. apply (above_trans _ _ (parent j)); [lia|done|]. rewrite <- E. by apply H1. }
    destruct (decide (parent c = j)) as [E'|E']; [rewrite E'; swaps; by apply H2; [|done|lia]|].
    swaps. by apply H1.
  - intros Hp0. pose proof (parent_lt (parent j) Hp0).
    assert (Hup : above l (parent (parent j)) (parent j)) by (apply H1; lia).
    destruct (decide (c = j)) as [->|Hcj]; [swaps; exact Hup|].
    assert (c ≠ parent j) by (intros ->; lia). swaps.
    apply (above_trans _ _ (parent j)); [lia|done|]. rewrite <- Hne. by apply H1.
Qed.

Lemma up_perm fuel l j : up less fuel l j ≡ₚ l.
Proof.
  revert l j. induction fuel as [|fuel IH]; intros l j; [done|]. cbn [up].
  destruct (_ || _); [done|]. by rewrite IH, swap_perm.
Qed.

Lemma up_heap fuel l j : (j <= fuel)%nat → (j < length l)%nat → rising l j → is_heap (up less fuel l j).
Proof.
  revert l j. induction fuel as [|fuel IH]; intros l j Hf Hj Hr; cbn [up].
  { intros c Hc. apply Hr; lia. }
  destruct (decide (parent j = j)) as [E|E].
  { rewrite bool_decide_true by done. simpl. intros c Hc. apply Hr; [done|]. pose proof (parent_fix _ E). lia. }
  rewrite bool_decide_false by done. simpl.
  assert (0 < j)%nat by (destruct j; [done|lia]). pose proof (parent_lt j ltac:(lia)).
  destruct (less_at less l j (parent j)) eqn:Hl; simpl.
  - apply IH; [lia|rewrite swap_length; lia|]. by apply rising_step.
  - intros c Hc. destruct (decide (c = j)) as [->|]; [by apply less_at_above|by apply Hr].
Qed.

(** *** Sinking *)
Definition sinking (n : nat) l (i : nat) : Prop :=
  (∀ c, (0 < c < n)%nat → parent c ≠ i → above l (parent c) c) ∧
  (∀ c, (0 < c < n)%nat → parent c = i → (0 < i)%nat → above l (parent i) c).

Lemma lesser_child_spec l i n :
  (n <= length l)%nat → (2 * i + 1 < n)%nat →
  let j := lesser_child less l i n in
  (i < j < n)%nat ∧ parent j = i ∧ ∀ c, (0 < c < n)%nat → parent c = i → above l j c.
Proof.
  intros Hn Hi. unfold lesser_child. cbv zeta. set (j1 := (2 * i + 1)%nat). set (j2 := (j1 + 1)%nat).
  assert (P1 : parent j1 = i) by (apply parent_child; lia). assert (P2 : parent j2 = i) by (apply parent_child; lia).
  assert (Hc' : ∀ c, (0 < c < n)%nat → parent c = i → c = j1 ∨ c = j2) by (intros c Hc Hp; apply parent_child in Hp; lia).
  destruct (decide (j2 < n)%nat) as [H2|H2].
  - rewrite bool_decide_true by done. simpl. destruct (less_at less l j2 j1) eqn:Hl;
      (split; [lia|]; split; [done|]); intros c Hc Hp; destruct (Hc' c Hc Hp) as [->| ->];
      auto using above_refl, less_at_below, less_at_above.
  - rewrite bool_decide_false by done. simpl. split; [lia|]. split; [done|].
    intros c Hc Hp. destruct (Hc' c Hc Hp) as [->| ->]; [apply above_refl|lia].
Qed.

Lemma sinking_step n l i j :
  (n <= length l)%nat → (i < j < n)%nat → parent j = i → (∀ c, (0 < c < n)%nat → parent c = i → above l j c) →
  less_at less l j i = true → sinking n l i → sinking n (swap l i j) j.
Proof.
  intros Hn Hij Hp Hlow Hl [H1 H2]. pose proof (less_at_below _ _ _ Hl) as Hb. split; intros c Hc Hne.
  - pose proof (parent_lt c ltac:(lia)). destruct (decide (parent c = i)) as [E|E].
    { rewrite E. destruct (decide (c = j)) as [->|]; swaps; auto. }
    destruct (decide (c = i)) as [->|]; [swaps; apply H2; auto; lia|].
    assert (c ≠ j) by (intros ->; lia). swaps. auto.
  - intros _. pose proof (parent_lt c ltac:(lia)). rewrite Hp. swaps. rewrite <- Hne. apply H1; [done|lia].
Qed.

Lemma down_perm fuel l i n : down less fuel l i n ≡ₚ l.
Proof.
  revert l i. induction fuel as [|fuel IH]; intros l i; [done|]. cbn [down].
  destruct (bool_decide _); [done|]. destruct (negb _); [done|]. by rewrite IH, swap_perm.
Qed.

Lemma down_heap fuel l i n :
  (n <= length l)%nat → (n <= i + fuel)%nat → sinking n l i → heap_at n (down less fuel l i n).
Proof.
  revert l i. induction fuel as [|fuel IH]; intros l i Hn Hf Hs; cbn [down].
  { intros c Hc. apply Hs; [done|]. pose proof (parent_lt c ltac:(lia)). intros E.
    apply parent_child in E; lia. }
  case_bool_decide as Hi.
  { intros c Hc. apply Hs; [done|]. intros E. apply parent_child in E; lia. }
  destruct (lesser_child_spec l i n Hn ltac:(lia)) as (Hj & Hp & Hlow). set (j := lesser_child less l i n) in *.
  destruct (less_at less l j i) eqn:Hl; simpl.
  - apply IH; [by rewrite swap_length|lia|]. by apply sinking_step.
  - intros c Hc. destruct (decide (parent c = i)) as [E|E]; [|by apply Hs].
    rewrite E. apply (above_trans _ _ j); [lia|by apply less_at_above|by apply Hlow].
Qed.

(** What lies past [n] stays where it is. *)
Lemma down_past fuel l i n k : (n <= length l)%nat → (i < n)%nat → (n <= k)%nat → down less fuel l i n !! k = l !! k.
Proof.
  revert l i. induction fuel as [|fuel IH]; intros l i Hn Hi Hk; cbn [down]; [done|].
  case_bool_decide; [done|]. destruct (lesser_child_spec l i n Hn ltac:(lia)) as (Hj & _). set (j := lesser_child less l i n) in *.
  destruct (negb _); [done|]. rewrite IH by (rewrite ?swap_length; lia). rewrite swap_lookup by lia.
  by repeat (case_decide; [lia|]).
Qed.

Lemma root_minimal l c : is_heap l → (c < length l)%nat → above l 0 c.
Proof.
  intros Hh. induction c as [c IH] using lt_wf_ind. intros Hc. destruct (decide (c = O)) as [->|]; [apply above_refl|].
  pose proof (parent_lt c ltac:(lia)). apply (above_trans _ _ (parent c)); [lia|apply IH; lia|apply Hh; lia].
Qed.

(** ** Push and Pop *)
Lemma Push_perm l x : Push less l x ≡ₚ x :: l.
Proof. unfold Push. by rewrite up_perm, Permutation_app_comm. Qed.

Lemma Push_heap l x : is_heap l → is_heap (Push less l x).
Proof.
  intros Hh. apply up_heap; rewrite ?length_app; simpl; [lia|lia|]. split; intros c; rewrite length_app; simpl; intros Hc Hne.
  - pose proof (parent_lt c ltac:(lia)). intros a b. rewrite !lookup_app_l by lia. apply Hh. lia.
  - pose proof (parent_lt c ltac:(lia)). lia.
Qed.

Lemma Pop_spec l :
  is_heap l → l ≠ [] →
  ∃ x l', Pop less l = Some (x, l') ∧ l ≡ₚ x :: l' ∧ is_heap l' ∧ ∀ y, y ∈ l → less y x = false.
Proof.
  intros Hh Hne. destruct l as [|x l0]; [done|]. clear Hne. set (l := x :: l0) in *.
  set (n := (length l - 1)%nat). set (d := down less (length l) (swap l 0 n) 0 n).
  assert (Hlen : (n < length l)%nat) by (subst n l; simpl; lia).
  assert (Hd : d ≡ₚ l) by (unfold d; by rewrite down_perm, swap_perm).
  assert (Hdl : length d = length l) by (by rewrite Hd).
  assert (Hdn : d !! n = Some x).
  { unfold d. destruct (decide (n = O)) as [E|E].
    - rewrite E. destruct (length l) eqn:El; [lia|]. cbn [down]. rewrite bool_decide_true by lia.
      rewrite swap_lookup, decide_True by lia. done.
    - rewrite down_past by (rewrite ?swap_length; lia). rewrite swap_lookup, decide_False, decide_True by lia. done. }
  assert (Hheap : heap_at n d).
  { apply down_heap; [rewrite swap_length; lia|lia|]. split; intros c Hc Hp; [|lia].
    pose proof (parent_lt c ltac:(lia)). apply above_swap; [lia|lia|]. unfold swapped. repeat (case_decide; try lia). apply Hh. lia. }
  assert (Hsplit : d = take n d ++ [x]).
  { rewrite <- (take_drop n d) at 1. f_equal. rewrite (drop_S _ x) by done. by rewrite drop_ge by lia. }
  exists x, (take n d). split_and!.
  - unfold Pop. fold n. fold d. rewrite Hsplit at 1. by rewrite last_snoc.
  - rewrite <- Hd. rewrite Hsplit at 1. by rewrite Permutation_app_comm.
  - intros c Hc a b. rewrite length_take in Hc. pose proof (parent_lt c ltac:(lia)).
    rewrite !lookup_take_lt by lia. apply Hheap. lia.
  - intros y [c Hc]%list_elem_of_lookup. apply (root_minimal l c Hh); [by eapply lookup_lt_Some|done|done].
Qed.

Lemma nil_heap : is_heap [].
Proof. intros c Hc. simpl in Hc. lia. Qed.
End order.
