(* ===== verification/Domain.v ===== *)
(** * The data the engine and the optimizers share

    The types of [internal/domain] the optimizers, the enforcer and the limit
    attribution read and write: a variant's discovery metadata, its replica
    state, the analyzer's capacity signal and the decision the pipeline passes
    on.  Of each struct the record has the fields that code uses; the others are
    carried along untouched. *)
From Stdlib Require Import ZArith Lia String Ascii SpecFloat.
From stdpp Require Import base gmap strings list.
From S2P Require Import Prelude NodeView GoFloat.

Definition RoleBoth : string := "both".
Definition RolePrefill : string := "prefill".
Definition RoleDecode : string := "decode".

(** An unset role is [RoleBoth]. *)
Definition canonical_role (r : string) : string := if String.eqb r "" then RoleBoth else r.

Definition ReasonNoData : string := "no-data".
Definition ReasonError : string := "error".

(** ** Variants *)

(** Identity, cost and accelerator, from discovery. *)
Record VariantMetadata := MkMetadata {
  md_VariantName : string; md_Role : string; md_Cost : float64; md_AcceleratorName : string }.

(** What is known of a variant's replicas, and the shape of one. *)
Record VariantReplicaState := MkReplicaState {
  st_VariantName : string; st_CurrentReplicas : Z; st_PodGPUs : list Z;
  st_Tolerations : list Toleration; st_TopologyKey : string; st_Placements : list PodPlacement;
  st_GPUsPerReplica : Z; st_Role : string; st_MinReplicas : option Z; st_MaxReplicas : option Z }.

(** The zero value a Go map read returns for a variant it does not hold. *)
Definition zero_state : VariantReplicaState := MkReplicaState "" 0 [] [] "" [] 0 "" None None.

(** ** The analyzer's signal *)
Record VariantCapacity := MkVariantCapacity {
  vc_VariantName : string; vc_Role : string; vc_PerReplicaCapacity : float64; vc_Reason : string;
  vc_TotalDemand : float64; vc_Utilization : float64 }.

Definition zero_capacity : VariantCapacity := MkVariantCapacity "" "" f0 "" f0 f0.

Record RoleCapacity := MkRoleCapacity {
  rc_TotalSupply : float64; rc_TotalDemand : float64;
  rc_RequiredCapacity : float64; rc_SpareCapacity : float64 }.

Record AnalyzerResult := MkAnalyzerResult {
  VariantCapacities : list VariantCapacity; ar_TotalDemand : float64 }.

(** ** Decisions *)
Inductive SaturationAction := ActionScaleUp | ActionScaleDown | ActionNoChange.

Definition action_text (a : SaturationAction) : string :=
  match a with
  | ActionScaleUp => "scale-up" | ActionScaleDown => "scale-down" | ActionNoChange => "no-change"
  end.

Definition DecisionReasonV2 : string := "V2".

(** [domain.DemandUnpriced], -1.0. *)
Definition DemandUnpriced : float64 := S754_finite true 4503599627370496 (-52).

Record VariantDecision := MkVariantDecision {
  VariantName : string; dec_Namespace : string; ModelID : string; dec_AcceleratorName : string;
  Cost : float64; dec_Role : string;
  CurrentReplicas : Z; TargetReplicas : Z; dec_GPUsPerReplica : Z; GPUsAllocated : Z;
  dec_MinReplicas : option Z; dec_MaxReplicas : option Z;
  dec_Action : SaturationAction; decisionReason : string; reason : string;
  dec_Utilization : float64; dec_RequiredCapacity : float64; dec_SpareCapacity : float64;
  dec_TotalDemand : float64; dec_PerReplicaCapacity : float64; dec_ScaleUpThreshold : float64;
  WasLimited : bool; LimitedBy : string; LimitedByAlso : list string }.

Definition SetDecisionReason (d : VariantDecision) (a : SaturationAction) (r detail : string)
  : VariantDecision :=
  MkVariantDecision (VariantName d) (dec_Namespace d) (ModelID d) (dec_AcceleratorName d) (Cost d)
    (dec_Role d) (CurrentReplicas d) (TargetReplicas d) (dec_GPUsPerReplica d) (GPUsAllocated d)
    (dec_MinReplicas d) (dec_MaxReplicas d) a r detail (dec_Utilization d) (dec_RequiredCapacity d)
    (dec_SpareCapacity d) (dec_TotalDemand d) (dec_PerReplicaCapacity d) (dec_ScaleUpThreshold d)
    (WasLimited d) (LimitedBy d) (LimitedByAlso d).

Definition set_target (d : VariantDecision) (n : Z) : VariantDecision :=
  MkVariantDecision (VariantName d) (dec_Namespace d) (ModelID d) (dec_AcceleratorName d) (Cost d)
    (dec_Role d) (CurrentReplicas d) n (dec_GPUsPerReplica d) (GPUsAllocated d)
    (dec_MinReplicas d) (dec_MaxReplicas d) (dec_Action d) (decisionReason d) (reason d)
    (dec_Utilization d) (dec_RequiredCapacity d)
    (dec_SpareCapacity d) (dec_TotalDemand d) (dec_PerReplicaCapacity d) (dec_ScaleUpThreshold d)
    (WasLimited d) (LimitedBy d) (LimitedByAlso d).

Definition set_limited (d : VariantDecision) (was : bool) (by_ : string) (also : list string)
  : VariantDecision :=
  MkVariantDecision (VariantName d) (dec_Namespace d) (ModelID d) (dec_AcceleratorName d) (Cost d)
    (dec_Role d) (CurrentReplicas d) (TargetReplicas d) (dec_GPUsPerReplica d) (GPUsAllocated d)
    (dec_MinReplicas d) (dec_MaxReplicas d) (dec_Action d) (decisionReason d) (reason d)
    (dec_Utilization d) (dec_RequiredCapacity d)
    (dec_SpareCapacity d) (dec_TotalDemand d) (dec_PerReplicaCapacity d) (dec_ScaleUpThreshold d)
    was by_ also.
