(* ===== verification/BorrowPools.v ===== *)
(** * Shared pools of the cohorts

    The model of the cohorts' free GPUs in [borrow_constraints.go] of
    [internal/engines/allocation], with [LenderState] and [Reclaims] of [internal/kueue]:
    what a model may draw on a pool ([drawable]) and the merge of two providers' reads of
    one pool ([mergeChunk]).  Priorities and counts are plain integers; a priority that
    was not read is [None].

    Theorems: the merge takes the cautious side of both reads ([cautious], a preorder), so
    no model may draw more on the merged pool than on either. *)
From Stdlib Require Import ZArith Lia String Ascii.
From stdpp Require Import base gmap strings list sorting fin_maps.
From S2P Require Import Prelude Accelerator NodeView.
Open Scope Z_scope.

(** ** Lenders *)
Definition ReclaimAny : string := "Any".
Definition ReclaimLowerPriority : string := "LowerPriority".
Definition PriorityClassNone : string := "none".

Definition Reclaims (policy : string) (lender borrower : option Z) : bool :=
  if String.eqb policy ReclaimAny then true
  else if String.eqb policy ReclaimLowerPriority then
    match lender, borrower with Some l, Some b => b <? l | _, _ => false end
  else false.

Record LenderState := MkLender {
  l_Queue : string; l_Waiting : bool; l_Reclaim : string; l_Unused : Z; l_Priority : option Z; l_Kept : Z; l_PendingGPUs : Z;
  l_PendingPriority : option Z; l_PendingSince : Z }.

Record PriorityLend := MkLend { pl_Queue : string; pl_Below : Z; pl_GPUs : Z }.

(** ** Pools *)
Record SharedPoolChunk := MkChunk {
  ch_Cohort : string; ch_Flavor : string; ch_Resource : string; ch_Placement : FlavorPlacement; ch_Free : Z;
  ch_Lenders : list LenderState; ch_ReadAt : Z; ch_Stale : bool; ch_PendingGPUs : Z; ch_CoFree : gmap string Z;
  ch_CoUnbound : list string; ch_Restricted : list PriorityLend; ch_ClassPriority : gmap string Z; ch_Borrowed : Z;
  ch_BorrowerPriority : option Z; ch_BorrowerLowest : option Z; ch_EvictingGPUs : Z; ch_EvictionsRead : bool;
  ch_StuckEvictingGPUs : Z; ch_ReleaseToNonReclaiming : bool; ch_RawFree : Z; ch_restrictedClosed : bool }.

Definition chunk_key (c : SharedPoolChunk) : string := ch_Cohort c +:+ "/" +:+ ch_Flavor c +:+ "/" +:+ ch_Resource c.

Definition serves (c : SharedPoolChunk) (acc : string) : bool :=
  String.eqb (AcceleratorType (ch_Placement c)) "" || SameName (AcceleratorType (ch_Placement c)) acc.

Definition heldAbove (c : SharedPoolChunk) (r : PriorityLend) : bool :=
  if ch_Borrowed c <=? 0 then false
  else match ch_BorrowerPriority c with
       | None => true
       | Some p => negb (Reclaims ReclaimLowerPriority (Some (pl_Below r)) (Some p))
       end.

(** The priority of a model's class, when it is known. *)
Definition class_priority (c : SharedPoolChunk) (class : string) (fallback : option Z) : option Z :=
  let prio := ch_ClassPriority c !! class in
  if String.eqb class PriorityClassNone then
    match fallback with
    | Some f => Some (match prio with Some p => Z.max p f | None => f end)
    | None => prio
    end
  else prio.

(** Whether the GPUs a restricted lender lends are out of reach. *)
Definition out_of_reach (c : SharedPoolChunk) (prio : option Z) (r : PriorityLend) : bool :=
  ch_restrictedClosed c || heldAbove c r ||
  match prio with Some p => negb (Reclaims ReclaimLowerPriority (Some (pl_Below r)) (Some p)) | None => true end.

Definition drawable (c : SharedPoolChunk) (class : string) (fallback : option Z) : Z :=
  let prio := class_priority c class fallback in
  Z.max 0 (foldl (λ free r, if out_of_reach c prio r then free - pl_GPUs r else free) (ch_Free c) (ch_Restricted c)).

(** ** The merge of two reads *)

(** The first entry that matches is changed; a new one goes last. *)
Fixpoint upsert {A} (same : A → bool) (f : A → A) (x : A) (l : list A) : list A :=
  match l with
  | [] => [x]
  | y :: l => if same y then f y :: l else y :: upsert same f x l
  end.

(** The larger of two priorities, one that was read before one that was not. *)
Definition higher (a b : option Z) : option Z :=
  match a, b with
  | Some x, Some y => if x <? y then b else a
  | None, _ => b
  | _, None => a
  end.

Definition lower (a b : option Z) : option Z :=
  match a, b with
  | Some x, Some y => if y <? x then b else a
  | None, _ => b
  | _, None => a
  end.

Definition merge_lender (o l : LenderState) : LenderState :=
  MkLender (l_Queue o) (l_Waiting o || l_Waiting l) (l_Reclaim o) (l_Unused o) (l_Priority o) (Z.max (l_Kept o) (l_Kept l))
    (Z.min (l_PendingGPUs o) (l_PendingGPUs l)) (higher (l_PendingPriority o) (l_PendingPriority l))
    (if l_PendingSince o <? l_PendingSince l then l_PendingSince l else l_PendingSince o).

Definition merge_lenders (prev p : list LenderState) : list LenderState :=
  sort_stable (λ a b, str_le (l_Queue a) (l_Queue b))
    (foldl (λ ls l, upsert (λ o, String.eqb (l_Queue o) (l_Queue l)) (λ o, merge_lender o l) l ls) prev p).

Definition merge_lend (o r : PriorityLend) : PriorityLend := MkLend (pl_Queue o) (Z.min (pl_Below o) (pl_Below r)) (Z.max (pl_GPUs o) (pl_GPUs r)).

Definition merge_restricted (prev p : list PriorityLend) : list PriorityLend :=
  foldl (λ rs r, upsert (λ o, String.eqb (pl_Queue o) (pl_Queue r)) (λ o, merge_lend o r) r rs) prev p.

Definition unread (borrowed : Z) (prio : option Z) : bool := (0 <? borrowed) && negb (bool_decide (is_Some prio)).

Definition mergeChunk (prev p : SharedPoolChunk) : SharedPoolChunk :=
  MkChunk (ch_Cohort prev) (ch_Flavor prev) (ch_Resource prev) (ch_Placement prev) (Z.min (ch_Free prev) (ch_Free p))
    (merge_lenders (ch_Lenders prev) (ch_Lenders p))
    (if negb (ch_ReadAt p =? 0) && ((ch_ReadAt prev =? 0) || (ch_ReadAt p <? ch_ReadAt prev)) then ch_ReadAt p else ch_ReadAt prev)
    (ch_Stale prev || ch_Stale p) (Z.max (ch_PendingGPUs prev) (ch_PendingGPUs p))
    (union_with (λ have n, Some (Z.min have n)) (ch_CoFree prev) (ch_CoFree p))
    (sort_strings (foldl (λ out res, if bool_decide (res ∈ out) then out else out ++ [res]) (ch_CoUnbound prev) (ch_CoUnbound p)))
    (merge_restricted (ch_Restricted prev) (ch_Restricted p))
    (union_with (λ have n, Some (Z.max have n)) (ch_ClassPriority prev) (ch_ClassPriority p))
    (Z.max (ch_Borrowed prev) (ch_Borrowed p))
    (if unread (ch_Borrowed prev) (ch_BorrowerPriority prev) || unread (ch_Borrowed p) (ch_BorrowerPriority p) then None
     else higher (ch_BorrowerPriority prev) (ch_BorrowerPriority p))
    (if unread (ch_Borrowed prev) (ch_BorrowerLowest prev) || unread (ch_Borrowed p) (ch_BorrowerLowest p) then None
     else lower (ch_BorrowerLowest prev) (ch_BorrowerLowest p))
    (Z.max (ch_EvictingGPUs prev) (ch_EvictingGPUs p)) (ch_EvictionsRead prev && ch_EvictionsRead p)
    (Z.max (ch_StuckEvictingGPUs prev) (ch_StuckEvictingGPUs p)) (ch_ReleaseToNonReclaiming prev && ch_ReleaseToNonReclaiming p)
    (Z.min (ch_RawFree prev) (ch_RawFree p)) (ch_restrictedClosed prev || ch_restrictedClosed p).

(** The pools of a list of reads, one per key. *)
Definition add_chunk (by_key : gmap string SharedPoolChunk) (p : SharedPoolChunk) : gmap string SharedPoolChunk :=
  <[chunk_key p := match by_key !! chunk_key p with Some prev => mergeChunk prev p | None => p end]> by_key.

(** By cohort, flavor and resource. *)
Definition chunk_before (a b : SharedPoolChunk) : bool :=
  match String.compare (ch_Cohort a) (ch_Cohort b) with
  | Lt => true
  | Gt => false
  | Eq => match String.compare (ch_Flavor a) (ch_Flavor b) with
          | Lt => true
          | Gt => false
          | Eq => str_le (ch_Resource a) (ch_Resource b)
          end
  end.

Definition merge_chunks (reads : list SharedPoolChunk) : list SharedPoolChunk :=
  sort_stable chunk_before (map_to_list (foldl add_chunk ∅ reads)).*2.

(** ** Co-resources *)
Definition tighterCo (a b : gmap string Z) (union_ : bool) : gmap string Z :=
  merge (λ x y, match x, y with
                | Some n, Some m => Some (Z.min n m)
                | Some n, None => if union_ then Some n else None
                | None, Some m => if union_ then Some m else None
                | None, None => None
                end) a b.

(** ** The cautious side *)

(** Borrowing read at a priority: [m] holds it at one at least as high, or does not
    know. *)
Definition held_as_high (m p : SharedPoolChunk) : Prop :=
  0 < ch_Borrowed p → match ch_BorrowerPriority m with None => True | Some y => ∃ x, ch_BorrowerPriority p = Some x ∧ x ≤ y end.

(** [m] is at least as cautious as [p]. *)
Record cautious (m p : SharedPoolChunk) : Prop := {
  ca_Free : ch_Free m ≤ ch_Free p;
  ca_RawFree : ch_RawFree m ≤ ch_RawFree p;
  ca_Pending : ch_PendingGPUs p ≤ ch_PendingGPUs m;
  ca_Borrowed : ch_Borrowed p ≤ ch_Borrowed m;
  ca_Held : held_as_high m p;
  ca_Stale : ch_Stale p = true → ch_Stale m = true;
  ca_Closed : ch_restrictedClosed p = true → ch_restrictedClosed m = true;
  ca_Restricted : ∀ r, r ∈ ch_Restricted p → ∃ r', r' ∈ ch_Restricted m ∧ pl_Queue r' = pl_Queue r ∧
                    pl_GPUs r ≤ pl_GPUs r' ∧ pl_Below r' ≤ pl_Below r;
  ca_Class : ∀ class n, ch_ClassPriority p !! class = Some n → ∃ n', ch_ClassPriority m !! class = Some n' ∧ n ≤ n';
  ca_Lenders : ∀ l, l ∈ ch_Lenders p → ∃ l', l' ∈ ch_Lenders m ∧ l_Queue l' = l_Queue l ∧ (l_Waiting l = true → l_Waiting l' = true) }.

#[export] Instance cautious_preorder : PreOrder cautious.
Proof.
  split.
  - intros p. split; [lia..| |done|done| | |].
    + intros H. unfold held_as_high. destruct (ch_BorrowerPriority p) as [x|]; [by exists x|done].
    + intros r Hr. exists r. split_and!; [done..|lia|lia].
    + intros class n Hn. exists n. split; [done|lia].
    + intros l Hl. by exists l.
  - intros a b p [] []. split; [lia..| |auto|auto| | |].
    + intros Hp. specialize (ca_Held1 Hp). specialize (ca_Held0 ltac:(lia)). destruct (ch_BorrowerPriority a) as [z|]; [|done].
      destruct ca_Held0 as (y & Hy & ?). rewrite Hy in ca_Held1. destruct ca_Held1 as (x & ? & ?). exists x. split; [done|lia].
    + intros r (r1 & H1 & ? & ? & ?)%ca_Restricted1. destruct (ca_Restricted0 r1 H1) as (r2 & ? & ? & ? & ?). exists r2.
      split_and!; [done|congruence|lia|lia].
    + intros class n (n1 & H1 & ?)%ca_Class1. destruct (ca_Class0 class n1 H1) as (n2 & ? & ?). exists n2. split; [done|lia].
    + intros l (l1 & H1 & ? & ?)%ca_Lenders1. destruct (ca_Lenders0 l1 H1) as (l2 & ? & ? & ?). exists l2. split_and!; [done|congruence|auto].
Qed.

(** Merging keyed entries: every old and every new one has its successor. *)
Section upserts.
Context {A : Type} (key : A → string) (f : A → A → A) (R : A → A → Prop).
Hypothesis Hrefl : ∀ a, R a a.
Hypothesis Htrans : ∀ a b c, R a b → R b c → R a c.
Hypothesis Hold : ∀ o x, R (f o x) o.
Hypothesis Hnew : ∀ o x, key o = key x → R (f o x) x.

Definition upsert_all (l k : list A) : list A := foldl (λ l x, upsert (λ o, String.eqb (key o) (key x)) (λ o, f o x) x l) l k.

Lemma upsert_old x l a : a ∈ l → ∃ b, b ∈ upsert (λ o, String.eqb (key o) (key x)) (λ o, f o x) x l ∧ R b a.
Proof using Hrefl Hold.
  induction l as [|y l IH]; [by intros ?%not_elem_of_nil|]. cbn [upsert]. intros [->|Ha]%elem_of_cons.
  - destruct (String.eqb_spec (key y) (key x)); [exists (f y x)|exists y]; (split; [by left|done]).
  - destruct (String.eqb (key y) (key x)); [exists a; split; [by right|done]|]. destruct (IH Ha) as (b & Hb & ?). exists b. split; [by right|done].
Qed.

Lemma upsert_new x l : ∃ b, b ∈ upsert (λ o, String.eqb (key o) (key x)) (λ o, f o x) x l ∧ R b x.
Proof using Hrefl Hnew.
  induction l as [|y l (b & Hb & ?)]; [exists x; split; [by left|done]|]. cbn [upsert].
  destruct (String.eqb_spec (key y) (key x)) as [E|]; [exists (f y x); split; [by left|by apply Hnew]|]. exists b. split; [by right|done].
Qed.

Lemma upsert_all_has l k : (∀ a, a ∈ l → ∃ b, b ∈ upsert_all l k ∧ R b a) ∧ (∀ x, x ∈ k → ∃ b, b ∈ upsert_all l k ∧ R b x).
Proof using Hrefl Htrans Hold Hnew.
  unfold upsert_all. revert l. induction k as [|x k IH]; intros l; cbn [foldl].
  { split; [intros a Ha; by exists a|by intros x ?%not_elem_of_nil]. }
  destruct (IH (upsert (λ o, String.eqb (key o) (key x)) (λ o, f o x) x l)) as [I1 I2]. split.
  - intros a (b & Hb & ?)%(upsert_old x l). destruct (I1 b Hb) as (c & ? & ?). exists c. split; [done|by eapply Htrans].
  - intros y [->|Hy]%elem_of_cons; [|by apply I2]. destruct (upsert_new x l) as (b & Hb & ?). destruct (I1 b Hb) as (c & ? & ?).
    exists c. split; [done|by eapply Htrans].
Qed.

Lemma upsert_all_forall (P : A → Prop) l k : (∀ o x, P o → P x → P (f o x)) → Forall P l → Forall P k → Forall P (upsert_all l k).
Proof.
  intros Hf Hl Hk. unfold upsert_all. revert l Hl. induction Hk as [|x k Hx _ IH]; intros l Hl; [done|]. cbn [foldl]. apply IH.
  clear IH. induction Hl as [|y l Hy Hl IH]; cbn [upsert]; [by constructor|]. destruct (String.eqb _ _); constructor; auto.
Qed.
End upserts.

Lemma held_merge ba bb a b :
  let r := if unread ba a || unread bb b then None else higher a b in
  (0 < ba → match r with None => True | Some y => ∃ x, a = Some x ∧ x ≤ y end) ∧
  (0 < bb → match r with None => True | Some y => ∃ x, b = Some x ∧ x ≤ y end).
Proof.
  cbn. unfold unread. split; intros Hb; rewrite (proj2 (Z.ltb_lt _ _) Hb); cbn [andb].
  - destruct a as [x|]; cbn; [|done]. destruct (_ && _); [done|]. destruct b as [y|]; cbn; [|exists x; split; [done|lia]].
    destruct (Z.ltb_spec x y); exists x; (split; [done|lia]).
  - destruct b as [y|]; cbn; [|by rewrite orb_true_r]. rewrite orb_false_r. destruct (_ && _); [done|].
    destruct a as [x|]; cbn; [|exists y; split; [done|lia]]. destruct (Z.ltb_spec x y); exists y; (split; [done|lia]).
Qed.

Lemma merge_cautious_sides prev p : cautious (mergeChunk prev p) prev ∧ cautious (mergeChunk prev p) p.
Proof.
  set (Rr := λ r' r : PriorityLend, pl_Queue r' = pl_Queue r ∧ pl_GPUs r ≤ pl_GPUs r' ∧ pl_Below r' ≤ pl_Below r).
  destruct (upsert_all_has pl_Queue merge_lend Rr) with (l := ch_Restricted prev) (k := ch_Restricted p) as [R1 R2].
  { intros a. split_and!; [done|lia|lia]. }
  { intros a b c (? & ? & ?) (? & ? & ?). split_and!; [congruence|lia|lia]. }
  { intros o x. unfold Rr, merge_lend. cbn. split_and!; [done|lia|lia]. }
  { intros o x Hk. unfold Rr, merge_lend. cbn. split_and!; [done|lia|lia]. }
  set (Rl := λ l' l : LenderState, l_Queue l' = l_Queue l ∧ (l_Waiting l = true → l_Waiting l' = true)).
  destruct (upsert_all_has l_Queue merge_lender Rl) with (l := ch_Lenders prev) (k := ch_Lenders p) as [L1 L2].
  { intros a. by split. }
  { intros a b c [? ?] [? ?]. split; [congruence|auto]. }
  { intros o x. split; [done|]. cbn. by intros ->. }
  { intros o x Hk. split; [done|]. cbn. intros ->. apply orb_true_r. }
  assert (Hl : ∀ l, l ∈ upsert_all l_Queue merge_lender (ch_Lenders prev) (ch_Lenders p) → l ∈ ch_Lenders (mergeChunk prev p)).
  { intros l Hl. cbn. unfold merge_lenders. by rewrite sort_stable_perm. }
  split; split; cbn [mergeChunk ch_Free ch_RawFree ch_PendingGPUs ch_Borrowed ch_Stale ch_restrictedClosed ch_Restricted]; try lia.
  all: try (intros ->; by rewrite ?orb_true_r).
  - intros Hb. by apply held_merge.
  - intros r Hr. destruct (R1 r Hr) as (r' & ? & ? & ? & ?). by exists r'.
  - intros class n Hn. cbn. rewrite lookup_union_with, Hn. destruct (ch_ClassPriority p !! class) as [m|]; cbn; eexists; (split; [done|lia]).
  - intros l Hl1. destruct (L1 l Hl1) as (l' & ? & ? & ?). exists l'. split_and!; auto.
  - intros Hb. by apply held_merge.
  - intros r Hr. destruct (R2 r Hr) as (r' & ? & ? & ? & ?). by exists r'.
  - intros class n Hn. cbn. rewrite lookup_union_with, Hn. destruct (ch_ClassPriority prev !! class) as [m|]; cbn; eexists; (split; [done|lia]).
  - intros l Hl1. destruct (L2 l Hl1) as (l' & ? & ? & ?). exists l'. split_and!; auto.
Qed.

(** ** What may be drawn *)
Lemma class_priority_cautious m p class fallback x : cautious m p → class_priority p class fallback = Some x →
  ∃ y, class_priority m class fallback = Some y ∧ x ≤ y.
Proof.
  intros Hc. pose proof (ca_Class _ _ Hc class) as H. unfold class_priority. destruct (String.eqb class PriorityClassNone); [|apply H].
  destruct fallback as [f|]; [|apply H]. intros [= <-]. eexists. split; [done|].
  destruct (ch_ClassPriority p !! class) as [n|]; [|destruct (ch_ClassPriority m !! class); lia].
  destruct (H n eq_refl) as (n' & -> & ?). lia.
Qed.

Lemma reclaims_lower l b : Reclaims ReclaimLowerPriority (Some l) (Some b) = (b <? l).
Proof. done. Qed.

Lemma out_of_reach_cautious m p r r' x y : cautious m p → pl_Below r' ≤ pl_Below r → x ≤ y →
  out_of_reach p (Some x) r = true → out_of_reach m (Some y) r' = true.
Proof.
  intros Hc Hb Hx. unfold out_of_reach, heldAbove. rewrite !reclaims_lower. rewrite !orb_true_iff. intros [[Hcl|Hh]|Hp].
  - left. left. by apply (ca_Closed _ _ Hc).
  - left. right. destruct (Z.leb_spec (ch_Borrowed p) 0); [done|]. pose proof (ca_Borrowed _ _ Hc). pose proof (ca_Held _ _ Hc ltac:(lia)) as Hd.
    destruct (Z.leb_spec (ch_Borrowed m) 0); [lia|]. destruct (ch_BorrowerPriority m) as [v|]; [|done]. destruct Hd as (u & Hu & ?).
    rewrite Hu in Hh. rewrite reclaims_lower in *. apply negb_true_iff, Z.ltb_ge in Hh. apply negb_true_iff, Z.ltb_ge. lia.
  - right. apply negb_true_iff, Z.ltb_ge in Hp. apply negb_true_iff, Z.ltb_ge. lia.
Qed.

Lemma drawn_sum c prio rs free :
  foldl (λ free r, if out_of_reach c prio r then free - pl_GPUs r else free) free rs =
  free - sumZ (λ r, if out_of_reach c prio r then pl_GPUs r else 0) rs.
Proof. revert free. induction rs as [|r rs IH]; intros free; cbn [foldl]; [unfold sumZ; cbn; lia|]. rewrite IH, sumZ_cons. destruct (out_of_reach c prio r); lia. Qed.

(** A sum over entries each of which has its larger counterpart, by key. *)
Lemma sum_by_queue (f g : PriorityLend → Z) l k : NoDup (pl_Queue <$> l) → (∀ r, r ∈ k → 0 ≤ g r) →
  (∀ r, r ∈ l → ∃ r', r' ∈ k ∧ pl_Queue r' = pl_Queue r ∧ f r ≤ g r') → sumZ f l ≤ sumZ g k.
Proof.
  revert k. induction l as [|r l IH]; intros k Hnd Hk Hl; [by apply sumZ_nonneg|]. cbn [fmap list_fmap] in Hnd. apply NoDup_cons in Hnd as [Hr Hnd].
  destruct (Hl r ltac:(by left)) as (r' & (k1 & k2 & ->)%list_elem_of_split & Hq & Hle).
  assert (Hperm : k1 ++ r' :: k2 ≡ₚ r' :: (k1 ++ k2)) by (by rewrite Permutation_middle). rewrite Hperm, !sumZ_cons.
  assert (sumZ f l ≤ sumZ g (k1 ++ k2)); [|lia]. apply IH; [done| |].
  - intros x Hx. apply Hk. rewrite Hperm. by right.
  - intros x Hx. destruct (Hl x ltac:(by right)) as (x' & Hx' & Hqx & ?). exists x'. split; [|done]. rewrite Hperm in Hx'.
    apply elem_of_cons in Hx' as [->|]; [|done]. exfalso. apply Hr. rewrite <-Hq, Hqx. by apply list_elem_of_fmap_2.
Qed.

(** Restricted GPUs a read can have: each lender once, none negative. *)
Definition restricted_ok (c : SharedPoolChunk) : Prop := NoDup (pl_Queue <$> ch_Restricted c) ∧ Forall (λ r, 0 ≤ pl_GPUs r) (ch_Restricted c).

Lemma drawable_cautious m p class fallback : cautious m p → NoDup (pl_Queue <$> ch_Restricted p) →
  Forall (λ r, 0 ≤ pl_GPUs r) (ch_Restricted m) → is_Some (class_priority p class fallback) →
  drawable m class fallback ≤ drawable p class fallback.
Proof.
  intros Hc Hnd Hpos [x Hx]. destruct (class_priority_cautious m p class fallback x Hc Hx) as (y & Hy & Hxy).
  unfold drawable. rewrite Hx, Hy, !drawn_sum. pose proof (ca_Free _ _ Hc). rewrite Forall_forall in Hpos.
  assert (sumZ (λ r, if out_of_reach p (Some x) r then pl_GPUs r else 0) (ch_Restricted p) ≤
          sumZ (λ r, if out_of_reach m (Some y) r then pl_GPUs r else 0) (ch_Restricted m)); [|lia].
  apply sum_by_queue; [done| |].
  - intros r Hr. specialize (Hpos r Hr). destruct (out_of_reach m (Some y) r); lia.
  - intros r Hr. destruct (ca_Restricted _ _ Hc r Hr) as (r' & Hr' & ? & ? & ?). exists r'. split_and!; [done..|].
    specialize (Hpos r' Hr'). destruct (out_of_reach p (Some x) r) eqn:E; [|destruct (out_of_reach m (Some y) r'); lia].
    by rewrite (out_of_reach_cautious m p r r' x y).
Qed.

(** ** The merged pools *)
Record merged_ok (reads : list SharedPoolChunk) (by_key : gmap string SharedPoolChunk) : Prop := {
  mo_reads : ∀ p, p ∈ reads → ∃ m, by_key !! chunk_key p = Some m ∧ cautious m p;
  mo_key : ∀ k m, by_key !! k = Some m → chunk_key m = k;
  mo_cohort : ∀ k m, by_key !! k = Some m → ∃ p, p ∈ reads ∧ chunk_key p = k ∧ ch_Cohort p = ch_Cohort m;
  mo_stale : ∀ k m, by_key !! k = Some m → ch_Stale m = true → ∃ p, p ∈ reads ∧ chunk_key p = k ∧ ch_Stale p = true;
  mo_pos : (∀ p, p ∈ reads → restricted_ok p) → ∀ k m, by_key !! k = Some m → Forall (λ r, 0 ≤ pl_GPUs r) (ch_Restricted m) }.

Lemma add_chunk_ok reads by_key p : merged_ok reads by_key → merged_ok (reads ++ [p]) (add_chunk by_key p).
Proof.
  intros [M1 M2 M3 M4 M5]. unfold add_chunk. set (new := match _ with Some prev => mergeChunk prev p | None => p end).
  assert (Hnew : cautious new p ∧ chunk_key new = chunk_key p ∧ ∀ prev, by_key !! chunk_key p = Some prev → cautious new prev).
  { subst new. destruct (by_key !! chunk_key p) as [prev|] eqn:E; [|split_and!; [done|done|by intros ? [=]]].
    destruct (merge_cautious_sides prev p). split_and!; [done|exact (M2 _ _ E)|by intros ? [= <-]]. }
  destruct Hnew as (N1 & N2 & N3). split.
  - intros q [Hq|Hq]%elem_of_app.
    + destruct (M1 q Hq) as (m & Hm & ?). destruct (decide (chunk_key q = chunk_key p)) as [Ek|Ek].
      * rewrite Ek in *. exists new. rewrite lookup_insert_eq. split; [done|]. transitivity m; auto.
      * exists m. by rewrite lookup_insert_ne.
    + apply list_elem_of_singleton in Hq as ->. exists new. by rewrite lookup_insert_eq.
  - intros k m [[<- <-]|[_ E]]%lookup_insert_Some; [done|by apply M2].
  - intros k m [[<- <-]|[_ E]]%lookup_insert_Some.
    + subst new. destruct (by_key !! chunk_key p) as [prev|] eqn:E; [|exists p; set_solver].
      destruct (M3 _ _ E) as (q & ? & ? & ?). exists q. set_solver.
    + destruct (M3 _ _ E) as (q & ? & ? & ?). exists q. set_solver.
  - intros k m [[<- <-]|[_ E]]%lookup_insert_Some Hs.
    + subst new. destruct (by_key !! chunk_key p) as [prev|] eqn:E; [|exists p; set_solver]. cbn in Hs. apply orb_true_iff in Hs as [Hs|Hs].
      * destruct (M4 _ _ E Hs) as (q & ? & ? & ?). exists q. set_solver.
      * exists p. set_solver.
    + destruct (M4 _ _ E Hs) as (q & ? & ? & ?). exists q. set_solver.
  - intros Hok. assert (Hp : Forall (λ r, 0 ≤ pl_GPUs r) (ch_Restricted p)) by (apply Hok; set_solver).
    intros k m [[<- <-]|[_ E]]%lookup_insert_Some; [|eapply M5; [|done]; intros q Hq; apply Hok; set_solver].
    subst new. destruct (by_key !! chunk_key p) as [prev|] eqn:E; [|done].
    apply (upsert_all_forall pl_Queue merge_lend (λ r, 0 ≤ pl_GPUs r)); [cbn; lia| |done]. eapply M5; [|done]. intros q Hq. apply Hok. set_solver.
Qed.

Lemma merge_chunks_ok reads : ∃ by_key, merged_ok reads by_key ∧ ∀ m, m ∈ merge_chunks reads ↔ ∃ k, by_key !! k = Some m.
Proof.
  exists (foldl add_chunk ∅ reads). split.
  - assert (H : ∀ todo done_ by_key, merged_ok done_ by_key → merged_ok (done_ ++ todo) (foldl add_chunk by_key todo)).
    { induction todo as [|p todo IH]; intros done_ by_key Hm; [by rewrite app_nil_r|]. cbn [foldl]. rewrite cons_middle, app_assoc.
      apply IH. by apply add_chunk_ok. }
    apply (H reads [] ∅). split; [by intros p ?%not_elem_of_nil|..]; intros; by rewrite lookup_empty in *.
  - intros m. unfold merge_chunks. rewrite sort_stable_perm, list_elem_of_fmap. split.
    + intros ([k m'] & -> & Hk%elem_of_map_to_list). by exists k.
    + intros [k Hk]. exists (k, m). split; [done|]. by apply elem_of_map_to_list.
Qed.

(** ** Properties *)

(** C26: however many providers read a pool, and in whatever order, there is one merged
    pool, and it is at least as cautious as each read of it: it is stale when the read
    is, has every lender of it, waiting when the read saw it wait, and no model whose
    priority the read knows may draw more on it than the read alone would let it. *)
Theorem merged_pool_cautious reads p class fallback :
  (∀ q, q ∈ reads → restricted_ok q) → p ∈ reads → is_Some (class_priority p class fallback) →
  ∃ m, m ∈ merge_chunks reads ∧ chunk_key m = chunk_key p ∧
    (∀ m', m' ∈ merge_chunks reads → chunk_key m' = chunk_key p → m' = m) ∧
    cautious m p ∧ drawable m class fallback ≤ drawable p class fallback.
Proof.
  intros Hok Hp Hclass. destruct (merge_chunks_ok reads) as (by_key & [M1 M2 _ _ M5] & Hin). destruct (M1 p Hp) as (m & Hm & Hc).
  exists m. split_and!; [by apply Hin; eexists|by apply M2| |done|].
  - intros m' [k Hk]%Hin Hkey. rewrite (M2 _ _ Hk) in Hkey. subst k. congruence.
  - apply drawable_cautious; [done|by apply Hok|by eapply M5|done].
Qed.

(** Two reads of a pool: eight GPUs free, six of them lent by a queue at priority 10 that
    outranks the model in the second read only. *)
Lemma merged_pool_cautious_witness :
  let read prio free := MkChunk "c" "f" "gpu" (MkFlavor "H100" ∅ [] "") free [MkLender "q" true "LowerPriority" 6 (Some 10) 0 0 None 0] 1
    false 0 ∅ [] [MkLend "q" 10 6] {["serving" := prio]} 0 None None 0 true 0 false free false in
  drawable (read 20 8) "serving" None = 2 ∧
  ∃ m, m ∈ merge_chunks [read 20 8; read 5 7] ∧ drawable m "serving" None ≤ 2.
Proof.
  intros read. split; [vm_compute; reflexivity|].
  destruct (merged_pool_cautious [read 20 8; read 5 7] (read 20 8) "serving" None) as (m & Hm & _ & _ & _ & Hd).
  - intros q [->|[->|[]%not_elem_of_nil]%elem_of_cons]%elem_of_cons; (split; [apply (bool_decide_unpack _); vm_compute; exact I|]);
      (constructor; [vm_compute; discriminate|constructor]).
  - constructor.
  - exists 20. vm_compute. reflexivity.
  - exists m. split; [exact Hm|exact Hd].
Defined.
