(* ===== verification/BorrowConstraints.v ===== *)
(** * What borrowing reads of a cycle

    The figures the borrow governor takes from a cycle's constraints and requests:
    [namespaceBorrowed], [namespaceHeldPast], [namespaceCohorts], [indexStates], [accOf],
    [minOf] and [heldOf] of [borrow_governor.go], and [KueueNamespaces],
    [UncountedKueueNamespaces] and [uncountedHeldPast] of [borrow_gated.go]; and of
    [borrow_constraints.go] the constraints at the reach of each namespace or without
    borrowing, and the merged pools ([mergeSharedPools]); all of
    [internal/engines/allocation].  Of [ResourceConstraints], [ModelScalingRequest] and
    [VariantReplicaState] the records have the fields that code reads.  Counts of
    replicas and GPUs are plain integers: they are bounded by the cluster's.

    Theorems: the GPUs held past a figure are never negative, and
    no namespace is past both the borrowing figure and that of one that counts none. *)
From Stdlib Require Import ZArith Lia String Ascii.
From stdpp Require Import base gmap strings list sorting fin_maps.
From S2P Require Import Prelude Accelerator Budget Limiter QuotaConfig NodeView BorrowPools.
Open Scope Z_scope.

(** ** Variants and requests *)

(** A variant's state: replicas, those its pods hold when they were listed, since when
    each unplaced or gated replica is, and the shape of one. *)
Record variantRef := MkRef {
  vr_Name : string; vr_Current : Z; vr_Held : option Z; vr_Unplaced : Z; vr_UnplacedAt : list Z; vr_UnplacedSince : Z;
  vr_GatedAt : list Z; vr_GPUs : Z; vr_Role : string; vr_Min : option Z; vr_Acc : string }.

(** The zero value of a map read that finds nothing. *)
Definition zero_ref : variantRef := MkRef "" 0 None 0 [] 0 [] 0 "" None "".

(** A model's request; [br_Variants] is the accelerator each variant was discovered
    with. *)
Record BorrowRequest := MkBorrowRequest {
  br_Namespace : string; br_ModelID : string; br_Disaggregated : bool; br_States : list variantRef; br_Variants : list (string * string) }.

Definition minOf (s : variantRef) : Z := default 0 (vr_Min s).

Definition heldOf (s : variantRef) : Z := match vr_Held s with Some h => Z.max h (vr_Current s) | None => vr_Current s end.

Definition variant_key (ns v : string) : string := ns +:+ "/" +:+ v.

(** The last state of a name stands. *)
Definition indexStates (requests : list BorrowRequest) : gmap string variantRef :=
  foldl (λ out req, foldl (λ out st, <[variant_key (br_Namespace req) (vr_Name st) := st]> out) out (br_States req)) ∅ requests.

Definition accOf (req : BorrowRequest) (variant : string) : string :=
  match find (λ v : string * string, String.eqb v.1 variant) (br_Variants req) with
  | Some v => v.2
  | None => match find (λ st, String.eqb (vr_Name st) variant) (br_States req) with
            | Some st => vr_Acc st
            | None => ""
            end
  end.

(** ** Constraints *)

(** The borrowing figures of a namespace for one type that the code here reads. *)
Record NamespaceBorrow := MkNamespaceBorrow { nb_Cap : Z; nb_WithinNominal : Z; nb_NominalLentOut : Z }.

(** A provider's constraints with its borrowing: the figures by namespace and type ([None]
    when it counts none), the cohorts' pools, the cohorts of each namespace, why
    borrowing is withheld, and the types whose borrowed GPUs were taken out. *)
Record BorrowConstraints := MkBorrowConstraints {
  bc_Base : ResourceConstraints; bc_Figures : option (gmap string (gmap string NamespaceBorrow)); bc_Shared : list SharedPoolChunk;
  bc_Cohorts : gmap string (list string); bc_Withheld : gmap string string; bc_CountedBorrow : gmap string (gset string) }.

Definition bc_Pools (c : BorrowConstraints) : gmap string (gmap string ResourcePool) := default ∅ (NamespacePools (bc_Base c)).
Definition bc_KueueBacked (c : BorrowConstraints) : bool := KueueBacked (bc_Base c).
Definition bc_CountsBorrowing (c : BorrowConstraints) : bool := KueueCountsBorrowing (bc_Base c).

(** The namespaces that borrow. *)
Definition bc_Borrow (c : BorrowConstraints) : gset string := dom (default ∅ (bc_Figures c)).
Definition counts_borrowing (c : BorrowConstraints) : bool := bool_decide (is_Some (bc_Figures c)).

(** The constraints that are not nil. *)
Notation constraints_list := (list (option BorrowConstraints)).
Definition present (constraints : constraints_list) : list BorrowConstraints := omap id constraints.

Definition namespaceCohorts (constraints : constraints_list) (ns : string) : list string :=
  sort_strings (foldl (λ out co, if bool_decide (co ∈ out) then out else out ++ [co]) []
    (mjoin ((λ c, default [] (bc_Cohorts c !! ns)) <$> present constraints))).

(** ** GPUs past the guaranteed figure *)
Definition past_limits (pools : gmap string ResourcePool) : gmap string Z :=
  omap (λ p, if 0 <=? Limit p then Some (Used p - Limit p) else None) pools.

(** Gated GPUs that name a type come off it. *)
Definition deduct_typed (gated past : gmap string Z) : gmap string Z :=
  foldl (λ past (e : string * Z),
    if String.eqb e.1 "" then past
    else match FindBudgetKey past e.1 with
         | Some t => <[t := default 0 (past !! t) - e.2]> past
         | None => past
         end) past (map_to_list gated).

(** Those that name none are shared over the types in order, up to what each holds. *)
Definition share_untyped (untyped : Z) (past : gmap string Z) : Z * gmap string Z :=
  foldl (λ (acc : Z * gmap string Z) t,
    let n := default 0 (past !! t) in
    let take := Z.min acc.1 (Z.max 0 n) in
    (acc.1 - take, <[t := Z.max 0 (n - take)]> acc.2)) (untyped, ∅) (sort_strings (map_to_list past).*1).

Definition borrowed_by (gated : gmap string (gmap string Z)) (c : BorrowConstraints) : gmap string (gmap string Z) :=
  map_imap (λ ns pools,
    let past := past_limits pools in
    if bool_decide (ns ∈ bc_Borrow c) && negb (bool_decide (past = ∅)) then
      let g := default ∅ (gated !! ns) in
      Some (share_untyped (default 0 (g !! "")) (deduct_typed g past)).2
    else None) (bc_Pools c).

(** A later constraint's figure of a type replaces an earlier one's. *)
Definition namespaceBorrowed (constraints : constraints_list) (gated : gmap string (gmap string Z)) : gmap string (gmap string Z) :=
  foldl (λ out c, union_with (λ old new, Some (new ∪ old)) out (borrowed_by gated c)) ∅ (present constraints).

Definition namespaceHeldPast (constraints : constraints_list) : gmap string (gmap string Z) := namespaceBorrowed constraints ∅.

(** ** Namespaces that count no borrowing *)
Definition KueueNamespaces (constraints : constraints_list) : list string :=
  sort_strings (elements (⋃ ((λ c, if bc_KueueBacked c then dom (bc_Pools c) else ∅) <$> present constraints) : gset string)).

Definition ReasonNoCohort : string := "no-cohort".

Definition borrowing_namespaces (constraints : constraints_list) : gset string := ⋃ (bc_Borrow <$> present constraints).

(** Whether the entry keeps a namespace out: it counts borrowing there and withholds it
    for a reason of its own. *)
Definition withholds (c : BorrowConstraints) (ns : string) : bool :=
  bc_CountsBorrowing c && negb (String.eqb (default "" (bc_Withheld c !! ns)) ReasonNoCohort).

Definition uncounted_of (out : bool) (counted : gset string) (c : BorrowConstraints) : gset string :=
  if bc_KueueBacked c then filter (λ ns, ns ∉ counted ∧ withholds c ns = out) (dom (bc_Pools c)) else ∅.

Definition uncounted_set (constraints : constraints_list) : gset string :=
  let counted := borrowing_namespaces constraints in
  ⋃ (uncounted_of false counted <$> present constraints) ∖ ⋃ (uncounted_of true counted <$> present constraints).

Definition UncountedKueueNamespaces (constraints : constraints_list) : list string := sort_strings (elements (uncounted_set constraints)).

Definition past_figures (pools : gmap string ResourcePool) : gmap string Z :=
  omap (λ p, if (Limit p <? 0) || (Used p <=? Limit p) then None else Some (Used p - Limit p)) pools.

Definition uncounted_by (uncounted : gset string) (c : BorrowConstraints) : gmap string (gmap string Z) :=
  if bc_KueueBacked c then
    map_imap (λ ns pools,
      let past := past_figures pools in
      if bool_decide (ns ∈ uncounted) && negb (bool_decide (past = ∅)) then Some past else None) (bc_Pools c)
  else ∅.

Definition uncountedHeldPast (constraints : constraints_list) : gmap string (gmap string Z) :=
  let uncounted := list_to_set (UncountedKueueNamespaces constraints) in
  foldl (λ out c, union_with (λ old new, Some (union_with (λ a b, Some (Z.max a b)) old new)) out (uncounted_by uncounted c)) ∅
    (present constraints).

(** ** Shared pools *)
Definition HasBorrowing (constraints : constraints_list) : bool := existsb counts_borrowing (present constraints).

Definition NominalLentOut (constraints : constraints_list) (ns : string) : Z :=
  sumZ (λ c, sumZ (λ e : string * NamespaceBorrow, nb_NominalLentOut e.2) (map_to_list (default ∅ (default ∅ (bc_Figures c) !! ns))))
    (present constraints).

(** The reads of the providers that count borrowing. *)
Definition shared_reads (constraints : constraints_list) : list SharedPoolChunk :=
  mjoin (bc_Shared <$> filter (λ c, counts_borrowing c = true) (present constraints)).

Definition add_cohorts (cohorts more : gmap string (list string)) : gmap string (list string) :=
  union_with (λ have new, Some (foldl (λ out co, if bool_decide (co ∈ out) then out else out ++ [co]) have new)) cohorts
    ((foldl (λ out co, if bool_decide (co ∈ out) then out else out ++ [co]) []) <$> more).

Definition mergeSharedPools (constraints : constraints_list) : list SharedPoolChunk * gmap string (list string) :=
  (merge_chunks (shared_reads constraints),
   foldl (λ cohorts c, add_cohorts cohorts (bc_Cohorts c)) ∅ (filter (λ c, counts_borrowing c = true) (present constraints))).

(** ** Constraints without borrowing *)
Definition heldPastBorrowCap (p : ResourcePool) (b : NamespaceBorrow) : Z :=
  if Limit p <? 0 then Used p
  else if nb_Cap b <? 0 then Z.min (Used p) (Limit p)
  else Z.max (Z.min (Used p) (Limit p)) (Used p - nb_Cap b).

(** A namespace's pools at the within-nominal limits, or charged without what is held
    within the borrow cap. *)
Definition without_pool (within : bool) (p : ResourcePool) (b : NamespaceBorrow) : ResourcePool :=
  if within then MkPool (nb_WithinNominal b) (Used p) else MkPool (Limit p) (heldPastBorrowCap p b).

Definition map_borrowed (f : ResourcePool → NamespaceBorrow → ResourcePool) (pools : gmap string ResourcePool) (figures : gmap string NamespaceBorrow)
  : gmap string ResourcePool :=
  map_imap (λ t p, Some (match figures !! t with Some b => f p b | None => p end)) pools.

Definition map_namespaces (f : ResourcePool → NamespaceBorrow → ResourcePool) (c : BorrowConstraints) : gmap string (gmap string ResourcePool) :=
  map_imap (λ ns pools, Some (map_borrowed f pools (default ∅ (default ∅ (bc_Figures c) !! ns)))) (bc_Pools c).

Definition set_namespace_pools (rc : ResourceConstraints) (pools : gmap string ResourcePool) (nsPools : gmap string (gmap string ResourcePool))
    (totals : Z * Z * Z) : ResourceConstraints :=
  MkConstraints (ProviderName rc) pools (Some nsPools) (NamespaceScoped rc) totals.1.1 totals.1.2 totals.2 (KueueNeverRead rc)
    (KueueBacked rc) (KueueCountsBorrowing rc) (KueueBounded rc) (PoolsVersion rc).

(** The types of a namespace whose borrowed GPUs were taken out. *)
Definition counted_types (c : BorrowConstraints) : gmap string (gset string) :=
  map_imap (λ ns pools, let ts := dom (default ∅ (default ∅ (bc_Figures c) !! ns)) ∩ dom pools in
                        if bool_decide (ts = ∅) then None else Some ts) (bc_Pools c).

Definition without_borrowing_one (within : bool) (c : BorrowConstraints) : BorrowConstraints :=
  if counts_borrowing c then
    let nsPools := map_namespaces (without_pool within) c in
    let pools := aggregateNamespacePools nsPools in
    MkBorrowConstraints (set_namespace_pools (bc_Base c) pools nsPools (poolTotals pools)) None [] ∅ (bc_Withheld c)
      (if within then bc_CountedBorrow c else counted_types c)
  else c.

Definition withoutBorrowing (constraints : constraints_list) (within : bool) : constraints_list :=
  if negb (HasBorrowing constraints) then constraints else map (option_map (without_borrowing_one within)) constraints.

Definition WithinNominal (constraints : constraints_list) : constraints_list := withoutBorrowing constraints true.
Definition GuaranteedOnly (constraints : constraints_list) : constraints_list := withoutBorrowing constraints false.

(** The most each namespace may reach. *)
Definition reach_pool (p : ResourcePool) (b : NamespaceBorrow) : ResourcePool :=
  if Limit p <? 0 then p else if nb_Cap b <? 0 then MkPool QuotaUnlimited (Used p) else MkPool (Limit p + nb_Cap b) (Used p).

Definition reachPools (c : BorrowConstraints) : gmap string (gmap string ResourcePool) := map_namespaces reach_pool c.

Definition reach_one (c : BorrowConstraints) : BorrowConstraints :=
  if counts_borrowing c then
    MkBorrowConstraints (set_namespace_pools (bc_Base c) (Pools (bc_Base c)) (reachPools c)
        (TotalLimit (bc_Base c), TotalUsed (bc_Base c), TotalAvail (bc_Base c)))
      (bc_Figures c) (bc_Shared c) (bc_Cohorts c) (bc_Withheld c) (bc_CountedBorrow c)
  else c.

Definition reachConstraints (constraints : constraints_list) : constraints_list :=
  map (option_map reach_one) constraints.

(** ** Lemmas *)

(** What every constraint's figures satisfy, the figures joined over them do. *)
Lemma joined_figures (P : string → gmap string Z → Prop) (f : gmap string Z → gmap string Z → gmap string Z)
    (by_ : BorrowConstraints → gmap string (gmap string Z)) cs out :
  (∀ ns a b, P ns a → P ns b → P ns (f a b)) → (∀ c ns m, c ∈ cs → by_ c !! ns = Some m → P ns m) →
  (∀ ns m, out !! ns = Some m → P ns m) →
  ∀ ns m, foldl (λ out c, union_with (λ old new, Some (f old new)) out (by_ c)) out cs !! ns = Some m → P ns m.
Proof.
  intros Hf. revert out. induction cs as [|c cs IH]; intros out Hc Hout; [done|]. cbn [foldl]. apply IH.
  { intros c' ns m Hin. apply Hc. by right. }
  intros ns m. rewrite lookup_union_with. assert (Hcc : ∀ m, by_ c !! ns = Some m → P ns m) by (intros m'; apply Hc; by left).
  destruct (out !! ns) as [a|] eqn:Ea, (by_ c !! ns) as [b|] eqn:Eb; cbn; intros [= <-]; auto.
Qed.

Lemma share_untyped_nonneg untyped past t n : (share_untyped untyped past).2 !! t = Some n → 0 ≤ n.
Proof.
  unfold share_untyped. generalize (sort_strings (map_to_list past).*1). intros l.
  assert (H : ∀ acc : Z * gmap string Z, (∀ t n, acc.2 !! t = Some n → 0 ≤ n) →
    ∀ t n, (foldl (λ (acc : Z * gmap string Z) t,
      let n := default 0 (past !! t) in
      let take := Z.min acc.1 (Z.max 0 n) in
      (acc.1 - take, <[t := Z.max 0 (n - take)]> acc.2)) acc l).2 !! t = Some n → 0 ≤ n).
  { induction l as [|x l IH]; intros acc Hacc; [done|]. cbn [foldl]. apply IH. cbn [snd].
    intros t' n' [[_ <-]|[_ E]]%lookup_insert_Some; [lia|by eapply Hacc]. }
  apply H. cbn [snd]. intros ? ? E. by rewrite lookup_empty in E.
Qed.

(** The GPUs held past the guaranteed figure, of namespaces that borrow. *)
Lemma namespaceBorrowed_spec constraints gated ns m : namespaceBorrowed constraints gated !! ns = Some m →
  ns ∈ borrowing_namespaces constraints ∧ ∀ t n, m !! t = Some n → 0 ≤ n.
Proof.
  apply (joined_figures (λ ns m, ns ∈ borrowing_namespaces constraints ∧ ∀ t n, m !! t = Some n → 0 ≤ n) (λ old new, new ∪ old)
           (borrowed_by gated)); clear ns m.
  - intros ns a b [? Ha] [_ Hb]. split; [done|]. intros t n [E|[_ E]]%lookup_union_Some_raw; [by eapply Hb|by eapply Ha].
  - intros c ns m Hin E. unfold borrowed_by in E. rewrite map_lookup_imap in E. destruct (bc_Pools c !! ns); [|done]. cbn in E.
    case_bool_decide as Hns; [|done]. destruct (negb _); cbn in E; [|done]. injection E as <-. split; [|apply share_untyped_nonneg].
    unfold borrowing_namespaces. apply elem_of_union_list. exists (bc_Borrow c). split; [|done]. by apply list_elem_of_fmap_2.
  - intros ns m E. by rewrite lookup_empty in E.
Qed.

Lemma uncountedHeldPast_spec constraints ns m : uncountedHeldPast constraints !! ns = Some m →
  ns ∈ uncounted_set constraints ∧ ∀ t n, m !! t = Some n → 0 < n.
Proof.
  unfold uncountedHeldPast. cbv zeta. set (uncounted := list_to_set (UncountedKueueNamespaces constraints)).
  revert ns m. apply (joined_figures (λ ns m, ns ∈ uncounted_set constraints ∧ ∀ t n, m !! t = Some n → 0 < n)
           (λ old new, union_with (λ a b, Some (Z.max a b)) old new)
           (uncounted_by uncounted)).
  - intros ns a b [? Ha] [_ Hb]. split; [done|]. intros t n. rewrite lookup_union_with. specialize (Ha t). specialize (Hb t).
    destruct (a !! t) as [x|], (b !! t) as [y|]; cbn; intros [= <-]; auto. specialize (Ha x eq_refl). lia.
  - intros c ns m _ E. unfold uncounted_by in E. destruct (bc_KueueBacked c); [|by rewrite lookup_empty in E].
    rewrite map_lookup_imap in E. destruct (bc_Pools c !! ns) as [pools|]; [|done]. cbn in E.
    case_bool_decide as Hns; [|done]. destruct (negb _); cbn in E; [|done]. injection E as <-. split.
    + unfold uncounted, UncountedKueueNamespaces in Hns. by rewrite elem_of_list_to_set, sort_strings_perm, elem_of_elements in Hns.
    + intros t n. unfold past_figures. rewrite lookup_omap. destruct (pools !! t) as [p|]; cbn; [|done].
      destruct (Z.ltb_spec (Limit p) 0), (Z.leb_spec (Used p) (Limit p)); cbn; intros [= <-]; lia.
  - intros ns m E. by rewrite lookup_empty in E.
Qed.

Lemma uncounted_apart constraints ns : ns ∈ uncounted_set constraints → ns ∉ borrowing_namespaces constraints.
Proof.
  unfold uncounted_set. intros [Hin _]%elem_of_difference. apply elem_of_union_list in Hin as (X & HX & Hns).
  apply list_elem_of_fmap in HX as (c & -> & _). unfold uncounted_of in Hns. destruct (bc_KueueBacked c); set_solver.
Qed.

(** No namespace's GPUs are past both figures. *)
Lemma held_past_apart constraints gated ns a b :
  namespaceBorrowed constraints gated !! ns = Some a → uncountedHeldPast constraints !! ns = Some b → False.
Proof.
  intros [Ha _]%namespaceBorrowed_spec [Hb _]%uncountedHeldPast_spec. by apply (uncounted_apart _ _ Hb).
Qed.

(** The GPUs over the guaranteed limit without borrowing are those past the borrow cap:
    what is borrowed within it is no debt. *)
Lemma held_past_cap_debt p b : 0 ≤ Limit p → 0 ≤ nb_Cap b →
  Z.max 0 (heldPastBorrowCap p b - Limit p) = Z.max 0 (Used p - (Limit p + nb_Cap b)).
Proof. intros Hl Hcap. unfold heldPastBorrowCap. rewrite !(proj2 (Z.ltb_ge _ _)) by lia. lia. Qed.

(** Nothing borrows once the borrowing figures are dropped. *)
Lemma without_borrowing_none constraints within : HasBorrowing (withoutBorrowing constraints within) = false.
Proof.
  unfold withoutBorrowing. destruct (HasBorrowing constraints) eqn:E; [|done]. cbn [negb]. unfold HasBorrowing.
  apply not_true_iff_false. intros (c & Hin%list_elem_of_In & Hc)%existsb_exists. unfold present in Hin.
  apply list_elem_of_omap in Hin as (oc & Hoc & Hid). apply list_elem_of_In, in_map_iff in Hoc as ([c0|] & <- & _); [|done].
  cbn in Hid. injection Hid as <-. unfold without_borrowing_one in Hc. destruct (counts_borrowing c0) eqn:E0; [done|by rewrite E0 in Hc].
Qed.

Lemma without_borrowing_idem constraints within : withoutBorrowing (withoutBorrowing constraints within) within = withoutBorrowing constraints within.
Proof. unfold withoutBorrowing at 1. by rewrite without_borrowing_none. Qed.
