(* ===== verification/BorrowGovernor.v ===== *)
(** * The borrow governor

    The model of the cooldowns and holds of [borrow_governor.go] of
    [internal/engines/allocation]: how long a model, or a whole cohort, borrows nothing
    after a preemption, a placement timeout or a lender that waits, and what of it is
    kept across a restart.

    Times are nanoseconds from the zero time, so a time of 0 is the zero one, and
    durations do not overflow.  A cycle is a value [BorrowCycle]: the constraints and the
    requests as [BorrowConstraints] has them.  Left out are the releases to waiting lenders
    ([releaseToNonReclaimingLenders], off by default), with the state they keep.

    Theorems: nothing shortens a cooldown and none is longer than the backoff allows; a
    restart keeps every cooldown and release, and lengthens none by a minute. *)
From Stdlib Require Import ZArith Lia String Ascii.
From stdpp Require Import base gmap strings list sorting fin_maps.
From S2P Require Import Prelude Accelerator Budget NodeView Domain BorrowPools BorrowConstraints.
Open Scope Z_scope.

(** ** Times *)
Definition second : Z := 1000000000.
Definition minute : Z := 60 * second.
Definition truncate_to (t d : Z) : Z := t - t mod d.

(** ** State *)
Record BorrowSettings := MkBorrowSettings {
  PlacementTimeout : Z; Cooldown : Z; LenderDebounce : Z; ReleaseActuation : Z }.

(** How long a lowered target takes to free its GPUs: window, sync, poll and grace, each
    the cluster's default when unset. *)
Definition ReleaseBound (window polling grace : option Z) : Z :=
  let pick v def := match v with Some v => if 0 <=? v then v else def | None => def end in
  pick window (300 * second) + 15 * second + pick polling (30 * second) + pick grace (30 * second).

Definition DefaultBorrowSettings : BorrowSettings :=
  MkBorrowSettings (5 * minute) (10 * minute) (60 * second) (2 * (30 * second) + 300 * second).

(** Cohort, lender, flavor, resource. *)
Notation LenderKey := (string * string * string * string)%type.
Definition flavorKey (k : LenderKey) : string := let '(cohort, _, flavor, resource) := k in cohort +:+ "/" +:+ flavor +:+ "/" +:+ resource.

Record lenderWatch := MkWatch { w_since : Z; w_reads : Z; w_lastRead : Z }.
Record BackoffEntry := MkBackoff { Until : Z; Level : Z; LastAt : Z; Preempted : bool }.
Record NoHoleReplicas := MkNoHole { nh_Replicas : Z; nh_GPUs : Z; nh_Since : Z }.

Record BorrowGovernor := MkGovernor {
  settings : BorrowSettings;
  watches : gmap LenderKey lenderWatch;
  cohortCooldown : gmap string Z; modelCooldown : gmap string Z;
  timeoutHeld : gmap string Z; unplacedHeld : gset string; preemptUnknown : gset string;
  pastSince : gmap string Z; uncountedSince : gmap string Z; gatedPins : gset string;
  rawWaiting : gset string; backoff : gmap string BackoffEntry;
  noHole : gmap string NoHoleReplicas; noHoleRestored : gset string;
  started : bool; idleSince : Z }.

Definition NewBorrowGovernor (s : BorrowSettings) : BorrowGovernor :=
  MkGovernor s ∅ ∅ ∅ ∅ ∅ ∅ ∅ ∅ ∅ ∅ ∅ ∅ ∅ false 0.

Definition SetSettings (s : BorrowSettings) (g : BorrowGovernor) : BorrowGovernor :=
  MkGovernor s (watches g) (cohortCooldown g) (modelCooldown g) (timeoutHeld g) (unplacedHeld g) (preemptUnknown g) (pastSince g)
    (uncountedSince g) (gatedPins g) (rawWaiting g) (backoff g) (noHole g) (noHoleRestored g) (started g) (idleSince g).

(** The governor with its cooldowns replaced. *)
Definition set_clocks (g : BorrowGovernor) (cohort model : gmap string Z) (b : gmap string BackoffEntry) : BorrowGovernor :=
  MkGovernor (settings g) (watches g) cohort model (timeoutHeld g) (unplacedHeld g) (preemptUnknown g) (pastSince g)
    (uncountedSince g) (gatedPins g) (rawWaiting g) b (noHole g) (noHoleRestored g) (started g) (idleSince g).

(** ** Cooldowns *)
Definition maxBackoffLevel : Z := 2.
Definition maxBackoff : Z := 40 * minute.
Definition sameEvent : Z := minute.

Definition backoffFor (s : BorrowSettings) (level : Z) : Z := Z.min (Z.shiftl (Cooldown s) level) (Z.max maxBackoff (Cooldown s)).

Definition markModelCooldown (modelKey : string) (at_ : Z) (g : BorrowGovernor) : BorrowGovernor :=
  let until := at_ + Cooldown (settings g) in
  if default 0 (modelCooldown g !! modelKey) <? until
  then set_clocks g (cohortCooldown g) (<[modelKey := until]> (modelCooldown g)) (backoff g)
  else g.

Definition MarkPreempted (modelKey : string) (at_ : Z) (g : BorrowGovernor) : BorrowGovernor := markModelCooldown modelKey at_ g.

(** The entry of one cohort after an event; the old one when the event starts nothing
    new. *)
Definition mark_entry (s : BorrowSettings) (e : option BackoffEntry) (at_ : Z) (preempted : bool) (timeout : Z) : BackoffEntry :=
  let fresh level := MkBackoff (at_ + backoffFor s level) level at_ preempted in
  match e with
  | None => fresh 0
  | Some e =>
      if at_ - LastAt e <? sameEvent then e
      else if negb preempted && Preempted e && (at_ <? Until e) then e
      else if negb preempted && Preempted e && (at_ <? LastAt e + (timeout + PlacementTimeout s)) then
        MkBackoff (at_ + backoffFor s (Level e)) (Level e) at_ false
      else
        let level := if at_ <? Until e + Cooldown s then Z.min (Level e + 1) maxBackoffLevel else 0 in
        MkBackoff (Z.max (at_ + backoffFor s level) (Until e)) level at_ preempted
  end.

Definition markBackoffAfter (modelKey : string) (cohorts : list string) (at_ : Z) (preempted : bool) (timeout : Z)
    (g : BorrowGovernor) : BorrowGovernor :=
  match cohorts with
  | [] => markModelCooldown modelKey at_ g
  | _ =>
      set_clocks g (cohortCooldown g) (modelCooldown g)
        (foldl (λ b c, let k := modelKey +:+ "@" +:+ c in
                       <[k := mark_entry (settings g) (b !! k) at_ preempted timeout]> b) (backoff g) cohorts)
  end.

Definition markBackoff (modelKey : string) (cohorts : list string) (at_ : Z) (preempted : bool) (g : BorrowGovernor) : BorrowGovernor :=
  markBackoffAfter modelKey cohorts at_ preempted (PlacementTimeout (settings g)) g.

Definition MarkPreemptedIn (modelKey : string) (cohorts : list string) (at_ : Z) (g : BorrowGovernor) : BorrowGovernor :=
  markBackoff modelKey cohorts at_ true g.

(** ** What is blocked *)
Definition in_force (clock : option Z) (now : Z) : bool := match clock with Some until => now <? until | None => false end.

Definition BorrowBlockedIn (g : BorrowGovernor) (namespace modelID cohort : string) (now : Z) : bool :=
  in_force (Until <$> backoff g !! (namespace +:+ "/" +:+ modelID +:+ "@" +:+ cohort)) now.

Definition CoolingDown (g : BorrowGovernor) (namespace modelID : string) (now : Z) : bool :=
  let key := namespace +:+ "/" +:+ modelID in
  in_force (modelCooldown g !! key) now ||
  existsb (λ e : string * BackoffEntry, String.prefix (key +:+ "@") e.1 && (now <? Until e.2)) (map_to_list (backoff g)).

Definition BlockedCohorts (g : BorrowGovernor) (now : Z) : gset string :=
  dom (filter (λ e : string * Z, now < e.2) (cohortCooldown g)) ∪ rawWaiting g.

Definition BorrowBlocked (g : BorrowGovernor) (namespace modelID variant : string) (now : Z) : bool :=
  bool_decide (namespace ∈ preemptUnknown g) || in_force (modelCooldown g !! (namespace +:+ "/" +:+ modelID)) now ||
  bool_decide ((namespace +:+ "/" +:+ variant) ∈ unplacedHeld g).

(** ** One cycle *)

Record BorrowCycle := MkCycle {
  c_Now : Z; c_Constraints : constraints_list; c_Requests : list BorrowRequest; c_ScaleUpPending : gset string;
  c_PreemptionUnknown : gset string; c_NoHole : gmap string NoHoleReplicas }.

Definition c_States (c : BorrowCycle) : gmap string variantRef := indexStates (c_Requests c).
Definition c_Chunks (c : BorrowCycle) : list SharedPoolChunk := (mergeSharedPools (c_Constraints c)).1.

(** Expired cooldowns go, one further away than its setting allows is brought back. *)
Definition prune_clock (cooldown now until : Z) : option Z :=
  if until <=? now then None else if cooldown <? until - now then Some (now + cooldown) else Some until.

Definition prune_entry (s : BorrowSettings) (now : Z) (e : BackoffEntry) : option BackoffEntry :=
  if Until e + Cooldown s <=? now then None
  else if backoffFor s maxBackoffLevel <? Until e - now then
    Some (MkBackoff (now + backoffFor s maxBackoffLevel) (Level e) (LastAt e) (Preempted e))
  else Some e.

Definition pruneClocks (now : Z) (g : BorrowGovernor) : BorrowGovernor :=
  let prune := omap (prune_clock (Cooldown (settings g)) now) in
  set_clocks g (prune (cohortCooldown g)) (prune (modelCooldown g)) (omap (prune_entry (settings g) now) (backoff g)).

(** Since when each "namespace/type" holds GPUs past its figure. *)
Definition past_keys (held : gmap string (gmap string Z)) : list string :=
  mjoin ((λ e : string * gmap string Z, omap (λ x : string * Z, if x.2 <=? 0 then None else Some (e.1 +:+ "/" +:+ x.1)) (map_to_list e.2)) <$> map_to_list held).

Definition trackPast (since : gmap string Z) (held : gmap string (gmap string Z)) (now : Z) : gmap string Z :=
  let past := past_keys held in
  let since := foldl (λ m k, if bool_decide (is_Some (m !! k)) then m else <[k := now]> m) since past in
  filter (λ e : string * Z, e.1 ∈ past) since.

Definition unplacedSince (st : variantRef) (since : Z) : bool :=
  if vr_Unplaced st <=? 0 then false
  else match vr_UnplacedAt st with
       | [] => negb (vr_UnplacedSince st =? 0) && (since <=? vr_UnplacedSince st)
       | l => existsb (λ at_, negb (at_ =? 0) && (since <=? at_)) l
       end.

Definition expiredUnplaced (st : variantRef) (pastSince timeout now : Z) : Z :=
  let expired at_ := negb (at_ =? 0) && (timeout <=? now - Z.max at_ pastSince) in
  match vr_UnplacedAt st with
  | [] => if expired (vr_UnplacedSince st) then vr_Unplaced st else 0
  | l => Z.of_nat (length (filter (λ at_, expired at_ = true) l))
  end.

(** An entry kept through a cycle, with whether it is still one of those restored. *)
Definition keep_no_hole (s : BorrowSettings) (c : BorrowCycle) (restored : bool) (k : string) (h : NoHoleReplicas)
  : option (NoHoleReplicas * bool) :=
  if bool_decide (is_Some (c_NoHole c !! k)) then Some (h, false)
  else
    let st := c_States c !! k in
    if negb (bool_decide (is_Some st)) && restored && (c_Now c - nh_Since h <=? 3 * PlacementTimeout s) then Some (h, true)
    else match st with
         | None => None
         | Some st => if (nh_Replicas h <=? 0) || negb (unplacedSince st (nh_Since h)) then None else Some (h, false)
         end.

Definition watch_no_hole (now : Z) (prev : option NoHoleReplicas) (h : NoHoleReplicas) : NoHoleReplicas :=
  match prev with
  | Some p => MkNoHole (Z.max (nh_Replicas p) (nh_Replicas h)) (Z.max (nh_GPUs p) (nh_GPUs h)) (nh_Since p)
  | None => MkNoHole (Z.max 0 (nh_Replicas h)) (Z.max 0 (nh_GPUs h))
              (if negb (nh_Since h =? 0) && (nh_Since h <? now) then nh_Since h else now)
  end.

(** The replicas of a record's entries that were ordered without a node hole. *)
Record BorrowDraw := MkDraw {
  bd_Namespace : string; bd_Variant : string; bd_GPUs : Z; bd_Replicas : Z; bd_OrderedAt : Z; bd_NoHole : bool }.

Definition no_hole_step (out : gmap string NoHoleReplicas) (d : BorrowDraw) : gmap string NoHoleReplicas :=
  if negb (bd_NoHole d) || (bd_GPUs d <=? 0) || (bd_Replicas d <=? 0) then out
  else
    let k := variant_key (bd_Namespace d) (bd_Variant d) in
    let h := default (MkNoHole 0 0 0) (out !! k) in
    let since := if negb (bd_OrderedAt d =? 0) && ((nh_Since h =? 0) || (bd_OrderedAt d <? nh_Since h)) then bd_OrderedAt d else nh_Since h in
    <[k := MkNoHole (nh_Replicas h + bd_Replicas d) (nh_GPUs h + bd_GPUs d) since]> out.

Definition NoHoleOf (entries : list BorrowDraw) : gmap string NoHoleReplicas := foldl no_hole_step ∅ entries.

Definition observeNoHole (c : BorrowCycle) (g : BorrowGovernor) : gmap string NoHoleReplicas * gset string :=
  let kept := map_imap (λ k h, keep_no_hole (settings g) c (bool_decide (k ∈ noHoleRestored g)) k h) (noHole g) in
  let watched := fst <$> kept in
  (map_imap (λ k h, Some (watch_no_hole (c_Now c) (watched !! k) h)) (c_NoHole c) ∪ watched,
   (noHoleRestored g ∖ dom (noHole g)) ∪ dom (filter (λ e : string * (NoHoleReplicas * bool), e.2.2 = true) kept)).

(** ** Lenders *)
Definition observeLender (key : LenderKey) (waiting : bool) (readAt now : Z) (ws : gmap LenderKey lenderWatch) : gmap LenderKey lenderWatch :=
  let w := ws !! key in
  if match w with Some w => readAt <=? w_lastRead w | None => false end then ws
  else if negb waiting then delete key ws
  else
    let w := default (MkWatch now 0 0) w in
    <[key := MkWatch (w_since w) (w_reads w + 1) readAt]> ws.

Definition waiting_now (s : BorrowSettings) (ws : gmap LenderKey lenderWatch) (key : LenderKey) (now : Z) : bool :=
  match ws !! key with
  | Some w => (2 <=? w_reads w) && (LenderDebounce s <=? now - w_since w)
  | None => false
  end.

(** What the walk over the pools has so far. *)
Record pool_walk := MkWalk {
  pw_watches : gmap LenderKey lenderWatch; pw_cooldown : gmap string Z; pw_raw : gset string; pw_seen : gset LenderKey }.

Definition lender_step (s : BorrowSettings) (now : Z) (ch : SharedPoolChunk) (p : pool_walk) (l : LenderState) : pool_walk :=
  let key := (ch_Cohort ch, l_Queue l, ch_Flavor ch, ch_Resource ch) in
  let seen := {[key]} ∪ pw_seen p in
  if ch_Stale ch then MkWalk (pw_watches p) (pw_cooldown p) (pw_raw p) seen
  else
    let raw := if l_Waiting l then {[ch_Cohort ch]} ∪ pw_raw p else pw_raw p in
    let ws := observeLender key (l_Waiting l) (ch_ReadAt ch) now (pw_watches p) in
    let cooldown := if waiting_now s ws key now then <[ch_Cohort ch := now + Cooldown s]> (pw_cooldown p) else pw_cooldown p in
    MkWalk ws cooldown raw seen.

Definition chunk_step (s : BorrowSettings) (now : Z) (rawBefore : gset string) (p : pool_walk) (ch : SharedPoolChunk) : pool_walk :=
  let raw := if ch_Stale ch && bool_decide (ch_Cohort ch ∈ rawBefore) then {[ch_Cohort ch]} ∪ pw_raw p else pw_raw p in
  foldl (lender_step s now ch) (MkWalk (pw_watches p) (pw_cooldown p) raw (pw_seen p)) (ch_Lenders ch).

(** A pool read fresh this cycle, or one no longer listed in a cycle that read nothing
    stale. *)
Definition pool_known (chunks : list SharedPoolChunk) (fk : string) : bool :=
  match last (filter (λ ch, chunk_key ch = fk) chunks) with
  | Some ch => negb (ch_Stale ch)
  | None => negb (existsb ch_Stale chunks)
  end.

Definition Observe (c : BorrowCycle) (g : BorrowGovernor) : BorrowGovernor :=
  let now := c_Now c in
  let g := pruneClocks now g in
  let landed k to := match c_States c !! k with Some s => heldOf s <=? to | None => true end in
  let pins := filter (λ e : string * Z, landed e.1 e.2 = false) (timeoutHeld g) in
  let '(noHole, restored) := observeNoHole c g in
  let p := foldl (chunk_step (settings g) now (rawWaiting g)) (MkWalk (watches g) (cohortCooldown g) ∅ ∅) (c_Chunks c) in
  MkGovernor (settings g)
    (filter (λ e : LenderKey * lenderWatch, bool_decide (e.1 ∈ pw_seen p) || negb (pool_known (c_Chunks c) (flavorKey e.1)) = true) (pw_watches p))
    (pw_cooldown p) (modelCooldown g) pins
    (dom (filter (λ e : string * variantRef, 0 < vr_Unplaced e.2) (c_States c))) (c_PreemptionUnknown c)
    (trackPast (pastSince g) (namespaceHeldPast (c_Constraints c)) now)
    (trackPast (uncountedSince g) (uncountedHeldPast (c_Constraints c)) now)
    (gatedPins g ∖ (dom (timeoutHeld g) ∖ dom pins)) (pw_raw p) (backoff g) noHole restored true 0.

(** ** Releases in flight *)

(** A decision's target capped at [to]; the last decision of a variant is the one
    indexed. *)
Definition lower_decision (to : Z) (reason : string) (d : VariantDecision) : VariantDecision :=
  if TargetReplicas d <=? to then d
  else
    let action := if CurrentReplicas d <=? to then ActionNoChange else ActionScaleDown in
    MkVariantDecision (VariantName d) (dec_Namespace d) (ModelID d) (dec_AcceleratorName d) (Cost d) (dec_Role d)
      (CurrentReplicas d) to (dec_GPUsPerReplica d) (to ⊠ Z.max (dec_GPUsPerReplica d) 1) (dec_MinReplicas d) (dec_MaxReplicas d)
      action DecisionReasonV2 (DecisionReasonV2 +:+ " (" +:+ reason +:+ ")") (dec_Utilization d) (dec_RequiredCapacity d)
      (dec_SpareCapacity d) (dec_TotalDemand d) (dec_PerReplicaCapacity d) (dec_ScaleUpThreshold d) (WasLimited d) (LimitedBy d)
      (LimitedByAlso d).

Definition decision_at (d : VariantDecision) : string := dec_Namespace d +:+ "/" +:+ VariantName d.

Fixpoint lower_last (key : string) (f : VariantDecision → VariantDecision) (ds : list VariantDecision) : list VariantDecision :=
  match ds with
  | [] => []
  | d :: ds => if String.eqb (decision_at d) key && negb (existsb (λ x, String.eqb (decision_at x) key) ds) then f d :: ds
               else d :: lower_last key f ds
  end.

Definition applyPins (g : BorrowGovernor) (decisions : list VariantDecision) : list VariantDecision :=
  foldl (λ ds (e : string * Z), lower_last e.1 (lower_decision e.2 "borrow-unplaced") ds) decisions (map_to_list (timeoutHeld g)).

(** A cycle that counts no borrowing: the releases in flight stay in force. *)
Definition HoldReleases (now : Z) (requests : list BorrowRequest) (decisions : list VariantDecision) (g : BorrowGovernor)
  : BorrowGovernor * list VariantDecision :=
  let idle := if (idleSince g =? 0) || (now <? idleSince g) then now else idleSince g in
  let states := indexStates requests in
  let unlanded k to := match states !! k with Some s => to <? heldOf s | None => false end in
  let landed k to := match states !! k with Some s => heldOf s <=? to | None => false end in
  let over := Cooldown (settings g) + ReleaseActuation (settings g) <? now - idle in
  let pins := if over then filter (λ e : string * Z, bool_decide (e.1 ∈ gatedPins g) && unlanded e.1 e.2 = true) (timeoutHeld g)
              else timeoutHeld g in
  let stays := filter (λ e : string * Z, landed e.1 e.2 = false) pins in
  let g := MkGovernor (settings g) (if over then ∅ else watches g) (cohortCooldown g) (modelCooldown g) stays (unplacedHeld g)
             (preemptUnknown g) (if over then ∅ else pastSince g) (uncountedSince g) (gatedPins g ∖ (dom (timeoutHeld g) ∖ dom stays))
             (if over then ∅ else rawWaiting g) (backoff g) (if over then ∅ else noHole g) (if over then ∅ else noHoleRestored g)
             (if over then false else started g) idle in
  (g, if over && bool_decide (pins = ∅) then decisions else applyPins g decisions).

(** ** The ledger *)
Record BorrowLedger := MkLedger {
  CohortCooldown : gmap string Z; ModelCooldown : gmap string Z; TimeoutHeld : gmap string Z; IdleSince : option Z;
  Backoff : gmap string BackoffEntry; NoHole : gmap string NoHoleReplicas }.

(** Up to the minute. *)
Definition up_to_minute (until : Z) : Z := let r := truncate_to until minute in if r <? until then r + minute else r.

Definition persistClocks (m : gmap string Z) : gmap string Z := up_to_minute <$> m.

Definition persist_backoff (e : BackoffEntry) : BackoffEntry :=
  MkBackoff (up_to_minute (Until e)) (Level e) (truncate_to (LastAt e) second) (Preempted e).

Definition Ledger (g : BorrowGovernor) : BorrowLedger :=
  MkLedger (persistClocks (cohortCooldown g)) (persistClocks (modelCooldown g)) (timeoutHeld g)
    (if idleSince g =? 0 then None else Some (idleSince g)) (persist_backoff <$> backoff g)
    (filter (λ e : string * NoHoleReplicas, 0 < nh_Replicas e.2 ∧ nh_Since e.2 ≠ 0) (noHole g)).

Definition maxLedgerItems : nat := 4096.
Definition maxLedgerReplicas : Z := 100000.

(** The keys to restore and how many are dropped. *)
Definition boundedKeys {V} (m : gmap string V) : list string * Z :=
  let keys := sort_strings (map_to_list m).*1 in
  (take maxLedgerItems keys, Z.max 0 (Z.of_nat (length keys) - Z.of_nat maxLedgerItems)).

(** One key restored: an entry out of bounds is counted as dropped, one that [usable]
    admits and the map does not hold yet is added. *)
Definition restore_key {V W} (out_of_bounds : V → bool) (usable : string → V → option W) (src : gmap string V)
    (acc : gmap string W * Z) (k : string) : gmap string W * Z :=
  match src !! k with
  | None => acc
  | Some v => if out_of_bounds v then (acc.1, acc.2 + 1)
              else match acc.1 !! k, usable k v with
                   | None, Some w => (<[k := w]> acc.1, acc.2)
                   | _, _ => acc
                   end
  end.

Definition restore_map {V W} (out_of_bounds : V → bool) (usable : string → V → option W) (dst : gmap string W) (src : gmap string V)
  : gmap string W * Z :=
  let '(keys, dropped) := boundedKeys src in foldl (restore_key out_of_bounds usable src) (dst, dropped) keys.

Definition restoreClocks (dst src : gmap string Z) : gmap string Z * Z :=
  restore_map (λ _, false) (λ k until, if negb (String.eqb k "") && negb (until =? 0) then Some until else None) dst src.

Definition Restore (l : BorrowLedger) (g : BorrowGovernor) : BorrowGovernor * Z :=
  let '(cohort, d1) := restoreClocks (cohortCooldown g) (CohortCooldown l) in
  let '(model, d2) := restoreClocks (modelCooldown g) (ModelCooldown l) in
  let '(pins, d3) := restore_map (λ to, maxLedgerReplicas <? to)
    (λ k to, if (0 <=? to) && contains_char "/" k then Some to else None) (timeoutHeld g) (TimeoutHeld l) in
  let '(back, d4) := restore_map (λ _, false)
    (λ k e, if contains_char "@" k && negb (Until e =? 0) && (0 <=? Level e) && (Level e <=? maxBackoffLevel) then Some e else None)
    (backoff g) (Backoff l) in
  let '(nohole, d5) := restore_map (λ h, maxLedgerReplicas <? nh_Replicas h)
    (λ k h, if contains_char "/" k && (0 <? nh_Replicas h) && (0 <=? nh_GPUs h) && negb (nh_Since h =? 0) then Some h else None)
    (noHole g) (NoHole l) in
  let idle := match IdleSince l with
              | Some at_ => if (idleSince g =? 0) && negb (started g) then at_ else idleSince g
              | None => idleSince g
              end in
  (MkGovernor (settings g) (watches g) cohort model pins (unplacedHeld g) (preemptUnknown g) (pastSince g) (uncountedSince g)
     (gatedPins g) (rawWaiting g) back nohole (noHoleRestored g ∪ (dom nohole ∖ dom (noHole g))) (started g) idle,
   d1 + d2 + d3 + d4 + d5).

(** ** Backoff entries *)
Lemma next_level (b : bool) level : 0 ≤ level ≤ maxBackoffLevel → 0 ≤ (if b then Z.min (level + 1) maxBackoffLevel else 0) ≤ maxBackoffLevel.
Proof. unfold maxBackoffLevel. destruct b; lia. Qed.

Section backoff.
Context (s : BorrowSettings).
Hypothesis Hcool : 0 ≤ Cooldown s.

Lemma backoffFor_bounds level : 0 ≤ level ≤ maxBackoffLevel →
  Cooldown s ≤ backoffFor s level ≤ backoffFor s maxBackoffLevel ∧ backoffFor s level ≤ Z.max maxBackoff (Cooldown s).
Proof using Hcool.
  intros Hl. unfold backoffFor, maxBackoffLevel, maxBackoff, minute, second in *. rewrite !Z.shiftl_mul_pow2 by lia.
  assert (level = 0 ∨ level = 1 ∨ level = 2) as [->|[->| ->]] by lia; cbn -[Z.mul Z.max Z.min]; lia.
Qed.

(** An entry of an event at or before [t]: in force for the cooldown at least and for
    the longest backoff at most. *)
Record entry_ok (t : Z) (e : BackoffEntry) : Prop := {
  eo_past : LastAt e ≤ t;
  eo_level : 0 ≤ Level e ≤ maxBackoffLevel;
  eo_least : LastAt e + Cooldown s ≤ Until e;
  eo_most : Until e ≤ LastAt e + backoffFor s maxBackoffLevel }.

Lemma mark_entry_ok t e at_ preempted timeout :
  at_ ≤ t → (∀ e0, e = Some e0 → entry_ok t e0) → entry_ok t (mark_entry s e at_ preempted timeout).
Proof using Hcool.
  intros Ht He. pose proof (backoffFor_bounds 0 ltac:(unfold maxBackoffLevel; lia)) as H0. unfold mark_entry.
  destruct e as [e|]; [|split; cbn [LastAt Level Until]; unfold maxBackoffLevel in *; lia].
  destruct (He e eq_refl) as [E1 E2 E3 E4]. destruct (at_ - LastAt e <? sameEvent) eqn:Hs; [done|].
  apply Z.ltb_ge in Hs. unfold sameEvent, minute, second in Hs.
  destruct (negb preempted && Preempted e && (at_ <? Until e)); [done|].
  destruct (negb preempted && Preempted e && _).
  { pose proof (backoffFor_bounds (Level e) E2). split; cbn [LastAt Level Until]; lia. }
  set (level := if at_ <? Until e + Cooldown s then Z.min (Level e + 1) maxBackoffLevel else 0).
  pose proof (next_level (at_ <? Until e + Cooldown s) (Level e) E2) as Hl. fold level in Hl.
  pose proof (backoffFor_bounds level Hl). split; cbn [LastAt Level Until]; lia.
Qed.

(** Nothing shortens a cooldown, and a preemption starts one. *)
Lemma mark_entry_until t e at_ preempted timeout :
  (∀ e0, e = Some e0 → entry_ok t e0) →
  let e' := mark_entry s e at_ preempted timeout in
  (∀ e0, e = Some e0 → Until e0 ≤ Until e') ∧ (preempted = true → at_ - sameEvent + Cooldown s ≤ Until e').
Proof using Hcool.
  intros He. pose proof (backoffFor_bounds 0 ltac:(unfold maxBackoffLevel; lia)) as H0.
  assert (0 < sameEvent) by done. unfold mark_entry. destruct e as [e|]; [|split; [done|intros _; cbn [Until]; lia]].
  destruct (He e eq_refl) as [E1 E2 E3 E4]. destruct (Z.ltb_spec (at_ - LastAt e) sameEvent) as [Hlt|Hge].
  { split; [by intros e0 [= <-]|intros _; lia]. }
  destruct (negb preempted && Preempted e && (at_ <? Until e)) eqn:Hb1.
  { split; [by intros e0 [= <-]|]. by intros ->. }
  destruct (negb preempted && Preempted e && (at_ <? LastAt e + _)) eqn:Hb2.
  { apply andb_true_iff in Hb2 as [Hb2 _]. rewrite Hb2 in Hb1. cbn [andb] in Hb1. apply Z.ltb_ge in Hb1.
    pose proof (backoffFor_bounds (Level e) E2). split; [intros e0 [= <-]; cbn [Until]; lia|]. intros ->. done. }
  set (level := if at_ <? Until e + Cooldown s then Z.min (Level e + 1) maxBackoffLevel else 0).
  pose proof (next_level (at_ <? Until e + Cooldown s) (Level e) E2) as Hl. fold level in Hl.
  pose proof (backoffFor_bounds level Hl). split; [intros e0 [= <-]; cbn [Until]; lia|intros _; cbn [Until]; lia].
Qed.

Lemma prune_entry_ok t now e : entry_ok t e → t ≤ now →
  (prune_entry s now e = Some e ∧ now < Until e + Cooldown s) ∨ (prune_entry s now e = None ∧ Until e + Cooldown s ≤ now).
Proof using Hcool.
  intros [E1 E2 E3 E4] Ht. unfold prune_entry. destruct (Z.leb_spec (Until e + Cooldown s) now); [by right|left].
  split; [|lia]. destruct (Z.ltb_spec (backoffFor s maxBackoffLevel) (Until e - now)); [lia|done].
Qed.
End backoff.

(** ** Waiting lenders *)
Lemma lender_step_raw s now ch p l : pw_raw p ⊆ pw_raw (lender_step s now ch p l) ∧
  (ch_Stale ch = false → l_Waiting l = true → ch_Cohort ch ∈ pw_raw (lender_step s now ch p l)).
Proof. unfold lender_step. destruct (ch_Stale ch); cbn; [set_solver|]. destruct (l_Waiting l); set_solver. Qed.

Lemma lender_fold_raw s now ch ls p : pw_raw p ⊆ pw_raw (foldl (lender_step s now ch) p ls) ∧
  (ch_Stale ch = false → ∀ l, l ∈ ls → l_Waiting l = true → ch_Cohort ch ∈ pw_raw (foldl (lender_step s now ch) p ls)).
Proof.
  revert p. induction ls as [|x ls IH]; intros p; cbn [foldl]; [split; [done|by intros _ l ?%not_elem_of_nil]|].
  destruct (IH (lender_step s now ch p x)) as [I1 I2]. destruct (lender_step_raw s now ch p x) as [S1 S2]. split; [set_solver|].
  intros Hs l [->|Hl]%elem_of_cons Hw; [set_solver|by eapply I2].
Qed.

Lemma chunk_step_raw s now before p ch : pw_raw p ⊆ pw_raw (chunk_step s now before p ch) ∧
  (ch_Stale ch = false → ∀ l, l ∈ ch_Lenders ch → l_Waiting l = true → ch_Cohort ch ∈ pw_raw (chunk_step s now before p ch)) ∧
  (ch_Stale ch = true → ch_Cohort ch ∈ before → ch_Cohort ch ∈ pw_raw (chunk_step s now before p ch)).
Proof.
  unfold chunk_step. set (q := MkWalk _ _ _ _). destruct (lender_fold_raw s now ch (ch_Lenders ch) q) as [F1 F2].
  assert (Hq : pw_raw p ⊆ pw_raw q) by (subst q; cbn; destruct (_ && _); set_solver). split_and!; [set_solver|done|].
  intros Hs Hb. apply F1. subst q. cbn. rewrite Hs, bool_decide_eq_true_2 by done. cbn. set_solver.
Qed.

Lemma chunks_raw s now before chunks p : pw_raw p ⊆ pw_raw (foldl (chunk_step s now before) p chunks) ∧
  ∀ ch, ch ∈ chunks →
    (ch_Stale ch = false → ∀ l, l ∈ ch_Lenders ch → l_Waiting l = true → ch_Cohort ch ∈ pw_raw (foldl (chunk_step s now before) p chunks)) ∧
    (ch_Stale ch = true → ch_Cohort ch ∈ before → ch_Cohort ch ∈ pw_raw (foldl (chunk_step s now before) p chunks)).
Proof.
  revert p. induction chunks as [|x chunks IH]; intros p; cbn [foldl]; [split; [done|by intros ch ?%not_elem_of_nil]|].
  destruct (IH (chunk_step s now before p x)) as [I1 I2]. destruct (chunk_step_raw s now before p x) as (S1 & S2 & S3). split; [set_solver|].
  intros ch [->|Hch]%elem_of_cons; [|by apply I2]. split; [intros Hs l Hl Hw; apply I1; by eapply S2|intros Hs Hb; apply I1; by apply S3].
Qed.

Lemma observe_raw c g : rawWaiting (Observe c g) =
  pw_raw (foldl (chunk_step (settings g) (c_Now c) (rawWaiting g))
            (MkWalk (watches g) (omap (prune_clock (Cooldown (settings g)) (c_Now c)) (cohortCooldown g)) ∅ ∅) (c_Chunks c)).
Proof. unfold Observe. by destruct (observeNoHole c (pruneClocks (c_Now c) g)). Qed.

(** ** Restarts *)
Lemma up_to_minute_bounds u : u ≤ up_to_minute u < u + minute.
Proof.
  assert (0 < minute) by done. pose proof (Z.mod_pos_bound u minute ltac:(done)). unfold up_to_minute, truncate_to.
  destruct (Z.ltb_spec (u - u mod minute) u); lia.
Qed.

Section restore.
Context {V W : Type} (out : V → bool) (usable : string → V → option W) (src : gmap string V).
Hypothesis Hout : ∀ k v, src !! k = Some v → out v = false.

Lemma restore_one dst d k : dst !! k = None →
  restore_key out usable src (dst, d) k = (partial_alter (λ _, src !! k ≫= usable k) k dst, d).
Proof using Hout.
  intros Hk. unfold restore_key. destruct (src !! k) as [v|] eqn:E; cbn [mbind option_bind].
  - rewrite (Hout k v E). cbn [fst snd]. rewrite Hk. destruct (usable k v) eqn:Hu; [done|].
    by rewrite <-Hk, partial_alter_self.
  - by rewrite <-Hk, partial_alter_self.
Qed.

Lemma restored_fold ks dst d : NoDup ks → (∀ k, k ∈ ks → dst !! k = None) →
  let r := foldl (restore_key out usable src) (dst, d) ks in
  r.2 = d ∧ ∀ k, r.1 !! k = if bool_decide (k ∈ ks) then src !! k ≫= usable k else dst !! k.
Proof using Hout.
  revert dst. induction ks as [|k ks IH]; intros dst Hnd Hdst; cbn [foldl].
  { split; [done|]. intros k. by rewrite bool_decide_eq_false_2 by (apply not_elem_of_nil). }
  apply NoDup_cons in Hnd as [Hk Hnd]. rewrite restore_one by (apply Hdst; by left).
  destruct (IH (partial_alter (λ _, src !! k ≫= usable k) k dst) Hnd) as [I1 I2].
  { intros x Hx. rewrite lookup_partial_alter_ne by (intros ->; done). apply Hdst. by right. }
  split; [done|]. intros x. rewrite I2. destruct (decide (x = k)) as [->|Hx].
  - rewrite (bool_decide_eq_true_2 (k ∈ k :: ks)) by (by left). rewrite bool_decide_eq_false_2 by done.
    by rewrite lookup_partial_alter_eq.
  - rewrite lookup_partial_alter_ne by done. rewrite (bool_decide_ext (x ∈ k :: ks) (x ∈ ks)); [done|].
    rewrite elem_of_cons. naive_solver.
Qed.

(** A map restored into an empty one: nothing dropped, and every entry the reader can
    use kept. *)
Lemma restore_map_all : (size src ≤ maxLedgerItems)%nat →
  restore_map out usable ∅ src = (map_imap usable src, 0).
Proof using Hout.
  intros Hsize. unfold restore_map, boundedKeys.
  set (keys := sort_strings (map_to_list src).*1).
  assert (Hp : keys ≡ₚ (map_to_list src).*1) by apply sort_strings_perm.
  assert (Hlen : length keys = size src) by (rewrite Hp, length_fmap; apply length_map_to_list).
  rewrite take_ge by lia. rewrite Z.max_l by lia.
  destruct (restored_fold keys ∅ 0) as [H1 H2].
  { rewrite Hp. apply NoDup_fst_map_to_list. }
  { intros k _. apply lookup_empty. }
  apply injective_projections; [|exact H1]. cbn [fst]. apply map_eq. intros k. rewrite H2, map_lookup_imap, lookup_empty.
  destruct (src !! k) as [v|] eqn:E; cbn.
  - rewrite bool_decide_eq_true_2; [done|]. rewrite Hp. apply list_elem_of_fmap. exists (k, v). split; [done|]. by apply elem_of_map_to_list.
  - by destruct (bool_decide _).
Qed.
End restore.

(** What a ledger can keep: bounded maps, keys and clocks of the governor's own form. *)
Record storable (g : BorrowGovernor) : Prop := {
  st_sizes : (size (cohortCooldown g) ≤ maxLedgerItems ∧ size (modelCooldown g) ≤ maxLedgerItems ∧
              size (timeoutHeld g) ≤ maxLedgerItems ∧ size (backoff g) ≤ maxLedgerItems ∧ size (noHole g) ≤ maxLedgerItems)%nat;
  st_cohort : ∀ k u, cohortCooldown g !! k = Some u → k ≠ "" ∧ 0 < u;
  st_model : ∀ k u, modelCooldown g !! k = Some u → k ≠ "" ∧ 0 < u;
  st_pins : ∀ k n, timeoutHeld g !! k = Some n → contains_char "/" k = true ∧ 0 ≤ n ≤ maxLedgerReplicas;
  st_backoff : ∀ k e, backoff g !! k = Some e → contains_char "@" k = true ∧ 0 < Until e ∧ 0 ≤ Level e ≤ maxBackoffLevel;
  st_noHole : ∀ k h, noHole g !! k = Some h →
    contains_char "/" k = true ∧ 0 < nh_Replicas h ≤ maxLedgerReplicas ∧ 0 ≤ nh_GPUs h ∧ nh_Since h ≠ 0 }.

Lemma map_imap_all {V} (usable : string → V → option V) (m : gmap string V) :
  (∀ k v, m !! k = Some v → usable k v = Some v) → map_imap usable m = m.
Proof.
  intros Hu. apply map_eq. intros k. rewrite map_lookup_imap. destruct (m !! k) as [v|] eqn:E; [|done]. cbn. exact (Hu k v E).
Qed.

Lemma restore_clocks_all (m : gmap string Z) : (size m ≤ maxLedgerItems)%nat → (∀ k u, m !! k = Some u → k ≠ "" ∧ 0 < u) →
  restoreClocks ∅ (persistClocks m) = (up_to_minute <$> m, 0).
Proof.
  intros Hs Hm. unfold restoreClocks, persistClocks. rewrite restore_map_all; [|done|by rewrite map_size_fmap].
  f_equal. apply map_imap_all. intros k ? (u & <- & E)%lookup_fmap_Some. destruct (Hm k u E) as [Hk Hu]. pose proof (up_to_minute_bounds u).
  rewrite (proj2 (String.eqb_neq _ _) Hk). cbn [negb andb]. by rewrite (proj2 (Z.eqb_neq _ _)) by lia.
Qed.

(** The governor read back from its ledger. *)
Lemma restored s g : storable g →
  Restore (Ledger g) (NewBorrowGovernor s) =
  (MkGovernor s ∅ (up_to_minute <$> cohortCooldown g) (up_to_minute <$> modelCooldown g) (timeoutHeld g) ∅ ∅ ∅ ∅ ∅ ∅
     (persist_backoff <$> backoff g) (noHole g) (dom (noHole g)) false (idleSince g), 0).
Proof.
  intros [(S1 & S2 & S3 & S4 & S5) Hc Hm Hp Hb Hn]. unfold Restore, Ledger.
  cbn [CohortCooldown ModelCooldown TimeoutHeld Backoff NoHole IdleSince NewBorrowGovernor cohortCooldown modelCooldown timeoutHeld
       backoff noHole noHoleRestored settings watches unplacedHeld preemptUnknown pastSince uncountedSince gatedPins rawWaiting
       started idleSince].
  rewrite !restore_clocks_all by done.
  rewrite (map_filter_id _ (noHole g)) by (intros k h E; destruct (Hn k h E) as (_ & ? & _ & ?); cbn; split; [lia|done]).
  rewrite (restore_map_all _ _ (timeoutHeld g));
    [|intros k n E; destruct (Hp k n E) as [_ ?]; apply Z.ltb_ge; lia|done].
  rewrite (restore_map_all _ _ (persist_backoff <$> backoff g)); [|done|by rewrite map_size_fmap].
  rewrite (restore_map_all _ _ (noHole g)); [|intros k h E; destruct (Hn k h E) as (_ & ? & _); apply Z.ltb_ge; lia|done].
  rewrite (map_imap_all _ (timeoutHeld g)) by (intros k n E; destruct (Hp k n E) as [-> ?]; by rewrite (proj2 (Z.leb_le _ _)) by lia).
  rewrite (map_imap_all _ (noHole g)) by (intros k h E; destruct (Hn k h E) as (-> & ? & ? & ?);
    by rewrite (proj2 (Z.ltb_lt _ _)), (proj2 (Z.leb_le _ _)), (proj2 (Z.eqb_neq _ _)) by lia).
  rewrite (map_imap_all _ (persist_backoff <$> backoff g)).
  2: { intros k ? (e & <- & E)%lookup_fmap_Some. destruct (Hb k e E) as (-> & ? & ?). pose proof (up_to_minute_bounds (Until e)).
       unfold persist_backoff. cbn [Until Level]. by rewrite (proj2 (Z.eqb_neq _ _)), !(proj2 (Z.leb_le _ _)) by lia. }
  rewrite dom_empty_L, difference_empty_L, union_empty_l_L. f_equal. f_equal.
  destruct (Z.eqb_spec (idleSince g) 0) as [->|]; done.
Qed.

(** Clocks rounded up to the minute: in force as long, and for less than a minute more. *)
Lemma in_force_up o now :
  (in_force o now = true → in_force (up_to_minute <$> o) now = true) ∧
  (in_force (up_to_minute <$> o) now = true → in_force o (now - minute) = true).
Proof.
  destruct o as [u|]; [|done]. cbn. pose proof (up_to_minute_bounds u). rewrite !Z.ltb_lt. lia.
Qed.

Lemma until_up (b : gmap string BackoffEntry) k now :
  (in_force (Until <$> b !! k) now = true → in_force (Until <$> (persist_backoff <$> b) !! k) now = true) ∧
  (in_force (Until <$> (persist_backoff <$> b) !! k) now = true → in_force (Until <$> b !! k) (now - minute) = true).
Proof. rewrite lookup_fmap. pose proof (in_force_up (Until <$> b !! k) now). by destruct (b !! k). Qed.

Lemma cooling_up (m : gmap string Z) now :
  dom (filter (λ e : string * Z, now < e.2) m) ⊆ dom (filter (λ e : string * Z, now < e.2) (up_to_minute <$> m)) ∧
  dom (filter (λ e : string * Z, now < e.2) (up_to_minute <$> m)) ⊆ dom (filter (λ e : string * Z, now - minute < e.2) m).
Proof.
  split; intros k [u [Hk Hu]%map_lookup_filter_Some]%elem_of_dom; cbn in Hu.
  - apply elem_of_dom. exists (up_to_minute u). apply map_lookup_filter_Some. rewrite lookup_fmap, Hk. split; [done|].
    pose proof (up_to_minute_bounds u). cbn. lia.
  - apply lookup_fmap_Some in Hk as (u0 & <- & Hk). apply elem_of_dom. exists u0. apply map_lookup_filter_Some. split; [done|].
    pose proof (up_to_minute_bounds u0). cbn. lia.
Qed.

Lemma backoff_prefix (p : string) (b : gmap string BackoffEntry) now :
  existsb (λ e : string * BackoffEntry, String.prefix p e.1 && (now <? Until e.2)) (map_to_list b) = true ↔
  ∃ k, String.prefix p k = true ∧ in_force (Until <$> b !! k) now = true.
Proof.
  rewrite existsb_exists. split.
  - intros ([k e] & Hin & [Hp Hu]%andb_true_iff). apply list_elem_of_In, elem_of_map_to_list in Hin. exists k. by rewrite Hin.
  - intros (k & Hp & Hu). destruct (b !! k) as [e|] eqn:E; [|done]. exists (k, e).
    split; [by apply list_elem_of_In, elem_of_map_to_list|]. cbn in *. by rewrite Hp, Hu.
Qed.

Lemma backoff_prefix_up (p : string) (b : gmap string BackoffEntry) now :
  let cooling b now := existsb (λ e : string * BackoffEntry, String.prefix p e.1 && (now <? Until e.2)) (map_to_list b) in
  (cooling b now = true → cooling (persist_backoff <$> b) now = true) ∧
  (cooling (persist_backoff <$> b) now = true → cooling b (now - minute) = true).
Proof. cbn. rewrite !backoff_prefix. split; intros (k & Hp & Hk); exists k; (split; [done|]); by apply until_up. Qed.

(** ** Properties *)

(** C34: the first sighting of a waiting lender, in any provider's read of a pool that no
    provider's read of it is stale for, stops new borrowing in its cohort; and a cohort
    closed so stays closed through a cycle that reads one of its pools stale. *)
Theorem waiting_lender_closes c g p now :
  p ∈ shared_reads (c_Constraints c) →
  (∀ q, q ∈ shared_reads (c_Constraints c) → chunk_key q = chunk_key p → ch_Cohort q = ch_Cohort p) →
  ((∃ l, l ∈ ch_Lenders p ∧ l_Waiting l = true) ∧ (∀ q, q ∈ shared_reads (c_Constraints c) → chunk_key q = chunk_key p → ch_Stale q = false)) ∨
  (ch_Stale p = true ∧ ch_Cohort p ∈ rawWaiting g) →
  ch_Cohort p ∈ BlockedCohorts (Observe c g) now.
Proof.
  intros Hp Hco Hcase. unfold BlockedCohorts. apply elem_of_union_r. rewrite observe_raw.
  destruct (merge_chunks_ok (shared_reads (c_Constraints c))) as (by_key & [M1 M2 M3 M4 _] & Hin). destruct (M1 p Hp) as (m & Hm & Hc).
  assert (Hmin : m ∈ c_Chunks c) by (apply Hin; by eexists). destruct (M3 _ _ Hm) as (q & Hq & Hqk & Hqc).
  rewrite <-(Hco q Hq Hqk), Hqc. destruct (chunks_raw (settings g) (c_Now c) (rawWaiting g) (c_Chunks c)
    (MkWalk (watches g) (omap (prune_clock (Cooldown (settings g)) (c_Now c)) (cohortCooldown g)) ∅ ∅)) as [_ H].
  destruct (H m Hmin) as [H1 H2]. destruct Hcase as [[(l & Hl & Hw) Hfresh]|[Hs Hraw]].
  - destruct (ca_Lenders _ _ Hc l Hl) as (l' & Hl' & _ & Hw'). apply (H1 ltac:(apply not_true_iff_false; intros Hs;
      destruct (M4 _ _ Hm Hs) as (x & Hx & Hxk & Hxs); rewrite (Hfresh x Hx Hxk) in Hxs; done) l' Hl' (Hw' Hw)).
  - apply H2; [by apply (ca_Stale _ _ Hc)|]. by rewrite <-Hqc, (Hco q Hq Hqk).
Qed.

(** Two providers read a pool; one of them sees its lender wait. *)
Lemma waiting_lender_closes_witness :
  let read waiting := MkChunk "cohort" "h100" "gpu" (MkFlavor "H100" ∅ [] "") 8 [MkLender "q" waiting "Any" 8 None 0 0 None 0] minute
    false 0 ∅ [] [] ∅ 0 None None 0 true 0 false 8 false in
  let base := MkConstraints "kueue" ∅ (Some ∅) true 0 0 0 false true true false 0 in
  let of_ r := Some (MkBorrowConstraints base (Some ∅) [r] ∅ ∅ ∅) in
  let c := MkCycle (1000 * minute) [of_ (read false); None; of_ (read true)] [] ∅ ∅ ∅ in
  "cohort" ∈ BlockedCohorts (Observe c (NewBorrowGovernor DefaultBorrowSettings)) (1000 * minute).
Proof.
  intros read base of_ c.
  assert (Hreads : shared_reads (c_Constraints c) = [read false; read true]) by reflexivity.
  apply (waiting_lender_closes c (NewBorrowGovernor DefaultBorrowSettings) (read true)).
  - rewrite Hreads. right. constructor.
  - rewrite Hreads. intros q [->|[->|[]%not_elem_of_nil]%elem_of_cons]%elem_of_cons _; reflexivity.
  - left. split; [eexists; split; [constructor|reflexivity]|].
    rewrite Hreads. intros q [->|[->|[]%not_elem_of_nil]%elem_of_cons]%elem_of_cons _; reflexivity.
Defined.

(** C40: a restart keeps the governor's cooldowns and releases.  A governor the ledger can
    keep, written out and read back into a new one, drops nothing and holds the same
    releases, no-hole entries and idle time; whatever was kept off borrowing, a model in
    a cohort, a model, or a cohort in its cooldown, still is, and none of it for a minute
    longer than before.  Only the lenders seen waiting in the last read are forgotten,
    until the next one. *)
Theorem ledger_restart s g : storable g →
  let '(g', dropped) := Restore (Ledger g) (NewBorrowGovernor s) in
  dropped = 0 ∧ timeoutHeld g' = timeoutHeld g ∧ noHole g' = noHole g ∧ idleSince g' = idleSince g ∧
  (∀ ns m c now, (BorrowBlockedIn g ns m c now = true → BorrowBlockedIn g' ns m c now = true) ∧
                 (BorrowBlockedIn g' ns m c now = true → BorrowBlockedIn g ns m c (now - minute) = true)) ∧
  (∀ ns m now, (CoolingDown g ns m now = true → CoolingDown g' ns m now = true) ∧
               (CoolingDown g' ns m now = true → CoolingDown g ns m (now - minute) = true)) ∧
  (∀ now, BlockedCohorts g now ⊆ BlockedCohorts g' now ∪ rawWaiting g ∧
          BlockedCohorts g' now ⊆ BlockedCohorts g (now - minute)).
Proof.
  intros Hg. rewrite (restored s g Hg). split_and!; [done..| | |].
  - intros ns m c now. unfold BorrowBlockedIn. cbn [backoff]. apply until_up.
  - intros ns m now. unfold CoolingDown. cbn [backoff modelCooldown]. rewrite lookup_fmap.
    destruct (in_force_up (modelCooldown g !! (ns +:+ "/" +:+ m)) now) as [M1 M2].
    destruct (backoff_prefix_up ((ns +:+ "/" +:+ m) +:+ "@") (backoff g) now) as [B1 B2].
    rewrite !orb_true_iff. naive_solver.
  - intros now. unfold BlockedCohorts. cbn [cohortCooldown rawWaiting]. destruct (cooling_up (cohortCooldown g) now). set_solver.
Qed.

Lemma ledger_restart_witness :
  let s := DefaultBorrowSettings in
  let g := MarkPreemptedIn "ns/m" ["cohort"] (1000 * minute + 7 * second) (NewBorrowGovernor s) in
  let g' := (Restore (Ledger g) (NewBorrowGovernor s)).1 in
  BorrowBlockedIn g' "ns" "m" "cohort" (1010 * minute) = true ∧ BorrowBlockedIn g' "ns" "m" "cohort" (1011 * minute + 7 * second) = false.
Proof.
  intros s g g'.
  assert (Hg : storable g).
  { split.
    - split_and!; apply Nat.leb_le; vm_compute; reflexivity.
    - intros k u E. change (cohortCooldown g) with (∅ : gmap string Z) in E. by rewrite lookup_empty in E.
    - intros k u E. change (modelCooldown g) with (∅ : gmap string Z) in E. by rewrite lookup_empty in E.
    - intros k u E. change (timeoutHeld g) with (∅ : gmap string Z) in E. by rewrite lookup_empty in E.
    - intros k e E.
      change (backoff g) with (<["ns/m@cohort" := mark_entry s None (1000 * minute + 7 * second) true (5 * minute)]> (∅ : gmap string BackoffEntry)) in E.
      apply lookup_insert_Some in E as [[<- <-]|[_ E]]; [done|]. by rewrite lookup_empty in E.
    - intros k u E. change (noHole g) with (∅ : gmap string NoHoleReplicas) in E. by rewrite lookup_empty in E. }
  pose proof (ledger_restart s g Hg) as H. destruct (Restore (Ledger g) (NewBorrowGovernor s)) as [g2 d]. subst g'. cbn [fst].
  destruct H as (_ & _ & _ & _ & H & _). split.
  - apply (proj1 (H "ns" "m" "cohort" (1010 * minute))). vm_compute. reflexivity.
  - destruct (BorrowBlockedIn g2 _ _ _ _) eqn:E; [|reflexivity]. apply (H "ns" "m" "cohort" (1011 * minute + 7 * second)) in E. vm_compute in E. discriminate E.
Defined.
