(* ===== verification/BorrowUnit.v ===== *)
(** * Units of a release

    The model of [releaseUnit], [trimmedUnit], [partnerUnit] and [unitFits] of
    [borrow_governor.go] of [internal/engines/allocation]: which replicas go when the
    borrow governor releases some of a variant, a disaggregated model together with the
    partner replicas that keep its pair.

    A unit is the number of replicas to release per variant.  Its GPUs are counted with
    [gprOf].  The roles are walked in order; where Go leaves the order open, what one role
    gives does not depend on the others.

    Theorems: a unit never leaves one role of a pair without its partner, and its GPUs
    are within what is borrowed, or one replica's if that is more, unless the whole pair
    goes. *)
From Stdlib Require Import ZArith Lia String Ascii.
From stdpp Require Import functions base gmap strings list sorting fin_maps.
From S2P Require Import Prelude Domain BorrowConstraints.
Open Scope Z_scope.

(** ** Units *)
Notation unit_map := (gmap string Z).
Definition unit_at (u : unit_map) (v : string) : Z := default 0 (u !! v).
Definition add_take (u : unit_map) (v : string) (n : Z) : unit_map := <[v := unit_at u v + n]> u.

(** GPUs of one replica of a variant. *)
Definition gprOf (ns : string) (states : gmap string variantRef) (v : string) : Z :=
  Z.max (vr_GPUs (default zero_ref (states !! variant_key ns v))) 1.

(** Replicas above the minimum. *)
Definition spare (st : variantRef) : Z := vr_Current st - minOf st.

(** The most above their minimum first, then by name. *)
Definition spare_first (a b : variantRef) : bool :=
  (spare b <? spare a) || ((spare a =? spare b) && str_le (vr_Name a) (vr_Name b)).

(** The states of a role, in their order. *)
Definition role_states (sts : list variantRef) (r : string) : list variantRef := filter (λ st, vr_Role st = r) sts.
Definition role_total (sts : list variantRef) (r : string) : Z := sumZ vr_Current (role_states sts r).

(** The roles, each once. *)
Definition pair_roles (sts : list variantRef) : list string := sort_strings (elements (list_to_set (vr_Role <$> sts) : gset string)).

(** The role of a variant: that of its last state. *)
Definition role_of (sts : list variantRef) (variant : string) : string :=
  default "" (vr_Role <$> last (filter (λ st, vr_Name st = variant) sts)).

Section units.
Context (ns : string) (states : gmap string variantRef).
Let gpr := gprOf ns states.

(** [n] replicas of a role, from its variants in turn; with what is left of [n]. *)
Definition take_variant (acc : unit_map * Z * Z) (st : variantRef) : unit_map * Z * Z :=
  let '(u, gpus, n) := acc in
  let take := Z.min n (Z.max 0 (spare st)) in
  if 0 <? take then (add_take u (vr_Name st) take, gpus + take * gpr (vr_Name st), n - take) else acc.

Definition take_role (sts : list variantRef) (role : string) (k : Z) (acc : unit_map * Z * bool) (r : string) : unit_map * Z * bool :=
  let '(u, gpus, fits) := acc in
  if String.eqb r role then acc
  else
    let n := (k * role_total sts r) `quot` role_total sts role in
    let '(u, gpus, n) := foldl take_variant (u, gpus, n) (sort_stable spare_first (role_states sts r)) in
    (u, gpus, fits && (n =? 0)).

(** One replica at a time of a variant, while the ratio leaves some and they fit. *)
Fixpoint trim_variant (n : nat) (v : string) (capGPUs : Z) (acc : unit_map * Z * Z) : unit_map * Z * Z :=
  match n with
  | O => acc
  | S n => let '(u, gpus, ratio) := acc in
           if (0 <? ratio) && (gpus + gpr v <=? capGPUs)
           then trim_variant n v capGPUs (add_take u v 1, gpus + gpr v, ratio - 1)
           else acc
  end.

Definition trim_role (sts : list variantRef) (role : string) (capGPUs : Z) (acc : unit_map * Z) (r : string) : unit_map * Z :=
  let '(u, gpus) := acc in
  if String.eqb r role then acc
  else
    let ratio := role_total sts r `quot` role_total sts role in
    (foldl (λ acc st, trim_variant (Z.to_nat (Z.max 0 (spare st))) (vr_Name st) capGPUs acc) (u, gpus, ratio)
       (sort_stable spare_first (role_states sts r))).1.

Definition trimmedUnit (sts : list variantRef) (variant role : string) (capGPUs : Z) : unit_map * Z :=
  foldl (trim_role sts role capGPUs) ({[variant := 1]}, gpr variant) (pair_roles sts).

(** The same until the need is met. *)
Fixpoint partner_loop (n : nat) (v : string) (need capGPUs : Z) (acc : unit_map * Z * Z) : unit_map * Z * Z :=
  match n with
  | O => acc
  | S n => let '(u, gpus, room) := acc in
           if (0 <? room) && (gpus <? need) && (gpus + gpr v <=? capGPUs)
           then partner_loop n v need capGPUs (add_take u v 1, gpus + gpr v, room - 1)
           else acc
  end.

Definition partner_role (sts : list variantRef) (role : string) (need capGPUs : Z) (acc : unit_map * Z) (r : string) : unit_map * Z :=
  let '(u, gpus) := acc in
  if String.eqb r role || (need <=? gpus) then acc
  else
    (foldl (λ acc st, partner_loop (Z.to_nat (Z.max 0 (spare st))) (vr_Name st) need capGPUs acc) (u, gpus, -1 + role_total sts r)
       (sort_stable spare_first (role_states sts r))).1.

Definition partnerUnit (sts : list variantRef) (variant role : string) (capGPUs : Z) : option (unit_map * Z) :=
  let need := gpr variant in
  let r := foldl (partner_role sts role need capGPUs) (∅, 0) (pair_roles sts) in
  if r.2 <? need then None else Some r.

(** The unit of [k] replicas, [k] shrinking until it fits. *)
Fixpoint unit_loop (sts : list variantRef) (variant role : string) (capGPUs : Z) (k : nat) : option (unit_map * Z) :=
  match k with
  | O => None
  | S k' =>
      let kz := Z.of_nat k in
      let '(u, gpus, fits) := foldl (take_role sts role kz) ({[variant := kz]}, kz * gpr variant, true) (pair_roles sts) in
      if fits && ((capGPUs <? 0) || (gpus <=? capGPUs)) then Some (u, gpus)
      else if fits && (kz =? 1) then
        if 0 <? role_total sts role - 1 then Some (trimmedUnit sts variant role capGPUs)
        else match partnerUnit sts variant role capGPUs with
             | Some r => Some r
             | None => Some (u, gpus)
             end
      else unit_loop sts variant role capGPUs k'
  end.

Definition releaseUnit (disaggregated : bool) (sts : list variantRef) (variant : string) (k capGPUs : Z) : option (unit_map * Z) :=
  if k <=? 0 then None
  else if negb disaggregated then Some ({[variant := k]}, k * gpr variant)
  else
    let role := role_of sts variant in
    if role_total sts role <=? 0 then None else unit_loop sts variant role capGPUs (Z.to_nat k).

Definition unitFits (u : unit_map) : bool :=
  forallb (λ e : string * Z,
    match states !! variant_key ns e.1 with
    | Some s => negb ((e.2 <=? 0) || (vr_Current s - e.2 <? minOf s))
    | None => false
    end) (map_to_list u).
End units.

(** ** What a unit takes *)

(** The GPUs of a unit, and the replicas it takes of a role. *)
Definition unit_gpus (gpr : string → Z) (u : unit_map) : Z := sumZ (λ e : string * Z, e.2 * gpr e.1) (map_to_list u).
Definition role_released (sts : list variantRef) (u : unit_map) (r : string) : Z :=
  sumZ (λ st, unit_at u (vr_Name st)) (role_states sts r).

Lemma unit_at_add u v n w : unit_at (add_take u v n) w = unit_at u w + if decide (v = w) then n else 0.
Proof.
  unfold add_take. case_decide as Hv; [subst w|]; unfold unit_at at 1; [by rewrite lookup_insert_eq|].
  rewrite lookup_insert_ne by done. unfold unit_at. lia.
Qed.

Lemma unit_gpus_insert gpr u v n : unit_gpus gpr (<[v := n]> u) = unit_gpus gpr u + (n - unit_at u v) * gpr v.
Proof. unfold unit_gpus, unit_at. rewrite sumZ_insert. destruct (u !! v); cbn; lia. Qed.

Lemma unit_gpus_add gpr u v n : unit_gpus gpr (add_take u v n) = unit_gpus gpr u + n * gpr v.
Proof. unfold add_take. rewrite unit_gpus_insert. lia. Qed.

Lemma sum_at_name (sts : list variantRef) st n : NoDup (vr_Name <$> sts) → st ∈ sts →
  sumZ (λ x, if decide (vr_Name st = vr_Name x) then n else 0) sts = n.
Proof.
  induction sts as [|x sts IH]; [by intros _ ?%not_elem_of_nil|]. cbn [fmap list_fmap]. rewrite NoDup_cons, sumZ_cons.
  intros [Hx Hnd] [->|Hin]%elem_of_cons.
  - rewrite decide_True by done. rewrite (sumZ_ext _ (λ _, 0)), sumZ_zero; [lia|]. intros y Hy.
    apply decide_False. intros Heq. apply Hx. rewrite Heq. by apply list_elem_of_fmap_2.
  - rewrite IH by done. rewrite decide_False; [lia|]. intros Heq. apply Hx. rewrite <-Heq. by apply list_elem_of_fmap_2.
Qed.

Section walks.
Context (ns : string) (states : gmap string variantRef) (sts : list variantRef).
Hypothesis Hnames : NoDup (vr_Name <$> sts).
Let gpr := gprOf ns states.

Lemma gpr_pos v : 1 ≤ gpr v.
Proof. unfold gpr, gprOf. lia. Qed.

Lemma role_states_in st r : st ∈ role_states sts r ↔ vr_Role st = r ∧ st ∈ sts.
Proof. unfold role_states. by rewrite list_elem_of_filter. Qed.

Lemma role_states_names r : NoDup (vr_Name <$> role_states sts r).
Proof using Hnames. eapply sublist_NoDup; [exact Hnames|]. apply fmap_sublist, sublist_filter. Qed.

(** A walk that takes [d] replicas of role [r] and counts their GPUs. *)
Record role_walk (r : string) (d : Z) (a b : unit_map * Z) : Prop := {
  rw_taken : ∀ r', role_released sts b.1 r' = role_released sts a.1 r' + if decide (r' = r) then d else 0;
  rw_gpus : b.2 - a.2 = unit_gpus gpr b.1 - unit_gpus gpr a.1;
  rw_keys : dom a.1 ⊆ dom b.1 ⊆ dom a.1 ∪ list_to_set (vr_Name <$> sts) }.

Lemma walk_refl r a : role_walk r 0 a a.
Proof. split; [intros r'; case_decide; lia|lia|set_solver]. Qed.

Lemma walk_trans r d1 d2 a b x : role_walk r d1 a b → role_walk r d2 b x → role_walk r (d1 + d2) a x.
Proof.
  intros [T1 G1 K1] [T2 G2 K2]. split; [|lia|set_solver]. intros r'. rewrite T2, T1. case_decide; lia.
Qed.

Lemma walk_step r st u g n : st ∈ role_states sts r → role_walk r n (u, g) (add_take u (vr_Name st) n, g + n * gpr (vr_Name st)).
Proof using Hnames.
  intros Hst. split; cbn [fst snd]; [|rewrite unit_gpus_add; lia|].
  2: { unfold add_take. rewrite dom_insert_L. apply role_states_in in Hst as [_ Hst]. apply (list_elem_of_fmap_2 vr_Name) in Hst. set_solver. }
  intros r'. unfold role_released. rewrite (sumZ_ext _ (λ x, unit_at u (vr_Name x) + if decide (vr_Name st = vr_Name x) then n else 0))
    by (intros x _; apply unit_at_add).
  rewrite sumZ_plus. f_equal. case_decide as Hr.
  - subst r'. apply sum_at_name; [apply role_states_names|done].
  - rewrite (sumZ_ext _ (λ _, 0)), sumZ_zero; [done|]. intros x [Hx1 Hx2]%role_states_in. apply role_states_in in Hst as [Hs1 Hs2].
    apply decide_False. intros Heq. apply Hr. rewrite <-Hx1, <-Hs1. f_equal.
    apply list_elem_of_lookup in Hx2 as [i Hi], Hs2 as [j Hj]. 
    assert (i = j) as ->; [|by simplify_eq]. eapply (NoDup_lookup (vr_Name <$> sts)); [done|rewrite list_lookup_fmap, Hi; done|].
    rewrite list_lookup_fmap, Hj. cbn. by rewrite Heq.
Qed.

Lemma take_walk r l u g n : (∀ st, st ∈ l → st ∈ role_states sts r) → 0 ≤ n →
  let '(u', g', n') := foldl (take_variant ns states) (u, g, n) l in role_walk r (n - n') (u, g) (u', g') ∧ 0 ≤ n' ≤ n.
Proof using Hnames.
  revert u g n. induction l as [|st l IH]; intros u g n Hl Hn; cbn [foldl].
  { split; [|lia]. rewrite Z.sub_diag. apply walk_refl. }
  assert (Hl' : ∀ st, st ∈ l → st ∈ role_states sts r) by (intros x Hx; apply Hl; by right).
  unfold take_variant at 2. set (take := Z.min n _). destruct (Z.ltb_spec 0 take) as [Ht|Ht]; [|by apply IH].
  assert (take ≤ n) by lia. specialize (IH (add_take u (vr_Name st) take) (g + take * gprOf ns states (vr_Name st)) (n - take) Hl' ltac:(lia)).
  destruct (foldl _ _ l) as [[u' g'] n']. destruct IH as [W ?]. split; [|lia].
  replace (n - n') with (take + (n - take - n')) by lia. eapply walk_trans; [|exact W]. apply walk_step, Hl. by left.
Qed.

(** A loop that takes one replica at a time: at most [room] of them, its GPUs within the
    cap. *)
Definition bounded_walk (r : string) (capGPUs : Z) (a b : unit_map * Z * Z) : Prop :=
  ∃ d, role_walk r d a.1 b.1 ∧ 0 ≤ d ∧ b.2 = a.2 - d ∧ (d = 0 ∨ 0 ≤ b.2) ∧ b.1.2 ≤ Z.max capGPUs a.1.2.

Lemma bounded_refl r capGPUs a : bounded_walk r capGPUs a a.
Proof. exists 0. split_and!; [apply walk_refl|lia..]. Qed.

Lemma bounded_trans r capGPUs a b x : bounded_walk r capGPUs a b → bounded_walk r capGPUs b x → bounded_walk r capGPUs a x.
Proof.
  intros (d1 & W1 & ? & ? & ? & ?) (d2 & W2 & ? & ? & ? & ?). exists (d1 + d2).
  split_and!; [by eapply walk_trans|lia..].
Qed.

Lemma bounded_step r capGPUs st u g room : st ∈ role_states sts r → 0 < room → g + gpr (vr_Name st) ≤ capGPUs →
  bounded_walk r capGPUs (u, g, room) (add_take u (vr_Name st) 1, g + gpr (vr_Name st), room - 1).
Proof using Hnames.
  intros Hst Hr Hg. exists 1. cbn [fst snd]. split_and!; [|lia..]. replace (g + gpr (vr_Name st)) with (g + 1 * gpr (vr_Name st)) by lia.
  by apply walk_step.
Qed.

Lemma trim_walk r st capGPUs n acc : st ∈ role_states sts r →
  bounded_walk r capGPUs acc (trim_variant ns states n (vr_Name st) capGPUs acc).
Proof using Hnames.
  intros Hst. revert acc. induction n as [|n IH]; intros [[u g] ratio]; cbn [trim_variant]; [apply bounded_refl|].
  destruct (_ && _) eqn:E; [|apply bounded_refl]. apply andb_true_iff in E as [?%Z.ltb_lt ?%Z.leb_le].
  eapply bounded_trans; [|apply IH]. by apply bounded_step.
Qed.

Lemma partner_walk r st need capGPUs n acc : st ∈ role_states sts r →
  bounded_walk r capGPUs acc (partner_loop ns states n (vr_Name st) need capGPUs acc).
Proof using Hnames.
  intros Hst. revert acc. induction n as [|n IH]; intros [[u g] room]; cbn [partner_loop]; [apply bounded_refl|].
  destruct (_ && _) eqn:E; [|apply bounded_refl]. apply andb_true_iff in E as [[?%Z.ltb_lt _]%andb_true_iff ?%Z.leb_le].
  eapply bounded_trans; [|apply IH]. by apply bounded_step.
Qed.

Lemma bounded_fold r capGPUs (f : unit_map * Z * Z → variantRef → unit_map * Z * Z) l acc :
  (∀ acc st, st ∈ role_states sts r → bounded_walk r capGPUs acc (f acc st)) → (∀ st, st ∈ l → st ∈ role_states sts r) →
  bounded_walk r capGPUs acc (foldl f acc l).
Proof.
  intros Hf. revert acc. induction l as [|st l IH]; intros acc Hl; cbn [foldl]; [apply bounded_refl|].
  eapply bounded_trans; [apply Hf, Hl; by left|]. apply IH. intros x Hx. apply Hl. by right.
Qed.

Lemma sorted_states r st : st ∈ sort_stable spare_first (role_states sts r) → st ∈ role_states sts r.
Proof. by rewrite sort_stable_perm. Qed.

(** ** Over the roles *)

(** What the walk over the roles takes of each: [d r] of a role it visits. *)
Record roles_walk (rs : list string) (d : string → Z) (a b : unit_map * Z) : Prop := {
  ro_taken : ∀ r, role_released sts b.1 r = role_released sts a.1 r + if bool_decide (r ∈ rs) then d r else 0;
  ro_gpus : b.2 - a.2 = unit_gpus gpr b.1 - unit_gpus gpr a.1;
  ro_keys : dom a.1 ⊆ dom b.1 ⊆ dom a.1 ∪ list_to_set (vr_Name <$> sts) }.

Lemma roles_nil d a : roles_walk [] d a a.
Proof. split; [intros r; rewrite bool_decide_eq_false_2 by (apply not_elem_of_nil); lia|lia|set_solver]. Qed.

Lemma roles_cons r rs n d a b x : r ∉ rs → role_walk r n a b → roles_walk rs d b x → roles_walk (r :: rs) (<[r := n]> d) a x.
Proof.
  intros Hr [T1 G1 K1] [T2 G2 K2]. split; [|lia|set_solver]. intros r'. rewrite T2, T1. destruct (decide (r' = r)) as [->|Hne].
  - rewrite bool_decide_eq_false_2 by done. rewrite bool_decide_eq_true_2 by (by left). rewrite fn_lookup_insert. lia.
  - rewrite fn_lookup_insert_ne by done. rewrite (bool_decide_ext (r' ∈ r :: rs) (r' ∈ rs)); [lia|]. rewrite elem_of_cons. naive_solver.
Qed.

(** The share of a partner role. *)
Definition pair_share (role : string) (k : Z) (r : string) : Z :=
  if String.eqb r role then 0 else (k * role_total sts r) `quot` role_total sts role.

Hypothesis Hcurrent : ∀ st, st ∈ sts → 0 ≤ vr_Current st.

Lemma role_total_nonneg r : 0 ≤ role_total sts r.
Proof using Hcurrent. apply sumZ_nonneg. intros st [_ Hst]%role_states_in. by apply Hcurrent. Qed.

Lemma take_roles role k rs a : 0 < role_total sts role → 0 ≤ k → NoDup rs → ∀ fits,
  let '(u', g', fits') := foldl (take_role ns states sts role k) (a.1, a.2, fits) rs in
  fits' = true → fits = true ∧ ∃ d, roles_walk rs d a (u', g') ∧ ∀ r, r ∈ rs → d r = pair_share role k r.
Proof using Hnames Hcurrent.
  intros HT Hk. revert a. induction rs as [|r rs IH]; intros [u g] Hnd fits; cbn [foldl fst snd].
  { intros ->. split; [done|]. exists (λ _, 0). split; [apply roles_nil|by intros r ?%not_elem_of_nil]. }
  apply NoDup_cons in Hnd as [Hr Hnd]. unfold take_role at 2. destruct (String.eqb_spec r role) as [->|Hne].
  - specialize (IH (u, g) Hnd fits). cbn [fst snd] in IH. destruct (foldl _ _ rs) as [[u' g'] fits']. intros Hf.
    destruct (IH Hf) as [-> (d & W & Hd)]. split; [done|]. exists (<[role := 0]> d). split; [by eapply roles_cons; [|apply walk_refl|]|].
    intros r' [->|Hr']%elem_of_cons; [unfold pair_share; by rewrite fn_lookup_insert, String.eqb_refl|].
    rewrite fn_lookup_insert_ne by (intros ->; done). by apply Hd.
  - set (n := (k * _) `quot` _). assert (Hn : 0 ≤ n) by (apply Z.quot_pos; [pose proof (role_total_nonneg r); nia|lia]).
    pose proof (take_walk r (sort_stable spare_first (role_states sts r)) u g n (sorted_states r) Hn) as HW.
    destruct (foldl (take_variant ns states) _ _) as [[u1 g1] n1]. destruct HW as [W1 Hn1].
    specialize (IH (u1, g1) Hnd (fits && (n1 =? 0))). cbn [fst snd] in IH. destruct (foldl _ _ rs) as [[u' g'] fits']. intros Hf.
    destruct (IH Hf) as [Hf1 (d & W & Hd)]. apply andb_true_iff in Hf1 as [-> ->%Z.eqb_eq]. split; [done|].
    exists (<[r := n]> d). rewrite Z.sub_0_r in W1. split; [by eapply roles_cons|].
    intros r' [->|Hr']%elem_of_cons.
    + rewrite fn_lookup_insert. unfold pair_share. by rewrite (proj2 (String.eqb_neq _ _) Hne).
    + rewrite fn_lookup_insert_ne by (intros ->; done). by apply Hd.
Qed.

(** A walk whose steps are bounded by role and by the cap. *)
Lemma bounded_roles (f : unit_map * Z → string → unit_map * Z) (bound : string → Z) capGPUs rs a :
  (∀ a r, ∃ n, role_walk r n a (f a r) ∧ 0 ≤ n ≤ bound r ∧ (f a r).2 ≤ Z.max capGPUs a.2) → NoDup rs →
  ∃ d, roles_walk rs d a (foldl f a rs) ∧ (∀ r, r ∈ rs → 0 ≤ d r ≤ bound r) ∧ (foldl f a rs).2 ≤ Z.max capGPUs a.2.
Proof.
  intros Hf. revert a. induction rs as [|r rs IH]; intros a Hnd; cbn [foldl].
  { exists (λ _, 0). split_and!; [apply roles_nil|by intros r ?%not_elem_of_nil|lia]. }
  apply NoDup_cons in Hnd as [Hr Hnd]. destruct (Hf a r) as (n & W & Hn & Hg), (IH (f a r) Hnd) as (d & Ws & Hd & Hg').
  exists (<[r := n]> d). split_and!; [by eapply roles_cons| |lia].
  intros r' [->|Hr']%elem_of_cons; [by rewrite fn_lookup_insert|]. rewrite fn_lookup_insert_ne by (intros ->; done). by apply Hd.
Qed.

Lemma trim_role_walk role capGPUs a r : 0 < role_total sts role →
  ∃ n, role_walk r n a (trim_role ns states sts role capGPUs a r) ∧
       0 ≤ n ≤ pair_share role 1 r ∧ (trim_role ns states sts role capGPUs a r).2 ≤ Z.max capGPUs a.2.
Proof using Hnames Hcurrent.
  intros HT. destruct a as [u g]. unfold trim_role, pair_share. rewrite Z.mul_1_l. destruct (String.eqb r role).
  { exists 0. split_and!; [apply walk_refl|cbn; lia..]. }
  set (ratio := _ `quot` _). assert (Hr : 0 ≤ ratio) by (apply Z.quot_pos; [apply role_total_nonneg|lia]).
  destruct (bounded_fold r capGPUs (λ acc st, trim_variant ns states (Z.to_nat (Z.max 0 (spare st))) (vr_Name st) capGPUs acc)
    (sort_stable spare_first (role_states sts r)) (u, g, ratio)) as (d & W & ? & ? & ? & ?).
  { intros acc st Hst. by apply trim_walk. }
  { apply sorted_states. }
  exists d. cbn [fst snd] in *. split_and!; [done|lia..].
Qed.

Lemma partner_role_walk role need capGPUs a r :
  ∃ n, role_walk r n a (partner_role ns states sts role need capGPUs a r) ∧
       0 ≤ n ≤ (if String.eqb r role then 0 else Z.max 0 (role_total sts r - 1)) ∧
       (partner_role ns states sts role need capGPUs a r).2 ≤ Z.max capGPUs a.2.
Proof using Hnames.
  destruct a as [u g]. unfold partner_role. destruct (String.eqb r role); cbn [orb].
  { exists 0. split_and!; [apply walk_refl|cbn; lia..]. }
  destruct (need <=? g). { exists 0. split_and!; [apply walk_refl|cbn; lia..]. }
  destruct (bounded_fold r capGPUs (λ acc st, partner_loop ns states (Z.to_nat (Z.max 0 (spare st))) (vr_Name st) need capGPUs acc)
    (sort_stable spare_first (role_states sts r)) (u, g, -1 + role_total sts r)) as (d & W & ? & ? & ? & ?).
  { intros acc st Hst. by apply partner_walk. }
  { apply sorted_states. }
  exists d. cbn [fst snd] in *. split_and!; [done|lia..].
Qed.

Lemma roles_nodup : NoDup (pair_roles sts).
Proof. unfold pair_roles. rewrite sort_strings_perm. apply NoDup_elements. Qed.

Lemma not_a_role r : r ∉ pair_roles sts → role_states sts r = [].
Proof.
  intros Hr. destruct (role_states sts r) as [|st l] eqn:E; [done|]. exfalso. apply Hr. unfold pair_roles.
  rewrite sort_strings_perm, elem_of_elements, elem_of_list_to_set. apply list_elem_of_fmap. exists st.
  assert (st ∈ role_states sts r) as [<- ?]%role_states_in by (rewrite E; by left). done.
Qed.

(** A unit that counts its GPUs, within the cap or one replica's if that is more, and
    leaves every role its partner; or the whole pair. *)
Record unit_ok (variant : string) (capGPUs : Z) (u : unit_map) (gpus : Z) : Prop := {
  uo_gpus : gpus = unit_gpus gpr u;
  uo_some : u ≠ ∅;
  uo_names : dom u ⊆ list_to_set (vr_Name <$> sts);
  uo_pair : ((∀ r, 0 < role_total sts r → role_released sts u r < role_total sts r) ∧
             (capGPUs < 0 ∨ gpus ≤ Z.max capGPUs (gpr variant))) ∨
            (∀ r, role_released sts u r = role_total sts r) }.

Context (variant role : string) (st0 : variantRef).
Hypothesis Hst0 : st0 ∈ sts ∧ vr_Name st0 = variant ∧ vr_Role st0 = role.
Hypothesis Htotal : 0 < role_total sts role.

Lemma role_in : role ∈ pair_roles sts.
Proof using Hst0.
  destruct Hst0 as (Hin & _ & Hr). destruct (decide (role ∈ pair_roles sts)) as [|Hn]; [done|]. apply not_a_role in Hn.
  assert (st0 ∈ role_states sts role) by (by apply role_states_in). rewrite Hn in *. by apply not_elem_of_nil in H.
Qed.

Lemma released_empty r : role_released sts ∅ r = 0.
Proof. unfold role_released. rewrite (sumZ_ext _ (λ _, 0)); [apply sumZ_zero|]. intros st _. unfold unit_at. by rewrite lookup_empty. Qed.

Lemma unit_start k : role_walk role k (∅, 0) ({[variant := k]}, k * gpr variant).
Proof using Hnames Hst0.
  destruct Hst0 as (Hin & <- & Hr). pose proof (walk_step role st0 ∅ 0 k ltac:(by apply role_states_in)) as W.
  unfold add_take, unit_at in W. rewrite lookup_empty in W. exact W.
Qed.

(** What is known of a unit from the walk over the roles that made it. *)
Lemma unit_walked rs d a b : dom a.1 ≠ ∅ ∧ dom a.1 ⊆ list_to_set (vr_Name <$> sts) → a.2 = unit_gpus gpr a.1 → roles_walk rs d a b →
  b.2 = unit_gpus gpr b.1 ∧ b.1 ≠ ∅ ∧ dom b.1 ⊆ list_to_set (vr_Name <$> sts).
Proof.
  intros [Ha Hn] Hg [_ G [K1 K2]]. split_and!; [lia| |set_solver]. intros Hb. rewrite Hb, dom_empty_L in K1. apply Ha. set_solver.
Qed.

Lemma released_role r : r ∉ pair_roles sts → ∀ u, role_released sts u r = 0 ∧ role_total sts r = 0.
Proof. intros Hr u. unfold role_released, role_total. by rewrite !(not_a_role r Hr). Qed.

Lemma share_below k r : 0 ≤ k < role_total sts role → r ≠ role → 0 < role_total sts r → pair_share role k r < role_total sts r.
Proof.
  intros Hk Hr Ht. unfold pair_share. rewrite (proj2 (String.eqb_neq _ _) Hr). apply Z.quot_lt_upper_bound; nia.
Qed.

Lemma share_whole r : r ≠ role → pair_share role (role_total sts role) r = role_total sts r.
Proof using Htotal.
  intros Hr. unfold pair_share. rewrite (proj2 (String.eqb_neq _ _) Hr), Z.mul_comm. apply Z.quot_mul. lia.
Qed.

Lemma start_facts k : (dom ({[variant := k]} : unit_map) ≠ ∅ ∧ dom ({[variant := k]} : unit_map) ⊆ list_to_set (vr_Name <$> sts)) ∧ k * gpr variant = unit_gpus gpr {[variant := k]} ∧
  ∀ r, role_released sts {[variant := k]} r = if decide (r = role) then k else 0.
Proof using Hnames Hcurrent Hst0 Htotal.
  destruct (unit_start k) as [T G [_ K]]. cbn [fst snd] in *. change (unit_gpus gpr ∅) with 0 in G.
  split_and!; [rewrite dom_singleton_L; set_solver|set_solver|lia|].
  intros r. rewrite T, released_empty. lia.
Qed.

(** The unit in proportion. *)
Lemma proportional_ok k u gpus capGPUs : 1 ≤ k ≤ role_total sts role →
  foldl (take_role ns states sts role k) ({[variant := k]}, k * gpr variant, true) (pair_roles sts) = (u, gpus, true) →
  (capGPUs < 0 ∨ gpus ≤ capGPUs) ∨ k = role_total sts role → unit_ok variant capGPUs u gpus.
Proof using Hnames Hcurrent Hst0 Htotal.
  intros Hk E Hcap. pose proof (take_roles role k (pair_roles sts) ({[variant := k]}, k * gpr variant) Htotal ltac:(lia) roles_nodup true) as HW.
  cbn [fst snd] in HW. rewrite E in HW. destruct (HW eq_refl) as (_ & d & W & Hd). destruct (start_facts k) as (S1 & S2 & S3).
  destruct (unit_walked _ _ ({[variant := k]}, k * gpr variant) _ S1 S2 W) as (U1 & U2 & U3). cbn [fst snd] in U1, U2, U3.
  assert (Hrel : ∀ r, r ∈ pair_roles sts → role_released sts u r = (if decide (r = role) then k else 0) + pair_share role k r).
  { intros r Hr. pose proof (ro_taken _ _ _ _ W r) as T. rewrite bool_decide_eq_true_2 in T by done. cbn [fst] in T. by rewrite T, S3, Hd. }
  assert (Hown : pair_share role k role = 0) by (unfold pair_share; by rewrite String.eqb_refl).
  split; [done|done|done|]. destruct (decide (k = role_total sts role)) as [->|Hlt].
  - right. intros r. destruct (decide (r ∈ pair_roles sts)) as [Hr|Hr]; [|by destruct (released_role r Hr u) as [-> ->]].
    rewrite Hrel by done. case_decide as Hro; [subst r; rewrite Hown; lia|]. by rewrite share_whole.
  - left. split; [|destruct Hcap as [[]|]; [by left|right; lia|lia]]. intros r Ht.
    destruct (decide (r ∈ pair_roles sts)) as [Hr|Hr]; [|destruct (released_role r Hr u); lia].
    rewrite Hrel by done. case_decide as Hro; [subst r; rewrite Hown; lia|]. rewrite Z.add_0_l. apply share_below; [lia|done|done].
Qed.

Lemma trimmed_ok capGPUs u gpus : 1 < role_total sts role → trimmedUnit ns states sts variant role capGPUs = (u, gpus) →
  unit_ok variant capGPUs u gpus.
Proof using Hnames Hcurrent Hst0 Htotal.
  intros Hgt E. destruct (bounded_roles (trim_role ns states sts role capGPUs) (pair_share role 1) capGPUs (pair_roles sts)
    ({[variant := 1]}, gpr variant)) as (d & W & Hd & Hg); [intros a r; by apply trim_role_walk|apply roles_nodup|].
  unfold trimmedUnit in E. fold gpr in E. rewrite E in W, Hg. cbn [snd] in Hg. destruct (start_facts 1) as (S1 & S2 & S3). rewrite Z.mul_1_l in S2.
  destruct (unit_walked _ _ ({[variant := 1]}, gpr variant) _ S1 S2 W) as (U1 & U2 & U3). cbn [fst snd] in U1, U2, U3. split; [done|done|done|left]. split; [|right; lia].
  intros r Ht. destruct (decide (r ∈ pair_roles sts)) as [Hr|Hr]; [|destruct (released_role r Hr u); lia].
  pose proof (ro_taken _ _ _ _ W r) as Hrel. rewrite bool_decide_eq_true_2 in Hrel by done. cbn [fst] in Hrel. rewrite S3 in Hrel.
  specialize (Hd r Hr). case_decide as Hro.
  - subst r. unfold pair_share in Hd. rewrite String.eqb_refl in Hd. lia.
  - pose proof (share_below 1 r ltac:(lia) Hro Ht). lia.
Qed.

Lemma partner_ok capGPUs u gpus : 0 ≤ capGPUs → partnerUnit ns states sts variant role capGPUs = Some (u, gpus) → unit_ok variant capGPUs u gpus.
Proof using Hnames Hcurrent Hst0 Htotal.
  intros Hcap E. unfold partnerUnit in E. fold gpr in E.
  destruct (bounded_roles (partner_role ns states sts role (gpr variant) capGPUs)
    (λ r, if String.eqb r role then 0 else Z.max 0 (role_total sts r - 1)) capGPUs (pair_roles sts) (∅, 0)) as (d & W & Hd & Hg);
    [intros a r; apply partner_role_walk|apply roles_nodup|].
  destruct (foldl _ _ _) as [u' g'] eqn:Ef. cbn [snd] in E, Hg. destruct (Z.ltb_spec g' (gpr variant)); [done|]. injection E as <- <-.
  pose proof (ro_gpus _ _ _ _ W) as G. cbn [fst snd] in G. change (unit_gpus gpr ∅) with 0 in G. pose proof (gpr_pos variant).
  split; [lia| |pose proof (ro_keys _ _ _ _ W) as [_ K]; set_solver|left; split; [|right; lia]].
  - intros ->. change (unit_gpus gpr ∅) with 0 in G. lia.
  - intros r Ht. destruct (decide (r ∈ pair_roles sts)) as [Hr|Hr]; [|destruct (released_role r Hr u'); lia].
    pose proof (ro_taken _ _ _ _ W r) as Hrel. rewrite bool_decide_eq_true_2 in Hrel by done. cbn [fst] in Hrel.
    rewrite released_empty in Hrel. specialize (Hd r Hr). cbn beta in Hd. destruct (String.eqb_spec r role); lia.
Qed.

Lemma unit_loop_ok capGPUs k u gpus : Z.of_nat k ≤ role_total sts role →
  unit_loop ns states sts variant role capGPUs k = Some (u, gpus) → unit_ok variant capGPUs u gpus.
Proof using Hnames Hcurrent Hst0 Htotal.
  induction k as [|k IH]; intros Hk E; [done|]. cbn [unit_loop] in E. fold gpr in E.
  destruct (foldl _ _ _) as [[u1 g1] fits] eqn:Ef. destruct fits; cbn [andb] in E; [|apply IH; [lia|done]].
  pose proof (proportional_ok (Z.of_nat (S k)) u1 g1 capGPUs ltac:(lia) Ef) as Hp.
  destruct ((capGPUs <? 0) || (g1 <=? capGPUs)) eqn:Ec.
  { injection E as <- <-. apply Hp. left. apply orb_true_iff in Ec as [?%Z.ltb_lt|?%Z.leb_le]; [by left|by right]. }
  apply orb_false_iff in Ec as [Hc1%Z.ltb_ge Hc2%Z.leb_gt].
  destruct (Z.eqb_spec (Z.of_nat (S k)) 1) as [H1|]; [|apply IH; [lia|done]]. destruct (Z.ltb_spec 0 (role_total sts role - 1)).
  { injection E as E. apply trimmed_ok; [lia|done]. }
  destruct (partnerUnit ns states sts variant role capGPUs) as [[u2 g2]|] eqn:Ep.
  - injection E as <- <-. by apply partner_ok.
  - injection E as <- <-. apply Hp. right. lia.
Qed.
End walks.

(** States a pass can work on: each variant once, no negative counts. *)
Definition states_ok (sts : list variantRef) : Prop := NoDup (vr_Name <$> sts) ∧ ∀ st, st ∈ sts → 0 ≤ vr_Current st ∧ 0 ≤ minOf st.

Lemma role_of_state sts st : NoDup (vr_Name <$> sts) → st ∈ sts → role_of sts (vr_Name st) = vr_Role st.
Proof.
  intros Hnd Hin. unfold role_of. assert (filter (λ x, vr_Name x = vr_Name st) sts = [st]) as ->; [|done].
  revert Hnd Hin. induction sts as [|x sts IH]; [by intros _ ?%not_elem_of_nil|]. cbn [fmap list_fmap]. rewrite NoDup_cons, filter_cons.
  intros [Hx Hnd] [->|Hin]%elem_of_cons.
  - rewrite decide_True by done. f_equal. apply elem_of_nil_inv. intros y [Heq Hy]%list_elem_of_filter. apply Hx. rewrite <-Heq. by apply list_elem_of_fmap_2.
  - rewrite decide_False; [by apply IH|]. intros Heq. apply Hx. rewrite Heq. by apply list_elem_of_fmap_2.
Qed.

Lemma releaseUnit_pair ns states sts st k capGPUs u gpus : states_ok sts → st ∈ sts → k ≤ vr_Current st →
  releaseUnit ns states true sts (vr_Name st) k capGPUs = Some (u, gpus) → unit_ok ns states sts (vr_Name st) capGPUs u gpus.
Proof.
  intros [Hnd Hcur] Hin Hk. unfold releaseUnit. destruct (Z.leb_spec k 0); [done|]. cbn [negb]. rewrite role_of_state by done.
  destruct (Z.leb_spec (role_total sts (vr_Role st)) 0); [done|]. apply (unit_loop_ok ns states sts Hnd (λ x Hx, proj1 (Hcur x Hx)) _ (vr_Role st) st); [done|lia|].
  rewrite Z2Nat.id by lia. etrans; [exact Hk|]. apply sumZ_elem_le; [|by apply role_states_in].
  intros x [_ Hx]%role_states_in. by apply Hcur.
Qed.

Lemma releaseUnit_counts ns states disaggregated sts st k capGPUs u gpus : states_ok sts → st ∈ sts → k ≤ vr_Current st →
  releaseUnit ns states disaggregated sts (vr_Name st) k capGPUs = Some (u, gpus) →
  gpus = unit_gpus (gprOf ns states) u ∧ u ≠ ∅ ∧ dom u ⊆ list_to_set (vr_Name <$> sts).
Proof.
  intros Hok Hin Hk. destruct disaggregated; [by intros []%releaseUnit_pair|]. unfold releaseUnit. destruct (k <=? 0); [done|].
  cbn [negb]. intros [= <- <-]. change {[vr_Name st := k]} with (<[vr_Name st := k]> (∅ : unit_map)).
  rewrite unit_gpus_insert, dom_insert_L, dom_empty_L. change (unit_gpus (gprOf ns states) ∅) with 0. unfold unit_at. rewrite lookup_empty.
  cbn [default from_option]. split_and!; [lia|apply insert_non_empty|]. apply (list_elem_of_fmap_2 vr_Name) in Hin. set_solver.
Qed.

(** ** Properties *)

(** C20: the unit that releases replicas of a variant of a disaggregated model counts its
    GPUs, takes only the model's variants, and keeps the pair serviceable: every role that
    has replicas keeps one, and the GPUs are within the cap, or within one replica's of
    the variant if that is more; or the whole pair goes, no role being left without its
    partner. *)
Theorem release_keeps_pair ns states sts st k capGPUs u gpus : states_ok sts → st ∈ sts → k ≤ vr_Current st →
  releaseUnit ns states true sts (vr_Name st) k capGPUs = Some (u, gpus) →
  gpus = unit_gpus (gprOf ns states) u ∧ dom u ⊆ list_to_set (vr_Name <$> sts) ∧
  (((∀ r, 0 < role_total sts r → role_released sts u r < role_total sts r) ∧
    (0 ≤ capGPUs → gpus ≤ Z.max capGPUs (gprOf ns states (vr_Name st)))) ∨
   ∀ r, role_released sts u r = role_total sts r).
Proof.
  intros Hok Hin Hk E. destruct (releaseUnit_pair ns states sts st k capGPUs u gpus Hok Hin Hk E) as [G _ N [[P C]|P]].
  - split_and!; [done..|left]. split; [done|]. intros ?. destruct C; lia.
  - split_and!; [done..|by right].
Qed.

(** One prefill, unplaced, with two decodes, eight GPUs a replica and eight borrowed: one
    decode goes. *)
Lemma release_keeps_pair_witness :
  let p := MkRef "p" 1 None 1 [] 1 [] 8 RolePrefill None "H100" in
  let d := MkRef "d" 2 None 0 [] 0 [] 8 RoleDecode None "H100" in
  let states := <["ns/p" := p]> (<["ns/d" := d]> ∅) in
  releaseUnit "ns" states true [p; d] "p" 1 8 = Some ({["d" := 1]}, 8) ∧
  ∀ r, 0 < role_total [p; d] r → role_released [p; d] {["d" := 1]} r < role_total [p; d] r.
Proof.
  intros p d states.
  assert (E : releaseUnit "ns" states true [p; d] "p" 1 8 = Some ({["d" := 1]}, 8)) by (vm_compute; reflexivity).
  split; [exact E|].
  destruct (release_keeps_pair "ns" states [p; d] p 1 8 {["d" := 1]} 8) as (_ & _ & [[P _]|P]).
  - split.
    + apply (bool_decide_unpack _). vm_compute. exact I.
    + intros st [->|[->|[]%not_elem_of_nil]%elem_of_cons]%elem_of_cons; vm_compute; split; discriminate.
  - constructor.
  - vm_compute. discriminate.
  - exact E.
  - exact P.
  - specialize (P RolePrefill). vm_compute in P. discriminate P.
Defined.
