(* ===== verification/BorrowRelease.v ===== *)
(** * Placement-timeout releases

    The model of the release half of the borrow governor, [borrow_governor.go] of
    [internal/engines/allocation]: the replicas that stayed unplaced past the placement
    timeout and that their namespace holds past its guaranteed figure are given back
    ([borrowedRelease]), those held at Kueue's admission gate in a namespace that counts
    no borrowing ([gatedRelease]), and those ordered without a node hole
    ([noHoleRelease]).  The figures the releases come off and the governor are passed
    along as a [release_state]; releases to waiting lenders are left out.

    Theorems: a pass of releases lowers only variants that have no release in flight,
    each once and to its minimum at least, pins what it lowers and caps the decisions
    there, and over each namespace gives back no more GPUs than are held past its figure,
    but for those it reports as guaranteed. *)
From Stdlib Require Import ZArith Lia String Ascii.
From stdpp Require Import base gmap strings list sorting fin_maps.
From S2P Require Import Prelude Accelerator Budget Domain BorrowPools BorrowConstraints BorrowGovernor BorrowUnit.
Open Scope Z_scope.

(** ** Releases *)
Inductive ReleaseCause := ReleasePlacementTimeout | ReleaseKueueGate.

Record BorrowRelease := MkRelease {
  rel_Namespace : string; rel_ModelID : string; rel_Variant : string; rel_From : Z; rel_To : Z; rel_Cause : ReleaseCause;
  rel_GuaranteedGPUs : Z; rel_AtGate : bool }.

(** The governor with its pins and no-hole entries replaced. *)
Definition set_pins (g : BorrowGovernor) (pins : gmap string Z) (gated : gset string) (nohole : gmap string NoHoleReplicas) : BorrowGovernor :=
  MkGovernor (settings g) (watches g) (cohortCooldown g) (modelCooldown g) pins (unplacedHeld g) (preemptUnknown g) (pastSince g)
    (uncountedSince g) gated (rawWaiting g) (backoff g) nohole (noHoleRestored g) (started g) (idleSince g).

(** The figures the releases of a pass are taken off, and the governor. *)
Record release_state := MkReleaseState {
  rs_heldPast : gmap string (gmap string Z); rs_uncounted : gmap string (gmap string Z); rs_gov : BorrowGovernor }.

Section releases.
Context (c : BorrowCycle).
Let states := c_States c.

Definition current_of (k : string) : Z := vr_Current (default zero_ref (states !! k)).

Definition pin_variant (req : BorrowRequest) (u : unit_map) (acc : gmap string Z * list BorrowRelease * Z) (v : string)
  : gmap string Z * list BorrowRelease * Z :=
  let '(pins, out, guaranteed) := acc in
  let k := variant_key (br_Namespace req) v in
  let to := current_of k - unit_at u v in
  (<[k := to]> pins,
   out ++ [MkRelease (br_Namespace req) (br_ModelID req) v (current_of k) to ReleasePlacementTimeout guaranteed false], 0).

Definition pinUnit (req : BorrowRequest) (u : unit_map) (guaranteed : Z) (g : BorrowGovernor) : BorrowGovernor * list BorrowRelease :=
  let '(pins, out, _) := foldl (pin_variant req u) (timeoutHeld g, [], guaranteed) (sort_strings (map_to_list u).*1) in
  (set_pins g pins (gatedPins g) (noHole g), out).

Definition borrowedRelease (req : BorrowRequest) (st : variantRef) (heldPast : gmap string (gmap string Z)) (since : gmap string Z)
    (timeout : Z) (g : BorrowGovernor) : option (gmap string (gmap string Z) * BorrowGovernor * list BorrowRelease) :=
  let ns := br_Namespace req in
  let past := default ∅ (heldPast !! ns) in
  match FindKey past (accOf req (vr_Name st)) with
  | None => None
  | Some typeKey =>
      let expired := expiredUnplaced st (default 0 (since !! (ns +:+ "/" +:+ typeKey))) timeout (c_Now c) in
      if expired =? 0 then None
      else
        let borrowed := default 0 (past !! typeKey) in
        let gpr := Z.max (vr_GPUs st) 1 in
        if borrowed <? gpr then None
        else
          let k := Z.min (Z.min (Z.min expired (vr_Unplaced st)) (borrowed `quot` gpr)) (spare st) in
          match releaseUnit ns states (br_Disaggregated req) (br_States req) (vr_Name st) k borrowed with
          | None => None
          | Some (u, gpus) =>
              if negb (unitFits ns states u) then None
              else
                let '(g, out) := pinUnit req u (Z.max 0 (gpus - borrowed)) g in
                Some (<[ns := <[typeKey := borrowed - gpus]> past]> heldPast, g, out)
          end
  end.

(** A state whose unplaced replicas are those held at the gate. *)
Definition gated_state (st : variantRef) : variantRef :=
  MkRef (vr_Name st) (vr_Current st) (vr_Held st) (Z.of_nat (length (vr_GatedAt st))) (vr_GatedAt st) (vr_UnplacedSince st) (vr_GatedAt st)
    (vr_GPUs st) (vr_Role st) (vr_Min st) (vr_Acc st).

Definition at_gate (r : BorrowRelease) : BorrowRelease :=
  MkRelease (rel_Namespace r) (rel_ModelID r) (rel_Variant r) (rel_From r) (rel_To r) ReleaseKueueGate 0 true.

Definition gatedRelease (req : BorrowRequest) (st : variantRef) (uncounted : gmap string (gmap string Z)) (g : BorrowGovernor)
  : option (gmap string (gmap string Z) * BorrowGovernor * list BorrowRelease) :=
  if bool_decide (vr_GatedAt st = []) || bool_decide (default ∅ (uncounted !! br_Namespace req) = ∅) then None
  else
    '(uncounted, g, out) ← borrowedRelease req (gated_state st) uncounted (uncountedSince g) (PlacementTimeout (settings g)) g;
    Some (uncounted, set_pins g (timeoutHeld g)
                       (list_to_set ((λ r, variant_key (br_Namespace req) (rel_Variant r)) <$> out) ∪ gatedPins g) (noHole g),
          at_gate <$> out).

Definition noHoleRelease (req : BorrowRequest) (st : variantRef) (timeout : Z) (g : BorrowGovernor)
  : option (BorrowGovernor * list BorrowRelease) :=
  let key := variant_key (br_Namespace req) (vr_Name st) in
  let h := default (MkNoHole 0 0 0) (noHole g !! key) in
  if nh_Replicas h <=? 0 then None
  else
    let expired := expiredUnplaced st (nh_Since h) timeout (c_Now c) in
    let k := Z.min (Z.min (Z.min expired (vr_Unplaced st)) (nh_Replicas h)) (spare st) in
    if k <=? 0 then None
    else
      match releaseUnit (br_Namespace req) states (br_Disaggregated req) (br_States req) (vr_Name st) k (-1) with
      | None => None
      | Some (u, gpus) =>
          if negb (unitFits (br_Namespace req) states u) then None
          else
            let h := MkNoHole (nh_Replicas h - unit_at u (vr_Name st)) (nh_GPUs h) (nh_Since h) in
            Some (pinUnit req u gpus (set_pins g (timeoutHeld g) (gatedPins g) (<[key := h]> (noHole g))))
      end.

(** ** A pass *)
Definition modelPinned (g : BorrowGovernor) (req : BorrowRequest) : bool :=
  existsb (λ st, bool_decide (is_Some (timeoutHeld g !! variant_key (br_Namespace req) (vr_Name st)))) (br_States req).

(** How a pass releases a variant's unplaced replicas. *)
Notation releaser := (BorrowRequest → variantRef → Z → release_state → option (release_state * list BorrowRelease)).

Definition placement_timeout (g : BorrowGovernor) (req : BorrowRequest) (st : variantRef) : Z :=
  if bool_decide (variant_key (br_Namespace req) (vr_Name st) ∈ c_ScaleUpPending c) then PlacementTimeout (settings g) * 3
  else PlacementTimeout (settings g).

Definition set_gov (s : release_state) (g : BorrowGovernor) : release_state := MkReleaseState (rs_heldPast s) (rs_uncounted s) g.

(** The first of a model's variants that is released, if any. *)
Fixpoint first_release (release : releaser) (req : BorrowRequest) (sts : list variantRef) (s : release_state)
  : release_state * list BorrowRelease :=
  match sts with
  | [] => (s, [])
  | st :: sts =>
      if vr_Unplaced st <=? 0 then first_release release req sts s
      else
        let timeout := placement_timeout (rs_gov s) req st in
        match release req st timeout s with
        | None => first_release release req sts s
        | Some (s, rel) =>
            (match rel with
             | r :: _ => match rel_Cause r with
                         | ReleaseKueueGate => s
                         | ReleasePlacementTimeout =>
                             set_gov s (markBackoffAfter (br_Namespace req +:+ "/" +:+ br_ModelID req)
                               (namespaceCohorts (c_Constraints c) (br_Namespace req)) (c_Now c) false timeout (rs_gov s))
                         end
             | [] => s
             end, rel)
        end
  end.

Definition release_model (release : releaser) (acc : release_state * list BorrowRelease) (req : BorrowRequest)
  : release_state * list BorrowRelease :=
  if modelPinned (rs_gov acc.1) req then acc
  else let '(s, rel) := first_release release req (br_States req) acc.1 in (s, acc.2 ++ rel).

Definition eachUnplaced (release : releaser) (s : release_state) : release_state * list BorrowRelease :=
  foldl (release_model release) (s, []) (c_Requests c).

Definition gated_releaser (req : BorrowRequest) (st : variantRef) (s : release_state) : option (release_state * list BorrowRelease) :=
  '(uncounted, g, out) ← gatedRelease req st (rs_uncounted s) (rs_gov s);
  Some (MkReleaseState (rs_heldPast s) uncounted g, out).

Definition timeout_releaser (req : BorrowRequest) (st : variantRef) (timeout : Z) (s : release_state)
  : option (release_state * list BorrowRelease) :=
  match borrowedRelease req st (rs_heldPast s) (pastSince (rs_gov s)) timeout (rs_gov s) with
  | Some (heldPast, g, out) => Some (MkReleaseState heldPast (rs_uncounted s) g, out)
  | None =>
      match gated_releaser req st s with
      | Some r => Some r
      | None => '(g, out) ← noHoleRelease req st timeout (rs_gov s); Some (set_gov s g, out)
      end
  end.

Definition timeoutReleases (s : release_state) : release_state * list BorrowRelease := eachUnplaced timeout_releaser s.

Definition Releases (decisions : list VariantDecision) (g : BorrowGovernor) : BorrowGovernor * list VariantDecision * list BorrowRelease :=
  let '(s, out) := timeoutReleases (MkReleaseState (namespaceHeldPast (c_Constraints c)) (uncountedHeldPast (c_Constraints c)) g) in
  (rs_gov s, applyPins (rs_gov s) decisions, out).

(** The gated ones alone, in a cycle that counts no borrowing. *)
Definition GatedReleases (decisions : list VariantDecision) (g : BorrowGovernor) : BorrowGovernor * list VariantDecision * list BorrowRelease :=
  let g := set_pins g (timeoutHeld g) (filter (λ k, is_Some (timeoutHeld g !! k)) (gatedPins g)) (noHole g) in
  let uncounted := uncountedHeldPast (c_Constraints c) in
  let g := MkGovernor (settings g) (watches g) (cohortCooldown g) (modelCooldown g) (timeoutHeld g) (unplacedHeld g) (preemptUnknown g)
             (pastSince g) (trackPast (uncountedSince g) uncounted (c_Now c)) (gatedPins g) (rawWaiting g) (backoff g) (noHole g)
             (noHoleRestored g) (started g) (idleSince g) in
  let '(s, out) := eachUnplaced (λ req st _ s, gated_releaser req st s) (MkReleaseState ∅ uncounted g) in
  (rs_gov s, applyPins (rs_gov s) decisions, out).
End releases.

(** ** What a pass releases *)
Definition rel_key (r : BorrowRelease) : string := variant_key (rel_Namespace r) (rel_Variant r).

Lemma variant_key_inj ns v w : variant_key ns v = variant_key ns w → v = w.
Proof. unfold variant_key. intros E. apply (inj (String.append ns)) in E. by apply (inj (String.append "/")) in E. Qed.

Section pass.
Context (c : BorrowCycle).
Let states := c_States c.

(** A release of a variant that is read, from what runs to its minimum at least. *)
Definition release_ok (r : BorrowRelease) : Prop :=
  ∃ st, states !! rel_key r = Some st ∧ rel_From r = vr_Current st ∧ minOf st ≤ rel_To r < rel_From r.

(** The borrowed GPUs a list of releases gives back to namespace [ns]: those of the
    variants it lowers, less the ones reported as guaranteed. *)
Definition released_gpus (r : BorrowRelease) : Z := (rel_From r - rel_To r) * gprOf (rel_Namespace r) states (rel_Variant r).
Definition borrowed_released (ns : string) (rels : list BorrowRelease) : Z :=
  sumZ (λ r, if bool_decide (rel_Namespace r = ns) && negb (rel_AtGate r) then released_gpus r - rel_GuaranteedGPUs r else 0) rels.

(** The GPUs a namespace holds past its figures. *)
Definition past_total (held : gmap string (gmap string Z)) (ns : string) : Z :=
  sumZ (λ e : string * Z, Z.max 0 e.2) (map_to_list (default ∅ (held !! ns))).

(** The records of a unit. *)
Definition unit_record (req : BorrowRequest) (u : unit_map) (guaranteed : Z) (v : string) : BorrowRelease :=
  let k := variant_key (br_Namespace req) v in
  MkRelease (br_Namespace req) (br_ModelID req) v (current_of c k) (current_of c k - unit_at u v) ReleasePlacementTimeout guaranteed false.

Definition unit_records (req : BorrowRequest) (u : unit_map) (guaranteed : Z) (vs : list string) : list BorrowRelease :=
  match vs with [] => [] | v :: vs => unit_record req u guaranteed v :: (unit_record req u 0 <$> vs) end.

Definition unit_pins (req : BorrowRequest) (u : unit_map) (pins : gmap string Z) (vs : list string) : gmap string Z :=
  foldl (λ pins v, <[variant_key (br_Namespace req) v := current_of c (variant_key (br_Namespace req) v) - unit_at u v]> pins) pins vs.

Lemma pin_fold req u vs pins out guaranteed :
  (foldl (pin_variant c req u) (pins, out, guaranteed) vs).1 = (unit_pins req u pins vs, out ++ unit_records req u guaranteed vs).
Proof.
  assert (H0 : ∀ vs pins out, (foldl (pin_variant c req u) (pins, out, 0) vs).1 = (unit_pins req u pins vs, out ++ (unit_record req u 0 <$> vs))).
  { clear. induction vs as [|v vs IH]; intros pins out; cbn [foldl fmap list_fmap]; [by rewrite app_nil_r|].
    unfold pin_variant at 2. rewrite IH. by rewrite <-app_assoc. }
  destruct vs as [|v vs]; cbn [foldl unit_records]; [by rewrite app_nil_r|]. unfold pin_variant at 2. rewrite H0. by rewrite <-app_assoc.
Qed.

Lemma unit_records_variants req u guaranteed vs : rel_Variant <$> unit_records req u guaranteed vs = vs.
Proof.
  destruct vs as [|v vs]; [done|]. cbn. f_equal. rewrite <-list_fmap_compose. apply list_fmap_id.
Qed.

Lemma unit_records_elem req u guaranteed vs r : r ∈ unit_records req u guaranteed vs → ∃ v n, v ∈ vs ∧ r = unit_record req u n v.
Proof.
  destruct vs as [|v vs]; [by intros ?%not_elem_of_nil|]. intros [->|(w & -> & Hw)%list_elem_of_fmap]%elem_of_cons.
  - exists v, guaranteed. split; [by left|done].
  - exists w, 0. split; [by right|done].
Qed.

Lemma unit_pins_lookup req u pins vs k : NoDup vs →
  (∀ v, v ∈ vs → k = variant_key (br_Namespace req) v → unit_pins req u pins vs !! k = Some (current_of c k - unit_at u v)) ∧
  ((∀ v, v ∈ vs → k ≠ variant_key (br_Namespace req) v) → unit_pins req u pins vs !! k = pins !! k).
Proof.
  revert pins. induction vs as [|v vs IH]; intros pins Hnd; cbn [unit_pins foldl].
  { split; [by intros v ?%not_elem_of_nil|done]. }
  apply NoDup_cons in Hnd as [Hv Hnd]. destruct (IH (<[variant_key (br_Namespace req) v := current_of c (variant_key (br_Namespace req) v) - unit_at u v]> pins) Hnd) as [I1 I2].
  split.
  - intros w [->|Hw]%elem_of_cons Hk; [|by apply I1]. unfold unit_pins in I2. rewrite I2; [by rewrite Hk, lookup_insert_eq|].
    intros x Hx Heq. rewrite Hk in Heq. apply variant_key_inj in Heq. by subst x.
  - intros Hk. unfold unit_pins in I2. rewrite I2 by (intros x Hx; apply Hk; by right). apply lookup_insert_ne. intros <-. by apply (Hk v); [left|].
Qed.

(** What a release changes: it pins the variants it lowers, and its borrowed GPUs come
    off the figures. *)
Record step_ok (req : BorrowRequest) (pins pins' : gmap string Z) (held held' : gmap string (gmap string Z)) (rel : list BorrowRelease) : Prop := {
  so_some : rel ≠ [];
  so_nodup : NoDup (rel_key <$> rel);
  so_recs : ∀ r, r ∈ rel → rel_Namespace r = br_Namespace req ∧ rel_Variant r ∈ vr_Name <$> br_States req ∧
                             release_ok r ∧ pins' !! rel_key r = Some (rel_To r);
  so_rest : ∀ k, k ∉ rel_key <$> rel → pins' !! k = pins !! k;
  so_account : ∀ ns, borrowed_released ns rel = past_total held ns - past_total held' ns }.

Section unit_pinned.
Context (req : BorrowRequest) (u : unit_map).
Let ns := br_Namespace req.
Let vs := sort_strings (map_to_list u).*1.
Hypothesis Hfits : unitFits ns states u = true.
Hypothesis Hsome : u ≠ ∅.
Hypothesis Hnames : dom u ⊆ list_to_set (vr_Name <$> br_States req).

Lemma unit_vs v : v ∈ vs ↔ is_Some (u !! v).
Proof.
  unfold vs. rewrite sort_strings_perm, list_elem_of_fmap. split.
  - intros ([w n] & -> & Hin%elem_of_map_to_list). by exists n.
  - intros [n Hn]. exists (v, n). split; [done|]. by apply elem_of_map_to_list.
Qed.

Lemma unit_vs_nodup : NoDup vs.
Proof. unfold vs. rewrite sort_strings_perm. apply NoDup_fst_map_to_list. Qed.

Lemma unit_vs_some : vs ≠ [].
Proof using Hsome.
  intros Hvs. apply Hsome, map_empty. intros v. destruct (u !! v) as [n|] eqn:E; [|done].
  assert (v ∈ vs) as Hv by (apply unit_vs; by exists n). rewrite Hvs in Hv. by apply not_elem_of_nil in Hv.
Qed.

Lemma unit_fits_one v : v ∈ vs → ∃ st, states !! variant_key ns v = Some st ∧ 0 < unit_at u v ∧ minOf st ≤ vr_Current st - unit_at u v.
Proof using Hfits.
  intros [n Hn]%unit_vs. unfold unitFits in Hfits. rewrite forallb_forall in Hfits.
  specialize (Hfits (v, n) ltac:(by apply list_elem_of_In, elem_of_map_to_list)). cbn [fst snd] in Hfits.
  destruct (states !! variant_key ns v) as [st|]; [|done]. exists st. apply negb_true_iff, orb_false_iff in Hfits as [?%Z.leb_gt ?%Z.ltb_ge].
  unfold unit_at. rewrite Hn. cbn. split_and!; [done|lia..].
Qed.

Lemma unit_record_ok n v : v ∈ vs → release_ok (unit_record req u n v).
Proof using Hfits.
  intros Hv. destruct (unit_fits_one v Hv) as (st & Hst & ? & ?). exists st. unfold rel_key. cbn [unit_record rel_Namespace rel_Variant rel_From rel_To].
  fold ns. unfold current_of. fold states. rewrite Hst. cbn. split_and!; [done..|lia|lia].
Qed.

(** The GPUs of the records are those of the unit. *)
Lemma unit_records_gpus guaranteed : sumZ released_gpus (unit_records req u guaranteed vs) = unit_gpus (gprOf ns states) u.
Proof.
  assert (Hone : ∀ n v, released_gpus (unit_record req u n v) = unit_at u v * gprOf ns states v).
  { intros n v. unfold released_gpus. cbn [unit_record rel_Namespace rel_Variant rel_From rel_To]. fold ns. f_equal. lia. }
  transitivity (sumZ (λ v, unit_at u v * gprOf ns states v) vs).
  - destruct vs as [|v l]; [done|]. cbn [unit_records]. rewrite !sumZ_cons, Hone, sumZ_fmap. f_equal. apply sumZ_ext. intros w _. apply Hone.
  - unfold vs. rewrite sort_strings_perm, sumZ_fmap. apply sumZ_ext. intros [v n] Hin%elem_of_map_to_list. cbn. unfold unit_at. by rewrite Hin.
Qed.

Lemma unit_records_guaranteed guaranteed : sumZ rel_GuaranteedGPUs (unit_records req u guaranteed vs) = guaranteed.
Proof using Hsome.
  pose proof unit_vs_some. destruct vs as [|v l]; [done|]. cbn [unit_records]. rewrite sumZ_cons, sumZ_fmap. cbn [unit_record rel_GuaranteedGPUs].
  rewrite sumZ_zero. lia.
Qed.

Lemma unit_records_borrowed guaranteed ns' : borrowed_released ns' (unit_records req u guaranteed vs) =
  if decide (ns' = ns) then unit_gpus (gprOf ns states) u - guaranteed else 0.
Proof using Hsome.
  unfold borrowed_released. assert (Hin : ∀ r, r ∈ unit_records req u guaranteed vs → rel_Namespace r = ns ∧ rel_AtGate r = false).
  { by intros r (v & n & _ & ->)%unit_records_elem. }
  case_decide as Hns.
  - subst ns'. rewrite (sumZ_ext _ (λ r, released_gpus r - rel_GuaranteedGPUs r)).
    + by rewrite sumZ_minus, unit_records_gpus, unit_records_guaranteed.
    + intros r [Hr1 Hr2]%Hin. by rewrite bool_decide_eq_true_2, Hr2 by done.
  - rewrite (sumZ_ext _ (λ _, 0)); [apply sumZ_zero|]. intros r [Hr1 Hr2]%Hin. rewrite bool_decide_eq_false_2; [done|]. congruence.
Qed.

(** The pins of a unit, as the records or as the records of the gate. *)
Lemma unit_step pins held held' guaranteed (f : BorrowRelease → BorrowRelease) :
  (∀ r, rel_key (f r) = rel_key r ∧ rel_Namespace (f r) = rel_Namespace r ∧ rel_Variant (f r) = rel_Variant r ∧
        rel_From (f r) = rel_From r ∧ rel_To (f r) = rel_To r) →
  (∀ ns', borrowed_released ns' (f <$> unit_records req u guaranteed vs) = past_total held ns' - past_total held' ns') →
  step_ok req pins (unit_pins req u pins vs) held held' (f <$> unit_records req u guaranteed vs).
Proof using Hfits Hsome Hnames.
  intros Hf Hacc. assert (Hkeys : rel_key <$> (f <$> unit_records req u guaranteed vs) = variant_key ns <$> vs).
  { rewrite <-(unit_records_variants req u guaranteed vs) at 2. rewrite <-!list_fmap_compose. apply list_fmap_ext.
    intros i r Hi%list_elem_of_lookup_2. unfold compose. rewrite (proj1 (Hf r)). apply unit_records_elem in Hi as (v & n & _ & ->). done. }
  split; [| | | |done].
  - intros He%(f_equal length). rewrite length_fmap in He. pose proof unit_vs_some. 
    assert (length (unit_records req u guaranteed vs) = length vs) by (rewrite <-(unit_records_variants req u guaranteed vs) at 2; by rewrite length_fmap).
    destruct vs; [done|]. cbn in *. lia.
  - rewrite Hkeys. apply NoDup_fmap_2_strong; [|apply unit_vs_nodup]. intros x y _ _. apply variant_key_inj.
  - intros ? (r & -> & Hr)%list_elem_of_fmap. destruct (Hf r) as (F1 & F2 & F3 & F4 & F5). apply unit_records_elem in Hr as (v & n & Hv & ->).
    split_and!; [by rewrite F2| | |].
    + rewrite F3. cbn [unit_record rel_Variant]. apply unit_vs in Hv. assert (v ∈ dom u) as Hd by (by apply elem_of_dom). set_solver.
    + destruct (unit_record_ok n v Hv) as (st & ? & ? & ?). exists st. rewrite F1, F4, F5. done.
    + rewrite F1, F5. apply (proj1 (unit_pins_lookup req u pins vs _ unit_vs_nodup) v Hv). done.
  - intros k Hk. rewrite Hkeys in Hk. apply unit_pins_lookup; [apply unit_vs_nodup|]. intros v Hv ->. apply Hk. by apply list_elem_of_fmap_2.
Qed.
End unit_pinned.

(** ** The releasers *)
Lemma past_total_insert held ns t n b : default ∅ (held !! ns) !! t = Some b → ∀ ns',
  past_total (<[ns := <[t := n]> (default ∅ (held !! ns))]> held) ns' =
  past_total held ns' - if decide (ns' = ns) then Z.max 0 b - Z.max 0 n else 0.
Proof.
  intros Hb ns'. unfold past_total. case_decide as Hns.
  - subst ns'. rewrite lookup_insert_eq. set (m := default ∅ (held !! ns)) in *. cbn [default from_option]. unfold id. rewrite sumZ_insert, Hb. cbn. lia.
  - rewrite lookup_insert_ne by done. lia.
Qed.

Lemma pinUnit_eq req u guaranteed g : pinUnit c req u guaranteed g =
  (set_pins g (unit_pins req u (timeoutHeld g) (sort_strings (map_to_list u).*1)) (gatedPins g) (noHole g),
   unit_records req u guaranteed (sort_strings (map_to_list u).*1)).
Proof.
  unfold pinUnit. pose proof (pin_fold req u (sort_strings (map_to_list u).*1) (timeoutHeld g) [] guaranteed) as E.
  destruct (foldl _ _ _) as [[pins out] n]. cbn [fst] in E. by injection E as -> ->.
Qed.

Hypothesis Hc : ∀ req, req ∈ c_Requests c → states_ok (br_States req).

Lemma borrowed_step req st held since timeout g held' g' rel : req ∈ c_Requests c → st ∈ br_States req →
  ∀ st', vr_Name st' = vr_Name st → vr_Current st' = vr_Current st → vr_Min st' = vr_Min st →
  borrowedRelease c req st' held since timeout g = Some (held', g', rel) →
  ∃ u guaranteed, unitFits (br_Namespace req) states u = true ∧ u ≠ ∅ ∧ dom u ⊆ list_to_set (vr_Name <$> br_States req) ∧
    g' = set_pins g (unit_pins req u (timeoutHeld g) (sort_strings (map_to_list u).*1)) (gatedPins g) (noHole g) ∧
    rel = unit_records req u guaranteed (sort_strings (map_to_list u).*1) ∧
    ∀ ns, past_total held' ns = past_total held ns - if decide (ns = br_Namespace req) then unit_gpus (gprOf (br_Namespace req) states) u - guaranteed else 0.
Proof using Hc.
  intros Hreq Hst st' Hname Hcur Hmin. unfold borrowedRelease. destruct (FindKey _ _) as [t|] eqn:Ek; [|done].
  destruct (FindKey_sound _ _ _ Ek) as [[b Hb] _]. set (past := default ∅ (held !! br_Namespace req)) in *. rewrite Hb.
  change (default 0 (Some b)) with b.
  destruct (_ =? 0); [done|]. destruct (Z.ltb_spec b (Z.max (vr_GPUs st') 1)); [done|].
  set (k := Z.min _ (spare st')). assert (Hk : k ≤ vr_Current st).
  { destruct (Hc req Hreq) as [_ Hnn]. destruct (Hnn st Hst) as [_ ?]. unfold k, spare, minOf in *. rewrite Hmin, Hcur. lia. }
  rewrite Hname. destruct (releaseUnit _ _ _ _ _ k b) as [[u gpus]|] eqn:Eu; [|done].
  destruct (releaseUnit_counts _ _ _ _ st k b u gpus (Hc req Hreq) Hst Hk Eu) as (-> & Hsome & Hnames).
  destruct (unitFits _ _ u) eqn:Ef; [|done]. cbn [negb]. rewrite pinUnit_eq. intros [= <- <- <-].
  exists u, (Z.max 0 (unit_gpus (gprOf (br_Namespace req) (c_States c)) u - b)). split_and!; [done..|]. intros ns.
  rewrite (past_total_insert held _ t _ b Hb). fold states. case_decide; lia.
Qed.

Definition state_step (req : BorrowRequest) (s s' : release_state) (rel : list BorrowRelease) : Prop :=
  step_ok req (timeoutHeld (rs_gov s)) (timeoutHeld (rs_gov s')) (rs_heldPast s) (rs_heldPast s') rel.

Lemma gated_releaser_step req st s s' rel : req ∈ c_Requests c → st ∈ br_States req →
  gated_releaser c req st s = Some (s', rel) → state_step req s s' rel.
Proof using Hc.
  intros Hreq Hst. unfold gated_releaser, gatedRelease. destruct (_ || _); [done|].
  destruct (borrowedRelease _ _ _ _ _ _ _) as [[[held' g'] rel']|] eqn:E; [|done]. cbn [mbind option_bind]. intros [= <- <-].
  destruct (borrowed_step req st _ _ _ _ _ _ _ Hreq Hst (gated_state st) eq_refl eq_refl eq_refl E)
    as (u & n & Hf & Hs & Hn & -> & -> & _).
  unfold state_step. cbn [rs_gov rs_heldPast set_pins timeoutHeld]. apply unit_step; [done..| |].
  - by intros [].
  - intros ns. rewrite Z.sub_diag. unfold borrowed_released. rewrite sumZ_fmap, (sumZ_ext _ (λ _, 0)); [apply sumZ_zero|].
    intros r _. cbn. by rewrite andb_false_r.
Qed.

Lemma timeout_releaser_step req st timeout s s' rel : req ∈ c_Requests c → st ∈ br_States req →
  timeout_releaser c req st timeout s = Some (s', rel) → state_step req s s' rel.
Proof using Hc.
  intros Hreq Hst. unfold timeout_releaser.
  destruct (borrowedRelease _ _ _ _ _ _ _) as [[[held' g'] rel']|] eqn:E.
  { intros [= <- <-]. destruct (borrowed_step req st _ _ _ _ _ _ _ Hreq Hst st eq_refl eq_refl eq_refl E)
      as (u & n & Hf & Hs & Hn & -> & -> & Hp).
    unfold state_step. cbn [rs_gov rs_heldPast set_pins timeoutHeld]. rewrite <-(list_fmap_id (unit_records _ _ _ _)).
    apply unit_step; [done..|]. intros ns. rewrite list_fmap_id, unit_records_borrowed by done. rewrite Hp. lia. }
  destruct (gated_releaser c req st s) as [[s1 rel1]|] eqn:Eg; [intros [= <- <-]; by eapply gated_releaser_step|].
  unfold noHoleRelease. destruct (nh_Replicas _ <=? 0); [done|]. set (k := Z.min _ (spare st)).
  destruct (k <=? 0); [done|]. assert (Hk : k ≤ vr_Current st).
  { destruct (Hc req Hreq) as [_ Hnn]. destruct (Hnn st Hst) as [_ ?]. unfold k, spare in *. lia. }
  destruct (releaseUnit _ _ _ _ _ k (-1)) as [[u gpus]|] eqn:Eu; [|done].
  destruct (releaseUnit_counts _ _ _ _ st k (-1) u gpus (Hc req Hreq) Hst Hk Eu) as (-> & Hsome & Hnames).
  destruct (unitFits _ _ u) eqn:Ef; [|done]. cbn [negb]. rewrite pinUnit_eq. cbn [mbind option_bind]. intros [= <- <-].
  unfold state_step. cbn [set_gov rs_gov rs_heldPast set_pins timeoutHeld]. rewrite <-(list_fmap_id (unit_records _ _ _ _)).
  apply unit_step; [done..|]. intros ns. rewrite list_fmap_id, unit_records_borrowed by done. fold states. case_decide; lia.
Qed.

(** ** The pass *)
Lemma mark_pins modelKey cohorts at_ preempted timeout g :
  timeoutHeld (markBackoffAfter modelKey cohorts at_ preempted timeout g) = timeoutHeld g.
Proof. unfold markBackoffAfter, markModelCooldown. destruct cohorts; [|done]. by destruct (_ <? _). Qed.

Notation releaser := (BorrowRequest → variantRef → Z → release_state → option (release_state * list BorrowRelease)).

Section passes.
Context (release : releaser).
Hypothesis Hrelease : ∀ req st timeout s s' rel, req ∈ c_Requests c → st ∈ br_States req →
  release req st timeout s = Some (s', rel) → state_step req s s' rel.

Lemma first_release_step req sts s s' rel : req ∈ c_Requests c → (∀ st, st ∈ sts → st ∈ br_States req) →
  first_release c release req sts s = (s', rel) → (s' = s ∧ rel = []) ∨ state_step req s s' rel.
Proof using Hrelease.
  intros Hreq. induction sts as [|st sts IH]; intros Hsts; cbn [first_release]; [intros [= <- <-]; by left|].
  assert (Hin : ∀ x, x ∈ sts → x ∈ br_States req) by (intros x Hx; apply Hsts; by right).
  destruct (vr_Unplaced st <=? 0); [by apply IH|]. destruct (release _ _ _ _) as [[s1 rel1]|] eqn:E; [|by apply IH].
  apply Hrelease in E; [|done|apply Hsts; by left]. intros [= <- <-]. right. destruct rel1 as [|r rel1]; [done|].
  destruct (rel_Cause r); [|done]. unfold state_step in *. cbn [set_gov rs_gov rs_heldPast]. by rewrite mark_pins.
Qed.

(** What a pass has released so far, from the state it started in. *)
Record pass_ok (s0 s : release_state) (out : list BorrowRelease) : Prop := {
  po_nodup : NoDup (rel_key <$> out);
  po_recs : ∀ r, r ∈ out → release_ok r ∧ timeoutHeld (rs_gov s0) !! rel_key r = None ∧ timeoutHeld (rs_gov s) !! rel_key r = Some (rel_To r);
  po_rest : ∀ k, k ∉ rel_key <$> out → timeoutHeld (rs_gov s) !! k = timeoutHeld (rs_gov s0) !! k;
  po_account : ∀ ns, borrowed_released ns out = past_total (rs_heldPast s0) ns - past_total (rs_heldPast s) ns }.

Lemma release_model_ok s0 req acc : req ∈ c_Requests c → pass_ok s0 acc.1 acc.2 →
  let r := release_model c release acc req in pass_ok s0 r.1 r.2.
Proof using Hrelease.
  destruct acc as [s out]. intros Hreq [P1 P2 P3 P4]. unfold release_model. cbn [fst snd] in *.
  destruct (modelPinned (rs_gov s) req) eqn:Ep; [done|]. destruct (first_release _ _ _ _ _) as [s' rel] eqn:E. cbn [fst snd].
  apply first_release_step in E as [[-> ->]|[_ S1 S2 S3 S4]]; [by rewrite app_nil_r|.. |done|done].
  assert (Hnew : ∀ r, r ∈ rel → timeoutHeld (rs_gov s) !! rel_key r = None).
  { intros r (Hns & Hv & _)%S2. apply list_elem_of_fmap in Hv as (st & Hname & Hst). unfold modelPinned in Ep.
    destruct (timeoutHeld (rs_gov s) !! rel_key r) eqn:Et; [|done]. exfalso. rewrite <-not_true_iff_false in Ep. apply Ep.
    apply existsb_exists. exists st. split; [by apply list_elem_of_In|]. apply bool_decide_eq_true. rewrite <-Hname, <-Hns.
    unfold rel_key in Et. by rewrite Et. }
  assert (Hdis : ∀ r, r ∈ rel → rel_key r ∉ rel_key <$> out).
  { intros r Hr (x & Hx & Hin)%list_elem_of_fmap. destruct (P2 x Hin) as (_ & _ & Hp). rewrite <-Hx, (Hnew r Hr) in Hp. done. }
  split.
  - rewrite fmap_app. apply NoDup_app. split_and!; [done| |done]. intros k Hk (r & -> & Hr)%list_elem_of_fmap. by apply (Hdis r Hr).
  - intros r [Hr|Hr]%elem_of_app.
    + destruct (P2 r Hr) as (? & ? & Hp). split_and!; [done..|]. rewrite S3; [done|]. intros (x & Hx & Hin)%list_elem_of_fmap.
      apply (Hdis x Hin). rewrite <-Hx. by apply list_elem_of_fmap_2.
    + destruct (S2 r Hr) as (_ & _ & ? & ?). split_and!; [done| |done]. rewrite <-P3 by (by apply Hdis). by apply Hnew.
  - intros k Hk. rewrite fmap_app, elem_of_app in Hk. rewrite S3, P3 by tauto. done.
  - intros ns. unfold borrowed_released in *. rewrite sumZ_app, P4, S4. lia.
Qed.

Lemma eachUnplaced_ok s0 : let r := eachUnplaced c release s0 in pass_ok s0 r.1 r.2.
Proof using Hrelease.
  unfold eachUnplaced. assert (Hpass : ∀ reqs acc, (∀ req, req ∈ reqs → req ∈ c_Requests c) → pass_ok s0 acc.1 acc.2 →
    let r := foldl (release_model c release) acc reqs in pass_ok s0 r.1 r.2).
  { induction reqs as [|req reqs IH]; intros acc Hin Hacc; [done|]. cbn [foldl]. apply IH; [intros x Hx; apply Hin; by right|].
    apply release_model_ok; [apply Hin; by left|done]. }
  apply Hpass; [done|]. split; cbn [fst snd]; [constructor|by intros r ?%not_elem_of_nil|done|]. intros ns. rewrite Z.sub_diag. done.
Qed.
End passes.

Lemma past_total_nonneg held ns : 0 ≤ past_total held ns.
Proof. apply sumZ_nonneg. intros e _. lia. Qed.
End pass.

(** ** Pins on the decisions *)
Lemma lower_decision_at to reason d : decision_at (lower_decision to reason d) = decision_at d.
Proof. unfold lower_decision. by destruct (_ <=? _). Qed.

Lemma lower_last_map key f ds : NoDup (decision_at <$> ds) →
  lower_last key f ds = (λ d, if String.eqb (decision_at d) key then f d else d) <$> ds.
Proof.
  induction ds as [|d ds IH]; [done|]. cbn [fmap list_fmap lower_last]. intros [Hd Hnd]%NoDup_cons.
  destruct (String.eqb_spec (decision_at d) key) as [<-|Hne]; cbn [andb]; [|by rewrite IH].
  assert (Hin : ∀ x, x ∈ ds → String.eqb (decision_at x) (decision_at d) = false).
  { intros x Hx. apply String.eqb_neq. intros Heq. apply Hd. rewrite <-Heq. by apply list_elem_of_fmap_2. }
  assert (existsb (λ x, String.eqb (decision_at x) (decision_at d)) ds = false) as ->.
  { apply not_true_iff_false. intros (x & Hx%list_elem_of_In & Hk)%existsb_exists. by rewrite (Hin x Hx) in Hk. }
  cbn [negb]. f_equal. rewrite <-(list_fmap_id ds) at 1. apply list_fmap_ext. intros i x Hx%list_elem_of_lookup_2. by rewrite (Hin x Hx).
Qed.

(** With one decision per variant, the pins cap each variant's own. *)
Definition pinned (pins : gmap string Z) (d : VariantDecision) : VariantDecision :=
  match pins !! decision_at d with Some to => lower_decision to "borrow-unplaced" d | None => d end.

Lemma applyPins_eq g ds : NoDup (decision_at <$> ds) → applyPins g ds = pinned (timeoutHeld g) <$> ds.
Proof.
  intros Hnd. unfold applyPins.
  set (cap := λ (d : VariantDecision) (e : string * Z), if String.eqb (decision_at d) e.1 then lower_decision e.2 "borrow-unplaced" d else d).
  assert (Hcap : ∀ d e, decision_at (cap d e) = decision_at d) by (intros d e; unfold cap; destruct (String.eqb _ _); [apply lower_decision_at|done]).
  assert (Hfold : ∀ l ds, NoDup (decision_at <$> ds) →
    foldl (λ ds (e : string * Z), lower_last e.1 (lower_decision e.2 "borrow-unplaced") ds) ds l = (λ d, foldl cap d l) <$> ds).
  { induction l as [|e l IH]; intros ds' Hds; cbn [foldl]; [by rewrite list_fmap_id|]. rewrite lower_last_map by done. rewrite IH.
    - rewrite <-list_fmap_compose. by apply list_fmap_ext.
    - rewrite <-list_fmap_compose. erewrite list_fmap_ext; [exact Hds|]. intros i x _. apply Hcap. }
  rewrite Hfold by done. apply list_fmap_ext. intros i d _. unfold pinned. rewrite <-(list_to_map_to_list (timeoutHeld g)) at 2.
  pose proof (NoDup_fst_map_to_list (timeoutHeld g)) as Hk. induction (map_to_list (timeoutHeld g)) as [|[k n] l IH]; [done|].
  cbn [foldl list_to_map]. cbn [fmap list_fmap] in Hk. apply NoDup_cons in Hk as [Hk Hl].
  unfold cap at 2. cbn [fst snd]. destruct (String.eqb_spec (decision_at d) k) as [Hd|Hd].
  - cbn. rewrite Hd, lookup_insert_eq. clear IH Hl.
    assert (Hno : ∀ x, decision_at x = k → foldl cap x l = x).
    { clear -Hk Hcap. induction l as [|[k' n'] l IH]; intros x Hx; [done|]. cbn [foldl]. apply not_elem_of_cons in Hk as [Hne Hk].
      cbn [fst] in Hne. unfold cap at 2. cbn [fst snd]. rewrite Hx, (proj2 (String.eqb_neq _ _) Hne). by apply IH. }
    apply Hno. by rewrite lower_decision_at.
  - cbn. rewrite lookup_insert_ne by done. by apply IH.
Qed.

(** ** Properties *)

(** C5: what a cycle releases.  The releases lower each variant once, only variants
    without a release in flight, from what runs to their minimum at least; each is pinned
    at its target, no other pin changes, and the decisions, one per variant, are capped
    at their pins and otherwise left alone.  Over each namespace the GPUs given back,
    less those reported as guaranteed and those held at Kueue's gate, are within what the
    namespace holds past its guaranteed figure, however many models release. *)
Theorem timeout_releases_sound c decisions g :
  (∀ req, req ∈ c_Requests c → states_ok (br_States req)) → NoDup (decision_at <$> decisions) →
  let '(g', capped, out) := Releases c decisions g in
  NoDup (rel_key <$> out) ∧
  (∀ r, r ∈ out → release_ok c r ∧ timeoutHeld g !! rel_key r = None ∧ timeoutHeld g' !! rel_key r = Some (rel_To r)) ∧
  (∀ k, k ∉ rel_key <$> out → timeoutHeld g' !! k = timeoutHeld g !! k) ∧
  capped = pinned (timeoutHeld g') <$> decisions ∧
  ∀ ns, borrowed_released c ns out ≤ sumZ snd (map_to_list (default ∅ (namespaceHeldPast (c_Constraints c) !! ns))).
Proof.
  intros Hc Hds. unfold Releases, timeoutReleases.
  set (s0 := MkReleaseState _ _ g). pose proof (eachUnplaced_ok c _ (timeout_releaser_step c Hc) s0) as H.
  destruct (eachUnplaced _ _ _) as [s out]. cbn [fst snd] in H. destruct H as [P1 P2 P3 P4]. split_and!; [done..|by apply applyPins_eq|].
  intros ns. rewrite P4. pose proof (past_total_nonneg (rs_heldPast s) ns).
  assert (past_total (rs_heldPast s0) ns = sumZ snd (map_to_list (default ∅ (namespaceHeldPast (c_Constraints c) !! ns)))) as ->; [|lia].
  unfold past_total, s0. cbn [rs_heldPast]. apply sumZ_ext. intros [t n] Hin%elem_of_map_to_list. cbn.
  destruct (namespaceHeldPast (c_Constraints c) !! ns) as [m|] eqn:E; cbn in Hin; [|by rewrite lookup_empty in Hin].
  destruct (namespaceBorrowed_spec _ _ _ _ E) as [_ Hnn]. specialize (Hnn t n Hin). lia.
Qed.

(** A namespace eight GPUs past its figure, one replica of eight unplaced for ten
    minutes: it is released. *)
Lemma timeout_releases_sound_witness :
  let s := DefaultBorrowSettings in
  let st := MkRef "v" 2 None 1 [1000 * minute] (1000 * minute) [] 8 RoleBoth (Some 1) "H100" in
  let req := MkBorrowRequest "ns" "m" false [st] [("v", "H100")] in
  let base := MkConstraints "kueue" ∅ (Some {["ns" := {["H100" := MkPool 8 16]}]}) true 8 16 0 false true true false 0 in
  let cs := [Some (MkBorrowConstraints base (Some {["ns" := {["H100" := MkNamespaceBorrow 16 8 0]}]}) [] {["ns" := ["cohort"]]} ∅ ∅)] in
  let c := MkCycle (1010 * minute) cs [req] ∅ ∅ ∅ in
  let '(g', _, out) := Releases c [] (NewBorrowGovernor s) in
  (rel_Variant <$> out) = ["v"] ∧ timeoutHeld g' !! "ns/v" = Some 1 ∧ borrowed_released c "ns" out ≤ 8.
Proof.
  intros s st req base cs c.
  assert (Hc : ∀ req, req ∈ c_Requests c → states_ok (br_States req)).
  { intros r Hr. apply list_elem_of_singleton in Hr as ->. split; [apply (bool_decide_unpack _); vm_compute; exact I|].
    intros x Hx. apply list_elem_of_singleton in Hx as ->. vm_compute. split; discriminate. }
  pose proof (timeout_releases_sound c [] (NewBorrowGovernor s) Hc ltac:(constructor)) as H.
  destruct (Releases c [] (NewBorrowGovernor s)) as [[g' ds] out] eqn:E. destruct H as (_ & H2 & _ & _ & H5).
  assert (Hout : out = [MkRelease "ns" "m" "v" 2 1 ReleasePlacementTimeout 0 false]).
  { apply (f_equal snd) in E. cbn [snd] in E. rewrite <-E. vm_compute. reflexivity. }
  split; [rewrite Hout; reflexivity|]. split.
  - apply (H2 (MkRelease "ns" "m" "v" 2 1 ReleasePlacementTimeout 0 false)). rewrite Hout. by left.
  - etrans; [apply H5|]. vm_compute. discriminate.
Defined.

(** The bound is per namespace, not per type: the GPUs of partner replicas come off the
    type of the unplaced variant.  Eight A100 are held past the figure; the decode that
    goes with a prefill on H100 and the unplaced replica of another model give back
    sixteen, none of them reported as guaranteed. *)
Example release_crosses_types :
  let at_ := 1000 * minute in
  let p := MkRef "p" 2 None 1 [at_] at_ [] 8 RolePrefill None "H100" in
  let d := MkRef "d" 2 None 0 [] 0 [] 8 RoleDecode None "A100" in
  let v := MkRef "v" 2 None 1 [at_] at_ [] 8 RoleBoth None "A100" in
  let reqs := [MkBorrowRequest "ns" "m1" true [p; d] [("p", "H100"); ("d", "A100")]; MkBorrowRequest "ns" "m2" false [v] [("v", "A100")]] in
  let pools := {["ns" := <["H100" := MkPool 0 16]> {["A100" := MkPool 24 32]}]} in
  let base := MkConstraints "kueue" ∅ (Some pools) true 24 48 0 false true true false 0 in
  let cs := [Some (MkBorrowConstraints base (Some {["ns" := {["H100" := MkNamespaceBorrow 16 0 0]}]}) [] {["ns" := ["cohort"]]} ∅ ∅)] in
  let c := MkCycle (1010 * minute) cs reqs ∅ ∅ ∅ in
  let out := (Releases c [] (NewBorrowGovernor DefaultBorrowSettings)).2 in
  (namespaceHeldPast cs !! "ns" ≫= (.!! "A100")) = Some 8 ∧
  ((λ r, (rel_Variant r, released_gpus c r, rel_GuaranteedGPUs r)) <$> out) = [("d", 8, 0); ("p", 8, 0); ("v", 8, 0)].
Proof. vm_compute. split; reflexivity. Qed.
