(* ===== verification/BorrowRuns.v ===== *)
(** * Runs of the borrow governor

    The borrow governor between restarts as a step relation: preemptions marked, cycles
    observed, releases decided and held, in any order as time goes
    ([borrow_governor.go] of [internal/engines/allocation]), with the settings unchanged.

    A run keeps a log of the events that start a cooldown of a model in a cohort.

    Theorem: a preempted model stays off its cohorts for its cooldown whatever follows,
    and a model is off a cohort only within the longest backoff of an event of its own
    there. *)
From Stdlib Require Import ZArith Lia String Ascii.
From stdpp Require Import base gmap strings list sorting fin_maps.
From S2P Require Import Prelude Accelerator Budget Domain BorrowPools BorrowConstraints BorrowGovernor BorrowUnit BorrowRelease.
Open Scope Z_scope.

(** ** Runs *)

(** The events of a mark, by model and cohort, and of the placement-timeout releases. *)
Definition mark_events (modelKey : string) (cohorts : list string) (at_ : Z) : list (string * Z) :=
  (λ c, (modelKey +:+ "@" +:+ c, at_)) <$> cohorts.

Definition release_events (c : BorrowCycle) (out : list BorrowRelease) : list (string * Z) :=
  mjoin ((λ r, match rel_Cause r with
               | ReleaseKueueGate => []
               | ReleasePlacementTimeout =>
                   mark_events (rel_Namespace r +:+ "/" +:+ rel_ModelID r) (namespaceCohorts (c_Constraints c) (rel_Namespace r)) (c_Now c)
               end) <$> out).

(** The governor between restarts, with its settings, and the log of the events: marks
    and cycles as time goes. *)
Notation run_state := (Z * BorrowGovernor * list (string * Z))%type.

Inductive governed (s : BorrowSettings) : run_state → run_state → Prop :=
| governed_mark t g log modelKey cohorts at_ preempted timeout : at_ ≤ t →
    governed s (t, g, log) (t, markBackoffAfter modelKey cohorts at_ preempted timeout g, log ++ mark_events modelKey cohorts at_)
| governed_model t g log modelKey at_ : governed s (t, g, log) (t, MarkPreempted modelKey at_ g, log)
| governed_observe t g log c : t ≤ c_Now c → governed s (t, g, log) (c_Now c, Observe c g, log)
| governed_hold t g log now requests decisions : t ≤ now →
    governed s (t, g, log) (now, (HoldReleases now requests decisions g).1, log)
| governed_release t g log c decisions : t ≤ c_Now c →
    governed s (t, g, log) (c_Now c, (Releases c decisions g).1.1, log ++ release_events c (Releases c decisions g).2)
| governed_gated t g log c decisions : t ≤ c_Now c →
    governed s (t, g, log) (c_Now c, (GatedReleases c decisions g).1.1, log ++ release_events c (GatedReleases c decisions g).2).

Record governor_ok (s : BorrowSettings) (x : Z * BorrowGovernor) : Prop := {
  go_settings : settings x.2 = s;
  go_entries : ∀ k e, backoff x.2 !! k = Some e → entry_ok s x.1 e }.

Lemma entry_ok_mono s t t' e : entry_ok s t e → t ≤ t' → entry_ok s t' e.
Proof. intros [] ?. split; try done. lia. Qed.

Lemma backoff_marks s t modelKey cohorts at_ preempted timeout (b : gmap string BackoffEntry) :
  0 ≤ Cooldown s → at_ ≤ t → (∀ k e, b !! k = Some e → entry_ok s t e) →
  let b' := foldl (λ b c, let k := modelKey +:+ "@" +:+ c in <[k := mark_entry s (b !! k) at_ preempted timeout]> b) b cohorts in
  (∀ k e, b' !! k = Some e → entry_ok s t e) ∧
  (∀ k e, b !! k = Some e → ∃ e', b' !! k = Some e' ∧ Until e ≤ Until e') ∧
  (preempted = true → ∀ c, c ∈ cohorts → ∃ e', b' !! (modelKey +:+ "@" +:+ c) = Some e' ∧ at_ - sameEvent + Cooldown s ≤ Until e').
Proof.
  intros Hc Ht. revert b. induction cohorts as [|c cohorts IH]; intros b Hb; cbn [foldl].
  { split_and!; [done|intros k e Hk; exists e; split; [done|lia]|by intros _ c ?%not_elem_of_nil]. }
  set (key := modelKey +:+ "@" +:+ c). set (e1 := mark_entry s (b !! key) at_ preempted timeout).
  assert (Hold : ∀ e0, b !! key = Some e0 → entry_ok s t e0) by (intros e0; apply Hb).
  destruct (mark_entry_until s Hc t (b !! key) at_ preempted timeout Hold) as [U1 U2]. fold e1 in U1, U2.
  destruct (IH (<[key := e1]> b)) as (I1 & I2 & I3).
  { intros k e [[<- <-]|[_ Hk]]%lookup_insert_Some; [by apply mark_entry_ok|by eapply Hb]. }
  split_and!; [done| |].
  - intros k e Hk. destruct (decide (k = key)) as [->|Hne].
    + destruct (I2 key e1 (lookup_insert_eq _ _ _)) as (e' & ? & ?). exists e'. split; [done|]. specialize (U1 e Hk). lia.
    + apply I2. by rewrite lookup_insert_ne.
  - intros Hp x [->|Hx]%elem_of_cons; [|by apply I3].
    destruct (I2 key e1 (lookup_insert_eq _ _ _)) as (e' & ? & ?). exists e'. split; [done|]. specialize (U2 Hp). lia.
Qed.

Section runs.
Context (s : BorrowSettings).
Hypothesis Hcool : 0 ≤ Cooldown s.

(** Changes that keep the entries and only ever extend them. *)
Definition extends (t : Z) (g g' : BorrowGovernor) : Prop :=
  governor_ok s (t, g) → governor_ok s (t, g') ∧
  ∀ k e, backoff g !! k = Some e → ∃ e', backoff g' !! k = Some e' ∧ Until e ≤ Until e'.

Lemma extends_same t g g' : settings g' = settings g → backoff g' = backoff g → extends t g g'.
Proof.
  intros Hs Hb [H1 H2]. cbn [fst snd] in *. split; [split; cbn [fst snd]; [by rewrite Hs|by rewrite Hb]|].
  intros k e Hk. exists e. rewrite Hb. split; [done|lia].
Qed.

Lemma extends_trans t g1 g2 g3 : extends t g1 g2 → extends t g2 g3 → extends t g1 g3.
Proof.
  intros E1 E2 [H2 K2]%E1. destruct (E2 H2) as [H3 K3]. split; [done|]. intros k e (e1 & Hk1 & ?)%K2.
  destruct (K3 k e1 Hk1) as (e2 & ? & ?). exists e2. split; [done|lia].
Qed.

Lemma extends_mark t g modelKey cohorts at_ preempted timeout : at_ ≤ t →
  extends t g (markBackoffAfter modelKey cohorts at_ preempted timeout g).
Proof using Hcool.
  intros Ht. destruct cohorts as [|c cohorts].
  { apply extends_same; unfold markBackoffAfter, markModelCooldown; by destruct (_ <? _). }
  intros [Hset He]. cbn [fst snd] in *.
  destruct (backoff_marks s t modelKey (c :: cohorts) at_ preempted timeout (backoff g) Hcool Ht He) as (B1 & B2 & _).
  unfold markBackoffAfter. rewrite Hset. split; [by split|]. exact B2.
Qed.

(** The releasers leave the entries alone. *)
Definition keeps (req : BorrowRequest) (g g' : BorrowGovernor) (rel : list BorrowRelease) : Prop :=
  settings g' = settings g ∧ backoff g' = backoff g ∧
  Forall (λ r, rel_Namespace r = br_Namespace req ∧ rel_ModelID r = br_ModelID req) rel.

Lemma pinUnit_keeps c req u n g g' out : pinUnit c req u n g = (g', out) → keeps req g g' out.
Proof. rewrite pinUnit_eq. intros [= <- <-]. split_and!; [done..|]. apply Forall_forall. by intros r (v & k & _ & ->)%unit_records_elem. Qed.

Lemma borrowed_keeps c req st held since timeout g held' g' rel :
  borrowedRelease c req st held since timeout g = Some (held', g', rel) → keeps req g g' rel.
Proof.
  unfold borrowedRelease. destruct (FindKey _ _); [|done]. destruct (_ =? 0); [done|]. destruct (_ <? _); [done|].
  destruct (releaseUnit _ _ _ _ _ _ _) as [[u gpus]|]; [|done]. destruct (negb _); [done|].
  destruct (pinUnit _ _ _ _ _) as [g1 out] eqn:E. intros [= _ <- <-]. by eapply pinUnit_keeps.
Qed.

Definition keeps_entries (release : BorrowRequest → variantRef → Z → release_state → option (release_state * list BorrowRelease)) : Prop :=
  ∀ req st timeout x x' rel, release req st timeout x = Some (x', rel) → keeps req (rs_gov x) (rs_gov x') rel.

Lemma gated_keeps c : keeps_entries (λ req st _ x, gated_releaser c req st x).
Proof.
  intros req st timeout x x' rel. unfold gated_releaser, gatedRelease. destruct (_ || _); [done|].
  destruct (borrowedRelease _ _ _ _ _ _ _) as [[[h g] out]|] eqn:E; [|done]. cbn [mbind option_bind]. intros [= <- <-].
  apply borrowed_keeps in E as (? & ? & Hn). split_and!; [done..|]. by apply Forall_fmap.
Qed.

Lemma timeout_keeps c : keeps_entries (timeout_releaser c).
Proof.
  intros req st timeout x x' rel. unfold timeout_releaser.
  destruct (borrowedRelease _ _ _ _ _ _ _) as [[[h g] out]|] eqn:E; [intros [= <- <-]; by apply borrowed_keeps in E|].
  destruct (gated_releaser c req st x) as [[x1 rel1]|] eqn:Eg; [intros [= <- <-]; exact (gated_keeps c req st timeout x x1 rel1 Eg)|].
  unfold noHoleRelease. destruct (_ <=? 0); [done|]. destruct (_ <=? 0); [done|].
  destruct (releaseUnit _ _ _ _ _ _ _) as [[u gpus]|]; [|done]. destruct (negb _); [done|].
  destruct (pinUnit _ _ _ _ _) as [g1 out] eqn:Ep. intros [= <- <-]. by apply pinUnit_keeps in Ep.
Qed.

Lemma eachUnplaced_extends c release x : keeps_entries release →
  extends (c_Now c) (rs_gov x) (rs_gov (eachUnplaced c release x).1).
Proof using Hcool.
  intros Hk. unfold eachUnplaced. change (rs_gov x) with (rs_gov (x, @nil BorrowRelease).1) at 1. generalize (x, @nil BorrowRelease).
  generalize (c_Requests c). clear x. intros reqs. induction reqs as [|req reqs IH]; intros acc; cbn [foldl]; [by apply extends_same|].
  eapply extends_trans; [|apply IH]. clear IH reqs. unfold release_model. destruct (modelPinned _ _); [by apply extends_same|].
  generalize (br_States req). intros sts. destruct (first_release c release req sts acc.1) as [x rel] eqn:E. cbn [fst].
  revert E. induction sts as [|st sts IH]; cbn [first_release]; [intros [= <- _]; by apply extends_same|].
  destruct (_ <=? 0); [exact IH|]. destruct (release _ _ _ _) as [[x1 rel1]|] eqn:Er; [|exact IH]. apply Hk in Er as (Hs & Hb & _).
  intros [= <- _]. eapply (extends_trans _ _ (rs_gov x1)); [by apply extends_same|].
  destruct rel1 as [|r rel1]; [by apply extends_same|]. destruct (rel_Cause r); [|by apply extends_same].
  apply extends_mark. lia.
Qed.

Lemma releases_extend c decisions g : extends (c_Now c) g (Releases c decisions g).1.1 ∧ extends (c_Now c) g (GatedReleases c decisions g).1.1.
Proof using Hcool.
  split.
  - unfold Releases, timeoutReleases. set (x := MkReleaseState _ _ g). pose proof (eachUnplaced_extends c _ x (timeout_keeps c)) as H.
    by destruct (eachUnplaced _ _ x).
  - unfold GatedReleases. set (x := MkReleaseState _ _ _). pose proof (eachUnplaced_extends c _ x (gated_keeps c)) as H.
    destruct (eachUnplaced _ _ x). cbn [fst snd] in *. eapply extends_trans; [|exact H]. by apply extends_same.
Qed.

Lemma extends_later t t' g : t ≤ t' → governor_ok s (t, g) → governor_ok s (t', g).
Proof. intros Ht [H1 H2]. split; [done|]. intros k e Hk. eapply entry_ok_mono; [by eapply H2|done]. Qed.

Lemma observe_step t g c : t ≤ c_Now c → governor_ok s (t, g) →
  governor_ok s (c_Now c, Observe c g) ∧ t ≤ c_Now c ∧
  ∀ k e, backoff g !! k = Some e → Until e ≤ c_Now c ∨ ∃ e', backoff (Observe c g) !! k = Some e' ∧ Until e ≤ Until e'.
Proof using Hcool.
  intros Ht [Hset He]. cbn [fst snd] in *.
  assert (Hb : settings (Observe c g) = settings g ∧ backoff (Observe c g) = omap (prune_entry (settings g) (c_Now c)) (backoff g)).
  { unfold Observe. by destruct (observeNoHole c (pruneClocks (c_Now c) g)). }
  destruct Hb as [Hb1 Hb2]. rewrite Hset in Hb2. split; [split; cbn [fst snd]; [by rewrite Hb1|]|split; [lia|]].
  - intros k e. rewrite Hb2, lookup_omap. destruct (backoff g !! k) as [e0|] eqn:E; [|done]. cbn.
    destruct (prune_entry_ok s Hcool t (c_Now c) e0 (He k e0 E) Ht) as [[-> _]|[-> _]]; [|done].
    intros [= <-]. by eapply entry_ok_mono; [apply (He k)|].
  - intros k e Hk. destruct (prune_entry_ok s Hcool t (c_Now c) e (He k e Hk) Ht) as [[Hp _]|[_ Hp]]; [right|left; lia].
    exists e. rewrite Hb2, lookup_omap, Hk. cbn. by rewrite Hp.
Qed.

(** What a step does to an entry: it goes once a clean cooldown has passed since it
    ended, and never ends sooner. *)
Lemma governed_step x y : governed s x y → governor_ok s x.1 →
  governor_ok s y.1 ∧ x.1.1 ≤ y.1.1 ∧
  ∀ k e, backoff x.1.2 !! k = Some e → Until e ≤ y.1.1 ∨ ∃ e', backoff y.1.2 !! k = Some e' ∧ Until e ≤ Until e'.
Proof using Hcool.
  assert (Hext : ∀ t t' g g', t ≤ t' → extends t' g g' → governor_ok s (t, g) → governor_ok s (t', g') ∧ t ≤ t' ∧
    ∀ k e, backoff g !! k = Some e → Until e ≤ t' ∨ ∃ e', backoff g' !! k = Some e' ∧ Until e ≤ Until e').
  { intros t t' g g' Ht E H1%(extends_later t t'); [|done]. destruct (E H1) as [H2 H3]. split_and!; [done..|]. intros k e Hk. right. by apply H3. }
  intros Hs Hx. destruct Hs as [t g log modelKey cohorts at_ preempted timeout Ht|t g log modelKey at_|t g log c Ht|t g log now requests decisions Ht
    |t g log c decisions Ht|t g log c decisions Ht]; cbn [fst snd] in *.
  - apply Hext; [lia| |done]. by apply extends_mark.
  - apply Hext; [lia| |done]. apply extends_same; unfold MarkPreempted, markModelCooldown; by destruct (_ <? _).
  - apply observe_step; done.
  - apply Hext; [lia| |done]. by apply extends_same.
  - apply Hext; [lia| |done]. apply releases_extend.
  - apply Hext; [lia| |done]. apply releases_extend.
Qed.

Lemma governed_runs x y : rtc (governed s) x y → governor_ok s x.1 →
  governor_ok s y.1 ∧ x.1.1 ≤ y.1.1 ∧
  ∀ k e, backoff x.1.2 !! k = Some e → Until e ≤ y.1.1 ∨ ∃ e', backoff y.1.2 !! k = Some e' ∧ Until e ≤ Until e'.
Proof using Hcool.
  induction 1 as [x|x z y Hs _ IH]; intros Hx; [split_and!; [done|lia|intros k e Hk; right; exists e; split; [done|lia]]|].
  destruct (governed_step x z Hs Hx) as (Hz & T1 & E1). destruct (IH Hz) as (Hy & T2 & E2). split; [done|]. split; [lia|].
  intros k e Hk. destruct (E1 k e Hk) as [?|(e1 & Hk1 & U1)]; [left; lia|].
  destruct (E2 k e1 Hk1) as [?|(e2 & Hk2 & U2)]; [left; lia|right]. exists e2. split; [done|lia].
Qed.
End runs.

(** ** The events behind the entries *)

(** Every entry of [g'] is of an event of [g] or of [evs]. *)
Definition accounted (g g' : BorrowGovernor) (evs : list (string * Z)) : Prop :=
  ∀ k e', backoff g' !! k = Some e' → (∃ e, backoff g !! k = Some e ∧ LastAt e' = LastAt e) ∨ (k, LastAt e') ∈ evs.

Lemma accounted_same g g' : backoff g' = backoff g → accounted g g' [].
Proof. intros Hb k e' He. left. exists e'. by rewrite <-Hb. Qed.

Lemma accounted_trans g1 g2 g3 evs evs' : accounted g1 g2 evs → accounted g2 g3 evs' → accounted g1 g3 (evs ++ evs').
Proof.
  intros A1 A2 k e3 [(e2 & H2 & ->)|?]%A2; [|right; set_solver].
  destruct (A1 k e2 H2) as [(e1 & ? & ?)|?]; [left; eauto|right; set_solver].
Qed.

Lemma mark_entry_last s e at_ preempted timeout :
  LastAt (mark_entry s e at_ preempted timeout) = at_ ∨ ∃ e0, e = Some e0 ∧ LastAt (mark_entry s e at_ preempted timeout) = LastAt e0.
Proof. unfold mark_entry. destruct e as [e|]; [|by left]. repeat case_match; eauto. Qed.

Lemma accounted_mark g modelKey cohorts at_ preempted timeout :
  accounted g (markBackoffAfter modelKey cohorts at_ preempted timeout g) (mark_events modelKey cohorts at_).
Proof.
  unfold accounted. destruct cohorts as [|c0 cohorts]; [apply accounted_same; unfold markBackoffAfter, markModelCooldown; by destruct (_ <? _)|].
  unfold markBackoffAfter. cbn [backoff set_clocks]. generalize (c0 :: cohorts). clear c0 cohorts. intros cohorts.
  generalize (backoff g) as b. induction cohorts as [|c cohorts IH]; intros b k e'; cbn [foldl]; [intros He; left; eauto|].
  intros [(e & He & Hl)|?]%IH; [|right; by right].
  apply lookup_insert_Some in He as [[<- <-]|[_ He]]; [|left; eauto].
  rewrite Hl. destruct (mark_entry_last (settings g) (b !! (modelKey +:+ "@" +:+ c)) at_ preempted timeout) as [->|(e0 & ? & ->)]; [|left; eauto].
  right. by left.
Qed.

Lemma release_events_app c a b : release_events c (a ++ b) = release_events c a ++ release_events c b.
Proof. unfold release_events. by rewrite fmap_app, join_app. Qed.

Lemma accounted_first c release req sts x x' rel : keeps_entries release →
  first_release c release req sts x = (x', rel) → accounted (rs_gov x) (rs_gov x') (release_events c rel).
Proof.
  intros Hk. induction sts as [|st sts IH]; cbn [first_release]; [intros [= <- <-]; by apply accounted_same|].
  destruct (_ <=? 0); [exact IH|]. destruct (release _ _ _ _) as [[x1 rel1]|] eqn:Er; [|exact IH].
  apply Hk in Er as (_ & Hb & Hn). intros [= <- <-]. destruct rel1 as [|r rel1]; [by apply accounted_same|].
  apply Forall_cons in Hn as [[Hns Hm] _]. cbn [release_events fmap list_fmap mjoin list_join]. destruct (rel_Cause r).
  - rewrite Hns, Hm. intros k e' He. destruct (accounted_trans _ _ _ _ _ (accounted_same _ _ Hb)
      (accounted_mark (rs_gov x1) (br_Namespace req +:+ "/" +:+ br_ModelID req) (namespaceCohorts (c_Constraints c) (br_Namespace req))
         (c_Now c) false (placement_timeout c (rs_gov x) req st)) k e' He) as [?|?]; [by left|right]. apply elem_of_app. by left.
  - intros k e' He. left. exists e'. by rewrite <-Hb.
Qed.

Lemma accounted_each c release x : keeps_entries release →
  accounted (rs_gov x) (rs_gov (eachUnplaced c release x).1) (release_events c (eachUnplaced c release x).2).
Proof.
  intros Hk. unfold eachUnplaced.
  enough (H : ∀ reqs acc, ∃ rel, let r := foldl (release_model c release) acc reqs in
    r.2 = acc.2 ++ rel ∧ accounted (rs_gov acc.1) (rs_gov r.1) (release_events c rel)).
  { destruct (H (c_Requests c) (x, [])) as (rel & -> & Ha). done. }
  induction reqs as [|req reqs IH]; intros acc; cbn [foldl]; [exists []; rewrite app_nil_r; split; [done|by apply accounted_same]|].
  destruct (IH (release_model c release acc req)) as (rel & Hr & Ha). unfold release_model in Hr, Ha |- *.
  destruct (modelPinned _ _); [by exists rel|]. destruct (first_release _ _ _ _ _) as [x1 rel1] eqn:E. cbn [fst snd] in *.
  exists (rel1 ++ rel). rewrite Hr, app_assoc. split; [done|]. rewrite release_events_app.
  eapply accounted_trans; [by eapply accounted_first|done].
Qed.

Lemma accounted_releases c decisions g :
  accounted g (Releases c decisions g).1.1 (release_events c (Releases c decisions g).2) ∧
  accounted g (GatedReleases c decisions g).1.1 (release_events c (GatedReleases c decisions g).2).
Proof.
  split.
  - unfold Releases, timeoutReleases. set (x := MkReleaseState _ _ g). pose proof (accounted_each c _ x (timeout_keeps c)) as H.
    by destruct (eachUnplaced _ _ x).
  - unfold GatedReleases. set (x := MkReleaseState _ _ _). pose proof (accounted_each c _ x (gated_keeps c)) as H.
    by destruct (eachUnplaced _ _ x).
Qed.

Lemma accounted_observe c g : accounted g (Observe c g) [].
Proof.
  assert (Hb : backoff (Observe c g) = omap (prune_entry (settings g) (c_Now c)) (backoff g)).
  { unfold Observe. by destruct (observeNoHole c (pruneClocks (c_Now c) g)). }
  intros k e'. rewrite Hb, lookup_omap. destruct (backoff g !! k) as [e|]; [|done]. cbn. unfold prune_entry.
  destruct (_ <=? _); [done|]. intros He. left. exists e. destruct (_ <? _); by injection He as <-.
Qed.

(** Every entry is of an event of the log. *)
Definition logged (x : run_state) : Prop := ∀ k e, backoff x.1.2 !! k = Some e → (k, LastAt e) ∈ x.2.

Lemma logged_runs s x y : rtc (governed s) x y → logged x → logged y.
Proof.
  assert (Hacc : ∀ t t' g g' log evs, accounted g g' evs → logged (t, g, log) → logged (t', g', log ++ evs)).
  { intros t t' g g' log evs Ha Hl k e' [(e & He & ->)|?]%Ha; [|set_solver]. specialize (Hl k e He). cbn [snd] in *. set_solver. }
  assert (Hkeep : ∀ t t' g g' log, accounted g g' [] → logged (t, g, log) → logged (t', g', log)).
  { intros t t' g g' log Ha Hl. rewrite <-(app_nil_r log). by eapply Hacc. }
  induction 1 as [|x y z Hs _ IH]; [done|]. intros Hl. apply IH. clear IH z.
  destruct Hs as [t g log modelKey cohorts at_ preempted timeout Ht|t g log modelKey at_|t g log c Ht|t g log now requests decisions Ht
    |t g log c decisions Ht|t g log c decisions Ht].
  - eapply Hacc; [apply accounted_mark|done].
  - eapply Hkeep; [|done]. apply accounted_same. unfold MarkPreempted, markModelCooldown. by destruct (_ <? _).
  - eapply Hkeep; [apply accounted_observe|done].
  - eapply Hkeep; [|done]. by apply accounted_same.
  - eapply Hacc; [apply accounted_releases|done].
  - eapply Hacc; [apply accounted_releases|done].
Qed.

Lemma new_governor_ok s t : governor_ok s (t, NewBorrowGovernor s).
Proof. split; [done|]. cbn [snd NewBorrowGovernor backoff]. intros k e Hk. by rewrite lookup_empty in Hk. Qed.

Lemma model_key ns m c : ns +:+ "/" +:+ m +:+ "@" +:+ c = (ns +:+ "/" +:+ m) +:+ "@" +:+ c.
Proof. by rewrite !string_app_assoc. Qed.

(** ** Properties *)

(** C15: in any run of the governor between restarts, preemptions, cycles and releases in
    any order, a model preempted at [at_] borrows nothing in its cohorts for its cooldown
    after, up to the minute within which two events are one, whatever other events and
    cycles follow; and a model that is kept off a cohort had an event of its own there, a
    preemption or a placement-timeout release of the run, less than the longest backoff
    ago, which is 40 minutes or the cooldown if that is longer. *)
Theorem preempted_stays_off s t0 t g log ns m cohorts at_ t' g' log' c now :
  0 ≤ Cooldown s → rtc (governed s) (t0, NewBorrowGovernor s, []) (t, g, log) → at_ ≤ t →
  let key := ns +:+ "/" +:+ m in
  rtc (governed s) (t, MarkPreemptedIn key cohorts at_ g, log ++ mark_events key cohorts at_) (t', g', log') → t' ≤ now →
  (c ∈ cohorts → now < at_ - sameEvent + Cooldown s → BorrowBlockedIn g' ns m c now = true) ∧
  (∀ ns m c, BorrowBlockedIn g' ns m c now = true →
     ∃ event, (ns +:+ "/" +:+ m +:+ "@" +:+ c, event) ∈ log' ∧ event ≤ t' ∧ now < event + Z.max maxBackoff (Cooldown s)).
Proof.
  intros Hc Hr Ht key Hr' Hnow.
  destruct (governed_runs s Hc _ _ Hr (new_governor_ok s t0)) as (Hg & _ & _).
  set (g1 := MarkPreemptedIn _ _ _ _) in Hr'.
  assert (Hs1 : governed s (t, g, log) (t, g1, log ++ mark_events key cohorts at_)) by (by apply governed_mark).
  destruct (governed_step s Hc _ _ Hs1 Hg) as (Hg1 & _ & _).
  destruct (governed_runs s Hc _ _ Hr' Hg1) as (Hg' & _ & Hkeep). cbn [fst snd] in *.
  split.
  - intros Hin Hlt. destruct cohorts as [|c0 cohorts]; [by apply not_elem_of_nil in Hin|].
    destruct (backoff_marks s t key (c0 :: cohorts) at_ true (PlacementTimeout (settings g)) (backoff g) Hc Ht)
      as (_ & _ & B3); [by apply Hg|].
    destruct (B3 eq_refl c Hin) as (e & He & Hu). unfold g1, MarkPreemptedIn, markBackoff, markBackoffAfter in Hkeep.
    pose proof (go_settings _ _ Hg) as Hset. cbn [snd] in Hset. rewrite Hset in Hkeep, He. destruct (Hkeep _ e He) as [?|(e' & He' & Hu')]; [lia|].
    unfold BorrowBlockedIn. rewrite model_key. fold key. rewrite He'. cbn. apply Z.ltb_lt. lia.
  - assert (Hlog : logged (t', g', log')).
    { apply (logged_runs s (t0, NewBorrowGovernor s, [])); [etrans; [exact Hr|by eapply rtc_l]|]. intros k e He. cbn [fst snd NewBorrowGovernor backoff] in He. by rewrite lookup_empty in He. }
    intros ns' m' c'. unfold BorrowBlockedIn. destruct (backoff g' !! _) as [e|] eqn:E; [|done]. cbn. intros Hb%Z.ltb_lt.
    destruct (go_entries _ _ Hg' _ e E) as [E1 _ _ E4]. cbn [fst] in E1. exists (LastAt e). split; [exact (Hlog _ e E)|].
    destruct (backoffFor_bounds s Hc maxBackoffLevel ltac:(unfold maxBackoffLevel; lia)). lia.
Qed.

Lemma preempted_stays_off_witness :
  let s := DefaultBorrowSettings in
  let c := MkCycle (1003 * minute) [] [] ∅ ∅ ∅ in
  let g := NewBorrowGovernor s in
  BorrowBlockedIn (Observe c (MarkPreemptedIn "ns/m" ["cohort"] (1000 * minute) g)) "ns" "m" "cohort" (1005 * minute) = true.
Proof.
  intros s c g.
  refine (proj1 (preempted_stays_off s (1000 * minute) (1000 * minute) g [] "ns" "m" ["cohort"] (1000 * minute) (1003 * minute)
    (Observe c (MarkPreemptedIn "ns/m" ["cohort"] (1000 * minute) g)) [("ns/m@cohort", 1000 * minute)] "cohort" (1005 * minute) _ _ _ _ _) _ _).
  - done.
  - apply rtc_refl.
  - done.
  - apply rtc_once. exact (governed_observe s (1000 * minute) _ _ c ltac:(done)).
  - done.
  - by left.
  - done.
Defined.

