(* ===== verification/WakeSelect.v ===== *)
(** * Which variants a wake from zero starts

    The model of [selection.go] and of the bookkeeping of [model_group.go] of
    [internal/engines/scalefromzero]: the choice of the variants to wake so that a model
    at zero can serve, within the GPU budget ([FitsGPUBudget]) and on the nodes
    ([PlaceReplicasReclaiming]), the roles a model already runs, and the refusals that
    were reported.  The sets are chosen by cost, a [float64].

    Theorems: the set that is woken fits, has a decode unless one runs, and is the
    cheapest that fits up to the rounding of the sum of two costs; a refusal means that
    no set the policy allows fits. *)
From Stdlib Require Import ZArith Lia String SpecFloat Reals Lra.
From stdpp Require Import base gmap strings list sorting fin_maps.
From S2P Require Import Prelude Accelerator Budget NodeView GoFloat FloatBounds FloatError Domain.
Open Scope Z_scope.

(** ** Data *)
Record Candidate := MkCandidate {
  cd_VariantName : string; cd_ScaleTargetName : string; cd_Role : string; cd_Accelerator : string; cd_GPUsPerReplica : Z;
  cd_PodGPUs : list Z; cd_Tolerations : list Toleration; cd_DomainKey : string; cd_Placements : list PodPlacement; cd_Cost : float64 }.

(** [OutcomeNominalLentOut] is reported by the engine in place of [OutcomeNoCapacity]. *)
Inductive SelectionOutcome :=
  | OutcomePair | OutcomeDecodeOnly | OutcomeAlreadyServing | OutcomePrefillCatchUp | OutcomeNoDecodeCandidate | OutcomeNoCapacity
  | OutcomeNominalLentOut | OutcomePrefillRequired.

Record SelectionInput := MkSelection {
  si_Namespace : string; si_Candidates : list Candidate; si_DecodeCovered : bool; si_PrefillCovered : bool;
  si_Constraints : list (option ResourceConstraints); si_Admitted : gmap string Z; si_Nodes : option NodeView;
  si_Reclaimable : gmap string Reclaim; si_QueueFlavor : option (string → option FlavorPlacement); si_RequirePrefill : bool }.

#[export] Instance outcome_eq_dec : EqDecision SelectionOutcome.
Proof. solve_decision. Defined.

(** ** What a set asks for *)
Definition demand_step (demand : gmap string Z) (c : Candidate) : gmap string Z :=
  if negb (IsAcceleratorResolved (cd_Accelerator c)) then demand
  else
    let gpus := if cd_GPUsPerReplica c <=? 0 then 1 else cd_GPUsPerReplica c in
    <[cd_Accelerator c := default 0 (demand !! cd_Accelerator c) ⊞ gpus]> demand.

Definition demandOf (set : list Candidate) : gmap string Z := foldl demand_step ∅ set.

Definition shapeOf (namespace : string) (c : Candidate) (flavorOf : option (string → option FlavorPlacement)) : ReplicaShape :=
  MkShape (namespace +:+ "/" +:+ cd_VariantName c) (cd_Accelerator c) (cd_PodGPUs c) (Z.max (cd_GPUsPerReplica c) 1) (cd_Tolerations c)
    (cd_DomainKey c) (cd_Placements c) (flavorOf ≫= λ f, f (cd_Accelerator c)).

Definition replicaShapes (namespace : string) (set : list Candidate) (flavorOf : option (string → option FlavorPlacement)) : list ReplicaShape :=
  omap (λ c, if IsAcceleratorResolved (cd_Accelerator c) then Some (shapeOf namespace c flavorOf) else None) set.

(** What the set asks for on top of what earlier wakes took. *)
Definition total_demand (inp : SelectionInput) (set : list Candidate) : gmap string Z :=
  union_with (λ d a, Some (d ⊞ a)) (demandOf set) (si_Admitted inp).

(** ** Roles and costs *)
Definition is_prefill (c : Candidate) : bool := String.eqb (cd_Role c) RolePrefill.

Definition splitByRole (candidates : list Candidate) : list Candidate * list Candidate :=
  (filter (λ c, is_prefill c = false) candidates, filter (λ c, is_prefill c = true) candidates).

Definition cost_less (a b : Candidate) : bool :=
  if negb (feq (cd_Cost a) (cd_Cost b)) then flt (cd_Cost a) (cd_Cost b) else str_lt (cd_VariantName a) (cd_VariantName b).

Definition sortByCost (candidates : list Candidate) : list Candidate := sort_stable (λ a b, negb (cost_less b a)) candidates.

Definition hasPrefillCandidate (candidates : list Candidate) : bool := negb (bool_decide ((splitByRole candidates).2 = [])).

(** ** The selection *)
Section selection.
Context `{TaintMatcher}.

Definition set_fits (inp : SelectionInput) (set : list Candidate) : bool :=
  FitsGPUBudget (si_Constraints inp) (si_Namespace inp) (total_demand inp set) &&
  (PlaceReplicasReclaiming (si_Nodes inp) (replicaShapes (si_Namespace inp) set (si_QueueFlavor inp)) false (si_Reclaimable inp)).1.1.

Definition first_that_fits (inp : SelectionInput) (candidates : list Candidate) : option (list Candidate) :=
  (λ c, [c]) <$> find (λ c, set_fits inp [c]) candidates.

Definition prefillCatchUp (inp : SelectionInput) : option (list Candidate) :=
  if si_PrefillCovered inp then None else first_that_fits inp (sortByCost (splitByRole (si_Candidates inp)).2).

(** One decode's row: the first prefill that fits with it, unless it is no cheaper than
    the best pair. *)
Fixpoint pair_row (inp : SelectionInput) (d : Candidate) (prefills : list Candidate) (best : option (Candidate * Candidate * float64))
  : option (Candidate * Candidate * float64) :=
  match prefills with
  | [] => best
  | p :: prefills =>
      let cost := fadd (cd_Cost d) (cd_Cost p) in
      if match best with Some (_, _, bestCost) => fle bestCost cost | None => false end then best
      else if negb (set_fits inp [d; p]) then pair_row inp d prefills best
      else Some (d, p, cost)
  end.

Definition cheapestFeasiblePair (inp : SelectionInput) (decodes prefills : list Candidate) : option (list Candidate) :=
  (λ b : Candidate * Candidate * float64, [b.1.1; b.1.2]) <$> foldl (λ best d, pair_row inp d prefills best) None decodes.

Definition selectServingSet (inp : SelectionInput) : list Candidate * SelectionOutcome :=
  if si_DecodeCovered inp then
    match prefillCatchUp inp with
    | Some prefill => (prefill, OutcomePrefillCatchUp)
    | None => ([], OutcomeAlreadyServing)
    end
  else
    let '(decodes, prefills) := splitByRole (si_Candidates inp) in
    if bool_decide (decodes = []) then ([], OutcomeNoDecodeCandidate)
    else
      let decodes := sortByCost decodes in
      let prefills := sortByCost prefills in
      let pairWanted := negb (bool_decide (prefills = [])) && negb (si_PrefillCovered inp) in
      let decode_alone :=
        match first_that_fits inp decodes with
        | Some set => (set, OutcomeDecodeOnly)
        | None => ([], OutcomeNoCapacity)
        end in
      if pairWanted then
        match cheapestFeasiblePair inp decodes prefills with
        | Some both => (both, OutcomePair)
        | None => if si_RequirePrefill inp then ([], OutcomePrefillRequired) else decode_alone
        end
      else decode_alone.
End selection.

(** ** Groups and refusals *)

(** A variant as the groups read it, with the role its scale target gives it. *)
Record WakeVariant := MkWakeVariant { wv_Namespace : string; wv_ModelID : string; wv_ScalingPolicy : string; wv_Role : string }.

Definition wake_model_key (namespace modelID : string) : string := namespace +:+ "|" +:+ modelID.
Definition wake_key (v : WakeVariant) : string := wake_model_key (wv_Namespace v) (wv_ModelID v).

Definition ModelTiers (named : list string) : list string :=
  match foldl (λ tiers t, if String.eqb t "" || bool_decide (t ∈ tiers) then tiers else tiers ++ [t]) [] named with
  | [] => [""]
  | tiers => sort_strings tiers
  end.

Record modelGroup := MkGroup { mg_namespace : string; mg_modelID : string; mg_variants : list WakeVariant; mg_tiers : list string }.

(** The inactive variants of a model, in their order, and the tiers of all its variants. *)
Definition wake_group (inactive active : list WakeVariant) (v : WakeVariant) : modelGroup :=
  let same w := String.eqb (wake_key w) (wake_key v) in
  MkGroup (wv_Namespace v) (wv_ModelID v) (List.filter same inactive)
    (ModelTiers (wv_ScalingPolicy <$> List.filter same inactive ++ List.filter same active)).

Definition group_before (a b : modelGroup) : bool :=
  if negb (String.eqb (mg_namespace a) (mg_namespace b)) then str_le (mg_namespace a) (mg_namespace b) else str_le (mg_modelID a) (mg_modelID b).

(** The first variant of each key names the group. *)
Fixpoint first_of_keys (seen : list string) (l : list WakeVariant) : list WakeVariant :=
  match l with
  | [] => []
  | v :: l => if bool_decide (wake_key v ∈ seen) then first_of_keys seen l else v :: first_of_keys (wake_key v :: seen) l
  end.

Definition groupInactiveByModel (inactive active : list WakeVariant) : list modelGroup :=
  sort_stable group_before (wake_group inactive active <$> first_of_keys [] inactive).

Record coverage := MkCoverage { cov_decode : bool; cov_prefill : bool }.

Definition cover_step (covered : gmap string coverage) (v : WakeVariant) : gmap string coverage :=
  let c := default (MkCoverage false false) (covered !! wake_key v) in
  <[wake_key v := if String.eqb (wv_Role v) RolePrefill then MkCoverage (cov_decode c) true else MkCoverage true (cov_prefill c)]> covered.

Definition activeRoleCoverage (active : list WakeVariant) : gmap string coverage := foldl cover_step ∅ active.

Definition refusalChanged (last_ : gmap string SelectionOutcome) (key : string) (outcome : SelectionOutcome) : bool * gmap string SelectionOutcome :=
  if bool_decide (last_ !! key = Some outcome) then (false, last_) else (true, <[key := outcome]> last_).

Definition clearRefusal (last_ : gmap string SelectionOutcome) (key : string) : gmap string SelectionOutcome := delete key last_.

Definition pruneRefusals (last_ : gmap string SelectionOutcome) (groups : list modelGroup) : gmap string SelectionOutcome :=
  filter (λ e : string * SelectionOutcome, e.1 ∈ (λ g, wake_model_key (mg_namespace g) (mg_modelID g)) <$> groups) last_.

(** ** The order of costs *)
Notation rcost c := (F2R (cd_Cost c)).

Lemma nonneg_number x : nonneg x → number x ∧ fclass x = 0.
Proof. intros [Hf _]. by destruct x. Qed.

Lemma fle_real a b : nonneg a → nonneg b → fle a b = true ↔ (F2R a <= F2R b)%R.
Proof.
  intros Ha Hb. destruct (nonneg_number a Ha) as [Na Ca], (nonneg_number b Hb) as [Nb Cb].
  rewrite fle_flt, negb_true_iff, <-not_true_iff_false, flt_spec by done. rewrite Ca, Cb. split.
  - intros Hn. destruct (Rle_lt_dec (F2R a) (F2R b)); [done|]. exfalso. apply Hn. by right.
  - intros Hle [?|[_ ?]]; [lia|lra].
Qed.

(** [a] may stay before [b]. *)
Lemma cost_less_false a b : nonneg (cd_Cost a) → nonneg (cd_Cost b) →
  cost_less b a = false ↔ (rcost a < rcost b)%R ∨ rcost a = rcost b ∧ str_lt (cd_VariantName b) (cd_VariantName a) = false.
Proof.
  intros Ha Hb. destruct (nonneg_number _ Ha) as [Na Ca], (nonneg_number _ Hb) as [Nb Cb]. unfold cost_less.
  destruct (feq (cd_Cost b) (cd_Cost a)) eqn:E; cbn [negb].
  - apply feq_spec in E as [_ E]; [|done..]. split; [intros Hs; by right|]. intros [?|[_ ?]]; [lra|done].
  - assert (rcost b ≠ rcost a) by (intros Heq; apply not_true_iff_false in E; apply E, feq_spec; [done..|]; by rewrite Ca, Cb).
    rewrite <-not_true_iff_false, flt_spec by done. rewrite Ca, Cb. split.
    + intros Hn. left. destruct (Rtotal_order (rcost a) (rcost b)) as [?|[?|?]]; [done|congruence|]. exfalso. apply Hn. by right.
    + intros [?|[? _]] [?|[_ ?]]; [lia|lra|lia|congruence].
Qed.

Lemma sortByCost_sorted l : (∀ c, c ∈ l → nonneg (cd_Cost c)) → StronglySorted (λ a b, (rcost a <= rcost b)%R) (sortByCost l).
Proof.
  intros Hl. unfold sortByCost. assert (Hs : StronglySorted (λ a b, negb (cost_less b a)) (sort_stable (λ a b, negb (cost_less b a)) l)).
  { apply sort_stable_sorted.
    - intros a b Ha Hb Hn%negb_false_iff. apply negb_true_iff, cost_less_false; [by apply Hl..|].
      destruct (Rtotal_order (rcost b) (rcost a)) as [?|[Heq|?]]; [by left|right; split; [done|]|].
      + apply not_false_iff_true in Hn. destruct (str_lt (cd_VariantName a) (cd_VariantName b)) eqn:Es; [|done].
        exfalso. apply Hn, cost_less_false; [by apply Hl..|]. right. split; [done|]. by apply str_lt_asym.
      + exfalso. apply not_false_iff_true in Hn. apply Hn, cost_less_false; [by apply Hl..|]. by left.
    - intros a b c Ha Hb Hc H1%negb_true_iff H2%negb_true_iff. apply negb_true_iff.
      rewrite cost_less_false in * by (by apply Hl). destruct H1 as [?|[? ?]], H2 as [?|[? ?]]; [left; lra|left; lra|left; lra|right].
      split; [congruence|by eapply str_lt_false_trans]. }
  assert (Hin : ∀ c, c ∈ sort_stable (λ a b, negb (cost_less b a)) l → nonneg (cd_Cost c)) by (intros c; rewrite sort_stable_perm; apply Hl).
  induction Hs as [|a k Hs IH Hall]; constructor; [apply IH; intros c Hc; apply Hin; by right|]. rewrite Forall_forall in Hall |- *.
  intros b Hb. specialize (Hall b Hb). apply Is_true_true, negb_true_iff, cost_less_false in Hall; [|apply Hin; by left|apply Hin; by right].
  destruct Hall as [?|[? _]]; lra.
Qed.

(** ** The selection *)
Section selected.
Context `{TaintMatcher} (inp : SelectionInput).
Hypothesis Hcost : ∀ c, c ∈ si_Candidates inp → nonneg (cd_Cost c).
Hypothesis Hsum : ∀ d p, d ∈ si_Candidates inp → p ∈ si_Candidates inp → is_prefill d = false → is_prefill p = true →
  normal (rcost d + rcost p)%R.
Notation fits_ := (set_fits inp).

Definition decode_of (d : Candidate) : Prop := d ∈ si_Candidates inp ∧ is_prefill d = false.
Definition prefill_of (p : Candidate) : Prop := p ∈ si_Candidates inp ∧ is_prefill p = true.

(** The cheapest of those that fit alone. *)
Lemma first_that_fits_spec (l : list Candidate) : StronglySorted (λ a b, (rcost a <= rcost b)%R) l →
  match first_that_fits inp l with
  | Some set => ∃ c, set = [c] ∧ c ∈ l ∧ fits_ [c] = true ∧ ∀ c', c' ∈ l → fits_ [c'] = true → (rcost c <= rcost c')%R
  | None => ∀ c, c ∈ l → fits_ [c] = false
  end.
Proof.
  unfold first_that_fits. induction 1 as [|a l _ IH Hall]; cbn [find]; [by intros c ?%not_elem_of_nil|].
  destruct (fits_ [a]) eqn:Ea; cbn.
  - exists a. split_and!; [done|by left|done|]. rewrite Forall_forall in Hall. intros c' [->|Hc]%elem_of_cons _; [lra|by apply Hall].
  - destruct (find _ l) as [c|]; cbn in *.
    + destruct IH as (c0 & [= <-] & Hc & Hf & Hmin). exists c. split_and!; [done|by right|done|].
      intros c' [->|Hc']%elem_of_cons Hf'; [congruence|by apply Hmin].
    + intros c [->|Hc]%elem_of_cons; [done|by apply IH].
Qed.

(** A pair that fits, with its cost. *)
Definition best_ok (b : Candidate * Candidate * float64) : Prop :=
  decode_of b.1.1 ∧ prefill_of b.1.2 ∧ fits_ [b.1.1; b.1.2] = true ∧ b.2 = fadd (cd_Cost b.1.1) (cd_Cost b.1.2).

Lemma pair_cost d p : decode_of d → prefill_of p → near (fadd (cd_Cost d) (cd_Cost p)) (rcost d + rcost p).
Proof using Hcost Hsum. intros [Hd Hr] [Hp Hq]. apply fadd_near; [by apply Hcost..|by apply Hsum]. Qed.

Lemma best_cost b : best_ok b → near b.2 (rcost b.1.1 + rcost b.1.2).
Proof using Hcost Hsum. intros (Hd & Hp & _ & ->). by apply pair_cost. Qed.

Lemma pair_row_spec d ps best : decode_of d → (∀ p, p ∈ ps → prefill_of p) → StronglySorted (λ a b, (rcost a <= rcost b)%R) ps →
  (∀ b, best = Some b → best_ok b) →
  let r := pair_row inp d ps best in
  (∀ b, r = Some b → best_ok b) ∧
  (∀ b, best = Some b → ∃ b', r = Some b' ∧ (F2R b'.2 <= F2R b.2)%R) ∧
  (∀ p, p ∈ ps → fits_ [d; p] = true →
     ∃ b' q, r = Some b' ∧ prefill_of q ∧ (rcost q <= rcost p)%R ∧ (F2R b'.2 <= F2R (fadd (cd_Cost d) (cd_Cost q)))%R).
Proof using Hcost Hsum.
  intros Hd Hps Hs Hbest. induction Hs as [|p ps Hs IH Hall]; cbn [pair_row].
  { split_and!; [done|intros b Hb; exists b; split; [done|lra]|by intros p ?%not_elem_of_nil]. }
  assert (Hp : prefill_of p) by (apply Hps; by left). specialize (IH ltac:(intros q Hq; apply Hps; by right)).
  rewrite Forall_forall in Hall. destruct (pair_cost d p Hd Hp) as [Hnn _].
  destruct best as [b|]; [destruct (fle b.2 (fadd (cd_Cost d) (cd_Cost p))) eqn:El|]; destruct_and?.
  - destruct b as [[d0 p0] c0]. cbn [snd] in El. rewrite El. specialize (Hbest _ eq_refl). destruct (best_cost _ Hbest) as [Hb _]. cbn [snd] in Hb.
    apply fle_real in El; [|done..]. split_and!; [by intros ? [= <-]|intros ? [= <-]; eexists; split; [done|lra]|].
    intros q Hq _. exists (d0, p0, c0), p. split_and!; [done|done| |done]. apply elem_of_cons in Hq as [->|Hq]; [lra|by apply Hall].
  - destruct b as [[d0 p0] c0]. cbn [snd] in El. rewrite El. specialize (Hbest _ eq_refl). destruct (best_cost _ Hbest) as [Hb _]. cbn [snd] in Hb.
    apply not_true_iff_false in El. rewrite fle_real in El by done. destruct (fits_ [d; p]) eqn:Ef; cbn [negb].
    + split_and!; [by intros ? [= <-]|intros ? [= <-]; eexists; split; [done|cbn; lra]|].
      intros q Hq _. eexists _, p. split_and!; [done|done| |cbn; lra]. apply elem_of_cons in Hq as [->|Hq]; [lra|by apply Hall].
    + destruct IH as (I1 & I2 & I3). split_and!; [done|done|]. intros q [->|Hq]%elem_of_cons Hf; [congruence|by apply I3].
  - destruct (fits_ [d; p]) eqn:Ef; cbn [negb].
    + split_and!; [by intros ? [= <-]|by intros ? [=]|]. intros q Hq _. eexists _, p. split_and!; [done|done| |cbn; lra].
      apply elem_of_cons in Hq as [->|Hq]; [lra|by apply Hall].
    + destruct IH as (I1 & I2 & I3). split_and!; [done|done|]. intros q [->|Hq]%elem_of_cons Hf; [congruence|by apply I3].
Qed.

Lemma pair_fold_spec ds ps best : (∀ d, d ∈ ds → decode_of d) → (∀ p, p ∈ ps → prefill_of p) →
  StronglySorted (λ a b, (rcost a <= rcost b)%R) ps → (∀ b, best = Some b → best_ok b) →
  let r := foldl (λ best d, pair_row inp d ps best) best ds in
  (∀ b, r = Some b → best_ok b) ∧
  (∀ b, best = Some b → ∃ b', r = Some b' ∧ (F2R b'.2 <= F2R b.2)%R) ∧
  (∀ d p, d ∈ ds → p ∈ ps → fits_ [d; p] = true →
     ∃ b' q, r = Some b' ∧ prefill_of q ∧ (rcost q <= rcost p)%R ∧ (F2R b'.2 <= F2R (fadd (cd_Cost d) (cd_Cost q)))%R).
Proof using Hcost Hsum.
  intros Hds Hps Hs. revert best. induction ds as [|d ds IH]; intros best Hbest; cbn [foldl].
  { split_and!; [done|intros b Hb; exists b; split; [done|lra]|by intros d p ?%not_elem_of_nil]. }
  destruct (pair_row_spec d ps best) as (R1 & R2 & R3); [apply Hds; by left|done..|].
  destruct (IH ltac:(intros x Hx; apply Hds; by right) _ R1) as (I1 & I2 & I3). split_and!; [done| |].
  - intros b Hb. destruct (R2 b Hb) as (b1 & Hb1 & ?). destruct (I2 b1 Hb1) as (b2 & ? & ?). exists b2. split; [done|lra].
  - intros x p [->|Hx]%elem_of_cons Hp Hf; [|by apply I3]. destruct (R3 p Hp Hf) as (b1 & q & Hb1 & ? & ? & ?).
    destruct (I2 b1 Hb1) as (b2 & ? & ?). exists b2, q. split_and!; [done..|lra].
Qed.

(** The cheapest pair, up to the rounding of the two sums that are compared. *)
Lemma cheapest_pair_spec ds ps : (∀ d, d ∈ ds → decode_of d) → (∀ p, p ∈ ps → prefill_of p) →
  StronglySorted (λ a b, (rcost a <= rcost b)%R) ps →
  match cheapestFeasiblePair inp ds ps with
  | Some both => ∃ d p, both = [d; p] ∧ decode_of d ∧ prefill_of p ∧ fits_ [d; p] = true ∧
      ∀ d' p', d' ∈ ds → p' ∈ ps → fits_ [d'; p'] = true → ((rcost d + rcost p) * (1 - unit) <= (rcost d' + rcost p') * (1 + unit))%R
  | None => ∀ d p, d ∈ ds → p ∈ ps → fits_ [d; p] = false
  end.
Proof using Hcost Hsum.
  intros Hds Hps Hs. destruct (pair_fold_spec ds ps None Hds Hps Hs ltac:(done)) as (F1 & _ & F3). unfold cheapestFeasiblePair.
  destruct (foldl _ None ds) as [b|]; cbn.
  - specialize (F1 b eq_refl). destruct (best_cost b F1) as [_ Hb]. destruct F1 as (Hd & Hp & Hf & _). exists b.1.1, b.1.2. split_and!; [done..|].
    intros d' p' Hd' Hp' Hf'. destruct (F3 d' p' Hd' Hp' Hf') as (b' & q & [= <-] & Hq & Hqp & Hle).
    destruct (pair_cost d' q (Hds d' Hd') Hq) as [_ Hn]. apply Rabs_le_inv in Hb, Hn. destruct unit_small_pos.
    assert ((rcost d' + rcost q) * (1 + unit) <= (rcost d' + rcost p') * (1 + unit))%R by (apply Rmult_le_compat_r; lra). lra.
  - intros d p Hd Hp. apply not_true_iff_false. intros Hf. destruct (F3 d p Hd Hp Hf) as (b' & q & [=] & _).
Qed.

Lemma split_spec c : (c ∈ sortByCost (splitByRole (si_Candidates inp)).1 ↔ decode_of c) ∧ (c ∈ sortByCost (splitByRole (si_Candidates inp)).2 ↔ prefill_of c).
Proof. unfold splitByRole, sortByCost, decode_of, prefill_of. cbn [fst snd]. rewrite !sort_stable_perm, !list_elem_of_filter. tauto. Qed.

Lemma split_sorted : StronglySorted (λ a b, (rcost a <= rcost b)%R) (sortByCost (splitByRole (si_Candidates inp)).1) ∧
  StronglySorted (λ a b, (rcost a <= rcost b)%R) (sortByCost (splitByRole (si_Candidates inp)).2).
Proof using Hcost. split; apply sortByCost_sorted; intros c [_ Hc]%list_elem_of_filter; by apply Hcost. Qed.
End selected.

(** ** Groups and coverage *)

(** A list is the keys' parts of it put together. *)
Lemma parts_perm {A} (key : A → string) (ks : list string) (l : list A) : NoDup ks → (∀ x, x ∈ l → key x ∈ ks) →
  mjoin ((λ k, List.filter (λ x, String.eqb (key x) k) l) <$> ks) ≡ₚ l.
Proof.
  intros Hnd. induction l as [|x l IH]; intros Hin.
  { clear. induction ks; [done|cbn; done]. }
  etrans; [|apply perm_skip, IH; intros y Hy; apply Hin; by right]. specialize (Hin x ltac:(by left)). clear IH.
  induction Hnd as [|k ks Hk Hnd IH]; [by apply not_elem_of_nil in Hin|]. cbn [fmap list_fmap mjoin list_join List.filter].
  destruct (String.eqb_spec (key x) k) as [<-|Hne].
  - cbn [app]. f_equiv. f_equiv. apply Permutation_refl', f_equal. apply list_fmap_ext. intros i k' Hk'%list_elem_of_lookup_2.
    destruct (String.eqb_spec (key x) k') as [<-|]; [done|done].
  - apply elem_of_cons in Hin as [?|Hin]; [done|]. rewrite (IH Hin). by rewrite Permutation_middle.
Qed.

Lemma first_of_keys_spec seen l : NoDup (wake_key <$> first_of_keys seen l) ∧
  (∀ k, k ∈ wake_key <$> first_of_keys seen l ↔ k ∈ wake_key <$> l ∧ k ∉ seen).
Proof.
  revert seen. induction l as [|v l IH]; intros seen; cbn [first_of_keys].
  { split; [constructor|]. intros k. cbn. rewrite elem_of_nil. tauto. }
  case_bool_decide as Hs.
  - destruct (IH seen) as [Hnd He]. split; [done|]. intros k. rewrite He, fmap_cons, elem_of_cons. split; [tauto|].
    intros [[->|?] ?]; [done|tauto].
  - destruct (IH (wake_key v :: seen)) as [Hnd He]. rewrite fmap_cons. split.
    + constructor; [|done]. rewrite He. intros [_ Hn]. apply Hn. by left.
    + intros k. rewrite fmap_cons, !elem_of_cons, He, elem_of_cons. destruct (decide (k = wake_key v)) as [->|]; tauto.
Qed.

(** Every inactive variant is in one group, once, and a group is of one model. *)
Theorem groups_partition inactive active :
  mjoin (mg_variants <$> groupInactiveByModel inactive active) ≡ₚ inactive ∧
  NoDup ((λ g, wake_model_key (mg_namespace g) (mg_modelID g)) <$> groupInactiveByModel inactive active).
Proof.
  unfold groupInactiveByModel. destruct (first_of_keys_spec [] inactive) as [Hnd He]. rewrite !sort_stable_perm. rewrite <-!list_fmap_compose. split.
  - etrans; [|apply (parts_perm wake_key (wake_key <$> first_of_keys [] inactive)); [done|]].
    + by rewrite <-list_fmap_compose.
    + intros x Hx. apply He. split; [by apply list_elem_of_fmap_2|apply not_elem_of_nil].
  - done.
Qed.

Lemma cover_fold (active : list WakeVariant) covered key :
  let c := default (MkCoverage false false) (foldl cover_step covered active !! key) in
  let c0 := default (MkCoverage false false) (covered !! key) in
  let ran role := existsb (λ v, String.eqb (wake_key v) key && Bool.eqb (String.eqb (wv_Role v) RolePrefill) role) active in
  cov_decode c = cov_decode c0 || ran false ∧ cov_prefill c = cov_prefill c0 || ran true.
Proof.
  revert covered. induction active as [|v active IH]; intros covered; cbn [foldl existsb]; [by rewrite !orb_false_r|].
  destruct (IH (cover_step covered v)) as [-> ->]. unfold cover_step. destruct (String.eqb_spec (wake_key v) key) as [<-|Hne].
  - rewrite lookup_insert_eq. destruct (String.eqb (wv_Role v) RolePrefill); cbn; by rewrite ?orb_false_r, ?orb_true_r.
  - rewrite lookup_insert_ne by done. done.
Qed.

(** A model's decode is covered exactly when a variant of it runs that is not prefill
    only, and its prefill when one runs that is. *)
Theorem coverage_exact active key : let c := default (MkCoverage false false) (activeRoleCoverage active !! key) in
  (cov_decode c = true ↔ ∃ v, v ∈ active ∧ wake_key v = key ∧ wv_Role v ≠ RolePrefill) ∧
  (cov_prefill c = true ↔ ∃ v, v ∈ active ∧ wake_key v = key ∧ wv_Role v = RolePrefill).
Proof.
  cbn zeta. unfold activeRoleCoverage. destruct (cover_fold active ∅ key) as [-> ->]. rewrite lookup_empty. cbn [default orb cov_decode cov_prefill].
  rewrite !existsb_exists. split; (split; [intros (v & Hv & [Hk%String.eqb_eq Hr%eqb_prop]%andb_true_iff)|intros (v & Hv & Hk & Hr)]); exists v.
  - split_and!; [by apply list_elem_of_In|done|by apply String.eqb_neq].
  - split; [by apply list_elem_of_In|]. apply String.eqb_eq in Hk. apply String.eqb_neq in Hr. by rewrite Hk, Hr.
  - split_and!; [by apply list_elem_of_In|done|by apply String.eqb_eq].
  - split; [by apply list_elem_of_In|]. apply String.eqb_eq in Hk, Hr. by rewrite Hk, Hr.
Qed.

(** A refusal is reported once per run of the same verdict. *)
Lemma refusal_reported_once last_ key outcome : let '(_, last_) := refusalChanged last_ key outcome in
  (refusalChanged last_ key outcome).1 = false ∧ (refusalChanged (clearRefusal last_ key) key outcome).1 = true.
Proof.
  assert (Hr : ∀ l, (refusalChanged l key outcome).1 = negb (bool_decide (l !! key = Some outcome))) by (intros l; unfold refusalChanged; by case_bool_decide).
  unfold refusalChanged at 1. case_bool_decide as He; rewrite !Hr; unfold clearRefusal; rewrite lookup_delete_eq, ?lookup_insert_eq, ?He;
    (split; [by rewrite bool_decide_true|by rewrite bool_decide_false]).
Qed.

(** ** Properties *)

(** What an outcome says of the set and of the sets that were not chosen. *)
Definition outcome_right `{TaintMatcher} (inp : SelectionInput) (set : list Candidate) (outcome : SelectionOutcome) : Prop :=
  let fits_ := set_fits inp in
  let no_pair := ∀ d p, decode_of inp d → prefill_of inp p → fits_ [d; p] = false in
  let wanted := si_PrefillCovered inp = false in
  match outcome with
  | OutcomePair => si_DecodeCovered inp = false ∧ wanted ∧ ∃ d p, set = [d; p] ∧ decode_of inp d ∧ prefill_of inp p ∧ fits_ [d; p] = true ∧
      ∀ d' p', decode_of inp d' → prefill_of inp p' → fits_ [d'; p'] = true → ((rcost d + rcost p) * (1 - unit) <= (rcost d' + rcost p') * (1 + unit))%R
  | OutcomeDecodeOnly => si_DecodeCovered inp = false ∧ (wanted → no_pair) ∧ ∃ d, set = [d] ∧ decode_of inp d ∧ fits_ [d] = true ∧
      ∀ d', decode_of inp d' → fits_ [d'] = true → (rcost d <= rcost d')%R
  | OutcomePrefillCatchUp => si_DecodeCovered inp = true ∧ wanted ∧ ∃ p, set = [p] ∧ prefill_of inp p ∧ fits_ [p] = true ∧
      ∀ p', prefill_of inp p' → fits_ [p'] = true → (rcost p <= rcost p')%R
  | OutcomeAlreadyServing => set = [] ∧ si_DecodeCovered inp = true ∧ (wanted → ∀ p, prefill_of inp p → fits_ [p] = false)
  | OutcomeNoDecodeCandidate => set = [] ∧ si_DecodeCovered inp = false ∧ ∀ d, ¬ decode_of inp d
  | OutcomeNoCapacity => set = [] ∧ si_DecodeCovered inp = false ∧ (wanted → no_pair) ∧ ∀ d, decode_of inp d → fits_ [d] = false
  | OutcomePrefillRequired => set = [] ∧ si_DecodeCovered inp = false ∧ wanted ∧ si_RequirePrefill inp = true ∧ no_pair ∧ ∃ p, prefill_of inp p
  | OutcomeNominalLentOut => False
  end.

(** C31: the choice of the variants to wake is right whatever its outcome: a set that is
    woken fits the budget and the nodes together, holds a decode unless the model runs
    one, and is the cheapest of its kind that fits, a pair up to the rounding of the
    summed costs; and a refusal means that no set the policy allows fits, a decode alone
    being tried after every pair unless prefill is required. *)
Theorem serving_set_right `{TaintMatcher} (inp : SelectionInput) :
  (∀ c, c ∈ si_Candidates inp → nonneg (cd_Cost c)) →
  (∀ d p, d ∈ si_Candidates inp → p ∈ si_Candidates inp → is_prefill d = false → is_prefill p = true → normal (rcost d + rcost p)%R) →
  let '(set, outcome) := selectServingSet inp in outcome_right inp set outcome.
Proof.
  intros Hcost Hsum. destruct (split_sorted inp Hcost) as [Sd Sp]. pose proof (split_spec inp) as Hsp.
  pose proof (first_that_fits_spec inp _ Sd) as Fd. pose proof (first_that_fits_spec inp _ Sp) as Fp.
  pose proof (cheapest_pair_spec inp Hcost Hsum _ _ (λ d, proj1 (proj1 (Hsp d))) (λ p, proj1 (proj2 (Hsp p))) Sp) as Hpair.
  unfold selectServingSet, prefillCatchUp. destruct (splitByRole (si_Candidates inp)) as [decodes prefills] eqn:Es. cbn [fst snd] in *.
  assert (Hd : ∀ d, d ∈ sortByCost decodes ↔ decode_of inp d) by (intros d; apply Hsp).
  assert (Hp : ∀ p, p ∈ sortByCost prefills ↔ prefill_of inp p) by (intros p; apply Hsp). clear Hsp.
  destruct (si_DecodeCovered inp) eqn:Ed.
  { destruct (si_PrefillCovered inp) eqn:Ec; [split_and!; [done|done|intros; congruence]|]. destruct (first_that_fits inp (sortByCost prefills)).
    - destruct Fp as (p & -> & ? & ? & Hmin). split_and!; [done..|]. exists p. split_and!; [done|by apply Hp|done|]. intros p' Hp'%Hp. by apply Hmin.
    - split_and!; [done..|]. intros _ p Hp'%Hp. by apply Fp. }
  case_bool_decide as Hnil.
  { split_and!; [done..|]. intros d Hd'%Hd. subst decodes. by apply not_elem_of_nil in Hd'. }
  assert (Halone : (si_PrefillCovered inp = false → ∀ d p, decode_of inp d → prefill_of inp p → set_fits inp [d; p] = false) →
    let '(set, outcome) := match first_that_fits inp (sortByCost decodes) with
      | Some set => (set, OutcomeDecodeOnly) | None => ([], OutcomeNoCapacity) end in outcome_right inp set outcome).
  { intros Hno. destruct (first_that_fits inp (sortByCost decodes)).
    - destruct Fd as (d & -> & ? & ? & Hmin). split_and!; [done..|]. exists d. split_and!; [done|by apply Hd|done|]. intros d' Hd'%Hd. by apply Hmin.
    - split_and!; [done..|]. intros d Hd'%Hd. by apply Fd. }
  destruct (negb (bool_decide (sortByCost prefills = [])) && negb (si_PrefillCovered inp)) eqn:Ew.
  - apply andb_true_iff in Ew as [Hne%negb_true_iff%bool_decide_eq_false Hw%negb_true_iff].
    destruct (cheapestFeasiblePair inp (sortByCost decodes) (sortByCost prefills)) as [both|].
    + destruct Hpair as (d & p & -> & ? & ? & ? & Hmin). split_and!; [done..|]. exists d, p. split_and!; [done..|].
      intros d' p' Hd'%Hd Hp'%Hp. by apply Hmin.
    + assert (Hno : ∀ d p, decode_of inp d → prefill_of inp p → set_fits inp [d; p] = false) by (intros d p Hd'%Hd Hp'%Hp; by apply Hpair).
      destruct (si_RequirePrefill inp) eqn:Er; [|by apply Halone]. split_and!; [done..|].
      destruct (sortByCost prefills) as [|p l] eqn:El; [done|]. exists p. apply Hp. by left.
  - apply Halone. intros Hw d p _ Hp'%Hp. rewrite Hw in Ew. cbn in Ew. rewrite andb_true_r in Ew. apply negb_false_iff, bool_decide_eq_true in Ew.
    rewrite Ew in Hp'. by apply not_elem_of_nil in Hp'.
Qed.

(** The cheaper decode needs the GPUs of the only prefill; the other one is woken with it. *)
Definition wake_input : SelectionInput :=
  let budget := MkConstraints "quota" {["H100" := MkPool 8 0; "A100" := MkPool 8 0]} None false 16 0 16 false false false false 0 in
  let c name role accelerator cost := MkCandidate name name role accelerator 8 [8] [] "" [] (of_int cost) in
  MkSelection "prod" [c "decode-a" RoleDecode "H100" 1; c "decode-b" RoleDecode "A100" 2; c "prefill" RolePrefill "H100" 1]
    false false [Some budget] ∅ None ∅ None true.

Lemma serving_set_right_witness :
  let '(set, outcome) := @selectServingSet by_key wake_input in
  @outcome_right by_key wake_input set outcome ∧ outcome = OutcomePair ∧ cd_VariantName <$> set = ["decode-b"; "prefill"].
Proof.
  assert (Hc : ∀ c, c ∈ si_Candidates wake_input → nonneg (cd_Cost c) ∧ (1 <= rcost c <= 2)%R).
  { assert (Hone : ∀ n, 1 ≤ n ≤ 2 → nonneg (of_int n) ∧ (1 <= F2R (of_int n) <= 2)%R).
    { intros n Hn. destruct (of_int_exact n) as [? ->]; [lia|]. split; [done|]. split; apply IZR_le; lia. }
    cbn [si_Candidates wake_input]. intros c Hin. repeat (apply elem_of_cons in Hin as [->|Hin]; [apply Hone; lia|]).
    by apply not_elem_of_nil in Hin. }
  pose proof (@serving_set_right by_key wake_input (λ c H, proj1 (Hc c H))) as Hright.
  assert (Hset : (@selectServingSet by_key wake_input).2 = OutcomePair ∧
    cd_VariantName <$> (@selectServingSet by_key wake_input).1 = ["decode-b"; "prefill"]) by (split; vm_compute; reflexivity).
  destruct (@selectServingSet by_key wake_input) as [set outcome]. split; [apply Hright|done].
  intros d p Hd Hp _ _. destruct (Hc d Hd) as [_ ?], (Hc p Hp) as [_ ?]. unfold normal.
  pose proof (bpow_le (-900) 0 ltac:(lia)). pose proof (bpow_le 2 900 ltac:(lia)).
  rewrite (bpow_IZR 2), (bpow_IZR 0) in * by lia. change (IZR (2 ^ 2)) with 4%R in *. change (IZR (2 ^ 0)) with 1%R in *. lra.
Defined.
