(* ===== verification/Enforcer.v ===== *)
(** * Scale-to-zero and the minimum replica

    The model of [internal/engines/allocation/enforcer.go], with the resolution
    of the scale-to-zero switch of [internal/config/scale_to_zero.go].

    The request counter is a metrics query; its answer, or its failure, is an
    argument. *)
From Stdlib Require Import ZArith Lia String Ascii SpecFloat.
From stdpp Require Import base gmap strings list.
From S2P Require Import Prelude GoFloat Domain.

(** ** Decisions *)
Definition action_for (d : VariantDecision) : SaturationAction :=
  if (CurrentReplicas d <? TargetReplicas d)%Z then ActionScaleUp
  else if (TargetReplicas d <? CurrentReplicas d)%Z then ActionScaleDown
  else ActionNoChange.

Definition updateDecisionAction (d : VariantDecision) (optimizerName : string) : VariantDecision :=
  let action := action_for d in
  let category := if String.eqb (decisionReason d) "" then DecisionReasonV2 else decisionReason d in
  SetDecisionReason d action category
    (category +:+ " " +:+ action_text action +:+ " (optimizer: " +:+ optimizerName +:+ ", enforced)").

(** ** The switch *)

(** [sat] is the model's own setting, [cfg] the deployment's when a configuration
    is loaded, [env] the environment variable. *)
Definition ResolveScaleToZeroEnabled (cfg : option bool) (env : string) (sat : option bool) : bool :=
  match sat, cfg with
  | Some b, _ => b
  | None, Some b => b
  | None, None => EqualFold env "true"
  end.

(** ** The enforcer *)
Section enforce.
Context (modelID namespace optimizerName : string).

Definition of_model (d : VariantDecision) : bool :=
  String.eqb (ModelID d) modelID && String.eqb (dec_Namespace d) namespace.

(** The request count over the retention period: [None] is a failed query. *)
Definition applyScaleToZeroOnDecisions (decisions : list VariantDecision)
    (requestCount : option spec_float) : bool * list VariantDecision :=
  match requestCount with
  | None => (false, decisions)
  | Some n =>
      if SFltb (S754_zero false) n then (false, decisions)
      else (true, (λ d, if of_model d then updateDecisionAction (set_target d 0) optimizerName else d)
                    <$> decisions)
  end.

(** [domain.DefaultVariantCost], 10.0. *)
Definition DefaultVariantCost : spec_float := S754_finite false 5629499534213120 (-49).

Definition effective_cost (d : VariantDecision) : spec_float :=
  if SFleb (Cost d) (S754_zero false) then DefaultVariantCost else Cost d.

(** One turn of the search for the cheapest variant: its index, with the decision
    there, and its cost.  A negative cost stands for none found yet. *)
Definition cheaper (best : option (nat * VariantDecision)) (e : nat * VariantDecision)
  : option (nat * VariantDecision) :=
  if negb (of_model e.2) then best
  else match best with
       | None => Some e
       | Some b =>
           let cost := effective_cost e.2 in
           let cheapest := effective_cost b.2 in
           if SFltb cheapest (S754_zero false) || SFltb cost cheapest
              || (SFeqb cost cheapest && str_lt (VariantName e.2) (VariantName b.2))
           then Some e else best
       end.

Definition cheapest_variant (decisions : list VariantDecision) : option (nat * VariantDecision) :=
  foldl cheaper None (imap pair decisions).

Definition totalReplicas (decisions : list VariantDecision) : Z :=
  foldl (λ s d, if of_model d then s ⊞ TargetReplicas d else s) 0%Z decisions.

Definition ensureMinimumReplicasOnDecisions (decisions : list VariantDecision)
  : bool * list VariantDecision :=
  if (0 <? totalReplicas decisions)%Z then (false, decisions)
  else match cheapest_variant decisions with
       | None => (false, decisions)
       | Some (i, d) =>
           (true, <[i := updateDecisionAction (set_target d 1) optimizerName]> decisions)
       end.

Definition EnforcePolicyOnDecisions (cfg : option bool) (env : string) (sat : option bool)
    (decisions : list VariantDecision) (requestCount : option spec_float)
  : bool * list VariantDecision :=
  if ResolveScaleToZeroEnabled cfg env sat
  then applyScaleToZeroOnDecisions decisions requestCount
  else (false, (ensureMinimumReplicasOnDecisions decisions).2).
End enforce.

(** ** The order of costs *)
Definition positive (f : spec_float) : Prop :=
  match f with S754_infinity false | S754_finite false _ _ => True | _ => False end.

Lemma effective_cost_positive d : Cost d ≠ S754_nan → positive (effective_cost d).
Proof.
  unfold effective_cost. destruct (Cost d) as [[]|[]| |[] m e]; cbn; done.
Qed.

(** Cheaper, or as cheap and first by name. *)
Definition before (a b : VariantDecision) : bool :=
  SFltb (effective_cost a) (effective_cost b)
  || (SFeqb (effective_cost a) (effective_cost b) && str_lt (VariantName a) (VariantName b)).

Lemma SF_positive_cases f g :
  positive f → positive g →
  ∃ c, SFcompare f g = Some c ∧ SFcompare g f = Some (CompOpp c).
Proof.
  destruct f as [|[]| |[] m e], g as [|[]| |[] m' e']; cbn; try done; eauto.
  intros _ _. change (Pos.compare_cont Eq ?a ?b) with (Pos.compare a b).
  rewrite (Z.compare_antisym e e'), (Pos.compare_antisym m m').
  destruct (e ?= e')%Z; cbn; eauto.
Qed.

Lemma SF_positive_trans f g h c :
  positive f → positive g → positive h →
  SFcompare f g = Some c → SFcompare g h = Some c → SFcompare f h = Some c.
Proof.
  destruct f as [|[]| |[] m e], g as [|[]| |[] m' e'], h as [|[]| |[] m2 e2]; cbn; try done;
    try (intros; congruence).
  intros _ _ _. change (Pos.compare_cont Eq ?a ?b) with (Pos.compare a b).
  destruct (Z.compare_spec e e'), (Z.compare_spec e' e2), (Z.compare_spec e e2); subst; try lia;
    try (intros; congruence);
    destruct (Pos.compare_spec m m'), (Pos.compare_spec m' m2), (Pos.compare_spec m m2); subst;
    try lia; intros; congruence.
Qed.

Lemma SF_positive_eq f g : positive f → positive g → SFcompare f g = Some Eq → f = g.
Proof.
  destruct f as [|[]| |[] m e], g as [|[]| |[] m' e']; cbn; try done. intros _ _.
  change (Pos.compare_cont Eq ?a ?b) with (Pos.compare a b).
  destruct (Z.compare_spec e e'); [|done|done]. destruct (Pos.compare_spec m m'); [|done|done].
  by subst.
Qed.

Lemma before_cases a b :
  positive (effective_cost a) → positive (effective_cost b) →
  before a b = false ↔
  SFcompare (effective_cost a) (effective_cost b) = Some Gt ∨
  (effective_cost a = effective_cost b ∧ str_lt (VariantName a) (VariantName b) = false).
Proof.
  intros Ha Hb. unfold before, SFltb, SFeqb.
  destruct (SF_positive_cases _ _ Ha Hb) as (c & E1 & E2). rewrite E1. destruct c; cbn.
  - apply SF_positive_eq in E1 as ->; [|done|done]. naive_solver.
  - split; [done|]. intros [?|[E _]]; [done|]. rewrite E in E1, E2. cbn in E2. congruence.
  - naive_solver.
Qed.

Lemma before_trans a b c :
  positive (effective_cost a) → positive (effective_cost b) → positive (effective_cost c) →
  before b a = false → before c b = false → before c a = false.
Proof.
  intros Ha Hb Hc. rewrite !before_cases by done.
  intros [H1|[H1 N1]] [H2|[H2 N2]].
  - left. by apply (SF_positive_trans _ (effective_cost b)).
  - left. by rewrite H2.
  - left. by rewrite <- H1.
  - right. split; [congruence|]. by eapply str_lt_false_trans.
Qed.

Lemma before_asym a b :
  positive (effective_cost a) → positive (effective_cost b) → before a b = true → before b a = false.
Proof.
  intros Ha Hb. unfold before, SFltb, SFeqb.
  destruct (SF_positive_cases _ _ Ha Hb) as (c & -> & ->). destruct c; cbn; try done.
  apply str_lt_asym.
Qed.

(** ** The cheapest variant *)
Section cheapest.
Context (modelID namespace : string).
Notation mine := (of_model modelID namespace).

Definition is_best (seen : list (nat * VariantDecision)) (best : option (nat * VariantDecision)) : Prop :=
  match best with
  | None => ∀ e, e ∈ seen → mine e.2 = false
  | Some b => b ∈ seen ∧ mine b.2 = true ∧ ∀ e, e ∈ seen → mine e.2 = true → before e.2 b.2 = false
  end.

Lemma cheaper_best seen best e :
  (∀ x, x ∈ seen ++ [e] → positive (effective_cost x.2)) →
  is_best seen best → is_best (seen ++ [e]) (cheaper modelID namespace best e).
Proof.
  intros Hp Hb. assert (Hself : ∀ x, x ∈ seen ++ [e] → before x.2 x.2 = false).
  { intros x Hx. apply before_cases; [by apply Hp..|]. right. split; [done|].
    destruct (str_lt _ _) eqn:El; [|done]. by rewrite (str_lt_asym _ _ El) in El. }
  unfold cheaper. destruct (mine e.2) eqn:Em; cbn [negb].
  2: { destruct best as [b|]; cbn in *.
       - destruct Hb as (H1 & H2 & H3). split_and!; [set_solver|done|].
         intros x [Hx|E]%elem_of_app; [by apply H3|]. apply list_elem_of_singleton in E as ->. congruence.
       - intros x [Hx|E]%elem_of_app; [by apply Hb|]. by apply list_elem_of_singleton in E as ->. }
  destruct best as [b|]; cbn in *.
  2: { split_and!; [set_solver|done|]. intros x [Hx|E]%elem_of_app Hm; [by rewrite Hb in Hm|].
       apply list_elem_of_singleton in E as ->. apply Hself. set_solver. }
  destruct Hb as (H1 & H2 & H3).
  assert (Hpb : positive (effective_cost b.2)) by (apply Hp; set_solver).
  assert (Hpe : positive (effective_cost e.2)) by (apply Hp; set_solver).
  assert (E0 : SFltb (effective_cost b.2) (S754_zero false) = false)
    by (destruct (effective_cost b.2) as [|[]| |[] ? ?]; done).
  rewrite E0. cbn [orb]. fold (before e.2 b.2). destruct (before e.2 b.2) eqn:Eb; cbn.
  - split_and!; [set_solver|done|]. intros x [Hx|E]%elem_of_app Hm.
    + apply (before_trans e.2 b.2 x.2); [done|done|apply Hp; set_solver| |by apply H3].
      by apply before_asym.
    + apply list_elem_of_singleton in E as ->. apply Hself. set_solver.
  - split_and!; [set_solver|done|]. intros x [Hx|E]%elem_of_app Hm; [by apply H3|].
    by apply list_elem_of_singleton in E as ->.
Qed.

Lemma cheapest_fold l seen best :
  (∀ x, x ∈ seen ++ l → positive (effective_cost x.2)) →
  is_best seen best → is_best (seen ++ l) (foldl (cheaper modelID namespace) best l).
Proof.
  revert seen best. induction l as [|e l IH]; intros seen best Hp Hb; cbn [foldl].
  { by rewrite app_nil_r. }
  specialize (IH (seen ++ [e])). rewrite <- app_assoc in IH. apply IH; [done|].
  apply cheaper_best; [|done]. intros x Hx. apply Hp. set_solver.
Qed.

Lemma cheapest_variant_spec decisions :
  (∀ d, d ∈ decisions → Cost d ≠ S754_nan) →
  match cheapest_variant modelID namespace decisions with
  | None => ∀ d, d ∈ decisions → mine d = false
  | Some (i, b) => decisions !! i = Some b ∧ mine b = true ∧
      ∀ d, d ∈ decisions → mine d = true → before d b = false
  end.
Proof.
  intros Hc. unfold cheapest_variant.
  assert (Hin : ∀ x, x ∈ imap pair decisions → decisions !! x.1 = Some x.2).
  { intros x (i & d & -> & Hi)%elem_of_lookup_imap. done. }
  pose proof (cheapest_fold (imap pair decisions) [] None) as Hf. cbn [app] in Hf.
  assert (Hp : ∀ x, x ∈ imap pair decisions → positive (effective_cost x.2)).
  { intros x Hx%Hin. apply effective_cost_positive, Hc. by apply list_elem_of_lookup_2 in Hx. }
  assert (Hof : ∀ d, d ∈ decisions → ∃ i, (i, d) ∈ imap pair decisions).
  { intros d [i Hi]%list_elem_of_lookup. exists i. apply elem_of_lookup_imap. eauto. }
  specialize (Hf Hp ltac:(intros e He; by apply not_elem_of_nil in He)).
  destruct (foldl _ None _) as [[i b]|]; cbn in Hf.
  - destruct Hf as (H1 & H2 & H3). split_and!; [by apply Hin in H1|done|].
    intros d [j Hj]%Hof Hm. by apply (H3 (j, d)).
  - intros d [j Hj]%Hof. by apply (Hf (j, d)).
Qed.
End cheapest.

(** ** What enforcement leaves *)
Section enforced.
Context (modelID namespace optimizerName : string).
Notation mine := (of_model modelID namespace).
Notation target_sum := (sumZ (λ d, if mine d then TargetReplicas d else 0%Z)).

Lemma totalReplicas_sum decisions :
  totalReplicas modelID namespace decisions = wrap (target_sum decisions).
Proof.
  unfold totalReplicas.
  assert (Hg : ∀ s, in_int s → foldl (λ s d, if mine d then s ⊞ TargetReplicas d else s) s decisions =
                     wrap (s + target_sum decisions)).
  { induction decisions as [|d ds IH]; intros s Hs; cbn [foldl].
    { unfold sumZ. cbn. by rewrite Z.add_0_r, wrap_id. }
    rewrite sumZ_cons. destruct (mine d); rewrite IH; try done; try apply wrap_in_int.
    rewrite wrap_add_l. f_equal. lia. }
  rewrite Hg by (unfold in_int, int_min, int_max; lia). f_equal.
Qed.

Lemma set_one_sum decisions i d :
  decisions !! i = Some d → mine d = true →
  target_sum (<[i := updateDecisionAction (set_target d 1) optimizerName]> decisions) =
  (target_sum decisions - TargetReplicas d + 1)%Z.
Proof.
  intros Hi Hm. apply list_elem_of_split_length in Hi as (l1 & l2 & -> & ->).
  rewrite insert_app_r_alt, Nat.sub_diag by lia. cbn [insert list_insert].
  rewrite !sumZ_app, !sumZ_cons. rewrite Hm.
  assert (Hm' : mine (updateDecisionAction (set_target d 1) optimizerName) = true) by exact Hm.
  rewrite Hm'. cbn. lia.
Qed.
End enforced.

(** ** Properties *)

(** C37: with scale-to-zero off a model never loses its last replica.  A model that
    has any decision ends with at least one replica in all; if it already had
    one nothing changes, otherwise the one decision that changes is the cheapest
    variant's (the first by name among equals), raised to one replica with the
    action that says so; and no other model's decision is touched. *)
Theorem minimum_replica_kept modelID namespace optimizerName cfg env sat decisions count :
  ResolveScaleToZeroEnabled cfg env sat = false →
  (∀ d, d ∈ decisions → Cost d ≠ S754_nan ∧ (0 ≤ TargetReplicas d)%Z) →
  (sumZ (λ d, if of_model modelID namespace d then TargetReplicas d else 0%Z) decisions ≤ int_max)%Z →
  (∃ d, d ∈ decisions ∧ of_model modelID namespace d = true) →
  let before_sum := sumZ (λ d, if of_model modelID namespace d then TargetReplicas d else 0%Z) decisions in
  let '(zeroed, out) :=
    EnforcePolicyOnDecisions modelID namespace optimizerName cfg env sat decisions count in
  zeroed = false ∧
  (1 ≤ sumZ (λ d, if of_model modelID namespace d then TargetReplicas d else 0%Z) out)%Z ∧
  ((0 < before_sum)%Z → out = decisions) ∧
  (before_sum = 0%Z → ∃ i d, decisions !! i = Some d ∧ of_model modelID namespace d = true ∧
     out = <[i := updateDecisionAction (set_target d 1) optimizerName]> decisions ∧
     ∀ d', d' ∈ decisions → of_model modelID namespace d' = true → before d' d = false).
Proof.
  intros Hoff Hd Hmax (d0 & Hd0 & Hm0). cbv zeta.
  unfold EnforcePolicyOnDecisions. rewrite Hoff.
  set (sum := sumZ _ decisions) in *.
  assert (Hnn : (0 ≤ sum)%Z).
  { apply sumZ_nonneg. intros d Hin. destruct (Hd d Hin). case_match; lia. }
  unfold ensureMinimumReplicasOnDecisions. rewrite totalReplicas_sum. fold sum.
  rewrite wrap_id by (unfold in_int, int_min; lia).
  destruct (Z.ltb_spec 0 sum); cbn [snd]; [split_and!; [done|lia|done|lia]|].
  pose proof (cheapest_variant_spec modelID namespace decisions (λ d Hin, proj1 (Hd d Hin))) as Hc.
  destruct (cheapest_variant modelID namespace decisions) as [[i b]|]; cbn [snd].
  - destruct Hc as (Hi & Hm & Hbest). split_and!; [done| |lia|].
    + rewrite set_one_sum by done. fold sum.
      assert (Hb : (TargetReplicas b ≤ sum)%Z); [|lia].
      apply list_elem_of_lookup_2 in Hi.
      pose proof (sumZ_elem_le (λ d, if of_model modelID namespace d then TargetReplicas d else 0%Z)
        decisions b) as Hle. cbv beta in Hle. rewrite Hm in Hle. apply Hle; [|done].
      intros d Hin. destruct (Hd d Hin). case_match; lia.
    + intros _. exists i, b. done.
  - rewrite (Hc d0 Hd0) in Hm0. done.
Qed.

Definition demo_decision (name : string) (cost : spec_float) : VariantDecision :=
  MkVariantDecision name "ns" "m" "H100" cost "" 2 0 1 0 None None ActionScaleDown "" "" f0 f0 f0 f0 f0 f0
    false "" [].

Lemma minimum_replica_kept_witness :
  let ds := [demo_decision "a" (S754_finite false 3 1); demo_decision "b" (S754_finite false 1 1)] in
  let '(zeroed, out) := EnforcePolicyOnDecisions "m" "ns" "greedy" (Some false) "" None ds None in
  TargetReplicas <$> out = [0; 1]%Z ∧
  (1 ≤ sumZ (λ d, if of_model "m" "ns" d then TargetReplicas d else 0%Z) out)%Z.
Proof.
  pose proof (minimum_replica_kept "m" "ns" "greedy" (Some false) "" None
    [demo_decision "a" (S754_finite false 3 1); demo_decision "b" (S754_finite false 1 1)] None) as Ht.
  cbv zeta in Ht |- *.
  destruct (EnforcePolicyOnDecisions _ _ _ _ _ _ _ _) as [zeroed out] eqn:E.
  split; [vm_compute in E; injection E as <- <-; reflexivity|].
  apply Ht.
  - reflexivity.
  - apply (Forall_forall (λ d, Cost d ≠ S754_nan ∧ (0 ≤ TargetReplicas d)%Z)).
    repeat constructor; simpl; try discriminate; lia.
  - vm_compute. discriminate.
  - eexists. split; [apply list_elem_of_here|reflexivity].
Defined.

(** A model is scaled to zero only when it is known to be idle, and then whole.
    With scale-to-zero on, a failed count or any request leaves every decision
    as it was; a count not above zero sets every decision of the model, and no other,
    to zero replicas, with the action and the reason that follow from it. *)
Theorem scale_to_zero_only_when_idle modelID namespace optimizerName cfg env sat decisions count :
  ResolveScaleToZeroEnabled cfg env sat = true →
  let '(zeroed, out) :=
    EnforcePolicyOnDecisions modelID namespace optimizerName cfg env sat decisions count in
  (zeroed = true ↔ ∃ n, count = Some n ∧ SFltb (S754_zero false) n = false) ∧
  (zeroed = false → out = decisions) ∧
  (zeroed = true → ∀ i d, decisions !! i = Some d → ∃ d', out !! i = Some d' ∧
     (of_model modelID namespace d = false → d' = d) ∧
     (of_model modelID namespace d = true →
        TargetReplicas d' = 0%Z ∧ CurrentReplicas d' = CurrentReplicas d ∧
        VariantName d' = VariantName d ∧ decisionReason d' ≠ "" ∧
        (dec_Action d' = ActionScaleDown ↔ (0 < CurrentReplicas d)%Z) ∧
        (dec_Action d' = ActionNoChange ↔ CurrentReplicas d = 0%Z))).
Proof.
  intros Hon. unfold EnforcePolicyOnDecisions, applyScaleToZeroOnDecisions. rewrite Hon.
  destruct count as [n|]; [|split_and!; [|done|done]; split; [done|by intros (? & ? & _)]].
  destruct (SFltb (S754_zero false) n) eqn:E.
  { split_and!; [|done|done]. split; [done|]. intros (k & [= <-] & Hk). congruence. }
  split_and!; [by split; eauto|done|]. intros _ i d Hi.
  rewrite list_lookup_fmap, Hi. eexists. split; [reflexivity|].
  destruct (of_model modelID namespace d) eqn:Em; [|done]. split; [done|]. intros _.
  unfold updateDecisionAction, action_for, set_target. cbn. split_and!; try done.
  - destruct (String.eqb_spec (decisionReason d) ""); [done|done].
  - destruct (Z.ltb_spec (CurrentReplicas d) 0), (Z.ltb_spec 0 (CurrentReplicas d)); split; try done; lia.
  - destruct (Z.ltb_spec (CurrentReplicas d) 0), (Z.ltb_spec 0 (CurrentReplicas d)); split; try done; lia.
Qed.

Lemma scale_to_zero_only_when_idle_witness :
  let '(zeroed, out) := EnforcePolicyOnDecisions "m" "ns" "greedy" None "TRUE" None
                          [demo_decision "a" (S754_finite false 3 1)] (Some (S754_zero false)) in
  zeroed = true ∧ (zeroed = true ↔ ∃ n, Some (S754_zero false) = Some n ∧ SFltb (S754_zero false) n = false).
Proof.
  pose proof (scale_to_zero_only_when_idle "m" "ns" "greedy" None "TRUE" None
    [demo_decision "a" (S754_finite false 3 1)] (Some (S754_zero false))) as Ht.
  destruct (EnforcePolicyOnDecisions _ _ _ _ _ _ _ _) as [zeroed out] eqn:E.
  split; [vm_compute in E; congruence|].
  apply Ht. reflexivity.
Defined.
