(* ===== verification/Signals.v ===== *)
(** * The composed signal the optimizers act on

    The model of [optimizer_interfaces.go], [query_api.go] and
    [variant_records.go], and of the role helpers of [analyzer_helpers.go], all of
    [internal/engines/allocation].

    [NamedAnalyzerResult] has the fields the optimizers read or write.  Go mutates
    it through a pointer to a copy of the request's struct; here each function
    returns the new value.  A map that is only read, where a nil map and an empty
    one behave alike, is a [gmap]; one whose nil-ness matters is an [option].
    Reading an absent key of a [float64] map is [f0]. *)
From Stdlib Require Import ZArith Lia String Ascii SpecFloat Reals Lra.
From stdpp Require Import base gmap strings list sorting fin_maps.
From S2P Require Import Prelude GoFloat Domain.

(** [m[key]] on a [map[string]float64]. *)
Definition fget (m : gmap string float64) (k : string) : float64 := default f0 (m !! k).

(** ** Readings of other analyzers *)
Record FrameReading := MkFrame { fr_Supply : float64; fr_Demand : float64; fr_Ratio : float64 }.
Record OtherFrames := MkFrames { of_Supply : float64; Frames : list FrameReading }.

Definition release_step (u : float64) (out : float64) (f : FrameReading) : float64 :=
  if negb (flt f0 (fr_Ratio f)) || negb (fle f0 (fr_Supply f)) || negb (fle f0 (fr_Demand f))
  then out
  else fmin out (fdiv (fmax (fsub (fr_Supply f) (fdiv (fr_Demand f) u)) f0) (fr_Ratio f)).

Definition Releasable (o : OtherFrames) (u : float64) : float64 :=
  if negb (flt f0 u) then S754_infinity false
  else foldl (release_step u) (S754_infinity false) (Frames o).

Definition frames_Demand (o : OtherFrames) (u : float64) : float64 :=
  let rel := Releasable o u in
  if is_pos_inf rel || negb (flt f0 (of_Supply o)) then f0
  else fmul u (fmax (fsub (of_Supply o) rel) f0).

(** ** The signal *)

(** What the composite forbids a role this cycle. *)
Record RoleHold := MkHold { NoScaleUp : bool; NoScaleDown : bool }.

Record NamedAnalyzerResult := MkNamed {
  Result : option AnalyzerResult;
  Score : float64;
  Remaining : float64;
  Spare : float64;
  RoleSpare : option (gmap string float64);
  RoleReleasable : option (gmap string float64);
  ScaleUpThreshold : float64;
  ScaleDownBoundary : float64;
  na_TotalSupply : float64;
  na_RequiredCapacity : float64;
  na_SpareCapacity : float64;
  RoleCapacities : option (gmap string RoleCapacity);
  Live : bool;
  ReleaseBound : gmap string float64;
  na_OtherFrames : gmap string OtherFrames;
  Holds : gmap string RoleHold }.

Definition set_Remaining (e : NamedAnalyzerResult) (r : float64) : NamedAnalyzerResult :=
  MkNamed (Result e) (Score e) r (Spare e) (RoleSpare e) (RoleReleasable e) (ScaleUpThreshold e)
    (ScaleDownBoundary e) (na_TotalSupply e) (na_RequiredCapacity e) (na_SpareCapacity e)
    (RoleCapacities e) (Live e) (ReleaseBound e) (na_OtherFrames e) (Holds e).

Definition set_budgets (e : NamedAnalyzerResult) (spare rel : option (gmap string float64))
  : NamedAnalyzerResult :=
  MkNamed (Result e) (Score e) (Remaining e) (Spare e) spare rel (ScaleUpThreshold e)
    (ScaleDownBoundary e) (na_TotalSupply e) (na_RequiredCapacity e) (na_SpareCapacity e)
    (RoleCapacities e) (Live e) (ReleaseBound e) (na_OtherFrames e) (Holds e).

Record ModelScalingRequest := MkRequest {
  req_ModelID : string; req_Namespace : string; CompositeSignal : NamedAnalyzerResult;
  VariantStates : list VariantReplicaState; req_Variants : list VariantMetadata; Priority : float64 }.

Definition modelKey (req : ModelScalingRequest) : string :=
  req_Namespace req +:+ "/" +:+ req_ModelID req.

Definition ResultIsInformative (nr : NamedAnalyzerResult) : bool :=
  match Result nr with
  | None => false
  | Some r => existsb (λ vc, negb (String.eqb (vc_Reason vc) ReasonNoData)
                             && negb (String.eqb (vc_Reason vc) ReasonError)) (VariantCapacities r)
  end.

Definition OtherFrameDemand (e : NamedAnalyzerResult) (role : string) (u : float64) : float64 :=
  frames_Demand (default (MkFrames f0 []) (na_OtherFrames e !! role)) u.

(** ** Counting replicas *)
Definition maxReplicaCount : Z := 2147483647.

(** [maxShareWeight], 1e300: the weight of a model is bounded, so that sums stay finite. *)
Definition maxShareWeight : float64 := S754_finite false 6724873095247260 944.

Section counting.
Context {C : IntConv}.

Definition replicaCount (x : float64) : Z :=
  if negb (flt f0 x) then 0
  else if fle (of_int maxReplicaCount) x then maxReplicaCount
  else int_of x.

Definition replicasForDemand (demand prc : float64) : Z :=
  if fle prc f0 then 0 else replicaCount (math_Ceil (fdiv demand prc)).

Definition safeReplicasForSpare (spare prc : float64) : Z :=
  if fle prc f0 then 0 else replicaCount (math_Floor (fdiv spare prc)).
End counting.

Definition demandForRoleOrModel (nr : NamedAnalyzerResult) (role : string) : float64 :=
  match Result nr with
  | None => f0
  | Some r =>
      let role := canonical_role role in
      match (if String.eqb role RoleBoth then None else default ∅ (RoleCapacities nr) !! role) with
      | Some rc => rc_TotalDemand rc
      | None => ar_TotalDemand r
      end
  end.

Definition requiredSpareForRoleOrModel (nr : NamedAnalyzerResult) (role : string)
  : float64 * float64 :=
  match default ∅ (RoleCapacities nr) !! canonical_role role with
  | Some rc => (rc_RequiredCapacity rc, rc_SpareCapacity rc)
  | None => (na_RequiredCapacity nr, na_SpareCapacity nr)
  end.

(** ** Variant records *)
Record variantRecord := MkRecord {
  metadata : VariantMetadata; rec_PerReplicaCapacity : float64; rec_Utilization : float64 }.

Definition rec_Name (vc : variantRecord) : string := md_VariantName (metadata vc).
Definition rec_Role (vc : variantRecord) : string := md_Role (metadata vc).
Definition rec_Cost (vc : variantRecord) : float64 := md_Cost (metadata vc).
Definition rec_Acc (vc : variantRecord) : string := md_AcceleratorName (metadata vc).

(** The zero value of a missing map entry. *)
Definition zero_record : variantRecord := MkRecord (MkMetadata "" "" f0 "") f0 f0.

(** The last of a list with a given key wins, as in a Go map built by a loop. *)
Definition last_by {A} (key : A → string) (l : list A) : gmap string A :=
  foldl (λ m a, <[key a := a]> m) ∅ l.

Definition buildVariantRecords (req : ModelScalingRequest) (satResult : option AnalyzerResult)
  : option (list variantRecord) :=
  match satResult, req_Variants req with
  | None, _ | _, [] => None
  | Some r, ms =>
      let capByVariant := last_by vc_VariantName (VariantCapacities r) in
      Some ((λ m, let vc := default zero_capacity (capByVariant !! md_VariantName m) in
                  MkRecord m (vc_PerReplicaCapacity vc) (vc_Utilization vc)) <$> ms)
  end.

Definition recordsForRequest (req : ModelScalingRequest) : option (list variantRecord) :=
  let nr := CompositeSignal req in
  match Result nr with None => None | Some r => buildVariantRecords req (Some r) end.

Definition rolesOf (vcs : list variantRecord) : list string :=
  sort_strings (remove_dups ((λ vc, canonical_role (rec_Role vc)) <$> vcs)).

Definition variantsForRole (vcs : list variantRecord) (role : string) : list variantRecord :=
  filter (λ vc, canonical_role (rec_Role vc) = role) vcs.

(** [prcForVariant], [prcFromVCs], [accFromVCs]: the first entry of that name. *)
Fixpoint prcForVariant_in (l : list VariantCapacity) (v : string) : float64 :=
  match l with
  | [] => f0
  | vc :: l => if String.eqb (vc_VariantName vc) v then vc_PerReplicaCapacity vc else prcForVariant_in l v
  end.

Definition prcForVariant (r : AnalyzerResult) (v : string) : float64 :=
  prcForVariant_in (VariantCapacities r) v.

Fixpoint prcFromVCs (vcs : list variantRecord) (v : string) : float64 :=
  match vcs with
  | [] => f0
  | vc :: l => if String.eqb (rec_Name vc) v then rec_PerReplicaCapacity vc else prcFromVCs l v
  end.

Fixpoint accFromVCs (vcs : list variantRecord) (v : string) : string :=
  match vcs with
  | [] => ""
  | vc :: l => if String.eqb (rec_Name vc) v then rec_Acc vc else accFromVCs l v
  end.

(** ** Maps built from a request *)
Definition buildStateMap (states : list VariantReplicaState) : gmap string VariantReplicaState :=
  last_by st_VariantName states.

Definition buildCapacityMap (capacities : list variantRecord) : gmap string variantRecord :=
  last_by rec_Name capacities.

Definition initTargets (states : list VariantReplicaState) : gmap string Z :=
  foldl (λ m s, <[st_VariantName s := st_CurrentReplicas s]> m) ∅ states.

(** [stateMap[v]] and [targets[v]]. *)
Definition state_of (stateMap : gmap string VariantReplicaState) (v : string) : VariantReplicaState :=
  default zero_state (stateMap !! v).
Definition target_of (targets : gmap string Z) (v : string) : Z := default 0%Z (targets !! v).

Definition gpusPerReplicaFromState (stateMap : gmap string VariantReplicaState) (v : string) : Z :=
  match stateMap !! v with
  | Some st => if (0 <? st_GPUsPerReplica st)%Z then st_GPUsPerReplica st else 1
  | None => 1
  end.

(** ** Role state *)
Notation RolePairedState := (gmap string float64).

Definition releaseTargetUtilization (e : NamedAnalyzerResult) : float64 :=
  if flt f0 (ScaleUpThreshold e) && flt f0 (ScaleDownBoundary e)
     && flt (ScaleDownBoundary e) (ScaleUpThreshold e)
  then fadd (ScaleDownBoundary e)
         (fdiv (fsub (ScaleUpThreshold e) (ScaleDownBoundary e)) (of_int 4))
  else ScaleDownBoundary e.

Definition releasableFor (supply demand target : float64) : float64 :=
  if negb (flt f0 target) || negb (flt f0 supply) then f0
  else let v := fsub supply (fdiv demand target) in
       if negb (flt f0 v) then f0 else v.

(** What [initRoleState] stores as [role]'s release budget, if anything. *)
Definition release_entry (e : NamedAnalyzerResult) (role : string) (supply demand : float64)
  : option float64 :=
  if flt f0 supply then
    let rel := releasableFor supply demand (releaseTargetUtilization e) in
    Some (match ReleaseBound e !! role with Some b => fmin rel b | None => rel end)
  else None.

Definition initRoleState (e : NamedAnalyzerResult)
  : list string * RolePairedState * NamedAnalyzerResult :=
  match Result e with
  | None => ([], ∅, e)
  | Some r =>
      match RoleCapacities e with
      | Some caps =>
          let rel := map_imap (λ role rc, release_entry e role (rc_TotalSupply rc) (rc_TotalDemand rc)) caps in
          (sort_strings (map_to_list caps).*1, rc_RequiredCapacity <$> caps,
           set_budgets e (Some ((rc_SpareCapacity <$> caps) ∪ default ∅ (RoleSpare e)))
             (Some (rel ∪ default ∅ (RoleReleasable e))))
      | None =>
          let rel := default ∅ (RoleReleasable e) in
          ([RoleBoth], {[RoleBoth := Remaining e]},
           set_budgets e (Some (<[RoleBoth := Spare e]> (default ∅ (RoleSpare e))))
             (Some (match release_entry e RoleBoth (na_TotalSupply e) (ar_TotalDemand r) with
                    | Some v => <[RoleBoth := v]> rel
                    | None => rel
                    end)))
      end
  end.

Definition anyRoleNeedsScaleUp (state : RolePairedState) (roles : list string) : bool :=
  existsb (λ role, flt f0 (fget state role)) roles.

Definition roleBottleneckReplicas {C : IntConv} (e : NamedAnalyzerResult) (state : RolePairedState)
    (role v : string) : Z :=
  match Result e with
  | None => 0
  | Some r => replicasForDemand (fget state role) (prcForVariant r v)
  end.

(** ** Charging what is ordered *)

(** [x -= n * prc], clamped to 0. *)
Definition charge_clamped (x : float64) (n : Z) (prc : float64) : float64 :=
  let y := fsub x (fmul (of_int n) prc) in if flt y f0 then f0 else y.

Definition applyAllocation (e : NamedAnalyzerResult) (v : string) (n : Z) : NamedAnalyzerResult :=
  match Result e with
  | None => e
  | Some r =>
      let prc := prcForVariant r v in
      if fle prc f0 then e else set_Remaining e (charge_clamped (Remaining e) n prc)
  end.

Definition needsScaleDownForRole (e : NamedAnalyzerResult) (role : string) : bool :=
  if negb (Live e) then false
  else match Result e, RoleSpare e with
       | Some _, Some spare => negb (fle (fget spare role) f0)
       | _, _ => false
       end.

(** The larger of the two release budgets. *)
Definition release_budget (spare : gmap string float64) (rel : option (gmap string float64))
    (role : string) : float64 :=
  let budget := fget spare role in
  match default ∅ rel !! role with
  | Some r => if flt budget r then r else budget
  | None => budget
  end.

Definition safeRemovalReplicasForRole {C : IntConv} (e : NamedAnalyzerResult) (v role : string) : Z :=
  if negb (Live e) then 0
  else match Result e, RoleSpare e with
       | Some r, Some spare =>
           let prc := prcForVariant r v in
           if fle prc f0 then 0
           else safeReplicasForSpare (release_budget spare (RoleReleasable e) role) prc
       | _, _ => 0
       end.

Definition applyDeallocationForRole (e : NamedAnalyzerResult) (v role : string) (n : Z)
  : NamedAnalyzerResult :=
  match Result e, RoleSpare e with
  | Some r, Some spare =>
      let prc := prcForVariant r v in
      if fle prc f0 then e
      else set_budgets e (Some (<[role := charge_clamped (fget spare role) n prc]> spare))
             ((λ m, alter (λ cur, charge_clamped cur n prc) role m) <$> RoleReleasable e)
  | _, _ => e
  end.

Definition roleAtCeiling (role : string) (variants : list variantRecord)
    (stateMap : gmap string VariantReplicaState) (targets : gmap string Z) : bool :=
  let usable := filter (λ vc, fle (rec_PerReplicaCapacity vc) f0 = false) (variantsForRole variants role) in
  negb (bool_decide (usable = [])) &&
  forallb (λ vc, match st_MaxReplicas (state_of stateMap (rec_Name vc)) with
                 | Some m => (0 <? m)%Z && (m <=? target_of targets (rec_Name vc))%Z
                 | None => false
                 end) usable.

(** ** Counts are small and non-negative *)
Section counting_facts.
Context {C : IntConv}.

Lemma flt_pos x : flt f0 x = true → x = S754_infinity false ∨ ∃ m e, x = S754_finite false m e.
Proof. destruct x as [s|[]| |[] m e]; try done; eauto. Qed.

Lemma maxReplicaCount_value : F2R (of_int maxReplicaCount) = 2147483647%R.
Proof.
  change (of_int maxReplicaCount) with (S754_finite false 9007199250546688 (-22)).
  change (F2R (S754_finite false 9007199250546688 (-22))) with (9007199250546688 * bpow (-22))%R.
  replace 9007199250546688%R with (2147483647 * IZR (2 ^ 22))%R by (rewrite <- mult_IZR; done).
  rewrite <- bpow_IZR, Rmult_assoc, <- bpow_add by lia. change (bpow (22 + -22)) with 1%R. lra.
Qed.

Lemma below_maxReplicaCount m e :
  fle (of_int maxReplicaCount) (S754_finite false m e) = false →
  (F2R (S754_finite false m e) < 2147483647)%R.
Proof.
  intros Hm. rewrite <- maxReplicaCount_value. unfold fle in Hm.
  destruct (fcompare_spec (of_int maxReplicaCount) (S754_finite false m e)) as [[Hc ?]|[[Hc ?]|[Hc ?]]];
    try done; by rewrite Hc in Hm.
Qed.

Lemma replicaCount_range x : (0 ≤ replicaCount x ≤ maxReplicaCount)%Z.
Proof.
  unfold replicaCount. destruct (flt f0 x) eqn:Hp; cbn [negb]; [|unfold maxReplicaCount; lia].
  destruct (fle (of_int maxReplicaCount) x) eqn:Hm; [unfold maxReplicaCount; lia|].
  destruct (flt_pos x Hp) as [->|(m & e & ->)]; [done|].
  pose proof (below_maxReplicaCount m e Hm) as Hlt.
  pose proof (shiftl_range m e 2147483646 ltac:(lra)) as [H0 H1].
  rewrite (int_of_shiftl m e 2147483646) by (unfold int_max; lia || lra).
  unfold maxReplicaCount. lia.
Qed.

Lemma replicasForDemand_range demand prc : (0 ≤ replicasForDemand demand prc ≤ maxReplicaCount)%Z.
Proof. unfold replicasForDemand. case_match; [unfold maxReplicaCount; lia|apply replicaCount_range]. Qed.

Lemma safeReplicasForSpare_range spare prc : (0 ≤ safeReplicasForSpare spare prc ≤ maxReplicaCount)%Z.
Proof. unfold safeReplicasForSpare. case_match; [unfold maxReplicaCount; lia|apply replicaCount_range]. Qed.

Lemma safeRemoval_range e v role : (0 ≤ safeRemovalReplicasForRole e v role ≤ maxReplicaCount)%Z.
Proof.
  unfold safeRemovalReplicasForRole.
  repeat case_match; try (unfold maxReplicaCount; lia). apply safeReplicasForSpare_range.
Qed.

(** [replicasForDemand] is positive only for a positive capacity. *)
Lemma replicasForDemand_pos demand prc : (0 < replicasForDemand demand prc)%Z → fle prc f0 = false.
Proof. unfold replicasForDemand. case_match; [lia|done]. Qed.
End counting_facts.
