(* ===== verification/WaterFill.v ===== *)
(** * WaterFill: the weighted split of GPUs

    The model of [computeRescaleTargets], [roundExtras], [apportionLeftover] and
    [distributeGPUsByWeight] of [rescale.go] of [internal/engines/allocation]: a
    budget shared among models (or a model's GPUs among its roles) by weight,
    between a floor and a cap, in whole GPUs.

    The shares are [float64]; a share that reaches its headroom is capped and what
    it leaves is split again, at most as many times as there are models ([None] is
    the loop out of fuel, proved not to happen).  The order in which Go ranges over a map is the class [MapRange].

    Theorems: every target is between its floor and its cap; and, while weights
    and counts are within range, the targets together are exactly the smaller of
    the budget and what the models can take, whatever the rounding. *)
From Stdlib Require Import ZArith Lia String SpecFloat Reals Lra.
From stdpp Require Import base gmap strings list sorting fin_maps.
From S2P Require Import Prelude GoFloat FloatBounds FloatError GoCmp Domain Signals.
Open Scope Z_scope.

(** ** The split *)
Record rescaleInput := MkInput {
  ri_ID : string; ri_Priority : float64; ri_Demand : float64; FloorGPUs : Z; CapGPUs : Z }.

(** The tolerance, 1e-9. *)
Definition tolerance : float64 := S754_finite false 4835703278458517 (-82).

Record active := MkActive { a_id : string; a_weight : float64; a_headroom : Z }.

Definition weight_of (m : rescaleInput) : float64 := fmin (fmul (ri_Priority m) (ri_Demand m)) maxShareWeight.

Definition headroom_of (m : rescaleInput) : Z := let hr := CapGPUs m ⊟ FloorGPUs m in if hr <? 0 then 0 else hr.

Definition active_of (m : rescaleInput) : option active :=
  if flt f0 (weight_of m) && (0 <? headroom_of m) then Some (MkActive (ri_ID m) (weight_of m) (headroom_of m)) else None.

(** The share of [remaining] by weight. *)
Definition share (remaining totalW : float64) (a : active) : float64 := fdiv (fmul remaining (a_weight a)) totalW.

Definition reaches (remaining totalW : float64) (a : active) : bool :=
  fle (fsub (of_int (a_headroom a)) tolerance) (share remaining totalW a).

(** One pass: the extras, what was used, who is left, whether any was capped. *)
Definition cap_step (remaining totalW : float64) (acc : gmap string float64 * float64 * list active * bool) (a : active)
  : gmap string float64 * float64 * list active * bool :=
  let '(extra, used, next, capped) := acc in
  if reaches remaining totalW a
  then (<[a_id a := of_int (a_headroom a)]> extra, fadd used (of_int (a_headroom a)), next, true)
  else (extra, used, next ++ [a], capped).

Definition total_weight (act : list active) : float64 := foldl (λ t a, fadd t (a_weight a)) f0 act.

Fixpoint water_fill (fuel : nat) (act : list active) (remaining : float64) (extra : gmap string float64)
  : option (gmap string float64) :=
  if bool_decide (act = []) || negb (flt tolerance remaining) then Some extra
  else match fuel with
       | O => None
       | S fuel =>
           let totalW := total_weight act in
           if fle totalW f0 then Some extra
           else
             let '(extra, used, next, capped) := foldl (cap_step remaining totalW) (extra, f0, [], false) act in
             if capped then water_fill fuel next (fsub remaining used) extra
             else Some (foldl (λ extra a, <[a_id a := share remaining totalW a]> extra) extra act)
       end.

(** The order a [map[string]V] is ranged over. *)
Class MapRange := {
  range : ∀ {V : Type}, gmap string V → list (string * V);
  range_perm : ∀ {V} (m : gmap string V), range m ≡ₚ map_to_list m }.

Section rounding.
Context `{GoSort} `{MapRange} {C : IntConv}.

Definition kr_compare (a b : string * float64) : comparison :=
  cmp_Or (cmp_float b.2 a.2) (String.compare a.1 b.1).

(** [out[key]++], unless the key is at its cap. *)
Definition apportion_step (capOf : option (gmap string Z)) (acc : gmap string Z * Z) (o : string * float64) : gmap string Z * Z :=
  let '(out, leftover) := acc in
  if leftover <=? 0 then acc
  else match capOf ≫= (.!! o.1) with
       | Some c => if c <=? default 0 (out !! o.1) then acc
                   else (<[o.1 := default 0 (out !! o.1) ⊞ 1]> out, leftover ⊟ 1)
       | None => (<[o.1 := default 0 (out !! o.1) ⊞ 1]> out, leftover ⊟ 1)
       end.

Definition apportionLeftover (out : gmap string Z) (remainder : gmap string float64) (leftover : Z)
    (capOf : option (gmap string Z)) : gmap string Z :=
  if leftover <=? 0 then out
  else (foldl (apportion_step capOf) (out, leftover) (sort_slice (less_by kr_compare) (range remainder))).1.

Definition round_step (acc : gmap string Z * gmap string float64 * float64 * Z) (p : string * float64)
  : gmap string Z * gmap string float64 * float64 * Z :=
  let '(targets, remainder, totalFrac, sumWhole) := acc in
  let '(id, e) := p in
  let whole := int_of (math_Floor e) in
  (<[id := default 0 (targets !! id) ⊞ whole]> targets, <[id := fsub e (of_int whole)]> remainder,
   fadd totalFrac e, sumWhole ⊞ whole).

Definition roundExtras (inp : list rescaleInput) (extra : gmap string float64) (targets : gmap string Z) : gmap string Z :=
  let capOf := foldl (λ m i, <[ri_ID i := CapGPUs i]> m) ∅ inp in
  let '(targets, remainder, totalFrac, sumWhole) := foldl round_step (targets, ∅, f0, 0) (range extra) in
  apportionLeftover targets remainder (int_of (math_Round totalFrac) ⊟ sumWhole) (Some capOf).

(** The passes always end ([water_fill_ends]). *)
Definition computeRescaleTargets (inp : list rescaleInput) (budget : Z) : gmap string Z * bool :=
  let targets := foldl (λ t m, <[ri_ID m := FloorGPUs m]> t) ∅ inp in
  let sumFloor := foldl (λ s m, s ⊞ FloorGPUs m) 0 inp in
  if budget <=? sumFloor then (targets, budget <? sumFloor)
  else
    let act := omap active_of inp in
    let extra := default ∅ (water_fill (length act) act (of_int (budget ⊟ sumFloor)) ∅) in
    (roundExtras inp extra targets, false).

(** ** The split of a model's GPUs among its roles *)
Definition sum_of (m : gmap string Z) (roles : list string) : Z := foldl (λ s r, s ⊞ target_of m r) 0 roles.

Definition role_cap (floor : gmap string Z) (ceiling : option (gmap string Z)) (remaining : Z) (r : string) : Z :=
  let c0 := target_of floor r ⊞ Z.max remaining 0 in
  match ceiling ≫= (.!! r) with
  | Some c => Z.max (Z.min c c0) (target_of floor r)
  | None => c0
  end.

Definition hand_out (capOf : string → Z) (acc : gmap string Z * Z) (r : string) : gmap string Z * Z :=
  let '(out, remaining) := acc in
  let give := Z.min (Z.max remaining 0) (capOf r ⊟ target_of out r) in
  (<[r := target_of out r ⊞ give]> out, remaining ⊟ give).

Definition distributeGPUsByWeight (total : Z) (roles : list string) (weight fallback floor : gmap string Z)
    (ceiling : option (gmap string Z)) : gmap string Z :=
  match roles with
  | [] => ∅
  | [r] => {[r := total]}
  | _ =>
      let remaining := total ⊟ sum_of floor roles in
      let capOf := role_cap floor ceiling remaining in
      let w := if sum_of weight roles =? 0 then fallback else weight in
      if sum_of w roles =? 0 then
        (foldl (hand_out capOf) (foldl (λ out r, <[r := target_of floor r]> out) ∅ roles, remaining) roles).1
      else
        (computeRescaleTargets ((λ r, MkInput r (of_int 1) (of_int (target_of w r)) (target_of floor r) (capOf r)) <$> roles) total).1
  end.
End rounding.

(** ** Shares

    With [R] whole GPUs to share, a share is within [gamma] of its part of [R]. *)
Open Scope R_scope.

Record act_ok (a : active) : Prop := {
  ao_headroom : (1 <= a_headroom a <= 4294967296)%Z;
  ao_weight : nonneg (a_weight a) ∧ bpow (-400) <= F2R (a_weight a) <= bpow 400 }.

Definition acts_ok (act : list active) : Prop := Forall act_ok act ∧ (length act <= 1024)%nat.

Definition W (act : list active) : R := sumR (a_weight <$> act).
Definition room (act : list active) : Z := sumZ a_headroom act.
Definition gamma : R := 4096 * unit.

Lemma gamma_small : 0 < gamma ∧ gamma * 137438953472 = 1.
Proof. unfold gamma. destruct unit_small_pos. pose proof unit_exact. lra. Qed.

Lemma weight_term a : act_ok a → term (a_weight a).
Proof. intros [_ [Hn [Hw _]]]. split; [done|]. pose proof (bpow_le (-899) (-400) ltac:(lia)). lra. Qed.

Lemma W_cons a act : W (a :: act) = F2R (a_weight a) + W act.
Proof. done. Qed.

Lemma W_upper act : Forall act_ok act → W act <= IZR (Z.of_nat (length act)) * bpow 400.
Proof.
  induction 1 as [|a act [_ [_ [_ Ha]]] _ IH]; rewrite ?W_cons; cbn [length];
    [change (W []) with 0; change (IZR (Z.of_nat 0)) with 0; lra|]. rewrite Nat2Z.inj_succ, succ_IZR. lra.
Qed.

Lemma W_elem act a : Forall act_ok act → a ∈ act → F2R (a_weight a) <= W act.
Proof.
  intros Hok. induction Hok as [|b act Hb Hok IH]; intros Ha; [by apply elem_of_nil in Ha|].
  rewrite W_cons. pose proof (weight_term b Hb) as [[_ Hb0] _].
  assert (0 <= W act) by (apply sumR_nonneg, Forall_fmap; eapply Forall_impl; [exact Hok|intros; by apply weight_term]).
  apply elem_of_cons in Ha as [->|Ha]; [lra|]. specialize (IH Ha). lra.
Qed.

Lemma W_upper' act : acts_ok act → W act <= bpow 410.
Proof.
  intros [Hok Hn]. etrans; [by apply W_upper|]. change 410%Z with (10 + 400)%Z. rewrite bpow_add, (bpow_IZR 10) by lia.
  apply Rmult_le_compat_r; [pose proof (bpow_pos 400); lra|apply IZR_le; lia].
Qed.

Lemma foldl_fmap_weights act : foldl (λ t a, fadd t (a_weight a)) f0 act = foldl fadd f0 (a_weight <$> act).
Proof. generalize f0. induction act as [|a act IH]; intros x; [done|]. apply IH. Qed.

Lemma total_weight_near act :
  acts_ok act → nonneg (total_weight act) ∧ Rabs (F2R (total_weight act) - W act) <= 2048 * unit * W act.
Proof.
  intros [Hok Hn]. destruct (sum_near (a_weight <$> act)) as [H1 H2].
  - apply Forall_fmap. eapply Forall_impl; [exact Hok|]. intros; by apply weight_term.
  - etrans; [by apply (W_upper' act)|]. apply bpow_le. lia.
  - rewrite length_fmap. lia.
  - unfold total_weight. rewrite (foldl_fmap_weights act). split; [done|]. etrans; [exact H2|]. rewrite length_fmap.
    assert (0 <= W act) by (apply sumR_nonneg, Forall_fmap; eapply Forall_impl; [exact Hok|intros; by apply weight_term]).
    assert (IZR (Z.of_nat (length act)) <= 1024) by (apply IZR_le; lia). destruct unit_small_pos. fold (W act).
    apply Rmult_le_compat_r; [done|]. nra.
Qed.

(** The relative errors of a product, a sum and a quotient together. *)
Lemma ratio_error u d s T Wt t x :
  0 < u → d = 2048 * u → d * 1000 <= 1 → 0 < Wt → 0 <= t → Rabs (T - Wt) <= d * Wt → s * T = x → 0 <= s →
  Rabs (x - t * Wt) <= u * (t * Wt) → t * (1 - 3 / 2 * d) <= s <= t * (1 + 3 / 2 * d).
Proof.
  intros Hu Hd Hd1 HW Ht HT Hs Hs0 Hx. apply Rabs_le_inv in HT, Hx.
  assert (Hds : 0 <= d * t) by (apply Rmult_le_pos; lra). assert (Hdd : 0 <= d * d <= d / 1000) by nra.
  assert (Htt : 0 <= d * d * t <= d * t / 1000) by nra.
  assert (H1 : s * (1 - d) <= (1 + u) * t).
  { apply (Rmult_le_reg_r Wt); [done|]. assert (s * (Wt - d * Wt) <= s * T) by (apply Rmult_le_compat_l; lra). lra. }
  assert (H2 : (1 - u) * t <= s * (1 + d)).
  { apply (Rmult_le_reg_r Wt); [done|]. assert (s * T <= s * (Wt + d * Wt)) by (apply Rmult_le_compat_l; lra). lra. }
  split.
  - apply (Rmult_le_reg_r (1 + d)); [lra|]. nra.
  - apply (Rmult_le_reg_r (1 - d)); [lra|]. nra.
Qed.

Definition part (G : Z) (act : list active) (a : active) : R := IZR G * F2R (a_weight a) / W act.

Lemma part_bounds G act a :
  (1 <= G <= 4294967296)%Z → acts_ok act → a ∈ act →
  0 < W act ∧ part G act a * W act = IZR G * F2R (a_weight a) ∧ bpow (-810) <= part G act a <= 4294967296.
Proof.
  intros HR [Hok Hn] Ha. rewrite Forall_forall in Hok. destruct (Hok a Ha) as [_ [_ [Hlo Hhi]]].
  pose proof (W_elem act a ltac:(by apply Forall_forall) Ha) as HW. pose proof (W_upper' act ltac:(split; [by apply Forall_forall|done])) as HW'.
  pose proof (bpow_pos (-400)). assert (HW0 : 0 < W act) by lra. assert (HR1 : 1 <= IZR G <= 4294967296) by (split; apply IZR_le; lia).
  assert (Hm : part G act a * W act = IZR G * F2R (a_weight a)) by (unfold part; field; lra).
  split_and!; [done|done| |].
  - apply (Rmult_le_reg_r (W act)); [done|]. rewrite Hm. apply (Rle_trans _ (bpow (-810) * bpow 410)).
    + apply Rmult_le_compat_l; [pose proof (bpow_pos (-810)); lra|done].
    + rewrite <- bpow_add. change (-810 + 410)%Z with (-400)%Z. nra.
  - apply (Rmult_le_reg_r (W act)); [done|]. rewrite Hm. apply Rmult_le_compat; lra.
Qed.

Lemma share_near remaining G act a :
  holds remaining G → (1 <= G <= 4294967296)%Z → acts_ok act → a ∈ act →
  let s := F2R (share remaining (total_weight act) a) in
  term (share remaining (total_weight act) a) ∧ Rabs (s - part G act a) <= gamma * part G act a.
Proof.
  intros [Hr Er] HR Hact Ha. cbv zeta. destruct (part_bounds G act a HR Hact Ha) as (HW & Hp & Hplo & Hphi).
  destruct (total_weight_near act Hact) as [Ht0 Ht]. set (T := F2R (total_weight act)) in *. set (t := part G act a) in *. clearbody t.
  destruct Hact as [Hok _]. rewrite Forall_forall in Hok. destruct (Hok a Ha) as [_ [Hw0 [Hwlo Hwhi]]].
  assert (HR1 : 1 <= IZR G <= 4294967296) by (split; apply IZR_le; lia).
  destruct unit_small_pos as [Hu0 Hu]. pose proof (Rabs_le_inv _ _ Ht) as HT. assert (0 < T) by nra.
  pose proof (bpow_pos (-810)) as H810.
  assert (Hnorm : normal (F2R remaining * F2R (a_weight a))).
  { rewrite Er. split.
    - pose proof (bpow_le (-900) (-400) ltac:(lia)). pose proof (bpow_pos (-400)).
      apply (Rle_trans _ (1 * bpow (-400))); [lra|apply Rmult_le_compat; lra].
    - apply (Rle_trans _ (4294967296 * bpow 400)); [apply Rmult_le_compat; pose proof (bpow_pos (-400)); lra|].
      change 4294967296 with (IZR (2 ^ 32)). rewrite <- bpow_IZR, <- bpow_add by lia. apply bpow_le. lia. }
  destruct (fmul_near remaining (a_weight a) Hr Hw0 Hnorm) as [Hx0 Hx]. rewrite Er, <- Hp in Hx.
  set (x := fmul remaining (a_weight a)) in *.
  assert (Hs : F2R x / T * T = F2R x) by (field; lra).
  assert (Hs0 : 0 <= F2R x / T) by (destruct Hx0; apply Rmult_le_pos; [done|left; by apply Rinv_0_lt_compat]).
  pose proof (ratio_error unit (2048 * unit) (F2R x / T) T (W act) t (F2R x) Hu0 eq_refl ltac:(lra) HW ltac:(lra) Ht Hs Hs0 Hx) as Hq.
  assert (Hdt : 0 <= 2048 * unit * t <= t / 1000) by nra.
  assert (Hqn : normal (F2R x / T)).
  { pose proof (bpow_le (-900) (-812) ltac:(lia)). assert (Hb : bpow (-812) * 4 = bpow (-810)).
    { change 4 with (IZR (2 ^ 2)). rewrite <- bpow_IZR, <- bpow_add by lia. done. }
    pose proof (bpow_le 40 900 ltac:(lia)) as H40. rewrite (bpow_IZR 40) in H40 by lia.
    assert (8589934592 <= IZR (2 ^ 40)) by (apply IZR_le; lia). split; lra. }
  destruct (fdiv_near x (total_weight act) Hx0 Ht0 ltac:(done) Hqn) as [Hz0 Hz]. fold T in Hz. unfold share. fold x.
  set (q := F2R x / T) in *. clearbody q. apply Rabs_le_inv in Hz. assert (unit * q <= unit * (2 * t)) by (apply Rmult_le_compat_l; lra).
  assert (0 <= unit * t) by nra. split.
  - split; [done|]. pose proof (bpow_le (-899) (-812) ltac:(lia)). assert (Hb : bpow (-812) * 4 = bpow (-810)).
    { change 4 with (IZR (2 ^ 2)). rewrite <- bpow_IZR, <- bpow_add by lia. done. }
    lra.
  - unfold gamma. apply Rabs_le. lra.
Qed.

Lemma shares_sum remaining G act l :
  holds remaining G → (1 <= G <= 4294967296)%Z → acts_ok act → (∀ a, a ∈ l → a ∈ act) → 0 < W act →
  Rabs (sumR (share remaining (total_weight act) <$> l) - IZR G * W l / W act) <= gamma * (IZR G * W l / W act).
Proof.
  intros Hr HG Hact Hl HW. induction l as [|a l IH].
  { change (W []) with 0. simpl. replace (IZR G * 0 / W act) with 0 by (field; lra). rewrite Rminus_0_r, Rabs_R0. lra. }
  destruct (share_near remaining G act a Hr HG Hact ltac:(set_solver)) as [_ Ha]. specialize (IH ltac:(set_solver)).
  rewrite W_cons. replace (IZR G * (F2R (a_weight a) + W l) / W act) with (part G act a + IZR G * W l / W act)
    by (unfold part; field; lra).
  rewrite fmap_cons. cbn [sumR foldr]. fold (sumR (share remaining (total_weight act) <$> l)).
  apply Rabs_le_inv in Ha, IH. apply Rabs_le. lra.
Qed.

Lemma tolerance_small : nonneg tolerance ∧ 0 < F2R tolerance <= / 268435456.
Proof.
  pose proof (F2R_sign false 4835703278458517 (-82)) as H0. cbv iota in H0. split; [split; [done|unfold tolerance; lra]|].
  split; [unfold tolerance; lra|]. unfold tolerance. cbn [F2R signed].
  assert (4835703278458517 <= bpow 53) by (rewrite bpow_IZR by lia; apply IZR_le; lia).
  apply (Rle_trans _ (bpow 53 * bpow (-82))); [apply Rmult_le_compat_r; [pose proof (bpow_pos (-82)); lra|done]|].
  rewrite <- bpow_add. apply (Rmult_le_reg_r 268435456); [lra|]. rewrite Rinv_l by lra.
  change 268435456 with (IZR (2 ^ 28)). rewrite <- bpow_IZR, <- bpow_add by lia. change 1 with (bpow 0). apply bpow_le. lia.
Qed.

(** A share that reaches its headroom is at most a hair below it, and one that does
    not is at most a hair above. *)
Lemma reaches_spec remaining totalW a :
  act_ok a → nonneg (share remaining totalW a) →
  if reaches remaining totalW a then IZR (a_headroom a) <= F2R (share remaining totalW a) + / 65536
  else F2R (share remaining totalW a) < IZR (a_headroom a) + / 65536.
Proof.
  intros [Hh _] Hs. unfold reaches. destruct (holds_of_int (a_headroom a) ltac:(lia)) as [Hi Ei].
  destruct tolerance_small as [Ht0 Ht]. assert (HhR : 1 <= IZR (a_headroom a) <= 4294967296) by (split; apply IZR_le; lia).
  assert (Hn : normal (F2R (of_int (a_headroom a)) - F2R tolerance)).
  { rewrite Ei. pose proof (bpow_le (-900) (-1) ltac:(lia)) as Hlo. assert (bpow (-1) = / 2) by (unfold bpow; simpl; lra).
    pose proof (bpow_le 33 900 ltac:(lia)) as Hhi. rewrite (bpow_IZR 33) in Hhi by lia.
    assert (4294967296 <= IZR (2 ^ 33)) by (apply IZR_le; lia). split; lra. }
  destruct (fsub_near _ _ Hi Ht0 Hn) as [Hz0 Hz]. rewrite Ei in Hz. apply Rabs_le_inv in Hz.
  set (z := fsub _ _) in *. set (s := share _ _ _) in *.
  pose proof unit_exact. destruct unit_small_pos as [Hu0 _].
  assert (unit * (IZR (a_headroom a) - F2R tolerance) <= unit * 4294967296) by (apply Rmult_le_compat_l; lra).
  unfold fle. destruct (fcompare_spec z s (proj1 Hz0) (proj1 Hs)) as [[-> Hc]|[[-> Hc]|[-> Hc]]]; lra.
Qed.

(** ** The passes *)
Definition put_all (m : gmap string float64) (l : list (active * float64)) : gmap string float64 :=
  foldl (λ m p, <[a_id p.1 := p.2]> m) m l.

(** The active that reach their headroom in a pass, and the others. *)
Definition capped_of (remaining totalW : float64) (act : list active) : list active :=
  filter (λ a, reaches remaining totalW a = true) act.
Definition open_of (remaining totalW : float64) (act : list active) : list active :=
  filter (λ a, reaches remaining totalW a = false) act.
Definition at_headroom (a : active) : active * float64 := (a, of_int (a_headroom a)).

Lemma split_perm remaining totalW act : act ≡ₚ capped_of remaining totalW act ++ open_of remaining totalW act.
Proof.
  unfold capped_of, open_of. induction act as [|a act IH]; [done|]. rewrite !filter_cons.
  destruct (reaches remaining totalW a) eqn:E; repeat (case_decide; try done); simpl; [by f_equiv|].
  rewrite <- Permutation_middle. by f_equiv.
Qed.

Lemma room_pos act : Forall act_ok act → (0 <= room act)%Z.
Proof. intros Hok. apply sumZ_nonneg. intros a Ha. rewrite Forall_forall in Hok. destruct (Hok a Ha). lia. Qed.

Lemma room_perm act act' : act ≡ₚ act' → room act = room act'.
Proof. unfold room. by intros ->. Qed.

Lemma room_app l l' : room (l ++ l') = (room l + room l')%Z.
Proof. apply sumZ_app. Qed.

Lemma cap_fold remaining totalW act extra used U next capped :
  holds used U → Forall act_ok act → (U + room act < 9007199254740992)%Z →
  ∃ used', foldl (cap_step remaining totalW) (extra, used, next, capped) act =
      (put_all extra (at_headroom <$> capped_of remaining totalW act), used', next ++ open_of remaining totalW act,
       capped || negb (bool_decide (capped_of remaining totalW act = []))) ∧
    holds used' (U + room (capped_of remaining totalW act)).
Proof.
  intros Hu Hok. revert extra used U next capped Hu. induction Hok as [|a act Ha Hok IH]; intros extra used U next capped Hu HU.
  { exists used. simpl. rewrite app_nil_r, orb_false_r. split; [done|]. change (room []) with 0%Z. by rewrite Z.add_0_r. }
  unfold room in HU. rewrite sumZ_cons in HU. fold (room act) in HU. pose proof (room_pos act Hok).
  assert (Hh := ao_headroom a Ha). cbn [foldl]. unfold cap_step at 2. unfold capped_of, open_of.
  destruct (reaches remaining totalW a) eqn:E.
  - rewrite !filter_cons_True, !filter_cons_False by congruence.
    destruct (IH (<[a_id a := of_int (a_headroom a)]> extra) (fadd used (of_int (a_headroom a))) (U + a_headroom a)%Z next true)
      as (used' & -> & Hu'); [apply holds_add; [done|apply holds_of_int; lia|lia]|lia|].
    exists used'. split; [by rewrite orb_true_r|]. unfold room. rewrite sumZ_cons. by rewrite Z.add_assoc.
  - rewrite filter_cons_False, filter_cons_True by congruence.
    destruct (IH extra used U (next ++ [a]) capped) as (used' & -> & Hu'); [done|lia|].
    exists used'. by rewrite <- app_assoc.
Qed.

Lemma reached_sum remaining T cs :
  (∀ a, a ∈ cs → act_ok a ∧ nonneg (share remaining T a) ∧ reaches remaining T a = true) →
  IZR (room cs) <= sumR (share remaining T <$> cs) + IZR (Z.of_nat (length cs)) * / 65536.
Proof.
  intros Hcap. induction cs as [|a cs IH].
  { change (room []) with 0%Z. change (sumR (share remaining T <$> [])) with 0. change (IZR (Z.of_nat (length (@nil active)))) with 0. lra. }
  destruct (Hcap a ltac:(set_solver)) as (Ha & Hs & Hc). pose proof (reaches_spec remaining T a Ha Hs) as Hspec.
  rewrite Hc in Hspec. specialize (IH (λ b Hb, Hcap b (proj2 (elem_of_cons cs b a) (or_intror Hb)))).
  unfold room. rewrite sumZ_cons, plus_IZR. fold (room cs). rewrite fmap_cons. cbn [sumR foldr length].
  fold (sumR (share remaining T <$> cs)). rewrite Nat2Z.inj_succ, succ_IZR. lra.
Qed.

(** What a pass caps is within what it shares. *)
Lemma capped_within remaining G act :
  holds remaining G → (1 <= G <= 4294967296)%Z → acts_ok act → act ≠ [] →
  (room (capped_of remaining (total_weight act) act) <= G)%Z.
Proof.
  intros Hr HG Hact Hne. set (T := total_weight act). set (cs := capped_of remaining T act).
  assert (Hin : ∀ a, a ∈ cs → a ∈ act) by (unfold cs, capped_of; intros a Ha; by apply list_elem_of_filter in Ha as [_ ?]).
  assert (HW : 0 < W act).
  { destruct act as [|a act']; [done|]. by destruct (part_bounds G _ a HG Hact ltac:(set_solver)). }
  assert (Hall : Rabs (sumR (share remaining T <$> act) - IZR G * W act / W act) <= gamma * (IZR G * W act / W act))
    by (apply shares_sum; auto).
  replace (IZR G * W act / W act) with (IZR G) in Hall by (field; lra).
  assert (Hcs : IZR (room cs) <= sumR (share remaining T <$> cs) + IZR (Z.of_nat (length cs)) * / 65536).
  { apply reached_sum. intros a Ha. pose proof (Hin a Ha). destruct (share_near remaining G act a Hr HG Hact) as [[? _] _]; [done|].
    destruct Hact as [Hok _]. rewrite Forall_forall in Hok. apply list_elem_of_filter in Ha as [? _]. auto. }
  assert (Hle : sumR (share remaining T <$> cs) <= sumR (share remaining T <$> act)).
  { rewrite (sumR_perm (share remaining T <$> act) (share remaining T <$> (cs ++ open_of remaining T act)))
      by (apply fmap_Permutation, split_perm).
    rewrite fmap_app, sumR_app. assert (0 <= sumR (share remaining T <$> open_of remaining T act)); [|lra].
    apply sumR_nonneg, Forall_fmap, Forall_forall. intros a Ha. apply list_elem_of_filter in Ha as [_ Ha].
    by destruct (share_near remaining G act a Hr HG Hact Ha). }
  assert (Hlen : (length cs <= length act)%nat) by (apply length_filter). destruct Hact as [_ Hn].
  assert (IZR (Z.of_nat (length cs)) <= 1024) by (apply IZR_le; lia). apply Rabs_le_inv in Hall.
  destruct gamma_small as [Hg0 Hg]. assert (IZR G <= 4294967296) by (apply IZR_le; lia).
  assert (gamma * IZR G <= gamma * 4294967296) by (apply Rmult_le_compat_l; lra).
  apply Z.lt_succ_r, lt_IZR. rewrite succ_IZR. lra.
Qed.

(** An extra the passes give: at most a hair above its headroom. *)
Definition good (p : active * float64) : Prop := term p.2 ∧ F2R p.2 < IZR (a_headroom p.1) + / 65536.

Lemma good_at_headroom a : act_ok a → good (at_headroom a) ∧ F2R (at_headroom a).2 = IZR (a_headroom a).
Proof.
  intros [Hh _]. destruct (holds_of_int (a_headroom a) ltac:(lia)) as [Hn Hv]. unfold good, at_headroom. cbn [fst snd].
  rewrite Hv. assert (1 <= IZR (a_headroom a)) by (apply IZR_le; lia). pose proof (bpow_le (-899) 0 ltac:(lia)) as H0.
  change (bpow 0) with 1 in H0. unfold term. rewrite Hv. split_and!; try done; lra.
Qed.

Lemma at_headroom_sum cs : Forall act_ok cs → Forall good (at_headroom <$> cs) ∧ sumR (at_headroom <$> cs).*2 = IZR (room cs).
Proof.
  induction 1 as [|a cs Ha _ [IH1 IH2]]; [done|]. destruct (good_at_headroom a Ha) as [Hg Hv]. split; [by constructor|].
  rewrite !fmap_cons. cbn [sumR foldr]. fold (sumR (at_headroom <$> cs).*2). rewrite IH2, Hv. unfold room. by rewrite sumZ_cons, plus_IZR.
Qed.

Lemma good_sum remaining T act :
  (∀ a, a ∈ act → good (a, share remaining T a)) →
  sumR (share remaining T <$> act) <= IZR (room act) + IZR (Z.of_nat (length act)) * / 65536.
Proof.
  intros Hgood. induction act as [|a act IH].
  { change (room []) with 0%Z. change (sumR (share remaining T <$> [])) with 0. change (IZR (Z.of_nat (length (@nil active)))) with 0. lra. }
  destruct (Hgood a (proj2 (elem_of_cons act a a) (or_introl eq_refl))) as [_ Ha].
  specialize (IH (λ b Hb, Hgood b (proj2 (elem_of_cons act b a) (or_intror Hb)))). cbn [fst snd] in Ha.
  unfold room. rewrite sumZ_cons, plus_IZR. fold (room act). rewrite fmap_cons. cbn [sumR foldr length].
  fold (sumR (share remaining T <$> act)). rewrite Nat2Z.inj_succ, succ_IZR. lra.
Qed.

Lemma open_good remaining G act :
  holds remaining G → (1 <= G <= 4294967296)%Z → acts_ok act → act ≠ [] →
  capped_of remaining (total_weight act) act = [] →
  let new := (λ a, (a, share remaining (total_weight act) a)) <$> act in
  Forall good new ∧ (G <= room act)%Z ∧ Rabs (sumR new.*2 - IZR G) <= gamma * 4294967296.
Proof.
  intros Hr HG Hact Hne Hcs. cbv zeta. set (T := total_weight act).
  assert (HW : 0 < W act).
  { destruct act as [|a act']; [done|]. by destruct (part_bounds G _ a HG Hact ltac:(set_solver)). }
  assert (Hnew : ((λ a, (a, share remaining T a)) <$> act).*2 = share remaining T <$> act) by (by rewrite <- list_fmap_compose).
  assert (Hgood : ∀ a, a ∈ act → good (a, share remaining T a)).
  { intros a Ha. destruct (share_near remaining G act a Hr HG Hact Ha) as [Ht _]. split; [done|].
    destruct Hact as [Hok _]. rewrite Forall_forall in Hok. pose proof (reaches_spec remaining T a (Hok a Ha) (proj1 Ht)) as Hs.
    destruct (reaches remaining T a) eqn:E; [|done]. exfalso. apply (not_elem_of_nil a). rewrite <- Hcs. by apply list_elem_of_filter. }
  pose proof (shares_sum remaining G act act Hr HG Hact (λ _ Hx, Hx) HW) as Hall. fold T in Hall.
  replace (IZR G * W act / W act) with (IZR G) in Hall by (field; lra). destruct gamma_small as [Hg0 Hg].
  assert (IZR G <= 4294967296) by (apply IZR_le; lia). assert (gamma * IZR G <= gamma * 4294967296) by (apply Rmult_le_compat_l; lra).
  split_and!.
  - apply Forall_fmap, Forall_forall. exact Hgood.
  - pose proof (good_sum remaining T act Hgood) as Hup.
    destruct Hact as [_ Hn]. assert (IZR (Z.of_nat (length act)) <= 1024) by (apply IZR_le; lia). apply Rabs_le_inv in Hall.
    apply Z.lt_succ_r, lt_IZR. rewrite succ_IZR. lra.
  - rewrite Hnew. lra.
Qed.

Lemma total_weight_pos act : acts_ok act → act ≠ [] → fle (total_weight act) f0 = false.
Proof.
  intros Hact Hne. destruct (total_weight_near act Hact) as [Ht0 Ht].
  assert (HW : 0 < W act).
  { destruct act as [|a act']; [done|]. by destruct (part_bounds 1 _ a ltac:(lia) Hact ltac:(set_solver)). }
  apply Rabs_le_inv in Ht. destruct unit_small_pos as [Hu0 Hu]. assert (2048 * unit * W act <= W act * / 2) by nra.
  unfold fle. destruct (fcompare_spec (total_weight act) f0 (proj1 Ht0) eq_refl) as [[-> Hc]|[[-> Hc]|[-> Hc]]]; [..|done];
    change (F2R f0) with 0 in Hc; lra.
Qed.

(** Whether there is anything to share. *)
Lemma remaining_left remaining G : holds remaining G → flt tolerance remaining = (0 <? G)%Z.
Proof.
  intros [Hr Er]. destruct tolerance_small as [Ht0 Ht].
  assert (0 <= G)%Z by (apply le_IZR; rewrite <- Er; apply Hr).
  unfold flt. destruct (fcompare_spec tolerance remaining (proj1 Ht0) (proj1 Hr)) as [[-> Hc]|[[-> Hc]|[-> Hc]]]; rewrite Er in Hc.
  - symmetry. apply Z.ltb_lt, lt_IZR. lra.
  - symmetry. apply Z.ltb_ge. apply Z.lt_succ_r, lt_IZR. rewrite succ_IZR. lra.
  - symmetry. apply Z.ltb_ge. apply Z.lt_succ_r, lt_IZR. rewrite succ_IZR. lra.
Qed.

Lemma open_all remaining T act : capped_of remaining T act = [] → open_of remaining T act = act.
Proof.
  unfold capped_of, open_of. intros Hc. induction act as [|a act IH]; [done|].
  rewrite filter_cons in Hc. destruct (reaches remaining T a) eqn:E; [by case_decide|].
  rewrite filter_cons_True by done. f_equal. apply IH. by case_decide.
Qed.

Lemma put_shares remaining T act extra :
  foldl (λ extra a, <[a_id a := share remaining T a]> extra) extra act
  = put_all extra ((λ a, (a, share remaining T a)) <$> act).
Proof. revert extra. induction act as [|a act IH]; intros extra; [done|]. apply IH. Qed.

Lemma firsts {A B} (f : A → A * B) l : (∀ a, (f a).1 = a) → (f <$> l).*1 = l.
Proof. intros Hf. induction l as [|a l IH]; [done|]. rewrite !fmap_cons, Hf. by f_equal. Qed.

Lemma room_bound act : acts_ok act → (room act <= 4398046511104)%Z.
Proof.
  intros [Hok Hn]. assert (room act <= Z.of_nat (length act) * 4294967296)%Z; [|lia]. clear Hn.
  induction Hok as [|a act [Ha _] _ IH]; [done|]. unfold room. rewrite sumZ_cons. fold (room act). cbn [length]. lia.
Qed.

(** A pass that caps any leaves fewer; so the passes end, whatever the floats. *)
Lemma cap_fold_shape remaining totalW act extra used next capped :
  let '(_, _, next', capped') := foldl (cap_step remaining totalW) (extra, used, next, capped) act in
  (length next' ≤ length next + length act)%nat ∧
  (capped' = true → capped = true ∨ (length next' < length next + length act)%nat).
Proof.
  revert extra used next capped. induction act as [|a act IH]; intros extra used next capped; cbn [foldl].
  { split; [lia|by left]. }
  cbn [cap_step]. destruct (reaches remaining totalW a).
  - specialize (IH (<[a_id a := of_int (a_headroom a)]> extra) (fadd used (of_int (a_headroom a))) next true).
    destruct (foldl _ _ _) as [[[? ?] next'] capped']. cbn [length]. split; [lia|]. intros _. right. lia.
  - specialize (IH extra used (next ++ [a]) capped). rewrite length_app in IH. destruct (foldl _ _ _) as [[[? ?] next'] capped'].
    cbn [length] in *. split; [lia|]. intros Hc. destruct IH as [_ [?|?]]; [done|by left|right; lia].
Qed.

Lemma water_fill_ends fuel act remaining extra : (length act ≤ fuel)%nat → is_Some (water_fill fuel act remaining extra).
Proof.
  revert act remaining extra. induction fuel as [|fuel IH]; intros act remaining extra Hf.
  { destruct act; [by eexists|simpl in Hf; lia]. }
  cbn [water_fill]. case_match; [by eexists|]. case_match; [by eexists|].
  pose proof (cap_fold_shape remaining (total_weight act) act extra f0 [] false) as Hs.
  destruct (foldl _ _ _) as [[[extra' used] next] capped]. destruct capped; [|by eexists].
  apply IH. destruct Hs as [_ [?|Hlt]]; [done|done|]. cbn [length] in Hlt. lia.
Qed.

(** The loop ends within as many passes as there are models to fill, and gives out,
    up to the error of the shares, all there is or all they can take. *)
Lemma water_fill_spec fuel act remaining G extra :
  holds remaining G → (0 <= G <= 4294967296)%Z → acts_ok act → (length act <= fuel)%nat →
  ∃ new, water_fill fuel act remaining extra = Some (put_all extra new) ∧ new.*1 ⊆+ act ∧ Forall good new ∧
    Rabs (sumR new.*2 - IZR (Z.min G (room act))) <= gamma * 4294967296.
Proof.
  revert act remaining G extra. induction fuel as [|fuel IH]; intros act remaining G extra Hr HG Hact Hf.
  all: assert (Hnone : act = [] ∨ G = 0%Z → Z.min G (room act) = 0%Z)
    by (pose proof (room_pos act (proj1 Hact)); intros [->| ->]; [change (room []) with 0%Z|]; lia).
  all: assert (Hnil : Z.min G (room act) = 0%Z → Rabs (sumR (@nil (active * float64)).*2 - IZR (Z.min G (room act))) <= gamma * 4294967296)
    by (intros ->; simpl; rewrite Rminus_0_r, Rabs_R0; destruct gamma_small; lra).
  { destruct act; [|simpl in Hf; lia]. exists []. split_and!; [done|done|done|auto]. }
  cbn [water_fill]. rewrite (remaining_left remaining G Hr). case_bool_decide as Hne.
  { exists []. split_and!; [done|apply submseteq_nil_l|done|auto]. }
  destruct (Z.ltb_spec 0 G) as [HG0|HG0]; cbn [orb negb]; [|exists []; split_and!; [done|apply submseteq_nil_l|done|apply Hnil, Hnone; lia]].
  clear Hnone Hnil. rewrite total_weight_pos by done. set (T := total_weight act).
  destruct (cap_fold remaining T act extra f0 0 [] false) as (used & -> & Hu);
    [split; [split; [done|simpl; lra]|done]|by destruct Hact| |].
  { pose proof (room_bound act Hact). lia. }
  cbn [orb app]. case_bool_decide as Hcs; cbn [negb].
  - destruct (open_good remaining G act Hr ltac:(lia) Hact Hne Hcs) as (Hg & Hroom & Hsum). fold T in Hg, Hsum.
    eexists. split_and!; [|..|exact Hg|rewrite Z.min_l by done; exact Hsum].
    + rewrite Hcs. by rewrite put_shares.
    + by rewrite firsts.
  - pose proof (capped_within remaining G act Hr ltac:(lia) Hact Hne) as Hle. fold T in Hle.
    set (cs := capped_of remaining T act) in *. set (os := open_of remaining T act) in *.
    pose proof (split_perm remaining T act) as Hp. fold cs os in Hp.
    assert (Hoks : Forall act_ok cs ∧ Forall act_ok os) by (apply Forall_app; rewrite <- Hp; by destruct Hact).
    pose proof (room_perm _ _ Hp) as Hroom. rewrite room_app in Hroom. pose proof (room_pos cs (proj1 Hoks)).
    assert (Hlen : (length act = length cs + length os)%nat) by (rewrite <- length_app; by apply Permutation_length).
    assert (0 < length cs)%nat by (destruct cs; [done|simpl; lia]). destruct Hact as [Hok Hn].
    destruct (IH os (fsub remaining used) (G - room cs)%Z (put_all extra (at_headroom <$> cs))) as (new & -> & Hsub & Hgood & Hsum).
    { apply holds_sub; [done|done|lia]. }
    { lia. }
    { split; [apply Hoks|lia]. }
    { lia. }
    destruct (at_headroom_sum cs (proj1 Hoks)) as [Hcg Hcsum].
    exists ((at_headroom <$> cs) ++ new). split_and!.
    + unfold put_all. by rewrite foldl_app.
    + rewrite fmap_app, firsts by done. rewrite Hp. by apply submseteq_app.
    + by apply Forall_app.
    + rewrite fmap_app, sumR_app, Hcsum, Hroom. replace (Z.min G (room cs + room os))%Z with (room cs + Z.min (G - room cs) (room os))%Z by lia.
      rewrite plus_IZR. replace (_ + _ - _) with (sumR new.*2 - IZR (Z.min (G - room cs) (room os))) by lra. done.
Qed.

(** ** Rounding to whole GPUs *)
Section whole.
Context {C : IntConv}.

Definition whole (e : float64) : Z := int_of (math_Floor e).

Lemma whole_spec p : act_ok p.1 → good p → (0 <= whole p.2 <= a_headroom p.1)%Z ∧ IZR (whole p.2) <= F2R p.2 < IZR (whole p.2) + 1.
Proof.
  intros [Hh _] [[Hn _] Hlt]. assert (IZR (a_headroom p.1) <= 4294967296) by (apply IZR_le; lia).
  destruct (int_floor_spec p.2 Hn) as [H0 H1]; [lra|]. fold (whole p.2) in H0, H1. split; [|done]. split; [done|].
  apply Z.lt_succ_r, lt_IZR. rewrite succ_IZR. lra.
Qed.

(** Whether a model can take one more after its whole GPUs. *)
Definition opens (p : active * float64) : Z := if (whole p.2 <? a_headroom p.1)%Z then 1 else 0.

Lemma wholes_below new :
  Forall (λ p, act_ok p.1) new → Forall good new →
  IZR (sumZ (λ p, whole p.2) new) <= sumR new.*2 <=
    IZR (sumZ (λ p, whole p.2) new) + IZR (sumZ opens new) + IZR (Z.of_nat (length new)) * / 65536.
Proof.
  intros Hok. induction Hok as [|p new Hp _ IH]; intros Hg.
  { change (sumZ (λ p : active * float64, whole p.2) []) with 0%Z. change (sumZ opens []) with 0%Z.
    change (IZR (Z.of_nat (length (@nil (active * float64))))) with 0. change (sumR (@nil (active * float64)).*2) with 0. lra. }
  inversion_clear Hg as [|? ? Hp' Hg']. specialize (IH Hg'). destruct (whole_spec p Hp Hp') as [Hw [H1 H2]].
  rewrite !sumZ_cons, !plus_IZR, fmap_cons. cbn [sumR foldr length]. fold (sumR new.*2). rewrite Nat2Z.inj_succ, succ_IZR.
  assert (F2R p.2 <= IZR (whole p.2) + IZR (opens p) + / 65536); [|lra]. unfold opens.
  destruct (Z.ltb_spec (whole p.2) (a_headroom p.1)) as [Hlt|Hge]; [lra|]. destruct Hp' as [_ Hlt].
  replace (whole p.2) with (a_headroom p.1) by lia. lra.
Qed.

(** The total rounds to the GPUs there are to give, and what the whole parts leave of
    it is no more than the models that can take one. *)
Lemma rounding_exact new l G :
  Forall (λ p, act_ok p.1) new → Forall good new → (length new <= 1024)%nat → (0 <= G <= 4294967296)%Z →
  Rabs (sumR new.*2 - IZR G) <= gamma * 4294967296 → l ≡ₚ new.*2 →
  int_of (math_Round (foldl fadd f0 l)) = G ∧ (0 <= G - sumZ (λ p, whole p.2) new <= sumZ opens new)%Z.
Proof.
  intros Hok Hg Hn HG Hs Hl. pose proof (sumR_perm _ _ Hl) as Hsum. pose proof (Permutation_length Hl) as Hlen. rewrite length_fmap in Hlen.
  assert (Hterm : Forall term l).
  { rewrite Hl. apply Forall_fmap. eapply Forall_impl; [exact Hg|]. by intros ? [? _]. }
  destruct gamma_small as [Hg0 Hg1]. apply Rabs_le_inv in Hs. assert (HGR : 0 <= IZR G <= 4294967296) by (split; apply IZR_le; lia).
  destruct (sum_near l Hterm) as [Hz0 Hz]; [|lia|].
  { pose proof (bpow_le 33 899 ltac:(lia)) as Hb. rewrite (bpow_IZR 33) in Hb by lia. change (IZR (2 ^ 33)) with 8589934592 in Hb. lra. }
  pose proof (sumR_nonneg l Hterm) as Hs0.
  assert (Herr : 2 * IZR (Z.of_nat (length l)) * unit * sumR l <= / 16).
  { assert (HlR : 0 <= IZR (Z.of_nat (length l)) <= 1024) by (split; apply IZR_le; lia). pose proof unit_exact. destruct unit_small_pos as [Hu0 _].
    apply (Rle_trans _ (2 * 1024 * unit * 8589934592)); [|lra].
    apply Rmult_le_compat; [|done| |lra]; [apply Rmult_le_pos; lra|apply Rmult_le_compat_r; lra]. }
  apply Rabs_le_inv in Hz. set (z := foldl fadd f0 l) in *. destruct (int_round_spec z Hz0) as [Hr0 Hr]; [lra|].
  assert (HGeq : int_of (math_Round z) = G).
  { assert (IZR G - 1 < IZR (int_of (math_Round z)) < IZR G + 1) as [H1 H2] by lra.
    rewrite <- minus_IZR in H1. rewrite <- plus_IZR in H2. apply lt_IZR in H1, H2. lia. }
  split; [done|]. pose proof (wholes_below new Hok Hg) as [Hw1 Hw2]. rewrite <- Hsum in Hw1, Hw2, Hs.
  assert (IZR (Z.of_nat (length new)) <= 1024) by (apply IZR_le; lia).
  assert (Hlo : (sumZ (λ p, whole p.2) new < G + 1)%Z) by (apply lt_IZR; rewrite plus_IZR; lra).
  assert (Hhi : (G < sumZ (λ p, whole p.2) new + sumZ opens new + 1)%Z) by (apply lt_IZR; rewrite !plus_IZR; lra). lia.
Qed.
End whole.

Open Scope Z_scope.
Section apportion.
Context {C : IntConv}.

(** What the hand-out does: it only raises, up to the caps, by what it can_take off the
    leftover, and it stops at none left or with every key raised that could be. *)
Record handed (capOf out out' : gmap string Z) (n n' : Z) (ks : list string) : Prop := {
  hd_left : 0 ≤ n';
  hd_sum : sumZ (λ k, target_of out' k - target_of out k) ks = n - n';
  hd_range : ∀ k, target_of out k ≤ target_of out' k ≤ Z.max (target_of out k) (target_of capOf k);
  hd_frame : ∀ k, k ∉ ks → out' !! k = out !! k;
  hd_done : n' = 0 ∨ ∀ k, k ∈ ks → target_of out k < target_of capOf k → target_of out k < target_of out' k }.

Lemma handed_skip capOf out out' n n' k ks :
  k ∉ ks → n = 0 ∨ target_of capOf k ≤ target_of out k → handed capOf out out' n n' ks → handed capOf out out' n n' (k :: ks).
Proof.
  intros Hk Hs [H1 H2 H3 H4 H5]. assert (E : target_of out' k = target_of out k) by (unfold target_of; by rewrite H4).
  assert (0 ≤ sumZ (λ k, target_of out' k - target_of out k) ks) by (apply sumZ_nonneg; intros j _; specialize (H3 j); lia).
  split; [done|rewrite sumZ_cons; lia|done|intros j Hj; apply H4; set_solver|].
  destruct H5 as [H5|H5]; [by left|]. destruct Hs as [->|Hs]; [left; lia|right]. intros j [->|Hj]%elem_of_cons; [lia|auto].
Qed.

Lemma handed_take capOf out out' n n' k ks :
  k ∉ ks → target_of out k < target_of capOf k →
  handed capOf (<[k := target_of out k + 1]> out) out' (n - 1) n' ks → (∀ j, j ∈ ks → j ≠ k) → handed capOf out out' n n' (k :: ks).
Proof.
  intros Hk Hlt [H1 H2 H3 H4 H5] Hne. set (out1 := <[k := _]> out) in *.
  assert (E : ∀ j, target_of out1 j = if decide (k = j) then target_of out k + 1 else target_of out j).
  { intros j. unfold out1, target_of. rewrite lookup_insert. by case_decide. }
  assert (Ek : target_of out' k = target_of out k + 1).
  { unfold target_of at 1. rewrite (H4 k Hk). unfold out1. by rewrite lookup_insert_eq. }
  split; [done| | | |].
  - rewrite sumZ_cons. rewrite (sumZ_ext _ (λ k, target_of out' k - target_of out1 k) ks); [lia|].
    intros j Hj. rewrite E, decide_False; [done|]. intros <-. by apply (Hne k).
  - intros j. specialize (H3 j). rewrite E in H3. case_decide; [subst; lia|lia].
  - intros j Hj. rewrite H4 by set_solver. unfold out1. apply lookup_insert_ne. set_solver.
  - destruct H5 as [H5|H5]; [by left|right]. intros j [->|Hj]%elem_of_cons; [lia|].
    specialize (H5 j Hj). rewrite E, decide_False in H5; [done|]. intros <-. by apply (Hne k).
Qed.

Lemma apportion_fold capOf out n order :
  NoDup order.*1 → (∀ k, k ∈ order.*1 → is_Some (capOf !! k)) → 0 ≤ n ≤ 9007199254740992 →
  (∀ k, 0 ≤ target_of out k ≤ 9007199254740992) → (∀ k, target_of capOf k ≤ 9007199254740992) →
  let '(out', n') := foldl (apportion_step (Some capOf)) (out, n) order in handed capOf out out' n n' order.*1.
Proof.
  revert out n. induction order as [|[k x] order IH]; intros out n Hnd Hcap Hn Hout Hc.
  { cbn [foldl]. split; [lia|change (sumZ _ _) with 0; lia|intros k; lia|done|]. right. intros k Hk. by apply elem_of_nil in Hk. }
  rewrite fmap_cons in *. cbn [fst] in *. apply NoDup_cons in Hnd as [Hk Hnd].
  assert (Hcap' : ∀ j, j ∈ order.*1 → is_Some (capOf !! j)) by (intros j Hj; apply Hcap; by right).
  cbn [foldl]. unfold apportion_step at 2. cbn [fst mbind option_bind].
  destruct (Hcap k) as [c Ec]; [by left|]. rewrite Ec. fold (target_of out k).
  assert (Hck : target_of capOf k = c) by (unfold target_of; by rewrite Ec). pose proof (Hout k). pose proof (Hc k).
  assert (Hskip : n = 0 ∨ c ≤ target_of out k →
    let '(out', n') := foldl (apportion_step (Some capOf)) (out, n) order in handed capOf out out' n n' (k :: order.*1)).
  { intros Hs. specialize (IH out n Hnd Hcap' Hn Hout Hc). destruct (foldl _ _ _) as [out' n']. apply handed_skip; [done|lia|done]. }
  destruct (Z.leb_spec n 0); [apply Hskip; lia|]. destruct (Z.leb_spec c (target_of out k)) as [Hge|Hlt]; [apply Hskip; lia|]. clear Hskip.
  rewrite !wrap_id by (unfold in_int, int_min, int_max; lia).
  specialize (IH (<[k := target_of out k + 1]> out) (n - 1) Hnd Hcap' ltac:(lia)).
  destruct (foldl _ _ _) as [out' n']. apply handed_take; [done|lia|apply IH|intros j Hj ->; done]; [|done].
  intros j. pose proof (Hout j). unfold target_of in *. rewrite lookup_insert. case_decide; simpl; lia.
Qed.
End apportion.

Lemma round_fold {C : IntConv} rl t rem tf sw :
  NoDup rl.*1 → (∀ p, p ∈ rl → 0 ≤ whole p.2 ≤ 4294967296) → (∀ k, 0 ≤ target_of t k ≤ 4294967296) →
  0 ≤ sw → sw + sumZ (λ p, whole p.2) rl ≤ 9007199254740992 →
  foldl round_step (t, rem, tf, sw) rl =
    (foldl (λ m p, <[p.1 := target_of t p.1 + whole p.2]> m) t rl, foldl (λ m p, <[p.1 := fsub p.2 (of_int (whole p.2))]> m) rem rl,
     foldl fadd tf rl.*2, sw + sumZ (λ p, whole p.2) rl).
Proof.
  intros Hnd Hw Ht Hsw. induction rl as [|[k e] rl IH] using rev_ind; intros Hs.
  { change (sumZ _ []) with 0. by rewrite Z.add_0_r. }
  rewrite fmap_app in Hnd. apply NoDup_app in Hnd as (Hnd & Hk & _). rewrite sumZ_app in Hs. rewrite sumZ_app.
  change (sumZ (λ p : string * float64, whole p.2) [(k, e)]) with (whole e + 0) in *.
  assert (0 ≤ whole e ≤ 4294967296) by (apply (Hw (k, e)); set_solver).
  assert (0 ≤ sumZ (λ p, whole p.2) rl) by (apply sumZ_nonneg; intros p Hp; apply Hw; set_solver).
  rewrite foldl_app, IH; [|done|intros; apply Hw; set_solver|lia]. rewrite fmap_app, !foldl_app. cbn [foldl fst snd fmap list_fmap round_step].
  destruct (insert_all_lookup fst (λ p, target_of t p.1 + whole p.2) rl t Hnd) as [_ Hf].
  rewrite (Hf k); [|intros Hin; apply (Hk k Hin); by left]. fold (target_of t k) (whole e). specialize (Ht k).
  rewrite !wrap_id by (unfold in_int, int_min, int_max; lia). by rewrite Z.add_0_r, Z.add_assoc.
Qed.

(** What the whole parts leave of each extra. *)
Definition remainders {C : IntConv} (l : list (string * float64)) : gmap string float64 :=
  foldl (λ m p, <[p.1 := fsub p.2 (of_int (whole p.2))]> m) ∅ l.

(** ** The inputs of a split *)

(** How much a model can take above its floor. *)
Definition can_take (m : rescaleInput) : Z := if flt f0 (weight_of m) then Z.max 0 (CapGPUs m - FloorGPUs m) else 0.

Record split_ok (inp : list rescaleInput) (budget : Z) : Prop := {
  so_ids : NoDup (ri_ID <$> inp);
  so_length : (length inp ≤ 1024)%nat;
  so_budget : budget ≤ 4294967296;
  so_counts : ∀ m, m ∈ inp → 0 ≤ FloorGPUs m ≤ 4294967296 ∧ 0 ≤ CapGPUs m ≤ 4294967296;
  so_weights : ∀ m, m ∈ inp → flt f0 (weight_of m) = true →
    nonneg (weight_of m) ∧ (bpow (-400) <= F2R (weight_of m) <= bpow 400)%R }.

Lemma headroom_room m : 0 ≤ FloorGPUs m ≤ 4294967296 → 0 ≤ CapGPUs m ≤ 4294967296 → headroom_of m = Z.max 0 (CapGPUs m - FloorGPUs m).
Proof.
  intros H1 H2. unfold headroom_of. rewrite wrap_id by (unfold in_int, int_min, int_max; lia). case_match; lia.
Qed.

Section inputs.
Context (inp : list rescaleInput) (budget : Z).
Hypothesis Hok : split_ok inp budget.

#[local] Notation act := (omap active_of inp).

Lemma active_spec m a : m ∈ inp → active_of m = Some a →
  a_id a = ri_ID m ∧ act_ok a ∧ CapGPUs m = FloorGPUs m + a_headroom a ∧ can_take m = a_headroom a.
Proof using Hok.
  intros Hm. destruct (so_counts _ _ Hok m Hm) as [Hf Hc]. unfold active_of, can_take. rewrite headroom_room by done.
  destruct (flt f0 (weight_of m)) eqn:E; [|done]. destruct (Z.ltb_spec 0 (Z.max 0 (CapGPUs m - FloorGPUs m))); [|done].
  intros [= <-]. cbn. split_and!; [done| |lia|done]. split; [cbn; lia|]. by apply (so_weights _ _ Hok m Hm).
Qed.

Lemma idle_takes m : m ∈ inp → active_of m = None → can_take m = 0.
Proof using Hok.
  intros Hm. destruct (so_counts _ _ Hok m Hm) as [Hf Hc]. unfold active_of, can_take. rewrite headroom_room by done.
  destruct (flt f0 (weight_of m)); [|done]. destruct (Z.ltb_spec 0 (Z.max 0 (CapGPUs m - FloorGPUs m))); [done|lia].
Qed.

Lemma active_in a : a ∈ act → ∃ m, m ∈ inp ∧ active_of m = Some a.
Proof. rewrite list_elem_of_omap. naive_solver. Qed.

Lemma acts_fine : acts_ok act.
Proof using Hok.
  split.
  - apply Forall_forall. intros a (m & Hm & Ha)%active_in. by apply (active_spec m a).
  - etrans; [|apply (so_length _ _ Hok)]. clear. induction inp as [|m l IH]; [done|]. cbn. destruct (active_of m); cbn; lia.
Qed.

Lemma active_ids : NoDup (a_id <$> act).
Proof using Hok.
  pose proof (so_ids _ _ Hok) as Hn. assert (Hid : ∀ m a, active_of m = Some a → a_id a = ri_ID m).
  { intros m a. unfold active_of. case_match; [|done]. by intros [= <-]. }
  clear Hok. induction inp as [|m l IH]; [constructor|]. rewrite fmap_cons in Hn. apply NoDup_cons in Hn as [Hm Hn].
  cbn. destruct (active_of m) as [a|] eqn:E; [|auto]. cbn. apply NoDup_cons. split; [|auto].
  rewrite (Hid m a E). intros (b & Eb & Hb)%list_elem_of_fmap. apply list_elem_of_omap in Hb as (x & Hx & Ex).
  apply Hm. rewrite Eb, (Hid x b Ex). by apply list_elem_of_fmap_2.
Qed.

Lemma room_takes : room act = sumZ can_take inp.
Proof using Hok.
  pose proof active_spec as Hs. pose proof idle_takes as Hi. clear Hok. induction inp as [|m l IH]; [done|].
  rewrite sumZ_cons, <- (IH (λ x a Hx, Hs x a (list_elem_of_further _ _ _ Hx)) (λ x Hx, Hi x (list_elem_of_further _ _ _ Hx))).
  cbn [omap list_omap].
  destruct (active_of m) as [a|] eqn:E.
  - destruct (Hs m a ltac:(by left) E) as (_ & _ & _ & ->). unfold room. by rewrite sumZ_cons.
  - rewrite (Hi m ltac:(by left) E). lia.
Qed.

Lemma floors_sum : foldl (λ s m, s ⊞ FloorGPUs m) 0 inp = sumZ FloorGPUs inp ∧ 0 ≤ sumZ FloorGPUs inp ≤ 4398046511104.
Proof using Hok.
  assert (Hr : 0 ≤ sumZ FloorGPUs inp ≤ Z.of_nat (length inp) * 4294967296).
  { pose proof (so_counts _ _ Hok) as Hc. clear Hok. induction inp as [|m l IH]; [done|]. rewrite sumZ_cons. cbn [length].
    destruct (Hc m ltac:(by left)) as [? _]. specialize (IH (λ x Hx, Hc x (list_elem_of_further _ _ _ Hx))). lia. }
  pose proof (so_length _ _ Hok). split; [|lia].
  rewrite foldl_wrap_sum by done. by rewrite wrap_id by (unfold in_int, int_min, int_max; lia).
Qed.

(** ** What a split gives *)
Section result.
Context `{GoSort} `{MapRange} {C : IntConv}.
Context (new : list (active * float64)).
Hypothesis Hsub : new.*1 ⊆+ act.
Hypothesis Hgood : Forall good new.

#[local] Notation floors := (foldl (λ (t : gmap string Z) m, <[ri_ID m := FloorGPUs m]> t) ∅ inp).
#[local] Notation caps := (foldl (λ (t : gmap string Z) m, <[ri_ID m := CapGPUs m]> t) ∅ inp).
#[local] Notation entries := ((λ p : active * float64, (a_id p.1, p.2)) <$> new).

Lemma new_keys : entries.*1 = a_id <$> new.*1.
Proof. by rewrite <- !list_fmap_compose. Qed.

Lemma new_NoDup : NoDup (a_id <$> new.*1).
Proof using Hok Hsub.
  destruct (submseteq_Permutation _ _ Hsub) as [k Hk]. pose proof active_ids as Hn. rewrite Hk, fmap_app in Hn. by apply NoDup_app in Hn as [? _].
Qed.

(** An entry's model. *)
Lemma new_model p : p ∈ new → ∃ m, m ∈ inp ∧ a_id p.1 = ri_ID m ∧ act_ok p.1 ∧ CapGPUs m = FloorGPUs m + a_headroom p.1 ∧
  can_take m = a_headroom p.1 ∧ 0 ≤ whole p.2 ≤ a_headroom p.1.
Proof using Hok Hsub Hgood.
  intros Hp. assert (Ha : p.1 ∈ act) by (apply (elem_of_submseteq new.*1); [by apply list_elem_of_fmap_2|done]).
  apply active_in in Ha as (m & Hm & Ha). destruct (active_spec m p.1 Hm Ha) as (E1 & E2 & E3 & E4). exists m.
  rewrite Forall_forall in Hgood. destruct (whole_spec p E2 (Hgood p Hp)) as [Hw _]. done.
Qed.

Lemma floor_at m : m ∈ inp → target_of floors (ri_ID m) = FloorGPUs m ∧ caps !! ri_ID m = Some (CapGPUs m).
Proof using Hok.
  intros Hm. split; [|by apply (insert_all_lookup ri_ID CapGPUs inp ∅ (so_ids _ _ Hok))].
  unfold target_of. by rewrite (proj1 (insert_all_lookup ri_ID FloorGPUs inp ∅ (so_ids _ _ Hok)) m Hm).
Qed.

Lemma floor_range k : 0 ≤ target_of floors k ≤ 4294967296 ∧ target_of caps k ≤ 4294967296.
Proof using Hok.
  destruct (decide (k ∈ ri_ID <$> inp)) as [(m & -> & Hm)%list_elem_of_fmap|Hk].
  - destruct (floor_at m Hm) as [-> Ec]. unfold target_of. rewrite Ec. destruct (so_counts _ _ Hok m Hm). simpl. lia.
  - unfold target_of. rewrite (proj2 (insert_all_lookup ri_ID FloorGPUs inp ∅ (so_ids _ _ Hok)) k Hk).
    rewrite (proj2 (insert_all_lookup ri_ID CapGPUs inp ∅ (so_ids _ _ Hok)) k Hk), !lookup_empty. simpl. lia.
Qed.

(** The targets once the whole parts are in, and once the rest is handed out. *)
Lemma rounded_spec extra G :
  extra = put_all ∅ new → 0 ≤ G ≤ 4294967296 → (Rabs (sumR new.*2 - IZR G) <= gamma * 4294967296)%R →
  ∃ t1, roundExtras inp extra floors = apportionLeftover t1
      (remainders (range extra)) (G - sumZ (λ p, whole p.2) new) (Some caps) ∧
    0 ≤ G - sumZ (λ p, whole p.2) new ≤ sumZ opens new ∧
    (∀ p, p ∈ new → target_of t1 (a_id p.1) = target_of floors (a_id p.1) + whole p.2) ∧
    (∀ k, k ∉ a_id <$> new.*1 → t1 !! k = floors !! k).
Proof using Hok Hsub Hgood.
  intros -> HG Hsum. unfold put_all. set (extra := foldl _ ∅ new).
  assert (Hp : range extra ≡ₚ entries).
  { rewrite range_perm. unfold extra. rewrite (insert_all_list (λ p : active * float64, a_id p.1) (λ p, p.2) new ∅).
    - by rewrite map_to_list_empty, app_nil_r.
    - pose proof new_NoDup as Hn. by rewrite <- list_fmap_compose in Hn.
    - done. }
  assert (Hlen : (length new ≤ 1024)%nat).
  { destruct acts_fine as [_ Hn]. apply submseteq_length in Hsub. rewrite length_fmap in Hsub. lia. }
  assert (Hacts : Forall (λ p, act_ok p.1) new) by (apply Forall_forall; intros p Hin; by destruct (new_model p Hin) as (? & ? & ? & ? & ?)).
  destruct (rounding_exact new (range extra).*2 G Hacts Hgood Hlen HG Hsum) as [Hr Hn].
  { by rewrite Hp, <- list_fmap_compose. }
  assert (Hnd : NoDup (range extra).*1) by (rewrite Hp, new_keys; apply new_NoDup).
  assert (Hws : sumZ (λ p, whole p.2) (range extra) = sumZ (λ p, whole p.2) new) by (by rewrite Hp, sumZ_fmap).
  assert (Hw0 : 0 ≤ sumZ (λ p, whole p.2) new) by (apply sumZ_nonneg; intros p Hin; destruct (new_model p Hin) as (? & ?); naive_solver).
  unfold roundExtras. rewrite round_fold; [|done| | |lia|lia].
  - rewrite Hr, Z.add_0_l, Hws. rewrite wrap_id by (unfold in_int, int_min, int_max; lia). eexists. split_and!; [done|lia|lia| |].
    + intros p Hin. assert (Hin' : (a_id p.1, p.2) ∈ range extra) by (rewrite Hp; by apply (list_elem_of_fmap_2 (λ p : active * float64, (a_id p.1, p.2)))).
      unfold target_of at 1. by rewrite (proj1 (insert_all_lookup fst (λ p, target_of floors p.1 + whole p.2) (range extra) floors Hnd) _ Hin').
    + intros k Hk. apply (insert_all_lookup fst (λ p, target_of floors p.1 + whole p.2) (range extra) floors Hnd). by rewrite Hp, new_keys.
  - intros p. rewrite Hp. intros (q & -> & Hq)%list_elem_of_fmap. destruct (new_model q Hq) as (? & ? & ? & [? _] & ? & ? & ?). cbn. lia.
  - intros k. apply floor_range.
Qed.

Lemma handed_perm capOf out out' n n' ks ks' : ks ≡ₚ ks' → handed capOf out out' n n' ks → handed capOf out out' n n' ks'.
Proof.
  intros Hp [H1 H2 H3 H4 H5]. split; [done|by rewrite <- Hp|done|intros k; rewrite <- Hp; apply H4|].
  destruct H5 as [H5|H5]; [by left|right]. intros k. rewrite <- Hp. apply H5.
Qed.

(** All of the leftover is handed out. *)
Lemma handed_all t1 t2 n n' :
  handed caps t1 t2 n n' (a_id <$> new.*1) → n ≤ sumZ opens new →
  (∀ p, p ∈ new → target_of t1 (a_id p.1) = target_of floors (a_id p.1) + whole p.2) → n' = 0.
Proof using Hok Hsub Hgood.
  intros [H1 H2 H3 _ [H5|H5]] Hn Ht; [done|]. assert (Hge : sumZ opens new ≤ n - n'); [|lia].
  rewrite <- H2, <- list_fmap_compose, sumZ_fmap. apply sumZ_le. intros p Hp. cbn. unfold opens.
  destruct (new_model p Hp) as (m & Hm & Ea & _ & Ec & _ & Hw). destruct (floor_at m Hm) as [Ef Ecap]. specialize (Ht p Hp).
  assert (Ek : target_of caps (a_id p.1) = CapGPUs m) by (unfold target_of; by rewrite Ea, Ecap).
  rewrite <- Ea in Ef. specialize (H3 (a_id p.1)). rewrite Ek in H3.
  assert (Hin : a_id p.1 ∈ a_id <$> new.*1) by (by apply list_elem_of_fmap_2, list_elem_of_fmap_2).
  specialize (H5 (a_id p.1) Hin). rewrite Ek in H5. destruct (Z.ltb_spec (whole p.2) (a_headroom p.1)); lia.
Qed.

Lemma apportioned t1 n :
  NoDup (range (put_all ∅ new)).*1 → (range (put_all ∅ new)).*1 ≡ₚ a_id <$> new.*1 →
  0 ≤ n ≤ 4294967296 → n ≤ sumZ opens new →
  (∀ p, p ∈ new → target_of t1 (a_id p.1) = target_of floors (a_id p.1) + whole p.2) →
  (∀ k, k ∉ a_id <$> new.*1 → t1 !! k = floors !! k) →
  handed caps t1 (apportionLeftover t1 (remainders (range (put_all ∅ new))) n (Some caps)) n 0 (a_id <$> new.*1).
Proof using Hok Hsub Hgood.
  intros Hnd Hp Hn Hopen Ht Hfr. unfold apportionLeftover. set (rem := remainders _).
  assert (Ht1 : ∀ k, 0 ≤ target_of t1 k ≤ 9007199254740992).
  { intros k. destruct (decide (k ∈ a_id <$> new.*1)) as [(a & -> & (p & -> & Hin)%list_elem_of_fmap)%list_elem_of_fmap|Hk].
    - rewrite (Ht p Hin). destruct (floor_range (a_id p.1)). destruct (new_model p Hin) as (? & ? & ? & [? _] & ? & ? & ?). lia.
    - unfold target_of. rewrite (Hfr k Hk). fold (target_of floors k). destruct (floor_range k). lia. }
  assert (Hord : (sort_slice (less_by kr_compare) (range rem)).*1 ≡ₚ a_id <$> new.*1).
  { rewrite <- Hp, sort_slice_perm, range_perm. unfold rem, remainders.
    rewrite (insert_all_list fst (λ p, fsub p.2 (of_int (whole p.2))) (range (put_all ∅ new)) ∅ Hnd) by done.
    by rewrite map_to_list_empty, app_nil_r, <- list_fmap_compose. }
  destruct (Z.leb_spec n 0) as [Hz|Hz].
  { assert (n = 0) as -> by lia. split; [done|rewrite (sumZ_ext _ (λ _, 0)), sumZ_zero; [done|intros; lia]|intros; lia|done|by left]. }
  pose proof (apportion_fold caps t1 n (sort_slice (less_by kr_compare) (range rem))) as Hf.
  destruct (foldl (apportion_step (Some caps)) _ _) as [t2 n']. cbn [fst].
  assert (Hh : handed caps t1 t2 n n' (a_id <$> new.*1)).
  { eapply handed_perm; [exact Hord|]. apply Hf; [rewrite Hord; apply new_NoDup| |lia|done|].
    - intros k. rewrite Hord. intros (a & -> & (p & -> & Hin)%list_elem_of_fmap)%list_elem_of_fmap.
      destruct (new_model p Hin) as (m & Hm & -> & _). destruct (floor_at m Hm) as [_ ->]. by eexists.
    - intros k. destruct (floor_range k). lia. }
  by rewrite <- (handed_all t1 t2 n n' Hh Hopen Ht).
Qed.

Lemma split_result G t1 t2 n :
  handed caps t1 t2 n 0 (a_id <$> new.*1) → n = G - sumZ (λ p, whole p.2) new →
  (∀ p, p ∈ new → target_of t1 (a_id p.1) = target_of floors (a_id p.1) + whole p.2) →
  (∀ k, k ∉ a_id <$> new.*1 → t1 !! k = floors !! k) →
  (∀ m, m ∈ inp → FloorGPUs m ≤ target_of t2 (ri_ID m) ≤ FloorGPUs m + can_take m) ∧
  sumZ (λ m, target_of t2 (ri_ID m)) inp = sumZ FloorGPUs inp + G.
Proof using Hok Hsub Hgood.
  intros [_ H2 H3 H4 _] -> Ht Hfr. split.
  - intros m Hm. destruct (floor_at m Hm) as [Ef Ecap]. destruct (decide (ri_ID m ∈ a_id <$> new.*1)) as [Hin|Hk].
    + apply list_elem_of_fmap in Hin as (a & Ea & (p & -> & Hin)%list_elem_of_fmap).
      destruct (new_model p Hin) as (m' & Hm' & Ea' & _ & Ec & Etk & Hw).
      assert (m' = m) as -> by (apply (fmap_inj_NoDup ri_ID inp); [apply (so_ids _ _ Hok)|done|done|congruence]).
      assert (Ek : target_of caps (ri_ID m) = CapGPUs m) by (unfold target_of; by rewrite Ecap).
      specialize (H3 (ri_ID m)). specialize (Ht p Hin). rewrite <- Ea, Ef in Ht. rewrite Ek, Ht in H3. lia.
    + assert (E : target_of t2 (ri_ID m) = FloorGPUs m) by (rewrite <- Ef; unfold target_of; by rewrite H4, Hfr).
      rewrite E. unfold can_take. case_match; lia.
  - assert (Hs : sumZ (λ k, target_of t2 k - target_of floors k) (ri_ID <$> inp) = G).
    { rewrite (sumZ_support _ _ (a_id <$> new.*1)).
      - rewrite (sumZ_ext _ (λ k, (target_of t2 k - target_of t1 k) + (target_of t1 k - target_of floors k))) by (intros; lia).
        rewrite sumZ_plus, H2. assert (E : sumZ (λ k, target_of t1 k - target_of floors k) (a_id <$> new.*1) = sumZ (λ p, whole p.2) new);
          [|rewrite E; lia].
        rewrite <- list_fmap_compose, sumZ_fmap. apply sumZ_ext. intros p Hp. cbn. rewrite (Ht p Hp). lia.
      - apply (so_ids _ _ Hok).
      - apply new_NoDup.
      - intros k (a & -> & (p & -> & Hin)%list_elem_of_fmap)%list_elem_of_fmap. destruct (new_model p Hin) as (m & Hm & -> & _).
        by apply list_elem_of_fmap_2.
      - intros k _ Hk. unfold target_of. rewrite H4, Hfr by done. lia. }
    rewrite sumZ_fmap in Hs. rewrite sumZ_minus in Hs. rewrite (sumZ_ext (λ a, target_of floors (ri_ID a)) FloorGPUs) in Hs; [lia|].
    intros m Hm. by destruct (floor_at m Hm).
Qed.
End result.

(** The whole split: the targets, and the GPUs given above the floors. *)
Lemma split_targets `{GoSort} `{MapRange} {C : IntConv} :
  ∃ t G, computeRescaleTargets inp budget = (t, budget <? sumZ FloorGPUs inp) ∧
    G = Z.max 0 (Z.min (budget - sumZ FloorGPUs inp) (sumZ can_take inp)) ∧
    (∀ m, m ∈ inp → FloorGPUs m ≤ target_of t (ri_ID m) ≤ FloorGPUs m + can_take m) ∧
    sumZ (λ m, target_of t (ri_ID m)) inp = sumZ FloorGPUs inp + G.
Proof using Hok.
  unfold computeRescaleTargets. destruct floors_sum as [-> Hf].
  assert (Htk : ∀ m, 0 ≤ can_take m) by (intros m; unfold can_take; case_match; lia).
  assert (Hfl : ∀ m, m ∈ inp → target_of (foldl (λ t m, <[ri_ID m := FloorGPUs m]> t) ∅ inp) (ri_ID m) = FloorGPUs m)
    by (intros m Hm; by apply floor_at).
  destruct (Z.leb_spec budget (sumZ FloorGPUs inp)) as [Hle|Hgt].
  { eexists _, 0. split; [done|]. split_and!; [lia| |].
    - intros m Hm. rewrite (Hfl m Hm). specialize (Htk m). lia.
    - rewrite Z.add_0_r. apply sumZ_ext. exact Hfl. }
  pose proof (so_budget _ _ Hok). rewrite wrap_id by (unfold in_int, int_min, int_max; lia).
  set (pool := budget - sumZ FloorGPUs inp). assert (Epool : pool = budget - sumZ FloorGPUs inp) by done. clearbody pool. rewrite (proj2 (Z.ltb_ge budget _)) by lia.
  destruct (water_fill_spec (length act) act (of_int pool) pool ∅) as (new & -> & Hsub & Hgood & Hsum);
    [apply holds_of_int; lia|lia|apply acts_fine|lia|].
  cbv zeta. cbn [default from_option]. unfold Datatypes.id. rewrite room_takes in Hsum. pose proof (sumZ_nonneg can_take inp (λ m _, Htk m)).
  destruct (rounded_spec new Hsub Hgood (put_all ∅ new) (Z.min pool (sumZ can_take inp)) eq_refl ltac:(lia) Hsum) as (t1 & -> & Hn & Ht & Hfr).
  assert (Hp : (range (put_all ∅ new)).*1 ≡ₚ a_id <$> new.*1).
  { rewrite range_perm. unfold put_all. pose proof (new_NoDup new Hsub) as Hnd. rewrite <- list_fmap_compose in Hnd.
    rewrite (insert_all_list (λ p : active * float64, a_id p.1) (λ p, p.2) new ∅ Hnd) by done.
    by rewrite map_to_list_empty, app_nil_r, <- !list_fmap_compose. }
  assert (Hnd : NoDup (range (put_all ∅ new)).*1) by (rewrite Hp; by apply new_NoDup).
  assert (Hw : 0 ≤ sumZ (λ p, whole p.2) new).
  { apply sumZ_nonneg. intros p Hin. destruct (new_model new Hsub Hgood p Hin) as (? & ? & ? & ? & ? & ? & ? & _). done. }
  assert (Hn4 : 0 ≤ Z.min pool (sumZ can_take inp) - sumZ (λ p, whole p.2) new ≤ 4294967296) by lia.
  pose proof (apportioned new Hsub Hgood t1 _ Hnd Hp Hn4 (proj2 Hn) Ht Hfr) as Hh.
  destruct (split_result new Hsub Hgood (Z.min pool (sumZ can_take inp)) _ _ _ Hh eq_refl Ht Hfr) as [Hr1 Hr2].
  eexists _, (Z.min pool (sumZ can_take inp)). split; [done|]. split_and!; [lia|done|done].
Qed.
End inputs.

(** ** The split among roles *)
Lemma flt_true a b : is_finite a = true → is_finite b = true → (F2R a < F2R b)%R → flt a b = true.
Proof. intros Ha Hb Hlt. unfold flt. destruct (fcompare_spec a b Ha Hb) as [[-> ?]|[[-> ?]|[-> ?]]]; [done|lra|lra]. Qed.

(** A whole number of GPUs as a weight. *)
Lemma count_weight r w f c :
  0 ≤ w ≤ 4294967296 → let m := MkInput r (of_int 1) (of_int w) f c in
  flt f0 (weight_of m) = true → nonneg (weight_of m) ∧ (bpow (-400) <= F2R (weight_of m) <= bpow 400)%R.
Proof.
  intros Hw. cbv zeta. unfold weight_of. cbn [ri_Priority ri_Demand]. destruct (Z.eq_dec w 0) as [->|Hw0]; [vm_compute; done|]. intros _.
  destruct (holds_of_int 1 ltac:(lia)) as [H1 E1]. destruct (holds_of_int w ltac:(lia)) as [H2 E2].
  assert (HwR : (1 <= IZR w <= 4294967296)%R) by (split; apply IZR_le; lia). set (x := fmul (of_int 1) (of_int w)).
  pose proof (bpow_le (-900) 0 ltac:(lia)) as Hlo. pose proof (bpow_le (-400) (-1) ltac:(lia)) as Hlo4. pose proof (bpow_le 40 900 ltac:(lia)) as Hhi.
  pose proof (bpow_le 40 400 ltac:(lia)) as Hhi4. change (bpow 0) with 1%R in Hlo. assert (bpow (-1) = / 2)%R by (unfold bpow; simpl; lra).
  rewrite (bpow_IZR 40) in Hhi, Hhi4 by lia. change (IZR (2 ^ 40)) with 1099511627776%R in Hhi, Hhi4.
  assert (Hx : near x (F2R (of_int 1) * F2R (of_int w))).
  { apply fmul_near; [done|done|]. rewrite E1, E2. split; lra. }
  rewrite E1, E2, Rmult_1_l in Hx. destruct Hx as [Hx Hxn]. apply Rabs_le_inv in Hxn. destruct unit_small_pos as [Hu0 Hu].
  assert (unit * IZR w <= IZR w * / 2)%R by nra.
  assert (Hmax : flt x maxShareWeight = true).
  { apply flt_true; [apply Hx|done|]. unfold maxShareWeight. cbn [F2R signed].
    apply (Rlt_le_trans _ (bpow 944)); [pose proof (bpow_le 900 944 ltac:(lia)); lra|].
    rewrite <- (Rmult_1_l (bpow 944)) at 1. apply Rmult_le_compat_r; [pose proof (bpow_pos 944); lra|lra]. }
  assert (Hmin : fmin x maxShareWeight = x) by (unfold fmin; rewrite Hmax; by destruct x as [[]|[]| |]).
  rewrite Hmin. split; [done|lra].
Qed.

Section roles.
Context `{GoSort} `{MapRange} {C : IntConv}.
Context (total : Z) (roles : list string) (weight fallback floor : gmap string Z) (ceiling : option (gmap string Z)).
Hypothesis Hnd : NoDup roles.
Hypothesis Hlen : (length roles ≤ 1024)%nat.
Hypothesis Htotal : 0 ≤ total ≤ 4294967296.
Hypothesis Hsmall : ∀ m r, m ∈ [weight; fallback; floor] → 0 ≤ target_of m r ≤ 4194304.

Lemma sum_of_spec m : m ∈ [weight; fallback; floor] → sum_of m roles = sumZ (target_of m) roles ∧ 0 ≤ sumZ (target_of m) roles ≤ 4294967296.
Proof using Hlen Hsmall.
  intros Hm. assert (Hr : 0 ≤ sumZ (target_of m) roles ≤ Z.of_nat (length roles) * 4194304).
  { clear -Hsmall Hm. induction roles as [|r l IH]; [done|]. rewrite sumZ_cons. cbn [length]. specialize (Hsmall m r Hm). lia. }
  split; [|lia]. unfold sum_of. rewrite foldl_wrap_sum by done. by rewrite wrap_id by (unfold in_int, int_min, int_max; lia).
Qed.

#[local] Notation remaining := (total - sumZ (target_of floor) roles).
#[local] Notation cap := (role_cap floor ceiling remaining).

Lemma role_cap_spec r : r ∈ roles →
  target_of floor r ≤ cap r ≤ 4294967296 ∧ cap r ≤ target_of floor r + Z.max remaining 0 ∧
  (∀ c x, ceiling = Some c → c !! r = Some x → cap r ≤ Z.max x (target_of floor r)).
Proof using Hnd Hlen Hsmall Htotal.
  intros Hr. destruct (sum_of_spec floor ltac:(set_solver)) as [_ Hf].
  assert (Hfl : ∀ x, 0 ≤ target_of floor x ≤ 4194304) by (intros x; apply Hsmall; set_solver).
  pose proof (sumZ_elem_le (target_of floor) roles r (λ x _, proj1 (Hfl x)) Hr) as Hle. specialize (Hfl r).
  unfold role_cap. rewrite wrap_id by (unfold in_int, int_min, int_max; lia).
  split_and!; [case_match; lia|case_match; lia|case_match; lia|].
  intros c x -> Hc. cbn [mbind option_bind]. rewrite Hc. lia.
Qed.

(** What the hand-out in role order does. *)
Lemma hand_out_fold l out rem :
  NoDup l → (∀ r, r ∈ l → r ∈ roles ∧ target_of out r = target_of floor r) → -4294967296 ≤ rem ≤ 4294967296 →
  let '(out', rem') := foldl (hand_out cap) (out, rem) l in
  Z.min rem 0 ≤ rem' ∧ sumZ (λ r, target_of out' r - target_of floor r) l = rem - rem' ∧
  (∀ r, r ∈ l → target_of floor r ≤ target_of out' r ≤ cap r) ∧ (∀ r, r ∉ l → target_of out' r = target_of out r).
Proof using Hnd Hlen Hsmall Htotal.
  revert out rem. induction l as [|r l IH]; intros out rem Hn Hin Hrem; cbn [foldl].
  { split_and!; [lia|change (sumZ _ []) with 0; lia|intros r Hr; by apply elem_of_nil in Hr|done]. }
  apply NoDup_cons in Hn as [Hr Hn]. destruct (Hin r ltac:(by left)) as [Hrr Er]. destruct (role_cap_spec r Hrr) as (Hc & _ & _).
  assert (0 ≤ target_of floor r ≤ 4194304) by (apply Hsmall; set_solver).
  unfold hand_out at 2. rewrite Er. rewrite (wrap_id (cap r - _)) by (unfold in_int, int_min, int_max; lia).
  set (give := Z.min (Z.max rem 0) (cap r - target_of floor r)). assert (Hg : 0 ≤ give ≤ Z.max rem 0) by (unfold give; lia).
  assert (Hgc : target_of floor r + give ≤ cap r) by (unfold give; lia). clearbody give.
  rewrite !wrap_id by (unfold in_int, int_min, int_max; lia).
  specialize (IH (<[r := target_of floor r + give]> out) (rem - give) Hn).
  assert (E : ∀ j, j ≠ r → target_of (<[r := target_of floor r + give]> out) j = target_of out j)
    by (intros j Hj; unfold target_of; by rewrite lookup_insert_ne).
  destruct (foldl _ _ _) as [out' rem']. destruct IH as (Hp1 & Hp2 & Hp3 & Hp4).
  { intros j Hj. rewrite E by (intros ->; done). apply Hin. by right. }
  { lia. }
  assert (Er' : target_of out' r = target_of floor r + give) by (rewrite (Hp4 r Hr); unfold target_of; by rewrite lookup_insert_eq).
  rewrite sumZ_cons. split_and!; [lia|lia| |].
  - intros j [->|Hj]%elem_of_cons; [lia|auto].
  - intros j Hj. rewrite Hp4, E; set_solver.
Qed.

(** Without any weight the GPUs go out in role order. *)
Lemma role_order_within :
  let out := (foldl (hand_out cap) (foldl (λ out r, <[r := target_of floor r]> out) ∅ roles, remaining) roles).1 in
  (∀ r, r ∈ roles → target_of floor r ≤ target_of out r ≤ cap r) ∧
  sumZ (target_of out) roles ≤ Z.max total (sumZ (target_of floor) roles).
Proof using Hnd Hlen Hsmall Htotal.
  cbv zeta. destruct (sum_of_spec floor ltac:(set_solver)) as [_ Hf].
  pose proof (hand_out_fold roles (foldl (λ out r, <[r := target_of floor r]> out) ∅ roles) remaining Hnd) as Hh.
  destruct (foldl (hand_out cap) _ _) as [out rem]. destruct Hh as (Hp1 & Hp2 & Hp3 & _).
  - intros r Hr. split; [done|]. unfold target_of at 1.
    pose proof (insert_all_lookup (λ r : string, r) (target_of floor) roles ∅) as Hi. rewrite list_fmap_id in Hi.
    by rewrite (proj1 (Hi Hnd) r Hr).
  - lia.
  - cbn [fst]. split; [done|]. rewrite sumZ_minus in Hp2. lia.
Qed.

Lemma ids_of (f : string → rescaleInput) (l : list string) : (∀ r, ri_ID (f r) = r) → ri_ID <$> (f <$> l) = l.
Proof. intros Hf. induction l as [|r l IH]; [done|]. cbn [fmap list_fmap]. by rewrite Hf, IH. Qed.

Lemma role_inputs_ok w : w ∈ [weight; fallback] →
  split_ok ((λ r, MkInput r (of_int 1) (of_int (target_of w r)) (target_of floor r) (cap r)) <$> roles) total.
Proof using Hnd Hlen Hsmall Htotal.
  intros Hw. assert (Hin : ∀ r, 0 ≤ target_of w r ≤ 4194304) by (intros r; apply Hsmall; set_solver).
  split; [|by rewrite length_fmap|lia| |].
  - by rewrite ids_of.
  - intros m (r & -> & Hr)%list_elem_of_fmap. cbn. destruct (role_cap_spec r Hr) as (? & _). assert (0 ≤ target_of floor r) by (apply Hsmall; set_solver). lia.
  - intros m (r & -> & Hr)%list_elem_of_fmap. apply count_weight. specialize (Hin r). lia.
Qed.
End roles.

(** ** Properties *)

(** C21: the weighted split of a budget is exact: with distinct IDs, counts up to 2^32,
    at most 1024 models and weights between 2^-400 and 2^400, the passes end, every
    model gets its floor and no more than its cap (its floor, if it has no weight),
    and all the targets together are the smaller of the budget and what the models
    can take, or the floors when these exceed it, which alone is reported: no
    rounding of the shares loses a GPU or hands one out twice. *)
Theorem rescale_targets_exact `{GoSort} `{MapRange} {C : IntConv} inp budget :
  split_ok inp budget →
  let '(t, overBudget) := computeRescaleTargets inp budget in
  overBudget = (budget <? sumZ FloorGPUs inp) ∧
    (∀ m, m ∈ inp → FloorGPUs m ≤ target_of t (ri_ID m) ≤ FloorGPUs m + can_take m) ∧
    sumZ (λ m, target_of t (ri_ID m)) inp =
      Z.max (sumZ FloorGPUs inp) (Z.min budget (sumZ (λ m, FloorGPUs m + can_take m) inp)).
Proof.
  intros Hok. destruct (split_targets inp budget Hok) as (t & G & -> & -> & Hb & Hs). split_and!; [done|done|].
  rewrite Hs, sumZ_plus. assert (0 ≤ sumZ can_take inp); [|lia]. apply sumZ_nonneg. intros m _. unfold can_take. case_match; lia.
Qed.

(** The split of a model's GPUs among two or more roles keeps every role's floor
    and ceiling, and gives no more in all than the model's target, or the floors
    where these exceed it. *)
Theorem role_split_within `{GoSort} `{MapRange} {C : IntConv} total roles weight fallback floor ceiling :
  NoDup roles → (2 ≤ length roles ≤ 1024)%nat → 0 ≤ total ≤ 4294967296 →
  (∀ m r, m ∈ [weight; fallback; floor] → 0 ≤ target_of m r ≤ 4194304) →
  let out := distributeGPUsByWeight total roles weight fallback floor ceiling in
    (∀ r, r ∈ roles → target_of floor r ≤ target_of out r ∧
       ∀ c x, ceiling = Some c → c !! r = Some x → target_of out r ≤ Z.max x (target_of floor r)) ∧
    sumZ (target_of out) roles ≤ Z.max total (sumZ (target_of floor) roles).
Proof.
  intros Hnd [Hl2 Hlen] Ht Hsmall.
  assert (Hsum : ∀ m, m ∈ [weight; fallback; floor] → sum_of m roles = sumZ (target_of m) roles) by (intros; by eapply sum_of_spec).
  pose proof (role_cap_spec total roles weight fallback floor ceiling Hnd Hlen Ht Hsmall) as Hcap.
  destruct (sum_of_spec roles weight fallback floor Hlen Hsmall floor ltac:(set_solver)) as [_ Hf].
  assert (Hrem : total ⊟ sum_of floor roles = total - sumZ (target_of floor) roles)
    by (rewrite Hsum by set_solver; apply wrap_id; unfold in_int, int_min, int_max; lia).
  cbv zeta. unfold distributeGPUsByWeight. rewrite Hrem. set (w := if sum_of weight roles =? 0 then fallback else weight).
  assert (Hw : w ∈ [weight; fallback]) by (unfold w; case_match; set_solver). clearbody w.
  destruct roles as [|r1 [|r2 roles']]; [simpl in Hl2; lia..|]. set (roles := r1 :: r2 :: roles') in *. clearbody roles.
  case_match.
  - destruct (role_order_within total roles weight fallback floor ceiling Hnd Hlen Ht Hsmall) as [Hp1 Hp2]. split; [|done].
    intros r Hr. split; [by apply Hp1|]. intros c x Hc Hx. destruct (Hcap r Hr) as (_ & _ & Hp3). specialize (Hp3 c x Hc Hx). specialize (Hp1 r Hr). lia.
  - destruct (split_targets _ _ (role_inputs_ok total roles weight fallback floor ceiling Hnd Hlen Ht Hsmall w Hw)) as (t & G & -> & HG & Hp1 & Hp2).
    cbn [fst]. rewrite !sumZ_fmap in *. cbn [ri_ID FloorGPUs] in *. split.
    + intros r Hr. specialize (Hp1 _ (list_elem_of_fmap_2 (λ r, MkInput r (of_int 1) (of_int (target_of w r)) (target_of floor r)
        (role_cap floor ceiling (total - sumZ (target_of floor) roles) r)) roles r Hr)). cbn [ri_ID FloorGPUs] in Hp1.
      split; [lia|]. intros c x Hc Hx. destruct (Hcap r Hr) as (? & _ & Hp3). specialize (Hp3 c x Hc Hx). unfold can_take in Hp1. cbn [CapGPUs FloorGPUs] in Hp1.
      case_match; lia.
    + change (sumZ (target_of t) roles ≤ Z.max total (sumZ (target_of floor) roles)). change (sumZ (λ a, target_of t a) roles) with (sumZ (target_of t) roles) in Hp2.
      change (sumZ (λ a, target_of floor a) roles) with (sumZ (target_of floor) roles) in *. lia.
Qed.

(** Three models competing for ten GPUs, and two roles sharing forty. *)
#[export] Program Instance by_map_order : MapRange := {| range := λ V m, map_to_list m |}.
Next Obligation. done. Qed.

Definition demo_inputs : list rescaleInput :=
  [MkInput "a" (of_int 1) (of_int 100) 0 10; MkInput "b" (of_int 1) (of_int 200) 2 12; MkInput "c" (of_int 1) (of_int 50) 1 2].

Lemma demo_inputs_ok : split_ok demo_inputs 10.
Proof.
  assert (Hin : ∀ m, m ∈ demo_inputs → ∃ w, 0 ≤ w ≤ 4294967296 ∧ m = MkInput (ri_ID m) (of_int 1) (of_int w) (FloorGPUs m) (CapGPUs m) ∧
    0 ≤ FloorGPUs m ≤ 4294967296 ∧ 0 ≤ CapGPUs m ≤ 4294967296).
  { intros m Hm. repeat (apply elem_of_cons in Hm as [->|Hm]); [exists 100|exists 200|exists 50|by apply elem_of_nil in Hm];
      split_and!; done || lia || (cbn; lia). }
  split; [by apply (bool_decide_unpack _)|simpl; lia|lia| |].
  - intros m Hm. destruct (Hin m Hm) as (? & ? & ? & ? & ?). auto.
  - intros m Hm. destruct (Hin m Hm) as (w & Hw & -> & _). by apply count_weight.
Qed.

Lemma rescale_targets_exact_witness :
  sumZ (λ m, target_of (computeRescaleTargets demo_inputs 10).1 (ri_ID m)) demo_inputs = 10.
Proof.
  pose proof (rescale_targets_exact demo_inputs 10 demo_inputs_ok) as H. destruct (computeRescaleTargets demo_inputs 10) as [t o].
  cbn [fst]. destruct H as (_ & _ & H). rewrite H. reflexivity.
Defined.

Definition demo_split : gmap string Z :=
  distributeGPUsByWeight 40 ["decode"; "prefill"] {["prefill" := 70; "decode" := 10]} ∅ {["prefill" := 8; "decode" := 8]}
    (Some {["prefill" := 16]}).

Lemma role_split_within_witness : target_of demo_split "prefill" ≤ 16 ∧ sumZ (target_of demo_split) ["decode"; "prefill"] ≤ 40.
Proof.
  destruct (role_split_within 40 ["decode"; "prefill"] {["prefill" := 70; "decode" := 10]} ∅ {["prefill" := 8; "decode" := 8]}
    (Some {["prefill" := 16]})) as [H1 H2]; [by apply (bool_decide_unpack _)|simpl; lia|lia| |split; [|exact H2]].
  - intros m r Hm. repeat (apply elem_of_cons in Hm as [->|Hm]); [..|by apply elem_of_nil in Hm];
      unfold target_of; (destruct (decide (r = "prefill")) as [->|?]; [vm_compute; split; congruence|]);
      (destruct (decide (r = "decode")) as [->|?]; [vm_compute; split; congruence|]); 
      repeat first [rewrite lookup_insert_ne by done|rewrite lookup_singleton_ne by done|rewrite lookup_empty]; simpl; lia.
  - destruct (H1 "prefill" (list_elem_of_further _ _ _ (list_elem_of_here _ _))) as [_ Hc]. exact (Hc _ 16 eq_refl eq_refl).
Defined.
