(* ===== verification/ScaleDown.v ===== *)
(** * Scaling down, and building decisions

    The model of the scale-down half of [cost_aware_optimizer.go] and of
    [buildDecisionsWithOptimizer], which both optimizers end with.

    Theorems: a pass over a role's variants never raises a target, never goes
    below a variant's own minimum and keeps the cheapest variant at one replica
    while it is the last to hold any; what it removes is within the role's release
    budget up to rounding; the decisions are one per target, with the action, the
    GPUs and the bounds that belong to it. *)
From Stdlib Require Import ZArith Lia String Ascii SpecFloat Reals Lra.
From stdpp Require Import base gmap strings list sorting fin_maps.
From S2P Require Import Prelude GoFloat Domain Signals.

(** ** Orders *)
Definition hasCapacityReading (prc : float64) : bool := flt f0 prc && negb (is_pos_inf prc).

Definition costEfficiency (vc : variantRecord) : float64 :=
  if hasCapacityReading (rec_PerReplicaCapacity vc)
  then fdiv (rec_Cost vc) (rec_PerReplicaCapacity vc) else MaxFloat64.

Definition anyHasReplicas (variants : list variantRecord) (targets : gmap string Z) : bool :=
  existsb (λ vc, (0 <? target_of targets (rec_Name vc))%Z) variants.

Section sorts.
Context `{GoSort}.

Definition sortByCostEfficiencyAsc (capacities : list variantRecord) : list variantRecord :=
  sort_slice (λ a b, flt (costEfficiency a) (costEfficiency b)) capacities.

(** [weighted] of [sortVariantsForScaleDown]. *)
Definition scale_down_weight (e : NamedAnalyzerResult) (name : string) : float64 :=
  match Result e with
  | None => f0
  | Some r => fmul (Score e) (prcForVariant r name)
  end.

Definition scale_down_less (e : NamedAnalyzerResult) (a b : variantRecord) : bool :=
  if negb (feq (rec_Cost a) (rec_Cost b)) then flt (rec_Cost b) (rec_Cost a)
  else let wa := scale_down_weight e (rec_Name a) in
       let wb := scale_down_weight e (rec_Name b) in
       if negb (feq wa wb) then flt wa wb else str_lt (rec_Name a) (rec_Name b).

Definition sortVariantsForScaleDown (e : NamedAnalyzerResult) (roleVCs : list variantRecord)
  : list variantRecord := sort_slice (scale_down_less e) roleVCs.
End sorts.

(** ** The scale-down loop *)
Section shedding.
Context {S : Type} (maxRemovable : S → variantRecord → Z) (onRemove : S → variantRecord → Z → S).
Context (states : gmap string VariantReplicaState).

Definition min_of (v : string) : Z :=
  match states !! v with
  | Some st => default 0%Z (st_MinReplicas st)
  | None => 0
  end.

(** How many replicas of [vc] the loop takes; [last] when it is the final
    element, [others] when a variant before it still holds replicas. *)
Definition shed_count (s : S) (vc : variantRecord) (current : Z) (last others : bool) : Z :=
  let removable := current ⊟ min_of (rec_Name vc) in
  if (removable <=? 0)%Z then 0
  else
    let n := Z.min (maxRemovable s vc) removable in
    if last && (current ⊟ n <? 1)%Z && negb others then current ⊟ 1 else n.

(** [prefix] is [sortedVariants[:i]]. *)
Fixpoint shed_loop (prefix rest : list variantRecord) (targets : gmap string Z) (s : S)
  : gmap string Z * S :=
  match rest with
  | [] => (targets, s)
  | vc :: rest' =>
      if fle (rec_PerReplicaCapacity vc) f0 then shed_loop (prefix ++ [vc]) rest' targets s
      else
        let current := target_of targets (rec_Name vc) in
        let n := shed_count s vc current (bool_decide (rest' = [])) (anyHasReplicas prefix targets) in
        if (n <=? 0)%Z then shed_loop (prefix ++ [vc]) rest' targets s
        else shed_loop (prefix ++ [vc]) rest' (<[rec_Name vc := current ⊟ n]> targets) (onRemove s vc n)
  end.

Definition scaleDownVariantSet (sortedVariants : list variantRecord) (targets : gmap string Z) (s : S)
  : gmap string Z * S := shed_loop [] sortedVariants targets s.
End shedding.

Section roles.
Context `{GoSort} {C : IntConv}.

Definition scaleDown_role (variants : list variantRecord) (states : gmap string VariantReplicaState)
    (acc : gmap string Z * NamedAnalyzerResult) (role : string) : gmap string Z * NamedAnalyzerResult :=
  let '(targets, e) := acc in
  if negb (needsScaleDownForRole e role) then acc
  else
    let roleVCs := variantsForRole variants role in
    match roleVCs with
    | [] => acc
    | _ :: _ =>
        scaleDownVariantSet (λ e vc, safeRemovalReplicasForRole e (rec_Name vc) role)
          (λ e vc n, applyDeallocationForRole e (rec_Name vc) role n) states
          (sortVariantsForScaleDown e roleVCs) targets e
    end.

Definition scaleDownRoleIterated (e : NamedAnalyzerResult) (variants : list variantRecord)
    (targets : gmap string Z) (states : gmap string VariantReplicaState)
  : gmap string Z * NamedAnalyzerResult :=
  foldl (scaleDown_role variants states) (targets, e) (rolesOf variants).
End roles.

(** ** Decisions *)

(** The variants of [role], their total demand, and this one's. *)
Definition share_step (variantName role : string) (acc : float64 * float64 * Z) (vc : VariantCapacity)
  : float64 * float64 * Z :=
  let '(mine, all, n) := acc in
  if negb (String.eqb (canonical_role (vc_Role vc)) role) then acc
  else (if String.eqb (vc_VariantName vc) variantName then vc_TotalDemand vc else mine,
        fadd all (vc_TotalDemand vc), n ⊞ 1).

Definition f1 : float64 := of_int 1.

Definition variantDemandShare (vcs : list VariantCapacity) (variantName role : string)
  : float64 * bool :=
  let '(mine, all, n) := foldl (share_step variantName role) (f0, f0, 0%Z) vcs in
  if (n <=? 1)%Z then (f1, true)
  else if feq all f0 then (fdiv f1 (of_int n), true)
  else if feq mine f0 then (f0, false)
  else (fdiv mine all, true).

Definition decide_action (target current : Z) : SaturationAction :=
  if (current <? target)%Z then ActionScaleUp
  else if (target <? current)%Z then ActionScaleDown else ActionNoChange.

Definition reason_text (a : SaturationAction) (optimizerName : string) : string :=
  match a with
  | ActionNoChange => DecisionReasonV2
  | _ => DecisionReasonV2 +:+ " (optimizer: " +:+ optimizerName +:+ ")"
  end.

Definition buildDecision (req : ModelScalingRequest) (stateMap : gmap string VariantReplicaState)
    (vcMap : gmap string variantRecord) (optimizerName : string) (e : string * Z) : VariantDecision :=
  let '(name, target) := e in
  let sat := CompositeSignal req in
  let result := default (MkAnalyzerResult [] f0) (Result sat) in
  let state := state_of stateMap name in
  let vc := default zero_record (vcMap !! name) in
  let action := decide_action target (st_CurrentReplicas state) in
  let gpus := if (st_GPUsPerReplica state <=? 0)%Z then 1%Z else st_GPUsPerReplica state in
  let role := canonical_role (st_Role state) in
  let '(required, spare) := requiredSpareForRoleOrModel sat role in
  let demand := match default ∅ (RoleCapacities sat) !! role with
                | Some rc => rc_TotalDemand rc
                | None => ar_TotalDemand result
                end in
  let '(share, ok) := variantDemandShare (VariantCapacities result) (rec_Name vc) role in
  MkVariantDecision name (req_Namespace req) (req_ModelID req) (rec_Acc vc) (rec_Cost vc)
    (st_Role state) (st_CurrentReplicas state) target gpus (target ⊠ gpus)
    (st_MinReplicas state) (st_MaxReplicas state) action DecisionReasonV2
    (reason_text action optimizerName) (rec_Utilization vc) required spare
    (if ok then fmul demand share else DemandUnpriced) (rec_PerReplicaCapacity vc)
    (ScaleUpThreshold sat) false "" [].

(** One decision per target, in the order the map is ranged over. *)
Definition buildDecisionsWithOptimizer (req : ModelScalingRequest)
    (stateMap : gmap string VariantReplicaState) (vcMap : gmap string variantRecord)
    (targets : gmap string Z) (optimizerName : string) : list VariantDecision :=
  buildDecision req stateMap vcMap optimizerName <$> map_to_list targets.

(** ** One pass over a role *)
Definition targets_ok (targets : gmap string Z) : Prop :=
  ∀ v, (0 ≤ target_of targets v ≤ int_max)%Z.

Lemma target_of_insert targets v n w :
  target_of (<[v := n]> targets) w = if decide (v = w) then n else target_of targets w.
Proof. unfold target_of. by rewrite lookup_insert; case_decide. Qed.

Section shed_facts.
Context {S : Type} (maxRemovable : S → variantRecord → Z) (onRemove : S → variantRecord → Z → S).
Context (states : gmap string VariantReplicaState).
Hypothesis Hmax : ∀ s vc, (0 ≤ maxRemovable s vc)%Z.
Hypothesis Hmin : ∀ v, (0 ≤ min_of states v ≤ int_max)%Z.

Lemma shed_count_spec s vc current last others :
  let n := shed_count maxRemovable states s vc current last others in
  (0 ≤ current ≤ int_max)%Z → (0 < n)%Z →
  (n ≤ current ∧ min_of states (rec_Name vc) ≤ current - n)%Z ∧
  (last = true → others = false → (1 ≤ current - n)%Z).
Proof using Hmax Hmin.
  cbv zeta. intros Hc. unfold shed_count. pose proof (Hmin (rec_Name vc)). pose proof (Hmax s vc).
  assert (Hsub : ∀ a, (0 ≤ a ≤ int_max → current ⊟ a = current - a)%Z).
  { intros a Ha. apply wrap_id. unfold in_int, int_min, int_max in *. lia. }
  assert (1 ≤ int_max)%Z by (unfold int_max; lia).
  rewrite (Hsub (min_of _ _)) by done. destruct (Z.leb_spec (current - min_of states (rec_Name vc)) 0); [lia|].
  rewrite (Hsub (Z.min _ _)) by lia. rewrite (Hsub 1%Z) by lia.
  destruct (last && _ && _) eqn:Hl; intros Hn.
  - split; lia.
  - split; [lia|]. intros -> ->. simpl in Hl. lia.
Qed.

Lemma shed_loop_bounds prefix rest targets s :
  targets_ok targets →
  let '(t, _) := shed_loop maxRemovable onRemove states prefix rest targets s in
  targets_ok t ∧
  ∀ v, (Z.min (target_of targets v) (min_of states v) ≤ target_of t v ≤ target_of targets v)%Z ∧
       (v ∉ rec_Name <$> rest → target_of t v = target_of targets v).
Proof using Hmax Hmin.
  revert prefix targets s. induction rest as [|vc rest IH]; intros prefix targets s Hok; simpl.
  { split; [done|]. intros v. split; [lia|done]. }
  assert (Hskip : let '(t, _) := shed_loop maxRemovable onRemove states (prefix ++ [vc]) rest targets s in
    targets_ok t ∧ ∀ v, (Z.min (target_of targets v) (min_of states v) ≤ target_of t v ≤ target_of targets v)%Z ∧
      (v ∉ rec_Name vc :: (rec_Name <$> rest) → target_of t v = target_of targets v)).
  { specialize (IH (prefix ++ [vc]) targets s Hok). destruct (shed_loop _ _ _ _ _ _ _) as [t ?].
    destruct IH as [? IH]. split; [done|]. intros v. destruct (IH v) as [? Hv]. split; [done|].
    intros Hnot. apply Hv. set_solver. }
  destruct (fle _ _); [done|]. set (n := shed_count _ _ _ _ _ _ _). destruct (Z.leb_spec n 0); [done|].
  clear Hskip. set (cur := target_of targets (rec_Name vc)) in *.
  destruct (shed_count_spec s vc cur (bool_decide (rest = [])) (anyHasReplicas prefix targets)
    (Hok _)) as [[Hn1 Hn2] _]; [done|]. fold n in Hn1, Hn2.
  assert (Hw : (cur ⊟ n = cur - n)%Z).
  { apply wrap_id. pose proof (Hok (rec_Name vc)) as Hc. fold cur in Hc. unfold in_int, int_min, int_max in *. lia. }
  rewrite Hw. pose proof (Hok (rec_Name vc)) as Hcur. fold cur in Hcur.
  specialize (IH (prefix ++ [vc]) (<[rec_Name vc := (cur - n)%Z]> targets) (onRemove s vc n)).
  destruct (shed_loop _ _ _ _ _ _ _) as [t ?]. destruct IH as [Hok' IH].
  { intros v. rewrite target_of_insert. case_decide; [lia|apply Hok]. }
  split; [done|]. intros v. destruct (IH v) as [Hv Hnot]. rewrite target_of_insert in Hv, Hnot.
  case_decide as Hd; [subst v; fold cur; split; [lia|set_solver]|].
  split; [done|]. intros Hn. apply Hnot. set_solver.
Qed.

(** The cheapest variant, last in the order, gives up its last replica only to a
    variant that still has one. *)
Lemma shed_loop_keeps prefix rest targets s vc :
  targets_ok targets → last rest = Some vc → NoDup (rec_Name <$> prefix ++ rest) →
  fle (rec_PerReplicaCapacity vc) f0 = false → (1 ≤ target_of targets (rec_Name vc))%Z →
  let '(t, _) := shed_loop maxRemovable onRemove states prefix rest targets s in
  ∃ w, w ∈ prefix ++ rest ∧ (1 ≤ target_of t (rec_Name w))%Z.
Proof using Hmax Hmin.
  revert prefix targets s. induction rest as [|x rest IH]; intros prefix targets s Hok Hl Hnd Hp H1; [done|].
  destruct rest as [|y rest].
  - injection Hl as ->. cbn [shed_loop]. rewrite Hp, bool_decide_true by done.
    set (n := shed_count _ _ _ _ _ _ _). destruct (Z.leb_spec n 0); cbn [shed_loop].
    { exists vc. split; [set_solver|done]. }
    pose proof (shed_count_spec s vc _ true (anyHasReplicas prefix targets) (Hok _) ltac:(done)) as [_ Hk].
    fold n in Hk. destruct (anyHasReplicas prefix targets) eqn:Ha.
    + apply existsb_exists in Ha as (w & Hw%list_elem_of_In & Hw1). exists w. split; [set_solver|].
      rewrite target_of_insert. rewrite fmap_app in Hnd. apply NoDup_app in Hnd as (_ & Hd & _).
      case_decide as He; [|lia]. exfalso. apply (Hd (rec_Name w)); [by apply list_elem_of_fmap_2|].
      rewrite <- He. set_solver.
    + exists vc. split; [set_solver|]. rewrite target_of_insert, decide_True by done.
      pose proof (Hok (rec_Name vc)). rewrite wrap_id; [by apply Hk|]. unfold in_int, int_min, int_max in *.
      specialize (Hk eq_refl eq_refl). lia.
  - assert (Hl' : last (y :: rest) = Some vc) by exact Hl. clear Hl.
    remember (y :: rest) as rest' eqn:Hr. clear y rest Hr.
    assert (Hne : rec_Name x ≠ rec_Name vc).
    { rewrite fmap_app, fmap_cons in Hnd. apply NoDup_app in Hnd as (_ & _ & Hnd).
      apply NoDup_cons in Hnd as [Hx _]. intros He. apply Hx. rewrite He.
      apply (list_elem_of_fmap_2 rec_Name). by apply last_Some_elem_of. }
    replace (prefix ++ x :: rest') with ((prefix ++ [x]) ++ rest') in Hnd |- * by (by rewrite <- app_assoc).
    cbn [shed_loop].
    destruct (fle (rec_PerReplicaCapacity x) f0); [by apply IH|].
    set (n := shed_count _ _ _ _ _ _ _). destruct (Z.leb_spec n 0); [by apply IH|].
    destruct (shed_count_spec s x _ (bool_decide (rest' = [])) (anyHasReplicas prefix targets) (Hok (rec_Name x)))
      as [[Hn1 Hn2] _]; [done|]. fold n in Hn1, Hn2.
    pose proof (Hok (rec_Name x)) as Hx.
    apply IH; try done.
    + intros v. rewrite target_of_insert. case_decide; [|apply Hok].
      rewrite wrap_id; [lia|]. unfold in_int, int_min, int_max in *. lia.
    + rewrite target_of_insert, decide_False by done. done.
Qed.
End shed_facts.

(** ** All roles *)
Section role_facts.
Context `{GoSort} {C : IntConv}.
Context (variants : list variantRecord) (states : gmap string VariantReplicaState).
Hypothesis Hmin : ∀ v, (0 ≤ min_of states v ≤ int_max)%Z.

Lemma scaleDown_role_bounds acc role :
  targets_ok acc.1 →
  let t := (scaleDown_role variants states acc role).1 in
  targets_ok t ∧
  ∀ v, (Z.min (target_of acc.1 v) (min_of states v) ≤ target_of t v ≤ target_of acc.1 v)%Z ∧
       (v ∉ rec_Name <$> variantsForRole variants role → target_of t v = target_of acc.1 v).
Proof using Hmin.
  destruct acc as [targets e]. cbn [fst]. intros Hok. unfold scaleDown_role.
  assert (Hsame : targets_ok targets ∧ ∀ v,
    (Z.min (target_of targets v) (min_of states v) ≤ target_of targets v ≤ target_of targets v)%Z ∧
    (v ∉ rec_Name <$> variantsForRole variants role → target_of targets v = target_of targets v))
    by (split; [done|]; intros v; split; [lia|done]).
  destruct (negb _); [done|].
  pose proof (sort_slice_perm (scale_down_less e) (variantsForRole variants role)) as Hperm.
  destruct (variantsForRole variants role) as [|r0 rs] eqn:Hr; [done|]. rewrite <- Hr in *.
  unfold scaleDownVariantSet.
  pose proof (shed_loop_bounds (λ e vc, safeRemovalReplicasForRole e (rec_Name vc) role)
    (λ e vc n, applyDeallocationForRole e (rec_Name vc) role n) states
    (λ e vc, proj1 (safeRemoval_range e (rec_Name vc) role)) Hmin []
    (sortVariantsForScaleDown e (variantsForRole variants role)) targets e Hok) as Hb.
  destruct (shed_loop _ _ _ _ _ _ _) as [t ?]. destruct Hb as [Hok' Hb]. split; [done|].
  intros v. destruct (Hb v) as [? Hv]. split; [done|]. intros Hn. apply Hv.
  unfold sortVariantsForScaleDown. by rewrite Hperm.
Qed.

Lemma scaleDown_roles_bounds roles acc :
  targets_ok acc.1 →
  let t := (foldl (scaleDown_role variants states) acc roles).1 in
  targets_ok t ∧
  ∀ v, (Z.min (target_of acc.1 v) (min_of states v) ≤ target_of t v ≤ target_of acc.1 v)%Z.
Proof using Hmin.
  revert acc. induction roles as [|role roles IH]; intros acc Hok; simpl.
  { split; [done|]. intros v. lia. }
  destruct (scaleDown_role_bounds acc role Hok) as [Hok1 H1].
  destruct (IH (scaleDown_role variants states acc role) Hok1) as [Hok2 H2]. split; [done|].
  intros v. specialize (H2 v). destruct (H1 v). lia.
Qed.

(** Deallocating leaves the analyzer's result, its weight and its liveness. *)
Definition same_signal (e e' : NamedAnalyzerResult) : Prop :=
  Result e' = Result e ∧ Score e' = Score e ∧ Live e' = Live e.

Lemma applyDeallocation_signal e v role n : same_signal e (applyDeallocationForRole e v role n).
Proof. unfold applyDeallocationForRole. repeat case_match; by repeat split. Qed.

Lemma shed_loop_signal maxRem role prefix rest targets e :
  same_signal e (shed_loop maxRem (λ e vc n, applyDeallocationForRole e (rec_Name vc) role n)
                   states prefix rest targets e).2.
Proof.
  assert (Htr : ∀ e0 v r n, same_signal e (applyDeallocationForRole e0 v r n) ↔ same_signal e e0).
  { intros. destruct (applyDeallocation_signal e0 v r n) as (H1 & H2 & H3).
    unfold same_signal. by rewrite H1, H2, H3. }
  assert (Hgen : ∀ rest prefix targets e0, same_signal e e0 →
    same_signal e (shed_loop maxRem (λ e vc n, applyDeallocationForRole e (rec_Name vc) role n)
                   states prefix rest targets e0).2); [|by apply Hgen].
  clear prefix rest targets. induction rest as [|vc rest IH]; intros prefix targets e0 He; simpl; [done|].
  repeat case_match; apply IH; by rewrite ?Htr.
Qed.

Lemma scaleDown_role_signal acc role :
  same_signal acc.2 (scaleDown_role variants states acc role).2.
Proof.
  destruct acc as [targets e]. unfold scaleDown_role. repeat case_match; try by repeat split.
  apply shed_loop_signal.
Qed.

Lemma same_signal_sort e e' l :
  same_signal e e' → sortVariantsForScaleDown e' l = sortVariantsForScaleDown e l.
Proof.
  intros (H1 & H2 & _). unfold sortVariantsForScaleDown, scale_down_less, scale_down_weight.
  by rewrite H1, H2.
Qed.

(** A role whose cheapest variant holds a replica still holds one after its turn. *)
Lemma scaleDown_role_keeps acc role vc :
  targets_ok acc.1 → NoDup (rec_Name <$> variants) →
  last (sortVariantsForScaleDown acc.2 (variantsForRole variants role)) = Some vc →
  fle (rec_PerReplicaCapacity vc) f0 = false → (1 ≤ target_of acc.1 (rec_Name vc))%Z →
  ∃ w, w ∈ variantsForRole variants role ∧
       (1 ≤ target_of (scaleDown_role variants states acc role).1 (rec_Name w))%Z.
Proof using Hmin.
  destruct acc as [targets e]. cbn [fst snd]. intros Hok Hnd Hl Hp H1. unfold scaleDown_role.
  pose proof (sort_slice_perm (scale_down_less e) (variantsForRole variants role)) as Hperm.
  fold (sortVariantsForScaleDown e (variantsForRole variants role)) in Hperm.
  assert (Hin : vc ∈ variantsForRole variants role) by (rewrite <- Hperm; by apply last_Some_elem_of).
  destruct (negb _); [by exists vc|].
  destruct (variantsForRole variants role) as [|r0 rs] eqn:Hr; [by exists vc|]. rewrite <- Hr in *.
  pose proof (shed_loop_keeps (λ e vc, safeRemovalReplicasForRole e (rec_Name vc) role)
    (λ e vc n, applyDeallocationForRole e (rec_Name vc) role n) states
    (λ e vc, proj1 (safeRemoval_range e (rec_Name vc) role)) Hmin []
    (sortVariantsForScaleDown e (variantsForRole variants role)) targets e vc Hok Hl) as Hk.
  unfold scaleDownVariantSet. destruct (shed_loop _ _ _ _ _ _ _) as [t ?].
  destruct Hk as (w & Hw & Hw1); [|done|done|exists w; by rewrite <- Hperm].
  rewrite app_nil_l, Hperm. eapply sublist_NoDup; [exact Hnd|apply (fmap_sublist rec_Name), sublist_filter].
Qed.

(** Distinct roles have distinct variants. *)
Lemma other_role_untouched role role' w :
  NoDup (rec_Name <$> variants) → role ≠ role' → w ∈ variantsForRole variants role →
  rec_Name w ∉ rec_Name <$> variantsForRole variants role'.
Proof.
  intros Hnd Hne Hw Hin. apply list_elem_of_filter in Hw as [Hr Hw].
  apply list_elem_of_fmap in Hin as (x & Hx & Hin). apply list_elem_of_filter in Hin as [Hr' Hin].
  assert (w = x); [|congruence].
  apply list_elem_of_lookup in Hw as [i Hi], Hin as [j Hj].
  assert (i = j); [|by simplify_eq].
  apply (NoDup_lookup (rec_Name <$> variants) i j (rec_Name w) Hnd);
    rewrite list_lookup_fmap; [by rewrite Hi|rewrite Hj]. simpl. congruence.
Qed.

Lemma scaleDown_roles_untouched roles role acc w :
  targets_ok acc.1 → NoDup (rec_Name <$> variants) → role ∉ roles → w ∈ variantsForRole variants role →
  target_of (foldl (scaleDown_role variants states) acc roles).1 (rec_Name w) = target_of acc.1 (rec_Name w).
Proof using Hmin.
  revert acc. induction roles as [|r roles IH]; intros acc Hok Hnd Hnot Hw; simpl; [done|].
  apply not_elem_of_cons in Hnot as [Hne Hnot].
  destruct (scaleDown_role_bounds acc r Hok) as [Hok1 Hb].
  rewrite (IH (scaleDown_role variants states acc r)) by done.
  apply (Hb (rec_Name w)). by apply (other_role_untouched role r w).
Qed.

Lemma scaleDown_roles_keeps roles acc role vc :
  targets_ok acc.1 → NoDup (rec_Name <$> variants) → NoDup roles → role ∈ roles →
  last (sortVariantsForScaleDown acc.2 (variantsForRole variants role)) = Some vc →
  fle (rec_PerReplicaCapacity vc) f0 = false → (1 ≤ target_of acc.1 (rec_Name vc))%Z →
  ∃ w, w ∈ variantsForRole variants role ∧
       (1 ≤ target_of (foldl (scaleDown_role variants states) acc roles).1 (rec_Name w))%Z.
Proof using Hmin.
  revert acc. induction roles as [|r roles IH]; intros acc Hok Hnd Hndr Hin Hl Hp H1; [set_solver|].
  apply NoDup_cons in Hndr as [Hr Hndr]. simpl.
  destruct (scaleDown_role_bounds acc r Hok) as [Hok1 Hb].
  destruct (decide (r = role)) as [->|Hne].
  - destruct (scaleDown_role_keeps acc role vc Hok Hnd Hl Hp H1) as (w & Hw & Hw1).
    exists w. split; [done|]. by rewrite (scaleDown_roles_untouched roles role).
  - apply IH; try done; [set_solver|..].
    + by rewrite (same_signal_sort acc.2) by apply scaleDown_role_signal.
    + destruct (Hb (rec_Name vc)) as [_ ->]; [done|].
      apply (other_role_untouched role r vc); [done|congruence|].
      rewrite <- (sort_slice_perm (scale_down_less acc.2)). by apply last_Some_elem_of.
Qed.

Lemma scaleDown_not_live roles acc :
  Live acc.2 = false → foldl (scaleDown_role variants states) acc roles = acc.
Proof.
  intros Hl. induction roles as [|r roles IH]; simpl; [done|].
  assert (scaleDown_role variants states acc r = acc) as ->; [|done].
  destruct acc as [t e]. unfold scaleDown_role, needsScaleDownForRole. simpl in Hl. by rewrite Hl.
Qed.
End role_facts.

Lemma rolesOf_spec variants :
  NoDup (rolesOf variants) ∧ ∀ vc, vc ∈ variants → canonical_role (rec_Role vc) ∈ rolesOf variants.
Proof.
  unfold rolesOf. split.
  - rewrite sort_strings_perm. apply NoDup_remove_dups.
  - intros vc Hvc. rewrite sort_strings_perm, elem_of_remove_dups.
    by apply (list_elem_of_fmap_2 (λ vc, canonical_role (rec_Role vc))).
Qed.

(** ** The order of a scale-down *)
Section order.
Context `{GoSort} (e : NamedAnalyzerResult) (l : list variantRecord).
Hypothesis Hcost : ∀ vc, vc ∈ l → number (rec_Cost vc) ∧ number (scale_down_weight e (rec_Name vc)).

Lemma scale_down_less_spec a b :
  a ∈ l → b ∈ l →
  scale_down_less e a b = false →
  flt (rec_Cost b) (rec_Cost a) = false ∧
  (flt (rec_Cost a) (rec_Cost b) = false →
   flt (scale_down_weight e (rec_Name a)) (scale_down_weight e (rec_Name b)) = false ∧
   (flt (scale_down_weight e (rec_Name b)) (scale_down_weight e (rec_Name a)) = false →
    str_lt (rec_Name a) (rec_Name b) = false)).
Proof using Hcost.
  intros Ha Hb. destruct (Hcost a Ha) as [Hca Hwa], (Hcost b Hb) as [Hcb Hwb].
  pose proof (feq_flt _ _ Hca Hcb) as Hc. pose proof (feq_flt _ _ Hwa Hwb) as Hw.
  pose proof (flt_asym _ _ Hca Hcb) as Hac. pose proof (flt_asym _ _ Hwa Hwb) as Haw.
  unfold scale_down_less.
  set (ca := rec_Cost a) in *. set (cb := rec_Cost b) in *. set (wa := scale_down_weight e _) in *.
  set (wb := scale_down_weight e (rec_Name b)) in *.
  destruct (feq ca cb), (feq wa wb), (flt ca cb), (flt cb ca), (flt wa wb), (flt wb wa); simpl;
    intuition congruence.
Qed.

Lemma scale_down_less_intro a b :
  a ∈ l → b ∈ l →
  flt (rec_Cost b) (rec_Cost a) = false →
  (flt (rec_Cost a) (rec_Cost b) = false →
   flt (scale_down_weight e (rec_Name a)) (scale_down_weight e (rec_Name b)) = false ∧
   (flt (scale_down_weight e (rec_Name b)) (scale_down_weight e (rec_Name a)) = false →
    str_lt (rec_Name a) (rec_Name b) = false)) →
  scale_down_less e a b = false.
Proof using Hcost.
  intros Ha Hb. destruct (Hcost a Ha) as [Hca Hwa], (Hcost b Hb) as [Hcb Hwb].
  pose proof (feq_flt _ _ Hca Hcb) as Hc. pose proof (feq_flt _ _ Hwa Hwb) as Hw.
  unfold scale_down_less.
  set (ca := rec_Cost a) in *. set (cb := rec_Cost b) in *. set (wa := scale_down_weight e _) in *.
  set (wb := scale_down_weight e (rec_Name b)) in *.
  destruct (feq ca cb), (feq wa wb), (flt ca cb), (flt cb ca), (flt wa wb), (flt wb wa); simpl;
    intuition congruence.
Qed.

Lemma scale_down_less_asym a b :
  a ∈ l → b ∈ l → scale_down_less e a b = true → scale_down_less e b a = false.
Proof using Hcost.
  intros Ha Hb Hab. destruct (Hcost a Ha) as [Hca Hwa], (Hcost b Hb) as [Hcb Hwb].
  pose proof (feq_flt _ _ Hca Hcb) as Hc. pose proof (feq_flt _ _ Hwa Hwb) as Hw.
  pose proof (flt_asym _ _ Hca Hcb). pose proof (flt_asym _ _ Hcb Hca).
  pose proof (flt_asym _ _ Hwa Hwb). pose proof (flt_asym _ _ Hwb Hwa).
  pose proof (str_lt_asym (rec_Name a) (rec_Name b)).
  revert Hab. unfold scale_down_less at 1.
  destruct (feq (rec_Cost a) (rec_Cost b)) eqn:E1; simpl; intros Hab;
    [destruct (feq (scale_down_weight _ _) _) eqn:E2; simpl in Hab|];
    apply scale_down_less_intro; try done; intuition congruence.
Qed.

Lemma scale_down_less_trans a b c :
  a ∈ l → b ∈ l → c ∈ l →
  scale_down_less e b a = false → scale_down_less e c b = false → scale_down_less e c a = false.
Proof using Hcost.
  intros Ha Hb Hc Hba Hcb.
  destruct (Hcost a Ha) as [Na Ma], (Hcost b Hb) as [Nb Mb], (Hcost c Hc) as [Nc Mc].
  apply scale_down_less_spec in Hba as [C1 Hba], Hcb as [C2 Hcb]; try done.
  apply scale_down_less_intro; try done; [by eapply flt_false_trans with (b := rec_Cost b)|].
  intros C3.
  destruct Hba as [W1 Hba]; [by apply (flt_false_trans _ (rec_Cost c))|].
  destruct Hcb as [W2 Hcb]; [by apply (flt_false_trans _ (rec_Cost a))|].
  split; [by eapply flt_false_trans with (b := scale_down_weight e (rec_Name b))|]. intros W3.
  eapply str_lt_false_trans; [apply Hba|apply Hcb].
  - by apply (flt_false_trans _ (scale_down_weight e (rec_Name c))).
  - by apply (flt_false_trans _ (scale_down_weight e (rec_Name a))).
Qed.

Lemma sortVariantsForScaleDown_sorted :
  StronglySorted (λ a b, scale_down_less e b a = false) (sortVariantsForScaleDown e l).
Proof using Hcost.
  apply sort_slice_sorted; [apply scale_down_less_asym|apply scale_down_less_trans].
Qed.

(** The last of the order is a cheapest variant. *)
Lemma last_is_cheapest vc w :
  last (sortVariantsForScaleDown e l) = Some vc → w ∈ l → flt (rec_Cost w) (rec_Cost vc) = false.
Proof using Hcost.
  intros Hl Hw. pose proof sortVariantsForScaleDown_sorted as Hs.
  pose proof (sort_slice_perm (scale_down_less e) l) as Hp.
  fold (sortVariantsForScaleDown e l) in Hp. rewrite <- Hp in Hw.
  assert (Hvc : vc ∈ l) by (rewrite <- Hp; by apply last_Some_elem_of).
  apply last_Some in Hl as [l' Hl]. rewrite Hl in Hs, Hw.
  apply elem_of_app in Hw as [Hw|Hw].
  - assert (Hwl : w ∈ l) by (rewrite <- Hp, Hl; apply elem_of_app; by left).
    apply (StronglySorted_app_1_elem_of _ _ _ w vc) in Hs; [|done|by left].
    by apply (scale_down_less_spec vc w Hvc Hwl).
  - apply list_elem_of_singleton in Hw as ->. apply not_true_iff_false. intros Hf.
    pose proof (flt_asym _ _ (proj1 (Hcost vc Hvc)) (proj1 (Hcost vc Hvc)) Hf). congruence.
Qed.
End order.

(** ** What may be released *)
#[local] Open Scope R_scope.

Lemma replicaCount_le {C : IntConv} y :
  nonneg y → IZR (replicaCount y) <= F2R y.
Proof.
  intros Hy. unfold replicaCount. destruct (flt f0 y) eqn:Hp; cbn [negb]; [|destruct Hy; simpl; lra].
  destruct (fle (of_int maxReplicaCount) y) eqn:Hm.
  - unfold fle in Hm. change (IZR maxReplicaCount) with 2147483647. rewrite <- maxReplicaCount_value.
    destruct (fcompare_spec (of_int maxReplicaCount) y) as [[Hc ?]|[[Hc ?]|[Hc ?]]];
      [done|apply Hy|lra|lra|by rewrite Hc in Hm].
  - destruct (flt_pos y Hp) as [->|(m & e & ->)]; [by destruct Hy|].
    pose proof (below_maxReplicaCount m e Hm).
    rewrite (int_of_shiftl m e 2147483646) by (unfold int_max; lia || lra). apply shiftl_le.
Qed.

(** The count an infinity is cut to is below any overflow. *)
Lemma replicaCount_inf_le {C : IntConv} K v :
  (31 <= K)%Z → bpow K <= v → IZR (replicaCount (S754_infinity false)) <= v.
Proof.
  intros HK Hv. pose proof (bpow_le 31 K HK) as Hb. rewrite (bpow_IZR 31) in Hb by lia.
  change (IZR (2 ^ 31)) with 2147483648 in Hb.
  change (replicaCount (S754_infinity false)) with 2147483647%Z. lra.
Qed.

Lemma replicaCount_floor_le {C : IntConv} x :
  nonneg x → IZR (replicaCount (math_Floor x)) <= F2R x * (1 + eps) + eta.
Proof.
  intros Hx. destruct eps_eta_pos. pose proof (replicaCount_le x Hx) as Hself.
  assert (Hup : F2R x <= F2R x * (1 + eps) + eta) by (destruct Hx; nra).
  destruct (nonneg_cases x Hx) as [[s ->]|(m & e & ->)]; [by eapply Rle_trans|].
  unfold math_Floor. destruct (Z.leb_spec 0 e) as [He|He]; [by eapply Rle_trans|].
  pose proof (shiftl_le m e) as Hs. set (v := F2R (S754_finite false m e)) in *.
  unfold floor_Z. cbn [signed].
  assert (Hz0 : (0 <= Z.shiftl (Zpos m) e)%Z) by (by apply Z.shiftl_nonneg).
  destruct (of_int_upper _ Hz0) as [[Hn Hle]|[-> Hbig]].
  - pose proof (replicaCount_le _ Hn). nra.
  - apply (replicaCount_inf_le 972); [lia|]. nra.
Qed.

Lemma safeReplicas_le {C : IntConv} spare prc :
  nonneg spare → nonneg prc → 0 < F2R prc →
  IZR (safeReplicasForSpare spare prc) * F2R prc <= F2R spare * (1 + 3 * eps) + 3 * eta * F2R prc.
Proof.
  intros Hs Hp Hp0. pose proof eps_small. pose proof eta_small. destruct eps_eta_pos.
  assert (Hq0 : 0 <= F2R spare / F2R prc).
  { apply Rmult_le_pos; [apply Hs|]. left. by apply Rinv_0_lt_compat. }
  set (q := F2R spare / F2R prc) in *.
  assert (Hqp : F2R spare = q * F2R prc) by (unfold q; field; lra).
  assert (Hn : IZR (safeReplicasForSpare spare prc) <= q * (1 + 3 * eps) + 3 * eta).
  { unfold safeReplicasForSpare. case_match; [simpl; nra|].
    destruct (fdiv_upper spare prc Hs Hp Hp0) as [[Hx Hle]|[-> Hbig]].
    - fold q in Hle. pose proof (replicaCount_floor_le _ Hx).
      apply (Rmult_le_compat_r (1 + eps)) in Hle; [|lra].
      assert (He1 : eps <= 1) by lra. assert (Hqe : 0 <= q * eps) by (apply Rmult_le_pos; lra).
      pose proof (Rmult_le_compat_l _ _ _ Hqe He1).
      pose proof (Rmult_le_compat_l eta _ _ ltac:(lra) He1). lra.
    - fold q in Hbig. apply (replicaCount_inf_le 1024); [lia|]. nra. }
  rewrite Hqp. apply (Rmult_le_compat_r (F2R prc)) in Hn; [|lra]. lra.
Qed.
#[local] Close Scope R_scope.

(** * Properties *)

(** C19: a scale-down never raises a variant's target and never takes it below its
    own minimum; a role whose cheapest variant (the last of the shedding order,
    a lowest cost when the costs are numbers) can be sized and holds a replica
    still holds one afterwards; and a signal that is not live changes nothing. *)
Theorem scale_down_safe `{GoSort} {C : IntConv} e variants targets states :
  (∀ v, (0 ≤ min_of states v ≤ int_max)%Z) → targets_ok targets → NoDup (rec_Name <$> variants) →
  let t := (scaleDownRoleIterated e variants targets states).1 in
  (∀ v, (Z.min (target_of targets v) (min_of states v) ≤ target_of t v ≤ target_of targets v)%Z) ∧
  (∀ role vc, last (sortVariantsForScaleDown e (variantsForRole variants role)) = Some vc →
     ((∀ w, w ∈ variantsForRole variants role →
         number (rec_Cost w) ∧ number (scale_down_weight e (rec_Name w))) →
      ∀ w, w ∈ variantsForRole variants role → flt (rec_Cost w) (rec_Cost vc) = false) ∧
     (fle (rec_PerReplicaCapacity vc) f0 = false → (1 ≤ target_of targets (rec_Name vc))%Z →
      ∃ w, w ∈ variantsForRole variants role ∧ (1 ≤ target_of t (rec_Name w))%Z)) ∧
  (Live e = false → t = targets).
Proof.
  intros Hmin Hok Hnd. cbv zeta. unfold scaleDownRoleIterated.
  destruct (rolesOf_spec variants) as [Hndr Hroles]. split_and!.
  - by apply (scaleDown_roles_bounds variants states Hmin (rolesOf variants) (targets, e)).
  - intros role vc Hl. split.
    + intros Hnum w. by apply (last_is_cheapest e _ Hnum).
    + intros Hp H1. apply (scaleDown_roles_keeps variants states Hmin _ (targets, e) role vc); try done.
      assert (Hin : vc ∈ variantsForRole variants role).
      { rewrite <- (sort_slice_perm (scale_down_less e)). by apply last_Some_elem_of. }
      apply list_elem_of_filter in Hin as [<- Hin]. by apply Hroles.
  - intros Hl. by rewrite scaleDown_not_live.
Qed.

(** A model of two H100 variants, six replicas in all, with spare for four. *)
Definition f_of (n : Z) : float64 := of_int n.
Definition demo_variants : list variantRecord :=
  [MkRecord (MkMetadata "cheap" "" (f_of 5) "H100") (f_of 100) f0;
   MkRecord (MkMetadata "dear" "" (f_of 20) "H100") (f_of 100) f0].
Definition demo_result : AnalyzerResult :=
  MkAnalyzerResult [MkVariantCapacity "cheap" "" (f_of 100) "" (f_of 10) f0;
                    MkVariantCapacity "dear" "" (f_of 100) "" (f_of 30) f0] (f_of 40).
Definition demo_signal (spare : Z) : NamedAnalyzerResult :=
  MkNamed (Some demo_result) f1 f0 (f_of spare) (Some {[RoleBoth := f_of spare]}) None f0 f0 (f_of 600)
    f0 (f_of spare) None true ∅ ∅ ∅.
Definition demo_targets : gmap string Z := {["cheap" := 2%Z; "dear" := 4%Z]}.
Definition demo_states : gmap string VariantReplicaState :=
  {["dear" := MkReplicaState "dear" 4 [] [] "" [] 1 "" (Some 1%Z) None]}.

Lemma scale_down_safe_witness :
  let t := (scaleDownRoleIterated (demo_signal 700) demo_variants demo_targets demo_states).1 in
  (target_of t "dear" = 1%Z ∧ target_of t "cheap" = 0%Z) ∧
  ∃ w, w ∈ variantsForRole demo_variants "both" ∧ (1 ≤ target_of t (rec_Name w))%Z.
Proof.
  cbv zeta. split; [split; vm_compute; reflexivity|].
  refine (proj2 (proj1 (proj2 (scale_down_safe (demo_signal 700) demo_variants demo_targets demo_states
    _ _ _)) "both" (MkRecord (MkMetadata "cheap" "" (f_of 5) "H100") (f_of 100) f0) _) _ _).
  - intros v. unfold min_of, demo_states. destruct (decide (v = "dear")) as [->|Hne].
    + vm_compute. split; discriminate.
    + rewrite lookup_singleton_ne by done. unfold int_max. lia.
  - intros v. unfold target_of, demo_targets.
    destruct (decide (v = "cheap")) as [->|Hc]; [vm_compute; split; discriminate|].
    destruct (decide (v = "dear")) as [->|Hd]; [vm_compute; split; discriminate|].
    rewrite lookup_insert_ne, lookup_singleton_ne by done. simpl. unfold int_max. lia.
  - apply (bool_decide_unpack _). vm_compute. exact I.
  - vm_compute. reflexivity.
  - vm_compute. reflexivity.
  - vm_compute. discriminate.
Defined.

(** The replicas a role may release, times what one serves, are within its
    release budget (the larger of its two) but for the rounding of the division:
    a few parts in 2^52 of the budget, or of the smallest float. *)
Theorem release_within_budget {C : IntConv} e r spare v role :
  let b := release_budget spare (RoleReleasable e) role in
  let prc := prcForVariant r v in
  Result e = Some r → RoleSpare e = Some spare → nonneg b → nonneg prc → (0 < F2R prc)%R →
  (0 ≤ safeRemovalReplicasForRole e v role ≤ maxReplicaCount)%Z ∧
  (IZR (safeRemovalReplicasForRole e v role) * F2R prc <= F2R b * (1 + 3 * eps) + 3 * eta * F2R prc)%R.
Proof.
  cbv zeta. intros Hr Hs Hb Hp Hp0. split; [apply safeRemoval_range|].
  pose proof (safeReplicas_le _ _ Hb Hp Hp0) as Hle. destruct eps_eta_pos.
  pose proof eps_small. destruct Hb as [_ Hb].
  unfold safeRemovalReplicasForRole. rewrite Hr, Hs.
  assert (Hz : (0 * F2R (prcForVariant r v) <=
    F2R (release_budget spare (RoleReleasable e) role) * (1 + 3 * eps) +
    3 * eta * F2R (prcForVariant r v))%R).
  { rewrite Rmult_0_l. apply Rplus_le_le_0_compat; apply Rmult_le_pos; lra. }
  destruct (negb _); [exact Hz|]. destruct (fle _ _); [exact Hz|exact Hle].
Qed.

Lemma release_within_budget_witness :
  let e := demo_signal 450 in
  safeRemovalReplicasForRole e "dear" "both" = 4%Z ∧
  (IZR 4 * F2R (f_of 100) <= F2R (f_of 450) * (1 + 3 * eps) + 3 * eta * F2R (f_of 100))%R.
Proof.
  cbv zeta. split; [vm_compute; reflexivity|].
  pose proof (release_within_budget (demo_signal 450) demo_result {[RoleBoth := f_of 450]} "dear" "both"
    eq_refl eq_refl) as Ht. cbv zeta in Ht.
  replace (safeRemovalReplicasForRole (demo_signal 450) "dear" "both") with 4%Z in Ht
    by (vm_compute; reflexivity).
  replace (release_budget {[RoleBoth := f_of 450]} (RoleReleasable (demo_signal 450)) "both")
    with (f_of 450) in Ht by (vm_compute; reflexivity).
  replace (prcForVariant demo_result "dear") with (f_of 100) in Ht by (vm_compute; reflexivity).
  apply Ht.
  - split; [reflexivity|]. left. apply (F2R_sign false 7916483719987200 (-44)).
  - split; [reflexivity|]. left. apply (F2R_sign false 7036874417766400 (-46)).
  - apply (F2R_sign false 7036874417766400 (-46)).
Defined.

(** The decisions built from the targets are one per variant, and each is well
    formed: its target is the variant's, its action says how the target compares
    with the replicas there are, it names the model and carries the variant's
    bounds, and the GPUs it reports are the target times the variant's GPUs per
    replica, one where they are not known. *)
Theorem decisions_wellformed req stateMap vcMap targets optimizerName :
  let ds := buildDecisionsWithOptimizer req stateMap vcMap targets optimizerName in
  NoDup (VariantName <$> ds) ∧
  (∀ v n, targets !! v = Some n ↔ ∃ d, d ∈ ds ∧ VariantName d = v ∧ TargetReplicas d = n) ∧
  (∀ d, d ∈ ds →
     let st := state_of stateMap (VariantName d) in
     ModelID d = req_ModelID req ∧ dec_Namespace d = req_Namespace req ∧
     CurrentReplicas d = st_CurrentReplicas st ∧
     dec_MinReplicas d = st_MinReplicas st ∧ dec_MaxReplicas d = st_MaxReplicas st ∧
     (dec_Action d = ActionScaleUp ↔ (CurrentReplicas d < TargetReplicas d)%Z) ∧
     (dec_Action d = ActionScaleDown ↔ (TargetReplicas d < CurrentReplicas d)%Z) ∧
     dec_GPUsPerReplica d = (if (st_GPUsPerReplica st <=? 0)%Z then 1 else st_GPUsPerReplica st)%Z ∧
     (in_int (TargetReplicas d * dec_GPUsPerReplica d) →
      GPUsAllocated d = (TargetReplicas d * dec_GPUsPerReplica d)%Z)).
Proof.
  cbv zeta. unfold buildDecisionsWithOptimizer.
  assert (Hd : ∀ p, VariantName (buildDecision req stateMap vcMap optimizerName p) = p.1 ∧
                    TargetReplicas (buildDecision req stateMap vcMap optimizerName p) = p.2).
  { intros [v n]. unfold buildDecision. by repeat case_match. }
  split_and!.
  - rewrite <- list_fmap_compose. rewrite (list_fmap_ext _ fst).
    + apply NoDup_fst_map_to_list.
    + intros i p _. apply Hd.
  - intros v n. rewrite <- elem_of_map_to_list. split.
    + intros Hin. eexists. split; [by apply list_elem_of_fmap_2|]. apply Hd.
    + intros (d & Hin & <- & <-). apply list_elem_of_fmap in Hin as ([v n] & -> & Hin).
      by rewrite (proj1 (Hd (v, n))), (proj2 (Hd (v, n))).
  - intros d Hin. apply list_elem_of_fmap in Hin as ([v n] & -> & Hin). unfold buildDecision.
    destruct (requiredSpareForRoleOrModel _ _), (variantDemandShare _ _ _). cbn.
    unfold decide_action. split_and!; try done;
      [case_match; try case_match; split; try done; lia..|].
    intros Hin'. by rewrite wrap_id.
Qed.
