(* ===== verification/PairFit.v ===== *)
(** * Fitting a joint commit

    The model of [fitPairToBudget], [fitPairToPools] and [fitPairToNodes] of
    [internal/engines/allocation/analyzer_helpers.go], with the limit tracker of
    [gpu_limit_attribution.go].

    One iteration of a scale-up sizes every role of a model on its own; the roles
    are then cut until the ones that draw on a budget key fit it together, and
    placed on a copy of the node view, a replica at a time.  [kByRole] is local to
    the iteration, so a refused fit is [None] here.

    Theorems: the cut counts fit every finite key of the budget together, no role
    is raised and no role that was to grow is cut to nothing, and a fit is refused
    only when one replica of each role of some key does not fit it; on the nodes a
    pair is placed whole, exactly the placed replicas' GPUs are debited, and a
    refused pair leaves the view untouched.  The trimming and placing loops stop
    within the fuel they are given. *)
From Stdlib Require Import ZArith Lia String Ascii SpecFloat.
From stdpp Require Import base gmap strings list sorting fin_maps.
From S2P Require Import Prelude Accelerator Budget NodeView GoFloat Domain Signals.

(** ** What cut a variant short *)
Inductive limitCause :=
| limitedByPool | limitedByNodeFit | limitedByPairWhole | limitedByLenderCannotReclaim.

(** A nil tracker records nothing. *)
Notation gpuLimitTracker := (option (gmap string limitCause)).

Definition mark_cause (c : limitCause) (t : gpuLimitTracker) (variantName : string) : gpuLimitTracker :=
  (λ m, <[variantName := c]> m) <$> t.

Definition mark : gpuLimitTracker → string → gpuLimitTracker := mark_cause limitedByPool.
Definition markNodeFit : gpuLimitTracker → string → gpuLimitTracker := mark_cause limitedByNodeFit.

(** [kByRole[role]], [placed[role]]. *)
Definition count_of (m : gmap string Z) (role : string) : Z := default 0%Z (m !! role).

(** ** The pools *)
Section pools.
Context (gpus : string → Z).

Definition group_sum (k : gmap string Z) (roles : list string) : Z :=
  foldl (λ s role, s ⊞ (count_of k role ⊠ gpus role)) 0%Z roles.

(** The role holding the most GPUs among those with a replica to give, or "". *)
Definition largest_step (k : gmap string Z) (largest role : string) : string :=
  if (1 <? count_of k role)%Z
     && (String.eqb largest ""
         || (count_of k largest ⊠ gpus largest <? count_of k role ⊠ gpus role)%Z)
  then role else largest.

Definition largest_role (k : gmap string Z) (roles : list string) : string :=
  foldl (largest_step k) "" roles.

Fixpoint trim_loop (fuel : nat) (roles : list string) (budget : Z) (k : gmap string Z)
  : option (gmap string Z) :=
  if (group_sum k roles <=? budget)%Z then Some k
  else
    let l := largest_role k roles in
    if String.eqb l "" then None
    else match fuel with
         | O => None
         | S fuel => trim_loop fuel roles budget (<[l := count_of k l ⊟ 1]> k)
         end.

Definition scale_role (budget sum : Z) (k : gmap string Z) (role : string) : gmap string Z :=
  <[role := Z.max 1 (Z.quot (count_of k role ⊠ budget) sum)]> k.

(** One key of the budget and the roles that draw on it. *)
Definition fit_key (available : gmap string Z) (groups : string → list string) (key : string)
    (k : gmap string Z) : option (gmap string Z) :=
  let roles := groups key in
  if bool_decide (available !! key = Some MaxInt) then Some k
  else
    let budget := Z.max (default 0%Z (available !! key)) 0 in
    let sum := group_sum k roles in
    if (sum <=? budget)%Z then Some k
    else
      let k := foldl (scale_role budget sum) k roles in
      trim_loop (Z.to_nat (sumZ (count_of k) roles)) roles budget k.

Definition fit_keys (available : gmap string Z) (groups : string → list string) (keys : list string)
    (k : gmap string Z) : option (gmap string Z) :=
  foldl (λ acc key, acc ≫= fit_key available groups key) (Some k) keys.
End pools.

(** [roleKey]: the budget key of each role that is to grow. *)
Definition role_key (available : gmap string Z) (acc : string → string) (kByRole : gmap string Z)
    (role : string) : option string :=
  if (count_of kByRole role <=? 0)%Z then None else Some (budgetKey available (acc role)).

Definition group_of (picked : list string) (roleKey : string → option string) (key : string)
  : list string :=
  filter (λ role, match roleKey role with Some rk => Covers key rk | None => false end = true) picked.

Definition pool_keys (available : gmap string Z) (picked : list string)
    (roleKey : string → option string) : list string :=
  sort_strings (remove_dups ((map_to_list available).*1 ++ omap roleKey picked)).

Definition fitPairToPools (picked : list string) (kByRole : gmap string Z)
    (variantByRole : gmap string string) (variants : list variantRecord)
    (stateMap : gmap string VariantReplicaState) (available : option (gmap string Z))
  : option (gmap string Z) :=
  match available with
  | None => Some kByRole
  | Some available =>
      if (length picked <? 2)%nat then Some kByRole
      else
        let variant role := default "" (variantByRole !! role) in
        let roleKey := role_key available (λ role, accFromVCs variants (variant role)) kByRole in
        fit_keys (λ role, gpusPerReplicaFromState stateMap (variant role)) available
          (group_of picked roleKey) (pool_keys available picked roleKey) kByRole
  end.

(** ** The nodes *)
Record nodeFit := MkNodeFit {
  nf_nodes : option NodeView; nf_namespace : string; nf_limited : gpuLimitTracker }.

Section nodes.
Context `{TaintMatcher}.

Definition nf_replica (nodes : NodeView) (namespace : string) (variants : list variantRecord)
    (stateMap : gmap string VariantReplicaState) (v : string) : replicaFit :=
  let st := state_of stateMap v in
  fitOf nodes (MkShape (namespace +:+ "/" +:+ v) (accFromVCs variants v) (st_PodGPUs st)
    (gpusPerReplicaFromState stateMap v) (st_Tolerations st) (st_TopologyKey st) (st_Placements st) None).

(** The role furthest behind its share of [kByRole], or "". *)
Definition behind_step (kByRole placed : gmap string Z) (next role : string) : string :=
  let k := count_of kByRole role in
  if (k <=? count_of placed role)%Z then next
  else if String.eqb next ""
          || (count_of placed role ⊠ count_of kByRole next <? count_of placed next ⊠ k)%Z
  then role else next.

Definition next_role (picked : list string) (kByRole placed : gmap string Z) : string :=
  foldl (behind_step kByRole placed) "" picked.

(** Places replicas until every role has its count or one does not place; the
    last component is the role that did not place, or "". *)
Fixpoint place_loop (fuel : nat) (picked : list string) (kByRole : gmap string Z)
    (rep : string → replicaFit) (trial : NodeView) (placed : gmap string Z)
  : NodeView * gmap string Z * string :=
  let next := next_role picked kByRole placed in
  if String.eqb next "" then (trial, placed, "")
  else match fuel with
       | O => (trial, placed, "")
       | S fuel =>
           match place trial (rep next) with
           | (true, trial) =>
               place_loop fuel picked kByRole rep trial (<[next := count_of placed next ⊞ 1]> placed)
           | (false, _) => (trial, placed, next)
           end
       end.

(** [None] when some role was to grow and placed nothing: nothing is committed.
    The tracker records a role the nodes held back either way. *)
Definition fitPairToNodes (picked : list string) (kByRole : gmap string Z)
    (variantByRole : gmap string string) (variants : list variantRecord)
    (stateMap : gmap string VariantReplicaState) (fit : nodeFit)
  : option (gmap string Z) * nodeFit :=
  match nf_nodes fit with
  | None => (Some kByRole, fit)
  | Some nodes =>
      let variant role := default "" (variantByRole !! role) in
      let rep role := nf_replica nodes (nf_namespace fit) variants stateMap (variant role) in
      let fuel := Z.to_nat (sumZ (λ role, Z.max 0 (count_of kByRole role)) picked) in
      let '(trial, placed, short) := place_loop fuel picked kByRole rep (Clone nodes) ∅ in
      let limited := if String.eqb short "" then nf_limited fit
                     else markNodeFit (nf_limited fit) (variant short) in
      if existsb (λ role, (0 <? count_of kByRole role)%Z && (count_of placed role =? 0)%Z) picked
      then (None, MkNodeFit (Some nodes) (nf_namespace fit) limited)
      else (Some (foldl (λ k role, <[role := count_of placed role]> k) kByRole picked),
            MkNodeFit (Some (adopt nodes trial)) (nf_namespace fit) limited)
  end.

Definition fitPairToBudget (picked : list string) (kByRole : gmap string Z)
    (variantByRole : gmap string string) (variants : list variantRecord)
    (stateMap : gmap string VariantReplicaState) (available : option (gmap string Z)) (fit : nodeFit)
  : option (gmap string Z) * nodeFit :=
  match fitPairToPools picked kByRole variantByRole variants stateMap available with
  | None => (None, fit)
  | Some k => fitPairToNodes picked k variantByRole variants stateMap fit
  end.
End nodes.

(** ** Trimming a group *)
Lemma count_of_insert k r n r' :
  count_of (<[r := n]> k) r' = if decide (r = r') then n else count_of k r'.
Proof. unfold count_of. rewrite lookup_insert. by case_decide. Qed.

Section trimming.
Context (gpus : string → Z) (roles : list string).
Hypothesis Hnd : NoDup roles.
Hypothesis Hnamed : "" ∉ roles.
Hypothesis Hgpus : ∀ r, r ∈ roles → (1 ≤ gpus r)%Z.

(** The GPUs the counts take together. *)
Definition taken (k : gmap string Z) : Z := sumZ (λ r, count_of k r * gpus r)%Z roles.

(** Every role is to grow, and the sum is an [int]. *)
Definition growing (k : gmap string Z) : Prop :=
  (∀ r, r ∈ roles → (1 ≤ count_of k r)%Z) ∧ (taken k ≤ int_max)%Z.

Lemma growing_product k r :
  growing k → r ∈ roles → (1 ≤ count_of k r * gpus r ≤ int_max)%Z.
Proof using Type*.
  intros [Hk Ht] Hr. specialize (Hk r Hr) as H1. specialize (Hgpus r Hr) as H2. split; [nia|].
  etrans; [|exact Ht]. apply (sumZ_elem_le (λ r, count_of k r * gpus r)%Z roles r); [|done].
  intros b Hb. specialize (Hk b Hb). specialize (Hgpus b Hb). nia.
Qed.

Lemma int_wrap z : (0 ≤ z ≤ int_max)%Z → wrap z = z.
Proof. intros Hz. apply wrap_id. unfold in_int, int_min, int_max in *. lia. Qed.

Lemma group_sum_taken k : growing k → group_sum gpus k roles = taken k.
Proof using Type*.
  intros Hk. unfold group_sum.
  rewrite (foldl_wrap_sum (λ r, count_of k r ⊠ gpus r)) by (unfold in_int, int_min, int_max; lia).
  rewrite (sumZ_ext _ (λ r, count_of k r * gpus r)%Z).
  - rewrite Z.add_0_l. apply int_wrap. split; [|apply Hk]. apply sumZ_nonneg.
    intros r Hr. pose proof (growing_product k r Hk Hr). lia.
  - intros r Hr. apply int_wrap. pose proof (growing_product k r Hk Hr). lia.
Qed.

Lemma largest_fold k l acc :
  (acc = "" ∨ acc ∈ roles ∧ (1 < count_of k acc)%Z) → l ⊆ roles →
  let r := foldl (largest_step gpus k) acc l in
  (r = "" ∨ r ∈ roles ∧ (1 < count_of k r)%Z) ∧
  (r = "" → acc = "" ∧ ∀ r', r' ∈ l → (count_of k r' ≤ 1)%Z).
Proof using Type*.
  revert acc. induction l as [|x l IH]; intros acc Hacc Hl; simpl.
  { split; [done|]. intros ->. split; [done|]. set_solver. }
  assert (Hx : x ∈ roles) by set_solver.
  destruct (IH (largest_step gpus k acc x)) as [H1 H2]; [|set_solver|].
  { unfold largest_step. destruct (Z.ltb_spec 1 (count_of k x)); simpl; [|done].
    case_match; [by right|done]. }
  split; [done|]. intros Hr. destruct (H2 Hr) as [H3 H4]. unfold largest_step in H3.
  destruct (Z.ltb_spec 1 (count_of k x)) as [Hlt|Hle]; simpl in H3.
  - destruct (String.eqb_spec acc "") as [->|Hne]; simpl in H3; [subst; by destruct Hnamed|].
    case_match; [subst; by destruct Hnamed|done].
  - split; [done|]. intros r' [->|Hr']%elem_of_cons; [lia|by apply H4].
Qed.

Lemma largest_role_spec k :
  let l := largest_role gpus k roles in
  (l = "" → ∀ r, r ∈ roles → (count_of k r ≤ 1)%Z) ∧
  (l ≠ "" → l ∈ roles ∧ (1 < count_of k l)%Z).
Proof using Type*.
  destruct (largest_fold k roles "") as [H1 H2]; [by left|done|]. split.
  - intros Hl. by apply H2.
  - intros Hl. by destruct H1.
Qed.

(** Giving back one replica of a role. *)
Lemma give_one k l :
  growing k → l ∈ roles → (1 < count_of k l)%Z →
  let k' := <[l := count_of k l ⊟ 1]> k in
  growing k' ∧ (∀ r, count_of k' r ≤ count_of k r)%Z ∧ (∀ r, r ∉ roles → k' !! r = k !! r) ∧
  (sumZ (count_of k') roles = sumZ (count_of k) roles - 1)%Z.
Proof using Type*.
  intros Hk Hl H1. cbv zeta. pose proof (growing_product k l Hk Hl). specialize (Hgpus l Hl) as Hg.
  rewrite int_wrap by (destruct Hk; nia).
  assert (Hle : ∀ r, (count_of (<[l := (count_of k l - 1)%Z]> k) r ≤ count_of k r)%Z).
  { intros r. rewrite count_of_insert. case_decide; subst; lia. }
  split_and!; [|done|..].
  - split.
    + intros r Hr. rewrite count_of_insert. case_decide; [subst; lia|by apply Hk].
    + etrans; [|apply Hk]. apply sumZ_le. intros r Hr. specialize (Hle r). specialize (Hgpus r Hr). nia.
  - intros r Hr. rewrite lookup_insert_ne; [done|]. by intros ->.
  - pose proof (sumZ_change (count_of (<[l := (count_of k l - 1)%Z]> k)) (count_of k) roles l Hnd Hl) as Hs.
    rewrite (count_of_insert k l _ l), decide_True in Hs by done. rewrite <- (Z.add_cancel_r _ _ (- (count_of k l - 1)))%Z.
    rewrite Z.add_opp_r, Hs; [lia|]. intros b Hb Hne. rewrite count_of_insert, decide_False; [done|congruence].
Qed.

Lemma spare_counts k l :
  growing k → l ∈ roles →
  (count_of k l - 1 ≤ sumZ (count_of k) roles - Z.of_nat (length roles))%Z.
Proof using Type*.
  intros [Hk _] Hl. clear Hnd Hnamed.
  assert (Hs : (sumZ (count_of k) roles - Z.of_nat (length roles) = sumZ (λ r, count_of k r - 1) roles)%Z).
  { rewrite (sumZ_minus (count_of k) (λ _, 1%Z)). f_equal. clear. induction roles as [|r l IH]; [done|].
    rewrite sumZ_cons, <- IH. simpl length. lia. }
  rewrite Hs. apply (sumZ_elem_le (λ r, count_of k r - 1)%Z); [|done].
  intros r Hr. specialize (Hk r Hr). lia.
Qed.

Lemma trim_loop_spec fuel budget k :
  growing k → (sumZ (count_of k) roles - Z.of_nat (length roles) ≤ Z.of_nat fuel)%Z →
  match trim_loop gpus fuel roles budget k with
  | Some k' => growing k' ∧ (taken k' ≤ budget)%Z ∧ (∀ r, count_of k' r ≤ count_of k r)%Z ∧
               (∀ r, r ∉ roles → k' !! r = k !! r)
  | None => (budget < sumZ gpus roles)%Z
  end.
Proof using Type*.
  revert k. induction fuel as [|fuel IH]; intros k Hk Hf; cbn [trim_loop];
    rewrite (group_sum_taken k Hk); (destruct (Z.leb_spec (taken k) budget) as [Hle|Hgt];
      [split_and!; [done|done|done|done]|]);
    destruct (largest_role_spec k) as [Hnone Hsome];
    (destruct (String.eqb_spec (largest_role gpus k roles) "") as [Hl|Hl];
      [eapply Z.lt_le_trans; [exact Hgt|]; apply sumZ_le; intros r Hr;
       specialize (Hnone Hl r Hr); destruct Hk as [Hk _]; specialize (Hk r Hr);
       assert (count_of k r = 1%Z) as -> by lia; lia|]);
    destruct (Hsome Hl) as [Hin H1].
  - exfalso. pose proof (spare_counts k _ Hk Hin). lia.
  - destruct (give_one k _ Hk Hin H1) as (Hk' & Hle & Hout & Hsum).
    specialize (IH _ Hk' ltac:(lia)). destruct (trim_loop _ _ _ _ _) as [k'|]; [|done].
    destruct IH as (G1 & G2 & G3 & G4). split_and!; [done|done|..].
    + intros r. specialize (G3 r). specialize (Hle r). lia.
    + intros r Hr. rewrite G4, Hout; done.
Qed.
End trimming.

(** ** One key *)
Lemma scale_roles_count budget sum l k r :
  NoDup l →
  count_of (foldl (scale_role budget sum) k l) r =
  if decide (r ∈ l) then Z.max 1 (Z.quot (count_of k r ⊠ budget) sum) else count_of k r.
Proof.
  revert k. induction l as [|x l IH]; intros k Hnd; cbn [foldl].
  { rewrite decide_False; [done|set_solver]. }
  apply NoDup_cons in Hnd as [Hx Hnd]. rewrite IH by done. unfold scale_role at 1 2.
  rewrite !count_of_insert. destruct (decide (x = r)) as [->|Hne].
  - rewrite (decide_False (P := r ∈ l)) by done. by rewrite decide_True by set_solver.
  - destruct (decide (r ∈ l)); [by rewrite decide_True by set_solver|].
    by rewrite decide_False by set_solver.
Qed.

Lemma scale_roles_out budget sum l k r :
  r ∉ l → foldl (scale_role budget sum) k l !! r = k !! r.
Proof.
  revert k. induction l as [|x l IH]; intros k Hr; cbn [foldl]; [done|].
  rewrite IH by set_solver. unfold scale_role. rewrite lookup_insert_ne; [done|set_solver].
Qed.

Definition finite_key (available : gmap string Z) (key : string) : Prop :=
  available !! key ≠ Some MaxInt.

Definition key_budget (available : gmap string Z) (key : string) : Z :=
  Z.max (default 0%Z (available !! key)) 0.

(** Finite budgets well within [int]. *)
Definition small_budgets (available : gmap string Z) : Prop :=
  ∀ key v, available !! key = Some v → v = MaxInt ∨ (v ≤ 4294967296)%Z.

Section one_key.
Context (gpus : string → Z) (available : gmap string Z) (groups : string → list string) (key : string).
Hypothesis Hsmall : small_budgets available.
#[local] Notation roles := (groups key).
Hypothesis Hnd : NoDup roles.
Hypothesis Hnamed : "" ∉ roles.
Hypothesis Hgpus : ∀ r, r ∈ roles → (1 ≤ gpus r)%Z.

Lemma scaled_growing k :
  growing gpus roles k → (∀ r, r ∈ roles → count_of k r ≤ maxReplicaCount)%Z → finite_key available key →
  (key_budget available key < taken gpus roles k)%Z →
  let k1 := foldl (scale_role (key_budget available key) (taken gpus roles k)) k roles in
  growing gpus roles k1 ∧ (∀ r, count_of k1 r ≤ count_of k r)%Z.
Proof using Type*.
  intros Hk Hmax Hfin Hgt. cbv zeta. set (b := key_budget available key) in *.
  set (t := taken gpus roles k) in *.
  assert (Hb : (0 ≤ b ≤ 4294967296)%Z).
  { unfold b, key_budget, finite_key in *. split; [lia|].
    destruct (available !! key) as [v|] eqn:Hv; simpl; [|lia]. destruct (Hsmall _ _ Hv); [congruence|lia]. }
  assert (Hle : ∀ r, (count_of (foldl (scale_role b t) k roles) r ≤ count_of k r)%Z ∧
    (r ∈ roles → 1 ≤ count_of (foldl (scale_role b t) k roles) r)%Z).
  { intros r. rewrite scale_roles_count by done. case_decide as Hr; [|split; [lia|done]].
    destruct Hk as [Hk _]. specialize (Hk r Hr). specialize (Hmax r Hr). unfold maxReplicaCount in Hmax.
    rewrite int_wrap by (unfold int_max; nia). split; [|lia].
    rewrite Z.quot_div_nonneg by nia. apply Z.max_lub; [lia|].
    apply Z.div_le_upper_bound; [lia|]. nia. }
  split; [split|].
  - intros r Hr. by apply Hle.
  - etrans; [|apply Hk]. apply sumZ_le. intros r Hr. destruct (Hle r). specialize (Hgpus r Hr). nia.
  - intros r. apply Hle.
Qed.

Lemma fit_key_spec k :
  growing gpus roles k → (∀ r, r ∈ roles → count_of k r ≤ maxReplicaCount)%Z →
  match fit_key gpus available groups key k with
  | Some k' =>
      growing gpus roles k' ∧ (∀ r, count_of k' r ≤ count_of k r)%Z ∧
      (∀ r, r ∉ roles → k' !! r = k !! r) ∧
      (finite_key available key → (taken gpus roles k' ≤ key_budget available key)%Z)
  | None => finite_key available key ∧ (key_budget available key < sumZ gpus roles)%Z
  end.
Proof using Type*.
  intros Hk Hmax. unfold fit_key. case_bool_decide as Hb; [split_and!; done|].
  fold (key_budget available key). rewrite (group_sum_taken gpus roles Hnd Hnamed Hgpus k Hk).
  destruct (Z.leb_spec (taken gpus roles k) (key_budget available key)) as [Hle|Hgt]; [by split_and!|].
  destruct (scaled_growing k Hk Hmax Hb Hgt) as [Hk1 Hle1].
  set (k1 := foldl _ k roles) in *.
  pose proof (trim_loop_spec gpus roles Hnd Hnamed Hgpus (Z.to_nat (sumZ (count_of k1) roles))
    (key_budget available key) k1 Hk1) as Ht.
  assert (0 ≤ sumZ (count_of k1) roles)%Z.
  { apply sumZ_nonneg. intros r Hr. destruct Hk1 as [Hk1 _]. specialize (Hk1 r Hr). lia. }
  specialize (Ht ltac:(lia)). destruct (trim_loop _ _ _ _ _) as [k'|]; [|by split].
  destruct Ht as (G1 & G2 & G3 & G4). split_and!; [done|..|done].
  - intros r. specialize (G3 r). specialize (Hle1 r). lia.
  - intros r Hr. rewrite G4 by done. by apply scale_roles_out.
Qed.
End one_key.

(** ** All keys *)
Section all_keys.
Context (gpus : string → Z) (available : gmap string Z) (groups : string → list string).
Context (k0 : gmap string Z).
Hypothesis Hsmall : small_budgets available.
Hypothesis Hnd : ∀ key, NoDup (groups key).
Hypothesis Hnamed : ∀ key, "" ∉ groups key.
Hypothesis Hgpus : ∀ key r, r ∈ groups key → (1 ≤ gpus r)%Z.
Hypothesis Hk0 : ∀ key, growing gpus (groups key) k0.
Hypothesis Hmax : ∀ key r, r ∈ groups key → (count_of k0 r ≤ maxReplicaCount)%Z.

(** Cut from [k0], with every role that was to grow still growing. *)
Definition cut (k : gmap string Z) : Prop :=
  (∀ r, count_of k r ≤ count_of k0 r)%Z ∧ (∀ key r, r ∈ groups key → (1 ≤ count_of k r)%Z) ∧
  (∀ r, (∀ key, r ∉ groups key) → k !! r = k0 !! r).

Lemma cut_growing k key : cut k → growing gpus (groups key) k.
Proof using Type*.
  intros (H1 & H2 & _). split; [by apply H2|]. etrans; [|apply (Hk0 key)]. apply sumZ_le.
  intros r Hr. specialize (H1 r). specialize (Hgpus key r Hr). nia.
Qed.

Definition key_fits (k : gmap string Z) (key : string) : Prop :=
  finite_key available key → (taken gpus (groups key) k ≤ key_budget available key)%Z.

Lemma fit_keys_spec keys k :
  cut k →
  match foldl (λ acc key, acc ≫= fit_key gpus available groups key) (Some k) keys with
  | Some k' => cut k' ∧ (∀ r, count_of k' r ≤ count_of k r)%Z ∧ ∀ key, key ∈ keys → key_fits k' key
  | None => ∃ key, key ∈ keys ∧ finite_key available key ∧
                   (key_budget available key < sumZ gpus (groups key))%Z
  end.
Proof using Type*.
  revert k. induction keys as [|key keys IH]; intros k Hc; cbn [foldl].
  { split_and!; [done|done|set_solver]. }
  cbn [mbind option_bind].
  pose proof (fit_key_spec gpus available groups key Hsmall (Hnd key) (Hnamed key) (Hgpus key) k
    (cut_growing k key Hc)) as Hs.
  destruct (fit_key gpus available groups key k) as [k1|].
  - destruct Hs as (G1 & G2 & G3 & G4).
    { intros r Hr. destruct Hc as [Hc _]. specialize (Hc r). specialize (Hmax key r Hr). lia. }
    assert (Hc1 : cut k1).
    { destruct Hc as (C1 & C2 & C3). split_and!.
      - intros r. specialize (C1 r). specialize (G2 r). lia.
      - intros key' r Hr. destruct (decide (r ∈ groups key)) as [Hin|Hout]; [by apply G1|].
        unfold count_of. rewrite (G3 r Hout). by apply (C2 key').
      - intros r Hr. rewrite G3 by apply Hr. by apply C3. }
    specialize (IH k1 Hc1). destruct (foldl _ _ keys) as [k'|].
    + destruct IH as (I1 & I2 & I3). split_and!; [done|..].
      * intros r. specialize (I2 r). specialize (G2 r). lia.
      * intros key' [->|Hin]%elem_of_cons; [|by apply I3]. intros Hfin.
        etrans; [|by apply G4]. apply sumZ_le. intros r Hr. specialize (I2 r).
        specialize (Hgpus key r Hr). nia.
    + destruct IH as (key' & ? & ? & ?). exists key'. split_and!; [set_solver|done|done].
  - assert (∀ l, foldl (λ acc key, acc ≫= fit_key gpus available groups key) None l = None) as ->.
    { intros l. induction l; [done|]. done. }
    destruct Hs as [? ?].
    { intros r Hr. destruct Hc as [Hc _]. specialize (Hc r). specialize (Hmax key r Hr). lia. }
    exists key. split_and!; [set_solver|done|done].
Qed.
End all_keys.

Lemma gpusPerReplica_pos stateMap v : (1 ≤ gpusPerReplicaFromState stateMap v)%Z.
Proof. unfold gpusPerReplicaFromState. repeat case_match; lia. Qed.

(** The draws of a commit: each role's GPUs, under the key its accelerator is
    spent from. *)
Definition commit_spends (b : gmap string Z) (picked : list string) (k : gmap string Z)
    (variantByRole : gmap string string) (variants : list variantRecord)
    (stateMap : gmap string VariantReplicaState) : list (string * Z) :=
  (λ role, let v := default "" (variantByRole !! role) in
           (budgetKey b (accFromVCs variants v), count_of k role * gpusPerReplicaFromState stateMap v)%Z)
    <$> picked.

Section fit_pools.
Context (picked : list string) (kByRole : gmap string Z) (variantByRole : gmap string string).
Context (variants : list variantRecord) (stateMap : gmap string VariantReplicaState).
Context (b : gmap string Z).
#[local] Notation gpus := (λ role, gpusPerReplicaFromState stateMap (default "" (variantByRole !! role))).
Hypothesis Hnd : NoDup picked.
Hypothesis Hnamed : "" ∉ picked.
Hypothesis Hk : ∀ r, r ∈ picked → (0 ≤ count_of kByRole r ≤ maxReplicaCount)%Z.
Hypothesis Hint : (sumZ (λ r, count_of kByRole r * gpus r)%Z picked ≤ int_max)%Z.
Hypothesis Hsmall : small_budgets b.

#[local] Notation roleKey :=
  (role_key b (λ role, accFromVCs variants (default "" (variantByRole !! role))) kByRole).
#[local] Notation groups := (group_of picked roleKey).

Lemma group_elem key r :
  r ∈ groups key ↔ r ∈ picked ∧ (0 < count_of kByRole r)%Z ∧
    Covers key (budgetKey b (accFromVCs variants (default "" (variantByRole !! r)))) = true.
Proof.
  unfold group_of. rewrite list_elem_of_filter. unfold role_key.
  destruct (Z.leb_spec (count_of kByRole r) 0); split; intros Hx; destruct_and?; try done; try lia.
Qed.

Lemma group_growing key : growing gpus (groups key) kByRole.
Proof using Hk Hint.
  split.
  - intros r Hr%group_elem. lia.
  - etrans; [|exact Hint]. apply sumZ_sublist; [|apply sublist_filter].
    intros r Hr. specialize (Hk r Hr). pose proof (gpusPerReplica_pos stateMap (default "" (variantByRole !! r))).
    simpl. nia.
Qed.

(** What a group takes is what the commit draws under its key. *)
Lemma group_taken k key :
  cut (groups) kByRole k →
  taken gpus (groups key) k =
  covered_spend key (commit_spends b picked k variantByRole variants stateMap).
Proof using Hk.
  intros (C1 & C2 & C3). unfold covered_spend, commit_spends, taken. rewrite sumZ_fmap.
  unfold group_of. clear Hnd Hnamed Hint Hsmall.
  assert (Hz : ∀ r, r ∈ picked → (count_of kByRole r ≤ 0)%Z → count_of k r = 0%Z).
  { intros r Hr Hle. unfold count_of at 1. rewrite C3; [fold (count_of kByRole r); specialize (Hk r Hr); lia|].
    intros key' Hin%group_elem. lia. }
  clear C1 C2 C3. induction picked as [|r l IH]; [done|]. rewrite sumZ_cons. rewrite filter_cons.
  assert (IHs := IH (λ r' Hr', Hk r' (list_elem_of_further _ _ _ Hr'))
    (λ r' Hr', Hz r' (list_elem_of_further _ _ _ Hr'))).
  specialize (Hz r (list_elem_of_here _ _)).
  assert (Hin := Hk r (list_elem_of_here _ _)).
  case_decide as Hd; unfold role_key in Hd;
    destruct (Z.leb_spec (count_of kByRole r) 0) as [Hle|Hgt]; try done; cbn [fst snd].
  - rewrite sumZ_cons, Hd. etrans; [apply (f_equal (Z.add _)), IHs|]. reflexivity.
  - rewrite (Hz Hle). case_match; (etrans; [exact IHs|]); reflexivity.
  - apply not_true_is_false in Hd. rewrite Hd. etrans; [exact IHs|]. reflexivity.
Qed.

Lemma pool_keys_elem key : is_Some (b !! key) → key ∈ pool_keys b picked roleKey.
Proof. intros Hs. unfold pool_keys. rewrite sort_strings_perm, elem_of_remove_dups, elem_of_app, elem_of_keys. by left. Qed.

Lemma fitPairToPools_spec :
  (2 ≤ length picked)%nat →
  match fitPairToPools picked kByRole variantByRole variants stateMap (Some b) with
  | Some k' =>
      (∀ r, count_of k' r ≤ count_of kByRole r)%Z ∧
      (∀ r, r ∈ picked → (0 < count_of kByRole r)%Z → (1 ≤ count_of k' r)%Z) ∧
      (∀ r, r ∉ picked ∨ (count_of kByRole r ≤ 0)%Z → k' !! r = kByRole !! r) ∧
      (∀ key v, b !! key = Some v → v ≠ MaxInt →
         (covered_spend key (commit_spends b picked k' variantByRole variants stateMap) ≤ Z.max v 0)%Z)
  | None => ∃ key, finite_key b key ∧ (key_budget b key < sumZ gpus (groups key))%Z
  end.
Proof using Hnd Hnamed Hk Hint Hsmall.
  intros Hlen. unfold fitPairToPools. rewrite (proj2 (Nat.ltb_ge _ _)) by lia.
  assert (Hg : ∀ key r, r ∈ groups key → (1 ≤ gpus r)%Z) by (intros; apply gpusPerReplica_pos).
  assert (Hself : cut groups kByRole kByRole).
  { split_and!; [done|intros key r Hr%group_elem; lia|done]. }
  pose proof (fit_keys_spec gpus b groups kByRole Hsmall
    (λ key, NoDup_filter _ _ Hnd)
    (λ key H, Hnamed (proj1 (proj1 (group_elem key "") H))) Hg group_growing
    (λ key r H, proj2 (Hk r (proj1 (proj1 (group_elem key r) H))))
    (pool_keys b picked roleKey) kByRole Hself) as Hs.
  unfold fit_keys. destruct (foldl _ _ _) as [k'|].
  - destruct Hs as (Hc & Hle & Hfit). split_and!; [done|..].
    + intros r Hr Hpos. destruct Hc as (_ & C2 & _).
      eapply (C2 (budgetKey b (accFromVCs variants (default "" (variantByRole !! r))))).
      apply group_elem. split_and!; [done|done|]. unfold Covers. by rewrite EqualFold_refl.
    + intros r Hr. destruct Hc as (_ & _ & C3). apply C3. intros key Hin%group_elem. destruct Hr; [tauto|lia].
    + intros key v Hv Hne. rewrite <- group_taken by done.
      specialize (Hfit key (pool_keys_elem key (mk_is_Some _ _ Hv))). unfold key_fits, finite_key, key_budget in Hfit.
      rewrite Hv in Hfit. apply Hfit. congruence.
  - destruct Hs as (key & _ & ? & ?). by exists key.
Qed.
End fit_pools.

(** ** Placing a commit on the nodes *)
Section placing_pairs.
Context `{TaintMatcher} (picked : list string) (kByRole : gmap string Z) (rep : string → replicaFit).
Context (v0 : NodeView).
Hypothesis Hnd : NoDup picked.
Hypothesis Hnamed : "" ∉ picked.
Hypothesis Hk : ∀ r, r ∈ picked → (0 ≤ count_of kByRole r ≤ maxReplicaCount)%Z.

Lemma behind_fold placed l acc :
  (acc = "" ∨ acc ∈ picked ∧ (count_of placed acc < count_of kByRole acc)%Z) → l ⊆ picked →
  let r := foldl (behind_step kByRole placed) acc l in
  (r = "" ∨ r ∈ picked ∧ (count_of placed r < count_of kByRole r)%Z) ∧
  (r = "" → acc = "" ∧ ∀ r', r' ∈ l → (count_of kByRole r' ≤ count_of placed r')%Z).
Proof using Hnamed.
  clear Hnd Hk v0 rep. revert acc. induction l as [|x l IH]; intros acc Hacc Hl; simpl.
  { split; [done|]. intros ->. split; [done|]. set_solver. }
  assert (Hx : x ∈ picked) by set_solver.
  destruct (IH (behind_step kByRole placed acc x)) as [H1 H2]; [|set_solver|].
  { unfold behind_step. destruct (Z.leb_spec (count_of kByRole x) (count_of placed x)); [done|].
    case_match; [by right|done]. }
  split; [done|]. intros Hr. destruct (H2 Hr) as [H3 H4]. unfold behind_step in H3.
  destruct (Z.leb_spec (count_of kByRole x) (count_of placed x)) as [Hle|Hlt].
  - split; [done|]. intros r' [->|Hr']%elem_of_cons; [done|by apply H4].
  - destruct (String.eqb_spec acc "") as [->|Hne]; simpl in H3; [subst; by destruct Hnamed|].
    case_match; [subst; by destruct Hnamed|done].
Qed.

Lemma next_role_spec placed :
  let n := next_role picked kByRole placed in
  (n = "" → ∀ r, r ∈ picked → (count_of kByRole r ≤ count_of placed r)%Z) ∧
  (n ≠ "" → n ∈ picked ∧ (count_of placed n < count_of kByRole n)%Z).
Proof using Hnamed.
  clear Hnd Hk v0 rep. destruct (behind_fold placed picked "") as [H1 H2]; [by left|done|]. split.
  - intros Hl. by apply H2.
  - intros Hl. by destruct H1.
Qed.

(** The GPUs of what has been placed. *)
Definition placed_gpus (placed : gmap string Z) : Z :=
  sumZ (λ r, count_of placed r * pods_total (rep r))%Z picked.

(** A tentative placement under way. *)
Record trying (trial : NodeView) (placed : gmap string Z) : Prop := {
  try_wf : wf trial;
  try_grows : grows v0 trial;
  try_total : total_debit trial = (total_debit v0 + placed_gpus placed)%Z;
  try_count : ∀ r, r ∈ picked → (0 ≤ count_of placed r ≤ count_of kByRole r)%Z }.

Lemma place_next trial placed next trial' :
  trying trial placed → next ∈ picked → (count_of placed next < count_of kByRole next)%Z →
  place trial (rep next) = (true, trial') →
  let placed' := <[next := count_of placed next ⊞ 1]> placed in
  trying trial' placed' ∧ (sumZ (count_of placed') picked = sumZ (count_of placed) picked + 1)%Z.
Proof using All.
  intros Ht Hin Hlt Hp. cbv zeta. unfold place in Hp.
  destruct (place_opt trial (rep next)) as [t1|] eqn:E; [|done]. injection Hp as <-.
  destruct (place_opt_spec _ _ _ (try_wf _ _ Ht) E) as (dom & assign & Hpl).
  pose proof (try_count _ _ Ht next Hin) as Hc. specialize (Hk next Hin) as Hkn.
  assert (count_of placed next ⊞ 1 = count_of placed next + 1)%Z as ->.
  { apply int_wrap. unfold int_max, maxReplicaCount in *. lia. }
  set (placed' := <[next := (count_of placed next + 1)%Z]> placed).
  assert (Hn : count_of placed' next = (count_of placed next + 1)%Z).
  { unfold placed'. by rewrite count_of_insert, decide_True. }
  assert (Ho : ∀ r, r ≠ next → count_of placed' r = count_of placed r).
  { intros r Hr. unfold placed'. by rewrite count_of_insert, decide_False. }
  split; [split|].
  - apply Hpl.
  - etrans; [apply Ht|by eapply placed_grows].
  - rewrite (placed_total _ _ _ _ _ Hpl), (try_total _ _ Ht). unfold placed_gpus.
    pose proof (sumZ_change (λ r, count_of placed' r * pods_total (rep r))%Z
      (λ r, count_of placed r * pods_total (rep r))%Z picked next Hnd Hin) as Hs. cbv beta in Hs.
    rewrite Hn in Hs.
    assert (Hs' := Hs (λ r _ Hr, f_equal (λ x, x * pods_total (rep r))%Z (Ho r Hr))). lia.
  - intros r Hr. destruct (decide (r = next)) as [->|Hne]; [lia|]. rewrite Ho by done. by apply Ht.
  - pose proof (sumZ_change (count_of placed') (count_of placed) picked next Hnd Hin) as Hs.
    rewrite Hn in Hs. specialize (Hs (λ r _ Hr, Ho r Hr)). lia.
Qed.

(** The loop ends with every role at its count, or short of one that did not
    place; it never runs out of fuel. *)
Lemma place_loop_spec fuel trial placed :
  trying trial placed →
  (sumZ (λ r, Z.max 0 (count_of kByRole r)) picked - sumZ (count_of placed) picked ≤ Z.of_nat fuel)%Z →
  let '(t, p, short) := place_loop fuel picked kByRole rep trial placed in
  trying t p ∧
  (if String.eqb short "" then ∀ r, r ∈ picked → count_of p r = count_of kByRole r
   else short ∈ picked ∧ (count_of p short < count_of kByRole short)%Z ∧ place_opt t (rep short) = None).
Proof using All.
  revert trial placed. induction fuel as [|fuel IH]; intros trial placed Ht Hf; cbn [place_loop];
    destruct (next_role_spec placed) as [Hnone Hsome];
    (destruct (String.eqb_spec (next_role picked kByRole placed) "") as [Hn|Hn];
     [split; [done|]; intros r Hr; specialize (Hnone Hn r Hr); pose proof (try_count _ _ Ht r Hr); lia|]);
    destruct (Hsome Hn) as [Hin Hlt]; clear Hnone Hsome; set (next := next_role picked kByRole placed) in *.
  - exfalso. pose proof (sumZ_elem_le (λ r, Z.max 0 (count_of kByRole r) - count_of placed r)%Z picked next) as Hle.
    rewrite sumZ_minus in Hle. cbv beta in Hle.
    enough (Z.max 0 (count_of kByRole next) - count_of placed next ≤ 0)%Z by lia.
    etrans; [apply Hle; [|done]|lia]. intros r Hr. pose proof (try_count _ _ Ht r Hr). lia.
  - destruct (place trial (rep next)) as [[] t1] eqn:Hp.
    + destruct (place_next _ _ _ _ Ht Hin Hlt Hp) as [Ht1 Hsum]. apply IH; [done|lia].
    + split; [done|]. rewrite (proj2 (String.eqb_neq next "")) by done. split_and!; [done|done|].
      unfold place in Hp. by destruct (place_opt trial (rep next)).
Qed.
End placing_pairs.

(** ** The two fits, as one step *)
Section fit_nodes.
Context `{TaintMatcher} (picked : list string) (kByRole : gmap string Z).
Context (variantByRole : gmap string string) (variants : list variantRecord).
Context (stateMap : gmap string VariantReplicaState) (fit : nodeFit) (v : NodeView).
Hypothesis Hnd : NoDup picked.
Hypothesis Hnamed : "" ∉ picked.
Hypothesis Hk : ∀ r, r ∈ picked → (0 ≤ count_of kByRole r ≤ maxReplicaCount)%Z.
Hypothesis Hv : nf_nodes fit = Some v.
Hypothesis Hwf : wf v.
#[local] Notation variant := (λ r, default "" (variantByRole !! r)).
#[local] Notation rep := (λ r, nf_replica v (nf_namespace fit) variants stateMap (variant r)).

Lemma placed_counts (p k : gmap string Z) l r :
  count_of (foldl (λ k role, <[role := count_of p role]> k) k l) r =
  if decide (r ∈ l) then count_of p r else count_of k r.
Proof.
  clear. revert k. induction l as [|x l IH]; intros k; cbn [foldl].
  { rewrite decide_False; [done|set_solver]. }
  rewrite IH, count_of_insert. destruct (decide (r ∈ l)); [by rewrite decide_True by set_solver|].
  destruct (decide (x = r)) as [->|Hne]; [by rewrite decide_True by set_solver|].
  by rewrite decide_False by set_solver.
Qed.

Lemma fitPairToNodes_spec :
  match fitPairToNodes picked kByRole variantByRole variants stateMap fit with
  | (Some k', fit') =>
      (∀ r, r ∈ picked → (0 ≤ count_of k' r ≤ count_of kByRole r)%Z ∧
                         ((0 < count_of kByRole r)%Z → (1 ≤ count_of k' r)%Z)) ∧
      (∀ r, r ∉ picked → count_of k' r = count_of kByRole r) ∧
      (∃ v', nf_nodes fit' = Some v' ∧ wf v' ∧ grows v v' ∧ owner v' = owner v ∧
         total_debit v' =
         (total_debit v + sumZ (λ r, count_of k' r * pods_total (rep r))%Z picked)%Z) ∧
      (nf_limited fit' = nf_limited fit ∧ (∀ r, r ∈ picked → count_of k' r = count_of kByRole r) ∨
       ∃ r, r ∈ picked ∧ (count_of k' r < count_of kByRole r)%Z ∧
            nf_limited fit' = markNodeFit (nf_limited fit) (variant r))
  | (None, fit') =>
      nf_nodes fit' = Some v ∧
      ∃ r, r ∈ picked ∧ (0 < count_of kByRole r)%Z ∧ ∃ t, grows v t ∧ place_opt t (rep r) = None
           ∧ nf_limited fit' = markNodeFit (nf_limited fit) (variant r)
  end ∧ nf_namespace (fitPairToNodes picked kByRole variantByRole variants stateMap fit).2 = nf_namespace fit.
Proof using All.
  unfold fitPairToNodes. rewrite Hv.
  set (fuel := Z.to_nat _).
  assert (Hstart : trying picked kByRole rep v (Clone v) ∅).
  { split; [by apply Clone_wf|apply Clone_grows| |].
    - unfold placed_gpus. rewrite (sumZ_ext _ (λ _, 0%Z)), sumZ_zero by done.
      rewrite Z.add_0_r. by apply total_debit_eq.
    - intros r Hr. specialize (Hk r Hr). unfold count_of at 1 2. rewrite lookup_empty. simpl. lia. }
  pose proof (place_loop_spec picked kByRole rep v Hnd Hnamed Hk fuel (Clone v) ∅ Hstart) as Hl.
  assert (Hnn : (0 ≤ sumZ (λ r, Z.max 0 (count_of kByRole r)) picked)%Z) by (apply sumZ_nonneg; lia).
  rewrite (sumZ_ext (count_of ∅) (λ _, 0%Z)), sumZ_zero in Hl by done.
  specialize (Hl ltac:(unfold fuel; lia)).
  destruct (place_loop _ _ _ _ _ _) as [[t p] short]. destruct Hl as [[Tw Tg Tt Tc] Hshort].
  destruct (existsb _ picked) eqn:Hex; (split; [|done]).
  - split; [done|]. apply existsb_exists in Hex as (r & Hr%list_elem_of_In & Hx).
    destruct (String.eqb_spec short "") as [->|Hs].
    { exfalso. specialize (Hshort r Hr). lia. }
    destruct Hshort as (Hin & Hlt & Hno). exists short. specialize (Hk short Hin).
    specialize (Tc short Hin). split_and!; [done|lia|]. by exists t.
  - destruct (adopt_wf v t Hwf Tw Tg) as (A1 & A2 & A3 & A4 & _).
    assert (Hcnt : ∀ r, r ∈ picked → count_of (foldl (λ k role, <[role := count_of p role]> k) kByRole picked) r = count_of p r).
    { intros r Hr. by rewrite placed_counts, decide_True. }
    split_and!.
    + intros r Hr. rewrite Hcnt by done. split; [by apply Tc|]. intros Hpos.
      destruct (Z.eq_dec (count_of p r) 0%Z) as [Hz|?]; [|specialize (Tc r Hr); lia].
      exfalso. apply not_true_iff_false in Hex. apply Hex, existsb_exists. exists r.
      split; [by apply list_elem_of_In|]. lia.
    + intros r Hr. by rewrite placed_counts, decide_False.
    + exists (adopt v t). split_and!; [done|done|done|done|].
      rewrite (total_debit_eq _ t); [|destruct A2 as [-> _]; symmetry; apply Tg|done].
      rewrite Tt. f_equal. apply sumZ_ext. intros r Hr. by rewrite Hcnt.
    + destruct (String.eqb_spec short "") as [->|Hs].
      * left. split; [done|]. intros r Hr. rewrite Hcnt by done. by apply Hshort.
      * right. destruct Hshort as (Hin & Hlt & _). exists short. rewrite Hcnt by done. done.
Qed.
End fit_nodes.

(** ** Properties *)

(** When several roles of a model are to grow together, their counts are cut
    to fit the budget as a whole: no count is raised, a role that was to grow still
    gets a replica, the others are untouched, and the GPUs of all the roles under
    each finite key, of a product or a family, are within what it holds; it gives
    up only when one replica of every role under some finite key does not fit. *)
Theorem pair_fits_budget picked kByRole variantByRole variants stateMap b :
  NoDup picked → "" ∉ picked → (2 ≤ length picked)%nat → small_budgets b →
  (∀ r, r ∈ picked → (0 ≤ count_of kByRole r ≤ maxReplicaCount)%Z) →
  (sumZ (λ r, count_of kByRole r *
     gpusPerReplicaFromState stateMap (default "" (variantByRole !! r))) picked ≤ int_max)%Z →
  match fitPairToPools picked kByRole variantByRole variants stateMap (Some b) with
  | Some k =>
      (∀ r, (count_of k r ≤ count_of kByRole r)%Z) ∧
      (∀ r, r ∈ picked → (0 < count_of kByRole r)%Z → (1 ≤ count_of k r)%Z) ∧
      (∀ r, r ∉ picked ∨ (count_of kByRole r ≤ 0)%Z → k !! r = kByRole !! r) ∧
      (∀ key v, b !! key = Some v → v ≠ MaxInt →
         (covered_spend key (commit_spends b picked k variantByRole variants stateMap) ≤ Z.max v 0)%Z)
  | None =>
      ∃ key, b !! key ≠ Some MaxInt ∧
        (Z.max (default 0%Z (b !! key)) 0 < sumZ (λ r, gpusPerReplicaFromState stateMap (default "" (variantByRole !! r)))
           (filter (λ r, (0 < count_of kByRole r)%Z ∧
              Covers key (budgetKey b (accFromVCs variants (default "" (variantByRole !! r)))) = true) picked))%Z
  end.
Proof.
  intros Hnd Hn Hlen Hs Hk Hint.
  pose proof (fitPairToPools_spec picked kByRole variantByRole variants stateMap b Hnd Hn Hk Hint Hs Hlen) as H.
  destruct (fitPairToPools _ _ _ _ _ _) as [k|]; [exact H|].
  destruct H as (key & Hf & Hlt). exists key. split; [exact Hf|]. unfold key_budget, group_of, role_key in Hlt.
  rewrite (list_filter_iff _ (λ r, (0 < count_of kByRole r)%Z ∧
    Covers key (budgetKey b (accFromVCs variants (default "" (variantByRole !! r)))) = true)) in Hlt; [exact Hlt|].
  intros r. cbv beta. destruct (Z.leb_spec (count_of kByRole r) 0); split; [done|lia|split; [lia|done]|by intros [_ ?]].
Qed.

(** Prefill and decode variants of one family, four replicas of each wanted: 12
    GPUs against eight. *)
Definition fit_variants : list variantRecord :=
  [MkRecord (MkMetadata "pre" "prefill" (of_int 1) "NVIDIA-H100-PCIe") (of_int 1) f0;
   MkRecord (MkMetadata "dec" "decode" (of_int 1) "NVIDIA-H100-SXM5") (of_int 1) f0].
Definition fit_states : gmap string VariantReplicaState :=
  {["pre" := MkReplicaState "pre" 1 [] [] "" [] 2 "prefill" None None]}.
Definition fit_picks : gmap string string := {["prefill" := "pre"; "decode" := "dec"]}.
Definition fit_counts : gmap string Z := {["prefill" := 4%Z; "decode" := 4%Z]}.

Lemma pair_fits_budget_witness :
  map_to_list <$> fitPairToPools ["decode"; "prefill"] fit_counts fit_picks fit_variants fit_states (Some {["H100" := 8%Z]})
    = Some [("decode", 2%Z); ("prefill", 2%Z)] ∧
  (covered_spend "H100" (commit_spends {["H100" := 8%Z]} ["decode"; "prefill"]
     {["prefill" := 2%Z; "decode" := 2%Z]} fit_picks fit_variants fit_states) ≤ 8)%Z.
Proof.
  split; [vm_compute; reflexivity|].
  pose proof (pair_fits_budget ["decode"; "prefill"] fit_counts fit_picks fit_variants fit_states
    {["H100" := 8%Z]}) as Hp.
  replace (fitPairToPools ["decode"; "prefill"] fit_counts fit_picks fit_variants fit_states (Some {["H100" := 8%Z]}))
    with (Some ({["prefill" := 2%Z; "decode" := 2%Z]} : gmap string Z)) in Hp by (vm_compute; reflexivity).
  destruct Hp as (_ & _ & _ & Hb).
  - apply (bool_decide_unpack _). vm_compute. exact I.
  - apply (bool_decide_unpack _). vm_compute. exact I.
  - vm_compute. reflexivity.
  - intros key v Hl. apply lookup_singleton_Some in Hl as [_ <-]. right. lia.
  - intros r Hr. repeat (apply elem_of_cons in Hr as [->|Hr]; [by vm_compute; split; discriminate|]).
    by apply not_elem_of_nil in Hr.
  - vm_compute. discriminate.
  - specialize (Hb "H100" 8%Z eq_refl ltac:(discriminate)). exact Hb.
Defined.
