(* ===== verification/ScaleUp.v ===== *)
(** * Scaling up

    The model of the scale-up loop of [analyzer_helpers.go]
    ([allocateForModelPairedOn]) and of the two variant pickers it is run with:
    [costGreedyRolePick] of [cost_aware_optimizer.go], with no budget, and
    [fairShareRolePickOn] of [greedy_score_optimizer.go]; and of the cost-aware
    optimizer.  The cohort-borrowing placer is nil throughout.

    The loop's state is a record passed from one iteration to the next: the
    targets, the roles' remaining demand, the budget, what was spent, the model's
    signal and the node fit.  [alloc_loop] runs on fuel and says whether the loop
    ended; a theorem gives the fuel that is always enough.

    Theorems: every commit is within the budget, for every key that covers it; a
    variant grows to its own maximum at most; what is ordered is placed on the
    nodes and debited there; what the loop reports as spent is what it ordered;
    and it ends. *)
From Stdlib Require Import ZArith Lia String Ascii SpecFloat Reals Lra.
From stdpp Require Import base gmap strings list sorting fin_maps.
From S2P Require Import Prelude Accelerator Budget NodeView GoFloat Domain Signals ScaleDown PairFit.

(** ** Pickers *)
Section pickers.
Context `{GoSort} `{TaintMatcher} {C : IntConv}.
Context (variants : list variantRecord) (stateMap : gmap string VariantReplicaState).

(** [RolePickFn]: the variant for a role and how many replicas of it may be
    ordered, or "" when there is none.  The node fit carries the limit tracker the
    picker writes. *)
Definition RolePickFn : Type :=
  string → option (gmap string Z) → gmap string Z → nodeFit → string * Z * nodeFit.

(** [MaxReplicas] when it is a bound. *)
Definition max_bound (v : string) : option Z :=
  match st_MaxReplicas (state_of stateMap v) with
  | Some m => if (0 <? m)%Z then Some m else None
  | None => None
  end.

Fixpoint cost_greedy_loop (vcs : list variantRecord) (targets : gmap string Z) : string * Z :=
  match vcs with
  | [] => ("", 0%Z)
  | vc :: vcs =>
      if fle (rec_PerReplicaCapacity vc) f0 then cost_greedy_loop vcs targets
      else match max_bound (rec_Name vc) with
           | Some m =>
               let headroom := m ⊟ target_of targets (rec_Name vc) in
               if (headroom <=? 0)%Z then cost_greedy_loop vcs targets else (rec_Name vc, headroom)
           | None => (rec_Name vc, MaxInt)
           end
  end.

Definition costGreedyRolePick : RolePickFn := λ role _ targets fit,
  (cost_greedy_loop (sortByCostEfficiencyAsc (variantsForRole variants role)) targets, fit).

(** The loop of [fairShareRolePickOn]; [gpuBlocked] and [nodeBlocked] collect the
    variants scarcity kept out, marked when the role goes unserved. *)
Fixpoint fair_share_loop (target : float64) (vcs : list variantRecord) (available : option (gmap string Z))
    (targets : gmap string Z) (fit : nodeFit) (gpuBlocked nodeBlocked : list string)
  : string * Z * nodeFit :=
  match vcs with
  | [] => ("", 0%Z, MkNodeFit (nf_nodes fit) (nf_namespace fit)
             (foldl markNodeFit (foldl mark (nf_limited fit) gpuBlocked) nodeBlocked))
  | vc :: vcs =>
      let v := rec_Name vc in
      if fle (rec_PerReplicaCapacity vc) f0
      then fair_share_loop target vcs available targets fit gpuBlocked nodeBlocked
      else
        let gpusPR := let g := st_GPUsPerReplica (state_of stateMap v) in if (g <=? 0)%Z then 1%Z else g in
        let gpusAvail := budgetOf available (rec_Acc vc) in
        if (gpusAvail <? gpusPR)%Z
        then fair_share_loop target vcs available targets fit (gpuBlocked ++ [v]) nodeBlocked
        else
          let fairShareCap := int_of (math_Ceil (fdiv target (rec_PerReplicaCapacity vc))) in
          let gpuCap := Z.quot gpusAvail gpusPR in
          let headroom := (λ m, m ⊟ target_of targets v) <$> max_bound v in
          if match headroom with Some h => (h <=? 0)%Z | None => false end
          then fair_share_loop target vcs available targets fit gpuBlocked nodeBlocked
          else
            let capN := Z.min fairShareCap gpuCap in
            let capN := match headroom with Some h => Z.min capN h | None => capN end in
            let onNodes := match nf_nodes fit with
                           | Some nodes =>
                               if (0 <? capN)%Z
                               then fits (Some nodes) (nf_replica nodes (nf_namespace fit) variants stateMap v) capN
                               else capN
                           | None => capN
                           end in
            let asked := match nf_nodes fit with Some _ => (0 <? capN)%Z | None => false end in
            if asked && (onNodes =? 0)%Z
            then fair_share_loop target vcs available targets fit gpuBlocked (nodeBlocked ++ [v])
            else
              let nodeCut := asked && (onNodes <? capN)%Z in
              let gpuCap := if nodeCut then onNodes else gpuCap in
              let capN := if nodeCut then onNodes else capN in
              if (0 <? capN)%Z then
                let limited := if (gpuCap <? fairShareCap)%Z && (capN =? gpuCap)%Z
                               then (if nodeCut then markNodeFit else mark) (nf_limited fit) v
                               else nf_limited fit in
                (v, capN, MkNodeFit (nf_nodes fit) (nf_namespace fit) limited)
              else fair_share_loop target vcs available targets fit gpuBlocked nodeBlocked
  end.

Definition fairShareRolePickOn (target : float64) : RolePickFn := λ role available targets fit,
  fair_share_loop target (sortByCostEfficiencyAsc (variantsForRole variants role)) available targets fit [] [].
End pickers.

(** ** The loop *)
Record alloc_state := MkAlloc {
  al_targets : gmap string Z; al_ps : RolePairedState; al_available : option (gmap string Z);
  al_spent : gmap string Z; al_e : NamedAnalyzerResult; al_fit : nodeFit }.

Section loop.
Context `{TaintMatcher} {C : IntConv}.
Context (variants : list variantRecord) (stateMap : gmap string VariantReplicaState).
Context (pick : RolePickFn) (roles : list string).

(** The picks of one iteration: [variantByRole] and [capByRole] of the picked
    roles in order, the roles' state and the fit after the picks, and whether no
    pick failed for scarcity. *)
Fixpoint pick_roles (rs : list string) (s : alloc_state) (picks : list (string * (string * Z)))
  : list (string * (string * Z)) * alloc_state * bool :=
  match rs with
  | [] => (picks, s, true)
  | role :: rs =>
      if negb (flt f0 (fget (al_ps s) role)) then pick_roles rs s picks
      else
        let '(v, capN, fit) := pick role (al_available s) (al_targets s) (al_fit s) in
        let s := MkAlloc (al_targets s) (al_ps s) (al_available s) (al_spent s) (al_e s) fit in
        if String.eqb v "" then
          if roleAtCeiling role variants stateMap (al_targets s) then
            pick_roles rs (MkAlloc (al_targets s) (<[role := f0]> (al_ps s)) (al_available s)
                             (al_spent s) (al_e s) (al_fit s)) picks
          else (picks, s, false)
        else pick_roles rs s (picks ++ [(role, (v, capN))])
  end.

(** [nByRole] and [utilByRole] of one role. *)
Definition size_role (s : alloc_state) (p : string * (string * Z)) : Z :=
  let '(role, (v, capN)) := p in Z.min (roleBottleneckReplicas (al_e s) (al_ps s) role v) capN.

Definition util_role (s : alloc_state) (p : string * (string * Z)) : float64 :=
  let '(role, (v, _)) := p in
  let demand := fget (al_ps s) role in
  if fle demand f0 then f1 else fdiv (fmul (of_int (size_role s p)) (prcFromVCs variants v)) demand.

Definition delta_util (s : alloc_state) (picks : list (string * (string * Z))) : float64 :=
  foldl (λ d p, let u := util_role s p in if flt u d then u else d) MaxFloat64 picks.

Definition commit_count (s : alloc_state) (delta : float64) (p : string * (string * Z)) : Z :=
  let '(role, (v, _)) := p in
  let demand := fget (al_ps s) role in
  let prc := prcFromVCs variants v in
  if flt f0 prc && flt f0 demand
  then Z.max (int_of (math_Floor (fdiv (fmul delta demand) prc))) (Z.min 1 (size_role s p))
  else 0.

(** The commit of one role. *)
Definition commit_role (kByRole : gmap string Z) (s : alloc_state) (p : string * (string * Z)) : alloc_state :=
  let '(role, (v, _)) := p in
  let k := count_of kByRole role in
  let prc := prcFromVCs variants v in
  let n := k ⊠ gpusPerReplicaFromState stateMap v in
  let '(available, spent) :=
    match al_available s with
    | None => (None, al_spent s)
    | Some b =>
        let key := budgetKey b (accFromVCs variants v) in
        (Some (debitBudget b key n), <[key := count_of (al_spent s) key ⊞ n]> (al_spent s))
    end in
  MkAlloc (<[v := target_of (al_targets s) v ⊞ k]> (al_targets s))
    (<[role := math_Max f0 (fsub (fget (al_ps s) role) (fmul (of_int k) prc))]> (al_ps s))
    available spent (al_e s) (al_fit s).

(** The model-level demand follows the prefill role, else the single one. *)
Definition charge_anchor (variantByRole : gmap string string) (kByRole : gmap string Z)
    (e : NamedAnalyzerResult) : NamedAnalyzerResult :=
  match variantByRole !! RolePrefill with
  | Some v => applyAllocation e v (count_of kByRole RolePrefill)
  | None => match variantByRole !! RoleBoth with
            | Some v => applyAllocation e v (count_of kByRole RoleBoth)
            | None => e
            end
  end.

Definition set_fit (s : alloc_state) (fit : nodeFit) : alloc_state :=
  MkAlloc (al_targets s) (al_ps s) (al_available s) (al_spent s) (al_e s) fit.

(** One iteration: the state after it, and whether the loop goes on. *)
Definition alloc_step (s0 : alloc_state) : alloc_state * bool :=
  let '(picks, s, allPicked) := pick_roles roles s0 [] in
  if negb allPicked || bool_decide (picks = []) then (s, false)
  else
    let delta := delta_util s picks in
    if fle delta f0 then (s, false)
    else
      let picked := picks.*1 in
      let variantByRole : gmap string string := list_to_map ((λ p, (p.1, p.2.1)) <$> picks) in
      let kByRole : gmap string Z := list_to_map ((λ p, (p.1, commit_count s delta p)) <$> picks) in
      if negb (existsb (λ role, (0 <? count_of kByRole role)%Z) picked) then (s, false)
      else
        let '(fitted, fit) := fitPairToBudget picked kByRole variantByRole variants stateMap
                                (al_available s) (al_fit s) in
        match fitted with
        | None => (set_fit s fit, false)
        | Some kByRole =>
            let s := foldl (commit_role kByRole) (set_fit s fit) picks in
            (MkAlloc (al_targets s) (al_ps s) (al_available s) (al_spent s)
               (charge_anchor variantByRole kByRole (al_e s)) (al_fit s), true)
        end.

Fixpoint alloc_loop (fuel : nat) (s : alloc_state) : alloc_state * bool :=
  if negb (anyRoleNeedsScaleUp (al_ps s) roles) then (s, true)
  else match fuel with
       | O => (s, false)
       | S fuel => match alloc_step s with
                   | (s, true) => alloc_loop fuel s
                   | (s, false) => (s, true)
                   end
       end.
End loop.

Definition allocateForModelPairedOn `{TaintMatcher} {C : IntConv} (fuel : nat) (e : NamedAnalyzerResult)
    (variants : list variantRecord) (stateMap : gmap string VariantReplicaState)
    (available : option (gmap string Z)) (targets : gmap string Z) (pick : RolePickFn)
    (pickerState : RolePairedState) (roles : list string) (fit : nodeFit) : alloc_state * bool :=
  alloc_loop variants stateMap pick roles fuel (MkAlloc targets pickerState available ∅ e fit).

Definition no_fit : nodeFit := MkNodeFit None "" None.

(** ** The cost-aware optimizer *)
Section cost_aware.
Context `{GoSort} `{TaintMatcher} {C : IntConv}.

(** One model: its decisions, and whether the scale-up loop ended within the fuel. *)
Definition costAware_model (fuel : nat) (req : ModelScalingRequest) : list VariantDecision * bool :=
  match recordsForRequest req with
  | None => ([], true)
  | Some records =>
      let stateMap := buildStateMap (VariantStates req) in
      let vcMap := buildCapacityMap records in
      let targets := initTargets (VariantStates req) in
      let '(roles, ps, e) := initRoleState (CompositeSignal req) in
      let '(targets, done) :=
        if anyRoleNeedsScaleUp ps roles then
          let '(s, done) := allocateForModelPairedOn fuel e records stateMap None targets
                              (costGreedyRolePick records stateMap) ps roles no_fit in
          (al_targets s, done)
        else ((scaleDownRoleIterated e records targets stateMap).1, true) in
      (buildDecisionsWithOptimizer req stateMap vcMap targets "cost-aware", done)
  end.

Definition CostAware_Optimize (fuel : nat) (requests : list ModelScalingRequest)
  : list VariantDecision * bool :=
  (mjoin ((λ req, (costAware_model fuel req).1) <$> requests),
   forallb (λ req, (costAware_model fuel req).2) requests).
End cost_aware.

(** ** What a picker promises *)

(** For the budgets [P] admits: the variant is a usable one of the role, at least
    one replica of it may be ordered, as many as it is given fit the budget its
    accelerator is spent from and its own maximum, and the node view is not
    touched. *)
Class PickLaws (variants : list variantRecord) (stateMap : gmap string VariantReplicaState)
    (P : option (gmap string Z) → Prop) (pick : RolePickFn) := {
  pick_variant : ∀ role avail targets fit v n fit', P avail →
    pick role avail targets fit = (v, n, fit') → v ≠ "" →
    ∃ vc, vc ∈ variantsForRole variants role ∧ rec_Name vc = v ∧
          fle (rec_PerReplicaCapacity vc) f0 = false ∧ (1 ≤ n)%Z ∧
          (∀ b, avail = Some b → (n * gpusPerReplicaFromState stateMap v ≤ budgetOf avail (rec_Acc vc))%Z) ∧
          (targets_ok targets →
           ∀ m, max_bound stateMap v = Some m → (target_of targets v + n ≤ m)%Z);
  pick_nodes : ∀ role avail targets fit v n fit',
    pick role avail targets fit = (v, n, fit') →
    nf_nodes fit' = nf_nodes fit ∧ nf_namespace fit' = nf_namespace fit }.

Section laws.
Context `{GoSort} `{TaintMatcher} {C : IntConv}.
Context (variants : list variantRecord) (stateMap : gmap string VariantReplicaState).
Hypothesis Hmaxint : ∀ v m, max_bound stateMap v = Some m → (m ≤ int_max)%Z.

Lemma headroom_eq targets v m :
  targets_ok targets → max_bound stateMap v = Some m →
  (m ⊟ target_of targets v = m - target_of targets v)%Z.
Proof using Hmaxint.
  intros Hok Hm. specialize (Hmaxint v m Hm). specialize (Hok v).
  assert (0 < m)%Z by (unfold max_bound in Hm; repeat case_match; simplify_eq; lia).
  apply wrap_id. unfold in_int, int_min, int_max in *. lia.
Qed.

Lemma cost_greedy_spec vcs targets v n :
  cost_greedy_loop stateMap vcs targets = (v, n) → v ≠ "" →
  ∃ vc, vc ∈ vcs ∧ rec_Name vc = v ∧ fle (rec_PerReplicaCapacity vc) f0 = false ∧ (1 ≤ n)%Z ∧
        (targets_ok targets → ∀ m, max_bound stateMap v = Some m → (target_of targets v + n ≤ m)%Z).
Proof using Hmaxint.
  induction vcs as [|vc vcs IH]; cbn [cost_greedy_loop]; [by intros [= <- <-]|].
  assert (Hrest : cost_greedy_loop stateMap vcs targets = (v, n) → v ≠ "" →
    ∃ vc', vc' ∈ vc :: vcs ∧ rec_Name vc' = v ∧ fle (rec_PerReplicaCapacity vc') f0 = false ∧ (1 ≤ n)%Z ∧
        (targets_ok targets → ∀ m, max_bound stateMap v = Some m → (target_of targets v + n ≤ m)%Z)).
  { intros He Hv. destruct (IH He Hv) as (vc' & ? & ?). exists vc'. split; [set_solver|done]. }
  destruct (fle _ _) eqn:Hf; [done|]. destruct (max_bound stateMap (rec_Name vc)) as [m|] eqn:Hm.
  - destruct (Z.leb_spec (m ⊟ target_of targets (rec_Name vc)) 0); [done|].
    intros [= <- <-] Hv. exists vc. split_and!; [set_solver|done|done|lia|].
    intros Hok m' Hm'. simplify_eq. rewrite (headroom_eq targets _ m) by done. lia.
  - intros [= <- <-] Hv. exists vc. split_and!; [set_solver|done|done|unfold MaxInt, int_max; lia|].
    intros _ m' Hm'. congruence.
Qed.

Lemma cost_greedy_laws :
  PickLaws variants stateMap (λ avail, avail = None) (costGreedyRolePick variants stateMap).
Proof using Hmaxint.
  split.
  - intros role avail targets fit v n fit' -> [= Hp <-] Hv.
    destruct (cost_greedy_spec _ _ _ _ Hp Hv) as (vc & Hin & ? & ? & ? & ?).
    unfold sortByCostEfficiencyAsc in Hin. rewrite sort_slice_perm in Hin.
    exists vc. split_and!; done.
  - intros role avail targets fit v n fit'. unfold costGreedyRolePick. by intros [= _ <-].
Qed.

Lemma gpusPR_eq v :
  (let g := st_GPUsPerReplica (state_of stateMap v) in if (g <=? 0)%Z then 1%Z else g) =
  gpusPerReplicaFromState stateMap v.
Proof.
  unfold gpusPerReplicaFromState, state_of. cbv zeta. destruct (stateMap !! v) as [st|]; simpl; [|done].
  destruct (Z.leb_spec (st_GPUsPerReplica st) 0), (Z.ltb_spec 0 (st_GPUsPerReplica st)); done || lia.
Qed.

Lemma fair_share_spec target vcs avail targets fit gb nb v n fit' :
  fair_share_loop variants stateMap target vcs avail targets fit gb nb = (v, n, fit') →
  (nf_nodes fit' = nf_nodes fit ∧ nf_namespace fit' = nf_namespace fit) ∧
  (v ≠ "" →
   ∃ vc, vc ∈ vcs ∧ rec_Name vc = v ∧ fle (rec_PerReplicaCapacity vc) f0 = false ∧ (1 ≤ n)%Z ∧
         (n * gpusPerReplicaFromState stateMap v ≤ budgetOf avail (rec_Acc vc))%Z ∧
         (targets_ok targets → ∀ m, max_bound stateMap v = Some m → (target_of targets v + n ≤ m)%Z)).
Proof using Hmaxint.
  revert gb nb. induction vcs as [|vc vcs IH]; intros gb nb; cbn [fair_share_loop];
    [by intros [= <- <- <-]|].
  assert (Hrest : ∀ gb nb, fair_share_loop variants stateMap target vcs avail targets fit gb nb = (v, n, fit') →
    (nf_nodes fit' = nf_nodes fit ∧ nf_namespace fit' = nf_namespace fit) ∧
    (v ≠ "" → ∃ vc', vc' ∈ vc :: vcs ∧ rec_Name vc' = v ∧ fle (rec_PerReplicaCapacity vc') f0 = false ∧ (1 ≤ n)%Z ∧
         (n * gpusPerReplicaFromState stateMap v ≤ budgetOf avail (rec_Acc vc'))%Z ∧
         (targets_ok targets → ∀ m, max_bound stateMap v = Some m → (target_of targets v + n ≤ m)%Z))).
  { intros gb' nb' He. destruct (IH _ _ He) as [? Hx]. split; [done|]. intros Hv.
    destruct (Hx Hv) as (vc' & ? & ?). exists vc'. split; [set_solver|done]. }
  rewrite gpusPR_eq. destruct (fle _ _) eqn:Hf; [by apply Hrest|].
  destruct (Z.ltb_spec (budgetOf avail (rec_Acc vc)) (gpusPerReplicaFromState stateMap (rec_Name vc)));
    [by apply Hrest|].
  set (head := (λ m, m ⊟ target_of targets (rec_Name vc)) <$> max_bound stateMap (rec_Name vc)).
  set (quotient := Z.quot _ _). set (share := int_of _). set (c0 := Z.min share quotient).
  set (c1 := match head with Some h => Z.min c0 h | None => c0 end).
  set (onNodes := match nf_nodes fit with Some _ => _ | None => c1 end).
  set (asked := match nf_nodes fit with Some _ => _ | None => false end).
  destruct (match head with Some h => (h <=? 0)%Z | None => false end) eqn:Hh; [by apply Hrest|].
  destruct (asked && (onNodes =? 0)%Z); [by apply Hrest|].
  set (c2 := if asked && (onNodes <? c1)%Z then onNodes else c1).
  destruct (Z.ltb_spec 0 c2) as [Hc2|]; [|by apply Hrest].
  intros [= <- <- <-]. split; [done|]. intros Hv. exists vc.
  assert (Hc21 : (c2 ≤ c1)%Z) by (unfold c2; destruct (asked && _) eqn:E; lia).
  assert (Hc10 : (c1 ≤ c0)%Z) by (unfold c1; destruct head; lia).
  pose proof (gpusPerReplica_pos stateMap (rec_Name vc)) as Hg.
  split_and!; [set_solver|done|done|lia|..].
  - assert (Hq : (c2 ≤ quotient)%Z) by (unfold c0 in *; lia). unfold quotient in Hq.
    rewrite Z.quot_div_nonneg in Hq by lia.
    etrans; [apply Z.mul_le_mono_nonneg_r; [lia|exact Hq]|].
    rewrite Z.mul_comm. apply Z.mul_div_le. lia.
  - intros Hok m Hm. assert (Hhm : head = Some (m - target_of targets (rec_Name vc))%Z).
    { unfold head. rewrite Hm. simpl. f_equal. by apply headroom_eq. }
    unfold c1 in Hc21. rewrite Hhm in Hc21. lia.
Qed.

Lemma fair_share_laws target :
  PickLaws variants stateMap (λ _, True) (fairShareRolePickOn variants stateMap target).
Proof using Hmaxint.
  split.
  - intros role avail targets fit v n fit' _ Hp Hv.
    destruct (fair_share_spec _ _ _ _ _ _ _ _ _ _ Hp) as [_ Hx].
    destruct (Hx Hv) as (vc & Hin & ? & ? & ? & ? & ?).
    unfold sortByCostEfficiencyAsc in Hin. rewrite sort_slice_perm in Hin.
    exists vc. split_and!; done.
  - intros role avail targets fit v n fit' Hp. by apply fair_share_spec in Hp as [? _].
Qed.
End laws.

(** ** Records by name *)
Lemma prcFromVCs_name variants vc :
  NoDup (rec_Name <$> variants) → vc ∈ variants →
  prcFromVCs variants (rec_Name vc) = rec_PerReplicaCapacity vc ∧
  accFromVCs variants (rec_Name vc) = rec_Acc vc.
Proof.
  intros Hnd Hin. induction variants as [|x l IH]; [set_solver|].
  rewrite fmap_cons in Hnd. apply NoDup_cons in Hnd as [Hx Hnd]. simpl.
  apply elem_of_cons in Hin as [->|Hin]; [by rewrite String.eqb_refl|].
  destruct (String.eqb_spec (rec_Name x) (rec_Name vc)) as [He|_]; [|by apply IH].
  exfalso. apply Hx. rewrite He. by apply (list_elem_of_fmap_2 rec_Name).
Qed.

Lemma name_inj variants (a b : variantRecord) :
  NoDup (rec_Name <$> variants) → a ∈ variants → b ∈ variants → rec_Name a = rec_Name b → a = b.
Proof.
  intros Hnd Ha Hb He. apply list_elem_of_lookup in Ha as [i Hi], Hb as [j Hj].
  assert (i = j); [|by simplify_eq].
  apply (NoDup_lookup (rec_Name <$> variants) i j (rec_Name a) Hnd);
    rewrite list_lookup_fmap; [by rewrite Hi|rewrite Hj]. simpl. congruence.
Qed.

(** ** Sizes within range *)

(** Sizes and demands between [2^-500] and [2^500]. *)
Definition sane_prc (x : float64) : Prop :=
  nonneg x ∧ (bpow (-500) <= F2R x)%R ∧ (F2R x <= bpow 500)%R.
Definition sane_demand (x : float64) : Prop := nonneg x ∧ (F2R x <= bpow 500)%R.

Lemma flt_F2R x : nonneg x → flt f0 x = true ↔ (0 < F2R x)%R.
Proof.
  intros [Hf Hx]. unfold flt.
  destruct (fcompare_spec f0 x) as [[-> H]|[[-> H]|[-> H]]]; [done|done|..];
    simpl in H; split; try done; lra.
Qed.

Lemma sane_demand_sub x n prc :
  sane_demand x → (0 ≤ n ≤ maxReplicaCount)%Z → sane_prc prc →
  sane_demand (math_Max f0 (fsub x (fmul (of_int n) prc))).
Proof.
  intros [Hx Hle] Hn (Hp & Hlo & Hhi). unfold maxReplicaCount in Hn.
  destruct (sized_upper n prc f1 Hn Hp Hlo Hhi) as [Hm _].
  - change (F2R f1) with (4503599627370496 * bpow (-52))%R. pose proof (bpow_pos (-52)). lra.
  - change (F2R f1) with (4503599627370496 * bpow (-52))%R.
    replace 4503599627370496%R with (bpow 52) by (rewrite bpow_IZR by lia; done).
    rewrite <- bpow_add. apply bpow_le. lia.
  - by apply max_sub_le.
Qed.

(** ** The smallest share *)
Section shares.
Context (u : (string * (string * Z)) → float64).

Definition share_ok (x : float64) : Prop := nonneg x ∨ x = S754_infinity false.

Lemma min_share picks d :
  nonneg d → (∀ p, p ∈ picks → share_ok (u p)) →
  let d' := foldl (λ d p, let x := u p in if flt x d then x else d) d picks in
  nonneg d' ∧ (F2R d' <= F2R d)%R ∧
  ∀ p, p ∈ picks → is_finite (u p) = true → (F2R d' <= F2R (u p))%R.
Proof.
  revert d. induction picks as [|p picks IH]; intros d Hd Hu; simpl; [split_and!; [done|lra|set_solver]|].
  destruct (Hu p (list_elem_of_here _ _)) as [Hp|Hp].
  - destruct (fcompare_spec (u p) d (proj1 Hp) (proj1 Hd)) as [[Hc Hlt]|Hge].
    + assert (flt (u p) d = true) as -> by (unfold flt; by rewrite Hc).
      destruct (IH (u p) Hp) as (H1 & H2 & H3); [intros; apply Hu; set_solver|].
      split_and!; [done|lra|]. intros q [->|Hq]%elem_of_cons Hf; [done|by apply H3].
    + assert (flt (u p) d = false) as -> by (unfold flt; by destruct Hge as [[-> _]|[-> _]]).
      destruct (IH d Hd) as (H1 & H2 & H3); [intros; apply Hu; set_solver|].
      split_and!; [done|lra|]. intros q [->|Hq]%elem_of_cons Hf; [|by apply H3].
      destruct Hge as [[_ ?]|[_ ?]]; lra.
  - assert (flt (u p) d = false) as -> by (rewrite Hp; destruct d as [|[]| |[] ? ?]; by destruct Hd).
    destruct (IH d Hd) as (H1 & H2 & H3); [intros; apply Hu; set_solver|].
    split_and!; [done|lra|]. intros q [->|Hq]%elem_of_cons Hf; [by rewrite Hp in Hf|by apply H3].
Qed.
End shares.

(** A debit keeps finite budgets small. *)
Lemma debit_small b key n : small_budgets b → (0 ≤ n)%Z → in_ints b → in_int n → small_budgets (debitBudget b key n).
Proof.
  intros Hs Hn Hok Hni k v Hk. destruct (decide (n = 0%Z)) as [->|Hn0].
  { unfold debitBudget in Hk. simpl in Hk. by eapply Hs. }
  destruct (debit_lookup_cover b key n k v) as (h & w & Hh & _ & ->); [lia|done|].
  rewrite debit_value_spec by (lia || done || by eapply Hok).
  specialize (Hs h w Hh). destruct (isUnboundedBudget w) eqn:Hu; simpl; [done|].
  apply isUnbounded_false in Hu. case_match; lia.
Qed.

(** ** The signal a model carries *)

(** The demands a signal gives the roles, and the sizes it charges with. *)
Record signal_ok (e : NamedAnalyzerResult) : Prop := {
  so_remaining : RoleCapacities e = None → sane_demand (Remaining e);
  so_roles : ∀ caps role rc, RoleCapacities e = Some caps → caps !! role = Some rc →
    sane_demand (rc_RequiredCapacity rc);
  so_prc : ∀ r vc, Result e = Some r → vc ∈ VariantCapacities r →
    fle (vc_PerReplicaCapacity vc) f0 = false → sane_prc (vc_PerReplicaCapacity vc) }.

(** What an allocation does to a signal: it stays sane, and so do its roles. *)
Definition charged_from (e e' : NamedAnalyzerResult) : Prop :=
  RoleCapacities e' = RoleCapacities e ∧ Result e' = Result e ∧ (signal_ok e → signal_ok e').

#[export] Instance charged_from_preorder : PreOrder charged_from.
Proof. unfold charged_from. split; hnf; [done|]. intros x y z (? & ? & ?) (? & ? & ?). split_and!; [congruence|congruence|auto]. Qed.

Lemma charge_clamped_sane x n prc :
  sane_demand x → (0 ≤ n ≤ maxReplicaCount)%Z → sane_prc prc → sane_demand (charge_clamped x n prc).
Proof.
  intros Hx Hn Hp. pose proof (sane_demand_sub x n prc Hx Hn Hp) as Hs. unfold charge_clamped. cbv zeta.
  set (y := fsub x (fmul (of_int n) prc)) in *.
  assert (H0 : ∀ b, sane_demand (S754_zero b)).
  { intros b. unfold sane_demand, nonneg. pose proof (bpow_pos 500). simpl. repeat split; lra. }
  destruct y as [b|[]| |[] m e]; try done; try apply H0.
Qed.

Lemma prcForVariant_sane e r v :
  signal_ok e → Result e = Some r → fle (prcForVariant r v) f0 = false → sane_prc (prcForVariant r v).
Proof.
  intros Hs Hr. unfold prcForVariant. pose proof (so_prc _ Hs r) as Hp. revert Hp.
  induction (VariantCapacities r) as [|vc l IH]; intros Hp; simpl; [done|].
  case_match; [apply Hp; [done|left]|]. apply IH. intros vc' Hr' Hin. apply Hp; [done|by right].
Qed.

Lemma applyAllocation_charged e v n : (0 ≤ n ≤ maxReplicaCount)%Z → charged_from e (applyAllocation e v n).
Proof.
  intros Hn. unfold applyAllocation. destruct (Result e) as [r|] eqn:Hr; [|reflexivity].
  destruct (fle (prcForVariant r v) f0) eqn:Hf; [reflexivity|]. split_and!; [done|done|]. intros Hs.
  split; cbn [set_Remaining RoleCapacities Remaining Result]; [|apply Hs|apply Hs].
  intros Hc. apply charge_clamped_sane; [by apply Hs|done|by eapply prcForVariant_sane].
Qed.

(** The demand of every role, as it is initialised from the signal. *)
Lemma initRoleState_sane e role :
  signal_ok e → sane_demand (fget (initRoleState e).1.2 role).
Proof.
  intros Hs. assert (H0 : sane_demand f0).
  { unfold sane_demand, nonneg. pose proof (bpow_pos 500). simpl. repeat split; lra. }
  unfold initRoleState, fget. destruct (Result e) as [r|]; [|done].
  destruct (RoleCapacities e) as [caps|] eqn:Hc; cbn [fst snd].
  - rewrite lookup_fmap. destruct (caps !! role) as [rc|] eqn:Hrc; simpl; [by eapply so_roles|done].
  - destruct (decide (role = RoleBoth)) as [->|Hne]; [rewrite lookup_singleton_eq; by apply Hs|].
    by rewrite lookup_singleton_ne by done.
Qed.

Lemma initRoleState_charged e : charged_from e (initRoleState e).2.
Proof.
  unfold initRoleState. destruct (Result e) as [r|] eqn:Hr; [|by cbn].
  destruct (RoleCapacities e) as [caps|] eqn:Hc; cbn [snd]; (split_and!; [done|done|]);
    intros [H1 H2 H3]; split; done.
Qed.

(** ** One iteration *)
Section step.
Context `{TaintMatcher} {C : IntConv}.
Context (variants : list variantRecord) (stateMap : gmap string VariantReplicaState).
Context (P : option (gmap string Z) → Prop) (pick : RolePickFn) (roles : list string).
Context `{!PickLaws variants stateMap P pick}.
Hypothesis HP : ∀ b key n, P (Some b) → P (Some (debitBudget b key n)).
Hypothesis Hnames : NoDup (rec_Name <$> variants).
Hypothesis Hroles : NoDup roles.
Hypothesis Hrnamed : "" ∉ roles.
Hypothesis Hprc : ∀ vc, vc ∈ variants → fle (rec_PerReplicaCapacity vc) f0 = false →
  sane_prc (rec_PerReplicaCapacity vc).
Hypothesis Hgpus : ∀ v, (gpusPerReplicaFromState stateMap v ≤ 1048576)%Z.
Hypothesis Hlen : (length roles ≤ 2048)%nat.

#[local] Notation gpus := (gpusPerReplicaFromState stateMap).

Definition sane_ps (ps : RolePairedState) : Prop := ∀ role, role ∈ roles → sane_demand (fget ps role).

(** The budget, when there is one. *)
Definition avail_ok (avail : option (gmap string Z)) : Prop :=
  match avail with Some b => budget_ok b ∧ small_budgets b | None => True end.

Definition nodes_ok (fit : nodeFit) : Prop :=
  match nf_nodes fit with Some v => wf v | None => True end.

(** The variants a pick may name, within what the state allows. *)
Definition good_pick (s : alloc_state) (p : string * (string * Z)) : Prop :=
  let '(role, (v, n)) := p in
  role ∈ roles ∧ flt f0 (fget (al_ps s) role) = true ∧
  ∃ vc, vc ∈ variantsForRole variants role ∧ rec_Name vc = v ∧
        fle (rec_PerReplicaCapacity vc) f0 = false ∧ (1 ≤ n)%Z ∧
        (∀ b, al_available s = Some b → (n * gpus v ≤ budgetOf (Some b) (rec_Acc vc))%Z) ∧
        (∀ m, max_bound stateMap v = Some m → (target_of (al_targets s) v + n ≤ m)%Z).

(** The parts of the state the picks do not change. *)
Definition same_frame (s s' : alloc_state) : Prop :=
  al_targets s' = al_targets s ∧ al_available s' = al_available s ∧ al_spent s' = al_spent s ∧
  al_e s' = al_e s ∧ nf_nodes (al_fit s') = nf_nodes (al_fit s) ∧
  nf_namespace (al_fit s') = nf_namespace (al_fit s).

#[local] Instance same_frame_preorder : PreOrder same_frame.
Proof.
  unfold same_frame. split; hnf; [done|].
  intros x y z (?&?&?&?&?&?) (?&?&?&?&?&?). split_and!; congruence.
Qed.

Lemma fget_insert m r x r' : fget (<[r := x]> m) r' = if decide (r = r') then x else fget m r'.
Proof. unfold fget. rewrite lookup_insert. by case_decide. Qed.

Lemma sane_zero : sane_demand f0.
Proof. unfold sane_demand, nonneg. pose proof (bpow_pos 500). simpl. repeat split; lra. Qed.

Lemma pick_roles_spec rs s picks :
  P (al_available s) → targets_ok (al_targets s) → sane_ps (al_ps s) →
  NoDup rs → rs ⊆ roles → Forall (good_pick s) picks → NoDup picks.*1 → (∀ r, r ∈ picks.*1 → r ∉ rs) →
  let '(picks', s', _) := pick_roles variants stateMap pick rs s picks in
  same_frame s s' ∧ sane_ps (al_ps s') ∧ Forall (good_pick s') picks' ∧ NoDup picks'.*1 ∧
  ∀ r, fget (al_ps s') r = fget (al_ps s) r ∨ fget (al_ps s') r = f0.
Proof using All.
  revert s picks. induction rs as [|role rs IH]; intros s picks HPs Hok Hps Hnd Hsub Hg Hndp Hdis;
    cbn [pick_roles]; [split_and!; try done; by left|].
  apply NoDup_cons in Hnd as [Hr Hnd].
  assert (Hrr : role ∈ roles) by set_solver.
  destruct (flt f0 (fget (al_ps s) role)) eqn:Hpos; cbn [negb];
    [|apply IH; try done; [set_solver|intros r Hr'; specialize (Hdis r Hr'); set_solver]].
  destruct (pick role (al_available s) (al_targets s) (al_fit s)) as [[v n] fit'] eqn:Hp.
  destruct (pick_nodes _ _ _ _ _ _ _ Hp) as [Hn1 Hn2].
  set (s1 := MkAlloc (al_targets s) (al_ps s) (al_available s) (al_spent s) (al_e s) fit').
  assert (Hf1 : same_frame s s1) by (split_and!; done).
  destruct (String.eqb_spec v "") as [->|Hv].
  - destruct (roleAtCeiling role variants stateMap (al_targets s1));
      [|cbn beta iota; split_and!; [done|done|done|done|by left]].
    set (s2 := MkAlloc (al_targets s1) (<[role := f0]> (al_ps s1)) (al_available s1) (al_spent s1) (al_e s1) (al_fit s1)).
    assert (Hg2 : Forall (good_pick s2) picks).
    { rewrite Forall_forall in Hg |- *. intros [r [v n']] Hin. specialize (Hg _ Hin).
      destruct Hg as (H1 & H2 & H3). split_and!; [done| |done].
      unfold s2, s1. cbn [al_ps]. rewrite fget_insert, decide_False; [done|]. intros ->.
      apply (Hdis r); [by apply (list_elem_of_fmap_2 fst _ (r, (v, n')))|set_solver]. }
    specialize (IH s2 picks). destruct (pick_roles _ _ _ _ s2 _) as [[picks' s'] ?].
    destruct IH as (I1 & I2 & I3 & I4 & I5); try done.
    + intros r Hin. unfold s2, s1. cbn [al_ps]. rewrite fget_insert. case_decide; [apply sane_zero|by apply Hps].
    + set_solver.
    + intros r Hr'. specialize (Hdis r Hr'). set_solver.
    + split_and!; try done; [by etrans; [|exact I1]|]. intros r. destruct (I5 r) as [->|]; [|by right].
      unfold s2, s1. cbn [al_ps]. rewrite fget_insert. case_decide; [by right|by left].
  - destruct (pick_variant _ _ _ _ _ _ _ HPs Hp Hv) as (vc & H1 & H2 & H3 & H4 & H5 & H6).
    specialize (IH s1 (picks ++ [(role, (v, n))])).
    destruct (pick_roles _ _ _ _ s1 _) as [[picks' s'] ?].
    destruct IH as (I1 & I2 & I3 & I4 & I5); try done.
    + set_solver.
    + apply Forall_app. split; [done|]. constructor; [|done]. split_and!; [done|done|].
      exists vc. split_and!; try done; [|by apply H6]. intros bud Hb. cbn [s1 al_available] in Hb. rewrite <- Hb. by eapply H5.
    + rewrite fmap_app. apply NoDup_app. split_and!; [done|set_solver|apply NoDup_singleton].
    + intros r. rewrite fmap_app. intros [Hr'|Hr']%elem_of_app; [specialize (Hdis r Hr'); set_solver|].
      apply list_elem_of_singleton in Hr' as ->. done.
    + split_and!; try done. by etrans; [|exact I1].
Qed.

(** *** Sizes *)
Lemma size_range s p :
  good_pick s p → (0 ≤ size_role s p ≤ maxReplicaCount)%Z ∧ (size_role s p ≤ p.2.2)%Z.
Proof using All.
  destruct p as [role [v n]]. intros (_ & _ & vc & _ & _ & _ & Hn & _). unfold size_role.
  unfold roleBottleneckReplicas. destruct (Result (al_e s)) as [r|]; simpl.
  - pose proof (replicasForDemand_range (fget (al_ps s) role) (prcForVariant r v)). lia.
  - unfold maxReplicaCount. lia.
Qed.

(** A picked role's demand and the size of its replica. *)
Lemma good_pick_sizes s role v n :
  good_pick s (role, (v, n)) → sane_ps (al_ps s) →
  sane_prc (prcFromVCs variants v) ∧ sane_demand (fget (al_ps s) role) ∧
  (0 < F2R (fget (al_ps s) role))%R ∧ flt f0 (prcFromVCs variants v) = true.
Proof using All.
  intros (Hr & Hpos & vc & Hin & <- & Hu & _) Hps.
  apply list_elem_of_filter in Hin as [_ Hin].
  destruct (prcFromVCs_name variants vc Hnames Hin) as [-> _].
  pose proof (Hprc vc Hin Hu) as Hp. specialize (Hps role Hr). split_and!; [done|done|..].
  - by apply flt_F2R; [apply Hps|].
  - apply flt_F2R; [apply Hp|]. destruct Hp as (_ & Hlo & _). pose proof (bpow_pos (-500)). lra.
Qed.

Lemma fle_pos_zero x : nonneg x → (0 < F2R x)%R → fle x f0 = false.
Proof.
  intros Hx Hpos. unfold fle.
  destruct (fcompare_spec x f0 (proj1 Hx) eq_refl) as [[_ Hc]|[[_ Hc]|[-> _]]]; [simpl in Hc; lra..|done].
Qed.

Lemma util_ok s p :
  good_pick s p → sane_ps (al_ps s) →
  util_role variants s p =
  fdiv (fmul (of_int (size_role s p)) (prcFromVCs variants p.2.1)) (fget (al_ps s) p.1) ∧
  share_ok (util_role variants s p).
Proof using All.
  destruct p as [role [v n]]. intros Hg Hps.
  destruct (good_pick_sizes s role v n Hg Hps) as (Hp & Hd & Hd0 & _).
  pose proof (size_range s _ Hg) as [Hsz _]. unfold util_role.
  rewrite (fle_pos_zero _ (proj1 Hd) Hd0). split; [done|].
  destruct Hp as (Hp & Hlo & Hhi), Hd as [Hd Hdhi].
  destruct (sized_upper _ _ _ Hsz Hp Hlo Hhi Hd0 Hdhi) as [Hnp _].
  destruct (fdiv_upper _ _ Hnp Hd Hd0) as [[Hn _]|[Hi _]]; [by left|by right].
Qed.

Lemma commit_count_ok s picks p :
  Forall (good_pick s) picks → p ∈ picks → sane_ps (al_ps s) →
  let k := commit_count variants s (delta_util variants s picks) p in
  (0 ≤ k ≤ size_role s p)%Z ∧ ((1 ≤ size_role s p)%Z → (1 ≤ k)%Z).
Proof using All.
  intros Hg Hin Hps. cbv zeta. rewrite Forall_forall in Hg.
  assert (HM : nonneg MaxFloat64).
  { split; [done|]. change (F2R MaxFloat64) with (9007199254740991 * bpow 971)%R.
    pose proof (bpow_pos 971). lra. }
  destruct (min_share (util_role variants s) picks MaxFloat64 HM) as (Hd1 & Hd2 & Hd3).
  { intros q Hq. by apply util_ok; [apply Hg|]. }
  fold (delta_util variants s picks) in Hd1, Hd2, Hd3. set (delta := delta_util variants s picks) in *.
  specialize (Hd3 p Hin). destruct (util_ok s p (Hg p Hin) Hps) as [Hu _]. rewrite Hu in Hd3.
  pose proof (size_range s p (Hg p Hin)) as [Hsz _]. destruct p as [role [v n]].
  destruct (good_pick_sizes s role v n (Hg _ Hin) Hps) as ((Hp & Hlo & Hhi) & (Hd & Hdhi) & Hd0 & Hfp).
  unfold commit_count. rewrite Hfp. rewrite (proj2 (flt_F2R _ Hd) Hd0). cbn [andb].
  pose proof (commit_le (size_role s (role, (v, n))) _ _ Hsz Hp Hlo Hhi Hd Hd0 Hdhi delta Hd1 Hd2 Hd3) as Hc.
  lia.
Qed.

(** *** Fitting *)
#[local] Notation pick_of := (string * (string * Z))%type.

Definition variants_of (picks : list pick_of) : gmap string string :=
  list_to_map ((λ p, (p.1, p.2.1)) <$> picks).
Definition counts_of (s : alloc_state) (picks : list pick_of) : gmap string Z :=
  list_to_map ((λ p, (p.1, commit_count variants s (delta_util variants s picks) p)) <$> picks).

Lemma variants_of_pick picks p : NoDup picks.*1 → p ∈ picks → variants_of picks !! p.1 = Some p.2.1.
Proof.
  intros Hnd Hp. apply elem_of_list_to_map_1.
  - by rewrite <- list_fmap_compose.
  - by apply (list_elem_of_fmap_2 (λ p : pick_of, (p.1, p.2.1))).
Qed.

Lemma counts_of_pick s picks p :
  NoDup picks.*1 → p ∈ picks →
  count_of (counts_of s picks) p.1 = commit_count variants s (delta_util variants s picks) p.
Proof.
  intros Hnd Hp. unfold count_of, counts_of.
  rewrite (elem_of_list_to_map_1 _ p.1 (commit_count variants s (delta_util variants s picks) p)); [done|..].
  - by rewrite <- list_fmap_compose.
  - by apply (list_elem_of_fmap_2 (λ p : pick_of, (p.1, commit_count variants s (delta_util variants s picks) p))).
Qed.

(** What each pick draws at the counts [k]. *)
Definition pick_spends (b : gmap string Z) (k : gmap string Z) (picks : list pick_of) : list (string * Z) :=
  (λ p : pick_of, (budgetKey b (accFromVCs variants p.2.1), count_of k p.1 * gpus p.2.1)%Z) <$> picks.

Lemma commit_spends_picks b k picks :
  NoDup picks.*1 →
  commit_spends b picks.*1 k (variants_of picks) variants stateMap = pick_spends b k picks.
Proof.
  intros Hnd. unfold commit_spends, pick_spends. rewrite <- list_fmap_compose.
  apply list_fmap_ext. intros i p Hp. simpl.
  by rewrite (variants_of_pick picks p Hnd) by (by eapply list_elem_of_lookup_2).
Qed.

Lemma picks_length picks s : Forall (good_pick s) picks → NoDup picks.*1 → (length picks ≤ 2048)%nat.
Proof using All.
  intros Hg Hnd. etrans; [|exact Hlen]. rewrite <- (length_fmap fst).
  apply submseteq_length, NoDup_submseteq; [done|]. intros r Hr.
  apply list_elem_of_fmap in Hr as ([r' [v n]] & -> & Hin). rewrite Forall_forall in Hg. by apply (Hg _ Hin).
Qed.

Lemma picks_named picks s : Forall (good_pick s) picks → "" ∉ picks.*1.
Proof using Hrnamed.
  intros Hg Hin. apply Hrnamed. apply list_elem_of_fmap in Hin as ([r [v n]] & Hr & Hin).
  rewrite Forall_forall in Hg. simpl in Hr. subst r. by apply (Hg _ Hin).
Qed.

Lemma sumZ_bound {A} (g : A → Z) l M : (∀ a, a ∈ l → (g a ≤ M)%Z) → (sumZ g l ≤ Z.of_nat (length l) * M)%Z.
Proof.
  induction l as [|a l IH]; intros Hg; [unfold sumZ; simpl; lia|]. rewrite sumZ_cons.
  assert (H1 := Hg a (list_elem_of_here _ _)).
  assert (H2 := IH (λ b Hb, Hg b (list_elem_of_further _ _ _ Hb))). simpl length. lia.
Qed.

Lemma pick_counts_sum s picks :
  Forall (good_pick s) picks → NoDup picks.*1 → sane_ps (al_ps s) →
  (∀ r, r ∈ picks.*1 → (0 ≤ count_of (counts_of s picks) r ≤ maxReplicaCount)%Z) ∧
  (sumZ (λ r, count_of (counts_of s picks) r * gpus (default "" (variants_of picks !! r)))%Z picks.*1
   ≤ int_max)%Z.
Proof using All.
  intros Hg Hnd Hps.
  assert (Hc : ∀ r, r ∈ picks.*1 → (0 ≤ count_of (counts_of s picks) r ≤ maxReplicaCount)%Z).
  { intros r Hr. apply list_elem_of_fmap in Hr as (p & -> & Hin). rewrite counts_of_pick by done.
    pose proof (commit_count_ok s picks p Hg Hin Hps) as [? _].
    rewrite Forall_forall in Hg. pose proof (size_range s p (Hg p Hin)) as [? _]. lia. }
  split; [done|]. etrans; [apply (sumZ_bound _ _ (maxReplicaCount * 1048576)%Z)|].
  - intros r Hr. specialize (Hc r Hr). pose proof (Hgpus (default "" (variants_of picks !! r))).
    pose proof (gpusPerReplica_pos stateMap (default "" (variants_of picks !! r))). nia.
  - rewrite length_fmap. pose proof (picks_length picks s Hg Hnd). unfold maxReplicaCount, int_max. lia.
Qed.

(** The counts after a fit, the budget they fit and the nodes they are placed on. *)
Record fitted (s : alloc_state) (picks : list pick_of) (k : gmap string Z) (fit' : nodeFit) : Prop := {
  fitted_count : ∀ p, p ∈ picks →
    (0 ≤ count_of k p.1 ≤ size_role s p)%Z ∧
    ((0 < commit_count variants s (delta_util variants s picks) p)%Z → (1 ≤ count_of k p.1)%Z);
  fitted_budget : ∀ b, al_available s = Some b → fits_together b (pick_spends b k picks);
  fitted_namespace : nf_namespace fit' = nf_namespace (al_fit s);
  fitted_nodes : match nf_nodes (al_fit s) with
    | None => nf_nodes fit' = None
    | Some v => ∃ v', nf_nodes fit' = Some v' ∧ wf v' ∧ grows v v' ∧ owner v' = owner v ∧
        total_debit v' =
        (total_debit v + sumZ (λ p : pick_of, count_of k p.1 *
           pods_total (nf_replica v (nf_namespace (al_fit s)) variants stateMap p.2.1)) picks)%Z
    end }.

Lemma pool_fit s picks :
  avail_ok (al_available s) → Forall (good_pick s) picks → NoDup picks.*1 → sane_ps (al_ps s) →
  match fitPairToPools picks.*1 (counts_of s picks) (variants_of picks) variants stateMap (al_available s) with
  | Some k =>
      (∀ r, r ∈ picks.*1 → (0 ≤ count_of k r ≤ count_of (counts_of s picks) r)%Z ∧
         ((0 < count_of (counts_of s picks) r)%Z → (1 ≤ count_of k r)%Z)) ∧
      (∀ b, al_available s = Some b → fits_together b (pick_spends b k picks))
  | None => True
  end.
Proof using All.
  intros Hav Hg Hnd Hps. destruct (pick_counts_sum s picks Hg Hnd Hps) as [Hc Hsum].
  destruct (al_available s) as [b|] eqn:Hb.
  2: { cbn [fitPairToPools]. split; [|done]. intros r Hr. specialize (Hc r Hr). split; lia. }
  destruct Hav as [Hbok Hsmall]. destruct (decide (2 ≤ length picks)%nat) as [Hlen2|Hlen2].
  - pose proof (fitPairToPools_spec picks.*1 (counts_of s picks) (variants_of picks) variants stateMap b
      Hnd) as Hs.
    destruct (fitPairToPools _ _ _ _ _ _) as [k|]; [|done].
    destruct Hs as (F1 & F2 & F3 & F4); try done.
    + by eapply picks_named.
    + rewrite length_fmap. lia.
    + split.
      * intros r Hr. specialize (F1 r). specialize (F2 r Hr). specialize (Hc r Hr). split; [|done].
        split; [|done]. destruct (Z.le_gt_cases (count_of (counts_of s picks) r) 0); [|lia].
        unfold count_of at 1. rewrite F3 by (by right). fold (count_of (counts_of s picks) r). lia.
      * intros b0 [= <-]. rewrite <- commit_spends_picks by done. intros f v Hf Hne.
        specialize (F4 f v Hf Hne). pose proof (ok_nonneg _ Hbok _ _ Hf). lia.
  - unfold fitPairToPools. rewrite (proj2 (Nat.ltb_lt _ _)) by (rewrite length_fmap; lia).
    split; [intros r Hr; specialize (Hc r Hr); split; lia|]. intros b0 [= <-].
    destruct picks as [|p [|]]; [intros f v Hf _; apply (ok_nonneg _ Hbok _ _ Hf)| |simpl in Hlen2; lia].
    apply Forall_cons in Hg as [Hp _].
    pose proof (commit_count_ok s [p] p ltac:(by constructor) ltac:(set_solver) Hps) as [Hk _].
    rewrite <- (counts_of_pick s [p] p) in Hk by (done || set_solver).
    pose proof (size_range s p Hp) as [_ Hcap]. unfold pick_spends. simpl.
    destruct p as [role [v n]]. destruct Hp as (_ & _ & vc & Hin & <- & _ & Hn & Hbud & _).
    apply list_elem_of_filter in Hin as [_ Hin].
    destruct (prcFromVCs_name variants vc Hnames Hin) as [_ Hacc]. cbn [fst snd] in *.
    specialize (Hbud b Hb). pose proof (gpusPerReplica_pos stateMap (rec_Name vc)). rewrite Hacc.
    eapply fits_single; [done|apply budgetOf_key; [done|nia]|]. split; [nia|]. etrans; [|exact Hbud]. nia.
Qed.

Lemma covered_spends_le b k k' picks f :
  (∀ p, p ∈ picks → (count_of k' p.1 ≤ count_of k p.1)%Z) →
  (covered_spend f (pick_spends b k' picks) ≤ covered_spend f (pick_spends b k picks))%Z.
Proof.
  clear Hlen Hgpus. intros Hle. unfold covered_spend, pick_spends. rewrite !sumZ_fmap. apply sumZ_le.
  intros p Hp. specialize (Hle p Hp). pose proof (gpusPerReplica_pos stateMap p.2.1). cbn [fst snd].
  case_match; nia.
Qed.

Lemma fit_ok s picks :
  avail_ok (al_available s) → nodes_ok (al_fit s) → Forall (good_pick s) picks → NoDup picks.*1 →
  sane_ps (al_ps s) →
  match fitPairToBudget picks.*1 (counts_of s picks) (variants_of picks) variants stateMap
          (al_available s) (al_fit s) with
  | (Some k, fit') => fitted s picks k fit'
  | (None, fit') => nf_nodes fit' = nf_nodes (al_fit s) ∧ nf_namespace fit' = nf_namespace (al_fit s)
  end.
Proof using All.
  intros Hav Hno Hg Hnd Hps. pose proof (pool_fit s picks Hav Hg Hnd Hps) as Hpool.
  unfold fitPairToBudget. destruct (fitPairToPools _ _ _ _ _ _) as [k|]; [|done].
  destruct Hpool as [Hk Hfits]. destruct (pick_counts_sum s picks Hg Hnd Hps) as [Hc _].
  assert (Hcount : ∀ k' : gmap string Z,
    (∀ r, r ∈ picks.*1 → (0 ≤ count_of k' r ≤ count_of k r)%Z ∧ ((0 < count_of k r)%Z → (1 ≤ count_of k' r)%Z)) →
    ∀ p, p ∈ picks → (0 ≤ count_of k' p.1 ≤ size_role s p)%Z ∧
      ((0 < commit_count variants s (delta_util variants s picks) p)%Z → (1 ≤ count_of k' p.1)%Z)).
  { intros k' Hk' p Hp. assert (Hr : p.1 ∈ picks.*1) by (by apply (list_elem_of_fmap_2 fst)).
    destruct (Hk' _ Hr) as [K1 K2]. destruct (Hk _ Hr) as [K3 K4].
    rewrite (counts_of_pick s picks p) in K3, K4 by done.
    pose proof (commit_count_ok s picks p Hg Hp Hps) as [? _]. split; [lia|]. intros Hpos. apply K2. specialize (K4 Hpos). lia. }
  unfold nodes_ok in Hno. destruct (nf_nodes (al_fit s)) as [v|] eqn:Hv.
  - pose proof (fitPairToNodes_spec picks.*1 k (variants_of picks) variants stateMap (al_fit s) v Hnd) as Hs.
    destruct (fitPairToNodes _ _ _ _ _ _) as [[k'|] fit']; destruct Hs as [Hs Hns]; try done.
    + by eapply picks_named.
    + intros r Hr. specialize (Hc r Hr). destruct (Hk r Hr). lia.
    + destruct Hs as (N1 & N2 & (v' & V1 & V2 & V3 & V4 & V5) & _). split.
      * by apply Hcount.
      * intros b Hb. eapply fits_mono; [|by apply Hfits]. intros f. apply covered_spends_le.
        intros p Hp. apply N1. by apply (list_elem_of_fmap_2 fst).
      * done.
      * rewrite Hv. exists v'. split_and!; try done. rewrite V5. f_equal. rewrite sumZ_fmap.
        apply sumZ_ext. intros p Hp. by rewrite (variants_of_pick picks p).
    + by eapply picks_named.
    + intros r Hr. specialize (Hc r Hr). destruct (Hk r Hr). lia.
    + split; [|done]. apply Hs.
  - unfold fitPairToNodes. rewrite Hv. split; [|done|done|by rewrite Hv].
    apply Hcount. intros r Hr. destruct (Hk r Hr). split; [lia|lia].
Qed.

(** *** What has been ordered *)

(** The growth of the targets since [t0], weighted by variant. *)
Definition grown (t0 : gmap string Z) (w : string → Z) (t : gmap string Z) : Z :=
  sumZ (λ vc, (target_of t (rec_Name vc) - target_of t0 (rec_Name vc)) * w (rec_Name vc))%Z variants.

Lemma grown_start t0 w : grown t0 w t0 = 0%Z.
Proof. clear Hlen Hgpus. unfold grown. rewrite (sumZ_ext _ (λ _, 0%Z)), sumZ_zero; [done|]. intros; lia. Qed.

Lemma grown_commit t0 w t vc k :
  vc ∈ variants →
  grown t0 w (<[rec_Name vc := (target_of t (rec_Name vc) + k)%Z]> t) =
  (grown t0 w t + k * w (rec_Name vc))%Z.
Proof using Hnames.
  intros Hin. clear Hlen Hgpus. unfold grown. rewrite <- !(sumZ_fmap rec_Name
    (λ v, (target_of (<[rec_Name vc := (target_of t (rec_Name vc) + k)%Z]> t) v - target_of t0 v) * w v)%Z).
  rewrite <- !(sumZ_fmap rec_Name (λ v, (target_of t v - target_of t0 v) * w v)%Z).
  pose proof (sumZ_change
    (λ v, (target_of (<[rec_Name vc := (target_of t (rec_Name vc) + k)%Z]> t) v - target_of t0 v) * w v)%Z
    (λ v, (target_of t v - target_of t0 v) * w v)%Z (rec_Name <$> variants) (rec_Name vc) Hnames
    (list_elem_of_fmap_2 rec_Name _ _ Hin)) as Hs.
  cbv beta in Hs. rewrite (target_of_insert t _ _ (rec_Name vc)), decide_True in Hs by done.
  rewrite <- (Z.add_cancel_r _ _ (- ((target_of t (rec_Name vc) + k - target_of t0 (rec_Name vc)) * w (rec_Name vc))))%Z.
  rewrite Z.add_opp_r, Hs; [lia|]. intros v _ Hne. by rewrite target_of_insert, decide_False by congruence.
Qed.

(** The weight that counts the GPUs drawn from the keys [sel] selects. *)
Definition draw_weight (b : gmap string Z) (sel : string → bool) (v : string) : Z :=
  if sel (budgetKey b (accFromVCs variants v)) then gpus v else 0.

Definition drawn (b : gmap string Z) (t0 : gmap string Z) (sel : string → bool) (t : gmap string Z) : Z :=
  grown t0 (draw_weight b sel) t.

(** The state of the budget after the targets have grown from [t0] to [t]. *)
Definition avail_progress (b0 : gmap string Z) (t0 : gmap string Z) (t : gmap string Z)
    (b spent : gmap string Z) : Prop :=
  budget_ok b ∧ small_budgets b ∧ (∀ k, is_Some (b !! k) ↔ is_Some (b0 !! k)) ∧
  (∀ f F, b0 !! f = Some F → F ≠ MaxInt →
     ∃ v, b !! f = Some v ∧ v ≠ MaxInt ∧ (v + drawn b0 t0 (Covers f) t ≤ F)%Z) ∧
  (∀ key F, b0 !! key = Some F → F ≠ MaxInt → count_of spent key = drawn b0 t0 (String.eqb key) t) ∧
  (∀ key x, spent !! key = Some x → is_Some (b0 !! key) ∧ in_int x).


Lemma drawn_commit b t0 sel t vc k :
  vc ∈ variants →
  drawn b t0 sel (<[rec_Name vc := (target_of t (rec_Name vc) + k)%Z]> t) =
  (drawn b t0 sel t + (if sel (budgetKey b (accFromVCs variants (rec_Name vc))) then k * gpus (rec_Name vc) else 0))%Z.
Proof using Hnames.
  intros Hin. clear Hlen Hgpus. unfold drawn. rewrite grown_commit by done. unfold draw_weight. case_match; lia.
Qed.

Lemma drawn_eqb_le b t0 key t :
  (∀ v, (target_of t0 v ≤ target_of t v)%Z) →
  (0 ≤ drawn b t0 (String.eqb key) t ≤ drawn b t0 (Covers key) t)%Z.
Proof.
  clear Hlen Hgpus. intros Hg. unfold drawn, grown, draw_weight. split.
  - apply sumZ_nonneg. intros vc _. specialize (Hg (rec_Name vc)).
    pose proof (gpusPerReplica_pos stateMap (rec_Name vc)). case_match; nia.
  - apply sumZ_le. intros vc _. specialize (Hg (rec_Name vc)).
    pose proof (gpusPerReplica_pos stateMap (rec_Name vc)).
    destruct (String.eqb_spec key (budgetKey b (accFromVCs variants (rec_Name vc)))) as [->|_].
    + rewrite Covers_refl. lia.
    + case_match; nia.
Qed.

Lemma commit_avail b0 t0 t b spent vc k rest :
  let v := rec_Name vc in
  let key := budgetKey b (accFromVCs variants v) in
  let n := (k * gpus v)%Z in
  avail_progress b0 t0 t b spent → in_ints b0 → vc ∈ variants →
  (∀ v, (target_of t0 v ≤ target_of t v)%Z) →
  is_Some (b !! key) → nonneg_spends ((key, n) :: rest) → (0 ≤ k)%Z → fits_together b ((key, n) :: rest) →
  avail_progress b0 t0 (<[v := (target_of t v + k)%Z]> t) (debitBudget b key n)
    (<[key := count_of spent key ⊞ n]> spent) ∧
  fits_together (debitBudget b key n) rest.
Proof using Hnames.
  cbv zeta. clear Hlen Hgpus. intros (Hok & Hsm & Hdom & Hav & Hsp & Hsd) Hi0 Hin Hg Hkey Hnn Hk Hfit.
  set (key := budgetKey b (accFromVCs variants (rec_Name vc))) in *. set (n := (k * gpus (rec_Name vc))%Z) in *.
  assert (Hn : (0 ≤ n)%Z ∧ in_int n) by (apply Forall_cons in Hnn as [? _]; done). destruct Hn as [Hn Hni].
  assert (Hkey0 : budgetKey b0 (accFromVCs variants (rec_Name vc)) = key).
  { symmetry. by apply budgetKey_same. }
  assert (Hrest : nonneg_spends rest) by (by apply Forall_cons in Hnn as [_ ?]).
  assert (Hg' : ∀ v, (target_of t0 v ≤ target_of (<[rec_Name vc := (target_of t (rec_Name vc) + k)%Z]> t) v)%Z).
  { intros v. rewrite target_of_insert. specialize (Hg v). case_decide; subst; lia. }
  assert (Hav' : ∀ f F, b0 !! f = Some F → F ≠ MaxInt →
    ∃ v, debitBudget b key n !! f = Some v ∧ v ≠ MaxInt ∧
      (v + drawn b0 t0 (Covers f) (<[rec_Name vc := (target_of t (rec_Name vc) + k)%Z]> t) ≤ F)%Z).
  { intros f F Hf HF. destruct (Hav f F Hf HF) as (v & Hv & Hne & Hle).
    destruct (proj2 (debitBudget_is_Some b key n f)) as [v' Hv']; [eauto|]. exists v'. split; [done|].
    destruct (debitBudget_le b key n f v v' (ok_ints _ Hok) Hn Hni Hv Hv') as [Hm Hc].
    pose proof (ok_nonneg _ Hok _ _ Hv). pose proof (ok_nonneg _ (debit_ok b key n Hok Hn Hni) _ _ Hv').
    assert (Hu : isUnboundedBudget v = false) by (apply isUnbounded_false; lia).
    assert (Hu' : isUnboundedBudget v' = false) by (destruct Hm as [?|(?&_)]; congruence).
    split; [intros ->; by rewrite (proj2 (isUnbounded_true MaxInt)) in Hu' by (by right)|].
    rewrite drawn_commit, Hkey0 by done. fold n. specialize (Hfit f v Hv Hne).
    rewrite covered_spend_cons in Hfit. pose proof (covered_spend_nonneg f rest Hrest).
    destruct (Covers f key) eqn:Hcov.
    - destruct (Hc Hu eq_refl). lia.
    - destruct Hm as [?|(_ & _ & ?)]; [congruence|lia]. }
  split; [|by apply debit_fits]. split_and!.
  - by apply debit_ok.
  - by apply debit_small; [..|apply Hok|].
  - intros f. rewrite debitBudget_is_Some. apply Hdom.
  - done.
  - intros key' F Hf HF. rewrite drawn_commit, Hkey0, count_of_insert by done. fold n.
    destruct (Hav' key' F Hf HF) as (v & Hv & _ & Hle).
    pose proof (ok_nonneg _ (debit_ok b key n Hok Hn Hni) _ _ Hv).
    pose proof (drawn_eqb_le b0 t0 key' _ Hg') as Hd. rewrite drawn_commit, Hkey0 in Hd by done. fold n in Hd.
    pose proof (drawn_eqb_le b0 t0 key' _ Hg).
    destruct (decide (key = key')) as [He|Hne].
    + assert (Hs : count_of spent key = drawn b0 t0 (String.eqb key') t) by (rewrite He; by apply (Hsp key' F)).
      rewrite Hs. rewrite (proj2 (String.eqb_eq key' key)) in Hd |- * by done. apply wrap_id. specialize (Hi0 _ _ Hf). unfold in_int, int_min, int_max in *. lia.
    + rewrite (proj2 (String.eqb_neq key' key)) by congruence. rewrite (Hsp key' F Hf HF). lia.
  - intros f x. rewrite lookup_insert. case_decide as Hfk; [|apply Hsd].
    intros [= <-]. rewrite <- Hfk. split; [by apply Hdom|apply wrap_in_int].
Qed.

(** *** The commits of an iteration *)

(** What has been ordered so far, against the budget [a0] and the targets [t0] of
    the start; no target is above [B]. *)
Record ordered (a0 : option (gmap string Z)) (t0 : gmap string Z) (B : Z) (s : alloc_state) : Prop := {
  or_grows : ∀ v, (target_of t0 v ≤ target_of (al_targets s) v)%Z;
  or_other : ∀ v, v ∉ rec_Name <$> variants → target_of (al_targets s) v = target_of t0 v;
  or_range : ∀ v, (0 ≤ target_of (al_targets s) v ≤ B)%Z;
  or_max : ∀ v m, max_bound stateMap v = Some m →
    (target_of (al_targets s) v ≤ Z.max (target_of t0 v) m)%Z;
  or_ps : sane_ps (al_ps s);
  or_avail : match a0, al_available s with
    | None, None => al_spent s = ∅
    | Some b0, Some b => avail_progress b0 t0 (al_targets s) b (al_spent s)
    | _, _ => False
    end;
  or_listed : ∀ b0 v, a0 = Some b0 → b0 !! budgetKey b0 (accFromVCs variants v) = None →
    target_of (al_targets s) v = target_of t0 v;
  or_P : P (al_available s) }.

(** A pick still to be committed, at the counts [k]. *)
Definition committable (B : Z) (k : gmap string Z) (s : alloc_state) (p : pick_of) : Prop :=
  p.1 ∈ roles ∧ (0 ≤ count_of k p.1 ≤ maxReplicaCount)%Z ∧ sane_prc (prcFromVCs variants p.2.1) ∧
  (target_of (al_targets s) p.2.1 ≤ B)%Z ∧
  (∀ m, max_bound stateMap p.2.1 = Some m → (target_of (al_targets s) p.2.1 + count_of k p.1 ≤ m)%Z) ∧
  (∀ b, al_available s = Some b → is_Some (b !! budgetKey b (accFromVCs variants p.2.1))) ∧
  ∃ vc, vc ∈ variantsForRole variants p.1 ∧ rec_Name vc = p.2.1.

Record pending (B : Z) (k : gmap string Z) (s : alloc_state) (rest : list pick_of) : Prop := {
  pe_nodup : NoDup rest.*1;
  pe_each : Forall (committable B k s) rest;
  pe_fits : ∀ b, al_available s = Some b → fits_together b (pick_spends b k rest) }.

Lemma pick_spend_int k v : (0 ≤ k ≤ maxReplicaCount)%Z →
  (0 ≤ k * gpus v)%Z ∧ in_int (k * gpus v) ∧ k ⊠ gpus v = (k * gpus v)%Z.
Proof using Hgpus.
  intros Hk. pose proof (Hgpus v). pose proof (gpusPerReplica_pos stateMap v). clear Hlen.
  assert (Hi : (0 ≤ k * gpus v ≤ 2147483647 * 1048576)%Z) by (unfold maxReplicaCount in Hk; nia).
  assert (in_int (k * gpus v)) by (unfold in_int, int_min, int_max; lia).
  split_and!; [lia|done|by apply wrap_id].
Qed.

Lemma pick_spends_nonneg B b k s rest : Forall (committable B k s) rest → nonneg_spends (pick_spends b k rest).
Proof using Hgpus.
  intros Hf. unfold nonneg_spends, pick_spends. rewrite Forall_fmap.
  eapply Forall_impl; [exact Hf|]. intros p (_ & Hk & _). cbn. by destruct (pick_spend_int _ p.2.1 Hk) as (? & ? & _).
Qed.

Lemma pick_spends_same (b b' : gmap string Z) k rest :
  (∀ key, is_Some (b' !! key) ↔ is_Some (b !! key)) → pick_spends b' k rest = pick_spends b k rest.
Proof.
  intros Hs. unfold pick_spends. apply list_fmap_ext. intros i p _. by rewrite (budgetKey_same b b').
Qed.

(** Distinct roles pick distinct variants. *)
Lemma distinct_variants p q vp vq :
  vp ∈ variantsForRole variants p → vq ∈ variantsForRole variants q → p ≠ q → rec_Name vp ≠ rec_Name vq.
Proof using Hnames.
  intros [Hp Hpi]%list_elem_of_filter [Hq Hqi]%list_elem_of_filter Hne He.
  assert (vp = vq) by (by eapply name_inj). subst. congruence.
Qed.

Lemma commit_pending B k s p rest :
  pending B k s (p :: rest) → (∀ b, al_available s = Some b → budget_ok b) →
  pending B k (commit_role variants stateMap k s p) rest.
Proof using Hnames Hgpus.
  intros [Hnd Hea Hfi] Hok. apply Forall_cons in Hea as [Hp Hea]. apply NoDup_cons in Hnd as [Hnp Hnd].
  destruct p as [role [v n]]. pose proof Hp as (Hr & Hk & Hprc' & Ht & Hm & Hkey & vc & Hvc & Hv). cbn [fst snd] in *.
  destruct (pick_spend_int _ v Hk) as (Hn0 & Hni & Hne). unfold commit_role. rewrite Hne.
  assert (Ht' : ∀ q, q ∈ rest → v ≠ q.2.1).
  { intros q Hq He. rewrite Forall_forall in Hea. destruct (Hea q Hq) as (_&_&_&_&_&_& vq & Hvq & Hq').
    apply (distinct_variants role q.1 vc vq Hvc Hvq); [|congruence]. intros ->. apply Hnp.
    by apply (list_elem_of_fmap_2 fst). }
  split; [done| |].
  - rewrite Forall_forall in Hea |- *. intros q Hq.
    destruct (Hea q Hq) as (Q1 & Q2 & Q3 & Q4 & Q5 & Q6 & Q7). unfold committable.
    destruct (al_available s) as [b|] eqn:Hb; cbn [al_targets al_available];
      rewrite !target_of_insert, !decide_False by (by apply Ht'); refine (conj Q1 (conj Q2 (conj Q3 (conj Q4 (conj Q5 (conj _ Q7)))))); [|done].
    intros b' [= <-]. rewrite (budgetKey_same b) by (intros; apply debitBudget_is_Some).
    apply debitBudget_is_Some. by apply Q6.
  - destruct (al_available s) as [b|] eqn:Hb; cbn [al_available]; [|done]. intros b' [= <-].
    rewrite (pick_spends_same b) by (intros; apply debitBudget_is_Some).
    eapply debit_fits; [by apply Hok| |by apply Hfi].
    apply (pick_spends_nonneg B b k s ((role, (v, n)) :: rest)). by constructor.
Qed.
Lemma commit_ordered a0 t0 B B' k s p rest :
  ordered a0 t0 B' s → pending B k s (p :: rest) → (B + maxReplicaCount ≤ B')%Z → (B' ≤ int_max)%Z →
  (∀ b0, a0 = Some b0 → in_ints b0) →
  ordered a0 t0 B' (commit_role variants stateMap k s p).
Proof using All.
  intros [Hg Ho Hrg Hmx Hps Hav Hli HPs] [_ Hea Hfi] HB HB' Hi0.
  pose proof (λ b, pick_spends_nonneg B b k s _ Hea) as Hnn. apply Forall_cons in Hea as [Hp _].
  destruct p as [role [v n]]. destruct Hp as (Hr & Hk & Hsp & Ht & Hm & Hkey & vc & Hvc & Hv). cbn [fst snd] in *.
  destruct (pick_spend_int _ v Hk) as (Hn0 & Hni & Hne). unfold commit_role. rewrite Hne.
  apply list_elem_of_filter in Hvc as [_ Hvc].
  assert (Hadd : (target_of (al_targets s) v ⊞ count_of k role = target_of (al_targets s) v + count_of k role)%Z).
  { apply wrap_id. specialize (Hrg v). unfold in_int, int_min, int_max, maxReplicaCount in *. lia. }
  rewrite Hadd.
  assert (Hgoal : ∀ available spent,
    match a0, available with
    | None, None => spent = ∅
    | Some b0, Some b => avail_progress b0 t0 (<[v := (target_of (al_targets s) v + count_of k role)%Z]> (al_targets s)) b spent
    | _, _ => False
    end → P available →
    ordered a0 t0 B' (MkAlloc (<[v := (target_of (al_targets s) v + count_of k role)%Z]> (al_targets s))
      (<[role := math_Max f0 (fsub (fget (al_ps s) role) (fmul (of_int (count_of k role)) (prcFromVCs variants v)))]> (al_ps s))
      available spent (al_e s) (al_fit s))).
  { intros available spent Hx HPx. split; cbn [al_targets al_ps al_available al_spent]; try done; intros w.
    - rewrite target_of_insert. specialize (Hg w). case_decide; [subst; lia|lia].
    - intros Hw. rewrite target_of_insert, decide_False; [by apply Ho|].
      intros ->. apply Hw. rewrite <- Hv. by apply (list_elem_of_fmap_2 rec_Name).
    - rewrite target_of_insert. pose proof (Hrg w). case_decide; [subst; lia|lia].
    - intros m Hw. rewrite target_of_insert. case_decide; [subst; specialize (Hm m Hw); lia|by apply Hmx].
    - intros Hw. rewrite fget_insert. case_decide; [subst; by apply sane_demand_sub; [apply Hps|..]|by apply Hps].
    - intros w' -> Hw. rewrite target_of_insert, decide_False; [by eapply Hli|]. intros <-.
      destruct (al_available s) as [b|] eqn:Hb; [|done]. destruct Hav as (_ & _ & Hdom & _).
      destruct (proj1 (Hdom _) (Hkey b eq_refl)) as [? Hx']. rewrite (budgetKey_same w b) in Hx' by done. congruence. }
  destruct (al_available s) as [b|] eqn:Hb; destruct a0 as [b0|]; try done; apply Hgoal; try done.
  - specialize (Hfi b eq_refl). specialize (Hnn b). unfold pick_spends in Hfi, Hnn. cbn [fmap list_fmap fst snd] in Hfi, Hnn.
    rewrite <- Hv in Hfi, Hnn, Hkey |- *.
    by apply (commit_avail b0 t0 (al_targets s) b (al_spent s) vc (count_of k role) _ Hav (Hi0 b0 eq_refl) Hvc Hg
      (Hkey b eq_refl) Hnn (proj1 Hk) Hfi).
  - by apply HP.
Qed.

Lemma commit_frame k s p : al_e (commit_role variants stateMap k s p) = al_e s ∧
  al_fit (commit_role variants stateMap k s p) = al_fit s.
Proof. destruct p as [r [v n]]. unfold commit_role. by destruct (al_available s). Qed.

Lemma commit_targets B B' k s p rest w t0 :
  pending B k s (p :: rest) → (∀ v, 0 ≤ target_of (al_targets s) v)%Z → (B + maxReplicaCount ≤ B')%Z → (B' ≤ int_max)%Z →
  grown t0 w (al_targets (commit_role variants stateMap k s p)) =
  (grown t0 w (al_targets s) + count_of k p.1 * w p.2.1)%Z.
Proof using All.
  intros [_ Hea _] Hpos HB HB'. apply Forall_cons in Hea as [Hp _]. destruct p as [role [v n]].
  destruct Hp as (Hr & Hk & Hsp & Ht & Hm & Hkey & vc & Hvc & Hv). cbn [fst snd] in *.
  apply list_elem_of_filter in Hvc as [_ Hvc].
  assert (Hadd : (target_of (al_targets s) v ⊞ count_of k role = target_of (al_targets s) v + count_of k role)%Z).
  { apply wrap_id. specialize (Hpos v). unfold in_int, int_min, int_max, maxReplicaCount in *. lia. }
  unfold commit_role. rewrite Hadd. subst v. destruct (al_available s); cbn [al_targets]; by apply grown_commit.
Qed.

Lemma ordered_budget_ok a0 t0 B s b : ordered a0 t0 B s → al_available s = Some b → budget_ok b.
Proof. intros Ho Hb. pose proof (or_avail _ _ _ _ Ho) as Ha. rewrite Hb in Ha. destruct a0; [apply Ha|done]. Qed.

Lemma commit_fold a0 t0 B B' k rest s :
  ordered a0 t0 B' s → pending B k s rest → (B + maxReplicaCount ≤ B')%Z → (B' ≤ int_max)%Z →
  (∀ b0, a0 = Some b0 → in_ints b0) →
  let s' := foldl (commit_role variants stateMap k) s rest in
  ordered a0 t0 B' s' ∧ al_fit s' = al_fit s ∧ al_e s' = al_e s ∧
  ∀ w, grown t0 w (al_targets s') = (grown t0 w (al_targets s) + sumZ (λ p, count_of k p.1 * w p.2.1) rest)%Z.
Proof using All.
  cbv zeta. revert s. induction rest as [|p rest IH]; intros s Ho Hpe HB HB' Hi0; cbn [foldl].
  { split_and!; try done. intros w. unfold sumZ. simpl. lia. }
  destruct (IH (commit_role variants stateMap k s p)) as (I1 & I2 & I4 & I3); try done.
  - by eapply commit_ordered.
  - eapply commit_pending; [done|]. intros b. by eapply ordered_budget_ok.
  - split_and!; [done|rewrite I2; apply commit_frame|rewrite I4; apply commit_frame|]. intros w.
    rewrite I3, (commit_targets B B' k s p rest) by (done || apply Ho). rewrite sumZ_cons. clear Hlen Hgpus. lia.
Qed.

(** *** One iteration *)
Definition nodes_progress (fit0 : nodeFit) (t0 : gmap string Z) (s : alloc_state) : Prop :=
  nf_namespace (al_fit s) = nf_namespace fit0 ∧
  match nf_nodes fit0, nf_nodes (al_fit s) with
  | None, None => True
  | Some v0, Some v =>
      wf v ∧ grows v0 v ∧ owner v = owner v0 ∧
      total_debit v = (total_debit v0 + grown t0 (λ x, pods_total
        (nf_replica v0 (nf_namespace fit0) variants stateMap x)) (al_targets s))%Z
  | _, _ => False
  end.

Record progress (e0 : NamedAnalyzerResult) (a0 : option (gmap string Z)) (t0 : gmap string Z)
    (fit0 : nodeFit) (B : Z) (s : alloc_state) : Prop := {
  pg_ordered : ordered a0 t0 B s;
  pg_nodes : nodes_progress fit0 t0 s;
  pg_signal : charged_from e0 (al_e s) }.

Lemma ordered_frame a0 t0 B B' s s' :
  ordered a0 t0 B s → same_frame s s' → sane_ps (al_ps s') → (B ≤ B')%Z → ordered a0 t0 B' s'.
Proof.
  clear Hlen Hgpus. intros [H1 H2 H3 H4 H5 H6 H7 H8] (F1 & F2 & F3 & F4 & F5 & F6) Hps HB.
  split; rewrite ?F1, ?F2, ?F3; try done. intros v. specialize (H3 v). lia.
Qed.

Lemma nodes_frame fit0 t0 s s' : nodes_progress fit0 t0 s → same_frame s s' → nodes_progress fit0 t0 s'.
Proof.
  intros [Hn Hm] (F1 & F2 & F3 & F4 & F5 & F6). unfold nodes_progress. rewrite F1, F5, F6. done.
Qed.

Lemma progress_nodes_ok e0 a0 t0 fit0 B s : progress e0 a0 t0 fit0 B s → nodes_ok (al_fit s).
Proof.
  intros [_ [_ Hn] _]. unfold nodes_ok. destruct (nf_nodes (al_fit s)); [|done].
  destruct (nf_nodes fit0); [apply Hn|done].
Qed.

Lemma progress_avail_ok a0 t0 B s : ordered a0 t0 B s → avail_ok (al_available s).
Proof.
  intros Ho. unfold avail_ok. destruct (al_available s) as [b|] eqn:Hb; [|done].
  pose proof (or_avail _ _ _ _ Ho) as Ha. rewrite Hb in Ha. destruct a0; [|done].
  split; apply Ha.
Qed.

(** The picks of an iteration, cut to what fits, are what it commits. *)
Lemma fitted_pending a0 t0 B s picks k fit' :
  ordered a0 t0 B s → Forall (good_pick s) picks → NoDup picks.*1 → fitted s picks k fit' →
  pending B k (set_fit s fit') picks.
Proof using All.
  intros Ho Hg Hnd Hf. split; [done| |apply Hf]. rewrite Forall_forall in Hg |- *. intros p Hp.
  pose proof (fitted_count _ _ _ _ Hf p Hp) as [Hk _]. pose proof (size_range s p (Hg p Hp)) as [Hsz Hcap].
  pose proof (Hg p Hp) as Hgp. destruct p as [role [v n]].
  destruct (good_pick_sizes s role v n Hgp (or_ps _ _ _ _ Ho)) as (Hs & _).
  destruct Hgp as (Hr & _ & vc & Hvc & <- & Hu & Hn & Hb & Hm). unfold committable. cbn [fst snd al_targets set_fit al_available] in *.
  refine (conj Hr (conj _ (conj Hs (conj _ (conj _ (conj _ _)))))); [lia|apply Ho|..|eauto].
  - intros m Hm'. specialize (Hm m Hm'). lia.
  - intros b Hb'. specialize (Hb b Hb'). apply list_elem_of_filter in Hvc as [_ Hvc].
    destruct (prcFromVCs_name variants vc Hnames Hvc) as [_ ->].
    pose proof (gpusPerReplica_pos stateMap (rec_Name vc)).
    exists (budgetOf (Some b) (rec_Acc vc)). apply budgetOf_key; [done|nia].
Qed.

Lemma fitted_nodes_progress fit0 t0 s picks k fit' s' :
  nodes_progress fit0 t0 s → fitted s picks k fit' → al_fit s' = fit' →
  (∀ w, grown t0 w (al_targets s') = (grown t0 w (al_targets s) + sumZ (λ p : pick_of, count_of k p.1 * w p.2.1) picks)%Z) →
  nodes_progress fit0 t0 s'.
Proof.
  clear Hlen Hgpus. intros [Hns Hn] [_ _ Fns Fn] Hfit Hgr. unfold nodes_progress. rewrite Hfit. split; [congruence|].
  destruct (nf_nodes (al_fit s)) as [v|], (nf_nodes fit0) as [v0|]; try done; [|by rewrite Fn].
  destruct Fn as (v' & -> & Hw' & Hg' & Ho' & Ht'), Hn as (Hw & Hg & Ho & Ht). split_and!; [done|by etrans|congruence|].
  rewrite Ht', Ht, Hgr, <- Z.add_assoc. do 2 f_equal. apply sumZ_ext. intros p _. rewrite Hns. do 2 f_equal.
  unfold nf_replica. apply fitOf_slots, Hg.
Qed.

Lemma charge_anchor_charged s fit' picks k :
  Forall (good_pick s) picks → NoDup picks.*1 → fitted s picks k fit' →
  charged_from (al_e s) (charge_anchor (variants_of picks) k (al_e s)).
Proof using All.
  intros Hg Hnd Hf.
  assert (Hr : ∀ role v, variants_of picks !! role = Some v → (0 ≤ count_of k role ≤ maxReplicaCount)%Z).
  { intros role v Hl. unfold variants_of in Hl. apply elem_of_list_to_map_2 in Hl.
    apply list_elem_of_fmap in Hl as (p & [= -> ->] & Hp). pose proof (fitted_count _ _ _ _ Hf p Hp) as [Hk _].
    rewrite Forall_forall in Hg. pose proof (size_range s p (Hg p Hp)) as [Hz _]. clear Hlen Hgpus. lia. }
  unfold charge_anchor. destruct (variants_of picks !! RolePrefill) eqn:H1; [by eapply applyAllocation_charged, Hr|].
  destruct (variants_of picks !! RoleBoth) eqn:H2; [by eapply applyAllocation_charged, Hr|reflexivity].
Qed.

(** Something is committed when some count was positive. *)
Lemma picks_commit s k fit' picks :
  fitted s picks k fit' → NoDup picks.*1 →
  existsb (λ role, (0 <? count_of (counts_of s picks) role)%Z) picks.*1 = true →
  (1 ≤ sumZ (λ p : pick_of, count_of k p.1 * 1) picks)%Z.
Proof.
  clear Hlen Hgpus. intros Hf Hnd (r & Hr%list_elem_of_In & Hc)%existsb_exists.
  apply list_elem_of_fmap in Hr as (p & -> & Hp). rewrite counts_of_pick in Hc by done.
  destruct (fitted_count _ _ _ _ Hf p Hp) as [_ H1]. specialize (H1 ltac:(lia)).
  etrans; [|apply (sumZ_elem_le _ picks p); [|done]]; [lia|].
  intros q Hq. destruct (fitted_count _ _ _ _ Hf q Hq) as [? _]. lia.
Qed.

Lemma alloc_step_progress e0 a0 t0 fit0 B s :
  progress e0 a0 t0 fit0 B s → (B + maxReplicaCount ≤ int_max)%Z → (∀ b0, a0 = Some b0 → in_ints b0) →
  let '(s', go) := alloc_step variants stateMap pick roles s in
  progress e0 a0 t0 fit0 (B + maxReplicaCount) s' ∧
  (go = true → (grown t0 (λ _, 1%Z) (al_targets s) + 1 ≤ grown t0 (λ _, 1%Z) (al_targets s'))%Z).
Proof using All.
  intros Hpg HB Hi0. pose proof Hpg as [Ho Hno Hsg]. unfold alloc_step.
  assert (Htok : targets_ok (al_targets s)).
  { intros v. pose proof (or_range _ _ _ _ Ho v). unfold maxReplicaCount in HB. lia. }
  pose proof (pick_roles_spec roles s [] (or_P _ _ _ _ Ho) Htok (or_ps _ _ _ _ Ho) Hroles ltac:(done)
    ltac:(constructor) ltac:(constructor) ltac:(set_solver)) as Hpr.
  destruct (pick_roles _ _ _ _ _ _) as [[picks s1] allPicked].
  destruct Hpr as (Hfr & Hps & Hg & Hnd & _).
  assert (Ho1 : ordered a0 t0 B s1) by (eapply ordered_frame; [done..|lia]).
  assert (Ho1' : ordered a0 t0 (B + maxReplicaCount) s1).
  { eapply ordered_frame; [done..|unfold maxReplicaCount; lia]. }
  pose proof (nodes_frame _ _ _ _ Hno Hfr) as Hno1.
  assert (Hsg1 : charged_from e0 (al_e s1)) by (destruct Hfr as (_ & _ & _ & -> & _); done).
  destruct (negb allPicked || _); [by split|]. destruct (fle _ f0); [by split|].
  change (list_to_map ((λ p : pick_of, (p.1, p.2.1)) <$> picks)) with (variants_of picks).
  change (list_to_map ((λ p : pick_of, (p.1, commit_count variants s1 (delta_util variants s1 picks) p)) <$> picks))
    with (counts_of s1 picks).
  destruct (existsb _ _) eqn:Hex; cbn [negb]; [|by split].
  pose proof (fit_ok s1 picks (progress_avail_ok _ _ _ _ Ho1)
    (progress_nodes_ok e0 a0 t0 fit0 B s1 (Build_progress _ _ _ _ _ _ Ho1 Hno1 Hsg1)) Hg Hnd Hps) as Hfit.
  destruct (fitPairToBudget _ _ _ _ _ _ _) as [[k|] fit'].
  2: { destruct Hfit as [F1 F2]. split; [|done].
       assert (Hf2 : same_frame s1 (set_fit s1 fit')) by (split_and!; done).
       split; [by eapply ordered_frame|by eapply nodes_frame|done]. }
  assert (Hord : ordered a0 t0 (B + maxReplicaCount) (set_fit s1 fit')).
  { destruct Ho1' as [? ? ? ? ? ? ? ?]. by split. }
  destruct (commit_fold a0 t0 B (B + maxReplicaCount) k picks (set_fit s1 fit') Hord
    (fitted_pending _ _ _ _ _ _ _ Ho1 Hg Hnd Hfit) ltac:(lia) HB Hi0) as (C1 & C2 & C4 & C3).
  split; [split|].
  - destruct C1 as [? ? ? ? ? ? ? ?]. by split.
  - eapply (fitted_nodes_progress fit0 t0 s1); [done|exact Hfit|exact C2|exact C3].
  - cbn [al_e]. rewrite C4. etrans; [exact Hsg1|]. by apply (charge_anchor_charged s1 fit').
  - intros _. cbn [al_targets]. rewrite C3. cbn [set_fit al_targets].
    destruct Hfr as (-> & _). by apply Z.add_le_mono_l, (picks_commit s1 k fit').
Qed.

(** *** The loop *)
Lemma alloc_loop_progress e0 a0 t0 fit0 B fuel s :
  progress e0 a0 t0 fit0 B s → (B + Z.of_nat fuel * maxReplicaCount ≤ int_max)%Z →
  (∀ b0, a0 = Some b0 → in_ints b0) →
  progress e0 a0 t0 fit0 (B + Z.of_nat fuel * maxReplicaCount) (alloc_loop variants stateMap pick roles fuel s).1.
Proof using All.
  revert B s. induction fuel as [|fuel IH]; intros B s Hp HB Hi0; cbn [alloc_loop].
  { rewrite Z.mul_0_l, Z.add_0_r. by destruct (negb _). }
  assert (Hstay : ∀ s', progress e0 a0 t0 fit0 (B + maxReplicaCount) s' →
    progress e0 a0 t0 fit0 (B + Z.of_nat (S fuel) * maxReplicaCount) s').
  { intros s' [[? ? Hr ? ? ? ? ?] ? ?]. split; [split|..]; try done. intros v. specialize (Hr v).
    clear Hlen Hgpus. unfold maxReplicaCount in *. lia. }
  assert (HB1 : (B + maxReplicaCount ≤ int_max)%Z) by (clear Hlen Hgpus; unfold maxReplicaCount in *; lia).
  destruct (negb _).
  { apply Hstay. destruct Hp as [[? ? Hr ? ? ? ? ?] ? ?]. split; [split|..]; try done. intros v. specialize (Hr v). simpl.
    clear Hlen Hgpus. unfold maxReplicaCount in *. lia. }
  pose proof (alloc_step_progress e0 a0 t0 fit0 B s Hp HB1 Hi0) as Hs.
  destruct (alloc_step _ _ _ _ s) as [s' go]. destruct Hs as [Hs _]. destruct go; [|by apply Hstay].
  replace (B + Z.of_nat (S fuel) * maxReplicaCount)%Z
    with (B + maxReplicaCount + Z.of_nat fuel * maxReplicaCount)%Z by (clear Hlen Hgpus; lia).
  apply IH; [done| |done]. clear Hlen Hgpus. lia.
Qed.

(** The most a variant may be ordered up to: its own maximum, or what the budget
    its accelerator is spent from holds. *)
Definition order_limit (a0 : option (gmap string Z)) (t0 : gmap string Z) (v : string) : option Z :=
  match max_bound stateMap v with
  | Some m => Some (Z.max (target_of t0 v) m)
  | None =>
      match a0 with
      | None => None
      | Some b0 => match b0 !! budgetKey b0 (accFromVCs variants v) with
                   | None => Some (target_of t0 v)
                   | Some F => if (F =? MaxInt)%Z then None else Some (target_of t0 v + F)%Z
                   end
      end
  end.

Lemma order_limit_le a0 t0 B s vc l :
  ordered a0 t0 B s → vc ∈ variants → order_limit a0 t0 (rec_Name vc) = Some l →
  (target_of (al_targets s) (rec_Name vc) ≤ l)%Z.
Proof.
  clear Hlen Hgpus. intros Ho Hin. unfold order_limit.
  destruct (max_bound _ _) as [m|] eqn:Hm; [intros [= <-]; by apply Ho|].
  destruct a0 as [b0|]; [|done].
  destruct (b0 !! _) as [F|] eqn:HF; [|intros [= <-]; by rewrite (or_listed _ _ _ _ Ho b0)].
  destruct (Z.eqb_spec F MaxInt) as [|Hne]; [done|]. intros [= <-].
  pose proof (or_avail _ _ _ _ Ho) as Ha. destruct (al_available s) as [b|]; [|done].
  destruct Ha as (Hok & _ & _ & Hav & _). destruct (Hav _ F HF Hne) as (v & Hv & _ & Hle).
  pose proof (ok_nonneg _ Hok _ _ Hv).
  assert (Hd : ((target_of (al_targets s) (rec_Name vc) - target_of t0 (rec_Name vc)) *
    draw_weight b0 (Covers (budgetKey b0 (accFromVCs variants (rec_Name vc)))) (rec_Name vc) ≤
    drawn b0 t0 (Covers (budgetKey b0 (accFromVCs variants (rec_Name vc)))) (al_targets s))%Z).
  { unfold drawn, grown. apply (sumZ_elem_le (λ vc0, (target_of (al_targets s) (rec_Name vc0) -
      target_of t0 (rec_Name vc0)) * draw_weight _ _ (rec_Name vc0))%Z); [|done].
    intros q _. pose proof (or_grows _ _ _ _ Ho (rec_Name q)).
    unfold draw_weight. pose proof (gpusPerReplica_pos stateMap (rec_Name q)). case_match; nia. }
  unfold draw_weight at 1 in Hd. rewrite Covers_refl in Hd.
  pose proof (gpusPerReplica_pos stateMap (rec_Name vc)). pose proof (or_grows _ _ _ _ Ho (rec_Name vc)). nia.
Qed.

(** Every variant limited, by [L] at most. *)
Definition all_limited (a0 : option (gmap string Z)) (t0 : gmap string Z) (L : Z) : Prop :=
  (∀ v, target_of t0 v ≤ L)%Z ∧
  ∀ vc, vc ∈ variants → ∃ l, order_limit a0 t0 (rec_Name vc) = Some l ∧ (l ≤ L)%Z.

(** The replicas that may still be ordered, over all variants. *)
Definition order_room (a0 : option (gmap string Z)) (t0 t : gmap string Z) : Z :=
  sumZ (λ vc, default 0%Z (order_limit a0 t0 (rec_Name vc)) - target_of t (rec_Name vc))%Z variants.

Lemma limited_ordered a0 t0 L B s : all_limited a0 t0 L → ordered a0 t0 B s → ordered a0 t0 L s.
Proof.
  intros [Hl0 Hl] Ho. pose proof (order_limit_le a0 t0 B s) as Hlim. clear Hlen Hgpus.
  pose proof Ho as [? Hot Hr ? ? ? ? ?]. split; try done. intros v. split; [apply Hr|].
  destruct (decide (v ∈ rec_Name <$> variants)) as [(vc & -> & Hin)%list_elem_of_fmap|Hn].
  - destruct (Hl vc Hin) as (l & Hle & ?). specialize (Hlim vc l Ho Hin Hle). lia.
  - rewrite Hot by done. apply Hl0.
Qed.

Lemma order_room_grown a0 t0 t :
  order_room a0 t0 t = (order_room a0 t0 t0 - grown t0 (λ _, 1%Z) t)%Z.
Proof.
  clear Hlen Hgpus. unfold order_room, grown. rewrite <- sumZ_minus. apply sumZ_ext. intros vc _.
  set (x := default _ _). lia.
Qed.

Lemma alloc_loop_ends e0 a0 t0 fit0 L fuel s :
  all_limited a0 t0 L → (L + maxReplicaCount ≤ int_max)%Z → (∀ b0, a0 = Some b0 → in_ints b0) →
  progress e0 a0 t0 fit0 L s → (order_room a0 t0 (al_targets s) < Z.of_nat fuel)%Z →
  (alloc_loop variants stateMap pick roles fuel s).2 = true ∧
  progress e0 a0 t0 fit0 L (alloc_loop variants stateMap pick roles fuel s).1.
Proof using All.
  intros HL HLi Hi0. revert s. induction fuel as [|fuel IH]; intros s Hp Hr; cbn [alloc_loop].
  - exfalso. assert (0 ≤ order_room a0 t0 (al_targets s))%Z; [|lia].
    apply sumZ_nonneg. intros vc Hin. destruct HL as [_ HL]. destruct (HL vc Hin) as (l & Hl & _). rewrite Hl. simpl.
    pose proof (order_limit_le a0 t0 L s vc l (pg_ordered _ _ _ _ _ _ Hp) Hin Hl). lia.
  - destruct (negb _); [by split|].
    pose proof (alloc_step_progress e0 a0 t0 fit0 L s Hp HLi Hi0) as Hs.
    destruct (alloc_step _ _ _ _ s) as [s' go]. destruct Hs as [[Hs1 Hs2 Hs3] Hgo].
    assert (Hp' : progress e0 a0 t0 fit0 L s') by (split; [by eapply limited_ordered|done|done]).
    destruct go; [|by split]. apply IH; [done|]. specialize (Hgo eq_refl).
    rewrite order_room_grown in Hr |- *. lia.
Qed.
End step.

(** ** The loop on a model *)

(** A model the loop is run for: distinct variant names and roles, sizes between
    2^-500 and 2^500, at most 2^20 GPUs a replica. *)
Record sane_model (variants : list variantRecord) (stateMap : gmap string VariantReplicaState)
    (roles : list string) : Prop := {
  sm_names : NoDup (rec_Name <$> variants);
  sm_roles : NoDup roles;
  sm_named : "" ∉ roles;
  sm_prc : ∀ vc, vc ∈ variants → fle (rec_PerReplicaCapacity vc) f0 = false →
    sane_prc (rec_PerReplicaCapacity vc);
  sm_gpus : ∀ v, (gpusPerReplicaFromState stateMap v ≤ 1048576)%Z;
  sm_len : (length roles ≤ 2048)%nat;
  sm_max : ∀ v m, max_bound stateMap v = Some m → (m ≤ int_max)%Z }.

(** What it starts from: no target above [B]. *)
Record sane_start (roles : list string) (avail : option (gmap string Z)) (targets : gmap string Z)
    (ps : RolePairedState) (fit : nodeFit) (B : Z) : Prop := {
  ss_avail : avail_ok avail;
  ss_targets : ∀ v, (0 ≤ target_of targets v ≤ B)%Z;
  ss_ps : sane_ps roles ps;
  ss_nodes : nodes_ok fit }.

Section paired.
Context `{GoSort} `{TaintMatcher} {C : IntConv}.
Context (variants : list variantRecord) (stateMap : gmap string VariantReplicaState) (roles : list string).
Hypothesis Hm : sane_model variants stateMap roles.

Lemma start_progress (P : option (gmap string Z) → Prop) avail targets ps fit B e :
  P avail → sane_start roles avail targets ps fit B →
  progress variants stateMap P roles e avail targets fit B (MkAlloc targets ps avail ∅ e fit).
Proof.
  intros HP [Ha Ht Hp Hn]. split.
  - split; cbn [al_targets al_ps al_available al_spent]; try done; [lia|].
    destruct avail as [b|]; [|done]. destruct Ha as [Hok Hsm]. split_and!; try done.
    + intros f F Hf HF. exists F. split_and!; [done|done|]. unfold drawn. by rewrite grown_start, Z.add_0_r.
    + intros key F _ _. unfold drawn. by rewrite grown_start.
  - split; [done|]. cbn [al_fit al_targets]. unfold nodes_ok in Hn. destruct (nf_nodes fit) as [v|]; [|done].
    split_and!; [done|done|done|]. by rewrite grown_start, Z.add_0_r.
  - done.
Qed.

Lemma avail_ints avail : avail_ok avail → ∀ b0, avail = Some b0 → in_ints b0.
Proof. intros Ha b0 ->. apply (ok_ints _ (proj1 Ha)). Qed.

(** With any picker that keeps the laws. *)
Lemma paired_progress P pick `{!PickLaws variants stateMap P pick} fuel e avail targets ps fit B :
  (∀ b key n, P (Some b) → P (Some (debitBudget b key n))) → P avail →
  sane_start roles avail targets ps fit B → (B + Z.of_nat fuel * maxReplicaCount ≤ int_max)%Z →
  progress variants stateMap P roles e avail targets fit (B + Z.of_nat fuel * maxReplicaCount)
    (allocateForModelPairedOn fuel e variants stateMap avail targets pick ps roles fit).1.
Proof using Hm.
  intros HP HPa Hs HB. unfold allocateForModelPairedOn.
  apply alloc_loop_progress; try apply Hm; try done; [by apply start_progress|]. by apply avail_ints, Hs.
Qed.

Lemma paired_ends P pick `{!PickLaws variants stateMap P pick} fuel e avail targets ps fit L :
  (∀ b key n, P (Some b) → P (Some (debitBudget b key n))) → P avail →
  sane_start roles avail targets ps fit L → (L + maxReplicaCount ≤ int_max)%Z →
  all_limited variants stateMap avail targets L →
  (order_room variants stateMap avail targets targets < Z.of_nat fuel)%Z →
  let r := allocateForModelPairedOn fuel e variants stateMap avail targets pick ps roles fit in
  r.2 = true ∧ progress variants stateMap P roles e avail targets fit L r.1.
Proof using Hm.
  intros HP HPa Hs HL Hlim Hr. cbv zeta. unfold allocateForModelPairedOn.
  apply alloc_loop_ends; try apply Hm; try done; [by apply avail_ints, Hs|by apply start_progress].
Qed.

Lemma fair_share_picks target :
  PickLaws variants stateMap (λ _, True) (fairShareRolePickOn variants stateMap target).
Proof using Hm. apply fair_share_laws, Hm. Qed.

Lemma cost_greedy_picks :
  PickLaws variants stateMap (λ avail, avail = None) (costGreedyRolePick variants stateMap).
Proof using Hm. apply cost_greedy_laws, Hm. Qed.
End paired.

(** C7: the scale-up loop of the fair-share optimizer orders within its budget:
    under every finite key, of a product or a family, the GPUs of everything it
    ordered are within what the budget held, and what is left of the key is within
    the rest; and the loop's account of a finite key is exactly the GPUs of the
    replicas it ordered from it. *)
Theorem scale_up_within_budget `{GoSort} `{TaintMatcher} {C : IntConv} fuel e variants stateMap roles
    b0 targets target ps fit B :
  sane_model variants stateMap roles → sane_start roles (Some b0) targets ps fit B →
  (B + Z.of_nat fuel * maxReplicaCount ≤ int_max)%Z →
  let s := (allocateForModelPairedOn fuel e variants stateMap (Some b0) targets
              (fairShareRolePickOn variants stateMap target) ps roles fit).1 in
  ∃ b, al_available s = Some b ∧ (∀ k, is_Some (b !! k) ↔ is_Some (b0 !! k)) ∧
  ∀ f F, b0 !! f = Some F → F ≠ MaxInt →
    (∃ left, b !! f = Some left ∧
       (0 ≤ left ∧ left + drawn variants stateMap b0 targets (Covers f) (al_targets s) ≤ F)%Z) ∧
    count_of (al_spent s) f = drawn variants stateMap b0 targets (String.eqb f) (al_targets s).
Proof.
  intros Hm Hs HB. cbv zeta. pose proof (fair_share_picks variants stateMap roles Hm target).
  destruct (paired_progress variants stateMap roles Hm (λ _, True) _ fuel e (Some b0) targets ps fit B
    ltac:(done) I Hs HB) as [Ho _ _].
  pose proof (or_avail _ _ _ _ _ _ _ _ Ho) as Ha.
  destruct (al_available _) as [b|]; [|done]. destruct Ha as (Hok & _ & Hdom & Hav & Hsp & _).
  exists b. split_and!; [done|done|]. intros f F Hf HF. split; [|by eapply Hsp].
  destruct (Hav f F Hf HF) as (v & Hv & _ & Hle). exists v. split_and!; [done|by eapply (ok_nonneg _ Hok)|done].
Qed.

(** The loop never lowers a target, touches no variant but the model's own, and
    raises none above its maximum (or where it started); and with a node view it
    places every pod of every replica it orders: the view holds the GPUs of exactly
    those pods more than before, on nodes that had them free. *)
Theorem scale_up_bounded_and_placed `{GoSort} `{TaintMatcher} {C : IntConv} fuel e variants stateMap roles
    avail targets target ps fit B :
  sane_model variants stateMap roles → sane_start roles avail targets ps fit B →
  (B + Z.of_nat fuel * maxReplicaCount ≤ int_max)%Z →
  let s := (allocateForModelPairedOn fuel e variants stateMap avail targets
              (fairShareRolePickOn variants stateMap target) ps roles fit).1 in
  (∀ v, (target_of targets v ≤ target_of (al_targets s) v)%Z) ∧
  (∀ v, v ∉ rec_Name <$> variants → target_of (al_targets s) v = target_of targets v) ∧
  (∀ v m, max_bound stateMap v = Some m → (target_of (al_targets s) v ≤ Z.max (target_of targets v) m)%Z) ∧
  (∀ v0, nf_nodes fit = Some v0 →
     ∃ v, nf_nodes (al_fit s) = Some v ∧ wf v ∧ grows v0 v ∧
     total_debit v =
     (total_debit v0 + sumZ (λ vc, (target_of (al_targets s) (rec_Name vc) - target_of targets (rec_Name vc)) *
        pods_total (nf_replica v0 (nf_namespace fit) variants stateMap (rec_Name vc))) variants)%Z).
Proof.
  intros Hm Hs HB. cbv zeta. pose proof (fair_share_picks variants stateMap roles Hm target).
  destruct (paired_progress variants stateMap roles Hm (λ _, True) _ fuel e avail targets ps fit B
    ltac:(done) I Hs HB) as [Ho [_ Hn] _].
  split_and!; [apply Ho..|]. intros v0 Hv0. rewrite Hv0 in Hn.
  destruct (nf_nodes _) as [v|]; [|done]. destruct Hn as (? & ? & _ & ?). by exists v.
Qed.

(** C17: the loop ends: when each variant has a maximum, or is spent from a finite
    key (or from none), one more iteration than there are replicas left to order is
    enough, since each but the last commits one. *)
Theorem scale_up_ends `{GoSort} `{TaintMatcher} {C : IntConv} fuel e variants stateMap roles
    avail targets target ps fit L :
  sane_model variants stateMap roles → sane_start roles avail targets ps fit L →
  (L + maxReplicaCount ≤ int_max)%Z → all_limited variants stateMap avail targets L →
  (order_room variants stateMap avail targets targets < Z.of_nat fuel)%Z →
  (allocateForModelPairedOn fuel e variants stateMap avail targets
     (fairShareRolePickOn variants stateMap target) ps roles fit).2 = true.
Proof.
  intros Hm Hs HL Hlim Hr. pose proof (fair_share_picks variants stateMap roles Hm target).
  by apply (paired_ends variants stateMap roles Hm (λ _, True) _ fuel e avail targets ps fit L).
Qed.

(** ** The hypotheses on concrete models *)
Definition sane_size (x : float64) : bool :=
  match x with
  | S754_finite false m e => (Z.pos m <=? 2 ^ 53)%Z && (-500 <=? e)%Z && (e <=? 447)%Z
  | _ => false
  end.

Lemma sane_size_ok x : sane_size x = true → sane_prc x ∧ sane_demand x.
Proof.
  destruct x as [| | |[] m e]; try done. simpl. intros [[Hm He]%andb_true_iff He']%andb_true_iff.
  apply Z.leb_le in Hm, He, He'. pose proof (bpow_pos e).
  assert (Hm1 : (1 <= IZR (Z.pos m))%R) by (apply IZR_le; lia).
  assert (Hm2 : (IZR (Z.pos m) <= bpow 53)%R) by (rewrite bpow_IZR by lia; by apply IZR_le).
  assert (Hlo : (bpow (-500) <= F2R (S754_finite false m e))%R).
  { etrans; [by apply bpow_le|].
    change (F2R (S754_finite false m e)) with (IZR (Z.pos m) * bpow e)%R. rewrite <- (Rmult_1_l (bpow e)) at 1. apply Rmult_le_compat_r; lra. }
  assert (Hhi : (F2R (S754_finite false m e) <= bpow 500)%R).
  { etrans; [|apply (bpow_le (53 + e)); lia]. rewrite bpow_add.
    change (F2R (S754_finite false m e)) with (IZR (Z.pos m) * bpow e)%R. apply Rmult_le_compat_r; lra. }
  pose proof (bpow_pos (-500)). split; (split; [split; [done|lra]|]); [by split|done].
Qed.

Lemma sane_model_of variants stateMap roles :
  NoDup (rec_Name <$> variants) → NoDup roles → "" ∉ roles → (length roles ≤ 2048)%nat →
  Forall (λ vc, fle (rec_PerReplicaCapacity vc) f0 = true ∨ sane_size (rec_PerReplicaCapacity vc) = true) variants →
  map_Forall (λ _ st, (st_GPUsPerReplica st ≤ 1048576)%Z ∧ (default 0%Z (st_MaxReplicas st) ≤ int_max)%Z) stateMap →
  sane_model variants stateMap roles.
Proof.
  intros H1 H2 H3 H4 Hv Hs. rewrite Forall_forall in Hv. split; try done.
  - intros vc Hin Hf. destruct (Hv vc Hin) as [?|Hz]; [congruence|]. by apply sane_size_ok.
  - intros v. unfold gpusPerReplicaFromState. destruct (stateMap !! v) as [st|] eqn:E; [|done].
    destruct (Hs v st E). case_match; lia.
  - intros v m. unfold max_bound, state_of. destruct (stateMap !! v) as [st|] eqn:E; simpl; [|done].
    destruct (Hs v st E) as [_ Hm]. destruct (st_MaxReplicas st); [|done]. case_match; [|done]. by intros [= <-].
Qed.

Lemma targets_within (targets : gmap string Z) B :
  (0 ≤ B)%Z → map_Forall (λ _ n, (0 ≤ n ≤ B)%Z) targets → ∀ v, (0 ≤ target_of targets v ≤ B)%Z.
Proof. intros HB Ht v. unfold target_of. destruct (targets !! v) eqn:E; [by apply (Ht v)|done]. Qed.

Lemma single_budget_ok key n :
  (0 ≤ n ≤ 4294967296)%Z → budget_ok {[key := n]} ∧ small_budgets {[key := n]}.
Proof.
  intros Hn. assert (Hl : ∀ k v, ({[key := n]} : gmap string Z) !! k = Some v → k = key ∧ v = n).
  { intros k v [-> ->]%lookup_singleton_Some. done. }
  split; [split|].
  - intros p f pv fv [-> ->]%Hl [-> ->]%Hl _ _. reflexivity.
  - intros k k' [v [-> _]%Hl] [v' [-> _]%Hl] _. done.
  - intros k v [_ ->]%Hl. unfold in_int, int_min, int_max. lia.
  - intros k v [_ ->]%Hl. lia.
  - intros k v [_ ->]%Hl. lia.
Qed.

(** A prefill and a decode variant on H100 nodes, two and one GPUs a replica, with
    demand for more than the eight GPUs of the family's budget. *)
Definition pd_variants : list variantRecord :=
  [MkRecord (MkMetadata "pre" "prefill" (f_of 10) "NVIDIA-H100-PCIe") (f_of 100) f0;
   MkRecord (MkMetadata "dec" "decode" (f_of 5) "NVIDIA-H100-PCIe") (f_of 50) f0].
Definition pd_states : gmap string VariantReplicaState :=
  {["pre" := MkReplicaState "pre" 1 [] [] "" [] 2 "prefill" None None;
    "dec" := MkReplicaState "dec" 1 [] [] "" [] 1 "decode" None (Some 9%Z)]}.
Definition pd_roles : list string := ["decode"; "prefill"].
Definition pd_result : AnalyzerResult :=
  MkAnalyzerResult [MkVariantCapacity "pre" "prefill" (f_of 100) "" (f_of 10) f0;
                    MkVariantCapacity "dec" "decode" (f_of 50) "" (f_of 30) f0] (f_of 40).
Definition pd_signal : NamedAnalyzerResult :=
  MkNamed (Some pd_result) f1 (f_of 1000) f0 None None f0 f0 f0 (f_of 1000) f0 None true ∅ ∅ ∅.
Definition pd_targets : gmap string Z := {["pre" := 1%Z; "dec" := 1%Z]}.
Definition pd_ps : RolePairedState := {["prefill" := f_of 1000; "decode" := f_of 1000]}.
Definition pd_budget : gmap string Z := {["H100" := 8%Z]}.
Definition pd_fit : nodeFit := MkNodeFit (Some three_view) "ns" None.
Definition pd_run (fuel : nat) : alloc_state * bool :=
  allocateForModelPairedOn (H := by_key) fuel pd_signal pd_variants pd_states (Some pd_budget) pd_targets
    (fairShareRolePickOn (H0 := by_key) pd_variants pd_states (f_of 1000)) pd_ps pd_roles pd_fit.

Lemma pd_sane : sane_model pd_variants pd_states pd_roles.
Proof.
  apply sane_model_of; try (apply (bool_decide_unpack _); vm_compute; exact I).
  all: repeat constructor; apply (bool_decide_unpack _); vm_compute; exact I.
Qed.

Lemma pd_start : sane_start pd_roles (Some pd_budget) pd_targets pd_ps pd_fit 10.
Proof.
  split.
  - by apply single_budget_ok.
  - apply targets_within; [lia|]. apply (bool_decide_unpack _). vm_compute. exact I.
  - intros role. unfold pd_roles. intros Hr. repeat (apply elem_of_cons in Hr as [->|Hr]; [by apply sane_size_ok|]).
    by apply not_elem_of_nil in Hr.
  - apply three_view_wf.
Qed.

Lemma scale_up_within_budget_witness :
  (map_to_list (al_targets (pd_run 20).1) = [("dec", 5%Z); ("pre", 3%Z)]) ∧
  (drawn pd_variants pd_states pd_budget pd_targets (Covers "H100") (al_targets (pd_run 20).1) ≤ 8)%Z.
Proof.
  split; [vm_compute; reflexivity|].
  destruct (scale_up_within_budget (H0 := by_key) 20 pd_signal pd_variants pd_states pd_roles pd_budget pd_targets
    (f_of 1000) pd_ps pd_fit 10 pd_sane pd_start) as (b & _ & _ & Hb); [vm_compute; discriminate|].
  destruct (Hb "H100" 8%Z) as [(left & _ & Hle) _]; [reflexivity|discriminate|].
  unfold pd_run. lia.
Defined.

Lemma scale_up_bounded_and_placed_witness :
  ∃ v, nf_nodes (al_fit (pd_run 20).1) = Some v ∧ wf v ∧ (total_debit v = total_debit three_view + 8)%Z.
Proof.
  destruct (scale_up_bounded_and_placed (H0 := by_key) 20 pd_signal pd_variants pd_states pd_roles
    (Some pd_budget) pd_targets (f_of 1000) pd_ps pd_fit 10 pd_sane pd_start) as (_ & _ & _ & Hn);
    [vm_compute; discriminate|].
  destruct (Hn three_view eq_refl) as (v & Hv & Hw & _ & Ht). exists v. split; [exact Hv|]. split; [exact Hw|].
  rewrite Ht. vm_compute. reflexivity.
Defined.

Lemma scale_up_ends_witness :
  order_room pd_variants pd_states (Some pd_budget) pd_targets pd_targets = 16%Z ∧ (pd_run 17).2 = true.
Proof.
  split; [vm_compute; reflexivity|].
  refine (scale_up_ends (H0 := by_key) 17 pd_signal pd_variants pd_states pd_roles (Some pd_budget) pd_targets
    (f_of 1000) pd_ps pd_fit 10 pd_sane pd_start _ _ _).
  - vm_compute. discriminate.
  - split.
    + intros v. pose proof (ss_targets _ _ _ _ _ _ pd_start v). lia.
    + intros vc Hin. repeat (apply elem_of_cons in Hin as [->|Hin]; [by eexists; split; [vm_compute; reflexivity|]|]).
      by apply not_elem_of_nil in Hin.
  - vm_compute. reflexivity.
Defined.

(** ** The cost-aware optimizer's targets *)
Lemma initTargets_of states v :
  target_of (initTargets states) v = st_CurrentReplicas (state_of (buildStateMap states) v).
Proof.
  unfold target_of, state_of, initTargets, buildStateMap, last_by.
  assert (Hg : ∀ (m : gmap string Z) (m' : gmap string VariantReplicaState),
    (∀ v, m !! v = st_CurrentReplicas <$> m' !! v) →
    foldl (λ m s, <[st_VariantName s := st_CurrentReplicas s]> m) m states !! v =
    st_CurrentReplicas <$> foldl (λ m a, <[st_VariantName a := a]> m) m' states !! v).
  { induction states as [|st states IH]; intros m m' Hm; simpl; [apply Hm|]. apply IH. intros w.
    rewrite !lookup_insert. by case_decide. }
  rewrite (Hg ∅ ∅) by done. by destruct (_ !! v).
Qed.

(** A request the optimizer is run on; no variant has more than [B] replicas. *)
Record sane_request (B : Z) (req : ModelScalingRequest) : Prop := {
  sr_model : ∀ records, recordsForRequest req = Some records →
    sane_model records (buildStateMap (VariantStates req)) (initRoleState (CompositeSignal req)).1.1;
  sr_ps : sane_ps (initRoleState (CompositeSignal req)).1.1 (initRoleState (CompositeSignal req)).1.2;
  sr_current : ∀ v, (0 ≤ st_CurrentReplicas (state_of (buildStateMap (VariantStates req)) v) ≤ B)%Z;
  sr_min : ∀ v, (0 ≤ min_of (buildStateMap (VariantStates req)) v ≤ int_max)%Z }.

Section cost_aware_facts.
Context `{GoSort} `{TaintMatcher} {C : IntConv}.

Definition within_bounds (d : VariantDecision) : Prop :=
  (Z.min (CurrentReplicas d) (default 0%Z (dec_MinReplicas d)) ≤ TargetReplicas d)%Z ∧
  (∀ m, dec_MaxReplicas d = Some m → (0 < m)%Z → (TargetReplicas d ≤ Z.max (CurrentReplicas d) m)%Z).

Lemma buildDecision_fields req stateMap vcMap name p :
  let d := buildDecision req stateMap vcMap name p in
  let st := state_of stateMap p.1 in
  VariantName d = p.1 ∧ TargetReplicas d = p.2 ∧ CurrentReplicas d = st_CurrentReplicas st ∧
  dec_MinReplicas d = st_MinReplicas st ∧ dec_MaxReplicas d = st_MaxReplicas st ∧
  ModelID d = req_ModelID req ∧ dec_Namespace d = req_Namespace req.
Proof. destruct p as [v n]. unfold buildDecision. by destruct (requiredSpareForRoleOrModel _ _), (variantDemandShare _ _ _). Qed.

(** The targets one model ends with. *)
Lemma costAware_targets fuel B req d :
  sane_request B req → (B + Z.of_nat fuel * maxReplicaCount ≤ int_max)%Z →
  d ∈ (costAware_model fuel req).1 →
  within_bounds d ∧ ModelID d = req_ModelID req ∧ dec_Namespace d = req_Namespace req ∧
  (if anyRoleNeedsScaleUp (initRoleState (CompositeSignal req)).1.2 (initRoleState (CompositeSignal req)).1.1
   then (CurrentReplicas d ≤ TargetReplicas d)%Z else (TargetReplicas d ≤ CurrentReplicas d)%Z).
Proof.
  intros [Hm Hps Hc Hmin] HB. unfold costAware_model.
  destruct (recordsForRequest req) as [records|]; [|by intros []%not_elem_of_nil].
  specialize (Hm records eq_refl). destruct (initRoleState (CompositeSignal req)) as [[roles ps] e].
  cbn [fst snd] in Hm, Hps |- *. set (sm := buildStateMap (VariantStates req)) in *.
  set (t0 := initTargets (VariantStates req)).
  assert (Ht0 : ∀ v, target_of t0 v = st_CurrentReplicas (state_of sm v)) by (intros; apply initTargets_of).
  assert (Hgoal : ∀ (t : gmap string Z) (up : bool),
    (∀ v, (Z.min (target_of t0 v) (min_of sm v) ≤ target_of t v)%Z ∧
       (∀ m, max_bound sm v = Some m → (target_of t v ≤ Z.max (target_of t0 v) m)%Z) ∧
       (if up then (target_of t0 v ≤ target_of t v)%Z else (target_of t v ≤ target_of t0 v)%Z)) →
    d ∈ buildDecisionsWithOptimizer req sm (buildCapacityMap records) t "cost-aware" →
    within_bounds d ∧ ModelID d = req_ModelID req ∧ dec_Namespace d = req_Namespace req ∧
    (if up then (CurrentReplicas d ≤ TargetReplicas d)%Z else (TargetReplicas d ≤ CurrentReplicas d)%Z)).
  { intros t up Ht [[v n] [-> Hin]]%list_elem_of_fmap. apply elem_of_map_to_list in Hin.
    destruct (buildDecision_fields req sm (buildCapacityMap records) "cost-aware" (v, n))
      as (_ & F1 & F2 & F3 & F4 & F5 & F6). cbn [fst snd] in *. unfold within_bounds.
    rewrite F1, F2, F3, F4, F5, F6. specialize (Ht v). rewrite Ht0 in Ht.
    unfold target_of in Ht. rewrite Hin in Ht. cbn [default] in Ht. destruct Ht as (T1 & T2 & T3).
    split_and!; try done.
    - unfold min_of, state_of in *. destruct (sm !! v); done.
    - intros m Hmx Hpos. apply T2. unfold max_bound. rewrite Hmx. by rewrite (proj2 (Z.ltb_lt 0 m)). }
  destruct (anyRoleNeedsScaleUp ps roles) eqn:Hup.
  - pose proof (cost_greedy_picks records sm roles Hm).
    assert (Hs : sane_start roles None t0 ps no_fit B).
    { split; try done. intros v. rewrite Ht0. apply Hc. }
    destruct (paired_progress records sm roles Hm (λ avail, avail = None) _ fuel e None t0 ps no_fit B
      ltac:(done) eq_refl Hs HB) as [[Hg _ _ Hmx _ _ _ _] _ _].
    destruct (allocateForModelPairedOn _ _ _ _ _ _ _ _ _ _) as [s ?]. cbn [fst] in *.
    apply (Hgoal _ true). intros v. specialize (Hg v). split_and!; [lia|apply Hmx|done].
  - apply (Hgoal _ false). unfold scaleDownRoleIterated. intros v.
    assert (Hok : targets_ok t0).
    { intros w. rewrite Ht0. specialize (Hc w). unfold maxReplicaCount in HB. lia. }
    destruct (scaleDown_roles_bounds records sm Hmin (rolesOf records) (t0, e) Hok) as [_ Hb].
    specialize (Hb v). cbn [fst] in Hb. split_and!; [lia| |lia]. intros m _. lia.
Qed.
End cost_aware_facts.

(** Every decision of the cost-aware optimizer keeps its variant within its
    bounds: a target below the replicas there are is not below [MinReplicas], one
    above them is not above [MaxReplicas]; and all the decisions of a model move
    the same way, up when some role needs capacity and down otherwise. *)
Theorem cost_aware_within_bounds `{GoSort} `{TaintMatcher} {C : IntConv} fuel B requests d :
  Forall (sane_request B) requests → (B + Z.of_nat fuel * maxReplicaCount ≤ int_max)%Z →
  d ∈ (CostAware_Optimize fuel requests).1 →
  ∃ req, req ∈ requests ∧ ModelID d = req_ModelID req ∧ dec_Namespace d = req_Namespace req ∧
    within_bounds d ∧
    let '(roles, ps, _) := initRoleState (CompositeSignal req) in
    if anyRoleNeedsScaleUp ps roles then (CurrentReplicas d ≤ TargetReplicas d)%Z
    else (TargetReplicas d ≤ CurrentReplicas d)%Z.
Proof.
  intros Hs HB. cbn [CostAware_Optimize fst]. rewrite list_elem_of_join.
  intros (ds & Hd & (req & -> & Hin)%list_elem_of_fmap). rewrite Forall_forall in Hs.
  destruct (costAware_targets fuel B req d (Hs req Hin) HB Hd) as (H1 & H2 & H3 & H4).
  exists req. split_and!; try done. by destruct (initRoleState _) as [[? ?] ?].
Qed.

(** A request for the prefill and decode variants, short of capacity in both roles. *)
Definition pd_request : ModelScalingRequest :=
  MkRequest "llama" "ns"
    (MkNamed (Some pd_result) f1 (f_of 1000) f0 None None f0 f0 f0 (f_of 1000) f0
       (Some {["prefill" := MkRoleCapacity f0 f0 (f_of 1000) f0;
               "decode" := MkRoleCapacity f0 f0 (f_of 1000) f0]}) true ∅ ∅ ∅)
    [MkReplicaState "pre" 1 [] [] "" [] 2 "prefill" None None;
     MkReplicaState "dec" 1 [] [] "" [] 1 "decode" None (Some 9%Z)]
    (metadata <$> pd_variants) f1.

(** The same of a concrete request, as conditions that compute. *)
Lemma sane_request_of B req records :
  (0 ≤ B)%Z → recordsForRequest req = Some records →
  sane_model records (buildStateMap (VariantStates req)) (initRoleState (CompositeSignal req)).1.1 →
  Forall (λ role, sane_size (fget (initRoleState (CompositeSignal req)).1.2 role) = true) (initRoleState (CompositeSignal req)).1.1 →
  map_Forall (λ _ n, (0 ≤ n ≤ B)%Z) (initTargets (VariantStates req)) →
  map_Forall (λ _ st, (0 ≤ default 0%Z (st_MinReplicas st) ≤ int_max)%Z) (buildStateMap (VariantStates req)) →
  sane_request B req.
Proof.
  intros HB Hr Hm Hps Hc Hmin. split.
  - intros rs Hrs. rewrite Hr in Hrs. by injection Hrs as <-.
  - rewrite Forall_forall in Hps. intros role Hin. by apply sane_size_ok, Hps.
  - intros v. rewrite <- initTargets_of. by apply targets_within.
  - intros v. unfold min_of. destruct (_ !! v) as [st|] eqn:E; [by apply (Hmin v)|done].
Qed.

Ltac by_computation := apply (bool_decide_unpack _); vm_compute; exact I.

Lemma pd_request_sane : sane_request 10 pd_request.
Proof. apply (sane_request_of 10 pd_request pd_variants); [lia|reflexivity|exact pd_sane|by_computation..]. Qed.

Lemma cost_aware_within_bounds_witness :
  ((λ d, (VariantName d, TargetReplicas d)) <$> (CostAware_Optimize (H0 := by_key) 100 [pd_request]).1 =
     [("dec", 9%Z); ("pre", 11%Z)]) ∧
  ∀ d, d ∈ (CostAware_Optimize (H0 := by_key) 100 [pd_request]).1 → within_bounds d.
Proof.
  split; [vm_compute; reflexivity|]. intros d Hd.
  destruct (cost_aware_within_bounds (H0 := by_key) 100 10 [pd_request] d) as (_ & _ & _ & _ & Hw & _).
  - constructor; [exact pd_request_sane|constructor].
  - vm_compute. discriminate.
  - exact Hd.
  - exact Hw.
Defined.
