(* ===== verification/Attribution.v ===== *)
(** * Naming the limiter that held a scale-up back

    The model of [applyGPULimitAttribution], [bindingProviders] and
    [jointClusterBound] of [internal/engines/allocation/gpu_limit_attribution.go].

    A pass marks the variants it cut short ([PairFit.mark]); the decisions built
    from it carry the mark and the providers whose pools bound the variant, and the
    accelerators denied in each namespace are collected for the warm pool.  A map
    from a pointer to a constraint is a predicate here: what it holds depends on
    the constraint's pools only.  The counter of limited decisions is not modelled.

    Theorem: the providers named are exactly those that leave the least, each once,
    in the order they are declared; none is named only when none bounds the type. *)
From Stdlib Require Import ZArith Lia String Ascii.
From stdpp Require Import base gmap strings list sorting fin_maps.
From S2P Require Import Prelude Accelerator Budget NodeView GoFloat Domain Signals PairFit.

Definition NodeFitLimiterName : string := "node-fit".
Definition PairBorrowsWholeName : string := "pd-pair-borrows-whole".
Definition LenderCannotReclaimName : string := "lender-cannot-reclaim".

(** ** The cluster bounds together *)
Definition familyProducts (allowlists : list (gmap string ResourcePool)) (name : string) : list string :=
  mjoin ((λ pools : gmap string ResourcePool,
            filter (λ key, IsProductOf key name = true) (map_to_list pools).*1) <$> allowlists).

(** The tightest of the cluster bounds on a name, each on its own. *)
Definition tightest_alone (cluster : list ResourceConstraints) (name : string) : Z :=
  foldl (λ m c, let '(avail, bounds) := clusterBound (Pools c) name in
                if bounds then Z.min m avail else m) MaxInt cluster.

Definition holds_product (cluster : list ResourceConstraints) (c : ResourceConstraints)
    (product : string) : bool :=
  let '(avail, bounds) := clusterBound (Pools c) product in
  bounds && (avail =? tightest_alone cluster product)%Z.

Definition jointClusterBound (constraints : list (option ResourceConstraints)) (accType : string)
  : Z * (ResourceConstraints → bool) :=
  let cluster := clusterBounds constraints in
  let allowlists := Pools <$> cluster in
  let '(joint, bounds) := clusterBoundAll allowlists accType in
  if negb bounds || (tightest_alone cluster accType <=? joint)%Z then (0%Z, λ _, false)
  else (joint, λ c, existsb (holds_product cluster c) (familyProducts allowlists accType)).

(** ** The providers that bind *)

(** What one constraint leaves of [accType] in [namespace], when it bounds it. *)
Definition provider_bound (joint : Z) (binder : ResourceConstraints → bool) (namespace accType : string)
    (c : ResourceConstraints) : option Z :=
  match default ∅ (NamespacePools c) !! namespace with
  | Some perType =>
      let '(avail, unlimited, listed) := allowlistBound perType accType in
      if negb listed then Some 0%Z else if negb unlimited then Some avail else None
  | None =>
      if negb (isClusterBound (Some c)) then None
      else if binder c then Some joint
      else let '(avail, bounds) := clusterBound (Pools c) accType in
           if bounds && negb (avail =? MaxInt)%Z then Some avail else None
  end.

Definition consider (acc : list string * Z) (avail : Z) (provider : string) : list string * Z :=
  let '(names, tightest) := acc in
  if (avail <? tightest)%Z then ([provider], avail)
  else if (avail =? tightest)%Z && negb (bool_decide (provider ∈ names)) then (names ++ [provider], tightest)
  else acc.

Definition bindingProviders (constraints : list (option ResourceConstraints)) (namespace accType : string)
  : list string :=
  let '(joint, binder) := jointClusterBound constraints accType in
  (foldl (λ acc c,
      match c ≫= provider_bound joint binder namespace accType with
      | Some avail => consider acc avail (default "" (ProviderName <$> c))
      | None => acc
      end) ([], MaxInt) constraints).1.

Definition bindingProvider (constraints : list (option ResourceConstraints)) (namespace accType : string)
  : string :=
  default "" (head (bindingProviders constraints namespace accType)).

(** ** The decisions of one model *)
Definition limit_names (constraints : list (option ResourceConstraints)) (d : VariantDecision)
    (cause : limitCause) : string * list string :=
  match cause with
  | limitedByNodeFit => (NodeFitLimiterName, LimitedByAlso d)
  | limitedByPairWhole => (PairBorrowsWholeName, LimitedByAlso d)
  | limitedByLenderCannotReclaim => (LenderCannotReclaimName, LimitedByAlso d)
  | limitedByPool =>
      match bindingProviders constraints (dec_Namespace d) (dec_AcceleratorName d) with
      | [] => (LimitedBy d, LimitedByAlso d)
      | n :: also => (n, also)
      end
  end.

(** Whether a cause is scarcity, which a warm pool must yield to. *)
Definition is_scarcity (cause : limitCause) : bool :=
  match cause with limitedByPool | limitedByNodeFit => true | _ => false end.

Definition attribute_one (limited : gmap string limitCause) (constraints : list (option ResourceConstraints))
    (acc : list VariantDecision * gmap string (gset string)) (d : VariantDecision)
  : list VariantDecision * gmap string (gset string) :=
  match limited !! VariantName d with
  | None => (acc.1 ++ [d], acc.2)
  | Some cause =>
      let '(name, also) := limit_names constraints d cause in
      let contended :=
        if is_scarcity cause && negb (String.eqb (dec_AcceleratorName d) "")
        then <[dec_Namespace d := {[dec_AcceleratorName d]} ∪ default ∅ (acc.2 !! dec_Namespace d)]> acc.2
        else acc.2 in
      (acc.1 ++ [set_limited d true name also], contended)
  end.

(** The decisions stamped, and the accelerators that denied a variant per
    namespace: the snapshot the call publishes. *)
Definition applyGPULimitAttribution (decisions : list VariantDecision) (limited : gpuLimitTracker)
    (constraints : list (option ResourceConstraints)) : list VariantDecision * gmap string (gset string) :=
  foldl (attribute_one (default ∅ limited) constraints) ([], ∅) decisions.

(** ** Facts *)
Definition considered (constraints : list (option ResourceConstraints)) (namespace accType : string)
    (c : ResourceConstraints) : option Z :=
  provider_bound (jointClusterBound constraints accType).1 (jointClusterBound constraints accType).2
    namespace accType c.

(** The names collected so far are those at the least figure. *)
Definition least_names (seen : list (Z * string)) (acc : list string * Z) : Prop :=
  NoDup acc.1 ∧ (∀ e, e ∈ seen → (acc.2 ≤ e.1)%Z) ∧
  (∀ p, p ∈ acc.1 ↔ (acc.2, p) ∈ seen) ∧ (acc.1 = [] → acc.2 = MaxInt).

Lemma consider_least seen acc avail p :
  (avail ≤ MaxInt)%Z → least_names seen acc → least_names (seen ++ [(avail, p)]) (consider acc avail p).
Proof.
  destruct acc as [names t]. intros Hmax (Hnd & Hle & Hiff & Hnil). unfold consider. cbn [fst snd] in *.
  destruct (Z.ltb_spec avail t).
  - split_and!; cbn [fst snd].
    + apply NoDup_singleton.
    + intros e [He|He]%elem_of_app; [specialize (Hle e He); lia|]. apply list_elem_of_singleton in He as ->. simpl. lia.
    + intros q. rewrite elem_of_app, !list_elem_of_singleton. split; [intros ->; by right|].
      intros [Hin|[= ->]]; [|done]. specialize (Hle _ Hin). simpl in Hle. lia.
    + done.
  - assert (Hge : ∀ e, e ∈ seen ++ [(avail, p)] → (t ≤ e.1)%Z).
    { intros e [He|He]%elem_of_app; [by apply Hle|]. apply list_elem_of_singleton in He as ->. simpl. lia. }
    destruct (Z.eqb_spec avail t) as [->|Hne]; cbn [andb].
    + case_bool_decide as Hp; cbn [negb fst snd].
      * split_and!; try done. intros q. rewrite elem_of_app, list_elem_of_singleton, Hiff.
        split; [by left|]. intros [?|[= ->]]; [done|]. by apply Hiff.
      * split_and!; cbn [fst snd]; [|done| |by intros [_ ?]%app_nil].
        -- apply NoDup_app. split_and!; [done| |apply NoDup_singleton]. intros q Hq ->%list_elem_of_singleton. done.
        -- intros q. rewrite !elem_of_app, !list_elem_of_singleton, Hiff. naive_solver.
    + split_and!; try done. cbn [fst snd]. intros q. rewrite elem_of_app, list_elem_of_singleton, Hiff.
      split; [by left|]. intros [?|[= He _]]; [done|congruence].
Qed.

Lemma maxint_in_int r : in_int r.1.1 → in_int (maxint_if_unlimited r).1.
Proof.
  destruct r as [[a u] b]. unfold maxint_if_unlimited. simpl. intros Ha.
  destruct (b && u); simpl; [|done]. unfold in_int, MaxInt, int_min, int_max. lia.
Qed.

Lemma considered_in_int constraints namespace accType c a :
  considered constraints namespace accType c = Some a → in_int a.
Proof.
  unfold considered, provider_bound. destruct (default ∅ (NamespacePools c) !! namespace) as [perType|].
  - pose proof (AllowlistBound_in_int poolBound perType accType Available_in_int) as Ha.
    unfold allowlistBound. destruct (AllowlistBound poolBound perType accType) as [[x u] l].
    destruct l, u; simpl; intros [= <-]; done.
  - destruct (negb _); [done|]. destruct ((jointClusterBound constraints accType).2 c) eqn:Hb.
    + intros [= <-]. unfold jointClusterBound in *. unfold clusterBoundAll in *.
      pose proof (ClusterAllowlistsBound_in_int poolBound Available_in_int (Pools <$> clusterBounds constraints) accType) as Ha.
      apply maxint_in_int in Ha. destruct (maxint_if_unlimited _) as [joint bounds].
      by destruct (negb bounds || _).
    + unfold clusterBound.
      pose proof (ClusterAllowlistBound_in_int poolBound Available_in_int (Pools c) accType) as Ha.
      apply maxint_in_int in Ha. destruct (maxint_if_unlimited _) as [x bounds].
      destruct (bounds && _); [|done]. by intros [= <-].
Qed.

(** What the constraints leave, in order, with the providers' names. *)
Definition bounds_of (constraints : list (option ResourceConstraints)) (namespace accType : string)
    (cs : list (option ResourceConstraints)) : list (Z * string) :=
  omap (λ c, c ≫= λ c, (λ a, (a, ProviderName c)) <$> considered constraints namespace accType c) cs.

Lemma bindingProviders_least constraints namespace accType :
  ∃ t, least_names (bounds_of constraints namespace accType constraints)
         (bindingProviders constraints namespace accType, t).
Proof.
  unfold bindingProviders.
  assert (Hg : ∀ cs seen acc, least_names seen acc →
    least_names (seen ++ bounds_of constraints namespace accType cs)
      (foldl (λ acc c,
        match c ≫= considered constraints namespace accType with
        | Some avail => consider acc avail (default "" (ProviderName <$> c))
        | None => acc
        end) acc cs)).
  { induction cs as [|c cs IH]; intros seen acc Hacc; [by rewrite app_nil_r|]. cbn [foldl].
    destruct c as [c|]; simpl; [|by apply IH].
    destruct (considered constraints namespace accType c) as [a|] eqn:Ha; simpl; [|by apply IH].
    rewrite cons_middle, app_assoc. apply IH, consider_least; [|done].
    apply considered_in_int in Ha. unfold in_int in Ha. unfold MaxInt. lia. }
  unfold considered in Hg. destruct (jointClusterBound constraints accType) as [joint binder].
  specialize (Hg constraints [] ([], MaxInt)). cbn [fst snd app] in Hg.
  destruct (foldl _ _ _) as [names t]. exists t. apply Hg.
  split_and!; [by constructor|set_solver|set_solver|done].
Qed.

(** ** Properties *)

(** The providers credited with holding a variant back are exactly those that
    leave the least of its accelerator in its namespace, each once and with the
    cluster bounds judged together; when none is credited, none bounds it. *)
Theorem binding_providers_tightest constraints namespace accType :
  let names := bindingProviders constraints namespace accType in
  NoDup names ∧
  (∀ p, p ∈ names ↔ ∃ c a, Some c ∈ constraints ∧ ProviderName c = p ∧
     considered constraints namespace accType c = Some a ∧
     ∀ c' a', Some c' ∈ constraints → considered constraints namespace accType c' = Some a' → (a ≤ a')%Z) ∧
  (names = [] → ∀ c, Some c ∈ constraints → considered constraints namespace accType c = None).
Proof.
  cbv zeta. destruct (bindingProviders_least constraints namespace accType) as (t & Hnd & Hle & Hiff & Hnil).
  cbn [fst snd] in *.
  assert (Hel : ∀ a p, (a, p) ∈ bounds_of constraints namespace accType constraints ↔
    ∃ c, Some c ∈ constraints ∧ ProviderName c = p ∧ considered constraints namespace accType c = Some a).
  { intros a p. unfold bounds_of. rewrite list_elem_of_omap. split.
    - intros ([c|] & Hin & He); simpl in He; [|done]. apply fmap_Some in He as (a' & Ha & [= -> ->]). eauto.
    - intros (c & Hin & <- & Ha). exists (Some c). split; [done|]. simpl. by rewrite Ha. }
  split_and!; [done|..].
  - intros p. rewrite Hiff, Hel. split.
    + intros (c & Hin & Hp & Ha). exists c, t. split_and!; try done.
      intros c' a' Hin' Ha'. apply (Hle (a', ProviderName c')). apply Hel. eauto.
    + intros (c & a & Hin & <- & Ha & Hmin). exists c. split_and!; [done|done|].
      rewrite Ha. f_equal. assert (Ht : (t ≤ a)%Z) by (apply (Hle (a, ProviderName c)), Hel; eauto).
      destruct (bindingProviders constraints namespace accType) as [|q names].
      * specialize (Hnil eq_refl). apply considered_in_int in Ha. unfold in_int, MaxInt in *. lia.
      * destruct (proj1 (Hel t q)) as (c' & Hin' & _ & Ha'); [apply Hiff; left|]. specialize (Hmin c' t Hin' Ha'). lia.
  - intros He c Hin. rewrite He in Hiff. specialize (Hnil He).
    destruct (considered constraints namespace accType c) as [a|] eqn:Ha; [|done]. exfalso.
    assert (Hb : (a, ProviderName c) ∈ bounds_of constraints namespace accType constraints) by (apply Hel; eauto).
    pose proof (Hle _ Hb) as Ht. simpl in Ht. apply considered_in_int in Ha. unfold in_int, MaxInt in *.
    assert (a = t) as -> by lia. by apply Hiff, not_elem_of_nil in Hb.
Qed.
