(* ===== verification/Greedy.v ===== *)
(** * The fair-share optimizer

    The model of [greedy_score_optimizer.go] of [internal/engines/allocation]: the
    fair-share value of a model, the effective budget of its namespace, the
    allocation of one model and the loop that shares the GPUs among the models
    that need more.  Cohort borrowing is off (its state is nil), and so is rescale.

    The pass state holds what the optimizer and its shared maps hold: the cluster
    budget ([None] for Go's nil, no bound), the namespace budgets, the node view and
    the log of what was spent.  The work list is a list of pointers in Go; here the
    loop updates the element it picked by its index.  Both loops run on fuel and say
    whether they ended.

    Theorems: the effective budget is within the namespace's and the cluster's; the
    account of a pass ([pass_inv]), over all models, stays within every finite key of
    the cluster budget and of each namespace's; every replica it orders is placed and debited
    on the nodes once; and the budgets it leaves are its log replayed on the ones it
    found.  One counterexample: a namespace that lists only products is not held
    to the cluster's bound on their family. *)
From Stdlib Require Import ZArith Lia String Ascii SpecFloat Reals Lra.
From stdpp Require Import base gmap strings list sorting fin_maps.
From S2P Require Import Prelude Accelerator Budget NodeView GoFloat Domain Signals ScaleDown PairFit ScaleUp Attribution.

(** ** The work list and the pass *)
Record modelWork := MkWork {
  w_req : ModelScalingRequest; w_e : NamedAnalyzerResult; w_records : list variantRecord;
  w_roles : list string; w_remaining : float64; w_targets : gmap string Z; w_limited : gpuLimitTracker }.

Definition set_remaining (w : modelWork) (x : float64) : modelWork :=
  MkWork (w_req w) (w_e w) (w_records w) (w_roles w) x (w_targets w) (w_limited w).
Definition set_limits (w : modelWork) (t : gpuLimitTracker) : modelWork :=
  MkWork (w_req w) (w_e w) (w_records w) (w_roles w) (w_remaining w) (w_targets w) t.

Record spendOp := MkSpend { op_model : string; op_ns : string; op_key : string; op_gpus : Z }.

Record pass_state := MkPass {
  p_available : option (gmap string Z); p_byNS : gmap string (gmap string Z);
  p_nodes : option NodeView; p_spends : list spendOp }.

(** -1.0, the value of a model that is out of the loop. *)
Definition minus_one : float64 := S754_finite true 4503599627370496 (-52).

Definition fairShareValue (priority : float64) (e : NamedAnalyzerResult) (ps : RolePairedState)
    (roles : list string) : float64 :=
  let maxDemand := foldl (λ d role, let x := fget ps role in if flt d x then x else d) f0 roles in
  match Result e with
  | None => maxDemand
  | Some _ =>
      let roleSum := foldl (λ s role, fadd s (fget ps role)) f0 roles in
      let fsv := fmul (fmul priority roleSum) (Score e) in
      if flt f0 fsv then fmin fsv maxShareWeight else maxDemand
  end.

Definition buildScaleUpWork (req : ModelScalingRequest) (records : list variantRecord)
    (e : NamedAnalyzerResult) (roles : list string) (fsv : float64) : option modelWork :=
  if fle fsv f0 then None
  else Some (MkWork req e records roles fsv (initTargets (VariantStates req)) (Some ∅)).

(** ** Budgets of one model *)
Definition eff_value (available : option (gmap string Z)) (accType : string) (nsAvail : Z) : Z :=
  let '(cv, clusterCapped) := clusterBudgetFor available accType in
  if (nsAvail <? 0)%Z then (if clusterCapped then cv else MaxInt)
  else if clusterCapped && (cv <? nsAvail)%Z then cv else nsAvail.

Definition effectiveAvailable (available nsBudget : option (gmap string Z)) : option (gmap string Z) :=
  match nsBudget with
  | None => available
  | Some ns => Some (map_imap (λ accType v, Some (eff_value available accType v)) ns)
  end.

Definition anyBudgetLeft (active : list modelWork) (st : pass_state) : bool :=
  existsb (λ w, (0 <? budgetTotal (effectiveAvailable (p_available st)
                                     (p_byNS st !! req_Namespace (w_req w))))%Z) active.

(** ** One model *)

(** The demand of each role, capped at the fair share. *)
Definition cap_roles (target : float64) (roles : list string) (ps : RolePairedState) : RolePairedState :=
  foldl (λ ps role, if flt target (fget ps role) then <[role := target]> ps else ps) ps roles.

(** The reconciliation of one spent key. *)
Definition reconcile_key (model ns : string) (st : pass_state) (e : string * Z) : pass_state :=
  let '(accType, consumed) := e in
  if (consumed <=? 0)%Z then st
  else
    let key := default accType ((λ b, budgetKey b accType) <$> p_available st) in
    let st := MkPass ((λ b, debitBudget b key consumed) <$> p_available st) (p_byNS st) (p_nodes st)
                (p_spends st ++ [MkSpend model "" key consumed]) in
    match p_byNS st !! ns with
    | None => st
    | Some b => MkPass (p_available st) (<[ns := debitBudget b accType consumed]> (p_byNS st))
                  (p_nodes st) (p_spends st ++ [MkSpend model ns accType consumed])
    end.

Definition reconcile (model ns : string) (st : pass_state) (spent : gmap string Z) : pass_state :=
  foldl (reconcile_key model ns) st
    ((λ k, (k, count_of spent k)) <$> sort_strings (map_to_list spent).*1).

Section greedy.
Context `{GoSort} `{TaintMatcher} {C : IntConv}.

(** The fair share is what is left of the model's value above the mean; the flags
    are whether the value went down and whether the scale-up loop ended. *)
Definition allocateForModel (inner : nat) (w : modelWork) (mean : float64) (st : pass_state)
  : modelWork * pass_state * bool * bool :=
  let target := fsub (w_remaining w) mean in
  if fle target f0 then (w, st, false, true)
  else
    let req := w_req w in
    let stateMap := buildStateMap (VariantStates req) in
    let '(_, ps0, e) := initRoleState (w_e w) in
    let ps := cap_roles target (w_roles w) ps0 in
    let effAvail := effectiveAvailable (p_available st) (p_byNS st !! req_Namespace req) in
    let fit := MkNodeFit ((λ v, setOwner v (modelKey req)) <$> p_nodes st) (req_Namespace req) (w_limited w) in
    let '(s, ended) := allocateForModelPairedOn inner e (w_records w) stateMap effAvail (w_targets w)
                         (fairShareRolePickOn (w_records w) stateMap target) ps (w_roles w) fit in
    let nodes := match p_nodes st, nf_nodes (al_fit s) with
                 | Some v0, Some v => Some (setOwner v (owner v0))
                 | _, n => n
                 end in
    let st := reconcile (modelKey req) (req_Namespace req)
                (MkPass (p_available st) (p_byNS st) nodes (p_spends st)) (al_spent s) in
    let '(e, remaining) :=
      if bool_decide (w_roles w = [RoleBoth]) then
        let '(_, freshPs, e) := initRoleState (al_e s) in
        (e, fairShareValue (Priority req) e freshPs (w_roles w))
      else (al_e s, fairShareValue (Priority req) (al_e s) (al_ps s) (w_roles w)) in
    (MkWork req e (w_records w) (w_roles w) remaining (al_targets s) (nf_limited (al_fit s)), st,
     flt remaining (w_remaining w), ended).

(** ** The fair-share loop *)
Definition filterActive (work : list modelWork) : list (nat * modelWork) :=
  filter (λ p, flt f0 (w_remaining p.2) = true) (imap pair work).

Definition computeMean (active : list modelWork) : float64 :=
  match active with
  | [] => f0
  | _ => fdiv (foldl (λ t w, fadd t (w_remaining w)) f0 active) (of_int (Z.of_nat (length active)))
  end.

Definition sortByRemainingDesc (active : list (nat * modelWork)) : list (nat * modelWork) :=
  sort_slice (λ a b, flt (w_remaining b.2) (w_remaining a.2)) active.

(** The variants of one role the exhausted budget holds back. *)
Definition mark_exhausted (w : modelWork) (stateMap : gmap string VariantReplicaState)
    (limited : gpuLimitTracker) (vc : variantRecord) : gpuLimitTracker :=
  let v := rec_Name vc in
  if fle (rec_PerReplicaCapacity vc) f0 then limited
  else if bool_decide (is_Some (limited ≫= (.!! v))) then limited
  else match max_bound stateMap v with
       | Some m => if (m <=? target_of (w_targets w) v)%Z then limited else mark limited v
       | None => mark limited v
       end.

Definition markBudgetExhausted_one (w : modelWork) : modelWork :=
  let '(_, ps, e) := initRoleState (w_e w) in
  let stateMap := buildStateMap (VariantStates (w_req w)) in
  let limited := foldl (λ t role,
      if fle (fget ps role) f0 then t
      else foldl (mark_exhausted w stateMap) t (variantsForRole (w_records w) role))
    (w_limited w) (w_roles w) in
  MkWork (w_req w) e (w_records w) (w_roles w) (w_remaining w) (w_targets w) limited.

Definition markBudgetExhausted (active : list (nat * modelWork)) (work : list modelWork) : list modelWork :=
  foldl (λ work p, <[p.1 := markBudgetExhausted_one p.2]> work) work active.

(** The mean the picked model is brought down to. *)
Definition allocation_mean (n : nat) (remaining mean : float64) : float64 :=
  if (n =? 1)%nat then f0
  else if fle remaining mean then fsub mean (fdiv remaining (of_int (Z.of_nat n)))
  else mean.

Fixpoint fairShareScaleUp (fuel inner : nat) (work : list modelWork) (st : pass_state)
  : list modelWork * pass_state * bool :=
  match filterActive work with
  | [] => (work, st, true)
  | active =>
      if negb (anyBudgetLeft active.*2 st) then (markBudgetExhausted active work, st, true)
      else match fuel with
           | O => (work, st, false)
           | S fuel =>
               let mean := computeMean active.*2 in
               match sortByRemainingDesc active with
               | [] => (work, st, false)
               | (i, w) :: _ =>
                   let '(w', st, allocated, ended) :=
                     allocateForModel inner w (allocation_mean (length active) (w_remaining w) mean) st in
                   let w' := if negb allocated || flt mean (w_remaining w') then set_remaining w' minus_one else w' in
                   let '(work, st, rest) := fairShareScaleUp fuel inner (<[i := w']> work) st in
                   (work, st, ended && rest)
               end
           end
  end.

(** ** A pass *)
Definition declaredAccelerators (requests : list ModelScalingRequest) : list string :=
  mjoin ((λ req, md_AcceleratorName <$> req_Variants req) <$> requests).

(** The models that need more, with their work, and the others. *)
Definition split_request (acc : list modelWork * list ModelScalingRequest) (req : ModelScalingRequest)
  : list modelWork * list ModelScalingRequest :=
  match recordsForRequest req with
  | None => acc
  | Some records =>
      let '(roles, ps, e) := initRoleState (CompositeSignal req) in
      let fsv := fairShareValue (Priority req) e ps roles in
      if anyRoleNeedsScaleUp ps roles || flt f0 fsv then
        match buildScaleUpWork req records e roles fsv with
        | Some w => (acc.1 ++ [w], acc.2)
        | None => acc
        end
      else (acc.1, acc.2 ++ [req])
  end.

(** The scale-up decisions of one model and the contention snapshot it publishes. *)
Definition scale_up_decisions (constraints : list (option ResourceConstraints)) (w : modelWork)
  : list VariantDecision * gmap string (gset string) :=
  applyGPULimitAttribution
    (buildDecisionsWithOptimizer (w_req w) (buildStateMap (VariantStates (w_req w)))
       (buildCapacityMap (w_records w)) (w_targets w) "greedy-by-score")
    (w_limited w) constraints.

Definition other_decisions (req : ModelScalingRequest) : list VariantDecision :=
  match recordsForRequest req with
  | None => []
  | Some records =>
      let stateMap := buildStateMap (VariantStates req) in
      let '(_, _, e) := initRoleState (CompositeSignal req) in
      let targets := (scaleDownRoleIterated e records (initTargets (VariantStates req)) stateMap).1 in
      buildDecisionsWithOptimizer req stateMap (buildCapacityMap records) targets "greedy-by-score"
  end.

(** The smallest warm-pool figure version of the constraints. *)
Definition poolsVersionOf (constraints : list (option ResourceConstraints)) : Z :=
  default 0%Z (foldl (λ v c, match c with
                            | None => v
                            | Some c => Some (match v with
                                              | Some v => Z.min v (PoolsVersion c)
                                              | None => PoolsVersion c
                                              end)
                            end) None constraints).

(** What a pass left, for the warm pool's headroom and the utilization share. *)
Record passHeadroom := MkHeadroom {
  h_available : option (gmap string Z); h_byNamespace : gmap string (gmap string Z);
  h_nodes : option NodeView; h_version : Z;
  h_start : option (gmap string Z); h_startByNS : gmap string (gmap string Z);
  h_spends : list spendOp; h_clusterKeys : list string }.

(** What a pass from [start] to [st] leaves. *)
Definition pass_of (start st : pass_state) (version : Z) (clusterKeys : list string) : passHeadroom :=
  MkHeadroom (p_available st) (p_byNS st) (p_nodes st) version (p_available start) (p_byNS start)
    (p_spends st) clusterKeys.

Record greedy_result := MkGreedy {
  g_decisions : list VariantDecision; g_pass : option passHeadroom;
  g_contention : list (gmap string (gset string)); g_ended : bool }.

(** The budgets a pass starts from. *)
Definition pass_start (constraints : list (option ResourceConstraints)) (declared : list string)
    (nodes : option NodeView) : pass_state :=
  MkPass (match constraints with [] => Some ∅ | _ => mergeWithAllowanceKeys constraints declared end)
    (default ∅ (mergeNamespaceConstraints constraints (declared ++ clusterProducts constraints))) nodes [].

(** [g_contention] is the snapshots published, in order: the store keeps the last. *)
Definition Greedy_Optimize (fuel inner : nat) (nodes : option NodeView)
    (requests : list ModelScalingRequest) (constraints : list (option ResourceConstraints)) : greedy_result :=
  let declared := declaredAccelerators requests in
  let start := pass_start constraints declared nodes in
  let '(scaleUpWork, otherRequests) := foldl split_request ([], []) requests in
  let '(work, st, ended) := fairShareScaleUp fuel inner scaleUpWork start in
  let ups := scale_up_decisions constraints <$> work in
  let pass := match constraints with
              | [] => None
              | _ => Some (pass_of start st (poolsVersionOf constraints)
                             (default [] ((λ m : gmap string Z, (map_to_list m).*1) <$>
                                            mergeConstraints constraints declared)))
              end in
  MkGreedy (mjoin ups.*1 ++ mjoin (other_decisions <$> otherRequests)) pass ups.*2 ended.
End greedy.

(** ** Replaying a pass *)
Definition replay_op (acc : option (gmap string Z) * gmap string (gmap string Z)) (s : spendOp)
  : option (gmap string Z) * gmap string (gmap string Z) :=
  if String.eqb (op_ns s) "" then ((λ b, debitBudget b (op_key s) (op_gpus s)) <$> acc.1, acc.2)
  else (acc.1, alter (λ b, debitBudget b (op_key s) (op_gpus s)) (op_ns s) acc.2).

Definition replay (spends : list spendOp) (available : option (gmap string Z))
    (byNS : gmap string (gmap string Z)) (exclude : string → bool)
  : option (gmap string Z) * gmap string (gmap string Z) :=
  foldl replay_op (available, byNS) (filter (λ s, exclude (op_model s) = false) spends).

(** [exclude] as a predicate, and whether the map it stands for is empty. *)
Definition passHeadroom_without (h : passHeadroom) (exclude : gset string) : passHeadroom :=
  if bool_decide (exclude = ∅) then h
  else
    let ex o := bool_decide (o ∈ exclude) in
    let '(available, byNS) := replay (h_spends h) (h_start h) (h_startByNS h) ex in
    MkHeadroom available byNS (without (h_nodes h) ex) (h_version h) (h_start h) (h_startByNS h)
      (h_spends h) (h_clusterKeys h).

(** ** The effective budget *)

(** A namespace's budget, under the cluster's. *)
Record ns_budget_ok (n : gmap string Z) : Prop := {
  ns_clamped : clamped n;
  ns_spelling : one_spelling_map n;
  ns_ints : in_ints n;
  ns_small : small_budgets n }.

Lemma ns_debit_ok n key c : ns_budget_ok n → (0 ≤ c)%Z → in_int c → ns_budget_ok (debitBudget n key c).
Proof.
  intros [H1 H2 H3 H4] Hc Hi.
  split; [by apply debitBudget_clamped|by apply one_spelling_debit|by apply debitBudget_in_ints|by apply debit_small].
Qed.

Definition keys_within (n b : gmap string Z) : Prop := ∀ k, is_Some (n !! k) → is_Some (b !! k).

Definition under_cluster (a : option (gmap string Z)) (n : gmap string Z) : Prop :=
  match a with Some b => keys_within n b | None => True end.

Section effective.
Context (a : option (gmap string Z)) (n : gmap string Z).
Hypothesis Ha : avail_ok a.
Hypothesis Hn : ns_budget_ok n.
Hypothesis Hin : under_cluster a n.

Lemma eff_lookup e k :
  effectiveAvailable a (Some n) = Some e → e !! k = eff_value a k <$> n !! k.
Proof. intros [= <-]. rewrite map_lookup_imap. by destruct (n !! k). Qed.

(** The value under a key, when the cluster bounds it and when it does not. *)
Lemma eff_value_spec k v :
  n !! k = Some v →
  match a with
  | None => eff_value a k v = if (v <? 0)%Z then MaxInt else v
  | Some b => ∃ cv, b !! k = Some cv ∧ eff_value a k v = if (v <? 0)%Z then cv else Z.min v cv
  end.
Proof using Hin.
  clear Ha. intros Hk. unfold eff_value, clusterBudgetFor. destruct a as [b|]; [|by destruct (v <? 0)%Z].
  destruct (Hin k) as [cv Hcv]; [eauto|]. exists cv. split; [done|].
  rewrite FindBudgetKey_exact by eauto. rewrite Hcv. simpl.
  destruct (v <? 0)%Z; [done|]. destruct (Z.ltb_spec cv v); lia.
Qed.

Lemma eff_le k v w :
  n !! k = Some v → eff_value a k v = w →
  (0 ≤ w)%Z ∧ in_int w ∧ (w = MaxInt ∨ w ≤ 4294967296)%Z ∧
  (isUnboundedBudget v = false → (w ≤ v)%Z) ∧
  (∀ b cv, a = Some b → b !! k = Some cv → (w ≤ cv)%Z).
Proof using All.
  intros Hk <-. pose proof (eff_value_spec k v Hk) as He. pose proof (ns_ints _ Hn k v Hk) as Hi.
  pose proof (ns_small _ Hn k v Hk) as Hsm. unfold avail_ok in Ha. destruct a as [b|].
  - destruct He as (cv & Hcv & ->). destruct Ha as [Hb Hbs].
    pose proof (ok_nonneg _ Hb _ _ Hcv). pose proof (ok_ints _ Hb _ _ Hcv) as Hci. pose proof (Hbs _ _ Hcv).
    unfold in_int in *. split_and!; try (destruct (Z.ltb_spec v 0); lia).
    + intros Hu%isUnbounded_false. destruct (Z.ltb_spec v 0); lia.
    + intros b' cv' [= <-] Hcv'. simplify_eq. destruct (Z.ltb_spec v 0); lia.
  - rewrite He. unfold in_int, MaxInt, int_min, int_max in *.
    split_and!; try (destruct (Z.ltb_spec v 0); lia); [|done].
    intros Hu%isUnbounded_false. destruct (Z.ltb_spec v 0); lia.
Qed.

Lemma eff_clamped e : effectiveAvailable a (Some n) = Some e → clamped e.
Proof using All.
  intros He p f pv fv Hp Hf Hpf Hfu. rewrite (eff_lookup e p He) in Hp. rewrite (eff_lookup e f He) in Hf.
  apply fmap_Some in Hp as (vp & Hvp & ->), Hf as (vf & Hvf & ->).
  pose proof (eff_value_spec p vp Hvp) as Ep. pose proof (eff_value_spec f vf Hvf) as Ef.
  destruct (eff_le p vp _ Hvp eq_refl) as (Hp0 & Hpi & _). apply isUnbounded_false in Hfu as Hfu'.
  assert (Hn' : isUnboundedBudget vf = false → isUnboundedBudget vp = false ∧ (vp ≤ vf)%Z).
  { intros Hu. destruct (ns_clamped _ Hn p f vp vf Hvp Hvf Hpf Hu) as [?|(? & _ & ?)]; [congruence|done]. }
  assert (Hle : (eff_value a p vp ≤ eff_value a f vf)%Z).
  { unfold avail_ok in Ha. destruct a as [b|].
    - destruct Ep as (cp & Hcp & ->), Ef as (cf & Hcf & Ef). rewrite Ef in Hfu' |- *. destruct Ha as [Hb _].
      pose proof (ok_nonneg _ Hb _ _ Hcf). pose proof (ok_ints _ Hb _ _ Hcp) as Hcpi.
      assert (Hc : cf ≠ MaxInt → (cp ≤ cf)%Z).
      { intros Hne. assert (Hu : isUnboundedBudget cf = false) by (apply isUnbounded_false; lia).
        destruct (ok_clamped _ Hb p f cp cf Hcp Hcf Hpf Hu) as [?|(_ & _ & ?)]; [congruence|done]. }
      unfold in_int, MaxInt in *. rewrite !isUnbounded_false in Hn'. unfold MaxInt in Hn'.
      pose proof (ns_ints _ Hn _ _ Hvf). unfold in_int in *.
      revert Hfu'. destruct (Z.ltb_spec vf 0), (Z.ltb_spec vp 0); lia.
    - rewrite Ep. rewrite Ef in Hfu' |- *. rewrite !isUnbounded_false in Hn'.
      revert Hfu'. destruct (Z.ltb_spec vf 0), (Z.ltb_spec vp 0); lia. }
  right. split_and!; [|done|done]. apply isUnbounded_false.
  destruct (eff_le f vf _ Hvf eq_refl) as (_ & Hfi & _). unfold in_int, MaxInt in *. lia.
Qed.

Lemma effectiveAvailable_ok :
  ∃ e, effectiveAvailable a (Some n) = Some e ∧ budget_ok e ∧ small_budgets e ∧
    (∀ k, is_Some (e !! k) ↔ is_Some (n !! k)).
Proof using All.
  eexists. split; [reflexivity|].
  pose proof (λ e k (H : effectiveAvailable a (Some n) = Some e), eff_lookup e k H) as Hl.
  set (e := map_imap _ _) in *. specialize (Hl e).
  assert (Hk : ∀ k, is_Some (e !! k) ↔ is_Some (n !! k)) by (intros k; rewrite Hl by done; apply fmap_is_Some).
  split_and!; [split|..]; try done.
  - by apply eff_clamped.
  - intros k k' H1%Hk H2%Hk. by apply Hn.
  - intros k v. rewrite Hl by done. intros (x & Hx & ->)%fmap_Some. by destruct (eff_le k x _ Hx eq_refl) as (_ & ? & _).
  - intros k v. rewrite Hl by done. intros (x & Hx & ->)%fmap_Some. by destruct (eff_le k x _ Hx eq_refl) as (? & _).
  - intros k v. rewrite Hl by done. intros (x & Hx & ->)%fmap_Some. by destruct (eff_le k x _ Hx eq_refl) as (_ & _ & ? & _).
Qed.
End effective.

(** ** Reconciling what a model spent *)
Definition debit_all (b : gmap string Z) (l : list (string * Z)) : gmap string Z :=
  foldl (λ b e, debitBudget b e.1 e.2) b l.

Lemma debit_all_keys b l k : is_Some (debit_all b l !! k) ↔ is_Some (b !! k).
Proof.
  revert b. induction l as [|e l IH]; intros b; [done|]. cbn [debit_all foldl].
  etrans; [apply IH|apply debitBudget_is_Some].
Qed.

Lemma debit_all_ok b l : nonneg_spends l → budget_ok b → budget_ok (debit_all b l).
Proof.
  revert b. induction l as [|e l IH]; intros b Hl Hb; [done|]. apply Forall_cons in Hl as [[H0 Hi] Hl].
  apply IH; [done|]. by apply debit_ok.
Qed.

Lemma debit_all_small b l : nonneg_spends l → in_ints b → small_budgets b → small_budgets (debit_all b l).
Proof.
  revert b. induction l as [|e l IH]; intros b Hl Hb Hs; [done|]. apply Forall_cons in Hl as [[H0 Hi] Hl].
  apply IH; [done|by apply debitBudget_in_ints|by apply debit_small].
Qed.

Lemma debit_all_ns b l : nonneg_spends l → ns_budget_ok b → ns_budget_ok (debit_all b l).
Proof.
  revert b. induction l as [|e l IH]; intros b Hl Hb; [done|]. apply Forall_cons in Hl as [[H0 Hi] Hl].
  apply IH; [done|]. by apply ns_debit_ok.
Qed.

(** A finite key loses what is drawn under it, when it holds it. *)
Lemma debit_all_le b l f v :
  in_ints b → nonneg_spends l → b !! f = Some v → isUnboundedBudget v = false →
  ∃ v', debit_all b l !! f = Some v' ∧ isUnboundedBudget v' = false ∧
        (v' ≤ Z.max 0 (v - covered_spend f l))%Z.
Proof.
  revert b v. induction l as [|[key n] l IH]; intros b v Hi Hl Hf Hu.
  { exists v. split_and!; [done|done|]. unfold covered_spend, sumZ. simpl. lia. }
  apply Forall_cons in Hl as [[H0 Hn] Hl]. cbn [fst snd] in *.
  destruct (proj2 (debitBudget_is_Some b key n f)) as [v1 Hv1]; [eauto|].
  destruct (debitBudget_le b key n f v v1 Hi H0 Hn Hf Hv1) as [Hm Hc].
  assert (Hu1 : isUnboundedBudget v1 = false) by (destruct Hm as [?|(? & _)]; congruence).
  destruct (IH (debitBudget b key n) v1) as (v' & Hv' & Hu' & Hle); try done; [by apply debitBudget_in_ints|].
  exists v'. split_and!; [done|done|]. rewrite covered_spend_cons.
  pose proof (covered_spend_nonneg f l Hl).
  destruct (Covers f key) eqn:Hcov.
  - destruct (Hc Hu eq_refl). lia.
  - destruct Hm as [?|(_ & _ & ?)]; [congruence|lia].
Qed.

(** The spent keys in the order they are reconciled. *)
Definition spent_list (spent : gmap string Z) : list (string * Z) :=
  (λ k, (k, count_of spent k)) <$> sort_strings (map_to_list spent).*1.

Lemma spent_list_elem spent e : e ∈ spent_list spent ↔ spent !! e.1 = Some e.2.
Proof.
  unfold spent_list. rewrite list_elem_of_fmap. setoid_rewrite sort_strings_perm. setoid_rewrite elem_of_keys. split.
  - intros (k & -> & [x Hx]). simpl. unfold count_of. by rewrite Hx.
  - destruct e as [k x]. simpl. intros Hx. exists k. unfold count_of. rewrite Hx. eauto.
Qed.

Lemma reconcile_nodes model ns st l :
  p_nodes (foldl (reconcile_key model ns) st l) = p_nodes st.
Proof.
  revert st. induction l as [|[k c] l IH]; intros st; [done|]. cbn [foldl]. rewrite IH.
  unfold reconcile_key. destruct (c <=? 0)%Z; [done|]. cbn [p_byNS]. by destruct (p_byNS st !! ns).
Qed.

Lemma debit_nonpos b k c : (c ≤ 0)%Z → debitBudget b k c = b.
Proof. intros Hc. unfold debitBudget. by rewrite (proj2 (Z.leb_le _ _) Hc). Qed.

Lemma reconcile_available model ns st l :
  p_available (foldl (reconcile_key model ns) st l) =
  (λ b, debit_all b ((λ e, (budgetKey b e.1, e.2)) <$> l)) <$> p_available st.
Proof.
  revert st. induction l as [|[k c] l IH]; intros st; [simpl; by destruct (p_available st)|]. cbn [foldl]. rewrite IH.
  assert (Hs : p_available (reconcile_key model ns st (k, c)) = (λ b, debitBudget b (budgetKey b k) c) <$> p_available st).
  { unfold reconcile_key. destruct (Z.leb_spec c 0); [destruct (p_available st); simpl; by rewrite ?debit_nonpos by done|].
    cbn [p_byNS]. destruct (p_byNS st !! ns), (p_available st); done. }
  rewrite Hs. destruct (p_available st) as [b|]; [|done]. cbn. do 2 f_equal.
  apply list_fmap_ext. intros i e _. by rewrite (budgetKey_same b) by (intros; apply debitBudget_is_Some).
Qed.

Lemma reconcile_byNS model ns st l ns' :
  p_byNS (foldl (reconcile_key model ns) st l) !! ns' =
  (if decide (ns' = ns) then (λ b, debit_all b l) <$> p_byNS st !! ns else p_byNS st !! ns').
Proof.
  revert st. induction l as [|[k c] l IH]; intros st; cbn [foldl].
  { case_decide; [subst|done]. by destruct (p_byNS st !! ns). }
  rewrite IH. assert (Hs : ∀ x, p_byNS (reconcile_key model ns st (k, c)) !! x =
    (if decide (x = ns) then (λ b, debitBudget b k c) <$> p_byNS st !! ns else p_byNS st !! x)).
  { intros x. unfold reconcile_key. destruct (Z.leb_spec c 0).
    { destruct (decide (x = ns)) as [->|]; [|done]. destruct (p_byNS st !! ns); simpl; by rewrite ?debit_nonpos by done. }
    cbn [p_byNS]. destruct (p_byNS st !! ns) as [b|] eqn:Hb; cbn [p_byNS].
    - rewrite lookup_insert. destruct (decide (x = ns)) as [->|Hx]; [by rewrite decide_True|by rewrite decide_False].
    - destruct (decide (x = ns)) as [->|]; [by rewrite Hb|done]. }
  rewrite !Hs, (decide_True (P := ns = ns)) by done.
  destruct (decide (ns' = ns)); [|done]. by destruct (p_byNS st !! ns).
Qed.

(** *** What is drawn, key by key *)
Lemma sum_at_key (ks : list string) (P : string → bool) x c :
  NoDup ks →
  sumZ (λ k, if P k then (if String.eqb k x then c else 0) else 0)%Z ks =
  (if P x && bool_decide (x ∈ ks) then c else 0)%Z.
Proof.
  intros Hnd. induction ks as [|k ks IH]; [unfold sumZ; simpl; by rewrite andb_false_r|].
  apply NoDup_cons in Hnd as [Hk Hnd]. rewrite sumZ_cons, IH by done.
  destruct (String.eqb_spec k x) as [->|Hne].
  - rewrite (bool_decide_false (x ∈ ks)) by done. rewrite (bool_decide_true (x ∈ x :: ks)) by (by left).
    destruct (P x); simpl; lia.
  - rewrite (bool_decide_ext (x ∈ k :: ks) (x ∈ ks)); [destruct (P k); lia|].
    rewrite elem_of_cons. split; [intros [?|?]; congruence|by right].
Qed.

Lemma sum_by_key {A} (ks : list string) (P : string → bool) (key : A → string) (g : A → Z) l :
  NoDup ks →
  sumZ (λ k, if P k then sumZ (λ a, if String.eqb k (key a) then g a else 0) l else 0)%Z ks =
  sumZ (λ a, if P (key a) && bool_decide (key a ∈ ks) then g a else 0)%Z l.
Proof.
  intros Hnd. induction l as [|a l IH].
  - unfold sumZ at 2 3. simpl. rewrite (sumZ_ext _ (λ _, 0%Z)), sumZ_zero; [done|]. intros k _. by destruct (P k).
  - rewrite sumZ_cons, <- IH, <- (sum_at_key ks P (key a) (g a) Hnd), <- sumZ_plus.
    apply sumZ_ext. intros k _. rewrite sumZ_cons. destruct (P k); lia.
Qed.

(** Only what was spent is debited. *)
Definition positive (l : list (string * Z)) : list (string * Z) := filter (λ e, (0 < e.2)%Z) l.

Lemma debit_all_positive b l : debit_all b (positive l) = debit_all b l.
Proof.
  revert b. induction l as [|[k c] l IH]; intros b; [done|]. unfold positive. rewrite filter_cons.
  case_decide as Hc; [apply (IH (debitBudget b k c))|]. cbn [snd] in Hc.
  change (debit_all b (positive l) = debit_all (debitBudget b k c) l). rewrite (debit_nonpos b k c) by lia. apply IH.
Qed.

Lemma covered_positive f l :
  (∀ e, e ∈ l → Covers f e.1 = true → (0 ≤ e.2)%Z) → covered_spend f (positive l) = covered_spend f l.
Proof.
  intros Hl. unfold covered_spend, positive. induction l as [|e l IH]; [done|]. rewrite filter_cons, sumZ_cons.
  rewrite <- IH by (intros; apply Hl; set_solver). specialize (Hl e ltac:(set_solver)).
  case_decide; [by rewrite sumZ_cons|]. destruct (Covers f e.1); [specialize (Hl eq_refl)|]; lia.
Qed.

Section spent.
Context (variants : list variantRecord) (stateMap : gmap string VariantReplicaState).
Context (P : option (gmap string Z) → Prop) (roles : list string).
Context (b0 : gmap string Z) (t0 : gmap string Z) (B : Z) (s : alloc_state).
Hypothesis Ho : ordered variants stateMap P roles (Some b0) t0 B s.
Hypothesis Hb0 : budget_ok b0.
#[local] Notation gpus := (gpusPerReplicaFromState stateMap).
#[local] Notation key v := (budgetKey b0 (accFromVCs variants v)).
#[local] Notation growth v := (target_of (al_targets s) v - target_of t0 v)%Z.

Lemma spent_account :
  ∃ b, avail_progress variants stateMap b0 t0 (al_targets s) b (al_spent s).
Proof using Ho.
  pose proof (or_avail _ _ _ _ _ _ _ _ Ho) as Ha. destruct (al_available s) as [b|]; [by exists b|done].
Qed.

(** A key under a finite one is finite. *)
Lemma covered_finite f F k v :
  b0 !! f = Some F → F ≠ MaxInt → Covers f k = true → b0 !! k = Some v → v ≠ MaxInt.
Proof using Hb0.
  intros Hf HF Hc Hk ->. pose proof (ok_nonneg _ Hb0 _ _ Hf).
  assert (Hu : isUnboundedBudget F = false) by (apply isUnbounded_false; lia).
  unfold Covers in Hc. apply orb_true_iff in Hc as [He|Hp].
  - assert (f = k) as -> by (apply (ok_spelling _ Hb0); eauto). congruence.
  - destruct (ok_clamped _ Hb0 k f MaxInt F Hk Hf Hp Hu) as [?|(Hx & _)]; [congruence|done].
Qed.

(** What a variant whose key was not spent from has grown: nothing. *)
Lemma unspent_growth f F vc :
  b0 !! f = Some F → F ≠ MaxInt → vc ∈ variants → Covers f (key (rec_Name vc)) = true →
  al_spent s !! key (rec_Name vc) = None → growth (rec_Name vc) = 0%Z.
Proof using Ho Hb0.
  intros Hf HF Hin Hc Hs. destruct (b0 !! key (rec_Name vc)) as [v|] eqn:Hk.
  2: { rewrite (or_listed _ _ _ _ _ _ _ _ Ho b0 (rec_Name vc) eq_refl Hk). lia. }
  destruct spent_account as (b & _ & _ & _ & _ & Hsp & _).
  specialize (Hsp _ v Hk (covered_finite f F _ v Hf HF Hc Hk)). unfold count_of in Hsp. rewrite Hs in Hsp. simpl in Hsp.
  pose proof (or_grows _ _ _ _ _ _ _ _ Ho) as Hg. unfold drawn, grown in Hsp.
  pose proof (sumZ_elem_le (λ vc0, growth (rec_Name vc0) * draw_weight variants stateMap b0 (String.eqb (key (rec_Name vc))) (rec_Name vc0))%Z
    variants vc) as Hle. cbv beta in Hle.
  assert (Hd : ∀ q, (0 ≤ growth q * draw_weight variants stateMap b0 (String.eqb (key (rec_Name vc))) q)%Z).
  { intros q. specialize (Hg q). unfold draw_weight. pose proof (gpusPerReplica_pos stateMap q). case_match; nia. }
  specialize (Hle (λ q _, Hd (rec_Name q)) Hin). rewrite <- Hsp in Hle. unfold draw_weight in Hle.
  rewrite String.eqb_refl in Hle. specialize (Hg (rec_Name vc)).
  pose proof (gpusPerReplica_pos stateMap (rec_Name vc)). nia.
Qed.

(** The spends under a finite key are what was ordered from it. *)
Lemma spent_covered f F :
  b0 !! f = Some F → F ≠ MaxInt →
  covered_spend f (positive (spent_list (al_spent s))) =
    drawn variants stateMap b0 t0 (Covers f) (al_targets s) ∧
  (drawn variants stateMap b0 t0 (Covers f) (al_targets s) ≤ F)%Z.
Proof using Ho Hb0.
  intros Hf HF. destruct spent_account as (b & Hok & _ & _ & Hav & Hsp & Hsd).
  pose proof (or_grows _ _ _ _ _ _ _ _ Ho) as Hg. split.
  2: { destruct (Hav f F Hf HF) as (v & Hv & _ & Hle). pose proof (ok_nonneg _ Hok _ _ Hv). lia. }
  assert (Hkey : ∀ k, is_Some (al_spent s !! k) → Covers f k = true →
    count_of (al_spent s) k = drawn variants stateMap b0 t0 (String.eqb k) (al_targets s)).
  { intros k [x Hx] Hc. destruct (Hsd k x Hx) as [[v Hv] _]. apply (Hsp k v Hv). by apply (covered_finite f F k v). }
  rewrite covered_positive.
  2: { intros e He Hc. apply spent_list_elem in He.
       assert (e.2 = count_of (al_spent s) e.1) as -> by (unfold count_of; by rewrite He).
       rewrite Hkey by eauto. by apply drawn_eqb_le. }
  unfold covered_spend, spent_list. rewrite sumZ_fmap. cbn [fst snd].
  rewrite (sumZ_ext _ (λ k, if Covers f k then
    sumZ (λ vc, if String.eqb k (key (rec_Name vc)) then growth (rec_Name vc) * gpus (rec_Name vc) else 0) variants else 0)%Z).
  - rewrite (sum_by_key _ (Covers f) (λ vc, key (rec_Name vc)) (λ vc, growth (rec_Name vc) * gpus (rec_Name vc))%Z)
      by (rewrite sort_strings_perm; apply NoDup_fst_map_to_list).
    unfold drawn, grown, draw_weight. apply sumZ_ext. intros vc Hin.
    destruct (Covers f (key (rec_Name vc))) eqn:Hc; simpl; [|lia].
    case_bool_decide as Hk; [done|].
    rewrite (unspent_growth f F vc Hf HF Hin Hc); [lia|].
    apply eq_None_not_Some. intros Hs. apply Hk. by rewrite sort_strings_perm, elem_of_keys.
  - intros k Hk. rewrite sort_strings_perm, elem_of_keys in Hk. destruct (Covers f k) eqn:Hc; [|done].
    rewrite Hkey by done. unfold drawn, grown, draw_weight. apply sumZ_ext. intros vc _.
    destruct (String.eqb k (key (rec_Name vc))); lia.
Qed.

Lemma spent_nonneg : nonneg_spends (positive (spent_list (al_spent s))).
Proof using Ho.
  destruct spent_account as (b & _ & _ & _ & _ & _ & Hsd). apply Forall_forall. intros e [Hp He]%list_elem_of_filter.
  apply spent_list_elem in He. split; [lia|]. by apply (Hsd e.1).
Qed.

Lemma spent_listed e : e ∈ positive (spent_list (al_spent s)) → is_Some (b0 !! e.1).
Proof using Ho.
  intros [_ He]%list_elem_of_filter. destruct spent_account as (b & _ & _ & _ & _ & _ & Hsd).
  apply spent_list_elem in He. by apply (Hsd e.1 e.2).
Qed.
End spent.

(** ** A pass within its budgets *)
Lemma grown_trans variants t0 w t t' :
  grown variants t0 w t' = (grown variants t0 w t + grown variants t w t')%Z.
Proof. unfold grown. rewrite <- sumZ_plus. apply sumZ_ext. intros vc _. lia. Qed.

Lemma sumZ_update {A} (g : A → Z) l i x y :
  l !! i = Some x → sumZ g (<[i := y]> l) = (sumZ g l - g x + g y)%Z.
Proof.
  intros Hi. rewrite <- (take_drop_middle l i x Hi) at 2. rewrite insert_take_drop by (by eapply lookup_lt_Some).
  rewrite !sumZ_app, !sumZ_cons. lia.
Qed.

Section pass.
Context `{GoSort} `{TaintMatcher} {C : IntConv}.
Context (a0 : option (gmap string Z)) (n0s : gmap string (gmap string Z)) (view0 : option NodeView).
Hypothesis Hunder : ∀ ns n, n0s !! ns = Some n → under_cluster a0 n.

#[local] Notation sm w := (buildStateMap (VariantStates (w_req w))).
#[local] Notation ns_of w := (req_Namespace (w_req w)).

Definition w_start (w : modelWork) : gmap string Z := initTargets (VariantStates (w_req w)).

(** The budget key a variant of the model is spent from: its namespace's when it
    has an allowance, else the cluster's. *)
Definition w_key (w : modelWork) (v : string) : string :=
  let acc := accFromVCs (w_records w) v in
  match n0s !! ns_of w with
  | Some n => budgetKey n acc
  | None => match a0 with Some b => budgetKey b acc | None => acc end
  end.

(** The GPUs the model has ordered under [f]. *)
Definition w_weight (f : string) (w : modelWork) (v : string) : Z :=
  if Covers f (w_key w v) then gpusPerReplicaFromState (sm w) v else 0%Z.
Definition w_drawn (f : string) (w : modelWork) : Z :=
  grown (w_records w) (w_start w) (w_weight f w) (w_targets w).

(** The GPUs of the pods it has ordered. *)
Definition w_pods (v : NodeView) (w : modelWork) : Z :=
  grown (w_records w) (w_start w)
    (λ x, pods_total (nf_replica v (ns_of w) (w_records w) (sm w) x)) (w_targets w).

(** A cluster key every allowance under it lists too. *)
Definition listed_by_all (f : string) : Prop :=
  ∀ ns n k, n0s !! ns = Some n → is_Some (n !! k) → Covers f k = true → is_Some (n !! f).

Record work_ok (B : Z) (w : modelWork) : Prop := {
  wo_records : recordsForRequest (w_req w) = Some (w_records w);
  wo_other : ∀ v, v ∉ rec_Name <$> w_records w → target_of (w_targets w) v = target_of (w_start w) v;
  wo_model : sane_model (w_records w) (sm w) (w_roles w);
  wo_signal : signal_ok (w_e w);
  wo_range : ∀ v, (0 ≤ target_of (w_targets w) v ≤ B)%Z;
  wo_grows : ∀ v, (target_of (w_start w) v ≤ target_of (w_targets w) v)%Z;
  wo_max : ∀ v m, max_bound (sm w) v = Some m →
    (target_of (w_targets w) v ≤ Z.max (target_of (w_start w) v) m)%Z }.

(** What is left of the finite keys, with everything ordered, is within the start. *)
Definition left_within (start now : gmap string Z) (allowed : string → Prop) (total : string → Z) : Prop :=
  (∀ k, is_Some (now !! k) ↔ is_Some (start !! k)) ∧
  ∀ f F, start !! f = Some F → isUnboundedBudget F = false → allowed f →
    ∃ v, now !! f = Some v ∧ isUnboundedBudget v = false ∧ (v + total f ≤ F)%Z.

Record pass_inv (B : Z) (work : list modelWork) (st : pass_state) : Prop := {
  pi_cluster : match a0, p_available st with
    | None, None => True
    | Some b0, Some b => budget_ok b ∧ small_budgets b ∧
        left_within b0 b listed_by_all (λ f, sumZ (w_drawn f) work)
    | _, _ => False
    end;
  pi_ns : ∀ ns, match n0s !! ns, p_byNS st !! ns with
    | None, None => True
    | Some n0, Some n => ns_budget_ok n ∧
        left_within n0 n (λ _, True) (λ f, sumZ (λ w, if String.eqb (ns_of w) ns then w_drawn f w else 0%Z) work)
    | _, _ => False
    end;
  pi_nodes : match view0, p_nodes st with
    | None, None => True
    | Some v0, Some v => wf v ∧ grows v0 v ∧ owner v = owner v0 ∧
        total_debit v = (total_debit v0 + sumZ (w_pods v0) work)%Z
    | _, _ => False
    end;
  pi_work : Forall (work_ok B) work }.

Lemma left_step start now now' allowed total total' :
  left_within start now allowed total →
  (∀ k, is_Some (now' !! k) ↔ is_Some (now !! k)) →
  (∀ f v, now !! f = Some v → isUnboundedBudget v = false → allowed f →
     ∃ v', now' !! f = Some v' ∧ isUnboundedBudget v' = false ∧ (v' + (total' f - total f) ≤ v)%Z) →
  left_within start now' allowed total'.
Proof.
  intros [Hk Hl] Hk' Hs. split; [intros k; by rewrite Hk'|]. intros f F Hf HF Ha.
  destruct (Hl f F Hf HF Ha) as (v & Hv & Hu & Hle). destruct (Hs f v Hv Hu Ha) as (v' & Hv' & Hu' & Hle').
  exists v'. split_and!; [done|done|lia].
Qed.

Lemma debit_left b l f v inc :
  in_ints b → nonneg_spends l → b !! f = Some v → isUnboundedBudget v = false →
  covered_spend f l = inc → (inc ≤ v)%Z →
  ∃ v', debit_all b l !! f = Some v' ∧ isUnboundedBudget v' = false ∧ (v' + inc ≤ v)%Z.
Proof.
  intros Hi Hl Hf Hu <- Hle. destruct (debit_all_le b l f v Hi Hl Hf Hu) as (v' & Hv' & Hu' & Hm).
  exists v'. split_and!; [done|done|lia].
Qed.

(** *** One model's call *)
Section call.
Context (w : modelWork) (st : pass_state) (B B' : Z) (s : alloc_state) (t : gmap string Z).
Context (e : gmap string Z).
#[local] Notation records := (w_records w).
Hypothesis Ho : ordered records (sm w) (λ _, True) (w_roles w) (Some e) t B' s.
Hypothesis He : budget_ok e.
Hypothesis Hkeys : ∀ v, budgetKey e (accFromVCs records v) = w_key w v.

(** What the call ordered under [f], and what it spent. *)
Definition call_drawn (f : string) : Z := grown records t (w_weight f w) (al_targets s).
Definition call_spends : list (string * Z) := positive (spent_list (al_spent s)).

Lemma call_drawn_eq f : call_drawn f = drawn records (sm w) e t (Covers f) (al_targets s).
Proof using Hkeys.
  unfold call_drawn, drawn, grown, draw_weight, w_weight. apply sumZ_ext. intros vc _. by rewrite Hkeys.
Qed.

(** A finite key of what the call could spend. *)
Lemma call_within f F : e !! f = Some F → F ≠ MaxInt → covered_spend f call_spends = call_drawn f ∧ (call_drawn f ≤ F)%Z.
Proof using Ho He Hkeys.
  intros Hf HF. rewrite call_drawn_eq.
  by apply (spent_covered records (sm w) (λ _, True) (w_roles w) e t B' s Ho He).
Qed.

(** A key none of the spent ones is under. *)
Lemma call_nothing f :
  (∀ k, is_Some (e !! k) → Covers f k = false) → covered_spend f call_spends = 0%Z ∧ call_drawn f = 0%Z.
Proof using Ho He Hkeys.
  intros Hn. split.
  - unfold covered_spend. rewrite (sumZ_ext _ (λ _, 0%Z)), sumZ_zero; [done|]. intros x Hx.
    rewrite Hn; [done|]. by eapply (spent_listed records (sm w)).
  - unfold call_drawn, grown. rewrite (sumZ_ext _ (λ _, 0%Z)), sumZ_zero; [done|]. intros vc Hin. unfold w_weight.
    destruct (e !! w_key w (rec_Name vc)) as [x|] eqn:Hx; [rewrite Hn by eauto; lia|].
    rewrite <- Hkeys in Hx. rewrite (or_listed _ _ _ _ _ _ _ _ Ho e (rec_Name vc) eq_refl Hx). lia.
Qed.

(** A debit of what was spent from a budget that lists what the call could spend. *)
Lemma call_debit b f v :
  in_ints b → b !! f = Some v → isUnboundedBudget v = false →
  (∀ F, e !! f = Some F → (F ≤ v)%Z) → (e !! f = None → ∀ k, is_Some (e !! k) → Covers f k = false) →
  ∃ v', debit_all b (spent_list (al_spent s)) !! f = Some v' ∧ isUnboundedBudget v' = false ∧
        (v' + call_drawn f ≤ v)%Z.
Proof using Ho He Hkeys.
  intros Hi Hf Hu Hle Hno. rewrite <- debit_all_positive. apply isUnbounded_false in Hu as Hu'.
  assert (Hc : covered_spend f call_spends = call_drawn f ∧ (call_drawn f ≤ v)%Z).
  { destruct (e !! f) as [F|] eqn:HF.
    - specialize (Hle F eq_refl). destruct (call_within f F HF) as [? ?]; [|split; [done|lia]].
      pose proof (Hi _ _ Hf). unfold in_int, MaxInt in *. lia.
    - destruct (call_nothing f (Hno eq_refl)) as [-> ->]. lia. }
  apply debit_left; try done; [|apply Hc..]. by eapply (spent_nonneg records (sm w)).
Qed.

Lemma spent_keys_same b :
  keys_within e b →
  (λ x, (budgetKey b x.1, x.2)) <$> spent_list (al_spent s) = spent_list (al_spent s).
Proof using Ho.
  intros Hk. etrans; [|apply (list_fmap_id (spent_list (al_spent s)))]. apply list_fmap_ext. intros i [k x] Hx%list_elem_of_lookup_2.
  simpl. f_equal. unfold budgetKey. rewrite FindBudgetKey_exact; [done|]. apply Hk.
  apply spent_list_elem in Hx. destruct (spent_account records (sm w) (λ _, True) (w_roles w) e t B' s Ho)
    as (? & _ & _ & _ & _ & _ & Hsd). by apply (Hsd k x).
Qed.
End call.

(** What the model may spend. *)
#[local] Notation eff st w := (effectiveAvailable (p_available st) (p_byNS st !! ns_of w)).

Lemma cluster_avail B work st : pass_inv B work st → avail_ok (p_available st).
Proof.
  intros Hi. pose proof (pi_cluster _ _ _ Hi) as Hc. unfold avail_ok.
  destruct (p_available st); [|done]. destruct a0; [|done]. by destruct Hc as (? & ? & _).
Qed.

(** The namespace's budget is of keys the cluster's has. *)
Lemma ns_state B work st ns n :
  pass_inv B work st → p_byNS st !! ns = Some n →
  ns_budget_ok n ∧ under_cluster (p_available st) n ∧
  ∃ n0, n0s !! ns = Some n0 ∧ ∀ k, is_Some (n !! k) ↔ is_Some (n0 !! k).
Proof using Hunder.
  intros Hi Hn. pose proof (pi_ns _ _ _ Hi ns) as Hs. rewrite Hn in Hs.
  destruct (n0s !! ns) as [n0|] eqn:Hn0; [|done]. destruct Hs as (Hok & Hk & _). split_and!; [done| |by exists n0].
  pose proof (Hunder ns n0 Hn0) as Hu. pose proof (pi_cluster _ _ _ Hi) as Hc. unfold under_cluster in *.
  destruct (p_available st) as [b|]; [|done]. destruct a0 as [b0|]; [|done]. destruct Hc as (_ & _ & Hkb & _).
  intros k Hk'. apply Hkb, Hu, Hk, Hk'.
Qed.

(** The budget a call is run with. *)
Lemma call_budget B work st w :
  pass_inv B work st → avail_ok (eff st w) ∧
  ∀ e, eff st w = Some e → budget_ok e ∧ ∀ v, budgetKey e (accFromVCs (w_records w) v) = w_key w v.
Proof using Hunder.
  intros Hi. pose proof (cluster_avail _ _ _ Hi) as Ha. unfold w_key.
  destruct (p_byNS st !! ns_of w) as [n|] eqn:Hn.
  - destruct (ns_state _ _ _ _ n Hi Hn) as (Hok & Hu & n0 & -> & Hk).
    destruct (effectiveAvailable_ok (p_available st) n Ha Hok Hu) as (e & He & Hb & Hs & Hke).
    rewrite He. split; [by split|]. intros e' [= <-]. split; [done|]. intros v. apply budgetKey_same.
    intros k. by rewrite Hke.
  - cbn [effectiveAvailable]. split; [done|]. pose proof (pi_ns _ _ _ Hi (ns_of w)) as Hs. rewrite Hn in Hs.
    destruct (n0s !! ns_of w); [done|]. pose proof (pi_cluster _ _ _ Hi) as Hc.
    intros e He. rewrite He in Hc. destruct a0 as [b0|]; [|done]. destruct Hc as (Hb & _ & Hk & _).
    split; [done|]. intros v. by apply budgetKey_same.
Qed.

(** The state after a call, seen from the budgets. *)
Definition after (st : pass_state) (w : modelWork) (nodes : option NodeView) (spent : gmap string Z) : pass_state :=
  reconcile (modelKey (w_req w)) (ns_of w) (MkPass (p_available st) (p_byNS st) nodes (p_spends st)) spent.

Section after_call.
Context (B B' : Z) (work : list modelWork) (st : pass_state) (i : nat) (w w' : modelWork).
Context (s : alloc_state) (nodes : option NodeView).
Hypothesis Hi : pass_inv B work st.
Hypothesis Hw : work !! i = Some w.
Hypothesis Ho : ordered (w_records w) (sm w) (λ _, True) (w_roles w) (eff st w) (w_targets w) B' s.
Hypothesis Hreq : w_req w' = w_req w.
Hypothesis Hrec : w_records w' = w_records w.
Hypothesis Htar : w_targets w' = al_targets s.
#[local] Notation inc f := (call_drawn w s (w_targets w) f).
#[local] Notation st' := (after st w nodes (al_spent s)).

Lemma w_drawn_step f : w_drawn f w' = (w_drawn f w + inc f)%Z.
Proof using Hreq Hrec Htar.
  unfold w_drawn, call_drawn, w_start. rewrite Htar, Hrec, Hreq.
  rewrite (grown_trans _ _ _ (w_targets w) (al_targets s)).
  assert (Hwt : ∀ v, w_weight f w' v = w_weight f w v) by (intros v; unfold w_weight, w_key; by rewrite Hrec, Hreq).
  f_equal; unfold grown; apply sumZ_ext; intros vc _; by rewrite Hwt.
Qed.

Lemma total_step f : sumZ (w_drawn f) (<[i := w']> work) = (sumZ (w_drawn f) work + inc f)%Z.
Proof using Hw Hreq Hrec Htar. rewrite (sumZ_update _ _ _ w) by done. rewrite w_drawn_step. lia. Qed.

Lemma ns_total_step ns f :
  sumZ (λ w, if String.eqb (ns_of w) ns then w_drawn f w else 0%Z) (<[i := w']> work) =
  (sumZ (λ w, if String.eqb (ns_of w) ns then w_drawn f w else 0%Z) work +
   (if String.eqb (ns_of w) ns then inc f else 0))%Z.
Proof using Hw Hreq Hrec Htar.
  rewrite (sumZ_update _ _ _ w) by done. rewrite Hreq, w_drawn_step. destruct (String.eqb _ _); lia.
Qed.

Lemma no_budget_no_spend : eff st w = None → al_spent s = ∅.
Proof using Ho.
  intros He. rewrite He in Ho. pose proof (or_avail _ _ _ _ _ _ _ _ Ho) as Ha. by destruct (al_available s).
Qed.

Lemma after_cluster :
  match a0, p_available st' with
  | None, None => True
  | Some b0, Some b => budget_ok b ∧ small_budgets b ∧
      left_within b0 b listed_by_all (λ f, sumZ (w_drawn f) (<[i := w']> work))
  | _, _ => False
  end.
Proof using All.
  unfold after, reconcile. rewrite reconcile_available. fold (spent_list (al_spent s)). cbn [p_available].
  pose proof (pi_cluster _ _ _ Hi) as Hc. destruct (call_budget B work st w Hi) as [_ Hcb].
  pose proof (λ n, ns_state _ _ _ (ns_of w) n Hi) as Hnss.
  pose proof total_step as Hts. pose proof (λ e B, call_debit w B s (w_targets w) e) as Hcd.
  destruct (p_available st) as [b|] eqn:Hb; [|by destruct a0].
  destruct a0 as [b0|]; [|done]. cbn [fmap option_fmap option_map].
  destruct (effectiveAvailable (Some b) (p_byNS st !! ns_of w)) as [e|] eqn:He.
  2: { by destruct (p_byNS st !! ns_of w). }
  destruct (Hcb e eq_refl) as [Heok Hkeys]. clear Hcb.
  destruct Hc as (Hok & Hsm & Hleft).
  assert (Hsub : keys_within e b ∧ (∀ f F v, e !! f = Some F → b !! f = Some v → (F ≤ v)%Z) ∧
    (∀ f, is_Some (b !! f) → listed_by_all f → e !! f = None → ∀ k, is_Some (e !! k) → Covers f k = false)).
  { destruct (p_byNS st !! ns_of w) as [n|] eqn:Hn.
    - destruct (Hnss n eq_refl) as (Hnok & Hu & n0 & Hn0 & Hk0).
      assert (Ha : avail_ok (Some b)) by (by split).
      assert (Hke : ∀ k, is_Some (e !! k) ↔ is_Some (n !! k)).
      { intros k. rewrite (eff_lookup (Some b) n e k He). apply fmap_is_Some. }
      split_and!; [intros k Hk; by apply Hu, Hke| |].
      + intros f F v HF Hv. rewrite (eff_lookup (Some b) n e f He) in HF. apply fmap_Some in HF as (x & Hx & ->).
        destruct (eff_le (Some b) n Ha Hnok Hu f x _ Hx eq_refl) as (_ & _ & _ & _ & Hle). by eapply Hle.
      + intros f _ Hall Hnone k Hk. apply not_true_is_false. intros Hcov.
        destruct (Hall _ n0 k Hn0 (proj1 (Hk0 k) (proj1 (Hke k) Hk)) Hcov) as [x Hx].
        destruct (proj2 (Hke f) (proj2 (Hk0 f) (mk_is_Some _ _ Hx))) as [y Hy]. congruence.
    - injection He as <-. split_and!; [by intros k|intros; simplify_eq; lia|]. intros f [x Hx] _ Hf. congruence. }
  destruct Hsub as (Hsub & Hle & Hno).
  rewrite (spent_keys_same w B' s (w_targets w) e Ho b Hsub). rewrite <- debit_all_positive at 1 2.
  pose proof (spent_nonneg (w_records w) (sm w) _ _ e _ _ s Ho) as Hnn.
  split_and!; [by apply debit_all_ok|by apply debit_all_small; [..|apply Hok|]|].
  eapply left_step; [exact Hleft|intros; apply debit_all_keys|]. intros f v Hv Hu Ha. rewrite Hts.
  destruct (Hcd e B' Ho Heok Hkeys b f v (ok_ints _ Hok) Hv Hu) as (v' & H1 & H2 & H3).
  - intros F HF. by apply (Hle f).
  - apply Hno; [eauto|done].
  - exists v'. split_and!; [done|done|lia].
Qed.

Lemma after_ns ns :
  match n0s !! ns, p_byNS st' !! ns with
  | None, None => True
  | Some n0, Some n => ns_budget_ok n ∧
      left_within n0 n (λ _, True)
        (λ f, sumZ (λ w, if String.eqb (ns_of w) ns then w_drawn f w else 0%Z) (<[i := w']> work))
  | _, _ => False
  end.
Proof using All.
  unfold after, reconcile. rewrite reconcile_byNS. fold (spent_list (al_spent s)). cbn [p_byNS].
  pose proof (pi_ns _ _ _ Hi ns) as Hs. pose proof (ns_total_step ns) as Hts.
  destruct (decide (ns = ns_of w)) as [Hns|Hne].
  - rewrite <- Hns. destruct (p_byNS st !! ns) as [n|] eqn:Hn; [|done].
    destruct (n0s !! ns) as [n0|]; [|done]. cbn [fmap option_fmap option_map]. destruct Hs as [Hok Hleft].
    rewrite Hns in Hn. destruct (ns_state _ _ _ _ n Hi Hn) as (_ & Hu & _).
    destruct (call_budget B work st w Hi) as [_ Hcb]. rewrite Hn in Hcb, Ho.
    destruct (effectiveAvailable_ok (p_available st) n (cluster_avail _ _ _ Hi) Hok Hu) as (e & He & Heok & _ & Hke).
    rewrite He in Ho. destruct (Hcb e He) as [_ Hkeys].
    pose proof (spent_nonneg (w_records w) (sm w) _ _ e _ _ s Ho) as Hnn.
    split; [rewrite <- debit_all_positive; by apply debit_all_ns|].
    eapply left_step; [exact Hleft|intros; apply debit_all_keys|]. intros f v Hv Hvu _.
    rewrite Hts, (proj2 (String.eqb_eq (ns_of w) ns)) by done.
    destruct (call_debit w B' s (w_targets w) e Ho Heok Hkeys n f v (ns_ints _ Hok) Hv Hvu) as (v' & H1 & H2 & H3).
    + intros F HF. rewrite (eff_lookup (p_available st) n e f He) in HF. apply fmap_Some in HF as (x & Hx & ->).
      assert (x = v) as -> by congruence.
      destruct (eff_le (p_available st) n (cluster_avail _ _ _ Hi) Hok Hu f v _ Hx eq_refl) as (_ & _ & _ & Hle & _). by apply Hle.
    + intros Hnone. destruct (proj2 (Hke f) (mk_is_Some _ _ Hv)). congruence.
    + exists v'. split_and!; [done|done|lia].
  - destruct (n0s !! ns) as [n0|], (p_byNS st !! ns) as [n|]; try done. destruct Hs as [Hok Hleft].
    split; [done|]. eapply left_step; [exact Hleft|done|]. intros f v Hv Hvu _. exists v. split_and!; [done|done|].
    rewrite Hts, (proj2 (String.eqb_neq (ns_of w) ns)) by congruence. lia.
Qed.

Hypothesis Hnodes : nodes_progress (w_records w) (sm w)
  (MkNodeFit ((λ v, setOwner v (modelKey (w_req w))) <$> p_nodes st) (ns_of w) (w_limited w)) (w_targets w) s.
Hypothesis Hback : nodes = match p_nodes st, nf_nodes (al_fit s) with
                           | Some v0, Some v => Some (setOwner v (owner v0))
                           | _, n => n
                           end.

Lemma after_nodes :
  match view0, p_nodes st' with
  | None, None => True
  | Some v0, Some v => wf v ∧ grows v0 v ∧ owner v = owner v0 ∧
      total_debit v = (total_debit v0 + sumZ (w_pods v0) (<[i := w']> work))%Z
  | _, _ => False
  end.
Proof using Hi Hw Hreq Hrec Htar Hnodes Hback.
  unfold after, reconcile. rewrite reconcile_nodes. cbn [p_nodes]. rewrite Hback.
  pose proof (pi_nodes _ _ _ Hi) as Hn. destruct Hnodes as [_ Hp]. cbn [nf_nodes nf_namespace al_fit] in Hp.
  destruct (p_nodes st) as [v|]; cbn [fmap option_fmap option_map] in Hp.
  - destruct view0 as [v0|]; [|done]. destruct (nf_nodes (al_fit s)) as [v1|]; [|done].
    destruct Hn as (Hwf & Hg & Hown & Ht), Hp as (Hwf1 & Hg1 & _ & Ht1). split_and!.
    + by apply setOwner_wf.
    + etrans; [exact Hg|]. exact Hg1.
    + done.
    + rewrite (sumZ_update _ _ _ w) by done. unfold w_pods at 2 3, w_start. rewrite Htar, Hrec, Hreq.
      rewrite (grown_trans _ (initTargets (VariantStates (w_req w))) _ (w_targets w) (al_targets s)).
      change (total_debit v1 = (total_debit v0 + (sumZ (w_pods v0) work -
        grown (w_records w) (initTargets (VariantStates (w_req w))) (λ x, pods_total (nf_replica v0 (ns_of w) (w_records w) (sm w) x)) (w_targets w) +
        (grown (w_records w) (initTargets (VariantStates (w_req w))) (λ x, pods_total (nf_replica v0 (ns_of w) (w_records w) (sm w) x)) (w_targets w) +
         grown (w_records w) (w_targets w) (λ x, pods_total (nf_replica v0 (ns_of w) (w_records w) (sm w) x)) (al_targets s))))%Z).
      rewrite Ht1. change (total_debit (setOwner v (modelKey (w_req w)))) with (total_debit v). rewrite Ht.
      assert (Hgr : grown (w_records w) (w_targets w) (λ x, pods_total (nf_replica (setOwner v (modelKey (w_req w))) (ns_of w) (w_records w) (sm w) x)) (al_targets s)
        = grown (w_records w) (w_targets w) (λ x, pods_total (nf_replica v0 (ns_of w) (w_records w) (sm w) x)) (al_targets s)).
      { unfold grown. apply sumZ_ext. intros vc _. do 2 f_equal. unfold nf_replica. apply fitOf_slots. apply Hg. }
      rewrite Hgr. lia.
  - destruct view0; [done|]. by destruct (nf_nodes (al_fit s)).
Qed.
End after_call.

(** *** The demand a call sees *)
Lemma capped_sane target x :
  fle target f0 = false → flt target x = true → sane_demand x → sane_demand target.
Proof.
  intros Hp Hlt [[Hf Hx] Hhi]. destruct target as [b|[]| |b m e]; try (by destruct x as [|[]| |[] ? ?]).
  assert (Hfin : is_finite (S754_finite b m e) = true) by done. split; [split; [done|]|].
  - destruct (fcompare_spec (S754_finite b m e) f0 Hfin eq_refl) as [[Hc Hz]|[[Hc Hz]|[Hc Hz]]];
      unfold fle in Hp; rewrite Hc in Hp; try done. left. exact Hz.
  - destruct (fcompare_spec (S754_finite b m e) x Hfin Hf) as [[Hc Hz]|[[Hc Hz]|[Hc Hz]]];
      unfold flt in Hlt; rewrite Hc in Hlt; try done. lra.
Qed.

Lemma cap_roles_sane target roles ps :
  fle target f0 = false → (∀ r, sane_demand (fget ps r)) → ∀ r, sane_demand (fget (cap_roles target roles ps) r).
Proof.
  intros Ht. unfold cap_roles. revert ps. induction roles as [|x roles IH]; intros ps Hps; simpl; [done|].
  apply IH. intros r. destruct (flt target (fget ps x)) eqn:Hl; [|done].
  rewrite fget_insert. case_decide; [|done]. subst. by apply (capped_sane target (fget ps r)).
Qed.

Lemma work_ok_mono B B' w : work_ok B w → (B ≤ B')%Z → work_ok B' w.
Proof. intros [H8 H1 H2 H3 H4 H5 H6] HB. split; try done. intros v. specialize (H4 v). lia. Qed.

Lemma pass_inv_mono B B' work st : pass_inv B work st → (B ≤ B')%Z → pass_inv B' work st.
Proof. intros [? ? ? Hw] HB. split; try done. eapply Forall_impl; [exact Hw|]. intros w Hk. by eapply work_ok_mono. Qed.

(** One call, whatever fair share it is given, keeps the pass within its budgets. *)
Lemma allocateForModel_inv inner B work st i w mean :
  pass_inv B work st → work !! i = Some w → (B + Z.of_nat inner * maxReplicaCount ≤ int_max)%Z →
  let '(w', st', _, _) := allocateForModel inner w mean st in
  pass_inv (B + Z.of_nat inner * maxReplicaCount) (<[i := w']> work) st' ∧
  w_req w' = w_req w ∧ w_records w' = w_records w ∧ w_roles w' = w_roles w.
Proof using Hunder.
  intros Hi Hw HB. unfold allocateForModel.
  assert (HBM : (B ≤ B + Z.of_nat inner * maxReplicaCount)%Z) by (unfold maxReplicaCount; lia).
  destruct (fle (fsub (w_remaining w) mean) f0) eqn:Ht.
  { rewrite list_insert_id by done. split; [by eapply pass_inv_mono|done]. }
  pose proof (proj1 (Forall_lookup _ _) (pi_work _ _ _ Hi) i w Hw) as [Hrc Hot Hm Hs Hr Hg Hmx].
  pose proof (λ r, initRoleState_sane (w_e w) r Hs) as Hps0. pose proof (initRoleState_charged (w_e w)) as Hch0.
  destruct (initRoleState (w_e w)) as [[rs ps0] e0]. cbn [fst snd] in Hps0, Hch0.
  set (target := fsub (w_remaining w) mean) in *.
  set (fit := MkNodeFit ((λ v, setOwner v (modelKey (w_req w))) <$> p_nodes st) (ns_of w) (w_limited w)).
  destruct (call_budget B work st w Hi) as [Havail _].
  assert (Hstart : sane_start (w_roles w) (eff st w) (w_targets w) (cap_roles target (w_roles w) ps0) fit B).
  { split; [done|done| |].
    - intros r _. by apply cap_roles_sane.
    - unfold nodes_ok, fit. cbn [nf_nodes]. pose proof (pi_nodes _ _ _ Hi) as Hn. destruct (p_nodes st); simpl; [|done].
      destruct view0; [|done]. destruct Hn as [Hwf _]. by apply setOwner_wf. }
  pose proof (fair_share_picks (w_records w) (sm w) (w_roles w) Hm target) as Hpk.
  pose proof (paired_progress (w_records w) (sm w) (w_roles w) Hm (λ _, True) _ inner e0 (eff st w) (w_targets w)
    (cap_roles target (w_roles w) ps0) fit B ltac:(done) I Hstart HB) as [Ho Hn Hsg].
  destruct (allocateForModelPairedOn _ _ _ _ _ _ _ _ _ _) as [s ended]. cbn [fst] in Ho, Hn, Hsg.
  set (nodes := match p_nodes st with Some _ => _ | None => _ end).
  change (reconcile _ _ _ _) with (after st w nodes (al_spent s)).
  assert (Hgoal : ∀ e1 rem lim, charged_from (al_e s) e1 →
    pass_inv (B + Z.of_nat inner * maxReplicaCount)
      (<[i := MkWork (w_req w) e1 (w_records w) (w_roles w) rem (al_targets s) lim]> work) (after st w nodes (al_spent s))).
  { intros e1 rem lim Hch. split.
    - by apply (after_cluster B _ work st i w _ s nodes Hi Hw Ho).
    - intros ns. by apply (after_ns B _ work st i w _ s nodes Hi Hw Ho).
    - by apply (after_nodes B work st i w _ s nodes Hi Hw).
    - apply Forall_insert; [eapply Forall_impl; [apply (pi_work _ _ _ Hi)|]; intros ? ?; by eapply work_ok_mono|].
      split; cbn [w_req w_e w_records w_roles w_targets]; [done| |done| | | |].
      + intros v Hv. unfold w_start. cbn [w_req]. rewrite (or_other _ _ _ _ _ _ _ _ Ho) by done. by apply Hot.
      + destruct Hch0 as (_ & _ & C0), Hsg as (_ & _ & C1), Hch as (_ & _ & C2). auto.
      + intros v. apply (or_range _ _ _ _ _ _ _ _ Ho).
      + intros v. unfold w_start. cbn [w_req]. etrans; [apply Hg|apply (or_grows _ _ _ _ _ _ _ _ Ho)].
      + intros v m Hv. unfold w_start. cbn [w_req]. pose proof (or_max _ _ _ _ _ _ _ _ Ho v m Hv).
        specialize (Hmx v m Hv). unfold w_start in Hmx. lia. }
  case_bool_decide.
  - pose proof (initRoleState_charged (al_e s)) as Hch. destruct (initRoleState (al_e s)) as [[? ?] e1].
    split; [by apply Hgoal|done].
  - split; [by apply Hgoal|done].
Qed.

(** A model whose bookkeeping alone changed. *)
Definition same_order (w w' : modelWork) : Prop :=
  w_req w' = w_req w ∧ w_records w' = w_records w ∧ w_roles w' = w_roles w ∧ w_targets w' = w_targets w ∧
  (signal_ok (w_e w) → signal_ok (w_e w')).

Lemma sumZ_update_same {A} (g : A → Z) l i x y : l !! i = Some x → g y = g x → sumZ g (<[i := y]> l) = sumZ g l.
Proof. intros Hi Hg. rewrite (sumZ_update g l i x y Hi), Hg. lia. Qed.

Lemma pass_inv_same B work st i w w' :
  pass_inv B work st → work !! i = Some w → same_order w w' → pass_inv B (<[i := w']> work) st.
Proof.
  intros [Hc Hn Hd Hk] Hw (S1 & S2 & S3 & S4 & S5).
  assert (Hdr : ∀ f, w_drawn f w' = w_drawn f w).
  { intros f. unfold w_drawn, w_start, w_weight, w_key. by rewrite S1, S2, S4. }
  assert (Hpd : ∀ v, w_pods v w' = w_pods v w).
  { intros v. unfold w_pods, w_start. by rewrite S1, S2, S4. }
  split.
  - destruct a0, (p_available st); try done. destruct Hc as (? & ? & ? & Hl). split_and!; try done.
    split; [done|]. intros f F Hf HF Ha. rewrite (sumZ_update_same _ _ _ w) by done. by apply Hl.
  - intros ns. specialize (Hn ns). destruct (n0s !! ns), (p_byNS st !! ns); try done. destruct Hn as (? & ? & Hl).
    split; [done|]. split; [done|]. intros f F Hf HF Ha.
    rewrite (sumZ_update_same _ _ _ w); [by apply Hl|done|]. by rewrite S1, Hdr.
  - destruct view0, (p_nodes st); try done. by rewrite (sumZ_update_same _ _ _ w).
  - apply Forall_insert; [done|]. rewrite Forall_lookup in Hk. destruct (Hk i w Hw) as [K0 K0' K1 K2 K3 K4 K5].
    split; unfold w_start; rewrite ?S1, ?S2, ?S3, ?S4; try done. by apply S5.
Qed.

Lemma filterActive_elem work i w : (i, w) ∈ filterActive work → work !! i = Some w.
Proof.
  unfold filterActive. intros [_ Hin]%list_elem_of_filter. apply elem_of_lookup_imap in Hin as (j & x & [= -> ->] & Hx). done.
Qed.

Lemma exhausted_same w : same_order w (markBudgetExhausted_one w).
Proof.
  unfold markBudgetExhausted_one. pose proof (initRoleState_charged (w_e w)) as (_ & _ & Hs).
  destruct (initRoleState (w_e w)) as [[? ?] e]. by split_and!.
Qed.

Lemma pass_inv_exhausted B work st active :
  pass_inv B work st → NoDup active.*1 → (∀ p, p ∈ active → work !! p.1 = Some p.2) →
  pass_inv B (markBudgetExhausted active work) st ∧
  w_req <$> markBudgetExhausted active work = w_req <$> work.
Proof.
  unfold markBudgetExhausted. revert work. induction active as [|p active IH]; intros work Hi Hnd Hl; cbn [foldl]; [done|].
  rewrite fmap_cons in Hnd. apply NoDup_cons in Hnd as [Hp Hnd].
  pose proof (Hl p (list_elem_of_here _ _)) as Hpw. pose proof (exhausted_same p.2) as Hsame.
  destruct (IH (<[p.1 := markBudgetExhausted_one p.2]> work)) as [I1 I2]; [by eapply pass_inv_same|done| |].
  - intros q Hq. rewrite list_lookup_insert_ne; [apply Hl; by right|].
    intros He. apply Hp. rewrite He. by apply (list_elem_of_fmap_2 fst).
  - split; [done|]. rewrite I2, list_fmap_insert, list_insert_id; [done|].
    rewrite list_lookup_fmap, Hpw. simpl. f_equal. symmetry. apply Hsame.
Qed.

Lemma filterActive_NoDup work : NoDup (filterActive work).*1.
Proof.
  assert (Hs : (filterActive work).*1 `sublist_of` (imap pair work).*1) by (apply fmap_sublist, sublist_filter).
  eapply sublist_NoDup; [|exact Hs].
  replace ((imap pair work).*1) with (seq 0 (length work)); [apply NoDup_seq|].
  apply list_eq. intros j. rewrite list_lookup_fmap, list_lookup_imap.
  destruct (work !! j) eqn:Hj; simpl.
  - apply lookup_seq. split; [lia|by eapply lookup_lt_Some].
  - apply lookup_seq_ge. by apply lookup_ge_None.
Qed.

Lemma fairShareScaleUp_inv fuel inner B work st :
  pass_inv B work st → (B + Z.of_nat fuel * (Z.of_nat inner * maxReplicaCount) ≤ int_max)%Z →
  let '(work', st', _) := fairShareScaleUp fuel inner work st in
  pass_inv (B + Z.of_nat fuel * (Z.of_nat inner * maxReplicaCount)) work' st' ∧ w_req <$> work' = w_req <$> work.
Proof using Hunder.
  revert B work st. induction fuel as [|fuel IH]; intros B work st Hi HB; cbn [fairShareScaleUp].
  - assert (Hz : pass_inv (B + Z.of_nat 0 * (Z.of_nat inner * maxReplicaCount)) work st) by (eapply pass_inv_mono; [done|lia]).
    pose proof (pass_inv_exhausted _ _ _ (filterActive work) Hz (filterActive_NoDup work)) as Hex.
    destruct (filterActive work) as [|p active] eqn:Hf; [done|]. destruct (negb _); [|done].
    apply Hex. intros [j x] Hq. apply filterActive_elem. by rewrite Hf.
  - set (B' := (B + Z.of_nat inner * maxReplicaCount)%Z).
    assert (HBeq : (B + Z.of_nat (S fuel) * (Z.of_nat inner * maxReplicaCount) =
                    B' + Z.of_nat fuel * (Z.of_nat inner * maxReplicaCount))%Z) by (unfold B'; lia).
    assert (Hpos : (0 ≤ Z.of_nat inner * maxReplicaCount ∧ 0 ≤ Z.of_nat fuel * (Z.of_nat inner * maxReplicaCount))%Z)
      by (unfold maxReplicaCount; lia).
    rewrite HBeq in HB |- *.
    assert (Hz : pass_inv (B' + Z.of_nat fuel * (Z.of_nat inner * maxReplicaCount)) work st)
      by (eapply pass_inv_mono; [done|unfold B'; lia]).
    pose proof (pass_inv_exhausted _ _ _ (filterActive work) Hz (filterActive_NoDup work)) as Hex.
    pose proof (sort_slice_perm (λ a b, flt (w_remaining b.2) (w_remaining a.2)) (filterActive work)) as Hperm.
    destruct (filterActive work) as [|p active] eqn:Hf; [done|].
    destruct (negb _); [apply Hex; intros [j x] Hq; apply filterActive_elem; by rewrite Hf|].
    unfold sortByRemainingDesc. destruct (sort_slice _ _) as [|[i w] rest]; [done|].
    assert (Hw : work !! i = Some w).
    { apply filterActive_elem. rewrite Hf, <- Hperm. left. }
    pose proof (allocateForModel_inv inner B work st i w
      (allocation_mean (length (p :: active)) (w_remaining w) (computeMean (p :: active).*2)) Hi Hw
      ltac:(unfold B' in *; lia)) as Hcall.
    destruct (allocateForModel _ _ _ _) as [[[w1 st1] al] ended]. destruct Hcall as (Hc & C1 & C2 & C3).
    set (w2 := if negb al || _ then _ else w1).
    assert (Hi2 : pass_inv B' (<[i := w2]> work) st1).
    { unfold w2. destruct (negb al || _); [|done].
      rewrite <- (list_insert_insert_eq work i _ w1). apply (pass_inv_same B' (<[i := w1]> work) st1 i w1); [exact Hc| |by split_and!].
      apply list_lookup_insert_eq. by eapply lookup_lt_Some. }
    assert (Hreq : w_req w2 = w_req w) by (unfold w2; by destruct (negb al || _)).
    specialize (IH B' (<[i := w2]> work) st1 Hi2 HB).
    destruct (fairShareScaleUp _ _ _ _) as [[work' st'] r]. destruct IH as [I1 I2]. split; [done|].
    rewrite I2, list_fmap_insert, list_insert_id; [done|]. by rewrite list_lookup_fmap, Hw, Hreq.
Qed.
End pass.

(** ** The log of a pass *)
Lemma filter_all {A} (P : A → Prop) `{∀ x, Decision (P x)} l : Forall P l → filter P l = l.
Proof. induction 1 as [|x l Hx _ IH]; [done|]. by rewrite filter_cons_True, IH. Qed.

Lemma filter_none {A} (P : A → Prop) `{∀ x, Decision (P x)} l : Forall (λ x, ¬ P x) l → filter P l = [].
Proof. induction 1 as [|x l Hx _ IH]; [done|]. by rewrite filter_cons_False, IH. Qed.

Section log.
Context `{GoSort} `{TaintMatcher} {C : IntConv}.
Context (a0 : option (gmap string Z)) (n0s : gmap string (gmap string Z)).

(** The budgets are the log replayed on the start, and the log names models of
    [work] only. *)
Definition logged (models : list string) (st : pass_state) : Prop :=
  foldl replay_op (a0, n0s) (p_spends st) = (p_available st, p_byNS st) ∧
  Forall (λ op, op_model op ∈ models) (p_spends st).

Lemma reconcile_logged models model ns st l :
  ns ≠ "" → model ∈ models → logged models st → logged models (foldl (reconcile_key model ns) st l).
Proof.
  intros Hns Hm. revert st. induction l as [|[k c] l IH]; intros st [Hl Ho]; [done|]. cbn [foldl]. apply IH.
  unfold reconcile_key. destruct (c <=? 0)%Z; [done|]. cbn [p_byNS p_available p_nodes p_spends].
  destruct (p_byNS st !! ns) as [b|] eqn:Hb; split; cbn [p_byNS p_available p_spends]; rewrite ?foldl_app, ?Hl.
  - unfold replay_op. cbn. rewrite (proj2 (String.eqb_neq ns "")) by done. f_equal.
    apply map_eq. intros x. rewrite lookup_insert, lookup_alter. case_decide; [subst; by rewrite Hb|done].
  - rewrite !Forall_app. by repeat constructor.
  - done.
  - rewrite !Forall_app. by repeat constructor.
Qed.

Lemma allocateForModel_logged models inner w mean st :
  req_Namespace (w_req w) ≠ "" → modelKey (w_req w) ∈ models → logged models st →
  logged models (allocateForModel inner w mean st).1.1.2.
Proof.
  intros Hns Hm Hl. unfold allocateForModel. destruct (fle _ f0); [done|].
  destruct (initRoleState (w_e w)) as [[? ?] ?]. destruct (allocateForModelPairedOn _ _ _ _ _ _ _ _ _ _) as [s ?].
  case_bool_decide; [destruct (initRoleState (al_e s)) as [[? ?] ?]|]; by apply reconcile_logged.
Qed.

Lemma allocateForModel_req inner w mean st : w_req (allocateForModel inner w mean st).1.1.1 = w_req w.
Proof.
  unfold allocateForModel. destruct (fle _ f0); [done|].
  destruct (initRoleState (w_e w)) as [[? ?] ?]. destruct (allocateForModelPairedOn _ _ _ _ _ _ _ _ _ _) as [s ?].
  case_bool_decide; [by destruct (initRoleState (al_e s)) as [[? ?] ?]|done].
Qed.

Lemma fairShareScaleUp_logged models fuel inner work st :
  Forall (λ w, req_Namespace (w_req w) ≠ "" ∧ modelKey (w_req w) ∈ models) work → logged models st →
  logged models (fairShareScaleUp fuel inner work st).1.2.
Proof.
  revert work st. induction fuel as [|fuel IH]; intros work st Hw Hl; cbn [fairShareScaleUp];
    destruct (filterActive work) as [|p active] eqn:Hf; try done; destruct (negb _); try done.
  pose proof (sort_slice_perm (λ a b, flt (w_remaining b.2) (w_remaining a.2)) (p :: active)) as Hperm.
  unfold sortByRemainingDesc. destruct (sort_slice _ _) as [|[i w] rest]; [done|].
  assert (Hi : work !! i = Some w) by (apply filterActive_elem; rewrite Hf, <- Hperm; left).
  pose proof (proj1 (Forall_lookup _ _) Hw i w Hi) as [Hns Hm].
  set (mean := allocation_mean _ _ _).
  pose proof (allocateForModel_logged models inner w mean st Hns Hm Hl) as Hl1.
  pose proof (allocateForModel_req inner w mean st) as Hr.
  destruct (allocateForModel inner w mean st) as [[[w1 st1] al] ended]. cbn [fst snd] in Hl1, Hr.
  set (w2 := if negb al || _ then _ else w1).
  assert (Hr2 : w_req w2 = w_req w) by (unfold w2; by destruct (negb al || _)).
  specialize (IH (<[i := w2]> work) st1).
  destruct (fairShareScaleUp fuel inner (<[i := w2]> work) st1) as [[work' st'] r]. cbn [fst snd] in IH |- *. apply IH; [|done].
  apply Forall_insert; [done|]. by rewrite Hr2.
Qed.
End log.

(** ** Starting a pass *)

(** A model before the pass: nothing ordered yet. *)
Record work_ready (B : Z) (w : modelWork) : Prop := {
  wr_records : recordsForRequest (w_req w) = Some (w_records w);
  wr_fresh : w_targets w = initTargets (VariantStates (w_req w));
  wr_model : sane_model (w_records w) (buildStateMap (VariantStates (w_req w))) (w_roles w);
  wr_signal : signal_ok (w_e w);
  wr_range : ∀ v, (0 ≤ target_of (w_targets w) v ≤ B)%Z }.

(** The budgets and the nodes a pass starts from. *)
Record pass_ready (st : pass_state) : Prop := {
  pr_cluster : avail_ok (p_available st);
  pr_namespaces : ∀ ns n, p_byNS st !! ns = Some n → ns_budget_ok n ∧ under_cluster (p_available st) n;
  pr_nodes : match p_nodes st with Some v => wf v | None => True end }.

Section ready.
Context `{GoSort} `{TaintMatcher} {C : IntConv}.
Context (st : pass_state) (work : list modelWork) (B : Z).
Hypothesis Hst : pass_ready st.
Hypothesis Hwork : Forall (work_ready B) work.

Lemma fresh_drawn f w : work_ready B w → w_drawn (p_available st) (p_byNS st) f w = 0%Z.
Proof. intros Hw. unfold w_drawn, w_start. rewrite (wr_fresh _ _ Hw). apply grown_start. Qed.

Lemma start_inv : pass_inv (p_available st) (p_byNS st) (p_nodes st) B work st.
Proof using Hst Hwork.
  destruct Hst as [Hc Hn Hd]. rewrite Forall_forall in Hwork. split.
  - unfold avail_ok in Hc. destruct (p_available st) as [b|] eqn:Hb; [|done]. destruct Hc as [Hok Hsm].
    split_and!; [done|done|]. split; [done|]. intros f F Hf HF _. exists F. split_and!; [done|done|].
    rewrite (sumZ_ext _ (λ _, 0%Z)), sumZ_zero; [lia|]. intros w Hw. rewrite <- Hb. by apply fresh_drawn, Hwork.
  - intros ns. destruct (p_byNS st !! ns) as [n|] eqn:Hns; [|done]. split; [by eapply Hn|]. split; [done|].
    intros f F Hf HF _. exists F. split_and!; [done|done|].
    rewrite (sumZ_ext _ (λ _, 0%Z)), sumZ_zero; [lia|]. intros w Hw. rewrite fresh_drawn by (by apply Hwork).
    by destruct (String.eqb _ _).
  - destruct (p_nodes st) as [v|]; [|done]. split_and!; [done|done|done|].
    rewrite (sumZ_ext _ (λ _, 0%Z)), sumZ_zero; [lia|]. intros w Hw. unfold w_pods, w_start.
    rewrite (wr_fresh _ _ (Hwork w Hw)). apply grown_start.
  - apply Forall_forall. intros w Hw. destruct (Hwork w Hw) as [R0 R1 R2 R3 R4]. split; try done; unfold w_start.
    + intros v _. by rewrite R1.
    + intros v. rewrite R1. lia.
    + intros v m _. rewrite R1. lia.
Qed.

Lemma start_under ns n : p_byNS st !! ns = Some n → under_cluster (p_available st) n.
Proof using Hst. apply (pr_namespaces _ Hst). Qed.
End ready.

(** ** Properties *)


(** Two models, each a prefill and a decode variant, competing for eight H100s. *)
Definition two_requests : list ModelScalingRequest :=
  [pd_request; MkRequest "mistral" "ns" (CompositeSignal pd_request) (VariantStates pd_request)
                 (req_Variants pd_request) (f_of 3)].
Definition two_work : list modelWork := (foldl split_request ([], []) two_requests).1.
Definition two_start : pass_state := MkPass (Some pd_budget) ∅ (Some three_view) [].
Definition two_pass : list modelWork * pass_state * bool := fairShareScaleUp (H0 := by_key) 10 30 two_work two_start.

Lemma two_start_ready : pass_ready two_start.
Proof.
  split; cbn [two_start p_available p_byNS p_nodes].
  - by apply single_budget_ok.
  - intros ns n Hn. by rewrite lookup_empty in Hn.
  - apply three_view_wf.
Qed.

Lemma signal_ok_of e r :
  Result e = Some r → sane_size (Remaining e) = true →
  map_Forall (λ _ rc, sane_size (rc_RequiredCapacity rc) = true) (default ∅ (RoleCapacities e)) →
  Forall (λ vc, fle (vc_PerReplicaCapacity vc) f0 = true ∨ sane_size (vc_PerReplicaCapacity vc) = true) (VariantCapacities r) →
  signal_ok e.
Proof.
  intros Hr Hm Hc Hv. split.
  - intros _. by apply sane_size_ok.
  - intros caps role rc Hs Hl. rewrite Hs in Hc. apply sane_size_ok. by apply (Hc role).
  - intros r' vc Hr' Hin Hp. rewrite Hr in Hr'. injection Hr' as <-. rewrite Forall_forall in Hv.
    destruct (Hv vc Hin); [congruence|by apply sane_size_ok].
Qed.

Lemma pd_signal_ok e : Result e = Some pd_result → Remaining e = Remaining (CompositeSignal pd_request) →
  RoleCapacities e = RoleCapacities (CompositeSignal pd_request) → signal_ok e.
Proof. intros Hr Hm Hc. apply (signal_ok_of e pd_result Hr); rewrite ?Hm, ?Hc; by_computation. Qed.

Lemma two_work_ready : Forall (work_ready 10) two_work.
Proof.
  assert (He : ∃ w1 w2, two_work = [w1; w2]) by (eexists _, _; vm_compute; reflexivity).
  assert (Hr : ∀ w, w_targets w = initTargets (VariantStates (w_req w)) → VariantStates (w_req w) = VariantStates pd_request →
    w_records w = pd_variants → w_roles w = pd_roles → Result (w_e w) = Some pd_result →
    RoleCapacities (w_e w) = RoleCapacities (CompositeSignal pd_request) →
    Remaining (w_e w) = Remaining (CompositeSignal pd_request) →
    recordsForRequest (w_req w) = Some (w_records w) → work_ready 10 w).
  { intros w H1 H2 H3 H4 H5 H6 H6' H7. split; [done|done| |by apply pd_signal_ok|].
    - rewrite H2, H3, H4. exact pd_sane.
    - rewrite H1, H2. apply targets_within; [lia|]. apply (bool_decide_unpack _). vm_compute. exact I. }
  destruct He as (w1 & w2 & He). rewrite He.
  assert (H1 : head two_work = Some w1) by (by rewrite He).
  assert (H2 : two_work !! 1%nat = Some w2) by (by rewrite He). clear He.
  vm_compute in H1, H2. injection H1 as <-. injection H2 as <-.
  apply Forall_cons; split; [|apply Forall_singleton]; apply Hr; vm_compute; reflexivity.
Qed.


(** The budgets a pass leaves are exactly its log replayed on the budgets it
    found; so taking back the spends of models it ordered nothing for leaves the
    budgets as they are, as publishing the headroom again after the utilization
    share relies on. *)
Theorem pass_log_exact `{GoSort} `{TaintMatcher} {C : IntConv} fuel inner work st exclude :
  p_spends st = [] → Forall (λ w, req_Namespace (w_req w) ≠ "") work →
  (∀ w, w ∈ work → exclude (modelKey (w_req w)) = false) →
  let '(_, st', _) := fairShareScaleUp fuel inner work st in
  replay (p_spends st') (p_available st) (p_byNS st) exclude = (p_available st', p_byNS st') ∧
  replay (p_spends st') (p_available st) (p_byNS st) (λ _, true) = (p_available st, p_byNS st).
Proof.
  intros Hs Hns Hex. set (models := (λ w, modelKey (w_req w)) <$> work).
  assert (Hl : logged (p_available st) (p_byNS st) models st) by (split; rewrite Hs; [done|constructor]).
  pose proof (fairShareScaleUp_logged (p_available st) (p_byNS st) models fuel inner work st) as Hp.
  destruct (fairShareScaleUp fuel inner work st) as [[work' st'] ended]. cbn [fst snd] in Hp.
  destruct Hp as [Hr Hm]; [|done|].
  { rewrite Forall_forall in Hns |- *. intros w Hw. split; [by apply Hns|].
    by apply (list_elem_of_fmap_2 (λ w, modelKey (w_req w))). }
  unfold replay. split.
  - rewrite filter_all; [done|]. eapply Forall_impl; [exact Hm|].
    intros op (w & -> & Hw)%list_elem_of_fmap. by apply Hex.
  - rewrite filter_none; [done|]. apply Forall_forall. by intros op _.
Qed.

Lemma pass_log_exact_witness :
  length (p_spends two_pass.1.2) = 1%nat ∧
  replay (p_spends two_pass.1.2) (Some pd_budget) ∅ (String.eqb "ns/other") =
    (p_available two_pass.1.2, p_byNS two_pass.1.2).
Proof.
  split; [vm_compute; reflexivity|].
  pose proof (pass_log_exact (H0 := by_key) 10 30 two_work two_start (String.eqb "ns/other")) as Hp. fold two_pass in Hp.
  assert (Hw : ((λ w, (req_Namespace (w_req w), modelKey (w_req w))) <$> two_work) = [("ns", "ns/llama"); ("ns", "ns/mistral")])
    by (vm_compute; reflexivity).
  assert (Hin : ∀ w, w ∈ two_work → req_Namespace (w_req w) = "ns" ∧
    (modelKey (w_req w) = "ns/llama" ∨ modelKey (w_req w) = "ns/mistral")).
  { intros w H. apply (list_elem_of_fmap_2 (λ w, (req_Namespace (w_req w), modelKey (w_req w)))) in H. rewrite Hw in H.
    apply elem_of_cons in H as [[= -> ->]|H]; [by split; [|left]|].
    apply list_elem_of_singleton in H as [= -> ->]. by split; [|right]. }
  destruct two_pass as [[work' st'] ended]. apply Hp.
  - reflexivity.
  - apply Forall_forall. intros w H. by rewrite (proj1 (Hin w H)).
  - intros w H. by destruct (Hin w H) as [_ [-> | ->]].
Defined.

(** ** A family bound a product allowance escapes

    A namespace allowed eight of each of two H100 products, under a cluster bound
    of eight H100s: the effective budget lists the products alone, so one model
    with a variant on each orders sixteen. *)
Definition split_variants : list VariantMetadata :=
  [MkMetadata "pre" "prefill" (f_of 10) "NVIDIA-H100-PCIe"; MkMetadata "dec" "decode" (f_of 5) "NVIDIA-H100-SXM5"].
Definition split_result : AnalyzerResult :=
  MkAnalyzerResult [MkVariantCapacity "pre" "prefill" (f_of 100) "" (f_of 10) f0;
                    MkVariantCapacity "dec" "decode" (f_of 100) "" (f_of 30) f0] (f_of 40).
Definition split_model : ModelScalingRequest :=
  MkRequest "llama" "ns"
    (MkNamed (Some split_result) f1 (f_of 800) f0 None None f0 f0 f0 (f_of 800) f0
       (Some {["prefill" := MkRoleCapacity f0 f0 (f_of 800) f0;
               "decode" := MkRoleCapacity f0 f0 (f_of 800) f0]}) true ∅ ∅ ∅)
    [MkReplicaState "pre" 0 [] [] "" [] 1 "prefill" None None;
     MkReplicaState "dec" 0 [] [] "" [] 1 "decode" None None] split_variants f1.
Definition family_bound : ResourceConstraints :=
  MkConstraints "cluster-quota" {["H100" := MkPool 8 0]} None false 8 0 8 false false false false 0.
Definition product_allowance : ResourceConstraints :=
  MkConstraints "namespace-quota" ∅
    (Some {["ns" := {["NVIDIA-H100-PCIe" := MkPool 8 0; "NVIDIA-H100-SXM5" := MkPool 8 0]}]})
    true 0 0 0 false false false false 0.

Theorem product_allowance_escapes_family_bound :
  let constraints := [Some family_bound; Some product_allowance] in
  let start := pass_start constraints (declaredAccelerators [split_model]) None in
  ((.!! "H100") <$> p_available start = Some (Some 8%Z)) ∧
  (¬ listed_by_all (p_byNS start) "H100") ∧
  ((λ d, (VariantName d, GPUsAllocated d)) <$>
     g_decisions (Greedy_Optimize (H0 := by_key) 20 20 None [split_model] constraints)) =
    [("dec", 8%Z); ("pre", 8%Z)].
Proof.
  cbv zeta. split_and!; [vm_compute; reflexivity| |vm_compute; reflexivity].
  intros Hl. set (byNS := p_byNS _) in Hl.
  assert (Hn : ∃ n, byNS !! "ns" = Some n ∧ is_Some (n !! "NVIDIA-H100-PCIe") ∧ n !! "H100" = None).
  { eexists. split_and!; [vm_compute; reflexivity|vm_compute; eauto|vm_compute; reflexivity]. }
  destruct Hn as (n & Hn & Hp & Hno). destruct (Hl "ns" n "NVIDIA-H100-PCIe" Hn Hp eq_refl). congruence.
Qed.
