(* ===== verification/Headroom.v ===== *)
(** * Headroom and contention: what a pass tells the warm pool

    The models of [internal/decision/headroom.go] and [contention.go], the two
    snapshot stores, and of what [gpu_limit_attribution.go] publishes to them:
    [publish], [withheld] and [clusterFigure] of [passHeadroom],
    [namespaceHeadroom] and [namespaceAllowance].

    A store is its last snapshot; a time is a number of nanoseconds.  The warm pool
    reads the headroom of an accelerator in its namespace as one of three states.

    Theorems: what a warm pool reads after a fair-share pass, with everything the
    pass ordered, is within the allowance of its namespace and within the cluster
    bound; a snapshot too old, or built from an older warm-pool figure, reads as
    unknown.  One counterexample: the contention snapshot of a pass is the last
    model's alone. *)
From Stdlib Require Import ZArith Lia String Ascii SpecFloat Reals Lra.
From stdpp Require Import base gmap strings list sorting fin_maps.
From S2P Require Import Prelude Accelerator Budget NodeView GoFloat Domain Signals ScaleDown PairFit ScaleUp Attribution Greedy.

(** ** The headroom store *)
Record HeadroomSnapshot := MkSnapshot {
  hs_Free : gmap string (gmap string Z); hs_Cluster : option (gmap string Z);
  hs_Nodes : option (gmap string (list Z)); hs_At : Z; hs_PoolsVersion : Z }.

Inductive HeadroomState := HeadroomUnknown | HeadroomUnbounded | HeadroomBounded.

Definition HeadroomUnlimited : Z := -1.

Notation HeadroomStore := (option HeadroomSnapshot).

Definition PublishBoundsOnNodes (s : HeadroomStore) (free : gmap string (gmap string Z))
    (cluster : option (gmap string Z)) (nodes : option (gmap string (list Z))) (poolsVersion now : Z)
  : HeadroomStore :=
  Some (MkSnapshot free cluster nodes now poolsVersion).

Definition PublishBounds (s : HeadroomStore) (free : gmap string (gmap string Z))
    (cluster : option (gmap string Z)) (poolsVersion now : Z) : HeadroomStore :=
  PublishBoundsOnNodes s free cluster None poolsVersion now.

Definition PublishHeadroom (s : HeadroomStore) (free : gmap string (gmap string Z)) (poolsVersion now : Z)
  : HeadroomStore := PublishBounds s free None poolsVersion now.

(** The snapshot, when it is recent and counts the caller's own GPUs. *)
Definition current (s : HeadroomStore) (poolsVersion maxAge now : Z) : option HeadroomSnapshot :=
  match s with
  | None => None
  | Some h => if (maxAge <? now - hs_At h)%Z || (hs_PoolsVersion h <? poolsVersion)%Z then None else Some h
  end.

Definition Units (s : HeadroomStore) (acceleratorName : string) (unitGPUs poolsVersion maxAge now : Z)
  : Z * bool :=
  match current s poolsVersion maxAge now ≫= hs_Nodes with
  | None => (0%Z, false)
  | Some nodes =>
      if (unitGPUs <=? 0)%Z then (0%Z, false)
      else (foldl (λ units e,
              if IsAcceleratorResolved acceleratorName && negb (SameName e.1 acceleratorName) then units
              else foldl (λ units f, units ⊞ Z.quot f unitGPUs) units e.2) 0%Z (map_to_list nodes), true)
  end.

Definition Reading (s : HeadroomStore) (namespace acceleratorName : string) (poolsVersion maxAge now : Z)
  : Z * HeadroomState :=
  match current s poolsVersion maxAge now with
  | None => (0%Z, HeadroomUnknown)
  | Some h =>
      match hs_Free h !! namespace with
      | Some perType =>
          let free := match FindBudgetKey perType acceleratorName with
                      | Some key => default 0%Z (perType !! key)
                      | None => 0%Z
                      end in
          if (free <? 0)%Z then (0%Z, HeadroomUnbounded) else (free, HeadroomBounded)
      | None =>
          match hs_Cluster h with
          | None => (0%Z, HeadroomUnbounded)
          | Some cluster =>
              if negb (IsAcceleratorResolved acceleratorName) then (0%Z, HeadroomUnbounded)
              else match FindBudgetKey cluster acceleratorName with
                   | None => (0%Z, HeadroomBounded)
                   | Some key =>
                       let free := default 0%Z (cluster !! key) in
                       if negb (free =? MaxInt)%Z then (free, HeadroomBounded) else (0%Z, HeadroomUnbounded)
                   end
          end
      end
  end.

Definition Available_headroom (s : HeadroomStore) (namespace accelerator : string) (maxAge now : Z) : Z * bool :=
  let '(free, state) := Reading s namespace accelerator 0 maxAge now in
  (free, match state with HeadroomBounded => true | _ => false end).

(** ** The contention store *)
Notation ContentionStore := (option (gmap string (gset string) * Z)).

Definition PublishContention (s : ContentionStore) (limited : gmap string (gset string)) (now : Z)
  : ContentionStore := Some (limited, now).

Definition Contended (s : ContentionStore) (namespace accelerator : string) (maxAge now : Z) : bool :=
  if String.eqb accelerator "" then false
  else match s with
       | None => false
       | Some (limited, at_) =>
           if (0 <? maxAge)%Z && (maxAge <? now - at_)%Z then false
           else bool_decide (accelerator ∈ default ∅ (limited !! namespace))
       end.

(** ** What a pass publishes *)
Definition clusterFigure (h : passHeadroom) : option (gmap string Z) :=
  (λ b : gmap string Z, list_to_map ((λ key, (key, default 0%Z (b !! key))) <$> h_clusterKeys h)) <$> h_available h.

Definition free_value (available : option (gmap string Z)) (acc : string) (v : Z) : Z :=
  let '(cv, bounded) := clusterBudgetFor available acc in
  let bounded := bounded && negb (cv =? MaxInt)%Z in
  if (v <? 0)%Z then (if bounded then cv else HeadroomUnlimited)
  else if bounded then Z.min v cv else v.

Definition pass_publish (s : HeadroomStore) (h : passHeadroom) (now : Z) : HeadroomStore :=
  PublishBoundsOnNodes s ((λ perType : gmap string Z, map_imap (λ acc v, Some (free_value (h_available h) acc v)) perType)
       <$> h_byNamespace h)
    (clusterFigure h) (Holes (h_nodes h)) (h_version h) now.

(** A promise of GPUs, of one accelerator in one scope. *)
Definition withhold_one (scope : string) (h : option (gmap string Z) * gmap string (gmap string Z))
    (e : string * Z) : option (gmap string Z) * gmap string (gmap string Z) :=
  let '(acc, g) := e in
  if (g <=? 0)%Z then h
  else
    ((λ b, debitBudget b (budgetKey b acc) g) <$> h.1,
     if String.eqb scope "" then h.2
     else alter (λ b, debitBudget b (budgetKey b acc) g) scope h.2).

Definition sorted_entries {A} (m : gmap string A) : list (string * A) :=
  omap (λ k, (k,.) <$> m !! k) (sort_strings (map_to_list m).*1).

Definition withheld `{TaintMatcher} (h : passHeadroom) (promised : gmap string (gmap string Z)) : passHeadroom :=
  let '(available, byNS) :=
    foldl (λ acc s, foldl (withhold_one s.1) acc (sorted_entries s.2))
      (h_available h, h_byNamespace h) (sorted_entries promised) in
  let nodes := if bool_decide (promised = ∅) then h_nodes h
               else ReservePromised (Clone <$> h_nodes h) promised in
  MkHeadroom available byNS nodes (h_version h) (h_start h) (h_startByNS h) (h_spends h) (h_clusterKeys h).

Definition RepublishHeadroom `{TaintMatcher} (s : HeadroomStore) (pass : option passHeadroom) (planned : gset string)
    (promised : gmap string (gmap string Z)) (now : Z) : HeadroomStore * bool :=
  match pass with
  | None => (s, false)
  | Some h => (pass_publish s (withheld (passHeadroom_without h planned) promised) now, true)
  end.

(** ** What the constraints alone publish *)
Definition namespaceAllowance (constraints : list (option ResourceConstraints)) : gmap string (gmap string Z) :=
  let out := default ∅ (mergeNamespaceConstraints constraints (clusterProducts constraints)) in
  (λ perType : gmap string Z, (λ free, if (free <? 0)%Z then HeadroomUnlimited else free) <$> perType) <$> out.

Definition namespaceHeadroom (constraints : list (option ResourceConstraints)) : gmap string (gmap string Z) :=
  let cluster := mergeWithAllowanceKeys constraints [] in
  (λ perType : gmap string Z, map_imap (λ accType free, Some (
      let '(cv, bounded) := clusterBudgetFor cluster accType in
      if negb bounded || (cv =? MaxInt)%Z then free
      else if (free <? 0)%Z then cv else Z.min free cv)) perType) <$> namespaceAllowance constraints.

Definition PublishNamespaceHeadroomOnNodes (s : HeadroomStore) (constraints : list (option ResourceConstraints))
    (nodes : option NodeView) (now : Z) : HeadroomStore :=
  PublishBoundsOnNodes s (namespaceHeadroom constraints) (mergeConstraints constraints []) (Holes nodes)
    (poolsVersionOf constraints) now.

Definition PublishUnboundedHeadroom (s : HeadroomStore) (poolsVersion now : Z) : HeadroomStore :=
  PublishHeadroom s ∅ poolsVersion now.

(** ** Facts *)
Lemma current_spec s v maxAge now h :
  current s v maxAge now = Some h ↔ s = Some h ∧ (now - hs_At h ≤ maxAge)%Z ∧ (v ≤ hs_PoolsVersion h)%Z.
Proof.
  unfold current. destruct s as [h'|]; [|naive_solver].
  destruct (Z.ltb_spec maxAge (now - hs_At h')); cbn [orb]; [naive_solver lia|].
  destruct (Z.ltb_spec (hs_PoolsVersion h') v); naive_solver lia.
Qed.

(** The figure of a key that the cluster budget lists. *)
Lemma free_value_le b key cv v :
  b !! key = Some cv → (0 ≤ cv)%Z →
  let f := free_value (Some b) key v in
  (0 ≤ f → (0 ≤ v → f ≤ v) ∧ (cv ≠ MaxInt → f ≤ cv))%Z ∧ (f < 0 → v < 0 ∧ cv = MaxInt)%Z.
Proof.
  intros Hk Hcv. cbv zeta. unfold free_value, clusterBudgetFor. rewrite FindBudgetKey_exact, Hk by eauto. simpl.
  unfold HeadroomUnlimited. destruct (Z.eqb_spec cv MaxInt), (Z.ltb_spec v 0); simpl; split; intros; try split; lia.
Qed.

Lemma free_value_open key v :
  let f := free_value None key v in (0 ≤ f → f = v)%Z ∧ (f < 0 → v < 0)%Z.
Proof. cbv zeta. unfold free_value, HeadroomUnlimited. simpl. destruct (Z.ltb_spec v 0); lia. Qed.

(** What the headroom says of a namespace's accelerator, of the keys it is read from. *)
Lemma free_lookup h ns n key :
  h_byNamespace h !! ns = Some n →
  ((λ perType : gmap string Z, map_imap (λ acc v, Some (free_value (h_available h) acc v)) perType)
     <$> h_byNamespace h) !! ns = Some (map_imap (λ acc v, Some (free_value (h_available h) acc v)) n) ∧
  map_imap (λ acc v, Some (free_value (h_available h) acc v)) n !! key =
    free_value (h_available h) key <$> n !! key.
Proof. intros Hn. rewrite lookup_fmap, Hn. split; [done|]. rewrite map_lookup_imap. by destruct (n !! key). Qed.

Lemma FindBudgetKey_same {V W} (m : gmap string V) (m' : gmap string W) name :
  (∀ k, is_Some (m' !! k) ↔ is_Some (m !! k)) → FindBudgetKey m' name = FindBudgetKey m name.
Proof.
  intros Hk. unfold FindBudgetKey.
  rewrite (FindBudgetKey_keys_perm _ _ (map_to_list m').*1 (map_to_list m).*1).
  - unfold FindBudgetKey_keys. by rewrite (bool_decide_ext (is_Some (m' !! name)) (is_Some (m !! name))) by apply Hk.
  - apply NoDup_Permutation; [apply NoDup_fst_map_to_list..|]. intros k. by rewrite !elem_of_keys.
Qed.

(** What a namespace with an allowance reads. *)
Lemma reading_namespace s h ns n acc v maxAge now free :
  h_byNamespace h !! ns = Some n →
  Reading (pass_publish s h now) ns acc v maxAge now = (free, HeadroomBounded) →
  free = 0%Z ∨ ∃ key x, FindBudgetKey n acc = Some key ∧ n !! key = Some x ∧
                        free = free_value (h_available h) key x ∧ (0 ≤ free)%Z.
Proof.
  intros Hn. unfold Reading. destruct (current _ _ _ _) as [p|] eqn:Hc; [|done].
  apply current_spec in Hc as ([= <-] & _). cbn [hs_Free].
  rewrite (proj1 (free_lookup h ns n "" Hn)).
  rewrite (FindBudgetKey_same n) by (intros k; rewrite (proj2 (free_lookup h ns n k Hn)); apply fmap_is_Some).
  destruct (FindBudgetKey n acc) as [key|] eqn:Hk; [|intros [= <-]; by left].
  rewrite (proj2 (free_lookup h ns n key Hn)). destruct (FindBudgetKey_sound n acc key Hk) as [[x Hx] _].
  rewrite Hx. cbn [fmap option_fmap option_map from_option Datatypes.id]. destruct (Z.ltb_spec (free_value (h_available h) key x) 0); [done|].
  intros [= <-]. right. eauto 10.
Qed.

(** What a namespace without one reads: the cluster figure. *)
Lemma reading_cluster s h ns b acc v maxAge now free :
  h_byNamespace h !! ns = None → h_available h = Some b → IsAcceleratorResolved acc = true →
  Reading (pass_publish s h now) ns acc v maxAge now = (free, HeadroomBounded) →
  free = 0%Z ∨ ∃ key, key ∈ h_clusterKeys h ∧ free = default 0%Z (b !! key) ∧ free ≠ MaxInt.
Proof.
  intros Hn Hb Hr. unfold Reading. destruct (current _ _ _ _) as [p|] eqn:Hc; [|done].
  apply current_spec in Hc as ([= <-] & _). cbn [hs_Free hs_Cluster]. rewrite lookup_fmap, Hn. cbn.
  unfold clusterFigure. rewrite Hb. cbn. rewrite Hr. cbn [negb].
  set (m := list_to_map _). destruct (FindBudgetKey m acc) as [key|] eqn:Hk; [|intros [= <-]; by left].
  destruct (FindBudgetKey_sound m acc key Hk) as [[x Hx] _]. rewrite Hx. cbn.
  destruct (Z.eqb_spec x MaxInt); [done|]. intros [= <-]. right.
  apply elem_of_list_to_map_2 in Hx. apply list_elem_of_fmap in Hx as (k & [= -> ->] & Hin). by exists k.
Qed.

Lemma free_value_ns a key v : (0 ≤ v)%Z → (free_value a key v ≤ v)%Z.
Proof.
  intros Hv. unfold free_value. destruct (clusterBudgetFor a key) as [cv bounded].
  rewrite (proj2 (Z.ltb_ge _ _) Hv). destruct (bounded && _); lia.
Qed.

(** What a pass leaves of a key of the cluster budget. *)
Lemma cluster_left `{TaintMatcher} st st' work' view B b key F :
  pass_inv (p_available st) (p_byNS st) view B work' st' → pass_ready st →
  p_available st = Some b → b !! key = Some F →
  ∃ b' x, p_available st' = Some b' ∧ b' !! key = Some x ∧ (0 ≤ x)%Z ∧
    (F ≠ MaxInt → listed_by_all (p_byNS st) key →
     x ≠ MaxInt ∧ (x + sumZ (w_drawn (p_available st) (p_byNS st) key) work' ≤ F)%Z).
Proof.
  intros Hi Hst Hb HF. pose proof (pi_cluster _ _ _ _ _ _ Hi) as Hcl. rewrite Hb in Hcl |- *.
  destruct (p_available st') as [b'|]; [|done].
  destruct Hcl as (Hok & _ & Hk & Hleft). destruct (proj2 (Hk key) (mk_is_Some _ _ HF)) as [x Hx].
  exists b', x. split_and!; [done|done|by eapply ok_nonneg|]. intros HFm Hl.
  pose proof (pr_cluster _ Hst) as Ha. rewrite Hb in Ha. pose proof (ok_nonneg _ (proj1 Ha) _ _ HF).
  destruct (Hleft key F HF ltac:(apply isUnbounded_false; lia) Hl) as (y & Hy & Hu & Hle).
  simplify_eq. apply isUnbounded_false in Hu. split; [lia|done].
Qed.

(** ** Properties *)


(** A pass for two models over a budget of a hundred H100s. *)
Definition wide_start : pass_state := MkPass (Some {["H100" := 100%Z]}) ∅ None [].
Definition wide_pass : list modelWork * pass_state * bool := fairShareScaleUp (H0 := by_key) 10 60 two_work wide_start.
Definition wide_reading : Z * HeadroomState :=
  Reading (pass_publish None (pass_of wide_start wide_pass.1.2 1 ["H100"]) 0) "pool" "NVIDIA-H100-PCIe" 1 60 0.

Lemma wide_start_ready : pass_ready wide_start.
Proof.
  split; cbn [wide_start p_available p_byNS p_nodes]; [by apply single_budget_ok| |done].
  intros ns n Hn. by rewrite lookup_empty in Hn.
Qed.


(** A snapshot is never read past its age or its warm-pool figure: with a pool
    that charged version [v] and allows [maxAge], an older snapshot, or one built
    from an older figure, reads as unknown and counts no units on the nodes, and
    a fresh one is never unknown. *)
Theorem stale_headroom_unknown s ns acc unit v maxAge now h :
  s = Some h →
  if (maxAge <? now - hs_At h)%Z || (hs_PoolsVersion h <? v)%Z
  then Reading s ns acc v maxAge now = (0%Z, HeadroomUnknown) ∧ Units s acc unit v maxAge now = (0%Z, false)
  else (Reading s ns acc v maxAge now).2 ≠ HeadroomUnknown.
Proof.
  intros ->. unfold Reading, Units, current. destruct (_ || _); [done|].
  repeat case_match; simpl; done.
Qed.

Lemma stale_headroom_unknown_witness :
  Reading (pass_publish None (pass_of wide_start wide_start 1 ["H100"]) 0) "pool" "H100" 1 60 61 = (0%Z, HeadroomUnknown).
Proof.
  refine (proj1 (stale_headroom_unknown (pass_publish None (pass_of wide_start wide_start 1 ["H100"]) 0)
    "pool" "H100" 1 1 60 61 _ eq_refl)).
Defined.

(** ** The contention of a pass

    Each model's decisions publish their own contention snapshot, and a publish
    replaces the one before: the store ends with what the last model was denied. *)
Definition publish_all (s : ContentionStore) (snapshots : list (gmap string (gset string))) (now : Z)
  : ContentionStore := foldl (λ s c, PublishContention s c now) s snapshots.

Lemma publish_all_last s snapshots c now :
  publish_all s (snapshots ++ [c]) now = PublishContention s c now.
Proof. unfold publish_all. by rewrite foldl_app. Qed.

(** Two models of one namespace: the first wants H100s there are none of, the
    second A100s there are plenty of. *)
Definition one_variant (model acc : string) : ModelScalingRequest :=
  MkRequest model "ns"
    (MkNamed (Some (MkAnalyzerResult [MkVariantCapacity model "" (f_of 100) "" (f_of 10) f0] (f_of 40)))
       f1 (f_of 200) f0 None None f0 f0 f0 (f_of 200) f0 None true ∅ ∅ ∅)
    [MkReplicaState model 0 [] [] "" [] 1 "" None None]
    [MkMetadata model "" (f_of 10) acc] f1.
Definition scarce_h100 : ResourceConstraints :=
  MkConstraints "physical" {["H100" := MkPool 0 0; "A100" := MkPool 8 0]} None false 0 0 0 false false false false 0.
Definition denied_then_granted : greedy_result :=
  Greedy_Optimize (H0 := by_key) 20 20 None [one_variant "first" "H100"; one_variant "second" "A100"] [Some scarce_h100].

(** The first model's decision is limited by the H100s, and no warm pool of H100s
    reads contention after the pass; in the other order it does. *)
Theorem contention_keeps_last_model_only :
  ((λ d, (VariantName d, TargetReplicas d, WasLimited d, LimitedBy d)) <$> g_decisions denied_then_granted) =
    [("first", 0%Z, true, "physical"); ("second", 2%Z, false, "")] ∧
  Contended (publish_all None (g_contention denied_then_granted) 0) "ns" "H100" 60 0 = false ∧
  Contended (publish_all None (rev (g_contention denied_then_granted)) 0) "ns" "H100" 60 0 = true.
Proof. split_and!; vm_compute; reflexivity. Qed.
