(* ===== verification/Rescale.v ===== *)
(** * Rescale: redistributing GPUs between models

    The model of [rescale.go] of [internal/engines/allocation] and of the fair-share
    pass with rescale on ([GreedyByScoreOptimizer.Optimize], without cohort
    borrowing): the groups of models that compete for one accelerator under one
    budget, the split of the budget among them ([WaterFill]), the split of a model's
    share among its roles, and the whole replicas reclaimed or filled to get there.

    The pass state is that of [Greedy].  Go updates the budgets and the counter of
    free GPUs in place; here they are returned.

    The theorems are in [RescaleSafety] (one model), [RescalePass] (all groups) and
    [OptimizePass] (a whole pass). *)
From Stdlib Require Import ZArith Lia String Ascii SpecFloat Reals Lra.
From stdpp Require Import base gmap strings list sorting fin_maps.
From S2P Require Import Prelude Accelerator Budget NodeView GoFloat GoCmp Domain Signals WaterFill ScaleDown PairFit ScaleUp Attribution Greedy.
Open Scope Z_scope.

(** ** Flags and readings *)
Record RescaleFlags := MkFlags { rf_Cluster : bool; rf_ByNamespace : gmap string bool }.

Definition any_enabled (f : RescaleFlags) : bool := rf_Cluster f || negb (bool_decide (rf_ByNamespace f = ∅)).

Definition enabledForScope (f : RescaleFlags) (namespace : string) (namespaceScoped : bool) : bool :=
  if namespaceScoped then default false (rf_ByNamespace f !! namespace) else rf_Cluster f.

Definition hold_of (e : NamedAnalyzerResult) (role : string) : RoleHold := default (MkHold false false) (Holds e !! role).

Definition variantsOnType (vcs : list variantRecord) (accType : string) : list variantRecord :=
  filter (λ vc, SameName (rec_Acc vc) accType = true) vcs.

Definition modelRolesOnType (vcs : list variantRecord) (accType : string) : list string := rolesOf (variantsOnType vcs accType).

(** The accelerator all variants share; [None] for several or none. *)
Fixpoint single_acc (accType : string) (vcs : list variantRecord) : option string :=
  match vcs with
  | [] => if String.eqb accType "" then None else Some accType
  | vc :: vcs =>
      if String.eqb (rec_Acc vc) "" then single_acc accType vcs
      else if String.eqb accType "" then single_acc (rec_Acc vc) vcs
      else if SameName accType (rec_Acc vc) then single_acc accType vcs else None
  end.
Definition singleAccType (vcs : list variantRecord) : option string := single_acc "" vcs.

Section readings.
Context (stateMap : gmap string VariantReplicaState).

Definition current_gpus (v : string) : Z := st_CurrentReplicas (state_of stateMap v) ⊠ gpusPerReplicaFromState stateMap v.

Definition positive_bound (b : option Z) : option Z := match b with Some m => if 0 <? m then Some m else None | None => None end.

Definition min_gpus (v : string) : Z :=
  match positive_bound (st_MinReplicas (state_of stateMap v)) with
  | Some m => m ⊠ gpusPerReplicaFromState stateMap v
  | None => 0
  end.

Definition roleCurrentGPUs (records : list variantRecord) (accType role : string) : Z :=
  foldl (λ t vc, t ⊞ current_gpus (rec_Name vc)) 0 (variantsForRole (variantsOnType records accType) role).

Definition roleFloorGPUs (records : list variantRecord) (accType role : string) : Z :=
  foldl (λ t vc, t ⊞ min_gpus (rec_Name vc)) 0 (variantsForRole (variantsOnType records accType) role).

(** The GPUs the maxima allow; 0 when some variant has none. *)
Fixpoint ceiling_from (variants : list variantRecord) (ceiling : Z) : Z :=
  match variants with
  | [] => ceiling
  | vc :: variants =>
      match positive_bound (st_MaxReplicas (state_of stateMap (rec_Name vc))) with
      | Some m => ceiling_from variants (ceiling ⊞ (m ⊠ gpusPerReplicaFromState stateMap (rec_Name vc)))
      | None => 0
      end
  end.
Definition roleCeilingGPUs (variants : list variantRecord) : Z := ceiling_from variants 0.

(** The fewest GPUs a replica of the role takes; 0 when none can be sized. *)
Definition step_gpus (least : Z) (vc : variantRecord) : Z :=
  let g := gpusPerReplicaFromState stateMap (rec_Name vc) in
  if flt f0 (rec_PerReplicaCapacity vc) && (0 <? g) && ((least =? 0) || (g <? least)) then g else least.
Definition roleReplicaStepGPUs (variants : list variantRecord) (role : string) : Z :=
  foldl step_gpus 0 (variantsForRole variants role).

Fixpoint uniform_from (variants : list variantRecord) (size : Z) : bool :=
  match variants with
  | [] => true
  | vc :: variants =>
      let g := gpusPerReplicaFromState stateMap (rec_Name vc) in
      if fle (rec_PerReplicaCapacity vc) f0 || (g <=? 0) then uniform_from variants size
      else if negb (size =? 0) && negb (g =? size) then false
      else uniform_from variants g
  end.
Definition uniformReplicaGPUs (variants : list variantRecord) (role : string) : bool :=
  uniform_from (variantsForRole variants role) 0.
End readings.

Definition ceilToReplica (gpus g : Z) : Z := if g <=? 0 then gpus else Z.quot ((gpus ⊞ g) ⊟ 1) g ⊠ g.

(** A model that may move neither way in some role is frozen. *)
Definition pinnedModel (nr : NamedAnalyzerResult) : bool :=
  existsb (λ p, NoScaleUp p.2 && NoScaleDown p.2) (map_to_list (Holds nr)).

Definition rescaleRoleDemand (nr : NamedAnalyzerResult) (role : string) : float64 :=
  fmax (demandForRoleOrModel nr role) (OtherFrameDemand nr role f1).

Definition modelWeightDemand (nr : NamedAnalyzerResult) (records : list variantRecord) (accType : string) : float64 :=
  foldl (λ t role, fadd t (rescaleRoleDemand nr role)) f0 (modelRolesOnType records accType).

Definition modelCurrentGPUs (req : ModelScalingRequest) (accType : string) : Z :=
  match recordsForRequest req with
  | None => 0
  | Some records =>
      let stateMap := buildStateMap (VariantStates req) in
      foldl (λ t vc, if SameName (rec_Acc vc) accType then t ⊞ current_gpus stateMap (rec_Name vc) else t) 0 records
  end.

Section rescale.
Context `{GoSort} `{MapRange} `{TaintMatcher} {C : IntConv}.

Definition bestVariantForRole (records : list variantRecord) (stateMap : gmap string VariantReplicaState)
    (accType role : string) : option (variantRecord * Z) :=
  (λ vc, (vc, gpusPerReplicaFromState stateMap (rec_Name vc))) <$>
    head (filter (λ vc, hasCapacityReading (rec_PerReplicaCapacity vc) = true)
            (sortByCostEfficiencyAsc (variantsForRole (variantsOnType records accType) role))).

Definition roleDemandGPUs (nr : NamedAnalyzerResult) (records : list variantRecord)
    (stateMap : gmap string VariantReplicaState) (accType role : string) : Z :=
  match bestVariantForRole records stateMap accType role with
  | None => 0
  | Some (best, bestGPUs) => replicasForDemand (rescaleRoleDemand nr role) (rec_PerReplicaCapacity best) ⊠ bestGPUs
  end.

(** ** The inputs of a group *)

(** Floors, maxima, and whether every variant has one. *)
Definition bounds_step (stateMap : gmap string VariantReplicaState) (accType : string) (acc : Z * Z * bool)
    (vc : variantRecord) : Z * Z * bool :=
  let '(floorGPUs, maxGPUs, maxBounded) := acc in
  if negb (SameName (rec_Acc vc) accType) then acc
  else
    let g := gpusPerReplicaFromState stateMap (rec_Name vc) in
    (floorGPUs ⊞ min_gpus stateMap (rec_Name vc),
     match positive_bound (st_MaxReplicas (state_of stateMap (rec_Name vc))) with Some m => maxGPUs ⊞ (m ⊠ g) | None => maxGPUs end,
     match positive_bound (st_MaxReplicas (state_of stateMap (rec_Name vc))) with Some _ => maxBounded | None => false end).

Definition held_floor (nr : NamedAnalyzerResult) (records : list variantRecord)
    (stateMap : gmap string VariantReplicaState) (accType role : string) : Z :=
  let rf := roleFloorGPUs stateMap records accType role in
  if NoScaleDown (hold_of nr role) then Z.max rf (roleCurrentGPUs stateMap records accType role) else rf.

Definition capped_demand (nr : NamedAnalyzerResult) (records : list variantRecord)
    (stateMap : gmap string VariantReplicaState) (accType role : string) : Z :=
  let d := roleDemandGPUs nr records stateMap accType role in
  let c := roleCeilingGPUs stateMap (variantsForRole (variantsOnType records accType) role) in
  if 0 <? c then Z.min d c else d.

(** One model's input, and the GPUs it can take. *)
Definition rescale_input (accType : string) (budget : Z) (req : ModelScalingRequest) : option (rescaleInput * Z) :=
  let nr := CompositeSignal req in
  match Result nr with
  | None => None
  | Some r =>
      let records := default [] (buildVariantRecords req (Some r)) in
      let stateMap := buildStateMap (VariantStates req) in
      let roles := modelRolesOnType records accType in
      let '(floorGPUs, maxGPUs, maxBounded) := foldl (bounds_step stateMap accType) (0, 0, true) records in
      let floorGPUs := Z.max floorGPUs (foldl (λ t role, t ⊞ held_floor nr records stateMap accType role) 0 roles) in
      let capGPUs := foldl (λ t role, t ⊞ capped_demand nr records stateMap accType role) 0 roles in
      let capGPUs := if maxBounded then Z.min capGPUs maxGPUs else capGPUs in
      let wantGPUs := Z.max capGPUs floorGPUs in
      let capGPUs := if maxBounded then capGPUs else Z.min capGPUs budget in
      let capGPUs := Z.max capGPUs floorGPUs in
      let '(floorGPUs, capGPUs, wantGPUs) :=
        if pinnedModel nr then
          let cur := foldl (λ t role, t ⊞ roleCurrentGPUs stateMap records accType role) 0 roles in (cur, cur, cur)
        else (floorGPUs, capGPUs, wantGPUs) in
      Some (MkInput (modelKey req) (Priority req) (modelWeightDemand nr records accType) floorGPUs capGPUs, wantGPUs)
  end.

Definition rescaleInputsForGroup (reqs : list ModelScalingRequest) (accType : string) (budget : Z) : list rescaleInput * Z :=
  let l := omap (rescale_input accType budget) reqs in (l.*1, foldl (λ s p, s ⊞ p.2) 0 l).

(** ** Whole replicas *)

(** [None] in the maximum is no bound.  Each turn spends at least a GPU. *)
Fixpoint fill_replicas (fuel : nat) (g : Z) (bound : option Z) (wantGPUs target spent : Z) : Z * Z :=
  if negb (g <=? wantGPUs ⊟ spent) then (target, spent)
  else if match bound with Some m => m <=? target | None => false end then (target, spent)
  else match fuel with
       | O => (target, spent)
       | S fuel => fill_replicas fuel g bound wantGPUs (target ⊞ 1) (spent ⊞ g)
       end.

Definition fill_variant (stateMap : gmap string VariantReplicaState) (wantGPUs : Z) (acc : gmap string Z * Z)
    (vc : variantRecord) : gmap string Z * Z :=
  let '(targets, spent) := acc in
  let v := rec_Name vc in
  let g := gpusPerReplicaFromState stateMap v in
  if (wantGPUs ⊟ spent <=? 0) || fle (rec_PerReplicaCapacity vc) f0 || (g <=? 0) then acc
  else
    let '(t, spent') := fill_replicas (Z.to_nat (wantGPUs ⊟ spent)) g
                          (positive_bound (st_MaxReplicas (state_of stateMap v))) wantGPUs (target_of targets v) spent in
    (if spent' =? spent then targets else <[v := t]> targets, spent').

Definition fillRole (variants : list variantRecord) (role : string) (stateMap : gmap string VariantReplicaState)
    (targets : gmap string Z) (wantGPUs : Z) : gmap string Z * Z :=
  foldl (fill_variant stateMap wantGPUs) (targets, 0) (sortByCostEfficiencyAsc (variantsForRole variants role)).

Definition reclaimRole (e : NamedAnalyzerResult) (variants : list variantRecord) (role : string)
    (stateMap : gmap string VariantReplicaState) (targets : gmap string Z) (deltaGPUs : Z) : gmap string Z * Z :=
  let gpus vc := gpusPerReplicaFromState stateMap (rec_Name vc) in
  let '(targets, remaining) :=
    scaleDownVariantSet
      (λ remaining vc, if (remaining <=? 0) || (gpus vc <=? 0) then 0 else Z.quot remaining (gpus vc))
      (λ remaining vc n, remaining ⊟ (n ⊠ gpus vc))
      stateMap (sortVariantsForScaleDown e (variantsForRole variants role)) targets deltaGPUs in
  (targets, deltaGPUs ⊟ remaining).

(** The first candidate the fill would have grown next. *)
Definition markRoleGPULimited (variants : list variantRecord) (role : string) (stateMap : gmap string VariantReplicaState)
    (targets : gmap string Z) (limited : gpuLimitTracker) : gpuLimitTracker :=
  match filter (λ vc, negb (fle (rec_PerReplicaCapacity vc) f0) &&
                      match positive_bound (st_MaxReplicas (state_of stateMap (rec_Name vc))) with
                      | Some m => negb (m <=? target_of targets (rec_Name vc))
                      | None => true
                      end = true)
          (sortByCostEfficiencyAsc (variantsForRole variants role)) with
  | vc :: _ => mark limited (rec_Name vc)
  | [] => limited
  end.

(** Lowers each growing share to whole replicas and spends what that leaves: the
    trial targets, the shares, the cuts and the leftover. *)
Definition round_cut (records : list variantRecord) (stateMap : gmap string VariantReplicaState) (cur : gmap string Z)
    (acc : gmap string Z * gmap string Z * gmap string Z * Z) (role : string) : gmap string Z * gmap string Z * gmap string Z * Z :=
  let '(trial, tgt, cut, leftover) := acc in
  let want := target_of tgt role ⊟ target_of cur role in
  if want <=? 0 then acc
  else
    let '(trial, placed) := fillRole records role stateMap trial want in
    let c := want ⊟ placed in
    (trial, <[role := target_of tgt role ⊟ c]> tgt, <[role := c]> cut, leftover ⊞ c).

Definition round_spend (records : list variantRecord) (stateMap : gmap string VariantReplicaState) (dem cut : gmap string Z)
    (acc : gmap string Z * gmap string Z * Z) (role : string) : gmap string Z * gmap string Z * Z :=
  let '(trial, tgt, leftover) := acc in
  if leftover <=? 0 then acc
  else
    let limit := Z.max (target_of dem role ⊟ target_of tgt role)
                   (ceilToReplica (target_of cut role) (roleReplicaStepGPUs stateMap records role)) in
    let '(trial, extra) := fillRole records role stateMap trial (Z.min leftover limit) in
    (trial, <[role := target_of tgt role ⊞ extra]> tgt, leftover ⊟ extra).

Definition roundFillsToReplicas (records : list variantRecord) (stateMap : gmap string VariantReplicaState) (roles : list string)
    (tgt cur dem targets : gmap string Z) : gmap string Z :=
  let '(trial, tgt, cut, leftover) := foldl (round_cut records stateMap cur) (targets, tgt, ∅, 0) roles in
  let order := sort_stable (λ a b, target_of cut b <=? target_of cut a) roles in
  (foldl (round_spend records stateMap dem cut) (trial, tgt, leftover) order).1.2.

(** The cut of a role that shrinks, and what it can give of it. *)
Definition reclaim_cut (e : NamedAnalyzerResult) (records : list variantRecord) (stateMap : gmap string VariantReplicaState)
    (tgt cur targets : gmap string Z) (acc : gmap string Z * Z) (role : string) : gmap string Z * Z :=
  let '(cut, total) := acc in
  if (target_of tgt role <? target_of cur role) && negb (NoScaleDown (hold_of e role)) then
    let c := target_of cur role ⊟ target_of tgt role in
    let keep := if 0 <? target_of tgt role then Z.max (roleReplicaStepGPUs stateMap records role) 1 else 0 in
    let can := (reclaimRole e records role stateMap targets (Z.max (target_of cur role ⊟ keep) 0)).2 in
    (<[role := c]> cut, total ⊞ Z.min c can)
  else acc.

Definition reclaim_own (e : NamedAnalyzerResult) (records : list variantRecord) (stateMap : gmap string VariantReplicaState)
    (cut : gmap string Z) (acc : gmap string Z * gmap string Z * Z) (role : string) : gmap string Z * gmap string Z * Z :=
  let '(targets, shed, total) := acc in
  if 0 <? target_of cut role then
    let '(targets, n) := reclaimRole e records role stateMap targets (target_of cut role) in
    (targets, <[role := n]> shed, total ⊟ n)
  else acc.

Definition reclaim_rest (e : NamedAnalyzerResult) (records : list variantRecord) (stateMap : gmap string VariantReplicaState)
    (cut : gmap string Z) (acc : gmap string Z * gmap string Z * Z) (role : string) : gmap string Z * gmap string Z * Z :=
  let '(targets, shed, total) := acc in
  let left := target_of cut role ⊟ target_of shed role in
  if (total <=? 0) || (left <=? 0) then acc
  else
    let limit := ceilToReplica left (roleReplicaStepGPUs stateMap records role) in
    let '(targets, n) := reclaimRole e records role stateMap targets (Z.min total limit) in
    (targets, <[role := target_of shed role ⊞ n]> shed, total ⊟ n).

Definition reclaimWholeReplicas (e : NamedAnalyzerResult) (records : list variantRecord)
    (stateMap : gmap string VariantReplicaState) (roles : list string) (tgt cur targets : gmap string Z) : gmap string Z :=
  let '(cut, total) := foldl (reclaim_cut e records stateMap tgt cur targets) (∅, 0) roles in
  if total =? 0 then targets
  else
    let '(targets, shed, total) := foldl (reclaim_own e records stateMap cut) (targets, ∅, total) roles in
    if existsb (λ role, (0 <? target_of cut role) && negb (uniformReplicaGPUs stateMap records role)) roles then targets
    else
      let order := sort_stable (λ a b, target_of cut b ⊟ target_of shed b <=? target_of cut a ⊟ target_of shed a) roles in
      (foldl (reclaim_rest e records stateMap cut) (targets, shed, total) order).1.1.

(** The most of the model's target each role may be given. *)
Definition share_ceiling (records : list variantRecord) (stateMap : gmap string VariantReplicaState) (accType : string)
    (byDemand : bool) (dem uncapped out : gmap string Z) (role : string) : gmap string Z :=
  let c := roleCeilingGPUs stateMap (variantsForRole (variantsOnType records accType) role) in
  let out := if 0 <? c then <[role := c]> out else out in
  if byDemand then
    let bound := Z.max (target_of dem role) (target_of uncapped role) in
    match out !! role with
    | Some c => if bound <? c then <[role := bound]> out else out
    | None => <[role := bound]> out
    end
  else out.

Definition roleShareCeilings (records : list variantRecord) (stateMap : gmap string VariantReplicaState) (accType : string)
    (roles : list string) (dem uncapped : gmap string Z) : gmap string Z :=
  let byDemand := existsb (λ role, 0 <? target_of dem role) roles in
  foldl (share_ceiling records stateMap accType byDemand dem uncapped) ∅ roles.

(** ** Nodes *)

(** The variant of the [i]-th replica a role's fill added. *)
Fixpoint growth_at (growth : list (string * Z)) (i : Z) : string :=
  match growth with
  | [] => ""
  | (v, n) :: growth => if i <? n then v else growth_at growth (i ⊟ n)
  end.

(** Places replicas until every role has its own or one does not place: the view, the
    replicas placed by role and by variant, and the variant that did not, or "". *)
Fixpoint place_grown (fuel : nat) (filling : list string) (want : gmap string Z) (grown : gmap string (list (string * Z)))
    (rep : string → replicaFit) (trial : NodeView) (placed placedVariant : gmap string Z)
  : NodeView * gmap string Z * gmap string Z * string :=
  let next := next_role filling want placed in
  if String.eqb next "" then (trial, placed, placedVariant, "")
  else match fuel with
       | O => (trial, placed, placedVariant, "")
       | S fuel =>
           let v := growth_at (default [] (grown !! next)) (count_of placed next) in
           match place trial (rep v) with
           | (true, trial) =>
               place_grown fuel filling want grown rep trial (<[next := count_of placed next ⊞ 1]> placed)
                 (<[v := count_of placedVariant v ⊞ 1]> placedVariant)
           | (false, _) => (trial, placed, placedVariant, v)
           end
       end.

(** What did not place is taken back off the targets and refunded. *)
Definition take_back_growth (stateMap : gmap string VariantReplicaState) (placedVariant : gmap string Z)
    (acc : gmap string Z * Z) (g : string * Z) : gmap string Z * Z :=
  let '(targets, refund) := acc in
  let back := g.2 ⊟ count_of placedVariant g.1 in
  if 0 <? back
  then (<[g.1 := target_of targets g.1 ⊟ back]> targets, refund ⊞ (back ⊠ gpusPerReplicaFromState stateMap g.1))
  else acc.

Definition want_of (grown : gmap string (list (string * Z))) (role : string) : Z :=
  foldl (λ t g, t ⊞ g.2) 0 (default [] (grown !! role)).

(** The view, the targets, the refund and the tracker after it. *)
Definition fitRescaleToNodes (nodes : option NodeView) (req : ModelScalingRequest) (records : list variantRecord)
    (stateMap : gmap string VariantReplicaState) (targets : gmap string Z) (roles : list string)
    (grown : gmap string (list (string * Z))) (limited : gpuLimitTracker)
  : option NodeView * gmap string Z * Z * gpuLimitTracker :=
  match nodes with
  | None => (nodes, targets, 0, limited)
  | Some view =>
      if bool_decide (grown = ∅) then (nodes, targets, 0, limited)
      else
        let filling := filter (λ role, 0 < want_of grown role) roles in
        let want := list_to_map ((λ role, (role, want_of grown role)) <$> roles) in
        let rep v := nf_replica view (req_Namespace req) records stateMap v in
        let fuel := Z.to_nat (sumZ (want_of grown) filling) in
        let '(trial, placed, placedVariant, short) := place_grown fuel filling want grown rep (Clone view) ∅ ∅ in
        let limited := if String.eqb short "" then limited else markNodeFit limited short in
        let half := (1 <? length filling)%nat && existsb (λ role, count_of placed role =? 0) filling in
        let placedVariant := if half then ∅ else placedVariant in
        let view := if half then view
                    else setOwner (adopt (setOwner view (modelKey req)) trial) (owner view) in
        let '(targets, refund) :=
          foldl (take_back_growth stateMap placedVariant) (targets, 0)
            (mjoin ((λ role, default [] (grown !! role)) <$> filling)) in
        (Some view, targets, refund, limited)
  end.

(** ** One model *)
Record fill_state := MkFill {
  fs_targets : gmap string Z; fs_free : Z; fs_limited : gpuLimitTracker; fs_grown : gmap string (list (string * Z)) }.

(** The fill of one role. *)
Definition fill_step (e : NamedAnalyzerResult) (records : list variantRecord) (stateMap : gmap string VariantReplicaState)
    (tgt cur : gmap string Z) (s : fill_state) (role : string) : fill_state :=
  let rt := target_of tgt role in
  let rc := target_of cur role in
  if (rt <=? rc) || NoScaleUp (hold_of e role) then s
  else
    let want := rt ⊟ rc in
    let gpuCapped := fs_free s <? want in
    let want := if gpuCapped then fs_free s else want in
    let '(targets, spent) := fillRole records role stateMap (fs_targets s) want in
    let limited := if gpuCapped then markRoleGPULimited records role stateMap targets (fs_limited s) else fs_limited s in
    let growth := omap (λ vc, let n := target_of targets (rec_Name vc) ⊟ target_of (fs_targets s) (rec_Name vc) in
                              if 0 <? n then Some (rec_Name vc, n) else None)
                    (sortByCostEfficiencyAsc (variantsForRole records role)) in
    MkFill targets (fs_free s ⊟ spent) limited
      (match growth with [] => fs_grown s | _ => <[role := growth]> (fs_grown s) end).

(** What the roles have, ask for and keep. *)
Definition role_map (f : string → Z) (roles : list string) : gmap string Z := foldl (λ m r, <[r := f r]> m) ∅ roles.

Definition DecisionReasonRescale : string := "rescale".

Definition tag_reclaim (d : VariantDecision) : VariantDecision :=
  match dec_Action d with
  | ActionScaleDown =>
      SetDecisionReason d ActionScaleDown DecisionReasonRescale (DecisionReasonRescale +:+ " (optimizer: rescale, reclaim)")
  | _ => d
  end.

(** The targets a model is driven to, the free GPUs and the view left, the tracker. *)
Definition rescale_targets (nodes : option NodeView) (req : ModelScalingRequest) (records : list variantRecord)
    (accType : string) (targetGPUs freeThisCycle : Z) : option NodeView * gmap string Z * Z * gpuLimitTracker :=
  let e := CompositeSignal req in
  let stateMap := buildStateMap (VariantStates req) in
  let targets := initTargets (VariantStates req) in
  let records := variantsOnType records accType in
  let roles := modelRolesOnType records accType in
  let cur := role_map (roleCurrentGPUs stateMap records accType) roles in
  let dem := role_map (roleDemandGPUs e records stateMap accType) roles in
  let floor := role_map (held_floor e records stateMap accType) roles in
  let '(tgt, targets) :=
    if pinnedModel e then (cur, targets)
    else
      let uncapped := distributeGPUsByWeight targetGPUs roles dem cur floor None in
      let ceil := roleShareCeilings records stateMap accType roles dem uncapped in
      let tgt := distributeGPUsByWeight targetGPUs roles dem cur floor (Some ceil) in
      let tgt := roundFillsToReplicas records stateMap roles tgt cur dem targets in
      (tgt, reclaimWholeReplicas e records stateMap roles tgt cur targets) in
  let s := foldl (fill_step e records stateMap tgt cur) (MkFill targets freeThisCycle (Some ∅) ∅) roles in
  let '(nodes, targets, refund, limited) :=
    fitRescaleToNodes nodes req records stateMap (fs_targets s) roles (fs_grown s) (fs_limited s) in
  (nodes, targets, fs_free s ⊞ refund, limited).

(** The decisions, the contention snapshot they publish, the free GPUs and the view. *)
Definition rescaleModelDecisions (nodes : option NodeView) (constraints : list (option ResourceConstraints)) (accType : string)
    (req : ModelScalingRequest) (targetGPUs freeThisCycle : Z)
  : list VariantDecision * option (gmap string (gset string)) * Z * option NodeView :=
  match Result (CompositeSignal req) with
  | None => ([], None, freeThisCycle, nodes)
  | Some r =>
      let all := default [] (buildVariantRecords req (Some r)) in
      let '(nodes, targets, free, limited) := rescale_targets nodes req all accType targetGPUs freeThisCycle in
      let '(decisions, contention) :=
        applyGPULimitAttribution
          (buildDecisionsWithOptimizer req (buildStateMap (VariantStates req)) (buildCapacityMap all) targets "rescale")
          limited constraints in
      (tag_reclaim <$> decisions, Some contention, free, nodes)
  end.

(** ** The groups *)

(** The group of a request: the budget's spelling of its accelerator, and its scope. *)
Definition group_key (flags : RescaleFlags) (st : pass_state) (req : ModelScalingRequest) : option (string * string) :=
  match recordsForRequest req with
  | None => None
  | Some records =>
      match singleAccType records with
      | None => None
      | Some accType =>
          if existsb (λ vc, String.eqb (rec_Acc vc) "") records then None
          else
            let ns := p_byNS st !! req_Namespace req in
            if negb (enabledForScope flags (req_Namespace req) (bool_decide (is_Some ns))) then None
            else Some (match ns with
                       | Some b => (budgetKey b accType, req_Namespace req)
                       | None => (default accType ((λ b, budgetKey b accType) <$> p_available st), "")
                       end)
      end
  end.

Definition key_before (a b : string * string) : bool :=
  match cmp_Or (String.compare a.1 b.1) (String.compare a.2 b.2) with Gt => false | _ => true end.

(** The groups in order, each with its requests in order. *)
Definition rescale_groups (flags : RescaleFlags) (st : pass_state) (requests : list ModelScalingRequest)
  : list ((string * string) * list ModelScalingRequest) :=
  (λ k, (k, filter (λ req, group_key flags st req = Some k) requests)) <$>
    sort_stable key_before (remove_dups (omap (group_key flags st) requests)).

Definition request_before (a b : ModelScalingRequest) : bool :=
  match cmp_Or (cmp_float (Priority b) (Priority a)) (String.compare (modelKey a) (modelKey b)) with Gt => false | _ => true end.

(** What a pass of rescale has so far. *)
Record rescale_state := MkRescale {
  rs_pass : pass_state; rs_decisions : list VariantDecision; rs_handled : gset string;
  rs_contention : list (gmap string (gset string)) }.

(** One model of a group, with the GPUs the group may still hand out. *)
Definition rescale_model (constraints : list (option ResourceConstraints)) (k : string * string) (clusterKey : string)
    (targets : gmap string Z) (acc : rescale_state * Z) (req : ModelScalingRequest) : rescale_state * Z :=
  let '(rs, free) := acc in
  let st := rs_pass rs in
  let '(ds, contention, free', nodes) :=
    rescaleModelDecisions (p_nodes st) constraints k.1 req (target_of targets (modelKey req)) free in
  let took := free ⊟ free' in
  let spends :=
    if 0 <? took then
      if String.eqb k.2 "" then [MkSpend (modelKey req) "" k.1 took]
      else [MkSpend (modelKey req) k.2 k.1 took; MkSpend (modelKey req) "" clusterKey took]
    else [] in
  (MkRescale (MkPass (p_available st) (p_byNS st) nodes (p_spends st ++ spends)) (rs_decisions rs ++ ds)
     ({[modelKey req]} ∪ rs_handled rs) (rs_contention rs ++ option_list contention), free').

(** The debit of what a group handed out. *)
Definition debit_group (k : string * string) (clusterKey : string) (consumed : Z) (st : pass_state) : pass_state :=
  if 0 <? consumed then
    if String.eqb k.2 "" then
      MkPass ((λ b, debitBudget b k.1 consumed) <$> p_available st) (p_byNS st) (p_nodes st) (p_spends st)
    else
      MkPass ((λ b, debitBudget b clusterKey consumed) <$> p_available st)
        (alter (λ b, debitBudget b k.1 consumed) k.2 (p_byNS st)) (p_nodes st) (p_spends st)
  else st.

Definition rescale_group (constraints : list (option ResourceConstraints)) (rs : rescale_state)
    (g : (string * string) * list ModelScalingRequest) : rescale_state :=
  let '(k, reqs) := g in
  let st := rs_pass rs in
  let free := if String.eqb k.2 "" then budgetOf (p_available st) k.1
              else default 0 (default ∅ (p_byNS st !! k.2) !! k.1) in
  if (free <? 0) || (free =? MaxInt) then rs
  else
    let budget := free ⊞ foldl (λ t req, t ⊞ modelCurrentGPUs req k.1) 0 reqs in
    let '(inputs, sumWantGPUs) := rescaleInputsForGroup reqs k.1 budget in
    if sumWantGPUs <=? budget then rs
    else
      let targets := (computeRescaleTargets inputs budget).1 in
      let clusterKey := default k.1 ((λ b, budgetKey b k.1) <$> p_available st) in
      let fillable :=
        if String.eqb k.2 "" then free
        else let '(cur, ok) := clusterBudgetFor (p_available st) k.1 in
             if ok && negb (cur =? MaxInt) then Z.min free cur else free in
      let '(rs, freeThisCycle) :=
        foldl (rescale_model constraints k clusterKey targets) (rs, fillable) (sort_stable request_before reqs) in
      MkRescale (debit_group k clusterKey (fillable ⊟ freeThisCycle) (rs_pass rs)) (rs_decisions rs) (rs_handled rs)
        (rs_contention rs).

Definition applyRescale (flags : RescaleFlags) (requests : list ModelScalingRequest)
    (constraints : list (option ResourceConstraints)) (st : pass_state) : rescale_state :=
  foldl (rescale_group constraints) (MkRescale st [] ∅ []) (rescale_groups flags st requests).

(** ** The whole pass *)
Definition Optimize (flags : RescaleFlags) (fuel inner : nat) (nodes : option NodeView)
    (requests : list ModelScalingRequest) (constraints : list (option ResourceConstraints)) : greedy_result :=
  let declared := declaredAccelerators requests in
  let start := pass_start constraints declared nodes in
  let rs := if any_enabled flags then applyRescale flags requests constraints start else MkRescale start [] ∅ [] in
  let '(scaleUpWork, otherRequests) :=
    foldl split_request ([], []) (filter (λ req, modelKey req ∉ rs_handled rs) requests) in
  let '(work, st, ended) := fairShareScaleUp fuel inner scaleUpWork (rs_pass rs) in
  let ups := scale_up_decisions constraints <$> work in
  let pass := match constraints with
              | [] => None
              | _ => Some (pass_of start st (poolsVersionOf constraints)
                             (default [] ((λ m : gmap string Z, (map_to_list m).*1) <$>
                                            mergeConstraints constraints declared)))
              end in
  MkGreedy (mjoin ups.*1 ++ mjoin (other_decisions <$> otherRequests) ++ rs_decisions rs) pass
    (rs_contention rs ++ ups.*2) ended.
End rescale.
