(* ===== verification/RescaleFill.v ===== *)
(** * Rescale: whole replicas filled and reclaimed

    The facts about the fills and the reclaims of [Rescale]: a role is filled as far
    as its GPUs and its maxima go and never further; a reclaim never raises a target
    nor takes one below its minimum; a role its signal holds is not moved the way it
    is held; what the roles were filled by is what their growth lists say. *)
From Stdlib Require Import ZArith Lia String Ascii SpecFloat.
From stdpp Require Import base gmap strings list sorting fin_maps.
From S2P Require Import Prelude Accelerator Budget NodeView GoFloat GoCmp Domain Signals WaterFill ScaleDown PairFit ScaleUp Attribution Greedy Rescale.
Open Scope Z_scope.

(** ** Filling *)

(** A loop that fills takes replicas while one fits and the maximum allows. *)
Lemma fill_replicas_spec fuel g bound want t s :
  1 ≤ g → 0 ≤ s ≤ want → want ≤ int_max → 0 ≤ t → t + (want - s) ≤ int_max → want - s ≤ Z.of_nat fuel →
  let '(t', s') := fill_replicas fuel g bound want t s in
  ∃ n, 0 ≤ n ∧ t' = t + n ∧ s' = s + n * g ∧ s' ≤ want ∧
    (∀ m, bound = Some m → t' ≤ Z.max t m) ∧ (want - s' < g ∨ ∃ m, bound = Some m ∧ m ≤ t').
Proof.
  intros Hg. revert t s. induction fuel as [|fuel IH]; intros t s Hs Hw Ht Hi Hf; cbn [fill_replicas];
    rewrite (wrap_id (want - s)) by int_lia; destruct (Z.leb_spec g (want - s)) as [Hfit|Hno]; cbn [negb]; try lia;
    try (exists 0; split_and!; lia).
  destruct (match bound with Some m => m <=? t | None => false end) eqn:Hb.
  { destruct bound as [m|]; [|done]. exists 0. split_and!; try lia. right. exists m. split; [done|lia]. }
  rewrite (wrap_id (t + 1)), (wrap_id (s + g)) by int_lia.
  specialize (IH (t + 1) (s + g) ltac:(lia) Hw ltac:(lia) ltac:(lia) ltac:(lia)).
  destruct (fill_replicas fuel g bound want (t + 1) (s + g)) as [t' s'].
  destruct IH as (n & Hn & -> & -> & Hle & Hm & Hmax). exists (n + 1). split_and!; try lia; [|done].
  intros m ->. specialize (Hm m eq_refl). lia.
Qed.

Section model.
Context `{GoSort} `{MapRange} `{TaintMatcher} {C : IntConv}.
Context (records : list variantRecord) (stateMap : gmap string VariantReplicaState).
Hypothesis Hnames : NoDup (rec_Name <$> records).
#[local] Notation gpus := (gpusPerReplicaFromState stateMap).

(** The targets rise from [t0] to [t], only where [sel] says and within the maxima,
    by replicas of [spent] GPUs. *)
Record raised (sel : string → Prop) (t0 t : gmap string Z) (spent : Z) : Prop := {
  ra_le : ∀ v, target_of t0 v ≤ target_of t v;
  ra_out : ∀ v, ¬ sel v → target_of t v = target_of t0 v;
  ra_max : ∀ v m, max_bound stateMap v = Some m → target_of t v ≤ Z.max (target_of t0 v) m;
  ra_spent : grown records t0 gpus t = spent }.

Lemma raised_refl sel t : raised sel t t 0.
Proof. split; try done; [intros; lia|apply grown_start]. Qed.

Lemma raised_trans (sel : string → Prop) t0 t1 t2 a b : raised sel t0 t1 a → raised sel t1 t2 b → raised sel t0 t2 (a + b).
Proof.
  intros [A1 A2 A3 A4] [B1 B2 B3 B4]. split.
  - intros v. etrans; [apply A1|apply B1].
  - intros v Hv. rewrite B2 by done. by apply A2.
  - intros v m Hm. specialize (A3 v m Hm). specialize (B3 v m Hm). lia.
  - rewrite (grown_trans records t0 _ t1 t2). lia.
Qed.

Lemma raised_sel (sel sel' : string → Prop) t0 t a : (∀ v, sel v → sel' v) → raised sel t0 t a → raised sel' t0 t a.
Proof. intros Hs [A1 A2 A3 A4]. split; try done. intros v Hv. apply A2. auto. Qed.

Definition named (vs : list variantRecord) (v : string) : Prop := v ∈ rec_Name <$> vs.

(** No target rises by more than the GPUs spent. *)
Lemma raised_range t0 t a v : raised (named records) t0 t a → target_of t v ≤ target_of t0 v + a ∧ 0 ≤ a.
Proof.
  intros [A1 A2 _ A4]. unfold grown in A4.
  assert (Hn : ∀ vc, vc ∈ records → 0 ≤ (target_of t (rec_Name vc) - target_of t0 (rec_Name vc)) * gpus (rec_Name vc)).
  { intros vc _. specialize (A1 (rec_Name vc)). pose proof (gpusPerReplica_pos stateMap (rec_Name vc)). nia. }
  assert (Ha : 0 ≤ a) by (rewrite <- A4; by apply sumZ_nonneg).
  split; [|done]. destruct (decide (v ∈ rec_Name <$> records)) as [Hin|Hno]; [|rewrite A2 by done; lia].
  apply list_elem_of_fmap in Hin as (vc & -> & Hin).
  pose proof (sumZ_elem_le _ records vc Hn Hin) as Hle. rewrite A4 in Hle. cbv beta in Hle.
  specialize (A1 (rec_Name vc)). pose proof (gpusPerReplica_pos stateMap (rec_Name vc)). nia.
Qed.

Lemma raised_one t vc n :
  vc ∈ records → 0 ≤ n → (∀ m, max_bound stateMap (rec_Name vc) = Some m →
    target_of t (rec_Name vc) + n ≤ Z.max (target_of t (rec_Name vc)) m) →
  raised (λ v, v = rec_Name vc) t (<[rec_Name vc := target_of t (rec_Name vc) + n]> t) (n * gpus (rec_Name vc)).
Proof using Hnames.
  intros Hin Hn Hm. split.
  - intros v. rewrite target_of_insert. case_decide; [subst; lia|lia].
  - intros v Hv. by rewrite target_of_insert, decide_False by congruence.
  - intros v m Hb. rewrite target_of_insert. case_decide; [subst; by apply Hm|lia].
  - rewrite grown_commit, grown_start by done. lia.
Qed.

(** The role can take no more of [left] GPUs. *)
Definition filled (vs : list variantRecord) (t : gmap string Z) (left : Z) : Prop :=
  ∀ vc, vc ∈ vs → fle (rec_PerReplicaCapacity vc) f0 = false →
    left < gpus (rec_Name vc) ∨ ∃ m, max_bound stateMap (rec_Name vc) = Some m ∧ m ≤ target_of t (rec_Name vc).

Lemma fill_variant_spec want t s vc :
  vc ∈ records → 0 ≤ s ≤ Z.max 0 want → in_int want →
  (∀ v, 0 ≤ target_of t v ∧ target_of t v + (want - s) ≤ int_max) →
  let '(t', s') := fill_variant stateMap want (t, s) vc in
  raised (λ v, v = rec_Name vc) t t' (s' - s) ∧ s ≤ s' ≤ Z.max 0 want ∧ filled [vc] t' (want - s').
Proof using Hnames.
  intros Hin Hs Hw Ht. unfold fill_variant.
  pose proof (gpusPerReplica_pos stateMap (rec_Name vc)) as Hg. specialize (Ht (rec_Name vc)).
  assert (Hskip : ∀ P : Prop, P → raised (λ v, v = rec_Name vc) t t (s - s) ∧ s ≤ s ≤ Z.max 0 want ∧ P).
  { intros P HP. rewrite Z.sub_diag. split_and!; [apply raised_refl|lia|lia|done]. }
  rewrite (wrap_id (want - s)) by int_lia.
  destruct (Z.leb_spec (want - s) 0) as [Hz|Hz]; cbn [orb].
  { apply Hskip. intros vc' ->%list_elem_of_singleton _. left. lia. }
  destruct (fle _ f0) eqn:Hp; cbn [orb]; [apply Hskip; intros vc' ->%list_elem_of_singleton; congruence|].
  rewrite (proj2 (Z.leb_gt _ 0)) by lia.
  pose proof (fill_replicas_spec (Z.to_nat (want - s)) (gpus (rec_Name vc)) (max_bound stateMap (rec_Name vc)) want
    (target_of t (rec_Name vc)) s Hg ltac:(lia) ltac:(int_lia) ltac:(lia) ltac:(lia) ltac:(lia)) as Hf.
  change (positive_bound _) with (max_bound stateMap (rec_Name vc)).
  destruct (fill_replicas _ _ _ _ _ _) as [t' s']. destruct Hf as (n & Hn & -> & -> & Hle & Hm & Hmax).
  destruct (Z.eqb_spec (s + n * gpus (rec_Name vc)) s) as [He|He].
  - assert (n = 0) as -> by nia. rewrite Z.mul_0_l, !Z.add_0_r in *. apply Hskip.
    by intros vc' ->%list_elem_of_singleton _.
  - split_and!; [|nia|lia|].
    + replace (s + n * _ - s) with (n * gpus (rec_Name vc)) by lia. by apply raised_one.
    + intros vc' ->%list_elem_of_singleton _. by rewrite target_of_insert, decide_True.
Qed.

Lemma filled_mono vs t t' a b : filled vs t a → (∀ v, target_of t v ≤ target_of t' v) → b ≤ a → filled vs t' b.
Proof.
  intros Hf Ht Hb vc Hin Hp. destruct (Hf vc Hin Hp) as [?|(m & Hm & Hle)]; [left; lia|right].
  exists m. split; [done|]. specialize (Ht (rec_Name vc)). lia.
Qed.

Lemma fill_variants_spec want l t s :
  l ⊆ records → 0 ≤ s ≤ Z.max 0 want → in_int want →
  (∀ v, 0 ≤ target_of t v ∧ target_of t v + (want - s) ≤ int_max) →
  let '(t', s') := foldl (fill_variant stateMap want) (t, s) l in
  raised (named l) t t' (s' - s) ∧ s ≤ s' ≤ Z.max 0 want ∧ filled l t' (want - s').
Proof using Hnames.
  revert t s. induction l as [|vc l IH]; intros t s Hl Hs Hw Ht; cbn [foldl].
  { rewrite Z.sub_diag. split_and!; [apply raised_refl|lia|lia|]. by intros vc Hvc%not_elem_of_nil. }
  assert (Hin : vc ∈ records) by (apply Hl; left).
  pose proof (fill_variant_spec want t s vc Hin Hs Hw Ht) as H1'.
  destruct (fill_variant stateMap want (t, s) vc) as [t1 s1]. destruct H1' as (R1 & Hs1 & F1).
  assert (R1' : raised (named records) t t1 (s1 - s)).
  { eapply raised_sel; [|exact R1]. intros v ->. by apply list_elem_of_fmap_2. }
  specialize (IH t1 s1). destruct (foldl _ _ l) as [t' s'].
  destruct IH as (R2 & Hs2 & F2); [intros x Hx; apply Hl; by right|lia|done| |].
  { intros v. destruct (raised_range t t1 (s1 - s) v R1') as [Hr _]. pose proof (ra_le _ _ _ _ R1 v). specialize (Ht v). lia. }
  split_and!; [|lia|lia|].
  - replace (s' - s) with ((s1 - s) + (s' - s1)) by lia. eapply raised_trans; eapply raised_sel;
      [|exact R1| |exact R2].
    + intros v ->. left.
    + intros v Hv. by right.
  - intros vc' [->|Hvc]%elem_of_cons; [|by apply F2].
    apply (filled_mono [vc] t1 t' (want - s1) (want - s') F1 (ra_le _ _ _ _ R2)); [lia|left].
Qed.

(** What filling a role does: it spends at most the GPUs it was given, all it can of
    them, on replicas of the role's variants. *)
Lemma fillRole_spec role t want :
  in_int want → (∀ v, 0 ≤ target_of t v ∧ target_of t v + want ≤ int_max) →
  let '(t', s) := fillRole records role stateMap t want in
  raised (named (variantsForRole records role)) t t' s ∧ 0 ≤ s ≤ Z.max 0 want ∧
  filled (variantsForRole records role) t' (want - s).
Proof using Hnames.
  intros Hw Ht. unfold fillRole.
  pose proof (sort_slice_perm (λ a b, flt (costEfficiency a) (costEfficiency b)) (variantsForRole records role)) as Hp.
  fold (sortByCostEfficiencyAsc (variantsForRole records role)) in Hp.
  pose proof (fill_variants_spec want (sortByCostEfficiencyAsc (variantsForRole records role)) t 0) as Hf.
  destruct (foldl _ _ _) as [t' s]. destruct Hf as (R & Hs & F); [|lia|done|intros v; specialize (Ht v); lia|].
  { intros vc Hvc. rewrite Hp in Hvc. by apply list_elem_of_filter in Hvc as [_ ?]. }
  rewrite Z.sub_0_r in R. split_and!; [|lia|lia|].
  - eapply raised_sel; [|exact R]. intros v. unfold named. by rewrite Hp.
  - intros vc Hvc. apply F. by rewrite Hp.
Qed.

(** ** Reclaiming *)

(** The targets fall from [t0] to [t], only where [sel] says and not below the
    minima. *)
Record lowered (sel : string → Prop) (t0 t : gmap string Z) : Prop := {
  lo_range : ∀ v, Z.min (target_of t0 v) (min_of stateMap v) ≤ target_of t v ≤ target_of t0 v;
  lo_out : ∀ v, ¬ sel v → target_of t v = target_of t0 v;
  lo_ok : targets_ok t }.

Hypothesis Hmin : ∀ v, 0 ≤ min_of stateMap v ≤ int_max.

Lemma lowered_refl sel t : targets_ok t → lowered sel t t.
Proof. intros Ht. split; [|done|done]. intros v. lia. Qed.

Lemma lowered_trans sel t0 t1 t2 : lowered sel t0 t1 → lowered sel t1 t2 → lowered sel t0 t2.
Proof.
  intros [A1 A2 _] [B1 B2 B3]. split; [..|done].
  - intros v. specialize (A1 v). specialize (B1 v). lia.
  - intros v Hv. rewrite B2 by done. by apply A2.
Qed.

Lemma reclaimRole_spec (sel : string → Prop) e role t delta :
  targets_ok t → (∀ v, named (variantsForRole records role) v → sel v) →
  lowered sel t (reclaimRole e records role stateMap t delta).1.
Proof using Hmin.
  intros Ht Hsel. unfold reclaimRole, scaleDownVariantSet.
  set (f := λ (remaining : Z) (vc : variantRecord), if _ || _ then 0 else _).
  set (h := λ (remaining : Z) (vc : variantRecord) (n : Z), _).
  assert (Hf : ∀ r vc, 0 ≤ f r vc).
  { intros r vc. unfold f. pose proof (gpusPerReplica_pos stateMap (rec_Name vc)).
    destruct (Z.leb_spec r 0), (Z.leb_spec (gpus (rec_Name vc)) 0); cbn [orb]; try lia. apply Z.quot_pos; lia. }
  pose proof (shed_loop_bounds f h stateMap Hf Hmin [] (sortVariantsForScaleDown e (variantsForRole records role)) t delta Ht) as Hb.
  destruct (shed_loop _ _ _ _ _ _ _) as [t' r]. destruct Hb as [Hok Hb]. cbn [fst]. split; [|intros v Hv|done].
  - intros v. apply Hb.
  - apply Hb. unfold sortVariantsForScaleDown. rewrite sort_slice_perm. intros Hin. by apply Hv, Hsel.
Qed.

(** The variants of the roles a hold lets go down. *)
Definition may_fall (e : NamedAnalyzerResult) (roles : list string) (v : string) : Prop :=
  ∃ role, role ∈ roles ∧ NoScaleDown (hold_of e role) = false ∧ named (variantsForRole records role) v.

Section reclaim.
Context (e : NamedAnalyzerResult) (roles : list string).
#[local] Notation falls := (may_fall e roles).

(** Nothing is counted against a role held where it is. *)
Definition spares_held (m : gmap string Z) : Prop := ∀ role, NoScaleDown (hold_of e role) = true → target_of m role = 0.

Lemma spares_held_empty : spares_held ∅.
Proof. intros role _. unfold target_of. by rewrite lookup_empty. Qed.

Lemma spares_held_insert m role n : spares_held m → NoScaleDown (hold_of e role) = false → spares_held (<[role := n]> m).
Proof. intros Hm Hr x Hx. rewrite target_of_insert. case_decide; [congruence|by apply Hm]. Qed.

Lemma reclaim_cut_held tgt cur t l cut total :
  spares_held cut → spares_held (foldl (reclaim_cut e records stateMap tgt cur t) (cut, total) l).1.
Proof.
  revert cut total. induction l as [|x l IH]; intros cut total Hc; [done|]. cbn [foldl]. unfold reclaim_cut at 2.
  destruct (NoScaleDown (hold_of e x)) eqn:Hx; [rewrite andb_false_r; by apply IH|].
  destruct (_ && _); apply IH; [by apply spares_held_insert|done].
Qed.

(** One reclaim of a role that may go down. *)
Lemma reclaim_role_falls x t delta :
  x ∈ roles → NoScaleDown (hold_of e x) = false → targets_ok t →
  lowered falls t (reclaimRole e records x stateMap t delta).1.
Proof using Hmin. intros Hx Hh Ht. apply reclaimRole_spec; [done|]. intros v Hv. by exists x. Qed.

Lemma reclaim_own_spec cut l t shed total :
  l ⊆ roles → spares_held cut → spares_held shed → targets_ok t →
  let r := foldl (reclaim_own e records stateMap cut) (t, shed, total) l in lowered falls t r.1.1 ∧ spares_held r.1.2.
Proof using Hmin.
  intros Hl Hc. revert t shed total.
  induction l as [|x l IH]; intros t shed total Hs Ht; [split; [by apply lowered_refl|done]|].
  cbn [foldl]. unfold reclaim_own at 2 4. specialize (IH ltac:(intros y Hy; apply Hl; by right)).
  destruct (Z.ltb_spec 0 (target_of cut x)) as [Hx|Hx]; [|by apply IH].
  assert (Hh : NoScaleDown (hold_of e x) = false).
  { destruct (NoScaleDown (hold_of e x)) eqn:Hh; [|done]. specialize (Hc x Hh). lia. }
  pose proof (reclaim_role_falls x t (target_of cut x) ltac:(apply Hl; left) Hh Ht) as Hr.
  destruct (reclaimRole _ _ _ _ _ _) as [t1 n]. cbn [fst] in Hr.
  destruct (IH t1 (<[x := n]> shed) (total ⊟ n)) as [IH1 IH2]; [by apply spares_held_insert|apply Hr|].
  split; [by eapply lowered_trans|done].
Qed.

Lemma reclaim_rest_spec cut l t shed total :
  l ⊆ roles → spares_held cut → spares_held shed → targets_ok t →
  lowered falls t (foldl (reclaim_rest e records stateMap cut) (t, shed, total) l).1.1.
Proof using Hmin.
  intros Hl Hc. revert t shed total. induction l as [|x l IH]; intros t shed total Hs Ht; [by apply lowered_refl|].
  cbn [foldl]. unfold reclaim_rest at 2. specialize (IH ltac:(intros y Hy; apply Hl; by right)).
  destruct (_ || _) eqn:Hx; [by apply IH|].
  assert (Hh : NoScaleDown (hold_of e x) = false).
  { destruct (NoScaleDown (hold_of e x)) eqn:Hh; [|done]. rewrite (Hc x Hh), (Hs x Hh) in Hx.
    rewrite orb_true_r in Hx. done. }
  set (delta := Z.min _ _) in *. pose proof (reclaim_role_falls x t delta ltac:(apply Hl; left) Hh Ht) as Hr.
  destruct (reclaimRole _ _ _ _ _ _) as [t1 n]. cbn [fst] in Hr.
  eapply lowered_trans; [exact Hr|]. apply IH; [by apply spares_held_insert|apply Hr].
Qed.

Lemma reclaimWholeReplicas_spec tgt cur t :
  targets_ok t → lowered falls t (reclaimWholeReplicas e records stateMap roles tgt cur t).
Proof using Hmin.
  intros Ht. unfold reclaimWholeReplicas.
  pose proof (reclaim_cut_held tgt cur t roles ∅ 0 spares_held_empty) as Hc.
  destruct (foldl (reclaim_cut _ _ _ _ _ _) _ _) as [cut total]. cbn [fst] in Hc.
  destruct (total =? 0); [by apply lowered_refl|].
  pose proof (reclaim_own_spec cut roles t ∅ total ltac:(done) Hc spares_held_empty Ht) as Ho. cbv zeta in Ho.
  destruct (foldl (reclaim_own _ _ _ _) _ _) as [[t1 shed] left]. cbn [fst snd] in Ho. destruct Ho as [Ho Hs].
  destruct (existsb _ _); [done|]. eapply lowered_trans; [exact Ho|]. apply reclaim_rest_spec; try done; [|apply Ho].
  intros x. by rewrite sort_stable_perm.
Qed.
End reclaim.

(** ** The fill of a model's roles *)

(** The variants of the roles a hold lets go up. *)
Definition may_rise (e : NamedAnalyzerResult) (roles : list string) (v : string) : Prop :=
  ∃ role, role ∈ roles ∧ NoScaleUp (hold_of e role) = false ∧ named (variantsForRole records role) v.

Lemma role_named role v : named (variantsForRole records role) v → named records v.
Proof.
  intros (vc & -> & Hin)%list_elem_of_fmap. apply list_elem_of_filter in Hin as [_ Hin]. by apply list_elem_of_fmap_2.
Qed.

Lemma may_rise_named e roles v : may_rise e roles v → named records v.
Proof. intros (role & _ & _ & Hv). by eapply role_named. Qed.

(** A variant is in one role. *)
Lemma one_role a b v : named (variantsForRole records a) v → named (variantsForRole records b) v → a = b.
Proof using Hnames.
  intros (x & -> & Hx)%list_elem_of_fmap (y & He & Hy)%list_elem_of_fmap.
  apply list_elem_of_filter in Hx as [<- Hx], Hy as [<- Hy]. f_equal. f_equal.
  apply list_elem_of_lookup in Hx as [i Hi], Hy as [j Hj].
  assert (i = j); [|by simplify_eq]. eapply (NoDup_lookup (rec_Name <$> records)); [done|..].
  - by rewrite list_lookup_fmap, Hi.
  - by rewrite list_lookup_fmap, Hj, He.
Qed.

(** The replicas added to a role's variants, in the order they were filled. *)
Definition role_growth (t0 t : gmap string Z) (role : string) : list (string * Z) :=
  omap (λ vc, let n := target_of t (rec_Name vc) - target_of t0 (rec_Name vc) in
              if 0 <? n then Some (rec_Name vc, n) else None) (sortByCostEfficiencyAsc (variantsForRole records role)).

Lemma role_growth_same t0 t t' role :
  (∀ v, named (variantsForRole records role) v → target_of t' v = target_of t v) →
  role_growth t0 t' role = role_growth t0 t role.
Proof.
  intros Ht. apply omap_ext_in. intros vc Hvc. unfold sortByCostEfficiencyAsc in Hvc. rewrite sort_slice_perm in Hvc.
  by rewrite Ht by (by apply list_elem_of_fmap_2).
Qed.

Lemma role_growth_none t0 role : role_growth t0 t0 role = [].
Proof.
  unfold role_growth. rewrite (omap_ext_in _ (λ _, None)); [by induction (sortByCostEfficiencyAsc _)|].
  intros vc _. by rewrite Z.sub_diag.
Qed.

Section fills.
Context (e : NamedAnalyzerResult) (t0 : gmap string Z) (F0 : Z).
Hypothesis Ht0 : ∀ v, 0 ≤ target_of t0 v ∧ target_of t0 v + F0 ≤ int_max.

Record filling (dn : list string) (s : fill_state) : Prop := {
  fi_raised : raised (may_rise e dn) t0 (fs_targets s) (F0 - fs_free s);
  fi_free : 0 ≤ fs_free s;
  fi_grown : ∀ role, default [] (fs_grown s !! role) = role_growth t0 (fs_targets s) role }.

Lemma may_rise_mono dn dn' v : dn ⊆ dn' → may_rise e dn v → may_rise e dn' v.
Proof. intros Hd (role & Hr & ?). exists role. split; [by apply Hd|done]. Qed.

Lemma fill_step_spec tgt cur dn s role :
  role ∉ dn → filling dn s → filling (role :: dn) (fill_step e records stateMap tgt cur s role).
Proof using Hnames Ht0.
  intros Hnew [Hr Hf Hg]. unfold fill_step.
  assert (Hup : raised (may_rise e (role :: dn)) t0 (fs_targets s) (F0 - fs_free s)).
  { eapply raised_sel; [|exact Hr]. intros v. apply may_rise_mono. intros x Hx. by right. }
  destruct (_ || NoScaleUp (hold_of e role)) eqn:Hgo; [by split|]. apply orb_false_iff in Hgo as [_ Hh].
  cbv zeta. set (d := target_of tgt role ⊟ target_of cur role).
  set (want := if fs_free s <? d then fs_free s else d).
  assert (Hw : in_int want ∧ want ≤ fs_free s).
  { pose proof (Ht0 "") as Hz. destruct (raised_range t0 (fs_targets s) (F0 - fs_free s) "") as [_ Hle].
    { eapply raised_sel; [|exact Hr]. apply may_rise_named. }
    unfold want. destruct (Z.ltb_spec (fs_free s) d); [|split; [apply wrap_in_int|lia]].
    split; [|lia]. int_lia. }
  assert (Hin : ∀ v, 0 ≤ target_of (fs_targets s) v ∧ target_of (fs_targets s) v + fs_free s ≤ int_max).
  { intros v. destruct (raised_range t0 (fs_targets s) (F0 - fs_free s) v) as [Hle _].
    { eapply raised_sel; [|exact Hr]. apply may_rise_named. }
    pose proof (ra_le _ _ _ _ Hr v). specialize (Ht0 v). lia. }
  pose proof (fillRole_spec role (fs_targets s) want (proj1 Hw)) as Hs. destruct (fillRole _ _ _ _ _) as [t1 spent].
  destruct Hs as (R1 & Hsp & _); [intros v; specialize (Hin v); lia|].
  assert (Hx : ∀ v, named (variantsForRole records role) v → target_of (fs_targets s) v = target_of t0 v).
  { intros v Hv. apply (ra_out _ _ _ _ Hr). intros (r & Hrd & _ & Hrv). by rewrite (one_role _ _ _ Hv Hrv) in Hnew. }
  assert (Hnow : raised (may_rise e (role :: dn)) t0 t1 (F0 - fs_free s + spent)).
  { eapply raised_trans; [exact Hup|]. eapply raised_sel; [|exact R1]. intros v Hv. exists role.
    split_and!; [left|done|done]. }
  set (growth := omap _ _).
  assert (Hgr : growth = role_growth t0 t1 role).
  { apply omap_ext_in. intros vc Hvc. unfold sortByCostEfficiencyAsc in Hvc. rewrite sort_slice_perm in Hvc.
    apply (list_elem_of_fmap_2 rec_Name) in Hvc. rewrite (Hx _ Hvc), (wrap_id (_ - _)); [done|].
    destruct (raised_range t0 t1 _ (rec_Name vc) (raised_sel _ _ _ _ _ (may_rise_named e _) Hnow)) as [Hle _].
    pose proof (ra_le _ _ _ _ Hnow (rec_Name vc)). specialize (Ht0 (rec_Name vc)). int_lia. }
  clearbody growth. split; cbn [fs_targets fs_free fs_grown].
  - rewrite (wrap_id (_ - _)) by (pose proof (Hin ""); int_lia).
    replace (F0 - (fs_free s - spent)) with (F0 - fs_free s + spent) by lia. done.
  - rewrite wrap_id by (pose proof (Hin ""); int_lia). lia.
  - intros r. destruct (decide (r = role)) as [->|Hne].
    + rewrite <- Hgr. destruct growth as [|g l]; [|by rewrite lookup_insert_eq].
      by rewrite Hg, (role_growth_same t0 t0), role_growth_none.
    + rewrite (role_growth_same t0 (fs_targets s) t1), <- Hg.
      * destruct growth; [done|by rewrite lookup_insert_ne].
      * intros v Hv. apply (ra_out _ _ _ _ R1). intros Hv'. by destruct Hne; eapply one_role.
Qed.

Lemma fill_steps_spec tgt cur l dn s :
  NoDup l → (∀ x, x ∈ l → x ∉ dn) → filling dn s →
  filling (reverse l ++ dn) (foldl (fill_step e records stateMap tgt cur) s l).
Proof using Hnames Ht0.
  revert dn s. induction l as [|x l IH]; intros dn s Hnd Hl Hs; [done|]. cbn [foldl].
  apply NoDup_cons in Hnd as [Hx Hnd]. rewrite reverse_cons, <- (assoc_L (++)). apply IH; [done| |].
  - intros y Hy [->|Hd]%elem_of_cons; [done|]. eapply Hl; [by right|done].
  - apply fill_step_spec; [apply Hl; left|done].
Qed.

Lemma fill_start limited : 0 ≤ F0 → filling [] (MkFill t0 F0 limited ∅).
Proof.
  intros HF. split; cbn [fs_targets fs_free fs_grown]; [rewrite Z.sub_diag; apply raised_refl|done|].
  intros role. by rewrite lookup_empty, role_growth_none.
Qed.
End fills.
End model.
