(* ===== verification/RescaleNodes.v ===== *)
(** * Rescale: the fills fitted to the nodes

    The facts about [fitRescaleToNodes] of [Rescale]: the replicas that place are the
    ones whose targets stay raised, the others are taken back and their GPUs are
    refunded; the loop ends with every role placed or short of one replica. *)
From Stdlib Require Import ZArith Lia String Ascii SpecFloat.
From stdpp Require Import base gmap strings list sorting fin_maps.
From S2P Require Import Prelude Accelerator Budget NodeView GoFloat GoCmp Domain Signals WaterFill ScaleDown PairFit ScaleUp Attribution Greedy Rescale RescaleFill.
Open Scope Z_scope.

(** ** The order replicas are placed in *)
Lemma growth_at_spec (l : list (string * Z)) i :
  Forall (λ g, 0 < g.2) l → 0 ≤ i < sumZ snd l → sumZ snd l ≤ int_max →
  ∃ l1 n l2, l = l1 ++ (growth_at l i, n) :: l2 ∧ sumZ snd l1 ≤ i < sumZ snd l1 + n.
Proof.
  revert i. induction l as [|[v n] l IH]; intros i Hl Hi Hm; [unfold sumZ in Hi; simpl in Hi; lia|].
  apply Forall_cons in Hl as [Hn Hl]. cbn [snd] in Hn. rewrite sumZ_cons in Hi, Hm. cbn [snd] in Hi, Hm. cbn [growth_at].
  destruct (Z.ltb_spec i n).
  - exists [], n, l. split; [done|]. unfold sumZ. simpl. lia.
  - assert (0 ≤ sumZ snd l) by (apply sumZ_nonneg; intros a Ha; rewrite Forall_forall in Hl; specialize (Hl a Ha); lia).
    rewrite (wrap_id (i - n)) by int_lia. destruct (IH (i - n)) as (l1 & m & l2 & He & Hr); [done|lia|lia|].
    exists ((v, n) :: l1), m, l2. rewrite sumZ_cons. cbn [snd]. split; [by rewrite He at 1|lia].
Qed.

Section placing.
Context `{TaintMatcher}.
Context (filling : list string) (G : string → list (string * Z)) (rep : string → replicaFit) (v0 : NodeView).
Context (grown : gmap string (list (string * Z))) (want : gmap string Z).
#[local] Notation entries := (mjoin (G <$> filling)).
Hypothesis Hnd : NoDup filling.
Hypothesis Hnamed : "" ∉ filling.
Hypothesis HG : ∀ r, default [] (grown !! r) = G r.
Hypothesis Hwant : ∀ r, r ∈ filling → count_of want r = sumZ snd (G r).
Hypothesis Hpos : Forall (λ g, 0 < g.2) entries.
Hypothesis Hnames : NoDup entries.*1.
Hypothesis Hsum : sumZ snd entries ≤ int_max.

(** The replicas of a variant placed when its role has [i]. *)
Definition placed_of (i : Z) (l1 : list (string * Z)) (n : Z) : Z := Z.min n (Z.max 0 (i - sumZ snd l1)).

Record placing (trial : NodeView) (placed pv : gmap string Z) : Prop := {
  pl_wf : wf trial;
  pl_grows : grows v0 trial;
  pl_total : total_debit trial = total_debit v0 + sumZ (λ g, count_of pv g.1 * pods_total (rep g.1)) entries;
  pl_count : ∀ r, r ∈ filling → 0 ≤ count_of placed r ≤ count_of want r;
  pl_pv : ∀ r l1 v n l2, r ∈ filling → G r = l1 ++ (v, n) :: l2 → count_of pv v = placed_of (count_of placed r) l1 n }.

Lemma entry_in r g : r ∈ filling → g ∈ G r → g ∈ entries.
Proof. intros Hr Hg. apply list_elem_of_join. exists (G r). split; [done|by apply list_elem_of_fmap_2]. Qed.

Lemma role_pos r : r ∈ filling → Forall (λ g, 0 < g.2) (G r).
Proof using Hpos. intros Hr. rewrite Forall_forall in *. intros g Hg. apply Hpos. by eapply entry_in. Qed.

(** A variant has one entry, in one role. *)
Lemma role_names r : r ∈ filling → NoDup (G r).*1.
Proof using Hnames.
  clear -Hnames. induction filling as [|x l IH]; intros Hr; [by apply not_elem_of_nil in Hr|].
  cbn [fmap list_fmap mjoin list_join] in Hnames. rewrite fmap_app in Hnames.
  apply NoDup_app in Hnames as (H1 & _ & H2). apply elem_of_cons in Hr as [->|Hr]; [done|by apply IH].
Qed.

Lemma one_role_entry r r' v : r ∈ filling → r' ∈ filling → v ∈ (G r).*1 → v ∈ (G r').*1 → r = r'.
Proof using Hnames.
  clear -Hnames. intros Hr Hr' Hv Hv'.
  assert (Hin : ∀ l x, x ∈ l → v ∈ (G x).*1 → v ∈ (mjoin (G <$> l)).*1).
  { intros l x Hx (g & -> & Hg)%list_elem_of_fmap. apply list_elem_of_fmap_2, list_elem_of_join. exists (G x).
    split; [done|by apply list_elem_of_fmap_2]. }
  induction filling as [|x l IH]; [by apply not_elem_of_nil in Hr|].
  cbn [fmap list_fmap mjoin list_join] in Hnames. rewrite fmap_app in Hnames.
  apply NoDup_app in Hnames as (_ & H1 & H2).
  apply elem_of_cons in Hr as [->|Hr], Hr' as [->|Hr']; [done|exfalso..|by apply IH].
  - apply (H1 v Hv). by apply (Hin l r').
  - apply (H1 v Hv'). by apply (Hin l r).
Qed.

Lemma one_entry r r' l1 l1' v n n' l2 l2' :
  r ∈ filling → r' ∈ filling → G r = l1 ++ (v, n) :: l2 → G r' = l1' ++ (v, n') :: l2' → r = r' ∧ l1 = l1' ∧ n = n'.
Proof using Hnames.
  intros Hr Hr' E E'. assert (r = r') as <-.
  { apply (one_role_entry r r' v Hr Hr'); rewrite ?E, ?E', fmap_app, elem_of_app; right; left. }
  split; [done|]. pose proof (role_names r Hr) as Hn.
  assert (Hl : length l1 = length l1').
  { apply (NoDup_lookup (G r).*1 _ _ v Hn).
    - rewrite E, list_lookup_fmap, list_lookup_middle by done. done.
    - rewrite E', list_lookup_fmap, list_lookup_middle by done. done. }
  rewrite E in E'. apply app_inj_1 in E' as [-> Hc]; [|done]. by simplify_eq.
Qed.

Lemma role_sum r : r ∈ filling → 0 ≤ sumZ snd (G r) ≤ int_max.
Proof using Hpos Hsum.
  intros Hr. rewrite Forall_forall in Hpos.
  assert (Hn : ∀ x, x ∈ filling → 0 ≤ sumZ snd (G x)).
  { intros x Hx. apply sumZ_nonneg. intros g Hg. specialize (Hpos g (entry_in x g Hx Hg)). lia. }
  split; [by apply Hn|]. etrans; [|exact Hsum]. rewrite sumZ_join.
  exact (sumZ_elem_le (λ x, sumZ snd (G x)) filling r Hn Hr).
Qed.

(** Placing a replica of one variant changes no other's count. *)
Lemma placed_of_other r l1 v n l2 k1 w m k2 i :
  r ∈ filling → G r = l1 ++ (v, n) :: l2 → G r = k1 ++ (w, m) :: k2 → v ≠ w → sumZ snd l1 ≤ i < sumZ snd l1 + n →
  placed_of i k1 m = placed_of (i + 1) k1 m.
Proof using Hpos.
  intros Hr E E' Hne Hi. pose proof (role_pos r Hr) as Hp. clear Hnd Hnamed HG Hwant Hnames Hsum want rep grown.
  assert (Hn : ∀ l, l ⊆ G r → 0 ≤ sumZ snd l).
  { intros l Hl. apply sumZ_nonneg. intros g Hg. rewrite Forall_forall in Hp. specialize (Hp g (Hl g Hg)). lia. }
  unfold placed_of. assert (Hs := E). rewrite E' in Hs. apply app_eq_inv in Hs as [(k & -> & Hk)|(k & -> & Hk)].
  - destruct k as [|g k]; [cbn in Hk; simplify_eq|]. cbn in Hk. injection Hk as <- Hk2.
    pose proof (Hn k ltac:(rewrite E'; set_solver)). rewrite !sumZ_app, !sumZ_cons. cbn [snd] in *. lia.
  - destruct k as [|g k]; [cbn in Hk; simplify_eq|]. cbn in Hk. injection Hk as <- Hk2.
    pose proof (Hn k ltac:(rewrite E; set_solver)). rewrite sumZ_app, sumZ_cons in Hi. cbn [snd] in *. lia.
Qed.

(** One replica placed. *)
Lemma place_one trial placed pv next trial' :
  placing trial placed pv → next ∈ filling → count_of placed next < count_of want next →
  let v := growth_at (G next) (count_of placed next) in
  place trial (rep v) = (true, trial') →
  let placed' := <[next := count_of placed next ⊞ 1]> placed in
  placing trial' placed' (<[v := count_of pv v ⊞ 1]> pv) ∧
  sumZ (count_of placed') filling = sumZ (count_of placed) filling + 1.
Proof using All.
  intros [Pw Pg Pt Pc Pp] Hin Hlt. cbv zeta. pose proof (Pc next Hin) as Hi. rewrite Hwant in Hlt, Hi by done.
  pose proof (role_sum next Hin) as Hs.
  destruct (growth_at_spec (G next) (count_of placed next) (role_pos next Hin) ltac:(lia) ltac:(lia))
    as (l1 & n & l2 & He & Hlo).
  set (v := growth_at (G next) (count_of placed next)) in *. intros Hp. unfold place in Hp.
  destruct (place_opt trial (rep v)) as [t1|] eqn:E; [|done]. injection Hp as <-.
  destruct (place_opt_spec _ _ _ Pw E) as (dom & assign & Hpl).
  pose proof (Pp next l1 v n l2 Hin He) as Hv. unfold placed_of in Hv.
  assert (Hl1 : 0 ≤ sumZ snd l1).
  { apply sumZ_nonneg. intros g Hg. pose proof (role_pos next Hin) as Hp'. rewrite He, Forall_app, !Forall_forall in Hp'.
    specialize (proj1 Hp' g Hg). lia. }
  rewrite (wrap_id (count_of placed next + 1)) by int_lia. rewrite (wrap_id (count_of pv v + 1)) by int_lia.
  assert (Hve : (v, n) ∈ entries) by (apply (entry_in next); [done|rewrite He, elem_of_app; right; left]).
  split; [split|].
  - apply Hpl.
  - etrans; [exact Pg|by eapply placed_grows].
  - rewrite (placed_total _ _ _ _ _ Hpl), Pt.
    pose proof (sumZ_change (λ g : string * Z, count_of (<[v := count_of pv v + 1]> pv) g.1 * pods_total (rep g.1))
      (λ g, count_of pv g.1 * pods_total (rep g.1)) entries (v, n) (NoDup_fmap_1 fst _ Hnames) Hve) as Hc.
    cbv beta in Hc. cbn [fst] in Hc. rewrite (count_of_insert _ v _ v), decide_True in Hc by done.
    rewrite <- Z.add_assoc. f_equal. rewrite <- (Z.sub_add (count_of pv v * pods_total (rep v)) (sumZ _ _)), <- Hc; [lia|].
    intros [w m] Hw Hne. cbn [fst]. rewrite count_of_insert, decide_False; [done|]. intros <-. apply Hne.
    apply (fmap_inj_NoDup fst entries); done.
  - intros r Hr. rewrite count_of_insert. case_decide; [subst r; rewrite Hwant by done; lia|by apply Pc].
  - intros r k1 w m k2 Hr Hk. rewrite !count_of_insert. destruct (decide (next = r)) as [<-|Hne].
    + destruct (decide (v = w)) as [<-|Hvw].
      * destruct (one_entry next next l1 k1 v n m l2 k2 Hr Hr He Hk) as (_ & <- & <-). unfold placed_of. lia.
      * rewrite (Pp next k1 w m k2 Hr Hk). by apply (placed_of_other next l1 v n l2 k1 w m k2).
    + rewrite decide_False; [by apply (Pp r k1 w m k2)|]. intros <-.
      by destruct (one_entry next r l1 k1 v n m l2 k2 Hin Hr He Hk) as [? _].
  - pose proof (sumZ_change (count_of (<[next := count_of placed next + 1]> placed)) (count_of placed) filling next Hnd Hin) as Hc.
    rewrite count_of_insert, decide_True in Hc by done. rewrite <- (Z.sub_add (count_of placed next) (sumZ (count_of placed) _)), <- Hc; [lia|].
    intros r _ Hne. by rewrite count_of_insert, decide_False by congruence.
Qed.

(** The loop ends with every role at its count or at one that does not place. *)
Lemma place_grown_spec fuel trial placed pv :
  placing trial placed pv → sumZ (count_of want) filling - sumZ (count_of placed) filling ≤ Z.of_nat fuel →
  let '(t, p, pv', short) := place_grown fuel filling want grown rep trial placed pv in
  placing t p pv' ∧
  ((∀ r, r ∈ filling → count_of p r = count_of want r) ∨ place_opt t (rep short) = None).
Proof using All.
  revert trial placed pv. induction fuel as [|fuel IH]; intros trial placed pv Hp Hf; cbn [place_grown];
    destruct (next_role_spec filling want Hnamed placed) as [Hnone Hsome];
    (destruct (String.eqb_spec (next_role filling want placed) "") as [Hn|Hn];
     [split; [done|]; left; intros r Hr; specialize (Hnone Hn r Hr); pose proof (pl_count _ _ _ Hp r Hr); lia|]);
    destruct (Hsome Hn) as [Hin Hlt]; clear Hnone Hsome; set (next := next_role filling want placed) in *.
  - exfalso. pose proof (sumZ_elem_le (λ r, count_of want r - count_of placed r) filling next) as Hle.
    rewrite sumZ_minus in Hle. cbv beta in Hle. enough (count_of want next - count_of placed next ≤ 0) by lia.
    etrans; [apply Hle; [|done]|lia]. intros r Hr. pose proof (pl_count _ _ _ Hp r Hr). lia.
  - rewrite HG. destruct (place trial (rep (growth_at (G next) (count_of placed next)))) as [[] t1] eqn:Hpl.
    + destruct (place_one _ _ _ _ _ Hp Hin Hlt Hpl) as [Hp1 Hs1]. apply IH; [done|lia].
    + split; [done|]. right. unfold place in Hpl. by destruct (place_opt _ _).
Qed.

Lemma placing_start : wf v0 → placing (Clone v0) ∅ ∅.
Proof using Hwant Hpos Hsum.
  intros Hw. split; [by apply Clone_wf|apply Clone_grows| | |].
  - rewrite (sumZ_ext _ (λ _, 0)), sumZ_zero, Z.add_0_r by done. by apply total_debit_eq.
  - intros r Hr. rewrite Hwant by done. split; [done|]. apply (role_sum r Hr).
  - intros r l1 v n l2 Hr He. unfold placed_of. pose proof (role_pos r Hr) as Hp. rewrite He in Hp.
    apply Forall_app in Hp as [Hp [Hn _]%Forall_cons]. cbn [snd] in Hn.
    assert (0 ≤ sumZ snd l1) by (apply sumZ_nonneg; intros g Hg; rewrite Forall_forall in Hp; specialize (Hp g Hg); lia).
    unfold count_of. rewrite !lookup_empty. cbn [default]. lia.
Qed.

(** What is placed of each entry. *)
Lemma placing_range trial placed pv g : placing trial placed pv → g ∈ entries → 0 ≤ count_of pv g.1 ≤ g.2.
Proof using Hpos.
  intros Hp (l & Hg & (r & -> & Hr)%list_elem_of_fmap)%list_elem_of_join. apply list_elem_of_split in Hg as (l1 & l2 & He).
  destruct g as [v n]. cbn [fst snd]. rewrite (pl_pv _ _ _ Hp r l1 v n l2 Hr He). unfold placed_of.
  pose proof (proj1 (Forall_forall _ _) (role_pos r Hr) (v, n)) as Hn. cbn [snd] in Hn.
  specialize (Hn ltac:(rewrite He, elem_of_app; right; left)). lia.
Qed.
End placing.

(** ** Taking back what did not place *)
Section taking_back.
Context (records : list variantRecord) (stateMap : gmap string VariantReplicaState) (pv : gmap string Z).
Hypothesis Hnames : NoDup (rec_Name <$> records).
#[local] Notation gpus := (gpusPerReplicaFromState stateMap).

Lemma take_back_spec w t0 l t refund :
  NoDup l.*1 → (∀ g, g ∈ l → named records g.1 ∧ 0 ≤ count_of pv g.1 ≤ g.2 ∧ g.2 ≤ target_of t g.1 ≤ int_max) →
  0 ≤ refund → refund + sumZ (λ g, (g.2 - count_of pv g.1) * gpus g.1) l ≤ int_max →
  let '(t', r') := foldl (take_back_growth stateMap pv) (t, refund) l in
  (∀ v, v ∉ l.*1 → target_of t' v = target_of t v) ∧
  (∀ g, g ∈ l → target_of t' g.1 = target_of t g.1 - (g.2 - count_of pv g.1)) ∧
  r' = refund + sumZ (λ g, (g.2 - count_of pv g.1) * gpus g.1) l ∧
  grown records t0 w t' = grown records t0 w t - sumZ (λ g, (g.2 - count_of pv g.1) * w g.1) l.
Proof using Hnames.
  revert t refund. induction l as [|[v n] l IH]; intros t refund Hnd Hl H0 Hs; cbn [foldl].
  { split_and!; [done|by intros g Hg%not_elem_of_nil|unfold sumZ; simpl; lia|unfold sumZ; simpl; lia]. }
  cbn [fmap list_fmap fst] in Hnd. apply NoDup_cons in Hnd as [Hv Hnd].
  destruct (Hl (v, n) ltac:(left)) as (Hin & Hp & Ht). cbn [fst snd] in *.
  assert (Hrest : ∀ g, g ∈ l → 0 ≤ (g.2 - count_of pv g.1) * gpus g.1).
  { intros g Hg. destruct (Hl g ltac:(by right)) as (_ & ? & _). pose proof (gpusPerReplica_pos stateMap g.1). nia. }
  apply sumZ_nonneg in Hrest. rewrite !sumZ_cons in *. cbn [fst snd] in *.
  pose proof (gpusPerReplica_pos stateMap v) as Hg.
  set (back := n - count_of pv v) in *. assert (Hb : 0 ≤ back * gpus v) by nia.
  unfold take_back_growth at 2. cbn [fst snd]. rewrite (wrap_id (n - count_of pv v)) by int_lia. fold back.
  assert (Hnext : ∀ t1, (∀ x, x ≠ v → target_of t1 x = target_of t x) → ∀ g, g ∈ l →
    named records g.1 ∧ 0 ≤ count_of pv g.1 ≤ g.2 ∧ g.2 ≤ target_of t1 g.1 ≤ int_max).
  { intros t1 Ht1 g Hgl. rewrite Ht1; [by apply Hl; right|]. intros <-. apply Hv. by apply list_elem_of_fmap_2. }
  apply list_elem_of_fmap in Hin as (vc & -> & Hvc).
  destruct (Z.ltb_spec 0 back) as [Hpos|Hz].
  - rewrite (wrap_id (target_of t (rec_Name vc) - back)), (wrap_id (back * _)), (wrap_id (refund + _)) by int_lia.
    set (t1 := <[rec_Name vc := target_of t (rec_Name vc) - back]> t).
    assert (Ht1 : ∀ x, x ≠ rec_Name vc → target_of t1 x = target_of t x).
    { intros x Hx. unfold t1. by rewrite target_of_insert, decide_False by congruence. }
    specialize (IH t1 (refund + back * gpus (rec_Name vc)) Hnd (Hnext t1 Ht1) ltac:(lia) ltac:(lia)).
    destruct (foldl _ _ l) as [t' r']. destruct IH as (I1 & I2 & I3 & I4). split_and!.
    + intros x [Hx Hxl]%not_elem_of_cons. rewrite I1 by done. by apply Ht1.
    + intros g [->|Hgl]%elem_of_cons; cbn [fst snd].
      * rewrite I1 by done. unfold t1. by rewrite target_of_insert, decide_True.
      * rewrite I2 by done. rewrite Ht1; [done|]. intros He. apply Hv. rewrite <- He. by apply list_elem_of_fmap_2.
    + lia.
    + rewrite I4. unfold t1. replace (target_of t (rec_Name vc) - back) with (target_of t (rec_Name vc) + - back) by lia.
      rewrite grown_commit by done. lia.
  - assert (Hb0 : back = 0) by (unfold back in *; lia). rewrite Hb0 in *.
    specialize (IH t refund Hnd (Hnext t ltac:(done)) ltac:(lia) ltac:(lia)).
    destruct (foldl _ _ l) as [t' r']. destruct IH as (I1 & I2 & I3 & I4). split_and!; [|..].
    + intros x [Hx Hxl]%not_elem_of_cons. by apply I1.
    + intros g [->|Hgl]%elem_of_cons; cbn [fst snd]; [|by apply I2]. rewrite I1 by done. fold back. lia.
    + lia.
    + lia.
Qed.
End taking_back.

(** ** The growth lists *)
Section growth.
Context `{GoSort}.
Context (records : list variantRecord) (stateMap : gmap string VariantReplicaState).
Context (t0 t : gmap string Z) (roles : list string).
#[local] Notation gpus := (gpusPerReplicaFromState stateMap).
#[local] Notation G := (role_growth records t0 t).
Hypothesis Hnames : NoDup (rec_Name <$> records).
Hypothesis Hroles : NoDup roles.

Lemma growth_elem r v n : (v, n) ∈ G r ↔ named (variantsForRole records r) v ∧ n = target_of t v - target_of t0 v ∧ 0 < n.
Proof.
  unfold role_growth. rewrite list_elem_of_omap. split.
  - intros (vc & Hvc & Hs). destruct (Z.ltb_spec 0 (target_of t (rec_Name vc) - target_of t0 (rec_Name vc))); simplify_eq.
    unfold sortByCostEfficiencyAsc in Hvc. rewrite sort_slice_perm in Hvc. split_and!; [by apply list_elem_of_fmap_2|done|done].
  - intros ((vc & -> & Hvc)%list_elem_of_fmap & -> & Hp). exists vc. unfold sortByCostEfficiencyAsc.
    rewrite sort_slice_perm. split; [done|]. by rewrite (proj2 (Z.ltb_lt _ _)).
Qed.

Lemma growth_names r : NoDup (G r).*1.
Proof using Hnames.
  unfold role_growth. assert (Hn : NoDup (rec_Name <$> sortByCostEfficiencyAsc (variantsForRole records r))).
  { unfold sortByCostEfficiencyAsc. rewrite sort_slice_perm. unfold variantsForRole. by apply NoDup_filter_keys. }
  induction (sortByCostEfficiencyAsc (variantsForRole records r)) as [|vc l IH]; [constructor|].
  cbn [fmap list_fmap] in Hn. apply NoDup_cons in Hn as [Hv Hn]. cbn [omap list_omap].
  destruct (0 <? _); [|by apply IH]. cbn [fmap list_fmap fst]. apply NoDup_cons. split; [|by apply IH].
  intros ([w n] & Hw & Hin)%list_elem_of_fmap. apply Hv. cbn [fst] in Hw. subst w.
  apply list_elem_of_omap in Hin as (vc' & Hvc' & Hs). destruct (0 <? _); [|done]. injection Hs as <- _.
  by apply list_elem_of_fmap_2.
Qed.

#[local] Notation entries l := (mjoin (G <$> l)).

Lemma entries_elem l v n : (v, n) ∈ entries l ↔ ∃ r, r ∈ l ∧ (v, n) ∈ G r.
Proof.
  rewrite list_elem_of_join. split.
  - intros (k & Hk & (r & -> & Hr)%list_elem_of_fmap). eauto.
  - intros (r & Hr & Hv). exists (G r). split; [done|by apply list_elem_of_fmap_2].
Qed.

Lemma entries_names l : NoDup l → NoDup (entries l).*1.
Proof using Hnames.
  induction l as [|r l IH]; intros Hl; [constructor|]. apply NoDup_cons in Hl as [Hr Hl].
  change (mjoin (G <$> r :: l)) with (G r ++ entries l). rewrite fmap_app. apply NoDup_app.
  split_and!; [apply growth_names| |by apply IH].
  intros v ([w n] & -> & Hin)%list_elem_of_fmap ([w' n'] & He & Hin')%list_elem_of_fmap. cbn [fst] in He. subst w'.
  apply growth_elem in Hin as [H1 _]. apply entries_elem in Hin' as (r' & Hr' & (H2 & _)%growth_elem).
  apply Hr. by rewrite (one_role records Hnames _ _ _ H1 H2).
Qed.

(** Every rise of a variant is in the list of one of the roles. *)
Hypothesis Hle : ∀ v, target_of t0 v ≤ target_of t v.
Hypothesis Hout : ∀ v, target_of t0 v < target_of t v → ∃ r, r ∈ roles ∧ named (variantsForRole records r) v.

Lemma entries_grown w : grown records t0 w t = sumZ (λ g, g.2 * w g.1) (entries roles).
Proof using Hnames Hroles Hle Hout.
  unfold grown. rewrite <- (sumZ_fmap rec_Name (λ v, (target_of t v - target_of t0 v) * w v)).
  rewrite (sumZ_support _ _ (entries roles).*1 Hnames (entries_names roles Hroles)).
  - rewrite sumZ_fmap. apply sumZ_ext. intros [v n] (r & _ & (_ & -> & _)%growth_elem)%entries_elem. done.
  - intros v ([w' n] & -> & (r & _ & (Hv & _)%growth_elem)%entries_elem)%list_elem_of_fmap. by eapply role_named.
  - intros v _ Hno. enough (target_of t v = target_of t0 v) by nia.
    destruct (Z.eq_dec (target_of t v) (target_of t0 v)) as [?|Hne]; [done|]. exfalso. apply Hno.
    specialize (Hle v). destruct (Hout v ltac:(lia)) as (r & Hr & Hv).
    apply (list_elem_of_fmap_2 fst (entries roles) (v, target_of t v - target_of t0 v)), entries_elem.
    exists r. split; [done|]. apply growth_elem. split_and!; [done|done|lia].
Qed.

Lemma entries_pos l : Forall (λ g, 0 < g.2) (entries l).
Proof. apply Forall_forall. intros [v n] (r & _ & (_ & _ & Hn)%growth_elem)%entries_elem. done. Qed.

Lemma entries_sum : sumZ snd (entries roles) ≤ grown records t0 gpus t.
Proof using Hnames Hroles Hle Hout.
  rewrite entries_grown. apply sumZ_le. intros g Hg. pose proof (proj1 (Forall_forall _ _) (entries_pos roles) g Hg) as Hp.
  cbv beta in Hp. pose proof (gpusPerReplica_pos stateMap g.1). nia.
Qed.

(** The roles that grow are all that matters. *)
Lemma entries_filter (P : string → Prop) `{!∀ r, Decision (P r)} l :
  (∀ r, r ∈ l → ¬ P r → G r = []) → entries (filter P l) = entries l.
Proof.
  induction l as [|r l IH]; intros Hl; [done|]. rewrite filter_cons.
  specialize (IH (λ x Hx, Hl x (list_elem_of_further _ _ _ Hx))). change (entries (r :: l)) with (G r ++ entries l).
  case_decide as Hp; [by rewrite <- IH|]. rewrite (Hl r ltac:(left) Hp). done.
Qed.
End growth.

Section fit_rescale.
Context `{GoSort} `{TaintMatcher}.
Context (records : list variantRecord) (stateMap : gmap string VariantReplicaState) (e : NamedAnalyzerResult).
Context (t0 : gmap string Z) (F0 : Z) (roles : list string) (s : fill_state).
Hypothesis Hnames : NoDup (rec_Name <$> records).
Hypothesis Hroles : NoDup roles.
Hypothesis Ht0 : ∀ v, 0 ≤ target_of t0 v ∧ target_of t0 v + F0 ≤ int_max.
Hypothesis Hfill : filling records stateMap e t0 F0 roles s.
#[local] Notation gpus := (gpusPerReplicaFromState stateMap).
#[local] Notation t := (fs_targets s).
#[local] Notation G := (role_growth records t0 t).
#[local] Notation entries := (mjoin (G <$> roles)).
#[local] Notation rises := (may_rise records e roles).

Lemma fill_out v : target_of t0 v < target_of t v → ∃ r, r ∈ roles ∧ named (variantsForRole records r) v.
Proof using Hfill.
  intros Hlt. destruct (decide (Exists (λ r, NoScaleUp (hold_of e r) = false ∧ v ∈ rec_Name <$> variantsForRole records r) roles))
    as [(r & Hr & _ & Hv)%Exists_exists|Hno]; [by exists r|].
  exfalso. pose proof (ra_out _ _ _ _ _ _ (fi_raised _ _ _ _ _ _ _ Hfill) v) as He. rewrite He in Hlt; [lia|].
  intros (r & Hr & Hh & Hv). apply Hno, Exists_exists. eauto.
Qed.

Lemma fill_grown w : grown records t0 w t = sumZ (λ g, g.2 * w g.1) entries.
Proof using Hnames Hroles Hfill.
  apply entries_grown; [done|done|apply (fi_raised _ _ _ _ _ _ _ Hfill)|apply fill_out].
Qed.

Lemma fill_total : grown records t0 gpus t = F0 - fs_free s.
Proof using Hfill. apply (fi_raised _ _ _ _ _ _ _ Hfill). Qed.

Lemma entry_rise g : g ∈ entries → named records g.1 ∧ 0 < g.2 ∧ g.2 = target_of t g.1 - target_of t0 g.1.
Proof.
  destruct g as [v n]. intros (r & Hin & (Hv & Hn & Hp)%growth_elem)%entries_elem. split_and!; [|done|done]. by eapply role_named.
Qed.

Lemma fill_range v : target_of t v ≤ int_max.
Proof using Ht0 Hfill.
  pose proof (fi_raised _ _ _ _ _ _ _ Hfill) as Hr. pose proof (fi_free _ _ _ _ _ _ _ Hfill) as Hf.
  destruct (raised_range records stateMap t0 t _ v (raised_sel _ _ _ _ _ _ _ (may_rise_named _ _ _) Hr)) as [Hx _].
  specialize (Ht0 v). lia.
Qed.

(** What is left raised after a take-back is what placed. *)
Lemma take_back_raised pv :
  (∀ g, g ∈ entries → 0 ≤ count_of pv g.1 ≤ g.2) →
  let '(t', r) := foldl (take_back_growth stateMap pv) (t, 0) entries in
  raised records stateMap rises t0 t' (F0 - (fs_free s + r)) ∧ 0 ≤ r ∧ fs_free s + r ≤ F0 ∧
  ∀ w, grown records t0 w t' = sumZ (λ g, count_of pv g.1 * w g.1) entries.
Proof using Hnames Hroles Ht0 Hfill.
  intros Hpv. pose proof (fi_raised _ _ _ _ _ _ _ Hfill) as Hr. pose proof (fi_free _ _ _ _ _ _ _ Hfill) as Hf.
  assert (Hb : 0 ≤ sumZ (λ g, (g.2 - count_of pv g.1) * gpus g.1) entries ≤ F0 - fs_free s).
  { rewrite <- fill_total, fill_grown. split.
    - apply sumZ_nonneg. intros g Hg. specialize (Hpv g Hg). pose proof (gpusPerReplica_pos stateMap g.1). nia.
    - apply sumZ_le. intros g Hg. specialize (Hpv g Hg). pose proof (gpusPerReplica_pos stateMap g.1). nia. }
  assert (Hl : ∀ g, g ∈ entries → named records g.1 ∧ 0 ≤ count_of pv g.1 ≤ g.2 ∧ g.2 ≤ target_of t g.1 ≤ int_max).
  { intros g Hg. destruct (entry_rise g Hg) as (Hv & Hp & He).
    split_and!; [done|apply Hpv; done|apply Hpv; done| |apply fill_range].
    specialize (Ht0 g.1). lia. }
  assert (Hm : 0 + sumZ (λ g, (g.2 - count_of pv g.1) * gpus g.1) entries ≤ int_max) by (pose proof (Ht0 ""); lia).
  pose proof (λ w, take_back_spec records stateMap pv Hnames w t0 entries t 0
    (entries_names records t0 t Hnames roles Hroles) Hl ltac:(done) Hm) as Hspec.
  destruct (foldl _ _ _) as [t' r].
  assert (Hgr : ∀ w, grown records t0 w t' = sumZ (λ g, count_of pv g.1 * w g.1) entries).
  { intros w. destruct (Hspec w) as (_ & _ & _ & ->). rewrite fill_grown, <- sumZ_minus. apply sumZ_ext. intros; lia. }
  destruct (Hspec gpus) as (T1 & T2 & T3 & T4). assert (Hr0 : 0 ≤ r ≤ F0 - fs_free s) by lia.
  split_and!; [|lia|lia|done]. destruct Hr as [R1 R2 R3 R4].
  assert (Hle : ∀ v, target_of t0 v ≤ target_of t' v ≤ target_of t v).
  { intros v. destruct (decide (v ∈ entries.*1)) as [(g & -> & Hg)%list_elem_of_fmap|Hno]; [|rewrite T1 by done; split; [apply R1|done]].
    destruct (entry_rise g Hg) as (_ & _ & He). rewrite T2 by done. specialize (Hpv g Hg). lia. }
  split.
  - apply Hle.
  - intros v Hv. specialize (Hle v). rewrite R2 in Hle by done. lia.
  - intros v m Hmx. specialize (R3 v m Hmx). specialize (Hle v). lia.
  - rewrite T4, T3, fill_total. lia.
Qed.

Hypothesis Hnamed : "" ∉ roles.

Lemma want_sum r : r ∈ roles → want_of (fs_grown s) r = sumZ snd (G r).
Proof using Hnames Hroles Ht0 Hfill.
  intros Hr. unfold want_of. rewrite (fi_grown _ _ _ _ _ _ _ Hfill), foldl_wrap_sum, Z.add_0_l by done. apply wrap_id.
  assert (Hn : ∀ x, x ∈ roles → 0 ≤ sumZ snd (G x)).
  { intros x Hx. apply sumZ_nonneg. intros [v n] (_ & _ & ?)%growth_elem. cbn [snd]. lia. }
  pose proof (sumZ_elem_le (λ x, sumZ snd (G x)) roles r Hn Hr) as Hle. cbv beta in Hle. rewrite <- sumZ_join in Hle.
  pose proof (entries_sum records stateMap t0 t roles Hnames Hroles (ra_le _ _ _ _ _ _ (fi_raised _ _ _ _ _ _ _ Hfill)) fill_out) as Hs.
  rewrite fill_total in Hs. pose proof (fi_free _ _ _ _ _ _ _ Hfill). specialize (Hn r Hr). pose proof (Ht0 ""). int_lia.
Qed.

#[local] Notation filling_roles := (filter (λ r, 0 < want_of (fs_grown s) r) roles).

Lemma filling_entries : mjoin (G <$> filling_roles) = entries.
Proof using Hnames Hroles Ht0 Hfill.
  apply entries_filter. intros r Hr Hn. rewrite want_sum in Hn by done.
  pose proof (entries_pos records t0 t [r]) as Hp. cbn [fmap list_fmap] in Hp. change (mjoin [G r]) with (G r ++ []) in Hp.
  rewrite app_nil_r in Hp. destruct (G r) as [|g l]; [done|]. exfalso. apply Hn. rewrite sumZ_cons.
  apply Forall_cons in Hp as [Hg Hp]. enough (0 ≤ sumZ snd l) by lia. apply sumZ_nonneg. intros x Hx.
  rewrite Forall_forall in Hp. specialize (Hp x Hx). lia.
Qed.

(** The view after a fit: it holds the pods of exactly the replicas that stay
    ordered. *)
Definition view_fits (ns : string) (nodes nodes' : option NodeView) (t' : gmap string Z) : Prop :=
  match nodes, nodes' with
  | None, None => True
  | Some v, Some v' => wf v' ∧ grows v v' ∧ owner v' = owner v ∧
      total_debit v' = total_debit v + grown records t0 (λ x, pods_total (nf_replica v ns records stateMap x)) t'
  | _, _ => False
  end.

Lemma want_count r : r ∈ filling_roles →
  count_of (list_to_map ((λ role, (role, want_of (fs_grown s) role)) <$> roles)) r = sumZ snd (G r).
Proof using Hnames Hroles Ht0 Hfill.
  intros [_ Hr]%list_elem_of_filter. rewrite <- want_sum by done. unfold count_of.
  rewrite (elem_of_list_to_map_1 _ r (want_of (fs_grown s) r)); [done| |].
  - rewrite <- list_fmap_compose. by rewrite (list_fmap_ext _ id), list_fmap_id.
  - by apply (list_elem_of_fmap_2 (λ role, (role, want_of (fs_grown s) role))).
Qed.

(** Nothing grew, or there is no view. *)
Lemma fit_nothing ns nodes :
  (match nodes with Some v => wf v | None => True end) → (is_Some nodes → entries = []) →
  raised records stateMap rises t0 t (F0 - (fs_free s + 0)) ∧ 0 ≤ 0 ∧ fs_free s + 0 ≤ F0 ∧ view_fits ns nodes nodes t.
Proof using Hnames Hroles Hfill.
  intros Hv He. rewrite Z.add_0_r. split_and!; [apply (fi_raised _ _ _ _ _ _ _ Hfill)|done| |].
  - pose proof (raised_range records stateMap t0 t _ "" (raised_sel _ _ _ _ _ _ _ (may_rise_named _ _ _)
      (fi_raised _ _ _ _ _ _ _ Hfill))). lia.
  - destruct nodes as [v|]; [|done]. split_and!; [done|done|done|]. rewrite fill_grown, He by done.
    unfold sumZ. simpl. lia.
Qed.

(** The placement of what the fills added. *)
Lemma grown_placed v rep :
  wf v →
  let want := list_to_map ((λ role, (role, want_of (fs_grown s) role)) <$> roles) in
  let fuel := Z.to_nat (sumZ (want_of (fs_grown s)) filling_roles) in
  let '(trial, _, pv, _) := place_grown fuel filling_roles want (fs_grown s) rep (Clone v) ∅ ∅ in
  wf trial ∧ grows v trial ∧ total_debit trial = total_debit v + sumZ (λ g, count_of pv g.1 * pods_total (rep g.1)) entries ∧
  ∀ g, g ∈ entries → 0 ≤ count_of pv g.1 ≤ g.2.
Proof using All.
  intros Hv. cbv zeta. set (want := list_to_map _). set (fuel := Z.to_nat _).
  assert (Hnd : NoDup filling_roles) by (by apply NoDup_filter).
  assert (Hn' : "" ∉ filling_roles) by (by intros [_ ?]%list_elem_of_filter).
  pose proof (entries_pos records t0 t filling_roles) as Hpos.
  pose proof (entries_names records t0 t Hnames filling_roles Hnd) as Hen.
  assert (Hsum : sumZ snd (mjoin (G <$> filling_roles)) ≤ int_max).
  { rewrite filling_entries. etrans; [apply (entries_sum records stateMap t0 t roles Hnames Hroles
      (ra_le _ _ _ _ _ _ (fi_raised _ _ _ _ _ _ _ Hfill)) fill_out)|].
    rewrite fill_total. pose proof (Ht0 ""). pose proof (fi_free _ _ _ _ _ _ _ Hfill). lia. }
  pose proof (placing_start filling_roles G rep v want want_count Hpos Hsum Hv) as Hst.
  pose proof (place_grown_spec filling_roles G rep v (fs_grown s) want Hnd Hn' (fi_grown _ _ _ _ _ _ _ Hfill) want_count
    Hpos Hen Hsum fuel (Clone v) ∅ ∅ Hst) as Hp.
  destruct (place_grown _ _ _ _ _ _ _ _) as [[[trial placed] pv] short]. destruct Hp as [Hp _].
  { rewrite (sumZ_ext (count_of ∅) (λ _, 0)), sumZ_zero by done. unfold fuel.
    rewrite (sumZ_ext (want_of (fs_grown s)) (count_of want)); [lia|].
    intros r Hr. etrans; [|symmetry; exact (want_count r Hr)]. apply list_elem_of_filter in Hr as [_ Hr]. by apply want_sum. }
  pose proof (placing_range filling_roles G rep v want Hpos trial placed pv) as Hrange.
  destruct Hp as [Pw Pg Pt Pc Pp]. rewrite filling_entries in Pt, Hrange.
  split_and!; [done|done|done|]. intros g Hg. apply Hrange; [by split; rewrite ?filling_entries|done].
Qed.

Lemma fitRescaleToNodes_spec nodes req limited :
  (match nodes with Some v => wf v | None => True end) →
  let '(nodes', t', refund, _) := fitRescaleToNodes nodes req records stateMap t roles (fs_grown s) limited in
  raised records stateMap rises t0 t' (F0 - (fs_free s + refund)) ∧ 0 ≤ refund ∧ fs_free s + refund ≤ F0 ∧
  view_fits (req_Namespace req) nodes nodes' t'.
Proof using All.
  intros Hv. unfold fitRescaleToNodes. destruct nodes as [v|]; [|by apply fit_nothing; [|intros [? ?]]].
  case_bool_decide as Hg.
  { apply fit_nothing; [done|]. intros _. rewrite <- filling_entries. rewrite filter_none; [done|]. apply Forall_forall.
    intros r Hr Hw. rewrite Hg in Hw. unfold want_of in Hw. by rewrite lookup_empty in Hw. }
  pose proof (grown_placed v (nf_replica v (req_Namespace req) records stateMap) Hv) as Hp. cbv zeta in Hp |- *.
  destruct (place_grown _ _ _ _ _ _ _ _) as [[[trial placed] pv] short]. destruct Hp as (Pw & Pg & Pt & Pr).
  rewrite (list_fmap_ext _ G) by (intros; apply Hfill). rewrite filling_entries.
  destruct (_ && _).
  - pose proof (take_back_raised ∅) as Hb. destruct (foldl _ _ _) as [t' r]. destruct Hb as (B1 & B2 & B3 & B4).
    { intros g Hge. unfold count_of. rewrite lookup_empty. cbn [default]. destruct (entry_rise g Hge). lia. }
    split_and!; [done|done|done|]. split_and!; [done|done|done|]. rewrite B4, (sumZ_ext _ (λ _, 0)), sumZ_zero; [lia|].
    intros g _. unfold count_of. rewrite lookup_empty. done.
  - pose proof (take_back_raised pv Pr) as Hb. destruct (foldl _ _ _) as [t' r]. destruct Hb as (B1 & B2 & B3 & B4).
    split_and!; [done|done|done|].
    destruct (adopt_wf (setOwner v (modelKey req)) trial (setOwner_wf _ _ Hv) Pw Pg) as (A1 & A2 & A3 & A4 & _).
    split_and!; [by apply setOwner_wf|exact A2|done|]. rewrite B4, <- Pt.
    apply total_debit_eq; [|done]. cbn. destruct A2 as [-> _]. symmetry. apply Pg.
Qed.
End fit_rescale.
