(* ===== verification/RescaleSafety.v ===== *)
(** * One model's rescale

    The decisions of one model of a group of [Rescale].

    Theorems: one model's decisions keep its bounds and its holds, order no more than
    they take of the GPUs the group may hand out, and with a node view only what was
    placed. *)
From Stdlib Require Import ZArith Lia String Ascii SpecFloat.
From stdpp Require Import base gmap strings list sorting fin_maps.
From S2P Require Import Prelude Accelerator Budget NodeView GoFloat GoCmp Domain Signals WaterFill ScaleDown PairFit ScaleUp Attribution Greedy Rescale RescaleFill RescaleNodes.
Open Scope Z_scope.

(** ** What a decision orders *)

(** The GPUs of the replicas a decision adds. *)
Definition ordered_gpus (d : VariantDecision) : Z := Z.max 0 (TargetReplicas d - CurrentReplicas d) * dec_GPUsPerReplica d.

(** What a decision says of sizes, which attribution and reasons leave alone. *)
Definition sizing (d : VariantDecision) :=
  (VariantName d, dec_Namespace d, ModelID d, CurrentReplicas d, TargetReplicas d, dec_GPUsPerReplica d,
   dec_MinReplicas d, dec_MaxReplicas d, dec_AcceleratorName d).

Lemma attribution_sizing ds limited constraints :
  sizing <$> (applyGPULimitAttribution ds limited constraints).1 = sizing <$> ds.
Proof.
  unfold applyGPULimitAttribution.
  assert (Hg : ∀ acc, sizing <$> (foldl (attribute_one (default ∅ limited) constraints) acc ds).1 =
    (sizing <$> acc.1) ++ (sizing <$> ds)); [|by rewrite Hg].
  induction ds as [|d ds IH]; intros acc; [by rewrite app_nil_r|]. cbn [foldl]. rewrite IH.
  assert (He : sizing <$> (attribute_one (default ∅ limited) constraints acc d).1 = (sizing <$> acc.1) ++ [sizing d]).
  { unfold attribute_one. destruct (default ∅ limited !! VariantName d) as [cause|]; [|cbn [fst]; by rewrite fmap_app].
    destruct (limit_names constraints d cause) as [name also]. cbn [fst]. by rewrite fmap_app. }
  by rewrite He, <- (assoc_L (++)).
Qed.

Lemma tag_sizing d : sizing (tag_reclaim d) = sizing d.
Proof. unfold tag_reclaim. by destruct (dec_Action d). Qed.

Lemma ordered_sizing d d' : sizing d = sizing d' → ordered_gpus d = ordered_gpus d'.
Proof. unfold sizing, ordered_gpus. intros [=]. congruence. Qed.

(** A sum over decisions that only reads their sizes. *)
Lemma sum_sizing (f : VariantDecision → Z) ds ds' :
  (∀ d d', sizing d = sizing d' → f d = f d') → sizing <$> ds = sizing <$> ds' → sumZ f ds = sumZ f ds'.
Proof.
  intros Hf. revert ds'. induction ds as [|d ds IH]; intros [|d' ds']; intros He; try done. cbn [fmap list_fmap] in He.
  injection He as ? ? ? ? ? ? ? ? ? Ht. rewrite !sumZ_cons, (IH ds' Ht), (Hf d d'); [done|]. unfold sizing. congruence.
Qed.

Section targets.
Context (records : list variantRecord) (cur : string → Z) (r t : gmap string Z) (w : string → Z).
Hypothesis Hnames : NoDup (rec_Name <$> records).
Hypothesis Hw : ∀ v, 0 ≤ w v.
Hypothesis Hcur : ∀ v, 0 ≤ cur v ∧ target_of r v ≤ cur v.
Hypothesis Hrise : ∀ v, target_of r v ≤ target_of t v.
Hypothesis Hout : ∀ v, ¬ named records v → target_of t v = target_of r v.

(** What rises above the replicas there are is within what was filled. *)
Lemma ordered_within : sumZ (λ p, Z.max 0 (p.2 - cur p.1) * w p.1) (map_to_list t) ≤ grown records r w t.
Proof using All.
  set (h := λ v, Z.max 0 (target_of t v - cur v) * w v).
  assert (Hh : sumZ (λ p, Z.max 0 (p.2 - cur p.1) * w p.1) (map_to_list t) = sumZ h (map_to_list t).*1).
  { rewrite sumZ_fmap. apply sumZ_ext. intros [v n] Hin%elem_of_map_to_list. unfold h, target_of. cbn [fst snd].
    by rewrite Hin. }
  set (ks := filter (λ v, v ∈ rec_Name <$> records) (map_to_list t).*1).
  rewrite Hh, (sumZ_support h _ ks); [..|apply NoDup_fst_map_to_list|apply NoDup_filter, NoDup_fst_map_to_list| |].
  - rewrite <- (sumZ_support h (rec_Name <$> records) ks Hnames); [..|apply NoDup_filter, NoDup_fst_map_to_list| |].
    + unfold grown. rewrite sumZ_fmap. apply sumZ_le. intros vc _. unfold h. specialize (Hw (rec_Name vc)).
      specialize (Hcur (rec_Name vc)). specialize (Hrise (rec_Name vc)). nia.
    + intros v [? _]%list_elem_of_filter. done.
    + intros v Hv Hno. unfold h. destruct (t !! v) as [n|] eqn:E.
      * exfalso. apply Hno, list_elem_of_filter. split; [done|]. apply elem_of_keys. eauto.
      * unfold target_of. rewrite E. cbn [default]. specialize (Hcur v). replace (Z.max 0 (0 - cur v)) with 0 by lia. done.
  - intros v [_ ?]%list_elem_of_filter. done.
  - intros v Hv Hno. unfold h. rewrite Hout; [|intros Hn; by apply Hno, list_elem_of_filter].
    specialize (Hcur v). replace (Z.max 0 (target_of r v - cur v)) with 0 by lia. done.
Qed.
End targets.

(** ** The fields of a decision *)
Lemma state_gpus sm v : (let g := st_GPUsPerReplica (state_of sm v) in if g <=? 0 then 1 else g) = gpusPerReplicaFromState sm v.
Proof.
  unfold state_of, gpusPerReplicaFromState. destruct (sm !! v) as [st|]; [|done]. cbn.
  destruct (Z.leb_spec (st_GPUsPerReplica st) 0), (Z.ltb_spec 0 (st_GPUsPerReplica st)); lia.
Qed.

Lemma capacity_acc records v :
  NoDup (rec_Name <$> records) → rec_Acc (default zero_record (buildCapacityMap records !! v)) = accFromVCs records v.
Proof.
  intros Hn. unfold buildCapacityMap, last_by.
  assert (Hg : ∀ m : gmap string variantRecord, (∀ vc, vc ∈ records → m !! rec_Name vc = None) →
    rec_Acc (default zero_record (foldl (λ m x, <[rec_Name x := x]> m) m records !! v)) =
    if decide (v ∈ rec_Name <$> records) then accFromVCs records v else rec_Acc (default zero_record (m !! v))).
  { induction records as [|vc l IH]; intros m Hm; [done|]. cbn [foldl fmap list_fmap] in *. apply NoDup_cons in Hn as [Hni Hn].
    rewrite IH; [|done|].
    - cbn [accFromVCs]. destruct (String.eqb_spec (rec_Name vc) v) as [<-|Hne].
      + rewrite (decide_False (P := rec_Name vc ∈ rec_Name <$> l)) by done. rewrite lookup_insert_eq. by rewrite decide_True by left.
      + rewrite lookup_insert_ne by done. destruct (decide (v ∈ rec_Name <$> l)).
        * by rewrite decide_True by (by right).
        * rewrite decide_False; [done|]. by intros [?|?]%elem_of_cons.
    - intros x Hx. rewrite lookup_insert_ne; [apply Hm; by right|]. intros He. apply Hni. rewrite He. by apply list_elem_of_fmap_2. }
  rewrite Hg; [|intros; apply lookup_empty]. destruct (decide _) as [|Hno]; [done|]. rewrite lookup_empty. clear -Hno.
  induction records as [|vc l IH]; [done|]. cbn [accFromVCs]. destruct (String.eqb_spec (rec_Name vc) v) as [<-|_].
  - exfalso. apply Hno. left.
  - apply IH. intros Hv. apply Hno. by right.
Qed.

Lemma accFromVCs_named records vc : NoDup (rec_Name <$> records) → vc ∈ records → accFromVCs records (rec_Name vc) = rec_Acc vc.
Proof.
  induction records as [|x l IH]; intros Hn Hin; [by apply not_elem_of_nil in Hin|]. apply NoDup_cons in Hn as [Hni Hn].
  cbn [accFromVCs]. apply elem_of_cons in Hin as [->|Hin]; [by rewrite String.eqb_refl|].
  rewrite (proj2 (String.eqb_neq _ _)); [by apply IH|]. intros He. apply Hni. rewrite He. by apply list_elem_of_fmap_2.
Qed.

Lemma buildDecision_sizes req records name p :
  let sm := buildStateMap (VariantStates req) in
  let d := buildDecision req sm (buildCapacityMap records) name p in
  dec_GPUsPerReplica d = gpusPerReplicaFromState sm p.1 ∧
  (NoDup (rec_Name <$> records) → dec_AcceleratorName d = accFromVCs records p.1).
Proof.
  destruct p as [v n]. cbv zeta. rewrite <- state_gpus. split; [|intros Hn; rewrite <- capacity_acc by done]; unfold buildDecision;
    by destruct (requiredSpareForRoleOrModel _ _), (variantDemandShare _ _ _).
Qed.

(** ** One model *)
Section model.
Context `{GoSort} `{MapRange} `{TaintMatcher} {C : IntConv}.
Context (req : ModelScalingRequest) (all : list variantRecord) (accType : string).
#[local] Notation e := (CompositeSignal req).
#[local] Notation sm := (buildStateMap (VariantStates req)).
#[local] Notation start := (initTargets (VariantStates req)).
#[local] Notation recs := (variantsOnType all accType).
#[local] Notation roles := (modelRolesOnType recs accType).

(** Where a model's targets end: lowered to [r], then raised, from [free] GPUs. *)
Record rescaled (r t : gmap string Z) (free free' : Z) : Prop := {
  rd_lowered : lowered sm (may_fall recs e roles) start r;
  rd_raised : raised recs sm (may_rise recs e roles) r t (free - free');
  rd_free : 0 ≤ free' ≤ free;
  rd_pinned : pinnedModel e = true → t = start }.

Lemma fill_pinned tgt s l : foldl (fill_step e recs sm tgt tgt) s l = s.
Proof. induction l as [|x l IH] in s |- *; [done|]. cbn [foldl]. unfold fill_step at 2. by rewrite Z.leb_refl. Qed.

Lemma roles_named : "" ∉ roles.
Proof.
  unfold modelRolesOnType, rolesOf. rewrite sort_strings_perm, elem_of_remove_dups.
  intros (vc & He & _)%list_elem_of_fmap. unfold canonical_role in He.
  destruct (String.eqb_spec (rec_Role vc) ""); [done|congruence].
Qed.

Lemma rescale_targets_spec nodes targetGPUs free :
  NoDup (rec_Name <$> all) → (∀ v, 0 ≤ target_of start v ∧ target_of start v + free ≤ int_max) → 0 ≤ free →
  (∀ v, 0 ≤ min_of sm v ≤ int_max) → (match nodes with Some v => wf v | None => True end) →
  let '(nodes', t, free', _) := rescale_targets nodes req all accType targetGPUs free in
  ∃ r, rescaled r t free free' ∧ view_fits recs sm r (req_Namespace req) nodes nodes' t.
Proof.
  intros Hn Hs Hf Hmin Hv. unfold rescale_targets.
  assert (Hnr : NoDup (rec_Name <$> recs)) by (by apply NoDup_filter_keys).
  assert (Hok : targets_ok start) by (intros v; specialize (Hs v); lia).
  set (cur := role_map (roleCurrentGPUs _ _ _) _).
  set (tr := if pinnedModel e then _ else _).
  assert (Htr : lowered sm (may_fall recs e roles) start tr.2 ∧ (pinnedModel e = true → tr = (cur, start))).
  { unfold tr. destruct (pinnedModel e); [split; [by apply lowered_refl|done]|]. split; [|done].
    cbv zeta. cbn [snd]. by apply reclaimWholeReplicas_spec. }
  clearbody tr. destruct tr as [tgt r]. cbn [snd] in Htr. destruct Htr as [Hlow Hpin].
  assert (Hr : ∀ v, 0 ≤ target_of r v ∧ target_of r v + free ≤ int_max).
  { intros v. pose proof (lo_ok _ _ _ _ Hlow v). pose proof (lo_range _ _ _ _ Hlow v). specialize (Hs v). lia. }
  pose proof (proj1 (rolesOf_spec (variantsOnType recs accType))) as Hnd.
  pose proof (fill_steps_spec recs sm Hnr e r free Hr tgt cur roles [] _ Hnd ltac:(set_solver)
    (fill_start recs sm e r free (Some ∅) Hf)) as Hfill.
  set (s := foldl _ _ _) in *. rewrite app_nil_r in Hfill.
  assert (Hfill' : filling recs sm e r free roles s).
  { destruct Hfill as [F1 F2 F3]. split; [|done|done]. eapply raised_sel; [|exact F1].
    intros v (x & Hx & Hrest). exists x. by rewrite elem_of_reverse in Hx. }
  pose proof (fitRescaleToNodes_spec recs sm e r free roles s Hnr Hnd Hr Hfill' roles_named nodes req (fs_limited s) Hv) as Hfit.
  pose proof (fi_free _ _ _ _ _ _ _ Hfill') as Hfree.
  assert (Hp : pinnedModel e = true → fs_targets s = start ∧ fs_grown s = ∅).
  { intros Hp. specialize (Hpin Hp). simplify_eq. unfold s. by rewrite fill_pinned. }
  assert (Hkeep : pinnedModel e = true →
    (fitRescaleToNodes nodes req recs sm (fs_targets s) roles (fs_grown s) (fs_limited s)).1.1.2 = start).
  { intros (-> & ->)%Hp. by destruct nodes. }
  destruct (fitRescaleToNodes _ _ _ _ _ _ _ _) as [[[nodes' t] refund] lim]. cbn [fst snd] in Hkeep.
  destruct Hfit as (R1 & R2 & R3 & R4). exists r. split; [|done].
  pose proof (Hs ""). rewrite wrap_id by int_lia. split; try done. lia.
Qed.

#[local] Notation decisions t := (buildDecisionsWithOptimizer req sm (buildCapacityMap all) t "rescale").

(** What one model's decisions promise. *)
Record decisions_sound (ds : list VariantDecision) (free free' : Z) : Prop := {
  ds_free : 0 ≤ free' ≤ free;
  ds_ordered : sumZ ordered_gpus ds ≤ free - free';
  ds_each : ∀ d, d ∈ ds → within_bounds d ∧ ModelID d = req_ModelID req ∧ dec_Namespace d = req_Namespace req;
  ds_pinned : pinnedModel e = true → ∀ d, d ∈ ds → TargetReplicas d = CurrentReplicas d;
  ds_held : ∀ d vc, d ∈ ds → vc ∈ all → rec_Name vc = VariantName d →
    let h := hold_of e (canonical_role (rec_Role vc)) in
    (NoScaleUp h = true → TargetReplicas d ≤ CurrentReplicas d) ∧
    (NoScaleDown h = true → CurrentReplicas d ≤ TargetReplicas d);
  ds_grown : ∀ d, d ∈ ds → TargetReplicas d ≤ CurrentReplicas d ∨
    ∃ vc, vc ∈ recs ∧ rec_Name vc = VariantName d ∧ rec_Acc vc = dec_AcceleratorName d }.

Lemma sound_sizing ds ds' free free' :
  sizing <$> ds' = sizing <$> ds → decisions_sound ds free free' → decisions_sound ds' free free'.
Proof.
  intros He [D1 D2 D3 D4 D5 D6].
  assert (Hd : ∀ d', d' ∈ ds' → ∃ d, d ∈ ds ∧ sizing d' = sizing d).
  { intros d' Hd. apply (list_elem_of_fmap_2 sizing) in Hd. rewrite He in Hd.
    apply list_elem_of_fmap in Hd as (d & Hs & Hin). eauto. }
  split; [done| |..].
  - rewrite (sum_sizing ordered_gpus ds' ds); [done|apply ordered_sizing|done].
  - intros d' (d & Hin & [= S1 S2 S3 S4 S5 S6 S7 S8 S9])%Hd. unfold within_bounds. rewrite S2, S3, S4, S5, S7, S8. by apply D3.
  - intros Hp d' (d & Hin & [= S1 S2 S3 S4 S5 S6 S7 S8 S9])%Hd. rewrite S4, S5. by apply D4.
  - intros d' vc (d & Hin & [= S1 S2 S3 S4 S5 S6 S7 S8 S9])%Hd. rewrite S1, S4, S5. by apply D5.
  - intros d' (d & Hin & [= S1 S2 S3 S4 S5 S6 S7 S8 S9])%Hd. rewrite S1, S4, S5, S9. by apply D6.
Qed.

Hypothesis Hnames : NoDup (rec_Name <$> all).

Lemma role_of_named role vc : vc ∈ all → named (variantsForRole recs role) (rec_Name vc) → canonical_role (rec_Role vc) = role.
Proof using Hnames.
  intros Hin (vc' & He & [Hr [_ Hin']%list_elem_of_filter]%list_elem_of_filter)%list_elem_of_fmap.
  by rewrite (fmap_inj_NoDup rec_Name all vc vc' Hnames Hin Hin' He).
Qed.

Lemma decision_fields t d : d ∈ decisions t → ∃ v, VariantName d = v ∧ TargetReplicas d = target_of t v ∧
  CurrentReplicas d = target_of start v ∧ dec_MinReplicas d = st_MinReplicas (state_of sm v) ∧
  dec_MaxReplicas d = st_MaxReplicas (state_of sm v) ∧ ModelID d = req_ModelID req ∧ dec_Namespace d = req_Namespace req.
Proof.
  intros ([v n] & -> & Hin%elem_of_map_to_list)%list_elem_of_fmap. exists v.
  destruct (buildDecision_fields req sm (buildCapacityMap all) "rescale" (v, n)) as (F0 & F1 & F2 & F3 & F4 & F5 & F6).
  cbn [fst snd] in *. rewrite F1, F2, (initTargets_of (VariantStates req) v). unfold target_of. by rewrite Hin.
Qed.

(** Weighted by variant, the replicas the decisions add are within what was filled. *)
Lemma decisions_within r t free free' w :
  rescaled r t free free' → (∀ v, 0 ≤ target_of start v) → (∀ v, 0 ≤ w v) →
  sumZ (λ d, Z.max 0 (TargetReplicas d - CurrentReplicas d) * w (VariantName d)) (decisions t) ≤ grown recs r w t.
Proof using Hnames.
  intros [[L1 L2 L3] [R1 R2 R3 R4] Hf Hp] Hs Hw. unfold buildDecisionsWithOptimizer. rewrite sumZ_fmap.
  etrans; [|apply (ordered_within recs (target_of start) r t w)].
  - apply Z.eq_le_incl, sumZ_ext. intros p _.
    destruct (buildDecision_fields req sm (buildCapacityMap all) "rescale" p) as (-> & -> & -> & _).
    by rewrite (initTargets_of (VariantStates req) p.1).
  - by apply NoDup_filter_keys.
  - done.
  - intros v. split; [apply Hs|apply L1].
  - done.
  - intros v Hv. apply R2. intros Hr. by eapply Hv, may_rise_named.
Qed.

Lemma rescaled_sound r t free free' :
  rescaled r t free free' → (∀ v, 0 ≤ target_of start v) → decisions_sound (decisions t) free free'.
Proof using Hnames.
  intros Hrd Hs. pose proof (λ w, decisions_within r t free free' w Hrd Hs) as Hw.
  destruct Hrd as [[L1 L2 L3] [R1 R2 R3 R4] Hf Hp]. split; [done| |..].
  - rewrite <- R4. etrans; [|apply Hw; intros v; pose proof (gpusPerReplica_pos sm v); lia].
    apply Z.eq_le_incl, sumZ_ext. intros d (p & -> & _)%list_elem_of_fmap. unfold ordered_gpus.
    rewrite (proj1 (buildDecision_sizes req all "rescale" p)). by destruct (buildDecision_fields req sm (buildCapacityMap all) "rescale" p) as (-> & _).
  - intros d (v & _ & E1 & E2 & E3 & E4 & E5 & E6)%decision_fields. split_and!; [|done|done].
    unfold within_bounds. rewrite E1, E2, E3, E4. specialize (L1 v). specialize (R1 v). split.
    + unfold min_of, state_of in *. destruct (sm !! v); cbn in *; lia.
    + intros m Hm Hpos. specialize (R3 v m). unfold max_bound in R3. rewrite Hm, (proj2 (Z.ltb_lt 0 m)) in R3 by done.
      specialize (R3 eq_refl). lia.
  - intros Hpin d (v & _ & E1 & E2 & _)%decision_fields. by rewrite E1, E2, Hp.
  - intros d vc (v & Hv & E1 & E2 & _)%decision_fields Hin Hvn. rewrite Hv in Hvn. subst v. rewrite E1, E2, <- Hvn. specialize (L1 (rec_Name vc)). specialize (R1 (rec_Name vc)).
    split; intros Hh.
    + rewrite R2; [lia|]. intros (role & _ & Hn & Hv). rewrite <- (role_of_named role vc Hin Hv) in Hn. congruence.
    + rewrite <- L2; [done|]. intros (role & _ & Hn & Hv). rewrite <- (role_of_named role vc Hin Hv) in Hn. congruence.
  - intros d Hd. pose proof Hd as (v & Hv & E1 & E2 & _)%decision_fields. specialize (L1 v).
    destruct (decide (v ∈ rec_Name <$> recs)) as [(vc & -> & Hin)%list_elem_of_fmap|Hno].
    + right. exists vc. split_and!; [done|done|]. apply list_elem_of_fmap in Hd as (p & -> & _).
      destruct (buildDecision_fields req sm (buildCapacityMap all) "rescale" p) as (Hp1 & _). rewrite Hp1 in Hv.
      rewrite (proj2 (buildDecision_sizes req all "rescale" p) Hnames), Hv.
      symmetry. apply accFromVCs_named; [done|]. by apply list_elem_of_filter in Hin as [_ ?].
    + left. rewrite E1, E2, R2; [lia|]. intros Hr. by eapply Hno, may_rise_named.
Qed.

(** The view holds the pods of every replica the decisions add. *)
Definition pods_placed (nodes nodes' : option NodeView) (ds : list VariantDecision) : Prop :=
  match nodes, nodes' with
  | None, None => True
  | Some v, Some v' => wf v' ∧ grows v v' ∧ owner v' = owner v ∧
      sumZ (λ d, Z.max 0 (TargetReplicas d - CurrentReplicas d) *
                 pods_total (nf_replica v (req_Namespace req) recs sm (VariantName d))) ds ≤ total_debit v' - total_debit v
  | _, _ => False
  end.
End model.

Lemma rescaleModelDecisions_spec `{GoSort} `{MapRange} `{TaintMatcher} {C : IntConv} B nodes constraints accType req targetGPUs free :
  sane_request B req → 0 ≤ free → B + free ≤ int_max → (match nodes with Some v => wf v | None => True end) →
  let all := default [] (recordsForRequest req) in
  let '(ds, _, free', nodes') := rescaleModelDecisions nodes constraints accType req targetGPUs free in
  decisions_sound req all accType ds free free' ∧ pods_placed req all accType nodes nodes' ds.
Proof.
  intros [Hm _ Hc Hmin] Hf HB Hv. cbv zeta. unfold rescaleModelDecisions, recordsForRequest in *.
  destruct (Result (CompositeSignal req)) as [res|].
  2:{ split; [|destruct nodes; [|done]; split_and!; try done; unfold sumZ; simpl; lia].
      split; [lia|unfold sumZ; simpl; lia|..]; by intros; set_solver. }
  set (all := default [] (buildVariantRecords req (Some res))) in *.
  assert (Hn : NoDup (rec_Name <$> all)).
  { unfold all. destruct (buildVariantRecords req (Some res)) as [rs|]; [|constructor]. by destruct (Hm rs eq_refl). }
  assert (Hs : ∀ v, 0 ≤ target_of (initTargets (VariantStates req)) v ∧ target_of (initTargets (VariantStates req)) v + free ≤ int_max).
  { intros v. rewrite initTargets_of. specialize (Hc v). lia. }
  pose proof (rescale_targets_spec req all accType nodes targetGPUs free Hn Hs Hf Hmin Hv) as Ht.
  destruct (rescale_targets _ _ _ _ _ _) as [[[nodes' t] free'] lim]. destruct Ht as (r & Hrd & Hview).
  destruct (applyGPULimitAttribution _ lim constraints) as [ds cont] eqn:He.
  assert (Hsz : sizing <$> (tag_reclaim <$> ds) =
    sizing <$> buildDecisionsWithOptimizer req (buildStateMap (VariantStates req)) (buildCapacityMap all) t "rescale").
  { etrans; [|apply (attribution_sizing _ lim constraints)]. rewrite He. cbn [fst]. rewrite <- list_fmap_compose.
    apply list_fmap_ext.
    intros ? d _. apply tag_sizing. }
  split; [eapply sound_sizing; [exact Hsz|]; eapply rescaled_sound; [done|exact Hrd|intros v; apply Hs]|].
  unfold pods_placed, view_fits in *. destruct nodes as [v|], nodes' as [v'|]; try done.
  destruct Hview as (V1 & V2 & V3 & V4). split_and!; [done|done|done|].
  rewrite V4, Z.add_comm, Z.add_simpl_r.
  rewrite (sum_sizing _ (tag_reclaim <$> ds) _) with (2 := Hsz) by (unfold sizing; intros d d' [=]; congruence).
  eapply (decisions_within req all accType Hn r t free free' (λ x, pods_total (nf_replica v (req_Namespace req) _ _ x)) Hrd);
    [intros x; apply Hs|]. intros x. unfold pods_total. apply sumZ_nonneg. intros; lia.
Qed.

(** ** Properties *)

(** C22: driving one model to its share of a group's GPUs keeps every decision within
    its variant's minimum and maximum and leaves a pinned model and a role held in
    place as they are; the GPUs of all the replicas the decisions add are within what
    the model takes of the GPUs the group may hand out, which never goes below zero;
    and with a node view every pod of those replicas has been placed on nodes that
    had the GPUs. *)
Theorem rescale_model_sound `{GoSort} `{MapRange} `{TaintMatcher} {C : IntConv} B nodes constraints accType req targetGPUs free :
  sane_request B req → 0 ≤ free → B + free ≤ int_max → (match nodes with Some v => wf v | None => True end) →
  let all := default [] (recordsForRequest req) in
  let '(ds, _, free', nodes') := rescaleModelDecisions nodes constraints accType req targetGPUs free in
  decisions_sound req all accType ds free free' ∧ pods_placed req all accType nodes nodes' ds.
Proof. apply rescaleModelDecisions_spec. Qed.

(** A model short of decode capacity that holds more prefill GPUs than its share. *)
Definition busy_request : ModelScalingRequest :=
  MkRequest "llama" "ns"
    (MkNamed (Some (MkAnalyzerResult (VariantCapacities pd_result) (f_of 1000))) f1 (f_of 1000) f0 None None f0 f0 f0 (f_of 1000) f0
       (Some {["prefill" := MkRoleCapacity f0 (f_of 1000) (f_of 1000) f0;
               "decode" := MkRoleCapacity f0 (f_of 1000) (f_of 1000) f0]}) true ∅ ∅ ∅)
    [MkReplicaState "pre" 4 [] [] "" [] 1 "prefill" None None;
     MkReplicaState "dec" 1 [] [] "" [] 1 "decode" None (Some 9)]
    (metadata <$> pd_variants) f1.

Lemma busy_request_sane : sane_request 10 busy_request.
Proof.
  apply (sane_request_of 10 busy_request pd_variants); [lia|reflexivity| |by_computation..].
  apply sane_model_of; try by_computation. all: repeat constructor; by_computation.
Qed.

Definition busy_run := rescaleModelDecisions (H1 := by_key) (Some three_view) [] "NVIDIA-H100-PCIe" busy_request 6 2.

Lemma rescale_model_sound_witness :
  (λ d, (VariantName d, CurrentReplicas d, TargetReplicas d)) <$> busy_run.1.1.1 = [("dec", 1, 3); ("pre", 4, 2)] ∧
  sumZ ordered_gpus busy_run.1.1.1 ≤ 2.
Proof.
  split; [vm_compute; reflexivity|].
  pose proof (rescale_model_sound (H1 := by_key) 10 (Some three_view) [] "NVIDIA-H100-PCIe" busy_request 6 2 busy_request_sane
    ltac:(lia) ltac:(vm_compute; discriminate) (proj1 three_view_wf)) as Hp. fold busy_run in Hp. cbv zeta in Hp.
  destruct busy_run as [[[ds cont] free'] nodes']. destruct Hp as [[D1 D2 _ _ _ _] _]. cbn [fst]. lia.
Defined.
