(* ===== verification/RescalePass.v ===== *)
(** * All groups of a rescale

    One group's models and debit, then all groups in order ([applyRescale]).

    The account [within_start]: what the budgets hold and the GPUs of the replicas the
    decisions add are together within what the pass started from, under every finite
    key of the cluster and of every namespace ([applyRescale_within]). *)
From Stdlib Require Import ZArith Lia String Ascii SpecFloat.
From stdpp Require Import base gmap strings list sorting fin_maps.
From S2P Require Import Prelude Accelerator Budget NodeView GoFloat GoCmp Domain Signals WaterFill ScaleDown PairFit ScaleUp Attribution Greedy Rescale RescaleFill RescaleNodes RescaleSafety.
Open Scope Z_scope.

(** A view that only gained pods. *)
Definition view_after (nodes nodes' : option NodeView) : Prop :=
  match nodes, nodes' with
  | None, None => True
  | Some v, Some v' => wf v' ∧ grows v v' ∧ owner v' = owner v
  | _, _ => False
  end.

Lemma view_after_trans a b c : view_after a b → view_after b c → view_after a c.
Proof.
  destruct a, b, c; try done. intros (_ & G1 & O1) (W & G2 & O2). split_and!; [done|by etrans|by rewrite O2].
Qed.

(** ** The models of a group *)

(** A decision of the request, on one of its variants if it adds replicas. *)
Definition decides (req : ModelScalingRequest) (d : VariantDecision) : Prop :=
  dec_Namespace d = req_Namespace req ∧
  (ordered_gpus d = 0 ∨ ∃ vc, vc ∈ default [] (recordsForRequest req) ∧ rec_Acc vc = dec_AcceleratorName d).

Section models.
Context `{GoSort} `{MapRange} `{TaintMatcher} {C : IntConv}.
Context (constraints : list (option ResourceConstraints)) (k : string * string) (clusterKey : string) (targets : gmap string Z).
Context (B : Z).

Record models_done (l : list ModelScalingRequest) (rs rs' : rescale_state) (free free' : Z) : Prop := {
  md_free : 0 ≤ free' ≤ free;
  md_available : p_available (rs_pass rs') = p_available (rs_pass rs);
  md_byNS : p_byNS (rs_pass rs') = p_byNS (rs_pass rs);
  md_nodes : view_after (p_nodes (rs_pass rs)) (p_nodes (rs_pass rs'));
  md_decisions : ∃ ds, rs_decisions rs' = rs_decisions rs ++ ds ∧ sumZ ordered_gpus ds ≤ free - free' ∧
    ∀ d, d ∈ ds → within_bounds d ∧ ∃ req, req ∈ l ∧ decides req d }.

Lemma rescale_models_spec l rs free :
  Forall (sane_request B) l → 0 ≤ free → B + free ≤ int_max → view_after (p_nodes (rs_pass rs)) (p_nodes (rs_pass rs)) →
  let '(rs', free') := foldl (rescale_model constraints k clusterKey targets) (rs, free) l in models_done l rs rs' free free'.
Proof.
  revert rs free. induction l as [|req l IH]; intros rs free Hl Hf HB Hv; cbn [foldl].
  { split; [lia|done|done|done|]. exists []. split_and!; [by rewrite app_nil_r|unfold sumZ; simpl; lia|by intros d Hd%not_elem_of_nil]. }
  apply Forall_cons in Hl as [Hreq Hl]. unfold rescale_model at 2.
  assert (Hw : match p_nodes (rs_pass rs) with Some v => wf v | None => True end) by (destruct (p_nodes (rs_pass rs)); [apply Hv|done]).
  pose proof (rescaleModelDecisions_spec B (p_nodes (rs_pass rs)) constraints k.1 req (target_of targets (modelKey req)) free
    Hreq Hf HB Hw) as Hm. cbv zeta in Hm.
  destruct (rescaleModelDecisions _ _ _ _ _ _) as [[[ds cont] free1] nodes]. destruct Hm as [[D1 D2 D3 _ _ D6] Dp].
  set (spends := if 0 <? free ⊟ free1 then _ else _).
  set (rs1 := MkRescale _ _ _ _).
  assert (Hv1 : view_after (p_nodes (rs_pass rs)) nodes).
  { unfold pods_placed in Dp. destruct (p_nodes (rs_pass rs)), nodes; try done. split_and!; apply Dp. }
  specialize (IH rs1 free1 Hl ltac:(lia) ltac:(lia)).
  destruct (foldl _ _ l) as [rs' free']. destruct IH as [M1 M2 M3 M4 (ds' & M5 & M6 & M7)].
  { unfold rs1. cbn [rs_pass p_nodes]. destruct (p_nodes (rs_pass rs)), nodes; try done. split_and!; [apply Hv1|done|done]. }
  split; [lia|done|done|by eapply view_after_trans|].
  exists (ds ++ ds'). split_and!.
  - rewrite M5. unfold rs1. cbn [rs_decisions]. by rewrite (assoc_L (++)).
  - rewrite sumZ_app. lia.
  - intros d [Hd|Hd]%elem_of_app.
    + destruct (D3 d Hd) as (W & _ & E2). split; [done|]. exists req. split; [left|]. split; [done|].
      destruct (D6 d Hd) as [Hle|(vc & [_ Hin]%list_elem_of_filter & _ & Ha)]; [left|right; eauto].
      unfold ordered_gpus. rewrite Z.max_l by lia. lia.
    + destruct (M7 d Hd) as (W & r & Hr & Hdd). split; [done|]. exists r. split; [by right|done].
Qed.
End models.

(** ** The debit of a group *)
Lemma debit_one b key c f v :
  clamped b → one_spelling_map b → in_ints b → in_int c → 0 < c →
  (∃ w, b !! key = Some w ∧ (isUnboundedBudget w = true ∨ c ≤ w)) → b !! f = Some v → isUnboundedBudget v = false →
  ∃ v', debitBudget b key c !! f = Some v' ∧ isUnboundedBudget v' = false ∧ v' + (if Covers f key then c else 0) ≤ v.
Proof.
  intros Hcl Hsp Hin Hi Hc (w & Hw & Hcw) Hf Hv.
  destruct (debit_left b [(key, c)] f v (if Covers f key then c else 0)) as (v' & H1 & H2 & H3); try done.
  - apply Forall_singleton. split; [cbn; lia|done].
  - unfold covered_spend. rewrite sumZ_cons. cbn [fst snd]. unfold sumZ. simpl. lia.
  - destruct (Covers f key) eqn:Hcov; [|apply isUnbounded_false in Hv; lia].
    exact (spend_within b key w c f v Hcl Hsp Hw Hf Hcw Hv Hcov).
  - by exists v'.
Qed.

(** A name that a budget resolves to some key has a key of the same spelling in every
    budget with the same keys. *)
Lemma budgetKey_listed (b b' : gmap string Z) name :
  (∀ x, is_Some (b' !! x) ↔ is_Some (b !! x)) → 0 < budgetOf (Some b') (budgetKey b name) →
  b' !! budgetKey b name = Some (budgetOf (Some b') (budgetKey b name)).
Proof.
  intros Hk Hpos. set (key := budgetKey b name) in *.
  pose proof (budgetOf_key b' key _ eq_refl Hpos) as Hv.
  destruct (FindBudgetKey b name) as [x|] eqn:Hf.
  - assert (Hx : key = x) by (unfold key, budgetKey; by rewrite Hf).
    destruct (FindBudgetKey_sound b name x Hf) as [Hs _]. rewrite <- Hx in Hs.
    unfold budgetKey at 1 in Hv. rewrite (FindBudgetKey_exact b' key) in Hv by (by apply Hk). done.
  - assert (Hx : key = name) by (unfold key, budgetKey; by rewrite Hf).
    rewrite (budgetKey_same b b' key) in Hv by done. rewrite Hx in Hv at 1. fold key in Hv. done.
Qed.

(** ** Spellings *)

(** Two spellings that differ in case alone resolve to keys that do. *)
Lemma classify_fold a b key : EqualFold a b = true → classify a key = classify b key.
Proof.
  intros Hab. unfold classify.
  by rewrite (EqualFold_congr_r a b key Hab), (IsProductOf_fold_r key a b Hab), (IsProductOf_fold_l a b key Hab),
    (IsFamily_fold a b Hab), (EqualFold_congr_r _ _ (Family key) (Family_fold a b Hab)).
Qed.

Lemma budgetKey_fold (b : gmap string Z) x y : EqualFold x y = true → EqualFold (budgetKey b x) (budgetKey b y) = true.
Proof.
  intros Hxy. destruct (decide (Exists (λ k, EqualFold k x = true) (map_to_list b).*1)) as [Hex|Hno].
  - apply Exists_exists in Hex as (k & Hk & He). apply elem_of_keys in Hk.
    assert (Hy : EqualFold k y = true) by (by rewrite <- (EqualFold_congr_r x y k Hxy)).
    assert (Hkey : ∀ z, EqualFold k z = true → EqualFold (budgetKey b z) z = true).
    { intros z Hz. unfold budgetKey. destruct (FindBudgetKey b z) as [w|] eqn:Hf; [|apply EqualFold_refl].
      by eapply FindBudgetKey_case. }
    rewrite (EqualFold_congr_l _ _ _ (Hkey x He)), (EqualFold_congr_r _ _ _ (Hkey y Hy)). done.
  - assert (Hnone : ∀ z, EqualFold x z = true → b !! z = None).
    { intros z Hz. apply eq_None_not_Some. intros Hs. apply Hno, Exists_exists. exists z.
      split; [by apply elem_of_keys|]. by rewrite EqualFold_sym. }
    unfold budgetKey, FindBudgetKey, FindBudgetKey_keys.
    rewrite (bool_decide_false (is_Some (b !! x))) by (rewrite (Hnone x (EqualFold_refl x)); by intros []).
    rewrite (bool_decide_false (is_Some (b !! y))) by (rewrite (Hnone y Hxy); by intros []).
    assert (Hcl : ∀ c, keys_of_class c x (map_to_list b).*1 = keys_of_class c y (map_to_list b).*1).
    { intros c. unfold keys_of_class. apply list_filter_iff. intros k. by rewrite (classify_fold x y k Hxy). }
    rewrite !Hcl. match goal with |- EqualFold (default _ ?o) _ = true => destruct o end; [apply EqualFold_refl|done].
Qed.

Lemma single_acc_spec a vcs acc :
  single_acc a vcs = Some acc → (a = acc ∧ a ≠ "" ∨ ∃ vc, vc ∈ vcs ∧ rec_Acc vc = acc) ∧ (a ≠ "" → a = acc) ∧
  Forall (λ vc, rec_Acc vc ≠ "" → SameName acc (rec_Acc vc) = true) vcs.
Proof.
  revert a. induction vcs as [|vc vcs IH]; intros a; cbn [single_acc].
  - destruct (String.eqb_spec a ""); [done|]. intros [= <-]. split_and!; [by left|done|constructor].
  - destruct (String.eqb_spec (rec_Acc vc) "") as [Hv|Hv].
    + intros (H1 & H2 & H3)%IH. split_and!; [|done|by constructor].
      destruct H1 as [?|(x & ? & ?)]; [by left|right; exists x; split; [by right|done]].
    + destruct (String.eqb_spec a "") as [->|Ha].
      * intros (H1 & H2 & H3)%IH. specialize (H2 Hv). split_and!; [right; exists vc; split; [left|done]|done|].
        constructor; [|done]. intros _. rewrite <- H2. unfold SameName. by rewrite String.eqb_refl.
      * destruct (SameName a (rec_Acc vc)) eqn:Hs; [|done]. intros (H1 & H2 & H3)%IH.
        pose proof (H2 Ha) as ->. split_and!; [by left|done|by constructor].
Qed.

(** ** Groups *)

(** The budget key a decision is charged under: its accelerator's, in its namespace's
    allowance if it has one, else in the cluster's budget. *)
Definition decision_key (st : pass_state) (d : VariantDecision) : string :=
  let acc := dec_AcceleratorName d in
  match p_byNS st !! dec_Namespace d with
  | Some n => budgetKey n acc
  | None => default acc ((λ b, budgetKey b acc) <$> p_available st)
  end.

(** What a decision takes under the key [f], in the cluster and in a namespace. *)
Definition cluster_charge (st : pass_state) (f : string) (d : VariantDecision) : Z :=
  if Covers f (decision_key st d) then ordered_gpus d else 0.
Definition ns_charge (st : pass_state) (ns f : string) (d : VariantDecision) : Z :=
  if String.eqb (dec_Namespace d) ns then cluster_charge st f d else 0.

(** A model that does not name one accelerator both by family and by product. *)
Definition one_spelling (req : ModelScalingRequest) : Prop :=
  ∀ vc vc', vc ∈ default [] (recordsForRequest req) → vc' ∈ default [] (recordsForRequest req) →
    SameName (rec_Acc vc) (rec_Acc vc') = true → EqualFold (rec_Acc vc) (rec_Acc vc') = true.
Section groups.
Context `{GoSort} `{MapRange} `{TaintMatcher} {C : IntConv}.
Context (constraints : list (option ResourceConstraints)) (flags : RescaleFlags) (st0 : pass_state).
Context (requests : list ModelScalingRequest) (B : Z).
Hypothesis Hst : pass_ready st0.
Hypothesis Hsane : Forall (sane_request B) requests.
Hypothesis HB : B + 4294967296 ≤ int_max.
Hypothesis Hns : Forall (λ req, req_Namespace req ≠ "") requests.
Hypothesis Hone : Forall one_spelling requests.

(** The decisions of a group [k]. *)
Definition in_group (k : string * string) (d : VariantDecision) : Prop :=
  (ordered_gpus d = 0 ∨ ∀ f, Covers f (decision_key st0 d) = Covers f k.1) ∧
  if String.eqb k.2 "" then p_byNS st0 !! dec_Namespace d = None else dec_Namespace d = k.2.

Lemma decision_in_group req k d : req ∈ requests → decides req d → group_key flags st0 req = Some k → in_group k d.
Proof using Hns Hone.
  intros Hin [Hd Ha]. pose proof (proj1 (Forall_forall _ _) Hns req Hin) as Hne. cbv beta in Hne.
  pose proof (proj1 (Forall_forall _ _) Hone req Hin) as Hsp. unfold one_spelling in Hsp. unfold group_key, in_group, decision_key.
  destruct (recordsForRequest req) as [records|]; [|done]. cbn [default] in *.
  destruct (singleAccType records) as [acc|] eqn:Hs; [|done]. destruct (existsb _ _) eqn:Hex; [done|]. destruct (negb _); [done|].
  assert (Hfold : ordered_gpus d = 0 ∨ EqualFold (dec_AcceleratorName d) acc = true).
  { destruct Ha as [?|(vc & Hv & <-)]; [by left|right].
    assert (Hall : ∀ x, x ∈ records → rec_Acc x ≠ "").
    { intros x Hx He. apply not_true_iff_false in Hex. apply Hex, existsb_exists. exists x. rewrite He. split; [by apply list_elem_of_In|done]. }
    destruct (single_acc_spec "" records acc Hs) as ([[_ ?]|(x & Hx & <-)] & _ & Hsame); [done|].
    rewrite EqualFold_sym. apply Hsp; [done|done|]. rewrite Forall_forall in Hsame. by apply Hsame, Hall. }
  rewrite Hd. destruct (p_byNS st0 !! req_Namespace req) as [n|] eqn:E; intros [= <-]; cbn [fst snd].
  - rewrite (proj2 (String.eqb_neq _ _) Hne). split; [|done]. destruct Hfold as [?|Hf]; [by left|right]. intros f.
    by apply Covers_fold_r, budgetKey_fold.
  - rewrite String.eqb_refl. split; [|done]. destruct Hfold as [?|Hf]; [by left|right]. intros f.
    apply Covers_fold_r. destruct (p_available st0); [by apply budgetKey_fold|done].
Qed.

Record within_start (rs : rescale_state) : Prop := {
  ws_cluster : match p_available st0, p_available (rs_pass rs) with
    | None, None => True
    | Some b0, Some b => budget_ok b ∧ small_budgets b ∧
        left_within b0 b (λ _, True) (λ f, sumZ (cluster_charge st0 f) (rs_decisions rs))
    | _, _ => False
    end;
  ws_ns : ∀ ns, match p_byNS st0 !! ns, p_byNS (rs_pass rs) !! ns with
    | None, None => True
    | Some n0, Some n => ns_budget_ok n ∧
        left_within n0 n (λ _, ns ≠ "") (λ f, sumZ (ns_charge st0 ns f) (rs_decisions rs))
    | _, _ => False
    end;
  ws_nodes : view_after (p_nodes st0) (p_nodes (rs_pass rs));
  ws_bounds : ∀ d, d ∈ rs_decisions rs → within_bounds d }.

Lemma within_start_init : within_start (MkRescale st0 [] ∅ []).
Proof using Hst.
  destruct Hst as [Hc Hn Hd]. split; cbn [rs_pass rs_decisions].
  - unfold avail_ok in Hc. destruct (p_available st0) as [b|]; [|done]. destruct Hc. split_and!; [done|done|]. split; [done|].
    intros f F Hf HF _. exists F. split_and!; [done|done|]. unfold sumZ. simpl. lia.
  - intros ns. destruct (p_byNS st0 !! ns) as [n|] eqn:E; [|done]. split; [by eapply Hn|]. split; [done|].
    intros f F Hf HF _. exists F. split_and!; [done|done|]. unfold sumZ. simpl. lia.
  - destruct (p_nodes st0); done.
  - by intros d Hd'%not_elem_of_nil.
Qed.

(** The models of one group charge its key alone. *)
Lemma group_charge k c ds f :
  (∀ d, d ∈ ds → in_group k d) → sumZ ordered_gpus ds ≤ c →
  sumZ (cluster_charge st0 f) ds ≤ (if Covers f k.1 then c else 0) ∧
  ∀ ns, ns ≠ "" → is_Some (p_byNS st0 !! ns) → sumZ (ns_charge st0 ns f) ds ≤ (if String.eqb k.2 ns && Covers f k.1 then c else 0).
Proof.
  intros Hd Hc.
  assert (Hs : ∀ (b : bool) g, (∀ d, d ∈ ds → g d = if b then ordered_gpus d else 0) → sumZ g ds ≤ if b then c else 0).
  { intros b g Hg. rewrite (sumZ_ext g _ ds Hg). destruct b; [done|by rewrite sumZ_zero]. }
  assert (Hcl : ∀ d, d ∈ ds → cluster_charge st0 f d = if Covers f k.1 then ordered_gpus d else 0).
  { intros d Hin. destruct (Hd d Hin) as [[Hz|Hf] _]; unfold cluster_charge; [rewrite Hz|by rewrite Hf].
    by destruct (Covers f k.1), (Covers f _). }
  split; [by apply Hs|]. intros ns Hns0 [n Hn]. apply Hs. intros d Hin. unfold ns_charge. rewrite (Hcl d Hin).
  destruct (Hd d Hin) as [_ Hk]. destruct (String.eqb_spec k.2 "") as [He|Hne].
  - destruct (String.eqb_spec (dec_Namespace d) ns) as [Hd'|_]; [by rewrite Hd', Hn in Hk|]. rewrite He.
    by destruct (String.eqb_spec "" ns).
  - rewrite Hk. by destruct (String.eqb k.2 ns).
Qed.

(** [c] GPUs may be drawn under the group's key. *)
Record drawable (st : pass_state) (k : string * string) (clusterKey : string) (c : Z) : Prop := {
  dr_cluster : ∀ b, p_available st = Some b → (if String.eqb k.2 "" then k.1 else clusterKey) = k.1 ∧
    ∃ w, b !! k.1 = Some w ∧ (isUnboundedBudget w = true ∨ c ≤ w);
  dr_ns : k.2 ≠ "" → ∃ n w, p_byNS st !! k.2 = Some n ∧ n !! k.1 = Some w ∧ (isUnboundedBudget w = true ∨ c ≤ w) }.

Lemma debit_group_available k ck c st :
  p_available (debit_group k ck c st) =
  if 0 <? c then (λ b, debitBudget b (if String.eqb k.2 "" then k.1 else ck) c) <$> p_available st else p_available st.
Proof. unfold debit_group. destruct (0 <? c); [|done]. by destruct (String.eqb k.2 ""). Qed.

Lemma debit_group_byNS k ck c st ns :
  p_byNS (debit_group k ck c st) !! ns =
  if (0 <? c) && String.eqb k.2 ns && negb (String.eqb k.2 "") then (λ b, debitBudget b k.1 c) <$> p_byNS st !! ns
  else p_byNS st !! ns.
Proof.
  unfold debit_group. destruct (0 <? c); [|done]. destruct (String.eqb_spec k.2 "") as [->|Hne].
  - cbn [p_byNS negb]. by rewrite andb_false_r.
  - cbn [p_byNS negb andb]. rewrite andb_true_r, lookup_alter. destruct (String.eqb_spec k.2 ns) as [->|He].
    + by rewrite decide_True.
    + by rewrite decide_False.
Qed.

Lemma debit_group_nodes k ck c st : p_nodes (debit_group k ck c st) = p_nodes st.
Proof. unfold debit_group. destruct (0 <? c); [|done]. by destruct (String.eqb k.2 ""). Qed.

Section one_group.
Context (rs rs' : rescale_state) (k : string * string) (ck : string) (c free free' : Z) (reqs : list ModelScalingRequest).
Hypothesis Hw : within_start rs.
Hypothesis Hm : models_done reqs rs rs' free free'.
Hypothesis Hc : c = free - free'.
Hypothesis Hi : in_int c.
Hypothesis Hreqs : ∀ req, req ∈ reqs → req ∈ requests ∧ group_key flags st0 req = Some k.
Hypothesis Hdr : 0 < c → drawable (rs_pass rs) k ck c.
#[local] Notation st' := (debit_group k ck c (rs_pass rs')).

(** What the group's decisions charge. *)
Lemma group_charges : ∃ ds, rs_decisions rs' = rs_decisions rs ++ ds ∧ (∀ d, d ∈ ds → within_bounds d) ∧
  ∀ f, sumZ (cluster_charge st0 f) ds ≤ (if Covers f k.1 then c else 0) ∧
       ∀ ns, ns ≠ "" → is_Some (p_byNS st0 !! ns) → sumZ (ns_charge st0 ns f) ds ≤ (if String.eqb k.2 ns && Covers f k.1 then c else 0).
Proof using Hns Hone Hm Hc Hreqs.
  destruct Hm as [_ _ _ _ (ds & M5 & M6 & M7)]. exists ds. split_and!; [done|intros d Hd; by apply M7|].
  intros f. apply group_charge; [|lia]. intros d Hd. destruct (M7 d Hd) as (_ & req & Hr & Hdec).
  destruct (Hreqs req Hr) as [Hin Hk]. by eapply decision_in_group.
Qed.

Lemma group_cluster :
  match p_available st0, p_available st' with
  | None, None => True
  | Some b0, Some b => budget_ok b ∧ small_budgets b ∧
      left_within b0 b (λ _, True) (λ f, sumZ (cluster_charge st0 f) (rs_decisions rs'))
  | _, _ => False
  end.
Proof using All.
  destruct group_charges as (ds & -> & _ & Hch). pose proof (ws_cluster _ Hw) as Wc.
  rewrite debit_group_available, (md_available _ _ _ _ _ Hm).
  destruct (p_available st0) as [b0|]; [|by destruct (p_available (rs_pass rs)), (0 <? c)].
  destruct (p_available (rs_pass rs)) as [b|] eqn:Hb; [|done]. destruct Wc as (Hok & Hsm & Hleft).
  destruct (Z.ltb_spec 0 c) as [Hpos|Hz]; cbn [fmap option_fmap option_map].
  - destruct (dr_cluster _ _ _ _ (Hdr Hpos) b Hb) as [-> Hwd].
    split_and!; [apply debit_ok; [done|lia|done]|apply debit_small; [done|lia|apply Hok|done]|].
    eapply left_step; [exact Hleft|apply debitBudget_is_Some|]. intros f v Hf Hv _. rewrite sumZ_app.
    destruct (debit_one b k.1 c f v) as (v' & V1 & V2 & V3); try done; try apply Hok.
    exists v'. split_and!; [done|done|]. pose proof (proj1 (Hch f)). lia.
  - split_and!; [done|done|]. eapply left_step; [exact Hleft|done|]. intros f v Hf Hv _. rewrite sumZ_app.
    exists v. split_and!; [done|done|]. pose proof (proj1 (Hch f)). destruct (Covers f k.1); lia.
Qed.

Lemma group_ns ns :
  match p_byNS st0 !! ns, p_byNS st' !! ns with
  | None, None => True
  | Some n0, Some n => ns_budget_ok n ∧ left_within n0 n (λ _, ns ≠ "") (λ f, sumZ (ns_charge st0 ns f) (rs_decisions rs'))
  | _, _ => False
  end.
Proof using All.
  destruct group_charges as (ds & -> & _ & Hch). pose proof (ws_ns _ Hw ns) as Wn.
  rewrite debit_group_byNS, (md_byNS _ _ _ _ _ Hm).
  destruct (p_byNS st0 !! ns) as [n0|] eqn:Hn0; [|by destruct (p_byNS (rs_pass rs) !! ns), ((0 <? c) && _ && _)].
  destruct (p_byNS (rs_pass rs) !! ns) as [n|] eqn:Hn; [|done]. destruct Wn as [Hok Hleft].
  destruct ((0 <? c) && String.eqb k.2 ns && negb (String.eqb k.2 "")) eqn:Hb; cbn [fmap option_fmap option_map].
  - apply andb_true_iff in Hb as [[Hpos He]%andb_true_iff Hne]. apply Z.ltb_lt in Hpos. apply String.eqb_eq in He.
    apply negb_true_iff, String.eqb_neq in Hne. destruct (dr_ns _ _ _ _ (Hdr Hpos) Hne) as (n' & w & Hn' & Hwd).
    rewrite He, Hn in Hn'. injection Hn' as <-. split; [apply ns_debit_ok; [done|lia|done]|].
    eapply left_step; [exact Hleft|apply debitBudget_is_Some|]. intros f v Hf Hv _. rewrite sumZ_app.
    destruct (debit_one n k.1 c f v) as (v' & V1 & V2 & V3); try done; try apply Hok; [eauto|].
    exists v'. split_and!; [done|done|]. pose proof (proj2 (Hch f) ns ltac:(congruence) (mk_is_Some _ _ Hn0)) as Hx. rewrite He, String.eqb_refl in Hx. cbn [andb] in Hx. lia.
  - split; [done|]. eapply left_step; [exact Hleft|done|]. intros f v Hf Hv Hns0. rewrite sumZ_app.
    exists v. split_and!; [done|done|]. pose proof (proj2 (Hch f) ns ltac:(congruence) (mk_is_Some _ _ Hn0)) as Hx.
    enough ((if String.eqb k.2 ns && Covers f k.1 then c else 0) ≤ 0) by lia.
    destruct (String.eqb_spec k.2 ns) as [He|He]; cbn [andb] in *; [|done]. rewrite He in Hb.
    rewrite (proj2 (String.eqb_neq ns "")) in Hb by done. rewrite !andb_true_r in Hb. apply Z.ltb_ge in Hb. by destruct (Covers f k.1).
Qed.

Lemma group_within : within_start (MkRescale st' (rs_decisions rs') (rs_handled rs') (rs_contention rs')).
Proof using All.
  split; cbn [rs_pass rs_decisions]; [apply group_cluster|apply group_ns| |].
  - rewrite debit_group_nodes. eapply view_after_trans; [apply Hw|apply Hm].
  - destruct group_charges as (ds & -> & Hb & _). intros d [Hd|Hd]%elem_of_app; [by apply (ws_bounds _ Hw)|by apply Hb].
Qed.
End one_group.

(** Where a group's key comes from. *)
Lemma group_key_from req k :
  req ∈ requests → group_key flags st0 req = Some k →
  (k.2 = "" ∧ ∃ acc, ∀ b0, p_available st0 = Some b0 → k.1 = budgetKey b0 acc) ∨ (k.2 ≠ "" ∧ is_Some (p_byNS st0 !! k.2)).
Proof using Hns.
  intros Hin. pose proof (proj1 (Forall_forall _ _) Hns req Hin) as Hne. cbv beta in Hne. unfold group_key.
  destruct (recordsForRequest req) as [records|]; [|done]. destruct (singleAccType records) as [acc|]; [|done].
  destruct (existsb _ _); [done|]. destruct (negb _); [done|].
  destruct (p_byNS st0 !! req_Namespace req) as [n|] eqn:E; intros [= <-]; cbn [fst snd].
  - right. split; [done|]. by rewrite E.
  - left. split; [done|]. exists acc. intros b0 ->. done.
Qed.

(** What a group may hand out is a figure that can be drawn. *)
Definition group_free (st : pass_state) (k : string * string) : Z :=
  if String.eqb k.2 "" then budgetOf (p_available st) k.1 else default 0 (default ∅ (p_byNS st !! k.2) !! k.1).
Definition group_fillable (st : pass_state) (k : string * string) : Z :=
  if String.eqb k.2 "" then group_free st k
  else let '(cur, ok) := clusterBudgetFor (p_available st) k.1 in
       if ok && negb (cur =? MaxInt) then Z.min (group_free st k) cur else group_free st k.

Lemma cluster_fillable rs k acc ck :
  within_start rs → k.2 = "" → (∀ b0, p_available st0 = Some b0 → k.1 = budgetKey b0 acc) →
  0 ≤ group_free (rs_pass rs) k → group_free (rs_pass rs) k ≠ MaxInt →
  0 ≤ group_fillable (rs_pass rs) k ≤ 4294967296 ∧
  ∀ c, 0 < c ≤ group_fillable (rs_pass rs) k → drawable (rs_pass rs) k ck c.
Proof.
  intros [Wc _ _ _] He Hacc Hlo Hm. unfold group_fillable, group_free in *. rewrite He, String.eqb_refl in *.
  destruct (p_available (rs_pass rs)) as [b|] eqn:Hb; [|done].
  destruct (p_available st0) as [b0|]; [|done]. destruct Wc as (Hok & Hsm & [Hkeys _]).
  specialize (Hacc b0 eq_refl). pose proof (budgetKey_listed b0 b acc Hkeys) as Hl. rewrite <- Hacc in Hl.
  set (f := budgetOf (Some b) k.1) in *. split.
  - destruct (Z.eq_dec f 0) as [->|Hz]; [lia|]. destruct (Hsm _ _ (Hl ltac:(lia))); [done|lia].
  - intros c Hc. split; [|done]. intros b' Hb'. rewrite Hb in Hb'. injection Hb' as <-.
    rewrite He, String.eqb_refl. split; [done|]. exists f. split; [apply Hl; lia|right; lia].
Qed.

Lemma ns_fillable rs k ck :
  within_start rs → k.2 ≠ "" → is_Some (p_byNS st0 !! k.2) →
  ck = default k.1 ((λ b, budgetKey b k.1) <$> p_available (rs_pass rs)) →
  0 ≤ group_free (rs_pass rs) k → group_free (rs_pass rs) k ≠ MaxInt →
  0 ≤ group_fillable (rs_pass rs) k ≤ 4294967296 ∧
  ∀ c, 0 < c ≤ group_fillable (rs_pass rs) k → drawable (rs_pass rs) k ck c.
Proof using Hst.
  intros [Wc Wn _ _] Hne [n0 Hn0] -> Hlo Hm. specialize (Wn k.2). rewrite Hn0 in Wn.
  unfold group_fillable, group_free in *. rewrite (proj2 (String.eqb_neq k.2 "")) in * by done.
  destruct (p_byNS (rs_pass rs) !! k.2) as [n|] eqn:Hn; [|done]. destruct Wn as [Hnok [Hnkeys _]]. change (default ∅ (Some n)) with n in *.
  destruct (pr_namespaces _ Hst _ _ Hn0) as [_ Hunder].
  assert (Hcl : match p_available (rs_pass rs) with
    | Some b => budget_ok b ∧ (is_Some (n !! k.1) → is_Some (b !! k.1)) | None => True end).
  { unfold under_cluster, keys_within in Hunder. destruct (p_available st0) as [b0|], (p_available (rs_pass rs)) as [b|]; try done.
    destruct Wc as (Hok & _ & [Hkeys _]). split; [done|]. rewrite Hnkeys, Hkeys. apply Hunder. }
  set (free := default 0 (n !! k.1)) in *. assert (Hfd : free = default 0 (n !! k.1)) by done.
  assert (Hfree : free ≤ 4294967296 ∧ (0 < free → n !! k.1 = Some free)).
  { clearbody free. clear Hlo. destruct Hnok as [_ _ _ Hsmall]. revert Hm Hfd. destruct (n !! k.1) as [v|] eqn:Hv.
    - intros Hm ->. simpl in *. destruct (Hsmall _ _ Hv); [done|]. by split.
    - intros _ ->. simpl. lia. }
  destruct Hfree as [Hfs Hfl].
  destruct (p_available (rs_pass rs)) as [b|] eqn:Hb; cbn [fmap option_fmap option_map].
  - destruct Hcl as [Hok Hlist].
    assert (Hr : ∃ cur ok, clusterBudgetFor (Some b) k.1 = (cur, ok) ∧ 0 ≤ cur).
    { cbn [clusterBudgetFor]. destruct (FindBudgetKey b k.1) as [x|]; [|by eexists _, _]. eexists _, _. split; [done|].
      destruct (b !! x) eqn:Hx; cbn; [|done]. by eapply ok_nonneg. }
    destruct Hr as (cur & ok & Hcur & Hcn). rewrite Hcur. cbv beta iota. split; [destruct (ok && _); lia|]. intros c Hc.
    assert (Hcf : 0 < c ≤ free) by (destruct (ok && _); lia). specialize (Hfl ltac:(lia)).
    split; [|intros _; exists n, free; split_and!; [done|done|right; lia]].
    intros b' Hb'. rewrite Hb in Hb'. injection Hb' as <-. destruct (Hlist (mk_is_Some _ _ Hfl)) as [w Hw].
    rewrite (proj2 (String.eqb_neq k.2 "")) by done. unfold budgetKey.
    cbn [clusterBudgetFor] in Hcur. rewrite (FindBudgetKey_exact b k.1 (mk_is_Some _ _ Hw)) in Hcur |- *.
    split; [done|]. exists w. split; [done|]. rewrite Hw in Hcur. injection Hcur as <- <-. cbn [andb] in Hc.
    revert Hc. destruct (Z.eqb_spec w MaxInt) as [->|Hne']; cbn [negb]; intros Hc; [by left|right; lia].
  - cbn [clusterBudgetFor andb] in *. split; [lia|]. intros c Hc. split; [by rewrite Hb|]. intros _. exists n, free. split_and!; [done|apply Hfl; lia|right; lia].
Qed.

(** ** All groups *)
Lemma rescale_group_eq rs k reqs :
  let st := rs_pass rs in
  let ck := default k.1 ((λ b, budgetKey b k.1) <$> p_available st) in
  ∃ targets, rescale_group constraints rs (k, reqs) = rs ∨
    0 ≤ group_free st k ∧ group_free st k ≠ MaxInt ∧
    rescale_group constraints rs (k, reqs) =
      let '(rs', free') := foldl (rescale_model constraints k ck targets) (rs, group_fillable st k) (sort_stable request_before reqs) in
      MkRescale (debit_group k ck (group_fillable st k ⊟ free') (rs_pass rs')) (rs_decisions rs') (rs_handled rs') (rs_contention rs').
Proof.
  cbv zeta. unfold rescale_group. fold (group_free (rs_pass rs) k). fold (group_fillable (rs_pass rs) k).
  destruct ((group_free (rs_pass rs) k <? 0) || _) eqn:Hf; [exists ∅; by left|].
  apply orb_false_iff in Hf as [Hlo%Z.ltb_ge Hm%Z.eqb_neq].
  destruct (rescaleInputsForGroup _ _ _) as [inputs want]. destruct (want <=? _); [exists ∅; by left|].
  eexists. right. split_and!; [done|done|]. reflexivity.
Qed.

Lemma rescale_group_within rs k reqs :
  within_start rs → reqs ≠ [] → (∀ req, req ∈ reqs → req ∈ requests ∧ group_key flags st0 req = Some k) →
  within_start (rescale_group constraints rs (k, reqs)).
Proof using All.
  intros Hw Hne Hin. destruct (rescale_group_eq rs k reqs) as (targets & [->|(Hlo & Hm & ->)]); [done|].
  set (ck := default _ _). set (fill := group_fillable _ _).
  assert (Hfill : 0 ≤ fill ≤ 4294967296 ∧ ∀ c, 0 < c ≤ fill → drawable (rs_pass rs) k ck c).
  { destruct reqs as [|req reqs]; [done|]. destruct (Hin req ltac:(left)) as [Hr Hk].
    destruct (group_key_from req k Hr Hk) as [(He & acc & Ha)|[Hk2 His]].
    - by eapply cluster_fillable.
    - by eapply ns_fillable. }
  destruct Hfill as [Hfb Hdraw].
  assert (Hperm : sort_stable request_before reqs ≡ₚ reqs) by apply sort_stable_perm.
  pose proof (rescale_models_spec constraints k ck targets B (sort_stable request_before reqs) rs fill) as Hs.
  destruct (foldl _ _ _) as [rs' free'].
  assert (Hv : view_after (p_nodes (rs_pass rs)) (p_nodes (rs_pass rs))).
  { pose proof (ws_nodes _ Hw) as Hv. destruct (p_nodes st0), (p_nodes (rs_pass rs)); try done. split_and!; [apply Hv|done|done]. }
  assert (Hd : models_done (sort_stable request_before reqs) rs rs' fill free').
  { apply Hs; [|lia|lia|done]. rewrite Hperm. apply Forall_forall. intros req Hr.
    by apply (proj1 (Forall_forall _ _) Hsane), Hin. }
  pose proof (md_free _ _ _ _ _ Hd). 
  assert (Hc : fill ⊟ free' = fill - free') by (apply wrap_id; unfold in_int, int_min, int_max; lia).
  eapply group_within; [done|exact Hd|done| | |].
  - rewrite Hc. unfold in_int, int_min, int_max. lia.
  - intros req Hr. apply Hin. by rewrite <- Hperm.
  - intros Hp. apply Hdraw. lia.
Qed.

Lemma applyRescale_within : within_start (applyRescale flags requests constraints st0).
Proof using All.
  unfold applyRescale.
  assert (Hg : Forall (λ g, g.2 ≠ [] ∧ ∀ req, req ∈ g.2 → req ∈ requests ∧ group_key flags st0 req = Some g.1)
    (rescale_groups flags st0 requests)).
  { apply Forall_forall. intros g (k & -> & Hk)%list_elem_of_fmap. cbn [fst snd].
    rewrite sort_stable_perm, elem_of_remove_dups in Hk. apply list_elem_of_omap in Hk as (req & Hr & Hk). split.
    - intros Hf. apply (not_elem_of_nil req). rewrite <- Hf. by apply list_elem_of_filter.
    - intros r [? ?]%list_elem_of_filter. done. }
  pose proof within_start_init as Hi. revert Hi. generalize (MkRescale st0 [] ∅ []).
  induction Hg as [|[k reqs] l [Hne Hin] _ IH]; intros rs Hw; cbn [foldl]; [done|].
  apply IH. by apply rescale_group_within.
Qed.
End groups.
