(* ===== verification/OptimizePass.v ===== *)
(** * What a whole pass orders

    [Optimize] of [Rescale]: rescale over its groups ([RescalePass]), then the fair
    share ([Greedy]) over the models rescale left, then the decisions of both.

    Theorem: the decisions a pass publishes keep every variant within its bounds, and
    the GPUs of all the replicas they add are within the cluster's and every
    namespace's budgets. *)
From Stdlib Require Import ZArith Lia String Ascii SpecFloat.
From stdpp Require Import base gmap strings list sorting fin_maps.
From S2P Require Import Prelude Accelerator Budget NodeView GoFloat GoCmp Domain Signals WaterFill ScaleDown PairFit ScaleUp Attribution Greedy Rescale RescaleFill RescaleNodes RescaleSafety RescalePass.
Open Scope Z_scope.

(** ** The state rescale leaves *)
Section rescaled.
Context (st0 : pass_state) (rs : rescale_state).
Hypothesis Hst : pass_ready st0.
Hypothesis Hw : within_start st0 rs.

Lemma rescaled_cluster_keys b0 : p_available st0 = Some b0 →
  ∃ b, p_available (rs_pass rs) = Some b ∧ ∀ k, is_Some (b !! k) ↔ is_Some (b0 !! k).
Proof using Hw.
  intros Hb0. pose proof (ws_cluster _ _ Hw) as Hc. rewrite Hb0 in Hc.
  destruct (p_available (rs_pass rs)) as [b|]; [|done]. destruct Hc as (_ & _ & Hk & _). eauto.
Qed.

Lemma rescaled_ns_keys ns :
  match p_byNS st0 !! ns, p_byNS (rs_pass rs) !! ns with
  | None, None => True
  | Some n0, Some n => ∀ k, is_Some (n !! k) ↔ is_Some (n0 !! k)
  | _, _ => False
  end.
Proof using Hw.
  pose proof (ws_ns _ _ Hw ns) as Hn. destruct (p_byNS st0 !! ns), (p_byNS (rs_pass rs) !! ns); try done. apply Hn.
Qed.

Lemma rescaled_ready : pass_ready (rs_pass rs).
Proof using Hst Hw.
  destruct Hst as [Hc Hn Hd]. split.
  - pose proof (ws_cluster _ _ Hw) as Hx. unfold avail_ok in *.
    destruct (p_available st0), (p_available (rs_pass rs)); try done. split; apply Hx.
  - intros ns n Hl. pose proof (ws_ns _ _ Hw ns) as Hx. rewrite Hl in Hx.
    destruct (p_byNS st0 !! ns) as [n0|] eqn:E; [|done]. destruct Hx as [Hok [Hk _]]. split; [done|].
    destruct (Hn ns n0 E) as [_ Hu]. unfold under_cluster, keys_within in *.
    pose proof (ws_cluster _ _ Hw) as Hx. destruct (p_available (rs_pass rs)) as [b|], (p_available st0) as [b0|]; try done.
    intros k Hs. apply Hx, Hu, Hk, Hs.
  - pose proof (ws_nodes _ _ Hw) as Hx. destruct (p_nodes st0), (p_nodes (rs_pass rs)); try done. apply Hx.
Qed.

(** The same keys, so the same charges. *)
Lemma rescaled_key d : decision_key (rs_pass rs) d = decision_key st0 d.
Proof using Hw.
  unfold decision_key. pose proof (rescaled_ns_keys (dec_Namespace d)) as Hn.
  destruct (p_byNS st0 !! dec_Namespace d), (p_byNS (rs_pass rs) !! dec_Namespace d); try done; [by apply budgetKey_same|].
  pose proof (ws_cluster _ _ Hw) as Hc. destruct (p_available st0), (p_available (rs_pass rs)); try done.
  cbn. apply budgetKey_same, Hc.
Qed.

Lemma rescaled_listed f : listed_by_all (p_byNS st0) f → listed_by_all (p_byNS (rs_pass rs)) f.
Proof using Hw.
  intros Hl ns n k Hn Hk Hc. pose proof (rescaled_ns_keys ns) as Hs. rewrite Hn in Hs.
  destruct (p_byNS st0 !! ns) as [n0|] eqn:E; [|done]. apply Hs. eapply Hl; [done|by apply Hs|done].
Qed.
End rescaled.

(** ** The work of the fair share *)
Lemma initRoleState_signal e : signal_ok e → signal_ok (initRoleState e).2.
Proof.
  intros Hs. assert (Hgen : ∀ e', Remaining e' = Remaining e → RoleCapacities e' = RoleCapacities e → Result e' = Result e → signal_ok e').
  { destruct Hs as [S1 S2 S3]. intros e' E1 E2 E3. split; rewrite ?E1, ?E2, ?E3; done. }
  apply Hgen; unfold initRoleState; destruct (Result e) eqn:Er; destruct (RoleCapacities e) eqn:Ec; cbn; congruence.
Qed.

Lemma split_requests B requests work others :
  Forall (sane_request B) requests → Forall (λ req, signal_ok (CompositeSignal req)) requests →
  foldl split_request ([], []) requests = (work, others) →
  Forall (work_ready B) work ∧ (∀ w, w ∈ work → w_req w ∈ requests) ∧ (∀ req, req ∈ others → req ∈ requests).
Proof.
  intros Hs Hg. rewrite Forall_forall in Hs, Hg.
  assert (Hgen : ∀ l acc, (∀ req, req ∈ l → req ∈ requests) →
    Forall (work_ready B) acc.1 ∧ (∀ w, w ∈ acc.1 → w_req w ∈ requests) ∧ (∀ req, req ∈ acc.2 → req ∈ requests) →
    let r := foldl split_request acc l in
    Forall (work_ready B) r.1 ∧ (∀ w, w ∈ r.1 → w_req w ∈ requests) ∧ (∀ req, req ∈ r.2 → req ∈ requests)).
  { induction l as [|req l IH]; intros acc Hl Hacc; [done|]. cbn [foldl]. apply IH; [intros; apply Hl; by right|].
    destruct Hacc as (A1 & A2 & A3). assert (Hin : req ∈ requests) by (apply Hl; left).
    destruct (Hs req Hin) as [Hm _ Hc _]. pose proof (initRoleState_signal _ (Hg req Hin)) as Hsig. unfold split_request.
    destruct (recordsForRequest req) as [records|] eqn:Hr; [|done].
    destruct (initRoleState (CompositeSignal req)) as [[roles ps] e] eqn:He. cbn [fst snd] in *.
    case_match; cbn [fst snd].
    - unfold buildScaleUpWork. destruct (fle _ f0); [done|]. cbn [fst snd]. split_and!; [|set_solver|done].
      apply Forall_app. split; [done|]. apply Forall_singleton. split; cbn; try done; [by apply Hm|].
      intros v. rewrite initTargets_of. apply Hc.
    - split_and!; set_solver. }
  intros He. specialize (Hgen requests ([], []) ltac:(done)). rewrite He in Hgen. apply Hgen. split_and!; [constructor|..]; set_solver.
Qed.

(** ** The decisions of the fair share *)
Section up.
Context (constraints : list (option ResourceConstraints)) (st : pass_state) (B : Z) (w : modelWork).
Hypothesis Hok : work_ok B w.
Hypothesis Hcur : ∀ v, 0 ≤ target_of (w_start w) v.
#[local] Notation plain := (buildDecisionsWithOptimizer (w_req w) (buildStateMap (VariantStates (w_req w)))
  (buildCapacityMap (w_records w)) (w_targets w) "greedy-by-score").
#[local] Notation ups := (scale_up_decisions constraints w).1.

Lemma ups_sizing : sizing <$> ups = sizing <$> plain.
Proof. apply attribution_sizing. Qed.

Lemma ups_elem d : d ∈ ups → ∃ d', d' ∈ plain ∧ sizing d = sizing d'.
Proof.
  intros Hd%(list_elem_of_fmap_2 sizing). rewrite ups_sizing in Hd. apply list_elem_of_fmap in Hd as (d' & ? & ?). eauto.
Qed.

Lemma ups_charge f : sumZ (cluster_charge st f) ups ≤ w_drawn (p_available st) (p_byNS st) f w.
Proof using Hok Hcur.
  rewrite (sum_sizing _ ups plain) with (2 := ups_sizing).
  2:{ intros d d' Hs. unfold cluster_charge, decision_key. rewrite (ordered_sizing d d' Hs).
      injection Hs as _ -> _ _ _ _ _ _ ->. done. }
  destruct Hok as [R1 R2 [N1 _ _ _ _ _ _] _ _ R5 _]. unfold buildDecisionsWithOptimizer. rewrite sumZ_fmap.
  etrans; [|apply (ordered_within (w_records w) (target_of (w_start w)) (w_start w) (w_targets w))]; try done.
  - apply Z.eq_le_incl, sumZ_ext. intros p _.
    destruct (buildDecision_fields (w_req w) (buildStateMap (VariantStates (w_req w))) (buildCapacityMap (w_records w))
      "greedy-by-score" p) as (F0 & F1 & F2 & _ & _ & _ & F6).
    destruct (buildDecision_sizes (w_req w) (w_records w) "greedy-by-score" p) as [G1 G2]. specialize (G2 N1).
    unfold cluster_charge, decision_key, ordered_gpus. rewrite F1, F2, F6, G1, G2, <- initTargets_of.
    unfold w_weight, w_key, w_start. destruct (p_byNS st !! _), (p_available st); cbn; destruct (Covers f _); lia.
  - intros v. unfold w_weight. destruct (Covers _ _); [|done]. pose proof (gpusPerReplica_pos (buildStateMap (VariantStates (w_req w))) v). lia.
Qed.

Lemma ups_namespace d : d ∈ ups → dec_Namespace d = req_Namespace (w_req w).
Proof.
  intros (d' & (p & -> & _)%list_elem_of_fmap & [= _ -> _ _ _ _ _ _ _])%ups_elem.
  by destruct (buildDecision_fields (w_req w) (buildStateMap (VariantStates (w_req w))) (buildCapacityMap (w_records w))
    "greedy-by-score" p) as (_ & _ & _ & _ & _ & _ & ->).
Qed.

Lemma ups_ns_charge ns f :
  sumZ (ns_charge st ns f) ups ≤ if String.eqb (req_Namespace (w_req w)) ns then w_drawn (p_available st) (p_byNS st) f w else 0.
Proof using Hok Hcur.
  rewrite (sumZ_ext _ (λ d, if String.eqb (req_Namespace (w_req w)) ns then cluster_charge st f d else 0)).
  - destruct (String.eqb _ ns); [apply ups_charge|by rewrite sumZ_zero].
  - intros d Hd. unfold ns_charge. by rewrite (ups_namespace d Hd).
Qed.

Lemma ups_bounds d : d ∈ ups → within_bounds d.
Proof using Hok.
  intros (d' & Hp & Hs)%ups_elem. unfold within_bounds. injection Hs as _ _ _ -> -> _ -> -> _.
  apply list_elem_of_fmap in Hp as ([v n] & -> & Hp%elem_of_map_to_list).
  destruct (buildDecision_fields (w_req w) (buildStateMap (VariantStates (w_req w))) (buildCapacityMap (w_records w))
    "greedy-by-score" (v, n)) as (F0 & F1 & F2 & F3 & F4 & _).
  rewrite F1, F2, F3, F4, <- initTargets_of. cbn [fst snd].
  assert (Ht : target_of (w_targets w) v = n) by (unfold target_of; by rewrite Hp).
  pose proof (wo_grows _ _ Hok v) as Hg. pose proof (wo_max _ _ Hok v) as Hm. rewrite Ht in Hg, Hm.
  change (initTargets (VariantStates (w_req w))) with (w_start w). split; [lia|]. intros m Hmax Hpos. apply Hm.
  unfold max_bound. by rewrite Hmax, (proj2 (Z.ltb_lt 0 m)).
Qed.
End up.

(** ** The decisions of the models that need no more *)
Lemma others_fall `{GoSort} {C : IntConv} B req d :
  sane_request B req → B ≤ int_max → d ∈ other_decisions req → within_bounds d ∧ ordered_gpus d = 0.
Proof.
  intros [_ _ Hc Hmin] HB. unfold other_decisions. destruct (recordsForRequest req) as [records|]; [|by intros ?%not_elem_of_nil].
  destruct (initRoleState (CompositeSignal req)) as [[roles ps] e].
  set (t := (scaleDownRoleIterated _ _ _ _).1). intros ([v n] & -> & Hv%elem_of_map_to_list)%list_elem_of_fmap.
  assert (Hok : targets_ok (initTargets (VariantStates req))).
  { intros x. rewrite initTargets_of. specialize (Hc x). lia. }
  destruct (scaleDown_roles_bounds records (buildStateMap (VariantStates req)) Hmin (rolesOf records)
    (initTargets (VariantStates req), e) Hok) as [_ Hb]. specialize (Hb v). cbn [fst] in Hb.
  fold (scaleDownRoleIterated e records (initTargets (VariantStates req)) (buildStateMap (VariantStates req))) in Hb. fold t in Hb.
  assert (Ht : target_of t v = n) by (unfold target_of; by rewrite Hv). rewrite Ht, initTargets_of in Hb.
  destruct (buildDecision_fields req (buildStateMap (VariantStates req)) (buildCapacityMap records) "greedy-by-score" (v, n))
    as (F0 & F1 & F2 & F3 & F4 & _). cbn [fst snd] in *.
  unfold within_bounds, ordered_gpus. rewrite F1, F2, F3, F4. split; [|rewrite Z.max_l; lia]. split; [|lia].
  unfold min_of, state_of in *. destruct (buildStateMap (VariantStates req) !! v); cbn in *; lia.
Qed.

(** ** The whole pass *)
Section pass.
Context `{GoSort} `{MapRange} `{TaintMatcher} {C : IntConv}.
Context (constraints : list (option ResourceConstraints)) (flags : RescaleFlags) (nodes : option NodeView).
Context (requests : list ModelScalingRequest) (B : Z) (fuel inner : nat).
#[local] Notation start := (pass_start constraints (declaredAccelerators requests) nodes).
Hypothesis Hst : pass_ready start.
Hypothesis Hsane : Forall (sane_request B) requests.
Hypothesis Hsig : Forall (λ req, signal_ok (CompositeSignal req)) requests.
Hypothesis Hns : Forall (λ req, req_Namespace req ≠ "") requests.
Hypothesis Hone : Forall one_spelling requests.
Hypothesis HB : B + 4294967296 ≤ int_max.
Hypothesis Hfuel : B + Z.of_nat fuel * (Z.of_nat inner * maxReplicaCount) ≤ int_max.
#[local] Notation B' := (B + Z.of_nat fuel * (Z.of_nat inner * maxReplicaCount)).

(** The decisions of a pass: those of the fair share's models, of the others and of
    rescale, with the accounts that bound them. *)
Lemma Optimize_parts : ∃ rs work others st,
  g_decisions (Optimize flags fuel inner nodes requests constraints) =
    mjoin ((λ w, (scale_up_decisions constraints w).1) <$> work) ++ mjoin (other_decisions <$> others) ++ rs_decisions rs ∧
  within_start start rs ∧
  pass_inv (p_available (rs_pass rs)) (p_byNS (rs_pass rs)) (p_nodes (rs_pass rs)) B' work st ∧
  (∀ w, w ∈ work → w_req w ∈ requests) ∧ (∀ req, req ∈ others → req ∈ requests).
Proof using All.
  assert (Forall_subset : ∀ (P : ModelScalingRequest → Prop) l l', Forall P l → (∀ x, x ∈ l' → x ∈ l) → Forall P l').
  { intros P l l' Hl Hin. rewrite Forall_forall in Hl |- *. by eauto. }
  unfold Optimize.
  set (rs := if any_enabled flags then _ else _).
  assert (Hrs : within_start start rs).
  { unfold rs. destruct (any_enabled flags); [by apply (applyRescale_within _ _ _ _ B)|by apply within_start_init]. }
  clearbody rs. set (rest := filter _ requests).
  assert (Hrest : ∀ req, req ∈ rest → req ∈ requests) by (by intros req [_ ?]%list_elem_of_filter).
  destruct (foldl split_request ([], []) rest) as [work0 others] eqn:He.
  destruct (split_requests B rest work0 others) as (Hready & Hreqs & Hothers); [by eapply Forall_subset..|done|].
  pose proof (rescaled_ready start rs Hst Hrs) as Hst1.
  pose proof (fairShareScaleUp_inv _ _ _ (start_under _ Hst1) fuel inner B work0 (rs_pass rs)
    (start_inv _ work0 B Hst1 Hready) Hfuel) as Hi.
  destruct (fairShareScaleUp fuel inner work0 (rs_pass rs)) as [[work st] ended]. destruct Hi as [Hi Hsame].
  exists rs, work, others, st. split_and!; [|done|done| |by eauto].
  - cbn [g_decisions]. by rewrite <- list_fmap_compose.
  - intros w Hw%(list_elem_of_fmap_2 w_req). rewrite Hsame in Hw. apply list_elem_of_fmap in Hw as (w0 & -> & Hw0). eauto.
Qed.

(** A sum of charges over the decisions of a pass. *)
Lemma parts_sum (g : VariantDecision → Z) (bound : modelWork → Z) rs work others B1 :
  (∀ req, req ∈ others → req ∈ requests) → (∀ d, ordered_gpus d = 0 → g d = 0) →
  (∀ w, w ∈ work → w_req w ∈ requests) → Forall (work_ok B1) work →
  (∀ w, w ∈ work → (∀ v, 0 ≤ target_of (w_start w) v) → sumZ g (scale_up_decisions constraints w).1 ≤ bound w) →
  sumZ g (mjoin ((λ w, (scale_up_decisions constraints w).1) <$> work) ++ mjoin (other_decisions <$> others) ++ rs_decisions rs)
  ≤ sumZ bound work + sumZ g (rs_decisions rs).
Proof using Hsane HB.
  clear Hfuel. intros Ho Hz Hw Hok Hb. rewrite !sumZ_app, !sumZ_join. rewrite Forall_forall in Hsane.
  assert (sumZ (λ req, sumZ g (other_decisions req)) others = 0).
  { rewrite (sumZ_ext _ (λ _, 0)), sumZ_zero; [done|]. intros req Hin. rewrite (sumZ_ext _ (λ _, 0)), sumZ_zero; [done|].
    intros d Hd. apply Hz. eapply others_fall; [by apply Hsane, Ho|lia|done]. }
  assert (sumZ (λ w, sumZ g (scale_up_decisions constraints w).1) work ≤ sumZ bound work); [|lia].
  apply sumZ_le. intros w Hin. apply Hb; [done|]. intros v. unfold w_start. rewrite initTargets_of.
  apply (sr_current B (w_req w)). by apply Hsane, Hw.
Qed.

Lemma Optimize_cluster b f F :
  p_available start = Some b → b !! f = Some F → F ≠ MaxInt → listed_by_all (p_byNS start) f →
  sumZ (cluster_charge start f) (g_decisions (Optimize flags fuel inner nodes requests constraints)) ≤ F.
Proof using All.
  intros Hb Hf HF Hl. destruct Optimize_parts as (rs & work & others & st & -> & Hrs & Hi & Hw & Ho).
  assert (HF' : isUnboundedBudget F = false).
  { pose proof (pr_cluster _ Hst) as Ha. rewrite Hb in Ha. pose proof (ok_nonneg _ (proj1 Ha) _ _ Hf). apply isUnbounded_false. lia. }
  pose proof (ws_cluster _ _ Hrs) as Hc. rewrite Hb in Hc.
  destruct (p_available (rs_pass rs)) as [b1|] eqn:Hb1; [|done]. destruct Hc as (_ & _ & _ & Hc).
  destruct (Hc f F Hf HF' I) as (v1 & Hv1 & Hu1 & Hle1). rewrite <- Hb1 in Hi.
  pose proof (pi_cluster _ _ _ _ _ _ Hi) as Hp. rewrite Hb1 in Hp.
  destruct (p_available st) as [b2|]; [|done]. destruct Hp as (_ & _ & _ & Hp).
  destruct (Hp f v1 Hv1 Hu1 ltac:(by apply (rescaled_listed start rs))) as (v2 & _ & Hu2 & Hle2). apply isUnbounded_false in Hu2.
  etrans; [apply (parts_sum _ (w_drawn (Some b1) (p_byNS (rs_pass rs)) f) rs work others B'); try done|lia].
  - intros d Hd. unfold cluster_charge. rewrite Hd. by destruct (Covers _ _).
  - apply Hi.
  - intros w Hin Hcur. rewrite <- Hb1. etrans; [|eapply ups_charge; [by eapply Forall_forall; [apply Hi|]|done]].
    apply Z.eq_le_incl, sumZ_ext. intros d _. unfold cluster_charge. by rewrite (rescaled_key start rs).
Qed.

Lemma Optimize_namespace ns n f F :
  ns ≠ "" → p_byNS start !! ns = Some n → n !! f = Some F → isUnboundedBudget F = false →
  sumZ (ns_charge start ns f) (g_decisions (Optimize flags fuel inner nodes requests constraints)) ≤ F.
Proof using All.
  intros Hne Hn Hf HF. destruct Optimize_parts as (rs & work & others & st & -> & Hrs & Hi & Hw & Ho).
  pose proof (ws_ns _ _ Hrs ns) as Hc. rewrite Hn in Hc.
  destruct (p_byNS (rs_pass rs) !! ns) as [n1|] eqn:Hn1; [|done]. destruct Hc as (_ & _ & Hc).
  destruct (Hc f F Hf HF Hne) as (v1 & Hv1 & Hu1 & Hle1).
  pose proof (pi_ns _ _ _ _ _ _ Hi ns) as Hp. rewrite Hn1 in Hp.
  destruct (p_byNS st !! ns) as [n2|]; [|done]. destruct Hp as (_ & _ & Hp).
  destruct (Hp f v1 Hv1 Hu1 I) as (v2 & _ & Hu2 & Hle2). apply isUnbounded_false in Hu2.
  etrans; [eapply (parts_sum _ (λ w, if String.eqb (req_Namespace (w_req w)) ns then _ else 0) rs work others B'); try done|].
  - intros d Hd. unfold ns_charge, cluster_charge. rewrite Hd. by destruct (Covers _ _), (String.eqb _ _).
  - apply Hi.
  - intros w Hin Hcur. etrans; [|eapply ups_ns_charge; [by eapply Forall_forall; [apply Hi|]|done]].
    apply Z.eq_le_incl, sumZ_ext. intros d _. unfold ns_charge, cluster_charge. by rewrite (rescaled_key start rs).
  - cbv beta in *. lia.
Qed.

Lemma Optimize_bounds d : d ∈ g_decisions (Optimize flags fuel inner nodes requests constraints) → within_bounds d.
Proof using All.
  destruct Optimize_parts as (rs & work & others & st & -> & Hrs & Hi & Hw & Ho). rewrite Forall_forall in Hsane.
  intros [Hd|[Hd|Hd]%elem_of_app]%elem_of_app.
  - apply list_elem_of_join in Hd as (ds & Hd & (w & -> & Hin)%list_elem_of_fmap).
    eapply ups_bounds; [|done]. by eapply Forall_forall; [apply Hi|].
  - apply list_elem_of_join in Hd as (ds & Hd & (req & -> & Hin)%list_elem_of_fmap).
    eapply others_fall; [by apply Hsane, Ho|lia|done].
  - by apply (ws_bounds _ _ Hrs).
Qed.
End pass.

(** ** Properties *)


(** Two models that compete for two free H100s, and one that has A100s to itself. *)
Definition single_variant (model ns name acc : string) (demand : Z) : ModelScalingRequest :=
  MkRequest model ns
    (MkNamed (Some (MkAnalyzerResult [MkVariantCapacity name "both" (f_of 100) "" (f_of 10) f0] (f_of demand))) f1 (f_of demand) f0
       None None f0 f0 f0 (f_of demand) f0 None true ∅ ∅ ∅)
    [MkReplicaState name 0 [] [] "" [] 1 "both" None None] [MkMetadata name "both" (f_of 10) acc] f1.
Definition three_requests : list ModelScalingRequest :=
  [busy_request; single_variant "mistral" "ns" "solo" "A100" 500; single_variant "qwen" "other" "big" "NVIDIA-H100-PCIe" 500].
Definition pool_bound : ResourceConstraints :=
  MkConstraints "cluster-quota" {["NVIDIA-H100-PCIe" := MkPool 7 5; "A100" := MkPool 6 0]} None false 13 5 8
    false false false false 0.
Definition three_start : pass_state := pass_start [Some pool_bound] (declaredAccelerators three_requests) None.
Definition three_run : greedy_result := Optimize (H1 := by_key) (MkFlags true ∅) 20 20 None three_requests [Some pool_bound].

Lemma two_keys_ok (b : gmap string Z) :
  b = {["NVIDIA-H100-PCIe" := 2; "A100" := 6]} → budget_ok b ∧ small_budgets b.
Proof.
  intros ->. set (b := {[_ := 2; _ := 6]}).
  assert (Hk : ∀ k v, b !! k = Some v → k = "NVIDIA-H100-PCIe" ∧ v = 2 ∨ k = "A100" ∧ v = 6).
  { intros k v. unfold b. intros [[<- <-]|[_ [<- <-]%lookup_singleton_Some]]%lookup_insert_Some; [by left|by right]. }
  split; [split|].
  - intros p f pv fv Hp Hf. apply Hk in Hp as [[-> ->]|[-> ->]]; apply Hk in Hf as [[-> ->]|[-> ->]]; done.
  - intros k k' [v Hv] [v' Hv']. apply Hk in Hv as [[-> ->]|[-> ->]]; apply Hk in Hv' as [[-> ->]|[-> ->]]; done.
  - intros k v Hv. unfold in_int, int_min, int_max. apply Hk in Hv as [[-> ->]|[-> ->]]; lia.
  - intros k v Hv. apply Hk in Hv as [[-> ->]|[-> ->]]; lia.
  - intros k v Hv. apply Hk in Hv as [[-> ->]|[-> ->]]; lia.
Qed.

Lemma three_start_ready : pass_ready three_start.
Proof.
  split.
  - unfold avail_ok. assert (He : p_available three_start = Some {["NVIDIA-H100-PCIe" := 2; "A100" := 6]}) by (vm_compute; reflexivity).
    rewrite He. by apply two_keys_ok.
  - intros ns n Hn. assert (He : p_byNS three_start = ∅) by (vm_compute; reflexivity). by rewrite He, lookup_empty in Hn.
  - exact I.
Qed.

Lemma three_requests_sane : Forall (sane_request 10) three_requests.
Proof.
  apply Forall_cons. split; [exact busy_request_sane|].
  apply Forall_cons; split; [|apply Forall_singleton]; (eapply sane_request_of; [lia|vm_compute; reflexivity| |by_computation..]);
    (apply sane_model_of; [by_computation..| |by_computation]; repeat constructor; by_computation).
Qed.

Lemma three_requests_signal : Forall (λ req, signal_ok (CompositeSignal req)) three_requests.
Proof.
  repeat (apply Forall_cons; split); [..|by apply Forall_nil]; (eapply signal_ok_of; [vm_compute; reflexivity|by_computation..]).
Qed.

Lemma three_requests_spelled : Forall one_spelling three_requests.
Proof.
  assert (Hc : ∀ req, Forall (λ vc, Forall (λ vc', EqualFold (rec_Acc vc) (rec_Acc vc') = true) (default [] (recordsForRequest req)))
    (default [] (recordsForRequest req)) → one_spelling req).
  { intros req Hall vc vc' Hv Hv' _. rewrite Forall_forall in Hall. specialize (Hall vc Hv). rewrite Forall_forall in Hall. by apply Hall. }
  repeat (apply Forall_cons; split); [..|by apply Forall_nil]; apply Hc; by_computation.
Qed.


(** ** A product's bound that rescale passes

    A model with a variant on the family and a cheaper one on a product of it, under a
    bound of six on the family and two on the product.  Rescale reads both as one
    accelerator by the first variant's name, so all six GPUs go to the product; the
    fair share alone gives it two. *)
Definition mixed_request : ModelScalingRequest :=
  MkRequest "qwen" "ns"
    (MkNamed (Some (MkAnalyzerResult [MkVariantCapacity "any" "both" (f_of 100) "" (f_of 10) f0;
                                      MkVariantCapacity "pcie" "both" (f_of 100) "" (f_of 10) f0] (f_of 1000)))
       f1 (f_of 1000) f0 None None f0 f0 f0 (f_of 1000) f0 None true ∅ ∅ ∅)
    [MkReplicaState "any" 0 [] [] "" [] 1 "both" None None; MkReplicaState "pcie" 0 [] [] "" [] 1 "both" None None]
    [MkMetadata "any" "both" (f_of 10) "H100"; MkMetadata "pcie" "both" (f_of 5) "NVIDIA-H100-PCIe"] f1.
Definition product_bound : ResourceConstraints :=
  MkConstraints "cluster-quota" {["H100" := MkPool 6 0; "NVIDIA-H100-PCIe" := MkPool 2 0]} None false 8 0 8
    false false false false 0.

Theorem rescale_passes_product_bound :
  let run rescale := g_decisions (Optimize (H1 := by_key) (MkFlags rescale ∅) 20 20 None [mixed_request] [Some product_bound]) in
  let start := pass_start [Some product_bound] (declaredAccelerators [mixed_request]) None in
  ((.!! "NVIDIA-H100-PCIe") <$> p_available start = Some (Some 2)) ∧
  ((λ d, (VariantName d, dec_AcceleratorName d, GPUsAllocated d)) <$> run true =
     [("any", "H100", 0); ("pcie", "NVIDIA-H100-PCIe", 6)]) ∧
  ((λ d, (VariantName d, dec_AcceleratorName d, GPUsAllocated d)) <$> run false =
     [("any", "H100", 4); ("pcie", "NVIDIA-H100-PCIe", 2)]).
Proof. cbv zeta. split_and!; vm_compute; reflexivity. Qed.
