(* ===== verification/ShareTarget.v ===== *)
(** * ShareTarget: the targets of the utilization share

    [utilization_share_target.go]: what a role's GPUs serve, its claim and its
    score, the continuous targets by water-filling over floors and ceilings, the
    whole-replica targets by a priority queue, and the verdict of one group. *)
From Stdlib Require Import ZArith Lia String SpecFloat Reals Lra.
From stdpp Require Import base gmap strings list.
From S2P Require Import Prelude GoFloat FloatBounds GoCmp Heap.
Open Scope Z_scope.

(** ** Data *)
Record ShareCapacityStep := MkStep { step_GPUs : float64; PerGPU : float64 }.

Record ShareRole := MkShareRole {
  sr_Key : string; sr_Weight : float64; Need : float64; Floor : Z; MinFloor : Z; Ceiling : Z;
  ReplicaGPUs : Z; Capacity : list ShareCapacityStep; Held : bool }.

Definition MaxShareBudgetGPUs : Z := 1048576.

(** The literals [1], [0.5] and [1e-9]. *)
Definition f1 : float64 := of_int 1.
Definition fhalf : float64 := S754_finite false 4503599627370496 (-53).
Definition nano : float64 := S754_finite false 4835703278458517 (-82).

(** ** What a role's GPUs serve *)
Fixpoint serves_loop (s g : float64) (steps : list ShareCapacityStep) : float64 :=
  match steps with
  | [] => fadd s g
  | st :: steps =>
      let take := math_Min g (step_GPUs st) in
      let s := fadd s (fmul take (PerGPU st)) in
      let g := fsub g take in
      if fle g f0 then s else serves_loop s g steps
  end.

Definition serves (r : ShareRole) (g : float64) : float64 :=
  match Capacity r with
  | [] => g
  | steps => if flt f0 g then serves_loop f0 g steps else g
  end.

Definition Utilization (r : ShareRole) (held threshold : float64) : float64 :=
  fdiv (fmul (serves r (Need r)) threshold) (serves r held).

Definition ShareScore (held need weight : float64) : float64 :=
  if fle need f0 then S754_infinity false
  else
    let x := fsub (fdiv held need) f1 in
    if fle f0 x then fdiv x weight else fmul x weight.

Definition Score (r : ShareRole) (held : float64) : float64 :=
  ShareScore (serves r held) (serves r (Need r)) (sr_Weight r).

(** The walk over the steps: the GPUs so far, what is left to serve, and whether every
    step walked serves as much as the best. *)
Fixpoint gpus_loop (g left : float64) (uniform : bool) (steps : list ShareCapacityStep)
  : float64 * float64 * bool :=
  match steps with
  | [] => (g, left, uniform)
  | st :: steps =>
      let uniform := uniform && feq (PerGPU st) f1 in
      let holds := fmul (step_GPUs st) (PerGPU st) in
      if fle left holds then (fadd g (fdiv left (PerGPU st)), f0, uniform)
      else gpus_loop (fadd g (step_GPUs st)) (fsub left holds) uniform steps
  end.

Definition gpusFor (r : ShareRole) (c : float64) : float64 :=
  match Capacity r with
  | [] => c
  | steps =>
      if flt f0 c then
        let '(g, rest, uniform) := gpus_loop f0 c true steps in
        if uniform then c else fadd g rest
      else c
  end.

Definition ceiling (r : ShareRole) : float64 :=
  if Ceiling r <=? 0 then S754_infinity false else of_int (Ceiling r).

Definition Claim (r : ShareRole) : float64 :=
  math_Min (math_Max (Need r) (of_int (Floor r))) (ceiling r).

(** One replica: [max(r.ReplicaGPUs, 1)]. *)
Definition replica (r : ShareRole) : Z := Z.max (ReplicaGPUs r) 1.

(** ** Headroom *)

Definition ShareHeadroomReplicas {C : IntConv} (w : float64) (n : Z) : Z :=
  if (n <=? 0) || negb (flt f0 w) then 0
  else int_of (math_Min (math_Ceil (fsub (fmul w (of_int n)) nano)) (of_int MaxShareBudgetGPUs)).

Definition set_Ceiling (r : ShareRole) (c : Z) : ShareRole :=
  MkShareRole (sr_Key r) (sr_Weight r) (Need r) (Floor r) (MinFloor r) c (ReplicaGPUs r) (Capacity r) (Held r).

(** The most of the spare a role is given. *)
Definition spare_limit {C : IntConv} (r : ShareRole) (n : Z) : float64 :=
  let g := of_int (replica r) in
  let claim := if Held r then math_Min (Need r) (ceiling r) else Claim r in
  let limit := fmul g (fadd (math_Ceil (fsub (fdiv claim g) nano)) (of_int (ShareHeadroomReplicas (sr_Weight r) n))) in
  if Held r then math_Max limit (of_int (Floor r)) else limit.

Definition cap_role {C : IntConv} (n : Z) (r : ShareRole) : ShareRole :=
  let limit := spare_limit r n in
  if is_nan limit || flt limit f1 || flt (of_int MaxShareBudgetGPUs) limit then r
  else
    let c := int_of limit in
    if (Ceiling r <=? 0) || (c <? Ceiling r) then set_Ceiling r c else r.

Definition ShareCapSpare {C : IntConv} (roles : list ShareRole) (n : Z) : list ShareRole :=
  if n <? 0 then roles else cap_role n <$> roles.

Definition ShareSpare (roles : list ShareRole) (budget : float64) : float64 :=
  fsub budget (foldl (λ sum r, fadd sum (Claim r)) f0 roles).

Definition WholeReplicaCoverage {C : IntConv} (roles : list ShareRole) (budget : Z) : bool :=
  foldl (λ sum r, sum ⊞ (replica r ⊠ int_of (math_Ceil (fsub (fdiv (Claim r) (of_int (replica r))) nano)))) 0 roles
    <=? budget.

(** ** Continuous targets *)

(** The sums of one pass: of the needs, of weight times need, of need over weight. *)
Definition pass_sums (active : list ShareRole) : float64 * float64 * float64 :=
  foldl (λ '(sumN, sumWN, sumNoverW) r,
    (fadd sumN (Need r), fadd sumWN (fmul (sr_Weight r) (Need r)), fadd sumNoverW (fdiv (Need r) (sr_Weight r))))
    (f0, f0, f0) active.

Definition pass_target (active : list ShareRole) (pool : float64) (r : ShareRole) : float64 :=
  let '(sumN, sumWN, sumNoverW) := pass_sums active in
  let spare := fsub pool sumN in
  if fle f0 spare then fmul (Need r) (fadd f1 (fmul (fdiv spare sumWN) (sr_Weight r)))
  else fmul (Need r) (fadd f1 (fdiv (fdiv spare sumNoverW) (sr_Weight r))).

(** By how much the solution overshoots the ceilings, and undershoots the floors. *)
Definition pass_over (target : ShareRole → float64) (active : list ShareRole) : float64 * float64 :=
  foldl (λ '(over, under) r,
    let g := target r in
    if flt (ceiling r) g then (fadd over (fsub g (ceiling r)), under)
    else if flt g (of_int (Floor r)) then (over, fadd under (fsub (of_int (Floor r)) g))
    else (over, under)) (f0, f0) active.

Record pin_state := MkPin {
  ps_out : gmap string float64; ps_pool : float64; ps_keep : list ShareRole; ps_pinned : bool }.

Definition pin_step (target : ShareRole → float64) (pinCeilings pinFloors : bool) (s : pin_state) (r : ShareRole)
  : pin_state :=
  let g := target r in
  if pinFloors && flt g (of_int (Floor r)) then
    MkPin (<[sr_Key r := of_int (Floor r)]> (ps_out s)) (fsub (ps_pool s) (of_int (Floor r))) (ps_keep s) true
  else if pinCeilings && flt (ceiling r) g then
    MkPin (<[sr_Key r := ceiling r]> (ps_out s)) (fsub (ps_pool s) (ceiling r)) (ps_keep s) true
  else MkPin (ps_out s) (ps_pool s) (ps_keep s ++ [r]) (ps_pinned s).

(** The passes; [None] when the fuel runs out. *)
Fixpoint fill_loop (fuel : nat) (active : list ShareRole) (pool : float64) (out : gmap string float64)
  : option (gmap string float64) :=
  match active, fuel with
  | [], _ => Some out
  | _, O => None
  | _, S fuel =>
      let target := pass_target active pool in
      let '(over, under) := pass_over target active in
      let s := foldl (pin_step target (fle under over) (fle over under)) (MkPin out pool [] false) active in
      if ps_pinned s then fill_loop fuel (ps_keep s) (ps_pool s) (ps_out s)
      else Some (foldl (λ out r, <[sr_Key r := math_Max f0 (target r)]> out) (ps_out s) (ps_keep s))
  end.

Definition idle_step (acc : gmap string float64 * float64 * list ShareRole) (r : ShareRole)
  : gmap string float64 * float64 * list ShareRole :=
  let '(out, pool, active) := acc in
  if fle (Need r) f0 then (<[sr_Key r := of_int (Floor r)]> out, fsub pool (of_int (Floor r)), active)
  else (out, pool, active ++ [r]).

Definition ContinuousShareTargets (roles : list ShareRole) (budget : float64) : option (gmap string float64) :=
  let '(out, pool, active) := foldl idle_step (∅, budget, []) roles in
  fill_loop (length active) active pool out.

(** ** Whole-replica targets *)
Record shareEntry := MkEntry { se_role : ShareRole; se_held : Z }.

Definition z (e : shareEntry) : float64 := Score (se_role e) (of_int (se_held e)).

Definition entry_compare (a b : shareEntry) : comparison :=
  cmp_Or (cmp_float (z a) (z b))
    (cmp_Or (cmp_float (sr_Weight (se_role b)) (sr_Weight (se_role a)))
       (String.compare (sr_Key (se_role a)) (sr_Key (se_role b)))).

Definition Less (a b : shareEntry) : bool := match entry_compare a b with Lt => true | _ => false end.

(** Whether the entry takes one more replica of what is left. *)
Definition takes (left : Z) (e : shareEntry) : bool :=
  let g := replica (se_role e) in
  negb (left <? g) && negb (flt (ceiling (se_role e)) (of_int (se_held e ⊞ g))).

Fixpoint give_loop (fuel : nat) (h : list shareEntry) (left : Z) (out : gmap string Z) : option (gmap string Z) :=
  match h, fuel with
  | [], _ => Some out
  | _, O => None
  | _, S fuel =>
      match Pop Less h with
      | None => None
      | Some (e, h) =>
          if takes left e then
            let g := replica (se_role e) in
            let e := MkEntry (se_role e) (se_held e ⊞ g) in
            give_loop fuel (Push Less h e) (left ⊟ g) (<[sr_Key (se_role e) := se_held e]> out)
          else give_loop fuel h left out
      end
  end.

Definition floors (roles : list ShareRole) (budget : Z) : gmap string Z * Z :=
  foldl (λ '(out, avail) r, (<[sr_Key r := Floor r]> out, avail ⊟ Floor r)) (∅, budget) roles.

Definition push_role (out : gmap string Z) (h : list shareEntry) (r : ShareRole) : list shareEntry :=
  if flt f0 (Need r) then Push Less h (MkEntry r (default 0 (out !! sr_Key r))) else h.

(** Each turn drops an entry or gives at least one GPU. *)
Definition IntegerShareTargets (roles : list ShareRole) (budget : Z) : option (gmap string Z) :=
  let '(out, avail) := floors roles budget in
  let h := foldl (push_role out) [] roles in
  give_loop (length h + Z.to_nat avail) h avail out.

(** ** The verdict of a group *)
Definition ShareIdleFloor : float64 := S754_finite false 7205759403792794 (-57).

Definition fabs (x : float64) : float64 := SFabs x.

Definition shareTol (target : float64) (r : ShareRole) (tolerance : float64) : float64 :=
  math_Max (fmul tolerance target) (fmul fhalf (of_int (replica r))).

Definition ShareInBand (committed target : float64) (r : ShareRole) (tolerance threshold : float64) : bool :=
  if fle (fabs (fsub committed target)) (shareTol target r tolerance) then true
  else if fle committed f0 || fle target f0 then false
  else
    let u := Utilization r committed threshold in
    let ut := Utilization r target threshold in
    fle u threshold && fle (fabs (fsub u ut)) ShareIdleFloor.

Record ShareRoleVerdict := MkVerdict {
  v_Key : string; v_Committed : Z; v_Continuous : float64; v_Integer : Z; v_Headroom : float64;
  v_InBand : bool; v_Actionable : bool }.

Record ShareEvaluation := MkEvaluation {
  ev_Spare : float64; ev_Coverage : bool; ev_Roles : list ShareRoleVerdict; ev_ReplicasToMove : Z }.

Definition verdict (cont : gmap string float64) (integ committed : gmap string Z) (thresholds : gmap string float64)
    (tolerance : float64) (r : ShareRole) : ShareRoleVerdict :=
  let c := default 0 (committed !! sr_Key r) in
  let continuous := default f0 (cont !! sr_Key r) in
  let integer := default 0 (integ !! sr_Key r) in
  let headroom := if flt f0 (Need r) then fsub (fdiv (serves r (of_int c)) (serves r (Need r))) f1 else S754_nan in
  let need := math_Min (Need r) (ceiling r) in
  let belowNeed := flt (of_int c) need && fle (fsub need nano) continuous in
  let inBand := negb belowNeed && ShareInBand (of_int c) continuous r tolerance (default f0 (thresholds !! sr_Key r)) in
  MkVerdict (sr_Key r) c continuous integer headroom inBand (negb inBand && negb (c =? integer)).

Definition to_move (v : ShareRoleVerdict) (r : ShareRole) : Z :=
  let short := v_Integer v ⊟ v_Committed v in if 0 <? short then Z.quot short (replica r) else 0.

Definition EvaluateShare `{GoSort} {C : IntConv} (roles : list ShareRole) (committed : gmap string Z)
    (thresholds : gmap string float64) (budget : Z) (tolerance : float64) : option ShareEvaluation :=
  cont ← ContinuousShareTargets roles (of_int budget);
  integ ← IntegerShareTargets roles budget;
  let vs := verdict cont integ committed thresholds tolerance <$> roles in
  mret (MkEvaluation (ShareSpare roles (of_int budget)) (WholeReplicaCoverage roles budget)
    (sort_slice (λ a b, str_lt (v_Key a) (v_Key b)) vs)
    (foldl (λ n p, n ⊞ to_move p.1 p.2) 0 (zip vs roles))).

(** ** The order of the queue

    [cmp.Compare] and its lexicographic combination compare like total preorders,
    NaNs included, and the key settles what is left. *)
Lemma compares_entry : compares entry_compare.
Proof.
  apply (compares_lex (λ a b, cmp_float (z a) (z b))); [apply (compares_on z), compares_float|].
  apply (compares_lex (λ a b, cmp_float (sr_Weight (se_role b)) (sr_Weight (se_role a)))).
  - apply (compares_flip (λ a b, cmp_float (sr_Weight (se_role a)) (sr_Weight (se_role b)))).
    apply (compares_on (λ a, sr_Weight (se_role a))), compares_float.
  - apply (compares_on (λ a, sr_Key (se_role a))), compares_string.
Qed.

#[export] Instance Less_preorder : PreorderLess Less.
Proof.
  destruct compares_entry as [Ho Ht]. unfold Less. split.
  - intros a b. rewrite (Ho a b). by destruct (entry_compare a b).
  - intros a b d H1 H2. specialize (Ht d b a). rewrite (Ho b d), (Ho a b), (Ho a d) in Ht.
    destruct (entry_compare a b), (entry_compare b d), (entry_compare a d); try done; exfalso; by apply Ht.
Qed.

Lemma Less_tie a b : Less a b = false → Less b a = false → sr_Key (se_role a) = sr_Key (se_role b).
Proof.
  unfold Less. rewrite (cmp_opp _ compares_entry a b). intros H1 H2.
  assert (E : entry_compare a b = Eq) by (by destruct (entry_compare a b)).
  unfold entry_compare, cmp_Or in E. destruct (cmp_float (z a) (z b)); try done.
  destruct (cmp_float _ _); try done. by apply String.compare_eq_iff.
Qed.
