(* ===== verification/ShareInteger.v ===== *)
(** * ShareInteger: the whole-replica targets are the greedy ones

    [IntegerShareTargets] pops a priority queue and drops a role for good once its
    next replica does not fit.  The reference definition has no queue: while some
    role can take one more replica, the candidate with the lowest score takes it.
    The two agree, and what they give is within the budget and the ceilings, in
    whole replicas, and leaves no candidate. *)
From Stdlib Require Import ZArith Lia String SpecFloat.
From stdpp Require Import base gmap strings list.
From S2P Require Import Prelude GoFloat FloatBounds Heap ShareTarget.
Open Scope Z_scope.

(** ** The reference *)
Definition key (e : shareEntry) : string := sr_Key (se_role e).

(** A next replica that fits what is left, and room below the ceiling. *)
Definition candidate (avail : Z) (e : shareEntry) : bool :=
  (replica (se_role e) <=? avail) &&
  ((Ceiling (se_role e) <=? 0) || (se_held e + replica (se_role e) <=? Ceiling (se_role e))).

(** The lowest score of a list. *)
Definition lowest (e : shareEntry) (es : list shareEntry) : shareEntry :=
  foldl (λ b x, if Less x b then x else b) e es.

Definition grown (e : shareEntry) : shareEntry := MkEntry (se_role e) (se_held e + replica (se_role e)).

Definition grow_in (e : shareEntry) (es : list shareEntry) : list shareEntry :=
  (λ x, if String.eqb (key x) (key e) then grown e else x) <$> es.

Fixpoint reference_loop (fuel : nat) (es : list shareEntry) (avail : Z) (out : gmap string Z) : option (gmap string Z) :=
  match filter (λ e, candidate avail e = true) es with
  | [] => Some out
  | c :: cs =>
      match fuel with
      | O => None
      | S fuel =>
          let e := lowest c cs in
          reference_loop fuel (grow_in e es) (avail - replica (se_role e)) (<[key e := se_held (grown e)]> out)
      end
  end.

Definition wanting (roles : list ShareRole) : list shareEntry :=
  (λ r, MkEntry r (Floor r)) <$> filter (λ r, flt f0 (Need r) = true) roles.

Definition at_floors (roles : list ShareRole) : gmap string Z :=
  foldl (λ out r, <[sr_Key r := Floor r]> out) ∅ roles.

Definition reference_targets (roles : list ShareRole) (budget : Z) : option (gmap string Z) :=
  let avail := budget - sumZ Floor roles in
  reference_loop (Z.to_nat avail) (wanting roles) avail (at_floors roles).

(** ** One step *)
Definition limit : Z := 2 ^ 52.

(** The counts stay in range: what an entry holds and may still take, and its ceiling. *)
Definition in_range (avail : Z) (e : shareEntry) : Prop :=
  0 ≤ se_held e ∧ se_held e + Z.max avail 0 ≤ limit ∧ Ceiling (se_role e) ≤ limit.

Lemma takes_candidate avail e : in_range avail e → takes avail e = candidate avail e.
Proof.
  intros (H1 & H2 & H3). unfold takes, candidate, limit in *. assert (1 ≤ replica (se_role e)) by (unfold replica; lia).
  rewrite Z.leb_antisym. destruct (Z.ltb_spec avail (replica (se_role e))) as [?|Hle]; [done|]. cbn [negb andb].
  rewrite wrap_id by (unfold in_int, int_min, int_max; lia). unfold ceiling. destruct (Ceiling (se_role e) <=? 0) eqn:E.
  - destruct (of_int_exact (se_held e + replica (se_role e))) as [[Hf _] _]; [lia|]. cbn [orb].
    by destruct (of_int _).
  - apply Z.leb_gt in E. rewrite of_int_lt by lia. cbn [orb]. symmetry. apply Z.leb_antisym.
Qed.

Lemma lowest_spec e es :
  (lowest e es = e ∨ lowest e es ∈ es) ∧ ∀ x, x ∈ e :: es → Less x (lowest e es) = false.
Proof.
  revert e. unfold lowest. induction es as [|a es IH]; intros e.
  { split; [by left|]. intros x ->%list_elem_of_singleton. simpl. destruct (Less e e) eqn:E; [|done].
    by rewrite (less_asym _ _ E) in E. }
  cbn [foldl]. destruct (IH (if Less a e then a else e)) as [H1 H2]. set (b := foldl _ _ es) in *. split.
  - destruct H1 as [H1|H1]; [|by right; right]. destruct (Less a e) eqn:E; rewrite H1; [right; by left|by left].
  - assert (Hb : Less (if Less a e then a else e) b = false) by (apply H2; left).
    intros x [->|[->|Hx]%elem_of_cons]%elem_of_cons.
    + destruct (Less a e) eqn:E; [|done]. eapply less_ntrans; [by apply less_asym|exact Hb].
    + destruct (Less a e) eqn:E; [done|]. eapply less_ntrans; [exact E|exact Hb].
    + apply H2. by right.
Qed.

Definition keys (es : list shareEntry) : list string := key <$> es.

Lemma key_inj es a b : NoDup (keys es) → a ∈ es → b ∈ es → key a = key b → a = b.
Proof. apply fmap_inj_NoDup. Qed.

(** Any element of a list nothing in it is less than is its lowest. *)
Lemma lowest_unique es c cs e :
  NoDup (keys es) → c :: cs ⊆ es → e ∈ c :: cs → (∀ x, x ∈ c :: cs → Less x e = false) → lowest c cs = e.
Proof.
  intros Hn Hs He Hmin. destruct (lowest_spec c cs) as [H1 H2].
  assert (Hin : lowest c cs ∈ c :: cs) by (destruct H1 as [->|?]; [left|by right]).
  apply (key_inj es); [done|by apply Hs|by apply Hs|]. apply Less_tie; [by apply Hmin|by apply H2].
Qed.

Lemma grow_in_keys e es : keys (grow_in e es) = keys es.
Proof.
  unfold keys, grow_in. rewrite <- list_fmap_compose. apply list_fmap_ext. intros i x _. simpl.
  destruct (String.eqb_spec (key x) (key e)); [done|done].
Qed.

Lemma grow_in_perm e es rest :
  NoDup (keys es) → es ≡ₚ e :: rest → grow_in e es ≡ₚ grown e :: rest.
Proof.
  intros Hn Hp. unfold grow_in. rewrite Hp. cbn [fmap list_fmap]. rewrite String.eqb_refl. apply Permutation_skip.
  assert (Hk : key e ∉ keys rest).
  { unfold keys in Hn. rewrite Hp in Hn. cbn [fmap list_fmap] in Hn. by apply NoDup_cons in Hn as [? _]. }
  set (f := λ x : shareEntry, _). assert (Hf : f <$> rest = id <$> rest); [|by rewrite Hf, list_fmap_id].
  apply Forall_fmap_ext_1, Forall_forall. intros x Hx. unfold f.
  destruct (String.eqb_spec (key x) (key e)) as [E|]; [|done]. destruct Hk. rewrite <- E. apply list_elem_of_fmap. eauto.
Qed.

(** ** The queue gives what the reference gives *)
Lemma candidate_shrinks avail avail' e : avail' ≤ avail → candidate avail e = false → candidate avail' e = false.
Proof.
  unfold candidate. intros Hle. rewrite !andb_false_iff, !Z.leb_gt. intros [?|?]; [left; lia|by right].
Qed.

Lemma reference_stuck fuel es avail out :
  (∀ e, e ∈ es → candidate avail e = false) → reference_loop fuel es avail out = Some out.
Proof.
  intros H. assert (E : filter (λ e, candidate avail e = true) es = []).
  { apply elem_of_nil_inv. intros e [He Hin]%list_elem_of_filter. by rewrite H in He. }
  destruct fuel; cbn [reference_loop]; by rewrite E.
Qed.

(** A step of the reference, towards an entry known to be the lowest candidate. *)
Lemma reference_step fuel es avail out e :
  NoDup (keys es) → e ∈ es → candidate avail e = true →
  (∀ x, x ∈ es → candidate avail x = true → Less x e = false) →
  reference_loop (S fuel) es avail out =
    reference_loop fuel (grow_in e es) (avail - replica (se_role e)) (<[key e := se_held (grown e)]> out).
Proof.
  intros Hn He Hc Hmin. set (cs := filter (λ e, candidate avail e = true) es).
  assert (Hin : e ∈ cs) by (by apply list_elem_of_filter).
  cbn [reference_loop]. fold cs. destruct cs as [|c cs'] eqn:E; [by apply elem_of_nil in Hin|].
  rewrite (lowest_unique es c cs' e); [done|done| |done|].
  - rewrite <- E. intros x Hx. by apply list_elem_of_filter in Hx as [_ ?].
  - intros x Hx. rewrite <- E in Hx. apply list_elem_of_filter in Hx as [? ?]. by apply Hmin.
Qed.

Lemma in_range_grown avail e : in_range avail e → replica (se_role e) ≤ avail → in_range (avail - replica (se_role e)) (grown e).
Proof. unfold in_range, grown. simpl. assert (1 ≤ replica (se_role e)) by (unfold replica; lia). lia. Qed.

Lemma in_range_shrinks avail avail' e : avail' ≤ avail → in_range avail e → in_range avail' e.
Proof. unfold in_range. lia. Qed.

Lemma give_reference fuel h avail out es dropped :
  is_heap Less h → es ≡ₚ h ++ dropped → NoDup (keys es) → (∀ e, e ∈ dropped → candidate avail e = false) →
  (∀ e, e ∈ es → in_range avail e) → avail ≤ limit → (length h + Z.to_nat avail <= fuel)%nat →
  ∃ res, give_loop fuel h avail out = Some res ∧
    ∀ fuel2, (Z.to_nat avail <= fuel2)%nat → reference_loop fuel2 es avail out = Some res.
Proof.
  revert h avail out es dropped. induction fuel as [|fuel IH]; intros h avail out es dropped Hh Hp Hn Hd Hr Hl Hf.
  { destruct h; [|simpl in Hf; lia]. exists out. split; [done|]. intros fuel2 _. apply reference_stuck.
    intros e He. apply Hd. by rewrite Hp in He. }
  destruct h as [|h0 hs]; [exists out; split; [done|]; intros fuel2 _; apply reference_stuck; intros e He; apply Hd; by rewrite Hp in He|].
  destruct (Pop_spec Less (h0 :: hs) Hh ltac:(done)) as (e & h' & Epop & Hperm & Hh' & Hmin).
  assert (Hes : es ≡ₚ e :: h' ++ dropped) by (rewrite Hp, Hperm; done).
  assert (He : e ∈ es) by (rewrite Hes; left). assert (Hlen : length (h0 :: hs) = S (length h')) by (by rewrite Hperm).
  cbn [give_loop]. rewrite Epop, takes_candidate by (by apply Hr). destruct (candidate avail e) eqn:Ec.
  - assert (Hg : 1 ≤ replica (se_role e) ≤ avail).
    { unfold candidate in Ec. apply andb_true_iff in Ec as [?%Z.leb_le _]. unfold replica in *. lia. }
    destruct (Hr e He) as (R1 & R2 & _). unfold limit in *.
    rewrite !wrap_id by (unfold in_int, int_min, int_max; lia).
    change (MkEntry (se_role e) (se_held e + replica (se_role e))) with (grown e). change (sr_Key (se_role (grown e))) with (key e).
    destruct (IH (Push Less h' (grown e)) (avail - replica (se_role e)) (<[key e := se_held (grown e)]> out) (grow_in e es) dropped)
      as (res & E1 & E2).
    + by apply (Push_heap Less).
    + rewrite Push_perm. by apply grow_in_perm.
    + by rewrite grow_in_keys.
    + intros x Hx. apply (candidate_shrinks avail); [lia|by apply Hd].
    + intros x Hx. rewrite (grow_in_perm e es (h' ++ dropped)) in Hx by done.
      apply elem_of_cons in Hx as [->|Hx]; [apply in_range_grown; [by apply Hr|lia]|].
      apply (in_range_shrinks avail); [lia|]. apply Hr. rewrite Hes. by right.
    + unfold limit. lia.
    + rewrite Push_perm. simpl. lia.
    + exists res. split; [done|]. intros fuel2 Hf2. destruct fuel2 as [|fuel2]; [lia|].
      rewrite (reference_step _ _ _ _ e); [apply E2; lia|done|done|done|].
      intros x Hx Hcx. apply Hmin. rewrite Hp in Hx. apply elem_of_app in Hx as [Hx|Hx]; [done|]. by rewrite Hd in Hcx.
  - apply (IH h' avail out es (e :: dropped)); try done; [by rewrite Hes, Permutation_middle| |lia].
    intros x [->|Hx]%elem_of_cons; [done|by apply Hd].
Qed.

(** ** The start *)
Definition roles_ok (roles : list ShareRole) (budget : Z) : Prop :=
  NoDup (sr_Key <$> roles) ∧ (∀ r, r ∈ roles → 0 ≤ Floor r ∧ Ceiling r ≤ limit) ∧
  0 ≤ budget ≤ limit ∧ sumZ Floor roles ≤ limit.

Lemma filter_keeps_all {A} (P : A → Prop) `{!∀ a, Decision (P a)} (l : list A) : (∀ a, a ∈ l → P a) → filter P l = l.
Proof.
  induction l as [|a l IH]; intros Hl; [done|]. rewrite filter_cons_True by (apply Hl; left). f_equal. apply IH. intros x Hx. apply Hl. by right.
Qed.

Lemma at_floors_role roles r : NoDup (sr_Key <$> roles) → r ∈ roles → at_floors roles !! sr_Key r = Some (Floor r).
Proof. intros Hn. apply (insert_all_lookup sr_Key Floor roles ∅ Hn). Qed.

Lemma floors_spec roles budget :
  (∀ r, r ∈ roles → 0 ≤ Floor r) → 0 ≤ budget ≤ limit → sumZ Floor roles ≤ limit →
  floors roles budget = (at_floors roles, budget - sumZ Floor roles).
Proof.
  unfold floors, at_floors. intros Hf Hb. induction roles as [|r roles IH] using rev_ind; intros Hs.
  { simpl. f_equal. unfold sumZ. simpl. lia. }
  rewrite sumZ_app in *. rewrite !foldl_app. unfold sumZ at 2 in Hs. cbn [foldr] in Hs.
  assert (0 ≤ Floor r) by (apply Hf; set_solver).
  assert (0 ≤ sumZ Floor roles) by (apply sumZ_nonneg; intros x Hx; apply Hf; set_solver).
  rewrite IH by (set_solver || lia). cbn [foldl]. f_equal. unfold limit in *.
  rewrite wrap_id by (unfold in_int, int_min, int_max; lia). unfold sumZ at 3. simpl. lia.
Qed.

Lemma pushed_spec out roles h :
  (∀ r, r ∈ roles → out !! sr_Key r = Some (Floor r)) → is_heap Less h →
  is_heap Less (foldl (push_role out) h roles) ∧ foldl (push_role out) h roles ≡ₚ h ++ wanting roles.
Proof.
  revert h. induction roles as [|r roles IH]; intros h Ho Hh; [split; [done|by rewrite app_nil_r]|].
  cbn [foldl]. unfold push_role at 2 4, wanting. rewrite filter_cons. rewrite (Ho r) by left. simpl.
  destruct (flt f0 (Need r)) eqn:E.
  - rewrite decide_True by done. destruct (IH (Push Less h (MkEntry r (Floor r)))) as [H1 H2].
    { intros x Hx. apply Ho. by right. }
    { by apply (Push_heap Less). }
    split; [done|]. rewrite H2, Push_perm. unfold wanting. cbn [fmap list_fmap]. by rewrite <- Permutation_middle.
  - rewrite decide_False by done. apply IH; [|done]. intros x Hx. apply Ho. by right.
Qed.

Lemma wanting_keys roles : NoDup (sr_Key <$> roles) → NoDup (keys (wanting roles)).
Proof.
  intros Hn. unfold keys, wanting. rewrite <- list_fmap_compose.
  change (key ∘ (λ r : ShareRole, MkEntry r (Floor r))) with sr_Key.
  by apply NoDup_filter_keys.
Qed.

Lemma wanting_in_range roles budget e :
  roles_ok roles budget → e ∈ wanting roles → in_range (budget - sumZ Floor roles) e.
Proof.
  intros (Hn & Hr & Hb & Hs) (r & -> & [_ Hin]%list_elem_of_filter)%list_elem_of_fmap.
  destruct (Hr r Hin) as [H1 H2]. unfold in_range. simpl.
  assert (Floor r ≤ sumZ Floor roles).
  { apply elem_of_Permutation in Hin as [k Hk]. assert (∀ x, x ∈ k → 0 ≤ Floor x) by (intros x Hx; apply Hr; rewrite Hk; by right).
    rewrite Hk, sumZ_cons. pose proof (sumZ_nonneg Floor k ltac:(done)). lia. }
  lia.
Qed.

(** ** What the reference gives *)
Definition held_in (es : list shareEntry) : Z := sumZ se_held es.

(** An entry further along: the same role, whole replicas more, within the ceiling. *)
Definition further (e e' : shareEntry) : Prop :=
  se_role e' = se_role e ∧ se_held e ≤ se_held e' ∧ (replica (se_role e) | se_held e' - se_held e) ∧
  (se_held e' = se_held e ∨ Ceiling (se_role e) ≤ 0 ∨ se_held e' ≤ Ceiling (se_role e)).

Lemma further_refl e : further e e.
Proof. split_and!; [done|lia| |by left]. rewrite Z.sub_diag. apply Z.divide_0_r. Qed.

Lemma further_trans a b c : further a b → further b c → further a c.
Proof.
  intros (E1 & L1 & D1 & C1) (E2 & L2 & D2 & C2). rewrite E1 in *. split_and!; [done|lia| |].
  - replace (se_held c - se_held a) with ((se_held b - se_held a) + (se_held c - se_held b)) by lia. by apply Z.divide_add_r.
  - destruct C2 as [->|[?|?]]; auto.
Qed.

Lemma further_grown avail e : candidate avail e = true → further e (grown e).
Proof.
  unfold candidate. rewrite andb_true_iff, orb_true_iff, !Z.leb_le. intros [_ Hc]. assert (1 ≤ replica (se_role e)) by (unfold replica; lia).
  split_and!; simpl; [done|lia| |by right]. replace (_ + _ - _) with (replica (se_role e)) by lia. apply Z.divide_refl.
Qed.

Lemma grow_in_further avail e es :
  NoDup (keys es) → e ∈ es → candidate avail e = true → Forall2 further es (grow_in e es).
Proof.
  intros Hn He Hc. apply Forall2_fmap_r, Forall2_same_length_lookup. split; [done|]. intros i a b Ha Hb.
  assert (a = b) as <- by congruence.
  change (further a (if String.eqb (key a) (key e) then grown e else a)). destruct (String.eqb_spec (key a) (key e)) as [E|]; [|apply further_refl].
  rewrite (key_inj es a e) by (done || by eapply list_elem_of_lookup_2). by apply (further_grown avail).
Qed.

Lemma grow_in_held e es :
  NoDup (keys es) → e ∈ es → held_in (grow_in e es) = held_in es + replica (se_role e).
Proof.
  intros Hn [rest Hp]%elem_of_Permutation. unfold held_in. rewrite (grow_in_perm e es rest Hn Hp), Hp, !sumZ_cons. simpl. lia.
Qed.

(** The entries at the end: further along, none a candidate, and what they took is
    what is no longer left.  The map holds them, and nothing else has changed. *)
Lemma reference_result fuel es avail out :
  NoDup (keys es) → (Z.to_nat avail <= fuel)%nat → (∀ e, e ∈ es → out !! key e = Some (se_held e)) →
  ∃ es' rest res, reference_loop fuel es avail out = Some res ∧ Forall2 further es es' ∧
    (∀ e, e ∈ es' → candidate rest e = false ∧ res !! key e = Some (se_held e)) ∧
    (∀ k, k ∉ keys es → res !! k = out !! k) ∧ held_in es' + rest = held_in es + avail ∧ Z.min avail 0 ≤ rest.
Proof.
  revert es avail out. induction fuel as [|fuel IH]; intros es avail out Hn Hf Ho.
  { assert (Hc : ∀ e, e ∈ es → candidate avail e = false).
    { intros e _. unfold candidate. apply andb_false_iff. left. apply Z.leb_gt. unfold replica. lia. }
    exists es, avail, out. split_and!; [by apply reference_stuck| | |done|lia|lia].
    - apply Forall_Forall2_diag, Forall_forall. intros e _. apply further_refl.
    - intros e He. auto. }
  destruct (filter (λ e, candidate avail e = true) es) as [|c cs] eqn:E.
  { exists es, avail, out. cbn [reference_loop]. rewrite E. split_and!; [done| | |done|lia|lia].
    - apply Forall_Forall2_diag, Forall_forall. intros e _. apply further_refl.
    - intros e He. split; [|by apply Ho]. destruct (candidate avail e) eqn:Ec; [|done].
      assert (Hin : e ∈ filter (λ e, candidate avail e = true) es) by (by apply list_elem_of_filter).
      rewrite E in Hin. by apply elem_of_nil in Hin. }
  set (e := lowest c cs). destruct (lowest_spec c cs) as [Hin _]. fold e in Hin.
  assert (He : e ∈ filter (λ e, candidate avail e = true) es) by (rewrite E; destruct Hin as [->|?]; [left|by right]).
  apply list_elem_of_filter in He as [Hc He].
  assert (Hg : 1 ≤ replica (se_role e) ≤ avail).
  { unfold candidate in Hc. apply andb_true_iff in Hc as [?%Z.leb_le _]. unfold replica in *. lia. }
  cbn [reference_loop]. rewrite E. fold e.
  destruct (IH (grow_in e es) (avail - replica (se_role e)) (<[key e := se_held (grown e)]> out))
    as (es' & rest & res & E1 & E2 & E3 & E4 & E5 & E6).
  - by rewrite grow_in_keys.
  - lia.
  - intros x (y & -> & Hy)%list_elem_of_fmap. destruct (String.eqb_spec (key y) (key e)) as [Ek|Ek].
    + apply lookup_insert_eq.
    + rewrite lookup_insert_ne by done. by apply Ho.
  - exists es', rest, res. split_and!; [done| |done| | |lia].
    + eapply Forall2_trans; [|by apply (grow_in_further avail)|exact E2]. intros a b d. apply further_trans.
    + intros k Hk. rewrite E4 by (by rewrite grow_in_keys). rewrite lookup_insert_ne; [done|]. intros <-.
      apply Hk. apply list_elem_of_fmap. eauto.
    + rewrite (grow_in_held e es Hn He) in E5. lia.
Qed.

Lemma further_roles es es' : Forall2 further es es' → se_role <$> es' = se_role <$> es.
Proof. induction 1 as [|e e' es es' (E & _) _ IH]; [done|]. cbn [fmap list_fmap]. by rewrite E, IH. Qed.

Lemma at_floors_perm roles roles' : NoDup (sr_Key <$> roles) → roles ≡ₚ roles' → at_floors roles = at_floors roles'.
Proof.
  intros Hn Hp. apply map_eq. intros k. destruct (decide (k ∈ sr_Key <$> roles)) as [(r & -> & Hr)%list_elem_of_fmap|Hk].
  - rewrite !at_floors_role; [done|by rewrite <- Hp|by rewrite <- Hp|done|done].
  - assert (Hn' : NoDup (sr_Key <$> roles')) by (by rewrite <- Hp).
    unfold at_floors. rewrite (proj2 (insert_all_lookup sr_Key Floor roles ∅ Hn) k Hk). rewrite Hp in Hk.
    by rewrite (proj2 (insert_all_lookup sr_Key Floor roles' ∅ Hn') k Hk).
Qed.

Lemma roles_ok_perm roles roles' budget : roles ≡ₚ roles' → roles_ok roles budget → roles_ok roles' budget.
Proof. intros Hp. unfold roles_ok. rewrite <- Hp. intros (? & H & ? & ?). split_and!; try done; try lia. intros r Hr. apply H. by rewrite Hp. Qed.

(** What the roles hold together: the idle ones their floors, the others their entries. *)
Lemma held_split roles es (out : gmap string Z) :
  Forall2 further (wanting roles) es → (∀ e, e ∈ es → out !! key e = Some (se_held e)) →
  (∀ r, r ∈ roles → flt f0 (Need r) = false → out !! sr_Key r = Some (Floor r)) →
  sumZ (λ r, default 0 (out !! sr_Key r)) roles = sumZ Floor roles + (held_in es - held_in (wanting roles)).
Proof.
  intros Hf He Hi. set (given r := default 0 (out !! sr_Key r)). set (want r := flt f0 (Need r) = true).
  assert (H1 : held_in es = sumZ given (filter want roles)).
  { transitivity (sumZ given (se_role <$> es)).
    - rewrite sumZ_fmap. apply sumZ_ext. intros e Hin. specialize (He e Hin). unfold given, key in *. by rewrite He.
    - rewrite (further_roles _ _ Hf). unfold wanting. by rewrite <- list_fmap_compose, list_fmap_id. }
  assert (H2 : held_in (wanting roles) = sumZ Floor (filter want roles)).
  { unfold held_in, wanting. by rewrite sumZ_fmap. }
  rewrite H1, H2, !sumZ_list_filter, <- sumZ_minus, <- sumZ_plus. apply sumZ_ext. intros r Hr.
  unfold want. case_decide as Hd; [lia|]. unfold given. rewrite (Hi r Hr); [simpl; lia|]. by destruct (flt f0 (Need r)).
Qed.

Lemma wanting_entry roles es r :
  Forall2 further (wanting roles) es → r ∈ roles → flt f0 (Need r) = true →
  ∃ e, e ∈ es ∧ further (MkEntry r (Floor r)) e.
Proof.
  intros Hf Hr Hw. assert (Hin : MkEntry r (Floor r) ∈ wanting roles).
  { apply list_elem_of_fmap. exists r. split; [done|]. by apply list_elem_of_filter. }
  apply list_elem_of_lookup in Hin as [i Hi]. destruct (Forall2_lookup_l _ _ _ _ _ Hf Hi) as (e & He & Hfu).
  exists e. split; [by eapply list_elem_of_lookup_2|done].
Qed.

(** The queue, started from the roles in any order, gives what the reference gives. *)
Lemma targets_reference roles roles' budget :
  roles_ok roles budget → roles ≡ₚ roles' →
  ∃ out, IntegerShareTargets roles budget = Some out ∧ reference_targets roles' budget = Some out.
Proof.
  intros Hok Hp. pose proof Hok as (Hn & Hr & Hb & Hs). unfold IntegerShareTargets, reference_targets.
  rewrite (floors_spec roles budget) by (done || (intros; by apply Hr)).
  assert (Hsum : sumZ Floor roles' = sumZ Floor roles) by (by rewrite Hp).
  rewrite <- (at_floors_perm roles roles' Hn Hp), Hsum. cbv zeta. set (avail := budget - sumZ Floor roles).
  destruct (pushed_spec (at_floors roles) roles []) as [Hh Hhp]; [intros; by apply at_floors_role|apply nil_heap|].
  simpl in Hhp. set (h := foldl _ [] roles) in *.
  assert (Hw : wanting roles' ≡ₚ wanting roles) by (unfold wanting; by rewrite Hp).
  destruct (give_reference (length h + Z.to_nat avail) h avail (at_floors roles) (wanting roles') []) as (res & E1 & E2).
  - done.
  - by rewrite app_nil_r, Hhp.
  - unfold keys. rewrite Hw. by apply wanting_keys.
  - intros e He. by apply elem_of_nil in He.
  - intros e He. rewrite Hw in He. by apply wanting_in_range.
  - pose proof (sumZ_nonneg Floor roles ltac:(intros; by apply Hr)). unfold avail, limit in *. lia.
  - lia.
  - exists res. split; [done|]. by apply E2.
Qed.

(** ** Properties *)

(** C11: the whole-replica targets are the greedy ones: with distinct keys and counts
    in range the loop over the priority queue ends, and gives exactly what the
    definition without a queue gives, in which every replica goes, while some role
    can still take one, to the candidate with the lowest score, ties to the higher
    weight and then to the key; the order the roles are listed in does not matter. *)
Theorem integer_targets_greedy roles budget :
  roles_ok roles budget →
  ∃ out, reference_targets roles budget = Some out ∧
    ∀ roles', roles' ≡ₚ roles → IntegerShareTargets roles' budget = Some out.
Proof.
  intros Hok. destruct (targets_reference roles roles budget Hok ltac:(done)) as (out & _ & E). exists out. split; [done|].
  intros roles' Hp. destruct (targets_reference roles' roles budget) as (out' & E1 & E2);
    [by apply (roles_ok_perm roles)|done|]. congruence.
Qed.

(** C18: the whole-replica targets share the budget: all of them together are within
    it unless the floors alone are not; each role has its floor and whole replicas
    on top, past its ceiling only if its floor is; a role with no need stays at its
    floor; and nothing that could still be given is left over. *)
Theorem integer_targets_sound roles budget :
  roles_ok roles budget →
  ∃ out, IntegerShareTargets roles budget = Some out ∧
    let given r := default 0 (out !! sr_Key r) in
    let rest := budget - sumZ given roles in
    sumZ given roles ≤ Z.max budget (sumZ Floor roles) ∧
    ∀ r, r ∈ roles →
      Floor r ≤ given r ∧ (replica r | given r - Floor r) ∧
      (given r = Floor r ∨ Ceiling r ≤ 0 ∨ given r ≤ Ceiling r) ∧
      (flt f0 (Need r) = false → given r = Floor r) ∧
      (flt f0 (Need r) = true → rest < replica r ∨ 0 < Ceiling r < given r + replica r).
Proof.
  intros Hok. pose proof Hok as (Hn & Hr & Hb & Hs).
  destruct (targets_reference roles roles budget Hok ltac:(done)) as (out & E & Eref). exists out. split; [done|]. clear E.
  intros given rest. unfold reference_targets in Eref.
  destruct (reference_result (Z.to_nat (budget - sumZ Floor roles)) (wanting roles) (budget - sumZ Floor roles) (at_floors roles))
    as (es & left_ & res & E1 & E2 & E3 & E4 & E5 & E6).
  { by apply wanting_keys. }
  { done. }
  { intros e (r & -> & [_ Hx]%list_elem_of_filter)%list_elem_of_fmap. by apply at_floors_role. }
  rewrite E1 in Eref. injection Eref as ->.
  assert (Hidle : ∀ r, r ∈ roles → flt f0 (Need r) = false → out !! sr_Key r = Some (Floor r)).
  { intros r Hin Hi. rewrite E4; [by apply at_floors_role|]. intros (e & Ek & He)%list_elem_of_fmap.
    apply list_elem_of_fmap in He as (r' & -> & [Hw Hr']%list_elem_of_filter). unfold key in Ek. simpl in Ek.
    rewrite (fmap_inj_NoDup sr_Key roles r r') in Hi; congruence. }
  assert (Hsum : sumZ given roles = sumZ Floor roles + (held_in es - held_in (wanting roles)))
    by (apply held_split; [done|intros e He; by apply E3|done]).
  split; [lia|]. intros r Hin. destruct (flt f0 (Need r)) eqn:Hw.
  - destruct (wanting_entry roles es r E2 Hin Hw) as (e & He & Hrole & Hle & Hdiv & Hceil). simpl in *.
    destruct (E3 e He) as [Hc Hg]. assert (Eg : given r = se_held e) by (unfold given, key in *; rewrite Hrole in Hg; by rewrite Hg).
    rewrite Eg. split_and!; [done|done|done|done|]. intros _. unfold candidate in Hc. rewrite Hrole in Hc.
    apply andb_false_iff in Hc as [?%Z.leb_gt|[?%Z.leb_gt ?%Z.leb_gt]%orb_false_iff]; [left; unfold rest; lia|right; lia].
  - assert (Eg : given r = Floor r) by (unfold given; by rewrite Hidle).
    rewrite Eg, Z.sub_diag. split_and!; [lia|apply Z.divide_0_r|by left|done|done].
Qed.

Definition demo_role (k : string) (w n f c g : Z) : ShareRole := MkShareRole k (of_int w) (of_int n) f f c g [] false.
Definition demo_roles : list ShareRole :=
  [demo_role "a" 1 5 1 0 1; demo_role "b" 1 7 0 0 2; demo_role "c" 2 1 1 4 1; demo_role "d" 1 0 3 0 1].

Lemma demo_roles_ok : roles_ok demo_roles 20.
Proof. split_and!; try done; [by apply (bool_decide_unpack _); vm_compute|]. intros r Hr. repeat (apply elem_of_cons in Hr as [->|Hr]; [done|]). by apply elem_of_nil in Hr. Qed.

Lemma integer_targets_greedy_witness :
  ∃ out, reference_targets demo_roles 20 = Some out ∧ IntegerShareTargets demo_roles 20 = Some out ∧ out !! "b" = Some 8.
Proof.
  destruct (integer_targets_greedy demo_roles 20) as (out & E1 & E2); [apply demo_roles_ok|].
  exists out. split; [exact E1|]. split; [by apply E2|].
  vm_compute in E1. injection E1 as <-. vm_compute. reflexivity.
Defined.

Lemma integer_targets_sound_witness :
  ∃ out, IntegerShareTargets demo_roles 20 = Some out ∧ sumZ (λ r, default 0 (out !! sr_Key r)) demo_roles ≤ 20.
Proof.
  destruct (integer_targets_sound demo_roles 20) as (out & E1 & E2 & _); [apply demo_roles_ok|].
  exists out. split; [exact E1|]. exact E2.
Defined.
