(* ===== verification/ShareContinuous.v ===== *)
(** * ShareContinuous: the continuous targets stay within the bounds

    The water-filling of [ContinuousShareTargets]: every pass that does not finish
    pins a role, so it ends within as many passes as there are roles, and every
    role's target is a number between its floor and its ceiling, rounding included. *)
From Stdlib Require Import ZArith Lia String SpecFloat Reals Lra.
From stdpp Require Import base gmap strings list.
From S2P Require Import Prelude GoFloat FloatBounds Heap ShareTarget ShareInteger.
Open Scope Z_scope.

(** ** Assumptions on the roles

    Floors and ceilings up to the largest budget, with the floor below the ceiling;
    needs and weights in a range no product of which underflows. *)
Definition bounds_ok (r : ShareRole) : Prop :=
  0 ≤ Floor r ≤ MaxShareBudgetGPUs ∧ Ceiling r ≤ MaxShareBudgetGPUs ∧ (0 < Ceiling r → Floor r ≤ Ceiling r).

Definition factor_ok (x : float64) : Prop :=
  is_finite x = true ∧ (bpow (-500) <= F2R x <= bpow 20)%R.

Definition role_ok (r : ShareRole) : Prop :=
  bounds_ok r ∧ (flt f0 (Need r) = true → factor_ok (Need r) ∧ factor_ok (sr_Weight r)) ∧ number (Need r).

(** What a target must be: a number within the bounds. *)
Definition within (r : ShareRole) (x : float64) : Prop :=
  number x ∧ flt x (of_int (Floor r)) = false ∧ flt (ceiling r) x = false.

Lemma factor_pos x : factor_ok x → flt f0 x = true.
Proof.
  intros [Hf [H _]]. pose proof (bpow_pos (-500)). apply flt_spec; [done|by destruct x|].
  right. split; [by destruct x as [?|[]| |]|]. simpl. lra.
Qed.

Lemma ceiling_wide r : wide (ceiling r).
Proof. unfold ceiling. case_match; [done|apply of_int_wide]. Qed.

Lemma ceiling_number r : bounds_ok r → number (ceiling r).
Proof.
  intros (_ & Hc & _). unfold ceiling, MaxShareBudgetGPUs in *. destruct (Ceiling r <=? 0) eqn:E; [done|]. apply Z.leb_gt in E.
  destruct (of_int_exact (Ceiling r)) as [[H _] _]; [lia|]. by destruct (of_int _).
Qed.

Lemma floor_number r : bounds_ok r → number (of_int (Floor r)).
Proof.
  intros (Hf & _). unfold MaxShareBudgetGPUs in *. destruct (of_int_exact (Floor r)) as [[H _] _]; [lia|]. by destruct (of_int _).
Qed.

Lemma floor_below_ceiling r : bounds_ok r → flt (ceiling r) (of_int (Floor r)) = false.
Proof.
  intros (Hf & Hc & Hle). unfold ceiling, MaxShareBudgetGPUs in *. destruct (Ceiling r <=? 0) eqn:E.
  - destruct (of_int_exact (Floor r)) as [[H _] _]; [lia|]. by destruct (of_int _).
  - apply Z.leb_gt in E. rewrite of_int_lt by lia. apply Z.ltb_ge. lia.
Qed.

Lemma flt_irrefl x : flt x x = false.
Proof. destruct (flt x x) eqn:E; [|done]. assert (number x) by (by intros ->). by rewrite (flt_asym x x) in E. Qed.

Lemma within_floor r : bounds_ok r → within r (of_int (Floor r)).
Proof. intros H. split_and!; [by apply floor_number|apply flt_irrefl|by apply floor_below_ceiling]. Qed.

Lemma within_ceiling r : bounds_ok r → within r (ceiling r).
Proof. intros H. split_and!; [by apply ceiling_number|by apply floor_below_ceiling|apply flt_irrefl]. Qed.

(** [math.Max(0, g)] of a target at or above a floor of at least zero. *)
Lemma within_max r g : bounds_ok r → within r g → within r (math_Max f0 g).
Proof.
  intros Hb (Hn & Hf & Hc). assert (Hpos : flt g f0 = false).
  { apply (flt_false_trans f0 (of_int (Floor r)) g); [done|by apply floor_number|done| |done].
    change f0 with (of_int 0). destruct Hb as (? & _). unfold MaxShareBudgetGPUs in *. rewrite of_int_lt by lia. apply Z.ltb_ge. lia. }
  by destruct g as [s|[]| |[] m e].
Qed.

(** ** One pass *)
Section pass.
Context (target : ShareRole → float64).

Definition beyond (r : ShareRole) : bool := flt (ceiling r) (target r).
Definition short (r : ShareRole) : bool := flt (target r) (of_int (Floor r)).

Definition over_step (p : float64 * float64) (r : ShareRole) : float64 * float64 :=
  if beyond r then (fadd p.1 (fsub (target r) (ceiling r)), p.2)
  else if short r then (p.1, fadd p.2 (fsub (of_int (Floor r)) (target r))) else p.

Lemma pass_over_fold active : pass_over target active = foldl over_step (f0, f0) active.
Proof.
  unfold pass_over. generalize (f0, f0). induction active as [|r active IH]; intros [a b]; [done|]. cbn [foldl].
  rewrite <- IH. f_equal.
Qed.

(** The overshoot is positive exactly when a ceiling is passed, and likewise below. *)
Lemma pass_over_spec active :
  (∀ r, r ∈ active → wide (target r)) →
  let '(over, under) := pass_over target active in
  nonnegf over ∧ nonnegf under ∧
  ((∃ r, r ∈ active ∧ beyond r = true) → posf over) ∧ ((∀ r, r ∈ active → beyond r = false) → over = f0) ∧
  ((∃ r, r ∈ active ∧ beyond r = false ∧ short r = true) → posf under) ∧
  ((∀ r, r ∈ active → short r = false) → under = f0).
Proof.
  rewrite pass_over_fold. induction active as [|r active IH] using rev_ind; intros Hw.
  { simpl. split_and!; try (right; eauto); try (intros (r & Hr & _); by apply elem_of_nil in Hr); done. }
  rewrite foldl_app. cbn [foldl]. specialize (IH ltac:(intros x Hx; apply Hw; set_solver)).
  destruct (foldl over_step (f0, f0) active) as [over under]. destruct IH as (N1 & N2 & P1 & Z1 & P2 & Z2).
  assert (Hwr : wide (target r)) by (apply Hw; set_solver). unfold over_step.
  assert (Hsplit : ∀ P : ShareRole → Prop, (∃ x, x ∈ active ++ [r] ∧ P x) → (∃ x, x ∈ active ∧ P x) ∨ P r).
  { intros P (x & [Hx| ->%list_elem_of_singleton]%elem_of_app & HP); eauto. }
  assert (Hin : r ∈ active ++ [r]) by set_solver.
  destruct (beyond r) eqn:Eb; [|destruct (short r) eqn:Es]; cbn [fst snd].
  - assert (Hd : posf (fsub (target r) (ceiling r))) by (apply fsub_posf; [done|apply ceiling_wide|done]).
    destruct (fadd_nonnegf over _ N1 (or_introl Hd)) as [A1 A2]. split_and!; try done; [intros _; auto| | |].
    + intros H. by rewrite H in Eb.
    + intros [?|[? _]]%Hsplit; [auto|congruence].
    + intros H. apply Z2. intros x Hx. apply H. set_solver.
  - assert (Hd : posf (fsub (of_int (Floor r)) (target r))) by (apply fsub_posf; [apply of_int_wide|done|done]).
    destruct (fadd_nonnegf under _ N2 (or_introl Hd)) as [A1 A2]. split_and!; try done; [| |intros _; auto|].
    + intros [?|?]%Hsplit; [auto|congruence].
    + intros H. apply Z1. intros x Hx. apply H. set_solver.
    + intros H. by rewrite H in Es.
  - split_and!; try done.
    + intros [?|?]%Hsplit; [auto|congruence].
    + intros H. apply Z1. intros x Hx. apply H. set_solver.
    + intros [?|[_ ?]]%Hsplit; [auto|congruence].
    + intros H. apply Z2. intros x Hx. apply H. set_solver.
Qed.
End pass.

(** ** The targets of a pass are numbers *)
Definition wants (r : ShareRole) : Prop := role_ok r ∧ flt f0 (Need r) = true.

Lemma factor_small x : factor_ok x → small 20 x.
Proof. intros [Hf [H1 H2]]. pose proof (bpow_pos (-500)). split; [done|]. rewrite Rabs_pos_eq; lra. Qed.

Lemma pass_sums_spec active :
  (∀ r, r ∈ active → wants r) → Z.of_nat (length active) ≤ 900 →
  let '(sumN, sumWN, sumNoverW) := pass_sums active in
  small (20 + Z.of_nat (length active)) sumN ∧ nonnegf sumWN ∧ (active ≠ [] → posf sumWN) ∧ nonnegf sumNoverW.
Proof.
  unfold pass_sums. induction active as [|r active IH] using rev_ind; intros Hw Hl.
  { simpl. split_and!; [apply small_zero|right; eauto|done|right; eauto]. }
  rewrite foldl_app. cbn [foldl]. rewrite length_app in *. cbn [length] in *.
  specialize (IH ltac:(intros x Hx; apply Hw; set_solver) ltac:(lia)). destruct (foldl _ _ active) as [[sumN sumWN] sumNoverW].
  destruct IH as (S1 & N1 & _ & N2). destruct (Hw r ltac:(set_solver)) as [(_ & Hf & _) Hpos].
  destruct (Hf Hpos) as [HN HW]. pose proof (factor_pos _ HW) as Wpos. destruct HN as [FN [LN UN]] eqn:EN. destruct HW as [FW [LW UW]] eqn:EW.
  assert (Hprod : posf (fmul (sr_Weight r) (Need r))).
  { apply fmul_posf; try done. pose proof (bpow_pos (-500)). pose proof (bpow_le (-1074) (-1000) ltac:(lia)).
    assert (bpow (-1000) = bpow (-500) * bpow (-500))%R by (rewrite <- bpow_add; f_equal; lia). nra. }
  destruct (fadd_nonnegf sumWN _ N1 (or_introl Hprod)) as [A1 A2].
  destruct (fadd_nonnegf sumNoverW _ N2 (fdiv_nonnegf _ _ FN FW Hpos Wpos)) as [B1 _].
  split_and!; [|done|by auto|done].
  replace (20 + Z.of_nat (length active + 1)) with (20 + Z.of_nat (length active) + 1) by lia.
  apply small_add; [lia|done|]. apply (small_weaken 20); [lia|]. by apply factor_small.
Qed.

Lemma pass_target_number active pool k r :
  (∀ r, r ∈ active → wants r) → r ∈ active → small k pool → 20 ≤ k → k + Z.of_nat (length active) ≤ 900 →
  number (pass_target active pool r).
Proof.
  intros Hw Hr Hp Hk Hl. pose proof (pass_sums_spec active Hw ltac:(lia)) as Hs. unfold pass_target.
  destruct (pass_sums active) as [[sumN sumWN] sumNoverW]. destruct Hs as (S1 & _ & P1 & N2).
  specialize (P1 ltac:(intros ->; by apply elem_of_nil in Hr)).
  destruct (Hw r Hr) as [(_ & Hf & _) Hpos]. destruct (Hf Hpos) as [[FN _] HW]. pose proof (factor_pos _ HW) as Wpos. destruct HW as [FW _].
  assert (Hspare : small (k + Z.of_nat (length active) + 1) (fsub pool sumN))
    by (apply small_sub; [lia|by apply (small_weaken k); [lia|]|by eapply small_weaken; [|exact S1]; lia]).
  pose proof (small_number _ _ Hspare) as Nspare. destruct Hspare as [Fspare _]. set (spare := fsub pool sumN) in *.
  pose proof (posf_lt _ P1) as P1'. pose proof (nonnegf_number sumWN (or_introl P1)). pose proof (nonnegf_number _ N2).
  destruct (fle f0 spare) eqn:E.
  - apply fmul_number_l; [done|done|]. apply fadd_number; [done|]. apply fmul_number_r; [|done|done].
    apply fdiv_number; [done|done|by left|by right; right].
  - rewrite fle_flt, negb_false_iff in E by done.
    apply fmul_number_l; [done|done|]. apply fadd_number; [done|].
    apply fdiv_number; [|by destruct (sr_Weight r)|by right|by right; right].
    apply fdiv_number; [done|done|by left|by right; left].
Qed.

Lemma pass_target_wide active pool r : wide (pass_target active pool r).
Proof. unfold pass_target. destruct (pass_sums active) as [[? ?] ?]. destruct (fle _ _); apply fmul_wide. Qed.

(** ** Pinning *)
Definition pins (target : ShareRole → float64) (pc pf : bool) (r : ShareRole) : bool :=
  pf && short target r || pc && beyond target r.

Lemma pin_step_pins target pc pf s r :
  pin_step target pc pf s r =
    if pins target pc pf r then
      let b := if pf && short target r then of_int (Floor r) else ceiling r in
      MkPin (<[sr_Key r := b]> (ps_out s)) (fsub (ps_pool s) b) (ps_keep s) true
    else MkPin (ps_out s) (ps_pool s) (ps_keep s ++ [r]) (ps_pinned s).
Proof. unfold pin_step, pins, short, beyond. by destruct (pf && _), (pc && _). Qed.

(** What pinning a pass's roles leaves. *)
Record pinned_all (target : ShareRole → float64) (pc pf : bool) (active : list ShareRole) (s0 s : pin_state) : Prop := {
  pa_keep : ps_keep s = ps_keep s0 ++ filter (λ r, pins target pc pf r = false) active;
  pa_pinned : ps_pinned s = false → ps_pinned s0 = false ∧ ∀ r, r ∈ active → pins target pc pf r = false;
  pa_fewer : ps_pinned s = true → ps_pinned s0 = true ∨ (length (ps_keep s) < length (ps_keep s0) + length active)%nat;
  pa_out r : r ∈ active → pins target pc pf r = true → ∃ x, ps_out s !! sr_Key r = Some x ∧ within r x;
  pa_other k : k ∉ sr_Key <$> filter (λ r, pins target pc pf r = true) active → ps_out s !! k = ps_out s0 !! k;
  pa_pool k : small k (ps_pool s0) → 20 ≤ k → k + Z.of_nat (length active) ≤ 900 →
    small (k + Z.of_nat (length (ps_keep s0) + length active - length (ps_keep s))) (ps_pool s) }.

Lemma pin_bound_small target pc pf r :
  role_ok r → pins target pc pf r = true → pf && short target r = false → small 20 (ceiling r).
Proof.
  intros (Hb & _) Hp Hs. unfold pins in Hp. rewrite Hs in Hp. simpl in Hp. apply andb_true_iff in Hp as [_ Hbey].
  unfold beyond, ceiling in *. destruct Hb as (_ & Hc & _). destruct (Ceiling r <=? 0) eqn:E.
  - by destruct (target r) as [?|[]| |].
  - apply Z.leb_gt in E. apply small_of_int; unfold MaxShareBudgetGPUs in *; lia.
Qed.

Lemma pin_all target pc pf active s0 :
  NoDup (sr_Key <$> active) → (∀ r, r ∈ active → role_ok r) →
  pinned_all target pc pf active s0 (foldl (pin_step target pc pf) s0 active).
Proof.
  induction active as [|r active IH] using rev_ind; intros Hn Hok.
  { split; cbn [foldl length].
    - by rewrite app_nil_r.
    - intros ?. split; [done|]. intros r Hr. by apply elem_of_nil in Hr.
    - by left.
    - intros r Hr. by apply elem_of_nil in Hr.
    - done.
    - intros k Hs _ _. by replace (k + _) with k by lia. }
  rewrite fmap_app in Hn. apply NoDup_app in Hn as (Hn & Hd & _).
  destruct (IH Hn ltac:(intros x Hx; apply Hok; set_solver)) as [K P F O X L]. rewrite foldl_app. cbn [foldl].
  set (s := foldl (pin_step target pc pf) s0 active) in *. rewrite pin_step_pins.
  assert (Hlen : (length (ps_keep s0) <= length (ps_keep s) <= length (ps_keep s0) + length active)%nat)
    by (rewrite K, length_app; pose proof (length_filter (λ r, pins target pc pf r = false) active); lia).
  clearbody s. assert (Hr : role_ok r) by (apply Hok; set_solver).
  assert (Hfresh : ∀ x, x ∈ active → sr_Key x ≠ sr_Key r).
  { intros x Hx E. apply (Hd (sr_Key x)); [apply list_elem_of_fmap; eauto|]. apply list_elem_of_singleton. by rewrite E. }
  destruct (pins target pc pf r) eqn:Ep.
  - set (b := if pf && short target r then of_int (Floor r) else ceiling r).
    assert (Hb : within r b) by (unfold b; destruct (pf && short target r); [apply within_floor|apply within_ceiling]; apply Hr).
    assert (Hsm : small 20 b).
    { unfold b. destruct (pf && short target r) eqn:Es; [|by eapply pin_bound_small].
      destruct Hr as [(? & _) _]. apply small_of_int; unfold MaxShareBudgetGPUs in *; lia. }
    split; cbn [ps_keep ps_pinned ps_out ps_pool]; rewrite ?length_app; cbn [length].
    + rewrite filter_app, filter_cons_False by congruence. by rewrite app_nil_r.
    + done.
    + intros _. right. lia.
    + intros x [Hx| ->%list_elem_of_singleton]%elem_of_app Hpx; [|exists b; split; [apply lookup_insert_eq|done]].
      rewrite lookup_insert_ne by (intros E; by apply (Hfresh x Hx)). by apply O.
    + intros k Hk. rewrite filter_app, fmap_app, filter_cons_True in Hk by done.
      rewrite lookup_insert_ne; [apply X|]; set_solver.
    + intros k Hs Hk Hl. replace (k + _) with (k + Z.of_nat (length (ps_keep s0) + length active - length (ps_keep s)) + 1) by lia.
      apply small_sub; [lia|apply L; [done|lia|lia]|]. by apply (small_weaken 20); [lia|].
  - split; cbn [ps_keep ps_pinned ps_out ps_pool]; rewrite ?length_app; cbn [length].
    + rewrite K, filter_app, filter_cons_True by done. by rewrite app_assoc.
    + intros [? Hall]%P. split; [done|]. intros x [Hx| ->%list_elem_of_singleton]%elem_of_app; [by apply Hall|done].
    + intros [?|?]%F; [by left|right; lia].
    + intros x [Hx| ->%list_elem_of_singleton]%elem_of_app Hpx; [by apply O|congruence].
    + intros k Hk. rewrite filter_app, fmap_app, filter_cons_False in Hk by congruence. apply X. set_solver.
    + intros k Hs Hk Hl. replace (k + _) with (k + Z.of_nat (length (ps_keep s0) + length active - length (ps_keep s))) by lia.
      apply L; [done|lia|lia].
Qed.

(** ** The passes *)

(** A pass that pins nothing has found every target within its bounds. *)
Lemma unpinned_within target active :
  (∀ r, r ∈ active → wide (target r)) →
  let '(over, under) := pass_over target active in
  (∀ r, r ∈ active → pins target (fle under over) (fle over under) r = false) →
  ∀ r, r ∈ active → beyond target r = false ∧ short target r = false.
Proof.
  intros Hw. pose proof (pass_over_spec target active Hw) as H. destruct (pass_over target active) as [over under].
  destruct H as (N1 & N2 & P1 & Z1 & P2 & Z2). intros Hp. unfold pins in Hp.
  pose proof (nonnegf_number _ N1). pose proof (nonnegf_number _ N2). rewrite !fle_flt in Hp by done.
  destruct (flt over under) eqn:E.
  - exfalso. rewrite (flt_asym over under) in Hp by done.
    rewrite (Z2 ltac:(intros r Hr; specialize (Hp r Hr); by destruct (short target r))) in E.
    by rewrite (nonnegf_not_neg _ N1) in E.
  - assert (Hb : ∀ r, r ∈ active → beyond target r = false).
    { intros r Hr. specialize (Hp r Hr). destruct (beyond target r); [|done]. by rewrite orb_true_r in Hp. }
    rewrite (Z1 Hb) in E. intros r Hr. split; [by apply Hb|]. destruct (short target r) eqn:Es; [|done].
    assert (Hpos : posf under) by (apply P2; exists r; auto). by rewrite (posf_lt _ Hpos) in E.
Qed.

Lemma fill_loop_within fuel active pool out k :
  NoDup (sr_Key <$> active) → (∀ r, r ∈ active → wants r) → (length active <= fuel)%nat →
  small k pool → 20 ≤ k → k + Z.of_nat (length active) ≤ 900 →
  ∃ res, fill_loop fuel active pool out = Some res ∧
    (∀ r, r ∈ active → ∃ x, res !! sr_Key r = Some x ∧ within r x) ∧
    (∀ key, key ∉ sr_Key <$> active → res !! key = out !! key).
Proof.
  revert active pool out k. induction fuel as [|fuel IH]; intros active pool out k Hn Hw Hf Hs Hk Hl.
  { destruct active; [|simpl in Hf; lia]. exists out. split; [done|]. split; [|done]. intros r Hr. by apply elem_of_nil in Hr. }
  destruct active as [|a0 as0]; [exists out; split; [done|]; split; [|done]; intros r Hr; by apply elem_of_nil in Hr|].
  cbn [fill_loop]. set (active := a0 :: as0) in *. set (target := pass_target active pool).
  pose proof (unpinned_within target active ltac:(intros; apply pass_target_wide)) as Hu.
  destruct (pass_over target active) as [over under]. set (pc := fle under over) in *. set (pf := fle over under) in *.
  destruct (pin_all target pc pf active (MkPin out pool [] false) Hn) as [K P F O X L]; [intros r Hr; by apply Hw|].
  set (s := foldl (pin_step target pc pf) (MkPin out pool [] false) active) in *. cbn [ps_keep ps_pinned ps_out ps_pool app length] in *.
  assert (Hin : ∀ r, r ∈ ps_keep s → r ∈ active) by (rewrite K; intros r [_ ?]%list_elem_of_filter; done).
  destruct (ps_pinned s) eqn:Ep.
  - destruct (F eq_refl) as [?|Hlt]; [done|].
    destruct (IH (ps_keep s) (ps_pool s) (ps_out s) (k + Z.of_nat (length active - length (ps_keep s)))) as (res & E1 & E2 & E3).
    + rewrite K. by apply NoDup_filter_keys.
    + intros r Hr. by apply Hw, Hin.
    + lia.
    + by apply L.
    + lia.
    + lia.
    + exists res. split; [done|]. split.
      * intros r Hr. destruct (pins target pc pf r) eqn:Er.
        { destruct (O r Hr Er) as (x & Hx & Hwx). exists x. rewrite E3; [done|]. rewrite K.
          intros (y & Ey & [Hy1 Hy2]%list_elem_of_filter)%list_elem_of_fmap.
          rewrite (fmap_inj_NoDup sr_Key active r y) in Er by done. congruence. }
        apply E2. rewrite K. by apply list_elem_of_filter.
      * intros key Hkey. rewrite E3, X; [done| |].
        { intros (y & -> & [_ Hy]%list_elem_of_filter)%list_elem_of_fmap. apply Hkey, list_elem_of_fmap. eauto. }
        intros (y & -> & Hy%Hin)%list_elem_of_fmap. apply Hkey, list_elem_of_fmap. eauto.
  - destruct (P eq_refl) as [_ Hall]. specialize (Hu Hall).
    assert (Ekeep : ps_keep s = active) by (rewrite K; by apply filter_keeps_all).
    rewrite Ekeep. destruct (insert_all_lookup sr_Key (λ r, math_Max f0 (target r)) active (ps_out s) Hn) as [I1 I2].
    eexists. split; [done|]. split.
    + intros r Hr. eexists. split; [by apply I1|]. apply within_max; [by apply Hw|]. destruct (Hu r Hr).
      split; [|done]. by apply (pass_target_number active pool k).
    + intros key Hkey. rewrite I2 by done. apply X. intros (y & -> & [_ Hy]%list_elem_of_filter)%list_elem_of_fmap.
      apply Hkey, list_elem_of_fmap. eauto.
Qed.

(** The roles with no need are set aside at their floors. *)
Lemma idle_spec roles budget :
  NoDup (sr_Key <$> roles) → (∀ r, r ∈ roles → role_ok r) → small 20 budget → Z.of_nat (length roles) ≤ 800 →
  let '(out, pool, active) := foldl idle_step (∅, budget, []) roles in
  active = filter (λ r, flt f0 (Need r) = true) roles ∧
  (∀ r, r ∈ roles → flt f0 (Need r) = false → out !! sr_Key r = Some (of_int (Floor r))) ∧
  small (20 + Z.of_nat (length roles)) pool.
Proof.
  induction roles as [|r roles IH] using rev_ind; intros Hn Hok Hb Hl.
  { simpl. split_and!; [done| |by apply (small_weaken 20)]. intros r Hr. by apply elem_of_nil in Hr. }
  rewrite fmap_app in Hn. apply NoDup_app in Hn as (Hn & Hd & _). rewrite length_app in *. cbn [length] in *.
  specialize (IH Hn ltac:(intros x Hx; apply Hok; set_solver) Hb ltac:(lia)).
  rewrite foldl_app. cbn [foldl]. destruct (foldl idle_step _ roles) as [[out pool] active]. destruct IH as (E & O & S).
  destruct (Hok r ltac:(set_solver)) as ((Hfl & _) & _ & HN). unfold idle_step. rewrite fle_flt by done.
  replace (20 + Z.of_nat (length roles + 1)) with (20 + Z.of_nat (length roles) + 1) by lia.
  assert (Hfresh : ∀ x, x ∈ roles → sr_Key r ≠ sr_Key x).
  { intros x Hx Ek. apply (Hd (sr_Key x)); [apply list_elem_of_fmap; eauto|]. apply list_elem_of_singleton. by rewrite Ek. }
  destruct (flt f0 (Need r)) eqn:Ew; simpl negb; rewrite filter_app.
  - rewrite filter_cons_True by done. split_and!; [by rewrite E| |by eapply small_weaken; [|exact S]; lia].
    intros x [Hx| ->%list_elem_of_singleton]%elem_of_app Hi; [by apply O|congruence].
  - rewrite filter_cons_False by congruence. split_and!; [by rewrite E, app_nil_r| |].
    + intros x [Hx| ->%list_elem_of_singleton]%elem_of_app Hi; [|apply lookup_insert_eq].
      rewrite lookup_insert_ne by (by apply Hfresh). by apply O.
    + apply small_sub; [lia|done|]. apply (small_weaken 20); [lia|]. apply small_of_int; unfold MaxShareBudgetGPUs in *; lia.
Qed.

(** ** Properties *)

(** C23: the water-filling of the continuous targets ends within as many passes as
    there are roles with a need, and gives every role a target that is a number and
    lies between its floor and its ceiling, rounding included, whether the budget
    covers the claims or not; a role with no need gets exactly its floor. *)
Theorem continuous_targets_within roles budget :
  NoDup (sr_Key <$> roles) → (∀ r, r ∈ roles → role_ok r) → (length roles <= 400)%nat → 0 ≤ budget ≤ MaxShareBudgetGPUs →
  ∃ out, ContinuousShareTargets roles (of_int budget) = Some out ∧
    ∀ r, r ∈ roles → ∃ x, out !! sr_Key r = Some x ∧ within r x ∧
      (flt f0 (Need r) = false → x = of_int (Floor r)).
Proof.
  intros Hn Hok Hl Hb. unfold ContinuousShareTargets, MaxShareBudgetGPUs in *.
  pose proof (idle_spec roles (of_int budget) Hn Hok ltac:(apply small_of_int; lia) ltac:(lia)) as Hi.
  destruct (foldl idle_step _ roles) as [[out pool] active]. destruct Hi as (-> & O & S).
  set (active := filter (λ r, flt f0 (Need r) = true) roles).
  assert (Hlen : (length active <= length roles)%nat) by apply length_filter.
  destruct (fill_loop_within (length active) active pool out (20 + Z.of_nat (length roles))) as (res & E & R1 & R2).
  - by apply NoDup_filter_keys.
  - intros r [? Hr]%list_elem_of_filter. split; [by apply Hok|done].
  - done.
  - done.
  - lia.
  - lia.
  - exists res. split; [done|]. intros r Hr. destruct (flt f0 (Need r)) eqn:Ew.
    + destruct (R1 r) as (x & Hx & Hwx); [by apply list_elem_of_filter|]. exists x. split_and!; [done|done|done].
    + exists (of_int (Floor r)). split_and!; [|by apply within_floor, Hok|done]. rewrite R2; [by apply O|].
      intros (y & Ey & [Hy1 Hy2]%list_elem_of_filter)%list_elem_of_fmap.
      rewrite (fmap_inj_NoDup sr_Key roles r y) in Ew by done. congruence.
Qed.

Lemma demo_role_ok k w n f c g : 1 ≤ w ≤ 1024 → 0 ≤ n ≤ 1024 → 0 ≤ f ≤ 1024 → c ≤ 1024 → (0 < c → f ≤ c) → role_ok (demo_role k w n f c g).
Proof.
  intros Hw Hn Hf Hc Hfc.
  assert (Hfac : ∀ m, 1 ≤ m ≤ 1024 → factor_ok (of_int m)).
  { intros m Hm. destruct (of_int_exact m) as [[Hfin _] Hv]; [lia|]. split; [done|]. rewrite Hv.
    pose proof (bpow_le (-500) 0 ltac:(lia)) as H0. change (bpow 0) with 1%R in H0. split.
    - etrans; [exact H0|]. apply IZR_le. lia.
    - rewrite bpow_IZR by lia. apply IZR_le. lia. }
  split; [|split]; simpl.
  - unfold bounds_ok, MaxShareBudgetGPUs. simpl. lia.
  - intros Hp. split; [|by apply Hfac]. apply Hfac. destruct (decide (n = 0)) as [->|]; [done|lia].
  - destruct (of_int_exact n) as [[Hfin _] _]; [lia|]. by destruct (of_int n).
Qed.

Lemma continuous_targets_within_witness :
  ∃ out, ContinuousShareTargets demo_roles (of_int 20) = Some out ∧
    ∃ x, out !! "c" = Some x ∧ flt x (of_int 1) = false ∧ flt (of_int 4) x = false.
Proof.
  destruct (continuous_targets_within demo_roles 20) as (out & E & H).
  - by apply (bool_decide_unpack _); vm_compute.
  - intros r Hr. repeat (apply elem_of_cons in Hr as [->|Hr]; [apply demo_role_ok; lia|]). by apply elem_of_nil in Hr.
  - simpl. lia.
  - unfold MaxShareBudgetGPUs. lia.
  - exists out. split; [exact E|]. destruct (H (demo_role "c" 2 1 1 4 1)) as (x & Hx & (_ & W1 & W2) & _).
    + right. right. left.
    + exists x. split; [exact Hx|]. split; [exact W1|exact W2].
Defined.
