(* ===== verification/Ledger.v ===== *)
(** * The transfer ledger of the utilization share

    The model of [utilization_share_ledger.go]: the GPUs a role gives up and the
    role they are meant for.  A transfer is releasing while its donor still holds
    the GPUs, then filling until its receiver holds them; the ledger observes what
    every role holds once a cycle ([Observe]) and moves each transfer on, ends it,
    or times it out.  Beside the transfers it keeps what stops a role from moving
    back and forth: the moves of each role, the cancels, the back-offs and holds,
    and the needs each role had.

    A [*ShareTransfer] is its place in the list: the loops of [Observe] that mutate
    transfers through pointers are folds over positions.  Times and durations are
    [Z] nanoseconds, the zero [time.Time] is 0.  GPU counts are those of a group's
    pods, at most [MaxShareBudgetGPUs], so their sums are written in [Z]. *)
From Stdlib Require Import ZArith Lia String Ascii SpecFloat.
From stdpp Require Import base gmap strings list sorting fin_maps.
From S2P Require Import Prelude GoFloat.
Local Open Scope Z_scope.

(** ** Data *)
Inductive ShareTransferState := ShareReleasing | ShareFilling.
#[export] Instance ShareTransferState_eq_dec : EqDecision ShareTransferState.
Proof. solve_decision. Defined.

Inductive ShareTransferOutcome :=
  ShareOutcomeDone | ShareOutcomeFillTimeout | ShareOutcomeCancelled | ShareOutcomeAborted
| ShareOutcomeRedirected | ShareOutcomeWrongPod.
#[export] Instance ShareTransferOutcome_eq_dec : EqDecision ShareTransferOutcome.
Proof. solve_decision. Defined.

Record ShareTransfer := MkTransfer {
  ID : string; Donor : string; Receiver : string;
  DonorVariant : string; ReceiverVariant : string;
  DonorPods : list string; DonorLowered : bool; GPUs : Z; DonorGPUs : Z;
  Entitled : bool; Returned : bool; DonorPodGPUs : list Z; Urgent : bool; SkippedWaits : bool;
  PlannedPods : list string; SetID : string;
  t_State : ShareTransferState; Started : Z; Deadline : Z;
  donorBase : Z; receiverBase : Z; fillingSince : Z; receiverBaseUnset : bool;
  setReleased : Z; setPending : Z; plannedRunning : bool; plannedUnknown : bool }.

Definition IsSetPrimary (t : ShareTransfer) : bool :=
  negb (String.eqb (SetID t) "") && String.eqb (SetID t) (ID t).

Record ShareTransferEnd := MkEnd {
  e_Transfer : ShareTransfer; Outcome : ShareTransferOutcome; DonorReleased : bool }.

Record ShareTimings := MkTimings {
  Window : Z; ReleaseTimeout : Z; FillTimeout : Z; ReversalHold : Z; SwingWindow : Z;
  SwingReversals : Z; tm_MoveLatency : Z }.

Definition moveLatency (tm : ShareTimings) : Z :=
  if (0 <? tm_MoveLatency tm) then tm_MoveLatency tm else Z.quot (SwingWindow tm) 8.

Definition DefaultSwingReversals : Z := 3.

Definition Reversals (tm : ShareTimings) : Z :=
  if (0 <? SwingReversals tm) then SwingReversals tm else DefaultSwingReversals.

Definition unpacedHorizon (tm : ShareTimings) : Z := Z.quot (moveLatency tm ⊠ 5) 4.

Record shareMove := MkMove { m_at : Z; m_received : bool; m_id : string }.
Record shareNeedSample := MkSample { s_at : Z; s_need : float64 }.
Record shareWakeHold := MkWakeHold { h_gpus : Z; h_id : string; h_hold : Z; h_until : Z }.
Record SharePodBusy := MkPodBusy { pb_since : Z; pb_cycles : Z }.
Record shareFillBlock := MkFillBlock { fb_reason : string; fb_until : Z }.
Record ShareChangingHold := MkChanging {
  ch_Donor : string; ch_Variant : string; ch_Receivers : list string; ch_Reason : string;
  ch_Since : Z; ch_Until : Z; ch_SteadyCycles : Z }.

Record ShareLedger := MkLedger {
  transfers : list ShareTransfer; nextID : Z; incarnation : string;
  wakeHolds : list shareWakeHold;
  aborts : gmap string Z; giveAfter : gmap string Z; unsteerable : gmap string bool;
  busyUntil : gmap string Z; changing : gmap string ShareChangingHold;
  l_filled : option (gmap string Z); fillHeld : gmap string Z;
  fillBlocked : gmap string shareFillBlock; fillShort : gset string;
  lastGave : gmap string Z; lastGot : gmap string Z; noPair : gmap (string * string) Z;
  moves : gmap string (list shareMove); cancels : gmap string (list shareMove);
  swingUntil : gmap string Z; stepped : gmap string bool;
  needs : gmap string (list shareNeedSample); needsSince : gmap string Z;
  confirm : gmap string Z; hard : gmap string Z; over : gmap string Z;
  podBusy : gmap string SharePodBusy;
  releases : list Z; l_released : list ShareTransfer; l_seen : gmap string Z }.

Definition NewShareLedger (inc : string) : ShareLedger :=
  MkLedger [] 0 inc [] ∅ ∅ ∅ ∅ ∅ None ∅ ∅ ∅ ∅ ∅ ∅ ∅ ∅ ∅ ∅ ∅ ∅ ∅ ∅ ∅ ∅ [] [] ∅.

(** Field assignments: the record with one field replaced, read off its
    eta-expansion. *)
Definition eta_transfer (t : ShareTransfer) : ShareTransfer :=
  MkTransfer (ID t) (Donor t) (Receiver t) (DonorVariant t) (ReceiverVariant t) (DonorPods t)
    (DonorLowered t) (GPUs t) (DonorGPUs t) (Entitled t) (Returned t) (DonorPodGPUs t) (Urgent t)
    (SkippedWaits t) (PlannedPods t) (SetID t) (t_State t) (Started t) (Deadline t) (donorBase t)
    (receiverBase t) (fillingSince t) (receiverBaseUnset t) (setReleased t) (setPending t)
    (plannedRunning t) (plannedUnknown t).
Definition eta_ledger (l : ShareLedger) : ShareLedger :=
  MkLedger (transfers l) (nextID l) (incarnation l) (wakeHolds l) (aborts l) (giveAfter l)
    (unsteerable l) (busyUntil l) (changing l) (l_filled l) (fillHeld l) (fillBlocked l) (fillShort l)
    (lastGave l) (lastGot l) (noPair l) (moves l) (cancels l) (swingUntil l) (stepped l) (needs l)
    (needsSince l) (confirm l) (hard l) (over l) (podBusy l) (releases l) (l_released l) (l_seen l).

Ltac assign eta p v t :=
  let b := eval unfold eta in (eta t) in
  match eval pattern (p t) in b with
  | ?f _ => let r := eval cbv beta in (f v) in exact r
  end.

Section assign_transfer.
Context (t : ShareTransfer).
Definition set_ID v := ltac:(assign eta_transfer ID v t).
Definition set_Receiver v := ltac:(assign eta_transfer Receiver v t).
Definition set_ReceiverVariant v := ltac:(assign eta_transfer ReceiverVariant v t).
Definition set_DonorPods v := ltac:(assign eta_transfer DonorPods v t).
Definition set_DonorLowered v := ltac:(assign eta_transfer DonorLowered v t).
Definition set_GPUs v := ltac:(assign eta_transfer GPUs v t).
Definition set_DonorGPUs v := ltac:(assign eta_transfer DonorGPUs v t).
Definition set_Urgent v := ltac:(assign eta_transfer Urgent v t).
Definition set_SetID v := ltac:(assign eta_transfer SetID v t).
Definition set_State v := ltac:(assign eta_transfer t_State v t).
Definition set_Started v := ltac:(assign eta_transfer Started v t).
Definition set_Deadline v := ltac:(assign eta_transfer Deadline v t).
Definition set_donorBase v := ltac:(assign eta_transfer donorBase v t).
Definition set_receiverBase v := ltac:(assign eta_transfer receiverBase v t).
Definition set_fillingSince v := ltac:(assign eta_transfer fillingSince v t).
Definition set_receiverBaseUnset v := ltac:(assign eta_transfer receiverBaseUnset v t).
Definition set_setReleased v := ltac:(assign eta_transfer setReleased v t).
Definition set_setPending v := ltac:(assign eta_transfer setPending v t).
Definition set_plannedRunning v := ltac:(assign eta_transfer plannedRunning v t).
Definition set_plannedUnknown v := ltac:(assign eta_transfer plannedUnknown v t).
End assign_transfer.

Section assign_ledger.
Context (l : ShareLedger).
Definition set_transfers v := ltac:(assign eta_ledger transfers v l).
Definition set_nextID v := ltac:(assign eta_ledger nextID v l).
Definition set_wakeHolds v := ltac:(assign eta_ledger wakeHolds v l).
Definition set_aborts v := ltac:(assign eta_ledger aborts v l).
Definition set_giveAfter v := ltac:(assign eta_ledger giveAfter v l).
Definition set_unsteerable v := ltac:(assign eta_ledger unsteerable v l).
Definition set_busyUntil v := ltac:(assign eta_ledger busyUntil v l).
Definition set_changing v := ltac:(assign eta_ledger changing v l).
Definition set_filled v := ltac:(assign eta_ledger l_filled v l).
Definition set_fillHeld v := ltac:(assign eta_ledger fillHeld v l).
Definition set_fillBlocked v := ltac:(assign eta_ledger fillBlocked v l).
Definition set_fillShort v := ltac:(assign eta_ledger fillShort v l).
Definition set_lastGave v := ltac:(assign eta_ledger lastGave v l).
Definition set_lastGot v := ltac:(assign eta_ledger lastGot v l).
Definition set_noPair v := ltac:(assign eta_ledger noPair v l).
Definition set_moves v := ltac:(assign eta_ledger moves v l).
Definition set_cancels v := ltac:(assign eta_ledger cancels v l).
Definition set_swingUntil v := ltac:(assign eta_ledger swingUntil v l).
Definition set_stepped v := ltac:(assign eta_ledger stepped v l).
Definition set_needs v := ltac:(assign eta_ledger needs v l).
Definition set_needsSince v := ltac:(assign eta_ledger needsSince v l).
Definition set_confirm v := ltac:(assign eta_ledger confirm v l).
Definition set_hard v := ltac:(assign eta_ledger hard v l).
Definition set_over v := ltac:(assign eta_ledger over v l).
Definition set_podBusy v := ltac:(assign eta_ledger podBusy v l).
Definition set_releases v := ltac:(assign eta_ledger releases v l).
Definition set_released v := ltac:(assign eta_ledger l_released v l).
Definition set_seen v := ltac:(assign eta_ledger l_seen v l).
End assign_ledger.

(** A Go map read: a missing key is the zero value. *)
Definition get0 (m : gmap string Z) (k : string) : Z := default 0 (m !! k).

Definition releasing (t : ShareTransfer) : bool := bool_decide (t_State t = ShareReleasing).
Definition filling (t : ShareTransfer) : bool := bool_decide (t_State t = ShareFilling).

(** The key a transfer counts under: its set's, if it has one. *)
Definition set_key (t : ShareTransfer) : string := if String.eqb (SetID t) "" then ID t else SetID t.

(** ** Readings *)
Definition Transfer (l : ShareLedger) (id : string) : option ShareTransfer :=
  List.find (λ t, String.eqb (ID t) id) (transfers l).

Definition InFlightCount (l : ShareLedger) : Z :=
  Z.of_nat (size (list_to_set (set_key <$> filter (λ t, negb (String.eqb (Donor t) "" || Returned t)) (transfers l))
                  : gset string)).

Definition excess_step (excess : gmap string Z) (t : ShareTransfer) : gmap string Z :=
  if negb (releasing t) then excess
  else
    let k := set_key t in
    let excess := <[k := get0 excess k + DonorGPUs t]> excess in
    if String.eqb (Receiver t) "" then excess else <[k := get0 excess k - GPUs t]> excess.

Definition Unreleased (l : ShareLedger) : Z :=
  sumZ (λ e, Z.max e.2 0) (map_to_list (foldl excess_step ∅ (transfers l))).

Definition committed_step (out : gmap string Z) (t : ShareTransfer) : gmap string Z :=
  match t_State t with
  | ShareReleasing =>
      let out := <[Donor t := get0 out (Donor t) - DonorGPUs t]> out in
      if String.eqb (Receiver t) "" then out else <[Receiver t := get0 out (Receiver t) + GPUs t]> out
  | ShareFilling =>
      if String.eqb (Receiver t) "" then out else <[Receiver t := get0 out (Receiver t) + GPUs t]> out
  end.

Definition Committed (l : ShareLedger) (held : gmap string Z) : gmap string Z :=
  foldl committed_step held (transfers l).

Definition promised_of (t : ShareTransfer) : Z :=
  match t_State t with ShareFilling => GPUs t | ShareReleasing => setReleased t end.

Definition Promised (l : ShareLedger) : Z := sumZ promised_of (transfers l).

Definition Giving (l : ShareLedger) (role : string) : bool :=
  existsb (λ t, releasing t && String.eqb (Donor t) role) (transfers l).

(** ** Moves and swings *)

(** The changes of direction up to [at], within the window before it. *)
Fixpoint reversals_from (tm : ShareTimings) (at_ : Z) (prev : shareMove) (ms : list shareMove) : Z :=
  match ms with
  | [] => 0
  | m :: ms =>
      if (at_ <? m_at m) then 0
      else (if (at_ - m_at prev <=? SwingWindow tm) && negb (Bool.eqb (m_received m) (m_received prev)) then 1 else 0)
           + reversals_from tm at_ m ms
  end.

Definition reversals (tm : ShareTimings) (ms : list shareMove) (at_ : Z) : Z :=
  match ms with [] => 0 | m :: ms => reversals_from tm at_ m ms end.

Definition mark_swing (tm : ShareTimings) (ms : list shareMove) (until : Z) (m : shareMove) : Z :=
  if (Reversals tm <=? reversals tm ms (m_at m)) && (until <? m_at m + SwingWindow tm)
  then m_at m + SwingWindow tm else until.

Definition swing_of (tm : ShareTimings) (mv cs : list shareMove) : Z :=
  let ms := sort_stable (λ a b, m_at a <=? m_at b) (mv ++ cs) in
  foldl (mark_swing tm ms) 0 ms.

(** The last move each way; later moves overwrite earlier ones. *)
Definition last_move (received : bool) (mv : list shareMove) : option Z :=
  foldl (λ acc m, if Bool.eqb (m_received m) received then Some (m_at m) else acc) None mv.

Definition put {A} (m : gmap string A) (k : string) (v : option A) : gmap string A :=
  match v with Some a => <[k := a]> m | None => delete k m end.

Definition rederive (l : ShareLedger) (role : string) (tm : ShareTimings) : ShareLedger :=
  let mv := default [] (moves l !! role) in
  let until := swing_of tm mv (default [] (cancels l !! role)) in
  let l := set_lastGave l (put (lastGave l) role (last_move false mv)) in
  let l := set_lastGot l (put (lastGot l) role (last_move true mv)) in
  set_swingUntil l (put (swingUntil l) role (if (until =? 0) then None else Some until)).

Definition recordMove (l : ShareLedger) (role : string) (received : bool) (id : string) (now : Z)
    (tm : ShareTimings) : ShareLedger :=
  let keep := Z.max (ReversalHold tm) (2 ⊠ SwingWindow tm) in
  let kept := filter (λ m, (now - m_at m ≤ keep)) (default [] (moves l !! role)) in
  rederive (set_moves l (<[role := kept ++ [MkMove now received id]]> (moves l))) role tm.

Definition recordCancel (l : ShareLedger) (role : string) (received : bool) (now : Z) (tm : ShareTimings)
  : ShareLedger :=
  let cs := filter (λ m, (now - m_at m ≤ 2 ⊠ SwingWindow tm)) (default [] (cancels l !! role)) in
  if existsb (λ m, (m_at m =? now) && Bool.eqb (m_received m) received) cs
  then set_cancels l (<[role := cs]> (cancels l))
  else rederive (set_cancels l (<[role := cs ++ [MkMove now received ""]]> (cancels l))) role tm.

Definition unrecord (l : ShareLedger) (role id : string) (tm : ShareTimings) : ShareLedger :=
  match moves l !! role with
  | None => l
  | Some mv => rederive (set_moves l (<[role := filter (λ m, m_id m ≠ id) mv]> (moves l))) role tm
  end.

Definition ReceivingHeld (l : ShareLedger) (role : string) (now : Z) (tm : ShareTimings) : bool :=
  match lastGave l !! role with Some t => (now - t <? ReversalHold tm) | None => false end.

Definition PairHeld (l : ShareLedger) (donor receiver : string) (now : Z) : bool :=
  (now <? default 0 (noPair l !! (donor, receiver))).

Definition Changing (l : ShareLedger) (role : string) (now : Z) : bool :=
  match changing l !! role with Some h => (now <? ch_Until h) | None => false end.

Definition GivingBusy (l : ShareLedger) (role : string) (now : Z) : bool :=
  Changing l role now ||
  ((now <? get0 (busyUntil l) role) && existsb (λ t, String.eqb (Donor t) role && releasing t) (transfers l)).

Definition BackingOff (l : ShareLedger) (role : string) (now : Z) : bool :=
  (now <? get0 (giveAfter l) role).

Definition GivingBlocked (l : ShareLedger) (role : string) (now : Z) : bool :=
  (now <? get0 (giveAfter l) role) || GivingBusy l role now.

Definition GivingHeld (l : ShareLedger) (role : string) (now : Z) (tm : ShareTimings) : bool :=
  GivingBlocked l role now ||
  match lastGot l !! role with Some t => (now - t <? ReversalHold tm) | None => false end.

Definition Swinging (l : ShareLedger) (role : string) (now : Z) : bool :=
  (now <? get0 (swingUntil l) role) && negb (default false (stepped l !! role)).

(** ** Starting and dropping transfers *)

(** [hex] is the random suffix of an ID. *)
Definition issue_id (l : ShareLedger) (kind hex : string) : string :=
  incarnation l +:+ kind +:+ Itoa (nextID l + 1) +:+ "-" +:+ hex.

Definition add_transfer (l : ShareLedger) (t : ShareTransfer) : ShareLedger :=
  set_transfers l (transfers l ++ [t]).

Definition zero_transfer : ShareTransfer :=
  MkTransfer "" "" "" "" "" [] false 0 0 false false [] false false [] "" ShareReleasing 0 0 0 0 0 false 0 0 false false.

Definition fill_transfer (id receiver variant : string) (gpus : Z) (urgent : bool) (base now deadline : Z)
  : ShareTransfer :=
  MkTransfer id "" receiver "" variant [] false gpus 0 true false [] urgent false [] "" ShareFilling now deadline
    0 base now false 0 0 false false.

Definition StartFill (l : ShareLedger) (hex receiver variant : string) (gpus : Z) (urgent : bool)
    (held : gmap string Z) (now : Z) (tm : ShareTimings) : ShareLedger * ShareTransfer :=
  let t := fill_transfer (issue_id l "-f" hex) receiver variant gpus urgent (get0 held receiver) now
             (now + FillTimeout tm) in
  (add_transfer (set_nextID l (nextID l + 1)) t, t).

(** A single donor gives at least one receiver replica. *)
Definition whole_gift (t : ShareTransfer) : ShareTransfer :=
  if String.eqb (SetID t) "" && (DonorGPUs t <? GPUs t) then set_DonorGPUs t (GPUs t) else t.

Definition Restore (l : ShareLedger) (t : ShareTransfer) (heldDonor : Z) : ShareLedger :=
  add_transfer l (set_donorBase (set_State (whole_gift t) ShareReleasing) heldDonor).

Definition TakeReleased (l : ShareLedger) : ShareLedger * list ShareTransfer :=
  (set_released l [], l_released l).

Definition started (t : ShareTransfer) (id : string) (base now : Z) (tm : ShareTimings) : ShareTransfer :=
  set_donorBase (set_Deadline (set_Started (set_State (whole_gift (set_ID t id)) ShareReleasing) now)
    (now + ReleaseTimeout tm)) base.

Definition Start (l : ShareLedger) (hex : string) (t : ShareTransfer) (held : gmap string Z) (now : Z)
    (tm : ShareTimings) : ShareLedger * ShareTransfer :=
  let id := issue_id l "-t" hex in
  let t := started t id (get0 held (Donor t)) now tm in
  let l := add_transfer (set_nextID l (nextID l + 1)) t in
  if Entitled t then (l, t)
  else
    let l := recordMove l (Donor t) false id now tm in
    (if String.eqb (Receiver t) "" then l else recordMove l (Receiver t) true id now tm, t).

Definition LinkSet (l : ShareLedger) (primary : string) (contributors : list string) : ShareLedger :=
  let join t := if String.eqb (ID t) primary || bool_decide (ID t ∈ contributors) then set_SetID t primary else t in
  let pend t := if String.eqb (ID t) primary then set_setPending t (Z.of_nat (length contributors)) else t in
  set_transfers l (pend <$> (join <$> transfers l)).

(** The first transfer with the ID, and the list without it. *)
Fixpoint take_id (id : string) (ts : list ShareTransfer) : option (ShareTransfer * list ShareTransfer) :=
  match ts with
  | [] => None
  | t :: ts => if String.eqb (ID t) id then Some (t, ts)
               else match take_id id ts with Some (u, rest) => Some (u, t :: rest) | None => None end
  end.

Definition Forget (l : ShareLedger) (id : string) (tm : ShareTimings) : ShareLedger :=
  match take_id id (transfers l) with
  | None => l
  | Some (t, rest) =>
      let l := unrecord (set_transfers l rest) (Donor t) id tm in
      if String.eqb (Receiver t) "" then l else unrecord l (Receiver t) id tm
  end.

Definition setReceiver (l : ShareLedger) (id : string) : string :=
  match Transfer l id with Some t => Receiver t | None => "" end.

Definition Cancel (l : ShareLedger) (id : string) (now : Z) (tm : ShareTimings) : ShareLedger * bool :=
  match Transfer l id with
  | None => (l, false)
  | Some t =>
      if negb (releasing t) || (Window tm <=? now - Started t) then (l, false)
      else
        let rc := if String.eqb (Receiver t) "" then setReceiver l (SetID t) else Receiver t in
        let l := Forget l (ID t) tm in
        if Entitled t then (l, true)
        else
          let l := recordCancel l (Donor t) false now tm in
          if String.eqb rc "" then (l, true)
          else
            let l := recordCancel l rc true now tm in
            (set_noPair l (<[(Donor t, rc) := now + ReversalHold tm]> (noPair l)), true)
  end.

(** ** Wakes *)
Definition redirectable (t : ShareTransfer) : bool :=
  releasing t && negb (String.eqb (Receiver t) "") && String.eqb (SetID t) "" && negb (Returned t).

Definition redirected (t : ShareTransfer) : ShareTransfer :=
  set_Urgent (set_GPUs (set_ReceiverVariant (set_Receiver t "") "") 0) false.

(** The first transfer of that ID that can be redirected, and the list with it redirected. *)
Fixpoint redirect_first (id : string) (ts : list ShareTransfer)
  : option (ShareTransfer * list ShareTransfer) :=
  match ts with
  | [] => None
  | t :: ts =>
      if String.eqb (ID t) id && redirectable t then Some (t, redirected t :: ts)
      else match redirect_first id ts with Some (u, ts) => Some (u, t :: ts) | None => None end
  end.

Definition Redirect (l : ShareLedger) (id : string) (hold : Z) : ShareLedger * option ShareTransfer :=
  match redirect_first id (transfers l) with
  | None => (l, None)
  | Some (prev, ts) =>
      (set_wakeHolds (set_transfers l ts) (wakeHolds l ++ [MkWakeHold (DonorGPUs prev) (ID prev) hold 0]), Some prev)
  end.

Definition wake_held (l : ShareLedger) (now : Z) (h : shareWakeHold) : bool :=
  if (h_until h =? 0)
  then match Transfer l (h_id h) with Some t => releasing t | None => false end
  else (now <? h_until h).

Definition WakeHeld (l : ShareLedger) (now : Z) : ShareLedger * Z :=
  let held := filter (λ h, wake_held l now h = true) (wakeHolds l) in
  (set_wakeHolds l held, sumZ h_gpus held).

(** ** Observing a cycle *)

(** *** Which releases have landed *)

(** One transfer's entry of [releasable]: none when its donor was not seen.  The
    donor's transfers are counted in start order against the first one's base. *)
Definition scan_step (held : gmap string Z) (acc : gmap string Z * gmap string Z * list (option bool))
    (t : ShareTransfer) : gmap string Z * gmap string Z * list (option bool) :=
  let '(given, base, out) := acc in
  if negb (releasing t) || String.eqb (Donor t) "" then (given, base, out ++ [None])
  else
    match held !! Donor t with
    | None => (given, base, out ++ [None])
    | Some h =>
        let base := match base !! Donor t with Some _ => base | None => <[Donor t := donorBase t]> base end in
        let given := <[Donor t := get0 given (Donor t) + DonorGPUs t]> given in
        (given, base, out ++ [Some (h <=? get0 base (Donor t) - get0 given (Donor t))])
    end.

Definition releasable_of (held : gmap string Z) (ts : list ShareTransfer) : list (option bool) :=
  (foldl (scan_step held) (∅, ∅, []) ts).2.

(** The scan of the cycle: what the loops read of it, by place in the list. *)
Record scan := MkScan { sc_releasable : list (option bool); sc_waiting : gset string; sc_live : gmap string Z }.

Definition is_releasable (sc : scan) (i : nat) : bool := bool_decide (sc_releasable sc !! i = Some (Some true)).

Definition wrongPod (sc : scan) (i : nat) (t : ShareTransfer) : bool := is_releasable sc i && plannedRunning t.

Definition contributor (t : ShareTransfer) : bool := negb (String.eqb (SetID t) "") && negb (IsSetPrimary t).

(** The sets with a contributor that has not released, among those seen. *)
Definition waits (e : ShareTransfer * option bool) : bool :=
  match e.2 with
  | None => false
  | Some ok => (negb ok || (ok && plannedRunning e.1) || plannedUnknown e.1) && contributor e.1
  end.

Definition live_step (live : gmap string Z) (t : ShareTransfer) : gmap string Z :=
  if releasing t && contributor t then <[SetID t := get0 live (SetID t) + 1]> live else live.

Definition scan_of (held : gmap string Z) (ts : list ShareTransfer) : scan :=
  let rel := releasable_of held ts in
  MkScan rel (list_to_set ((λ e : ShareTransfer * option bool, SetID e.1) <$> filter (λ e, waits e = true) (zip ts rel)))
    (foldl live_step ∅ ts).

(** A primary whose pending contributor has left the ledger. *)
Definition broken (sc : scan) (t : ShareTransfer) : bool :=
  IsSetPrimary t && (get0 (sc_live sc) (ID t) <? setPending t).

(** *** Releasing to filling *)
Definition release_now (sc : scan) (i : nat) (t : ShareTransfer) : bool :=
  is_releasable sc i && negb (IsSetPrimary t && bool_decide (ID t ∈ sc_waiting sc)) && negb (broken sc t)
  && negb (wrongPod sc i t) && negb (plannedUnknown t).

(** A contributor's release, as its primary counts it. *)
Definition credit_set (t p : ShareTransfer) : ShareTransfer :=
  if contributor t && String.eqb (ID p) (SetID t) && releasing p
  then set_setPending (set_setReleased p (setReleased p + DonorGPUs t)) (setPending p - 1) else p.

(** [rebaseDonor], on one of the other transfers. *)
Definition rebase_one (t : ShareTransfer) (now : Z) (u : ShareTransfer) : ShareTransfer :=
  if releasing u && String.eqb (Donor u) (Donor t) && (Started u <? now)
  then set_donorBase u (donorBase u - DonorGPUs t) else u.

Definition to_filling (t : ShareTransfer) (rheld : gmap string Z) (now : Z) (tm : ShareTimings) : ShareTransfer :=
  set_fillingSince
    (set_receiverBaseUnset
       (set_receiverBase (set_Deadline (set_State t ShareFilling) (now + FillTimeout tm)) (get0 rheld (Receiver t)))
       (negb (String.eqb (Receiver t) "") && bool_decide (rheld !! Receiver t = None))) now.

Definition open_hold (id : string) (now : Z) (h : shareWakeHold) : shareWakeHold :=
  if String.eqb (h_id h) id && (h_until h =? 0) then MkWakeHold (h_gpus h) (h_id h) (h_hold h) (now + h_hold h) else h.

Definition shareReleaseSamples : nat := 20.

Definition keep_last (n : nat) (l : list Z) : list Z := drop (length l - n)%nat l.

(** The release of the transfer at place [i]. *)
Definition release_at (sc : scan) (rheld : gmap string Z) (now : Z) (tm : ShareTimings) (l : ShareLedger) (i : nat)
  : ShareLedger :=
  match transfers l !! i with
  | None => l
  | Some t =>
      if negb (release_now sc i t) then l
      else
        let f := to_filling t rheld now tm in
        let ts := imap (λ j u, if bool_decide (j = i) then f else rebase_one t now (credit_set t u)) (transfers l) in
        let l := set_transfers l ts in
        let l := set_releases l (keep_last shareReleaseSamples (releases l ++ [now - Started t])) in
        let l := set_wakeHolds l (open_hold (ID t) now <$> wakeHolds l) in
        let l := set_released l (l_released l ++ [f]) in
        let l := set_aborts l (delete (Donor t) (aborts l)) in
        let l := set_giveAfter l (delete (Donor t) (giveAfter l)) in
        set_busyUntil l (delete (Donor t) (busyUntil l))
  end.

(** *** Ends *)

(** The state of the loop that filters the transfers. *)
Record filter_state := MkFilter {
  fs_got : gmap string Z; fs_rbase : gmap string Z; fs_keep : list ShareTransfer;
  fs_ended : list ShareTransferEnd; fs_abortedNow : gset string;
  fs_filled : list ShareTransfer; fs_wrong : list ShareTransfer;
  fs_aborts : gmap string Z; fs_giveAfter : gmap string Z; fs_unsteerable : gmap string bool }.

Definition fs_keeping (s : filter_state) (t : ShareTransfer) : filter_state :=
  MkFilter (fs_got s) (fs_rbase s) (fs_keep s ++ [t]) (fs_ended s) (fs_abortedNow s) (fs_filled s) (fs_wrong s)
    (fs_aborts s) (fs_giveAfter s) (fs_unsteerable s).

Definition fs_ending (s : filter_state) (e : ShareTransferEnd) : filter_state :=
  MkFilter (fs_got s) (fs_rbase s) (fs_keep s) (fs_ended s ++ [e]) (fs_abortedNow s) (fs_filled s) (fs_wrong s)
    (fs_aborts s) (fs_giveAfter s) (fs_unsteerable s).

(** An aborted release backs its donor off, once a cycle: one release timeout,
    doubling with each abort in a row, up to sixteen. *)
Definition back_off (aborts_ : gmap string Z) (donor : string) (now : Z) (tm : ShareTimings) : Z :=
  now + wrap (Z.shiftl (ReleaseTimeout tm) (Z.min (get0 aborts_ donor) 4)).

Definition fs_aborting (s : filter_state) (t : ShareTransfer) (now : Z) (tm : ShareTimings) : filter_state :=
  let s := fs_ending s (MkEnd t ShareOutcomeAborted false) in
  if String.eqb (Donor t) "" || bool_decide (Donor t ∈ fs_abortedNow s) then s
  else
    MkFilter (fs_got s) (fs_rbase s) (fs_keep s) (fs_ended s) ({[Donor t]} ∪ fs_abortedNow s) (fs_filled s) (fs_wrong s)
      (<[Donor t := get0 (fs_aborts s) (Donor t) + 1]> (fs_aborts s))
      (<[Donor t := back_off (fs_aborts s) (Donor t) now tm]> (fs_giveAfter s))
      (delete (Donor t) (fs_unsteerable s)).

(** A filling transfer whose receiver is judged this cycle. *)
Definition fs_judge (s : filter_state) (t : ShareTransfer) (rheld : gmap string Z) (now : Z) : filter_state :=
  if receiverBaseUnset t then
    fs_keeping s (set_fillingSince (set_receiverBaseUnset (set_receiverBase t (get0 rheld (Receiver t))) false) now)
  else
    let rbase := match fs_rbase s !! Receiver t with
                 | Some _ => fs_rbase s | None => <[Receiver t := receiverBase t]> (fs_rbase s) end in
    let got := <[Receiver t := get0 (fs_got s) (Receiver t) + GPUs t]> (fs_got s) in
    let s := MkFilter got rbase (fs_keep s) (fs_ended s) (fs_abortedNow s) (fs_filled s) (fs_wrong s)
               (fs_aborts s) (fs_giveAfter s) (fs_unsteerable s) in
    if (get0 rbase (Receiver t) + get0 got (Receiver t) <=? get0 rheld (Receiver t)) then
      let s := fs_ending s (MkEnd t ShareOutcomeDone false) in
      MkFilter (fs_got s) (fs_rbase s) (fs_keep s) (fs_ended s) (fs_abortedNow s) (fs_filled s ++ [t]) (fs_wrong s)
        (fs_aborts s) (fs_giveAfter s) (fs_unsteerable s)
    else if (Deadline t <=? now) then fs_ending s (MkEnd t ShareOutcomeFillTimeout false)
    else fs_keeping s t.

Definition filter_step (sc : scan) (rheld : gmap string Z) (now : Z) (tm : ShareTimings) (s : filter_state)
    (e : nat * ShareTransfer) : filter_state :=
  let '(i, t) := e in
  let late := (Deadline t <=? now) in
  if releasing t then
    if broken sc t then
      fs_ending s (MkEnd t ShareOutcomeAborted (is_releasable sc i && negb (plannedRunning t)))
    else if wrongPod sc i t && negb (plannedUnknown t) then
      let s := fs_ending s (MkEnd t ShareOutcomeWrongPod false) in
      MkFilter (fs_got s) (fs_rbase s) (fs_keep s) (fs_ended s) (fs_abortedNow s) (fs_filled s) (fs_wrong s ++ [t])
        (fs_aborts s) (fs_giveAfter s) (fs_unsteerable s)
    else if late && IsSetPrimary t && is_releasable sc i then fs_ending s (MkEnd t ShareOutcomeAborted true)
    else if late then fs_aborting s t now tm
    else fs_keeping s t
  else if bool_decide (is_Some (rheld !! Receiver t)) || String.eqb (Receiver t) "" then fs_judge s t rheld now
  else if late then fs_ending s (MkEnd t ShareOutcomeFillTimeout false)
  else fs_keeping s t.

(** A fill that landed, as the receiver's other fills count it. *)
Definition count_in (now : Z) (f u : ShareTransfer) : ShareTransfer :=
  if filling u && String.eqb (Receiver u) (Receiver f) && negb (String.eqb (Receiver u) "") && (fillingSince u <? now)
  then set_receiverBase u (receiverBase u + GPUs f) else u.

(** The contributors of a set whose primary ended without its receiver filled. *)
Definition gone_sets (ended : list ShareTransferEnd) : gset string :=
  list_to_set ((λ e, ID (e_Transfer e)) <$>
    filter (λ e, IsSetPrimary (e_Transfer e) && negb (bool_decide (Outcome e = ShareOutcomeDone)) = true) ended).

Definition drop_with_set (gone : gset string) (t : ShareTransfer) : bool :=
  releasing t && bool_decide (SetID t ∈ gone) && negb (IsSetPrimary t).

Definition Observe (l : ShareLedger) (held : gmap string Z) (now : Z) (tm : ShareTimings)
  : ShareLedger * list ShareTransferEnd :=
  let rheld := default held (l_filled l) in
  let l := set_filled l None in
  let sc := scan_of held (transfers l) in
  let l := foldl (release_at sc rheld now tm) l (seq 0 (length (transfers l))) in
  let s := foldl (filter_step sc rheld now tm)
             (MkFilter ∅ ∅ [] [] ∅ [] [] (aborts l) (giveAfter l) (unsteerable l))
             (imap (λ i t, (i, t)) (transfers l)) in
  let ts := foldl (λ ts t, rebase_one t now <$> ts) (fs_keep s) (fs_wrong s) in
  let ts := foldl (λ ts f, count_in now f <$> ts) ts (fs_filled s) in
  let gone := gone_sets (fs_ended s) in
  let l := set_unsteerable (set_giveAfter (set_aborts (set_transfers l
             (filter (λ t, drop_with_set gone t = false) ts)) (fs_aborts s)) (fs_giveAfter s)) (fs_unsteerable s) in
  (l, fs_ended s ++ ((λ t, MkEnd t ShareOutcomeAborted false) <$> filter (λ t, drop_with_set gone t = true) ts)).

(** ** What the engine tells the ledger *)
Definition PlannedRunning (l : ShareLedger) (running unknown : gset string) : ShareLedger :=
  set_transfers l ((λ t, set_plannedUnknown (set_plannedRunning t (bool_decide (ID t ∈ running)))
                           (bool_decide (ID t ∈ unknown))) <$> transfers l).

Definition ConfirmStarted (l : ShareLedger) (id : string) (pods : list string) : ShareLedger :=
  set_transfers l ((λ t, if String.eqb (ID t) id then set_DonorLowered (set_DonorPods t pods) true else t)
                     <$> transfers l).

Definition ReceiverFilled (l : ShareLedger) (filled : option (gmap string Z)) : ShareLedger := set_filled l filled.

(** ** Holds and back-offs *)
Definition MarkFailed (l : ShareLedger) (donor : string) (now : Z) (tm : ShareTimings) : ShareLedger :=
  if String.eqb donor "" then l
  else
    let after := back_off (aborts l) donor now tm in
    let l := set_aborts l (<[donor := get0 (aborts l) donor + 1]> (aborts l)) in
    let l := set_giveAfter l (<[donor := after]> (giveAfter l)) in
    set_unsteerable l (<[donor := true]> (unsteerable l)).

Definition Unsteerable (l : ShareLedger) (role : string) (now : Z) : bool :=
  BackingOff l role now && default false (unsteerable l !! role).

Definition GiveAfter (l : ShareLedger) (role : string) : Z := get0 (giveAfter l) role.

(** The later of two ends of a hold. *)
Definition extend (m : gmap string Z) (k : string) (until : Z) : gmap string Z :=
  if get0 m k <? until then <[k := until]> m else m.

Definition HoldGiving (l : ShareLedger) (donor : string) (now : Z) (tm : ShareTimings) : ShareLedger :=
  if String.eqb donor "" then l
  else set_busyUntil l (extend (busyUntil l) donor (now + ReleaseTimeout tm)).

Definition HoldFill (l : ShareLedger) (receiver : string) (until : Z) : ShareLedger :=
  set_fillHeld l (extend (fillHeld l) receiver until).

Definition FillHeld (l : ShareLedger) (receiver : string) (now : Z) : bool := now <? get0 (fillHeld l) receiver.

Definition FillBlocked (l : ShareLedger) (role reason : string) (until : Z) : ShareLedger :=
  set_fillBlocked l (put (fillBlocked l) role
    (if String.eqb reason "" then None else Some (MkFillBlock reason until))).

Definition FillBlockedReason (l : ShareLedger) (role : string) (now : Z) : ShareLedger * string :=
  match fillBlocked l !! role with
  | None => (l, "")
  | Some b => if now <? fb_until b then (l, fb_reason b)
              else (set_fillBlocked l (delete role (fillBlocked l)), "")
  end.

Definition SetFillShort (l : ShareLedger) (roles : list string) : ShareLedger :=
  set_fillShort l (list_to_set roles).

Definition FillShort (l : ShareLedger) (role : string) : bool := bool_decide (role ∈ fillShort l).

Definition HoldChanging (l : ShareLedger) (donor variant receiver reason : string) (now : Z) (tm : ShareTimings)
  : ShareLedger :=
  if String.eqb donor "" then l
  else
    let fresh := MkChanging donor "" [] "" now 0 0 in
    let h := match changing l !! donor with
             | Some h => if now <? ch_Until h then h else fresh
             | None => fresh
             end in
    let rs := if negb (String.eqb receiver "") && negb (bool_decide (receiver ∈ ch_Receivers h))
              then ch_Receivers h ++ [receiver] else ch_Receivers h in
    let until := Z.max (now + ReleaseTimeout tm) (ch_Until h) in
    set_changing l (<[donor := MkChanging (ch_Donor h) variant rs reason (ch_Since h) until 0]> (changing l)).

Definition ChangingBlocks (l : ShareLedger) (receiver : string) (now : Z) : bool :=
  existsb (λ e : string * ShareChangingHold,
      negb (String.eqb e.1 receiver) && (now <? ch_Until e.2) && bool_decide (receiver ∈ ch_Receivers e.2))
    (map_to_list (changing l)).

(** One hold per donor, so the order by donor is a strict one. *)
Definition ChangingHolds (l : ShareLedger) (now : Z) : list ShareChangingHold :=
  filter (λ h, now < ch_Until h)
    (omap (λ d, changing l !! d) (sort_strings (map_to_list (changing l)).*1)).

Definition ObserveChanging (l : ShareLedger) (donor : string) (stable : bool) (reason : string) (confirm_ : Z)
  : ShareLedger * option ShareChangingHold * bool :=
  match changing l !! donor with
  | None => (l, None, false)
  | Some h =>
      let with_steady h reason n :=
        MkChanging (ch_Donor h) (ch_Variant h) (ch_Receivers h) reason (ch_Since h) (ch_Until h) n in
      if negb stable then
        let h := with_steady h (if String.eqb reason "" then ch_Reason h else reason) 0 in
        (set_changing l (<[donor := h]> (changing l)), Some h, false)
      else
        let h := with_steady h (ch_Reason h) (ch_SteadyCycles h + 1) in
        if Z.max confirm_ 1 <=? ch_SteadyCycles h
        then (set_changing l (delete donor (changing l)), Some h, true)
        else (set_changing l (<[donor := h]> (changing l)), Some h, false)
  end.

(** ** Runs of cycles *)

(** A role's count of consecutive cycles: dropped when the role is not on, else
    one more. *)
Definition count_runs (runs : gmap string Z) (on : gmap string bool) : gmap string Z :=
  map_imap (λ role (a : bool), if a then Some (get0 runs role + 1) else None) on.

Definition Confirm (l : ShareLedger) (actionable : gmap string bool) : ShareLedger * gmap string Z :=
  let runs := count_runs (confirm l) actionable in (set_confirm l runs, runs).

Definition ConfirmHard (l : ShareLedger) (h : gmap string bool) : ShareLedger * gmap string Z :=
  let runs := count_runs (hard l) h in (set_hard l runs, runs).

Definition HardCycles (l : ShareLedger) (role : string) : Z := get0 (hard l) role.

Definition MarkOver (l : ShareLedger) (o : gmap string bool) : ShareLedger * gmap string Z :=
  let runs := count_runs (over l) o in (set_over l runs, runs).

Definition NotePodBusy (l : ShareLedger) (busy : gmap string bool) (now : Z) : ShareLedger * gmap string SharePodBusy :=
  let runs := map_imap (λ role (b : bool),
                if b then let run := default (MkPodBusy now 0) (podBusy l !! role) in
                          Some (MkPodBusy (pb_since run) (pb_cycles run + 1))
                else None) busy in
  (set_podBusy l runs, runs).

(** ** Forgetting absent roles *)
Definition see (now : Z) (seen : gmap string Z) (role : string) : gmap string Z := <[role := now]> seen.

Definition see_transfer (now : Z) (seen : gmap string Z) (t : ShareTransfer) : gmap string Z :=
  let seen := see now seen (Donor t) in
  if String.eqb (Receiver t) "" then seen else see now seen (Receiver t).

(** The roles some map of the history records. *)
Definition recorded (l : ShareLedger) : gset string :=
  dom (aborts l) ∪ dom (giveAfter l) ∪ dom (fillBlocked l) ∪ dom (lastGave l) ∪ dom (lastGot l) ∪ dom (moves l)
  ∪ dom (cancels l) ∪ dom (swingUntil l) ∪ dom (needs l).

Definition absence_horizon (tm : ShareTimings) : Z :=
  Z.max (Z.max (ReversalHold tm) (2 ⊠ SwingWindow tm)) (wrap (Z.shiftl (ReleaseTimeout tm) 4)).

Definition drop_roles {A} (gone : gset string) (m : gmap string A) : gmap string A :=
  filter (λ e, e.1 ∉ gone) m.

Definition Retain (l : ShareLedger) (present : list string) (now : Z) (tm : ShareTimings) : ShareLedger :=
  let seen := foldl (see now) (l_seen l) present in
  let seen := foldl (see_transfer now) seen (transfers l) in
  let seen := seen ∪ gset_to_gmap now (recorded l) in
  let gone := dom (filter (λ e : string * Z, absence_horizon tm < now - e.2) seen) in
  let l := set_noPair l (filter (λ e : (string * string) * Z, now < e.2) (noPair l)) in
  let l := set_seen l (drop_roles gone seen) in
  let l := set_aborts l (drop_roles gone (aborts l)) in
  let l := set_unsteerable l (drop_roles gone (unsteerable l)) in
  let l := set_busyUntil l (drop_roles gone (busyUntil l)) in
  let l := set_changing l (drop_roles gone (changing l)) in
  let l := set_fillHeld l (drop_roles gone (fillHeld l)) in
  let l := set_giveAfter l (drop_roles gone (giveAfter l)) in
  let l := set_fillBlocked l (drop_roles gone (fillBlocked l)) in
  let l := set_lastGave l (drop_roles gone (lastGave l)) in
  let l := set_lastGot l (drop_roles gone (lastGot l)) in
  let l := set_moves l (drop_roles gone (moves l)) in
  let l := set_cancels l (drop_roles gone (cancels l)) in
  let l := set_swingUntil l (drop_roles gone (swingUntil l)) in
  let l := set_stepped l (drop_roles gone (stepped l)) in
  let l := set_needs l (drop_roles gone (needs l)) in
  let l := set_needsSince l (drop_roles gone (needsSince l)) in
  let l := set_hard l (drop_roles gone (hard l)) in
  let l := set_over l (drop_roles gone (over l)) in
  set_podBusy l (drop_roles gone (podBusy l)).

(** ** Needs *)

Definition ShareStepSpread : float64 := S754_finite false 4503599627370496 (-54).
Definition ShareFastSwingSpread : float64 := S754_finite false 4503599627370496 (-54).
Definition ShareLongBurstSpread : float64 := S754_finite false 4503599627370496 (-53).
Definition ShareUnpacedAfterCycles : Z := 2.
Definition fone : float64 := of_int 1.

Definition needs_of (l : ShareLedger) (role : string) : list shareNeedSample := default [] (needs l !! role).

Definition MeanNeed (l : ShareLedger) (role : string) (current : float64) : float64 :=
  match needs_of l role with
  | [] => current
  | s => fdiv (foldl (λ sum x, fadd sum (s_need x)) f0 s) (of_int (Z.of_nat (length s)))
  end.

(** The side of the mean a reading is on: 1 above its spread, -1 below, else 0. *)
Definition need_side (mean n : float64) : Z :=
  if flt (fmul mean (fadd fone ShareStepSpread)) n then 1
  else if flt n (fmul mean (fsub fone ShareStepSpread)) then -1 else 0.

(** The longest earlier run off the mean, and the one under way. *)
Fixpoint step_runs (mean : float64) (run start prev : Z) (s : list shareNeedSample) (earlier : Z) : Z * Z :=
  match s with
  | [] => (earlier, if run =? 0 then 0 else prev - start)
  | x :: s =>
      let side := need_side mean (s_need x) in
      if side =? run then step_runs mean run start (s_at x) s earlier
      else step_runs mean side (s_at x) (s_at x) s (if run =? 0 then earlier else Z.max earlier (prev - start))
  end.

Definition steppedAway (l : ShareLedger) (role : string) (d : Z) : bool :=
  match needs_of l role with
  | x :: (_ :: _) as rest =>
      if d <=? 0 then false
      else
        let mean := MeanNeed l role f0 in
        let '(earlier, cur) := step_runs mean (need_side mean (s_need x)) (s_at x) (s_at x) (tail (needs_of l role)) 0 in
        (d <=? cur) && (earlier <? cur)
  | _ => false
  end.

Definition record_need (now : Z) (tm : ShareTimings) (l : ShareLedger) (e : string * float64) : ShareLedger :=
  let '(role, n) := e in
  let kept := filter (λ x, now - s_at x ≤ SwingWindow tm) (needs_of l role) in
  let l := if bool_decide (needsSince l !! role = None) || bool_decide (kept = [])
           then set_needsSince l (<[role := now]> (needsSince l)) else l in
  let l := set_needs l (<[role := kept ++ [MkSample now n]]> (needs l)) in
  set_stepped l (<[role := steppedAway l role (moveLatency tm)]> (stepped l)).

(** Each role's history is its own, so the order of the map does not matter. *)
Definition RecordNeeds (l : ShareLedger) (ns : gmap string float64) (now : Z) (tm : ShareTimings) : ShareLedger :=
  foldl (record_need now tm) l (map_to_list ns).

(** The levels two readings in a row reached. *)
Fixpoint pair_levels (prev : shareNeedSample) (s : list shareNeedSample) : list (Z * float64) :=
  match s with
  | [] => []
  | x :: s => (s_at x, math_Min (s_need prev) (s_need x)) :: pair_levels x s
  end.

Definition sustained (s : list shareNeedSample) : list (Z * float64) :=
  match s with [] => [] | x :: s => pair_levels x s end.

Definition PeakNeed (l : ShareLedger) (role : string) (current : float64) : float64 :=
  let s := needs_of l role in
  if (length s <? 2)%nat then current else foldl math_Max f0 (sustained s).*2.

Definition RecentPeak (l : ShareLedger) (role : string) (now d : Z) : float64 :=
  foldl math_Max f0 (filter (λ e : Z * float64, now - e.1 ≤ d) (sustained (needs_of l role))).*2.

Definition PeakKnown (l : ShareLedger) (role : string) (now : Z) (tm : ShareTimings) : bool :=
  match needsSince l !! role with Some since => SwingWindow tm <=? now - since | None => false end.

Definition AnyPeakKnown (l : ShareLedger) (now : Z) (tm : ShareTimings) : bool :=
  existsb (λ e : string * Z, PeakKnown l e.1 now tm) (map_to_list (needsSince l)).

Definition PlanningNeed (l : ShareLedger) (role : string) (current : float64) (now : Z) : float64 :=
  if negb (Swinging l role now) then current else MeanNeed l role current.

(** ** Bursts *)
Record shareBursts := MkBursts { longest : Z; b_last : Z; b_completed : Z; ongoing : Z; spread : float64 }.

Definition sofar (b : shareBursts) : Z := Z.max (longest b) (ongoing b).

(** The range that two readings in a row stay in. *)
Fixpoint need_range (hi lo : float64) (prev : shareNeedSample) (s : list shareNeedSample) : float64 * float64 :=
  match s with
  | [] => (hi, lo)
  | x :: s => need_range (math_Max hi (math_Min (s_need prev) (s_need x)))
                (math_Min lo (math_Max (s_need prev) (s_need x))) x s
  end.

Record burst_state := MkBurstState {
  bs_out : shareBursts; bs_start : Z; bs_end : Z; bs_in : bool; bs_cut : bool; bs_ended : bool }.

Definition count_burst (b : burst_state) : shareBursts :=
  let d := bs_end b - bs_start b in
  let out := bs_out b in
  if bs_cut b then MkBursts (Z.max (longest out) d) (b_last out) (b_completed out) (ongoing out) (spread out)
  else MkBursts (Z.max (longest out) d) d (b_completed out + 1) (ongoing out) (spread out).

(** One pair of readings; [first] when it is the history's first. *)
Definition burst_step (mid : float64) (join : Z) (first : bool) (prev x : shareNeedSample) (b : burst_state)
  : burst_state :=
  if negb (bs_in b) && flt mid (s_need prev) && flt mid (s_need x) then
    if bs_ended b && (s_at prev - bs_end b <? join)
    then MkBurstState (bs_out b) (bs_start b) (bs_end b) true (bs_cut b) false
    else MkBurstState (if bs_ended b then count_burst b else bs_out b) (s_at prev) (bs_end b) true first false
  else if bs_in b && fle (s_need prev) mid && fle (s_need x) mid
  then MkBurstState (bs_out b) (bs_start b) (s_at prev) false (bs_cut b) true
  else b.

Fixpoint burst_loop (mid : float64) (join : Z) (first : bool) (prev : shareNeedSample) (s : list shareNeedSample)
    (b : burst_state) : burst_state * Z :=
  match s with
  | [] => (b, s_at prev)
  | x :: s => burst_loop mid join false x s (burst_step mid join first prev x b)
  end.

Definition no_bursts : shareBursts := MkBursts 0 0 0 0 f0.

Definition needBurstsJoined (l : ShareLedger) (role : string) (join : Z) : shareBursts :=
  match needs_of l role with
  | x :: (_ :: _ :: _) as s =>
      let rest := tail (needs_of l role) in
      let '(hi, lo) := need_range (S754_infinity true) (S754_infinity false) x rest in
      if fle hi lo then no_bursts
      else
        let mid := fdiv (fadd hi lo) (of_int 2) in
        let out := MkBursts 0 0 0 0 (fdiv (fsub hi lo) (math_Max hi fone)) in
        let '(b, last) := burst_loop mid join true x rest (MkBurstState out 0 0 false false false) in
        let out := if bs_ended b then count_burst b else bs_out b in
        if bs_in b then MkBursts (longest out) (b_last out) (b_completed out) (last - bs_start b) (spread out) else out
  | _ => no_bursts
  end.

Definition needBursts (l : ShareLedger) (role : string) : shareBursts := needBurstsJoined l role 0.

Definition LongBursts (l : ShareLedger) (role : string) (d : Z) : bool := Z.max d 1 <=? sofar (needBursts l role).

Definition BurstsLong (l : ShareLedger) (role : string) (d : Z) : bool :=
  let b := needBursts l role in (Z.max d 1 <=? sofar b) && fle ShareLongBurstSpread (spread b).

Definition SwingsFast (l : ShareLedger) (role : string) (d : Z) : bool :=
  let b := needBursts l role in
  (2 <=? b_completed b) && (sofar b <? d) && fle ShareFastSwingSpread (spread b).

Definition BurstEndsWithin (l : ShareLedger) (role : string) (d : Z) : bool :=
  let b := needBursts l role in
  if (b_completed b =? 0) || flt (spread b) ShareFastSwingSpread || (b_last b <=? ongoing b) then false
  else b_last b - ongoing b <? d.

(** The roles of the model that swing, once each, and those in a burst. *)
Definition judge_role (l : ShareLedger) (acc : list string * list string) (r : string) : list string * list string :=
  let '(swinging, bursting) := acc in
  if bool_decide (r ∈ swinging) then acc
  else
    let b := needBursts l r in
    if flt (spread b) ShareFastSwingSpread then acc
    else (swinging ++ [r], if 0 <? ongoing b then bursting ++ [r] else bursting).

Definition ModelBurstEnds (l : ShareLedger) (role : string) (model : list string) (tm : ShareTimings) : bool :=
  if flt (spread (needBursts l role)) ShareFastSwingSpread then false
  else
    let '(swinging, bursting) := foldl (judge_role l) ([], []) (role :: model) in
    let judged := match bursting with [] => swinging | _ => bursting end in
    match judged with
    | [] => false
    | _ => forallb (λ r, BurstEndsWithin l r (unpacedHorizon tm)) judged
    end.

Definition Unpaced (l : ShareLedger) (role : string) (model : list string) (tm : ShareTimings) : bool :=
  (ShareUnpacedAfterCycles <=? HardCycles l role) && negb (ModelBurstEnds l role model tm).

(** The 90th percentile of the recent releases, once there are three. *)
Definition f09 : float64 := S754_finite false 8106479329266893 (-53).

Definition MeasuredRelease {C : IntConv} (l : ShareLedger) : Z * bool :=
  let n := Z.of_nat (length (releases l)) in
  if n <? 3 then (0, false)
  else
    let s := sort_stable Z.leb (releases l) in
    (default 0 (s !! Z.to_nat (Z.min (n - 1) (int_of (fmul (of_int n) f09)))), true).
