(* ===== verification/LedgerSafety.v ===== *)
(** * What the transfer ledger guarantees

    Proofs about [Ledger.Observe]: every transfer is kept or ended once, with an
    outcome that fits the state it was in; a ledger left alone drains; and over any
    sequence of operations and cycles, the GPUs counted as released by a donor are
    no more than it has shed, and those counted as received no more than the
    receiver has gained. *)
From Stdlib Require Import ZArith Lia String.
From stdpp Require Import base gmap strings list sorting fin_maps.
From S2P Require Import Prelude Ledger.
Local Open Scope Z_scope.

(** ** The scan *)

(** The GPUs of a donor's releasing transfers. *)
Definition gives (d : string) (t : ShareTransfer) : Z :=
  if releasing t && String.eqb (Donor t) d then DonorGPUs t else 0.

Lemma sumZ_snoc {A} (g : A → Z) l a : sumZ g (l ++ [a]) = sumZ g l + g a.
Proof. rewrite sumZ_app. unfold sumZ at 2. simpl. lia. Qed.

Lemma get0_insert m k v k' : get0 (<[k := v]> m) k' = if String.eqb k k' then v else get0 m k'.
Proof.
  unfold get0. destruct (String.eqb_spec k k') as [->|Hne].
  - by rewrite lookup_insert_eq.
  - by rewrite lookup_insert_ne.
Qed.

Lemma get0_empty k : get0 ∅ k = 0.
Proof. done. Qed.

Section scan_facts.
Context (held : gmap string Z).

Definition scanned (ts : list ShareTransfer) := foldl (scan_step held) (∅, ∅, []) ts.

Lemma scanned_snoc ts t : scanned (ts ++ [t]) = scan_step held (scanned ts) t.
Proof. unfold scanned. by rewrite foldl_app. Qed.

Lemma scanned_length ts : length (scanned ts).2 = length ts.
Proof.
  induction ts as [|t ts IH] using rev_ind; [done|]. rewrite scanned_snoc, length_app. simpl.
  unfold scan_step. destruct (scanned ts) as [[given base] out]. simpl in *.
  repeat case_match; simpl; rewrite length_app; simpl; lia.
Qed.

(** What the scan knows of a donor it has seen: the base of its first transfer and
    the GPUs of all of them. *)
Lemma scanned_donor ts d h :
  d ≠ "" → held !! d = Some h →
  get0 (scanned ts).1.1 d = sumZ (gives d) ts ∧
  (scanned ts).1.2 !! d =
    head ((λ t, donorBase t) <$> filter (λ t, releasing t && String.eqb (Donor t) d = true) ts).
Proof.
  intros Hd Hh. induction ts as [|t ts IH] using rev_ind; [done|].
  rewrite scanned_snoc, sumZ_app, sumZ_cons, filter_app, fmap_app.
  destruct (scanned ts) as [[given base] out]. simpl in IH. destruct IH as [IH1 IH2].
  unfold scan_step, gives at 2, sumZ at 2. simpl.
  destruct (releasing t) eqn:Hr; simpl.
  2:{ rewrite filter_cons_False by (by rewrite Hr). rewrite app_nil_r. split; [lia|done]. }
  destruct (String.eqb_spec (Donor t) d) as [<-|Hne].
  - rewrite (proj2 (String.eqb_neq _ _) Hd), Hh. simpl.
    rewrite filter_cons_True by (by rewrite Hr, String.eqb_refl). simpl.
    split; [rewrite get0_insert, String.eqb_refl; lia|].
    rewrite IH2. destruct (head _) as [b|] eqn:E.
    + rewrite IH2. destruct (fmap _ _); [done|]. by simplify_eq/=.
    + destruct (fmap _ _); [|done]. by rewrite lookup_insert_eq.
  - rewrite filter_cons_False by (rewrite Hr; simpl; by apply not_true_iff_false, String.eqb_neq).
    rewrite app_nil_r. destruct (String.eqb (Donor t) "") eqn:E0; simpl; [split; [lia|done]|].
    destruct (held !! Donor t) as [h'|] eqn:Hh'; simpl; [|split; [lia|done]].
    split.
    + rewrite get0_insert, (proj2 (String.eqb_neq _ _) Hne). lia.
    + rewrite <- IH2. destruct (base !! Donor t) eqn:Eb; [done|]. by rewrite lookup_insert_ne.
Qed.

Lemma releasable_snoc ts t :
  ∃ x, releasable_of held (ts ++ [t]) = releasable_of held ts ++ [x] ∧
    (is_Some x → releasing t = true ∧ Donor t ≠ "" ∧ is_Some (held !! Donor t)) ∧
    (∀ h, held !! Donor t = Some h → x = Some true →
       h ≤ get0 (scanned (ts ++ [t])).1.2 (Donor t) - get0 (scanned (ts ++ [t])).1.1 (Donor t)).
Proof.
  unfold releasable_of. fold (scanned ts) (scanned (ts ++ [t])). rewrite scanned_snoc.
  destruct (scanned ts) as [[given base] out]. unfold scan_step.
  destruct (negb (releasing t) || String.eqb (Donor t) "") eqn:E.
  { exists None. split_and!; [done|by intros [? [=]]|done]. }
  apply orb_false_elim in E as [E1%negb_false_iff E2%String.eqb_neq].
  destruct (held !! Donor t) as [h|] eqn:Hh.
  - eexists. split; [done|]. split; [done|]. intros h' [= <-] [= Hx%Z.leb_le]. done.
  - exists None. split_and!; [done|by intros [? [=]]|done].
Qed.

Lemma releasable_length ts : length (releasable_of held ts) = length ts.
Proof. apply scanned_length. Qed.

(** The GPUs of a donor's releases that have landed. *)
Definition lands (d : string) (e : ShareTransfer * option bool) : Z :=
  if bool_decide (e.2 = Some true) && String.eqb (Donor e.1) d then DonorGPUs e.1 else 0.

Lemma lands_gives d ts :
  Forall (λ t, 0 ≤ DonorGPUs t) ts →
  sumZ (lands d) (zip ts (releasable_of held ts)) ≤ sumZ (gives d) ts.
Proof.
  intros Hg. induction ts as [|t ts IH] using rev_ind; [done|].
  apply Forall_app in Hg as [Hg [Ht _]%Forall_cons].
  destruct (releasable_snoc ts t) as (x & -> & Hx & _).
  rewrite zip_with_app by (by rewrite releasable_length). cbn [zip_with]. rewrite !sumZ_snoc.
  specialize (IH Hg). unfold lands at 2, gives at 2. simpl.
  destruct (bool_decide_reflect (x = Some true)) as [->|Hne]; simpl.
  - destruct (Hx ltac:(done)) as (-> & _). simpl. case_match; lia.
  - case_match; lia.
Qed.

(** The scan never lets a donor's transfers release more than it has shed since
    the base of the first of them. *)
Lemma lands_within d h K ts :
  d ≠ "" → held !! d = Some h → Forall (λ t, 0 ≤ DonorGPUs t) ts →
  (∀ t, t ∈ ts → releasing t = true → Donor t = d → donorBase t ≤ K) →
  sumZ (lands d) (zip ts (releasable_of held ts)) ≤ Z.max 0 (K - h).
Proof.
  intros Hd Hh. induction ts as [|t ts IH] using rev_ind; [unfold sumZ; simpl; lia|]. intros Hg HK.
  pose proof (lands_gives d (ts ++ [t]) Hg) as Hall.
  apply Forall_app in Hg as [Hg [Ht _]%Forall_cons].
  specialize (IH Hg ltac:(set_solver)).
  destruct (scanned_donor (ts ++ [t]) d h Hd Hh) as [H1 H2].
  destruct (releasable_snoc ts t) as (x & Hr & Hx & Hle). rewrite Hr in *.
  rewrite zip_with_app in * by (by rewrite releasable_length). cbn [zip_with] in *. rewrite !sumZ_snoc in *.
  destruct (bool_decide (x = Some true) && String.eqb (Donor t) d) eqn:E.
  2:{ unfold lands at 2. simpl. rewrite E. lia. }
  apply andb_true_iff in E as [->%bool_decide_eq_true <-%String.eqb_eq].
  specialize (Hle h Hh eq_refl). rewrite H1 in Hle.
  destruct (Hx ltac:(done)) as (Hrel & _).
  assert (Hb : get0 (scanned (ts ++ [t])).1.2 (Donor t) ≤ K).
  { unfold get0. rewrite H2.
    assert (Hin : t ∈ filter (λ u, releasing u && String.eqb (Donor u) (Donor t) = true) (ts ++ [t])).
    { apply list_elem_of_filter. rewrite Hrel, String.eqb_refl. set_solver. }
    destruct (filter _ _) as [|u us] eqn:Ef; [set_solver|]. simpl.
    assert (Hu : u ∈ filter (λ u, releasing u && String.eqb (Donor u) (Donor t) = true) (ts ++ [t])) by (rewrite Ef; set_solver).
    apply list_elem_of_filter in Hu as [[? ?%String.eqb_eq]%andb_true_iff Hu]. by apply HK. }
  lia.
Qed.
End scan_facts.

(** ** The release loop *)

(** What no loop of [Observe] changes in a transfer. *)
Definition ident (t : ShareTransfer) :=
  (ID t, Donor t, Receiver t, GPUs t, DonorGPUs t, SetID t, Started t, plannedRunning t, plannedUnknown t).

Definition fill_fields (t : ShareTransfer) := (receiverBase t, receiverBaseUnset t, fillingSince t).

Lemma releasing_true t : releasing t = true ↔ t_State t = ShareReleasing.
Proof. apply bool_decide_eq_true. Qed.

Lemma releasing_false t : releasing t = false → t_State t = ShareFilling.
Proof. unfold releasing. by destruct (t_State t). Qed.

(** GPUs of transfers a donor gave. *)
Definition from (d : string) (t : ShareTransfer) : Z := if String.eqb (Donor t) d then DonorGPUs t else 0.

Definition from_at (ts : list ShareTransfer) (d : string) (k : nat) : Z :=
  match ts !! k with Some t => from d t | None => 0 end.

Lemma from_nonneg d t : 0 ≤ DonorGPUs t → 0 ≤ from d t.
Proof. unfold from. by destruct (String.eqb (Donor t) d). Qed.

Lemma from_at_lookup ts d k t : ts !! k = Some t → from_at ts d k = from d t.
Proof. unfold from_at. by intros ->. Qed.

Lemma ident_eq u v :
  ident u = ident v →
  ID u = ID v ∧ Donor u = Donor v ∧ Receiver u = Receiver v ∧ GPUs u = GPUs v ∧ DonorGPUs u = DonorGPUs v ∧
  SetID u = SetID v ∧ Started u = Started v ∧ plannedRunning u = plannedRunning v ∧ plannedUnknown u = plannedUnknown v.
Proof. unfold ident. intros. by simplify_eq. Qed.

Lemma ident_credit t p : ident (credit_set t p) = ident p ∧ t_State (credit_set t p) = t_State p ∧
  Deadline (credit_set t p) = Deadline p ∧ donorBase (credit_set t p) = donorBase p ∧
  fill_fields (credit_set t p) = fill_fields p.
Proof. unfold credit_set. by case_match. Qed.

Lemma ident_rebase t now p : ident (rebase_one t now p) = ident p ∧ t_State (rebase_one t now p) = t_State p ∧
  Deadline (rebase_one t now p) = Deadline p ∧ fill_fields (rebase_one t now p) = fill_fields p ∧
  donorBase (rebase_one t now p) =
    donorBase p - (if releasing p && (Started p <? now) then from (Donor p) t else 0).
Proof.
  unfold rebase_one, from. destruct (releasing p); simpl; [|split_and!; try done; lia].
  rewrite (String.eqb_sym (Donor t)).
  destruct (String.eqb _ _), (Started p <? now); simpl; split_and!; try done; lia.
Qed.

Lemma ident_to_filling t rheld now tm : ident (to_filling t rheld now tm) = ident t.
Proof. done. Qed.

Section release_loop.
Context (sc : scan) (rheld : gmap string Z) (now : Z) (tm : ShareTimings).

(** A transfer after the places in [rs] have released. *)
Definition moved (ts0 : list ShareTransfer) (rs : list nat) (j : nat) (u0 u : ShareTransfer) : Prop :=
  ident u = ident u0 ∧
  if bool_decide (j ∈ rs) then
    t_State u = ShareFilling ∧ Deadline u = now + FillTimeout tm ∧
    fill_fields u = (get0 rheld (Receiver u0), negb (String.eqb (Receiver u0) "") && bool_decide (rheld !! Receiver u0 = None), now)
  else
    t_State u = t_State u0 ∧ Deadline u = Deadline u0 ∧ fill_fields u = fill_fields u0 ∧
    donorBase u = donorBase u0 - (if releasing u0 && (Started u0 <? now) then sumZ (from_at ts0 (Donor u0)) rs else 0).

(** The transfer a release item stands for, and what let it release. *)
Definition item_of (l0 : ShareLedger) (f : ShareTransfer) : Prop :=
  t_State f = ShareFilling ∧ ∃ i t, transfers l0 !! i = Some t ∧ ident f = ident t ∧ is_releasable sc i = true ∧
    plannedRunning t = false ∧ plannedUnknown t = false ∧ (IsSetPrimary t = true → ID t ∉ sc_waiting sc).

(** Nothing but its set, its planned pod or its donor's count keeps a transfer back. *)
Definition free_to_go (i : nat) (t : ShareTransfer) : bool :=
  is_releasable sc i && negb (IsSetPrimary t) && negb (plannedRunning t) && negb (plannedUnknown t).

Record release_run (l0 : ShareLedger) (rs : list nat) (n : nat) (l : ShareLedger) : Prop := {
  rr_length : length (transfers l) = length (transfers l0);
  rr_moved : ∀ j u0, transfers l0 !! j = Some u0 → ∃ u, transfers l !! j = Some u ∧ moved (transfers l0) rs j u0 u;
  rr_landed : Forall (λ i, (i < n)%nat ∧ is_releasable sc i = true ∧ is_Some (transfers l0 !! i)) rs;
  rr_nodup : NoDup rs;
  rr_free : ∀ i t, (i < n)%nat → transfers l0 !! i = Some t → free_to_go i t = true → i ∈ rs;
  rr_released : ∃ items, l_released l = l_released l0 ++ items ∧
    (∀ d, sumZ (from d) items = sumZ (from_at (transfers l0) d) rs) ∧ Forall (item_of l0) items ∧
    (∀ i t, i ∈ rs → transfers l0 !! i = Some t → ∃ f, f ∈ items ∧ ident f = ident t) }.

Lemma ident_primary u v : ident u = ident v → IsSetPrimary u = IsSetPrimary v.
Proof. intros (H1 & _ & _ & _ & _ & H2 & _)%ident_eq. unfold IsSetPrimary. by rewrite H1, H2. Qed.

Lemma moved_step ts0 rs i j t0 t u0 u :
  ts0 !! i = Some t0 → ident t = ident t0 → j ≠ i → moved ts0 rs j u0 u → i ∉ rs →
  moved ts0 (rs ++ [i]) j u0 (rebase_one t now (credit_set t u)).
Proof.
  intros Hi Ht Hj [Hid Hm] Hrs. unfold moved.
  destruct (ident_credit t u) as (C1 & C2 & C3 & C4 & C5).
  destruct (ident_rebase t now (credit_set t u)) as (R1 & R2 & R3 & R4 & R5).
  split; [congruence|].
  replace (bool_decide (j ∈ rs ++ [i])) with (bool_decide (j ∈ rs)) by (apply bool_decide_ext; set_solver).
  destruct (bool_decide_reflect (j ∈ rs)); [split_and!; try congruence; destruct Hm as (?&?&?); congruence|].
  destruct Hm as (H1 & H2 & H3 & H4). split_and!; [congruence..|].
  rewrite R5, C4, H4, sumZ_snoc. unfold releasing. rewrite C2, H1.
  apply ident_eq in C1, Hid. destruct C1 as (_ & -> & _ & _ & _ & _ & -> & _), Hid as (_ & -> & _ & _ & _ & _ & -> & _).
  rewrite (from_at_lookup _ _ _ t0 Hi). apply ident_eq in Ht as (_ & HD & _ & _ & HG & _). unfold from. rewrite HD, HG.
  destruct (bool_decide (t_State u0 = ShareReleasing) && (Started u0 <? now)); lia.
Qed.

Lemma release_skip l0 rs n l t t0 :
  release_run l0 rs n l → transfers l0 !! n = Some t0 → ident t = ident t0 → release_now sc n t = false →
  release_run l0 rs (S n) l.
Proof.
  intros [H1 H2 H3 H4 H5 H6] Ht0 Hid Hn. split; try done.
  - eapply Forall_impl; [exact H3|]. intros i (? & ?). split; [lia|done].
  - intros i u Hi Hu Hf. destruct (decide (i = n)) as [->|]; [|apply (H5 i u); [lia|done..]].
    rewrite Ht0 in Hu. injection Hu as <-. exfalso. unfold release_now, broken, wrongPod, free_to_go in *.
    rewrite (ident_primary _ _ Hid) in Hn. apply ident_eq in Hid as (_ & _ & _ & _ & _ & _ & _ & HR & HU).
    rewrite HR, HU in Hn. repeat (apply andb_true_iff in Hf as [Hf ?]). by destruct (IsSetPrimary t0), (plannedRunning t0), (plannedUnknown t0), (is_releasable sc n).
Qed.

Lemma release_take l0 rs n l t t0 :
  release_run l0 rs n l → transfers l0 !! n = Some t0 → transfers l !! n = Some t → ident t = ident t0 →
  release_now sc n t = true → release_run l0 (rs ++ [n]) (S n) (release_at sc rheld now tm l n).
Proof.
  intros [H1 H2 H3 H4 H5 H6] Ht0 Ht Hid Hn. rewrite Forall_forall in H3.
  unfold release_at. rewrite Ht, Hn. simpl.
  unfold release_now, wrongPod in Hn. repeat (apply andb_true_iff in Hn as [Hn ?]).
  assert (Hnrs : n ∉ rs) by (intros [? _]%H3; lia).
  split; simpl.
  - by rewrite length_imap.
  - intros j u0 Hu0. destruct (H2 j u0 Hu0) as (u & Hu & Hmv).
    rewrite list_lookup_imap, Hu. simpl. eexists; split; [done|].
    destruct (bool_decide_reflect (j = n)) as [->|Hne].
    + rewrite Ht0 in Hu0. rewrite Ht in Hu. injection Hu0 as <-. injection Hu as <-. split; [done|].
      rewrite bool_decide_true by set_solver. apply ident_eq in Hid as (_ & _ & HR & _). by rewrite <- HR.
    + by eapply moved_step.
  - apply Forall_forall. intros i [[? ?]%H3| ->%list_elem_of_singleton]%elem_of_app; [split; [lia|done]|].
    split; [lia|]. by rewrite Ht0.
  - apply NoDup_app. split; [done|]. split; [|apply NoDup_singleton]. by intros k Hk ->%list_elem_of_singleton.
  - intros i u Hi Hu Hf. destruct (decide (i = n)) as [->|]; [set_solver|].
    apply elem_of_app. left. apply (H5 i u); [lia|done..].
  - destruct H6 as (items & -> & Hs & Hall & Hin). exists (items ++ [to_filling t rheld now tm]).
    split; [by rewrite assoc_L by apply _|]. split; [|split].
    + intros d. rewrite !sumZ_snoc, Hs, (from_at_lookup _ _ _ t0 Ht0).
      change (from d (to_filling t rheld now tm)) with (from d t).
      unfold from. apply ident_eq in Hid as (_ & -> & _ & _ & -> & _). done.
    + apply Forall_app. split; [done|]. apply Forall_singleton. split; [done|]. exists n, t0.
      rewrite <- (ident_primary _ _ Hid). pose proof Hid as (HI & _ & _ & _ & _ & _ & _ & HR & HU)%ident_eq.
      rewrite <- HR, <- HU, <- HI. split_and!; [done|done|done|by destruct (plannedRunning t); rewrite ?Hn in *|by apply negb_true_iff|].
      intros Hp. rewrite Hp in *. simpl in *. by eapply bool_decide_eq_false, negb_true_iff.
    + intros i u [Hi| ->%list_elem_of_singleton]%elem_of_app Hu.
      * destruct (Hin i u Hi Hu) as (f & ? & ?). exists f. split; [apply elem_of_app; by left|done].
      * rewrite Ht0 in Hu. injection Hu as <-. exists (to_filling t rheld now tm). split; [|done].
        apply elem_of_app. right. by apply list_elem_of_singleton.
Qed.

Lemma release_loop_run l n :
  (n ≤ length (transfers l))%nat →
  ∃ rs, release_run l rs n (foldl (release_at sc rheld now tm) l (seq 0 n)).
Proof.
  induction n as [|n IH]; intros Hn.
  - exists []. split; try (done || constructor || lia).
    + intros j u0 Hj. exists u0. split; [done|]. split; [done|]. rewrite bool_decide_false by set_solver.
      split_and!; try done. unfold sumZ. simpl. case_match; lia.
    + exists []. rewrite app_nil_r. split_and!; [done|done|constructor|set_solver].
  - destruct (IH ltac:(lia)) as (rs & Hr). rewrite seq_S, foldl_app. cbn [foldl plus].
    destruct (lookup_lt_is_Some_2 (transfers l) n ltac:(lia)) as [t0 Ht0].
    destruct (rr_moved _ _ _ _ Hr n t0 Ht0) as (t & Ht & [Hid _]).
    destruct (release_now sc n t) eqn:E; [exists (rs ++ [n]); by eapply release_take|exists rs].
    unfold release_at at 1. rewrite Ht, E. simpl. by eapply release_skip.
Qed.
End release_loop.

(** ** The ends *)
Section ends.
Context (sc : scan) (rheld : gmap string Z) (now : Z) (tm : ShareTimings).

(** A filling transfer this cycle can judge. *)
Definition shown (t : ShareTransfer) : bool :=
  bool_decide (is_Some (rheld !! Receiver t)) || String.eqb (Receiver t) "".

Definition first_seen (t : ShareTransfer) : ShareTransfer :=
  set_fillingSince (set_receiverBaseUnset (set_receiverBase t (get0 rheld (Receiver t))) false) now.

(** How a kept transfer is kept, and why an ended one ends. *)
Definition kept_as (i : nat) (t u : ShareTransfer) : Prop :=
  if releasing t then u = t ∧ now < Deadline t ∧ broken sc t = false ∧ wrongPod sc i t && negb (plannedUnknown t) = false
  else if shown t && receiverBaseUnset t then u = first_seen t
  else u = t ∧ now < Deadline t.

Definition fits (i : nat) (t : ShareTransfer) (o : ShareTransferOutcome) : Prop :=
  match o with
  | ShareOutcomeDone => releasing t = false ∧ shown t = true ∧ receiverBaseUnset t = false
  | ShareOutcomeFillTimeout => releasing t = false ∧ Deadline t ≤ now
  | ShareOutcomeAborted => releasing t = true ∧ (broken sc t = true ∨ Deadline t ≤ now)
  | ShareOutcomeWrongPod => releasing t = true ∧ wrongPod sc i t = true ∧ plannedUnknown t = false
  | ShareOutcomeCancelled | ShareOutcomeRedirected => False
  end.

Definition with_outcome (o : ShareTransferOutcome) (ended : list ShareTransferEnd) : list ShareTransfer :=
  e_Transfer <$> filter (λ e, Outcome e = o) ended.

Lemma with_outcome_snoc o ended e :
  with_outcome o (ended ++ [e]) = with_outcome o ended ++ (if bool_decide (Outcome e = o) then [e_Transfer e] else []).
Proof.
  unfold with_outcome. rewrite filter_app, fmap_app. f_equal.
  case_bool_decide; [by rewrite filter_cons_True|by rewrite filter_cons_False].
Qed.

Ltac ends_as :=
  right; eexists; split; [reflexivity|]; split; [reflexivity|]; simpl;
  rewrite ?bool_decide_true, ?bool_decide_false, ?app_nil_r by done; split_and!.

(** One transfer of the loop: kept, or ended. *)
Lemma filter_step_cases s i t :
  let s' := filter_step sc rheld now tm s (i, t) in
  (∃ u, fs_keep s' = fs_keep s ++ [u] ∧ fs_ended s' = fs_ended s ∧ kept_as i t u ∧
     fs_wrong s' = fs_wrong s ∧ fs_filled s' = fs_filled s) ∨
  (∃ x, fs_keep s' = fs_keep s ∧ fs_ended s' = fs_ended s ++ [x] ∧ e_Transfer x = t ∧ fits i t (Outcome x) ∧
     fs_wrong s' = fs_wrong s ++ (if bool_decide (Outcome x = ShareOutcomeWrongPod) then [t] else []) ∧
     fs_filled s' = fs_filled s ++ (if bool_decide (Outcome x = ShareOutcomeDone) then [t] else [])).
Proof.
  unfold filter_step, kept_as, shown. destruct (releasing t) eqn:Hr.
  - destruct (broken sc t) eqn:Hb; [by ends_as; eauto|].
    destruct (wrongPod sc i t && negb (plannedUnknown t)) eqn:Hw.
    { apply andb_true_iff in Hw as [? ?%negb_true_iff]. by ends_as. }
    destruct (Z.leb_spec (Deadline t) now) as [Hl|Hl]; simpl.
    + destruct (IsSetPrimary t && is_releasable sc i); [by ends_as; eauto|].
      unfold fs_aborting. case_match; by ends_as; eauto.
    + left. exists t. simpl. split_and!; eauto.
  - fold (shown t). destruct (shown t) eqn:Hs; simpl.
    + unfold fs_judge. destruct (receiverBaseUnset t) eqn:Hu; [left; eexists; simpl; split_and!; eauto|].
      case_match; [by ends_as|].
      destruct (Z.leb_spec (Deadline t) now); [by ends_as|left; eexists; simpl; split_and!; eauto].
    + destruct (Z.leb_spec (Deadline t) now); [by ends_as|left; eexists; simpl; split_and!; eauto].
Qed.

Record filter_run (es : list (nat * ShareTransfer)) (s : filter_state) : Prop := {
  fr_wrong : fs_wrong s = with_outcome ShareOutcomeWrongPod (fs_ended s);
  fr_filled : fs_filled s = with_outcome ShareOutcomeDone (fs_ended s);
  fr_perm : (ident <$> fs_keep s) ++ (ident <$> (e_Transfer <$> fs_ended s)) ≡ₚ ident <$> es.*2;
  fr_keep : ∀ u, u ∈ fs_keep s → ∃ i t, (i, t) ∈ es ∧ kept_as i t u;
  fr_end : ∀ e, e ∈ fs_ended s → ∃ i, (i, e_Transfer e) ∈ es ∧ fits i (e_Transfer e) (Outcome e) }.

Lemma kept_as_ident i t u : kept_as i t u → ident u = ident t.
Proof. unfold kept_as. repeat case_match; by intros; destruct_and?; subst. Qed.

Lemma filter_loop_run es s0 :
  fs_keep s0 = [] → fs_ended s0 = [] → fs_wrong s0 = [] → fs_filled s0 = [] →
  filter_run es (foldl (filter_step sc rheld now tm) s0 es).
Proof.
  intros Hk He Hw Hf. induction es as [|[i t] es IH] using rev_ind; simpl.
  { split; rewrite ?Hk, ?He, ?Hw, ?Hf; (done || set_solver). }
  rewrite foldl_app. cbn [foldl]. destruct IH as [I1 I2 I3 I4 I5].
  destruct (filter_step_cases (foldl (filter_step sc rheld now tm) s0 es) i t)
    as [(u & K1 & K2 & K3 & K4 & K5)|(x & K1 & K2 & K3 & K4 & K5 & K6)].
  - split; rewrite ?K1, ?K2, ?K4, ?K5; try done.
    + rewrite !fmap_app. simpl. rewrite (kept_as_ident _ _ _ K3), <- I3. by solve_Permutation.
    + intros v [Hv| ->%list_elem_of_singleton]%elem_of_app; [|exists i, t; set_solver].
      destruct (I4 v Hv) as (j & w & ? & ?). exists j, w. set_solver.
    + intros e Hv. destruct (I5 e Hv) as (j & ? & ?). exists j. set_solver.
  - split; rewrite ?K1, ?K2, ?K5, ?K6, ?with_outcome_snoc, ?K3, ?I1, ?I2; try done.
    + rewrite !fmap_app. simpl. rewrite K3, <- I3. by solve_Permutation.
    + intros v Hv. destruct (I4 v Hv) as (j & w & ? & ?). exists j, w. set_solver.
    + intros e [Hv| ->%list_elem_of_singleton]%elem_of_app; [|exists i; rewrite K3; set_solver].
      destruct (I5 e Hv) as (j & ? & ?). exists j. set_solver.
Qed.

(** The transfers whose donor lost another pod are among the releases that landed. *)
Lemma wrong_within d es s0 :
  fs_wrong s0 = [] → Forall (λ e : nat * ShareTransfer, 0 ≤ DonorGPUs e.2) es →
  sumZ (from d) (fs_wrong (foldl (filter_step sc rheld now tm) s0 es)) ≤
  sumZ (λ e, if releasing e.2 && is_releasable sc e.1 then from d e.2 else 0) es.
Proof.
  intros Hw Hg. induction es as [|[i t] es IH] using rev_ind; [simpl; by rewrite Hw|].
  apply Forall_app in Hg as [Hg [Ht _]%Forall_cons]. specialize (IH Hg). rewrite foldl_app, sumZ_snoc. cbn [foldl fst snd] in *.
  pose proof (from_nonneg d t Ht).
  destruct (filter_step_cases (foldl (filter_step sc rheld now tm) s0 es) i t)
    as [(u & _ & _ & _ & -> & _)|(x & _ & _ & _ & K4 & -> & _)]; [case_match; lia|].
  rewrite sumZ_app. case_bool_decide as E; [|unfold sumZ at 2; simpl; case_match; lia].
  rewrite E in K4. destruct K4 as (-> & Hwp & _). unfold wrongPod in Hwp. apply andb_true_iff in Hwp as [-> _].
  rewrite sumZ_cons. unfold sumZ at 2. simpl. lia.
Qed.

(** GPUs a receiver's transfers are to bring it. *)
Definition into (r : string) (t : ShareTransfer) : Z := if String.eqb (Receiver t) r then GPUs t else 0.
Definition judged (r : string) (t : ShareTransfer) : bool :=
  negb (releasing t) && String.eqb (Receiver t) r && negb (receiverBaseUnset t).

Lemma judge_step r h s i t :
  r ≠ "" → rheld !! r = Some h →
  let s' := filter_step sc rheld now tm s (i, t) in
  get0 (fs_got s') r = get0 (fs_got s) r + (if judged r t then GPUs t else 0) ∧
  fs_rbase s' !! r = match fs_rbase s !! r with
                     | Some b => Some b
                     | None => if judged r t then Some (receiverBase t) else None
                     end ∧
  (fs_filled s' = fs_filled s ∨
   fs_filled s' = fs_filled s ++ [t] ∧
   (judged r t = true → get0 (fs_rbase s') r + get0 (fs_got s') r ≤ h) ∧
   (Receiver t = r → judged r t = true)).
Proof.
  intros Hr Hh. unfold filter_step, judged. destruct (releasing t) eqn:Hrel; simpl.
  { unfold fs_aborting. rewrite Z.add_0_r. repeat case_match; simpl; split_and!; auto. }
  fold (shown t). destruct (shown t) eqn:Hs; simpl.
  - unfold fs_judge. destruct (receiverBaseUnset t); simpl.
    { rewrite andb_false_r. split_and!; [lia|by case_match|auto]. }
    rewrite andb_true_r. destruct (String.eqb_spec (Receiver t) r) as [<-|Hne].
    + set (rb := match fs_rbase s !! Receiver t with Some _ => _ | None => _ end).
      assert (Hrb : rb !! Receiver t = Some (default (receiverBase t) (fs_rbase s !! Receiver t))).
      { unfold rb. destruct (fs_rbase s !! Receiver t) eqn:E; [done|]. by rewrite lookup_insert_eq. }
      assert (Hget : get0 rheld (Receiver t) = h) by (unfold get0; by rewrite Hh).
      destruct (Z.leb_spec (get0 rb (Receiver t) + get0 (<[Receiver t := get0 (fs_got s) (Receiver t) + GPUs t]> (fs_got s)) (Receiver t)) (get0 rheld (Receiver t)));
        simpl; [|case_match; simpl]; rewrite get0_insert, String.eqb_refl, Hrb;
        (split_and!; [lia|by destruct (fs_rbase s !! Receiver t)|]); [right|by left|by left].
      rewrite get0_insert, String.eqb_refl in *. split_and!; [done|lia|done].
    + rewrite Z.add_0_r.
      assert (Hrb : (match fs_rbase s !! Receiver t with Some _ => fs_rbase s
                     | None => <[Receiver t := receiverBase t]> (fs_rbase s) end) !! r = fs_rbase s !! r).
      { destruct (fs_rbase s !! Receiver t); [done|]. by rewrite lookup_insert_ne. }
      repeat case_match; simpl in *; rewrite ?get0_insert, ?(proj2 (String.eqb_neq _ _) Hne), ?Hrb; split_and!;
        (done || congruence || (by left) || (right; split_and!; done)).
  - assert (Hne : Receiver t ≠ r).
    { intros <-. unfold shown in Hs. rewrite Hh in Hs. done. }
    rewrite (proj2 (String.eqb_neq _ _) Hne). simpl. rewrite Z.add_0_r. repeat case_match; simpl; split_and!; auto.
Qed.

(** The fills that count as landed are within what the receiver has gained since
    the base of the first of them. *)
Lemma filled_within r h B es s0 :
  r ≠ "" → rheld !! r = Some h → fs_got s0 = ∅ → fs_rbase s0 = ∅ → fs_filled s0 = [] →
  Forall (λ e : nat * ShareTransfer, 0 ≤ GPUs e.2) es →
  (∀ e, e ∈ es → judged r e.2 = true → B ≤ receiverBase e.2) →
  sumZ (into r) (fs_filled (foldl (filter_step sc rheld now tm) s0 es)) ≤ Z.max 0 (h - B).
Proof.
  intros Hr Hh Hgot Hrb Hf Hg HB.
  set (s := foldl (filter_step sc rheld now tm) s0 es).
  assert (Hinv : get0 (fs_got s) r = sumZ (λ e, if judged r e.2 then GPUs e.2 else 0) es ∧
                 (∀ b, fs_rbase s !! r = Some b → B ≤ b) ∧
                 sumZ (into r) (fs_filled s) ≤ get0 (fs_got s) r ∧ sumZ (into r) (fs_filled s) ≤ Z.max 0 (h - B));
    [|apply Hinv].
  subst s. induction es as [|[i t] es IH] using rev_ind.
  { simpl. rewrite Hgot, Hrb, Hf. unfold sumZ. simpl. split_and!; [done|done|done|lia]. }
  apply Forall_app in Hg as [Hg [Ht _]%Forall_cons]. simpl in Ht.
  destruct (IH Hg ltac:(set_solver)) as (I1 & I2 & I3 & I4). rewrite foldl_app, sumZ_snoc. cbn [foldl fst snd].
  destruct (judge_step r h (foldl (filter_step sc rheld now tm) s0 es) i t Hr Hh) as (J1 & J2 & J3).
  revert J1 J2 J3. generalize (filter_step sc rheld now tm (foldl (filter_step sc rheld now tm) s0 es) (i, t)). intros s' J1 J2 J3.
  assert (HB' : ∀ b, fs_rbase s' !! r = Some b → B ≤ b).
  { intros b. rewrite J2. destruct (fs_rbase _ !! r); [by intros [= <-]; apply I2|].
    destruct (judged r t) eqn:Ej; [|done]. intros [= <-]. apply (HB (i, t)); [set_solver|done]. }
  split; [lia|]. split; [done|].
  assert (Hcase : 0 ≤ (if judged r t then GPUs t else 0)) by (destruct (judged r t); lia).
  destruct J3 as [->|(-> & J4 & J5)]; [split; lia|]. rewrite sumZ_snoc.
  change (into r t) with (if String.eqb (Receiver t) r then GPUs t else 0).
  destruct (String.eqb_spec (Receiver t) r) as [E|E]; [|split; lia].
  specialize (J5 E). specialize (J4 J5). rewrite J5 in J1, J2.
  destruct (fs_rbase s' !! r) as [b|] eqn:Eb; [|by destruct (fs_rbase _ !! r)].
  specialize (HB' b eq_refl). unfold get0 at 1 in J4. rewrite Eb in J4. simpl in J4. split; lia.
Qed.
End ends.

(** ** A whole observation *)

Lemma foldl_fmap_each {A B} (f : B → A → A) (ws : list B) (ts : list A) :
  foldl (λ ts w, f w <$> ts) ts ws = (λ u, foldl (λ u w, f w u) u ws) <$> ts.
Proof.
  revert ts. induction ws as [|w ws IH]; intros ts; simpl; [by rewrite list_fmap_id|].
  rewrite IH, <- list_fmap_compose. done.
Qed.

Definition rebase_all (now : Z) (ws : list ShareTransfer) (u : ShareTransfer) : ShareTransfer :=
  foldl (λ u t, rebase_one t now u) u ws.

Lemma rebase_all_spec now ws u :
  let v := rebase_all now ws u in
  ident v = ident u ∧ t_State v = t_State u ∧ Deadline v = Deadline u ∧ fill_fields v = fill_fields u ∧
  donorBase v = donorBase u - (if releasing u && (Started u <? now) then sumZ (from (Donor u)) ws else 0).
Proof.
  unfold rebase_all. induction ws as [|t ws IH] using rev_ind; simpl.
  { split_and!; try done. unfold sumZ. simpl. case_match; lia. }
  rewrite foldl_app. simpl. destruct IH as (I1 & I2 & I3 & I4 & I5).
  destruct (ident_rebase t now (foldl (λ u t, rebase_one t now u) u ws)) as (R1 & R2 & R3 & R4 & R5).
  split_and!; [congruence..|]. rewrite R5, I5, sumZ_snoc. unfold releasing. rewrite I2.
  apply ident_eq in I1 as (_ & -> & _ & _ & _ & _ & -> & _).
  destruct (bool_decide (t_State u = ShareReleasing) && (Started u <? now)); lia.
Qed.

Definition count_all (now : Z) (fs : list ShareTransfer) (u : ShareTransfer) : ShareTransfer :=
  foldl (λ u f, count_in now f u) u fs.

Lemma count_in_spec now f u :
  let v := count_in now f u in
  ident v = ident u ∧ t_State v = t_State u ∧ Deadline v = Deadline u ∧ donorBase v = donorBase u ∧
  receiverBaseUnset v = receiverBaseUnset u ∧ fillingSince v = fillingSince u ∧
  receiverBase v = receiverBase u +
    (if filling u && negb (String.eqb (Receiver u) "") && (fillingSince u <? now) then into (Receiver u) f else 0).
Proof.
  unfold count_in, into. rewrite (String.eqb_sym (Receiver f)).
  destruct (filling u), (String.eqb (Receiver u) (Receiver f)), (String.eqb (Receiver u) ""), (fillingSince u <? now);
    simpl; split_and!; try done; lia.
Qed.

Lemma count_all_spec now fs u :
  let v := count_all now fs u in
  ident v = ident u ∧ t_State v = t_State u ∧ Deadline v = Deadline u ∧ donorBase v = donorBase u ∧
  receiverBaseUnset v = receiverBaseUnset u ∧ fillingSince v = fillingSince u ∧
  receiverBase v = receiverBase u +
    (if filling u && negb (String.eqb (Receiver u) "") && (fillingSince u <? now) then sumZ (into (Receiver u)) fs else 0).
Proof.
  unfold count_all. induction fs as [|f fs IH] using rev_ind; simpl.
  { split_and!; try done. unfold sumZ. simpl. case_match; lia. }
  rewrite foldl_app. simpl. destruct IH as (I1 & I2 & I3 & I4 & I5 & I6 & I7).
  destruct (count_in_spec now f (foldl (λ u f, count_in now f u) u fs)) as (R1 & R2 & R3 & R4 & R5 & R6 & R7).
  split_and!; [congruence..|]. rewrite R7, I7, sumZ_snoc. unfold filling. rewrite I2, I6.
  apply ident_eq in I1 as (_ & _ & -> & _).
  destruct (bool_decide (t_State u = ShareFilling) && negb (String.eqb (Receiver u) "") && (fillingSince u <? now)); lia.
Qed.

Section observe.
Context (l : ShareLedger) (held : gmap string Z) (now : Z) (tm : ShareTimings).

Definition obs_rheld : gmap string Z := default held (l_filled l).
Definition obs_scan : scan := scan_of held (transfers l).
Definition obs_released : ShareLedger :=
  foldl (release_at obs_scan obs_rheld now tm) (set_filled l None) (seq 0 (length (transfers l))).
Definition obs_filtered : filter_state :=
  foldl (filter_step obs_scan obs_rheld now tm)
    (MkFilter ∅ ∅ [] [] ∅ [] [] (aborts obs_released) (giveAfter obs_released) (unsteerable obs_released))
    (imap (λ i t, (i, t)) (transfers obs_released)).
Definition obs_kept : list ShareTransfer :=
  (λ u, count_all now (fs_filled obs_filtered) (rebase_all now (fs_wrong obs_filtered) u)) <$> fs_keep obs_filtered.
Definition obs_gone : gset string := gone_sets (fs_ended obs_filtered).

Lemma Observe_parts :
  transfers (Observe l held now tm).1 = filter (λ t, drop_with_set obs_gone t = false) obs_kept ∧
  (Observe l held now tm).2 = fs_ended obs_filtered ++
    ((λ t, MkEnd t ShareOutcomeAborted false) <$> filter (λ t, drop_with_set obs_gone t = true) obs_kept) ∧
  l_released (Observe l held now tm).1 = l_released obs_released.
Proof.
  assert (Hk : foldl (λ ts f, count_in now f <$> ts)
     (foldl (λ ts t, rebase_one t now <$> ts) (fs_keep obs_filtered) (fs_wrong obs_filtered)) (fs_filled obs_filtered) = obs_kept).
  { unfold obs_kept. rewrite !foldl_fmap_each, <- list_fmap_compose. done. }
  rewrite <- Hk. done.
Qed.

Lemma obs_release_run :
  ∃ rs, release_run obs_scan obs_rheld now tm (set_filled l None) rs (length (transfers l)) obs_released.
Proof. by apply (release_loop_run obs_scan obs_rheld now tm (set_filled l None)). Qed.

Lemma obs_filter_run :
  filter_run obs_scan obs_rheld now (imap (λ i t, (i, t)) (transfers obs_released)) obs_filtered.
Proof. by apply filter_loop_run. Qed.

Lemma elem_of_indexed {A} (ts : list A) i t : (i, t) ∈ imap (λ i t, (i, t)) ts ↔ ts !! i = Some t.
Proof.
  rewrite list_elem_of_lookup. setoid_rewrite list_lookup_imap. split.
  - intros (j & Hj). destruct (ts !! j) eqn:E; simplify_eq/=. done.
  - intros Hi. exists i. by rewrite Hi.
Qed.

Lemma indexed_snd {A} (ts : list A) : (imap (λ i t, (i, t)) ts).*2 = ts.
Proof. rewrite fmap_imap. apply list_eq. intros i. rewrite list_lookup_imap. simpl. by destruct (ts !! i). Qed.

(** A kept transfer, traced back to its place before the observation. *)
Lemma obs_kept_from u :
  u ∈ obs_kept → ∃ i t w, transfers obs_released !! i = Some t ∧ kept_as obs_scan obs_rheld now i t w ∧
    u = count_all now (fs_filled obs_filtered) (rebase_all now (fs_wrong obs_filtered) w).
Proof.
  intros (w & -> & Hw)%list_elem_of_fmap.
  destruct (fr_keep _ _ _ _ _ obs_filter_run w Hw) as (i & t & Hi%elem_of_indexed & Hk). by exists i, t, w.
Qed.

Lemma kept_same w :
  let u := count_all now (fs_filled obs_filtered) (rebase_all now (fs_wrong obs_filtered) w) in
  ident u = ident w ∧ t_State u = t_State w ∧ Deadline u = Deadline w ∧
  receiverBaseUnset u = receiverBaseUnset w ∧ fillingSince u = fillingSince w.
Proof.
  simpl. destruct (rebase_all_spec now (fs_wrong obs_filtered) w) as (R1 & R2 & R3 & R4 & _).
  destruct (count_all_spec now (fs_filled obs_filtered) (rebase_all now (fs_wrong obs_filtered) w))
    as (C1 & C2 & C3 & _ & C5 & C6 & _).
  unfold fill_fields in R4. injection R4 as ? ? ?. split_and!; congruence.
Qed.

Lemma obs_released_idents : ident <$> transfers obs_released = ident <$> transfers l.
Proof.
  destruct obs_release_run as (rs & Hr). apply list_eq. intros i. rewrite !list_lookup_fmap.
  destruct (transfers l !! i) as [u0|] eqn:E.
  - destruct (rr_moved _ _ _ _ _ _ _ _ Hr i u0 E) as (u & -> & Hid & _). simpl. by rewrite Hid.
  - rewrite lookup_ge_None_2; [done|]. rewrite (rr_length _ _ _ _ _ _ _ _ Hr). by apply lookup_ge_None_1.
Qed.

Lemma filter_split {A} (f : A → bool) (ts : list A) :
  filter (λ t, f t = false) ts ++ filter (λ t, f t = true) ts ≡ₚ ts.
Proof.
  induction ts as [|t ts IH]; [done|]. destruct (f t) eqn:E.
  - rewrite filter_cons_False, filter_cons_True by congruence. rewrite <- Permutation_middle. by rewrite IH.
  - rewrite filter_cons_True, filter_cons_False by congruence. simpl. by rewrite IH.
Qed.

Lemma obs_kept_idents : ident <$> obs_kept = ident <$> fs_keep obs_filtered.
Proof. unfold obs_kept. rewrite <- list_fmap_compose. apply list_fmap_ext. intros i w _. apply kept_same. Qed.

Lemma obs_idents :
  (ident <$> transfers (Observe l held now tm).1) ++ (ident <$> (e_Transfer <$> (Observe l held now tm).2))
  ≡ₚ ident <$> transfers l.
Proof.
  destruct Observe_parts as (-> & -> & _). rewrite !fmap_app.
  rewrite (Permutation_app_comm (ident <$> (e_Transfer <$> fs_ended obs_filtered))), (assoc_L (++)), <- !list_fmap_compose.
  rewrite (list_fmap_ext _ ident (filter (λ t, drop_with_set obs_gone t = true) obs_kept)) by done.
  rewrite <- fmap_app, filter_split, obs_kept_idents, <- obs_released_idents, <- (indexed_snd (transfers obs_released)).
  rewrite <- (fr_perm _ _ _ _ _ obs_filter_run), list_fmap_compose. done.
Qed.

Lemma obs_ended_fits e :
  e ∈ (Observe l held now tm).2 →
  (∃ i t, transfers obs_released !! i = Some t ∧ e_Transfer e = t ∧ fits obs_scan obs_rheld now i t (Outcome e)) ∨
  releasing (e_Transfer e) = true ∧ Outcome e = ShareOutcomeAborted.
Proof.
  destruct Observe_parts as (_ & -> & _). intros [He|(t & -> & [Ht _]%list_elem_of_filter)%list_elem_of_fmap]%elem_of_app.
  - left. destruct (fr_end _ _ _ _ _ obs_filter_run e He) as (i & Hi%elem_of_indexed & Hf). by exists i, (e_Transfer e).
  - right. unfold drop_with_set in Ht. by repeat (apply andb_true_iff in Ht as [Ht _]).
Qed.

(** The items of the released list this observation adds. *)
Lemma obs_items :
  ∃ items, l_released (Observe l held now tm).1 = l_released l ++ items ∧ Forall (item_of obs_scan l) items ∧
    (∀ i t, transfers l !! i = Some t → free_to_go obs_scan i t = true → ∃ f, f ∈ items ∧ ident f = ident t).
Proof.
  destruct Observe_parts as (_ & _ & ->). destruct obs_release_run as (rs & Hr).
  destruct (rr_released _ _ _ _ _ _ _ _ Hr) as (items & H1 & _ & H3 & H4). exists items. split_and!; [done|done|].
  intros i t Ht Hf. apply (H4 i t); [|done]. eapply (rr_free _ _ _ _ _ _ _ _ Hr); [by eapply lookup_lt_Some|done..].
Qed.
End observe.

(** An observation does not touch the history of the roles. *)
Lemma release_loop_history sc rheld now tm l idx :
  let l' := foldl (release_at sc rheld now tm) l idx in
  moves l' = moves l ∧ cancels l' = cancels l ∧ lastGave l' = lastGave l ∧ lastGot l' = lastGot l ∧ l_seen l' = l_seen l.
Proof.
  revert l. induction idx as [|i idx IH]; intros l; [done|]. cbn [foldl]. destruct (IH (release_at sc rheld now tm l i)) as (-> & -> & -> & -> & ->).
  unfold release_at. destruct (transfers l !! i) as [t|]; [|done]. by destruct (release_now sc i t).
Qed.

Lemma Observe_history l held now tm :
  let l' := (Observe l held now tm).1 in
  moves l' = moves l ∧ cancels l' = cancels l ∧ lastGave l' = lastGave l ∧ lastGot l' = lastGot l ∧ l_seen l' = l_seen l.
Proof. exact (release_loop_history (obs_scan l held) (obs_rheld l held) now tm (set_filled l None) (seq 0 (length (transfers l)))). Qed.

(** ** Properties *)

(** An observation loses no transfer and ends none twice: every transfer is
    afterwards still in the ledger or among the ends, once; only a filling transfer
    ends as done, and only when its receiver was seen, or as timed out, past its
    deadline; only a releasing one is aborted or found to have lost the wrong pod;
    and whatever is handed to a receiver was a releasing transfer whose planned pod
    is not known to run. *)
Theorem observe_each_once l held now tm :
  let '(l', ended) := Observe l held now tm in
  (ID <$> transfers l') ++ (ID ∘ e_Transfer <$> ended) ≡ₚ ID <$> transfers l ∧
  (∀ e, e ∈ ended →
     match Outcome e with
     | ShareOutcomeDone => t_State (e_Transfer e) = ShareFilling ∧
         (is_Some (default held (l_filled l) !! Receiver (e_Transfer e)) ∨ Receiver (e_Transfer e) = "")
     | ShareOutcomeFillTimeout => t_State (e_Transfer e) = ShareFilling ∧ Deadline (e_Transfer e) ≤ now
     | ShareOutcomeAborted => t_State (e_Transfer e) = ShareReleasing
     | ShareOutcomeWrongPod => t_State (e_Transfer e) = ShareReleasing ∧ plannedRunning (e_Transfer e) = true
     | ShareOutcomeCancelled | ShareOutcomeRedirected => False
     end) ∧
  (∃ items, l_released l' = l_released l ++ items ∧ Forall (λ f, t_State f = ShareFilling ∧ ∃ t, t ∈ transfers l ∧
     ID f = ID t ∧ plannedRunning t = false ∧ plannedUnknown t = false) items).
Proof.
  pose proof (obs_idents l held now tm) as Hid. pose proof (obs_ended_fits l held now tm) as He.
  destruct (obs_items l held now tm) as (items & Hitems & Hall & _).
  destruct (Observe l held now tm) as [l' ended]. simpl in *. split_and!.
  - apply (fmap_Permutation (λ x : string * string * string * Z * Z * string * Z * bool * bool,
             x.1.1.1.1.1.1.1.1)) in Hid. rewrite fmap_app in Hid. by rewrite <- !list_fmap_compose in Hid.
  - intros e Hin. destruct (He e Hin) as [(i & t & _ & <- & Hf)|[Hr ->]].
    + destruct (Outcome e); simpl in Hf; try done; destruct Hf as (Hr & Hf).
      * destruct Hf as [Hf _]. split; [by apply releasing_false|]. unfold shown in Hf.
        apply orb_true_iff in Hf as [Hf%bool_decide_eq_true|Hf%String.eqb_eq]; auto.
      * split; [by apply releasing_false|done].
      * by apply releasing_true.
      * split; [by apply releasing_true|]. destruct Hf as [Hf _]. unfold wrongPod in Hf. apply andb_true_iff in Hf as [_ Hf]. done.
    + by apply releasing_true.
  - exists items. split; [done|]. eapply Forall_impl; [exact Hall|].
    intros f (Hs & i & t & Ht & Hidf & _ & H1 & H2 & _). split; [done|]. exists t.
    apply ident_eq in Hidf as (? & _). split_and!; [by eapply list_elem_of_lookup_2|done..].
Qed.

Lemma releasable_seen held ts j t :
  ts !! j = Some t → releasing t = true → Donor t ≠ "" → is_Some (held !! Donor t) →
  ∃ b, releasable_of held ts !! j = Some (Some b).
Proof.
  intros Hj Hr Hd [h Hh]. induction ts as [|u ts IH] using rev_ind; [done|].
  destruct (decide (j < length ts)%nat) as [Hlt|Hge].
  - rewrite lookup_app_l in Hj by done. destruct (IH Hj) as [b Hb]. exists b.
    destruct (releasable_snoc held ts u) as (x & -> & _). rewrite lookup_app_l; [done|]. by rewrite releasable_length.
  - pose proof (lookup_lt_Some _ _ _ Hj) as Hl. rewrite length_app in Hl. simpl in Hl.
    assert (j = length ts) as -> by lia. rewrite lookup_app_r, Nat.sub_diag in Hj by lia. simpl in Hj. injection Hj as ->.
    unfold releasable_of. fold (scanned held (ts ++ [t])). rewrite scanned_snoc.
    pose proof (scanned_length held ts) as HL. destruct (scanned held ts) as [[given base] out]. simpl in HL. unfold scan_step.
    rewrite Hr, (proj2 (String.eqb_neq _ _) Hd), Hh. simpl. eexists. rewrite <- HL, lookup_app_r, Nat.sub_diag by lia. done.
Qed.

(** A donor set releases together: when an observation hands the GPUs of a set's
    primary to its receiver, every contributor that was still releasing, from a donor
    seen this cycle, has released in the same observation. *)
Theorem set_releases_together l held now tm items f c :
  l_released (Observe l held now tm).1 = l_released l ++ items → f ∈ items → IsSetPrimary f = true →
  c ∈ transfers l → t_State c = ShareReleasing → SetID c = ID f → ID c ≠ ID f →
  Donor c ≠ "" → is_Some (held !! Donor c) →
  ∃ g, g ∈ items ∧ ID g = ID c ∧ DonorGPUs g = DonorGPUs c.
Proof.
  intros Hi Hf Hp Hc Hr Hs Hne Hd Hseen. apply releasing_true in Hr.
  destruct (obs_items l held now tm) as (items' & Hi' & Hall & Hfree).
  rewrite Hi in Hi'. apply app_inv_head in Hi' as <-. rewrite Forall_forall in Hall.
  destruct (Hall f Hf) as (_ & i & t & Ht & Hid & _ & _ & _ & Hw).
  rewrite <- (ident_primary _ _ Hid) in Hw. pose proof Hid as (HI & _)%ident_eq. specialize (Hw Hp). rewrite <- HI, <- Hs in Hw.
  apply list_elem_of_lookup in Hc as [j Hj].
  destruct (releasable_seen held _ _ _ Hj Hr Hd Hseen) as [b Hb].
  assert (Hcon : contributor c = true).
  { unfold IsSetPrimary in Hp. apply andb_true_iff in Hp as [Hp1 Hp2].
    apply negb_true_iff, String.eqb_neq in Hp1. apply String.eqb_eq in Hp2.
    unfold contributor, IsSetPrimary. rewrite Hs. rewrite (proj2 (String.eqb_neq (ID f) "")) by congruence. simpl.
    rewrite (proj2 (String.eqb_neq (ID f) (ID c))); [done|congruence]. }
  assert (Hnw : waits (c, Some b) = false).
  { destruct (waits (c, Some b)) eqn:E; [|done]. exfalso. apply Hw. unfold obs_scan, scan_of. simpl.
    apply elem_of_list_to_set, list_elem_of_fmap. exists (c, Some b). split; [done|]. apply list_elem_of_filter. split; [done|].
    apply list_elem_of_lookup. exists j. apply lookup_zip_with_Some. by exists c, (Some b). }
  unfold waits in Hnw. simpl in Hnw. rewrite Hcon, andb_true_r in Hnw.
  destruct (Hfree j c Hj) as (g & Hg & Hgid).
  { unfold free_to_go, is_releasable, obs_scan, scan_of. simpl. rewrite Hb.
    unfold contributor in Hcon. apply andb_true_iff in Hcon as [_ ->].
    destruct b, (plannedRunning c), (plannedUnknown c); done. }
  apply ident_eq in Hgid as (? & _ & _ & _ & ? & _). by exists g.
Qed.

Lemma releasable_releasing held ts j t b :
  releasable_of held ts !! j = Some (Some b) → ts !! j = Some t → releasing t = true.
Proof.
  induction ts as [|u ts IH] using rev_ind; [done|]. destruct (releasable_snoc held ts u) as (x & -> & Hx & _).
  intros [Hb|[Hl Hb]]%lookup_app_Some Ht.
  - rewrite lookup_app_l in Ht by (rewrite <- (releasable_length held ts); by eapply lookup_lt_Some). by apply IH.
  - rewrite releasable_length in *. apply lookup_app_Some in Ht as [Ht|[_ Ht]]; [apply lookup_lt_Some in Ht; lia|].
    apply list_lookup_singleton_Some in Hb as [_ ->], Ht as [_ ->]. by apply Hx.
Qed.

(** ** Draining *)

(** What the engine reads in one cycle. *)
Record cycle := MkCycle {
  cy_running : gset string; cy_unknown : gset string; cy_filled : option (gmap string Z);
  cy_held : gmap string Z; cy_now : Z }.

Definition observe_cycle (tm : ShareTimings) (l : ShareLedger) (c : cycle) : ShareLedger :=
  (Observe (ReceiverFilled (PlannedRunning l (cy_running c) (cy_unknown c)) (cy_filled c)) (cy_held c) (cy_now c) tm).1.

(** How a transfer that stays got to where it is. *)
Lemma observe_stays l held now tm u :
  u ∈ transfers (Observe l held now tm).1 →
  ∃ t, t ∈ transfers l ∧
    ((t_State u = ShareReleasing ∧ t_State t = ShareReleasing ∧ Deadline u = Deadline t ∧ now < Deadline u) ∨
     (t_State u = ShareFilling ∧ t_State t = ShareReleasing ∧ Deadline u = now + FillTimeout tm) ∨
     (t_State u = ShareFilling ∧ t_State t = ShareFilling ∧ Deadline u = Deadline t ∧
      (now < Deadline u ∨ receiverBaseUnset t = true ∧ receiverBaseUnset u = false))).
Proof.
  destruct (Observe_parts l held now tm) as (-> & _). intros [_ Hu]%list_elem_of_filter.
  destruct (obs_kept_from l held now tm u Hu) as (i & t1 & w & Hi & Hk & ->).
  destruct (kept_same l held now tm w) as (_ & S2 & S3 & S4 & _). rewrite S2, S3, S4.
  destruct (obs_release_run l held now tm) as (rs & Hr).
  destruct (lookup_lt_is_Some_2 (transfers l) i) as [t0 Ht0].
  { pose proof (rr_length _ _ _ _ _ _ _ _ Hr) as HL. simpl in HL. rewrite <- HL. by eapply lookup_lt_Some. }
  destruct (rr_moved _ _ _ _ _ _ _ _ Hr i t0 Ht0) as (t1' & Ht1 & Hid & Hm). rewrite Hi in Ht1. injection Ht1 as <-.
  exists t0. split; [by eapply list_elem_of_lookup_2|]. unfold kept_as in Hk.
  destruct (releasing t1) eqn:Er.
  - destruct Hk as (-> & Hlt & _). left. apply releasing_true in Er. case_bool_decide.
    + destruct Hm as (Hst & _). congruence.
    + destruct Hm as (Hst & Hd & _). split_and!; congruence || lia.
  - apply releasing_false in Er. right. case_bool_decide.
    + left. destruct Hm as (_ & Hd & _).
      assert (Hrel : t_State t0 = ShareReleasing).
      { pose proof (rr_landed _ _ _ _ _ _ _ _ Hr) as HL. rewrite Forall_forall in HL.
        destruct (HL i ltac:(done)) as (_ & Hlands & _). apply releasing_true.
        unfold is_releasable in Hlands. apply bool_decide_eq_true in Hlands.
        exact (releasable_releasing held (transfers l) i t0 true Hlands Ht0). }
      case_match; [subst w|destruct Hk as [-> _]]; done.
    + right. destruct Hm as (Hst & Hd & Hff & _). unfold fill_fields in Hff. injection Hff as _ Hun _.
      destruct (shown (obs_rheld l held) t1 && receiverBaseUnset t1) eqn:Es.
      * apply andb_true_iff in Es as [_ Es]. subst w. simpl. split_and!; try congruence. right. split; congruence.
      * destruct Hk as [-> Hlt]. split_and!; try congruence. by left.
Qed.

Lemma cycle_stays tm l c u :
  u ∈ transfers (observe_cycle tm l c) →
  ∃ t, t ∈ transfers l ∧
    ((t_State u = ShareReleasing ∧ t_State t = ShareReleasing ∧ Deadline u = Deadline t ∧ cy_now c < Deadline u) ∨
     (t_State u = ShareFilling ∧ t_State t = ShareReleasing ∧ Deadline u = cy_now c + FillTimeout tm) ∨
     (t_State u = ShareFilling ∧ t_State t = ShareFilling ∧ Deadline u = Deadline t ∧
      (cy_now c < Deadline u ∨ receiverBaseUnset t = true ∧ receiverBaseUnset u = false))).
Proof.
  intros Hu. unfold observe_cycle in Hu. destruct (observe_stays _ _ _ _ _ Hu) as (t & Ht & Hc). cbn [PlannedRunning ReceiverFilled set_filled set_transfers transfers] in Ht. apply list_elem_of_fmap in Ht as (t' & -> & Ht'). by exists t'.
Qed.

(** C16: no transfer stays in the ledger for ever: once every deadline has passed, an
    observation leaves only fills; one more, a fill timeout later, leaves at most
    those whose receiver had not been seen before; and the next leaves none,
    whatever the cluster shows. *)
Theorem ledger_drains tm l c1 c2 c3 :
  (∀ t, t ∈ transfers l → Deadline t ≤ cy_now c1) →
  cy_now c1 ≤ cy_now c2 → cy_now c1 + FillTimeout tm ≤ cy_now c2 → cy_now c2 ≤ cy_now c3 →
  transfers (observe_cycle tm (observe_cycle tm (observe_cycle tm l c1) c2) c3) = [].
Proof.
  intros HD H12 HFT H23.
  assert (H1 : ∀ u, u ∈ transfers (observe_cycle tm l c1) → t_State u = ShareFilling ∧ Deadline u ≤ cy_now c2).
  { intros u (t & Ht%HD & Hc)%cycle_stays.
    destruct Hc as [(_ & _ & ? & ?)|[(? & _ & ->)|(? & _ & -> & _)]]; [lia|split; [done|lia]..]. }
  assert (H2 : ∀ u, u ∈ transfers (observe_cycle tm (observe_cycle tm l c1) c2) →
                 t_State u = ShareFilling ∧ Deadline u ≤ cy_now c2 ∧ receiverBaseUnset u = false).
  { intros u (t & [Ht1 Ht2]%H1 & Hc)%cycle_stays.
    destruct Hc as [(_ & ? & _)|[(_ & ? & _)|(? & _ & E & [?|[_ ?]])]]; [congruence..|lia|split_and!; [done|lia|done]]. }
  apply elem_of_nil_inv. intros u (t & (Ht1 & Ht2 & Ht3)%H2 & Hc)%cycle_stays.
  destruct Hc as [(_ & ? & _)|[(_ & ? & _)|(? & _ & E & [?|[? _]])]]; [congruence..|lia|congruence].
Qed.

(** ** GPUs are counted once *)

Lemma sumZ_seq {A} (g : A → Z) (l : list A) :
  sumZ g l = sumZ (λ i, match l !! i with Some x => g x | None => 0 end) (seq 0 (length l)).
Proof.
  induction l as [|x l IH] using rev_ind; [done|]. rewrite length_app. simpl. rewrite Nat.add_1_r, seq_S, !sumZ_snoc. simpl.
  rewrite lookup_app_r, Nat.sub_diag by lia. simpl. f_equal. rewrite IH. apply sumZ_ext.
  intros i Hi%elem_of_seq. by rewrite lookup_app_l by lia.
Qed.

Lemma sumZ_members (g : nat → Z) n rs :
  NoDup rs → Forall (λ i, (i < n)%nat) rs →
  sumZ g rs = sumZ (λ i, if bool_decide (i ∈ rs) then g i else 0) (seq 0 n).
Proof.
  intros Hn Hlt. rewrite Forall_forall in Hlt.
  transitivity (sumZ g (filter (λ i, i ∈ rs) (seq 0 n))).
  - apply sumZ_proper, NoDup_Permutation; [done|by apply NoDup_filter, NoDup_seq|].
    intros i. rewrite list_elem_of_filter, elem_of_seq. split; [|by intros [? _]]. intros Hi. specialize (Hlt i Hi). split; [done|lia].
  - induction (seq 0 n) as [|i l IH]; [done|]. rewrite sumZ_cons, <- IH.
    destruct (decide (i ∈ rs)); [rewrite filter_cons_True by done|rewrite filter_cons_False by done]; rewrite ?sumZ_cons.
    + by rewrite bool_decide_true.
    + by rewrite bool_decide_false.
Qed.

Section observe_counts.
Context (l : ShareLedger) (held : gmap string Z) (now : Z) (tm : ShareTimings).

(** The GPUs an observation counts as given up by [d]: those of the transfers it
    releases and of those that lost another pod. *)
Definition freed_by (d : string) : Z :=
  sumZ (from d) (drop (length (l_released l)) (l_released (Observe l held now tm).1)) +
  sumZ (from d) (with_outcome ShareOutcomeWrongPod (Observe l held now tm).2).

Lemma with_outcome_aborted o ts :
  o ≠ ShareOutcomeAborted → with_outcome o ((λ t, MkEnd t ShareOutcomeAborted false) <$> ts) = [].
Proof.
  intros Ho. unfold with_outcome. induction ts as [|t ts IH]; [done|]. simpl. by rewrite filter_cons_False.
Qed.

Lemma obs_outcome o : o ≠ ShareOutcomeAborted →
  with_outcome o (Observe l held now tm).2 = with_outcome o (fs_ended (obs_filtered l held now tm)).
Proof.
  intros Ho. destruct (Observe_parts l held now tm) as (_ & -> & _). unfold with_outcome at 1.
  rewrite filter_app, fmap_app. fold (with_outcome o (fs_ended (obs_filtered l held now tm))).
  rewrite <- (app_nil_r (with_outcome o (fs_ended _))) at 2. f_equal. by apply with_outcome_aborted.
Qed.

(** Every release that counts is one the scan saw land. *)
Lemma freed_lands d :
  Forall (λ t, 0 ≤ DonorGPUs t) (transfers l) →
  freed_by d ≤ sumZ (lands d) (zip (transfers l) (releasable_of held (transfers l))).
Proof.
  intros Hg. unfold freed_by. rewrite obs_outcome by done.
  rewrite <- (fr_wrong _ _ _ _ _ (obs_filter_run l held now tm)).
  destruct (obs_release_run l held now tm) as (rs & Hr).
  destruct (Observe_parts l held now tm) as (_ & _ & ->).
  destruct (rr_released _ _ _ _ _ _ _ _ Hr) as (items & -> & Hs & _). rewrite drop_app_length, Hs.
  pose proof (rr_landed _ _ _ _ _ _ _ _ Hr) as HL.
  rewrite (sumZ_members _ (length (transfers l))); [|apply Hr|eapply Forall_impl; [exact HL|by intros i (? & _)]].
  etrans; [apply Z.add_le_mono_l, wrong_within; [done|]|].
  { apply Forall_forall. intros [i t] Hi%elem_of_indexed. simpl.
    pose proof (obs_released_idents l held now tm) as Hid.
    apply (f_equal (.!! i)) in Hid. rewrite !list_lookup_fmap, Hi in Hid. simpl in Hid.
    destruct (transfers l !! i) as [t0|] eqn:Et0; [|done]. injection Hid as Hid. apply list_elem_of_lookup_2 in Et0.
    rewrite Forall_forall in Hg. specialize (Hg t0 Et0). lia. }
  rewrite (sumZ_seq _ (imap _ _)), (sumZ_seq _ (zip _ _)), length_imap, length_zip_with, releasable_length, Nat.min_id.
  pose proof (rr_length _ _ _ _ _ _ _ _ Hr) as Hlen. simpl in Hlen. rewrite Hlen, <- sumZ_plus. apply sumZ_le.
  intros i Hi%elem_of_seq. destruct (lookup_lt_is_Some_2 (transfers l) i ltac:(lia)) as [t0 Ht0].
  destruct (rr_moved _ _ _ _ _ _ _ _ Hr i t0 Ht0) as (t1 & Ht1 & Hid & Hm). rewrite list_lookup_imap, Ht1. simpl.
  destruct (lookup_lt_is_Some_2 (releasable_of held (transfers l)) i) as [x Hx]; [rewrite releasable_length; lia|].
  rewrite (proj2 (lookup_zip_with_Some _ _ _ i (t0, x))) by (by exists t0, x). simpl.
  rewrite (from_at_lookup _ _ _ t0 Ht0). unfold lands. simpl.
  assert (Hfrom : from d t1 = from d t0) by (apply ident_eq in Hid as (_ & H1 & _ & _ & H2 & _); unfold from; by rewrite H1, H2).
  assert (Hpos : 0 ≤ from d t0).
  { apply from_nonneg. rewrite Forall_forall in Hg. exact (Hg t0 (list_elem_of_lookup_2 _ _ _ Ht0)). }
  unfold is_releasable, obs_scan, scan_of. simpl. rewrite Hx.
  replace (if bool_decide (x = Some true) && String.eqb (Donor t0) d then DonorGPUs t0 else 0)
    with (if bool_decide (x = Some true) then from d t0 else 0) by (unfold from; by destruct (bool_decide (x = Some true))).
  rewrite Forall_forall in HL. case_bool_decide as Hin.
  - destruct Hm as (Hst & _). unfold releasing. rewrite Hst. simpl.
    destruct (HL i Hin) as (_ & Hlands & _). unfold is_releasable in Hlands. apply bool_decide_eq_true in Hlands.
    simpl in Hlands. rewrite Hx in Hlands. injection Hlands as ->. rewrite bool_decide_true by done. lia.
  - rewrite Hfrom. case_bool_decide as E1; [|rewrite bool_decide_false by congruence; rewrite andb_false_r; lia].
    rewrite bool_decide_true by congruence. rewrite andb_true_r. destruct (releasing t1); lia.
Qed.

Lemma lands_unseen d : held !! d = None → sumZ (lands d) (zip (transfers l) (releasable_of held (transfers l))) = 0.
Proof.
  intros Hd. induction (transfers l) as [|t ts IH] using rev_ind; [done|].
  destruct (releasable_snoc held ts t) as (x & -> & Hx & _).
  rewrite zip_with_app by (by rewrite releasable_length). cbn [zip_with]. rewrite sumZ_snoc, IH. unfold lands. simpl.
  case_bool_decide as E; [|done]. subst x. destruct (Hx ltac:(done)) as (_ & _ & [h Hh]).
  destruct (String.eqb_spec (Donor t) d) as [<-|]; [congruence|done].
Qed.

(** A donor's transfers still releasing are measured from a base that has what was
    counted taken out. *)
Lemma releasing_after u :
  u ∈ transfers (Observe l held now tm).1 → releasing u = true →
  ∃ t, t ∈ transfers l ∧ releasing t = true ∧ ident u = ident t ∧
    donorBase u = donorBase t - (if Started t <? now then freed_by (Donor t) else 0).
Proof.
  intros Hu Hru. destruct (Observe_parts l held now tm) as (Ht & _). rewrite Ht in Hu.
  apply list_elem_of_filter in Hu as [_ Hu].
  destruct (obs_kept_from l held now tm u Hu) as (i & t1 & w & Hi & Hk & ->).
  destruct (kept_same l held now tm w) as (S1 & S2 & _). unfold releasing in Hru. rewrite S2 in Hru.
  destruct (obs_release_run l held now tm) as (rs & Hr).
  destruct (lookup_lt_is_Some_2 (transfers l) i) as [t0 Ht0].
  { pose proof (rr_length _ _ _ _ _ _ _ _ Hr) as HL. simpl in HL. rewrite <- HL. by eapply lookup_lt_Some. }
  destruct (rr_moved _ _ _ _ _ _ _ _ Hr i t0 Ht0) as (t1' & Ht1 & Hid & Hm). rewrite Hi in Ht1. injection Ht1 as <-.
  unfold kept_as in Hk. destruct (releasing t1) eqn:Er.
  2:{ apply releasing_false in Er. destruct (shown _ t1 && receiverBaseUnset t1);
        [subst w|destruct Hk as [-> _]]; simpl in Hru; by rewrite Er in Hru. }
  destruct Hk as (-> & _). pose proof Er as Er'. apply releasing_true in Er'. case_bool_decide; [destruct Hm; congruence|].
  destruct Hm as (Hst & _ & _ & Hb). exists t0. split; [by eapply list_elem_of_lookup_2|].
  assert (Hrel0 : releasing t0 = true) by (apply releasing_true; congruence).
  split; [done|]. split; [congruence|].
  destruct (rebase_all_spec now (fs_wrong (obs_filtered l held now tm)) t1) as (R1 & _ & _ & _ & R5).
  destruct (count_all_spec now (fs_filled (obs_filtered l held now tm)) (rebase_all now (fs_wrong (obs_filtered l held now tm)) t1)) as (_ & _ & _ & C4 & _).
  rewrite C4, R5, Hb, Er, Hrel0. simpl. unfold freed_by. rewrite obs_outcome by done.
  rewrite <- (fr_wrong _ _ _ _ _ (obs_filter_run l held now tm)).
  destruct (Observe_parts l held now tm) as (_ & _ & ->).
  destruct (rr_released _ _ _ _ _ _ _ _ Hr) as (items & -> & Hs & _). simpl. rewrite drop_app_length, Hs.
  apply ident_eq in Hid as (_ & -> & _ & _ & _ & _ & -> & _).
  change (transfers (set_filled l None)) with (transfers l). destruct (Started t0 <? now); lia.
Qed.

(** The GPUs an observation counts as received. *)
Definition received_by (r : string) : Z := sumZ (into r) (with_outcome ShareOutcomeDone (Observe l held now tm).2).

Lemma received_within r h B :
  r ≠ "" → default held (l_filled l) !! r = Some h → B ≤ h → Forall (λ t, 0 ≤ GPUs t) (transfers l) →
  (∀ t, t ∈ transfers l → judged r t = true → B ≤ receiverBase t) →
  received_by r ≤ h - B.
Proof.
  intros Hr Hh HBh Hg HB. unfold received_by. rewrite obs_outcome by done.
  rewrite <- (fr_filled _ _ _ _ _ (obs_filter_run l held now tm)).
  destruct (obs_release_run l held now tm) as (rs & Hrun).
  assert (Hback : ∀ i t1, transfers (obs_released l held now tm) !! i = Some t1 →
            ∃ t0, transfers l !! i = Some t0 ∧ moved (obs_rheld l held) now tm (transfers l) rs i t0 t1).
  { intros i t1 Ht1. destruct (lookup_lt_is_Some_2 (transfers l) i) as [t0 Ht0].
    { pose proof (rr_length _ _ _ _ _ _ _ _ Hrun) as HL. simpl in HL. rewrite <- HL. by eapply lookup_lt_Some. }
    destruct (rr_moved _ _ _ _ _ _ _ _ Hrun i t0 Ht0) as (t1' & Ht1' & Hm). rewrite Ht1 in Ht1'. injection Ht1' as <-. by exists t0. }
  replace (h - B) with (Z.max 0 (h - B)) by lia.
  apply (filled_within (obs_scan l held) (obs_rheld l held) now tm r h B); try done.
  - apply Forall_forall. intros [i t1] (t0 & Ht0 & Hid & _)%elem_of_indexed%Hback. simpl.
    apply ident_eq in Hid as (_ & _ & _ & -> & _). rewrite Forall_forall in Hg. exact (Hg t0 (list_elem_of_lookup_2 _ _ _ Ht0)).
  - intros [i t1] (t0 & Ht0 & Hid & Hm)%elem_of_indexed%Hback Hj. simpl in *. unfold judged in Hj.
    apply andb_true_iff in Hj as [[Hj1 Hj2]%andb_true_iff Hj3]. apply String.eqb_eq in Hj2.
    pose proof Hid as (_ & _ & HR & _)%ident_eq. case_bool_decide.
    + destruct Hm as (_ & _ & Hff). unfold fill_fields in Hff. injection Hff as -> _ _. unfold get0, obs_rheld.
      rewrite <- HR, Hj2, Hh. simpl. lia.
    + destruct Hm as (Hst & _ & Hff & _). unfold fill_fields in Hff. injection Hff as -> Hun _.
      apply (HB t0); [by eapply list_elem_of_lookup_2|]. unfold judged. rewrite <- HR, <- Hun, Hj2, String.eqb_refl, Hj3.
      unfold releasing in *. rewrite <- Hst, Hj1. done.
Qed.

Lemma received_unseen r : r ≠ "" → default held (l_filled l) !! r = None → received_by r = 0.
Proof.
  intros Hr Hn. unfold received_by. rewrite obs_outcome by done. rewrite <- (sumZ_zero (with_outcome ShareOutcomeDone
    (fs_ended (obs_filtered l held now tm)))). apply sumZ_ext.
  intros t (e & -> & [Ho He]%list_elem_of_filter)%list_elem_of_fmap. unfold into.
  destruct (String.eqb_spec (Receiver (e_Transfer e)) r) as [E|]; [exfalso|done].
  destruct (fr_end _ _ _ _ _ (obs_filter_run l held now tm) e He) as (i & _ & Hf). rewrite Ho in Hf.
  destruct Hf as (_ & Hs & _). unfold shown, obs_rheld in Hs. rewrite E, Hn in Hs.
  apply orb_true_iff in Hs as [Hs%bool_decide_eq_true|Hs%String.eqb_eq]; [by destruct Hs|congruence].
Qed.

(** A receiver's fills still under way are measured from a base that has what was
    counted put in, or from what it holds now. *)
Lemma filling_after u :
  u ∈ transfers (Observe l held now tm).1 → filling u = true → Receiver u ≠ "" → receiverBaseUnset u = false →
  (default held (l_filled l) !! Receiver u = Some (receiverBase u) ∧ fillingSince u = now) ∨
  ∃ t, t ∈ transfers l ∧ filling t = true ∧ ident u = ident t ∧ receiverBaseUnset t = false ∧
    fillingSince u = fillingSince t ∧
    receiverBase u = receiverBase t + (if fillingSince t <? now then received_by (Receiver t) else 0).
Proof.
  intros Hu Hfu Hrc Hun. destruct (Observe_parts l held now tm) as (Ht & _). rewrite Ht in Hu.
  apply list_elem_of_filter in Hu as [_ Hu].
  destruct (obs_kept_from l held now tm u Hu) as (i & t1 & w & Hi & Hk & Eu).
  destruct (kept_same l held now tm w) as (S1 & S2 & _ & S4 & S5). rewrite <- Eu in S1, S2, S4, S5.
  destruct (rebase_all_spec now (fs_wrong (obs_filtered l held now tm)) w) as (R1 & R2 & _ & R4 & _).
  destruct (count_all_spec now (fs_filled (obs_filtered l held now tm)) (rebase_all now (fs_wrong (obs_filtered l held now tm)) w))
    as (_ & _ & _ & _ & _ & _ & C7). rewrite <- Eu in C7.
  assert (Hbase : receiverBase u = receiverBase w + (if fillingSince w <? now then received_by (Receiver w) else 0)).
  { rewrite C7. unfold fill_fields in R4. injection R4 as -> _ ->. unfold filling. rewrite R2, <- S2.
    unfold filling in Hfu. rewrite Hfu. apply ident_eq in R1 as (_ & _ & -> & _). pose proof S1 as (_ & _ & HR & _)%ident_eq.
    rewrite (proj2 (String.eqb_neq (Receiver w) "")) by congruence. simpl. unfold received_by. rewrite obs_outcome by done.
    by rewrite <- (fr_filled _ _ _ _ _ (obs_filter_run l held now tm)). }
  destruct (obs_release_run l held now tm) as (rs & Hr).
  destruct (lookup_lt_is_Some_2 (transfers l) i) as [t0 Ht0].
  { pose proof (rr_length _ _ _ _ _ _ _ _ Hr) as HL. simpl in HL. rewrite <- HL. by eapply lookup_lt_Some. }
  destruct (rr_moved _ _ _ _ _ _ _ _ Hr i t0 Ht0) as (t1' & Ht1 & Hid & Hm). rewrite Hi in Ht1. injection Ht1 as <-.
  assert (Hft1 : releasing t1 = false).
  { unfold kept_as in Hk. destruct (releasing t1) eqn:E; [|done]. destruct Hk as (-> & _). apply releasing_true in E.
    apply bool_decide_eq_true in Hfu. congruence. }
  pose proof (kept_as_ident _ _ _ _ _ _ Hk) as Hidw. unfold kept_as in Hk. rewrite Hft1 in Hk. apply releasing_false in Hft1.
  pose proof S1 as (_ & _ & HR & _)%ident_eq. pose proof Hidw as (_ & _ & HRw & _)%ident_eq. pose proof Hid as (_ & _ & HRt & _)%ident_eq.
  destruct (shown (obs_rheld l held) t1 && receiverBaseUnset t1) eqn:Es.
  - left. subst w. simpl in *. rewrite Z.ltb_irrefl in Hbase. apply andb_true_iff in Es as [Es _]. unfold shown, obs_rheld in Es.
    apply orb_true_iff in Es as [[h Hh]%bool_decide_eq_true|Es%String.eqb_eq]; [|congruence].
    rewrite HR, Hh, Hbase. unfold get0, obs_rheld. rewrite Hh. split; [f_equal; simpl; lia|done].
  - destruct Hk as [-> _]. rewrite S4 in Hun. case_bool_decide.
    + left. destruct Hm as (_ & _ & Hff). unfold fill_fields in Hff. injection Hff as Hrb Hub Hfs.
      rewrite Hub in Hun. rewrite (proj2 (String.eqb_neq _ _)) in Hun by congruence. simpl in Hun. apply bool_decide_eq_false in Hun.
      destruct (obs_rheld l held !! Receiver t0) as [h|] eqn:Hh; [|done]. unfold obs_rheld in Hh.
      rewrite Hfs, Z.ltb_irrefl in Hbase. rewrite HR, HRt, Hh, Hbase, Hrb. unfold get0, obs_rheld. rewrite Hh. simpl. split; [f_equal; lia|congruence].
    + right. destruct Hm as (Hst & _ & Hff & _). unfold fill_fields in Hff. injection Hff as Hrb Hub Hfs.
      exists t0. split_and!; [by eapply list_elem_of_lookup_2|apply bool_decide_eq_true; congruence|congruence..|].
      by rewrite Hbase, Hrb, Hfs, HRt.
Qed.
End observe_counts.

(** *** A donor set, released *)

(** A receiver replica of sixteen GPUs, funded by a replica of eight of each of two donors. *)
Definition set_member (donor receiver : string) (gpus : Z) : ShareTransfer :=
  MkTransfer "" donor receiver "" "" [] false gpus 8 false false [] false false [] "pending" ShareReleasing 0 0 0 0 0
    false 0 0 false false.
Definition set_timings : ShareTimings := MkTimings 300 600 180 900 3600 0 0.
Definition set_start : ShareLedger :=
  let held := {["a" := 8; "b" := 8; "r" := 0]} : gmap string Z in
  let '(l, p) := Start (NewShareLedger "i") "x" (set_member "a" "r" 16) held 10 set_timings in
  let '(l, c) := Start l "y" (set_member "b" "" 0) held 10 set_timings in
  LinkSet l (ID p) [ID c].

Definition set_primary : ShareTransfer := default zero_transfer (transfers set_start !! 0%nat).
Definition set_contributor : ShareTransfer := default zero_transfer (transfers set_start !! 1%nat).

(** Both donors have shed their replica. *)
Definition set_observed : ShareLedger := (Observe set_start {["a" := 0; "b" := 0; "r" := 0]} 20 set_timings).1.

Lemma set_releases_together_witness :
  l_released set_observed = l_released set_start ++ l_released set_observed ∧
  ∃ f g, f ∈ l_released set_observed ∧ IsSetPrimary f = true ∧ g ∈ l_released set_observed ∧ ID g = ID set_contributor.
Proof.
  assert (Hi : l_released set_observed = l_released set_start ++ l_released set_observed) by (vm_compute; reflexivity).
  split; [exact Hi|].
  destruct (l_released set_observed) as [|f items] eqn:E; [exfalso; revert E; vm_compute; discriminate|].
  assert (Hf : f = default zero_transfer (l_released set_observed !! 0%nat)) by (by rewrite E).
  destruct (set_releases_together set_start {["a" := 0; "b" := 0; "r" := 0]} 20 set_timings (f :: items) f set_contributor)
    as (g & Hg & Hid & _).
  - change (l_released set_observed = l_released set_start ++ f :: items). by rewrite E.
  - apply elem_of_cons. by left.
  - rewrite Hf. vm_compute. reflexivity.
  - apply list_elem_of_lookup. exists 1%nat. vm_compute. reflexivity.
  - vm_compute. reflexivity.
  - rewrite Hf. vm_compute. reflexivity.
  - rewrite Hf. vm_compute. discriminate.
  - vm_compute. discriminate.
  - vm_compute. by eexists.
  - exists f, g. split; [apply elem_of_cons; by left|]. split; [rewrite Hf; vm_compute; reflexivity|]. split; [exact Hg|exact Hid].
Defined.

(** A contributor whose donor is not seen this cycle does not make its set wait: the
    primary is handed to the receiver while the contributor has released nothing. *)
Theorem unseen_contributor_does_not_wait :
  let l := (Observe set_start {["a" := 0; "r" := 0]} 20 set_timings).1 in
  (ID <$> l_released l) = [ID set_primary] ∧ GPUs set_primary = 16 ∧
  ((λ t, (ID t, t_State t)) <$> transfers l) = [(ID set_primary, ShareFilling); (ID set_contributor, ShareReleasing)].
Proof. vm_compute. split_and!; reflexivity. Qed.

Lemma ledger_drains_witness :
  transfers set_start ≠ [] ∧
  transfers (observe_cycle set_timings (observe_cycle set_timings (observe_cycle set_timings set_start
    (MkCycle ∅ ∅ None ∅ 610)) (MkCycle ∅ ∅ None {["a" := 8; "r" := 0]} 790)) (MkCycle ∅ ∅ None ∅ 790)) = [].
Proof.
  split; [vm_compute; discriminate|].
  apply (ledger_drains set_timings set_start); [|vm_compute; discriminate..].
  intros t Ht. apply list_elem_of_lookup in Ht as [[|[|i]] Hi]; revert Hi; vm_compute; intros [= <-]; vm_compute; discriminate.
Defined.
