(* ===== verification/LedgerTrace.v ===== *)
(** * The transfer ledger over many cycles

    A run of the ledger: cycles in which the engine reads what every role holds,
    and between them any of the ledger's operations.  Beside the ledger the run
    keeps what an observer of the cluster would: by how much each role's count has
    fallen and risen, and the transfers the ledger has counted as given up and as
    received.  The ledger never counts more than the observer saw. *)
From Stdlib Require Import ZArith Lia String.
From stdpp Require Import base gmap strings list sorting fin_maps.
From S2P Require Import Prelude GoFloat Ledger LedgerSafety.
Local Open Scope Z_scope.
Local Opaque Observe.

(** ** Runs *)

(** [w_last] and [w_flast] are the counts last seen of a role's held and filled GPUs. *)
Record world := MkWorld {
  w_l : ShareLedger; w_now : Z; w_held : gmap string Z; w_filled : gmap string Z;
  w_last : string → Z; w_fall : string → Z; w_flast : string → Z; w_rise : string → Z;
  w_freed : list ShareTransfer; w_received : list ShareTransfer }.

Definition world_start (inc : string) : world :=
  MkWorld (NewShareLedger inc) 0 ∅ ∅ (λ _, 0) (λ _, 0) (λ _, 0) (λ _, 0) [] [].

Inductive op :=
| OCycle (held filled : gmap string Z) (now : Z)
| OObserve
| OStart (hex : string) (t : ShareTransfer)
| OStartFill (hex receiver variant : string) (gpus : Z) (urgent : bool)
| ORestore (t : ShareTransfer)
| OLinkSet (primary : string) (contributors : list string)
| OCancel (id : string)
| OForget (id : string)
| ORedirect (id : string) (hold : Z)
| OPlannedRunning (running unknown : gset string)
| OConfirmStarted (id : string) (pods : list string)
| OTakeReleased
| OWakeHeld
| ORetain (present : list string)
| ORecordNeeds (ns : gmap string float64)
| OMarkFailed (donor : string)
| OHoldGiving (donor : string)
| OHoldFill (receiver : string) (until : Z)
| OHoldChanging (donor variant receiver reason : string)
| OFillBlocked (role reason : string) (until : Z)
| OConfirm (actionable : gmap string bool).

Section run.
Context (tm : ShareTimings).

(** The counts of a new cycle: a role not seen keeps its last one. *)
Definition last_seen (last : string → Z) (m : gmap string Z) (r : string) : Z := default (last r) (m !! r).

Definition on_ledger (w : world) (l : ShareLedger) : world :=
  MkWorld l (w_now w) (w_held w) (w_filled w) (w_last w) (w_fall w) (w_flast w) (w_rise w) (w_freed w) (w_received w).

Definition observe (w : world) : world :=
  let l := ReceiverFilled (w_l w) (Some (w_filled w)) in
  let r := Observe l (w_held w) (w_now w) tm in
  MkWorld r.1 (w_now w) (w_held w) (w_filled w) (w_last w) (w_fall w) (w_flast w) (w_rise w)
    (w_freed w ++ drop (length (l_released l)) (l_released r.1) ++ with_outcome ShareOutcomeWrongPod r.2)
    (w_received w ++ with_outcome ShareOutcomeDone r.2).

Definition new_cycle (w : world) (held filled : gmap string Z) (now : Z) : world :=
  MkWorld (w_l w) now held filled
    (last_seen (w_last w) held) (λ r, w_fall w r + Z.max 0 (w_last w r - last_seen (w_last w) held r))
    (last_seen (w_flast w) filled) (λ r, w_rise w r + Z.max 0 (last_seen (w_flast w) filled r - w_flast w r))
    (w_freed w) (w_received w).

Definition run_op (w : world) (o : op) : world :=
  let l := w_l w in
  let now := w_now w in
  match o with
  | OCycle held filled now => new_cycle w held filled now
  | OObserve => observe w
  | OStart hex t => on_ledger w (Start l hex t (w_held w) now tm).1
  | OStartFill hex r v gpus urgent => on_ledger w (StartFill l hex r v gpus urgent (w_held w) now tm).1
  | ORestore t => on_ledger w (Restore l t (get0 (w_held w) (Donor t)))
  | OLinkSet p cs => on_ledger w (LinkSet l p cs)
  | OCancel id => on_ledger w (Cancel l id now tm).1
  | OForget id => on_ledger w (Forget l id tm)
  | ORedirect id hold => on_ledger w (Redirect l id hold).1
  | OPlannedRunning running unknown => on_ledger w (PlannedRunning l running unknown)
  | OConfirmStarted id pods => on_ledger w (ConfirmStarted l id pods)
  | OTakeReleased => on_ledger w (TakeReleased l).1
  | OWakeHeld => on_ledger w (WakeHeld l now).1
  | ORetain present => on_ledger w (Retain l present now tm)
  | ORecordNeeds ns => on_ledger w (RecordNeeds l ns now tm)
  | OMarkFailed d => on_ledger w (MarkFailed l d now tm)
  | OHoldGiving d => on_ledger w (HoldGiving l d now tm)
  | OHoldFill r until => on_ledger w (HoldFill l r until)
  | OHoldChanging d v r reason => on_ledger w (HoldChanging l d v r reason now tm)
  | OFillBlocked r reason until => on_ledger w (FillBlocked l r reason until)
  | OConfirm a => on_ledger w (Confirm l a).1
  end.

Definition run (w : world) (os : list op) : world := foldl run_op w os.

(** What the engine keeps to: the clock goes on, counts are not negative, a role's
    filled GPUs are among those it holds, and a fill is started only for a role in
    the group. *)
Definition filled_of_held (h : Z) (f : option Z) : bool :=
  match f with Some f => (0 <=? f) && (f <=? h) | None => false end.

Definition op_ok (w : world) (o : op) : Prop :=
  match o with
  | OCycle held filled now =>
      w_now w < now ∧
      map_Forall (λ r h, filled_of_held h (filled !! r) = true) held ∧
      map_Forall (λ r _, is_Some (held !! r)) filled
  | OStart _ t => 0 ≤ GPUs t ∧ 0 ≤ DonorGPUs t
  | OStartFill _ r _ gpus _ => 0 ≤ gpus ∧ is_Some (w_held w !! r)
  | ORestore t => 0 ≤ GPUs t ∧ 0 ≤ DonorGPUs t ∧ Started t ≤ w_now w
  | _ => True
  end.

Fixpoint ops_ok (w : world) (os : list op) : Prop :=
  match os with [] => True | o :: os => op_ok w o ∧ ops_ok (run_op w o) os end.

(** ** The invariant *)
Definition freed (w : world) (d : string) : Z := sumZ (from d) (w_freed w).
Definition received (w : world) (r : string) : Z := sumZ (into r) (w_received w).

Record transfer_ok (w : world) (t : ShareTransfer) : Prop := {
  to_gpus : 0 ≤ GPUs t ∧ 0 ≤ DonorGPUs t;
  to_started : Started t ≤ w_now w;
  to_donor : releasing t = true → Donor t ≠ "" →
    donorBase t ≤ w_last w (Donor t) + w_fall w (Donor t) - freed w (Donor t) ∧
    (w_now w ≤ Started t → donorBase t ≤ w_last w (Donor t));
  to_receiver : filling t = true → Receiver t ≠ "" → receiverBaseUnset t = false →
    fillingSince t ≤ w_now w ∧
    w_flast w (Receiver t) ≤ receiverBase t + w_rise w (Receiver t) - received w (Receiver t) ∧
    (w_now w ≤ fillingSince t → w_flast w (Receiver t) ≤ receiverBase t) }.

Record world_ok (w : world) : Prop := {
  wo_transfers : ∀ t, t ∈ transfers (w_l w) → transfer_ok w t;
  wo_held : ∀ r h, w_held w !! r = Some h → w_last w r = h ∧ ∃ f, w_filled w !! r = Some f ∧ 0 ≤ f ≤ h;
  wo_filled : ∀ r f, w_filled w !! r = Some f → w_flast w r = f ∧ is_Some (w_held w !! r);
  wo_last : ∀ r, 0 ≤ w_last w r ∧ 0 ≤ w_flast w r;
  wo_freed : ∀ d, d ≠ "" → freed w d ≤ w_fall w d;
  wo_received : ∀ r, r ≠ "" → received w r ≤ w_rise w r }.

Lemma world_start_ok inc : world_ok (world_start inc).
Proof. by split; simpl; try (intros *; rewrite lookup_empty); try set_solver. Qed.

(** The fields the invariant reads; the operations that leave them alone keep it. *)
Definition core (t : ShareTransfer) :=
  (Donor t, Receiver t, GPUs t, DonorGPUs t, t_State t, Started t, donorBase t, receiverBase t, fillingSince t, receiverBaseUnset t).

Lemma transfer_ok_core w t u : core u = core t → transfer_ok w t → transfer_ok w u.
Proof.
  unfold core. intros E [H1 H2 H3 H4]. injection E as E1 E2 E3 E4 E5 E6 E7 E8 E9 E10. unfold releasing, filling in *.
  split; unfold releasing, filling; rewrite ?E1, ?E2, ?E3, ?E4, ?E5, ?E6, ?E7, ?E8, ?E9, ?E10; done.
Qed.

Lemma on_ledger_ok w l :
  world_ok w → (∀ t, t ∈ transfers l → transfer_ok w t) → world_ok (on_ledger w l).
Proof. intros [H1 H2 H3 H4 H5 H6] Hl. split; try done. intros t Ht. destruct (Hl t Ht). by split. Qed.

Lemma on_ledger_subset w l : world_ok w → transfers l ⊆ transfers (w_l w) → world_ok (on_ledger w l).
Proof. intros Hw Hs. apply on_ledger_ok; [done|]. intros t Ht. apply Hw. by apply Hs. Qed.

Lemma on_ledger_core w l :
  world_ok w → (∀ u, u ∈ transfers l → ∃ t, t ∈ transfers (w_l w) ∧ core u = core t) → world_ok (on_ledger w l).
Proof.
  intros Hw Hs. apply on_ledger_ok; [done|]. intros u Hu. destruct (Hs u Hu) as (t & Ht & E).
  eapply transfer_ok_core; [done|]. by apply Hw.
Qed.

(** What the operations do to the transfers. *)
Lemma recordMove_transfers l role b id now : transfers (recordMove l role b id now tm) = transfers l.
Proof. done. Qed.

Lemma unrecord_transfers l role id : transfers (unrecord l role id tm) = transfers l.
Proof. unfold unrecord. by case_match. Qed.

Lemma recordCancel_transfers l role b now : transfers (recordCancel l role b now tm) = transfers l.
Proof. unfold recordCancel. by case_match. Qed.

Lemma Start_transfers l hex t held now :
  transfers (Start l hex t held now tm).1 =
  transfers l ++ [started t (issue_id l "-t" hex) (get0 held (Donor t)) now tm].
Proof. unfold Start. by repeat case_match. Qed.

Lemma take_id_elem id ts t rest :
  take_id id ts = Some (t, rest) → ts ≡ₚ t :: rest ∧ ID t = id.
Proof.
  revert t rest. induction ts as [|u ts IH]; intros t rest; simpl; [done|].
  destruct (String.eqb_spec (ID u) id); [by intros [= -> ->]|].
  destruct (take_id id ts) as [[v r]|]; [|done]. intros [= -> <-]. destruct (IH _ _ eq_refl) as [-> ?].
  split; [by rewrite Permutation_swap|done].
Qed.

Lemma Forget_transfers l id : transfers (Forget l id tm) ⊆ transfers l.
Proof.
  unfold Forget. destruct (take_id id (transfers l)) as [[t rest]|] eqn:E; [|done].
  apply take_id_elem in E as [E _]. intros u Hu. rewrite E. apply elem_of_cons. right.
  revert Hu. case_match; by rewrite !unrecord_transfers.
Qed.

Lemma Cancel_transfers l id now : transfers (Cancel l id now tm).1 ⊆ transfers l.
Proof.
  unfold Cancel. destruct (Transfer l id) as [t|]; [|done]. case_match; [done|].
  intros u. repeat case_match; simpl; rewrite ?recordCancel_transfers; apply Forget_transfers.
Qed.

Lemma redirect_first_elem id ts prev ts' :
  redirect_first id ts = Some (prev, ts') →
  redirectable prev = true ∧ prev ∈ ts ∧ ∀ u, u ∈ ts' → u ∈ ts ∨ u = redirected prev.
Proof.
  revert prev ts'. induction ts as [|t ts IH]; intros prev ts'; simpl; [done|].
  destruct (String.eqb (ID t) id && redirectable t) eqn:E.
  - intros [= -> <-]. apply andb_true_iff in E as [_ E]. split; [done|]. split; [by left|].
    intros u [->|Hu]%elem_of_cons; [by right|left; by right].
  - destruct (redirect_first id ts) as [[v r]|]; [|done]. intros [= -> <-]. destruct (IH _ _ eq_refl) as (H1 & H2 & H3).
    split; [done|]. split; [by right|]. intros u [->|Hu]%elem_of_cons; [left; by left|].
    destruct (H3 u Hu); [left; by right|by right].
Qed.

Lemma RecordNeeds_transfers l ns now : transfers (RecordNeeds l ns now tm) = transfers l.
Proof.
  unfold RecordNeeds. generalize (map_to_list ns). intros es. revert l. induction es as [|[role n] es IH]; intros l; [done|].
  simpl. rewrite IH. by case_match.
Qed.

(** A release measured from what its donor holds now. *)
Lemma fresh_release_ok w u :
  world_ok w → t_State u = ShareReleasing → donorBase u = get0 (w_held w) (Donor u) →
  0 ≤ GPUs u → 0 ≤ DonorGPUs u → Started u ≤ w_now w → transfer_ok w u.
Proof.
  intros Hw Hst Hb Hg Hd Hs. split; [done|done| |by unfold filling; rewrite Hst].
  intros _ Hne. rewrite Hb. pose proof (wo_freed _ Hw (Donor u) Hne).
  assert (get0 (w_held w) (Donor u) ≤ w_last w (Donor u)); [|split; lia].
  unfold get0. destruct (w_held w !! Donor u) as [h|] eqn:E; simpl; [|apply (wo_last _ Hw)].
  destruct (wo_held _ Hw _ _ E) as [-> _]. lia.
Qed.

Lemma whole_gift_spec t :
  Donor (whole_gift t) = Donor t ∧ GPUs (whole_gift t) = GPUs t ∧ Started (whole_gift t) = Started t ∧
  DonorGPUs t ≤ DonorGPUs (whole_gift t).
Proof.
  unfold whole_gift. destruct (String.eqb (SetID t) ""); simpl; [|by split_and!].
  destruct (Z.ltb_spec (DonorGPUs t) (GPUs t)); simpl; split_and!; try done; lia.
Qed.

Lemma started_ok w t id :
  world_ok w → 0 ≤ GPUs t → 0 ≤ DonorGPUs t →
  transfer_ok w (started t id (get0 (w_held w) (Donor t)) (w_now w) tm).
Proof.
  intros Hw Hg Hd. destruct (whole_gift_spec (set_ID t id)) as (E1 & E2 & _ & E4).
  apply fresh_release_ok; [done|done|..]; unfold started; cbn [Donor donorBase GPUs DonorGPUs Started
    set_donorBase set_Deadline set_Started set_State].
  - by rewrite E1.
  - by rewrite E2.
  - etrans; [exact Hd|exact E4].
  - done.
Qed.

Lemma restored_ok w t :
  world_ok w → 0 ≤ GPUs t → 0 ≤ DonorGPUs t → Started t ≤ w_now w →
  transfer_ok w (set_donorBase (set_State (whole_gift t) ShareReleasing) (get0 (w_held w) (Donor t))).
Proof.
  intros Hw Hg Hd Hs. destruct (whole_gift_spec t) as (E1 & E2 & E3 & E4).
  apply fresh_release_ok; [done|done|..]; cbn [Donor donorBase GPUs DonorGPUs Started set_donorBase set_State].
  - by rewrite E1.
  - by rewrite E2.
  - etrans; [exact Hd|exact E4].
  - by rewrite E3.
Qed.

Lemma fill_started_ok w id r v gpus urgent :
  world_ok w → 0 ≤ gpus → is_Some (w_held w !! r) →
  transfer_ok w (fill_transfer id r v gpus urgent (get0 (w_held w) r) (w_now w) (w_now w + FillTimeout tm)).
Proof.
  intros Hw Hg [h Hh]. destruct (wo_held _ Hw _ _ Hh) as [_ (f & Hf & Hfh)]. destruct (wo_filled _ Hw _ _ Hf) as [Hfl _].
  split; simpl; [lia|lia|done|]. intros _ Hne _. unfold get0. rewrite Hh, Hfl. simpl.
  pose proof (wo_received _ Hw r Hne). split_and!; lia.
Qed.

Lemma filled_of_held_spec h f :
  filled_of_held h f = true ↔ ∃ x, f = Some x ∧ 0 ≤ x ≤ h.
Proof.
  destruct f as [x|]; simpl; [|naive_solver]. rewrite andb_true_iff, !Z.leb_le. naive_solver.
Qed.

Lemma new_cycle_ok w held filled now :
  world_ok w → op_ok w (OCycle held filled now) → world_ok (new_cycle w held filled now).
Proof.
  intros Hw (Hnow & Hh' & Hf). rewrite map_Forall_lookup in Hh', Hf.
  assert (Hh : ∀ r h, held !! r = Some h → 0 ≤ h ∧ ∃ f, filled !! r = Some f ∧ 0 ≤ f ≤ h).
  { intros r h E. apply Hh' in E as (f & ? & ?)%filled_of_held_spec. split; [lia|by exists f]. }
  destruct Hw as [H1 H2 H3 H4 H5 H6].
  assert (Hl : ∀ r, 0 ≤ last_seen (w_last w) held r).
  { intros r. unfold last_seen. destruct (held !! r) eqn:E; simpl; [apply (Hh _ _ E)|apply H4]. }
  assert (Hfl : ∀ r, 0 ≤ last_seen (w_flast w) filled r).
  { intros r. unfold last_seen. destruct (filled !! r) as [f|] eqn:E; simpl; [|apply H4].
    destruct (Hf _ _ E) as [h Eh]. destruct (Hh _ _ Eh) as (_ & f' & Ef & ?). rewrite E in Ef. injection Ef as ->. lia. }
  split; simpl.
  - intros t Ht. destruct (H1 t Ht) as [T1 T2 T3 T4]. split; simpl; [done|lia| |].
    + intros Hr Hne. destruct (T3 Hr Hne) as [T5 _]. unfold freed in *. simpl. split; [lia|]. intros; lia.
    + intros Hr Hne Hu. destruct (T4 Hr Hne Hu) as (T5 & T6 & _). unfold received in *. simpl. split_and!; [lia|lia|]. intros; lia.
  - intros r h E. unfold last_seen. rewrite E. split; [done|]. by apply Hh in E as [_ ?].
  - intros r f E. unfold last_seen. rewrite E. split; [done|]. by apply Hf in E.
  - done.
  - intros d Hd. specialize (H5 d Hd). unfold freed in *. simpl. lia.
  - intros r Hr. specialize (H6 r Hr). unfold received in *. simpl. lia.
Qed.

(** The transfers after an observation, by what they were before. *)
Lemma observed_from l held now u :
  u ∈ transfers (Observe l held now tm).1 → ∃ t, t ∈ transfers l ∧ ident u = ident t.
Proof.
  intros Hu. assert (Hin : ident u ∈ ident <$> transfers l).
  { rewrite <- (obs_idents l held now tm). apply elem_of_app. left. by apply list_elem_of_fmap_2. }
  apply list_elem_of_fmap in Hin as (t & ? & ?). by exists t.
Qed.

(** The ledger an observation reads. *)
Notation shown_ledger w := (ReceiverFilled (w_l w) (Some (w_filled w))).

Lemma observe_freed w d :
  freed (observe w) d = freed w d + freed_by (shown_ledger w) (w_held w) (w_now w) tm d.
Proof. unfold freed, observe, freed_by. cbn [w_freed]. rewrite !sumZ_app. lia. Qed.

Lemma observe_received w r :
  received (observe w) r = received w r + received_by (shown_ledger w) (w_held w) (w_now w) tm r.
Proof. unfold received, observe, received_by. cbn [w_received]. by rewrite sumZ_app. Qed.

Lemma freed_within w d :
  world_ok w → d ≠ "" → freed (observe w) d ≤ w_fall w d.
Proof.
  intros Hw Hd. rewrite observe_freed. pose proof (wo_freed _ Hw d Hd) as H5.
  assert (HG : Forall (λ t, 0 ≤ DonorGPUs t) (transfers (shown_ledger w))).
  { apply Forall_forall. intros t Ht. apply (to_gpus _ _ (wo_transfers _ Hw t Ht)). }
  pose proof (freed_lands (shown_ledger w) (w_held w) (w_now w) tm d HG) as HL.
  destruct (w_held w !! d) as [h|] eqn:E; [|rewrite lands_unseen in HL by done; lia].
  destruct (wo_held _ Hw _ _ E) as [Eh _].
  assert (HW : sumZ (lands d) (zip (transfers (shown_ledger w)) (releasable_of (w_held w) (transfers (shown_ledger w))))
     ≤ Z.max 0 (h + w_fall w d - freed w d - h)); [|lia].
  apply lands_within; [done|done|done|]. intros t Ht Hr <-.
  destruct (to_donor _ _ (wo_transfers _ Hw t Ht) Hr Hd) as [HB _]. lia.
Qed.

Lemma received_bounded w r :
  world_ok w → r ≠ "" → received (observe w) r ≤ w_rise w r.
Proof.
  intros Hw Hr. rewrite observe_received. pose proof (wo_received _ Hw r Hr) as H6.
  destruct (w_filled w !! r) as [f|] eqn:E; [|rewrite received_unseen by done; lia].
  destruct (wo_filled _ Hw _ _ E) as [Ef _].
  assert (received_by (shown_ledger w) (w_held w) (w_now w) tm r ≤ f - (f - (w_rise w r - received w r))); [|lia].
  apply received_within; [done|done|lia| |].
  { apply Forall_forall. intros t Ht. apply (to_gpus _ _ (wo_transfers _ Hw t Ht)). }
  intros t Ht Hj. unfold judged in Hj.
  apply andb_true_iff in Hj as [[Hj1%negb_true_iff Hj2%String.eqb_eq]%andb_true_iff Hj3%negb_true_iff].
  assert (Hfill : filling t = true) by (apply bool_decide_eq_true, releasing_false, Hj1).
  rewrite <- Hj2 in Hr. destruct (to_receiver _ _ (wo_transfers _ Hw t Ht) Hfill Hr Hj3) as (_ & HB & _). rewrite Hj2 in HB. lia.
Qed.

Lemma observe_transfer_ok w u :
  world_ok w → u ∈ transfers (Observe (shown_ledger w) (w_held w) (w_now w) tm).1 → transfer_ok (observe w) u.
Proof.
  intros Hw Hu. pose proof (wo_transfers _ Hw) as H1.
  destruct (observed_from _ _ _ _ Hu) as (t & Ht & Hid). pose proof (H1 t Ht) as [T1 T2 _ _].
  pose proof Hid as (_ & _ & HR & HGu & HDu & _ & HS & _)%ident_eq.
  split; cbn [observe w_now w_last w_fall w_flast w_rise].
  - by rewrite HGu, HDu.
  - by rewrite HS.
  - intros Hr Hne. pose proof (freed_within w (Donor u) Hw Hne) as Hfr. rewrite observe_freed in *.
    destruct (releasing_after _ _ _ _ u Hu Hr) as (t' & Ht' & Hr' & Hid' & ->).
    apply ident_eq in Hid' as (_ & ED & _ & _ & _ & _ & ES & _). rewrite ED, ES in *.
    destruct (to_donor _ _ (H1 t' Ht') Hr' Hne) as [T3 T4].
    destruct (Z.ltb_spec (Started t') (w_now w)); (split; [|intros]); try lia; specialize (T4 ltac:(lia)); lia.
  - intros Hf Hne Hun. pose proof (received_bounded w (Receiver u) Hw Hne) as Hrc. rewrite observe_received in *.
    destruct (filling_after _ _ _ _ u Hu Hf Hne Hun) as [[E1 E2]|(t' & Ht' & Hf' & Hid' & Hu' & E3 & E4)].
    + destruct (wo_filled _ Hw _ _ E1) as [-> _]. rewrite E2. split_and!; [lia|lia|intros; lia].
    + apply ident_eq in Hid' as (_ & _ & ER & _). rewrite ER, E3, E4 in *.
      destruct (to_receiver _ _ (H1 t' Ht') Hf' Hne Hu') as (T3 & T4 & T5).
      destruct (Z.ltb_spec (fillingSince t') (w_now w)); split_and!; (lia || intros; try lia);
        specialize (T5 ltac:(lia)); lia.
Qed.

Lemma observe_ok w : world_ok w → world_ok (observe w).
Proof.
  intros Hw. pose proof Hw as [H1 H2 H3 H4 H5 H6]. split; cbn [observe w_l w_held w_filled w_last w_flast w_fall w_rise].
  - intros u Hu. by apply observe_transfer_ok.
  - exact H2.
  - exact H3.
  - exact H4.
  - intros d Hd. by apply freed_within.
  - intros r Hr. by apply received_bounded.
Qed.

Lemma run_op_ok w o : world_ok w → op_ok w o → world_ok (run_op w o).
Proof.
  intros Hw Ho. pose proof (wo_transfers _ Hw) as HT. destruct o; cbn [run_op].
  - by apply new_cycle_ok.
  - by apply observe_ok.
  - apply on_ledger_ok; [done|]. rewrite Start_transfers.
    intros u [Hu| ->%list_elem_of_singleton]%elem_of_app; [by apply HT|by apply started_ok; destruct Ho].
  - apply on_ledger_ok; [done|]. intros u [Hu| ->%list_elem_of_singleton]%elem_of_app; [by apply HT|].
    by apply fill_started_ok; destruct Ho.
  - apply on_ledger_ok; [done|]. intros u [Hu| ->%list_elem_of_singleton]%elem_of_app; [by apply HT|].
    by apply restored_ok; destruct Ho as (? & ? & ?).
  - apply on_ledger_core; [done|]. intros u (v & -> & (t & -> & Ht)%list_elem_of_fmap)%list_elem_of_fmap. exists t. split; [done|].
    cbn beta. repeat case_match; reflexivity.
  - apply on_ledger_subset; [done|]. apply Cancel_transfers.
  - apply on_ledger_subset; [done|]. apply Forget_transfers.
  - unfold Redirect. destruct (redirect_first id (transfers (w_l w))) as [[prev ts]|] eqn:E; [|by apply on_ledger_subset].
    apply redirect_first_elem in E as (Hr & Hp & Hin). apply on_ledger_ok; [done|]. intros u Hu.
    destruct (Hin u Hu) as [Hu'| ->]; [by apply HT|]. destruct (HT prev Hp) as [T1 T2 T3 T4].
    split; [cbn; lia|done|exact T3|]. intros _ Hne. by destruct Hne.
  - apply on_ledger_core; [done|]. intros u (t & -> & Ht)%list_elem_of_fmap. by exists t.
  - apply on_ledger_core; [done|]. intros u (t & -> & Ht)%list_elem_of_fmap. exists t. split; [done|].
    cbn beta. case_match; reflexivity.
  - by apply on_ledger_subset.
  - by apply on_ledger_subset.
  - by apply on_ledger_subset.
  - apply on_ledger_subset; [done|]. by rewrite RecordNeeds_transfers.
  - apply on_ledger_subset; [done|]. unfold MarkFailed. by case_match.
  - apply on_ledger_subset; [done|]. unfold HoldGiving. by case_match.
  - by apply on_ledger_subset.
  - apply on_ledger_subset; [done|]. unfold HoldChanging. by case_match.
  - by apply on_ledger_subset.
  - by apply on_ledger_subset.
Qed.

Lemma run_ok w os : world_ok w → ops_ok w os → world_ok (run w os).
Proof.
  revert w. induction os as [|o os IH]; intros w Hw Hos; [done|]. destruct Hos as [Ho Hos].
  apply IH; [by apply run_op_ok|done].
Qed.
End run.

(** ** Properties *)

(** C9: no GPU is handed on twice, or before it is free: over any sequence of cycles
    and ledger operations, the GPUs of all the transfers counted as given up by a
    donor are at most what its own count has fallen by. *)
Theorem released_within_shed tm inc os d :
  ops_ok tm (world_start inc) os → d ≠ "" →
  freed (run tm (world_start inc) os) d ≤ w_fall (run tm (world_start inc) os) d.
Proof. intros Hos. apply wo_freed, run_ok; [apply world_start_ok|done]. Qed.

(** C13: nor is a replica that has landed counted for two fills: the GPUs of all the
    transfers that ended as done for a receiver are at most what its count of
    filled GPUs has risen by. *)
Theorem received_within_gained tm inc os r :
  ops_ok tm (world_start inc) os → r ≠ "" →
  received (run tm (world_start inc) os) r ≤ w_rise (run tm (world_start inc) os) r.
Proof. intros Hos. apply wo_received, run_ok; [apply world_start_ok|done]. Qed.

(** Two transfers of eight GPUs from one donor; one of them lands in the second
    cycle, the other in the third. *)
Definition demo_timings : ShareTimings := MkTimings 300 600 180 900 3600 0 0.
Definition demo_transfer : ShareTransfer :=
  MkTransfer "" "a" "b" "va" "vb" [] false 8 8 false false [] false false [] "" ShareReleasing 0 0 0 0 0 false 0 0 false false.
Definition demo_held (a b : Z) : gmap string Z := {["a" := a; "b" := b]}.
Definition demo_ops : list op :=
  [OCycle (demo_held 16 0) (demo_held 16 0) 10; OObserve; OStart "x" demo_transfer; OStart "y" demo_transfer;
   OCycle (demo_held 8 0) (demo_held 8 0) 20; OObserve; OTakeReleased;
   OCycle (demo_held 8 8) (demo_held 8 8) 30; OObserve;
   OCycle (demo_held 0 8) (demo_held 0 8) 40; OObserve].

Ltac run_decides := repeat split; try done; by apply (bool_decide_unpack _); vm_compute.

Lemma released_within_shed_witness :
  ops_ok demo_timings (world_start "i") demo_ops ∧
  freed (run demo_timings (world_start "i") demo_ops) "a" = 16 ∧
  freed (run demo_timings (world_start "i") demo_ops) "a" ≤ w_fall (run demo_timings (world_start "i") demo_ops) "a".
Proof.
  assert (Hok : ops_ok demo_timings (world_start "i") demo_ops) by run_decides.
  split; [exact Hok|]. split; [vm_compute; reflexivity|]. apply (released_within_shed demo_timings "i" demo_ops "a"); done.
Defined.

Lemma received_within_gained_witness :
  ops_ok demo_timings (world_start "i") demo_ops ∧
  received (run demo_timings (world_start "i") demo_ops) "b" = 8 ∧
  received (run demo_timings (world_start "i") demo_ops) "b" ≤ w_rise (run demo_timings (world_start "i") demo_ops) "b".
Proof.
  assert (Hok : ops_ok demo_timings (world_start "i") demo_ops) by run_decides.
  split; [exact Hok|]. split; [vm_compute; reflexivity|]. apply (received_within_gained demo_timings "i" demo_ops "b"); done.
Defined.
