(* ===== verification/LedgerHistory.v ===== *)
(** * What keeps a role from moving back and forth

    Proofs about the move history of the transfer ledger: the holds are always
    those of the moves on record, a role that has just given may not receive and
    one that has just received may not give for the whole reversal hold, whatever
    the ledger does meanwhile, and a transfer that is forgotten leaves the holds as
    they were before it started. *)
From Stdlib Require Import ZArith Lia String.
From stdpp Require Import base gmap strings list sorting fin_maps.
From S2P Require Import Prelude GoFloat Ledger LedgerSafety LedgerTrace.
Local Open Scope Z_scope.
Local Opaque Observe.

Definition moves_of (l : ShareLedger) (role : string) : list shareMove := default [] (moves l !! role).

(** The fields the history is made of. *)
Definition history (l : ShareLedger) := (moves l, lastGave l, lastGot l).

(** The holds are derived from the moves, which are in the order of their times. *)
Record history_ok (now : Z) (l : ShareLedger) : Prop := {
  ho_gave : ∀ role, lastGave l !! role = last_move false (moves_of l role);
  ho_got : ∀ role, lastGot l !! role = last_move true (moves_of l role);
  ho_sorted : ∀ role, StronglySorted (λ a b, m_at a ≤ m_at b) (moves_of l role);
  ho_past : ∀ role m, m ∈ moves_of l role → m_at m ≤ now }.

Lemma history_ok_same now l l' : history l' = history l → history_ok now l → history_ok now l'.
Proof.
  unfold history. intros E [H1 H2 H3 H4]. injection E as E1 E2 E3.
  split; unfold moves_of; rewrite ?E1, ?E2, ?E3; done.
Qed.

Lemma put_lookup {A} (m : gmap string A) k v k' : put m k v !! k' = if decide (k = k') then v else m !! k'.
Proof.
  unfold put. destruct v, (decide (k = k')) as [->|];
    by rewrite ?lookup_insert_eq, ?lookup_delete_eq, ?lookup_insert_ne, ?lookup_delete_ne.
Qed.

Lemma rederive_history l role tm r :
  moves (rederive l role tm) = moves l ∧
  lastGave (rederive l role tm) !! r = (if decide (role = r) then last_move false (moves_of l role) else lastGave l !! r) ∧
  lastGot (rederive l role tm) !! r = (if decide (role = r) then last_move true (moves_of l role) else lastGot l !! r).
Proof. split; [done|]. split; apply put_lookup. Qed.

Lemma moves_of_insert l role mv r :
  moves_of (set_moves l (<[role := mv]> (moves l))) r = if decide (role = r) then mv else moves_of l r.
Proof.
  unfold moves_of. simpl. destruct (decide (role = r)) as [->|]; [by rewrite lookup_insert_eq|by rewrite lookup_insert_ne].
Qed.

(** A role's moves replaced, and its holds derived again. *)
Lemma history_ok_replace now l role mv tm :
  history_ok now l → StronglySorted (λ a b, m_at a ≤ m_at b) mv → Forall (λ m, m_at m ≤ now) mv →
  history_ok now (rederive (set_moves l (<[role := mv]> (moves l))) role tm).
Proof.
  intros [H1 H2 H3 H4] Hs Hp. set (l' := set_moves l (<[role := mv]> (moves l))).
  assert (Hmv : ∀ r, moves_of (rederive l' role tm) r = if decide (role = r) then mv else moves_of l r).
  { intros r. apply moves_of_insert. }
  split; intros r; rewrite ?Hmv.
  - destruct (rederive_history l' role tm r) as (_ & -> & _). destruct (decide (role = r)); [|apply H1].
    unfold l'. by rewrite moves_of_insert, decide_True by done.
  - destruct (rederive_history l' role tm r) as (_ & _ & ->). destruct (decide (role = r)); [|apply H2].
    unfold l'. by rewrite moves_of_insert, decide_True by done.
  - destruct (decide (role = r)); [done|apply H3].
  - rewrite Forall_forall in Hp. destruct (decide (role = r)); [apply Hp|apply H4].
Qed.

Lemma sorted_filter {A} (R : A → A → Prop) (P : A → Prop) `{∀ a, Decision (P a)} l :
  StronglySorted R l → StronglySorted R (filter P l).
Proof.
  induction 1 as [|a l Hs IH Hall]; [constructor|]. destruct (decide (P a)).
  - rewrite filter_cons_True by done. constructor; [done|].
    rewrite Forall_forall in Hall |- *. intros b [_ Hb]%list_elem_of_filter. by apply Hall.
  - by rewrite filter_cons_False.
Qed.

Lemma sorted_snoc l m :
  StronglySorted (λ a b, m_at a ≤ m_at b) l → (∀ a, a ∈ l → m_at a ≤ m_at m) →
  StronglySorted (λ a b, m_at a ≤ m_at b) (l ++ [m]).
Proof.
  induction 1 as [|a l Hs IH Hall]; intros Hm; simpl; [repeat constructor|]. constructor.
  - apply IH. intros b Hb. apply Hm. by right.
  - apply Forall_app. split; [done|]. constructor; [|constructor]. apply Hm. by left.
Qed.

Lemma recordMove_ok now l role b id tm :
  history_ok now l → history_ok now (recordMove l role b id now tm).
Proof.
  intros Hl. pose proof Hl as [_ _ H3 H4]. apply history_ok_replace; [done| |].
  - apply sorted_snoc; [by apply sorted_filter, H3|]. intros a [_ Ha]%list_elem_of_filter. by apply (H4 role).
  - apply Forall_app. split; [|by constructor]. apply Forall_forall. intros a [_ Ha]%list_elem_of_filter. by apply (H4 role).
Qed.

Lemma unrecord_ok now l role id tm : history_ok now l → history_ok now (unrecord l role id tm).
Proof.
  intros Hl. unfold unrecord. destruct (moves l !! role) as [mv|] eqn:E; [|done]. pose proof Hl as [_ _ H3 H4].
  specialize (H3 role). specialize (H4 role). unfold moves_of in H3, H4. rewrite E in H3, H4.
  apply history_ok_replace; [done|by apply sorted_filter|].
  apply Forall_forall. intros a [_ Ha]%list_elem_of_filter. by apply H4.
Qed.

Lemma recordCancel_ok now l role b t tm : history_ok now l → history_ok now (recordCancel l role b t tm).
Proof.
  intros Hl. unfold recordCancel. case_match; [by apply (history_ok_same now l)|].
  pose proof Hl as [H1 H2 H3 H4]. set (l' := set_cancels l _).
  split; intros r; change (moves_of (rederive l' role tm) r) with (moves_of l r); try done.
  - destruct (rederive_history l' role tm r) as (_ & -> & _). case_decide; [by subst|apply H1].
  - destruct (rederive_history l' role tm r) as (_ & _ & ->). case_decide; [by subst|apply H2].
  - apply H4.
Qed.

Lemma Forget_ok now l id tm : history_ok now l → history_ok now (Forget l id tm).
Proof.
  intros Hl. unfold Forget. destruct (take_id id (transfers l)) as [[t rest]|]; [|done].
  assert (history_ok now (set_transfers l rest)) by (by apply (history_ok_same now l)).
  case_match; repeat apply unrecord_ok; done.
Qed.

Lemma Cancel_ok now l id tm : history_ok now l → history_ok now (Cancel l id now tm).1.
Proof.
  intros Hl. unfold Cancel. destruct (Transfer l id) as [t|]; [|done]. case_match; [done|].
  pose proof (Forget_ok now l (ID t) tm Hl). destruct (Entitled t); [done|].
  set (rc := if String.eqb (Receiver t) "" then _ else _). destruct (String.eqb rc ""); simpl; [by apply recordCancel_ok|].
  apply (history_ok_same now (recordCancel (recordCancel (Forget l (ID t) tm) (Donor t) false now tm) rc true now tm));
    [done|]. by repeat apply recordCancel_ok.
Qed.

Lemma Start_ok now l hex t held tm : history_ok now l → history_ok now (Start l hex t held now tm).1.
Proof.
  intros Hl. unfold Start. set (u := started _ _ _ _ _).
  assert (Ha : history_ok now (add_transfer (set_nextID l (nextID l + 1)) u)) by (by apply (history_ok_same now l)).
  destruct (Entitled u); [done|]. simpl. case_match; repeat apply recordMove_ok; done.
Qed.

Lemma drop_roles_lookup {A} gone (m : gmap string A) r :
  drop_roles gone m !! r = if decide (r ∈ gone) then None else m !! r.
Proof.
  unfold drop_roles. destruct (decide (r ∈ gone)) as [Hr|Hr].
  - apply map_lookup_filter_None. right. intros x _ Hx. done.
  - destruct (m !! r) as [x|] eqn:E; [by apply map_lookup_filter_Some|]. apply map_lookup_filter_None. by left.
Qed.

Definition retain_seen (l : ShareLedger) (present : list string) (now : Z) : gmap string Z :=
  foldl (see_transfer now) (foldl (see now) (l_seen l) present) (transfers l) ∪ gset_to_gmap now (recorded l).

Definition retain_gone (l : ShareLedger) (present : list string) (now : Z) (tm : ShareTimings) : gset string :=
  dom (filter (λ e : string * Z, absence_horizon tm < now - e.2) (retain_seen l present now)).

Lemma Retain_fields l present now tm :
  moves (Retain l present now tm) = drop_roles (retain_gone l present now tm) (moves l) ∧
  lastGave (Retain l present now tm) = drop_roles (retain_gone l present now tm) (lastGave l) ∧
  lastGot (Retain l present now tm) = drop_roles (retain_gone l present now tm) (lastGot l) ∧
  l_seen (Retain l present now tm) = drop_roles (retain_gone l present now tm) (retain_seen l present now).
Proof. done. Qed.

Lemma Retain_ok now l present tm : history_ok now l → history_ok now (Retain l present now tm).
Proof.
  intros [H1 H2 H3 H4]. destruct (Retain_fields l present now tm) as (E1 & E2 & E3 & _).
  assert (Hmv : ∀ r, moves_of (Retain l present now tm) r =
                if decide (r ∈ retain_gone l present now tm) then [] else moves_of l r).
  { intros r. unfold moves_of. rewrite E1, drop_roles_lookup. by case_decide. }
  split; intros r; rewrite ?Hmv, ?E2, ?E3, ?drop_roles_lookup; case_decide; try (apply SSorted_nil || apply H1 || apply H2 || apply H3 || apply H4 || done).
  intros m Hm. by apply elem_of_nil in Hm.
Qed.

Lemma RecordNeeds_history l ns now tm : history (RecordNeeds l ns now tm) = history l ∧ l_seen (RecordNeeds l ns now tm) = l_seen l.
Proof.
  unfold RecordNeeds. generalize (map_to_list ns). intros es. revert l. induction es as [|[role n] es IH]; intros l; [done|].
  simpl. destruct (IH (record_need now tm l (role, n))) as [E1 E2]. simpl in *. rewrite E1, E2. by case_match.
Qed.

(** ** Holds over a run *)
Section runs.
Context (tm : ShareTimings).

Lemma Redirect_history l id hold : history (Redirect l id hold).1 = history l ∧ l_seen (Redirect l id hold).1 = l_seen l.
Proof. unfold Redirect. by destruct (redirect_first id (transfers l)) as [[? ?]|]. Qed.

(** The operations that record or drop moves; the others leave the history alone. *)
Definition touches_history (o : op) : bool :=
  match o with OStart _ _ | OCancel _ | OForget _ | ORetain _ => true | _ => false end.

Lemma run_op_history w o :
  touches_history o = false →
  history (w_l (run_op tm w o)) = history (w_l w) ∧ l_seen (w_l (run_op tm w o)) = l_seen (w_l w).
Proof.
  intros Ho. destruct o; try done; cbn [run_op on_ledger w_l].
  - unfold history. cbn [observe w_l].
    destruct (Observe_history (ReceiverFilled (w_l w) (Some (w_filled w))) (w_held w) (w_now w) tm) as (-> & _ & -> & -> & ->). done.
  - apply Redirect_history.
  - apply RecordNeeds_history.
  - unfold MarkFailed. by case_match.
  - unfold HoldGiving. by case_match.
  - unfold HoldChanging. by case_match.
Qed.

Lemma history_ok_later now now' l : now ≤ now' → history_ok now l → history_ok now' l.
Proof. intros Hle [H1 H2 H3 H4]. split; try done. intros r m Hm%H4. lia. Qed.

Lemma run_op_now w o : op_ok w o → w_now w ≤ w_now (run_op tm w o).
Proof. destruct o; simpl; intros Ho; lia. Qed.

Lemma run_op_history_ok w o :
  op_ok w o → history_ok (w_now w) (w_l w) → history_ok (w_now (run_op tm w o)) (w_l (run_op tm w o)).
Proof.
  intros Ho Hh. destruct (touches_history o) eqn:E.
  - destruct o; try done; cbn [run_op on_ledger w_l w_now].
    + by apply Start_ok.
    + by apply Cancel_ok.
    + by apply Forget_ok.
    + by apply Retain_ok.
  - apply (history_ok_same _ (w_l w)); [by apply run_op_history|]. by eapply history_ok_later, Hh; apply run_op_now.
Qed.

Lemma run_now w os : ops_ok tm w os → w_now w ≤ w_now (run tm w os).
Proof.
  revert w. induction os as [|o os IH]; intros w Hos; [done|]. destruct Hos as [Ho Hos].
  etrans; [by apply run_op_now|]. by apply IH.
Qed.

Lemma run_history_ok w os :
  ops_ok tm w os → history_ok (w_now w) (w_l w) → history_ok (w_now (run tm w os)) (w_l (run tm w os)).
Proof.
  revert w. induction os as [|o os IH]; intros w Hos Hh; [done|]. destruct Hos as [Ho Hos].
  apply IH; [done|]. by apply run_op_history_ok.
Qed.

Lemma world_start_history inc : history_ok 0 (w_l (world_start inc)).
Proof. split; intros r; cbn; rewrite ?lookup_empty; try done; [apply SSorted_nil|]. by intros m Hm%elem_of_nil. Qed.

(** A move on record, of a role seen since. *)
Definition on_record (s : Z) (id role : string) (received : bool) (l : ShareLedger) : Prop :=
  (∃ m, m ∈ moves_of l role ∧ m_at m = s ∧ m_received m = received ∧ m_id m = id) ∧
  (∃ x, l_seen l !! role = Some x ∧ s ≤ x).

Lemma on_record_moves s id role b l l' :
  (∀ m, m ∈ moves_of l role → m_at m = s → m_id m = id → m ∈ moves_of l' role) → l_seen l' = l_seen l →
  on_record s id role b l → on_record s id role b l'.
Proof. intros Hm Hs [(m & ? & ? & ? & ?) (x & ? & ?)]. split; [exists m; auto|exists x; by rewrite Hs]. Qed.

Lemma recordMove_record s id role b l role' b' id' now :
  now - s < ReversalHold tm → on_record s id role b l → on_record s id role b (recordMove l role' b' id' now tm).
Proof.
  intros Hn. apply on_record_moves; [|done]. intros m Hm Hs _.
  change (moves_of (recordMove l role' b' id' now tm) role) with
    (moves_of (set_moves l (<[role' := filter (λ m, now - m_at m ≤ Z.max (ReversalHold tm) (2 ⊠ SwingWindow tm)) (default [] (moves l !! role')) ++ [MkMove now b' id']]> (moves l))) role).
  rewrite moves_of_insert. destruct (decide (role' = role)) as [->|]; [|done].
  apply elem_of_app. left. apply list_elem_of_filter. split; [lia|done].
Qed.

Lemma unrecord_record s id role b l role' id' :
  id' ≠ id → on_record s id role b l → on_record s id role b (unrecord l role' id' tm).
Proof.
  intros Hne. apply on_record_moves; [|by unfold unrecord; case_match]. intros m Hm _ Hid. unfold unrecord.
  destruct (moves l !! role') as [mv|] eqn:E; [|done].
  change (m ∈ moves_of (set_moves l (<[role' := filter (λ m, m_id m ≠ id') mv]> (moves l))) role).
  rewrite moves_of_insert. destruct (decide (role' = role)) as [->|]; [|done].
  unfold moves_of in Hm. rewrite E in Hm. apply list_elem_of_filter. split; [congruence|done].
Qed.

Lemma recordCancel_record s id role b l role' b' now :
  on_record s id role b l → on_record s id role b (recordCancel l role' b' now tm).
Proof. apply on_record_moves; unfold recordCancel; by case_match. Qed.

Lemma Forget_record s id role b l id' :
  id' ≠ id → on_record s id role b l → on_record s id role b (Forget l id' tm).
Proof.
  intros Hne Hr. unfold Forget. destruct (take_id id' (transfers l)) as [[t rest]|]; [|done].
  assert (on_record s id role b (set_transfers l rest)) by (revert Hr; by apply on_record_moves).
  case_match; repeat apply unrecord_record; done.
Qed.

Lemma Transfer_id l id t : Transfer l id = Some t → ID t = id.
Proof. intros [_ H]%find_some. by apply String.eqb_eq in H. Qed.

Lemma Cancel_record s id role b l id' now :
  id' ≠ id → on_record s id role b l → on_record s id role b (Cancel l id' now tm).1.
Proof.
  intros Hne Hr. unfold Cancel. destruct (Transfer l id') as [t|] eqn:Et; [|done]. apply Transfer_id in Et as <-.
  case_match; [done|]. pose proof (Forget_record s id role b l (ID t) Hne Hr). destruct (Entitled t); [done|].
  set (rc := if String.eqb (Receiver t) "" then _ else _). destruct (String.eqb rc ""); simpl; [by apply recordCancel_record|].
  apply (on_record_moves s id role b (recordCancel (recordCancel (Forget l (ID t) tm) (Donor t) false now tm) rc true now tm));
    [done|done|]. by repeat apply recordCancel_record.
Qed.

Lemma see_since s now role (m : gmap string Z) r :
  s ≤ now → (∃ x, m !! role = Some x ∧ s ≤ x) → ∃ x, see now m r !! role = Some x ∧ s ≤ x.
Proof.
  intros Hs (x & Hx & Hle). unfold see. destruct (decide (r = role)) as [->|].
  - exists now. by rewrite lookup_insert_eq.
  - exists x. by rewrite lookup_insert_ne.
Qed.

Lemma retain_seen_since s now l present role :
  s ≤ now → (∃ x, l_seen l !! role = Some x ∧ s ≤ x) → ∃ x, retain_seen l present now !! role = Some x ∧ s ≤ x.
Proof.
  intros Hs Hx. unfold retain_seen.
  assert (Hp : ∃ x, foldl (see now) (l_seen l) present !! role = Some x ∧ s ≤ x).
  { revert Hx. generalize (l_seen l). induction present as [|p ps IH]; intros m Hx; [done|]. by apply IH, see_since. }
  assert (Ht : ∃ x, foldl (see_transfer now) (foldl (see now) (l_seen l) present) (transfers l) !! role = Some x ∧ s ≤ x).
  { revert Hp. generalize (foldl (see now) (l_seen l) present). generalize (transfers l). intros ts.
    induction ts as [|t ts IH]; intros m Hm; [done|]. apply IH. unfold see_transfer. case_match; by repeat apply see_since. }
  destruct Ht as (x & Hl & Hle). exists x. split; [|done]. by apply lookup_union_Some_l.
Qed.

Lemma Retain_record s id role b l present now :
  s ≤ now → now - s < ReversalHold tm → on_record s id role b l → on_record s id role b (Retain l present now tm).
Proof.
  intros Hs Hn [(m & Hm & Hm') Hx]. destruct (Retain_fields l present now tm) as (E1 & _ & _ & E4).
  destruct (retain_seen_since s now l present role Hs Hx) as (x & Hl & Hle).
  assert (Hg : role ∉ retain_gone l present now tm).
  { unfold retain_gone. rewrite elem_of_dom. intros [y [Hy Hlt]%map_lookup_filter_Some]. rewrite Hl in Hy. injection Hy as <-. simpl in Hlt.
    unfold absence_horizon in Hlt. lia. }
  split; [|exists x; by rewrite E4, drop_roles_lookup, decide_False].
  exists m. split; [|done]. unfold moves_of. by rewrite E1, drop_roles_lookup, decide_False.
Qed.

Definition spares (id : string) (o : op) : Prop :=
  match o with OCancel id' | OForget id' => id' ≠ id | _ => True end.

Lemma run_op_record s id role b w o :
  s ≤ w_now w → w_now w - s < ReversalHold tm → spares id o →
  on_record s id role b (w_l w) → on_record s id role b (w_l (run_op tm w o)).
Proof.
  intros Hs Hn Ho Hr. destruct (touches_history o) eqn:E.
  - destruct o; try done; cbn [run_op on_ledger w_l].
    + unfold Start. set (u := started _ _ _ _ _).
      assert (on_record s id role b (add_transfer (set_nextID (w_l w) (nextID (w_l w) + 1)) u)) by (revert Hr; by apply on_record_moves).
      destruct (Entitled u); [done|]. simpl. case_match; repeat apply recordMove_record; done.
    + by apply Cancel_record.
    + by apply Forget_record.
    + by apply Retain_record.
  - destruct (run_op_history w o E) as [Eh Es]. unfold history in Eh. injection Eh as Em _ _.
    revert Hr. apply on_record_moves; [|done]. unfold moves_of. by rewrite Em.
Qed.

Lemma run_record s id role b w os :
  ops_ok tm w os → Forall (spares id) os → s ≤ w_now w → w_now (run tm w os) - s < ReversalHold tm →
  on_record s id role b (w_l w) → on_record s id role b (w_l (run tm w os)).
Proof.
  revert w. induction os as [|o os IH]; intros w Hos Hsp Hs Hn Hr; [done|].
  destruct Hos as [Ho Hos]. apply Forall_cons in Hsp as [Hsp1 Hsp2]. pose proof (run_op_now w o Ho).
  pose proof (run_now (run_op tm w o) os Hos). cbn [run foldl] in *. fold (run tm (run_op tm w o) os) in *.
  apply IH; [done|done|lia|done|]. apply run_op_record; [done|lia|done|done].
Qed.

Lemma last_move_since b mv m :
  StronglySorted (λ a b, m_at a ≤ m_at b) mv → m ∈ mv → m_received m = b →
  ∃ x, last_move b mv = Some x ∧ m_at m ≤ x.
Proof.
  intros Hs Hm Hb. induction mv as [|a mv IH] using rev_ind; [by apply elem_of_nil in Hm|].
  apply StronglySorted_app in Hs as (Hs1 & Hs2 & _). unfold last_move. rewrite foldl_app. simpl.
  fold (last_move b mv). destruct (Bool.eqb (m_received a) b) eqn:E.
  - exists (m_at a). split; [done|]. apply elem_of_app in Hm as [Hm| ->%list_elem_of_singleton]; [|done].
    apply Hs1; [done|set_solver].
  - apply elem_of_app in Hm as [Hm| ->%list_elem_of_singleton]; [by apply IH|]. subst b. by rewrite Bool.eqb_reflx in E.
Qed.

Lemma held_on_record now l s id role b :
  history_ok now l → on_record s id role b l →
  ∃ x, (if b then lastGot l else lastGave l) !! role = Some x ∧ s ≤ x.
Proof.
  intros [H1 H2 H3 _] [(m & Hm & <- & Hb & _) _]. destruct (last_move_since b _ m (H3 role) Hm Hb) as (x & Hx & Hle).
  exists x. split; [|done]. destruct b; [by rewrite H2|by rewrite H1].
Qed.

(** The start of a transfer that is not entitled puts both its moves on record. *)
Lemma recordMove_new l role b id now :
  (∃ x, l_seen l !! role = Some x ∧ now ≤ x) → on_record now id role b (recordMove l role b id now tm).
Proof.
  intros Hx. split; [|done]. exists (MkMove now b id). split; [|done].
  change (MkMove now b id ∈ moves_of (set_moves l (<[role := filter (λ m, now - m_at m ≤ Z.max (ReversalHold tm) (2 ⊠ SwingWindow tm)) (default [] (moves l !! role)) ++ [MkMove now b id]]> (moves l))) role).
  rewrite moves_of_insert, decide_True by done. apply elem_of_app. right. by apply list_elem_of_singleton.
Qed.

Lemma Start_record l hex t held now :
  0 < ReversalHold tm → Entitled t = false → Receiver t ≠ "" →
  (∃ x, l_seen l !! Donor t = Some x ∧ now ≤ x) → (∃ x, l_seen l !! Receiver t = Some x ∧ now ≤ x) →
  let '(l', t') := Start l hex t held now tm in
  on_record now (ID t') (Donor t) false l' ∧ on_record now (ID t') (Receiver t) true l'.
Proof.
  intros HRH He Hr Hd Hrc. unfold Start. set (u := started _ _ _ _ _).
  assert (Eu : Entitled u = Entitled t ∧ Donor u = Donor t ∧ Receiver u = Receiver t ∧ ID u = issue_id l "-t" hex).
  { unfold u, started, whole_gift. by case_match. }
  destruct Eu as (E1 & E2 & E3 & E4). rewrite E1, He, E2, E3, (proj2 (String.eqb_neq _ _) Hr). rewrite E4. split.
  - apply recordMove_record; [lia|]. by apply recordMove_new.
  - by apply recordMove_new.
Qed.
End runs.

(** ** Properties *)

(** C36: the reversal hold holds: once a transfer that is not entitled has started
    between two roles seen this cycle, its donor may not receive and its receiver may
    not give for the whole hold, whatever cycles pass and whatever the ledger is told
    meanwhile, unless that very transfer is called off. *)
Theorem reversal_hold_kept tm inc before hex t after :
  let w := run tm (world_start inc) before in
  let id := ID (Start (w_l w) hex t (w_held w) (w_now w) tm).2 in
  let w' := run tm w (OStart hex t :: after) in
  ops_ok tm (world_start inc) before → ops_ok tm w (OStart hex t :: after) → Forall (spares id) after →
  Entitled t = false → Receiver t ≠ "" →
  (∃ x, l_seen (w_l w) !! Donor t = Some x ∧ w_now w ≤ x) →
  (∃ x, l_seen (w_l w) !! Receiver t = Some x ∧ w_now w ≤ x) →
  w_now w' - w_now w < ReversalHold tm →
  ReceivingHeld (w_l w') (Donor t) (w_now w') tm = true ∧ GivingHeld (w_l w') (Receiver t) (w_now w') tm = true.
Proof.
  intros w id w' Hb [Ho Ha] Hsp He Hr Hd Hrc Hn.
  pose proof (run_now tm w (OStart hex t :: after) (conj Ho Ha)) as Hmono. fold w' in Hmono.
  assert (Hok : history_ok (w_now w') (w_l w')).
  { apply run_history_ok; [done|]. apply (run_history_ok tm (world_start inc)); [done|apply world_start_history]. }
  pose proof (Start_record tm (w_l w) hex t (w_held w) (w_now w) ltac:(lia) He Hr Hd Hrc) as Hrec.
  assert (Hrec' : on_record (w_now w) id (Donor t) false (w_l w') ∧ on_record (w_now w) id (Receiver t) true (w_l w')).
  { unfold id in *. destruct (Start (w_l w) hex t (w_held w) (w_now w) tm) as [l1 t1] eqn:E. simpl in Hsp.
    assert (El : w_l (run_op tm w (OStart hex t)) = l1) by (simpl; by rewrite E).
    change w' with (run tm (run_op tm w (OStart hex t)) after) in *.
    split; apply (run_record tm); try done; try (simpl; lia); rewrite El; apply Hrec. }
  destruct Hrec' as [R1 R2].
  destruct (held_on_record _ _ _ _ _ _ Hok R1) as (x & Hx & Hxs), (held_on_record _ _ _ _ _ _ Hok R2) as (y & Hy & Hys).
  unfold ReceivingHeld, GivingHeld. rewrite Hx, Hy, orb_true_iff, !Z.ltb_lt. split; [lia|right; lia].
Qed.

(** One transfer starts between two roles seen in the cycle; ten seconds later both
    are held. *)
Definition hold_before : list op :=
  [OCycle (demo_held 16 0) (demo_held 16 0) 10; OObserve; ORetain ["a"; "b"]].
Definition hold_after : list op :=
  [OCycle (demo_held 8 0) (demo_held 8 0) 20; OObserve; ORetain ["a"; "b"]].

Lemma reversal_hold_kept_witness :
  let w := run demo_timings (world_start "i") hold_before in
  let w' := run demo_timings w (OStart "x" demo_transfer :: hold_after) in
  ReceivingHeld (w_l w') "a" (w_now w') demo_timings = true ∧ GivingHeld (w_l w') "b" (w_now w') demo_timings = true.
Proof.
  apply (reversal_hold_kept demo_timings "i" hold_before "x" demo_transfer hold_after); try done.
  - run_decides.
  - run_decides.
  - by repeat constructor.
  - exists 10. by vm_compute.
  - exists 10. by vm_compute.
Defined.
