(* ===== verification/ShareHistory.v ===== *)
(** * ShareHistory: the timings of a group, and its need history across restarts

    [utilization_share_timing.go] derives the timings of a group's transfers;
    [utilization_share_ledger_history.go] writes the readings of the last swing
    window as one sustained level per bucket, and reads them back after a restart
    as two equal readings each.  Written and read back within the window, a role's
    peak is what it was, as long as the readings span no more buckets than are
    stored; a full window may span one more. *)
From Stdlib Require Import ZArith Lia String SpecFloat Reals Lra.
From stdpp Require Import base gmap strings list sorting.
From S2P Require Import Prelude GoFloat FloatBounds ShareTarget ShareInteger Ledger.
Open Scope Z_scope.

(** ** Timings *)
Definition Second : Z := 1000000000.
Definition Minute : Z := 60 * Second.

Definition hpaDefaultScaleDownWindow : Z := 300 * Second.
Definition kedaDefaultPolling : Z := 30 * Second.
Definition k8sDefaultTerminationGrace : Z := 30 * Second.
Definition hpaSyncPeriod : Z := 15 * Second.
Definition shareModelLoadEstimate : Z := 5 * Minute.
Definition shareMaxReplicaStart : Z := 30 * Minute.
Definition shareSchedulingAllowance : Z := Minute.

Record ShareTimingInputs := MkTimingInputs {
  in_Cycle : Z; in_ScaleDownWindow : option Z; in_PollingInterval : option Z; in_TerminationGrace : option Z;
  in_LWS : bool; in_ReplicaStart : Z }.

(** The slowest of the readings; the largest does not depend on the order of the map. *)
Definition ShareReplicaStart {C : IntConv} (startSeconds : gmap string float64) : Z :=
  let slowest := foldl (λ m s, if flt m s then s else m) f0 (map_to_list startSeconds).*2 in
  if negb (flt f0 slowest) then 0
  else if fle (of_int 1800) slowest then shareMaxReplicaStart
  else int_of (fmul slowest (of_int Second)).

(** A cluster fact, or the default the cluster applies, and where it came from. *)
Definition pick (v : option Z) (def : Z) (from : string) : Z * string :=
  match v with Some x => if 0 <=? x then (x, from) else (def, "default"%string) | None => (def, "default"%string) end.

Definition DeriveShareTimings {C : IntConv} (inp : ShareTimingInputs) (l : option ShareLedger)
  : ShareTimings * gmap string string :=
  let '(window, sw) := pick (in_ScaleDownWindow inp) hpaDefaultScaleDownWindow "scaledobject" in
  let '(polling, sp) := pick (in_PollingInterval inp) kedaDefaultPolling "scaledobject" in
  let '(grace, sg) := pick (in_TerminationGrace inp) k8sDefaultTerminationGrace "pod" in
  let bound := window ⊞ hpaSyncPeriod ⊞ polling ⊞ grace in
  let '(release, sr) :=
    match l with
    | Some l => let '(m, ok) := MeasuredRelease l in if ok then (m, "measured"%string) else (bound, "bound"%string)
    | None => (bound, "bound"%string)
    end in
  let scheduling := if in_LWS inp then shareSchedulingAllowance ⊠ 2 else shareSchedulingAllowance in
  let '(start, ss) := if 0 <? in_ReplicaStart inp then (Z.min (in_ReplicaStart inp) shareMaxReplicaStart, "measured"%string)
                      else (shareModelLoadEstimate, "default"%string) in
  let latency := release ⊞ start ⊞ (3 ⊠ in_Cycle inp) in
  (MkTimings window (Z.quot (bound ⊠ 3) 2 ⊞ (2 ⊠ in_Cycle inp))
     (polling ⊞ hpaSyncPeriod ⊞ (2 ⊠ in_Cycle inp) ⊞ scheduling) (2 ⊠ release) (8 ⊠ latency) 0 latency,
   list_to_map [("window", sw); ("polling", sp); ("grace", sg); ("release", sr); ("start", ss)]%string).

(** ** The stored history *)
Definition ShareHistoryMaxSamples : nat := 180.
Definition ShareHistoryMaxGap : Z := 10 * Minute.
Definition shareHistorySkew : Z := Minute.

Record ShareNeedSample := MkStored { st_At : Z; st_Need : float64 }.
Record ShareRoleNeedHistory := MkRoleHistory { rh_Since : Z; rh_Samples : list ShareNeedSample }.
Definition ShareNeedHistory : Type := gmap string ShareRoleNeedHistory.
Record ShareNeedRestore := MkRestore { res_Roles : Z; res_KnownNow : Z; res_KnownAt : Z }.

Definition shareHistoryBucket (window : Z) : Z :=
  let per := Z.quot (window ⊞ (Z.of_nat ShareHistoryMaxSamples - 1)) (Z.of_nat ShareHistoryMaxSamples) in
  if Minute <? per then per else Minute.

(** [Time.Truncate], from the zero time. *)
Definition Truncate (at_ d : Z) : Z := at_ - at_ mod d.

Definition shareNeedValid (need : float64) : bool := is_finite need && fle f0 need.

Definition history_step (now window bucket : Z) (samples : list ShareNeedSample) (p : shareNeedSample * shareNeedSample)
  : list ShareNeedSample :=
  let '(a, b) := p in
  if (window <? now - s_at a) || negb (shareNeedValid (s_need a)) || negb (shareNeedValid (s_need b)) then samples
  else
    let level := math_Min (s_need a) (s_need b) in
    match last samples with
    | Some x =>
        if Truncate (st_At x) bucket =? Truncate (s_at b) bucket
        then take (length samples - 1) samples ++ [MkStored (s_at b) (math_Max (st_Need x) level)]
        else samples ++ [MkStored (s_at b) level]
    | None => samples ++ [MkStored (s_at b) level]
    end.

Definition newest {A} (l : list A) : list A := drop (length l - ShareHistoryMaxSamples)%nat l.

Definition pairs_of (s : list shareNeedSample) : list (shareNeedSample * shareNeedSample) := zip s (tail s).

Definition role_history (now window : Z) (s : list shareNeedSample) : list ShareNeedSample :=
  newest (foldl (history_step now window (shareHistoryBucket window)) [] (pairs_of s)).

Definition NeedHistory (l : ShareLedger) (now : Z) (tm : ShareTimings) : ShareNeedHistory :=
  map_imap (λ role since, Some (MkRoleHistory since (role_history now (SwingWindow tm) (needs_of l role)))) (needsSince l).

(** ** Reading it back *)
Definition readable (now window : Z) (s : ShareNeedSample) : bool :=
  shareNeedValid (st_Need s) && negb (st_At s =? 0) && negb (window <? now - st_At s)
  && negb (shareHistorySkew <? st_At s - now).

Definition read_back (s : ShareNeedSample) : shareNeedSample :=
  MkSample (st_At s) (math_Min (st_Need s) (of_int MaxShareBudgetGPUs)).

Definition sooner (a b : shareNeedSample) : bool := s_at a <? s_at b.

(** The samples of a role that are read, oldest first. *)
Definition read_samples `{GoSort} (now window : Z) (rh : ShareRoleNeedHistory) : list shareNeedSample :=
  newest (sort_slice sooner (read_back <$> filter (λ s, readable now window s = true) (rh_Samples rh))).

(** Since when the samples cover the role's need. *)
Definition covered_since (bucket since oldest : Z) : Z :=
  if (since =? 0) || (oldest <? since) then oldest
  else if since <? Truncate oldest bucket - bucket then Truncate oldest bucket - bucket
  else since.

Definition restore_role `{GoSort} (now : Z) (tm : ShareTimings) (acc : ShareLedger * ShareNeedRestore)
    (e : string * ShareRoleNeedHistory) : ShareLedger * ShareNeedRestore :=
  let '(l, res) := acc in
  let '(role, rh) := e in
  let samples := read_samples now (SwingWindow tm) rh in
  match samples, last samples with
  | oldest :: _, Some latest =>
      let res := MkRestore (res_Roles res + 1) (res_KnownNow res) (res_KnownAt res) in
      let l := set_needs l (<[role := sort_stable (λ a b, s_at a <=? s_at b)
                                        (needs_of l role ++ (samples ≫= λ s, [s; s]))]> (needs l)) in
      let since := covered_since (shareHistoryBucket (SwingWindow tm)) (rh_Since rh) (s_at oldest) in
      if ShareHistoryMaxGap <? now - s_at latest then (l, res)
      else
        let cur := match needsSince l !! role with Some c => if since <? c then since else c | None => since end in
        let l := set_needsSince l (<[role := cur]> (needsSince l)) in
        let known := if PeakKnown l role now tm then res_KnownNow res + 1 else res_KnownNow res in
        let at_ := cur + SwingWindow tm in
        (l, MkRestore (res_Roles res) known
              (if (res_KnownAt res =? 0) || (at_ <? res_KnownAt res) then at_ else res_KnownAt res))
  | _, _ => (l, res)
  end.

(** Each role's history is its own, and the counts do not depend on the order. *)
Definition RestoreNeedHistory `{GoSort} (l : ShareLedger) (h : ShareNeedHistory) (now : Z) (tm : ShareTimings)
  : ShareLedger * ShareNeedRestore :=
  foldl (restore_role now tm) (l, MkRestore 0 0 0) (map_to_list h).

Definition ForgetNeedHistory (l : ShareLedger) : ShareLedger := set_needsSince (set_needs l ∅) ∅.

(** ** Maxima of non-negative readings *)
Lemma valid_nonneg x : shareNeedValid x = true → nonneg x.
Proof.
  unfold shareNeedValid. intros [Hf Hle]%andb_true_iff. split; [done|].
  unfold fle in Hle. destruct (fcompare_spec f0 x eq_refl Hf) as [[E H]|[[E H]|[E H]]]; rewrite E in Hle; simpl in H; try done; lra.
Qed.

Lemma max_nonneg a b : nonneg a → nonneg b → nonneg (math_Max a b) ∧ F2R (math_Max a b) = Rmax (F2R a) (F2R b).
Proof.
  intros Ha Hb. assert (E : F2R (math_Max a b) = Rmax (F2R a) (F2R b) ∧ is_finite (math_Max a b) = true).
  { destruct (nonneg_cases a Ha) as [[s ->]|(m & e & ->)], (nonneg_cases b Hb) as [[t ->]|(n & f & ->)].
    - split; [|by destruct s]. rewrite Rmax_left by (simpl; lra). by destruct s.
    - pose proof (F2R_sign false n f). split; [|by destruct s]. rewrite Rmax_right by (simpl in *; lra). by destruct s.
    - pose proof (F2R_sign false m e). split; [|done]. rewrite Rmax_left by (simpl in *; lra). done.
    - set (x := S754_finite false m e) in *. set (y := S754_finite false n f) in *.
      assert (Em : math_Max x y = if flt y x then x else y) by done. rewrite Em. unfold flt.
      destruct (fcompare_spec y x (proj1 Hb) (proj1 Ha)) as [[-> H]|[[-> H]|[-> H]]]; (split; [|done]).
      + by rewrite Rmax_left by lra.
      + by rewrite Rmax_right by lra.
      + by rewrite Rmax_right by lra. }
  destruct E as [E Hf], Ha as [_ Ha]. repeat split; [done| |done]. rewrite E. by apply Rmax_Rle; left.
Qed.

Lemma min_nonneg a b : nonneg a → nonneg b → nonneg (math_Min a b) ∧ F2R (math_Min a b) = Rmin (F2R a) (F2R b).
Proof.
  intros Ha Hb. assert (E : F2R (math_Min a b) = Rmin (F2R a) (F2R b) ∧ is_finite (math_Min a b) = true).
  { destruct (nonneg_cases a Ha) as [[s ->]|(m & e & ->)], (nonneg_cases b Hb) as [[t ->]|(n & f & ->)].
    - split; [|by destruct s]. rewrite Rmin_left by (simpl; lra). by destruct s.
    - pose proof (F2R_sign false n f). split; [|by destruct s]. rewrite Rmin_left by (simpl in *; lra). by destruct s.
    - pose proof (F2R_sign false m e). split; [|done]. rewrite Rmin_right by (simpl in *; lra). done.
    - set (x := S754_finite false m e) in *. set (y := S754_finite false n f) in *.
      assert (Em : math_Min x y = if flt x y then x else y) by done. rewrite Em. unfold flt.
      destruct (fcompare_spec x y (proj1 Ha) (proj1 Hb)) as [[-> H]|[[-> H]|[-> H]]]; (split; [|done]).
      + by rewrite Rmin_left by lra.
      + by rewrite Rmin_right by lra.
      + by rewrite Rmin_right by lra. }
  destruct E as [E Hf], Ha as [_ Ha], Hb as [_ Hb]. repeat split; [done| |done]. rewrite E. by apply Rmin_glb.
Qed.

(** The largest of some readings, as a real. *)
Definition peak (xs : list float64) : R := foldr (λ x m, Rmax (F2R x) m) 0%R xs.

Lemma peak_cons x xs : peak (x :: xs) = Rmax (F2R x) (peak xs).
Proof. done. Qed.

Lemma peak_nonneg xs : (0 <= peak xs)%R.
Proof. induction xs as [|x xs IH]; [simpl; lra|]. rewrite peak_cons. apply Rmax_Rle. by right. Qed.

Lemma peak_app xs ys : peak (xs ++ ys) = Rmax (peak xs) (peak ys).
Proof.
  induction xs as [|x xs IH]; [|simpl app; by rewrite !peak_cons, IH, Rmax_assoc].
  simpl. rewrite Rmax_right; [done|apply peak_nonneg].
Qed.

Lemma foldl_max xs x0 :
  nonneg x0 → Forall nonneg xs → nonneg (foldl math_Max x0 xs) ∧ F2R (foldl math_Max x0 xs) = Rmax (F2R x0) (peak xs).
Proof.
  intros H0 Hx. revert x0 H0. induction Hx as [|x xs Hx Hxs IH]; intros x0 H0; cbn [foldl].
  - split; [done|]. simpl. rewrite Rmax_left; [done|apply H0].
  - destruct (max_nonneg x0 x H0 Hx) as [N E]. destruct (IH _ N) as [N' E']. split; [done|].
    by rewrite E', E, peak_cons, Rmax_assoc.
Qed.

Lemma peak_fold xs : Forall nonneg xs → nonneg (foldl math_Max f0 xs) ∧ F2R (foldl math_Max f0 xs) = peak xs.
Proof.
  intros Hx. destruct (foldl_max xs f0) as [N E]; [split; [done|simpl; lra]|done|]. split; [done|].
  rewrite E. apply Rmax_right, peak_nonneg.
Qed.

Lemma nonneg_feq a b : nonneg a → nonneg b → F2R a = F2R b → feq a b = true.
Proof.
  intros [Fa _] [Fb _] E. apply feq_spec; [by destruct a|by destruct b|].
  split; [by destruct a as [|[]| |], b as [|[]| |]|done].
Qed.

(** ** What is stored *)
Definition level (p : shareNeedSample * shareNeedSample) : float64 := math_Min (s_need p.1) (s_need p.2).

Lemma sustained_levels s : (sustained s).*2 = level <$> pairs_of s.
Proof.
  unfold pairs_of. destruct s as [|x s]; [done|]. simpl. revert x. induction s as [|y s IH]; intros x; [done|].
  simpl. f_equal. apply IH.
Qed.

(** A pair of readings in the window, both usable. *)
Definition accepted (now window : Z) (p : shareNeedSample * shareNeedSample) : Prop :=
  now - s_at p.1 ≤ window ∧ shareNeedValid (s_need p.1) = true ∧ shareNeedValid (s_need p.2) = true.

Lemma accepted_level now window p : accepted now window p → nonneg (level p).
Proof. intros (_ & H1 & H2). apply min_nonneg; by apply valid_nonneg. Qed.

Lemma truncate_eq a b d : 0 < d → (Truncate a d =? Truncate b d) = (a / d =? b / d).
Proof.
  intros Hd. unfold Truncate. pose proof (Z.div_mod a d ltac:(lia)). pose proof (Z.div_mod b d ltac:(lia)).
  destruct (Z.eqb_spec (a / d) (b / d)) as [E|E]; [apply Z.eqb_eq|apply Z.eqb_neq]; nia.
Qed.

(** The stored levels: usable, with the same peak as the pairs, one per bucket,
    oldest first, each stamped with a reading. *)
Record stored_ok (bucket : Z) (ps : list (shareNeedSample * shareNeedSample)) (out : list ShareNeedSample) : Prop := {
  so_some : ps ≠ [] → out ≠ [];
  so_nonneg : Forall (λ x, nonneg (st_Need x)) out;
  so_peak : peak (st_Need <$> out) = peak (level <$> ps);
  so_sorted : StronglySorted (λ x y, st_At x / bucket < st_At y / bucket) out;
  so_at x : x ∈ out → ∃ p, p ∈ ps ∧ st_At x = s_at p.2 }.

Lemma last_snoc_inv {A} (l : list A) x : last l = Some x → ∃ init, l = init ++ [x].
Proof. destruct l as [|a l _] using rev_ind; [done|]. rewrite last_snoc. intros [= ->]. eauto. Qed.

Lemma history_stored now window bucket ps :
  0 < bucket → Forall (accepted now window) ps → StronglySorted (λ p q, s_at p.2 ≤ s_at q.2) ps →
  stored_ok bucket ps (foldl (history_step now window bucket) [] ps).
Proof.
  intros Hb. induction ps as [|[a b] ps IH] using rev_ind; intros Ha Hs; [split; simpl; [done|constructor|done|constructor|set_solver]|].
  apply Forall_app in Ha as [Ha [Hab _]%Forall_cons]. apply StronglySorted_app in Hs as (Hle & Hs & _).
  destruct (IH Ha Hs) as [_ N P S A]. rewrite foldl_app. cbn [foldl]. set (out := foldl _ [] ps) in *. clearbody out.
  pose proof (accepted_level _ _ _ Hab) as Hlv. pose proof Hab as (H1 & H2 & H3). simpl in H1, H2, H3.
  unfold history_step. rewrite H2, H3, (proj2 (Z.ltb_ge _ _) H1). cbn [negb orb].
  change (math_Min (s_need a) (s_need b)) with (level (a, b)).
  assert (Hpk : peak (level <$> ps ++ [(a, b)]) = Rmax (peak (level <$> ps)) (F2R (level (a, b)))).
  { rewrite fmap_app, peak_app. cbn [fmap list_fmap]. rewrite peak_cons. f_equal. apply Rmax_left. apply Hlv. }
  assert (Hin : (a, b) ∈ ps ++ [(a, b)]) by set_solver.
  assert (Hat : ∀ x, x ∈ out → st_At x / bucket ≤ s_at b / bucket).
  { intros x (p & Hp & ->)%A. apply Z.div_le_mono; [done|]. apply (Hle p (a, b)); set_solver. }
  assert (Hkeep : ∀ x, x ∈ out → ∃ p, p ∈ ps ++ [(a, b)] ∧ st_At x = s_at p.2) by (intros x (p & Hp & E)%A; exists p; set_solver).
  assert (Happ : (∀ x, x ∈ out → st_At x / bucket < s_at b / bucket) →
                 stored_ok bucket (ps ++ [(a, b)]) (out ++ [MkStored (s_at b) (level (a, b))])).
  { intros Hlt. split.
    - intros _ E. by apply app_nil in E as [_ ?].
    - apply Forall_app. by split; [|constructor; [|constructor]].
    - rewrite fmap_app, peak_app, P, Hpk. cbn [fmap list_fmap st_Need]. rewrite peak_cons. f_equal. apply Rmax_left, Hlv.
    - apply StronglySorted_app. split_and!; [|done|repeat constructor]. intros x y Hx ->%list_elem_of_singleton. by apply Hlt.
    - intros x [Hx| ->%list_elem_of_singleton]%elem_of_app; [by apply Hkeep|]. by exists (a, b). }
  destruct (last out) as [x|] eqn:El; [|apply last_None in El; subst; apply Happ; set_solver].
  apply last_snoc_inv in El as [init ->]. rewrite truncate_eq by done.
  apply StronglySorted_app in S as (Slt & S0 & _). destruct (Z.eqb_spec (st_At x / bucket) (s_at b / bucket)) as [E|E].
  - rewrite length_app, Nat.add_sub, take_app_length. apply Forall_app in N as [N [Nx _]%Forall_cons].
    destruct (max_nonneg (st_Need x) (level (a, b)) Nx Hlv) as [Mn Me]. split.
    + intros _ E'. by apply app_nil in E' as [_ ?].
    + apply Forall_app. by split; [|constructor; [|constructor]].
    + rewrite Hpk, <- P, !fmap_app, !peak_app. cbn [fmap list_fmap st_Need]. rewrite !peak_cons, Me.
      rewrite (Rmax_left (F2R (st_Need x)) (peak [])) by apply Nx.
      rewrite (Rmax_left _ (peak [])) by (simpl; apply Rmax_Rle; left; apply Nx). by rewrite Rmax_assoc.
    + apply StronglySorted_app. split_and!; [|done|repeat constructor]. intros y w Hy ->%list_elem_of_singleton. simpl.
      rewrite <- E. apply (Slt y x); [done|set_solver].
    + intros y [Hy| ->%list_elem_of_singleton]%elem_of_app; [apply Hkeep; set_solver|]. by exists (a, b).
  - apply Happ. intros y Hy. assert (st_At x / bucket ≤ s_at b / bucket) by (apply Hat; set_solver).
    apply elem_of_app in Hy as [Hy| ->%list_elem_of_singleton]; [|lia].
    specialize (Slt y x Hy ltac:(set_solver)). lia.
Qed.

(** Distinct buckets of a range are at most its length. *)
Lemma strict_range_length {A} (f : A → Z) l lo hi :
  StronglySorted (λ x y, f x < f y) l → (∀ x, x ∈ l → lo ≤ f x ≤ hi) → Z.of_nat (length l) ≤ Z.max 0 (hi - lo + 1).
Proof.
  intros Hs. revert lo. induction Hs as [|x l Hs IH Hall]; intros lo Hr; [simpl; lia|].
  assert (Hx : lo ≤ f x ≤ hi) by (apply Hr; left). rewrite Forall_forall in Hall.
  specialize (IH (f x + 1)). cbn [length]. rewrite Nat2Z.inj_succ.
  assert (Z.of_nat (length l) ≤ Z.max 0 (hi - (f x + 1) + 1)); [|lia].
  apply IH. intros y Hy. specialize (Hall y Hy). specialize (Hr y ltac:(by right)). lia.
Qed.

(** ** What is read back *)
Definition doubled (xs : list shareNeedSample) : list shareNeedSample := xs ≫= λ s, [s; s].

Lemma newest_short {A} (l : list A) : (length l <= ShareHistoryMaxSamples)%nat → newest l = l.
Proof. intros H. unfold newest. by replace (length l - ShareHistoryMaxSamples)%nat with O by lia. Qed.

(** Each level stands by itself: the peak of the doubled readings is their largest. *)
Lemma doubled_peak xs :
  Forall (λ s, nonneg (s_need s)) xs →
  Forall nonneg (level <$> pairs_of (doubled xs)) ∧ peak (level <$> pairs_of (doubled xs)) = peak (s_need <$> xs).
Proof.
  assert (Hself : ∀ x, nonneg (s_need x) → nonneg (level (x, x)) ∧ F2R (level (x, x)) = F2R (s_need x)).
  { intros x Hx. destruct (min_nonneg _ _ Hx Hx) as [N E]. split; [done|]. unfold level. simpl. by rewrite E, Rmin_left by lra. }
  induction 1 as [|x xs Hx Hxs IH]; [split; [constructor|done]|]. destruct (Hself x Hx) as [N1 E1].
  destruct Hxs as [|y xs Hy Hxs].
  { change (level <$> pairs_of (doubled [x])) with [level (x, x)]. split; [by apply Forall_singleton|].
    cbn [fmap list_fmap]. by rewrite !peak_cons, E1. }
  destruct IH as [IN IE].
  change (level <$> pairs_of (doubled (x :: y :: xs))) with (level (x, x) :: level (x, y) :: (level <$> pairs_of (doubled (y :: xs)))).
  destruct (min_nonneg _ _ Hx Hy) as [N2 E2]. split; [by apply Forall_cons; split; [|apply Forall_cons; split]|].
  rewrite !peak_cons, IE, E1. cbn [fmap list_fmap]. rewrite !peak_cons. f_equal. change (F2R (level (x, y))) with (F2R (math_Min (s_need x) (s_need y))).
  rewrite E2. apply Rmax_right. apply Rle_trans with (F2R (s_need y)); [apply Rmin_r|apply Rmax_l].
Qed.

Lemma doubled_sorted xs : StronglySorted (λ a b, s_at a ≤ s_at b) xs → StronglySorted (λ a b, (s_at a <=? s_at b) = true) (doubled xs).
Proof.
  induction 1 as [|x xs _ IH Hall]; [constructor|]. cbn [doubled mbind list_bind app].
  assert (Hx : Forall (λ b, (s_at x <=? s_at b) = true) (doubled xs)).
  { apply Forall_forall. intros b Hb. apply list_elem_of_bind in Hb as (y & Hb & Hy). rewrite Forall_forall in Hall.
    specialize (Hall y Hy). apply Z.leb_le. assert (b = y) as -> by set_solver. done. }
  constructor; [by constructor|]. constructor; [apply Z.leb_le; lia|done].
Qed.

Lemma sort_slice_strict `{GoSort} xs : StronglySorted (λ a b, s_at a < s_at b) xs → sort_slice sooner xs = xs.
Proof.
  intros Hs. assert (Hw : StronglySorted (λ a b, s_at a ≤ s_at b) xs) by (eapply StronglySorted_weaken; [|exact Hs]; simpl; lia).
  apply (sorted_by_key_unique s_at); [|done| |apply sort_slice_perm].
  - clear Hw. induction Hs as [|x xs _ IH Hall]; [constructor|]. cbn [fmap list_fmap]. constructor; [|done].
    intros (y & E & Hy)%list_elem_of_fmap. rewrite Forall_forall in Hall. specialize (Hall y Hy). lia.
  - eapply StronglySorted_weaken; [|apply sort_slice_sorted].
    + intros a b Hab%Z.ltb_ge. done.
    + unfold sooner. intros a b _ _ Hab%Z.ltb_lt. apply Z.ltb_ge. lia.
    + unfold sooner. intros a b c _ _ _ H1%Z.ltb_ge H2%Z.ltb_ge. apply Z.ltb_ge. lia.
Qed.

(** The readings of a role after a restore into a ledger with none for it. *)
Lemma restore_role_needs `{GoSort} now tm l res role rh x xs :
  read_samples now (SwingWindow tm) rh = x :: xs → needs_of l role = [] → StronglySorted (λ a b, s_at a ≤ s_at b) (x :: xs) →
  needs_of (restore_role now tm (l, res) (role, rh)).1 role = doubled (x :: xs).
Proof.
  intros E Hl Hs. unfold restore_role. rewrite E. destruct (last (x :: xs)) as [y|] eqn:El; [|by apply last_None in El].
  rewrite Hl. change ([] ++ _) with (doubled (x :: xs)). rewrite (sort_stable_id _ _ (doubled_sorted _ Hs)).
  assert (Hn : ∀ l', needs l' = <[role := doubled (x :: xs)]> (needs l) → needs_of l' role = doubled (x :: xs))
    by (intros l' El'; unfold needs_of; by rewrite El', lookup_insert_eq).
  destruct (_ <? _); by apply Hn.
Qed.

Lemma restore_role_other `{GoSort} now tm l res role role' rh :
  role ≠ role' → needs_of (restore_role now tm (l, res) (role, rh)).1 role' = needs_of l role'.
Proof.
  intros Hne. unfold restore_role. destruct (read_samples _ _ _) as [|x xs]; [done|].
  destruct (last (x :: xs)) as [y|] eqn:El; [|done].
  assert (Hn : ∀ l' v, needs l' = <[role := v]> (needs l) → needs_of l' role' = needs_of l role')
    by (intros l' v El'; unfold needs_of; by rewrite El', lookup_insert_ne).
  destruct (_ <? _); by eapply Hn.
Qed.

Lemma restore_out `{GoSort} now tm es acc role :
  role ∉ es.*1 → needs_of (foldl (restore_role now tm) acc es).1 role = needs_of acc.1 role.
Proof.
  revert acc. induction es as [|[r rr] es IH]; intros [l res] Hr; [done|]. cbn [foldl]. rewrite IH by set_solver.
  apply restore_role_other. set_solver.
Qed.

Lemma restore_in `{GoSort} now tm es l res role rh x xs :
  NoDup es.*1 → (role, rh) ∈ es → needs_of l role = [] →
  read_samples now (SwingWindow tm) rh = x :: xs → StronglySorted (λ a b, s_at a ≤ s_at b) (x :: xs) →
  needs_of (foldl (restore_role now tm) (l, res) es).1 role = doubled (x :: xs).
Proof.
  intros Hn Hin Hl E Hs. revert l res Hl Hn Hin. induction es as [|[r rr] es IH]; intros l res Hl Hn Hin; [by apply elem_of_nil in Hin|].
  cbn [foldl]. cbn [fmap list_fmap] in Hn. apply NoDup_cons in Hn as [Hr Hn]. apply elem_of_cons in Hin as [[= <- <-]|Hin].
  - rewrite restore_out by done. by apply restore_role_needs.
  - assert (r ≠ role) by (intros ->; apply Hr, list_elem_of_fmap; by exists (role, rh)).
    pose proof (restore_role_other now tm l res r role rr ltac:(done)) as Ho.
    destruct (restore_role now tm (l, res) (r, rr)) as [l' res']. simpl in Ho. apply IH; [by rewrite Ho|done|done].
Qed.

Lemma restore_needs `{GoSort} now tm h role rh x xs inc :
  h !! role = Some rh → read_samples now (SwingWindow tm) rh = x :: xs → StronglySorted (λ a b, s_at a ≤ s_at b) (x :: xs) →
  needs_of (RestoreNeedHistory (NewShareLedger inc) h now tm).1 role = doubled (x :: xs).
Proof.
  intros Hh E Hs. unfold RestoreNeedHistory. apply (restore_in _ _ _ _ _ _ rh); [apply NoDup_fst_map_to_list| | |done|done].
  - by apply elem_of_map_to_list.
  - unfold needs_of. simpl. by rewrite lookup_empty.
Qed.

(** ** Properties *)
Lemma StronglySorted_fmap_inv {A B} (f : A → B) (R : B → B → Prop) (l : list A) :
  StronglySorted R (f <$> l) → StronglySorted (λ a b, R (f a) (f b)) l.
Proof.
  induction l as [|a l IH]; intros Hs; [constructor|]. cbn [fmap list_fmap] in Hs. apply StronglySorted_inv in Hs as [Hs Hall].
  constructor; [by apply IH|]. rewrite Forall_fmap in Hall. exact Hall.
Qed.

Lemma pairs_in s p : p ∈ pairs_of s → p.1 ∈ s ∧ p.2 ∈ s.
Proof.
  unfold pairs_of. destruct p as [a b]. intros Hp. split; simpl; [by eapply elem_of_zip_l|].
  apply elem_of_zip_r in Hp. destruct s; [by apply elem_of_nil in Hp|by right].
Qed.

Lemma pairs_sorted s : StronglySorted (λ a b, s_at a ≤ s_at b) s → StronglySorted (λ p q, s_at p.2 ≤ s_at q.2) (pairs_of s).
Proof.
  intros Hs. apply (StronglySorted_fmap_inv snd (λ a b, s_at a ≤ s_at b)). unfold pairs_of.
  rewrite snd_zip by (destruct s; simpl; lia). destruct s; [done|]. by apply StronglySorted_inv in Hs as [? _].
Qed.

Lemma elem_peak x xs : x ∈ xs → (F2R x <= peak xs)%R.
Proof.
  induction xs as [|y xs IH]; intros Hx; [by apply elem_of_nil in Hx|]. rewrite peak_cons. apply Rmax_Rle.
  apply elem_of_cons in Hx as [->|Hx]; [left; lra|right; by apply IH].
Qed.

Lemma peak_le xs B : (0 <= B)%R → (∀ x, x ∈ xs → (F2R x <= B)%R) → (peak xs <= B)%R.
Proof. intros HB. induction xs as [|y xs IH]; intros H; [done|]. rewrite peak_cons. apply Rmax_lub; [apply H; left|apply IH; intros; apply H; by right]. Qed.

Lemma nonneg_valid x : nonneg x → shareNeedValid x = true.
Proof.
  intros [Hf H0]. unfold shareNeedValid. rewrite Hf. simpl. unfold fle.
  destruct (fcompare_spec f0 x eq_refl Hf) as [[-> H]|[[-> H]|[-> H]]]; try done. simpl in H. lra.
Qed.

Lemma bucket_pos window : 0 < shareHistoryBucket window.
Proof. unfold shareHistoryBucket, Minute, Second. destruct (_ <? _) eqn:E; [apply Z.ltb_lt in E; lia|lia]. Qed.

(** A stored history, as it is read back. *)
Lemma stored_read `{GoSort} tm now2 since ps out :
  let bucket := shareHistoryBucket (SwingWindow tm) in
  stored_ok bucket ps out → (length out <= ShareHistoryMaxSamples)%nat →
  (∀ x, x ∈ out → 0 < st_At x ≤ now2 ∧ now2 - st_At x ≤ SwingWindow tm) →
  (peak (st_Need <$> out) <= IZR MaxShareBudgetGPUs)%R →
  let xs := read_samples now2 (SwingWindow tm) (MkRoleHistory since out) in
  xs = read_back <$> out ∧ StronglySorted (λ a b, s_at a ≤ s_at b) xs ∧
  Forall (λ s, nonneg (s_need s)) xs ∧ peak (s_need <$> xs) = peak (st_Need <$> out).
Proof.
  intros bucket [_ N P S _] Hlen Hat Hpk. rewrite Forall_forall in N.
  assert (Hstrict : StronglySorted (λ a b, s_at a < s_at b) (read_back <$> out)).
  { clear -S. induction S as [|x out _ IH Hall]; [constructor|]. cbn [fmap list_fmap]. constructor; [done|].
    apply Forall_fmap. eapply Forall_impl; [exact Hall|]. simpl. intros y Hy. pose proof (bucket_pos (SwingWindow tm)).
    destruct (Z.lt_ge_cases (st_At x) (st_At y)) as [?|Hge]; [done|]. apply (Z.div_le_mono _ _ bucket) in Hge; [lia|done]. }
  assert (Hneed : ∀ x, x ∈ out → nonneg (s_need (read_back x)) ∧ F2R (s_need (read_back x)) = F2R (st_Need x)).
  { intros x Hx. destruct (of_int_exact MaxShareBudgetGPUs) as [Nm Em]; [unfold MaxShareBudgetGPUs; lia|].
    destruct (min_nonneg _ _ (N x Hx) Nm) as [Nn En]. split; [done|].
    change (s_need (read_back x)) with (math_Min (st_Need x) (of_int MaxShareBudgetGPUs)). rewrite En, Em. apply Rmin_left.
    apply Rle_trans with (peak (st_Need <$> out)); [|done]. apply elem_peak, list_elem_of_fmap. eauto. }
  assert (Exs : read_samples now2 (SwingWindow tm) (MkRoleHistory since out) = read_back <$> out).
  { unfold read_samples. simpl. rewrite filter_keeps_all, (sort_slice_strict _ Hstrict); [by rewrite newest_short by (by rewrite length_fmap)|].
    intros x Hx. destruct (Hat x Hx) as [H1 H2]. unfold readable. rewrite (nonneg_valid _ (N x Hx)).
    rewrite (proj2 (Z.eqb_neq _ _)), (proj2 (Z.ltb_ge _ _)), (proj2 (Z.ltb_ge _ _)) by (unfold shareHistorySkew, Minute, Second; lia). done. }
  intros xs. unfold xs. rewrite Exs. split_and!; [done| | |].
  - eapply StronglySorted_weaken; [|exact Hstrict]. simpl. lia.
  - apply Forall_fmap, Forall_forall. intros x Hx. by apply Hneed.
  - clear -Hneed. induction out as [|x out IH]; [done|]. cbn [fmap list_fmap]. rewrite !peak_cons. f_equal.
    + apply Hneed. left.
    + apply IH. intros y Hy. apply Hneed. by right.
Qed.

(** C39: a role's peak survives a restart: written and read back into an empty ledger
    while the readings are within the swing window, the peak is the one before, as
    long as the readings are usable, at most the largest budget, and span no more
    buckets than are stored. *)
Theorem peak_survives_restart `{GoSort} tm l now now2 role cur inc :
  let s := needs_of l role in
  let bucket := shareHistoryBucket (SwingWindow tm) in
  is_Some (needsSince l !! role) → (2 <= length s)%nat → StronglySorted (λ a b, s_at a ≤ s_at b) s → now ≤ now2 →
  (∀ a, a ∈ s → 0 < s_at a ≤ now ∧ now2 - s_at a ≤ SwingWindow tm) →
  (∀ a, a ∈ s → shareNeedValid (s_need a) = true ∧ (F2R (s_need a) <= IZR MaxShareBudgetGPUs)%R) →
  (∀ a b, a ∈ s → b ∈ s → s_at b / bucket - s_at a / bucket < Z.of_nat ShareHistoryMaxSamples) →
  feq (PeakNeed (RestoreNeedHistory (NewShareLedger inc) (NeedHistory l now tm) now2 tm).1 role cur) (PeakNeed l role cur) = true.
Proof.
  intros s bucket [since Hsince] Hlen Hs Hnow Hwin Hval Hspan.
  assert (Hacc : Forall (accepted now (SwingWindow tm)) (pairs_of s)).
  { apply Forall_forall. intros p [H1 H2]%pairs_in. specialize (Hwin _ H1). split_and!; [lia|by apply Hval|by apply Hval]. }
  pose proof (history_stored now (SwingWindow tm) bucket (pairs_of s) (bucket_pos _) Hacc (pairs_sorted s Hs)) as Hst.
  set (out := foldl (history_step now (SwingWindow tm) bucket) [] (pairs_of s)) in *.
  assert (Hat : ∀ x, x ∈ out → ∃ b, b ∈ s ∧ st_At x = s_at b)
    by (intros x (p & [_ Hp]%pairs_in & E)%(so_at _ _ _ Hst); eauto).
  assert (∃ a0 s', s = a0 :: s') as (a0 & s' & Es) by (destruct s; [simpl in Hlen; lia|eauto]).
  assert (Ha0 : a0 ∈ s) by (rewrite Es; left).
  assert (Hout : (length out <= ShareHistoryMaxSamples)%nat).
  { pose proof (strict_range_length (λ x, st_At x / bucket) out (s_at a0 / bucket) (s_at a0 / bucket + 179) (so_sorted _ _ _ Hst)) as Hr.
    unfold ShareHistoryMaxSamples in *. cut (Z.of_nat (length out) ≤ 180); [lia|]. etrans; [apply Hr|lia]. intros x (b & Hb & E)%Hat. simpl. rewrite E.
    specialize (Hspan a0 b Ha0 Hb). split; [|lia]. apply Z.div_le_mono; [apply bucket_pos|].
    rewrite Es in Hb, Hs. apply StronglySorted_inv in Hs as [_ Hall]. rewrite Forall_forall in Hall.
    apply elem_of_cons in Hb as [->|Hb]; [done|by apply Hall]. }
  assert (Hlv : Forall nonneg (level <$> pairs_of s)) by (apply Forall_fmap; eapply Forall_impl; [exact Hacc|]; intros; by eapply accepted_level).
  assert (Hpk : (peak (st_Need <$> out) <= IZR MaxShareBudgetGPUs)%R).
  { rewrite (so_peak _ _ _ Hst). apply peak_le; [apply IZR_le; unfold MaxShareBudgetGPUs; lia|]. intros x (p & -> & Hp)%list_elem_of_fmap.
    apply pairs_in in Hp as [H1 H2]. destruct (Hval _ H1) as [V1 B1], (Hval _ H2) as [V2 _].
    destruct (min_nonneg _ _ (valid_nonneg _ V1) (valid_nonneg _ V2)) as [_ E]. unfold level. rewrite E.
    apply Rle_trans with (F2R (s_need p.1)); [apply Rmin_l|done]. }
  destruct (stored_read tm now2 since (pairs_of s) out Hst Hout) as (E1 & E2 & E3 & E4); [|done|].
  { intros x (b & Hb & ->)%Hat. specialize (Hwin b Hb). lia. }
  destruct (read_samples now2 (SwingWindow tm) (MkRoleHistory since out)) as [|x xs] eqn:Er.
  { symmetry in E1. apply fmap_nil_inv in E1. exfalso. apply (so_some _ _ _ Hst); [|done]. rewrite Es in *.
    destruct s' as [|a1 s']; [simpl in Hlen; lia|done]. }
  assert (Hh : NeedHistory l now tm !! role = Some (MkRoleHistory since out)).
  { unfold NeedHistory. etrans; [apply map_lookup_imap|]. rewrite Hsince. simpl. unfold role_history. fold s bucket. fold out. by rewrite newest_short. }
  destruct (doubled_peak _ E3) as [D1 D2]. destruct (peak_fold _ D1) as [N1 P1], (peak_fold _ Hlv) as [N2 P2].
  unfold PeakNeed. rewrite (restore_needs now2 tm _ role _ x xs inc Hh Er E2). fold s.
  rewrite (proj2 (Nat.ltb_ge (length s) 2) Hlen). change (length (doubled (x :: xs)) <? 2)%nat with false. cbv iota. rewrite !sustained_levels.
  apply nonneg_feq; [done|done|]. by rewrite P1, P2, D2, E4, (so_peak _ _ _ Hst).
Qed.

(** Three readings in two buckets, read back a minute later. *)
Definition demo_needs (s : list shareNeedSample) : ShareLedger :=
  set_needsSince (set_needs (NewShareLedger "i") {["r" := s]}) {["r" := 60 * Minute]}.
Definition demo_window (w : Z) : ShareTimings := MkTimings 300 600 180 900 w 0 0.
Definition demo_readings : list shareNeedSample :=
  [MkSample (60 * Minute) (of_int 8); MkSample (60 * Minute + 15 * Second) (of_int 9); MkSample (61 * Minute) (of_int 2)].

Lemma peak_survives_restart_witness :
  feq (PeakNeed (RestoreNeedHistory (NewShareLedger "j") (NeedHistory (demo_needs demo_readings) (62 * Minute) (demo_window (96 * Minute)))
                   (63 * Minute) (demo_window (96 * Minute))).1 "r" f0)
      (PeakNeed (demo_needs demo_readings) "r" f0) = true ∧ PeakNeed (demo_needs demo_readings) "r" f0 = of_int 8.
Proof.
  split; [|vm_compute; reflexivity].
  assert (Hs : needs_of (demo_needs demo_readings) "r" = demo_readings) by (vm_compute; reflexivity).
  assert (Hall : ∀ a, a ∈ demo_readings → a = MkSample (60 * Minute) (of_int 8) ∨ a = MkSample (60 * Minute + 15 * Second) (of_int 9) ∨ a = MkSample (61 * Minute) (of_int 2)).
  { intros a Ha. repeat (apply elem_of_cons in Ha as [->|Ha]; [by auto|]). by apply elem_of_nil in Ha. }
  apply (peak_survives_restart (demo_window (96 * Minute)) (demo_needs demo_readings) (62 * Minute) (63 * Minute) "r" f0 "j"); rewrite ?Hs.
  - vm_compute. by eexists.
  - simpl. lia.
  - repeat constructor; by vm_compute.
  - by vm_compute.
  - intros a [->|[->| ->]]%Hall; by vm_compute.
  - intros a Ha. destruct (of_int_exact 8) as [_ E8], (of_int_exact 9) as [_ E9], (of_int_exact 2) as [_ E2]; [lia..|].
    unfold MaxShareBudgetGPUs. apply Hall in Ha as [->|[->| ->]]; (split; [by vm_compute|]); cbn [s_need];
      rewrite ?E8, ?E9, ?E2; apply IZR_le; lia.
  - intros a b [->|[->| ->]]%Hall [->|[->| ->]]%Hall; by vm_compute.
Defined.

(** A full window may span one bucket more than is stored: readings once a minute over
    a window of 180 minutes fall into 181 of them, and a peak in the oldest is lost,
    although the readings are all within the window when they are written. *)
Definition full_window : list shareNeedSample :=
  [MkSample (1000 * Minute + 30 * Second) (of_int 8); MkSample (1000 * Minute + 45 * Second) (of_int 8)] ++
  ((λ i, MkSample ((1001 + Z.of_nat i) * Minute + 15 * Second) (of_int 1)) <$> seq 0 180).

Theorem full_window_loses_peak :
  let now := 1180 * Minute + 15 * Second in
  let tm := demo_window (180 * Minute) in
  let l := demo_needs full_window in
  Forall (λ a, now - s_at a ≤ SwingWindow tm) full_window ∧ PeakNeed l "r" f0 = of_int 8 ∧
  PeakNeed (RestoreNeedHistory (H := insertion_GoSort) (NewShareLedger "j") (NeedHistory l now tm) now tm).1 "r" f0 = of_int 1.
Proof. split_and!; [apply (bool_decide_unpack _); vm_compute; reflexivity|vm_compute; reflexivity..]. Qed.
