(* ===== verification/Sticky.v ===== *)
(** * Sticky: a published scale-down is held against demand noise

    [scalingpolicy/sticky.go] and the part of the engine's cycle that uses it
    ([applySaturationDecisions], [sticky_scale_down.go]), for one scale target:
    what was last published for it, when it was last decided for and for which
    incarnation, and what a cycle with or without a decision publishes.  The step
    a held decision records for the trace is left out. *)
From Stdlib Require Import ZArith Lia String SpecFloat.
From stdpp Require Import base gmap strings list sorting.
From S2P Require Import Prelude GoFloat NodeView Domain ShareHistory.
Open Scope Z_scope.

(** ** The policy *)
Definition DefaultMaxAge : Z := 5 * Minute.
Definition carryMaxCycles : Z := 4.
Definition carryMaxAge : Z := 4 * Minute.
Definition stickyReason : string :=
  "held the published scale-down: the fresh target crept back up while utilization at the published count stays under the scale-up threshold".
Definition DecisionReasonUtilizationShare : string := "utilization-share".

Definition below_floor (published : Z) (floor : option Z) : bool :=
  match floor with Some f => published <? f | None => false end.

Definition HoldPublishedScaleDown (d : VariantDecision) (published publishedAt : Z) (havePublished : bool)
    (maxAge now : Z) : VariantDecision * bool :=
  if negb havePublished || (published <=? 0) then (d, false)
  else if maxAge <? now - publishedAt then (d, false)
  else if below_floor published (dec_MinReplicas d) then (d, false)
  else if CurrentReplicas d <=? published then (d, false)
  else if TargetReplicas d <=? published then (d, false)
  else if CurrentReplicas d <? TargetReplicas d then (d, false)
  else if fle (dec_PerReplicaCapacity d) f0 || fle (dec_ScaleUpThreshold d) f0 || flt (dec_TotalDemand d) f0 then (d, false)
  else if String.eqb (decisionReason d) DecisionReasonUtilizationShare then (d, false)
  else if WasLimited d then (d, false)
  else
    let utilAtPublished := fdiv (dec_TotalDemand d) (fmul (of_int published) (dec_PerReplicaCapacity d)) in
    if fle (dec_ScaleUpThreshold d) utilAtPublished then (d, false)
    else (SetDecisionReason (set_target d published) ActionScaleDown (decisionReason d) stickyReason, true).

Definition CarryPublished (resolved : Z) (read : bool) (published publishedAt : Z) (havePublished : bool)
    (floor : option Z) (missed now : Z) : Z :=
  if negb havePublished || (published <=? 0) then resolved
  else if (carryMaxCycles <? missed) || (carryMaxAge <? now - publishedAt) then resolved
  else if below_floor published floor then resolved
  else if negb read || (published <? resolved) then published
  else resolved.

(** ** The engine's side, for one scale target *)
Record decidedMark := MkMark { mk_at : Z; mk_uid : string; mk_missed : Z }.

Definition stickyAgeCycles : Z := 4.

(** [None]: no configuration. *)
Definition stickyAge (interval : option Z) : Z :=
  match interval with
  | Some i => if DefaultMaxAge <? stickyAgeCycles ⊠ i then stickyAgeCycles ⊠ i else DefaultMaxAge
  | None => DefaultMaxAge
  end.

(** What the decision store holds for the target, when it was last decided for, and
    its identity this cycle, if it was read. *)
Record target_state := MkTarget { tg_desired : option Z; tg_mark : option decidedMark; tg_uid : option string }.

Definition pruneLastDecided (s : target_state) (maxAge now : Z) : target_state :=
  match tg_mark s with
  | Some m => if maxAge <? now - mk_at m then MkTarget (tg_desired s) None (tg_uid s) else s
  | None => s
  end.

(** The published value, the time of the decision behind it, and whether it is to be
    trusted. *)
Definition published (s : target_state) : Z * Z * bool :=
  let same := match tg_mark s with
              | Some m => match tg_uid s with Some u => String.eqb (mk_uid m) u | None => true end
              | None => false
              end in
  (default 0 (tg_desired s), match tg_mark s with Some m => mk_at m | None => 0 end,
   bool_decide (is_Some (tg_desired s)) && same).

(** A cycle: a decision, or what was resolved without one. *)
Inductive cycle :=
| Decided (d : VariantDecision)
| Undecided (resolved : Z) (read : bool) (floor : option Z).

Definition marked (s : target_state) (c : cycle) (now : Z) : option decidedMark :=
  match c with
  | Decided _ => Some (MkMark now (default "" (tg_uid s)) 0)
  | Undecided _ _ _ => (λ m, MkMark (mk_at m) (mk_uid m) (mk_missed m + 1)) <$> tg_mark s
  end.

(** What the cycle publishes, the switch on. *)
Definition publishes (interval : option Z) (s : target_state) (c : cycle) (now : Z) : Z :=
  match c with
  | Decided d =>
      let '(p, at_, ok) := published s in
      TargetReplicas (HoldPublishedScaleDown d p at_ ok (stickyAge interval) now).1
  | Undecided resolved read floor =>
      let s := MkTarget (tg_desired s) (marked s c now) (tg_uid s) in
      let '(p, at_, ok) := published s in
      CarryPublished resolved read p at_ ok floor (match tg_mark s with Some m => mk_missed m | None => 0 end) now
  end.

(** One cycle: the target is read under [uid], stale marks are dropped, the value is
    published and the mark set. *)
Definition run_cycle (interval : option Z) (s : target_state) (uid : option string) (c : cycle) (now : Z) : target_state :=
  let s := pruneLastDecided (MkTarget (tg_desired s) (tg_mark s) uid) (stickyAge interval) now in
  MkTarget (Some (publishes interval s c now)) (marked s c now) uid.

(** ** The hold *)
Lemma hold_spec d p at_ have maxAge now :
  let '(d', held) := HoldPublishedScaleDown d p at_ have maxAge now in
  if held then
    have = true ∧ 0 < p < TargetReplicas d ∧ TargetReplicas d ≤ CurrentReplicas d ∧ p < CurrentReplicas d ∧
    TargetReplicas d' = p ∧ now - at_ ≤ maxAge ∧ (∀ m, dec_MinReplicas d = Some m → m ≤ p) ∧ WasLimited d = false ∧
    fle (dec_ScaleUpThreshold d) (fdiv (dec_TotalDemand d) (fmul (of_int p) (dec_PerReplicaCapacity d))) = false
  else d' = d.
Proof.
  unfold HoldPublishedScaleDown, below_floor. destruct have; [|done]. destruct (Z.leb_spec p 0); [done|]. cbn [negb orb].
  destruct (Z.ltb_spec maxAge (now - at_)); [done|].
  destruct (match dec_MinReplicas d with Some f => p <? f | None => false end) eqn:Ef; [done|].
  destruct (Z.leb_spec (CurrentReplicas d) p); [done|]. destruct (Z.leb_spec (TargetReplicas d) p); [done|].
  destruct (Z.ltb_spec (CurrentReplicas d) (TargetReplicas d)); [done|]. destruct (_ || _); [done|].
  destruct (String.eqb _ _); [done|]. destruct (WasLimited d) eqn:Ew; [done|].
  destruct (fle (dec_ScaleUpThreshold d) _) eqn:Eu; [done|]. split_and!; try done; try lia.
  intros m Hm. rewrite Hm in Ef. apply Z.ltb_ge in Ef. lia.
Qed.

Lemma carry_spec resolved read p at_ have floor missed now :
  let v := CarryPublished resolved read p at_ have floor missed now in
  v = resolved ∨
  v = p ∧ 0 < p ∧ (read = false ∨ p < resolved) ∧ missed ≤ carryMaxCycles ∧ now - at_ ≤ carryMaxAge ∧
  (∀ f, floor = Some f → f ≤ p).
Proof.
  unfold CarryPublished, below_floor. destruct have; [|by left]. destruct (Z.leb_spec p 0); [by left|]. cbn [negb orb].
  destruct (Z.ltb_spec carryMaxCycles missed); [by left|]. destruct (Z.ltb_spec carryMaxAge (now - at_)); [by left|]. cbn [orb].
  destruct (match floor with Some f => p <? f | None => false end) eqn:Ef; [by left|].
  assert (Hf : ∀ f, floor = Some f → f ≤ p) by (intros f ->; apply Z.ltb_ge in Ef; lia).
  destruct read; cbn [negb orb]; [destruct (Z.ltb_spec p resolved); [|by left]|]; right; split_and!; auto; lia.
Qed.

(** ** Along a descent *)

(** A calm cycle of a descent from [n] running replicas: the fleet is still above what
    is published, the fresh target asks for no scale-up, no floor has risen above the
    published value, no limiter or ledger owns the target, and the demand at the
    published count is under the scale-up threshold; or a gap without a decision in
    which no floor has risen above the published value. *)
Definition calm (p : Z) (c : cycle) : Prop :=
  match c with
  | Decided d =>
      p < CurrentReplicas d ∧ TargetReplicas d ≤ CurrentReplicas d ∧
      (∀ m, dec_MinReplicas d = Some m → m ≤ p) ∧
      fle (dec_PerReplicaCapacity d) f0 || fle (dec_ScaleUpThreshold d) f0 || flt (dec_TotalDemand d) f0 = false ∧
      String.eqb (decisionReason d) DecisionReasonUtilizationShare = false ∧ WasLimited d = false ∧
      fle (dec_ScaleUpThreshold d) (fdiv (dec_TotalDemand d) (fmul (of_int p) (dec_PerReplicaCapacity d))) = false
  | Undecided resolved read floor => ∀ f, floor = Some f → f ≤ p
  end.

(** The cycle itself asks for no replicas: its decision, or the count that was read. *)
Definition asks_zero (c : cycle) : Prop :=
  match c with
  | Decided d => TargetReplicas d ≤ 0
  | Undecided resolved read _ => read = true ∧ resolved ≤ 0
  end.

(** The marks of the cycles: at most so old, and so many missed. *)
Definition fresh (interval : option Z) (m : decidedMark) (c : cycle) (now : Z) : Prop :=
  match c with
  | Decided _ => now - mk_at m ≤ stickyAge interval
  | Undecided _ _ _ => now - mk_at m ≤ carryMaxAge ∧ mk_missed m < carryMaxCycles
  end.

Lemma calm_step interval s p m uid c now :
  tg_desired s = Some p → 0 < p → tg_mark s = Some m → (∀ u, uid = Some u → u = mk_uid m) →
  fresh interval m c now → calm p c →
  ∃ p' m', tg_desired (run_cycle interval s uid c now) = Some p' ∧ (p' ≤ p ∧ (0 < p' ∨ asks_zero c)) ∧
    tg_mark (run_cycle interval s uid c now) = Some m' ∧ tg_uid (run_cycle interval s uid c now) = uid.
Proof.
  intros Hp Hpos Hm Hu Hf Hc. unfold run_cycle.
  assert (Hage : now - mk_at m ≤ stickyAge interval).
  { destruct c; [done|]. destruct Hf as [Hf _]. unfold stickyAge, carryMaxAge, DefaultMaxAge, Minute, Second in *.
    destruct interval; [|lia]. destruct (Z.ltb_spec (5 * (60 * 1000000000)) (stickyAgeCycles ⊠ z)); lia. }
  unfold pruneLastDecided. cbn [tg_mark tg_desired tg_uid]. rewrite Hm, Hp, (proj2 (Z.ltb_ge _ _) Hage).
  set (s' := MkTarget (Some p) (Some m) uid).
  assert (Hsame : match uid with Some u => String.eqb (mk_uid m) u | None => true end = true).
  { destruct uid as [u|]; [|done]. rewrite (Hu u eq_refl). apply String.eqb_refl. }
  destruct c as [d|resolved read floor]; cbn [tg_desired tg_mark tg_uid marked].
  - eexists _, _. split; [done|]. split; [|done]. unfold publishes, published, s'. cbn [tg_desired tg_mark tg_uid from_option id].
    rewrite Hsame. rewrite bool_decide_true by (by eexists). cbn [andb].
    destruct Hc as (C1 & C2 & C4 & C5 & C6 & C7 & C8). unfold HoldPublishedScaleDown, below_floor. cbn [negb orb].
    rewrite (proj2 (Z.leb_gt p 0) Hpos), (proj2 (Z.ltb_ge _ _) Hage), (proj2 (Z.leb_gt _ _) C1).
    destruct (dec_MinReplicas d) as [f|]; [rewrite (proj2 (Z.ltb_ge p f) ltac:(by apply C4))|];
      (destruct (Z.leb_spec (TargetReplicas d) p); [cbn; lia|];
       rewrite (proj2 (Z.ltb_ge _ _) C2), C5, C6, C7, C8; simpl; lia).
  - eexists _, _. split; [done|]. split; [|split; [simpl; done|done]]. unfold publishes, published, s'. cbn [tg_desired tg_mark tg_uid from_option id marked fmap option_fmap option_map mk_at mk_uid mk_missed].
    rewrite Hsame. rewrite bool_decide_true by (by eexists). cbn [andb]. destruct Hf as [F1 F2]. cbn in Hc.
    unfold CarryPublished, below_floor. cbn [negb orb].
    rewrite (proj2 (Z.leb_gt p 0) Hpos), (proj2 (Z.ltb_ge _ _) F1), (proj2 (Z.ltb_ge carryMaxCycles _)) by lia. cbn [orb].
    destruct floor as [f|]; [rewrite (proj2 (Z.ltb_ge p f) ltac:(by apply Hc))|];
      destruct read; cbn; try lia; destruct (Z.ltb_spec p resolved); lia.
Qed.

Fixpoint run_cycles (interval : option Z) (s : target_state) (cs : list (option string * cycle * Z)) : list target_state :=
  match cs with
  | [] => []
  | (uid, c, now) :: cs => let s := run_cycle interval s uid c now in s :: run_cycles interval s cs
  end.

(** A run of a descent: until its last cycle something is published, and every cycle is
    calm, its mark fresh and the target the same. *)
Fixpoint calm_run (interval : option Z) (s : target_state) (cs : list (option string * cycle * Z)) : Prop :=
  match cs with
  | [] => True
  | (uid, c, now) :: cs =>
      match tg_desired s, tg_mark s with
      | Some p, Some m =>
          0 < p ∧ (∀ u, uid = Some u → u = mk_uid m) ∧ fresh interval m c now ∧ calm p c ∧
          calm_run interval (run_cycle interval s uid c now) cs
      | _, _ => False
      end
  end.

(** ** Properties *)


(** A cycle publishes the decision's own target, or the count that was resolved,
    except to keep a scale-down it has already published: then it repeats the
    published count, which is positive, at least the floor, decided lately for this
    incarnation, never against a scale-up, never where a limiter bound the target, and
    never where the demand at that count reaches the scale-up threshold. *)
Theorem held_value_safe interval s uid c now :
  let v := default 0 (tg_desired (run_cycle interval s uid c now)) in
  match c with
  | Decided d =>
      v = TargetReplicas d ∨
      tg_desired s = Some v ∧ 0 < v < TargetReplicas d ∧ TargetReplicas d ≤ CurrentReplicas d ∧
      (∀ f, dec_MinReplicas d = Some f → f ≤ v) ∧ WasLimited d = false ∧
      fle (dec_ScaleUpThreshold d) (fdiv (dec_TotalDemand d) (fmul (of_int v) (dec_PerReplicaCapacity d))) = false ∧
      ∃ m, tg_mark s = Some m ∧ now - mk_at m ≤ stickyAge interval ∧ (∀ u, uid = Some u → u = mk_uid m)
  | Undecided resolved read floor =>
      v = resolved ∨
      tg_desired s = Some v ∧ 0 < v ∧ (read = false ∨ v < resolved) ∧ (∀ f, floor = Some f → f ≤ v) ∧
      ∃ m, tg_mark s = Some m ∧ now - mk_at m ≤ carryMaxAge ∧ mk_missed m < carryMaxCycles ∧ (∀ u, uid = Some u → u = mk_uid m)
  end.
Proof.
  unfold run_cycle. cbn [tg_desired]. set (s' := pruneLastDecided _ _ _). cbn [from_option id].
  assert (Hs' : tg_desired s' = tg_desired s ∧ tg_uid s' = uid ∧
                (tg_mark s' = None ∨ ∃ m, tg_mark s = Some m ∧ tg_mark s' = Some m)).
  { unfold s', pruneLastDecided. cbn [tg_mark tg_desired tg_uid]. destruct (tg_mark s) as [m|]; [destruct (_ <? _)|]; cbn [tg_mark tg_desired tg_uid]; split_and!; eauto. }
  destruct Hs' as (Ed & Eu & Em). clearbody s'.
  assert (Hok : ∀ m, tg_mark s' = Some m → (published s').2 = true → (∀ u, uid = Some u → u = mk_uid m) ∧ tg_desired s = Some (published s').1.1 ∧ (published s').1.2 = mk_at m).
  { intros m Hm. unfold published. rewrite Hm, Ed, Eu. simpl. intros [H1 H2]%andb_true_iff. apply bool_decide_eq_true in H1 as [x Hx].
    rewrite Hx. split_and!; [|done|done]. intros u ->. by apply String.eqb_eq in H2. }
  destruct c as [d|resolved read floor]; unfold publishes.
  - destruct (published s') as [[p at_] ok] eqn:Epub. pose proof (hold_spec d p at_ ok (stickyAge interval) now) as H.
    destruct (HoldPublishedScaleDown d p at_ ok (stickyAge interval) now) as [d' held]. cbn [fst].
    destruct held; [|by left; subst]. destruct H as (-> & H1 & H2 & H3 & -> & H4 & H5 & H6 & H7). right.
    destruct Em as [Em|(m & Em & Em')]; [unfold published in Epub; rewrite Em in Epub; injection Epub as _ _ Eok; by rewrite andb_false_r in Eok|].
    destruct (Hok m Em' ltac:(done)) as (U & D & A). simpl in D, A. subst at_. split_and!; try done; try lia. exists m. split_and!; auto.
  - destruct Em as [Em|(m & Em & Em')].
    { left. unfold published, marked. cbn [tg_mark tg_desired tg_uid]. rewrite Em. simpl. by rewrite andb_false_r. }
    set (s2 := MkTarget _ _ _). assert (Ep : published s2 = published s').
    { unfold s2, published, marked. cbn [tg_mark tg_desired tg_uid]. by rewrite Em'. }
    assert (Emiss : match tg_mark s2 with Some m => mk_missed m | None => 0 end = mk_missed m + 1) by (unfold s2, marked; cbn [tg_mark]; by rewrite Em').
    rewrite Ep, Emiss. destruct (published s') as [[p at_] ok] eqn:Epub.
    destruct ok; [|left; done]. destruct (Hok m Em' ltac:(done)) as (U & D & A). simpl in A, D. subst at_.
    destruct (carry_spec resolved read p (mk_at m) true floor (mk_missed m + 1) now) as [E|(E & C1 & C2 & C3 & C4 & C5)]; [by left|right].
    rewrite E. split_and!; try done. exists m. split_and!; auto. lia.
Qed.

(** Two replicas run and one is published; the target chatters 2, none, 1. *)
Definition demo_decision (target : Z) : VariantDecision :=
  MkVariantDecision "v" "ns" "m" "H100" f0 "both" 2 target 1 2 (Some 1) None ActionNoChange "V2" "" f0 f0 f0
    (of_int 20000) (of_int 28482) (S754_finite false 7656119366529843 (-53)) false "" [].
Definition demo_target : target_state := MkTarget (Some 1) (Some (MkMark (1 * Second) "u" 0)) None.
Definition demo_cycles : list (option string * cycle * Z) :=
  [(Some "u", Decided (demo_decision 2), 16 * Second); (None, Undecided 2 true (Some 1), 31 * Second);
   (Some "u", Decided (demo_decision 1), 46 * Second)].

