(* ===== verification/Snapshots.v ===== *)
(** * Snapshots: what the loops publish for each other

    The publish-and-read stores of [internal/decision]: the model a pool should have
    awake, the pressure on a variant, its serving replicas and the warm pool's supply
    (one figure per namespace and name, read up to an age), the Pods a pool has lent,
    the GPU usage, the GPUs promised to transfers and the pools' unheld GPUs, and the
    versioned figure of what the warm pools hold.  Locks make each operation atomic;
    a store is the value it guards. *)
From Stdlib Require Import ZArith Lia String SpecFloat.
From stdpp Require Import base gmap strings list.
From S2P Require Import Prelude GoFloat ShareHistory.
Open Scope Z_scope.

(** ** Figures per namespace and name *)
Notation keyed V := (gmap string (gmap string V)) (only parsing).

Definition look {V} (s : keyed V) (ns k : string) : option V := s !! ns ≫= λ m, m !! k.
Definition put_in {V} (s : keyed V) (ns k : string) (v : V) : keyed V := <[ns := <[k := v]> (default ∅ (s !! ns))]> s.

(** Older than the age the reader allows; an age of zero or less allows any. *)
Definition stale (maxAge now at_ : Z) : bool := (0 <? maxAge) && (maxAge <? now - at_).

(** What such a store promises: a reading is that of the last publication under its
    namespace and name, and of no other. *)
Class AgedStore (S V O : Type) := {
  as_publish : S → string → string → V → S;
  as_get : S → string → string → Z → Z → option O;
  as_view : V → Z → Z → option O;
  as_get_same s ns k v maxAge now : as_get (as_publish s ns k v) ns k maxAge now = as_view v maxAge now;
  as_get_other s ns k v ns' k' maxAge now :
    (ns, k) ≠ (ns', k') → as_get (as_publish s ns k v) ns' k' maxAge now = as_get s ns' k' maxAge now }.

Lemma look_put_same {V} (s : keyed V) ns k v : look (put_in s ns k v) ns k = Some v.
Proof. unfold look, put_in. rewrite lookup_insert_eq. simpl. apply lookup_insert_eq. Qed.

Lemma look_put_other {V} (s : keyed V) ns k v ns' k' : (ns, k) ≠ (ns', k') → look (put_in s ns k v) ns' k' = look s ns' k'.
Proof.
  intros Hne. unfold look, put_in. destruct (decide (ns = ns')) as [->|Hns].
  - rewrite lookup_insert_eq. simpl. rewrite lookup_insert_ne by congruence. by destruct (s !! ns').
  - by rewrite lookup_insert_ne.
Qed.

(** *** [AwakeStore] *)
Module AwakeStore.
Record AwakeIntent := MkIntent { Variant : string; At : Z }.

Definition Publish (s : keyed AwakeIntent) (namespace pool variant : string) (at_ : Z) : keyed AwakeIntent :=
  if String.eqb variant "" then
    match s !! namespace with Some pools => <[namespace := delete pool pools]> s | None => s end
  else put_in s namespace pool (MkIntent variant at_).

Definition Get (s : keyed AwakeIntent) (namespace pool : string) (maxAge now : Z) : option string :=
  match look s namespace pool with
  | None => None
  | Some i => if String.eqb (Variant i) "" then None else if stale maxAge now (At i) then None else Some (Variant i)
  end.

Definition Reset (s : keyed AwakeIntent) : keyed AwakeIntent := ∅.

#[export] Program Instance aged : AgedStore (keyed AwakeIntent) AwakeIntent string := {|
  as_publish s ns k i := Publish s ns k (Variant i) (At i);
  as_get := Get;
  as_view i maxAge now := if String.eqb (Variant i) "" then None else if stale maxAge now (At i) then None else Some (Variant i) |}.
Next Obligation.
  intros s ns k [v a] maxAge now. unfold Publish, Get. simpl. destruct (String.eqb_spec v "") as [->|Hv].
  - unfold look. destruct (s !! ns) as [m|] eqn:E; [rewrite lookup_insert_eq; simpl; by rewrite lookup_delete_eq|by rewrite E].
  - rewrite look_put_same. simpl. by rewrite (proj2 (String.eqb_neq _ _) Hv).
Qed.
Next Obligation.
  intros s ns k [v a] ns' k' maxAge now Hne. unfold Publish, Get. simpl. destruct (String.eqb_spec v "") as [->|Hv].
  - destruct (s !! ns) as [m|] eqn:E; [|done]. unfold look. destruct (decide (ns = ns')) as [->|Hns].
    + rewrite lookup_insert_eq, E. simpl. by rewrite lookup_delete_ne by congruence.
    + by rewrite lookup_insert_ne.
  - by rewrite look_put_other.
Qed.
End AwakeStore.

(** *** [PressureStore] *)
Module PressureStore.
Record Pressure := MkPressure { SpareFraction : float64; NeedsScaleUp : bool; At : Z }.

Definition Publish (s : keyed Pressure) (namespace variant : string) (p : Pressure) : keyed Pressure := put_in s namespace variant p.

Definition Get (s : keyed Pressure) (namespace variant : string) (maxAge now : Z) : option Pressure :=
  match look s namespace variant with
  | None => None
  | Some p => if stale maxAge now (At p) then None else Some p
  end.

Definition Reset (s : keyed Pressure) : keyed Pressure := ∅.

#[export] Program Instance aged : AgedStore (keyed Pressure) Pressure Pressure := {|
  as_publish := Publish; as_get := Get; as_view p maxAge now := if stale maxAge now (At p) then None else Some p |}.
Next Obligation. intros. unfold Publish, Get. by rewrite look_put_same. Qed.
Next Obligation. intros. unfold Publish, Get. by rewrite look_put_other. Qed.
End PressureStore.

(** *** [ServingStore] *)
Module ServingStore.
Record servingCount := MkServing { replicas : Z; at_ : Z }.

Definition Publish (s : keyed servingCount) (namespace variant : string) (n : Z) (t : Z) : keyed servingCount :=
  put_in s namespace variant (MkServing n t).

Definition Get (s : keyed servingCount) (namespace variant : string) (maxAge now : Z) : option Z :=
  match look s namespace variant with
  | None => None
  | Some c => if stale maxAge now (at_ c) then None else Some (replicas c)
  end.

Definition Reset (s : keyed servingCount) : keyed servingCount := ∅.

#[export] Program Instance aged : AgedStore (keyed servingCount) servingCount Z := {|
  as_publish s ns k c := Publish s ns k (replicas c) (at_ c);
  as_get := Get; as_view c maxAge now := if stale maxAge now (at_ c) then None else Some (replicas c) |}.
Next Obligation. intros. unfold Publish, Get. by rewrite look_put_same. Qed.
Next Obligation. intros. unfold Publish, Get. by rewrite look_put_other. Qed.
End ServingStore.

(** *** [WarmPoolSupplyStore] *)
Module WarmPoolSupplyStore.
Record WarmPoolSupply := MkSupply { Replicas : Z; Capacity : float64; At : Z }.

Definition Publish (s : keyed WarmPoolSupply) (namespace variant : string) (n : Z) (capacity : float64) (t : Z)
  : keyed WarmPoolSupply := put_in s namespace variant (MkSupply n capacity t).

Definition Get (s : keyed WarmPoolSupply) (namespace variant : string) (maxAge now : Z) : option WarmPoolSupply :=
  match look s namespace variant with
  | None => None
  | Some g => if stale maxAge now (At g) then None else Some g
  end.

Definition Reset (s : keyed WarmPoolSupply) : keyed WarmPoolSupply := ∅.

#[export] Program Instance aged : AgedStore (keyed WarmPoolSupply) WarmPoolSupply WarmPoolSupply := {|
  as_publish s ns k g := Publish s ns k (Replicas g) (Capacity g) (At g);
  as_get := Get; as_view g maxAge now := if stale maxAge now (At g) then None else Some g |}.
Next Obligation. intros. unfold Publish, Get. rewrite look_put_same. simpl. by destruct v. Qed.
Next Obligation. intros. unfold Publish, Get. by rewrite look_put_other. Qed.
End WarmPoolSupplyStore.

(** Whatever was published, a reading is that of the last publication under its key. *)
Lemma reads_last_publication {S V O} `{AgedStore S V O} (s : S) (pubs : list (string * string * V)) ns k maxAge now :
  as_get (foldl (λ s p, as_publish s p.1.1 p.1.2 p.2) s pubs) ns k maxAge now =
    match last (filter (λ p : string * string * V, p.1 = (ns, k)) pubs) with
    | Some p => as_view p.2 maxAge now
    | None => as_get s ns k maxAge now
    end.
Proof.
  induction pubs as [|[[ns' k'] v] pubs IH] using rev_ind; [done|]. rewrite foldl_app, filter_app. cbn [foldl fst snd].
  destruct (decide ((ns', k') = (ns, k))) as [[= -> ->]|Hne].
  - by rewrite filter_cons_True, filter_nil, last_snoc, as_get_same.
  - rewrite filter_cons_False, filter_nil by done. by rewrite app_nil_r, as_get_other.
Qed.

(** ** Whole snapshots *)
Module BridgeStore.
Record bridgeSnapshot := MkBridges { lentTo : gmap string string; at_ : Z }.

Definition Publish (s : gmap string bridgeSnapshot) (namespace : string) (lent : gmap string string) (t : Z)
  : gmap string bridgeSnapshot := <[namespace := MkBridges lent t]> s.

Definition VariantFor (s : gmap string bridgeSnapshot) (namespace pod : string) (maxAge now : Z) : option string :=
  match s !! namespace with
  | None => None
  | Some b =>
      if stale maxAge now (at_ b) then None
      else match lentTo b !! pod with
           | Some v => if String.eqb v "" then None else Some v
           | None => None
           end
  end.

Definition Reset (s : gmap string bridgeSnapshot) : gmap string bridgeSnapshot := ∅.

(** A publication replaces the namespace's lending: a Pod handed back is no bridge. *)
Lemma VariantFor_publish s ns lent t pod maxAge now :
  VariantFor (Publish s ns lent t) ns pod maxAge now =
    if stale maxAge now t then None else lent !! pod ≫= λ v, if String.eqb v "" then None else Some v.
Proof. unfold VariantFor, Publish. rewrite lookup_insert_eq. simpl. destruct (stale _ _ _); [done|]. by destruct (lent !! pod). Qed.
End BridgeStore.

Module GPUUsageStore.
Record GPUUsage := MkUsage { ByType : gmap string Z; ByNamespace : gmap string (gmap string Z); TakenAt : Z }.

Definition Publish (s : option GPUUsage) (byType : gmap string Z) (byNamespace : gmap string (gmap string Z)) (now : Z)
  : option GPUUsage := Some (MkUsage byType byNamespace now).
Definition Get (s : option GPUUsage) : option GPUUsage := s.
Definition Reset (s : option GPUUsage) : option GPUUsage := None.
End GPUUsageStore.

Module SharePromisedStore.
Definition SharePromisedMaxAge : Z := 5 * Minute.
Definition promised_state : Type := option (gmap string (gmap string Z)) * Z.

Definition Publish (s : promised_state) (promised : gmap string (gmap string Z)) (now : Z) : promised_state := (Some promised, now).

Definition Latest (s : promised_state) (maxAge now : Z) : option (gmap string (gmap string Z)) :=
  if maxAge <? now - s.2 then None else s.1.
End SharePromisedStore.

Module WarmPoolUnheldStore.
Definition WarmPoolUnheldMaxAge : Z := 5 * Minute.
Record warmPoolUnheld := MkUnheld { byType : gmap string Z; at_ : Z }.

Definition Publish (s : gmap string warmPoolUnheld) (namespace : string) (by_ : gmap string Z) (now : Z)
  : gmap string warmPoolUnheld :=
  if bool_decide (by_ = ∅) then delete namespace s else <[namespace := MkUnheld by_ now]> s.

Definition Latest (s : gmap string warmPoolUnheld) (maxAge now : Z) : gmap string (gmap string Z) :=
  byType <$> filter (λ e : string * warmPoolUnheld, now - at_ e.2 ≤ maxAge) s.
End WarmPoolUnheldStore.

(** ** What the warm pools hold, with its version *)
Record pool_figure := MkFigure {
  warmPoolGPUs : gmap string (gmap string Z); warmPoolGPUsVersion : Z; warmPoolGPUsChangedAt : gmap string Z }.

Definition changed (f : pool_figure) (ns : string) (g : gmap string (gmap string Z)) : pool_figure :=
  let v := warmPoolGPUsVersion f + 1 in MkFigure g v (<[ns := v]> (warmPoolGPUsChangedAt f)).

Definition changed_at (f : pool_figure) (ns : string) : Z := default 0 (warmPoolGPUsChangedAt f !! ns).

Definition PublishWarmPoolGPUs (f : pool_figure) (namespace : string) (byType : gmap string Z) : pool_figure * Z :=
  let f' :=
    match warmPoolGPUs f !! namespace with
    | None => if bool_decide (byType = ∅) then f else changed f namespace (<[namespace := byType]> (warmPoolGPUs f))
    | Some prev =>
        if bool_decide (byType = ∅) then changed f namespace (delete namespace (warmPoolGPUs f))
        else if bool_decide (prev = byType) then f
        else changed f namespace (<[namespace := byType]> (warmPoolGPUs f))
    end in
  (f', changed_at f' namespace).

Definition WarmPoolGPUsWithVersion (f : pool_figure) : gmap string (gmap string Z) * Z := (warmPoolGPUs f, warmPoolGPUsVersion f).
Definition WarmPoolGPUs (f : pool_figure) : gmap string (gmap string Z) := (WarmPoolGPUsWithVersion f).1.
Definition WarmPoolGPUsVersion (f : pool_figure) : Z := warmPoolGPUsVersion f.

Definition ResetWarmPoolGPUs (f : pool_figure) : pool_figure :=
  MkFigure ∅ (if bool_decide (warmPoolGPUs f = ∅) then warmPoolGPUsVersion f else warmPoolGPUsVersion f + 1) ∅.

Definition no_pools : pool_figure := MkFigure ∅ 0 ∅.

(** A run of publications by any namespaces. *)
Definition run_pools (f : pool_figure) (ps : list (string * gmap string Z)) : pool_figure :=
  foldl (λ f p, (PublishWarmPoolGPUs f p.1 p.2).1) f ps.

(** A namespace's figure changes exactly when its version passes all before it. *)
Lemma publish_step f ns byType ns' :
  (∀ n, changed_at f n ≤ warmPoolGPUsVersion f) →
  let f' := (PublishWarmPoolGPUs f ns byType).1 in
  (∀ n, changed_at f' n ≤ warmPoolGPUsVersion f') ∧ warmPoolGPUsVersion f ≤ warmPoolGPUsVersion f' ∧
  default ∅ (warmPoolGPUs f' !! ns) = byType ∧
  (warmPoolGPUs f' !! ns' = warmPoolGPUs f !! ns' ∧ changed_at f' ns' = changed_at f ns' ∨
   ns' = ns ∧ warmPoolGPUsVersion f < changed_at f' ns').
Proof.
  intros Hv. assert (Hch : ∀ g, (∀ n, changed_at (changed f ns g) n ≤ warmPoolGPUsVersion (changed f ns g)) ∧
      changed_at (changed f ns g) ns = warmPoolGPUsVersion f + 1 ∧ (ns' ≠ ns → changed_at (changed f ns g) ns' = changed_at f ns')).
  { intros g. unfold changed, changed_at in *. cbn [warmPoolGPUsVersion warmPoolGPUsChangedAt]. split_and!.
    - intros n. destruct (decide (n = ns)) as [->|Hn]; [by rewrite lookup_insert_eq; simpl; lia|].
      rewrite lookup_insert_ne by done. specialize (Hv n). lia.
    - by rewrite lookup_insert_eq.
    - intros Hn. by rewrite lookup_insert_ne. }
  unfold PublishWarmPoolGPUs. cbv zeta. cbn [fst]. destruct (warmPoolGPUs f !! ns) as [prev|] eqn:E.
  - case_bool_decide as Hb; [subst|case_bool_decide as Hp; [subst|]].
    + destruct (Hch (delete ns (warmPoolGPUs f))) as (C1 & C2 & C3). split_and!; [done|simpl; lia|simpl; by rewrite lookup_delete_eq|].
      destruct (decide (ns' = ns)) as [->|Hn]; [right; split; [done|lia]|left]. split; [simpl; by rewrite lookup_delete_ne|by apply C3].
    + split_and!; [done|lia|by rewrite E|by left].
    + destruct (Hch (<[ns := byType]> (warmPoolGPUs f))) as (C1 & C2 & C3). split_and!; [done|simpl; lia|simpl; by rewrite lookup_insert_eq|].
      destruct (decide (ns' = ns)) as [->|Hn]; [right; split; [done|lia]|left]. split; [simpl; by rewrite lookup_insert_ne|by apply C3].
  - case_bool_decide as Hb; [subst|].
    + split_and!; [done|lia|by rewrite E|by left].
    + destruct (Hch (<[ns := byType]> (warmPoolGPUs f))) as (C1 & C2 & C3). split_and!; [done|simpl; lia|simpl; by rewrite lookup_insert_eq|].
      destruct (decide (ns' = ns)) as [->|Hn]; [right; split; [done|lia]|left]. split; [simpl; by rewrite lookup_insert_ne|by apply C3].
Qed.

Lemma run_pools_step f ps ns :
  (∀ n, changed_at f n ≤ warmPoolGPUsVersion f) →
  let f' := run_pools f ps in
  (∀ n, changed_at f' n ≤ warmPoolGPUsVersion f') ∧ warmPoolGPUsVersion f ≤ warmPoolGPUsVersion f' ∧
  (warmPoolGPUs f' !! ns = warmPoolGPUs f !! ns ∧ changed_at f' ns = changed_at f ns ∨ warmPoolGPUsVersion f < changed_at f' ns).
Proof.
  intros Hv. induction ps as [|[n b] ps IH] using rev_ind; [split_and!; [done|simpl; lia|by left]|].
  unfold run_pools in *. rewrite foldl_app. cbn [foldl fst snd]. cbv zeta in IH. destruct IH as (I1 & I2 & I3).
  set (g := foldl _ f ps) in *. destruct (publish_step g n b ns I1) as (S1 & S2 & _ & S4). cbv zeta. split_and!; [done|lia|].
  destruct S4 as [[S4 S5]|[_ S4]]; [|right; lia]. destruct I3 as [[I3 I4]|I3]; [left; split; congruence|right; lia].
Qed.

(** ** Properties *)

(** The version a pool is given is the right bar for a snapshot: a reader's copy
    whose version has reached the one a namespace's publication returned shows exactly
    the figure just published, whatever other namespaces have published meanwhile;
    and every copy taken from then on has reached it. *)
Theorem pool_version_sound before between ns byType :
  let f1 := run_pools no_pools before in
  let '(figure, version) := WarmPoolGPUsWithVersion f1 in
  let '(f3, v) := PublishWarmPoolGPUs (run_pools f1 between) ns byType in
  (v ≤ version → default ∅ (figure !! ns) = byType) ∧
  (∀ after, v ≤ (WarmPoolGPUsWithVersion (run_pools f3 after)).2).
Proof.
  assert (H0 : ∀ n, changed_at no_pools n ≤ warmPoolGPUsVersion no_pools) by (intros n; unfold changed_at; simpl; by rewrite lookup_empty).
  intros f1. destruct (run_pools_step no_pools before ns H0) as (H1 & _ & _). fold f1 in H1.
  destruct (run_pools_step f1 between ns H1) as (H2 & H2v & H2c). set (f2 := run_pools f1 between) in *.
  destruct (publish_step f2 ns byType ns H2) as (H3 & H3v & H3b & H3c).
  unfold WarmPoolGPUsWithVersion. destruct (PublishWarmPoolGPUs f2 ns byType) as [f3 v] eqn:E.
  assert (Ev : v = changed_at f3 ns) by (unfold PublishWarmPoolGPUs in E; injection E as <- <-; done).
  cbn [fst snd] in *. subst v. split.
  - intros Hle. destruct H3c as [[H3c H3a]|[_ H3c]]; [|lia]. destruct H2c as [[H2c _]|H2c]; [|lia]. by rewrite <- H2c, <- H3c.
  - intros after. destruct (run_pools_step f3 after ns H3) as (_ & H4 & _). specialize (H3 ns). lia.
Qed.
