(* ===== verification/Stores.v ===== *)
(** * The decision stores

    The model of [internal/decision]: the store through which the optimizer's
    decisions reach the external scaler ([store.go]), the claims a wake makes on
    a transfer ([share_claims.go]) and the wake-from-zero registry
    ([activation.go]).

    Each operation of a store is one function of the store's state.  [Store.Set]
    signals its subscribers after it has left its lock, so it is two functions,
    and the threads that call them are the steps of a relation on a world that
    has the channels and the callers in it.  Clocks are arguments; times are [Z]
    nanoseconds. *)
From Stdlib Require Import ZArith Lia String Ascii SpecFloat.
From stdpp Require Import base gmap strings list sorting fin_maps.
From S2P Require Import Prelude.

(** ** The decision store *)
Module DecisionStore.

Record Decision := MkDecision { DesiredReplicas : Z; UpdatedAt : Z }.

(** A channel with a buffer of one and no payload: whether a wake-up is pending. *)
Notation chan := nat.

Record Store := MkStore {
  st_m : gmap string Decision; subs : gmap string (gmap N chan); nextSubID : N }.

Definition NewStore : Store := MkStore ∅ ∅ 0%N.

Definition storeKey (namespace name : string) : string := namespace +:+ "/" +:+ name.

(** The write and the collection of the waiters, under the lock. *)
Definition Set_locked (s : Store) (namespace name : string) (desired now : Z) : Store * list chan :=
  let key := storeKey namespace name in
  (MkStore (<[key := MkDecision desired now]> (st_m s)) (subs s) (nextSubID s),
   (map_to_list (default ∅ (subs s !! key))).*2).

(** A send that never blocks: a pending wake-up already covers the write. *)
Definition signal (buf : gmap chan bool) (c : chan) : gmap chan bool := <[c := true]> buf.

Definition Subscribe (s : Store) (namespace name : string) (ch : chan) : Store * N :=
  let key := storeKey namespace name in
  let id := nextSubID s in
  (MkStore (st_m s) (<[key := <[id := ch]> (default ∅ (subs s !! key))]> (subs s))
     ((id + 1) mod 2 ^ 64)%N, id).

(** The cancel function of a subscription; the body runs once. *)
Definition cancel (s : Store) (key : string) (id : N) : Store :=
  let left := delete id (default ∅ (subs s !! key)) in
  MkStore (st_m s) (if decide (left = ∅) then delete key (subs s) else <[key := left]> (subs s))
    (nextSubID s).

Definition Get (s : Store) (namespace name : string) : option Decision :=
  st_m s !! storeKey namespace name.

(** *** Writers and subscribers *)

(** A subscriber reads the decision when it subscribes and whenever it wakes. *)
Inductive phase := Reading | Waiting (seen : option Decision).

Record subscriber := MkSub { sub_ns : string; sub_name : string; sub_id : N; sub_phase : phase }.

Definition sub_key (u : subscriber) : string := storeKey (sub_ns u) (sub_name u).

(** The store, the buffers, the channels each running [Set] has still to
    signal, and the live subscribers by channel. *)
Record world := MkWorld {
  store : Store; buf : gmap chan bool; nextChan : chan; setters : list (list chan);
  live : gmap chan subscriber }.

Definition start : world := MkWorld NewStore ∅ 0 [] ∅.

Definition w_set (w : world) (ns name : string) (desired now : Z) : world :=
  let '(s, ws) := Set_locked (store w) ns name desired now in
  MkWorld s (buf w) (nextChan w) (ws :: setters w) (live w).

Definition w_signal (w : world) (pre : list (list chan)) (c : chan) (ws : list chan)
    (post : list (list chan)) : world :=
  MkWorld (store w) (signal (buf w) c) (nextChan w) (pre ++ ws :: post) (live w).

Definition w_subscribe (w : world) (ns name : string) : world :=
  let '(s, id) := Subscribe (store w) ns name (nextChan w) in
  MkWorld s (<[nextChan w := false]> (buf w)) (S (nextChan w)) (setters w)
    (<[nextChan w := MkSub ns name id Reading]> (live w)).

Definition w_phase (w : world) (b : gmap chan bool) (c : chan) (u : subscriber) (ph : phase) : world :=
  MkWorld (store w) b (nextChan w) (setters w)
    (<[c := MkSub (sub_ns u) (sub_name u) (sub_id u) ph]> (live w)).

Definition w_cancel (w : world) (c : chan) (u : subscriber) : world :=
  MkWorld (cancel (store w) (sub_key u) (sub_id u)) (buf w) (nextChan w) (setters w) (delete c (live w)).

Inductive step (w : world) : world → Prop :=
| step_set ns name desired now : step w (w_set w ns name desired now)
| step_signal pre c ws post :
    setters w = pre ++ (c :: ws) :: post → step w (w_signal w pre c ws post)
| step_return pre post :
    setters w = pre ++ [] :: post →
    step w (MkWorld (store w) (buf w) (nextChan w) (pre ++ post) (live w))
| step_subscribe ns name :
    (nextSubID (store w) + 1 < 2 ^ 64)%N → step w (w_subscribe w ns name)
| step_read c u :
    live w !! c = Some u →
    step w (w_phase w (buf w) c u (Waiting (Get (store w) (sub_ns u) (sub_name u))))
| step_wake c u seen :
    live w !! c = Some u → sub_phase u = Waiting seen → buf w !! c = Some true →
    step w (w_phase w (<[c := false]> (buf w)) c u Reading)
| step_cancel c u : live w !! c = Some u → step w (w_cancel w c u).

(** What holds of every reachable world. *)
Record inv (w : world) : Prop := {
  inv_next : ∀ k g id c, subs (store w) !! k = Some g → g !! id = Some c → (id < nextSubID (store w))%N;
  inv_reg : ∀ c u, live w !! c = Some u →
    (c < nextChan w)%nat ∧ ∃ g, subs (store w) !! sub_key u = Some g ∧ g !! sub_id u = Some c;
  inv_fresh : ∀ c u seen, live w !! c = Some u → sub_phase u = Waiting seen →
    seen = Get (store w) (sub_ns u) (sub_name u) ∨ buf w !! c = Some true ∨
    ∃ ws, ws ∈ setters w ∧ c ∈ ws }.

Lemma inv_start : inv start.
Proof. split; cbn; intros *; by rewrite lookup_empty. Qed.

(** A running [Set] covers everyone registered for its target. *)
Lemma Set_locked_waiters s ns name desired now key g id c :
  subs s !! key = Some g → g !! id = Some c → key = storeKey ns name →
  c ∈ (Set_locked s ns name desired now).2.
Proof.
  intros Hg Hc ->. unfold Set_locked. simpl. rewrite Hg. simpl.
  apply list_elem_of_fmap. exists (id, c). split; [done|]. by apply elem_of_map_to_list.
Qed.

Lemma Get_set s ns name desired now ns' name' :
  storeKey ns' name' ≠ storeKey ns name →
  Get (Set_locked s ns name desired now).1 ns' name' = Get s ns' name'.
Proof. intros Hne. unfold Get, Set_locked. simpl. by rewrite lookup_insert_ne. Qed.

Lemma setters_signal pre (c : chan) ws post x :
  (∃ l, l ∈ pre ++ (c :: ws) :: post ∧ x ∈ l) →
  x = c ∨ ∃ l, l ∈ pre ++ ws :: post ∧ x ∈ l.
Proof.
  intros (l & Hl & Hx). apply elem_of_app in Hl as [Hl|[->|Hl]%elem_of_cons].
  - right. exists l. set_solver.
  - apply elem_of_cons in Hx as [->|Hx]; [by left|right]. exists ws. set_solver.
  - right. exists l. set_solver.
Qed.

Lemma cancel_subs s key id k g id' c :
  (k, id') ≠ (key, id) → subs s !! k = Some g → g !! id' = Some c →
  ∃ g', subs (cancel s key id) !! k = Some g' ∧ g' !! id' = Some c.
Proof.
  intros Hne Hg Hc. unfold cancel. simpl. destruct (decide (k = key)) as [->|Hk].
  - rewrite Hg. simpl. assert (id' ≠ id) by congruence.
    assert (Hd : delete id g !! id' = Some c) by (by rewrite lookup_delete_ne).
    case_decide as E; [by rewrite E, lookup_empty in Hd|].
    rewrite lookup_insert_eq. eauto.
  - case_decide; [rewrite lookup_delete_ne|rewrite lookup_insert_ne]; eauto.
Qed.

Lemma cancel_subs_inv s key id k g id' c :
  subs (cancel s key id) !! k = Some g → g !! id' = Some c →
  ∃ g', subs s !! k = Some g' ∧ g' !! id' = Some c.
Proof.
  unfold cancel. simpl. intros Hg Hc. case_decide as E.
  - apply lookup_delete_Some in Hg as [_ Hg]. eauto.
  - apply lookup_insert_Some in Hg as [[<- <-]|[_ Hg]]; [|eauto].
    apply lookup_delete_Some in Hc as [_ Hc]. destruct (subs s !! key); [eauto|].
    simpl in Hc. by rewrite lookup_empty in Hc.
Qed.

(** The three steps that change the registrations or the decisions. *)
Lemma inv_set w ns name desired now : inv w → inv (w_set w ns name desired now).
Proof.
  intros [H1 H2 H3]. split; cbn [store buf nextChan setters live]; [done|done|].
  intros x u sn Hx Hph. destruct (decide (sub_key u = storeKey ns name)) as [Hk|Hk].
  - right. right. exists (Set_locked (store w) ns name desired now).2. split; [by left|]. destruct (H2 _ _ Hx) as (_ & g & Hg & Hgi).
    by eapply Set_locked_waiters.
  - destruct (H3 _ _ _ Hx Hph) as [->|[?|(l & ? & ?)]].
    + left. symmetry. by apply (Get_set (store w) ns name desired now).
    + auto.
    + right. right. exists l. split; [by right|done].
Qed.

Lemma inv_subscribe w ns name :
  inv w → (nextSubID (store w) + 1 < 2 ^ 64)%N → inv (w_subscribe w ns name).
Proof.
  intros [H1 H2 H3] Hlt.
  assert (Hn : ((nextSubID (store w) + 1) mod 2 ^ 64 = nextSubID (store w) + 1)%N)
    by (apply N.mod_small; done).
  unfold w_subscribe. split; cbn [Subscribe fst snd store buf nextChan setters live subs nextSubID st_m]; rewrite ?Hn.
  - intros k g id c Hg Hc. apply lookup_insert_Some in Hg as [[<- <-]|[_ Hg]].
    + apply lookup_insert_Some in Hc as [[<- _]|[_ Hc]]; [lia|].
      destruct (subs (store w) !! _) as [g|] eqn:Eg; simpl in Hc; [|by rewrite lookup_empty in Hc].
      specialize (H1 _ _ _ _ Eg Hc). lia.
    + specialize (H1 _ _ _ _ Hg Hc). lia.
  - intros c u Hu. apply lookup_insert_Some in Hu as [[<- <-]|[_ Hu]].
    { split; [lia|]. unfold sub_key. simpl. rewrite lookup_insert_eq. eexists. split; [done|].
      by rewrite lookup_insert_eq. }
    destruct (H2 _ _ Hu) as (Hlt' & g & Hg & Hgi). split; [lia|].
    destruct (decide (sub_key u = storeKey ns name)) as [Hk|Hk].
    + rewrite Hk, lookup_insert_eq. eexists. split; [done|]. rewrite <- Hk, Hg. simpl.
      specialize (H1 _ _ _ _ Hg Hgi). by rewrite lookup_insert_ne by lia.
    + rewrite lookup_insert_ne by done. eauto.
  - intros c u sn Hu Hph. apply lookup_insert_Some in Hu as [[<- <-]|[Hne Hu]]; [done|].
    rewrite lookup_insert_ne by done. by apply (H3 c u sn).
Qed.

Lemma inv_cancel w c u : inv w → live w !! c = Some u → inv (w_cancel w c u).
Proof.
  intros [H1 H2 H3] Hu. unfold w_cancel. split; cbn [store buf nextChan setters live].
  - intros k g id x Hg Hx. destruct (cancel_subs_inv _ _ _ _ _ _ _ Hg Hx) as (g' & Hg' & Hx').
    apply (H1 _ _ _ _ Hg' Hx').
  - intros x v Hx. apply lookup_delete_Some in Hx as [Hne Hx].
    destruct (H2 _ _ Hx) as (Hlt & g & Hg & Hgi). split; [done|].
    apply (cancel_subs _ _ _ _ g _ x); [|done|done].
    intros [= Hk Hi]. destruct (H2 _ _ Hu) as (_ & g' & Hg' & Hgi').
    rewrite Hk in Hg. rewrite Hi in Hgi. congruence.
  - intros x v sn Hx Hph. apply lookup_delete_Some in Hx as [Hne Hx]. by apply (H3 x v sn).
Qed.

Lemma inv_step w w' : inv w → step w w' → inv w'.
Proof.
  intros Hi. destruct 1 as [ns name desired now|pre c ws post E|pre post E|ns name Hlt
    |c u Hu|c u seen Hu Hp Hb|c u Hu].
  - by apply inv_set.
  - destruct Hi as [H1 H2 H3]. unfold w_signal, w_phase. split; cbn [store buf nextChan setters live]; [done|done|].
    intros x u sn Hx Hph. unfold signal. destruct (H3 _ _ _ Hx Hph) as [->|[Hb|Hl]]; [by left| |].
    + right. left. destruct (decide (x = c)) as [->|]; [by rewrite lookup_insert_eq|by rewrite lookup_insert_ne].
    + rewrite E in Hl. apply setters_signal in Hl as [->|Hl]; [|auto].
      right. left. by rewrite lookup_insert_eq.
  - destruct Hi as [H1 H2 H3]. unfold w_signal, w_phase. split; cbn [store buf nextChan setters live]; [done|done|].
    intros x u sn Hx Hph. destruct (H3 _ _ _ Hx Hph) as [->|[?|(l & Hl & Hin)]]; [by left|auto|].
    right. right. exists l. split; [|done]. rewrite E in Hl.
    apply elem_of_app in Hl as [?|[->|?]%elem_of_cons]; [set_solver| |set_solver].
    by apply not_elem_of_nil in Hin.
  - by apply inv_subscribe.
  - destruct Hi as [H1 H2 H3]. unfold w_signal, w_phase. split; cbn [store buf nextChan setters live]; [done| |].
    + intros x v [[<- <-]|[_ Hx]]%lookup_insert_Some; [by apply (H2 c u)|by apply H2].
    + intros x v sn [[<- <-]|[_ Hx]]%lookup_insert_Some Hph; [|by eapply H3].
      simpl in Hph. simplify_eq. by left.
  - destruct Hi as [H1 H2 H3]. unfold w_signal, w_phase. split; cbn [store buf nextChan setters live]; [done| |].
    + intros x v [[<- <-]|[_ Hx]]%lookup_insert_Some; [by apply (H2 c u)|by apply H2].
    + intros x v sn [[<- <-]|[Hne Hx]]%lookup_insert_Some Hph; [done|].
      rewrite lookup_insert_ne by done. by eapply H3.
  - by apply inv_cancel.
Qed.

Definition reach : world → Prop := rtc step start.

Lemma reach_inv w : reach w → inv w.
Proof.
  unfold reach. generalize inv_start. generalize start. intros w0 H0 Hr.
  induction Hr as [|w1 w2 w3 Hs _ IH]; [done|]. apply IH. by eapply inv_step.
Qed.
End DecisionStore.

(** ** Claims of a wake on a releasing transfer *)
Module ShareClaims.

Record ShareClaimable := MkClaimable {
  ID : string; ReceiverZ : spec_float; DonorPodGPUs : list Z; DonorGPUs : Z }.

Record ShareClaim := MkClaim {
  Scope : string; Accelerator : string; claim_ID : string; Wake : string; claim_Model : string;
  claim_at : Z }.

Inductive ShareOutcome := Redirected | RefusedScore | RefusedFit | NoneReleasing | RefusedHeld.

Definition ShareClaimMaxAge : Z := 2 * 60 * 1000000000.
Definition ShareClaimModelHold : Z := 2 * 60 * 1000000000.

Record ShareWake := MkWake { wake_Pods : list Z; wake_GPUs : Z; wake_Variant : string }.

(** [claimable] is [None] before the first [Publish]. *)
Record ShareClaimStore := MkClaims {
  claimable : option (gmap string (list ShareClaimable)); claims : list ShareClaim; at_ : Z;
  lastClaim : gmap string Z }.

Definition ShareGroupKey (scope accelerator : string) : string := scope +:+ "|" +:+ accelerator.

Definition claims_of (cs : list ShareClaim) : list string := claim_ID <$> cs.

Definition Publish (s : ShareClaimStore) (published : gmap string (list ShareClaimable)) (now : Z)
  : ShareClaimStore :=
  let kept := filter (λ c, (now - claim_at c ≤ ShareClaimMaxAge)%Z) (claims s) in
  MkClaims (Some (filter (λ e, ID e ∉ claims_of kept) <$> published)) kept now (lastClaim s).

(** [slices.Sorted] then [slices.Reverse]. *)
Definition descending (l : list Z) : list Z := reverse (merge_sort Z.le l).

Fixpoint covers_each (d r : list Z) : bool :=
  match d, r with
  | _, [] => true
  | x :: d, y :: r => (y <=? x)%Z && covers_each d r
  | [], _ :: _ => false
  end.

Definition PodsCover (donorPods : list Z) (donorGPUs : Z) (receiverPods : list Z) (receiverGPUs : Z)
  : bool :=
  match donorPods, receiverPods with
  | [], _ | _, [] => (Z.max receiverGPUs 1 <=? Z.max donorGPUs 1)%Z
  | _, _ =>
      if (length donorPods <? length receiverPods)%nat then false
      else covers_each (descending donorPods) (descending receiverPods)
  end.

(** [cmp.Compare] on [float64]: a NaN is below every number. *)
Definition float_le (a b : spec_float) : bool :=
  match SFcompare a b with
  | Some Gt => false
  | Some _ => true
  | None => match a with S754_nan => true | _ => false end
  end.

Definition entry_before (a b : ShareClaimable) : bool :=
  if float_le (ReceiverZ b) (ReceiverZ a) && float_le (ReceiverZ a) (ReceiverZ b)
  then negb (str_lt (ID b) (ID a)) else float_le (ReceiverZ b) (ReceiverZ a).

Section claim.
Context (z : spec_float).

Definition outranks (e : ShareClaimable) : bool := SFltb z (ReceiverZ e).

Definition qualifies (e : ShareClaimable) (w : ShareWake) : bool :=
  outranks e && PodsCover (DonorPodGPUs e) (DonorGPUs e) (wake_Pods w) (wake_GPUs w).

(** [assign]: the first transfer each replica prefers that leaves the later ones
    theirs; [free] is the preference order less the transfers used. *)
Fixpoint assign (order : list ShareWake) (free : list (nat * ShareClaimable))
  : option (list (nat * ShareClaimable)) :=
  match order with
  | [] => Some []
  | w :: order =>
      (fix try (pre post : list (nat * ShareClaimable)) :=
         match post with
         | [] => None
         | e :: post =>
             if qualifies e.2 w then
               match assign order (pre ++ post) with
               | Some l => Some (e :: l)
               | None => try (pre ++ [e]) post
               end
             else try (pre ++ [e]) post
         end) [] free
  end.
End claim.

Definition wake_before (a b : ShareWake) : bool := (wake_GPUs b <=? wake_GPUs a)%Z.

Definition ClaimSet (s : ShareClaimStore) (scope accelerator : string) (wakes : list ShareWake)
    (z : spec_float) (model : string) (now : Z) : list ShareClaim * ShareOutcome * ShareClaimStore :=
  match wakes, claimable s with
  | [], _ | _, None => ([], NoneReleasing, s)
  | _, Some avail =>
      if (ShareClaimMaxAge <? now - at_ s)%Z then ([], NoneReleasing, s)
      else if match lastClaim s !! model with
              | Some t => (now - t <? ShareClaimModelHold)%Z
              | None => false
              end then ([], RefusedHeld, s)
      else
        let key := ShareGroupKey scope accelerator in
        let entries := default [] (avail !! key) in
        if bool_decide (entries = []) then ([], NoneReleasing, s)
        else if negb (existsb (outranks z) entries) then ([], RefusedScore, s)
        else
          let order := sort_stable wake_before wakes in
          let pref := sort_stable (λ a b : nat * ShareClaimable, entry_before a.2 b.2)
                        (imap pair entries) in
          match assign z order pref with
          | None => ([], RefusedFit, s)
          | Some picked =>
              let made := zip_with (λ w (e : nat * ShareClaimable),
                            MkClaim scope accelerator (ID e.2) (wake_Variant w) model now) order picked in
              (made, Redirected,
               MkClaims (Some (<[key := filter (λ e, ID e ∉ claims_of made) entries]> avail))
                 (claims s ++ made) (at_ s) (<[model := now]> (lastClaim s)))
          end
  end.

Definition of_group (scope accelerator : string) (c : ShareClaim) : bool :=
  String.eqb (Scope c) scope && String.eqb (Accelerator c) accelerator.

Definition Take (s : ShareClaimStore) (scope accelerator : string) : list ShareClaim * ShareClaimStore :=
  (filter (λ c, of_group scope accelerator c = true) (claims s),
   MkClaims (claimable s) (filter (λ c, of_group scope accelerator c = false) (claims s)) (at_ s)
     (lastClaim s)).

(** *** Which replica a replica's pods can host *)
Definition at_least (t : Z) (l : list Z) : nat := length (filter (λ x, (t ≤ x)%Z) l).

Lemma at_least_cons t x l :
  at_least t (x :: l) = ((if decide (t ≤ x)%Z then 1 else 0) + at_least t l)%nat.
Proof. unfold at_least. rewrite filter_cons. case_decide; done. Qed.

Lemma at_least_zero t l : (∀ x, x ∈ l → (x < t)%Z) → at_least t l = 0%nat.
Proof.
  intros Hl. unfold at_least. rewrite list_filter_nil; [done|]. intros x Hx. specialize (Hl x Hx). lia.
Qed.

Lemma descending_perm l : descending l ≡ₚ l.
Proof. unfold descending. rewrite reverse_Permutation. apply merge_sort_Permutation. Qed.

Lemma descending_sorted l : StronglySorted Z.ge (descending l).
Proof.
  unfold descending.
  assert (Hs : StronglySorted Z.le (merge_sort Z.le l)) by (apply StronglySorted_merge_sort; exact _).
  induction Hs as [|x xs _ IH Hx]; [constructor|]. rewrite reverse_cons.
  apply StronglySorted_app. split_and!; [|done|by repeat constructor].
  intros a b Ha ->%list_elem_of_singleton. rewrite elem_of_reverse in Ha.
  rewrite Forall_forall in Hx. specialize (Hx a Ha). lia.
Qed.

Lemma covers_each_count d r :
  StronglySorted Z.ge d → StronglySorted Z.ge r →
  (∀ t, (at_least t r ≤ at_least t d)%nat) → covers_each d r = true.
Proof.
  intros Hd Hr. revert d Hd. induction Hr as [|y r Hr IH Hy]; intros d Hd Hc; [by destruct d|].
  rewrite Forall_forall in Hy. destruct Hd as [|x d Hd Hx].
  { specialize (Hc y). rewrite at_least_cons, decide_True in Hc by lia.
    unfold at_least at 2 in Hc. simpl in Hc. lia. }
  rewrite Forall_forall in Hx. cbn [covers_each].
  assert (Hyx : (y ≤ x)%Z).
  { destruct (decide (y ≤ x)%Z) as [|Hlt]; [done|]. specialize (Hc y).
    rewrite at_least_cons, decide_True in Hc by lia.
    rewrite (at_least_zero y (x :: d)) in Hc; [lia|].
    intros v [->|Hv]%elem_of_cons; [lia|]. specialize (Hx v Hv). lia. }
  rewrite (proj2 (Z.leb_le y x)) by done. cbn [andb]. apply IH; [done|].
  intros t. specialize (Hc t). rewrite !at_least_cons in Hc. case_decide as Hty.
  - rewrite decide_True in Hc by lia. lia.
  - rewrite (at_least_zero t r); [lia|]. intros v Hv. specialize (Hy v Hv). lia.
Qed.

Lemma covers_each_Forall2 d r :
  covers_each d r = true → Forall2 Z.le r (take (length r) d) ∧ (length r ≤ length d)%nat.
Proof.
  revert d. induction r as [|y r IH]; intros [|x d] Hc; cbn [covers_each] in Hc; try done;
    [split; [constructor|simpl; lia]..|].
  apply andb_true_iff in Hc as [Hle%Z.leb_le Hc]. destruct (IH d Hc) as [H1 H2].
  simpl. split; [by constructor|lia].
Qed.

Lemma Forall2_perm_l {A B} (R : A → B → Prop) l l' k :
  l ≡ₚ l' → Forall2 R l k → ∃ k', k' ≡ₚ k ∧ Forall2 R l' k'.
Proof.
  intros Hp. revert k. induction Hp as [|x l l' _ IH|x y l|l1 l2 l3 _ IH1 _ IH2]; intros k Hk.
  - inversion Hk. by exists [].
  - inversion Hk as [|? b ? k0 Hxb Hl]; subst. destruct (IH k0 Hl) as (k' & Hp' & Hf).
    exists (b :: k'). split; [by constructor|by constructor].
  - inversion Hk as [|? b ? k0 Hyb Hl]; subst. inversion Hl as [|? c ? k1 Hxc Hl']; subst.
    exists (c :: b :: k1). split; [constructor|by repeat constructor].
  - destruct (IH1 k Hk) as (k1 & Hp1 & Hf1). destruct (IH2 k1 Hf1) as (k2 & Hp2 & Hf2).
    exists k2. split; [by etrans|done].
Qed.

Lemma at_least_submseteq t l k : l ⊆+ k → (at_least t l ≤ at_least t k)%nat.
Proof.
  intros [k' Hk]%submseteq_Permutation. unfold at_least. rewrite Hk, filter_app, length_app. lia.
Qed.

Lemma at_least_Forall2 t r h : Forall2 Z.le r h → (at_least t r ≤ at_least t h)%nat.
Proof.
  induction 1 as [|y x r h Hle _ IH]; [done|]. rewrite !at_least_cons.
  repeat case_decide; lia.
Qed.

(** Every pod of the receiver on a donor pod of its own. *)
Definition hosted (donor receiver : list Z) : Prop :=
  ∃ hosts, hosts ⊆+ donor ∧ Forall2 Z.le receiver hosts.

Lemma PodsCover_spec d dg r rg :
  d ≠ [] → r ≠ [] → PodsCover d dg r rg = true ↔ hosted d r.
Proof.
  intros Hd Hr. unfold PodsCover. destruct d as [|x d]; [done|]. destruct r as [|y r]; [done|].
  set (D := x :: d). set (R := y :: r). split.
  - destruct (length D <? length R)%nat; [done|]. intros [Hf _]%covers_each_Forall2.
    destruct (Forall2_perm_l Z.le _ R _ (descending_perm R) Hf) as (h & Hp & Hh).
    exists h. split; [|done]. rewrite Hp. etrans; [apply sublist_submseteq, sublist_take|].
    by rewrite descending_perm.
  - intros (h & Hs & Hf). assert (Hl : (length R ≤ length D)%nat)
      by (rewrite (Forall2_length _ _ _ Hf); by apply submseteq_length).
    rewrite (proj2 (Nat.ltb_ge (length D) (length R))) by done.
    apply covers_each_count; [apply descending_sorted..|]. intros t.
    assert (Hp : ∀ l, at_least t (descending l) = at_least t l).
    { intros l. unfold at_least. by rewrite descending_perm. }
    rewrite !Hp. etrans; [by apply at_least_Forall2|by apply at_least_submseteq].
Qed.

(** *** The search for a transfer each *)
Section search.
Context (z : spec_float).
Notation entry := (nat * ShareClaimable)%type.

(** One transfer per replica, no transfer twice, each qualifying. *)
Definition matching (order : list ShareWake) (free picked : list entry) : Prop :=
  picked ⊆+ free ∧ Forall2 (λ w (e : entry), qualifies z e.2 w = true) order picked.

(** The loop of [assign] over the preference order. *)
Definition try_all (w : ShareWake) (order : list ShareWake) :=
  fix try (pre post : list entry) : option (list entry) :=
    match post with
    | [] => None
    | e :: post =>
        if qualifies z e.2 w then
          match assign z order (pre ++ post) with
          | Some l => Some (e :: l)
          | None => try (pre ++ [e]) post
          end
        else try (pre ++ [e]) post
    end.

Lemma assign_cons w order free : assign z (w :: order) free = try_all w order [] free.
Proof. reflexivity. Qed.

Lemma try_all_spec w order post pre :
  match try_all w order pre post with
  | Some l => ∃ a e b k, pre ++ post = a ++ e :: b ∧ l = e :: k ∧ qualifies z e.2 w = true ∧
                assign z order (a ++ b) = Some k
  | None => ∀ a e b, post = a ++ e :: b → qualifies z e.2 w = true →
                assign z order (pre ++ a ++ b) = None
  end.
Proof.
  revert pre. induction post as [|e post IH]; intros pre; cbn [try_all].
  { intros a e b He. by destruct a. }
  specialize (IH (pre ++ [e])). destruct (qualifies z e.2 w) eqn:Eq.
  - destruct (assign z order (pre ++ post)) as [k|] eqn:Ek.
    { exists pre, e, post, k. done. }
    destruct (try_all w order (pre ++ [e]) post) as [l|].
    + destruct IH as (a & e' & b & k & E & ?). exists a, e', b, k. by rewrite <- app_assoc in E.
    + intros [|a0 a] e' b [= -> ->] Hq; [done|]. specialize (IH a e' b eq_refl Hq).
      by rewrite <- app_assoc in IH.
  - destruct (try_all w order (pre ++ [e]) post) as [l|].
    + destruct IH as (a & e' & b & k & E & ?). exists a, e', b, k. by rewrite <- app_assoc in E.
    + intros [|a0 a] e' b [= -> ->] Hq; [congruence|]. specialize (IH a e' b eq_refl Hq).
      by rewrite <- app_assoc in IH.
Qed.

Lemma assign_spec order free :
  match assign z order free with
  | Some picked => matching order free picked
  | None => ∀ picked, ¬ matching order free picked
  end.
Proof.
  revert free. induction order as [|w order IH]; intros free.
  { split; [apply submseteq_nil_l|constructor]. }
  rewrite assign_cons. pose proof (try_all_spec w order free []) as Ht.
  destruct (try_all w order [] free) as [l|].
  - destruct Ht as (a & e & b & k & E & -> & Hq & Hk). cbn [app] in E. specialize (IH (a ++ b)).
    rewrite Hk in IH. destruct IH as [Hs Hf]. split; [|by constructor].
    rewrite E, <- Permutation_middle. by apply submseteq_skip.
  - intros picked [Hs Hf]. inversion Hf as [|? e ? k Hq Hf']; subst.
    assert (He : e ∈ free) by (eapply elem_of_submseteq; [|exact Hs]; constructor).
    apply list_elem_of_split in He as (a & b & ->). specialize (Ht a e b eq_refl Hq). cbn [app] in Ht.
    specialize (IH (a ++ b)). rewrite Ht in IH. apply (IH k). split; [|done].
    rewrite <- Permutation_middle in Hs.
    apply (submseteq_app_inv_l _ _ [e]). done.
Qed.
End search.

(** *** What a successful claim does *)
Lemma pref_perm (entries : list ShareClaimable) :
  snd <$> sort_stable (λ a b : nat * ShareClaimable, entry_before a.2 b.2) (imap pair entries) ≡ₚ entries.
Proof.
  rewrite sort_stable_perm. rewrite fmap_imap.
  rewrite (imap_ext _ (const id)) by done. rewrite imap_const. by rewrite list_fmap_id.
Qed.

Lemma matching_entries z order entries picked :
  matching z order (sort_stable (λ a b : nat * ShareClaimable, entry_before a.2 b.2) (imap pair entries)) picked →
  picked.*2 ⊆+ entries ∧ Forall2 (λ w e, qualifies z e w = true) order (picked.*2).
Proof.
  intros [Hs Hf]. split.
  - rewrite <- (pref_perm entries) at 1. by apply fmap_submseteq.
  - by apply Forall2_fmap_r.
Qed.

Lemma matching_lift z order entries es :
  es ⊆+ entries → Forall2 (λ w e, qualifies z e w = true) order es →
  ∃ picked, matching z order
    (sort_stable (λ a b : nat * ShareClaimable, entry_before a.2 b.2) (imap pair entries)) picked.
Proof.
  intros Hs Hf. rewrite <- (pref_perm entries) in Hs.
  apply submseteq_Permutation in Hs as [k Hk].
  symmetry in Hk. apply Permutation_map_inv in Hk as (l3 & E & Hp).
  symmetry in E. apply fmap_app_inv in E as (l1 & l2 & -> & -> & ->).
  exists l1. split.
  - rewrite Hp. by apply submseteq_inserts_r.
  - by apply Forall2_fmap_r in Hf.
Qed.

(** Every published transfer has one name, in one group. *)
Definition all_ids (m : gmap string (list ShareClaimable)) : list string :=
  ID <$> mjoin (map_to_list m).*2.

(** No transfer is claimed twice, and none that is claimed can be claimed. *)
Record claims_inv (s : ShareClaimStore) : Prop := {
  ci_claims : NoDup (claims_of (claims s));
  ci_open : ∀ m, claimable s = Some m → NoDup (all_ids m);
  ci_apart : ∀ m x, claimable s = Some m → x ∈ all_ids m → x ∉ claims_of (claims s) }.

Lemma all_ids_elem m x : x ∈ all_ids m ↔ ∃ k es e, m !! k = Some es ∧ e ∈ es ∧ x = ID e.
Proof.
  unfold all_ids. rewrite list_elem_of_fmap. split.
  - intros (e & -> & (es & He & ([k es'] & -> & Hk)%list_elem_of_fmap)%list_elem_of_join).
    apply elem_of_map_to_list in Hk. exists k, es', e. done.
  - intros (k & es & e & Hk & He & ->). exists e. split; [done|]. apply list_elem_of_join.
    exists es. split; [done|]. apply list_elem_of_fmap. exists (k, es). split; [done|].
    by apply elem_of_map_to_list.
Qed.

Lemma all_ids_insert m k es es' :
  m !! k = Some es → es' ⊆+ es → all_ids (<[k := es']> m) ⊆+ all_ids m.
Proof.
  intros Hk Hs. unfold all_ids. apply fmap_submseteq.
  assert (E : <[k := es]> (delete k m) = m) by (by rewrite insert_delete_eq, insert_id).
  rewrite <- E at 2. rewrite <- insert_delete_eq.
  rewrite !map_to_list_insert by apply lookup_delete_eq.
  cbn. by apply submseteq_app.
Qed.

Lemma filter_sub {A} (P : A → Prop) `{∀ x, Decision (P x)} (l : list A) : filter P l ⊆+ l.
Proof. apply sublist_submseteq. apply sublist_filter. Qed.

Lemma NoDup_submseteq {A} (l k : list A) : l ⊆+ k → NoDup k → NoDup l.
Proof. intros [j ->]%submseteq_Permutation [? _]%NoDup_app. done. Qed.

Lemma Publish_ids (f : ShareClaimable → Prop) `{∀ x, Decision (f x)} m :
  all_ids (filter f <$> m) ⊆+ all_ids m.
Proof.
  unfold all_ids. apply fmap_submseteq. rewrite map_to_list_fmap, <- list_fmap_compose.
  induction (map_to_list m) as [|[k es] l IH]; [done|]. cbn.
  apply submseteq_app; [apply filter_sub|apply IH].
Qed.

Lemma Publish_inv s m now : claims_inv s → NoDup (all_ids m) → claims_inv (Publish s m now).
Proof.
  intros [H1 H2 H3] Hm. unfold Publish. split; cbn [claims claimable].
  - eapply NoDup_submseteq; [|exact H1]. apply fmap_submseteq, filter_sub.
  - intros m' [= <-]. eapply NoDup_submseteq; [apply Publish_ids|done].
  - intros m' x [= <-] Hx. apply all_ids_elem in Hx as (k & es & e & Hk & He & ->).
    rewrite lookup_fmap in Hk. destruct (m !! k) as [es0|]; [|done]. simpl in Hk. simplify_eq.
    by apply list_elem_of_filter in He as [? _].
Qed.

Lemma Take_inv s scope acc : claims_inv s → claims_inv (Take s scope acc).2.
Proof.
  intros [H1 H2 H3]. unfold Take. split; cbn [snd claims claimable].
  - eapply NoDup_submseteq; [|exact H1]. apply fmap_submseteq, filter_sub.
  - done.
  - intros m x Hm Hx Hin. apply (H3 m x Hm Hx).
    eapply elem_of_submseteq; [exact Hin|]. apply fmap_submseteq, filter_sub.
Qed.

(** The transfers of a group that a wake may try, when it may try any. *)
Definition open_entries (s : ShareClaimStore) (scope acc : string) : list ShareClaimable :=
  match claimable s with
  | Some m => default [] (m !! ShareGroupKey scope acc)
  | None => []
  end.

(** A whole set of transfers for a wake: one each, no transfer twice. *)
Definition funds (z : spec_float) (wakes : list ShareWake) (open es : list ShareClaimable) : Prop :=
  es ⊆+ open ∧ ∃ order, order ≡ₚ wakes ∧ Forall2 (λ w e, qualifies z e w = true) order es.

Definition claim_for (scope acc model : string) (now : Z) (w : ShareWake) (e : ShareClaimable) : ShareClaim :=
  MkClaim scope acc (ID e) (wake_Variant w) model now.

Lemma zip_with_snd {A B C} (f : A → B → C) (l : list A) (k : list (nat * B)) :
  zip_with (λ a (e : nat * B), f a e.2) l k = zip_with f l k.*2.
Proof. revert k. induction l as [|x l IH]; intros [|e k]; cbn; [done..|]. f_equal. apply IH. Qed.

Lemma ClaimSet_spec s scope acc wakes z model now made out s' :
  ClaimSet s scope acc wakes z model now = (made, out, s') →
  (out ≠ Redirected ∧ made = [] ∧ s' = s ∧
   (out = RefusedFit → ∀ es, ¬ funds z wakes (open_entries s scope acc) es)) ∨
  (out = Redirected ∧ ∃ m entries order es,
    claimable s = Some m ∧ m !! ShareGroupKey scope acc = Some entries ∧
    order ≡ₚ wakes ∧ es ⊆+ entries ∧ Forall2 (λ w e, qualifies z e w = true) order es ∧
    made = zip_with (claim_for scope acc model now) order es ∧
    s' = MkClaims (Some (<[ShareGroupKey scope acc := filter (λ e, ID e ∉ claims_of made) entries]> m))
           (claims s ++ made) (at_ s) (<[model := now]> (lastClaim s))).
Proof.
  unfold ClaimSet, open_entries.
  destruct wakes as [|w0 wakes0]; [intros [= <- <- <-]; left; split_and!; done|].
  set (wakes := w0 :: wakes0). destruct (claimable s) as [m|] eqn:Em;
    [|intros [= <- <- <-]; left; split_and!; done].
  case_match; [intros [= <- <- <-]; left; split_and!; done|].
  case_match; [intros [= <- <- <-]; left; split_and!; done|]. cbv zeta.
  case_bool_decide as He; [intros [= <- <- <-]; left; split_and!; done|].
  destruct (negb (existsb _ _)); [intros [= <- <- <-]; left; split_and!; done|].
  set (entries := default [] (m !! ShareGroupKey scope acc)) in *.
  pose proof (assign_spec z (sort_stable wake_before wakes)
    (sort_stable (λ a b : nat * ShareClaimable, entry_before a.2 b.2) (imap pair entries))) as Ha.
  destruct (assign z _ _) as [picked|].
  - intros [= <- <- <-]. right. split; [done|]. apply matching_entries in Ha as [Hs Hf].
    exists m, entries, (sort_stable wake_before wakes), picked.*2.
    split_and!; try done.
    + unfold entries in *. by destruct (m !! _).
    + apply sort_stable_perm.
    + apply (zip_with_snd (claim_for scope acc model now)).
  - intros [= <- <- <-]. left. split_and!; try done. intros _ es [Hs (order & Ho & Hf)].
    rewrite <- (sort_stable_perm wake_before wakes) in Ho.
    destruct (Forall2_perm_l _ _ _ _ Ho Hf) as (es' & Hes & Hf').
    rewrite <- Hes in Hs. destruct (matching_lift z _ entries es' Hs Hf') as [picked Hp].
    by apply (Ha picked).
Qed.

(** Names do not repeat from one group to another. *)
Lemma NoDup_all_ids_groups m k k' x es es' :
  NoDup (all_ids m) → m !! k = Some es → m !! k' = Some es' → k ≠ k' →
  x ∈ ID <$> es → x ∉ ID <$> es'.
Proof.
  intros Hn Hk Hk' Hne Hx Hx'. unfold all_ids in Hn.
  rewrite <- (insert_delete_id m _ _ Hk) in Hn.
  rewrite map_to_list_insert in Hn by apply lookup_delete_eq. cbn in Hn.
  rewrite fmap_app in Hn. apply NoDup_app in Hn as (_ & Hd & _). apply (Hd x Hx).
  apply all_ids_elem. apply list_elem_of_fmap in Hx' as (e & -> & He).
  exists k', es', e. split_and!; [|done|done]. by rewrite lookup_delete_ne.
Qed.

Lemma claims_of_zip scope acc model now order es :
  length order = length es →
  claims_of (zip_with (claim_for scope acc model now) order es) = ID <$> es.
Proof.
  revert es. induction order as [|w order IH]; intros [|e es] Hl; cbn; try done.
  f_equal. apply IH. by injection Hl.
Qed.

Lemma ClaimSet_inv s scope acc wakes z model now made out s' :
  claims_inv s → ClaimSet s scope acc wakes z model now = (made, out, s') → claims_inv s'.
Proof.
  intros [H1 H2 H3] Hc. apply ClaimSet_spec in Hc as [(_ & _ & -> & _)|(_ & m & entries & order & es & Hm
    & Hk & _ & Hs & Hf & -> & ->)]; [done|].
  specialize (H2 m Hm). rewrite claims_of_zip by (by eapply Forall2_length).
  assert (Hin : ∀ x, x ∈ ID <$> entries → x ∈ all_ids m).
  { intros x (e & -> & He)%list_elem_of_fmap. apply all_ids_elem. exists (ShareGroupKey scope acc), entries, e. done. }
  assert (Hids : (ID <$> entries) ⊆+ all_ids m).
  { unfold all_ids. apply fmap_submseteq. rewrite <- (insert_delete_id m _ _ Hk).
    rewrite map_to_list_insert by apply lookup_delete_eq. cbn. by apply submseteq_inserts_r. }
  assert (Hes : (ID <$> es) ⊆+ (ID <$> entries)) by (by apply fmap_submseteq).
  split; cbn [claims claimable].
  - unfold claims_of in *. rewrite fmap_app. fold (claims_of (zip_with (claim_for scope acc model now) order es)).
    rewrite claims_of_zip by (by eapply Forall2_length). apply NoDup_app. split_and!; [done| |].
    + intros x Hx Hx'. apply (H3 m x Hm); [|done]. apply Hin. by eapply elem_of_submseteq.
    + eapply NoDup_submseteq; [exact Hes|]. by eapply NoDup_submseteq.
  - intros m' [= <-]. eapply NoDup_submseteq; [|exact H2].
    eapply all_ids_insert; [done|]. apply filter_sub.
  - intros m' x [= <-] Hx. unfold claims_of. rewrite fmap_app, elem_of_app.
    fold (claims_of (zip_with (claim_for scope acc model now) order es)).
    rewrite claims_of_zip by (by eapply Forall2_length). intros [Hx'|Hx'].
    + apply (H3 m x Hm); [|done]. eapply elem_of_submseteq; [exact Hx|].
      eapply all_ids_insert; [done|]. apply filter_sub.
    + apply all_ids_elem in Hx as (k & es0 & e & Hk' & He & ->).
      apply lookup_insert_Some in Hk' as [[<- <-]|[Hne Hk']].
      * by apply list_elem_of_filter in He as [? _].
      * apply (NoDup_all_ids_groups m (ShareGroupKey scope acc) k (ID e) entries es0); try done.
        -- by eapply elem_of_submseteq.
        -- apply list_elem_of_fmap. eauto.
Qed.

(** A store in use: each published list names a transfer once. *)
Inductive reach : ShareClaimStore → Prop :=
| reach_new : reach (MkClaims None [] 0 ∅)
| reach_publish s m now : reach s → NoDup (all_ids m) → reach (Publish s m now)
| reach_claim s scope acc wakes z model now :
    reach s → reach (ClaimSet s scope acc wakes z model now).2
| reach_take s scope acc : reach s → reach (Take s scope acc).2.

Lemma claims_reach_inv s : reach s → claims_inv s.
Proof.
  induction 1 as [|s m now _ IH Hm|s scope acc wakes z model now _ IH|s scope acc _ IH].
  - split; cbn; [constructor|done|done].
  - by apply Publish_inv.
  - destruct (ClaimSet s scope acc wakes z model now) as [[made out] s'] eqn:E.
    by eapply ClaimSet_inv.
  - by apply Take_inv.
Qed.
End ShareClaims.

(** ** Wakes from zero *)
Module Activations.

Record Activations := MkActivations { act_m : gmap string Z; firstAt : gmap string Z }.

Definition NewActivations : Activations := MkActivations ∅ ∅.

Definition activationKey (namespace modelID : string) : string := namespace +:+ "/" +:+ modelID.

(** The operations take the key [activationKey] makes and the clock's reading. *)
Definition Mark (a : Activations) (key : string) (now : Z) : Activations :=
  MkActivations (<[key := now]> (act_m a))
    (match firstAt a !! key with Some _ => firstAt a | None => <[key := now]> (firstAt a) end).

Definition CompleteWake (a : Activations) (key : string) (now : Z) : option Z * Activations :=
  match firstAt a !! key with
  | None => (None, a)
  | Some t => (Some (now - t)%Z, MkActivations (act_m a) (delete key (firstAt a)))
  end.

Definition Clear (a : Activations) (key : string) : Activations :=
  MkActivations (delete key (act_m a)) (delete key (firstAt a)).

Definition WithinRetention (a : Activations) (key : string) (retention now : Z) : bool * Activations :=
  if (retention <=? 0)%Z then (false, a)
  else match act_m a !! key with
       | None => (false, a)
       | Some t => if (now - t <? retention)%Z then (true, a)
                   else (false, MkActivations (delete key (act_m a)) (firstAt a))
       end.

(** A registry in use: the calls and when they are made. *)
Inductive call :=
| CMark (key : string) | CComplete (key : string) | CClear (key : string)
| CWithin (key : string) (retention : Z).

Definition run1 (a : Activations) (c : Z * call) : Activations :=
  match c.2 with
  | CMark k => Mark a k c.1
  | CComplete k => (CompleteWake a k c.1).2
  | CClear k => Clear a k
  | CWithin k r => (WithinRetention a k r c.1).2
  end.

Definition run (a : Activations) (cs : list (Z * call)) : Activations := foldl run1 a cs.

(** When the model was last marked, if it was and has not been cleared since. *)
Definition mark1 (k : string) (last : option Z) (c : Z * call) : option Z :=
  match c.2 with
  | CMark k' => if decide (k' = k) then Some c.1 else last
  | CClear k' => if decide (k' = k) then None else last
  | _ => last
  end.

Definition last_mark (k : string) (cs : list (Z * call)) : option Z := foldl (mark1 k) None cs.

(** When the wake episode that is open began. *)
Definition open1 (k : string) (opened : option Z) (c : Z * call) : option Z :=
  match c.2 with
  | CMark k' => if decide (k' = k) then Some (default c.1 opened) else opened
  | CClear k' | CComplete k' => if decide (k' = k) then None else opened
  | CWithin _ _ => opened
  end.

Definition opened (k : string) (cs : list (Z * call)) : option Z := foldl (open1 k) None cs.

(** Time does not go back, and the model's retention does not change. *)
Definition well_timed (k : string) (r : Z) (cs : list (Z * call)) : Prop :=
  StronglySorted Z.le cs.*1 ∧ ∀ t r', (t, CWithin k r') ∈ cs → (0 < r')%Z → r' = r.

(** The registry has the last mark, or has dropped it because it lapsed. *)
Definition held (r : Z) (last stored : option Z) (now : Z) : Prop :=
  stored = last ∨ (stored = None ∧ ∃ t, last = Some t ∧ (r ≤ now - t)%Z).

Lemma run1_held k r a last c t :
  held r last (act_m a !! k) t → (t ≤ c.1)%Z → (∀ r', c.2 = CWithin k r' → (0 < r')%Z → r' = r) →
  held r (mark1 k last c) (act_m (run1 a c) !! k) c.1.
Proof.
  intros Hh Ht Hr. unfold run1, mark1.
  assert (Hw : held r last (act_m a !! k) c.1).
  { destruct Hh as [?|(? & t0 & ? & ?)]; [by left|right]. split; [done|]. exists t0. split; [done|lia]. }
  destruct c as [now [k'|k'|k'|k' r']]; cbn [fst snd] in *.
  - case_decide as E; cbn; [subst; rewrite lookup_insert_eq; by left|by rewrite lookup_insert_ne].
  - unfold CompleteWake. by case_match.
  - case_decide as E; cbn; [subst; rewrite lookup_delete_eq; by left|by rewrite lookup_delete_ne].
  - unfold WithinRetention. destruct (Z.leb_spec r' 0); [done|].
    destruct (act_m a !! k') as [t0|] eqn:Ek; [|done].
    destruct (Z.ltb_spec (now - t0) r'); [done|]. cbn.
    destruct (decide (k' = k)) as [->|Hne]; [|by rewrite lookup_delete_ne].
    rewrite lookup_delete_eq. rewrite (Hr r' eq_refl ltac:(lia)) in *. rewrite Ek in Hw.
    destruct Hw as [Hl|[? _]]; [|done]. right. split; [done|]. exists t0. split; [done|lia].
Qed.

Lemma run_held k r cs a last t :
  held r last (act_m a !! k) t → (∀ c, c ∈ cs → (t ≤ c.1)%Z) → well_timed k r cs →
  ∀ now, (t ≤ now)%Z → (∀ c, c ∈ cs → (c.1 ≤ now)%Z) →
  held r (foldl (mark1 k) last cs) (act_m (run a cs) !! k) now.
Proof.
  unfold run. revert a last t. induction cs as [|c cs IH]; intros a last t Hh Ht [Hs Hr] now Hn Hcs; cbn [foldl].
  { destruct Hh as [?|(? & t0 & ? & ?)]; [by left|right]. split; [done|]. exists t0. split; [done|lia]. }
  rewrite fmap_cons in Hs. apply StronglySorted_cons in Hs as [Hc Hs]. rewrite Forall_forall in Hc.
  apply (IH _ _ c.1).
  - apply (run1_held k r a last c t Hh); [apply Ht; constructor|].
    intros r' Hc'. apply (Hr c.1). destruct c as [t1 c]. cbn in *. subst. constructor.
  - intros c' Hc'. apply Hc. apply list_elem_of_fmap. eauto.
  - split; [done|]. intros t1 r' Hin. apply (Hr t1). by constructor.
  - apply Hcs. constructor.
  - intros c' Hc'. apply Hcs. by constructor.
Qed.

Lemma run_opened k cs a :
  firstAt (run a cs) !! k = foldl (open1 k) (firstAt a !! k) cs.
Proof.
  unfold run. revert a. induction cs as [|c cs IH]; intros a; cbn [foldl]; [done|]. rewrite IH. f_equal.
  unfold run1, open1. destruct c as [now [k'|k'|k'|k' r']]; cbn [fst snd].
  - case_decide as E; cbn.
    + subst. destruct (firstAt a !! k) eqn:Ek; cbn; [done|by rewrite lookup_insert_eq].
    + destruct (firstAt a !! k'); [done|by rewrite lookup_insert_ne].
  - unfold CompleteWake. case_decide as E.
    + subst. destruct (firstAt a !! k) eqn:Ek; cbn; [by rewrite lookup_delete_eq|done].
    + destruct (firstAt a !! k'); cbn; [by rewrite lookup_delete_ne|done].
  - case_decide as E; cbn; [subst; by rewrite lookup_delete_eq|by rewrite lookup_delete_ne].
  - unfold WithinRetention. repeat case_match; done.
Qed.
End Activations.

(** ** Properties *)

(** C10: no wake-up is lost.  In every interleaving of writers and subscribers, a
    subscriber that is waiting, with no wake-up pending and no running [Set]
    that has still to signal it, has read the decision that stands; and every
    live subscriber is among those the next [Set] of its target signals. *)
Theorem no_lost_wakeup w c u :
  DecisionStore.reach w → DecisionStore.live w !! c = Some u →
  let s := DecisionStore.store w in
  (∀ seen, DecisionStore.sub_phase u = DecisionStore.Waiting seen →
     DecisionStore.buf w !! c ≠ Some true →
     (∀ ws, ws ∈ DecisionStore.setters w → c ∉ ws) →
     seen = DecisionStore.Get s (DecisionStore.sub_ns u) (DecisionStore.sub_name u)) ∧
  ∀ desired now,
    c ∈ (DecisionStore.Set_locked s (DecisionStore.sub_ns u) (DecisionStore.sub_name u) desired now).2.
Proof.
  intros [_ Hreg Hf]%DecisionStore.reach_inv Hu. cbv zeta. split.
  - intros seen Hp Hb Hw. destruct (Hf c u seen Hu Hp) as [->|[?|(ws & Hin & Hc)]]; [done|done|].
    by destruct (Hw ws Hin).
  - intros desired now. destruct (Hreg c u Hu) as (_ & g & Hg & Hc).
    by apply (DecisionStore.Set_locked_waiters _ _ _ _ _ _ g (DecisionStore.sub_id u) c Hg Hc).
Qed.

(** A subscriber that wakes for the one write of its target. *)
Definition demo_sub (ph : DecisionStore.phase) : DecisionStore.subscriber :=
  DecisionStore.MkSub "ns" "a" 0 ph.

Definition demo_written : DecisionStore.world :=
  Eval vm_compute in
    DecisionStore.w_set
      (DecisionStore.w_phase (DecisionStore.w_subscribe DecisionStore.start "ns" "a")
         {[ 0%nat := false ]} 0 (demo_sub DecisionStore.Reading) (DecisionStore.Waiting None))
      "ns" "a" 3 7.

Lemma demo_written_reach : DecisionStore.reach demo_written.
Proof.
  eapply rtc_l; [apply (DecisionStore.step_subscribe _ "ns" "a"); vm_compute; reflexivity|].
  eapply rtc_l; [apply (DecisionStore.step_read _ 0 (demo_sub DecisionStore.Reading)); vm_compute; reflexivity|].
  eapply rtc_l; [apply (DecisionStore.step_set _ "ns" "a" 3 7)|].
  match goal with |- rtc _ ?x _ => replace x with demo_written by (vm_compute; reflexivity) end.
  apply rtc_refl.
Qed.

Lemma one_wake_reach : ∃ w u, DecisionStore.reach w ∧ DecisionStore.live w !! 0 = Some u ∧
  DecisionStore.sub_phase u = DecisionStore.Waiting (Some (DecisionStore.MkDecision 3 7)) ∧
  DecisionStore.buf w !! 0 = Some false ∧ DecisionStore.setters w = [].
Proof.
  eexists _, _. split.
  - unfold DecisionStore.reach. etrans; [exact demo_written_reach|].
    eapply rtc_l; [apply (DecisionStore.step_signal _ [] 0 [] []); reflexivity|].
    eapply rtc_l; [apply (DecisionStore.step_return _ [] []); reflexivity|].
    eapply rtc_l; [apply (DecisionStore.step_wake _ 0 (demo_sub (DecisionStore.Waiting None)) None);
                   vm_compute; reflexivity|].
    eapply rtc_l; [apply (DecisionStore.step_read _ 0 (demo_sub DecisionStore.Reading)); vm_compute; reflexivity|].
    apply rtc_refl.
  - split_and!; vm_compute; reflexivity.
Qed.

Lemma no_lost_wakeup_witness :
  ∃ w u, DecisionStore.reach w ∧ DecisionStore.live w !! 0 = Some u ∧
    DecisionStore.sub_phase u = DecisionStore.Waiting (Some (DecisionStore.MkDecision 3 7)) ∧
    DecisionStore.sub_phase u = DecisionStore.Waiting
      (DecisionStore.Get (DecisionStore.store w) (DecisionStore.sub_ns u) (DecisionStore.sub_name u)).
Proof.
  destruct one_wake_reach as (w & u & Hr & Hu & Hp & Hb & Hs). exists w, u. split; [exact Hr|].
  split; [exact Hu|]. split; [exact Hp|].
  destruct (no_lost_wakeup w 0 u Hr Hu) as [Hl _].
  rewrite Hp. f_equal. apply (Hl _ Hp).
  - rewrite Hb. discriminate.
  - intros ws Hin. rewrite Hs in Hin. inversion Hin.
Defined.

(** [PodsCover] decides whether a donor's pods can host a receiver's: exactly
    when every receiver pod can have a donor pod of its own at least its size. *)
Theorem PodsCover_matching d dg r rg :
  d ≠ [] → r ≠ [] →
  ShareClaims.PodsCover d dg r rg = true ↔ ∃ hosts, hosts ⊆+ d ∧ Forall2 Z.le r hosts.
Proof. apply ShareClaims.PodsCover_spec. Qed.

Lemma PodsCover_matching_witness :
  ShareClaims.PodsCover [2; 8; 4]%Z 14 [8; 3]%Z 11 = true ∧
  ∃ hosts, hosts ⊆+ [2; 8; 4]%Z ∧ Forall2 Z.le [8; 3]%Z hosts.
Proof.
  split; [vm_compute; reflexivity|].
  apply (PodsCover_matching [2; 8; 4]%Z 14 [8; 3]%Z 11); [discriminate|discriminate|vm_compute; reflexivity].
Defined.

(** C14: a wake claims a transfer for each of its replicas or none.  A refusal
    changes nothing; a refusal for fit means no choice of transfers would have
    done; a success claims, for each replica of the wake, a transfer of its
    own whose receiver the wake outranks and whose donor pods cover the replica,
    takes those transfers off the list, and holds the model off. *)
Theorem ClaimSet_all_or_none s scope acc wakes z model now made out s' :
  ShareClaims.ClaimSet s scope acc wakes z model now = (made, out, s') →
  (out ≠ ShareClaims.Redirected → made = [] ∧ s' = s ∧
    (out = ShareClaims.RefusedFit →
     ∀ es, ¬ ShareClaims.funds z wakes (ShareClaims.open_entries s scope acc) es)) ∧
  (out = ShareClaims.Redirected →
    length made = length wakes ∧
    ShareClaims.claims s' = ShareClaims.claims s ++ made ∧
    ShareClaims.lastClaim s' !! model = Some now ∧
    ∃ es, ShareClaims.funds z wakes (ShareClaims.open_entries s scope acc) es ∧
      ShareClaims.claims_of made = ShareClaims.ID <$> es ∧
      ∀ e, e ∈ ShareClaims.open_entries s' scope acc →
           ShareClaims.ID e ∉ ShareClaims.claims_of made).
Proof.
  intros [(Hno & -> & -> & Hfit)|(-> & m & entries & order & es & Hm & Hk & Ho & Hs & Hf & -> & ->)]
    %ShareClaims.ClaimSet_spec; (split; [intros Hne|intros He]); try done.
  pose proof (Forall2_length _ _ _ Hf) as Hl. rewrite ShareClaims.claims_of_zip by done.
  cbn [ShareClaims.claims ShareClaims.lastClaim].
  split_and!; [|done|by rewrite lookup_insert_eq|].
  - rewrite length_zip_with_l_eq by done. by rewrite Ho.
  - exists es. unfold ShareClaims.open_entries. rewrite Hm. cbn. rewrite Hk, lookup_insert_eq. cbn.
    split_and!; [split; [done|by exists order]|done|].
    intros e [? _]%list_elem_of_filter. done.
Qed.

Definition demo_claimable (id : string) (pods : list Z) : ShareClaims.ShareClaimable :=
  ShareClaims.MkClaimable id (S754_finite false 1 0) pods (foldr Z.add 0%Z pods).

Definition demo_claims : ShareClaims.ShareClaimStore :=
  ShareClaims.Publish (ShareClaims.MkClaims None [] 0 ∅)
    {[ "|H100" := [demo_claimable "t1" [8%Z]; demo_claimable "t2" [4%Z]] ]} 10.

(** The largest replica would take the only transfer the other fits if the
    search did not look further. *)
Lemma ClaimSet_all_or_none_witness :
  let '(made, out, s') := ShareClaims.ClaimSet demo_claims "" "H100"
    [ShareClaims.MkWake [] 4 "ns/prefill"; ShareClaims.MkWake [4%Z] 4 "ns/decode"] (S754_zero false) "ns/m" 20 in
  out = ShareClaims.Redirected ∧ length made = 2%nat.
Proof.
  destruct (ShareClaims.ClaimSet demo_claims "" "H100"
    [ShareClaims.MkWake [] 4 "ns/prefill"; ShareClaims.MkWake [4%Z] 4 "ns/decode"] (S754_zero false) "ns/m" 20)
    as [[made out] s'] eqn:E.
  assert (Ho : out = ShareClaims.Redirected) by (vm_compute in E; congruence).
  split; [exact Ho|].
  destruct (ClaimSet_all_or_none _ _ _ _ _ _ _ _ _ _ E) as [_ Hy].
  destruct (Hy Ho) as [Hl _]. exact Hl.
Defined.

(** No transfer is redirected twice.  Whatever sequence of publications, claims
    and takes the two engines make, the claims waiting to be applied name each
    transfer once, and no transfer with a claim waiting is on offer. *)
Theorem no_transfer_claimed_twice s :
  ShareClaims.reach s →
  NoDup (ShareClaims.claims_of (ShareClaims.claims s)) ∧
  ∀ scope acc e, e ∈ ShareClaims.open_entries s scope acc →
    ShareClaims.ID e ∉ ShareClaims.claims_of (ShareClaims.claims s).
Proof.
  intros [H1 _ H3]%ShareClaims.claims_reach_inv. split; [done|]. intros scope acc e He.
  unfold ShareClaims.open_entries in He. destruct (ShareClaims.claimable s) as [m|] eqn:Em;
    [|by apply not_elem_of_nil in He].
  apply (H3 m); [done|]. apply ShareClaims.all_ids_elem.
  destruct (m !! ShareClaims.ShareGroupKey scope acc) as [es|] eqn:Ek; [|by apply not_elem_of_nil in He].
  exists (ShareClaims.ShareGroupKey scope acc), es, e. done.
Qed.

Lemma no_transfer_claimed_twice_witness :
  let s := (ShareClaims.ClaimSet demo_claims "" "H100" [ShareClaims.MkWake [4%Z] 4 "ns/decode"]
              (S754_zero false) "ns/m" 20).2 in
  ShareClaims.claims_of (ShareClaims.claims s) = ["t1"] ∧
  NoDup (ShareClaims.claims_of (ShareClaims.claims s)).
Proof.
  cbv zeta. split; [vm_compute; reflexivity|].
  apply no_transfer_claimed_twice. apply ShareClaims.reach_claim. unfold demo_claims.
  apply ShareClaims.reach_publish; [apply ShareClaims.reach_new|].
  apply (bool_decide_unpack (NoDup (ShareClaims.all_ids
    {[ "|H100" := [demo_claimable "t1" [8%Z]; demo_claimable "t2" [4%Z]] ]}))). vm_compute. exact I.
Defined.

(** A model woken from zero is left alone for exactly its retention.  However
    the registry was used before, with time not going back and the model's
    retention not changing, the gate holds the model if and only if it was last
    marked less than the retention ago and not cleared since; and the wake that
    is reported complete is timed from the first mark of its episode. *)
Theorem activation_held_for_retention k r cs now :
  (0 < r)%Z → Activations.well_timed k r cs → (∀ c, c ∈ cs → (0 ≤ c.1 ≤ now)%Z) → (0 ≤ now)%Z →
  let a := Activations.run Activations.NewActivations cs in
  ((Activations.WithinRetention a k r now).1 = true ↔
     ∃ t, Activations.last_mark k cs = Some t ∧ (now - t < r)%Z) ∧
  (Activations.CompleteWake a k now).1 = (λ t, (now - t)%Z) <$> Activations.opened k cs.
Proof.
  intros Hr Hw Hcs Hn. cbv zeta. split.
  - destruct (Activations.run_held k r cs Activations.NewActivations None 0) with (now := now)
      as [He|(He & t & Ht & Hge)]; try done; try (intros c Hc; specialize (Hcs c Hc); lia).
    { left. apply lookup_empty. }
    + unfold Activations.WithinRetention, Activations.last_mark in *. rewrite He.
      rewrite (proj2 (Z.leb_gt r 0)) by lia.
      destruct (foldl _ None cs) as [t|]; [|split; [done|by intros (? & ? & _)]].
      destruct (Z.ltb_spec (now - t) r); cbn; split; try done.
      * eauto.
      * intros (t' & [= <-] & ?). lia.
    + unfold Activations.WithinRetention, Activations.last_mark in *. rewrite He, Ht.
      rewrite (proj2 (Z.leb_gt r 0)) by lia. split; [done|]. intros (t' & [= <-] & ?). lia.
  - unfold Activations.CompleteWake, Activations.opened.
    rewrite (Activations.run_opened k cs Activations.NewActivations).
    cbn [Activations.firstAt Activations.NewActivations]. rewrite lookup_empty.
    by destruct (foldl _ None cs).
Qed.

Lemma activation_held_for_retention_witness :
  let cs := [(1%Z, Activations.CMark "ns/m"); (5%Z, Activations.CWithin "ns/m" 10);
             (8%Z, Activations.CMark "ns/m"); (30%Z, Activations.CWithin "ns/n" 3)] in
  (Activations.CompleteWake (Activations.run Activations.NewActivations cs) "ns/m" 30).1 = Some 29%Z.
Proof.
  cbv zeta.
  destruct (activation_held_for_retention "ns/m" 10
    [(1%Z, Activations.CMark "ns/m"); (5%Z, Activations.CWithin "ns/m" 10);
     (8%Z, Activations.CMark "ns/m"); (30%Z, Activations.CWithin "ns/n" 3)] 30) as [_ Hc].
  - lia.
  - split; [repeat constructor; simpl; lia|].
    intros t r' Hin _. repeat (apply elem_of_cons in Hin as [Hin|Hin]; [congruence|]). by inversion Hin.
  - apply (Forall_forall (λ c : Z * Activations.call, (0 ≤ c.1 ≤ 30)%Z)). repeat constructor; simpl; lia.
  - lia.
  - rewrite Hc. vm_compute. reflexivity.
Defined.
