(* ===== verification/WarmPolicy.v ===== *)
(** * The warm pool's policy

    The model of [internal/warmpool/policy/policy.go], of the pool data it reads
    ([internal/warmpool/pool/pool.go], [accelerator.go]) and of the size estimate
    of [pool/shape.go].

    [Decide] is a pure function of what was observed.  Two things are left open
    by Go and are arguments here: the order a map of Pods is ranged over (the
    list [order]) and the algorithm behind [sort.Slice] (the class [GoSort]).
    The parameter count read off a model name (a regular expression and a
    floating-point product) is the argument [weightsOf].  Times are [Z]
    nanoseconds; a reason a model is declined is a value rather than a text. *)
From Stdlib Require Import ZArith Lia String Ascii SpecFloat.
From stdpp Require Import base gmap strings list sorting fin_maps.
From S2P Require Import Prelude.

(** ** What the pool reports *)
Inductive State := Absent | Loading | Asleep | Waking | Serving | Draining.

#[export] Instance State_eq_dec : EqDecision State.
Proof. solve_decision. Defined.

(** [types.NamespacedName], and its [String]. *)
Definition NamespacedName : Type := string * string.
#[export] Instance NamespacedName_eq_dec : EqDecision NamespacedName := _.
#[export] Instance NamespacedName_countable : Countable NamespacedName := _.

Definition nn_string (p : NamespacedName) : string := p.1 +:+ "/" +:+ p.2.

Record ModelRef := MkModel {
  Namespace : string; mod_Variant : string; EngineOptions : string; mod_Accelerator : string;
  PoolLabels : gmap string string }.

Record PodCapacity := MkCapacity {
  cap_GPUs : Z; MemoryLimitBytes : Z; cap_Accelerator : string; PodsPerGroup : Z }.

Record Membership := MkMembership {
  mem_Model : ModelRef; mem_Pod : NamespacedName; mem_State : State; LastUsed : Z;
  Capacity : PodCapacity }.

Definition Free (inPod : list Membership) : bool :=
  forallb (λ m, match mem_State m with
                | Loading | Waking | Serving | Draining => false
                | Absent | Asleep => true
                end) inPod.

Definition ByPod (all : list Membership) : gmap NamespacedName (list Membership) :=
  foldl (λ out m, <[mem_Pod m := default [] (out !! mem_Pod m) ++ [m]]> out) ∅ all.

Definition FreePods (all : list Membership) : nat :=
  length (filter (λ e : NamespacedName * list Membership, Free e.2 = true) (map_to_list (ByPod all))).

Definition Resident (inPod : list Membership) : nat :=
  length (filter (λ m, mod_Variant (mem_Model m) ≠ "") inPod).

Definition AcceleratorMismatch (wanted held : string) : bool :=
  negb (String.eqb wanted "" || String.eqb held "" || String.eqb wanted held).

(** ** The size of an engine *)
Record Shape := MkShapeOf { HostBytes : Z; shape_GPUs : Z; shape_Pods : Z }.

Definition Known (s : Shape) : bool := (0 <? HostBytes s)%Z.

(** [strings.Fields]: the pieces between runs of white space. *)
Definition is_space (c : ascii) : bool :=
  let n := nat_of_ascii c in (n =? 32)%nat || ((9 <=? n) && (n <=? 13))%nat.

Fixpoint fields_go (s : string) (cur : string) : list string :=
  match s with
  | EmptyString => if String.eqb cur "" then [] else [cur]
  | String c s =>
      if is_space c then (if String.eqb cur "" then fields_go s "" else cur :: fields_go s "")
      else fields_go s (cur +:+ String c EmptyString)
  end.

Definition Fields (s : string) : list string := fields_go s "".

(** The loop of [flagValue] over the tokens. *)
Fixpoint flag_tokens (name : string) (tokens : list string) (value : string) : string :=
  match tokens with
  | [] => value
  | t :: rest =>
      let '(field, inline) := match cut_char "=" t with
                              | Some (f, v) => (f, Some v)
                              | None => (t, None)
                              end in
      if negb (String.eqb field name) then flag_tokens name rest value
      else match inline, rest with
           | Some v, _ => flag_tokens name rest v
           | None, v :: rest => flag_tokens name rest v
           | None, [] => value
           end
  end.

Definition flagValue (options name : string) : string := flag_tokens name (Fields options) "".

Fixpoint contains_string (sub s : string) : bool :=
  match CutPrefix s sub with
  | Some _ => true
  | None => match s with EmptyString => false | String _ s => contains_string sub s end
  end.

Definition bytesPerParam (options : string) : Z :=
  let dtype := ToLower (flagValue options "--dtype") in
  let quant := ToLower (flagValue options "--quantization") in
  if contains_string "float32" dtype || String.eqb dtype "float" || String.eqb dtype "fp32" then 4
  else if contains_string "float8" dtype || contains_string "fp8" dtype
          || contains_string "fp8" quant || contains_string "float8" quant then 1
  else 2.

Definition MaxInt32 : Z := 2147483647.

Definition nodeCount (options : string) : Z :=
  match Atoi (flagValue options "--nnodes") with
  | Some n => if (n <? 1)%Z || (MaxInt32 <? n)%Z then 1%Z else n
  | None => 1%Z
  end.

Definition parallelism (options : string) : Z :=
  let gpus := foldl (λ gpus flag,
                match Atoi (flagValue options flag) with
                | Some n => if (1 <? n)%Z then gpus ⊠ n else gpus
                | None => gpus
                end) 1%Z
              ["--tensor-parallel-size"; "--pipeline-parallel-size"; "--data-parallel-size"] in
  if (gpus <? 1)%Z || (MaxInt32 <? gpus)%Z then 1%Z else gpus.

Definition sleeperOverheadBytes : Z := 2609 * 1048576.
Definition sleeperWeightFactorNum : Z := 14.
Definition sleeperWeightFactorDen : Z := 10.

Section shape.
(** The weights of a model, from its name and the bytes per parameter; [None]
    when the name carries no parameter count. *)
Context (weightsOf : string → Z → option Z).

Definition computeShape (options : string) : Shape :=
  let gpus := parallelism options in
  let pods := nodeCount options in
  match weightsOf (flagValue options "--model") (bytesPerParam options) with
  | None => MkShapeOf 0 gpus pods
  | Some weights =>
      let copies := match Atoi (flagValue options "--data-parallel-size") with
                    | Some dp => if (1 <? dp)%Z then dp else 1%Z
                    | None => 1%Z
                    end in
      let ranks := Z.max 1 (Z.quot gpus pods) in
      MkShapeOf ((sleeperOverheadBytes ⊠ ranks)
                 ⊞ Z.quot ((weights ⊠ copies) ⊠ sleeperWeightFactorNum) sleeperWeightFactorDen)
        gpus pods
  end.

(** [ShapeOf] through its memo. *)
Definition shapeMemoMax : nat := 1024.

Definition ShapeOf (memo : gmap string Shape) (options : string) : Shape * gmap string Shape :=
  match memo !! options with
  | Some s => (s, memo)
  | None =>
      let s := computeShape options in
      let memo := if (shapeMemoMax <=? size memo)%nat then ∅ else memo in
      (s, <[options := s]> memo)
  end.
End shape.

(** ** Policy data *)
Record Config := MkConfig {
  SleepMinSize : Z; MaxHold : Z; MinHold : Z; Retained : bool; AdmissionWindow : Z;
  MinMissesToAdmit : Z; PreloadTop : Z; MaxInstancesPerPod : Z; PodMemoryBytes : Z }.

Record VariantDemand := MkDemand {
  Model : ModelRef; Desired : Z; Ready : Z; Parked : bool; Share : spec_float;
  WarmPool : string; WarmCopies : option Z }.

Definition variant_of (v : VariantDemand) : string := mod_Variant (Model v).

Definition wantedCopies (v : VariantDemand) : Z * bool :=
  match WarmCopies v with None => (1%Z, false) | Some n => (n, true) end.

Record Input := MkInput {
  Memberships : list Membership; Variants : list VariantDemand;
  BorrowedAt : gmap (NamespacedName * string) Z; Admitting : gset NamespacedName;
  WantAwake : string; MissesAt : gmap string (list Z); Now : Z }.

Record Action := MkAction { act_Pod : NamespacedName; act_Model : ModelRef }.

(** Why a model does not fit a Pod, and whether that is permanent. *)
Inductive DeclineReason :=
| NeedsGPUs (needs holds : Z)
| SpansPods (spans unit : Z)
| WrongAccelerator (needs on : string)
| UnknownSize
| OverBudget (needs committed budget : Z).

Definition permanent (r : DeclineReason) : bool :=
  match r with OverBudget _ _ _ => false | _ => true end.

Record Declined := MkDeclined { dec_Model : ModelRef; Reason : DeclineReason }.

Record Plan := MkPlan {
  Return : list Action; Borrow : list Action; Admit : list Action; Evict : list Action;
  GrowBy : Z; Blocked : list ModelRef; Missed : list ModelRef; plan_Declined : list Declined }.

(** ** The decisions *)
Section decide.
Context `{GoSort} (weightsOf : string → Z → option Z).

Notation podmap := (gmap NamespacedName (list Membership)).

Definition lentByVariant (all : list Membership) : gmap string (list Membership) :=
  foldl (λ out m, if bool_decide (mem_State m = Serving)
                  then <[mod_Variant (mem_Model m) := default [] (out !! mod_Variant (mem_Model m)) ++ [m]]> out
                  else out) ∅ all.

Definition borrowedAt (i : Input) (m : Membership) : Z :=
  default (Now i) (BorrowedAt i !! (mem_Pod m, mod_Variant (mem_Model m))).

Definition anotherVariantIsShort (i : Input) (self : string) : bool :=
  existsb (λ o, negb (String.eqb (variant_of o) self) && (Ready o <? Desired o)%Z) (Variants i).

(** Whether the bridge at position [i] of a variant's bridges goes back. *)
Definition goes_back (inp : Input) (cfg : Config) (yield : bool) (excess : Z)
    (i : nat) (m : Membership) : bool :=
  let held := (Now inp - borrowedAt inp m)%Z in
  let expired := negb (Retained cfg) && (MaxHold cfg <=? held)%Z in
  let tooYoung := (0 <? MinHold cfg)%Z && negb yield && (held <? MinHold cfg)%Z in
  ((Z.of_nat i <? excess)%Z && negb tooYoung) || expired.

Definition returnsFor (v : VariantDemand) (lent : list Membership) (i : Input) (cfg : Config)
  : list Action :=
  let stillNeeded := Z.max 0 (Desired v ⊟ Ready v) in
  let excess := Z.of_nat (length lent) ⊟ stillNeeded in
  let lent := sort_slice (λ a b, (borrowedAt i a <? borrowedAt i b)%Z) lent in
  let yield := anotherVariantIsShort i (variant_of v) in
  omap (λ e : nat * Membership,
          if goes_back i cfg yield excess e.1 e.2
          then Some (MkAction (mem_Pod e.2) (mem_Model e.2)) else None)
    (imap pair lent).

Definition knownModels (vs : list VariantDemand) : gmap string ModelRef :=
  foldl (λ out v, <[variant_of v := Model v]> out) ∅ vs.

Definition withKnownModel (a : Action) (known : gmap string ModelRef) : Action :=
  match known !! mod_Variant (act_Model a) with
  | None => a
  | Some full => if bool_decide (PoolLabels full = ∅) then a else MkAction (act_Pod a) full
  end.

(** By Pod, then by variant. *)
Definition orphan_before (a b : Action) : bool :=
  if bool_decide (act_Pod a = act_Pod b)
  then negb (str_lt (mod_Variant (act_Model b)) (mod_Variant (act_Model a)))
  else negb (str_lt (nn_string (act_Pod b)) (nn_string (act_Pod a))).

Definition orphanReturns (all : list Membership) : list Action :=
  sort_stable orphan_before
    (omap (λ m, if bool_decide (mem_State m = Waking)
                then Some (MkAction (mem_Pod m) (mem_Model m)) else None) all).

Definition isShort (i : Input) (variant : string) (lent : gmap string (list Membership)) : bool :=
  match filter (λ v, variant_of v = variant) (Variants i) with
  | [] => false
  | v :: _ =>
      (0 <? (Desired v ⊟ Ready v) ⊟ Z.of_nat (length (default [] (lent !! variant))))%Z
  end.

Definition holds_variant (inPod : list Membership) (variant : string) : bool :=
  existsb (λ m, String.eqb (mod_Variant (mem_Model m)) variant) inPod.

(** The Pods in the order the map is ranged over; the first with something awake
    beside the wanted model ends the loop. *)
Fixpoint intent_pods (want : string) (byPod : podmap) (returned : gset NamespacedName)
    (order : list NamespacedName) : list Action :=
  match order with
  | [] => []
  | p :: order =>
      let inPod := default [] (byPod !! p) in
      if bool_decide (p ∈ returned) || negb (holds_variant inPod want)
      then intent_pods want byPod returned order
      else
        match omap (λ m, if String.eqb (mod_Variant (mem_Model m)) want
                             || negb (bool_decide (mem_State m = Serving)) then None
                         else Some (MkAction p (mem_Model m))) inPod with
        | [] => intent_pods want byPod returned order
        | out => out
        end
  end.

Definition intentReturns (i : Input) (byPod : podmap) (lent : gmap string (list Membership))
    (returned : gset NamespacedName) (order : list NamespacedName) : list Action :=
  if String.eqb (WantAwake i) "" then []
  else if (0 <? length (default [] (lent !! WantAwake i)))%nat then []
  else if negb (isShort i (WantAwake i) lent) then []
  else intent_pods (WantAwake i) byPod returned order.

Definition freePods (byPod : podmap) (returning admitting : gset NamespacedName)
  : gset NamespacedName :=
  filter (λ p, p ∉ admitting ∧ (Free (default [] (byPod !! p)) = true ∨ p ∈ returning)) (dom byPod).

(** Emptiest first, then by name. *)
Definition holding_less (byPod : podmap) (p q : NamespacedName) : bool :=
  let rp := Resident (default [] (byPod !! p)) in
  let rq := Resident (default [] (byPod !! q)) in
  if negb (rp =? rq)%nat then (rp <? rq)%nat else str_lt (nn_string p) (nn_string q).

Definition holding (byPod : podmap) (free : gset NamespacedName) (variant : string)
  : list NamespacedName :=
  sort_slice (holding_less byPod)
    (filter (λ p, holds_variant (default [] (byPod !! p)) variant = true) (elements free)).

Definition residentCount (byPod : podmap) (variant : string) : nat :=
  if String.eqb variant "" then 0
  else length (filter (λ e : NamespacedName * list Membership, holds_variant e.2 variant = true)
                 (map_to_list byPod)).

Record borrow_state := MkBorrowState {
  bs_free : gset NamespacedName; bs_borrow : list Action;
  bs_blocked : list ModelRef; bs_missed : list ModelRef }.

(** One variant of the borrow loop. *)
Definition borrow_step (byPod : podmap) (lent : gmap string (list Membership))
    (s : borrow_state) (v : VariantDemand) : borrow_state :=
  let shortfall := (Desired v ⊟ Ready v) ⊟ Z.of_nat (length (default [] (lent !! variant_of v))) in
  if (shortfall <=? 0)%Z then s
  else
    let candidates := holding byPod (bs_free s) (variant_of v) in
    match candidates with
    | [] =>
        if (0 <? residentCount byPod (variant_of v))%nat
        then MkBorrowState (bs_free s) (bs_borrow s) (bs_blocked s ++ [Model v]) (bs_missed s)
        else MkBorrowState (bs_free s) (bs_borrow s) (bs_blocked s) (bs_missed s ++ [Model v])
    | _ =>
        let taken := take (Z.to_nat shortfall) candidates in
        MkBorrowState (bs_free s ∖ list_to_set taken)
          (bs_borrow s ++ ((λ p, MkAction p (Model v)) <$> taken))
          (if (Z.of_nat (length taken) <? shortfall)%Z then bs_blocked s ++ [Model v]
           else bs_blocked s)
          (bs_missed s)
    end.

Definition act_key (a : Action) : NamespacedName * string := (act_Pod a, mod_Variant (act_Model a)).

Definition dropOrphanReturnsSupersededByBorrows (returns orphans borrows : list Action)
  : list Action :=
  match orphans, borrows with
  | [], _ | _, [] => returns
  | _, _ => filter (λ a, ¬ (act_key a ∈ act_key <$> orphans ∧ act_key a ∈ act_key <$> borrows)) returns
  end.

(** *** Admissions *)
Definition capacityOf (resident : list Membership) : PodCapacity :=
  match filter (λ m, (0 < cap_GPUs (Capacity m))%Z ∨ (0 < MemoryLimitBytes (Capacity m))%Z
                     ∨ cap_Accelerator (Capacity m) ≠ "") resident with
  | m :: _ => Capacity m
  | [] => MkCapacity 0 0 "" 0
  end.

Definition committed_bytes (resident : list Membership) : Z :=
  foldl (λ c m, let s := computeShape weightsOf (EngineOptions (mem_Model m)) in
                if Known s then c ⊞ HostBytes s else c) 0%Z resident.

Definition memory_budget (cfg : Config) (capacity : PodCapacity) : Z :=
  let budget := PodMemoryBytes cfg in
  if (0 <? MemoryLimitBytes capacity)%Z
     && ((budget <=? 0)%Z || (MemoryLimitBytes capacity <? budget)%Z)
  then MemoryLimitBytes capacity else budget.

Definition doesNotFit (model : ModelRef) (resident : list Membership) (cfg : Config)
  : option DeclineReason :=
  let shape := computeShape weightsOf (EngineOptions model) in
  let capacity := capacityOf resident in
  let gpus := if (cap_GPUs capacity <? 1)%Z then 1%Z else cap_GPUs capacity in
  if (gpus <? shape_GPUs shape)%Z then Some (NeedsGPUs (shape_GPUs shape) gpus)
  else
    let pods := if (PodsPerGroup capacity <? 1)%Z then 1%Z else PodsPerGroup capacity in
    if negb (shape_Pods shape =? pods)%Z then Some (SpansPods (shape_Pods shape) pods)
    else if AcceleratorMismatch (mod_Accelerator model) (cap_Accelerator capacity)
    then Some (WrongAccelerator (mod_Accelerator model) (cap_Accelerator capacity))
    else
      let budget := memory_budget cfg capacity in
      if (budget <=? 0)%Z then None
      else if negb (Known shape) then Some UnknownSize
      else
        let committed := committed_bytes resident in
        if (budget <? committed ⊞ HostBytes shape)%Z
        then Some (OverBudget (HostBytes shape) committed budget) else None.

Definition admittedSoFar (placed : list Action) (variant : string) : nat :=
  length (filter (λ a, mod_Variant (act_Model a) = variant) placed).

Definition missesInWindow (i : Input) (cfg : Config) (variant : string) : Z :=
  Z.of_nat (length (filter (λ at_, (Now i - at_ <= AdmissionWindow cfg)%Z)
                      (default [] (MissesAt i !! variant)))).

(** [a > b] on [float64]. *)
Definition share_gt (a b : VariantDemand) : bool := SFltb (Share b) (Share a).

Definition popular_variants (byShare : list VariantDemand) (cfg : Config) : gset string :=
  list_to_set (variant_of <$> take (Z.to_nat (PreloadTop cfg)) byShare).

Definition candidate (i : Input) (cfg : Config) (popular : gset string) (v : VariantDemand) : bool :=
  let '(want, explicit) := wantedCopies v in
  if explicit && (want =? 0)%Z then false
  else if explicit then true
  else Parked v || bool_decide (variant_of v ∈ popular)
       || ((MinMissesToAdmit cfg <=? missesInWindow i cfg (variant_of v))%Z
           && (0 <? MinMissesToAdmit cfg)%Z).

(** Explicit first, then parked, then by share. *)
Definition candidate_less (a b : VariantDemand) : bool :=
  let ea := (wantedCopies a).2 in
  let eb := (wantedCopies b).2 in
  if negb (Bool.eqb ea eb) then ea
  else if negb (Bool.eqb (Parked a) (Parked b)) then Parked a
  else share_gt a b.

Definition candidatesForAdmission (i : Input) (cfg : Config) : list VariantDemand :=
  let byShare := sort_stable (λ a b, negb (share_gt b a)) (Variants i) in
  let popular := popular_variants byShare cfg in
  sort_stable (λ a b, negb (candidate_less b a))
    (filter (λ v, candidate i cfg popular v = true) byShare).

(** The Pod with the fewest residents, by name on a tie. *)
Definition roomier (byPod : podmap) (cfg : Config) (best : option NamespacedName)
    (p : NamespacedName) : option NamespacedName :=
  let rp := Resident (default [] (byPod !! p)) in
  if (0 <? MaxInstancesPerPod cfg)%Z && (MaxInstancesPerPod cfg <=? Z.of_nat rp)%Z then best
  else match best with
       | None => Some p
       | Some b =>
           let rb := Resident (default [] (byPod !! b)) in
           if (rp <? rb)%nat || ((rp =? rb)%nat && str_lt (nn_string p) (nn_string b))
           then Some p else best
       end.

Definition roomiestFreePod (byPod : podmap) (free : list NamespacedName) (cfg : Config)
  : option NamespacedName := foldl (roomier byPod cfg) None free.

Definition roomiestFreePodWithout (byPod : podmap) (free : gset NamespacedName) (cfg : Config)
    (variant : string) (emptyOnly : bool) : option NamespacedName :=
  roomiestFreePod byPod
    (filter (λ p,
       let inPod := default [] (byPod !! p) in
       (emptyOnly && (0 <? Resident inPod)%nat) = false ∧
       (holds_variant inPod variant && negb (String.eqb variant "")) = false)
      (elements free)) cfg.

Record admit_state := MkAdmitState {
  as_free : gset NamespacedName; as_out : list Action; as_declined : list Declined; as_budget : Z }.

(** The copies of one variant; [fuel] bounds the budget, which each turn spends. *)
Fixpoint admit_copies (fuel : nat) (byPod : podmap) (cfg : Config) (emptyOnly : bool)
    (v : VariantDemand) (placed : nat) (s : admit_state) : admit_state :=
  match fuel with
  | O => s
  | S fuel =>
      if (Z.of_nat (residentCount byPod (variant_of v) + placed) <? (wantedCopies v).1)%Z
         && (0 <? as_budget s)%Z
      then match roomiestFreePodWithout byPod (as_free s) cfg (variant_of v) emptyOnly with
           | None => s
           | Some target =>
               match doesNotFit (Model v) (default [] (byPod !! target)) cfg with
               | Some why =>
                   MkAdmitState (as_free s) (as_out s)
                     (as_declined s ++ [MkDeclined (Model v) why]) (as_budget s)
               | None =>
                   admit_copies fuel byPod cfg emptyOnly v (S placed)
                     (MkAdmitState (as_free s ∖ {[target]}) (as_out s ++ [MkAction target (Model v)])
                        (as_declined s) (as_budget s ⊟ 1))
               end
           end
      else s
  end.

Definition admit_variant (byPod : podmap) (cfg : Config) (emptyOnly : bool)
    (s : admit_state) (v : VariantDemand) : admit_state :=
  if (as_budget s =? 0)%Z then s
  else admit_copies (Z.to_nat (as_budget s)) byPod cfg emptyOnly v
         (admittedSoFar (as_out s) (variant_of v)) s.

(** What is admitted and declined, and the Pods still free. *)
Definition admissions (i : Input) (cfg : Config) (byPod : podmap) (free : gset NamespacedName)
    (emptyOnly : bool) : admit_state :=
  let budget := Z.of_nat (size free) ⊟ SleepMinSize cfg in
  if (budget <=? 0)%Z then MkAdmitState free [] [] budget
  else foldl (admit_variant byPod cfg emptyOnly) (MkAdmitState free [] [] budget)
         (candidatesForAdmission i cfg).

(** *** Evictions *)
Definition evict_less (a b : Membership) : bool :=
  if negb (LastUsed a =? LastUsed b)%Z then (LastUsed a <? LastUsed b)%Z
  else str_lt (mem_Pod a).2 (mem_Pod b).2.

Definition is_lent (lent : gmap string (list Membership)) (p : NamespacedName) (variant : string) : bool :=
  existsb (λ m, bool_decide (mem_Pod m = p)) (default [] (lent !! variant)).

(** The spare copies of a variant, in the order the Pods are ranged over. *)
Definition spare_copies (byPod : podmap) (lent : gmap string (list Membership))
    (claimed : gset NamespacedName) (order : list NamespacedName) (variant : string)
  : list Membership :=
  mjoin ((λ p, if bool_decide (p ∈ claimed) then []
               else filter (λ m, mod_Variant (mem_Model m) = variant ∧ mod_Variant (mem_Model m) ≠ ""
                                 ∧ is_lent lent p variant = false) (default [] (byPod !! p)))
           <$> order).

(** A negative number of copies, on which the slice of the code would panic, is not
    distinguished here; the theorem on evictions excludes it. *)
Definition evict_variant (byPod : podmap) (lent : gmap string (list Membership))
    (claimed : gset NamespacedName) (order : list NamespacedName) (v : VariantDemand) : list Action :=
  let '(want, explicit) := wantedCopies v in
  if negb explicit then []
  else
    let held := spare_copies byPod lent claimed order (variant_of v) in
    if (Z.of_nat (length held) <=? want)%Z then []
    else (λ m, MkAction (mem_Pod m) (mem_Model m)) <$>
           take (Z.to_nat (Z.of_nat (length held) - want)) (sort_slice evict_less held).

Definition evictions (i : Input) (byPod : podmap) (lent : gmap string (list Membership))
    (claimed : gset NamespacedName) (order : list NamespacedName) : list Action :=
  mjoin (evict_variant byPod lent claimed order <$> Variants i).

Definition claimedThisPass (borrows admits : list Action) : gset NamespacedName :=
  list_to_set (act_Pod <$> borrows ++ admits).

(** *** The plan *)
Definition requested_returns (i : Input) (cfg : Config) (lent : gmap string (list Membership))
    (known : gmap string ModelRef) : list Action :=
  mjoin ((λ v, (λ a, withKnownModel a known)
                 <$> returnsFor v (default [] (lent !! variant_of v)) i cfg) <$> Variants i).

Definition Decide (order : list NamespacedName) (i : Input) (cfg : Config) : Plan :=
  let byPod := ByPod (Memberships i) in
  let lent := lentByVariant (Memberships i) in
  let known := knownModels (Variants i) in
  let requested := requested_returns i cfg lent known in
  let orphans := (λ a, withKnownModel a known) <$> orphanReturns (Memberships i) in
  let returned := list_to_set (act_Pod <$> requested ++ orphans) : gset NamespacedName in
  let ret := requested ++ orphans ++ intentReturns i byPod lent returned order in
  let returned := list_to_set (act_Pod <$> ret) : gset NamespacedName in
  let free := freePods byPod returned (Admitting i) in
  let b := foldl (borrow_step byPod lent) (MkBorrowState free [] [] []) (Variants i) in
  let ret := dropOrphanReturnsSupersededByBorrows ret orphans (bs_borrow b) in
  let a := admissions i cfg byPod (bs_free b) (0 <? length (bs_blocked b))%nat in
  let evict := evictions i byPod lent (claimedThisPass (bs_borrow b) (as_out a)) order in
  let short := SleepMinSize cfg ⊟ Z.of_nat (size (as_free a)) in
  MkPlan ret (bs_borrow b) (as_out a) evict (if (0 <? short)%Z then short else 0%Z)
    (bs_blocked b) (bs_missed b) (as_declined a).
End decide.

(** ** Facts about Pods and residents *)
Lemma ByPod_spec all p :
  ByPod all !! p = (if decide (filter (λ m, mem_Pod m = p) all = []) then None
                    else Some (filter (λ m, mem_Pod m = p) all)).
Proof.
  unfold ByPod.
  assert (Hg : ∀ all (out : gmap NamespacedName (list Membership)),
    default [] (foldl (λ out m, <[mem_Pod m := default [] (out !! mem_Pod m) ++ [m]]> out) out all !! p)
      = default [] (out !! p) ++ filter (λ m, mem_Pod m = p) all ∧
    (foldl (λ out m, <[mem_Pod m := default [] (out !! mem_Pod m) ++ [m]]> out) out all !! p = None ↔
       out !! p = None ∧ filter (λ m, mem_Pod m = p) all = [])).
  { clear all. induction all as [|m all IH]; intros out; cbn [foldl].
    { rewrite app_nil_r. tauto. }
    destruct (IH (<[mem_Pod m := default [] (out !! mem_Pod m) ++ [m]]> out)) as [H1 H2].
    rewrite H1, H2. rewrite filter_cons. destruct (decide (mem_Pod m = p)) as [<-|Hne].
    - rewrite lookup_insert_eq. simpl. rewrite <- app_assoc. split; [done|]. naive_solver.
    - by rewrite lookup_insert_ne. }
  destruct (Hg all ∅) as [H1 H2]. rewrite lookup_empty in H1, H2. simpl in H1.
  case_decide as Hd.
  - by apply H2.
  - destruct (foldl _ ∅ all !! p) as [l|] eqn:E; [by rewrite <- H1|].
    exfalso. apply Hd. by apply H2.
Qed.

Lemma ByPod_default all p : default [] (ByPod all !! p) = filter (λ m, mem_Pod m = p) all.
Proof. rewrite ByPod_spec. case_decide as Hd; [by rewrite Hd|done]. Qed.

Lemma ByPod_dom all p : p ∈ dom (ByPod all) ↔ ∃ m, m ∈ all ∧ mem_Pod m = p.
Proof.
  rewrite elem_of_dom, ByPod_spec. case_decide as Hd.
  - split; [by intros []|]. intros (m & Hm & Hp).
    exfalso. eapply (filter_nil_not_elem_of _ _ m Hd); done.
  - split; [|eauto]. intros _. destruct (filter (λ m, mem_Pod m = p) all) as [|m l] eqn:E; [done|].
    exists m. assert (Hin : m ∈ filter (λ m, mem_Pod m = p) all) by (rewrite E; constructor).
    apply list_elem_of_filter in Hin. tauto.
Qed.

Lemma holds_variant_true inPod x :
  holds_variant inPod x = true ↔ ∃ m, m ∈ inPod ∧ mod_Variant (mem_Model m) = x.
Proof.
  unfold holds_variant. rewrite existsb_exists. split.
  - intros (m & Hm & He). exists m. split; [by apply list_elem_of_In|by apply String.eqb_eq].
  - intros (m & Hm & He). exists m. split; [by apply list_elem_of_In|by apply String.eqb_eq].
Qed.

Section sets.
Context {A : Type} `{Countable A}.

Lemma size_difference_sub (X Y : gset A) : Y ⊆ X → size (X ∖ Y) = (size X - size Y)%nat.
Proof. intros HY. rewrite size_difference by done. done. Qed.
End sets.

(** ** Borrows *)
Section borrow_facts.
Context `{GoSort} (byPod : gmap NamespacedName (list Membership))
  (lent : gmap string (list Membership)) (F0 : gset NamespacedName).

Definition pods_of (l : list Action) : list NamespacedName := act_Pod <$> l.

Definition borrows_of (l : list Action) (x : string) : nat :=
  length (filter (λ a, mod_Variant (act_Model a) = x) l).

Definition shortfall_of (v : VariantDemand) : Z :=
  (Desired v ⊟ Ready v) ⊟ Z.of_nat (length (default [] (lent !! variant_of v))).

(** Every Pod borrowed was free, is borrowed once and holds the model. *)
Record borrow_inv (s : borrow_state) : Prop := {
  bi_nodup : NoDup (pods_of (bs_borrow s));
  bi_free : bs_free s = F0 ∖ list_to_set (pods_of (bs_borrow s));
  bi_sub : ∀ a, a ∈ bs_borrow s → act_Pod a ∈ F0 ∧
             holds_variant (default [] (byPod !! act_Pod a)) (mod_Variant (act_Model a)) = true }.

Lemma holding_perm free x :
  holding byPod free x ≡ₚ
  filter (λ p, holds_variant (default [] (byPod !! p)) x = true) (elements free).
Proof. apply sort_slice_perm. Qed.

Lemma holding_spec free x :
  NoDup (holding byPod free x) ∧
  ∀ p, p ∈ holding byPod free x ↔
       p ∈ free ∧ holds_variant (default [] (byPod !! p)) x = true.
Proof.
  split.
  - rewrite holding_perm. apply NoDup_filter, NoDup_elements.
  - intros p. rewrite holding_perm, list_elem_of_filter, elem_of_elements. tauto.
Qed.

Lemma borrow_step_inv s v : borrow_inv s → borrow_inv (borrow_step byPod lent s v).
Proof.
  intros [H1 H2 H3]. unfold borrow_step. cbv zeta. fold (shortfall_of v).
  destruct (Z.leb_spec (shortfall_of v) 0); [done|].
  destruct (holding_spec (bs_free s) (variant_of v)) as [Hnd Hin].
  destruct (holding byPod (bs_free s) (variant_of v)) as [|c cs] eqn:E.
  { case_match; done. }
  rewrite <- E in *. set (taken := take (Z.to_nat (shortfall_of v)) (holding byPod (bs_free s) (variant_of v))).
  assert (Ht : ∀ p, p ∈ taken → p ∈ bs_free s ∧
                 holds_variant (default [] (byPod !! p)) (variant_of v) = true).
  { intros p Hp. apply Hin. eapply (subseteq_take _ _ _ Hp). }
  assert (Hnt : NoDup taken) by (apply (sublist_NoDup _ (holding byPod (bs_free s) (variant_of v)));
    [done|apply sublist_take]).
  assert (Hpods : pods_of (bs_borrow s ++ ((λ p, MkAction p (Model v)) <$> taken)) =
                  pods_of (bs_borrow s) ++ taken).
  { unfold pods_of. rewrite fmap_app. f_equal. rewrite <- list_fmap_compose.
    by apply list_fmap_id. }
  assert (Hout : ∀ p, p ∈ taken → p ∉ pods_of (bs_borrow s)).
  { intros p [Hp _]%Ht. rewrite H2 in Hp. set_solver. }
  split; cbn [bs_borrow bs_free].
  - rewrite Hpods. apply NoDup_app. split; [done|]. split; [|done].
    intros p Hp Hp'. by apply (Hout p).
  - rewrite Hpods, list_to_set_app_L, H2. set_solver.
  - intros a [Ha|(p & -> & Hp)%list_elem_of_fmap]%elem_of_app; [by apply H3|].
    destruct (Ht p Hp) as [Hf Hh]. split; [|done]. simpl. rewrite H2 in Hf. set_solver.
Qed.

Lemma borrow_loop_inv vs s :
  borrow_inv s → borrow_inv (foldl (borrow_step byPod lent) s vs).
Proof.
  revert s. induction vs as [|v vs IH]; intros s Hs; cbn [foldl]; [done|].
  by apply IH, borrow_step_inv.
Qed.

(** How many Pods one variant gets in its turn. *)
Lemma borrow_step_count s v x :
  (Z.of_nat (borrows_of (bs_borrow (borrow_step byPod lent s v)) x)
   ≤ Z.of_nat (borrows_of (bs_borrow s) x)
     + if decide (variant_of v = x) then Z.max 0 (shortfall_of v) else 0)%Z.
Proof.
  unfold borrow_step. cbv zeta. fold (shortfall_of v).
  destruct (Z.leb_spec (shortfall_of v) 0); [case_decide; lia|].
  destruct (holding byPod (bs_free s) (variant_of v)) as [|c cs] eqn:E.
  { case_match; simpl; case_decide; lia. }
  rewrite <- E. cbn [bs_borrow]. unfold borrows_of. rewrite filter_app, length_app.
  match goal with |- context [filter _ (?f <$> ?t)] =>
    assert (Hl : (length (filter (λ a, mod_Variant (act_Model a) = x) (f <$> t)) ≤
                  if decide (variant_of v = x) then length t else 0)%nat) end.
  { case_decide as Hd; [etrans; [apply length_filter|by rewrite length_fmap]|].
    rewrite list_filter_nil; [done|]. intros a (p & -> & _)%list_elem_of_fmap. done. }
  case_decide; [|lia]. rewrite length_take in Hl. lia.
Qed.

Lemma borrow_loop_count vs s x :
  (Z.of_nat (borrows_of (bs_borrow (foldl (borrow_step byPod lent) s vs)) x)
   ≤ Z.of_nat (borrows_of (bs_borrow s) x)
     + sumZ (λ v, if decide (variant_of v = x) then Z.max 0 (shortfall_of v) else 0%Z) vs)%Z.
Proof.
  revert s. induction vs as [|v vs IH]; intros s; cbn [foldl].
  { unfold sumZ. simpl. lia. }
  rewrite sumZ_cons. specialize (IH (borrow_step byPod lent s v)).
  pose proof (borrow_step_count s v x). lia.
Qed.
End borrow_facts.

(** ** Admissions *)
Section admit_facts.
Context (weightsOf : string → Z → option Z) (byPod : gmap NamespacedName (list Membership))
  (cfg : Config) (emptyOnly : bool) (F1 : gset NamespacedName) (B : Z).

Notation residents p := (default [] (byPod !! p)).

Definition has_room (p : NamespacedName) : Prop :=
  (0 < MaxInstancesPerPod cfg → Z.of_nat (Resident (residents p)) < MaxInstancesPerPod cfg)%Z.

Lemma roomier_cases best q :
  roomier byPod cfg best q = best ∨ (roomier byPod cfg best q = Some q ∧ has_room q).
Proof.
  unfold roomier, has_room.
  destruct ((0 <? MaxInstancesPerPod cfg)%Z &&
            (MaxInstancesPerPod cfg <=? Z.of_nat (Resident (residents q)))%Z) eqn:E; [by left|].
  assert (Hq : (0 < MaxInstancesPerPod cfg → Z.of_nat (Resident (residents q)) < MaxInstancesPerPod cfg)%Z)
    by (intros H0; apply andb_false_iff in E as [E|E]; lia).
  destruct best; [case_match|]; auto.
Qed.

Lemma roomiestFreePod_spec l p : roomiestFreePod byPod l cfg = Some p → p ∈ l ∧ has_room p.
Proof.
  unfold roomiestFreePod.
  assert (Hg : ∀ l best, (∀ b, best = Some b → has_room b) →
    foldl (roomier byPod cfg) best l = Some p → (p ∈ l ∨ best = Some p) ∧ has_room p).
  { clear l. induction l as [|q l IH]; intros best Hb; cbn [foldl].
    { intros ->. split; [by right|by apply Hb]. }
    destruct (roomier_cases best q) as [->|[-> Hq]]; intros Hf.
    - destruct (IH best Hb Hf) as [[?|?] ?]; (split; [|done]); [left; by constructor|by right].
    - destruct (IH (Some q)) as [[?|[= ->]] ?]; [by intros ? [= <-]|done| |];
        (split; [|done]); left; [by constructor|constructor]. }
  intros Hf. destruct (Hg l None) as [[?|?] ?]; done.
Qed.

Lemma roomiestFreePodWithout_spec free x p :
  roomiestFreePodWithout byPod free cfg x emptyOnly = Some p →
  p ∈ free ∧ (emptyOnly = true → Resident (residents p) = 0%nat) ∧
  (x ≠ "" → holds_variant (residents p) x = false).
Proof.
  intros [Hp _]%roomiestFreePod_spec. apply list_elem_of_filter in Hp as [[H1 H2] Hp].
  rewrite elem_of_elements in Hp. split_and!; [done| |].
  - intros ->. simpl in H1. apply Nat.ltb_ge in H1. lia.
  - intros Hx. apply andb_false_iff in H2 as [H2|H2]; [done|].
    apply negb_false_iff, String.eqb_eq in H2. done.
Qed.

(** Every Pod admitted into was free, is admitted into once and has room. *)
Record admit_inv (models : list VariantDemand) (s : admit_state) : Prop := {
  ai_nodup : NoDup (pods_of (as_out s));
  ai_free : as_free s = F1 ∖ list_to_set (pods_of (as_out s));
  ai_ok : ∀ a, a ∈ as_out s →
    act_Pod a ∈ F1 ∧ doesNotFit weightsOf (act_Model a) (residents (act_Pod a)) cfg = None ∧
    (emptyOnly = true → Resident (residents (act_Pod a)) = 0%nat) ∧
    (∃ v, v ∈ models ∧ act_Model a = Model v);
  ai_budget : as_budget s = (B - Z.of_nat (length (as_out s)))%Z ∧ (0 ≤ as_budget s)%Z;
  ai_count : ∀ x, (0 < admittedSoFar (as_out s) x)%nat →
    ∃ v, v ∈ models ∧ variant_of v = x ∧
      (Z.of_nat (residentCount byPod x + admittedSoFar (as_out s) x) ≤ (wantedCopies v).1)%Z }.

Lemma admittedSoFar_app l a x :
  admittedSoFar (l ++ [a]) x =
  (admittedSoFar l x + if decide (mod_Variant (act_Model a) = x) then 1 else 0)%nat.
Proof.
  unfold admittedSoFar. rewrite filter_app, length_app, filter_cons, filter_nil.
  case_decide; done.
Qed.

Hypothesis HB : in_int B.

Lemma admit_copies_inv fuel models v placed s :
  v ∈ models → placed = admittedSoFar (as_out s) (variant_of v) → admit_inv models s →
  admit_inv models (admit_copies weightsOf fuel byPod cfg emptyOnly v placed s).
Proof.
  intros Hv. revert placed s. induction fuel as [|fuel IH]; intros placed s Hp Hi; cbn [admit_copies]; [done|].
  destruct (Z.ltb_spec (Z.of_nat (residentCount byPod (variant_of v) + placed)) (wantedCopies v).1) as [Hw|];
    [|done]. destruct (Z.ltb_spec 0 (as_budget s)) as [Hb|]; [|done]. cbn [andb].
  destruct (roomiestFreePodWithout byPod (as_free s) cfg (variant_of v) emptyOnly) as [t|] eqn:E; [|done].
  apply roomiestFreePodWithout_spec in E as (Ht & He & _).
  destruct (doesNotFit weightsOf (Model v) (residents t) cfg) eqn:Ef.
  { destruct Hi as [H1 H2 H3 H4 H5]. by split. }
  destruct Hi as [H1 H2 H3 [H4 H4'] H5].
  assert (HtF : t ∈ F1 ∧ t ∉ pods_of (as_out s)) by (rewrite H2 in Ht; set_solver).
  destruct HtF as [HtF Hto].
  assert (Hwr : as_budget s ⊟ 1 = (as_budget s - 1)%Z).
  { apply wrap_id. unfold in_int, int_min in *. lia. }
  apply IH.
  - cbn [as_out]. rewrite admittedSoFar_app, <- Hp. simpl. rewrite decide_True by done. lia.
  - split; cbn [as_out as_free as_budget].
    + unfold pods_of. rewrite fmap_app. simpl. apply NoDup_app. split; [done|]. split.
      * intros x Hx ->%list_elem_of_singleton. done.
      * apply NoDup_singleton.
    + unfold pods_of in *. rewrite fmap_app, list_to_set_app_L. simpl. rewrite H2. set_solver.
    + intros a [Ha| ->%list_elem_of_singleton]%elem_of_app; [by apply H3|].
      cbn [act_Pod act_Model]. split_and!; eauto.
    + rewrite Hwr, length_app. simpl. lia.
    + intros x. rewrite admittedSoFar_app. cbn [act_Model]. change (mod_Variant (Model v)) with (variant_of v).
      case_decide as Hx.
      * intros _. exists v. split_and!; [done|done|]. subst x. rewrite <- Hp. lia.
      * rewrite Nat.add_0_r. apply H5.
Qed.

(** The loop over one variant's copies is never cut short by its fuel. *)
Lemma admit_copies_fuel fuel v placed s :
  (as_budget s ≤ Z.of_nat fuel)%Z → in_int (as_budget s) → (0 ≤ as_budget s)%Z →
  admit_copies weightsOf (S fuel) byPod cfg emptyOnly v placed s =
  admit_copies weightsOf fuel byPod cfg emptyOnly v placed s.
Proof.
  revert placed s. induction fuel as [|fuel IH]; intros placed s Hf Hi H0.
  { cbn [admit_copies]. rewrite (proj2 (Z.ltb_ge 0 (as_budget s))) by lia. by rewrite andb_false_r. }
  cbn [admit_copies]. destruct ((_ <? _)%Z && (0 <? as_budget s)%Z) eqn:E; [|done].
  destruct (roomiestFreePodWithout _ _ _ _ _) as [t|]; [|done].
  destruct (doesNotFit _ _ _ _); [done|].
  apply andb_true_iff in E as [_ Hb%Z.ltb_lt].
  assert (Hwr : as_budget s ⊟ 1 = (as_budget s - 1)%Z) by int_lia.
  apply IH; cbn [as_budget]; rewrite Hwr; int_lia.
Qed.

Lemma admit_variants_inv models vs s :
  (∀ v, v ∈ vs → v ∈ models) → admit_inv models s →
  admit_inv models (foldl (admit_variant weightsOf byPod cfg emptyOnly) s vs).
Proof.
  revert s. induction vs as [|v vs IH]; intros s Hvs Hs; cbn [foldl]; [done|].
  apply IH; [intros w Hw; apply Hvs; by constructor|]. unfold admit_variant.
  case_match; [done|]. apply admit_copies_inv; [|done|done]. apply Hvs. constructor.
Qed.
End admit_facts.

Lemma candidates_spec i cfg v :
  v ∈ candidatesForAdmission i cfg → v ∈ Variants i ∧ WarmCopies v ≠ Some 0%Z.
Proof.
  unfold candidatesForAdmission. rewrite sort_stable_perm. intros [Hc Hv]%list_elem_of_filter.
  rewrite sort_stable_perm in Hv. split; [done|]. intros E.
  unfold candidate, wantedCopies in Hc. rewrite E in Hc. done.
Qed.

Lemma admissions_inv weightsOf i cfg byPod free emptyOnly :
  (0 ≤ SleepMinSize cfg ≤ int_max)%Z → (Z.of_nat (size free) ≤ int_max)%Z →
  let s := admissions weightsOf i cfg byPod free emptyOnly in
  (as_out s = [] ∧ as_free s = free ∧ (Z.of_nat (size free) ≤ SleepMinSize cfg)%Z) ∨
  admit_inv weightsOf byPod cfg emptyOnly free (Z.of_nat (size free) - SleepMinSize cfg)
    (candidatesForAdmission i cfg) s.
Proof.
  intros Hs Hf. unfold admissions.
  assert (Hwr : Z.of_nat (size free) ⊟ SleepMinSize cfg = (Z.of_nat (size free) - SleepMinSize cfg)%Z)
    by int_lia. rewrite Hwr.
  destruct (Z.leb_spec (Z.of_nat (size free) - SleepMinSize cfg) 0) as [H0|H0].
  { left. split_and!; [done|done|lia]. }
  right. apply admit_variants_inv; [unfold in_int, int_min in *; lia|done|].
  split; cbn [as_out as_free as_budget].
  - constructor.
  - set_solver.
  - intros a []%not_elem_of_nil.
  - simpl. lia.
  - intros x Hx. unfold admittedSoFar in Hx. simpl in Hx. lia.
Qed.

(** ** Lent copies, returns and evictions *)
Lemma lent_spec all x m :
  m ∈ default [] (lentByVariant all !! x) ↔
  m ∈ all ∧ mem_State m = Serving ∧ mod_Variant (mem_Model m) = x.
Proof.
  unfold lentByVariant.
  assert (Hg : ∀ out : gmap string (list Membership),
    m ∈ default [] (foldl (λ out m, if bool_decide (mem_State m = Serving)
      then <[mod_Variant (mem_Model m) := default [] (out !! mod_Variant (mem_Model m)) ++ [m]]> out
      else out) out all !! x) ↔
    m ∈ default [] (out !! x) ∨ (m ∈ all ∧ mem_State m = Serving ∧ mod_Variant (mem_Model m) = x)).
  { induction all as [|k all IH]; intros out; cbn [foldl].
    { rewrite elem_of_nil. tauto. }
    rewrite IH. case_bool_decide as Hs.
    - destruct (decide (mod_Variant (mem_Model k) = x)) as [<-|Hne].
      + rewrite lookup_insert_eq. simpl. rewrite elem_of_app, list_elem_of_singleton, elem_of_cons.
        naive_solver.
      + rewrite lookup_insert_ne, elem_of_cons by done. naive_solver.
    - rewrite elem_of_cons. naive_solver. }
  rewrite Hg, lookup_empty. simpl. rewrite elem_of_nil. tauto.
Qed.

Lemma is_lent_false all p x :
  is_lent (lentByVariant all) p x = false ↔
  ∀ m, m ∈ all → mem_State m = Serving → mod_Variant (mem_Model m) = x → mem_Pod m ≠ p.
Proof.
  unfold is_lent. rewrite <- not_true_iff_false, existsb_exists. split.
  - intros Hn m Hm Hs Hx Hp. apply Hn. exists m. split; [|by apply bool_decide_true].
    apply list_elem_of_In, lent_spec. done.
  - intros Ha (m & Hm%list_elem_of_In%lent_spec & Hp%bool_decide_eq_true). naive_solver.
Qed.

Section return_facts.
Context `{GoSort} (i : Input) (cfg : Config).

Definition held_for (m : Membership) : Z := (Now i - borrowedAt i m)%Z.

Definition hold_expired (m : Membership) : bool :=
  negb (Retained cfg) && (MaxHold cfg <=? held_for m)%Z.

Lemma returnsFor_expired v lent m :
  m ∈ lent → hold_expired m = true →
  MkAction (mem_Pod m) (mem_Model m) ∈ returnsFor v lent i cfg.
Proof.
  intros Hm He. unfold returnsFor. apply list_elem_of_omap.
  rewrite <- (sort_slice_perm (λ a b, (borrowedAt i a <? borrowedAt i b)%Z) lent) in Hm.
  apply list_elem_of_lookup in Hm as [k Hk]. exists (k, m). split.
  - apply elem_of_lookup_imap. exists k, m. done.
  - cbn [fst snd]. unfold goes_back. unfold hold_expired, held_for in He. by rewrite He, orb_true_r.
Qed.

(** Bridges beyond the need are the only ones returned before they expire. *)
Lemma omap_index_count (l : list Membership) (f : nat → Membership → bool) (n : Z) k :
  (∀ j m, l !! j = Some m → f (k + j)%nat m = true → hold_expired m = true ∨ (Z.of_nat (k + j) < n)%Z) →
  (Z.of_nat (length (filter (λ m, hold_expired m = false)
     (omap (λ e : nat * Membership, if f e.1 e.2 then Some e.2 else None)
        (imap (λ j m, (k + j, m)%nat) l)))) ≤ Z.max 0 (n - Z.of_nat k))%Z.
Proof.
  revert k. induction l as [|m l IH]; intros k Hf; cbn [imap omap list_omap].
  { simpl. lia. }
  rewrite (imap_ext _ (λ j x, (S k + j, x)%nat) l) by (intros; simpl; f_equal; lia).
  assert (Hf' : ∀ j m0, l !! j = Some m0 → f (S k + j)%nat m0 = true →
            hold_expired m0 = true ∨ (Z.of_nat (S k + j) < n)%Z).
  { intros j m0 Hj Hb. replace (S k + j)%nat with (k + S j)%nat in * by lia. by apply Hf. }
  specialize (IH (S k) Hf'). cbn [fst snd]. destruct (f (k + 0)%nat m) eqn:E; [|lia].
  rewrite filter_cons. case_decide as Hd; [|lia]. cbn [length].
  destruct (Hf 0%nat m eq_refl E) as [?|Hlt]; [congruence|]. lia.
Qed.

End return_facts.

(** The bridges of a variant that go back. *)
Definition returned_bridges `{GoSort} (v : VariantDemand) (lent : list Membership) (i : Input)
    (cfg : Config) : list Membership :=
  omap (λ e : nat * Membership,
     if goes_back i cfg (anotherVariantIsShort i (variant_of v))
          (Z.of_nat (length lent) ⊟ Z.max 0 (Desired v ⊟ Ready v)) e.1 e.2 then Some e.2 else None)
    (imap pair (sort_slice (λ a b, (borrowedAt i a <? borrowedAt i b)%Z) lent)).

Lemma returnsFor_bridges `{GoSort} v lent i cfg :
  returnsFor v lent i cfg =
  (λ m, MkAction (mem_Pod m) (mem_Model m)) <$> returned_bridges v lent i cfg.
Proof.
  unfold returnsFor, returned_bridges.
  generalize (imap pair (sort_slice (λ a b, (borrowedAt i a <? borrowedAt i b)%Z) lent)).
  intros l. induction l as [|e l IH]; [done|]. cbn [omap list_omap].
  destruct (goes_back _ _ _ _ _ _); cbn [fmap list_fmap]; by rewrite IH.
Qed.

Lemma returned_bridges_needed `{GoSort} v lent i cfg :
  (Z.of_nat (length (filter (λ m, hold_expired i cfg m = false) (returned_bridges v lent i cfg)))
   ≤ Z.max 0 (Z.of_nat (length lent) ⊟ Z.max 0 (Desired v ⊟ Ready v)))%Z.
Proof.
  pose proof (omap_index_count i cfg
    (sort_slice (λ a b, (borrowedAt i a <? borrowedAt i b)%Z) lent)
    (goes_back i cfg (anotherVariantIsShort i (variant_of v))
       (Z.of_nat (length lent) ⊟ Z.max 0 (Desired v ⊟ Ready v)))
    (Z.of_nat (length lent) ⊟ Z.max 0 (Desired v ⊟ Ready v)) 0) as Hc.
  rewrite Z.sub_0_r in Hc. apply Hc. intros j m _ Hb. cbn [Nat.add] in *.
  unfold goes_back in Hb. apply orb_true_iff in Hb as [Hb|Hb]; [right|by left].
  apply andb_true_iff in Hb as [Hb%Z.ltb_lt _]. done.
Qed.

Lemma evict_less_order :
  (∀ a b, evict_less a b = true → evict_less b a = false) ∧
  (∀ a b c, evict_less b a = false → evict_less c b = false → evict_less c a = false).
Proof.
  unfold evict_less. split.
  - intros a b. rewrite (Z.eqb_sym (LastUsed b)).
    destruct (Z.eqb_spec (LastUsed a) (LastUsed b)); simpl; [apply str_lt_asym|lia].
  - intros a b c.
    destruct (Z.eqb_spec (LastUsed b) (LastUsed a)), (Z.eqb_spec (LastUsed c) (LastUsed b)),
      (Z.eqb_spec (LastUsed c) (LastUsed a)); simpl; try lia. apply str_lt_false_trans.
Qed.

Section evict_facts.
Context `{GoSort} (all : list Membership) (claimed : gset NamespacedName) (order : list NamespacedName).
Notation byPod := (ByPod all).
Notation lent := (lentByVariant all).

Lemma spare_copies_spec x m :
  m ∈ spare_copies byPod lent claimed order x →
  m ∈ all ∧ mem_Pod m ∈ order ∧ mem_Pod m ∉ claimed ∧ mod_Variant (mem_Model m) = x ∧ x ≠ "" ∧
  mem_State m ≠ Serving.
Proof.
  unfold spare_copies. intros (l & Hm & Hl)%list_elem_of_join.
  apply list_elem_of_fmap in Hl as (p & -> & Hp). case_bool_decide as Hc; [by apply not_elem_of_nil in Hm|].
  apply list_elem_of_filter in Hm as [(H1 & H2 & H3) Hm]. rewrite ByPod_default in Hm.
  apply list_elem_of_filter in Hm as [Hpod Hall]. subst p.
  split_and!; try done; [congruence|].
  intros Hs. rewrite is_lent_false in H3. by apply (H3 m).
Qed.

Lemma evict_variant_spec v :
  (0 ≤ (wantedCopies v).1)%Z →
  let spare := spare_copies byPod lent claimed order (variant_of v) in
  let out := evict_variant byPod lent claimed order v in
  (WarmCopies v = None → out = []) ∧
  (WarmCopies v ≠ None → Z.of_nat (length out) = Z.max 0 (Z.of_nat (length spare) - (wantedCopies v).1)) ∧
  ∃ kept gone, spare ≡ₚ gone ++ kept ∧ out = (λ m, MkAction (mem_Pod m) (mem_Model m)) <$> gone ∧
    ∀ g k, g ∈ gone → k ∈ kept → evict_less k g = false.
Proof.
  intros Hw. cbv zeta. unfold evict_variant. set (spare := spare_copies _ _ _ _ _).
  unfold wantedCopies in *. destruct (WarmCopies v) as [want|]; cbn [fst snd negb] in *.
  2: { split_and!; [done|done|]. exists spare, []. split_and!; [done|done|].
       intros g k []%not_elem_of_nil. }
  destruct (Z.leb_spec (Z.of_nat (length spare)) want) as [Hle|Hgt].
  { split_and!; [done|intros _; simpl; lia|]. exists spare, []. split_and!; [done|done|].
    intros g k []%not_elem_of_nil. }
  pose proof (sort_slice_perm evict_less spare) as Hp.
  destruct evict_less_order as [Ho1 Ho2].
  pose proof (sort_slice_sorted evict_less spare
    (λ a b _ _, Ho1 a b) (λ a b c _ _ _, Ho2 a b c)) as Hs.
  set (n := Z.to_nat (Z.of_nat (length spare) - want)).
  split_and!; [done| |].
  - intros _. rewrite length_fmap, length_take. rewrite Hp. unfold n. lia.
  - exists (drop n (sort_slice evict_less spare)), (take n (sort_slice evict_less spare)).
    split_and!; [by rewrite take_drop|done|].
    rewrite <- (take_drop n (sort_slice evict_less spare)) in Hs.
    intros g k Hg Hk. by apply (StronglySorted_app_1_elem_of (λ a b, evict_less b a = false) _ _ g k Hs).
Qed.

Lemma evictions_elem i a :
  a ∈ evictions i byPod lent claimed order →
  ∃ v m, v ∈ Variants i ∧ is_Some (WarmCopies v) ∧ m ∈ all ∧ mem_State m ≠ Serving ∧
    mem_Pod m ∉ claimed ∧ mod_Variant (mem_Model m) = variant_of v ∧
    act_Pod a = mem_Pod m ∧ act_Model a = mem_Model m.
Proof.
  intros (l & Ha & Hl)%list_elem_of_join. apply list_elem_of_fmap in Hl as (v & -> & Hv).
  unfold evict_variant, wantedCopies in Ha.
  destruct (WarmCopies v) as [want|] eqn:E; [|by apply not_elem_of_nil in Ha].
  cbn [negb] in Ha. case_match; [by apply not_elem_of_nil in Ha|].
  apply list_elem_of_fmap in Ha as (m & -> & Hm). apply subseteq_take in Hm.
  rewrite sort_slice_perm in Hm. apply spare_copies_spec in Hm as (H1 & H2 & H3 & H4 & H5 & H6).
  exists v, m. rewrite E. split_and!; eauto.
Qed.
End evict_facts.

(** ** The plan as a whole *)
Section plan_facts.
Context `{GoSort} (weightsOf : string → Z → option Z) (order : list NamespacedName)
  (i : Input) (cfg : Config).

Notation byPod := (ByPod (Memberships i)).
Notation lent := (lentByVariant (Memberships i)).
Notation known := (knownModels (Variants i)).
Notation orphans := ((λ a, withKnownModel a known) <$> orphanReturns (Memberships i)).

(** The returns decided before any borrow. *)
Definition early_returns : list Action :=
  requested_returns i cfg lent known ++ orphans ++
  intentReturns i byPod lent
    (list_to_set (act_Pod <$> requested_returns i cfg lent known ++ orphans)) order.

(** The Pods free when borrowing starts, and what borrowing leaves. *)
Definition start_free : gset NamespacedName :=
  freePods byPod (list_to_set (pods_of early_returns)) (Admitting i).

Definition borrowing : borrow_state :=
  foldl (borrow_step byPod lent) (MkBorrowState start_free [] [] []) (Variants i).

Definition admitting : admit_state :=
  admissions weightsOf i cfg byPod (bs_free borrowing) (0 <? length (bs_blocked borrowing))%nat.

Lemma Decide_fields :
  let p := Decide weightsOf order i cfg in
  Return p = dropOrphanReturnsSupersededByBorrows early_returns orphans (bs_borrow borrowing) ∧
  Borrow p = bs_borrow borrowing ∧ Admit p = as_out admitting ∧
  Evict p = evictions i byPod lent (claimedThisPass (bs_borrow borrowing) (as_out admitting)) order ∧
  GrowBy p = Z.max 0 (SleepMinSize cfg ⊟ Z.of_nat (size (as_free admitting))) ∧
  Blocked p = bs_blocked borrowing ∧ Missed p = bs_missed borrowing.
Proof.
  cbv zeta. split_and!; try reflexivity.
  change (GrowBy (Decide weightsOf order i cfg)) with
    (if (0 <? SleepMinSize cfg ⊟ Z.of_nat (size (as_free admitting)))%Z
     then SleepMinSize cfg ⊟ Z.of_nat (size (as_free admitting)) else 0%Z).
  destruct (Z.ltb_spec 0 (SleepMinSize cfg ⊟ Z.of_nat (size (as_free admitting)))); lia.
Qed.

Lemma borrowing_inv : borrow_inv byPod start_free borrowing.
Proof.
  apply borrow_loop_inv. split; cbn [bs_borrow bs_free].
  - constructor.
  - set_solver.
  - intros a []%not_elem_of_nil.
Qed.

Lemma start_free_spec p :
  p ∈ start_free →
  p ∉ Admitting i ∧ (Free (filter (λ m, mem_Pod m = p) (Memberships i)) = true ∨ p ∈ pods_of early_returns).
Proof.
  unfold start_free, freePods. rewrite elem_of_filter, ByPod_default, elem_of_list_to_set. tauto.
Qed.

(** A return is dropped only for a borrow that finishes the same waking. *)
Lemma returns_survive a :
  a ∈ early_returns →
  a ∈ Return (Decide weightsOf order i cfg) ∨
  (act_key a ∈ act_key <$> orphans ∧ act_key a ∈ act_key <$> bs_borrow borrowing).
Proof.
  intros Ha. destruct Decide_fields as [-> _]. unfold dropOrphanReturnsSupersededByBorrows.
  destruct orphans as [|o os] eqn:Eo; [by left|].
  destruct (bs_borrow borrowing) as [|b bs] eqn:Eb; [by left|].
  rewrite list_elem_of_filter. destruct (decide (act_key a ∈ act_key <$> o :: os ∧
    act_key a ∈ act_key <$> b :: bs)); tauto.
Qed.

Lemma knownModels_variant x full : known !! x = Some full → mod_Variant full = x.
Proof.
  unfold knownModels.
  assert (Hg : ∀ vs (out : gmap string ModelRef), (∀ x f, out !! x = Some f → mod_Variant f = x) →
    ∀ x f, foldl (λ out v, <[variant_of v := Model v]> out) out vs !! x = Some f → mod_Variant f = x).
  { induction vs as [|v vs IH]; intros out Ho; cbn [foldl]; [done|]. apply IH.
    intros y f. rewrite lookup_insert_Some. intros [[<- <-]|[_ Hy]]; [done|by apply Ho]. }
  apply Hg. intros y f. by rewrite lookup_empty.
Qed.

Lemma withKnownModel_key a : act_key (withKnownModel a known) = act_key a.
Proof.
  unfold withKnownModel. destruct (known !! _) as [full|] eqn:E; [|done].
  case_bool_decide; [done|]. unfold act_key. cbn [act_Pod act_Model].
  by rewrite (knownModels_variant _ _ E).
Qed.

Lemma orphans_waking k :
  k ∈ act_key <$> orphans →
  ∃ m, m ∈ Memberships i ∧ mem_State m = Waking ∧ k = (mem_Pod m, mod_Variant (mem_Model m)).
Proof.
  intros (a & -> & (b & -> & Hb)%list_elem_of_fmap)%list_elem_of_fmap.
  rewrite withKnownModel_key. unfold orphanReturns in Hb. rewrite sort_stable_perm in Hb.
  apply list_elem_of_omap in Hb as (m & Hm & E). case_bool_decide as Hs; [|done].
  simplify_eq. eauto.
Qed.
End plan_facts.

Lemma list_filter_id {A} (P : A → Prop) `{∀ x, Decision (P x)} (l : list A) :
  (∀ x, x ∈ l → P x) → filter P l = l.
Proof.
  induction l as [|x l IH]; intros Hl; [done|]. rewrite filter_cons, decide_True by (apply Hl; constructor).
  f_equal. apply IH. intros y Hy. apply Hl. by constructor.
Qed.

(** Who is reported short, and with which fault. *)
Section report_facts.
Context `{GoSort} (byPod : gmap NamespacedName (list Membership))
  (lent : gmap string (list Membership)).

Record report_inv (s : borrow_state) : Prop := {
  ri_blocked : ∀ m, m ∈ bs_blocked s →
    ∃ p, holds_variant (default [] (byPod !! p)) (mod_Variant m) = true;
  ri_missed : ∀ m, m ∈ bs_missed s → mod_Variant m ≠ "" →
    ∀ p, holds_variant (default [] (byPod !! p)) (mod_Variant m) = false }.

Lemma residentCount_pos x :
  (0 < residentCount byPod x)%nat ↔
  x ≠ "" ∧ ∃ p, holds_variant (default [] (byPod !! p)) x = true.
Proof.
  unfold residentCount. destruct (String.eqb_spec x "") as [->|Hx].
  { split; [lia|by intros [[] _]]. }
  split.
  - intros Hl. split; [done|]. destruct (filter _ _) as [|[p l] r] eqn:E; [simpl in Hl; lia|].
    assert (Hin : (p, l) ∈ (p, l) :: r) by constructor. rewrite <- E in Hin.
    apply list_elem_of_filter in Hin as [Hh Hin%elem_of_map_to_list]. exists p. by rewrite Hin.
  - intros [_ [p Hp]]. destruct (byPod !! p) as [l|] eqn:E; [|done].
    destruct (filter _ _) as [|e r] eqn:Hn; [|simpl; lia]. exfalso.
    eapply (filter_nil_not_elem_of _ _ (p, l) Hn); [done|]. by apply elem_of_map_to_list.
Qed.

Lemma borrow_step_report_inv s v : report_inv s → report_inv (borrow_step byPod lent s v).
Proof.
  intros [H1 H2]. unfold borrow_step. cbv zeta. case_match; [done|].
  destruct (holding_spec byPod (bs_free s) (variant_of v)) as [_ Hin].
  destruct (holding byPod (bs_free s) (variant_of v)) as [|c cs].
  - destruct (Nat.ltb_spec 0 (residentCount byPod (variant_of v))) as [Hr|Hr].
    + apply residentCount_pos in Hr as [_ Hr].
      split; [|done]. cbn [bs_blocked].
      intros m [?| ->%list_elem_of_singleton]%elem_of_app; [by apply H1|done].
    + split; [done|]. cbn [bs_missed].
      intros m [?| ->%list_elem_of_singleton]%elem_of_app Hne; [by apply H2|].
      intros p. apply not_true_iff_false. intros Hp.
      assert (0 < residentCount byPod (variant_of v))%nat by (apply residentCount_pos; eauto). lia.
  - split; [|done]. cbn [bs_blocked]. case_match; [|done].
    intros m [?| ->%list_elem_of_singleton]%elem_of_app; [by apply H1|].
    exists c. apply Hin. constructor.
Qed.

Lemma borrow_step_mono s v :
  let s' := borrow_step byPod lent s v in
  (∀ m, m ∈ bs_blocked s → m ∈ bs_blocked s') ∧ (∀ m, m ∈ bs_missed s → m ∈ bs_missed s') ∧
  (∀ x, (borrows_of (bs_borrow s) x ≤ borrows_of (bs_borrow s') x)%nat).
Proof.
  cbv zeta. unfold borrow_step. cbv zeta. case_match; [done|].
  case_match; [case_match; split_and!; try done; intros m Hm; cbn; rewrite elem_of_app; auto|].
  cbn [bs_blocked bs_missed bs_borrow]. split_and!; [|done|].
  - intros m Hm. case_match; rewrite ?elem_of_app; auto.
  - intros x. unfold borrows_of. rewrite filter_app, length_app. lia.
Qed.

Lemma borrow_loop_report vs s :
  report_inv s →
  let s' := foldl (borrow_step byPod lent) s vs in
  report_inv s' ∧ ((∀ m, m ∈ bs_blocked s → m ∈ bs_blocked s') ∧
  (∀ m, m ∈ bs_missed s → m ∈ bs_missed s') ∧
  (∀ x, (borrows_of (bs_borrow s) x ≤ borrows_of (bs_borrow s') x)%nat)).
Proof.
  revert s. induction vs as [|v vs IH]; intros s Hs; cbn [foldl]; [done|].
  destruct (IH _ (borrow_step_report_inv s v Hs)) as [Hi (M1 & M2 & M3)].
  destruct (borrow_step_mono s v) as (N1 & N2 & N3).
  split; [done|]. split_and!; [auto|auto|]. intros x. etrans; [apply N3|apply M3].
Qed.

(** A short variant gets all it lacks, or is reported. *)
Lemma borrow_step_covers s v :
  (0 < shortfall_of lent v)%Z →
  let s' := borrow_step byPod lent s v in
  (shortfall_of lent v ≤ Z.of_nat (borrows_of (bs_borrow s') (variant_of v)))%Z ∨
  Model v ∈ bs_blocked s' ∨ Model v ∈ bs_missed s'.
Proof.
  intros Hpos. cbv zeta. unfold borrow_step. cbv zeta. fold (shortfall_of lent v).
  rewrite (proj2 (Z.leb_gt (shortfall_of lent v) 0)) by done.
  destruct (holding byPod (bs_free s) (variant_of v)) as [|c cs] eqn:E.
  { case_match; cbn [bs_blocked bs_missed]; rewrite ?elem_of_app, ?list_elem_of_singleton; auto. }
  rewrite <- E. cbn [bs_borrow bs_blocked].
  destruct (Z.ltb_spec (Z.of_nat (length (take (Z.to_nat (shortfall_of lent v))
    (holding byPod (bs_free s) (variant_of v))))) (shortfall_of lent v)) as [Hlt|Hge].
  { right. left. rewrite elem_of_app, list_elem_of_singleton. auto. }
  left. unfold borrows_of. rewrite filter_app, length_app.
  rewrite (list_filter_id _ (_ <$> _)).
  - rewrite length_fmap. lia.
  - intros a (p & -> & _)%list_elem_of_fmap. done.
Qed.

Lemma borrow_loop_covers vs s v :
  report_inv s → v ∈ vs → (0 < shortfall_of lent v)%Z →
  let s' := foldl (borrow_step byPod lent) s vs in
  (shortfall_of lent v ≤ Z.of_nat (borrows_of (bs_borrow s') (variant_of v)))%Z ∨
  Model v ∈ bs_blocked s' ∨ Model v ∈ bs_missed s'.
Proof.
  revert s. induction vs as [|w vs IH]; intros s Hs Hv Hpos; [by apply not_elem_of_nil in Hv|].
  cbn [foldl]. apply elem_of_cons in Hv as [->|Hv]; [|by apply IH; [apply borrow_step_report_inv|..]].
  destruct (borrow_loop_report vs _ (borrow_step_report_inv s w Hs)) as [_ (M1 & M2 & M3)].
  destruct (borrow_step_covers s w Hpos) as [Hc|[Hc|Hc]]; [left|auto|auto].
  specialize (M3 (variant_of w)). lia.
Qed.
End report_facts.

Lemma list_to_set_size {A} `{Countable A} (l : list A) : (size (list_to_set l : gset A) ≤ length l)%nat.
Proof.
  induction l as [|x l IH]; [done|]. cbn [list_to_set length].
  destruct (decide (x ∈ (list_to_set l : gset A))) as [Hx|Hx].
  - rewrite subseteq_union_1_L by set_solver. lia.
  - rewrite size_union, size_singleton by set_solver. lia.
Qed.

Lemma size_start_free `{GoSort} order i cfg :
  (size (start_free order i cfg) ≤ length (Memberships i))%nat.
Proof.
  etrans; [|rewrite <- (length_fmap mem_Pod); apply list_to_set_size].
  apply subseteq_size. intros p Hp. unfold start_free, freePods in Hp.
  apply elem_of_filter in Hp as [_ (m & Hm & <-)%ByPod_dom].
  apply elem_of_list_to_set, list_elem_of_fmap. eauto.
Qed.

(** The Pods borrowing leaves free. *)
Lemma borrowing_free `{GoSort} order i cfg :
  bs_free (borrowing order i cfg) =
    start_free order i cfg ∖ list_to_set (pods_of (bs_borrow (borrowing order i cfg))) ∧
  size (bs_free (borrowing order i cfg)) =
    (size (start_free order i cfg) - length (bs_borrow (borrowing order i cfg)))%nat ∧
  (length (bs_borrow (borrowing order i cfg)) ≤ size (start_free order i cfg))%nat.
Proof.
  destruct (borrowing_inv order i cfg) as [Hn Hf Hs]. split; [done|].
  assert (Hsub : (list_to_set (pods_of (bs_borrow (borrowing order i cfg))) : gset NamespacedName)
                 ⊆ start_free order i cfg).
  { intros p (a & -> & Ha)%elem_of_list_to_set%list_elem_of_fmap. by apply Hs. }
  assert (Hl : size (list_to_set (pods_of (bs_borrow (borrowing order i cfg))) : gset NamespacedName)
               = length (bs_borrow (borrowing order i cfg))).
  { rewrite size_list_to_set by done. unfold pods_of. by rewrite length_fmap. }
  rewrite Hf, size_difference_sub, Hl by done. split; [done|].
  rewrite <- Hl. by apply subseteq_size.
Qed.

(** The Pods that admissions leave free, and that they stop at the reserve. *)
Lemma admitting_free `{GoSort} weightsOf order i cfg :
  (0 ≤ SleepMinSize cfg ≤ int_max)%Z → (Z.of_nat (length (Memberships i)) ≤ int_max)%Z →
  let s := admitting weightsOf order i cfg in
  size (as_free s) = (size (bs_free (borrowing order i cfg)) - length (as_out s))%nat ∧
  (length (as_out s) ≤ size (bs_free (borrowing order i cfg)))%nat ∧
  (as_out s ≠ [] → (SleepMinSize cfg ≤ Z.of_nat (size (as_free s)))%Z).
Proof.
  intros Hs Hm. cbv zeta. destruct (borrowing_free order i cfg) as (_ & Hb & _).
  pose proof (size_start_free order i cfg).
  destruct (admissions_inv weightsOf i cfg (ByPod (Memberships i)) (bs_free (borrowing order i cfg))
    (0 <? length (bs_blocked (borrowing order i cfg)))%nat) as [(E1 & E2 & _)|Hi]; [done|lia| |].
  { unfold admitting. rewrite E1, E2. simpl. split_and!; [lia|lia|done]. }
  fold (admitting weightsOf order i cfg) in Hi. destruct Hi as [H1 H2 H3 [H4 H4'] _].
  assert (Hsub : (list_to_set (pods_of (as_out (admitting weightsOf order i cfg))) : gset NamespacedName)
                 ⊆ bs_free (borrowing order i cfg)).
  { intros p (a & -> & Ha)%elem_of_list_to_set%list_elem_of_fmap. by apply H3. }
  assert (Hl : size (list_to_set (pods_of (as_out (admitting weightsOf order i cfg))) : gset NamespacedName)
               = length (as_out (admitting weightsOf order i cfg))).
  { rewrite size_list_to_set by done. unfold pods_of. by rewrite length_fmap. }
  pose proof (subseteq_size _ _ Hsub) as Hle. rewrite Hl in Hle.
  assert (Hsz : size (as_free (admitting weightsOf order i cfg)) =
    (size (bs_free (borrowing order i cfg)) - length (as_out (admitting weightsOf order i cfg)))%nat)
    by (rewrite H2, size_difference_sub, Hl; done).
  split_and!; [done|done|]. intros _. lia.
Qed.

(** The Pods ranged over in any order give the same copies. *)
Lemma join_filter_perm {A B} `{EqDecision B} (f : A → B) (l : list A) (order : list B) :
  NoDup order →
  mjoin ((λ p, filter (λ m, f m = p) l) <$> order) ≡ₚ filter (λ m, f m ∈ order) l.
Proof.
  induction 1 as [|p order Hp _ IH]; cbn [fmap list_fmap mjoin list_join].
  { rewrite list_filter_nil; [done|]. intros m _. apply not_elem_of_nil. }
  rewrite IH. clear IH. induction l as [|m l IH]; [done|].
  rewrite !filter_cons. destruct (decide (f m = p)) as [E|E].
  - rewrite (decide_False (P := f m ∈ order)), decide_True by set_solver. simpl. by rewrite IH.
  - destruct (decide (f m ∈ order)).
    + rewrite decide_True by set_solver. rewrite <- Permutation_middle. by rewrite IH.
    + rewrite decide_False by set_solver. done.
Qed.

(** The copies of a variant nothing is using and this pass has not claimed. *)
Definition idle_copies (all : list Membership) (claimed : gset NamespacedName) (x : string)
  : list Membership :=
  filter (λ m, mod_Variant (mem_Model m) = x ∧ x ≠ "" ∧ mem_Pod m ∉ claimed ∧
               is_lent (lentByVariant all) (mem_Pod m) x = false) all.

Lemma spare_copies_perm all claimed order x :
  NoDup order → (∀ p, p ∈ order ↔ p ∈ dom (ByPod all)) →
  spare_copies (ByPod all) (lentByVariant all) claimed order x ≡ₚ idle_copies all claimed x.
Proof.
  intros Hn Ho. unfold spare_copies.
  rewrite (list_fmap_ext _ (λ p, filter (λ m, mem_Pod m = p) (idle_copies all claimed x)) order).
  2: { intros k p _. unfold idle_copies. rewrite list_filter_filter, ByPod_default.
       case_bool_decide as Hc.
       - symmetry. apply list_filter_nil. intros m _. naive_solver.
       - rewrite list_filter_filter. apply list_filter_iff. intros m. naive_solver. }
  rewrite (join_filter_perm mem_Pod (idle_copies all claimed x) order Hn).
  rewrite list_filter_id; [done|]. intros m Hm. apply Ho, ByPod_dom.
  unfold idle_copies in Hm. apply list_elem_of_filter in Hm as [_ Hm]. eauto.
Qed.

Lemma evict_variant_name `{GoSort} all claimed order v a :
  a ∈ evict_variant (ByPod all) (lentByVariant all) claimed order v →
  mod_Variant (act_Model a) = variant_of v.
Proof.
  unfold evict_variant, wantedCopies. destruct (WarmCopies v) as [w|]; cbn [negb].
  2: { intros []%not_elem_of_nil. }
  case_match; [intros []%not_elem_of_nil|].
  intros (m & -> & Hm%subseteq_take)%list_elem_of_fmap. rewrite sort_slice_perm in Hm.
  by apply spare_copies_spec in Hm as (_ & _ & _ & Hm & _).
Qed.

(** What is evicted of one variant, when no two variants share a name. *)
Lemma evictions_of `{GoSort} all claimed order vs v :
  NoDup (variant_of <$> vs) → v ∈ vs →
  filter (λ a, mod_Variant (act_Model a) = variant_of v)
    (mjoin (evict_variant (ByPod all) (lentByVariant all) claimed order <$> vs)) =
  evict_variant (ByPod all) (lentByVariant all) claimed order v.
Proof.
  induction vs as [|w vs IH]; intros Hn Hv; [by apply not_elem_of_nil in Hv|].
  apply NoDup_cons in Hn as [Hw Hn]. rewrite fmap_cons.
  match goal with |- context [mjoin (?x :: ?l)] => change (mjoin (x :: l)) with (x ++ mjoin l) end.
  rewrite filter_app. apply elem_of_cons in Hv as [->|Hv].
  - rewrite list_filter_id by (intros a; apply evict_variant_name).
    rewrite (list_filter_nil _ (mjoin _)); [apply app_nil_r|].
    intros a (l & Ha & (u & -> & Hu)%list_elem_of_fmap)%list_elem_of_join E. apply Hw.
    apply list_elem_of_fmap. exists u. split; [|done]. rewrite <- E.
    by eapply evict_variant_name.
  - rewrite IH by done. rewrite list_filter_nil; [done|].
    intros a Ha%evict_variant_name E. apply Hw. rewrite <- Ha, E. apply list_elem_of_fmap. eauto.
Qed.

(** Nothing is handed back while it is needed, unless its time is up. *)
Lemma returnsFor_length `{GoSort} v lent i cfg :
  (0 ≤ Desired v ≤ int_max)%Z → (0 ≤ Ready v ≤ int_max)%Z → (Z.of_nat (length lent) ≤ int_max)%Z →
  (∀ m, m ∈ lent → hold_expired i cfg m = false) →
  (Z.of_nat (length (returnsFor v lent i cfg))
   ≤ Z.max 0 (Z.of_nat (length lent) - Z.max 0 (Desired v - Ready v)))%Z.
Proof.
  intros Hd Hr Hl He. rewrite returnsFor_bridges, length_fmap.
  pose proof (returned_bridges_needed v lent i cfg) as Hn.
  rewrite list_filter_id in Hn.
  2: { intros m (e & He' & Hm)%list_elem_of_omap. destruct (goes_back _ _ _ _ _ _); [|done].
       simplify_eq. apply elem_of_lookup_imap in He' as (k & m & -> & Hk).
       apply He. apply list_elem_of_lookup_2 in Hk. by rewrite sort_slice_perm in Hk. }
  assert (E1 : Desired v ⊟ Ready v = (Desired v - Ready v)%Z) by int_lia. rewrite E1 in Hn.
  assert (E2 : Z.of_nat (length lent) ⊟ Z.max 0 (Desired v - Ready v) =
               (Z.of_nat (length lent) - Z.max 0 (Desired v - Ready v))%Z) by int_lia.
  by rewrite E2 in Hn.
Qed.

Lemma returnsFor_old_enough `{GoSort} v lent i cfg a :
  a ∈ returnsFor v lent i cfg →
  ∃ m, m ∈ lent ∧ a = MkAction (mem_Pod m) (mem_Model m) ∧
    (hold_expired i cfg m = true ∨ anotherVariantIsShort i (variant_of v) = true ∨
     (MinHold cfg ≤ 0)%Z ∨ (MinHold cfg ≤ held_for i m)%Z).
Proof.
  rewrite returnsFor_bridges. intros (m & -> & Hm)%list_elem_of_fmap. exists m.
  apply list_elem_of_omap in Hm as ([k m'] & Hin & Hg). cbn [fst snd] in Hg.
  destruct (goes_back _ _ _ _ _ _) eqn:E; [|done]. simplify_eq.
  apply elem_of_lookup_imap in Hin as (k' & m' & [= -> ->] & Hk).
  apply list_elem_of_lookup_2 in Hk. rewrite sort_slice_perm in Hk. split_and!; [done|done|].
  unfold goes_back in E. apply orb_true_iff in E as [E|E]; [|by left].
  apply andb_true_iff in E as [_ E]. apply negb_true_iff, andb_false_iff in E as [E|E].
  - apply andb_false_iff in E as [E%Z.ltb_ge|E%negb_false_iff]; auto.
  - apply Z.ltb_ge in E. unfold held_for. auto.
Qed.

Lemma requested_returns_elem `{GoSort} i cfg lent known v a :
  v ∈ Variants i → a ∈ returnsFor v (default [] (lent !! variant_of v)) i cfg →
  withKnownModel a known ∈ requested_returns i cfg lent known.
Proof.
  intros Hv Ha. unfold requested_returns. apply list_elem_of_join.
  eexists. split; [|apply list_elem_of_fmap; exists v; split; [reflexivity|done]].
  apply list_elem_of_fmap. eauto.
Qed.

(** ** Properties *)

(** C6: the borrows of a plan are safe.  No Pod is borrowed twice; each borrowed
    Pod holds the model it is borrowed for, is not in the middle of an
    admission, and is either free, handed back by this same plan, or already
    waking that very model; and no variant gets more Pods than it is short of. *)
Theorem Decide_borrows_safe `{GoSort} weightsOf order i cfg :
  let p := Decide weightsOf order i cfg in
  NoDup (act_Pod <$> Borrow p) ∧
  (∀ a, a ∈ Borrow p →
    act_Pod a ∉ Admitting i ∧
    (∃ m, m ∈ Memberships i ∧ mem_Pod m = act_Pod a ∧
          mod_Variant (mem_Model m) = mod_Variant (act_Model a)) ∧
    (Free (filter (λ m, mem_Pod m = act_Pod a) (Memberships i)) = true ∨
     (∃ r, r ∈ Return p ∧ act_Pod r = act_Pod a) ∨
     ∃ m, m ∈ Memberships i ∧ mem_Pod m = act_Pod a ∧ mem_State m = Waking ∧
          mod_Variant (mem_Model m) = mod_Variant (act_Model a))) ∧
  (∀ x, Z.of_nat (length (filter (λ a, mod_Variant (act_Model a) = x) (Borrow p))) ≤
        sumZ (λ v, if decide (variant_of v = x)
                   then Z.max 0 (shortfall_of (lentByVariant (Memberships i)) v) else 0) (Variants i))%Z.
Proof.
  cbv zeta. destruct (Decide_fields weightsOf order i cfg) as (_ & HB & _).
  destruct (borrowing_inv order i cfg) as [Hn _ Hs]. rewrite HB. split_and!; [done| |].
  - intros a Ha. destruct (Hs a Ha) as [HF (m & Hm & Hv)%holds_variant_true].
    rewrite ByPod_default in Hm. apply list_elem_of_filter in Hm as [Hp Hm].
    destruct (start_free_spec _ _ _ _ HF) as [Hadm Hfree]. split_and!; [done|by exists m|].
    destruct Hfree as [?|(r & Hpr & Hr)%list_elem_of_fmap]; [by left|right].
    destruct (returns_survive weightsOf order i cfg r Hr) as [Hr'|[Ho Hb]]; [left; by exists r|right].
    apply orphans_waking in Ho as (w & Hw & Hws & Hk). exists w.
    apply list_elem_of_fmap in Hb as (b & Hkb & Hb). unfold act_key in *. simplify_eq.
    assert (b = a) as ->.
    { apply list_elem_of_lookup in Ha as [ka Hka], Hb as [kb Hkb].
      assert (ka = kb) as ->; [|congruence]. eapply (NoDup_lookup _ ka kb (act_Pod a) Hn).
      - unfold pods_of. by rewrite list_lookup_fmap, Hka.
      - unfold pods_of. rewrite list_lookup_fmap, Hkb. simpl. congruence. }
    split_and!; congruence.
  - intros x. pose proof (borrow_loop_count (ByPod (Memberships i)) (lentByVariant (Memberships i))
      (Variants i) (MkBorrowState (start_free order i cfg) [] [] []) x) as Hc.
    unfold borrows_of in Hc. cbn in Hc. unfold borrowing. lia.
Qed.

(** No shortage goes unreported, and each is reported as the right fault.  A
    variant that lacks replicas gets as many Pods as it lacks or is listed as
    blocked or missed; a blocked one is resident somewhere, so more Pods would
    help; a missed one is resident in no Pod at all. *)
Theorem Decide_shortage_reported `{GoSort} weightsOf order i cfg v :
  v ∈ Variants i → (0 < shortfall_of (lentByVariant (Memberships i)) v)%Z →
  let p := Decide weightsOf order i cfg in
  ((shortfall_of (lentByVariant (Memberships i)) v ≤
     Z.of_nat (length (filter (λ a, mod_Variant (act_Model a) = variant_of v) (Borrow p))))%Z
   ∨ Model v ∈ Blocked p ∨ Model v ∈ Missed p) ∧
  (∀ b, b ∈ Blocked p → ∃ m, m ∈ Memberships i ∧ mod_Variant (mem_Model m) = mod_Variant b) ∧
  (∀ b, b ∈ Missed p → mod_Variant b ≠ "" →
     ∀ m, m ∈ Memberships i → mod_Variant (mem_Model m) ≠ mod_Variant b).
Proof.
  intros Hv Hs. cbv zeta. destruct (Decide_fields weightsOf order i cfg) as (_ & -> & _ & _ & _ & -> & ->).
  assert (H0 : report_inv (ByPod (Memberships i)) (MkBorrowState (start_free order i cfg) [] [] []))
    by (split; intros m []%not_elem_of_nil).
  destruct (borrow_loop_report (ByPod (Memberships i)) (lentByVariant (Memberships i))
    (Variants i) _ H0) as [[Hb Hm] _]. split_and!.
  - by apply (borrow_loop_covers (ByPod (Memberships i))).
  - intros b (p & (m & Hin & E)%holds_variant_true)%Hb. exists m. rewrite ByPod_default in Hin.
    apply list_elem_of_filter in Hin. tauto.
  - intros b Hin Hne m Hmem E. specialize (Hm b Hin Hne (mem_Pod m)).
    apply not_true_iff_false in Hm. apply Hm, holds_variant_true. exists m. split; [|done].
    rewrite ByPod_default. by apply list_elem_of_filter.
Qed.

(** C32: admissions are safe.  Each model is admitted into a Pod that was free, that
    no borrow and no other admission of the plan takes, and in which it fits
    (GPUs, Pods per unit, accelerator, host memory beside what is resident);
    while anything is blocked only into Pods that hold nothing; a variant that
    asked for no warm copies is never admitted; and the admitted copies with
    the resident ones are at most what the variant wants. *)
Theorem Decide_admissions_safe `{GoSort} weightsOf order i cfg :
  (0 ≤ SleepMinSize cfg ≤ int_max)%Z → (Z.of_nat (length (Memberships i)) ≤ int_max)%Z →
  let p := Decide weightsOf order i cfg in
  NoDup (act_Pod <$> Borrow p ++ Admit p) ∧
  (∀ a, a ∈ Admit p →
    let inPod := filter (λ m, mem_Pod m = act_Pod a) (Memberships i) in
    act_Pod a ∈ start_free order i cfg ∧
    doesNotFit weightsOf (act_Model a) inPod cfg = None ∧
    (Blocked p ≠ [] → Resident inPod = 0%nat) ∧
    ∃ v, v ∈ Variants i ∧ act_Model a = Model v ∧ WarmCopies v ≠ Some 0%Z) ∧
  (∀ x, (0 < admittedSoFar (Admit p) x)%nat →
    ∃ v, v ∈ Variants i ∧ variant_of v = x ∧
      (Z.of_nat (residentCount (ByPod (Memberships i)) x + admittedSoFar (Admit p) x)
       ≤ (wantedCopies v).1)%Z).
Proof.
  intros Hr Hm. cbv zeta.
  destruct (Decide_fields weightsOf order i cfg) as (_ & -> & -> & _ & _ & -> & _).
  destruct (borrowing_inv order i cfg) as [Hn _ _].
  destruct (borrowing_free order i cfg) as (Hf & Hb & _). pose proof (size_start_free order i cfg).
  destruct (admissions_inv weightsOf i cfg (ByPod (Memberships i)) (bs_free (borrowing order i cfg))
    (0 <? length (bs_blocked (borrowing order i cfg)))%nat) as [(E1 & _)|Hi]; [done|lia| |].
  { fold (admitting weightsOf order i cfg) in E1. rewrite E1, app_nil_r.
    split_and!; [done|intros a []%not_elem_of_nil|intros x Hx; unfold admittedSoFar in Hx; simpl in Hx; lia]. }
  fold (admitting weightsOf order i cfg) in Hi. destruct Hi as [H1 H2 H3 _ H5]. split_and!.
  - rewrite fmap_app. apply NoDup_app. split_and!; [done| |done].
    intros p Hp (a & -> & Ha)%list_elem_of_fmap. destruct (H3 a Ha) as [Ha' _].
    rewrite Hf in Ha'. apply elem_of_difference in Ha' as [_ Hno]. apply Hno.
    by apply elem_of_list_to_set.
  - intros a Ha. destruct (H3 a Ha) as (Ha' & Hfit & He & v & Hv & Hmod).
    rewrite ByPod_default in *. apply candidates_spec in Hv as [Hv Hv0]. split_and!; [|done| |by exists v].
    + rewrite Hf in Ha'. by apply elem_of_difference in Ha' as [? _].
    + intros Hbl. apply He. destruct (bs_blocked _); [done|]. by apply Nat.ltb_lt; simpl; lia.
  - intros x Hx. destruct (H5 x Hx) as (v & [Hv _]%candidates_spec & Hvx & Hle). by exists v.
Qed.

(** The reserve is accounted for exactly.  The Pods the plan leaves free are
    those free at the start less one per borrow and one per admission; [GrowBy]
    is precisely how far that falls below the reserve asked for; and a plan
    that admits anything leaves the reserve whole. *)
Theorem Decide_reserve_accounting `{GoSort} weightsOf order i cfg :
  (0 ≤ SleepMinSize cfg ≤ int_max)%Z → (Z.of_nat (length (Memberships i)) ≤ int_max)%Z →
  let p := Decide weightsOf order i cfg in
  let free := Z.of_nat (size (start_free order i cfg)) in
  let left := (free - Z.of_nat (length (Borrow p)) - Z.of_nat (length (Admit p)))%Z in
  (0 ≤ left)%Z ∧ GrowBy p = Z.max 0 (SleepMinSize cfg - left) ∧
  (Admit p ≠ [] → GrowBy p = 0%Z ∧ (SleepMinSize cfg ≤ left)%Z).
Proof.
  intros Hr Hm. cbv zeta.
  destruct (Decide_fields weightsOf order i cfg) as (_ & -> & -> & _ & -> & _ & _).
  destruct (borrowing_free order i cfg) as (_ & Hb & Hle). pose proof (size_start_free order i cfg).
  destruct (admitting_free weightsOf order i cfg Hr Hm) as (H1 & H2 & H3).
  assert (E : SleepMinSize cfg ⊟ Z.of_nat (size (as_free (admitting weightsOf order i cfg))) =
    (SleepMinSize cfg - Z.of_nat (size (as_free (admitting weightsOf order i cfg))))%Z) by int_lia.
  rewrite E. split_and!; [lia|lia|]. intros Hne%H3. lia.
Qed.

(** C33: evictions are safe and minimal.  Nothing serving is evicted and nothing in
    a Pod this plan borrows or admits into; only variants that stated a number
    of copies lose any; such a variant loses exactly the idle copies beyond that
    number, whatever order the Pods are ranged over, and none it keeps was used
    longer ago than one it loses. *)
Theorem Decide_evictions_safe `{GoSort} weightsOf order i cfg :
  NoDup order → (∀ p, p ∈ order ↔ p ∈ dom (ByPod (Memberships i))) →
  NoDup (variant_of <$> Variants i) →
  let p := Decide weightsOf order i cfg in
  (∀ a, a ∈ Evict p → ∃ m, m ∈ Memberships i ∧ act_Pod a = mem_Pod m ∧ act_Model a = mem_Model m ∧
     mem_State m ≠ Serving ∧ act_Pod a ∉ act_Pod <$> Borrow p ++ Admit p) ∧
  ∀ v, v ∈ Variants i → (0 ≤ (wantedCopies v).1)%Z →
    let idle := idle_copies (Memberships i) (list_to_set (act_Pod <$> Borrow p ++ Admit p)) (variant_of v) in
    let gone := filter (λ a, mod_Variant (act_Model a) = variant_of v) (Evict p) in
    (WarmCopies v = None → gone = []) ∧
    (WarmCopies v ≠ None → Z.of_nat (length gone) = Z.max 0 (Z.of_nat (length idle) - (wantedCopies v).1)) ∧
    ∃ kept lost, idle ≡ₚ lost ++ kept ∧ gone = (λ m, MkAction (mem_Pod m) (mem_Model m)) <$> lost ∧
      ∀ g k, g ∈ lost → k ∈ kept → (LastUsed g ≤ LastUsed k)%Z.
Proof.
  intros Hn Ho Hv. cbv zeta.
  destruct (Decide_fields weightsOf order i cfg) as (_ & -> & -> & -> & _).
  set (claimed := claimedThisPass _ _). split.
  - intros a (v & m & _ & _ & Hm & Hs & Hc & _ & Hp & Hmod)%evictions_elem.
    exists m. split_and!; try done. rewrite Hp. intros Hin. apply Hc. by apply elem_of_list_to_set.
  - intros v Hin Hw. unfold evictions. rewrite evictions_of by done.
    destruct (evict_variant_spec (Memberships i) claimed order v Hw) as (H1 & H2 & kept & lost & Hp & Hg & Hk).
    change (list_to_set (act_Pod <$> _ ++ _)) with claimed.
    pose proof (spare_copies_perm (Memberships i) claimed order (variant_of v) Hn Ho) as Hperm.
    rewrite <- Hperm. split_and!; [done|done|]. exists kept, lost.
    split_and!; [by rewrite <- Hperm|done|].
    intros g k Hgl Hkk. specialize (Hk g k Hgl Hkk). unfold evict_less in Hk.
    destruct (Z.eqb_spec (LastUsed k) (LastUsed g)); simpl in Hk; [lia|]. by apply Z.ltb_ge in Hk.
Qed.

(** The hold timeout always reclaims.  A bridge held for the maximum time, in a
    pool that does not retain, is handed back by the plan whatever its variant
    still lacks, provided no second copy of the same model is reported waking
    in the same Pod. *)
Theorem Decide_expired_returned `{GoSort} weightsOf order i cfg v m :
  v ∈ Variants i → m ∈ Memberships i → mem_State m = Serving →
  mod_Variant (mem_Model m) = variant_of v → hold_expired i cfg m = true →
  (∀ w, w ∈ Memberships i → mem_State w = Waking → mem_Pod w = mem_Pod m →
        mod_Variant (mem_Model w) ≠ mod_Variant (mem_Model m)) →
  ∃ a, a ∈ Return (Decide weightsOf order i cfg) ∧ act_Pod a = mem_Pod m ∧
       mod_Variant (act_Model a) = variant_of v.
Proof.
  intros Hv Hm Hs Hx He Hw.
  assert (Hin : MkAction (mem_Pod m) (mem_Model m) ∈
    returnsFor v (default [] (lentByVariant (Memberships i) !! variant_of v)) i cfg).
  { apply returnsFor_expired; [|done]. by apply lent_spec. }
  apply (requested_returns_elem i cfg _ (knownModels (Variants i)) v) in Hin; [|done].
  pose proof (withKnownModel_key i (MkAction (mem_Pod m) (mem_Model m))) as Hk.
  set (a := withKnownModel _ _) in *. exists a. unfold act_key in Hk. cbn [act_Pod act_Model] in Hk.
  simplify_eq. split_and!; [|congruence|congruence].
  destruct (returns_survive weightsOf order i cfg a) as [?|[Ho _]]; [|done|].
  { unfold early_returns. apply elem_of_app. by left. }
  apply orphans_waking in Ho as (w & Hwm & Hws & Hkw). unfold act_key in Hkw. simplify_eq.
  exfalso. eapply Hw; [exact Hwm|done|congruence|congruence].
Qed.

(** A handover never uncovers demand.  While no bridge has outlived its hold,
    the bridges a variant keeps still cover, with its own ready replicas, all
    it wants, or as much of it as they covered before; and no bridge is handed
    back before its minimum hold unless another variant is short. *)
Theorem returnsFor_keeps_demand_covered `{GoSort} v lent i cfg :
  (0 ≤ Desired v ≤ int_max)%Z → (0 ≤ Ready v ≤ int_max)%Z → (Z.of_nat (length lent) ≤ int_max)%Z →
  (∀ m, m ∈ lent → hold_expired i cfg m = false) →
  let back := returnsFor v lent i cfg in
  (Z.min (Desired v) (Ready v + Z.of_nat (length lent))
   ≤ Ready v + Z.of_nat (length lent) - Z.of_nat (length back))%Z ∧
  ∀ a, a ∈ back → ∃ m, m ∈ lent ∧ a = MkAction (mem_Pod m) (mem_Model m) ∧
    (anotherVariantIsShort i (variant_of v) = true ∨ (MinHold cfg ≤ 0)%Z ∨
     (MinHold cfg ≤ held_for i m)%Z).
Proof.
  intros Hd Hr Hl He. cbv zeta. split.
  - pose proof (returnsFor_length v lent i cfg Hd Hr Hl He). lia.
  - intros a (m & Hm & -> & [E|Ho])%returnsFor_old_enough; [by rewrite He in E|]. by exists m.
Qed.

(** A Pod handed back for an intent keeps its labels.  The action that hands
    back the model standing in the way of the wanted one carries the observed
    model, which has no labels, even though demand knows them; the same return
    asked for by the variant itself carries them. *)
Example intent_return_loses_labels :
  ∃ order i cfg p full,
    Forall (λ m, PoolLabels (mem_Model m) = ∅) (Memberships i) ∧
    knownModels (Variants i) !! "A" = Some full ∧ PoolLabels full = {[ "pool" := "a" ]} ∧
    WantAwake i = "B" ∧
    (act_Pod <$> Borrow (Decide (H := insertion_GoSort) (λ _ _, None) order i cfg)) = [p] ∧
    (λ a, (act_Pod a, mod_Variant (act_Model a), PoolLabels (act_Model a))) <$>
      Return (Decide (H := insertion_GoSort) (λ _ _, None) order i cfg) = [(p, "A", ∅)] ∧
    PoolLabels (act_Model (withKnownModel (MkAction p (MkModel "pool" "A" "" "" ∅))
      (knownModels (Variants i)))) = {[ "pool" := "a" ]}.
Proof.
  exists [("pool", "p1")],
    (MkInput [MkMembership (MkModel "pool" "A" "" "" ∅) ("pool", "p1") Serving 0 (MkCapacity 1 0 "" 1);
              MkMembership (MkModel "pool" "B" "" "" ∅) ("pool", "p1") Asleep 0 (MkCapacity 1 0 "" 1)]
       [MkDemand (MkModel "team" "A" "" "" {[ "pool" := "a" ]}) 1 0 false (S754_zero false) "w" None;
        MkDemand (MkModel "team" "B" "" "" {[ "pool" := "b" ]}) 1 0 false (S754_zero false) "w" None]
       ∅ ∅ "B" ∅ 10),
    (MkConfig 0 100 0 false 0 0 0 0 0), ("pool", "p1"),
    (MkModel "team" "A" "" "" {[ "pool" := "a" ]}).
  split_and!; [by repeat constructor|vm_compute; reflexivity..].
Qed.

(** ** A pass over a small pool *)
Definition demo_model (x : string) : ModelRef := MkModel "pool" x "" "" ∅.
Definition demo_pod (n : string) : NamespacedName := ("pool", n).
Definition demo_copy (x n : string) (st : State) : Membership :=
  MkMembership (demo_model x) (demo_pod n) st 0 (MkCapacity 1 0 "" 1).
Definition demo_want (x : string) (d r : Z) (parked : bool) (warm : option Z) : VariantDemand :=
  MkDemand (demo_model x) d r parked (S754_zero false) "w" warm.

Definition demo_pass : Input := MkInput
  [demo_copy "A" "p1" Serving; demo_copy "A" "p2" Asleep; demo_copy "B" "p2" Asleep;
   demo_copy "" "p3" Absent; demo_copy "C" "p4" Asleep]
  [demo_want "A" 3 1 false None; demo_want "B" 1 0 false None; demo_want "C" 0 0 false (Some 0%Z);
   demo_want "D" 1 0 false None; demo_want "E" 0 0 true None]
  {[ (demo_pod "p1", "A") := 0%Z ]} ∅ "" ∅ 1000.

Definition demo_cfg : Config := MkConfig 1 500 0 false 0 0 0 0 0.
Definition demo_order : list NamespacedName := demo_pod <$> ["p1"; "p2"; "p3"; "p4"].
Definition demo_plan : Plan :=
  Decide (H := insertion_GoSort) (λ _ _, None) demo_order demo_pass demo_cfg.

Lemma demo_plan_is :
  act_key <$> Return demo_plan = [(demo_pod "p1", "A")] ∧
  act_key <$> Borrow demo_plan = [(demo_pod "p1", "A"); (demo_pod "p2", "B")] ∧
  act_key <$> Admit demo_plan = [(demo_pod "p3", "E")] ∧
  act_key <$> Evict demo_plan = [(demo_pod "p4", "C")] ∧
  GrowBy demo_plan = 0%Z ∧ mod_Variant <$> Missed demo_plan = ["D"].
Proof. vm_compute. split_and!; reflexivity. Qed.

Lemma Decide_shortage_reported_witness :
  let v := demo_want "D" 1 0 false None in
  (0 < shortfall_of (lentByVariant (Memberships demo_pass)) v)%Z ∧
  ((shortfall_of (lentByVariant (Memberships demo_pass)) v ≤
     Z.of_nat (length (filter (λ a, mod_Variant (act_Model a) = variant_of v) (Borrow demo_plan))))%Z
   ∨ Model v ∈ Blocked demo_plan ∨ Model v ∈ Missed demo_plan).
Proof.
  cbv zeta. split; [vm_compute; reflexivity|].
  apply (Decide_shortage_reported (H := insertion_GoSort) (λ _ _, None) demo_order demo_pass demo_cfg
           (demo_want "D" 1 0 false None)); [|vm_compute; reflexivity].
  do 3 apply list_elem_of_further. apply list_elem_of_here.
Defined.

Lemma demo_bounds :
  (0 ≤ SleepMinSize demo_cfg ≤ int_max)%Z ∧ (Z.of_nat (length (Memberships demo_pass)) ≤ int_max)%Z.
Proof. unfold int_max. simpl. lia. Qed.

Lemma Decide_admissions_safe_witness :
  NoDup (act_Pod <$> Borrow demo_plan ++ Admit demo_plan) ∧
  act_key <$> Admit demo_plan = [(demo_pod "p3", "E")].
Proof.
  split; [|vm_compute; reflexivity].
  apply (Decide_admissions_safe (H := insertion_GoSort) (λ _ _, None) demo_order demo_pass demo_cfg);
    apply demo_bounds.
Defined.

Lemma Decide_reserve_accounting_witness :
  Admit demo_plan ≠ [] ∧ (Admit demo_plan ≠ [] → GrowBy demo_plan = 0%Z).
Proof.
  split; [vm_compute; discriminate|]. intros Hne.
  destruct (Decide_reserve_accounting (H := insertion_GoSort) (λ _ _, None) demo_order demo_pass demo_cfg
    (proj1 demo_bounds) (proj2 demo_bounds)) as (_ & _ & Hg).
  exact (proj1 (Hg Hne)).
Defined.

Lemma demo_order_ok :
  NoDup demo_order ∧ (∀ p, p ∈ demo_order ↔ p ∈ dom (ByPod (Memberships demo_pass))) ∧
  NoDup (variant_of <$> Variants demo_pass).
Proof.
  assert (Hd : dom (ByPod (Memberships demo_pass)) = list_to_set demo_order) by (vm_compute; reflexivity).
  split_and!.
  - apply (bool_decide_unpack (NoDup demo_order)). vm_compute. exact I.
  - intros p. rewrite Hd. by rewrite elem_of_list_to_set.
  - apply (bool_decide_unpack (NoDup (variant_of <$> Variants demo_pass))). vm_compute. exact I.
Qed.

Lemma Decide_evictions_safe_witness :
  act_key <$> Evict demo_plan = [(demo_pod "p4", "C")] ∧
  (∀ a, a ∈ Evict demo_plan → ∃ m, m ∈ Memberships demo_pass ∧ act_Pod a = mem_Pod m ∧
     act_Model a = mem_Model m ∧ mem_State m ≠ Serving ∧
     act_Pod a ∉ act_Pod <$> Borrow demo_plan ++ Admit demo_plan).
Proof.
  split; [vm_compute; reflexivity|].
  apply (Decide_evictions_safe (H := insertion_GoSort) (λ _ _, None) demo_order demo_pass demo_cfg);
    apply demo_order_ok.
Defined.

Lemma Decide_expired_returned_witness :
  ∃ a, a ∈ Return demo_plan ∧ act_Pod a = demo_pod "p1" ∧ mod_Variant (act_Model a) = "A".
Proof.
  apply (Decide_expired_returned (H := insertion_GoSort) (λ _ _, None) demo_order demo_pass demo_cfg
           (demo_want "A" 3 1 false None) (demo_copy "A" "p1" Serving));
    [apply list_elem_of_here|apply list_elem_of_here|reflexivity|reflexivity|vm_compute; reflexivity|].
  intros w Hw Hs. exfalso. revert w Hw Hs.
  apply (Forall_forall (λ w, mem_State w = Waking → False)). repeat constructor; discriminate.
Defined.

Lemma returnsFor_keeps_demand_covered_witness :
  let back := returnsFor (H := insertion_GoSort) (demo_want "A" 2 1 false None)
                [demo_copy "A" "p1" Serving; demo_copy "A" "p2" Serving] demo_pass
                (MkConfig 1 5000 0 false 0 0 0 0 0) in
  length back = 1%nat ∧ (Z.min 2 (1 + 2) ≤ 1 + 2 - Z.of_nat (length back))%Z.
Proof.
  cbv zeta. split; [vm_compute; reflexivity|].
  apply (returnsFor_keeps_demand_covered (H := insertion_GoSort) (demo_want "A" 2 1 false None)
    [demo_copy "A" "p1" Serving; demo_copy "A" "p2" Serving] demo_pass
    (MkConfig 1 5000 0 false 0 0 0 0 0)); [unfold int_max; simpl; lia..|].
  apply (Forall_forall (λ m, hold_expired _ _ m = false)). repeat constructor; vm_compute; reflexivity.
Defined.
